(* ===== verification/_CoqProject ===== *)
-Q . S2P
Prelude.v
Collections.v
PathTemplate.v
Scan.v
Trie.v
RtTrie.v
Walk.v
Resolver.v
DynBuilder.v
Query.v
StdTime.v
Health.v
Engine.v
Breaker.v
Retry.v
Hedging.v
ByteSpan.v
ByteView.v
ByteBuf.v
ByteWorld.v
ByteNum.v
Llrb.v
Pagemap.v
Buddy.v
Classes.v
Timers.v
ClockControl.v
TickWorld.v
Uniflight.v
SlotList.v
AsyncMutex.v
Combining.v
Backend.v
RemoteQueue.v
