(* ===== verification/Prelude.v ===== *)
(** * Verification of the oxidizer crates

    The repository is a Rust workspace of independent crates under [src/crates/].  This
    library models the crates that carry the most logic of their own, as executable
    definitions translated from the sources, and proves what makes them correct.

    ** The modelled program

    - [http_path_template] parses and prints [google.api.http] path templates.
    - [routerama_build] collects routes into a trie and checks them for conflicts;
      [routerama] compiles that trie into a run-time form, scans request paths (in scalar,
      SSE2 and NEON forms), walks the trie with backtracking, and materializes captures.  It
      also parses and writes query strings under resource limits.
    - [recoverable] classifies outcomes; [seatbelt] builds resilience middleware on it: a
      circuit breaker (sliding-window health, a state machine with staged probes, one engine
      per identity, a guard for dropped futures), a retry loop with backoff and a hedging
      loop over concurrent attempts.
    - [bytesbuf] keeps byte sequences as views and buffers over reference-counted blocks
      that they share.
    - [rallocator] is a memory allocator: size classes, buddy ranges whose free blocks are
      kept in red-black trees that live in the blocks or in a page map, a backend that composes
      a global range with the ranges of its owners, a combining lock around the global one, and
      queues through which owners return memory to each other.
    - [tick] drives timers: a timer set per clock, a clock that tests control, delays and a
      driver that wakes them.
    - [uniflight] merges concurrent calls for one key into one.
    - [performables] has an asynchronous mutex, with a queue of waiters in a slot list.

    Templates flow into routes, routes into the trie, the trie into the resolver; the
    resolver calls the scanner and the walk.  The breaker middleware calls the engines, which
    call the probes and the health window; the retry loop calls the backoff iterator.  Buffers
    freeze span builders into the spans of views.  The backend
    calls buddy ranges and the page map, buddy ranges the trees, and the trees a node storage.  Delays and the driver call the timer set.

    ** Files

    - [Prelude]: outcomes of Rust code (a value, an error, a panic), byte strings and slices,
      the state-and-error monad [action], machine integers, shared lemmas, tactics, hints.
    - [Collections]: orderings, the [BTreeMap] entry operations, stable sorting, UTF-8.
    - [PathTemplate]: [http_path_template] ([PathTemplate::parse], [Display]).
    - [Scan]: [routerama/src/codegen_helpers/] ([split_verb], [scan_path], the scanners at
      the level of vector lanes and masks, the offset buffers).
    - [Trie]: [routerama_build/src/trie.rs] and [route.rs] ([build_trie], [conflicts]).
    - [RtTrie]: [routerama/src/rt_node.rs] ([RtNode::compile], [discard_source]).
    - [Walk]: [routerama/src/walk.rs] ([descend_iterative] with its explicit stack).
    - [Resolver]: [routerama/src/raw_resolver.rs], [captures.rs], [raw_match.rs].
    - [DynBuilder]: [routerama/src/dyn_builder.rs], [http_method.rs] and its errors.
    - [Query]: [routerama/src/query/] (byte search, parser, encoder, limits), [decode.rs],
      and [encode_parameter] of the query derive macro.
    - [StdTime]: durations, instants, saturating integers, IEEE floats (Stdlib SpecFloat).
    - [Health]: [recoverable/src/lib.rs]; [seatbelt/src/breaker/] health, health_eval,
      abandoned_policy, execution_result.
    - [Engine]: [seatbelt/src/breaker/engine/] (engine_core with its mutex, probing),
      half_open_mode, and the settings of layer.rs that reach the engine.
    - [Breaker]: breaker_id, engines and service of [seatbelt/src/breaker/].
    - [Retry]: [seatbelt/src/attempt.rs] and [retry/] (backoff, service).
    - [Hedging]: [seatbelt/src/hedging/service.rs], the select loop as a machine.
    - [ByteSpan], [ByteView], [ByteBuf]: spans and span builders, views and buffers of
      [bytesbuf/src/]; [ByteNum]: the numeric accessors; [ByteWorld]: buffers and views
      together over shared memory, and the plain byte strings they stand for.
    - [Llrb], [Pagemap], [Buddy], [Classes]: [rallocator/src/] buddy.rs (the trees behind
      the class [Nodes] of node storages, and the ranges), pagemap.rs, classes.rs;
      [Backend]: backend.rs with [hal::reserve], as a machine of owners and clients;
      [RemoteQueue]: the queue of remote.rs, as a machine of publishers and a consumer.
    - [Timers], [ClockControl], [TickWorld]: [tick/src/] timers and clock storage, the
      controlled clock, and futures, clocks and driver as one machine.
    - [Uniflight]: [Merger::execute] of [uniflight/src/lib.rs], as a machine over any finite
      map and any cell that keeps [OnceCellLaws].
    - [SlotList], [AsyncMutex]: [performables/src/sync/] slot_list.rs; mutex.rs (the [Async]
      strategy) with wait_queue.rs, as a machine.
    - [Combining]: [rallocator/src/combining.rs] with the wait and wake of the Linux layer,
      as a machine.

    ** Conventions

    A [&str] or [&[u8]] is a list of bytes held as [Z]; a [usize] that indexes a slice is a
    [nat], other machine integers are [Z] with their saturation or overflow written out.  A
    panic (failed assertion, slice out of range, [expect] on [None], overflow) is the outcome
    [Panic], so that its absence is a theorem; so is an access that would be undefined
    behaviour (memory that is not there, a node of a call that has returned).  Debug
    assertions are on or off by a parameter.  A method with [&mut self] is a function that
    also returns the state, or an [action]; an [action] leaves a state behind also when it
    fails.  A [HashMap] or [BTreeMap] used as a map is a [gmap] or an association list
    ordered as in the code.

    Concurrency is the order in which steps run, given as an arbitrary list: a step is one
    section of a lock or one atomic operation, and atomics are sequentially consistent (their
    weaker orderings are not modelled).  A waker is the number of the task it wakes.

    Code outside the repository (the random generator, [exp2] and [tanh], the clock, user
    callbacks, the inner service, [itoa], the concurrent map and the once-cell of uniflight,
    the operating system's memory) is an argument; what is relied on is a named hypothesis or
    a class, such as [OnceCellLaws], with an instance or a witness that shows it can hold.
    Two hypotheses go beyond what the source documents, because the code fails without them: a
    split of a buffer leaves capacity to a builder that holds bytes ([ByteWorld.allowed]), and no block of
    which the buddy would lie at address 0 is merged ([Buddy.null_apart]); theorems beside
    them show the failures.

    ** What the theorems show

    - Routing, end to end: resolving a path returns the registered route of highest
      precedence that matches, with the captured texts, and errs or panics never otherwise
      ([Resolver]); through the iterative walk equal to the recursive search ([Walk]), the
      compiled trie equal to the translation of the built one ([RtTrie]), the built trie
      holding exactly the registered routes and the conflict check being exact ([Trie]).
    - Parsing: templates round-trip, are well formed when accepted, and never panic
      ([PathTemplate]); vector scanners equal the scalar ones and all unchecked accesses are in
      range ([Scan]); every form of the query parser equals a reference parser, respects the
      limits, and inverts the encoder ([Query]).
    - Circuit breaking: the window counts what it should ([Health]); an open circuit blocks,
      recovery takes every stage, late results do not interfere, nothing panics while times
      fit, and the settings that panic nevertheless are known exactly ([Engine]); each identity's
      engine behaves as if alone, each admitted call reports once unless an unwinding thread
      drops it, callbacks are exactly the transitions ([Breaker]).
    - Retrying: the loop terminates within its attempts, for the documented reasons and with
      the documented delays, which stay in bounds ([Retry]).
    - Hedging: for every order of completions and expiries no panic, no lost attempt, the
      right output, and a bound on the number of events ([Hedging]).
    - Byte sequences: any use of buffers and views over shared memory gives the bytes that
      plain byte strings would, within the documented limits and outside the one documented call
      that breaks a buffer ([ByteWorld], [ByteBuf]).
    - Allocation: the trees are ordered sets ([Llrb]), blocks never overlap and memory is
      neither lost nor duplicated ([Buddy]), a request gets the best fitting size ([Classes]);
      the backend keeps every reserved byte in exactly one place, what clients hold is
      theirs and usable, and every request has an answer ([Backend]).
    - Timers: due timers are woken, wake-ups are never lost ([TickWorld]), the controlled
      clock moves exactly as told ([ClockControl]).
    - Synchronization: single-flight calls refine their specification, share and finish
      ([Uniflight]); the slot list is a keyed sequence ([SlotList]); the mutex excludes and
      loses no wake-up ([AsyncMutex]); the combining lock is linearizable, touches no node of
      a returned call, and all its calls can return ([Combining]); the queue of remote frees
      delivers in order, exactly once, and all but its tail ([RemoteQueue]).

    ** Fuel and bounds

    Loops that are not structural take fuel and panic (or return no result) without it.  The
    bounds are the length of the input for the parsers (each round consumes a byte), the number
    of trie nodes and path segments for the walk, [max_attempts + 1] for the retry loop, 130
    levels for the trees ([MAX_DEPTH]: twice the greatest black height a tree of 64-bit
    addresses can have), and the sizes above a block for the buddies, and 130
    rounds to split a range into aligned powers of two.  The theorems prove that
    this fuel is enough; none is conditional on a result.  [TickWorld] allows fewer than
    2^32 - 1 registrations and creations (any number of other steps) and [SlotList] fewer than 2^64
    operations, where the code's counters would wrap around; the counts of [Health] are exact while no
    sampling duration holds more results than a [u32] counts.

    ** Not modelled, and the plan

    Not modelled: telemetry, serialization, generated tokens, network and process I/O, and the
    crates listed as such in the manifest.  What would come next, in this order: the cores of
    rallocator, which cut slabs from the modelled backend, and their cache of remote
    frees; timeout and fallback of seatbelt; the tiers of cachet; the channels, read-write
    locks and conditions of performables over the modelled wait queue; the escaping of
    templated_uri; the codecs of http_headers and seismograph_protocol. *)

From Stdlib Require Export ZArith Lia Ascii.
From stdpp Require Export base tactics list numbers strings gmap.

(** ** Outcomes of Rust code

    A Rust function either returns, returns an [Err], or panics (a failed
    [assert!], an out-of-range slice, an [expect] on [None], an arithmetic
    overflow with overflow checks on). *)
Inductive outcome (E A : Type) : Type :=
| Ok (a : A)
| Err (e : E)
| Panic.
Arguments Ok {E A} a.
Arguments Err {E A} e.
Arguments Panic {E A}.

Declare Scope rust_scope.
Delimit Scope rust_scope with rust.
Notation "'let?' x := c 'in' k" :=
  (match c with Ok x => k | Err e => Err e | Panic => Panic end)
  (at level 10, x pattern, c at level 100, k at level 200,
   format "'[v' 'let?'  x  :=  c  'in' '/' k ']'") : rust_scope.
Open Scope rust_scope.

(** A slice of bytes: each element is a [u8] held as a [Z]. *)
Abbreviation bytes := (list Z) (only parsing).

(** The bytes of an ASCII string literal. *)
Definition str (s : string) : bytes :=
  (fun a => Z.of_nat (nat_of_ascii a)) <$> String.list_ascii_of_string s.
Arguments str s : simpl never.

(** ASCII codes of the delimiters the parsers look for. *)
Abbreviation c_space := 32%Z.
Abbreviation c_hash := 35%Z.
Abbreviation c_percent := 37%Z.
Abbreviation c_amp := 38%Z.
Abbreviation c_star := 42%Z.
Abbreviation c_plus := 43%Z.
Abbreviation c_dot := 46%Z.
Abbreviation c_slash := 47%Z.
Abbreviation c_colon := 58%Z.
Abbreviation c_eq := 61%Z.
Abbreviation c_quest := 63%Z.
Abbreviation c_under := 95%Z.
Abbreviation c_lbrace := 123%Z.
Abbreviation c_rbrace := 125%Z.

(** [&s[a..b]]; panics unless [a <= b <= s.len()]. *)
Definition slice {E} (s : bytes) (a b : nat) : outcome E bytes :=
  if (a <=? b) && (b <=? length s) then Ok (take (b - a) (drop a s)) else Panic.

(** [&s[a..]]; panics unless [a <= s.len()]. *)
Definition slice_from {E} (s : bytes) (a : nat) : outcome E bytes :=
  if a <=? length s then Ok (drop a s) else Panic.

(** [&s[..b]]; panics unless [b <= s.len()]. *)
Definition slice_to {E} (s : bytes) (b : nat) : outcome E bytes :=
  if b <=? length s then Ok (take b s) else Panic.

(** ** ASCII classes of [u8] (the standard library's [is_ascii_*]). *)
Definition in_range (lo hi b : Z) : bool := ((lo <=? b) && (b <=? hi))%Z.
Definition is_ascii_digit (b : Z) : bool := in_range 48 57 b.
Definition is_ascii_alphabetic (b : Z) : bool := in_range 65 90 b || in_range 97 122 b.
Definition is_ascii_alphanumeric (b : Z) : bool := is_ascii_alphabetic b || is_ascii_digit b.
Definition is_ascii_hexdigit (b : Z) : bool :=
  is_ascii_digit b || in_range 65 70 b || in_range 97 102 b.

(** [bytes.iter().position(|b| p b)]. *)
Fixpoint position (p : Z -> bool) (bs : bytes) : option nat :=
  match bs with
  | [] => None
  | b :: rest => if p b then Some 0 else S <$> position p rest
  end.

(** [bytes.split(|b| b == sep)]: always yields at least one piece. *)
Fixpoint split_on (sep : Z) (bs : bytes) : list bytes :=
  match bs with
  | [] => [[]]
  | b :: rest =>
      if (b =? sep)%Z then [] :: split_on sep rest
      else match split_on sep rest with
           | [] => [[b]]
           | piece :: more => (b :: piece) :: more
           end
  end.

(** Equality of byte strings ([==] on [&str] and [&[u8]]). *)
Definition bytes_eqb (x y : bytes) : bool := bool_decide (x = y).

(** ** Shared automation *)

(** Case analysis on the test of every [if] and [match] of the goal. *)
Ltac split_matches := repeat (case_match || case_decide); simplify_eq/=.

(** Turns boolean tests in the context into propositions. *)
Ltac to_prop :=
  repeat match goal with
  | H : (_ && _)%bool = true |- _ => apply andb_true_iff in H as [? ?]
  | H : (_ || _)%bool = false |- _ => apply orb_false_iff in H as [? ?]
  | H : negb _ = true |- _ => apply negb_true_iff in H
  | H : negb _ = false |- _ => apply negb_false_iff in H
  | H : (_ =? _)%Z = true |- _ => apply Z.eqb_eq in H
  | H : (_ =? _)%Z = false |- _ => apply Z.eqb_neq in H
  | H : (_ <=? _)%Z = true |- _ => apply Z.leb_le in H
  | H : (_ <=? _)%Z = false |- _ => apply Z.leb_gt in H
  | H : (_ <? _)%Z = true |- _ => apply Z.ltb_lt in H
  | H : (_ <? _)%Z = false |- _ => apply Z.ltb_ge in H
  | H : (_ =? _) = true |- _ => apply Nat.eqb_eq in H
  | H : (_ =? _) = false |- _ => apply Nat.eqb_neq in H
  | H : (_ <=? _) = true |- _ => apply Nat.leb_le in H
  | H : (_ <=? _) = false |- _ => apply Nat.leb_gt in H
  | H : (_ <? _) = true |- _ => apply Nat.ltb_lt in H
  | H : (_ <? _) = false |- _ => apply Nat.ltb_ge in H
  | H : bool_decide _ = true |- _ => apply bool_decide_eq_true in H
  | H : bool_decide _ = false |- _ => apply bool_decide_eq_false in H
  end.

(** ** Slices *)

Lemma slice_app {E} (p m q : bytes) :
  slice (E:=E) (p ++ m ++ q) (length p) (length p + length m) = Ok m.
Proof.
  unfold slice. rewrite !length_app.
  rewrite (proj2 (Nat.leb_le _ _)) by lia. rewrite (proj2 (Nat.leb_le _ _)) by lia.
  cbn. rewrite drop_app_length. replace (length p + length m - length p) with (length m) by lia.
  by rewrite take_app_length.
Qed.

Lemma slice_ok {E} (s : bytes) a b :
  a <= b -> b <= length s -> slice (E:=E) s a b = Ok (take (b - a) (drop a s)).
Proof. intros. unfold slice. by rewrite !(proj2 (Nat.leb_le _ _)) by lia. Qed.

Lemma slice_from_ok {E} (s : bytes) a : a <= length s -> slice_from (E:=E) s a = Ok (drop a s).
Proof. intros. unfold slice_from. by rewrite (proj2 (Nat.leb_le _ _)) by lia. Qed.

Lemma slice_to_ok {E} (s : bytes) b : b <= length s -> slice_to (E:=E) s b = Ok (take b s).
Proof. intros. unfold slice_to. by rewrite (proj2 (Nat.leb_le _ _)) by lia. Qed.

Lemma slice_from_app {E} (p q : bytes) : slice_from (E:=E) (p ++ q) (length p) = Ok q.
Proof. rewrite slice_from_ok; [by rewrite drop_app_length | rewrite length_app; lia]. Qed.

Lemma slice_to_app {E} (p q : bytes) : slice_to (E:=E) (p ++ q) (length p) = Ok p.
Proof. rewrite slice_to_ok; [by rewrite take_app_length | rewrite length_app; lia]. Qed.

(** ** Byte strings *)

Lemma bytes_eqb_eq x y : bytes_eqb x y = true <-> x = y.
Proof. apply bool_decide_eq_true. Qed.

Lemma bytes_eqb_refl x : bytes_eqb x x = true.
Proof. by apply bytes_eqb_eq. Qed.

Lemma bytes_eqb_neq x y : bytes_eqb x y = false <-> x <> y.
Proof. apply bool_decide_eq_false. Qed.

Lemma existsb_eqb_false c s : existsb (Z.eqb c) s = false <-> c ∉ s.
Proof.
  induction s as [|x s IH]; cbn; [set_solver|].
  rewrite orb_false_iff, IH, Z.eqb_neq, not_elem_of_cons. naive_solver.
Qed.

Lemma existsb_eqb_true c s : existsb (Z.eqb c) s = true <-> c ∈ s.
Proof.
  induction s as [|x s IH]; cbn; [set_solver|].
  rewrite orb_true_iff, IH, Z.eqb_eq, elem_of_cons. naive_solver.
Qed.

Lemma position_None c s : position (Z.eqb c) s = None <-> c ∉ s.
Proof.
  induction s as [|x s IH]; cbn; [set_solver|].
  rewrite not_elem_of_cons, <- IH.
  destruct (Z.eqb_spec c x), (position (Z.eqb c) s); naive_solver.
Qed.

Lemma position_app c p q : c ∉ p -> position (Z.eqb c) (p ++ c :: q) = Some (length p).
Proof.
  induction p as [|x p IH]; cbn; intros Hp.
  - by rewrite Z.eqb_refl.
  - apply not_elem_of_cons in Hp as [Hx Hp].
    rewrite (proj2 (Z.eqb_neq _ _) Hx), IH by done. done.
Qed.

Lemma position_Some c s i :
  position (Z.eqb c) s = Some i ->
  exists p q, s = p ++ c :: q /\ c ∉ p /\ i = length p.
Proof.
  revert i; induction s as [|x s IH]; intros i; cbn; [done|].
  destruct (Z.eqb_spec c x) as [->|Hne].
  - intros [= <-]. exists [], s. set_solver.
  - intros (j & Hj & ->)%fmap_Some. destruct (IH _ Hj) as (p & q & -> & Hp & ->).
    exists (x :: p), q. set_solver.
Qed.

(** ** Splitting on a separator *)

Lemma split_on_nonempty c s : split_on c s <> [].
Proof. destruct s as [|x s]; cbn; [done|]. by repeat case_match. Qed.

Lemma split_on_none c s : c ∉ s -> split_on c s = [s].
Proof.
  induction s as [|x s IH]; cbn; [done|]. intros [Hx Hs]%not_elem_of_cons.
  rewrite (proj2 (Z.eqb_neq x c)) by done. by rewrite IH.
Qed.

Lemma split_on_app c p q : c ∉ p -> split_on c (p ++ c :: q) = p :: split_on c q.
Proof.
  induction p as [|x p IH]; cbn; intros Hp.
  - by rewrite Z.eqb_refl.
  - apply not_elem_of_cons in Hp as [Hx Hp].
    rewrite (proj2 (Z.eqb_neq x c)) by done. by rewrite IH.
Qed.

Lemma elem_of_split_on c s x :
  x ∈ s -> x = c \/ exists p, p ∈ split_on c s /\ x ∈ p.
Proof.
  induction s as [|y s IH]; [set_solver|].
  intros Hx. cbn. destruct (Z.eqb_spec y c) as [->|Hy].
  - apply elem_of_cons in Hx as [->|Hx]; [by left|].
    destruct (IH Hx) as [|(p & ? & ?)]; [by left|right; exists p; set_solver].
  - destruct (split_on c s) as [|p ps] eqn:Hs; [by apply split_on_nonempty in Hs|].
    apply elem_of_cons in Hx as [->|Hx].
    + right. exists (y :: p). set_solver.
    + destruct (IH Hx) as [|(p' & [->|?]%elem_of_cons & ?)]; [by left| |];
        right; [exists (y :: p)|exists p']; set_solver.
Qed.

Lemma split_on_count c s :
  length (split_on c s) = length (filter (fun b => b = c) s) + 1.
Proof.
  induction s as [|x s IH]; [done|]. rewrite filter_cons. cbn [split_on].
  destruct (Z.eqb_spec x c) as [->|Hx], (decide _); try done; cbn; [lia|].
  destruct (split_on c s) as [|p ps] eqn:Hs; [by apply split_on_nonempty in Hs|]. cbn in *. lia.
Qed.

Lemma forallb_elem_of {A} (p : A -> bool) l x : forallb p l = true -> x ∈ l -> p x = true.
Proof. rewrite forallb_forall, list_elem_of_In. auto. Qed.

(** The pieces with [sep] between them: the inverse of [split_on]. *)
Fixpoint join (sep : Z) (pieces : list bytes) : bytes :=
  match pieces with
  | [] => []
  | [piece] => piece
  | piece :: more => piece ++ sep :: join sep more
  end.

Lemma join_cons sep p ps : ps <> [] -> join sep (p :: ps) = p ++ sep :: join sep ps.
Proof. by destruct ps. Qed.

Lemma join_split c s : join c (split_on c s) = s.
Proof.
  induction s as [|x s IH]; [done|]. cbn [split_on].
  pose proof (split_on_nonempty c s) as Hne.
  destruct (Z.eqb_spec x c) as [->|Hx].
  - rewrite join_cons by done. by rewrite IH.
  - destruct (split_on c s) as [|p [|q ps]]; [done| |]; cbn in *; by rewrite IH.
Qed.

Lemma split_on_pieces c s p : p ∈ split_on c s -> c ∉ p.
Proof.
  revert p; induction s as [|x s IH]; cbn; intros p Hp.
  - apply list_elem_of_singleton in Hp as ->. apply not_elem_of_nil.
  - destruct (Z.eqb_spec x c) as [->|Hx].
    + apply elem_of_cons in Hp as [->|Hp]; [apply not_elem_of_nil|by apply IH].
    + destruct (split_on c s) as [|q qs] eqn:Hs; [by apply split_on_nonempty in Hs|].
      apply elem_of_cons in Hp as [->|Hp]; [|apply IH; by right].
      apply not_elem_of_cons. split; [done|]. apply IH. by left.
Qed.

Lemma elem_of_concat {A} (x : A) (ls : list (list A)) : x ∈ concat ls -> exists l, l ∈ ls /\ x ∈ l.
Proof.
  induction ls as [|l ls IH]; cbn; [intros []%not_elem_of_nil|].
  intros [H|H]%elem_of_app; [exists l; set_solver|]. destruct (IH H) as (l' & ? & ?). exists l'. set_solver.
Qed.

(** ** Stateful code

    A method with [&mut self] that can fail: it returns an outcome and the state it
    leaves behind, also when it returns an error. *)
Definition action (S E A : Type) : Type := S -> outcome E A * S.

Definition ret {S E A} (a : A) : action S E A := fun s => (Ok a, s).
Definition throw {S E A} (e : E) : action S E A := fun s => (Err e, s).
Definition panic {S E A} : action S E A := fun s => (Panic, s).
Definition get_state {S E} : action S E S := fun s => (Ok s, s).
Definition set_state {S E} (s : S) : action S E unit := fun _ => (Ok tt, s).
Definition bind {S E A B} (m : action S E A) (k : A -> action S E B) : action S E B :=
  fun s => match m s with
           | (Ok a, s') => k a s'
           | (Err e, s') => (Err e, s')
           | (Panic, s') => (Panic, s')
           end.

Notation "'let!' x := m 'in' k" := (bind m (fun x => k))
  (at level 10, x pattern, m at level 100, k at level 200,
   format "'[v' 'let!'  x  :=  m  'in' '/' k ']'") : rust_scope.

(** Runs an action that is known to succeed. *)
Lemma bind_ok {S E A B} (m : action S E A) (k : A -> action S E B) s a s' :
  m s = (Ok a, s') -> bind m k s = k a s'.
Proof. unfold bind. by intros ->. Qed.

Lemma bind_err {S E A B} (m : action S E A) (k : A -> action S E B) s e s' :
  m s = (Err e, s') -> bind m k s = (Err e, s').
Proof. unfold bind. by intros ->. Qed.

Lemma bind_get {S E B} (k : S -> action S E B) s : bind get_state k s = k s s.
Proof. done. Qed.

Lemma bind_assoc {S E A B C} (m : action S E A) (k : A -> action S E B) (l : B -> action S E C) s :
  bind (bind m k) l s = bind m (fun a => bind (k a) l) s.
Proof. unfold bind. by destruct (m s) as [[| |] ?]. Qed.

Lemma bind_ext {S E A B} (m m' : action S E A) (k k' : A -> action S E B) s :
  m s = m' s -> (forall a s', k a s' = k' a s') -> bind m k s = bind m' k' s.
Proof. unfold bind. intros -> Hk. destruct (m' s) as [[| |] ?]; [apply Hk|done..]. Qed.

(** ** Machine integers *)

(** [usize] on the 64-bit targets. *)
Definition usize_max : Z := 18446744073709551615.

(** A slice or a [Vec] holds at most [isize::MAX] bytes. *)
Definition isize_max : Z := 9223372036854775807.

Definition checked_add (a b : Z) : option Z :=
  if (a + b <=? usize_max)%Z then Some (a + b)%Z else None.

(** [checked_sub] of an unsigned type. *)
Definition checked_sub (a b : Z) : option Z := if (b <=? a)%Z then Some (a - b)%Z else None.

(** [wrapping_add], [wrapping_sub] and the [as] casts of [u32] and of a 64-bit [usize]. *)
Definition wrap32 (z : Z) : Z := (z mod 4294967296)%Z.
Definition wrap64 (z : Z) : Z := (z mod 18446744073709551616)%Z.

(** [Option::expect] and [assert!]. *)
Definition expect {E A} (o : option A) : outcome E A := match o with Some a => Ok a | None => Panic end.
Definition rust_assert {E} (c : bool) : outcome E unit := if c then Ok tt else Panic.

(** [debug_assert!], which is compiled in when [debug] is set. *)
Definition debug_assert {E} (debug c : bool) : outcome E unit := if debug && negb c then Panic else Ok tt.

Lemma wrap32_small z : (0 <= z <= 4294967295)%Z -> wrap32 z = z.
Proof. intros. apply Z.mod_small. lia. Qed.

Lemma wrap64_small z : (0 <= z <= usize_max)%Z -> wrap64 z = z.
Proof. intros. apply Z.mod_small. unfold usize_max in *. lia. Qed.

Lemma checked_add_Some a b : (a + b <= usize_max)%Z -> checked_add a b = Some (a + b)%Z.
Proof. intros. unfold checked_add. by rewrite (proj2 (Z.leb_le _ _)). Qed.

Lemma checked_sub_Some a b : (b <= a)%Z -> checked_sub a b = Some (a - b)%Z.
Proof. intros. unfold checked_sub. by rewrite (proj2 (Z.leb_le _ _)). Qed.

Lemma debug_assert_true {E} debug c : c = true -> debug_assert (E:=E) debug c = Ok tt.
Proof. intros ->. by destruct debug. Qed.

(** ** Lists *)

Lemma filter_none {A} (P : A -> Prop) `{forall x, Decision (P x)} l : Forall (fun x => ~ P x) l -> filter P l = [].
Proof. induction 1 as [|x l Hx _ IH]; [done|]. by rewrite filter_cons_False. Qed.

Lemma filter_equiv {A} (P Q : A -> Prop) `{forall x, Decision (P x)} `{forall x, Decision (Q x)} l :
  Forall (fun x => P x <-> Q x) l -> filter P l = filter Q l.
Proof.
  induction 1 as [|x l Hx _ IH]; [done|]. rewrite !filter_cons, IH. repeat case_decide; naive_solver.
Qed.

Lemma filter_all {A} (P : A -> Prop) `{forall x, Decision (P x)} l : Forall P l -> filter P l = l.
Proof. induction 1 as [|x l Hx _ IH]; [done|]. by rewrite filter_cons_True, IH. Qed.

(** [Vec::pop] and [last_mut]: what is before the last element, and that element. *)
Fixpoint pop_last {A} (l : list A) : option (list A * A) :=
  match l with
  | [] => None
  | x :: l => match pop_last l with Some (front, y) => Some (x :: front, y) | None => Some ([], x) end
  end.

Lemma pop_last_snoc {A} (l : list A) x : pop_last (l ++ [x]) = Some (l, x).
Proof. induction l as [|y l IH]; cbn; [done|]. by rewrite IH. Qed.

Lemma pop_last_Some {A} (l : list A) front x : pop_last l = Some (front, x) -> l = front ++ [x].
Proof.
  destruct l as [|y l _] using rev_ind; [done|]. rewrite pop_last_snoc. by intros [= -> ->].
Qed.

Lemma pop_last_None {A} (l : list A) : pop_last l = None -> l = [].
Proof. destruct l as [|y l _] using rev_ind; [done|]. by rewrite pop_last_snoc. Qed.

(** Sums of integers. *)
Definition sum_Z (l : list Z) : Z := foldr Z.add 0%Z l.
Arguments sum_Z l : simpl never.

Lemma sum_Z_cons x l : sum_Z (x :: l) = (x + sum_Z l)%Z.
Proof. done. Qed.

Lemma sum_Z_app l k : sum_Z (l ++ k) = (sum_Z l + sum_Z k)%Z.
Proof. unfold sum_Z. induction l as [|x l IH]; cbn; [done|]. rewrite IH. lia. Qed.

Lemma sum_Z_rev l : sum_Z (rev l) = sum_Z l.
Proof. induction l as [|x l IH]; [done|]. cbn [rev]. rewrite sum_Z_app, IH. unfold sum_Z. cbn [foldr]. lia. Qed.

Lemma sum_Z_nonneg l : Forall (fun x => (0 <= x)%Z) l -> (0 <= sum_Z l)%Z.
Proof. unfold sum_Z. induction 1; cbn; lia. Qed.

(** The sum of a measure over a list in which one entry changes. *)
Lemma sum_with_insert {A} (f : A -> nat) (l : list A) i x y : l !! i = Some x -> (sum_list_with f (<[i := y]> l) + f x = sum_list_with f l + f y)%nat.
Proof.
  revert i. induction l as [|z l IH]; intros [|i] Hi; [done..| |].
  - injection Hi as ->. cbn. lia.
  - specialize (IH i Hi). change (<[S i := y]> (z :: l)) with (z :: <[i := y]> l). cbn [sum_list_with]. lia.
Qed.

(** ** Hints

    [rust]: facts that side conditions ask for again and again. *)
Create HintDb rust discriminated.
#[export] Hint Resolve bytes_eqb_refl split_on_nonempty : rust.

(** [slices]: what a slice next to a known prefix is. *)
#[export] Hint Rewrite @slice_app @slice_from_app @slice_to_app : slices.

(** [actions]: running the monad. *)
#[export] Hint Rewrite @bind_get @bind_assoc : actions.
