(* ===== verification/Collections.v ===== *)
(** * The parts of the Rust standard library the routing code uses

    Total orders ([Ord]) as a class with its laws, [BTreeMap] as a strictly
    key-sorted association list with its [entry] operation, the stable
    [sort_by], and the UTF-8 decoding behind [str::chars]. *)

From Stdlib Require Export Sorted.
From stdpp Require Import sorting.
From S2P Require Import Prelude.

(** ** [Ord] *)

Class Ord (A : Type) : Type := { cmp : A -> A -> comparison }.

Class OrdLaws (A : Type) `{Ord A} : Prop := {
  cmp_eq x y : cmp x y = Eq <-> x = y;
  cmp_antisym x y : cmp y x = CompOpp (cmp x y);
  cmp_lt_trans x y z : cmp x y = Lt -> cmp y z = Lt -> cmp x z = Lt }.

(** [Ordering::then_with]. *)
Definition then_with (c : comparison) (d : comparison) : comparison :=
  match c with Eq => d | _ => c end.

#[export] Instance Z_ord : Ord Z := {| cmp := Z.compare |}.
#[export] Instance nat_ord : Ord nat := {| cmp := Nat.compare |}.

#[export] Instance Z_ord_laws : OrdLaws Z.
Proof.
  split; cbn; intros; [apply Z.compare_eq_iff|apply Z.compare_antisym|].
  rewrite Z.compare_lt_iff in *. lia.
Qed.

#[export] Instance nat_ord_laws : OrdLaws nat.
Proof.
  split; cbn; intros; [apply Nat.compare_eq_iff|apply Nat.compare_antisym|].
  rewrite Nat.compare_lt_iff in *. lia.
Qed.

(** Slices compare lexicographically. *)
Fixpoint list_cmp {A} `{Ord A} (x y : list A) : comparison :=
  match x, y with
  | [], [] => Eq
  | [], _ :: _ => Lt
  | _ :: _, [] => Gt
  | a :: x, b :: y => then_with (cmp a b) (list_cmp x y)
  end.
#[export] Instance list_ord {A} `{Ord A} : Ord (list A) := {| cmp := list_cmp |}.

(** Tuples compare lexicographically. *)
#[export] Instance pair_ord {A B} `{Ord A} `{Ord B} : Ord (A * B) :=
  {| cmp := fun x y => then_with (cmp (fst x) (fst y)) (cmp (snd x) (snd y)) |}.

(** [None] is below every [Some]. *)
#[export] Instance option_ord {A} `{Ord A} : Ord (option A) :=
  {| cmp := fun x y =>
       match x, y with
       | None, None => Eq
       | None, Some _ => Lt
       | Some _, None => Gt
       | Some a, Some b => cmp a b
       end |}.

Section ord_laws.
Context {A B : Type} `{HA : OrdLaws A} `{HB : OrdLaws B}.

Lemma cmp_refl (x : A) : cmp x x = Eq.
Proof. by apply cmp_eq. Qed.

#[export] Instance list_ord_laws : OrdLaws (list A).
Proof.
  split; cbn.
  - intros x; induction x as [|a x IH]; intros [|b y]; cbn; [done..|].
    destruct (cmp a b) eqn:Hc; cbn; try (split; [done|intros [= -> ->]; by rewrite cmp_refl in Hc]).
    apply cmp_eq in Hc as ->. rewrite IH. split; [by intros ->|by intros [= ->]].
  - intros x; induction x as [|a x IH]; intros [|b y]; cbn; [done..|].
    rewrite (cmp_antisym a b). destruct (cmp a b); cbn; auto.
  - intros x; induction x as [|a x IH]; intros [|b y] [|c z]; cbn; try done.
    destruct (cmp a b) eqn:Hab, (cmp b c) eqn:Hbc; cbn; intros ? ?; try done.
    + apply cmp_eq in Hab as ->. rewrite Hbc. cbn. eauto.
    + apply cmp_eq in Hab as ->. by rewrite Hbc.
    + apply cmp_eq in Hbc as ->. by rewrite Hab.
    + by rewrite (cmp_lt_trans a b c).
Qed.

#[export] Instance pair_ord_laws : OrdLaws (A * B).
Proof.
  split; cbn.
  - intros [a b] [c d]; cbn. destruct (cmp a c) eqn:Hc; cbn;
      try (split; [done|intros [= -> ->]; by rewrite cmp_refl in Hc]).
    apply cmp_eq in Hc as ->. rewrite cmp_eq. split; [by intros ->|by intros [= ->]].
  - intros [a b] [c d]; cbn. rewrite (cmp_antisym a c), (cmp_antisym b d). by destruct (cmp a c).
  - intros [a a'] [b b'] [c c']; cbn.
    destruct (cmp a b) eqn:Hab, (cmp b c) eqn:Hbc; cbn; intros ? ?; try done.
    + apply cmp_eq in Hab as ->. rewrite Hbc. cbn. by eapply cmp_lt_trans.
    + apply cmp_eq in Hab as ->. by rewrite Hbc.
    + apply cmp_eq in Hbc as ->. by rewrite Hab.
    + by rewrite (cmp_lt_trans a b c).
Qed.

#[export] Instance option_ord_laws : OrdLaws (option A).
Proof.
  split; cbn.
  - intros [a|] [b|]; try done. rewrite cmp_eq. split; [by intros ->|by intros [= ->]].
  - intros [a|] [b|]; try done. apply cmp_antisym.
  - intros [a|] [b|] [c|]; try done. apply cmp_lt_trans.
Qed.
End ord_laws.

(** ** [BTreeMap] *)

(** [f] applied to [map.entry(k).or_insert(default)]. *)
Fixpoint entry {K V} `{Ord K} (default : V) (k : K) (f : V -> V) (m : list (K * V))
    : list (K * V) :=
  match m with
  | [] => [(k, f default)]
  | (k', v) :: tl =>
      match cmp k k' with
      | Lt => (k, f default) :: m
      | Eq => (k', f v) :: tl
      | Gt => (k', v) :: entry default k f tl
      end
  end.

Definition key_lt {K V} `{Ord K} (x y : K * V) : Prop := cmp (fst x) (fst y) = Lt.

(** The invariant of the representation: keys strictly increase. *)
Definition btree_sorted {K V} `{Ord K} (m : list (K * V)) : Prop := StronglySorted key_lt m.

Section btree.
Context {K V : Type} `{HK : OrdLaws K}.
Implicit Types m : list (K * V).

Lemma entry_ext d k f g m : (forall v, f v = g v) -> entry d k f m = entry d k g m.
Proof.
  intros Hfg. induction m as [|[k' v] m IH]; cbn; [by rewrite Hfg|].
  destruct (cmp k k'); by rewrite ?Hfg, ?IH.
Qed.

Lemma entry_key d k f m x : x ∈ entry d k f m ->
  (exists v, (v = d \/ (k, v) ∈ m) /\ x = (k, f v)) \/ x ∈ m.
Proof.
  induction m as [|[k' v] m IH]; cbn.
  - intros ->%list_elem_of_singleton. left. exists d. auto.
  - destruct (cmp k k') eqn:Hc.
    + apply cmp_eq in Hc as ->. intros [->|Hx]%elem_of_cons; [|set_solver].
      left. exists v. set_solver.
    + intros [->|Hx]%elem_of_cons; [|set_solver]. left. exists d. auto.
    + intros [->|Hx]%elem_of_cons; [set_solver|].
      destruct (IH Hx) as [(w & ? & ->)|?]; [left; exists w|]; set_solver.
Qed.

Lemma entry_sorted d k f m : btree_sorted m -> btree_sorted (entry d k f m).
Proof.
  unfold btree_sorted. induction 1 as [|[k' v] m Hm IH Hall]; cbn; [by repeat constructor|].
  destruct (cmp k k') eqn:Hc.
  - constructor; [done|exact Hall].
  - constructor; [by constructor|]. constructor; [done|].
    eapply Forall_impl; [exact Hall|]. intros [k2 v2]. unfold key_lt; cbn. by apply cmp_lt_trans.
  - constructor; [done|]. apply Forall_forall. intros x Hx.
    apply entry_key in Hx as [(w & _ & ->)|Hx].
    + unfold key_lt; cbn. by rewrite cmp_antisym, Hc.
    + rewrite Forall_forall in Hall. by apply Hall.
Qed.

(** The pairs of an updated map: the updated entry, and every other one. *)
Lemma entry_spec d k f m : btree_sorted m ->
  (exists v m1 m2, m = m1 ++ (k, v) :: m2 /\ entry d k f m = m1 ++ (k, f v) :: m2)
  \/ (k ∉ m.*1 /\ exists m1 m2, m = m1 ++ m2 /\ entry d k f m = m1 ++ (k, f d) :: m2).
Proof.
  unfold btree_sorted. induction 1 as [|[k' v] m Hm IH Hall]; cbn.
  - right. split; [apply not_elem_of_nil|]. by exists [], [].
  - destruct (cmp k k') eqn:Hc.
    + apply cmp_eq in Hc as ->. left. by exists v, [], m.
    + right. split; [|by exists [], ((k', v) :: m)]. apply not_elem_of_cons. split.
      * intros ->. by rewrite cmp_refl in Hc.
      * intros ([k2 v2] & -> & Hin)%list_elem_of_fmap. rewrite Forall_forall in Hall.
        pose proof (Hall _ Hin) as Hlt. unfold key_lt in Hlt; cbn in *.
        by rewrite (cmp_antisym k' k2), Hlt in Hc.
    + destruct IH as [(w & m1 & m2 & -> & ->)|(Hk & m1 & m2 & -> & ->)].
      * left. by exists w, ((k', v) :: m1), m2.
      * right. split; [|by exists ((k', v) :: m1), m2]. apply not_elem_of_cons. split; [|done].
        intros ->. by rewrite cmp_refl in Hc.
Qed.

Lemma btree_sorted_NoDup m : btree_sorted m -> NoDup m.*1.
Proof.
  unfold btree_sorted. induction 1 as [|[k v] m Hm IH Hall]; cbn; constructor; [|done].
  intros ([k2 v2] & -> & Hin)%list_elem_of_fmap. rewrite Forall_forall in Hall.
  pose proof (Hall _ Hin) as Hlt. unfold key_lt in Hlt; cbn in Hlt. by rewrite cmp_refl in Hlt.
Qed.
End btree.

(** ** [slice::sort_by]: a stable sort *)

Fixpoint insert_by {A} (c : A -> A -> comparison) (x : A) (l : list A) : list A :=
  match l with
  | [] => [x]
  | y :: tl => match c x y with Gt => y :: insert_by c x tl | _ => x :: l end
  end.

Definition sort_by {A} (c : A -> A -> comparison) (l : list A) : list A :=
  foldr (insert_by c) [] l.

Section sort.
Context {A : Type} (c : A -> A -> comparison).

Lemma insert_by_perm x l : insert_by c x l ≡ₚ x :: l.
Proof.
  induction l as [|y l IH]; cbn; [done|]. destruct (c x y); [done..|].
  rewrite IH. by apply perm_swap.
Qed.

Lemma sort_by_perm l : sort_by c l ≡ₚ l.
Proof. induction l as [|x l IH]; cbn; [done|]. by rewrite insert_by_perm, IH. Qed.

Lemma insert_by_sorted x l :
  (forall x y, c y x = CompOpp (c x y)) ->
  (forall x y z, c x y <> Gt -> c y z <> Gt -> c x z <> Gt) ->
  StronglySorted (fun x y => c x y <> Gt) l ->
  StronglySorted (fun x y => c x y <> Gt) (insert_by c x l).
Proof.
  intros Ha Ht. induction 1 as [|y l Hl IH Hall]; cbn; [by repeat constructor|].
  destruct (c x y) eqn:Hc.
  1, 2: constructor; [by constructor|]; constructor; [by rewrite Hc|];
    eapply Forall_impl; [exact Hall|]; intros z Hz; eapply Ht; [by rewrite Hc|done].
  constructor; [done|]. rewrite insert_by_perm. constructor; [|done].
  by rewrite Ha, Hc.
Qed.

Lemma sort_by_sorted l :
  (forall x y, c y x = CompOpp (c x y)) ->
  (forall x y z, c x y <> Gt -> c y z <> Gt -> c x z <> Gt) ->
  StronglySorted (fun x y => c x y <> Gt) (sort_by c l).
Proof. intros. induction l; cbn; [constructor|by apply insert_by_sorted]. Qed.
End sort.

(** ** UTF-8 *)

Definition is_cont (b : Z) : bool := in_range 128 191 b.

(** The characters of a text, or [None] when the bytes are not UTF-8 (the table
    of [core::str::from_utf8]: no overlong forms, no surrogates, at most U+10FFFF). *)
Fixpoint utf8_chars (bs : bytes) : option (list Z) :=
  match bs with
  | [] => Some []
  | b0 :: t0 =>
      if in_range 0 127 b0 then cons b0 <$> utf8_chars t0
      else
        match t0 with
        | [] => None
        | b1 :: t1 =>
            if in_range 194 223 b0 && is_cont b1 then
              cons ((b0 - 192) * 64 + (b1 - 128))%Z <$> utf8_chars t1
            else
              match t1 with
              | [] => None
              | b2 :: t2 =>
                  if (((b0 =? 224) && in_range 160 191 b1)
                      || (in_range 225 236 b0 && is_cont b1)
                      || ((b0 =? 237) && in_range 128 159 b1)
                      || (in_range 238 239 b0 && is_cont b1))%Z && is_cont b2 then
                    cons ((b0 - 224) * 4096 + (b1 - 128) * 64 + (b2 - 128))%Z <$> utf8_chars t2
                  else
                    match t2 with
                    | [] => None
                    | b3 :: t3 =>
                        if (((b0 =? 240) && in_range 144 191 b1)
                            || (in_range 241 243 b0 && is_cont b1)
                            || ((b0 =? 244) && in_range 128 143 b1))%Z
                           && is_cont b2 && is_cont b3 then
                          cons ((b0 - 240) * 262144 + (b1 - 128) * 4096
                                + (b2 - 128) * 64 + (b3 - 128))%Z <$> utf8_chars t3
                        else None
                    end
              end
        end
  end.

(** [str::from_utf8(bs).is_ok()]. *)
Definition utf8_valid (bs : bytes) : bool :=
  match utf8_chars bs with Some _ => true | None => false end.

Lemma utf8_valid_ascii bs : forallb (in_range 0 127) bs = true -> utf8_valid bs = true.
Proof.
  unfold utf8_valid. induction bs as [|b bs IH]; [done|].
  cbn [forallb utf8_chars]. intros [-> H]%andb_true_iff. specialize (IH H).
  by destruct (utf8_chars bs).
Qed.

Lemma is_cont_not_ascii b : is_cont b = true -> in_range 0 127 b = false.
Proof. unfold is_cont, in_range. intros H. to_prop. apply andb_false_iff. right. apply Z.leb_gt. lia. Qed.

(** Byte ranges that exclude each other. *)
Ltac utf8_ranges :=
  exfalso; unfold is_cont, in_range in *;
  rewrite ?orb_true_iff, ?andb_true_iff, ?orb_false_iff, ?andb_false_iff, ?Z.leb_le, ?Z.leb_gt,
    ?Z.eqb_eq, ?Z.eqb_neq in *; lia.

(** A text may be cut after an ASCII byte: what follows is a text. *)
Lemma utf8_valid_after_ascii pre a suf :
  in_range 0 127 a = true -> utf8_valid (pre ++ a :: suf) = true -> utf8_valid suf = true.
Proof.
  intros Ha. unfold utf8_valid. destruct (utf8_chars suf) eqn:Hsuf; [done|].
  enough (utf8_chars (pre ++ a :: suf) = None) as -> by done.
  induction pre as [pre IH] using (induction_ltof1 _ length); unfold ltof in IH.
  destruct pre as [|b0 pre]; cbn [app utf8_chars]; [by rewrite Ha, Hsuf|].
  destruct (in_range 0 127 b0) eqn:H0; [by rewrite IH by (cbn; lia)|].
  destruct pre as [|b1 pre]; [|destruct pre as [|b2 pre]; [|destruct pre as [|b3 pre]]];
    cbn [app]; repeat (case_match; try done); simplify_eq;
    first [utf8_ranges | apply fmap_None;
      first [apply (IH []) | apply (IH [_]) | apply (IH pre) | apply (IH (_ :: pre))
            | apply (IH (_ :: _ :: pre))]; cbn; lia].
Qed.

(** The first byte of a text does not continue a character. *)
Lemma utf8_valid_head b bs : utf8_valid (b :: bs) = true -> ((b <? 128) || (192 <=? b))%Z = true.
Proof.
  unfold utf8_valid. cbn [utf8_chars]. destruct (_ || _) eqn:Hb; [done|]. to_prop.
  repeat (case_match; try done); intros _; utf8_ranges.
Qed.

(** Sorting commutes with a map that keeps the comparison. *)
Lemma sort_by_fmap {A B} (f : A -> B) (c : A -> A -> comparison) (d : B -> B -> comparison) l :
  (forall x y, d (f x) (f y) = c x y) -> sort_by d (f <$> l) = f <$> sort_by c l.
Proof.
  intros Hf. induction l as [|x l IH]; [done|].
  change (insert_by d (f x) (sort_by d (f <$> l)) = f <$> insert_by c x (sort_by c l)). rewrite IH.
  generalize (sort_by c l). intros s. induction s as [|y s IHs]; [done|]. cbn. rewrite Hf.
  destruct (c x y); [done..|]. cbn. by rewrite IHs.
Qed.

(** ... and before an ASCII byte: what precedes is a text. *)
Lemma utf8_valid_before_ascii pre a suf :
  in_range 0 127 a = true -> utf8_valid (pre ++ a :: suf) = true -> utf8_valid pre = true.
Proof.
  intros Ha. unfold utf8_valid. destruct (utf8_chars pre) eqn:Hpre; [done|].
  enough (utf8_chars (pre ++ a :: suf) = None) as -> by done. revert Hpre.
  induction pre as [pre IH] using (induction_ltof1 _ length); unfold ltof in IH.
  destruct pre as [|b0 pre]; [done|]. cbn [app utf8_chars].
  destruct (in_range 0 127 b0) eqn:H0.
  { intros Hn%fmap_None. apply fmap_None. apply IH; [cbn; lia|done]. }
  destruct pre as [|b1 pre]; [|destruct pre as [|b2 pre]; [|destruct pre as [|b3 pre]]];
    cbn [app]; repeat (case_match; try done); simplify_eq;
    intros; first [utf8_ranges | done | apply fmap_None;
      match goal with H : _ <$> _ = None |- _ => apply fmap_None in H;
        first [apply (IH []) | apply (IH [_]) | apply (IH pre) | apply (IH (_ :: pre))
            | apply (IH (_ :: _ :: pre))]; [cbn; lia|exact H] end].
Qed.

(** Sorting by a total order decides equality up to permutation. *)
Lemma sort_by_eq {A} `{OrdLaws A} (l l' : list A) : sort_by cmp l = sort_by cmp l' <-> l ≡ₚ l'.
Proof.
  split; [intros Heq; by rewrite <- (sort_by_perm cmp l), Heq, sort_by_perm|]. intros Hp.
  assert (Htrans : forall x y z : A, cmp x y <> Gt -> cmp y z <> Gt -> cmp x z <> Gt).
  { intros x y z. destruct (cmp x y) eqn:Hxy, (cmp y z) eqn:Hyz; try done; intros _ _.
    - apply cmp_eq in Hxy as ->. by rewrite Hyz.
    - apply cmp_eq in Hxy as ->. by rewrite Hyz.
    - apply cmp_eq in Hyz as ->. by rewrite Hxy.
    - by rewrite (cmp_lt_trans x y z). }
  assert (Hanti : AntiSymm (=) (fun x y : A => cmp x y <> Gt)).
  { intros x y. rewrite (cmp_antisym x y). destruct (cmp x y) eqn:Hxy; try done. by apply cmp_eq in Hxy. }
  apply (StronglySorted_unique (fun x y : A => cmp x y <> Gt));
    [apply sort_by_sorted; [apply cmp_antisym|exact Htrans]..|].
  by rewrite !sort_by_perm.
Qed.

(** Two texts in a row are a text. *)
Lemma utf8_valid_app p q : utf8_valid p = true -> utf8_valid q = true -> utf8_valid (p ++ q) = true.
Proof.
  intros Hp Hq. unfold utf8_valid in *.
  enough (is_Some (utf8_chars (p ++ q))) as [? ->] by done.
  destruct (utf8_chars p) as [cs|] eqn:Hcs; [clear Hp|done]. assert (Hs : is_Some (utf8_chars q)).
  { destruct (utf8_chars q); [by eexists|done]. } clear Hq.
  revert cs Hcs. induction p as [p IH] using (induction_ltof1 _ length); unfold ltof in IH.
  intros cs. destruct p as [|b0 p]; [done|]. cbn [app utf8_chars].
  destruct (in_range 0 127 b0).
  { intros (? & Hc & _)%fmap_Some. apply fmap_is_Some. eapply IH; [cbn; lia|exact Hc]. }
  destruct p as [|b1 p]; [done|]. cbn [app]. destruct (_ && _).
  { intros (? & Hc & _)%fmap_Some. apply fmap_is_Some. eapply IH; [cbn; lia|exact Hc]. }
  destruct p as [|b2 p]; [done|]. cbn [app]. destruct (_ && _).
  { intros (? & Hc & _)%fmap_Some. apply fmap_is_Some. eapply IH; [cbn; lia|exact Hc]. }
  destruct p as [|b3 p]; [done|]. cbn [app]. destruct (_ && _); [|done].
  intros (? & Hc & _)%fmap_Some. apply fmap_is_Some. eapply IH; [cbn; lia|exact Hc].
Qed.

(** The bytes of a text are bytes. *)
Lemma utf8_valid_bytes bs : utf8_valid bs = true -> forallb (in_range 0 255) bs = true.
Proof.
  unfold utf8_valid. induction bs as [bs IH] using (induction_ltof1 _ length); unfold ltof in IH.
  assert (IH' : forall t, length t < length bs -> is_Some (utf8_chars t) -> forallb (in_range 0 255) t = true).
  { intros t Ht [cs Hc]. apply IH; [done|]. by rewrite Hc. }
  clear IH. destruct bs as [|b0 t0]; [done|]. cbn [utf8_chars].
  assert (Hcons : forall b t, in_range 0 255 b = true -> forallb (in_range 0 255) t = true ->
    forallb (in_range 0 255) (b :: t) = true) by (intros b t H1 H2; cbn; by rewrite H1, H2).
  repeat (case_match; try done); intros _; simplify_eq;
    repeat match goal with H : _ <$> _ = Some _ |- _ => apply fmap_Some in H as (? & H & _) end;
    repeat (apply Hcons; [|]);
    first [apply IH'; [cbn; lia|by eexists]
          | unfold is_cont, in_range in *;
            rewrite ?orb_true_iff, ?andb_true_iff, ?orb_false_iff, ?andb_false_iff, ?Z.leb_le, ?Z.leb_gt,
              ?Z.eqb_eq, ?Z.eqb_neq in *; lia].
Qed.

#[export] Hint Resolve utf8_valid_app utf8_valid_ascii utf8_valid_bytes : rust.
