(* ===== verification/PathTemplate.v ===== *)
(** * http_path_template: the [google.api.http] path-template parser

    Models [src/crates/http_path_template/src]: the error kinds of [error.rs],
    [Grammar], [Segment], [Variable] with its lazy [SegmentIter], and the whole
    of [path_template.rs] (parser and [Display]).  Template text is a list of
    bytes; every slice, [expect] and checked subtraction of the source is
    modelled with its panic. *)

From S2P Require Import Prelude.

(** ** Data *)

Inductive ParseErrorKind : Type :=
| MissingLeadingSlash
| EmptySegment
| UnbalancedBraces
| NestedVariable
| EmptyFieldPath
| InvalidFieldName
| InvalidLiteral
| RestNotLast
| EmptyVerb
| InvalidVerb
| MultipleVerbs.

#[export] Instance ParseErrorKind_eq_dec : EqDecision ParseErrorKind.
Proof. solve_decision. Defined.

Record Grammar : Type := mkGrammar { segment_affixes : bool }.

Definition Grammar_default : Grammar := {| segment_affixes := false |}.

Definition with_segment_affixes (g : Grammar) : Grammar := {| segment_affixes := true |}.

(** [variable.rs]: [struct Variable]. *)
Record TVariable : Type := mkVariable { field : bytes; sub : bytes }.

#[export] Instance TVariable_eq_dec : EqDecision TVariable.
Proof. solve_decision. Defined.

(** [segment.rs]: [enum Segment]. *)
Inductive Segment : Type :=
| Literal (text : bytes)
| Single
| Rest
| Variable_ (v : TVariable)
| Affix (prefix name suffix : bytes).

#[export] Instance Segment_eq_dec : EqDecision Segment.
Proof. solve_decision. Defined.

Record PathTemplate : Type := mkTemplate { segments : list Segment; verb : option bytes }.

#[export] Instance PathTemplate_eq_dec : EqDecision PathTemplate.
Proof. solve_decision. Defined.

(** ** [Variable::segments] and its iterator

    [rest = None] is the exhausted iterator; [remaining] is the exact number of
    segments still to yield.  [remaining -= 1] panics when [remaining] is 0. *)
Record SegmentIter : Type := mkIter { rest : option bytes; remaining : nat }.

Definition variable_segments (v : TVariable) : SegmentIter :=
  {| rest := Some (sub v);
     remaining := length (filter (fun b => b = c_slash) (sub v)) + 1 |}.

Definition segment_of_piece (seg : bytes) : Segment :=
  if bytes_eqb seg (str "*") then Single
  else if bytes_eqb seg (str "**") then Rest
  else Literal seg.

Definition iter_next (it : SegmentIter) : outcome unit (option Segment * SegmentIter) :=
  match rest it with
  | None => Ok (None, it)
  | Some r =>
      match remaining it with
      | O => Panic
      | S remaining' =>
          match position (Z.eqb c_slash) r with
          | Some idx =>
              let? seg := slice_to r idx in
              let? after := slice_from r idx in
              let? tail := slice_from after 1 in
              Ok (Some (segment_of_piece seg), {| rest := Some tail; remaining := remaining' |})
          | None =>
              Ok (Some (segment_of_piece r), {| rest := None; remaining := remaining' |})
          end
      end
  end.

(** [for sub in var.segments()]: runs the iterator to exhaustion. *)
Fixpoint iter_collect (fuel : nat) (it : SegmentIter) : outcome unit (list Segment) :=
  match fuel with
  | O => Panic
  | S fuel' =>
      let? (item, it') := iter_next it in
      match item with
      | None => Ok []
      | Some seg => let? more := iter_collect fuel' it' in Ok (seg :: more)
      end
  end.

(** The sub-template segments of a variable; one round of fuel per segment the
    iterator announces and one for the final [None]. *)
Definition sub_segments (v : TVariable) : outcome unit (list Segment) :=
  iter_collect (S (remaining (variable_segments v))) (variable_segments v).

(** ** Validators *)

Definition is_valid_ident (ident : bytes) : bool :=
  match ident with
  | b :: tl =>
      if (b =? c_under)%Z || is_ascii_alphabetic b
      then forallb (fun b => (b =? c_under)%Z || is_ascii_alphanumeric b) tl
      else false
  | [] => false
  end.

(** [- . _ ~ ! $ & ' ( ) + , ; = : @] *)
Definition is_literal_punct (b : Z) : bool :=
  existsb (Z.eqb b) [45; 46; 95; 126; 33; 36; 38; 39; 40; 41; 43; 44; 59; 61; 58; 64]%Z.

Fixpoint is_valid_literal_bytes (bs : bytes) : bool :=
  match bs with
  | [] => true
  | byte :: tail =>
      if (byte =? c_percent)%Z then
        match tail with
        | hi :: lo :: tail' =>
            if negb (is_ascii_hexdigit hi) || negb (is_ascii_hexdigit lo) then false
            else is_valid_literal_bytes tail'
        | _ => false
        end
      else if negb (is_ascii_alphanumeric byte || is_literal_punct byte) then false
      else is_valid_literal_bytes tail
  end.

Definition is_valid_literal (literal : bytes) : bool := is_valid_literal_bytes literal.

(** ** Segment parsers *)

(** The field-path check shared by [parse_affix] and [parse_variable]: every
    [.]-separated identifier is valid. *)
Definition valid_field_path (field_str : bytes) : bool :=
  forallb is_valid_ident (split_on c_dot field_str).

(** The loop over [sub.as_bytes().split(|b| b == '/')] of [parse_variable]. *)
Fixpoint check_sub_segments (segs : list bytes) : outcome ParseErrorKind unit :=
  match segs with
  | [] => Ok tt
  | seg :: more =>
      if bytes_eqb seg [] then Err EmptySegment
      else if existsb (Z.eqb c_lbrace) seg then Err NestedVariable
      else if negb (bytes_eqb seg (str "*")) && negb (bytes_eqb seg (str "**"))
              && negb (is_valid_literal_bytes seg)
      then Err InvalidLiteral
      else check_sub_segments more
  end.

Definition parse_variable (inner : bytes) : outcome ParseErrorKind Segment :=
  let? (field_str, sub_str) :=
    match position (Z.eqb c_eq) inner with
    | Some idx =>
        let? f := slice_to inner idx in
        let? s := slice_from inner (idx + 1) in
        Ok (f, Some s)
    | None => Ok (inner, None)
    end in
  if bytes_eqb field_str [] then Err EmptyFieldPath
  else if negb (valid_field_path field_str) then Err InvalidFieldName
  else
    let? sub :=
      match sub_str with
      | None => Ok (str "*")
      | Some sub =>
          if bytes_eqb sub [] then Err EmptySegment
          else let? _ := check_sub_segments (split_on c_slash sub) in Ok sub
      end in
    Ok (Variable_ {| field := field_str; sub := sub |}).

(** The brace scan of [parse_affix]: first [{], first [}], and the number of
    braces. *)
Fixpoint affix_scan (bs : bytes) (idx : nat) (open close : option nat) (braces : nat)
    : option nat * option nat * nat :=
  match bs with
  | [] => (open, close, braces)
  | byte :: tl =>
      if (byte =? c_lbrace)%Z then
        affix_scan tl (S idx) (match open with None => Some idx | some => some end) close (S braces)
      else if (byte =? c_rbrace)%Z then
        affix_scan tl (S idx) open (match close with None => Some idx | some => some end) (S braces)
      else affix_scan tl (S idx) open close braces
  end.

Definition parse_affix (seg : bytes) : outcome ParseErrorKind Segment :=
  let '(open, close, braces) := affix_scan seg 0 None None 0 in
  if negb (braces =? 2) then Err UnbalancedBraces
  else
    match open, close with
    | Some open, Some close =>
        let? prefix := slice_to seg open in
        let? field_str := slice seg (open + 1) close in
        let? suffix := slice_from seg (close + 1) in
        if negb (is_valid_literal prefix) || negb (is_valid_literal suffix)
        then Err InvalidLiteral
        else if bytes_eqb field_str [] then Err EmptyFieldPath
        else if negb (valid_field_path field_str) then Err InvalidFieldName
        else Ok (Affix prefix field_str suffix)
    | _, _ => Panic
    end.

Definition parse_segment (seg : bytes) (extended : bool) : outcome ParseErrorKind Segment :=
  if bytes_eqb seg (str "*") then Ok Single
  else if bytes_eqb seg (str "**") then Ok Rest
  else if bool_decide (head seg = Some c_lbrace) && bool_decide (last seg = Some c_rbrace) then
    let? inner := slice seg 1 (length seg - 1) in
    parse_variable inner
  else if extended && existsb (Z.eqb c_lbrace) seg then parse_affix seg
  else if negb (is_valid_literal seg) then Err InvalidLiteral
  else Ok (Literal seg).

Definition push_parsed_segment (out : list Segment) (seg : bytes) (extended : bool)
    : outcome ParseErrorKind (list Segment) :=
  if bytes_eqb seg [] then Err EmptySegment
  else let? s := parse_segment seg extended in Ok (out ++ [s]).

(** The byte loop of [split_and_parse_segments]; [depth -= 1] panics at 0. *)
Fixpoint split_loop (body : bytes) (extended : bool)
    (bs : bytes) (idx depth start : nat) (out : list Segment)
    : outcome ParseErrorKind (list Segment * nat * nat) :=
  match bs with
  | [] => Ok (out, depth, start)
  | b :: tl =>
      if (b =? c_lbrace)%Z then split_loop body extended tl (S idx) (S depth) start out
      else if (b =? c_rbrace)%Z then
        match depth with
        | O => Panic
        | S depth' => split_loop body extended tl (S idx) depth' start out
        end
      else if (b =? c_slash)%Z && (depth =? 0) then
        let? seg := slice body start idx in
        let? out := push_parsed_segment out seg extended in
        split_loop body extended tl (S idx) depth (idx + 1) out
      else split_loop body extended tl (S idx) depth start out
  end.

Definition split_and_parse_segments (body : bytes) (extended : bool)
    : outcome ParseErrorKind (list Segment) :=
  let? (out, depth, start) := split_loop body extended body 0 0 0 [] in
  if negb (depth =? 0) then Err UnbalancedBraces
  else
    let? seg := slice_from body start in
    push_parsed_segment out seg extended.

(** [segment_count_hint]: a capacity hint only. *)
Fixpoint segment_count_hint_loop (bs : bytes) (depth count : nat) : nat :=
  match bs with
  | [] => count
  | b :: tl =>
      if (b =? c_lbrace)%Z then segment_count_hint_loop tl (S depth) count
      else if (b =? c_rbrace)%Z then segment_count_hint_loop tl (depth - 1) count
      else if (b =? c_slash)%Z && (depth =? 0) then segment_count_hint_loop tl depth (S count)
      else segment_count_hint_loop tl depth count
  end.

Definition segment_count_hint (body : bytes) : nat := segment_count_hint_loop body 0 1.

(** The byte loop of [split_verb]. *)
Fixpoint split_verb_loop (bs : bytes) (idx depth : nat) (verb_at : option nat)
    : outcome ParseErrorKind (option nat) :=
  match bs with
  | [] => Ok verb_at
  | b :: tl =>
      if (b =? c_lbrace)%Z then split_verb_loop tl (S idx) (S depth) verb_at
      else if (b =? c_rbrace)%Z && (0 <? depth) then split_verb_loop tl (S idx) (depth - 1) verb_at
      else if (b =? c_rbrace)%Z && bool_decide (verb_at = None) then Err UnbalancedBraces
      else if (b =? c_colon)%Z && (depth =? 0) then
        match verb_at with
        | Some _ => Err MultipleVerbs
        | None => split_verb_loop tl (S idx) depth (Some idx)
        end
      else split_verb_loop tl (S idx) depth verb_at
  end.

Definition template_split_verb (template : bytes)
    : outcome ParseErrorKind (bytes * option bytes) :=
  let? verb_at := split_verb_loop template 0 0 None in
  match verb_at with
  | Some idx =>
      let? verb := slice_from template (idx + 1) in
      if bytes_eqb verb [] then Err EmptyVerb
      else if negb (is_valid_literal verb) then Err InvalidVerb
      else let? body := slice_to template idx in Ok (body, Some verb)
  | None => Ok (template, None)
  end.

(** The inner loop of [validate_rest_position] over a variable's atoms. *)
Fixpoint validate_sub (subs : list Segment) (seen_rest : bool) : outcome ParseErrorKind bool :=
  match subs with
  | [] => Ok seen_rest
  | s :: more =>
      if seen_rest then Err RestNotLast
      else validate_sub more (match s with Rest => true | _ => seen_rest end)
  end.

Fixpoint validate_loop (segs : list Segment) (seen_rest : bool) : outcome ParseErrorKind unit :=
  match segs with
  | [] => Ok tt
  | seg :: more =>
      match seg with
      | Literal _ | Single | Affix _ _ _ =>
          if seen_rest then Err RestNotLast else validate_loop more seen_rest
      | Rest => if seen_rest then Err RestNotLast else validate_loop more true
      | Variable_ v =>
          match sub_segments v with
          | Ok subs =>
              let? seen := validate_sub subs seen_rest in
              validate_loop more seen
          | _ => Panic
          end
      end
  end.

Definition validate_rest_position (segs : list Segment) : outcome ParseErrorKind unit :=
  validate_loop segs false.

Definition parse_inner (template : bytes) (grammar : Grammar)
    : outcome ParseErrorKind PathTemplate :=
  if negb (bool_decide (head template = Some c_slash)) then Err MissingLeadingSlash
  else
    let? (body, verb) := template_split_verb template in
    let? rest := slice_from body 1 in
    let? segments :=
      if bytes_eqb rest [] then Ok []
      else split_and_parse_segments rest (segment_affixes grammar) in
    let? _ := validate_rest_position segments in
    Ok {| segments := segments; verb := verb |}.

Definition parse (template : bytes) (grammar : Grammar) : outcome ParseErrorKind PathTemplate :=
  parse_inner template grammar.

(** ** [Display] *)

Definition write_variable (v : TVariable) : bytes :=
  str "{" ++ field v ++
  (if negb (bytes_eqb (sub v) (str "*")) then str "=" ++ sub v else []) ++ str "}".

Definition write_segment (s : Segment) : bytes :=
  match s with
  | Literal text => text
  | Single => str "*"
  | Rest => str "**"
  | Variable_ v => write_variable v
  | Affix prefix name suffix => prefix ++ str "{" ++ name ++ str "}" ++ suffix
  end.

Fixpoint write_segments (first : bool) (segs : list Segment) : bytes :=
  match segs with
  | [] => []
  | s :: more => (if first then [] else str "/") ++ write_segment s ++ write_segments false more
  end.

Definition display (t : PathTemplate) : bytes :=
  str "/" ++ write_segments true (segments t)
  ++ match verb t with Some v => str ":" ++ v | None => [] end.

(** ** The iterator yields the pieces of the sub-template *)

Lemma iter_collect_pieces fuel r n :
  n = length (split_on c_slash r) -> n < fuel ->
  iter_collect fuel {| rest := Some r; remaining := n |}
  = Ok (segment_of_piece <$> split_on c_slash r).
Proof.
  revert r n; induction fuel as [|fuel IH]; intros r n Hn Hf; [lia|].
  cbn. unfold iter_next; cbn.
  destruct n as [|n]; [by destruct (split_on c_slash r) eqn:Hs;
    [apply split_on_nonempty in Hs|discriminate]|].
  destruct (position (Z.eqb c_slash) r) as [i|] eqn:Hp.
  - apply position_Some in Hp as (p & q & -> & Hp & ->).
    rewrite slice_to_app, slice_from_app. cbn.
    rewrite (split_on_app _ _ _ Hp) in Hn |- *. cbn in Hn.
    rewrite (drop_0 q). rewrite IH by lia. done.
  - apply position_None in Hp. rewrite (split_on_none _ _ Hp) in Hn |- *.
    cbn in Hn. destruct fuel; [lia|]. done.
Qed.

Lemma sub_segments_pieces v :
  sub_segments v = Ok (segment_of_piece <$> split_on c_slash (sub v)).
Proof.
  unfold sub_segments, variable_segments; cbn [remaining].
  apply iter_collect_pieces; [by rewrite split_on_count|lia].
Qed.

(** ** Characters the validators admit *)

Definition literal_char (b : Z) : bool :=
  (b =? c_percent)%Z || is_ascii_alphanumeric b || is_literal_punct b.

Definition field_char (b : Z) : bool :=
  (b =? c_under)%Z || is_ascii_alphanumeric b || (b =? c_dot)%Z.

Lemma hexdigit_alphanumeric b : is_ascii_hexdigit b = true -> is_ascii_alphanumeric b = true.
Proof.
  unfold is_ascii_hexdigit, is_ascii_alphanumeric, is_ascii_alphabetic, is_ascii_digit, in_range.
  lia.
Qed.

Lemma valid_literal_chars s x :
  is_valid_literal s = true -> x ∈ s -> literal_char x = true.
Proof.
  unfold is_valid_literal.
  induction s as [s IH] using (induction_ltof1 _ (@length Z)); unfold ltof in IH.
  destruct s as [|b tl]; [set_solver|]. cbn [is_valid_literal_bytes].
  destruct (Z.eqb_spec b c_percent) as [->|Hb].
  - destruct tl as [|hi [|lo tl]]; [done|done|].
    destruct (is_ascii_hexdigit hi) eqn:Hhi, (is_ascii_hexdigit lo) eqn:Hlo; cbn; try done.
    apply hexdigit_alphanumeric in Hhi, Hlo. intros Hv Hx.
    rewrite !elem_of_cons in Hx.
    destruct Hx as [->|[->|[->|Hx]]]; [done| | |apply (IH tl); [cbn; lia|done|done]];
      unfold literal_char; by rewrite ?Hhi, ?Hlo, orb_true_r.
  - destruct (is_ascii_alphanumeric b || is_literal_punct b) eqn:Hc; cbn; [|done].
    intros Hv [->|Hx]%elem_of_cons; [|apply (IH tl); [cbn; lia|done|done]].
    unfold literal_char. by rewrite <- orb_assoc, Hc, orb_true_r.
Qed.

Lemma valid_literal_not c s :
  is_valid_literal s = true -> literal_char c = false -> c ∉ s.
Proof. intros Hs Hc Hin. apply (valid_literal_chars _ _ Hs) in Hin. congruence. Qed.

Lemma valid_ident_chars s x : is_valid_ident s = true -> x ∈ s -> field_char x = true.
Proof.
  destruct s as [|b tl]; cbn; [done|]. unfold field_char.
  destruct ((b =? c_under)%Z || is_ascii_alphabetic b) eqn:Hb; [|done].
  intros Htl [->|Hx]%elem_of_cons.
  - unfold is_ascii_alphanumeric. apply orb_true_iff in Hb as [->| ->]; by rewrite ?orb_true_r.
  - by rewrite (forallb_elem_of _ _ _ Htl Hx).
Qed.

Lemma valid_field_path_chars s x : valid_field_path s = true -> x ∈ s -> field_char x = true.
Proof.
  intros Hs Hx. apply (elem_of_split_on c_dot) in Hx as [->|(p & Hp & Hx)]; [done|].
  eauto using valid_ident_chars, forallb_elem_of.
Qed.

Lemma valid_field_path_not c s :
  valid_field_path s = true -> field_char c = false -> c ∉ s.
Proof. intros Hs Hc Hin. apply (valid_field_path_chars _ _ Hs) in Hin. congruence. Qed.

Lemma valid_field_path_nonempty s : valid_field_path s = true -> s <> [].
Proof. by intros H ->. Qed.

(** A checked sub-template is a [/]-separated list of wildcards and literals. *)
Lemma check_sub_segments_forall segs :
  check_sub_segments segs = Ok tt <->
  Forall (fun seg => seg <> [] /\ c_lbrace ∉ seg /\
    (seg = str "*" \/ seg = str "**" \/ is_valid_literal seg = true)) segs.
Proof.
  induction segs as [|seg more IH]; cbn; [split; [by constructor|done]|].
  rewrite Forall_cons, <- IH.
  destruct (bytes_eqb seg []) eqn:H1; [apply bytes_eqb_eq in H1; split; naive_solver|].
  apply bytes_eqb_neq in H1.
  destruct (existsb (Z.eqb c_lbrace) seg) eqn:H2;
    [apply existsb_eqb_true in H2; split; naive_solver|].
  apply existsb_eqb_false in H2.
  unfold is_valid_literal.
  destruct (bytes_eqb seg (str "*")) eqn:H3; [apply bytes_eqb_eq in H3; cbn; tauto|].
  destruct (bytes_eqb seg (str "**")) eqn:H4; [apply bytes_eqb_eq in H4; cbn; tauto|].
  apply bytes_eqb_neq in H3, H4.
  destruct (is_valid_literal_bytes seg); cbn; [tauto|].
  split; [done|]. intros [(_ & _ & [?|[?|?]]) _]; done.
Qed.

Lemma check_sub_chars s x :
  check_sub_segments (split_on c_slash s) = Ok tt -> x ∈ s ->
  x = c_slash \/ x = c_star \/ literal_char x = true.
Proof.
  rewrite check_sub_segments_forall, Forall_forall. intros Hs Hx.
  apply (elem_of_split_on c_slash) in Hx as [->|(p & Hp & Hx)]; [by left|].
  destruct (Hs _ Hp) as (_ & _ & [->|[->|Hv]]);
    [apply list_elem_of_In in Hx; vm_compute in Hx; right; left; naive_solver..|].
  eauto using valid_literal_chars.
Qed.

(** ** Brace depth

    [walk s d] is the brace depth after [s] from depth [d], [None] when a [}]
    has no matching [{]; [no_top c s d] says that [c] does not occur at depth 0. *)
Fixpoint walk (bs : bytes) (d : nat) : option nat :=
  match bs with
  | [] => Some d
  | b :: tl =>
      if (b =? c_lbrace)%Z then walk tl (S d)
      else if (b =? c_rbrace)%Z then match d with O => None | S d' => walk tl d' end
      else walk tl d
  end.

Fixpoint no_top (c : Z) (bs : bytes) (d : nat) : bool :=
  match bs with
  | [] => true
  | b :: tl =>
      if (b =? c_lbrace)%Z then no_top c tl (S d)
      else if (b =? c_rbrace)%Z then no_top c tl (d - 1)
      else negb ((b =? c)%Z && (d =? 0)) && no_top c tl d
  end.

Definition braceless (bs : bytes) : Prop := c_lbrace ∉ bs /\ c_rbrace ∉ bs.

Lemma braceless_cons b bs :
  braceless (b :: bs) <-> b <> c_lbrace /\ b <> c_rbrace /\ braceless bs.
Proof. unfold braceless. rewrite !not_elem_of_cons. naive_solver. Qed.

Lemma walk_app p q d : walk (p ++ q) d = walk p d ≫= walk q.
Proof.
  revert d; induction p as [|b p IH]; intros d; cbn; [done|].
  rewrite !IH. by repeat case_match.
Qed.

Lemma no_top_app c p q d d' :
  walk p d = Some d' -> no_top c (p ++ q) d = no_top c p d && no_top c q d'.
Proof.
  revert d; induction p as [|b p IH]; intros d; cbn; [naive_solver|].
  case_match; [apply IH|]. case_match.
  - destruct d as [|d]; [done|]. intros Hw. rewrite Nat.sub_succ, Nat.sub_0_r. by apply IH.
  - intros Hw. rewrite (IH _ Hw). by rewrite andb_assoc.
Qed.

Lemma walk_braceless p d : braceless p -> walk p d = Some d.
Proof.
  induction p as [|b p IH]; cbn; [done|]. intros (H1 & H2 & Hp)%braceless_cons.
  rewrite (proj2 (Z.eqb_neq _ _) H1), (proj2 (Z.eqb_neq _ _) H2). auto.
Qed.

Lemma no_top_not_in c p d : braceless p -> c ∉ p -> no_top c p d = true.
Proof.
  induction p as [|b p IH]; cbn; [done|]. intros (H1 & H2 & Hp)%braceless_cons.
  intros [Hc Hin]%not_elem_of_cons.
  rewrite (proj2 (Z.eqb_neq _ _) H1), (proj2 (Z.eqb_neq _ _) H2), (proj2 (Z.eqb_neq b c)) by done.
  auto.
Qed.

Lemma no_top_0_not_in c p : braceless p -> no_top c p 0 = true -> c ∉ p.
Proof.
  induction p as [|b p IH]; cbn; [set_solver|]. intros (H1 & H2 & Hp)%braceless_cons.
  rewrite (proj2 (Z.eqb_neq _ _) H1), (proj2 (Z.eqb_neq _ _) H2), andb_true_r.
  destruct (Z.eqb_spec b c); cbn; [done|]. set_solver.
Qed.

Lemma no_top_deep c p d : braceless p -> no_top c p (S d) = true.
Proof.
  induction p as [|b p IH]; cbn; [done|]. intros (H1 & H2 & Hp)%braceless_cons.
  rewrite (proj2 (Z.eqb_neq _ _) H1), (proj2 (Z.eqb_neq _ _) H2), andb_false_r. auto.
Qed.

(** A brace-delimited group returns to depth 0 and hides its content. *)
Lemma walk_group m q : braceless m -> walk (c_lbrace :: m ++ c_rbrace :: q) 0 = walk q 0.
Proof. intros Hm. cbn. rewrite walk_app, (walk_braceless _ _ Hm). done. Qed.

Lemma no_top_group c m q :
  braceless m -> no_top c (c_lbrace :: m ++ c_rbrace :: q) 0 = no_top c q 0.
Proof.
  intros Hm. cbn. rewrite (no_top_app _ _ _ _ _ (walk_braceless _ _ Hm)), no_top_deep by done. done.
Qed.

Lemma valid_literal_braceless s : is_valid_literal s = true -> braceless s.
Proof. intros Hs. split; by apply valid_literal_not. Qed.

Lemma valid_field_braceless s : valid_field_path s = true -> braceless s.
Proof. intros Hs. split; by apply valid_field_path_not. Qed.

Lemma check_sub_braceless s :
  check_sub_segments (split_on c_slash s) = Ok tt -> braceless s.
Proof. intros Hs. split; intros Hin; by destruct (check_sub_chars _ _ Hs Hin) as [|[|]]. Qed.

(** ** [parse_affix] on a segment with one group *)

Definition brace_count (bs : bytes) : nat :=
  length (filter (fun b => b = c_lbrace \/ b = c_rbrace) bs).

Lemma affix_scan_braceless p r idx o c n :
  braceless p -> affix_scan (p ++ r) idx o c n = affix_scan r (length p + idx) o c n.
Proof.
  revert idx; induction p as [|b p IH]; intros idx; cbn; [done|].
  intros (H1 & H2 & Hp)%braceless_cons.
  rewrite (proj2 (Z.eqb_neq _ _) H1), (proj2 (Z.eqb_neq _ _) H2), IH by done. f_equal; lia.
Qed.

Lemma affix_scan_braces bs idx o c n :
  snd (affix_scan bs idx o c n) = n + brace_count bs.
Proof.
  revert idx o c n; induction bs as [|b bs IH]; intros; [cbn; lia|].
  unfold brace_count in *. rewrite filter_cons. cbn [affix_scan].
  destruct (Z.eqb_spec b c_lbrace), (Z.eqb_spec b c_rbrace), (decide _);
    rewrite ?IH; cbn; naive_solver lia.
Qed.

Lemma affix_scan_group p m q :
  braceless p -> braceless m -> braceless q ->
  affix_scan (p ++ c_lbrace :: m ++ c_rbrace :: q) 0 None None 0
  = (Some (length p), Some (length p + 1 + length m), 2).
Proof.
  intros Hp Hm Hq. rewrite affix_scan_braceless by done. cbn.
  rewrite affix_scan_braceless by done. cbn.
  rewrite <- (app_nil_r q), affix_scan_braceless by done. cbn.
  replace (length m + S (length p + 0)) with (length p + 1 + length m) by lia.
  by rewrite Nat.add_0_r.
Qed.

Definition finish_affix (p m q : bytes) : outcome ParseErrorKind Segment :=
  if negb (is_valid_literal p) || negb (is_valid_literal q) then Err InvalidLiteral
  else if bytes_eqb m [] then Err EmptyFieldPath
  else if negb (valid_field_path m) then Err InvalidFieldName
  else Ok (Affix p m q).

Lemma parse_affix_group p m q :
  braceless p -> braceless m -> braceless q ->
  parse_affix (p ++ c_lbrace :: m ++ c_rbrace :: q) = finish_affix p m q.
Proof.
  intros Hp Hm Hq. unfold parse_affix, finish_affix.
  rewrite affix_scan_group by done. cbn [negb Nat.eqb].
  rewrite slice_to_app.
  replace (p ++ c_lbrace :: m ++ c_rbrace :: q)
    with ((p ++ [c_lbrace]) ++ m ++ c_rbrace :: q) by by rewrite <- app_assoc.
  replace (length p + 1) with (length (p ++ [c_lbrace])) by (rewrite length_app; cbn; lia).
  rewrite slice_app.
  replace ((p ++ [c_lbrace]) ++ m ++ c_rbrace :: q)
    with (((p ++ [c_lbrace]) ++ m ++ [c_rbrace]) ++ q) by by rewrite <- !app_assoc.
  replace (length (p ++ [c_lbrace]) + length m + 1)
    with (length ((p ++ [c_lbrace]) ++ m ++ [c_rbrace])) by (rewrite !length_app; cbn; lia).
  by rewrite slice_from_app.
Qed.

Lemma first_brace s :
  braceless s \/ exists p b q, s = p ++ b :: q /\ braceless p /\ (b = c_lbrace \/ b = c_rbrace).
Proof.
  induction s as [|b s IH]; [left; split; set_solver|].
  destruct (decide (b = c_lbrace \/ b = c_rbrace)) as [Hb|Hb].
  - right. exists [], b, s. split_and!; [done|split; set_solver|done].
  - destruct IH as [Hs|(p & b' & q & -> & Hp & Hb')].
    + left. apply braceless_cons. tauto.
    + right. exists (b :: p), b', q. rewrite braceless_cons. naive_solver.
Qed.

Lemma brace_count_app p q : brace_count (p ++ q) = brace_count p + brace_count q.
Proof. unfold brace_count. by rewrite filter_app, length_app. Qed.

Lemma brace_count_cons b q :
  b = c_lbrace \/ b = c_rbrace -> brace_count (b :: q) = S (brace_count q).
Proof. intros Hb. unfold brace_count. by rewrite filter_cons_True. Qed.

Lemma brace_count_zero p : brace_count p = 0 -> braceless p.
Proof.
  destruct (first_brace p) as [|(u & b & v & -> & _ & Hb)]; [done|].
  rewrite brace_count_app, brace_count_cons by done. lia.
Qed.

(** With two braces and no unmatched one, the segment is [prefix{field}suffix]. *)
Lemma one_group s :
  walk s 0 = Some 0 -> brace_count s = 2 ->
  exists p m q, s = p ++ c_lbrace :: m ++ c_rbrace :: q /\
    braceless p /\ braceless m /\ braceless q.
Proof.
  destruct (first_brace s) as [Hs|(p & b & r & -> & Hp & Hb)].
  { intros _. unfold brace_count. destruct Hs as [H1 H2].
    destruct (filter _ s) as [|x l] eqn:Hf; [done|].
    assert (x ∈ filter (fun b => b = c_lbrace \/ b = c_rbrace) s) as Hx by (rewrite Hf; set_solver).
    apply list_elem_of_filter in Hx as [[->| ->] ?]; done. }
  rewrite walk_app, (walk_braceless _ _ Hp), brace_count_app, brace_count_cons by done. cbn.
  destruct Hb as [->| ->]; [cbn|done]. intros Hw Hn.
  destruct (first_brace r) as [Hr|(m & b & q & -> & Hm & Hb)].
  { by rewrite (walk_braceless _ _ Hr) in Hw. }
  rewrite brace_count_app, brace_count_cons in Hn by done.
  rewrite walk_app, (walk_braceless _ _ Hm) in Hw. cbn in Hw.
  assert (braceless q) as Hq by (apply brace_count_zero; lia).
  destruct Hb as [->| ->]; cbn in Hw.
  - by rewrite (walk_braceless _ _ Hq) in Hw.
  - by exists p, m, q.
Qed.

Lemma parse_affix_walk s :
  walk s 0 = Some 0 ->
  parse_affix s = Err UnbalancedBraces \/
  exists p m q, s = p ++ c_lbrace :: m ++ c_rbrace :: q /\
    braceless p /\ braceless m /\ braceless q /\ parse_affix s = finish_affix p m q.
Proof.
  intros Hw. destruct (decide (brace_count s = 2)) as [Hn|Hn].
  - right. destruct (one_group s Hw Hn) as (p & m & q & -> & ? & ? & ?).
    exists p, m, q. by rewrite parse_affix_group.
  - left. unfold parse_affix.
    pose proof (affix_scan_braces s 0 None None 0) as Hs.
    destruct (affix_scan s 0 None None 0) as [[o c] n]. cbn in Hs.
    by rewrite (proj2 (Nat.eqb_neq n 2)) by lia.
Qed.

Lemma finish_affix_no_panic p m q : finish_affix p m q <> Panic.
Proof. unfold finish_affix. by repeat case_match. Qed.

(** ** Well-formed templates

    What the parser guarantees of every template it accepts. *)
Definition variable_wf (v : TVariable) : Prop :=
  valid_field_path (field v) = true /\ check_sub_segments (split_on c_slash (sub v)) = Ok tt.

Definition segment_wf (s : Segment) : Prop :=
  match s with
  | Literal text => text <> [] /\ is_valid_literal text = true /\ c_colon ∉ text
  | Single | Rest => True
  | Variable_ v => variable_wf v
  | Affix p n q =>
      is_valid_literal p = true /\ c_colon ∉ p /\ is_valid_literal q = true /\ c_colon ∉ q /\
      valid_field_path n = true /\ (p <> [] \/ q <> [])
  end.

Definition verb_wf (v : option bytes) : Prop :=
  match v with
  | Some v => v <> [] /\ is_valid_literal v = true /\ c_colon ∉ v
  | None => True
  end.

Definition template_wf (t : PathTemplate) : Prop :=
  Forall segment_wf (segments t) /\ verb_wf (verb t) /\
  validate_rest_position (segments t) = Ok tt.

(** ** [parse_variable] *)

Lemma check_sub_segments_no_panic segs : check_sub_segments segs <> Panic.
Proof. induction segs; cbn; by repeat case_match. Qed.

(** [parse_variable] split at the first [=]. *)
Definition finish_variable (f : bytes) (sub_str : option bytes) : outcome ParseErrorKind Segment :=
  if bytes_eqb f [] then Err EmptyFieldPath
  else if negb (valid_field_path f) then Err InvalidFieldName
  else
    let? sub :=
      match sub_str with
      | None => Ok (str "*")
      | Some sub =>
          if bytes_eqb sub [] then Err EmptySegment
          else let? _ := check_sub_segments (split_on c_slash sub) in Ok sub
      end in
    Ok (Variable_ {| field := f; sub := sub |}).

Lemma parse_variable_eq f s : c_eq ∉ f -> parse_variable (f ++ c_eq :: s) = finish_variable f (Some s).
Proof.
  intros Hf. unfold parse_variable, finish_variable. rewrite position_app by done.
  rewrite slice_to_app. replace (f ++ c_eq :: s) with ((f ++ [c_eq]) ++ s) by by rewrite <- app_assoc.
  replace (length f + 1) with (length (f ++ [c_eq])) by (rewrite length_app; cbn; lia).
  by rewrite slice_from_app.
Qed.

Lemma parse_variable_noeq f : c_eq ∉ f -> parse_variable f = finish_variable f None.
Proof.
  intros Hf. unfold parse_variable. by rewrite (proj2 (position_None _ _) Hf).
Qed.

Lemma parse_variable_cases inner :
  exists f s, parse_variable inner = finish_variable f s.
Proof.
  destruct (decide (c_eq ∈ inner)) as [Hin|Hin].
  - apply list_elem_of_split_l in Hin as (p & q & -> & Hp).
    exists p, (Some q). by apply parse_variable_eq.
  - exists inner, None. by apply parse_variable_noeq.
Qed.

Lemma finish_variable_no_panic f s : finish_variable f s <> Panic.
Proof.
  unfold finish_variable. destruct s as [s|]; [|by repeat case_match].
  pose proof (check_sub_segments_no_panic (split_on c_slash s)). by repeat case_match.
Qed.

Lemma finish_variable_sound f s seg :
  finish_variable f s = Ok seg -> exists v, seg = Variable_ v /\ variable_wf v.
Proof.
  unfold finish_variable. destruct (bytes_eqb f []); [done|].
  destruct (valid_field_path f) eqn:Hf; [cbn|done].
  destruct s as [s|]; cbn.
  - destruct (bytes_eqb s []); [done|].
    destruct (check_sub_segments _) as [[]| |] eqn:Hs; try done.
    intros [= <-]. by eexists.
  - intros [= <-]. by eexists.
Qed.

Lemma parse_variable_write v :
  variable_wf v ->
  parse_variable (field v ++ (if negb (bytes_eqb (sub v) (str "*")) then str "=" ++ sub v else []))
  = Ok (Variable_ v).
Proof.
  destruct v as [f s]; unfold variable_wf; cbn [field sub]. intros [Hf Hs].
  assert (c_eq ∉ f) as Hne by by apply valid_field_path_not.
  assert (bytes_eqb f [] = false) as Hfe by (apply bytes_eqb_neq; by apply valid_field_path_nonempty).
  destruct (bytes_eqb s (str "*")) eqn:Hstar; cbn [negb].
  - apply bytes_eqb_eq in Hstar as ->. rewrite app_nil_r, parse_variable_noeq by done.
    unfold finish_variable. by rewrite Hfe, Hf.
  - change (str "=" ++ s) with (c_eq :: s). rewrite parse_variable_eq by done.
    unfold finish_variable. rewrite Hfe, Hf, Hs. cbn.
    assert (bytes_eqb s [] = false) as -> by (apply bytes_eqb_neq; by intros ->).
    done.
Qed.

(** ** [parse_segment] *)

Lemma parse_segment_no_panic s ext : walk s 0 = Some 0 -> parse_segment s ext <> Panic.
Proof.
  intros Hw. unfold parse_segment.
  destruct (bytes_eqb s (str "*")); [done|]. destruct (bytes_eqb s (str "**")); [done|].
  destruct (bool_decide (head s = Some c_lbrace) && bool_decide (last s = Some c_rbrace)) eqn:Hb.
  - to_prop. rewrite slice_ok.
    + destruct (parse_variable_cases (take (length s - 1 - 1) (drop 1 s))) as (f & t & ->).
      apply finish_variable_no_panic.
    + destruct s as [|? [|? ?]]; cbn in *; simplify_eq; lia.
    + lia.
  - destruct (ext && _).
    + destruct (parse_affix_walk s Hw) as [->|(p & m & q & _ & _ & _ & _ & ->)]; [done|].
      apply finish_affix_no_panic.
    + by destruct (is_valid_literal s).
Qed.

Lemma parse_segment_sound s ext seg :
  s <> [] -> walk s 0 = Some 0 -> no_top c_colon s 0 = true ->
  parse_segment s ext = Ok seg -> segment_wf seg.
Proof.
  intros Hne Hw Hc. unfold parse_segment.
  destruct (bytes_eqb s (str "*")); [by intros [= <-]|].
  destruct (bytes_eqb s (str "**")); [by intros [= <-]|].
  destruct (bool_decide (head s = Some c_lbrace) && bool_decide (last s = Some c_rbrace)) eqn:Hb.
  { destruct (slice s 1 _) as [inner| |]; try done.
    destruct (parse_variable_cases inner) as (f & t & ->). intros H.
    by apply finish_variable_sound in H as (v & -> & ?). }
  destruct (ext && _).
  - destruct (parse_affix_walk s Hw) as [->|(p & m & q & -> & Hp & Hm & Hq & ->)]; [done|].
    unfold finish_affix.
    destruct (is_valid_literal p) eqn:Hvp, (is_valid_literal q) eqn:Hvq; cbn; try done.
    destruct (bytes_eqb m []); [done|]. destruct (valid_field_path m) eqn:Hvm; cbn; [|done].
    intros [= <-]. cbn.
    rewrite (no_top_app _ _ _ _ _ (walk_braceless _ _ Hp)), no_top_group in Hc by done.
    apply andb_true_iff in Hc as [Hcp Hcq].
    split_and!; eauto using no_top_0_not_in.
    destruct p; [right|by left]. intros ->. cbn [app] in Hb.
    rewrite app_comm_cons, last_snoc in Hb. done.
  - destruct (is_valid_literal s) eqn:Hv; cbn; [|done]. intros [= <-]. cbn.
    eauto using no_top_0_not_in, valid_literal_braceless.
Qed.

(** What the printed form of a segment looks like to the splitting loops. *)
Lemma write_variable_eq v :
  write_variable v = c_lbrace ::
    (field v ++ (if negb (bytes_eqb (sub v) (str "*")) then str "=" ++ sub v else []))
    ++ c_rbrace :: [].
Proof. unfold write_variable. by rewrite <- app_assoc. Qed.

Lemma write_variable_inner_braceless v :
  variable_wf v ->
  braceless (field v ++ (if negb (bytes_eqb (sub v) (str "*")) then str "=" ++ sub v else [])).
Proof.
  intros [Hf%valid_field_braceless Hs%check_sub_braceless].
  unfold braceless in *. destruct (bytes_eqb _ _); cbn; rewrite ?app_nil_r; [done|].
  change (str "=") with [c_eq]. set_solver.
Qed.

Lemma write_segment_shape s :
  segment_wf s ->
  write_segment s <> [] /\ walk (write_segment s) 0 = Some 0 /\
  no_top c_slash (write_segment s) 0 = true /\ no_top c_colon (write_segment s) 0 = true.
Proof.
  destruct s as [t| | |v|p n q]; cbn [write_segment segment_wf].
  - intros (? & Hv & Hc). pose proof (valid_literal_braceless _ Hv).
    split_and!; auto using walk_braceless, no_top_not_in, valid_literal_not.
  - done.
  - done.
  - intros Hv. rewrite write_variable_eq.
    pose proof (write_variable_inner_braceless v Hv).
    by rewrite walk_group, !no_top_group by done.
  - intros (Hp & Hcp & Hq & Hcq & Hn & _).
    pose proof (valid_literal_braceless _ Hp). pose proof (valid_literal_braceless _ Hq).
    pose proof (valid_field_braceless _ Hn).
    change (p ++ str "{" ++ n ++ str "}" ++ q) with (p ++ c_lbrace :: n ++ c_rbrace :: q).
    rewrite walk_app, walk_braceless by done. cbn [mbind option_bind].
    rewrite walk_group by done.
    rewrite !(no_top_app _ _ _ _ _ (walk_braceless p 0 H)), !no_top_group by done.
    split_and!; [by destruct p|by apply walk_braceless| |];
      apply andb_true_iff; split; apply no_top_not_in; auto using valid_literal_not.
Qed.

Lemma parse_segment_write s : segment_wf s -> parse_segment (write_segment s) true = Ok s.
Proof.
  destruct s as [t| | |v|p n q]; cbn [write_segment segment_wf]; [|done|done| |].
  - intros (Hne & Hv & Hc). unfold parse_segment.
    assert (c_star ∉ t) as Hst by by apply valid_literal_not.
    assert (c_lbrace ∉ t) as Hlb by by apply valid_literal_not.
    rewrite (proj2 (bytes_eqb_neq t (str "*"))) by (intros ->; set_solver).
    rewrite (proj2 (bytes_eqb_neq t (str "**"))) by (intros ->; set_solver).
    rewrite bool_decide_eq_false_2 by (destruct t; cbn; [done|intros [= ->]; set_solver]).
    cbn. by rewrite (proj2 (existsb_eqb_false _ _) Hlb), Hv.
  - intros Hv. rewrite write_variable_eq. unfold parse_segment.
    set (inner := field v ++ _).
    rewrite (proj2 (bytes_eqb_neq _ (str "*"))) by done.
    rewrite (proj2 (bytes_eqb_neq _ (str "**"))) by done.
    rewrite app_comm_cons, last_snoc. cbn [head app]. rewrite !bool_decide_eq_true_2 by done. cbn [andb].
    replace (length _ - 1) with (length [c_lbrace] + length inner)
      by (cbn; rewrite length_app; cbn; lia).
    rewrite (slice_app [c_lbrace] inner [c_rbrace]). by apply parse_variable_write.
  - intros (Hp & Hcp & Hq & Hcq & Hn & Hpq). unfold parse_segment.
    change (p ++ str "{" ++ n ++ str "}" ++ q) with (p ++ c_lbrace :: n ++ c_rbrace :: q).
    set (s := p ++ _). assert (c_lbrace ∈ s) as Hin by set_solver.
    rewrite (proj2 (bytes_eqb_neq s (str "*"))) by (intros Hs; rewrite Hs in Hin; set_solver).
    rewrite (proj2 (bytes_eqb_neq s (str "**"))) by (intros Hs; rewrite Hs in Hin; set_solver).
    rewrite (proj2 (existsb_eqb_true _ _) Hin).
    assert (bool_decide (head s = Some c_lbrace) && bool_decide (last s = Some c_rbrace) = false) as ->.
    { apply andb_false_iff. subst s. destruct p as [|x p]; cbn [app head].
      - right. destruct Hpq as [|Hq']; [done|]. destruct (exists_last Hq') as (q0 & y & ->).
        rewrite app_comm_cons, app_comm_cons, app_assoc, last_snoc, bool_decide_eq_false.
        intros [= ->]. by apply (valid_literal_not c_rbrace) in Hq; [set_solver|].
      - left. apply bool_decide_eq_false. intros [= ->].
        by apply (valid_literal_not c_lbrace) in Hp; [set_solver|]. }
    cbn [andb]. subst s. rewrite parse_affix_group by auto using valid_literal_braceless, valid_field_braceless.
    unfold finish_affix. rewrite Hp, Hq, Hn. cbn.
    by rewrite (proj2 (bytes_eqb_neq n [])) by by apply valid_field_path_nonempty.
Qed.

(** ** [split_verb] *)

Lemma split_verb_loop_app s r idx d d' :
  walk s d = Some d' -> no_top c_colon s d = true ->
  split_verb_loop (s ++ r) idx d None = split_verb_loop r (length s + idx) d' None.
Proof.
  revert idx d; induction s as [|b s IH]; intros idx d; cbn; [by intros [= ->]|].
  rewrite <- Nat.add_succ_r.
  destruct (Z.eqb_spec b c_lbrace) as [->|]; [apply IH|].
  destruct (Z.eqb_spec b c_rbrace) as [->|]; cbn.
  - destruct d as [|d]; [done|]. cbn. rewrite Nat.sub_0_r. apply IH.
  - destruct (Z.eqb_spec b c_colon) as [->|], (Nat.eqb_spec d 0) as [->|]; cbn; try done; apply IH.
Qed.

Lemma split_verb_loop_verb q idx i :
  braceless q ->
  split_verb_loop q idx 0 (Some i)
  = if existsb (Z.eqb c_colon) q then Err MultipleVerbs else Ok (Some i).
Proof.
  revert idx; induction q as [|b q IH]; intros idx; [done|].
  intros (H1 & H2 & Hq)%braceless_cons. cbn [split_verb_loop existsb].
  rewrite (proj2 (Z.eqb_neq _ _) H1), (proj2 (Z.eqb_neq _ _) H2), (Z.eqb_sym c_colon b).
  destruct (b =? c_colon)%Z; [done|]. apply IH, Hq.
Qed.

(** Once found, the separator index is final. *)
Lemma split_verb_loop_keep bs idx d i o :
  split_verb_loop bs idx d (Some i) = Ok o -> o = Some i.
Proof.
  revert idx d; induction bs as [|b bs IH]; intros idx d; cbn; [by intros [= ->]|].
  repeat case_match; eauto || done.
Qed.

(** What the separator search establishes of the bytes it has read. *)
Definition verb_found (bs : bytes) (idx d : nat) (o : option nat) : Prop :=
  match o with
  | None => is_Some (walk bs d) /\ no_top c_colon bs d = true
  | Some i =>
      exists p q, bs = p ++ c_colon :: q /\ i = length p + idx /\
        walk p d = Some 0 /\ no_top c_colon p d = true /\
        split_verb_loop q (S i) 0 (Some i) = Ok (Some i)
  end.

Lemma verb_found_cons b bs idx d d' o :
  (forall p, walk (b :: p) d = walk p d') ->
  (forall p, no_top c_colon (b :: p) d = no_top c_colon p d') ->
  verb_found bs (S idx) d' o -> verb_found (b :: bs) idx d o.
Proof.
  intros Hw Hn. unfold verb_found. destruct o as [i|]; [|by rewrite Hw, Hn].
  intros (p & q & -> & -> & ? & ? & Hl). exists (b :: p), q. rewrite Hw, Hn.
  split_and!; [done|cbn; lia|done..].
Qed.

Lemma split_verb_loop_inv bs idx d o :
  split_verb_loop bs idx d None = Ok o -> verb_found bs idx d o.
Proof.
  revert idx d; induction bs as [|b bs IH]; intros idx d; [intros [= <-]; split; eauto|].
  cbn [split_verb_loop].
  destruct (Z.eqb_spec b c_lbrace) as [->|H1]; [intros H%IH; by eapply verb_found_cons, H|].
  destruct (Z.eqb_spec b c_rbrace) as [->|H2]; cbn [andb].
  { destruct d as [|d]; [done|]. cbn [Nat.ltb Nat.leb]. rewrite Nat.sub_succ, Nat.sub_0_r.
    intros H%IH. eapply verb_found_cons, H; intros p; cbn; by rewrite ?Nat.sub_0_r. }
  assert (forall p, walk (b :: p) d = walk p d) as Hw.
  { intros p. cbn. by rewrite (proj2 (Z.eqb_neq _ _) H1), (proj2 (Z.eqb_neq _ _) H2). }
  assert (b <> c_colon \/ d <> 0 ->
    forall p, no_top c_colon (b :: p) d = no_top c_colon p d) as Hn.
  { intros Hbd p. cbn. rewrite (proj2 (Z.eqb_neq _ _) H1), (proj2 (Z.eqb_neq _ _) H2).
    destruct (Z.eqb_spec b c_colon), (Nat.eqb_spec d 0); cbn; tauto. }
  destruct (Z.eqb_spec b c_colon) as [->|H3], (Nat.eqb_spec d 0) as [->|H4]; cbn [andb];
    try (intros H%IH; eapply verb_found_cons, H; eauto; fail).
  intros H. pose proof (split_verb_loop_keep _ _ _ _ _ H) as ->. by exists [], bs.
Qed.

(** The verb split cuts at the only top-level [:]. *)
Lemma template_split_verb_inv t body v :
  template_split_verb t = Ok (body, v) ->
  is_Some (walk body 0) /\ no_top c_colon body 0 = true /\ verb_wf v /\
  t = body ++ match v with Some v => c_colon :: v | None => [] end.
Proof.
  unfold template_split_verb.
  destruct (split_verb_loop t 0 0 None) as [o| |] eqn:Hl; [|done..].
  pose proof (split_verb_loop_inv _ _ _ _ Hl) as Hinv. destruct o as [i|].
  - destruct Hinv as (p & q & -> & -> & Hw & Hn & Hq). rewrite Nat.add_0_r in *.
    replace (p ++ c_colon :: q) with ((p ++ [c_colon]) ++ q) by by rewrite <- app_assoc.
    replace (length p + 1) with (length (p ++ [c_colon])) by (rewrite length_app; cbn; lia).
    rewrite slice_from_app, <- app_assoc. cbn [app].
    destruct (bytes_eqb q []) eqn:He; [done|]. destruct (is_valid_literal q) eqn:Hv; cbn; [|done].
    rewrite slice_to_app. intros [= <- <-].
    rewrite split_verb_loop_verb in Hq by by apply valid_literal_braceless.
    destruct (existsb _ q) eqn:Hc; [done|]. apply existsb_eqb_false in Hc. apply bytes_eqb_neq in He.
    split_and!; [by eexists|done|done|done].
  - intros [= <- <-]. destruct Hinv. by rewrite app_nil_r.
Qed.

Lemma split_verb_loop_no_panic bs idx d v : split_verb_loop bs idx d v <> Panic.
Proof. revert idx d v; induction bs; intros; cbn; repeat case_match; auto || done. Qed.

Lemma template_split_verb_no_panic t : template_split_verb t <> Panic.
Proof.
  unfold template_split_verb. pose proof (split_verb_loop_no_panic t 0 0 None).
  destruct (split_verb_loop t 0 0 None) as [o| |] eqn:Hl; [|done..].
  apply split_verb_loop_inv in Hl. destruct o as [i|]; [|done].
  destruct Hl as (p & q & -> & -> & _). rewrite Nat.add_0_r.
  rewrite slice_from_ok, slice_to_ok by (rewrite length_app; cbn; lia). by repeat case_match.
Qed.

Lemma template_split_verb_write body v :
  walk body 0 = Some 0 -> no_top c_colon body 0 = true -> verb_wf v ->
  template_split_verb (body ++ match v with Some v => c_colon :: v | None => [] end) = Ok (body, v).
Proof.
  intros Hw Hn Hv. unfold template_split_verb.
  rewrite (split_verb_loop_app _ _ _ _ _ Hw Hn), Nat.add_0_r.
  destruct v as [v|]; cbn [split_verb_loop]; [|by rewrite app_nil_r].
  cbn. destruct Hv as (Hne & Hv & Hc).
  rewrite split_verb_loop_verb by by apply valid_literal_braceless.
  rewrite (proj2 (existsb_eqb_false _ _) Hc).
  replace (body ++ c_colon :: v) with ((body ++ [c_colon]) ++ v) by by rewrite <- app_assoc.
  replace (length body + 1) with (length (body ++ [c_colon])) by (rewrite length_app; cbn; lia).
  rewrite slice_from_app, (proj2 (bytes_eqb_neq _ _) Hne), Hv, <- app_assoc. cbn [negb app].
  by rewrite slice_to_app.
Qed.

(** ** [split_and_parse_segments]

    [split_ref] is the loop with the bytes of the current segment in place of
    its start offset. *)
Fixpoint split_ref (extended : bool) (bs : bytes) (depth : nat) (cur : bytes)
    (out : list Segment) : outcome ParseErrorKind (list Segment * nat * bytes) :=
  match bs with
  | [] => Ok (out, depth, cur)
  | b :: tl =>
      if (b =? c_lbrace)%Z then split_ref extended tl (S depth) (cur ++ [b]) out
      else if (b =? c_rbrace)%Z then
        match depth with
        | O => Panic
        | S depth' => split_ref extended tl depth' (cur ++ [b]) out
        end
      else if (b =? c_slash)%Z && (depth =? 0) then
        let? out := push_parsed_segment out cur extended in
        split_ref extended tl depth [] out
      else split_ref extended tl depth (cur ++ [b]) out
  end.

Lemma split_loop_ref ext bs body done_ start cur depth out :
  body = done_ ++ cur ++ bs -> start = length done_ ->
  match split_ref ext bs depth cur out with
  | Ok (o, d, c) =>
      exists s, split_loop body ext bs (length done_ + length cur) depth start out = Ok (o, d, s)
        /\ s <= length body /\ drop s body = c
  | Err e => split_loop body ext bs (length done_ + length cur) depth start out = Err e
  | Panic => split_loop body ext bs (length done_ + length cur) depth start out = Panic
  end.
Proof.
  revert done_ start cur depth out; induction bs as [|b bs IH]; intros done_ start cur depth out -> ->.
  { exists (length done_). rewrite app_nil_r, drop_app_length, length_app. split_and!; [done|lia|done]. }
  cbn [split_ref split_loop].
  assert (forall depth', match split_ref ext bs depth' (cur ++ [b]) out with
    | Ok (o, d, c) =>
        exists s, split_loop (done_ ++ cur ++ b :: bs) ext bs (S (length done_ + length cur)) depth'
          (length done_) out = Ok (o, d, s)
          /\ s <= length (done_ ++ cur ++ b :: bs) /\ drop s (done_ ++ cur ++ b :: bs) = c
    | Err e => split_loop (done_ ++ cur ++ b :: bs) ext bs (S (length done_ + length cur)) depth'
          (length done_) out = Err e
    | Panic => split_loop (done_ ++ cur ++ b :: bs) ext bs (S (length done_ + length cur)) depth'
          (length done_) out = Panic
    end) as Hstep.
  { intros depth'. replace (S (length done_ + length cur))
      with (length done_ + length (cur ++ [b])) by (rewrite length_app; cbn; lia).
    apply IH; [by rewrite <- app_assoc|done]. }
  destruct (b =? c_lbrace)%Z; [apply Hstep|].
  destruct (b =? c_rbrace)%Z; [destruct depth; [done|apply Hstep]|].
  destruct (Z.eqb_spec b c_slash) as [->|]; [|apply Hstep].
  destruct (depth =? 0); [cbn [andb]|apply Hstep].
  rewrite slice_app.
  destruct (push_parsed_segment out cur ext) as [out'| |]; [|done..].
  replace (S (length done_ + length cur)) with (length (done_ ++ cur ++ [c_slash]) + length (@nil Z))
    by (rewrite !length_app; cbn; lia).
  apply IH; [by rewrite <- !app_assoc|rewrite !length_app; cbn; lia].
Qed.

Lemma split_and_parse_ref body ext :
  split_and_parse_segments body ext =
  let? (out, depth, cur) := split_ref ext body 0 [] [] in
  if negb (depth =? 0) then Err UnbalancedBraces else push_parsed_segment out cur ext.
Proof.
  unfold split_and_parse_segments.
  pose proof (split_loop_ref ext body body [] 0 [] 0 [] eq_refl eq_refl) as H.
  cbn [length Nat.add] in H.
  destruct (split_ref ext body 0 [] []) as [[[o d] c]| |]; [|by rewrite H..].
  destruct H as (s & -> & Hs & <-). by rewrite slice_from_ok.
Qed.

Lemma split_ref_app ext s r d d' cur out :
  walk s d = Some d' -> no_top c_slash s d = true ->
  split_ref ext (s ++ r) d cur out = split_ref ext r d' (cur ++ s) out.
Proof.
  revert d cur; induction s as [|b s IH]; intros d cur; cbn [app walk no_top split_ref].
  { intros [= ->] _. by rewrite app_nil_r. }
  rewrite (cons_middle b cur s), app_assoc.
  destruct (b =? c_lbrace)%Z; [apply IH|].
  destruct (b =? c_rbrace)%Z; [destruct d; [done|]; rewrite Nat.sub_succ, Nat.sub_0_r; apply IH|].
  destruct ((b =? c_slash)%Z && (d =? 0)); [done|]. cbn. apply IH.
Qed.

(** The segment under construction: balanced so far, no top-level [:]. *)
Definition partial_ok (cur : bytes) (d : nat) : Prop :=
  walk cur 0 = Some d /\ no_top c_colon cur 0 = true.

Lemma partial_ok_snoc cur d b :
  partial_ok cur d -> no_top c_colon [b] d = true ->
  forall d', walk [b] d = Some d' -> partial_ok (cur ++ [b]) d'.
Proof.
  intros [Hw Hn] Hb d' Hd. unfold partial_ok.
  rewrite walk_app, Hw, (no_top_app _ _ _ _ _ Hw), Hn, Hb. done.
Qed.

Lemma push_parsed_segment_sound out cur ext out' :
  partial_ok cur 0 -> Forall segment_wf out ->
  push_parsed_segment out cur ext = Ok out' -> Forall segment_wf out'.
Proof.
  intros [Hw Hn] Hout. unfold push_parsed_segment.
  destruct (bytes_eqb cur []) eqn:He; [done|]. apply bytes_eqb_neq in He.
  destruct (parse_segment cur ext) as [s| |] eqn:Hs; [|done..].
  intros [= <-]. apply Forall_app. split; [done|]. apply Forall_singleton.
  eauto using parse_segment_sound.
Qed.

Lemma push_parsed_segment_no_panic out cur ext :
  walk cur 0 = Some 0 -> push_parsed_segment out cur ext <> Panic.
Proof.
  intros Hw. unfold push_parsed_segment. pose proof (parse_segment_no_panic cur ext Hw).
  by repeat case_match.
Qed.

Lemma split_ref_spec ext bs d cur out :
  is_Some (walk bs d) -> no_top c_colon bs d = true ->
  partial_ok cur d -> Forall segment_wf out ->
  match split_ref ext bs d cur out with
  | Ok (o, d', c) => Forall segment_wf o /\ partial_ok c d'
  | Err _ => True
  | Panic => False
  end.
Proof.
  revert d cur out; induction bs as [|b bs IH]; intros d cur out Hw Hn Hcur Hout; [done|].
  pose proof (partial_ok_snoc cur d b Hcur) as Hsnoc.
  cbn [walk no_top split_ref] in *.
  destruct (b =? c_lbrace)%Z eqn:H1; [by apply IH; auto|].
  destruct (b =? c_rbrace)%Z eqn:H2.
  { destruct d as [|d]; [by destruct Hw|]. rewrite Nat.sub_succ, Nat.sub_0_r in Hn.
    by apply IH; auto. }
  apply andb_true_iff in Hn as [Hb Hn]. rewrite andb_true_r in Hsnoc.
  destruct (Z.eqb_spec b c_slash) as [->|], (Nat.eqb_spec d 0) as [->|]; cbn [andb];
    try (by apply IH; auto).
  pose proof (push_parsed_segment_no_panic out cur ext (proj1 Hcur)) as Hnp.
  destruct (push_parsed_segment out cur ext) as [out'| |] eqn:Hp; [|done..].
  apply IH; [done|done|done|]. eauto using push_parsed_segment_sound.
Qed.

Lemma split_and_parse_spec body ext :
  is_Some (walk body 0) -> no_top c_colon body 0 = true ->
  match split_and_parse_segments body ext with
  | Ok segs => Forall segment_wf segs
  | Err _ => True
  | Panic => False
  end.
Proof.
  intros Hw Hn. rewrite split_and_parse_ref.
  pose proof (split_ref_spec ext body 0 [] [] Hw Hn) as H.
  destruct (split_ref ext body 0 [] []) as [[[o d] c]| |]; [|done|].
  - destruct H as [Ho Hc]; [done|done|].
    destruct (Nat.eqb_spec d 0) as [->|]; cbn [negb]; [|done].
    pose proof (push_parsed_segment_no_panic o c ext (proj1 Hc)).
    destruct (push_parsed_segment o c ext) eqn:Hp; [|done..].
    eauto using push_parsed_segment_sound.
  - by apply H.
Qed.

(** ** Position of [**] *)

(** The atoms a segment contributes to the flattened template. *)
Definition segment_atoms (s : Segment) : list Segment :=
  match s with
  | Variable_ v => segment_of_piece <$> split_on c_slash (sub v)
  | s => [s]
  end.

Lemma validate_loop_atoms segs seen :
  validate_loop segs seen =
  let? _ := validate_sub (segs ≫= segment_atoms) seen in Ok tt.
Proof.
  assert (forall a b s, validate_sub (a ++ b) s = let? s' := validate_sub a s in validate_sub b s')
    as Happ.
  { intros a b. induction a as [|x a IH]; intros s; cbn; [done|]. by destruct s. }
  revert seen; induction segs as [|s segs IH]; intros seen; cbn [validate_loop mbind list_bind];
    [done|].
  rewrite Happ. destruct s as [t| | |v|p n q]; cbn [segment_atoms validate_sub];
    try (destruct seen; [done|apply IH]).
  rewrite sub_segments_pieces. destruct (validate_sub _ seen); [apply IH|done..].
Qed.

Definition rest_only_last (atoms : list Segment) : Prop :=
  forall i, atoms !! i = Some Rest -> S i = length atoms.

Lemma validate_sub_rest atoms seen :
  (exists s, validate_sub atoms seen = Ok s) <->
  (seen = true -> atoms = []) /\ rest_only_last atoms.
Proof.
  unfold rest_only_last.
  revert seen; induction atoms as [|a atoms IH]; intros seen; cbn [validate_sub].
  { split; [done|by eexists]. }
  destruct seen; [split; [by intros [? ?]|intros [H _]; by specialize (H eq_refl)]|].
  rewrite IH. clear IH. split.
  - intros [Hnil Hlast]. split; [done|]. intros [|i] Hi; cbn in *; [|f_equal; auto].
    simplify_eq. by rewrite Hnil.
  - intros [_ Hlast]. split.
    + destruct a; try done. intros _. specialize (Hlast 0 eq_refl). by destruct atoms.
    + intros i Hi. specialize (Hlast (S i) Hi). cbn in Hlast. lia.
Qed.

Lemma validate_rest_position_spec segs :
  validate_rest_position segs = Ok tt <-> rest_only_last (segs ≫= segment_atoms).
Proof.
  unfold validate_rest_position. rewrite validate_loop_atoms.
  pose proof (validate_sub_rest (segs ≫= segment_atoms) false) as H.
  destruct (validate_sub _ false); naive_solver.
Qed.

Lemma validate_rest_position_no_panic segs : validate_rest_position segs <> Panic.
Proof.
  unfold validate_rest_position. rewrite validate_loop_atoms.
  generalize (segs ≫= segment_atoms) as l. generalize false as s. intros s l.
  assert (validate_sub l s <> Panic).
  { revert s; induction l; intros s; cbn; [done|]. by destruct s. }
  by destruct (validate_sub l s).
Qed.

(** ** Printing *)

Lemma write_segments_parse segs cur out :
  Forall segment_wf segs -> segment_wf cur ->
  (let? (o, d, c) := split_ref true (write_segments false segs) 0 (write_segment cur) out in
   if negb (d =? 0) then Err UnbalancedBraces else push_parsed_segment o c true)
  = Ok (out ++ cur :: segs).
Proof.
  revert cur out; induction segs as [|s segs IH]; intros cur out Hsegs Hcur;
    destruct (write_segment_shape cur Hcur) as (Hne & _).
  - cbn. unfold push_parsed_segment. rewrite (proj2 (bytes_eqb_neq _ _) Hne).
    by rewrite parse_segment_write.
  - apply Forall_cons in Hsegs as [Hs Hsegs].
    destruct (write_segment_shape s Hs) as (_ & Hw & Hn & _).
    cbn [write_segments]. change (str "/" ++ ?x) with (c_slash :: x). cbn [split_ref].
    change (c_slash =? c_lbrace)%Z with false. change (c_slash =? c_rbrace)%Z with false.
    cbn [andb Z.eqb Pos.eqb Nat.eqb]. unfold push_parsed_segment at 1.
    rewrite (proj2 (bytes_eqb_neq _ _) Hne), parse_segment_write by done.
    rewrite (split_ref_app _ _ _ _ _ _ _ Hw Hn). cbn [app].
    rewrite IH by done. by rewrite <- app_assoc.
Qed.

Lemma write_segments_shape segs b :
  Forall segment_wf segs ->
  walk (write_segments b segs) 0 = Some 0 /\ no_top c_colon (write_segments b segs) 0 = true.
Proof.
  intros H. revert b; induction H as [|s segs Hs _ IH]; intros b; [done|].
  destruct (write_segment_shape s Hs) as (_ & Hw & _ & Hn). destruct (IH false) as [Hw' Hn'].
  cbn [write_segments]. set (w := write_segment s ++ write_segments false segs).
  assert (walk w 0 = Some 0 /\ no_top c_colon w 0 = true) as Hww.
  { subst w. rewrite walk_app, Hw, (no_top_app _ _ _ _ _ Hw), Hn, Hn'. done. }
  destruct b; exact Hww.
Qed.

Lemma parse_display p :
  template_wf p -> parse (display p) (with_segment_affixes Grammar_default) = Ok p.
Proof.
  destruct p as [segs v]. intros (Hsegs & Hv & Hr). cbn [segments verb] in *.
  destruct (write_segments_shape segs true Hsegs) as [Hw Hn].
  unfold parse, parse_inner, display. cbn [segments verb].
  replace (str "/" ++ write_segments true segs ++ match v with Some v => str ":" ++ v | None => [] end)
    with ((c_slash :: write_segments true segs) ++ match v with Some v => c_colon :: v | None => [] end)
    by by destruct v.
  rewrite bool_decide_eq_true_2 by done. cbn [negb].
  rewrite template_split_verb_write by done.
  rewrite slice_from_ok by (cbn; lia). cbn [drop].
  assert ((if bytes_eqb (drop 0 (write_segments true segs)) [] then Ok []
    else split_and_parse_segments (drop 0 (write_segments true segs)) true) = Ok segs) as Hs.
  { rewrite drop_0. destruct segs as [|s segs]; [done|].
    apply Forall_cons in Hsegs as [Hs Hsegs].
    destruct (write_segment_shape s Hs) as (Hne & Hws & Hns & _). cbn [write_segments app].
    rewrite (proj2 (bytes_eqb_neq _ _)) by (intros []%app_eq_nil; done).
    rewrite split_and_parse_ref, (split_ref_app _ _ _ _ _ _ _ Hws Hns). cbn [app].
    by apply write_segments_parse. }
  cbn [segment_affixes with_segment_affixes]. by rewrite Hs, Hr.
Qed.

(** Everything the parser accepts is well formed. *)
Lemma parse_spec t g :
  match parse t g with
  | Ok p => template_wf p
  | Err _ => True
  | Panic => False
  end.
Proof.
  unfold parse, parse_inner. destruct (bool_decide _) eqn:Hh; cbn [negb]; [|done].
  apply bool_decide_eq_true in Hh.
  pose proof (template_split_verb_no_panic t).
  destruct (template_split_verb t) as [[body v]| |] eqn:Hsv; [|done..].
  apply template_split_verb_inv in Hsv as (Hw & Hn & Hv & ->).
  destruct body as [|b body]; [by destruct v|]. cbn in Hh. simplify_eq.
  rewrite slice_from_ok by (cbn; lia). cbn [drop].
  change (walk (c_slash :: body) 0) with (walk body 0) in Hw.
  change (no_top c_colon (c_slash :: body) 0) with (no_top c_colon body 0) in Hn.
  rewrite drop_0. pose proof (split_and_parse_spec body (segment_affixes g) Hw Hn) as Hs.
  destruct (bytes_eqb body []).
  - by split_and!.
  - destruct (split_and_parse_segments body _) as [segs| |]; [|done..].
    pose proof (validate_rest_position_no_panic segs).
    destruct (validate_rest_position segs) as [[]| |] eqn:Hr; [|done..].
    by split_and!.
Qed.

(** ** The strict grammar inside the extended one *)

Lemma parse_segment_extended s seg :
  parse_segment s false = Ok seg -> parse_segment s true = Ok seg.
Proof.
  unfold parse_segment. repeat (destruct (bytes_eqb s _); [done|]).
  destruct (bool_decide _ && bool_decide _); [done|]. cbn [andb].
  destruct (is_valid_literal s) eqn:Hv; [cbn [negb]|done]. intros [= <-].
  by rewrite (proj2 (existsb_eqb_false c_lbrace s)) by by apply valid_literal_not.
Qed.

Lemma push_parsed_segment_extended out s out' :
  push_parsed_segment out s false = Ok out' -> push_parsed_segment out s true = Ok out'.
Proof.
  unfold push_parsed_segment. destruct (bytes_eqb s []); [done|].
  destruct (parse_segment s false) eqn:Hs; [|done..]. by rewrite (parse_segment_extended _ _ Hs).
Qed.

Lemma split_ref_extended bs d cur out r :
  split_ref false bs d cur out = Ok r -> split_ref true bs d cur out = Ok r.
Proof.
  revert d cur out; induction bs as [|b bs IH]; intros d cur out; cbn [split_ref]; [done|].
  destruct (b =? c_lbrace)%Z; [apply IH|].
  destruct (b =? c_rbrace)%Z; [destruct d; [done|apply IH]|].
  destruct ((b =? c_slash)%Z && (d =? 0)); [|apply IH].
  destruct (push_parsed_segment out cur false) eqn:Hp; [|done..].
  rewrite (push_parsed_segment_extended _ _ _ Hp). apply IH.
Qed.

(** ** Properties *)

(** Parsing never panics: no slice is out of range, no [expect] fails, and
    the brace depth never underflows, for any input bytes and either grammar. *)
Theorem parse_no_panic (t : bytes) (g : Grammar) : parse t g <> Panic.
Proof. intros H. pose proof (parse_spec t g) as Hs. by rewrite H in Hs. Qed.

(** C10. A template the parser accepts is well formed: literals, affixes and the
    verb are non-empty [pchar] text, field paths are dotted identifiers,
    sub-templates are [/]-separated wildcards and literals, and [**] occurs only
    as the last atom of the flattened template. *)
Theorem parse_accepts_wf (t : bytes) (g : Grammar) (p : PathTemplate) :
  parse t g = Ok p ->
  Forall segment_wf (segments p) /\ verb_wf (verb p) /\
  rest_only_last (segments p ≫= segment_atoms).
Proof.
  intros H. pose proof (parse_spec t g) as Hs. rewrite H in Hs.
  destruct Hs as (? & ? & ?%validate_rest_position_spec). done.
Qed.

Lemma parse_accepts_wf_witness :
  exists p, parse (str "/v1/{a.b=books/**}:get") Grammar_default = Ok p /\
    rest_only_last (segments p ≫= segment_atoms).
Proof.
  eexists. split; [vm_compute; reflexivity|].
  apply (parse_accepts_wf (str "/v1/{a.b=books/**}:get") Grammar_default).
  vm_compute. reflexivity.
Defined.

(** C9. Printing an accepted template and parsing the text again with affixes
    enabled gives the same template back, so [Route::template], which re-parses
    the stored pattern, cannot fail. *)
Theorem parse_display_roundtrip (t : bytes) (g : Grammar) (p : PathTemplate) :
  parse t g = Ok p ->
  parse (display p) (with_segment_affixes Grammar_default) = Ok p.
Proof.
  intros H. apply parse_display. pose proof (parse_spec t g) as Hs. by rewrite H in Hs.
Qed.

Lemma parse_display_roundtrip_witness :
  parse (display (mkTemplate [Literal (str "v1"); Variable_ (mkVariable (str "a") (str "*"))]
                             (Some (str "get"))))
    (with_segment_affixes Grammar_default)
  = Ok (mkTemplate [Literal (str "v1"); Variable_ (mkVariable (str "a") (str "*"))]
                   (Some (str "get"))).
Proof.
  apply (parse_display_roundtrip (str "/v1/{a=*}:get") Grammar_default).
  vm_compute. reflexivity.
Defined.

(** The affix-enabled grammar extends the strict one: every template the
    strict grammar accepts is accepted by the extended grammar with the same
    result. *)
Theorem parse_grammar_superset (t : bytes) (p : PathTemplate) :
  parse t Grammar_default = Ok p ->
  parse t (with_segment_affixes Grammar_default) = Ok p.
Proof.
  unfold parse, parse_inner. destruct (bool_decide _); [|done]. cbn [negb].
  destruct (template_split_verb t) as [[body v]| |]; [|done..].
  destruct (slice_from body 1) as [r| |]; [|done..].
  destruct (bytes_eqb r []); [done|]. cbn [segment_affixes with_segment_affixes Grammar_default].
  rewrite !split_and_parse_ref.
  destruct (split_ref false r 0 [] []) as [[[o d] c]| |] eqn:Hr; [|done..].
  rewrite (split_ref_extended _ _ _ _ _ Hr). destruct (d =? 0); [cbn [negb]|done].
  destruct (push_parsed_segment o c false) eqn:Hp; [|done..].
  by rewrite (push_parsed_segment_extended _ _ _ Hp).
Qed.

Lemma parse_grammar_superset_witness :
  parse (str "/v1/{a=x/*}") (with_segment_affixes Grammar_default)
  = parse (str "/v1/{a=x/*}") Grammar_default.
Proof. apply (parse_grammar_superset (str "/v1/{a=x/*}")). vm_compute. reflexivity. Defined.
