(* ===== verification/Scan.v ===== *)
(** * routerama: request-path scanning

    Models [src/crates/routerama/src/codegen_helpers/scan.rs] (the verb split and
    the scalar, SSE2 and NEON segment scanners) and [scanned_path.rs] (the view
    over the offsets).  Vector registers are lists of lanes; the intrinsics the
    source uses are modelled lane by lane.  The offset buffers are lists updated
    in place. *)

From S2P Require Import Prelude Collections.

(** ** [split_verb] *)

(** [bytes.iter().rposition(p)]. *)
Fixpoint rposition (p : Z -> bool) (bs : bytes) : option nat :=
  match bs with
  | [] => None
  | b :: rest =>
      match rposition p rest with
      | Some i => Some (S i)
      | None => if p b then Some 0 else None
      end
  end.

Definition is_verb_delimiter (b : Z) : bool :=
  ((b =? c_colon) || (b =? c_slash) || (b =? c_quest) || (b =? c_hash))%Z.

Definition split_verb (path : bytes) : outcome unit (bytes * option bytes) :=
  match rposition is_verb_delimiter path with
  | Some colon =>
      if negb (bool_decide (path !! colon = Some c_colon)) then Ok (path, None)
      else
        let? verb := slice_from path (colon + 1) in
        if bytes_eqb verb [] then Ok (path, None)
        else let? body := slice_to path colon in Ok (body, Some verb)
  | None => Ok (path, None)
  end.

(** ** Scanning into offset buffers *)

Record ScanState : Type := mkScan {
  s_starts : list nat;
  s_ends : list nat;
  s_count : nat;
  s_start : nat;
  s_valid : bool }.

(** Records a separator at [idx]: writes the pair while there is capacity. *)
Definition emit (cap base idx : nat) (st : ScanState) : ScanState :=
  {| s_starts := if s_count st <? cap then <[s_count st := base + s_start st]> (s_starts st)
                 else s_starts st;
     s_ends := if s_count st <? cap then <[s_count st := base + idx]> (s_ends st)
               else s_ends st;
     s_count := s_count st + 1;
     s_start := idx + 1;
     s_valid := s_valid st |}.

Definition invalidate (ok : bool) (st : ScanState) : ScanState :=
  {| s_starts := s_starts st; s_ends := s_ends st; s_count := s_count st;
     s_start := s_start st; s_valid := s_valid st && ok |}.

Record ScanResult : Type := mkScanResult {
  r_starts : list nat;
  r_ends : list nat;
  r_count : nat;
  r_valid : bool }.

(** The last segment, then the totals. *)
Definition finish_scan (cap base n : nat) (st : ScanState) : ScanResult :=
  {| r_starts := if s_count st <? cap then <[s_count st := base + s_start st]> (s_starts st)
                 else s_starts st;
     r_ends := if s_count st <? cap then <[s_count st := base + n]> (s_ends st)
               else s_ends st;
     r_count := s_count st + 1;
     r_valid := s_valid st |}.

(** [body.strip_prefix('/').unwrap_or(body)]. *)
Definition strip_slash (body : bytes) : bytes :=
  match body with
  | b :: tl => if (b =? c_slash)%Z then tl else body
  | [] => body
  end.

Definition is_forbidden (b : Z) : bool := ((b =? c_quest) || (b =? c_hash))%Z.

(** The byte loop of the scalar scanner (also the tail loop of the vector ones). *)
Fixpoint scan_bytes (cap base : nat) (bs : bytes) (idx : nat) (st : ScanState) : ScanState :=
  match bs with
  | [] => st
  | byte :: tl =>
      scan_bytes cap base tl (S idx)
        (if (byte =? c_slash)%Z then emit cap base idx st
         else if is_forbidden byte then invalidate false st
         else st)
  end.

Definition scan_segments_scalar (body : bytes) (starts ends : list nat) : ScanResult :=
  let rest := strip_slash body in
  if bytes_eqb rest [] then mkScanResult starts ends 0 true
  else
    let base := length body - length rest in
    let cap := Nat.min (length starts) (length ends) in
    finish_scan cap base (length rest)
      (scan_bytes cap base rest 0 (mkScan starts ends 0 0 true)).

(** *** Vector intrinsics

    A 128-bit register holds sixteen byte lanes, lowest address first. *)

(** [_mm_cmpeq_epi8(chunk, _mm_set1_epi8(c))] and [vceqq_u8(chunk, vdupq_n_u8(c))]. *)
Definition cmpeq (chunk : list Z) (c : Z) : list Z :=
  (fun b => if (b =? c)%Z then 255%Z else 0%Z) <$> chunk.

(** [_mm_or_si128] and [vorrq_u8]. *)
Definition or_lanes (x y : list Z) : list Z := zip_with Z.lor x y.

(** [_mm_movemask_epi8]: bit [i] is the top bit of lane [i]. *)
Fixpoint movemask (lanes : list Z) : Z :=
  match lanes with
  | [] => 0
  | l :: tl => (Z.b2z (Z.testbit l 7) + 2 * movemask tl)%Z
  end.

(** [vshrn_n_u16::<4>] on the register seen as little-endian 16-bit lanes, each
    shifted right by four and narrowed to a byte. *)
Fixpoint shrn4 (lanes : list Z) : list Z :=
  match lanes with
  | lo :: hi :: tl => Z.land (Z.shiftr (lo + 256 * hi) 4) 255 :: shrn4 tl
  | _ => []
  end.

(** [vget_lane_u64::<0>(vreinterpret_u64_u8(v))]: eight bytes as one word. *)
Fixpoint lane_u64 (lanes : list Z) : Z :=
  match lanes with
  | [] => 0
  | l :: tl => (l + 256 * lane_u64 tl)%Z
  end.

(** [uN::trailing_zeros] of a non-zero value. *)
Fixpoint pos_trailing_zeros (p : positive) : nat :=
  match p with
  | xO p => S (pos_trailing_zeros p)
  | _ => 0
  end.

Definition trailing_zeros (z : Z) : nat :=
  match z with
  | Zpos p => pos_trailing_zeros p
  | _ => 64
  end.

(** *** The vector scanner

    The SSE2 and NEON functions of the source are the same code around a
    different mask: one bit per lane, or one nibble per lane.  [VectorUnit] is
    what differs. *)
Class VectorUnit : Type := {
  (** bits a lane takes in the mask *)
  lane_bits : nat;
  (** one 16-byte load at [i]: the separator mask, and whether no lane is forbidden *)
  load : bytes -> nat -> Z * bool;
  (** [while mask != 0 { .. }]: emits the lane of the lowest bit and clears it *)
  mask_loop : nat -> nat -> nat -> nat -> Z -> ScanState -> ScanState }.

(** [while i + 16 <= n]; returns the final [i]. *)
Fixpoint chunk_loop `{VectorUnit} (fuel cap base : nat) (bytes_ : bytes) (i : nat)
    (st : ScanState) : nat * ScanState :=
  match fuel with
  | O => (i, st)
  | S fuel' =>
      if i + 16 <=? length bytes_ then
        let '(mask, ok) := load bytes_ i in
        chunk_loop fuel' cap base bytes_ (i + 16) (mask_loop 17 cap base i mask (invalidate ok st))
      else (i, st)
  end.

(** The tail: an overlapping load with the lanes already processed cleared, or
    the scalar loop for inputs shorter than a register. *)
Definition scan_tail `{VectorUnit} (cap base : nat) (rest : bytes) (i : nat) (st : ScanState)
    : ScanState :=
  let n := length rest in
  if i <? n then
    if 16 <=? n then
      let load_at := n - 16 in
      let '(raw, ok) := load rest load_at in
      let skip := (i - load_at) * lane_bits in
      let mask := Z.land raw (Z.lnot (Z.shiftl 1 (Z.of_nat skip) - 1)) in
      mask_loop 17 cap base load_at mask (invalidate ok st)
    else scan_bytes cap base (drop i rest) i st
  else st.

Definition scan_vector `{VectorUnit} (body : bytes) (starts ends : list nat) : ScanResult :=
  let rest := strip_slash body in
  if bytes_eqb rest [] then mkScanResult starts ends 0 true
  else
    let base := length body - length rest in
    let n := length rest in
    let cap := Nat.min (length starts) (length ends) in
    let '(i, st) := chunk_loop n cap base rest 0 (mkScan starts ends 0 0 true) in
    finish_scan cap base n (scan_tail cap base rest i st).

(** *** SSE2 *)

(** A mask has at most 16 bits set, so 17 rounds are enough. *)
Fixpoint sse2_mask_loop (fuel cap base at_ : nat) (mask : Z) (st : ScanState) : ScanState :=
  match fuel with
  | O => st
  | S fuel' =>
      if (mask =? 0)%Z then st
      else
        let idx := at_ + trailing_zeros mask in
        sse2_mask_loop fuel' cap base at_ (Z.land mask (mask - 1)) (emit cap base idx st)
  end.

Definition sse2_load (bytes_ : bytes) (i : nat) : Z * bool :=
  let chunk := take 16 (drop i bytes_) in
  let eq := cmpeq chunk c_slash in
  let forbidden := or_lanes (cmpeq chunk c_quest) (cmpeq chunk c_hash) in
  (movemask eq, (movemask forbidden =? 0)%Z).

Definition sse2_unit : VectorUnit :=
  {| lane_bits := 1; load := sse2_load; mask_loop := sse2_mask_loop |}.

Definition scan_segments_sse2 (body : bytes) (starts ends : list nat) : ScanResult :=
  @scan_vector sse2_unit body starts ends.

(** *** NEON *)

Fixpoint neon_mask_loop (fuel cap base at_ : nat) (mask : Z) (st : ScanState) : ScanState :=
  match fuel with
  | O => st
  | S fuel' =>
      if (mask =? 0)%Z then st
      else
        let tz := trailing_zeros mask in
        let idx := at_ + Z.to_nat (Z.shiftr (Z.of_nat tz) 2) in
        neon_mask_loop fuel' cap base at_
          (Z.land mask (Z.lnot (Z.shiftl 15 (Z.of_nat tz)))) (emit cap base idx st)
  end.

Definition neon_load (bytes_ : bytes) (i : nat) : Z * bool :=
  let chunk := take 16 (drop i bytes_) in
  let eq := cmpeq chunk c_slash in
  let forbidden := or_lanes (cmpeq chunk c_quest) (cmpeq chunk c_hash) in
  (lane_u64 (shrn4 eq), (lane_u64 (shrn4 forbidden) =? 0)%Z).

Definition neon_unit : VectorUnit :=
  {| lane_bits := 4; load := neon_load; mask_loop := neon_mask_loop |}.

Definition scan_segments_neon (body : bytes) (starts ends : list nat) : ScanResult :=
  @scan_vector neon_unit body starts ends.

(** ** The scanned path *)

(** Offsets with the path they were computed from.  The unchecked reads of the
    source are modelled with [Panic] for an out-of-range access. *)
Record ScannedPath : Type := mkScanned {
  p_body : bytes;
  p_starts : list nat;
  p_ends : list nat;
  p_capacity : nat;
  p_count : nat;
  p_valid : bool }.

(** [get_unchecked(index)]. *)
Definition offset_at (l : list nat) (index : nat) : outcome unit nat :=
  match l !! index with Some x => Ok x | None => Panic end.

(** [body.get_unchecked(start..end)]. *)
Definition body_range (p : ScannedPath) (start end_ : nat) : outcome unit (option bytes) :=
  let? s := slice (p_body p) start end_ in Ok (Some s).

Definition segment (p : ScannedPath) (index : nat) : outcome unit (option bytes) :=
  if (p_count p <=? index) || (p_capacity p <=? index) then Ok None
  else
    let? start := offset_at (p_starts p) index in
    let? end_ := offset_at (p_ends p) index in
    body_range p start end_.

Definition capture (p : ScannedPath) (first last_ : nat) : outcome unit (option bytes) :=
  if (last_ <? first) || (p_count p <=? last_) || (p_capacity p <=? last_) then Ok None
  else
    let? start := offset_at (p_starts p) first in
    let? end_ := offset_at (p_ends p) last_ in
    body_range p start end_.

Definition rest_from (p : ScannedPath) (first : nat) : outcome unit (option bytes) :=
  if first =? p_count p then Ok (Some [])
  else if p_count p <? first then Ok None
  else if p_capacity p <=? first then Ok None
  else
    let? start := offset_at (p_starts p) first in
    let? s := slice_from (p_body p) start in Ok (Some s).

(** [str::is_char_boundary]: an end of the text or a byte that does not continue
    a UTF-8 sequence. *)
Definition is_char_boundary (s : bytes) (i : nat) : bool :=
  (i =? 0) || (i =? length s) ||
  match s !! i with Some b => ((b <? 128) || (192 <=? b))%Z | None => false end.

Definition affix (p : ScannedPath) (index prefix_len suffix_len : nat)
    : outcome unit (option bytes) :=
  if (p_count p <=? index) || (p_capacity p <=? index) then Ok None
  else
    let? segment_start := offset_at (p_starts p) index in
    let? segment_end := offset_at (p_ends p) index in
    let start := segment_start + prefix_len in
    if segment_end <? suffix_len then Ok None
    else
      let end_ := segment_end - suffix_len in
      if (end_ <? start) || negb (is_char_boundary (p_body p) start)
         || negb (is_char_boundary (p_body p) end_)
      then Ok None
      else body_range p start end_.

(** [scan_segments_checked] picks the scanner of the target architecture. *)
Inductive Arch : Type := X86_64 | Aarch64 | OtherArch.

Definition scan_segments_checked (arch : Arch) (body : bytes) (starts ends : list nat)
    : ScanResult :=
  match arch with
  | X86_64 => scan_segments_sse2 body starts ends
  | Aarch64 => scan_segments_neon body starts ends
  | OtherArch => scan_segments_scalar body starts ends
  end.

Definition scan_segments (arch : Arch) (body : bytes) (starts ends : list nat) : nat :=
  r_count (scan_segments_checked arch body starts ends).

Definition scan_path (arch : Arch) (body : bytes) (starts ends : list nat) : ScannedPath :=
  let result := scan_segments_checked arch body starts ends in
  {| p_body := body;
     p_starts := r_starts result;
     p_ends := r_ends result;
     p_capacity := Nat.min (length starts) (length ends);
     p_count := r_count result;
     p_valid := r_valid result |}.

(** Paths that hold a query or fragment delimiter. *)
Inductive InvalidPath : Type := mkInvalidPath.

Definition INLINE_SEGMENTS : nat := 16.

(** Scans into inline storage, and again into a heap buffer when a route can be
    deeper than the inline storage and the path is. *)
Definition with_scanned_path {R} (arch : Arch) (body : bytes) (max_segments : nat)
    (resolve : ScannedPath -> R) : outcome InvalidPath R :=
  let inline_capacity := Nat.min max_segments INLINE_SEGMENTS in
  let path := scan_path arch body (take inline_capacity (replicate INLINE_SEGMENTS 0))
                (take inline_capacity (replicate INLINE_SEGMENTS 0)) in
  if negb (p_valid path) then Err mkInvalidPath
  else if (max_segments <=? INLINE_SEGMENTS) || (p_count path <=? INLINE_SEGMENTS) then
    Ok (resolve path)
  else
    let capacity := Nat.min (p_count path) max_segments in
    let offsets := replicate (capacity * 2) 0 in
    let path := scan_path arch body (take capacity offsets) (drop capacity offsets) in
    if negb (p_valid path) then Panic else Ok (resolve path).

(** ** The vector scanners agree with the scalar one *)

(** The lanes of a comparison: all ones where [p] holds. *)
Definition lanes (p : Z -> bool) (l : list Z) : list Z :=
  (fun x => if p x then 255%Z else 0%Z) <$> l.

(** One bit per lane, and one nibble per lane. *)
Fixpoint bits (p : Z -> bool) (l : list Z) : Z :=
  match l with [] => 0 | x :: tl => (Z.b2z (p x) + 2 * bits p tl)%Z end.

Fixpoint nibbles (p : Z -> bool) (l : list Z) : Z :=
  match l with [] => 0 | x :: tl => ((if p x then 15 else 0) + 16 * nibbles p tl)%Z end.

(** The separators of [l], emitted in order. *)
Fixpoint emits (cap base : nat) (l : bytes) (idx : nat) (st : ScanState) : ScanState :=
  match l with
  | [] => st
  | x :: tl =>
      emits cap base tl (S idx) (if (x =? c_slash)%Z then emit cap base idx st else st)
  end.

Definition admissible (b : Z) : bool := negb (is_forbidden b).

Lemma cmpeq_lanes l c : cmpeq l c = lanes (fun b => (b =? c)%Z) l.
Proof. done. Qed.

Lemma or_lanes_lanes p q l : or_lanes (lanes p l) (lanes q l) = lanes (fun b => p b || q b) l.
Proof.
  induction l as [|x l IH]; [done|]. unfold or_lanes, lanes in *. cbn. rewrite IH.
  by destruct (p x), (q x).
Qed.

Lemma movemask_lanes p l : movemask (lanes p l) = bits p l.
Proof.
  induction l as [|x l IH]; [done|]. unfold lanes in *. cbn in *. rewrite IH. by destruct (p x).
Qed.

Lemma shrn4_pair (a b : bool) :
  Z.land (Z.shiftr ((if a then 255 else 0) + 256 * (if b then 255 else 0)) 4) 255
  = ((if a then 15 else 0) + 16 * (if b then 15 else 0))%Z.
Proof. by destruct a, b. Qed.

Lemma shrn4_lanes p l : Nat.Even (length l) -> lane_u64 (shrn4 (lanes p l)) = nibbles p l.
Proof.
  induction l as [l IH] using (induction_ltof1 _ length); unfold ltof in IH.
  destruct l as [|x [|y l]]; [done| |].
  - intros [k Hk]. cbn in Hk. lia.
  - intros [k Hk]. cbn [lanes fmap list_fmap shrn4 lane_u64 nibbles] in *.
    fold (lanes p l). rewrite IH; [|cbn; lia|exists (k - 1); cbn in Hk; lia].
    rewrite shrn4_pair. lia.
Qed.

Lemma bits_bound p l : (0 <= bits p l)%Z.
Proof. induction l as [|x l IH]; cbn -[Z.mul Z.add]; [lia|destruct (p x); cbn -[Z.mul]; lia]. Qed.

Lemma nibbles_bound p l : (0 <= nibbles p l)%Z.
Proof. induction l as [|x l IH]; cbn -[Z.mul Z.add]; [lia|destruct (p x); lia]. Qed.

Lemma bits_zero p l : (bits p l =? 0)%Z = forallb (fun x => negb (p x)) l.
Proof.
  induction l as [|x l IH]; cbn -[Z.mul Z.add]; [done|]. rewrite <- IH.
  pose proof (bits_bound p l). destruct (p x); cbn -[Z.mul Z.add].
  - apply Z.eqb_neq. lia.
  - rewrite Z.add_0_l. destruct (Z.eqb_spec (bits p l) 0) as [->|]; [done|].
    apply Z.eqb_neq. lia.
Qed.

Lemma nibbles_zero p l : (nibbles p l =? 0)%Z = forallb (fun x => negb (p x)) l.
Proof.
  induction l as [|x l IH]; cbn -[Z.mul Z.add]; [done|]. rewrite <- IH.
  pose proof (nibbles_bound p l). destruct (p x); cbn -[Z.mul Z.add].
  - apply Z.eqb_neq. lia.
  - rewrite Z.add_0_l. destruct (Z.eqb_spec (nibbles p l) 0) as [->|]; [done|].
    apply Z.eqb_neq. lia.
Qed.

Lemma trailing_zeros_double m : (0 < m)%Z -> trailing_zeros (2 * m) = S (trailing_zeros m).
Proof. by destruct m. Qed.

Lemma trailing_zeros_odd m : (0 <= m)%Z -> trailing_zeros (1 + 2 * m) = 0.
Proof. by destruct m. Qed.

(** Clearing the lowest set bit. *)
Lemma clear_lowest_double m : Z.land (2 * m) (2 * m - 1) = (2 * Z.land m (m - 1))%Z.
Proof.
  replace (2 * m - 1)%Z with (2 * (m - 1) + 1)%Z by lia.
  apply Z.bits_inj'; intros n Hn. rewrite Z.land_spec.
  destruct (Z.eq_dec n 0%Z) as [->|Hn0].
  - by rewrite !Z.testbit_even_0.
  - replace n with (Z.succ (n - 1)) by lia.
    rewrite !Z.testbit_even_succ, Z.testbit_odd_succ by lia. by rewrite Z.land_spec.
Qed.

Lemma clear_lowest_odd m : Z.land (1 + 2 * m) (1 + 2 * m - 1) = (2 * m)%Z.
Proof.
  replace (1 + 2 * m - 1)%Z with (2 * m)%Z by lia. replace (1 + 2 * m)%Z with (2 * m + 1)%Z by lia.
  apply Z.bits_inj'; intros n Hn. rewrite Z.land_spec.
  destruct (Z.eq_dec n 0%Z) as [->|Hn0].
  - by rewrite !Z.testbit_even_0, andb_false_r.
  - replace n with (Z.succ (n - 1)) by lia.
    rewrite !Z.testbit_even_succ, Z.testbit_odd_succ by lia. by rewrite andb_diag.
Qed.

Section mask_loops.
Context (cap base : nat).

Lemma sse2_mask_loop_even fuel at_ m st : (0 <= m)%Z ->
  sse2_mask_loop fuel cap base at_ (2 * m) st = sse2_mask_loop fuel cap base (S at_) m st.
Proof.
  revert at_ m st; induction fuel as [|fuel IH]; intros at_ m st Hm; [done|].
  cbn [sse2_mask_loop]. destruct (Z.eqb_spec m 0) as [->|Hm0]; [done|].
  rewrite (proj2 (Z.eqb_neq (2 * m) 0)) by lia.
  rewrite trailing_zeros_double, clear_lowest_double by lia.
  rewrite IH by (apply Z.land_nonneg; lia). f_equal. f_equal. lia.
Qed.

Lemma sse2_mask_loop_odd fuel at_ m st : (0 <= m)%Z ->
  sse2_mask_loop (S fuel) cap base at_ (1 + 2 * m) st
  = sse2_mask_loop fuel cap base at_ (2 * m) (emit cap base at_ st).
Proof.
  intros Hm. cbn [sse2_mask_loop]. rewrite (proj2 (Z.eqb_neq _ 0)) by lia.
  by rewrite trailing_zeros_odd, clear_lowest_odd, Nat.add_0_r by lia.
Qed.

Lemma sse2_mask_loop_bits fuel l at_ st : length l < fuel ->
  sse2_mask_loop fuel cap base at_ (bits (fun b => (b =? c_slash)%Z) l) st = emits cap base l at_ st.
Proof.
  revert fuel at_ st; induction l as [|x l IH]; intros fuel at_ st Hf.
  - destruct fuel; [lia|done].
  - destruct fuel as [|fuel]; [lia|]. cbn [bits emits]. cbn [length] in Hf.
    pose proof (bits_bound (fun b => (b =? c_slash)%Z) l).
    destruct (Z.eqb_spec x c_slash) as [->|Hx].
    + change (Z.b2z true) with 1%Z.
      rewrite sse2_mask_loop_odd, sse2_mask_loop_even, IH by lia. done.
    + change (Z.b2z false) with 0%Z. rewrite Z.add_0_l, sse2_mask_loop_even, IH by lia. done.
Qed.

Lemma nibble_trailing_zeros m : (0 < m)%Z -> trailing_zeros (16 * m) = 4 + trailing_zeros m.
Proof. by destruct m. Qed.

Lemma nibble_trailing_zeros_odd m : (0 <= m)%Z -> trailing_zeros (15 + 16 * m) = 0.
Proof. by destruct m. Qed.

Lemma clear_nibble m k :
  Z.land (16 * m) (Z.lnot (Z.shiftl 15 (Z.of_nat (4 + k))))
  = (16 * Z.land m (Z.lnot (Z.shiftl 15 (Z.of_nat k))))%Z.
Proof.
  rewrite <- !Z.ldiff_land.
  replace (Z.of_nat (4 + k)) with (Z.of_nat k + 4)%Z by lia.
  rewrite <- Z.shiftl_shiftl by lia.
  replace (16 * m)%Z with (Z.shiftl m 4) by (rewrite Z.shiftl_mul_pow2; lia).
  rewrite <- Z.shiftl_ldiff, Z.shiftl_mul_pow2 by lia. lia.
Qed.

Lemma clear_nibble_low m : Z.land (15 + 16 * m) (Z.lnot (Z.shiftl 15 0)) = (16 * m)%Z.
Proof.
  rewrite <- Z.ldiff_land. change (Z.shiftl 15 0) with (Z.ones 4).
  rewrite Z.ldiff_ones_r, Z.shiftl_mul_pow2, Z.shiftr_div_pow2 by lia.
  change (2 ^ 4)%Z with 16%Z. Z.div_mod_to_equations. lia.
Qed.

Lemma neon_mask_loop_even fuel at_ m st : (0 <= m)%Z ->
  neon_mask_loop fuel cap base at_ (16 * m) st = neon_mask_loop fuel cap base (S at_) m st.
Proof.
  revert at_ m st; induction fuel as [|fuel IH]; intros at_ m st Hm; [done|].
  cbn [neon_mask_loop]. destruct (Z.eqb_spec m 0) as [->|Hm0]; [done|].
  rewrite (proj2 (Z.eqb_neq (16 * m) 0)) by lia.
  rewrite nibble_trailing_zeros, clear_nibble by lia.
  rewrite IH by (apply Z.land_nonneg; lia). f_equal. f_equal.
  rewrite !Z.shiftr_div_pow2 by lia. change (2 ^ 2)%Z with 4%Z.
  rewrite Nat2Z.inj_add, (Z.add_comm (Z.of_nat 4)). change (Z.of_nat 4) with (1 * 4)%Z.
  rewrite Z.div_add by lia. rewrite Z2Nat.inj_add by (try apply Z.div_pos; lia). lia.
Qed.

Lemma neon_mask_loop_odd fuel at_ m st : (0 <= m)%Z ->
  neon_mask_loop (S fuel) cap base at_ (15 + 16 * m) st
  = neon_mask_loop fuel cap base at_ (16 * m) (emit cap base at_ st).
Proof.
  intros Hm. cbn [neon_mask_loop]. rewrite (proj2 (Z.eqb_neq _ 0)) by lia.
  rewrite nibble_trailing_zeros_odd by lia. change (Z.of_nat 0) with 0%Z.
  rewrite clear_nibble_low. change (Z.to_nat (Z.shiftr 0 2)) with 0. by rewrite Nat.add_0_r.
Qed.

Lemma neon_mask_loop_nibbles fuel l at_ st : length l < fuel ->
  neon_mask_loop fuel cap base at_ (nibbles (fun b => (b =? c_slash)%Z) l) st
  = emits cap base l at_ st.
Proof.
  revert fuel at_ st; induction l as [|x l IH]; intros fuel at_ st Hf.
  - destruct fuel; [lia|done].
  - destruct fuel as [|fuel]; [lia|]. cbn [nibbles emits]. cbn [length] in Hf.
    pose proof (nibbles_bound (fun b => (b =? c_slash)%Z) l).
    destruct (Z.eqb_spec x c_slash) as [->|Hx].
    + rewrite neon_mask_loop_odd, neon_mask_loop_even, IH by lia. done.
    + rewrite Z.add_0_l, neon_mask_loop_even, IH by lia. done.
Qed.

(** Clearing the lanes below [k] leaves the lanes from [k] on, in place. *)
Lemma clear_below m k : Z.land m (Z.lnot (Z.shiftl 1 (Z.of_nat k) - 1))
  = Z.shiftl (Z.shiftr m (Z.of_nat k)) (Z.of_nat k).
Proof.
  rewrite <- Z.ldiff_land, <- Z.ldiff_ones_r by lia. done.
Qed.

Lemma bits_shiftr p l k : Z.shiftr (bits p l) (Z.of_nat k) = bits p (drop k l).
Proof.
  revert l; induction k as [|k IH]; intros l; [done|].
  destruct l as [|x l]; [by rewrite Z.shiftr_0_l|]. cbn [drop bits].
  rewrite <- IH. replace (Z.of_nat (S k)) with (1 + Z.of_nat k)%Z by lia.
  rewrite <- Z.shiftr_shiftr by lia. f_equal. rewrite Z.shiftr_div_pow2 by lia.
  change (2 ^ 1)%Z with 2%Z. Z.div_mod_to_equations. destruct (p x); cbn -[Z.mul] in *; lia.
Qed.

Lemma nibbles_shiftr p l k : Z.shiftr (nibbles p l) (Z.of_nat (k * 4)) = nibbles p (drop k l).
Proof.
  revert l; induction k as [|k IH]; intros l; [done|].
  destruct l as [|x l]; [by rewrite Z.shiftr_0_l|]. cbn [drop nibbles].
  rewrite <- IH. replace (Z.of_nat (S k * 4)) with (4 + Z.of_nat (k * 4))%Z by lia.
  rewrite <- Z.shiftr_shiftr by lia. f_equal. rewrite Z.shiftr_div_pow2 by lia.
  change (2 ^ 4)%Z with 16%Z. Z.div_mod_to_equations. destruct (p x); lia.
Qed.

Lemma sse2_mask_loop_shiftl fuel at_ m k st : (0 <= m)%Z ->
  sse2_mask_loop fuel cap base at_ (Z.shiftl m (Z.of_nat k)) st
  = sse2_mask_loop fuel cap base (at_ + k) m st.
Proof.
  intros Hm. revert at_; induction k as [|k IH]; intros at_; [by rewrite Nat.add_0_r|].
  replace (Z.of_nat (S k)) with (Z.of_nat k + 1)%Z by lia.
  rewrite <- Z.shiftl_shiftl, (Z.shiftl_mul_pow2 _ 1), (Z.mul_comm _ (2 ^ 1)) by lia.
  change (2 ^ 1)%Z with 2%Z. rewrite sse2_mask_loop_even by by apply Z.shiftl_nonneg.
  rewrite IH. f_equal. lia.
Qed.

Lemma neon_mask_loop_shiftl fuel at_ m k st : (0 <= m)%Z ->
  neon_mask_loop fuel cap base at_ (Z.shiftl m (Z.of_nat (k * 4))) st
  = neon_mask_loop fuel cap base (at_ + k) m st.
Proof.
  intros Hm. revert at_; induction k as [|k IH]; intros at_; [by rewrite Nat.add_0_r|].
  replace (Z.of_nat (S k * 4)) with (Z.of_nat (k * 4) + 4)%Z by lia.
  rewrite <- Z.shiftl_shiftl, (Z.shiftl_mul_pow2 _ 4), (Z.mul_comm _ (2 ^ 4)) by lia.
  change (2 ^ 4)%Z with 16%Z. rewrite neon_mask_loop_even by by apply Z.shiftl_nonneg.
  rewrite IH. f_equal. lia.
Qed.
End mask_loops.

(** What the scanner needs of a vector unit: the loop over a mask, with the lanes
    below [k] cleared, emits exactly the separators of the lanes from [k] on, and
    the load reports the forbidden bytes. *)
Class VectorUnitOk (U : VectorUnit) : Prop := {
  mask_loop_ok cap base bs i k st :
    i + 16 <= length bs -> k <= 16 ->
    mask_loop 17 cap base i
      (Z.land (fst (load bs i)) (Z.lnot (Z.shiftl 1 (Z.of_nat (k * lane_bits)) - 1))) st
    = emits cap base (drop k (take 16 (drop i bs))) (i + k) st;
  load_ok bs i :
    i + 16 <= length bs -> snd (load bs i) = forallb admissible (take 16 (drop i bs)) }.

Lemma chunk_length (bs : bytes) i : i + 16 <= length bs -> length (take 16 (drop i bs)) = 16.
Proof. intros. rewrite length_take, length_drop. lia. Qed.

#[export] Instance sse2_unit_ok : VectorUnitOk sse2_unit.
Proof.
  split; cbn [load lane_bits mask_loop sse2_unit sse2_load fst snd].
  - intros cap base bs i k st Hi Hk.
    rewrite Nat.mul_1_r, clear_below, cmpeq_lanes, movemask_lanes, bits_shiftr.
    rewrite sse2_mask_loop_shiftl by apply bits_bound.
    apply sse2_mask_loop_bits. rewrite length_drop, chunk_length by done. lia.
  - intros bs i Hi. by rewrite !cmpeq_lanes, or_lanes_lanes, movemask_lanes, bits_zero.
Qed.

#[export] Instance neon_unit_ok : VectorUnitOk neon_unit.
Proof.
  split; cbn [load lane_bits mask_loop neon_unit neon_load fst snd].
  - intros cap base bs i k st Hi Hk.
    rewrite clear_below, cmpeq_lanes, shrn4_lanes, nibbles_shiftr
      by (rewrite chunk_length by done; by exists 8).
    rewrite neon_mask_loop_shiftl by apply nibbles_bound.
    apply neon_mask_loop_nibbles. rewrite length_drop, chunk_length by done. lia.
  - intros bs i Hi. rewrite !cmpeq_lanes, or_lanes_lanes, shrn4_lanes, nibbles_zero; [done|].
    rewrite chunk_length by done. by exists 8.
Qed.

Section scan_state.
Context (cap base : nat).

Lemma invalidate_true st : invalidate true st = st.
Proof. destruct st. unfold invalidate. cbn. by rewrite andb_true_r. Qed.

Lemma invalidate_invalidate a b st : invalidate a (invalidate b st) = invalidate (b && a) st.
Proof. unfold invalidate. cbn. by rewrite andb_assoc. Qed.

Lemma emits_invalidate l idx ok st :
  emits cap base l idx (invalidate ok st) = invalidate ok (emits cap base l idx st).
Proof.
  revert idx st; induction l as [|x l IH]; intros idx st; [done|]. cbn.
  by case_match; rewrite <- IH.
Qed.

Lemma emits_valid l idx st : s_valid (emits cap base l idx st) = s_valid st.
Proof.
  revert idx st; induction l as [|x l IH]; intros idx st; [done|]. cbn. rewrite IH.
  by case_match.
Qed.

Lemma emits_app l1 l2 idx st :
  emits cap base (l1 ++ l2) idx st = emits cap base l2 (idx + length l1) (emits cap base l1 idx st).
Proof.
  revert idx st; induction l1 as [|x l1 IH]; intros idx st; cbn; [by rewrite Nat.add_0_r|].
  rewrite IH. f_equal. lia.
Qed.

Lemma scan_bytes_emits l idx st :
  scan_bytes cap base l idx st = invalidate (forallb admissible l) (emits cap base l idx st).
Proof.
  revert idx st; induction l as [|x l IH]; intros idx st; cbn [scan_bytes emits forallb].
  - by rewrite invalidate_true.
  - rewrite IH. unfold admissible at 2. destruct (Z.eqb_spec x c_slash) as [->|Hx]; [done|].
    destruct (is_forbidden x); cbn [negb andb]; [|done].
    by rewrite emits_invalidate, invalidate_invalidate.
Qed.

Lemma scan_bytes_app l1 l2 idx st :
  scan_bytes cap base (l1 ++ l2) idx st
  = scan_bytes cap base l2 (idx + length l1) (scan_bytes cap base l1 idx st).
Proof.
  revert idx st; induction l1 as [|x l1 IH]; intros idx st; cbn; [by rewrite Nat.add_0_r|].
  rewrite IH. f_equal. lia.
Qed.

Lemma scan_bytes_valid l idx st :
  s_valid (scan_bytes cap base l idx st) = s_valid st && forallb admissible l.
Proof. rewrite scan_bytes_emits. cbn. by rewrite emits_valid. Qed.
End scan_state.

Section scan_vector.
Context {U : VectorUnit} {Hok : VectorUnitOk U} (cap base : nat) (rest : bytes).

Lemma chunk_step i st : i + 16 <= length rest ->
  mask_loop 17 cap base i (fst (load rest i)) (invalidate (snd (load rest i)) st)
  = scan_bytes cap base (take 16 (drop i rest)) i st.
Proof.
  intros Hi.
  pose proof (mask_loop_ok cap base rest i 0 (invalidate (snd (load rest i)) st) Hi) as Hm.
  rewrite Nat.mul_0_l, Nat.add_0_r, drop_0 in Hm.
  change (Z.lnot (Z.shiftl 1 (Z.of_nat 0) - 1)) with (-1)%Z in Hm. rewrite Z.land_m1_r in Hm.
  rewrite Hm by lia. rewrite load_ok by done. by rewrite emits_invalidate, scan_bytes_emits.
Qed.

Lemma chunk_loop_spec fuel i st : i <= length rest -> length rest <= i + fuel ->
  exists i', chunk_loop fuel cap base rest i st
      = (i', scan_bytes cap base (take (i' - i) (drop i rest)) i st)
    /\ i <= i' /\ i' <= length rest /\ length rest < i' + 16.
Proof.
  revert i st; induction fuel as [|fuel IH]; intros i st Hi Hf.
  - exists i. rewrite Nat.sub_diag. cbn. split; [done|lia].
  - cbn [chunk_loop]. destruct (Nat.leb_spec (i + 16) (length rest)) as [Hle|Hlt].
    + destruct (load rest i) as [mask ok] eqn:Hload.
      pose proof (chunk_step i st Hle) as Hs. rewrite Hload in Hs. cbn in Hs. rewrite Hs.
      destruct (IH (i + 16) (scan_bytes cap base (take 16 (drop i rest)) i st))
        as (i' & -> & ? & ? & ?); [lia..|].
      exists i'. split; [|lia]. f_equal.
      replace (i' - i) with (16 + (i' - (i + 16))) by lia.
      rewrite <- take_take_drop, scan_bytes_app, chunk_length, drop_drop by done. done.
    + exists i. rewrite Nat.sub_diag. cbn. split; [done|lia].
Qed.

Lemma scan_tail_spec i st :
  i <= length rest -> length rest < i + 16 ->
  (s_valid st = true -> forallb admissible (take i rest) = true) ->
  scan_tail cap base rest i st = scan_bytes cap base (drop i rest) i st.
Proof.
  intros Hi Hn Hv. unfold scan_tail. destruct (Nat.ltb_spec i (length rest)) as [Hlt|Hge];
    [|by rewrite drop_ge by lia].
  destruct (Nat.leb_spec 16 (length rest)) as [Hle|]; [|done].
  set (at_ := length rest - 16).
  assert (Hchunk : take 16 (drop at_ rest) = take (i - at_) (drop at_ rest) ++ drop i rest).
  { rewrite take_ge by (rewrite length_drop; unfold at_; lia).
    rewrite <- (take_drop (i - at_) (drop at_ rest)) at 1. f_equal. rewrite drop_drop. f_equal.
    unfold at_; lia. }
  destruct (load rest at_) as [raw ok] eqn:Hload.
  pose proof (mask_loop_ok cap base rest at_ (i - at_) (invalidate ok st)) as Hm.
  pose proof (load_ok rest at_) as Hl. rewrite Hload in Hm, Hl. cbn in Hm, Hl.
  rewrite Hm, Hl, Hchunk by (unfold at_; lia). clear Hm Hl.
  rewrite drop_app_length', scan_bytes_emits, emits_invalidate
    by (rewrite length_take, length_drop; unfold at_; lia).
  replace (at_ + (i - at_)) with i by (unfold at_; lia).
  rewrite forallb_app. unfold invalidate. rewrite emits_valid. f_equal.
  destruct (s_valid st); [cbn|done].
  assert (forallb admissible (take (i - at_) (drop at_ rest)) = true) as ->; [|done].
  specialize (Hv eq_refl). rewrite <- (take_drop at_ (take i rest)), forallb_app in Hv.
  apply andb_true_iff in Hv as [_ Hv]. by rewrite skipn_firstn_comm in Hv.
Qed.
End scan_vector.

Lemma scan_vector_scalar {U : VectorUnit} {Hok : VectorUnitOk U} body starts ends :
  scan_vector body starts ends = scan_segments_scalar body starts ends.
Proof.
  unfold scan_vector, scan_segments_scalar. case_match; [done|].
  set (rest := strip_slash body). set (cap := Nat.min _ _). set (base := _ - _).
  destruct (chunk_loop_spec cap base rest (length rest) 0 (mkScan starts ends 0 0 true))
    as (i & -> & _ & Hi & Hn); [lia..|].
  rewrite Nat.sub_0_r, drop_0, scan_tail_spec; [|done..|].
  - f_equal. rewrite <- (take_drop i rest) at 3. rewrite scan_bytes_app.
    f_equal. rewrite length_take. lia.
  - rewrite scan_bytes_valid. done.
Qed.

Lemma scan_segments_checked_scalar arch body starts ends :
  scan_segments_checked arch body starts ends = scan_segments_scalar body starts ends.
Proof. destruct arch; [apply scan_vector_scalar..|done]. Qed.

(** C11. The SSE2 and the NEON scanners compute exactly what the scalar reference
    scanner computes: the same offset buffers, the same count and the same
    validity, for every path and every pair of buffers. *)
Theorem vector_scanners_match_scalar body starts ends :
  scan_segments_sse2 body starts ends = scan_segments_scalar body starts ends
  /\ scan_segments_neon body starts ends = scan_segments_scalar body starts ends.
Proof. split; apply scan_vector_scalar. Qed.

(** ** What a scan computes *)

(** The segments of a path: the pieces between slashes, a leading one dropped. *)
Definition path_segments (body : bytes) : list bytes :=
  if bytes_eqb (strip_slash body) [] then [] else split_on c_slash (strip_slash body).

(** Where the segments lie when the first one starts at [start]. *)
Fixpoint seg_offsets (start : nat) (segs : list bytes) : list (nat * nat) :=
  match segs with
  | [] => []
  | s :: tl => (start, start + length s) :: seg_offsets (start + length s + 1) tl
  end.

Section offsets.
Context (cap base : nat).

Lemma emit_lookup_lt idx st j : j < s_count st ->
  s_starts (emit cap base idx st) !! j = s_starts st !! j
  /\ s_ends (emit cap base idx st) !! j = s_ends st !! j.
Proof. intros. cbn. case_match; [rewrite !list_lookup_insert_ne by lia|]; done. Qed.

Lemma emit_lengths idx st :
  length (s_starts (emit cap base idx st)) = length (s_starts st)
  /\ length (s_ends (emit cap base idx st)) = length (s_ends st).
Proof. cbn. case_match; by rewrite ?length_insert. Qed.

Lemma finish_is_emit n st :
  finish_scan cap base n st
  = let e := emit cap base n st in mkScanResult (s_starts e) (s_ends e) (s_count e) (s_valid e).
Proof. done. Qed.

(** Entries already written stay. *)
Lemma finish_stable l idx n st j : j < s_count st ->
  r_starts (finish_scan cap base n (emits cap base l idx st)) !! j = s_starts st !! j
  /\ r_ends (finish_scan cap base n (emits cap base l idx st)) !! j = s_ends st !! j.
Proof.
  revert idx st; induction l as [|x l IH]; intros idx st Hj.
  - rewrite finish_is_emit. by apply emit_lookup_lt.
  - cbn [emits]. case_match; [|by apply IH].
    destruct (emit_lookup_lt idx st j Hj) as [<- <-]. apply IH. cbn. lia.
Qed.

Lemma finish_lengths l idx n st :
  length (r_starts (finish_scan cap base n (emits cap base l idx st))) = length (s_starts st)
  /\ length (r_ends (finish_scan cap base n (emits cap base l idx st))) = length (s_ends st).
Proof.
  revert idx st; induction l as [|x l IH]; intros idx st.
  - rewrite finish_is_emit. by apply emit_lengths.
  - cbn [emits]. case_match; [|by apply IH].
    destruct (emit_lengths idx st) as [<- <-]. apply IH.
Qed.

Lemma emit_written idx st : s_count st < cap -> cap <= length (s_starts st) -> cap <= length (s_ends st) ->
  s_starts (emit cap base idx st) !! s_count st = Some (base + s_start st)
  /\ s_ends (emit cap base idx st) !! s_count st = Some (base + idx).
Proof.
  intros Hc Hs He. cbn [emit s_starts s_ends]. rewrite (proj2 (Nat.ltb_lt _ _)) by done.
  by rewrite !list_lookup_insert_eq by lia.
Qed.

(** The offsets written for the text [cur ++ l], [cur] being the part of the
    current segment already read. *)
Lemma finish_offsets l cur st n k a b :
  c_slash ∉ cur -> n = s_start st + length cur + length l ->
  cap <= length (s_starts st) -> cap <= length (s_ends st) ->
  seg_offsets (s_start st) (split_on c_slash (cur ++ l)) !! k = Some (a, b) ->
  s_count st + k < cap ->
  let r := finish_scan cap base n (emits cap base l (s_start st + length cur) st) in
  r_starts r !! (s_count st + k) = Some (base + a) /\ r_ends r !! (s_count st + k) = Some (base + b).
Proof.
  revert cur st k; induction l as [|x l IH]; intros cur st k Hcur Hn Hs He Hk Hc.
  - rewrite app_nil_r, split_on_none in Hk by done. destruct k as [|k]; [|done].
    injection Hk as <- <-. cbn [emits]. rewrite finish_is_emit, Nat.add_0_r.
    rewrite Nat.add_0_r in Hn, Hc. rewrite <- Hn. by apply emit_written.
  - cbn [emits length] in *. destruct (Z.eqb_spec x c_slash) as [->|Hx].
    + rewrite split_on_app in Hk by done. set (idx := s_start st + length cur) in *.
      destruct (emit_lengths idx st) as [Hls Hle]. destruct k as [|k]; cbn in Hk.
      * injection Hk as <- <-. rewrite Nat.add_0_r in *.
        destruct (finish_stable l (S idx) n (emit cap base idx st) (s_count st)) as [-> ->];
          [cbn; lia|]. by apply emit_written.
      * destruct (IH [] (emit cap base idx st) k) as [H1 H2];
          [set_solver|cbn; lia|lia|lia|exact Hk|cbn; lia|].
        cbn [length s_start s_count emit] in H1, H2.
        replace (idx + 1 + 0) with (S idx) in H1, H2 by lia.
        replace (s_count st + 1 + k) with (s_count st + S k) in H1, H2 by lia. done.
    + replace (cur ++ x :: l) with ((cur ++ [x]) ++ l) in Hk by by rewrite <- app_assoc.
      destruct (IH (cur ++ [x]) st k) as [H1 H2];
        [set_solver|rewrite length_app; cbn; lia|done..|].
      rewrite length_app in H1, H2. cbn [length] in H1, H2.
      replace (s_start st + (length cur + 1)) with (S (s_start st + length cur)) in H1, H2 by lia.
      done.
Qed.

Lemma finish_count l cur idx n st : c_slash ∉ cur ->
  r_count (finish_scan cap base n (emits cap base l idx st))
  = s_count st + length (split_on c_slash (cur ++ l)).
Proof.
  revert cur idx st; induction l as [|x l IH]; intros cur idx st Hcur.
  - by rewrite app_nil_r, split_on_none.
  - cbn [emits]. destruct (Z.eqb_spec x c_slash) as [->|Hx].
    + rewrite split_on_app by done. rewrite (IH []) by set_solver. cbn. lia.
    + replace (cur ++ x :: l) with ((cur ++ [x]) ++ l) by by rewrite <- app_assoc.
      apply IH. set_solver.
Qed.
End offsets.

(** Offsets and text: the text from the [i]-th start is the remaining segments,
    and up to the [j]-th end the first ones. *)
Lemma seg_offsets_from start segs i s : segs !! i = Some s ->
  exists a, seg_offsets start segs !! i = Some (a, a + length s)
    /\ start <= a /\ a + length s <= start + length (join c_slash segs)
    /\ drop (a - start) (join c_slash segs) = join c_slash (drop i segs)
    /\ drop i (seg_offsets start segs) = seg_offsets a (drop i segs).
Proof.
  revert start i; induction segs as [|p segs IH]; intros start [|i] Hi; [done..| |].
  - injection Hi as <-. exists start. rewrite Nat.sub_diag. cbn [seg_offsets lookup list_lookup drop].
    repeat split; [lia| ]. destruct segs; cbn; rewrite ?length_app; cbn; lia.
  - cbn [lookup list_lookup] in Hi. destruct (IH (start + length p + 1) i Hi)
      as (a & Ho & Hlo & Hhi & Hd & Hs).
    exists a. cbn [seg_offsets lookup list_lookup drop]. rewrite join_cons by by destruct segs.
    rewrite length_app. cbn [length]. repeat split; [done|lia|lia| |done].
    replace (a - start) with (length p + S (a - (start + length p + 1))) by lia.
    rewrite <- drop_drop, drop_app_length. cbn [drop]. done.
Qed.

Lemma seg_offsets_to start segs j a b : seg_offsets start segs !! j = Some (a, b) ->
  start <= b /\ b <= start + length (join c_slash segs)
  /\ take (b - start) (join c_slash segs) = join c_slash (take (S j) segs).
Proof.
  revert start j; induction segs as [|p segs IH]; intros start [|j] Hj; [done..| |].
  - injection Hj as <- <-. replace (start + length p - start) with (length p) by lia.
    split; [lia|]. destruct segs as [|q segs]; [by rewrite take_ge|].
    rewrite join_cons by done. rewrite length_app, take_app_length. split; [cbn [length]; lia|done].
  - cbn [seg_offsets lookup list_lookup] in Hj. destruct (IH _ _ Hj) as (Hlo & Hhi & Ht).
    destruct segs as [|q segs]; [done|]. rewrite join_cons by done.
    rewrite length_app. cbn [length]. split; [lia|]. split; [lia|].
    replace (b - start) with (length p + S (b - (start + length p + 1))) by lia.
    rewrite take_app_add. cbn [take]. rewrite Ht. by rewrite join_cons.
Qed.

Section scan_path.
Context (arch : Arch) (body : bytes) (starts ends : list nat).
Let p : ScannedPath := scan_path arch body starts ends.
Let segs : list bytes := path_segments body.
Let base : nat := length body - length (strip_slash body).

Lemma drop_base : base <= length body /\ drop base body = strip_slash body.
Proof.
  unfold base, strip_slash. destruct body as [|b tl]; [done|].
  destruct (b =? c_slash)%Z; cbn [length].
  - replace (S (length tl) - length tl) with 1 by lia. split; [lia|done].
  - rewrite Nat.sub_diag. split; [lia|done].
Qed.

Lemma path_segments_join : segs <> [] -> join c_slash segs = strip_slash body.
Proof. unfold segs, path_segments. case_match; [done|]. intros _. apply join_split. Qed.

Lemma scan_path_count : p_count p = length segs.
Proof.
  unfold p, segs, scan_path, path_segments. cbn [p_count].
  rewrite scan_segments_checked_scalar. unfold scan_segments_scalar.
  case_match; [done|]. rewrite scan_bytes_emits.
  change (r_count (finish_scan ?c ?b ?n (invalidate ?ok ?st)))
    with (r_count (finish_scan c b n st)).
  by rewrite (finish_count _ _ _ []) by set_solver.
Qed.

Lemma scan_path_offsets i a b : seg_offsets 0 segs !! i = Some (a, b) -> i < p_capacity p ->
  p_starts p !! i = Some (base + a) /\ p_ends p !! i = Some (base + b).
Proof.
  unfold p, segs, scan_path, path_segments. cbn [p_capacity p_starts p_ends].
  rewrite scan_segments_checked_scalar. unfold scan_segments_scalar.
  case_match; [done|]. intros Hi Hcap. rewrite scan_bytes_emits.
  change (r_starts (finish_scan ?c ?b ?n (invalidate ?ok ?st)))
    with (r_starts (finish_scan c b n st)).
  change (r_ends (finish_scan ?c ?b ?n (invalidate ?ok ?st)))
    with (r_ends (finish_scan c b n st)).
  apply (finish_offsets _ _ _ [] (mkScan starts ends 0 0 true)); cbn; [set_solver|lia|lia|lia|done|lia].
Qed.

Lemma offset_at_Some l i x : l !! i = Some x -> offset_at l i = Ok x.
Proof. unfold offset_at. by intros ->. Qed.

(** The text between two offsets of the scan. *)
Lemma body_range_segments first last_ a b c d :
  first <= last_ -> last_ < length segs ->
  seg_offsets 0 segs !! first = Some (a, c) -> seg_offsets 0 segs !! last_ = Some (d, b) ->
  body_range p (base + a) (base + b)
  = Ok (Some (join c_slash (take (S (last_ - first)) (drop first segs)))).
Proof.
  intros Hle Hlt Ha Hb.
  destruct (lookup_lt_is_Some_2 segs first) as [s Hs]; [lia|].
  destruct (seg_offsets_from 0 segs first s Hs) as (a' & Ha' & _ & Hhi & Hd & Hdrop).
  rewrite Ha' in Ha. injection Ha as -> <-.
  assert (Hb' : seg_offsets a (drop first segs) !! (last_ - first) = Some (d, b)).
  { rewrite <- Hdrop, lookup_drop. by replace (first + (last_ - first)) with last_ by lia. }
  apply seg_offsets_to in Hb' as (Hab & Hbhi & Ht). destruct drop_base as [Hbase Hrest].
  rewrite Nat.sub_0_r in Hd. rewrite <- Hd in Ht, Hbhi.
  rewrite path_segments_join in * by (intros Hn; by rewrite Hn in Hs).
  rewrite length_drop, <- Hrest, length_drop in *.
  unfold body_range, p, scan_path. cbn [p_body].
  rewrite slice_ok by lia. rewrite <- drop_drop.
  by replace (base + b - (base + a)) with (b - a) by lia; rewrite Ht.
Qed.

Lemma segment_spec index :
  segment p index = Ok (if index <? p_capacity p then segs !! index else None).
Proof.
  unfold segment. rewrite scan_path_count.
  destruct (Nat.ltb_spec index (p_capacity p)) as [Hc|Hc].
  - rewrite (proj2 (Nat.leb_gt (p_capacity p) _)) by done. rewrite orb_false_r.
    destruct (Nat.leb_spec (length segs) index) as [Hi|Hi]; [by rewrite lookup_ge_None_2|].
    destruct (lookup_lt_is_Some_2 segs index Hi) as [s Hs]. rewrite Hs.
    destruct (seg_offsets_from 0 segs index s Hs) as (a & Ha & _).
    destruct (scan_path_offsets _ _ _ Ha Hc) as [H1 H2].
    rewrite (offset_at_Some _ _ _ H1), (offset_at_Some _ _ _ H2).
    rewrite (body_range_segments index index _ _ _ _ (le_n _) Hi Ha Ha), Nat.sub_diag.
    by rewrite (drop_S _ _ _ Hs).
  - rewrite (proj2 (Nat.leb_le (p_capacity p) _)) by done. by rewrite orb_true_r.
Qed.

Lemma capture_spec first last_ :
  capture p first last_
  = Ok (if (first <=? last_) && (last_ <? length segs) && (last_ <? p_capacity p)
        then Some (join c_slash (take (S (last_ - first)) (drop first segs))) else None).
Proof.
  unfold capture. rewrite scan_path_count.
  rewrite !Nat.ltb_antisym.
  destruct (Nat.leb_spec first last_) as [Hle|]; [|done].
  destruct (Nat.leb_spec (length segs) last_) as [Hi|Hi]; [done|].
  destruct (Nat.leb_spec (p_capacity p) last_) as [Hc|Hc]; [done|]. cbn [negb orb andb].
  destruct (lookup_lt_is_Some_2 segs first) as [s Hs]; [lia|].
  destruct (lookup_lt_is_Some_2 segs last_) as [s' Hs']; [lia|].
  destruct (seg_offsets_from 0 segs _ _ Hs) as (a & Ha & _).
  destruct (seg_offsets_from 0 segs _ _ Hs') as (b & Hb & _).
  destruct (scan_path_offsets _ _ _ Ha) as [H1 _]; [lia|].
  destruct (scan_path_offsets _ _ _ Hb Hc) as [_ H2].
  rewrite (offset_at_Some _ _ _ H1), (offset_at_Some _ _ _ H2).
  exact (body_range_segments _ _ _ _ _ _ Hle Hi Ha Hb).
Qed.

Lemma rest_spec first :
  rest_from p first
  = Ok (if first =? length segs then Some []
        else if (first <? length segs) && (first <? p_capacity p)
        then Some (join c_slash (drop first segs)) else None).
Proof.
  unfold rest_from. rewrite scan_path_count.
  destruct (Nat.eqb_spec first (length segs)) as [|Hne]; [done|].
  destruct (Nat.ltb_spec first (length segs)) as [Hi|Hi];
    [rewrite (proj2 (Nat.ltb_ge (length segs) first)) by lia
    |by rewrite (proj2 (Nat.ltb_lt (length segs) first)) by lia].
  rewrite Nat.ltb_antisym. destruct (Nat.leb_spec (p_capacity p) first) as [Hc|Hc]; [done|].
  destruct (lookup_lt_is_Some_2 segs first Hi) as [s Hs].
  destruct (seg_offsets_from 0 segs _ _ Hs) as (a & Ha & _ & Hhi & Hd & _).
  destruct (scan_path_offsets _ _ _ Ha Hc) as [H1 _]. rewrite (offset_at_Some _ _ _ H1).
  rewrite Nat.sub_0_r in Hd. rewrite <- Hd.
  rewrite path_segments_join in * by (intros Hn; by rewrite Hn in Hs).
  destruct drop_base as [Hbase Hrest]. rewrite <- Hrest, length_drop in *.
  cbn [negb andb]. unfold p, scan_path. cbn [p_body].
  rewrite slice_from_ok by lia. by rewrite drop_drop.
Qed.

Lemma scan_path_valid : p_valid p = forallb admissible (strip_slash body).
Proof.
  unfold p, scan_path. cbn [p_valid].
  rewrite scan_segments_checked_scalar. unfold scan_segments_scalar.
  destruct (bytes_eqb (strip_slash body) []) eqn:Hr; [apply bytes_eqb_eq in Hr; by rewrite Hr|].
  cbn [r_valid finish_scan]. by rewrite scan_bytes_valid.
Qed.
End scan_path.

(** C12. A scanned path is its segments: the count is the number of pieces of the
    path between slashes (none for an empty path or ["/"]), the path is valid
    exactly when it holds no ['?'] and no ['#'], and the reads of the view never
    leave the buffers or the text: [segment], [capture] and [rest] return the
    segment, the segments first to last, and all segments from first on, joined by
    slashes, whenever they were recorded within the buffers' capacity. *)
Theorem scan_path_segments arch body starts ends first last_ :
  let p := scan_path arch body starts ends in
  let segs := path_segments body in
  let cap := Nat.min (length starts) (length ends) in
  p_count p = length segs
  /\ p_valid p = forallb admissible (strip_slash body)
  /\ segment p first = Ok (if first <? cap then segs !! first else None)
  /\ capture p first last_
     = Ok (if (first <=? last_) && (last_ <? length segs) && (last_ <? cap)
           then Some (join c_slash (take (S (last_ - first)) (drop first segs))) else None)
  /\ rest_from p first
     = Ok (if first =? length segs then Some []
           else if (first <? length segs) && (first <? cap)
           then Some (join c_slash (drop first segs)) else None).
Proof.
  intros p segs cap.
  split; [apply scan_path_count|]. split; [apply scan_path_valid|].
  split; [apply segment_spec|]. split; [apply capture_spec|apply rest_spec].
Qed.

(** [with_scanned_path] refuses exactly the paths with a ['?'] or ['#'], its
    debug assertion holds, and the view it hands to the resolver records every
    segment a route of at most [max_segments] segments can look at. *)
Theorem with_scanned_path_capacity {R} arch body max_segments (resolve : ScannedPath -> R) :
  if forallb admissible (strip_slash body) then
    exists starts ends,
      with_scanned_path arch body max_segments resolve = Ok (resolve (scan_path arch body starts ends))
      /\ Nat.min (length (path_segments body)) max_segments <= Nat.min (length starts) (length ends)
  else with_scanned_path arch body max_segments resolve = Err mkInvalidPath.
Proof.
  unfold with_scanned_path. rewrite !scan_path_valid, !scan_path_count.
  destruct (forallb admissible _); cbn [negb]; [|done].
  destruct (_ || _) eqn:Htest.
  - eexists _, _. split; [done|]. rewrite length_take, length_replicate.
    apply orb_true_iff in Htest as [?|?]; to_prop; lia.
  - eexists _, _. split; [done|]. to_prop.
    rewrite length_take, length_drop, length_replicate. lia.
Qed.

(** ** The verb split *)

Lemma rposition_None p l : rposition p l = None <-> forallb (fun b => negb (p b)) l = true.
Proof.
  induction l as [|x l IH]; [done|]. cbn. rewrite andb_true_iff, <- IH.
  destruct (rposition p l); [naive_solver|]. destruct (p x); naive_solver.
Qed.

Lemma rposition_app p pre x suf : p x = true -> forallb (fun b => negb (p b)) suf = true ->
  rposition p (pre ++ x :: suf) = Some (length pre).
Proof.
  intros Hx Hs%rposition_None. induction pre as [|y pre IH]; cbn; [by rewrite Hs, Hx|by rewrite IH].
Qed.

Lemma rposition_Some p l i : rposition p l = Some i ->
  exists pre x suf, l = pre ++ x :: suf /\ i = length pre /\ p x = true
    /\ forallb (fun b => negb (p b)) suf = true.
Proof.
  revert i; induction l as [|y l IH]; intros i; cbn; [done|].
  destruct (rposition p l) as [j|] eqn:Hj.
  - intros [= <-]. destruct (IH j eq_refl) as (pre & x & suf & -> & -> & ? & ?).
    by exists (y :: pre), x, suf.
  - destruct (p y) eqn:Hy; [|done]. intros [= <-]. exists [], y, l. by rewrite <- rposition_None.
Qed.

(** A custom verb: non-empty and free of delimiters. *)
Definition verb_shape (verb : bytes) : Prop :=
  verb <> [] /\ forallb (fun b => negb (is_verb_delimiter b)) verb = true.

Lemma split_verb_cases path :
  (exists body verb, path = body ++ c_colon :: verb /\ verb_shape verb
     /\ split_verb path = Ok (body, Some verb))
  \/ ((forall body verb, path = body ++ c_colon :: verb -> ~ verb_shape verb)
     /\ split_verb path = Ok (path, None)).
Proof.
  unfold split_verb. destruct (rposition is_verb_delimiter path) as [i|] eqn:Hr.
  - destruct (rposition_Some _ _ _ Hr) as (pre & x & suf & -> & -> & Hx & Hsuf).
    rewrite list_lookup_middle by done.
    assert (Hfrom : slice_from (E:=unit) (pre ++ x :: suf) (length pre + 1) = Ok suf).
    { rewrite slice_from_ok by (rewrite length_app; cbn; lia).
      by rewrite <- drop_drop, drop_app_length. }
    rewrite Hfrom, slice_to_app.
    assert (Huniq : forall body verb, pre ++ x :: suf = body ++ c_colon :: verb ->
              verb_shape verb -> x = c_colon /\ suf = verb).
    { intros body verb Heq [_ Hv]. rewrite Heq, (rposition_app _ body c_colon verb) in Hr by done.
      injection Hr as Hl. apply app_inj_1 in Heq as [_ Heq]; [|done]. by injection Heq. }
    case_bool_decide as Hc; cbn [negb].
    + injection Hc as ->. destruct (bytes_eqb suf []) eqn:Hs; to_prop.
      * apply bytes_eqb_eq in Hs as ->. right. split; [|done].
        intros body verb Heq Hv. destruct (Huniq _ _ Heq Hv) as [_ <-]. by destruct Hv.
      * apply bytes_eqb_neq in Hs. left. by exists pre, suf.
    + right. split; [|done]. intros body verb Heq Hv.
      destruct (Huniq _ _ Heq Hv) as [-> _]. done.
  - right. split; [|done]. intros body verb -> [Hne Hv].
    by rewrite (rposition_app _ body c_colon verb) in Hr by done.
Qed.

(** [split_verb] never panics, splits a request path exactly at a last [':']
    that is followed by a non-empty verb without [':'], ['/'], ['?'] or ['#'],
    and returns every other path whole. *)
Theorem split_verb_spec path :
  (exists body verb, path = body ++ c_colon :: verb /\ verb_shape verb
     /\ split_verb path = Ok (body, Some verb))
  \/ ((forall body verb, path = body ++ c_colon :: verb -> ~ verb_shape verb)
     /\ split_verb path = Ok (path, None)).
Proof. apply split_verb_cases. Qed.

(** ** Affixes *)

(** Where a segment lies in the joined text, with a slash or an end on both sides. *)
Lemma seg_offsets_split start segs i s : segs !! i = Some s ->
  exists X Y, join c_slash segs = X ++ s ++ Y
    /\ seg_offsets start segs !! i = Some (start + length X, start + length X + length s)
    /\ (X = [] \/ exists X', X = X' ++ [c_slash]) /\ (Y = [] \/ exists Y', Y = c_slash :: Y').
Proof.
  revert start i; induction segs as [|p segs IH]; intros start [|i] Hi; [done..| |].
  - injection Hi as ->. destruct segs as [|q segs].
    + exists [], []. cbn. rewrite app_nil_r, Nat.add_0_r. split_and!; auto.
    + exists [], (c_slash :: join c_slash (q :: segs)). rewrite join_cons by done.
      cbn [seg_offsets lookup list_lookup length]. rewrite Nat.add_0_r. split_and!; eauto.
  - cbn [lookup list_lookup] in Hi. destruct (IH (start + length p + 1) i Hi)
      as (X & Y & Hj & Ho & HX & HY).
    exists (p ++ c_slash :: X), Y. rewrite join_cons, Hj by by destruct segs.
    rewrite <- app_assoc. split; [done|]. split.
    { etransitivity; [exact Ho|]. rewrite length_app. cbn [length]. f_equal. f_equal; lia. }
    split; [|done].
    right. destruct HX as [->|[X' ->]]; [by exists p|].
    exists (p ++ c_slash :: X'). by rewrite <- app_assoc.
Qed.

Lemma strip_slash_split body :
  exists B, body = B ++ strip_slash body /\ (B = [] \/ B = [c_slash]).
Proof.
  unfold strip_slash. destruct body as [|b tl]; [by exists []; auto|].
  destruct (Z.eqb_spec b c_slash) as [->|]; [by exists [c_slash]; auto|by exists []; auto].
Qed.

(** A position after an ASCII byte, or before one, or at an end, is a boundary. *)
Lemma char_boundary_after p q :
  utf8_valid (p ++ q) = true -> (p = [] \/ exists p' a, p = p' ++ [a] /\ in_range 0 127 a = true) ->
  is_char_boundary (p ++ q) (length p) = true.
Proof.
  intros Hv Hp. unfold is_char_boundary. destruct Hp as [->|(p' & a & -> & Ha)]; [done|].
  destruct q as [|b q]; [by rewrite app_nil_r, Nat.eqb_refl, orb_true_r|].
  rewrite lookup_app_r, Nat.sub_diag by done. cbn [lookup list_lookup].
  rewrite <- app_assoc in Hv. apply utf8_valid_after_ascii, utf8_valid_head in Hv; [|done].
  rewrite Hv. by rewrite orb_true_r.
Qed.

Lemma char_boundary_before p q :
  (q = [] \/ exists a q', q = a :: q' /\ in_range 0 127 a = true) ->
  is_char_boundary (p ++ q) (length p) = true.
Proof.
  unfold is_char_boundary. intros [->|(a & q' & -> & Ha)].
  - by rewrite app_nil_r, Nat.eqb_refl, orb_true_r.
  - rewrite lookup_app_r, Nat.sub_diag by done. cbn [lookup list_lookup].
    unfold in_range in Ha. to_prop. rewrite (proj2 (Z.ltb_lt a 128)) by lia. by rewrite orb_true_r.
Qed.

Lemma ascii_snoc X l : (X = [] \/ exists X' a, X = X' ++ [a] /\ in_range 0 127 a = true) ->
  forallb (in_range 0 127) l = true ->
  X ++ l = [] \/ exists p' a, X ++ l = p' ++ [a] /\ in_range 0 127 a = true.
Proof.
  intros HX Hl. destruct l as [|z l _] using rev_ind; [by rewrite app_nil_r|].
  right. exists (X ++ l), z. rewrite app_assoc. split; [done|].
  rewrite forallb_app in Hl. cbn in Hl. apply andb_true_iff in Hl as [_ Hl]. by rewrite andb_true_r in Hl.
Qed.

Lemma body_range_mid arch body starts ends X m Y :
  body = X ++ m ++ Y ->
  body_range (scan_path arch body starts ends) (length X) (length X + length m) = Ok (Some m).
Proof. intros ->. unfold body_range. cbn [p_body scan_path]. by rewrite slice_app. Qed.

Lemma slash_before B X :
  B = [] \/ B = [c_slash] -> X = [] \/ (exists X', X = X' ++ [c_slash]) ->
  B ++ X = [] \/ exists p a, B ++ X = p ++ [a] /\ in_range 0 127 a = true.
Proof.
  intros HB [->|[X' ->]].
  - rewrite app_nil_r. destruct HB as [->| ->]; [by left|right]. by exists [], c_slash.
  - right. exists (B ++ X'), c_slash. by rewrite app_assoc.
Qed.

(** The middle of a recorded segment that carries an ASCII prefix and suffix. *)
Lemma affix_middle arch body starts ends index pre m suf :
  utf8_valid body = true -> path_segments body !! index = Some (pre ++ m ++ suf) ->
  index < Nat.min (length starts) (length ends) ->
  forallb (in_range 0 127) pre = true -> forallb (in_range 0 127) suf = true ->
  affix (scan_path arch body starts ends) index (length pre) (length suf) = Ok (Some m).
Proof.
  intros Hv Hs Hc Hpre Hsuf. destruct (seg_offsets_split 0 _ _ _ Hs) as (X & Y & Hj & Ho & HX & HY).
  destruct (scan_path_offsets arch body starts ends _ _ _ Ho Hc) as [H1 H2].
  rewrite (path_segments_join body) in Hj by (intros Hn; by rewrite Hn in Hs).
  destruct (strip_slash_split body) as (B & HB & HBs). rewrite Hj in HB.
  assert (Hbase : length body - length (strip_slash body) = length B).
  { rewrite HB at 1. rewrite Hj, length_app. lia. }
  rewrite Hbase in H1, H2. cbn [Nat.add] in H1, H2.
  unfold affix. rewrite scan_path_count.
  rewrite (proj2 (Nat.leb_gt _ _)) by by eapply lookup_lt_Some.
  rewrite (proj2 (Nat.leb_gt _ _)) by exact Hc. cbn [orb].
  rewrite (offset_at_Some _ _ _ H1), (offset_at_Some _ _ _ H2). cbn [p_body scan_path].
  rewrite !length_app, (proj2 (Nat.ltb_ge _ _)) by lia.
  replace (length B + (length X + (length pre + (length m + length suf))) - length suf)
    with (length B + length X + length pre + length m) by lia.
  replace (length B + length X + length pre) with (length ((B ++ X) ++ pre))
    by (rewrite !length_app; lia).
  set (P := (B ++ X) ++ pre).
  assert (HP : body = P ++ m ++ suf ++ Y) by (unfold P; rewrite HB, <- !app_assoc; done).
  rewrite (proj2 (Nat.ltb_ge _ _)) by lia. rewrite (body_range_mid arch body starts ends P m _ HP).
  rewrite HP at 1 2. rewrite HP in Hv.
  assert (Hafter : is_char_boundary (P ++ m ++ suf ++ Y) (length P) = true).
  { apply char_boundary_after; [done|]. apply ascii_snoc; [by apply slash_before|done]. }
  rewrite Hafter. clear Hafter.
  rewrite <- length_app, (app_assoc P m).
  rewrite (char_boundary_before (P ++ m)); [done|].
  destruct suf as [|z suf]; [|right; exists z, (suf ++ Y); cbn in Hsuf; by apply andb_true_iff in Hsuf as [? _]].
  destruct HY as [->|[Y' ->]]; [by left|right]. by exists c_slash, Y'.
Qed.
