(* ===== verification/Trie.v ===== *)
(** * routerama_build: routes and the routing trie

    Models [src/crates/routerama_build/src/route.rs] and [trie.rs]: a route set is
    lowered to a trie whose edges encode the matching precedence.  The maps of a
    node are key-sorted association lists ([Collections]). *)

From S2P Require Import Prelude Collections PathTemplate.

(** ** Routes *)

Definition is_token_punct (b : Z) : bool :=
  existsb (Z.eqb b) [33; 35; 36; 37; 38; 39; 42; 43; 45; 46; 94; 95; 96; 124; 126]%Z.

Definition is_http_token (value : bytes) : bool :=
  negb (bytes_eqb value []) && forallb (fun b => is_ascii_alphanumeric b || is_token_punct b) value.

Record Route : Type := mkRoute { route_name : bytes; route_method : bytes; pattern : bytes }.

Definition Route_new (name method : bytes) (template : PathTemplate) : Route :=
  {| route_name := name; route_method := method; pattern := display template |}.

(** Re-parses the stored pattern; [expect]s success. *)
Definition Route_template (r : Route) : outcome unit PathTemplate :=
  match parse (pattern r) (with_segment_affixes Grammar_default) with
  | Ok t => Ok t
  | Err _ | Panic => Panic
  end.

(** ** Flattened templates *)

Inductive Atom : Type :=
| ALiteral (text : bytes)
| ASingle
| ARest
| AAffix (prefix suffix : bytes).

#[export] Instance Atom_eq_dec : EqDecision Atom.
Proof. solve_decision. Defined.

Record VarSpan : Type := mkVarSpan {
  v_name : list bytes;
  v_first : nat;
  v_last : nat;
  v_affix : option (nat * nat) }.

Inductive VarPlan : Type :=
| PSpan (field key : bytes) (a b : nat)
| PRest (field key : bytes) (a : nat)
| PAffix (field key : bytes) (a prefix_len suffix_len : nat).

Definition plan_field (p : VarPlan) : bytes :=
  match p with PSpan f _ _ _ | PRest f _ _ | PAffix f _ _ _ _ => f end.

Definition plan_key (p : VarPlan) : bytes :=
  match p with PSpan _ k _ _ | PRest _ k _ | PAffix _ k _ _ _ => k end.

(** The sub-segments of a variable; nested kinds are ignored. *)
Fixpoint flatten_subs (subs : list Segment) (atoms : list Atom) : list Atom :=
  match subs with
  | [] => atoms
  | Literal lit :: tl => flatten_subs tl (atoms ++ [ALiteral lit])
  | Single :: tl => flatten_subs tl (atoms ++ [ASingle])
  | Rest :: tl => flatten_subs tl (atoms ++ [ARest])
  | _ :: tl => flatten_subs tl atoms
  end.

Fixpoint flatten_loop (segs : list Segment) (atoms : list Atom) (vars : list VarSpan)
    : outcome unit (list Atom * list VarSpan) :=
  match segs with
  | [] => Ok (atoms, vars)
  | seg :: tl =>
      match seg with
      | Literal lit => flatten_loop tl (atoms ++ [ALiteral lit]) vars
      | Single => flatten_loop tl (atoms ++ [ASingle]) vars
      | Rest => flatten_loop tl (atoms ++ [ARest]) vars
      | Affix prefix name suffix =>
          let index := length atoms in
          flatten_loop tl (atoms ++ [AAffix prefix suffix])
            (vars ++ [mkVarSpan (split_on c_dot name) index index
                        (Some (length prefix, length suffix))])
      | Variable_ var =>
          let first := length atoms in
          let? subs := sub_segments var in
          let atoms := flatten_subs subs atoms in
          if length atoms =? 0 then Panic (* [atoms.len() - 1] *)
          else
            let last_ := length atoms - 1 in
            flatten_loop tl atoms
              (vars ++ [mkVarSpan (split_on c_dot (field var)) first last_ None])
      end
  end.

Definition flatten (segs : list Segment) : outcome unit (list Atom * list VarSpan) :=
  flatten_loop segs [] [].

Definition capture_field_names (segs : list Segment) : outcome unit (list (list bytes)) :=
  let? (_, vars) := flatten segs in Ok (v_name <$> vars).

(** ** Field names *)

(** The identifier tables of the [unicode_ident] package. *)
Class UnicodeIdent : Type := {
  is_xid_start : Z -> bool;
  is_xid_continue : Z -> bool }.

Definition reserved_words : list bytes :=
  [str "_"; str "as"; str "break"; str "const"; str "continue"; str "crate"; str "dyn";
   str "else"; str "enum"; str "extern"; str "false"; str "fn"; str "for"; str "if"; str "impl";
   str "in"; str "let"; str "loop"; str "match"; str "mod"; str "move"; str "mut"; str "pub";
   str "ref"; str "return"; str "self"; str "Self"; str "static"; str "struct"; str "super";
   str "trait"; str "true"; str "type"; str "unsafe"; str "use"; str "where"; str "while";
   str "async"; str "await"; str "abstract"; str "become"; str "box"; str "do"; str "final";
   str "macro"; str "override"; str "priv"; str "typeof"; str "unsized"; str "virtual";
   str "yield"; str "try"; str "gen"].

(** Texts are UTF-8; a byte string that is not one has no characters to inspect. *)
Definition is_valid_variant `{UnicodeIdent} (name : bytes) : bool :=
  match utf8_chars name with
  | None | Some [] => false
  | Some (first :: chars) =>
      if negb ((first =? c_under)%Z || is_xid_start first) then false
      else if negb (forallb is_xid_continue chars) then false
      else negb (existsb (bytes_eqb name) reserved_words)
  end.

(** The characters of a text that are not ASCII word characters become ['_']
    (one per character, not per byte). *)
Definition sanitize (joined : bytes) : bytes :=
  match utf8_chars joined with
  | Some chars =>
      (fun c => if (c =? c_under)%Z || is_ascii_alphanumeric c then c else c_under) <$> chars
  | None => []
  end.

Definition field_name `{UnicodeIdent} (joined : bytes) : bytes :=
  if is_valid_variant joined then joined else str "_f_" ++ sanitize joined.

(** [name.replace('.', "_")]. *)
Definition replace_dots (name : bytes) : bytes :=
  (fun b => if (b =? c_dot)%Z then c_under else b) <$> name.

Definition route_field_name `{UnicodeIdent} (name : bytes) : bytes := field_name (replace_dots name).

(** ** The trie *)

Record Leaf : Type := mkLeaf {
  l_method : bytes;
  l_verb : option bytes;
  l_name : bytes;
  l_vars : list VarPlan;
  route_index : nat }.

Inductive Node : Type := mkNode {
  n_literals : list (bytes * Node);
  n_affix : list (bytes * bytes * Node);
  n_single : option Node;
  n_exact : list Leaf;
  n_rest : list Leaf }.

Definition Node_default : Node := mkNode [] [] None [] [].

Record Trie : Type := mkTrie { t_root : Node; max_segments : nat; any_verb : bool }.

(** The walk of [insert_route] along the atoms, creating the missing edges, with
    the leaf pushed where it ends. *)
Fixpoint insert_atoms (atoms : list Atom) (has_rest : bool) (leaf : Leaf) (node : Node) : Node :=
  match node with
  | mkNode literals affix single exact rest =>
      match atoms with
      | [] =>
          if has_rest then mkNode literals affix single exact (rest ++ [leaf])
          else mkNode literals affix single (exact ++ [leaf]) rest
      | ALiteral lit :: tl =>
          mkNode (entry Node_default lit (insert_atoms tl has_rest leaf) literals)
            affix single exact rest
      | ASingle :: tl =>
          mkNode literals affix (Some (insert_atoms tl has_rest leaf (default Node_default single)))
            exact rest
      | AAffix prefix suffix :: tl =>
          mkNode literals (entry Node_default (prefix, suffix) (insert_atoms tl has_rest leaf) affix)
            single exact rest
      | ARest :: tl => insert_atoms tl has_rest leaf node
      end
  end.

Definition ends_with_rest (atoms : list Atom) : bool := bool_decide (last atoms = Some ARest).

Definition var_plan `{UnicodeIdent} (has_rest : bool) (atom_count : nat) (v : VarSpan) : VarPlan :=
  let key := join c_dot (v_name v) in
  let field := route_field_name key in
  match v_affix v with
  | Some (prefix_len, suffix_len) => PAffix field key (v_first v) prefix_len suffix_len
  | None =>
      if has_rest && (v_last v =? atom_count - 1) then PRest field key (v_first v)
      else PSpan field key (v_first v) (v_last v)
  end.

Definition insert_route `{UnicodeIdent} (root : Node) (route : Route) (template : PathTemplate)
    (index : nat) : outcome unit (Node * nat) :=
  let? (atoms, vars) := flatten (segments template) in
  let has_rest := ends_with_rest atoms in
  let atom_count := length atoms in
  let leaf := {| l_method := route_method route; l_verb := verb template;
                 l_name := route_name route; l_vars := var_plan has_rest atom_count <$> vars;
                 route_index := index |} in
  Ok (insert_atoms atoms has_rest leaf root, atom_count).

Fixpoint build_loop `{UnicodeIdent} (pairs : list (Route * PathTemplate)) (index : nat) (t : Trie)
    : outcome unit Trie :=
  match pairs with
  | [] => Ok t
  | (route, template) :: tl =>
      let any := any_verb t || bool_decide (is_Some (verb template)) in
      let? (root, n) := insert_route (t_root t) route template index in
      build_loop tl (S index) (mkTrie root (Nat.max (max_segments t) n) any)
  end.

Definition build_trie_with_templates `{UnicodeIdent} (routes : list Route)
    (templates : list PathTemplate) : outcome unit Trie :=
  if negb (length routes =? length templates) then Panic
  else build_loop (zip routes templates) 0 (mkTrie Node_default 0 false).

(** [routes.iter().map(Route::template).collect()]. *)
Fixpoint route_templates (routes : list Route) : outcome unit (list PathTemplate) :=
  match routes with
  | [] => Ok []
  | r :: tl => let? t := Route_template r in let? ts := route_templates tl in Ok (t :: ts)
  end.

Definition build_trie `{UnicodeIdent} (routes : list Route) : outcome unit Trie :=
  let? templates := route_templates routes in build_trie_with_templates routes templates.

(** ** Edge order *)

Definition affix_specificity (prefix suffix : bytes) : nat := length prefix + length suffix.

Definition affix_cmp (x y : bytes * bytes) : comparison :=
  then_with (cmp (affix_specificity (fst y) (snd y)) (affix_specificity (fst x) (snd x)))
    (cmp x y).

Definition affix_edges_in_match_order (node : Node) : list (bytes * bytes * Node) :=
  sort_by (fun x y => affix_cmp (fst x) (fst y)) (n_affix node).

(** ** Conflicts *)

Definition backtick : bytes := [96%Z].

(** The groups of a bucket: names by method and verb. *)
Definition bucket_groups (leaves : list Leaf) : list (bytes * option bytes * list bytes) :=
  foldl (fun groups leaf =>
    entry [] (l_method leaf, l_verb leaf) (fun names => names ++ [l_name leaf]) groups) [] leaves.

(** [names.join(", ")]. *)
Fixpoint join_names (names : list bytes) : bytes :=
  match names with
  | [] => []
  | [n] => n
  | n :: tl => n ++ str ", " ++ join_names tl
  end.

Definition conflict_message (prefix : bytes) (is_rest : bool) (method : bytes)
    (v : option bytes) (names : list bytes) : bytes :=
  let path := if is_rest then prefix ++ str "/**" else prefix in
  let path := if bytes_eqb path [] then str "/" else path in
  let v := match v with Some v => c_colon :: v | None => [] end in
  str "conflicting routes: " ++ backtick ++ method ++ str " " ++ path ++ v ++ backtick
    ++ str " maps to multiple names (" ++ join_names names
    ++ str "); each HTTP method and path may resolve to only one route".

Definition check_bucket (leaves : list Leaf) (prefix : bytes) (is_rest : bool) (out : list bytes)
    : list bytes :=
  foldl (fun out '((method, v), names) =>
    if 1 <? length names then out ++ [conflict_message prefix is_rest method v names] else out)
    out (bucket_groups leaves).

Inductive ConflictAction : Type :=
| Visit (node : Node) (component : bytes)
| Truncate (len : nat).

(** What a visit pushes, topmost first: the pushes of the source in reverse. *)
Definition visit_children (node : Node) (parent_len : nat) : list ConflictAction :=
  ((fun '(literal, child) => Visit child (c_slash :: literal)) <$> n_literals node)
  ++ ((fun '((prefix, suffix), child) =>
        Visit child (c_slash :: prefix ++ [c_lbrace; c_rbrace] ++ suffix)) <$> n_affix node)
  ++ (match n_single node with Some single => [Visit single (str "/*")] | None => [] end)
  ++ [Truncate parent_len].

Fixpoint conflicts_loop (fuel : nat) (prefix : bytes) (pending : list ConflictAction)
    (out : list bytes) : outcome unit (list bytes) :=
  match fuel with
  | O => Panic
  | S fuel' =>
      match pending with
      | [] => Ok out
      | Visit node component :: tl =>
          let parent_len := length prefix in
          let prefix := prefix ++ component in
          let out := check_bucket (n_exact node) prefix false out in
          let out := check_bucket (n_rest node) prefix true out in
          conflicts_loop fuel' prefix (visit_children node parent_len ++ tl) out
      | Truncate len :: tl => conflicts_loop fuel' (take len prefix) tl out
      end
  end.

(** The nodes of a trie. *)
Fixpoint node_size (n : Node) : nat :=
  match n with
  | mkNode literals affix single _ _ =>
      S (list_sum ((fun e => node_size (snd e)) <$> literals)
         + list_sum ((fun e => node_size (snd e)) <$> affix)
         + match single with Some c => node_size c | None => 0 end)
  end.

(** Each node is visited and left once. *)
Definition conflicts (root : Node) : outcome unit (list bytes) :=
  conflicts_loop (S (2 * node_size root)) [] [Visit root []] [].

(** ** Flattening *)

Definition atom_of_piece (piece : bytes) : Atom :=
  match segment_of_piece piece with
  | Single => ASingle
  | Rest => ARest
  | _ => ALiteral piece
  end.

(** The atoms of a segment. *)
Definition seg_atoms (s : Segment) : list Atom :=
  match s with
  | Literal lit => [ALiteral lit]
  | Single => [ASingle]
  | Rest => [ARest]
  | Affix p _ q => [AAffix p q]
  | Variable_ v => atom_of_piece <$> split_on c_slash (sub v)
  end.

(** The spans of the variables when the segments start at atom [start]. *)
Fixpoint seg_vars (segs : list Segment) (start : nat) : list VarSpan :=
  match segs with
  | [] => []
  | s :: tl =>
      let next := start + length (seg_atoms s) in
      match s with
      | Variable_ v => mkVarSpan (split_on c_dot (field v)) start (next - 1) None :: seg_vars tl next
      | Affix p n q =>
          mkVarSpan (split_on c_dot n) start start (Some (length p, length q)) :: seg_vars tl next
      | _ => seg_vars tl next
      end
  end.

Lemma flatten_subs_pieces pieces atoms :
  flatten_subs (segment_of_piece <$> pieces) atoms = atoms ++ (atom_of_piece <$> pieces).
Proof.
  revert atoms; induction pieces as [|p pieces IH]; intros atoms; cbn; [by rewrite app_nil_r|].
  unfold segment_of_piece, atom_of_piece in *. unfold segment_of_piece.
  repeat case_match; simplify_eq; rewrite IH; by rewrite <- app_assoc.
Qed.

Lemma seg_atoms_nonempty s : 1 <= length (seg_atoms s).
Proof.
  destruct s as [| | |v|]; cbn; try lia. rewrite length_fmap.
  pose proof (split_on_nonempty c_slash (sub v)). destruct (split_on _ _); [done|cbn; lia].
Qed.

Lemma flatten_loop_spec segs atoms vars :
  flatten_loop segs atoms vars
  = Ok (atoms ++ (segs ≫= seg_atoms), vars ++ seg_vars segs (length atoms)).
Proof.
  revert atoms vars; induction segs as [|s segs IH]; intros atoms vars;
    cbn [flatten_loop seg_vars mbind list_bind]; [by rewrite !app_nil_r|].
  pose proof (seg_atoms_nonempty s).
  destruct s as [| | |v|]; rewrite ?IH, ?length_app, <- ?app_assoc; cbn [seg_atoms]; try done.
  rewrite sub_segments_pieces, flatten_subs_pieces. cbn [seg_atoms] in *.
  rewrite length_app, (proj2 (Nat.eqb_neq _ 0)) by lia.
  by rewrite IH, length_app, <- !app_assoc.
Qed.

Lemma flatten_spec segs : flatten segs = Ok (segs ≫= seg_atoms, seg_vars segs 0).
Proof. apply flatten_loop_spec. Qed.

(** ** Tries as sets of routes *)

Section node_ind.
Context (P : Node -> Prop).
Context (HP : forall literals affix single exact rest,
  Forall (fun e => P (snd e)) literals -> Forall (fun e => P (snd e)) affix ->
  (forall c, single = Some c -> P c) -> P (mkNode literals affix single exact rest)).

Fixpoint Node_ind' (n : Node) : P n :=
  match n with
  | mkNode literals affix single exact rest =>
      HP literals affix single exact rest
        ((fix go l : Forall (fun e => P (snd e)) l :=
            match l with
            | [] => List.Forall_nil _
            | (k, c) :: tl => List.Forall_cons _ (k, c) tl (Node_ind' c) (go tl)
            end) literals)
        ((fix go l : Forall (fun e => P (snd e)) l :=
            match l with
            | [] => List.Forall_nil _
            | (k, c) :: tl => List.Forall_cons _ (k, c) tl (Node_ind' c) (go tl)
            end) affix)
        (match single as s return forall c, s = Some c -> P c with
         | Some s => fun c Hc => eq_ind s P (Node_ind' s) c (f_equal (default s) Hc)
         | None => fun c Hc => False_ind _ (eq_ind None (fun o => match o with None => True | Some _ => False end) I _ Hc)
         end)
  end.
End node_ind.

(** The routes below an edge. *)
Definition under (a : Atom) (entries : list (list Atom * Leaf)) : list (list Atom * Leaf) :=
  (fun '(atoms, l) => (a :: atoms, l)) <$> entries.

(** The routes of a trie, with their atoms. *)
Fixpoint node_routes (n : Node) : list (list Atom * Leaf) :=
  match n with
  | mkNode literals affix single exact rest =>
      concat ((fun e => under (ALiteral (fst e)) (node_routes (snd e))) <$> literals)
      ++ concat ((fun e => under (AAffix (fst (fst e)) (snd (fst e))) (node_routes (snd e))) <$> affix)
      ++ (match single with Some c => under ASingle (node_routes c) | None => [] end)
      ++ ((fun l => ([], l)) <$> exact) ++ ((fun l => ([ARest], l)) <$> rest)
  end.

(** Leaves of a bucket are in registration order. *)
Definition bucket_ok (bound : nat) (leaves : list Leaf) : Prop :=
  StronglySorted lt (route_index <$> leaves) /\ Forall (fun l => route_index l < bound) leaves.

Inductive node_ok (bound : nat) : Node -> Prop :=
| node_ok_intro literals affix single exact rest :
    btree_sorted literals -> btree_sorted affix ->
    Forall (fun e => node_ok bound (snd e)) literals ->
    Forall (fun e => node_ok bound (snd e)) affix ->
    (forall c, single = Some c -> node_ok bound c) ->
    bucket_ok bound exact -> bucket_ok bound rest ->
    node_ok bound (mkNode literals affix single exact rest).

Lemma bucket_ok_mono b b' leaves : b <= b' -> bucket_ok b leaves -> bucket_ok b' leaves.
Proof. intros Hb [Hs Hf]. split; [done|]. eapply Forall_impl; [exact Hf|]. cbn. intros; lia. Qed.

Lemma node_ok_mono b b' n : b <= b' -> node_ok b n -> node_ok b' n.
Proof.
  intros Hb. induction n as [literals affix single exact rest IHl IHa IHs] using Node_ind'.
  intros H. inversion_clear H as [? ? ? ? ? H1 H2 H3 H4 H5 H6 H7].
  constructor; eauto using bucket_ok_mono.
  - rewrite Forall_forall in *. eauto.
  - rewrite Forall_forall in *. eauto.
Qed.

Lemma node_ok_default b : node_ok b Node_default.
Proof. repeat constructor; done. Qed.

Lemma StronglySorted_snoc (l : list nat) n :
  StronglySorted lt l -> Forall (fun x => x < n) l -> StronglySorted lt (l ++ [n]).
Proof.
  induction 1 as [|x l Hl IH Hall]; intros Hf; cbn; [by repeat constructor|].
  inversion_clear Hf. constructor; [by apply IH|]. apply Forall_app. by repeat constructor.
Qed.

Lemma bucket_ok_snoc b leaves leaf :
  bucket_ok b leaves -> route_index leaf = b -> bucket_ok (S b) (leaves ++ [leaf]).
Proof.
  intros [Hs Hf] Hl. split.
  - rewrite fmap_app. cbn. apply StronglySorted_snoc; [done|]. rewrite Hl.
    apply Forall_fmap. done.
  - apply Forall_app. split; [eapply Forall_impl; [exact Hf|]; cbn; intros; lia|].
    apply Forall_singleton. lia.
Qed.

Lemma entry_Forall {K V} `{Ord K} (P Q : V -> Prop) d k f (m : list (K * V)) :
  P d -> (forall v, P v -> Q (f v)) -> (forall v, P v -> Q v) ->
  Forall (fun e => P (snd e)) m -> Forall (fun e => Q (snd e)) (entry d k f m).
Proof.
  intros Hd Hf Hpq. induction 1 as [|[k' v] m Hv Hm IH]; cbn; [constructor; cbn; auto|].
  assert (Hm' : Forall (fun e => Q (snd e)) m) by (eapply Forall_impl; [exact Hm|]; auto).
  destruct (cmp k k'); repeat constructor; cbn; auto.
Qed.

Lemma insert_atoms_ok b atoms hr leaf n :
  node_ok b n -> route_index leaf = b -> node_ok (S b) (insert_atoms atoms hr leaf n).
Proof.
  intros Hn Hl. assert (Hup : forall c, node_ok b c -> node_ok (S b) c).
  { intros c Hc. apply node_ok_mono with b; [lia|done]. }
  assert (Hb : forall ls, bucket_ok b ls -> bucket_ok (S b) ls).
  { intros ls. apply bucket_ok_mono. lia. }
  revert n Hn. induction atoms as [|a atoms IH]; intros n Hn;
    pose proof Hn as [literals affix single exact rest H1 H2 H3 H4 H5 H6 H7];
    pose proof (Forall_impl _ _ _ H3 (fun e => Hup (snd e))) as H3';
    pose proof (Forall_impl _ _ _ H4 (fun e => Hup (snd e))) as H4'.
  - cbn. destruct hr; constructor; auto using bucket_ok_snoc.
  - destruct a; cbn; [| |by apply IH; constructor|]; constructor; auto; try by apply entry_sorted.
    + apply entry_Forall with (node_ok b); auto using node_ok_default.
    + intros c [= <-]. apply IH. destruct single as [c|]; [by apply H5|apply node_ok_default].
    + apply entry_Forall with (node_ok b); auto using node_ok_default.
Qed.

#[export] Instance under_perm a : Proper ((≡ₚ) ==> (≡ₚ)) (under a).
Proof. intros x y Hxy. unfold under. by rewrite Hxy. Qed.

Lemma routes_entry {K} `{OrdLaws K} (edge : K -> Atom) k f (m : list (K * Node)) atoms leaf :
  btree_sorted m ->
  (forall v, v = Node_default \/ (k, v) ∈ m -> node_routes (f v) ≡ₚ (atoms, leaf) :: node_routes v) ->
  concat ((fun e => under (edge (fst e)) (node_routes (snd e))) <$> entry Node_default k f m)
  ≡ₚ (edge k :: atoms, leaf)
     :: concat ((fun e => under (edge (fst e)) (node_routes (snd e))) <$> m).
Proof.
  intros Hm Hf. destruct (entry_spec Node_default k f m Hm)
    as [(v & m1 & m2 & -> & ->)|(_ & m1 & m2 & -> & ->)];
    rewrite !fmap_app, !concat_app; cbn [fmap list_fmap concat fst snd].
  - rewrite Hf by set_solver. cbn. by rewrite <- Permutation_middle.
  - rewrite Hf by auto. cbn. by rewrite <- Permutation_middle.
Qed.

Lemma node_routes_insert b pre hr leaf n :
  node_ok b n -> Forall (fun a => a <> ARest) pre ->
  node_routes (insert_atoms pre hr leaf n)
  ≡ₚ (pre ++ (if hr then [ARest] else []), leaf) :: node_routes n.
Proof.
  intros Hn Hpre. revert n Hn. induction Hpre as [|a pre Ha Hpre IH]; intros n Hn;
    destruct Hn as [literals affix single exact rest H1 H2 H3 H4 H5 H6 H7].
  - destruct hr; cbn [insert_atoms node_routes]; rewrite fmap_app; cbn [fmap list_fmap];
      by rewrite !app_assoc, <- ?Permutation_middle, ?app_nil_r.
  - rewrite Forall_forall in H3. rewrite Forall_forall in H4.
    destruct a as [lit| | |p q]; cbn [insert_atoms node_routes]; [| |done|].
    + rewrite (routes_entry ALiteral lit _ literals (pre ++ if hr then [ARest] else []) leaf);
        [done..|]. intros v [->|Hv]; [apply IH, node_ok_default|apply IH, (H3 _ Hv)].
    + destruct single as [c|]; cbn [default].
      * rewrite IH by by apply H5. cbn. by rewrite <- !Permutation_middle.
      * rewrite IH by apply node_ok_default. cbn. by rewrite <- !Permutation_middle.
    + rewrite (routes_entry (fun k => AAffix (fst k) (snd k)) (p, q) _ affix
        (pre ++ if hr then [ARest] else []) leaf); [cbn; by rewrite <- Permutation_middle|done|].
      intros v [->|Hv]; [apply IH, node_ok_default|apply IH, (H4 _ Hv)].
Qed.

Lemma insert_atoms_snoc_rest pre hr leaf n :
  insert_atoms (pre ++ [ARest]) hr leaf n = insert_atoms pre hr leaf n.
Proof.
  revert n; induction pre as [|a pre IH]; intros [literals affix single exact rest];
    cbn [app insert_atoms]; [done|].
  destruct a; [| |by apply IH|]; f_equal.
  - by apply entry_ext.
  - by rewrite IH.
  - by apply entry_ext.
Qed.

(** A flattened template: [**] only at the end. *)
Definition atoms_ok (atoms : list Atom) : Prop :=
  forall i, atoms !! i = Some ARest -> S i = length atoms.

Lemma atoms_ok_split atoms : atoms_ok atoms ->
  exists pre, Forall (fun a => a <> ARest) pre
    /\ atoms = pre ++ (if ends_with_rest atoms then [ARest] else []).
Proof.
  intros Hok. unfold ends_with_rest.
  destruct (bool_decide (last atoms = Some ARest)) eqn:Hl; to_prop.
  - apply last_Some in Hl as [pre ->]. exists pre. split; [|done].
    apply Forall_forall. intros a Ha ->. apply list_elem_of_lookup in Ha as [i Hi].
    specialize (Hok i). rewrite lookup_app_l, length_app in Hok by by eapply lookup_lt_Some.
    specialize (Hok Hi). apply lookup_lt_Some in Hi. cbn in Hok. lia.
  - exists atoms. rewrite app_nil_r. split; [|done].
    apply Forall_forall. intros a Ha ->. apply list_elem_of_lookup in Ha as [i Hi].
    apply Hl. rewrite last_lookup, <- (Hok i Hi). done.
Qed.

Lemma insert_route_routes b atoms leaf n : node_ok b n -> atoms_ok atoms ->
  node_routes (insert_atoms atoms (ends_with_rest atoms) leaf n) ≡ₚ (atoms, leaf) :: node_routes n.
Proof.
  intros Hn (pre & Hpre & Heq)%atoms_ok_split.
  destruct (ends_with_rest atoms); rewrite Heq.
  - rewrite insert_atoms_snoc_rest. by eapply (node_routes_insert b pre true).
  - rewrite app_nil_r. rewrite <- (app_nil_r pre) at 2. by eapply (node_routes_insert b pre false).
Qed.

(** ** Building *)

Definition seg_to_atom (s : Segment) : Atom :=
  match s with
  | Literal t => ALiteral t
  | Single => ASingle
  | Rest => ARest
  | Affix p _ q => AAffix p q
  | Variable_ v => ALiteral (sub v)
  end.

Lemma seg_atoms_segment_atoms s : seg_atoms s = seg_to_atom <$> segment_atoms s.
Proof.
  destruct s as [| | |v|]; try done. cbn. rewrite <- list_fmap_compose.
  apply list_fmap_ext. intros i p _. unfold atom_of_piece, segment_of_piece. cbn.
  by repeat case_match; simplify_eq.
Qed.

Lemma segment_atoms_leaf s a : a ∈ segment_atoms s -> forall v, a <> Variable_ v.
Proof.
  destruct s as [| | |v|]; cbn; try (intros ->%list_elem_of_singleton; done).
  intros (p & -> & _)%list_elem_of_fmap w. unfold segment_of_piece. by repeat case_match.
Qed.

Lemma bind_seg_atoms segs : segs ≫= seg_atoms = seg_to_atom <$> (segs ≫= segment_atoms).
Proof.
  induction segs as [|s segs IH]; [done|]. cbn. by rewrite seg_atoms_segment_atoms, fmap_app, <- IH.
Qed.

Lemma template_atoms_ok segs :
  validate_rest_position segs = Ok tt -> atoms_ok (segs ≫= seg_atoms).
Proof.
  intros Hr%validate_rest_position_spec. rewrite bind_seg_atoms. intros i Hi.
  rewrite length_fmap. apply Hr.
  rewrite list_lookup_fmap in Hi. apply fmap_Some in Hi as (a & Ha & Hra).
  rewrite Ha. f_equal. destruct a; done.
Qed.

(** What registering a template at an index puts into the trie. *)
Definition route_entry `{UnicodeIdent} (index : nat) (rt : Route * PathTemplate)
    : list Atom * Leaf :=
  let atoms := segments (snd rt) ≫= seg_atoms in
  (atoms, {| l_method := route_method (fst rt); l_verb := verb (snd rt);
             l_name := route_name (fst rt);
             l_vars := var_plan (ends_with_rest atoms) (length atoms)
                         <$> seg_vars (segments (snd rt)) 0;
             route_index := index |}).

Fixpoint entries_from `{UnicodeIdent} (pairs : list (Route * PathTemplate)) (index : nat)
    : list (list Atom * Leaf) :=
  match pairs with
  | [] => []
  | rt :: tl => route_entry index rt :: entries_from tl (S index)
  end.

Definition has_verb (rt : Route * PathTemplate) : bool := bool_decide (is_Some (verb (snd rt))).

Definition depth_of (entries : list (list Atom * Leaf)) : nat :=
  foldr Nat.max 0 ((fun e => length (fst e)) <$> entries).

Lemma build_loop_spec `{UnicodeIdent} pairs index t :
  Forall (fun rt => template_wf (snd rt)) pairs -> node_ok index (t_root t) ->
  exists t', build_loop pairs index t = Ok t'
    /\ node_ok (index + length pairs) (t_root t')
    /\ node_routes (t_root t') ≡ₚ entries_from pairs index ++ node_routes (t_root t)
    /\ max_segments t' = Nat.max (max_segments t) (depth_of (entries_from pairs index))
    /\ any_verb t' = any_verb t || existsb has_verb pairs.
Proof.
  intros Hp. revert index t; induction Hp as [|[r p] pairs Hwf Hp IH]; intros index t Hok.
  { exists t. cbn. by rewrite Nat.add_0_r, Nat.max_0_r, orb_false_r. }
  destruct Hwf as (_ & _ & Hrest). cbn [snd] in Hrest.
  cbn [build_loop entries_from existsb length]. unfold insert_route. rewrite flatten_spec.
  destruct (IH (S index) (mkTrie (insert_atoms (segments p ≫= seg_atoms)
      (ends_with_rest (segments p ≫= seg_atoms)) (snd (route_entry index (r, p))) (t_root t))
    (Nat.max (max_segments t) (length (segments p ≫= seg_atoms)))
    (any_verb t || bool_decide (is_Some (verb p))))) as (t' & Hb & Hn & Hr & Hm & Hv).
  { by apply insert_atoms_ok. }
  exists t'. cbn [t_root max_segments any_verb] in *. split; [exact Hb|].
  split; [by rewrite Nat.add_succ_r|]. split; [|split].
  - rewrite Hr, (insert_route_routes index) by auto using template_atoms_ok.
    by rewrite <- Permutation_middle.
  - rewrite Hm. unfold depth_of. cbn. lia.
  - by rewrite Hv, orb_assoc.
Qed.

(** A registration: name, method and template, stored as a [Route]. *)
Definition register (reg : bytes * bytes * PathTemplate) : Route :=
  let '(name, method, t) := reg in Route_new name method t.

Definition registered `{UnicodeIdent} (regs : list (bytes * bytes * PathTemplate))
    : list (list Atom * Leaf) :=
  entries_from (zip (register <$> regs) (snd <$> regs)) 0.

Lemma route_templates_new regs :
  Forall (fun reg => template_wf (snd reg)) regs ->
  route_templates (register <$> regs) = Ok (snd <$> regs).
Proof.
  induction 1 as [|[[name method] t] regs Hwf Hr IH]; [done|]. cbn in *.
  unfold Route_template. cbn [pattern Route_new]. rewrite parse_display by done. by rewrite IH.
Qed.

Lemma build_trie_spec `{UnicodeIdent} regs :
  Forall (fun reg => template_wf (snd reg)) regs ->
  exists t, build_trie (register <$> regs) = Ok t
    /\ node_ok (length regs) (t_root t)
    /\ node_routes (t_root t) ≡ₚ registered regs
    /\ max_segments t = depth_of (registered regs)
    /\ any_verb t = existsb (fun reg => bool_decide (is_Some (verb (snd reg)))) regs.
Proof.
  intros Hwf. unfold build_trie. rewrite route_templates_new by done.
  unfold build_trie_with_templates. rewrite !length_fmap, Nat.eqb_refl. cbn [negb].
  destruct (build_loop_spec (zip (register <$> regs) (snd <$> regs)) 0
    (mkTrie Node_default 0 false)) as (t & Hb & Hok & Hr & Hm & Hv).
  - clear -Hwf. induction Hwf; cbn; by constructor.
  - apply node_ok_default.
  - exists t. split; [done|]. cbn [t_root] in *.
    rewrite length_zip, !length_fmap, Nat.min_id in Hok. split; [done|].
    split; [by rewrite Hr, app_nil_r|]. split; [done|]. rewrite Hv. cbn [any_verb orb].
    clear. induction regs as [|r regs IH]; [done|]. cbn. by rewrite IH.
Qed.

(** ** Conflict detection *)

Definition bucket_conflicts (leaves : list Leaf) (prefix : bytes) (is_rest : bool) : list bytes :=
  bucket_groups leaves ≫= fun '((method, v), names) =>
    if 1 <? length names then [conflict_message prefix is_rest method v names] else [].

(** The messages in the order of a recursive traversal. *)
Fixpoint node_conflicts (prefix : bytes) (n : Node) : list bytes :=
  match n with
  | mkNode literals affix single exact rest =>
      bucket_conflicts exact prefix false ++ bucket_conflicts rest prefix true
      ++ concat ((fun e => node_conflicts (prefix ++ c_slash :: fst e) (snd e)) <$> literals)
      ++ concat ((fun e => node_conflicts
                    (prefix ++ c_slash :: fst (fst e) ++ [c_lbrace; c_rbrace] ++ snd (fst e))
                    (snd e)) <$> affix)
      ++ match single with Some c => node_conflicts (prefix ++ str "/*") c | None => [] end
  end.

Lemma check_bucket_app leaves prefix is_rest out :
  check_bucket leaves prefix is_rest out = out ++ bucket_conflicts leaves prefix is_rest.
Proof.
  unfold check_bucket, bucket_conflicts. generalize (bucket_groups leaves). intros groups.
  revert out; induction groups as [|[[m v] names] groups IH]; intros out; [by rewrite app_nil_r|].
  cbn. rewrite IH. case_match; by rewrite <- ?app_assoc.
Qed.

(** A node is handled within two rounds per node below it. *)
Definition visited (n : Node) : Prop := forall fuel prefix component tl out,
  conflicts_loop (2 * node_size n + fuel) prefix (Visit n component :: tl) out
  = conflicts_loop fuel prefix tl (out ++ node_conflicts (prefix ++ component) n).

Lemma conflicts_loop_edges {K} (m : list (K * Node)) (comp : K -> bytes) fuel prefix tl out :
  Forall (fun e => visited (snd e)) m ->
  conflicts_loop (2 * list_sum ((fun e => node_size (snd e)) <$> m) + fuel) prefix
    (((fun e => Visit (snd e) (comp (fst e))) <$> m) ++ tl) out
  = conflicts_loop fuel prefix tl
      (out ++ concat ((fun e => node_conflicts (prefix ++ comp (fst e)) (snd e)) <$> m)).
Proof.
  intros Hm. revert out; induction Hm as [|[k n] m Hv Hm IH]; intros out.
  - cbn [fmap list_fmap concat app]. by rewrite app_nil_r.
  - cbn [fmap list_fmap concat app fst snd] in *.
    change (list_sum (?x :: ?l)) with (x + list_sum l).
    rewrite Nat.mul_add_distr_l, <- Nat.add_assoc, Hv, IH. by rewrite app_assoc.
Qed.

Lemma conflicts_loop_visit n : visited n.
Proof.
  induction n as [literals affix single exact rest IHl IHa IHs] using Node_ind'.
  intros fuel prefix component tl out.
  set (sl := list_sum ((fun e => node_size (snd e)) <$> literals)).
  set (sa := list_sum ((fun e => node_size (snd e)) <$> affix)).
  set (ss := match single with Some c => node_size c | None => 0 end).
  replace (2 * node_size _ + fuel) with (S (2 * sl + (2 * sa + (2 * ss + S fuel))))
    by (cbn [node_size]; unfold sl, sa, ss; lia).
  cbn [conflicts_loop n_exact n_rest]. rewrite !check_bucket_app.
  unfold visit_children. cbn [n_literals n_affix n_single].
  rewrite <- !app_assoc.
  rewrite (list_fmap_ext _ (fun e => Visit (snd e) (c_slash :: fst e)) literals)
    by (by intros ? [? ?]).
  rewrite (list_fmap_ext _ (fun e => Visit (snd e)
    (c_slash :: fst (fst e) ++ [c_lbrace; c_rbrace] ++ snd (fst e))) affix)
    by (by intros ? [[? ?] ?]).
  unfold sl. rewrite (conflicts_loop_edges literals (fun k => c_slash :: k)) by done.
  unfold sa. rewrite (conflicts_loop_edges affix
    (fun k => c_slash :: fst k ++ [c_lbrace; c_rbrace] ++ snd k)) by done.
  assert (Hend : forall o, conflicts_loop (S fuel) (prefix ++ component)
      (Truncate (length prefix) :: tl) o = conflicts_loop fuel prefix tl o).
  { intros o. cbn [conflicts_loop]. by rewrite take_app_length. }
  cbn [node_conflicts]. unfold ss. destruct single as [c|]; cbn [app].
  - rewrite (IHs c eq_refl), Hend. by rewrite <- !app_assoc.
  - rewrite Nat.mul_0_r, Nat.add_0_l, Hend. by rewrite <- !app_assoc, app_nil_r.
Qed.

Lemma conflicts_ref root : conflicts root = Ok (node_conflicts [] root).
Proof.
  unfold conflicts. replace (S (2 * node_size root)) with (2 * node_size root + 1) by lia.
  by rewrite conflicts_loop_visit.
Qed.

Definition leaf_key (l : Leaf) : bytes * option bytes := (l_method l, l_verb l).

Lemma bucket_groups_snoc leaves l :
  bucket_groups (leaves ++ [l])
  = entry [] (leaf_key l) (fun names => names ++ [l_name l]) (bucket_groups leaves).
Proof. unfold bucket_groups. by rewrite foldl_snoc. Qed.

Lemma bucket_groups_spec leaves :
  btree_sorted (bucket_groups leaves)
  /\ (forall k names, (k, names) ∈ bucket_groups leaves ->
        names = l_name <$> filter (fun l => leaf_key l = k) leaves)
  /\ (forall l, l ∈ leaves -> leaf_key l ∈ (bucket_groups leaves).*1).
Proof.
  induction leaves as [|l leaves (Hs & Hn & Hk)] using rev_ind.
  { split; [constructor|]. split; [intros k names []%not_elem_of_nil|intros l []%not_elem_of_nil]. }
  rewrite bucket_groups_snoc. split; [by apply entry_sorted|].
  assert (Hother : forall k, k <> leaf_key l ->
    filter (fun l => leaf_key l = k) (leaves ++ [l]) = filter (fun l => leaf_key l = k) leaves).
  { intros k Hne. rewrite filter_app, filter_cons_False by congruence. by rewrite app_nil_r. }
  assert (Hself : filter (fun l' => leaf_key l' = leaf_key l) (leaves ++ [l])
    = filter (fun l' => leaf_key l' = leaf_key l) leaves ++ [l]).
  { by rewrite filter_app, filter_cons_True. }
  pose proof (btree_sorted_NoDup _ Hs) as Hnd.
  destruct (entry_spec [] (leaf_key l) (fun names => names ++ [l_name l]) _ Hs)
    as [(v & m1 & m2 & Hm & ->)|(Hnew & m1 & m2 & Hm & ->)];
    rewrite Hm in Hn, Hk, Hnd; [|rewrite Hm in Hnew].
  - rewrite fmap_app in Hnd, Hk. cbn in Hnd, Hk. split.
    + intros k names Hin. destruct (decide (k = leaf_key l)) as [->|Hne].
      * apply NoDup_app in Hnd as (_ & Hd1 & Hd2). apply NoDup_cons in Hd2 as [Hd2 _].
        apply elem_of_app in Hin as [Hin|[Heq|Hin]%elem_of_cons].
        -- exfalso. apply (Hd1 (leaf_key l)); [|by left]. apply list_elem_of_fmap. by eexists (_, _).
        -- injection Heq as ->. rewrite Hself, fmap_app. cbn. f_equal. apply Hn. set_solver.
        -- exfalso. apply Hd2. apply list_elem_of_fmap. by eexists (_, _).
      * rewrite Hother by done. apply Hn. set_solver.
    + intros l' [Hl'| ->%list_elem_of_singleton]%elem_of_app; rewrite fmap_app; cbn; [|set_solver].
      apply Hk in Hl'. set_solver.
  - rewrite fmap_app in Hk, Hnew. split.
    + intros k names Hin. destruct (decide (k = leaf_key l)) as [->|Hne].
      * assert (Hno : forall w, (leaf_key l, w) ∉ m1 ++ m2).
        { intros w Hw. apply Hnew. rewrite <- fmap_app. apply list_elem_of_fmap. by eexists (_, _). }
        assert (names = [l_name l]) as ->.
        { apply elem_of_app in Hin as [Hin|[Heq|Hin]%elem_of_cons]; [|by injection Heq|];
            exfalso; eapply Hno; apply elem_of_app; eauto. }
        rewrite Hself, fmap_app. cbn.
        assert (filter (fun l' => leaf_key l' = leaf_key l) leaves = []) as ->; [|done].
        destruct (filter _ leaves) as [|x xs] eqn:Hf; [done|]. exfalso.
        assert (Hx : x ∈ filter (fun l' => leaf_key l' = leaf_key l) leaves) by (rewrite Hf; set_solver).
        apply list_elem_of_filter in Hx as [Hx1 Hx2]. apply Hk in Hx2. by rewrite Hx1 in Hx2.
      * rewrite Hother by done. apply Hn. set_solver.
    + intros l' [Hl'| ->%list_elem_of_singleton]%elem_of_app; rewrite fmap_app; cbn; [|set_solver].
      apply Hk in Hl'. set_solver.
Qed.

Lemma NoDup_filter_le1 {A B} `{EqDecision B} (key : A -> B) (l : list A) :
  NoDup (key <$> l) <-> (forall x, x ∈ l -> length (filter (fun y => key y = key x) l) <= 1).
Proof.
  induction l as [|a l IH]; [split; [intros _ x []%not_elem_of_nil|constructor]|].
  rewrite fmap_cons, NoDup_cons, IH. split.
  - intros [Ha Hl] x Hx. rewrite filter_cons. case_decide as Heq.
    + assert (filter (fun y => key y = key x) l = []) as ->; [|cbn; lia].
      destruct (filter _ l) as [|y ys] eqn:Hf; [done|]. exfalso. apply Ha.
      assert (Hy : y ∈ filter (fun y => key y = key x) l) by (rewrite Hf; set_solver).
      apply list_elem_of_filter in Hy as [Hy1 Hy2]. rewrite Heq, <- Hy1.
      by apply list_elem_of_fmap_2.
    + apply elem_of_cons in Hx as [->|Hx]; [done|]. by apply Hl.
  - intros H. split.
    + intros (y & Heq & Hy)%list_elem_of_fmap. specialize (H a ltac:(by left)).
      rewrite filter_cons_True in H by done. cbn in H.
      assert (Hin : y ∈ filter (fun z => key z = key a) l) by by apply list_elem_of_filter.
      destruct (filter _ l); [by apply not_elem_of_nil in Hin|cbn in H; lia].
    + intros x Hx. specialize (H x ltac:(by right)). rewrite filter_cons in H.
      case_decide; cbn in H; lia.
Qed.

Lemma bucket_conflicts_nil leaves prefix is_rest :
  bucket_conflicts leaves prefix is_rest = [] <-> NoDup (leaf_key <$> leaves).
Proof.
  destruct (bucket_groups_spec leaves) as (Hs & Hn & Hk). rewrite NoDup_filter_le1.
  unfold bucket_conflicts. split.
  - intros Hnil l Hl. apply Hk, list_elem_of_fmap in Hl as ([k names] & Hkl & Hin). cbn in Hkl. subst k.
    assert (Hle : length names <= 1).
    { destruct (Nat.ltb_spec 1 (length names)) as [Hlt|]; [|done]. exfalso.
      destruct (leaf_key l) as [m v] eqn:Hkey.
      assert (Hmsg : conflict_message prefix is_rest m v names ∈ @nil bytes).
      { rewrite <- Hnil. apply list_elem_of_bind. exists (m, v, names). split; [|done].
        rewrite (proj2 (Nat.ltb_lt _ _)) by done. set_solver. }
      by apply not_elem_of_nil in Hmsg. }
    rewrite (Hn _ _ Hin), length_fmap in Hle. done.
  - intros Hall. assert (Hg : forall k names, (k, names) ∈ bucket_groups leaves -> length names <= 1).
    { intros k names Hin. rewrite (Hn _ _ Hin), length_fmap.
      destruct (filter _ leaves) as [|l ls] eqn:Hf; [cbn; lia|].
      assert (Hl : l ∈ filter (fun l => leaf_key l = k) leaves) by (rewrite Hf; set_solver).
      apply list_elem_of_filter in Hl as [<- Hl]. rewrite <- Hf. by apply Hall. }
    clear -Hg. induction (bucket_groups leaves) as [|[[m v] names] gs IH]; [done|].
    cbn [mbind list_bind]. rewrite (proj2 (Nat.ltb_ge _ _)) by (eapply Hg; by left). apply IH.
    intros. eapply Hg. by right.
Qed.

(** What makes two routes indistinguishable to a request. *)
Definition route_key (e : list Atom * Leaf) : list Atom * (bytes * option bytes) :=
  (fst e, leaf_key (snd e)).

Lemma under_keys a es :
  route_key <$> under a es = (fun k => (a :: fst k, snd k)) <$> (route_key <$> es).
Proof.
  unfold under. rewrite <- !list_fmap_compose. apply list_fmap_ext. by intros ? [? ?].
Qed.

Lemma under_keys_NoDup a es : NoDup (route_key <$> under a es) <-> NoDup (route_key <$> es).
Proof.
  rewrite under_keys. split; [apply NoDup_fmap_1|apply NoDup_fmap_2].
  intros [? ?] [? ?]. cbn. congruence.
Qed.

Lemma elem_of_under_keys a es k :
  k ∈ route_key <$> under a es -> exists tl, fst k = a :: tl.
Proof. rewrite under_keys. intros (k' & -> & _)%list_elem_of_fmap. by eexists. Qed.

Section edges.
Context {K : Type} (edge : K -> Atom) `{!Inj (=) (=) edge}.
Let edge_routes (e : K * Node) : list (list Atom * Leaf) := under (edge (fst e)) (node_routes (snd e)).

Lemma elem_of_edge_keys m k : k ∈ route_key <$> concat (edge_routes <$> m) ->
  exists x tl, x ∈ m.*1 /\ fst k = edge x :: tl.
Proof.
  induction m as [|[x n] m IH]; cbn; [intros []%not_elem_of_nil|].
  rewrite fmap_app, elem_of_app. intros [Hk|Hk].
  - apply elem_of_under_keys in Hk as [tl Hk]. exists x, tl. set_solver.
  - destruct (IH Hk) as (y & tl & ? & ?). exists y, tl. set_solver.
Qed.

Lemma edges_NoDup m : NoDup m.*1 ->
  NoDup (route_key <$> concat (edge_routes <$> m))
  <-> Forall (fun e => NoDup (route_key <$> node_routes (snd e))) m.
Proof.
  induction m as [|[x n] m IH]; [intros _; split; constructor|].
  rewrite !fmap_cons. cbn [concat fst]. intros [Hx Hm]%NoDup_cons. rewrite fmap_app, NoDup_app, IH, Forall_cons by done.
  change (edge_routes (x, n)) with (under (edge x) (node_routes n)). rewrite under_keys_NoDup. cbn [snd]. split; [tauto|].
  intros [Hn Hall]. split_and!; [done| |done]. intros k Hk Hk'.
  apply elem_of_under_keys in Hk as [tl Hk].
  apply elem_of_edge_keys in Hk' as (y & tl' & Hy & Hk'). rewrite Hk in Hk'.
  injection Hk' as Heq _. apply (inj edge) in Heq as ->. done.
Qed.
End edges.

Lemma bucket_keys (a : list Atom) leaves :
  NoDup (route_key <$> ((fun l => (a, l)) <$> leaves)) <-> NoDup (leaf_key <$> leaves).
Proof.
  rewrite <- list_fmap_compose. unfold compose, route_key. cbn.
  rewrite (list_fmap_compose leaf_key (pair a)). split; [apply NoDup_fmap_1|apply NoDup_fmap_2, _].
Qed.

Lemma elem_of_bucket_keys (a : list Atom) (leaves : list Leaf) k :
  k ∈ route_key <$> ((fun l => (a, l)) <$> leaves) -> fst k = a.
Proof. rewrite <- list_fmap_compose. by intros (l & -> & _)%list_elem_of_fmap. Qed.

Lemma single_keys single k :
  k ∈ route_key <$> match single with Some c => under ASingle (node_routes c) | None => [] end ->
  exists tl, fst k = ASingle :: tl.
Proof. destruct single; [apply elem_of_under_keys|intros []%not_elem_of_nil]. Qed.

Lemma concat_nil_edges {A B} (f : A -> list B) (m : list A) :
  concat (f <$> m) = [] <-> Forall (fun e => f e = []) m.
Proof.
  induction m as [|x m IH]; [split; [constructor|done]|]. rewrite fmap_cons, Forall_cons, <- IH.
  cbn. by rewrite app_nil.
Qed.

#[export] Instance ALiteral_inj : Inj (=) (=) ALiteral.
Proof. by intros x y [= ->]. Qed.
#[export] Instance AAffix_inj : Inj (=) (=) (fun k => AAffix (fst k) (snd k)).
Proof. intros [? ?] [? ?] [= -> ->]. done. Qed.

(** The parts of a node's routes start with different edges. *)
Lemma node_keys_NoDup literals affix single exact rest :
  NoDup literals.*1 -> NoDup affix.*1 ->
  NoDup (route_key <$> node_routes (mkNode literals affix single exact rest))
  <-> Forall (fun e => NoDup (route_key <$> node_routes (snd e))) literals
      /\ Forall (fun e => NoDup (route_key <$> node_routes (snd e))) affix
      /\ (forall c, single = Some c -> NoDup (route_key <$> node_routes c))
      /\ NoDup (leaf_key <$> exact) /\ NoDup (leaf_key <$> rest).
Proof.
  intros Hl Ha. cbn [node_routes]. rewrite !fmap_app, !NoDup_app, !bucket_keys.
  rewrite (edges_NoDup ALiteral literals Hl).
  rewrite (edges_NoDup (fun k => AAffix (fst k) (snd k)) affix Ha).
  assert (Hs : NoDup (route_key <$> match single with Some c => under ASingle (node_routes c)
                                    | None => [] end)
    <-> (forall c, single = Some c -> NoDup (route_key <$> node_routes c))).
  { destruct single as [c|]; [rewrite under_keys_NoDup|]; split; try done; [by intros ? ? [= <-]|auto|].
    intros _. constructor. }
  rewrite Hs. split; [tauto|]. intros (H1 & H2 & H3 & H4 & H5). clear Hs.
  pose proof (elem_of_edge_keys ALiteral literals) as HL.
  pose proof (elem_of_edge_keys (fun k => AAffix (fst k) (snd k)) affix) as HA.
  pose proof (single_keys single) as HS.
  pose proof (elem_of_bucket_keys [] exact) as HE.
  pose proof (elem_of_bucket_keys [ARest] rest) as HR.
  split_and!; try done; intros x Hx Hy; repeat (apply elem_of_app in Hy as [Hy|Hy]);
    first [apply HL in Hx as (? & ? & _ & Hx) | apply HA in Hx as (? & ? & _ & Hx)
          | apply HS in Hx as (? & Hx) | apply HE in Hx | apply HR in Hx];
    first [apply HL in Hy as (? & ? & _ & Hy) | apply HA in Hy as (? & ? & _ & Hy)
          | apply HS in Hy as (? & Hy) | apply HE in Hy | apply HR in Hy]; congruence.
Qed.

(** No conflict is reported exactly when no two routes are indistinguishable. *)
Lemma node_conflicts_nil b n : node_ok b n -> forall prefix,
  node_conflicts prefix n = [] <-> NoDup (route_key <$> node_routes n).
Proof.
  induction n as [literals affix single exact rest IHl IHa IHs] using Node_ind'.
  intros Hok. inversion_clear Hok as [? ? ? ? ? H1 H2 H3 H4 H5 H6 H7]. intros prefix.
  rewrite node_keys_NoDup by by apply btree_sorted_NoDup.
  cbn [node_conflicts]. rewrite !app_nil, !bucket_conflicts_nil.
  rewrite (concat_nil_edges _ literals), (concat_nil_edges _ affix).
  assert (Hs : match single with Some c => node_conflicts (prefix ++ str "/*") c | None => [] end = []
    <-> forall c, single = Some c -> NoDup (route_key <$> node_routes c)).
  { destruct single as [c|]; [|done]. rewrite IHs by auto. naive_solver. }
  assert (Hl : Forall (fun e => node_conflicts (prefix ++ c_slash :: fst e) (snd e) = []) literals
    <-> Forall (fun e => NoDup (route_key <$> node_routes (snd e))) literals).
  { rewrite !Forall_forall in *. split; intros H e He; by eapply IHl; eauto. }
  assert (Ha : Forall (fun e => node_conflicts
      (prefix ++ c_slash :: fst (fst e) ++ [c_lbrace; c_rbrace] ++ snd (fst e)) (snd e) = []) affix
    <-> Forall (fun e => NoDup (route_key <$> node_routes (snd e))) affix).
  { rewrite !Forall_forall in *. split; intros H e He; by eapply IHa; eauto. }
  rewrite Hs, Hl, Ha. tauto.
Qed.

(** ** Main results *)

(** A template registered as route [i]. *)
Definition demo_template (s : string) : PathTemplate :=
  match parse (str s) (with_segment_affixes Grammar_default) with
  | Ok t => t
  | _ => mkTemplate [] None
  end.

(** The [unicode_ident] tables restricted to ASCII, for the concrete examples. *)
Definition ascii_ident : UnicodeIdent :=
  {| is_xid_start := is_ascii_alphabetic;
     is_xid_continue := fun c => is_ascii_alphanumeric c || (c =? c_under)%Z |}.

(** C4. Building the trie of a route set never panics (the stored patterns re-parse,
    no length underflows), and the trie holds exactly the registered routes: each
    template's flattened atoms with its leaf, nothing lost, merged or added.  The
    scratch size is the depth of the deepest route, and verbs are split exactly
    when some route has one. *)
Theorem build_trie_registers (U : UnicodeIdent) regs :
  Forall (fun reg => template_wf (snd reg)) regs ->
  exists t, build_trie (register <$> regs) = Ok t
    /\ node_routes (t_root t) ≡ₚ registered regs
    /\ max_segments t = depth_of (registered regs)
    /\ any_verb t = existsb (fun reg => bool_decide (is_Some (verb (snd reg)))) regs.
Proof. intros Hwf. destruct (build_trie_spec regs Hwf) as (t & ? & _ & ?). eauto. Qed.

Lemma demo_template_wf s : template_wf (demo_template s).
Proof.
  unfold demo_template. pose proof (parse_spec (str s) (with_segment_affixes Grammar_default)) as H.
  destruct (parse _ _); [done|by repeat split; constructor..].
Qed.

Definition demo_regs : list (bytes * bytes * PathTemplate) :=
  [(str "GetBook", str "GET", demo_template "/v1/{name=shelves/*/books/*}");
   (str "ListFiles", str "GET", demo_template "/v1/files/img-{id}.png");
   (str "Publish", str "POST", demo_template "/v1/{rest=**}:publish")].

Lemma demo_regs_wf : Forall (fun reg => template_wf (snd reg)) demo_regs.
Proof. repeat (apply Forall_cons_2; [apply demo_template_wf|]). apply Forall_nil_2. Qed.

Lemma build_trie_registers_witness :
  exists t, @build_trie ascii_ident (register <$> demo_regs) = Ok t
    /\ node_routes (t_root t) ≡ₚ @registered ascii_ident demo_regs
    /\ max_segments t = depth_of (@registered ascii_ident demo_regs)
    /\ any_verb t = existsb (fun reg => bool_decide (is_Some (verb (snd reg)))) demo_regs.
Proof. apply (build_trie_registers ascii_ident demo_regs), demo_regs_wf. Defined.

(** C5. The explicit-stack traversal of [conflicts] terminates and reports no
    conflict exactly when no two registered routes share their flattened path,
    method and verb; so a route set that passes the check has no unreachable
    duplicate. *)
Theorem conflicts_iff_ambiguous (U : UnicodeIdent) regs :
  Forall (fun reg => template_wf (snd reg)) regs ->
  exists t msgs, build_trie (register <$> regs) = Ok t /\ conflicts (t_root t) = Ok msgs
    /\ (msgs = [] <-> NoDup (route_key <$> registered regs)).
Proof.
  intros Hwf. destruct (build_trie_spec regs Hwf) as (t & Hb & Hok & Hr & _).
  exists t, (node_conflicts [] (t_root t)). split; [done|]. split; [apply conflicts_ref|].
  rewrite (node_conflicts_nil _ _ Hok). by rewrite Hr.
Qed.

Lemma conflicts_iff_ambiguous_witness :
  exists t msgs, @build_trie ascii_ident (register <$> demo_regs) = Ok t
    /\ conflicts (t_root t) = Ok msgs
    /\ (msgs = [] <-> NoDup (route_key <$> @registered ascii_ident demo_regs)).
Proof. apply (conflicts_iff_ambiguous ascii_ident demo_regs), demo_regs_wf. Defined.

Lemma utf8_chars_ascii bs : forallb (in_range 0 127) bs = true -> utf8_chars bs = Some bs.
Proof.
  induction bs as [|b bs IH]; [done|]. cbn [forallb utf8_chars]. intros [-> H]%andb_true_iff.
  by rewrite IH.
Qed.

Lemma sanitize_chars joined :
  forallb (fun c => is_ascii_alphanumeric c || (c =? c_under)%Z) (sanitize joined) = true.
Proof.
  unfold sanitize. destruct (utf8_chars joined) as [cs|]; [|done].
  induction cs as [|c cs IH]; [done|]. cbn [fmap list_fmap forallb]. rewrite IH, andb_true_r.
  destruct (c =? c_under)%Z eqn:Hu; cbn; [by rewrite Hu, orb_true_r|].
  destruct (is_ascii_alphanumeric c) eqn:Ha; [by rewrite Ha|done].
Qed.

Lemma word_char_ascii c : is_ascii_alphanumeric c || (c =? c_under)%Z = true -> in_range 0 127 c = true.
Proof.
  unfold is_ascii_alphanumeric, is_ascii_alphabetic, is_ascii_digit, in_range.
  rewrite !orb_true_iff, !andb_true_iff, !Z.leb_le, Z.eqb_eq. lia.
Qed.

Lemma not_reserved_f s : existsb (bytes_eqb (str "_f_" ++ s)) reserved_words = false.
Proof.
  assert (H : forallb (fun w => negb (bytes_eqb (take 3 w) (str "_f_"))) reserved_words = true)
    by (vm_compute; reflexivity).
  induction reserved_words as [|w ws IH]; [done|]. cbn [forallb existsb] in *.
  apply andb_true_iff in H as [Hw Hws]. rewrite (IH Hws), orb_false_r.
  apply bytes_eqb_neq. intros <-. apply negb_true_iff, bytes_eqb_neq in Hw. by apply Hw.
Qed.

(** Every generated field name is usable as an identifier: for any variable
    name, dotted, keyword or not ASCII, [route_field_name] yields a text that
    [is_valid_variant] accepts, given that the [unicode_ident] table lets ASCII
    word characters continue an identifier. *)
Theorem route_field_name_valid (U : UnicodeIdent) name :
  (forall c, is_ascii_alphanumeric c || (c =? c_under)%Z = true -> is_xid_continue c = true) ->
  is_valid_variant (route_field_name name) = true.
Proof.
  intros Hxid. unfold route_field_name, field_name.
  destruct (is_valid_variant (replace_dots name)) eqn:Hv; [done|].
  pose proof (sanitize_chars (replace_dots name)) as Hs.
  set (s := sanitize (replace_dots name)) in *. unfold is_valid_variant.
  rewrite utf8_chars_ascii.
  - rewrite not_reserved_f. change (str "_f_") with [c_under; 102%Z; c_under].
    cbn [app forallb]. rewrite (Hxid 102%Z), (Hxid c_under) by done. cbn.
    rewrite (proj2 (forallb_forall _ s)); [done|]. intros c Hc. apply Hxid.
    rewrite forallb_forall in Hs. by apply Hs.
  - rewrite forallb_app. apply forallb_forall. intros c Hc. apply word_char_ascii.
    rewrite forallb_forall in Hs. by apply Hs.
Qed.

Lemma route_field_name_valid_witness :
  @is_valid_variant ascii_ident (@route_field_name ascii_ident (str "type")) = true.
Proof. apply (route_field_name_valid ascii_ident (str "type")). intros c Hc. exact Hc. Defined.
