(* ===== verification/RtTrie.v ===== *)
(** * routerama: the runtime trie

    Models [src/crates/routerama/src/rt_node.rs] (with [literal_edge.rs] and
    [affix_edge.rs]): the build-time trie is flattened breadth-first into an array
    of nodes with child indices, the literal edges are ordered by the number of
    routes below them, and the runtime nodes are assembled from the last index to
    the first.  The result is proved equal to a recursive translation. *)

From S2P Require Import Prelude Collections PathTemplate Trie.

(** ** Data *)

Inductive RtNode : Type := mkRt {
  rt_literals : list (bytes * RtNode);
  rt_affix : list (bytes * bytes * RtNode);
  rt_single : option RtNode;
  rt_exact : list Leaf;
  rt_rest : list Leaf }.

Record FlatNode : Type := mkFlat {
  f_literals : list (bytes * nat);
  f_affix : list (bytes * bytes * nat);
  f_single : option nat;
  f_exact : list Leaf;
  f_rest : list Leaf }.

(** [v[i].take().expect(..)]. *)
Definition take_at {A} (v : list (option A)) (i : nat) : outcome unit (A * list (option A)) :=
  match v !! i with
  | Some (Some x) => Ok (x, <[i := None]> v)
  | _ => Panic
  end.

(** ** Flattening *)

(** [.map(|(key, child)| { source.push(Some(child)); (key, child_index) })]. *)
Fixpoint queue_children {K} (edges : list (K * Node)) (source : list (option Node))
    : list (K * nat) * list (option Node) :=
  match edges with
  | [] => ([], source)
  | (key, child) :: tl =>
      let child_index := length source in
      let '(rest, source) := queue_children tl (source ++ [Some child]) in
      ((key, child_index) :: rest, source)
  end.

(** [BTreeMap::remove]. *)
Fixpoint btree_remove {K V} `{EqDecision K} (k : K) (m : list (K * V)) : option (V * list (K * V)) :=
  match m with
  | [] => None
  | (k', v) :: tl =>
      if decide (k = k') then Some (v, tl)
      else match btree_remove k tl with
           | Some (w, tl') => Some (w, (k', v) :: tl')
           | None => None
           end
  end.

Fixpoint queue_affix (order : list (bytes * bytes)) (affix : list (bytes * bytes * Node))
    (source : list (option Node)) : outcome unit (list (bytes * bytes * nat) * list (option Node)) :=
  match order with
  | [] => Ok ([], source)
  | key :: tl =>
      match btree_remove key affix with
      | None => Panic
      | Some (child, affix) =>
          let child_index := length source in
          let? (rest, source) := queue_affix tl affix (source ++ [Some child]) in
          Ok ((key, child_index) :: rest, source)
      end
  end.

Definition flatten_node (node : Node) (source : list (option Node))
    : outcome unit (FlatNode * list (option Node)) :=
  let affix_order := fst <$> affix_edges_in_match_order node in
  let '(literals, source) := queue_children (n_literals node) source in
  let? (affix, source) := queue_affix affix_order (n_affix node) source in
  let '(single, source) :=
    match n_single node with
    | Some child => (Some (length source), source ++ [Some child])
    | None => (None, source)
    end in
  Ok (mkFlat literals affix single (n_exact node) (n_rest node), source).

(** [while index < source.len()]. *)
Fixpoint flatten_nodes (fuel : nat) (source : list (option Node)) (flat : list FlatNode)
    (index : nat) : outcome unit (list FlatNode) :=
  if negb (index <? length source) then Ok flat
  else
    match fuel with
    | O => Panic
    | S fuel' =>
        let? (node, source) := take_at source index in
        let? (f, source) := flatten_node node source in
        flatten_nodes fuel' source (flat ++ [f]) (S index)
    end.

(** ** Ordering literals by weight *)

Definition index_at {A} (v : list A) (i : nat) : outcome unit A :=
  match v !! i with Some x => Ok x | None => Panic end.

(** [.map(|(_, child)| weights[*child]).sum()]. *)
Fixpoint sum_weights {K} (weights : list nat) (edges : list (K * nat)) : outcome unit nat :=
  match edges with
  | [] => Ok 0
  | (_, child) :: tl =>
      let? w := index_at weights child in
      let? s := sum_weights weights tl in Ok (w + s)
  end.

Definition node_weight (weights : list nat) (node : FlatNode) : outcome unit nat :=
  let? l := sum_weights weights (f_literals node) in
  let? a := sum_weights weights (f_affix node) in
  let? s := match f_single node with Some child => index_at weights child | None => Ok 0 end in
  Ok (length (f_exact node) + length (f_rest node) + l + a + s).

(** [for index in (0..nodes.len()).rev()]: [k] indices remain. *)
Fixpoint node_weights_loop (nodes : list FlatNode) (k : nat) (weights : list nat)
    : outcome unit (list nat) :=
  match k with
  | O => Ok weights
  | S index =>
      let? node := index_at nodes index in
      let? w := node_weight weights node in
      node_weights_loop nodes index (<[index := w]> weights)
  end.

Definition node_weights (nodes : list FlatNode) : outcome unit (list nat) :=
  node_weights_loop nodes (length nodes) (replicate (length nodes) 0).

(** The literal edges with the key they are sorted by. *)
Fixpoint with_weights (weights : list nat) (edges : list (bytes * nat))
    : outcome unit (list (nat * (bytes * nat))) :=
  match edges with
  | [] => Ok []
  | (key, child) :: tl =>
      let? w := index_at weights child in
      let? rest := with_weights weights tl in
      Ok ((w, (key, child)) :: rest)
  end.

(** [sort_by_key(|(_, child)| Reverse(weights[*child]))]. *)
Definition order_literals (weights : list nat) (node : FlatNode) : outcome unit FlatNode :=
  let? ls := with_weights weights (f_literals node) in
  Ok (mkFlat (snd <$> sort_by (fun x y => cmp (fst y) (fst x)) ls)
        (f_affix node) (f_single node) (f_exact node) (f_rest node)).

Fixpoint order_all (weights : list nat) (nodes : list FlatNode) : outcome unit (list FlatNode) :=
  match nodes with
  | [] => Ok []
  | node :: tl =>
      let? f := order_literals weights node in
      let? fs := order_all weights tl in
      Ok (f :: fs)
  end.

Definition order_literals_by_weight (nodes : list FlatNode) : outcome unit (list FlatNode) :=
  let? weights := node_weights nodes in order_all weights nodes.

(** ** Assembling *)

(** [.map(|(key, child)| (key, built[child].take().expect(..)))]. *)
Fixpoint take_children {K} (edges : list (K * nat)) (built : list (option RtNode))
    : outcome unit (list (K * RtNode) * list (option RtNode)) :=
  match edges with
  | [] => Ok ([], built)
  | (key, child) :: tl =>
      let? (node, built) := take_at built child in
      let? (rest, built) := take_children tl built in
      Ok ((key, node) :: rest, built)
  end.

Definition assemble (node : FlatNode) (built : list (option RtNode))
    : outcome unit (RtNode * list (option RtNode)) :=
  let? (literals, built) := take_children (f_literals node) built in
  let? (affix, built) := take_children (f_affix node) built in
  let? (single, built) :=
    match f_single node with
    | Some child => let? (n, built) := take_at built child in Ok (Some n, built)
    | None => Ok (None, built)
    end in
  Ok (mkRt literals affix single (f_exact node) (f_rest node), built).

(** [for (index, node) in flat.into_iter().enumerate().rev()]. *)
Fixpoint assemble_loop (flat : list FlatNode) (k : nat) (built : list (option RtNode))
    : outcome unit (list (option RtNode)) :=
  match k with
  | O => Ok built
  | S index =>
      let? node := index_at flat index in
      let? (n, built) := assemble node built in
      assemble_loop flat index (<[index := Some n]> built)
  end.

(** Every node of the trie is queued once, so its size bounds the rounds. *)
Definition compile (node : Node) : outcome unit RtNode :=
  let? flat := flatten_nodes (node_size node) [Some node] [] 0 in
  let? flat := order_literals_by_weight flat in
  let? built := assemble_loop flat (length flat) (replicate (length flat) None) in
  let? (root, _) := take_at built 0 in
  Ok root.

(** [discard_source]: pops nodes and pushes their children until none is left. *)
Definition node_children (n : Node) : list Node :=
  (snd <$> n_literals n) ++ (snd <$> n_affix n)
  ++ match n_single n with Some c => [c] | None => [] end.

(** The top of the [Vec] stack is the end of the list. *)
Fixpoint discard_source_loop (fuel : nat) (pending : list Node) : outcome unit unit :=
  match last pending with
  | None => Ok tt
  | Some node =>
      match fuel with
      | O => Panic
      | S fuel' => discard_source_loop fuel' (removelast pending ++ node_children node)
      end
  end.

Definition discard_source (node : Node) : outcome unit unit :=
  discard_source_loop (node_size node) [node].

(** ** The recursive translation *)

(** The routes below a node. *)
Fixpoint leaf_count (n : Node) : nat :=
  match n with
  | mkNode literals affix single exact rest =>
      length exact + length rest
      + list_sum ((fun e => leaf_count (snd e)) <$> literals)
      + list_sum ((fun e => leaf_count (snd e)) <$> affix)
      + match single with Some c => leaf_count c | None => 0 end
  end.

Definition by_weight {A} (x y : nat * A) : comparison := cmp (fst y) (fst x).

Fixpoint compile_ref (n : Node) : RtNode :=
  match n with
  | mkNode literals affix single exact rest =>
      mkRt (snd <$> sort_by by_weight
              ((fun e => (leaf_count (snd e), (fst e, compile_ref (snd e)))) <$> literals))
        (sort_by (fun x y => affix_cmp (fst x) (fst y))
           ((fun e => (fst e, compile_ref (snd e))) <$> affix))
        (match single with Some c => Some (compile_ref c) | None => None end)
        exact rest
  end.

(** The children of a node in the order they are queued. *)
Definition opt_list {A} (o : option A) : list A := match o with Some x => [x] | None => [] end.

Definition kids (n : Node) : list Node :=
  (snd <$> n_literals n) ++ (snd <$> affix_edges_in_match_order n) ++ opt_list (n_single n).

(** Consecutive indices for the edges of a node. *)
Fixpoint number {K V} (first : nat) (edges : list (K * V)) : list (K * nat) :=
  match edges with
  | [] => []
  | (k, _) :: tl => (k, first) :: number (S first) tl
  end.

Definition flat_of (n : Node) (first : nat) : FlatNode :=
  let a := first + length (n_literals n) in
  let s := a + length (n_affix n) in
  mkFlat (number first (n_literals n)) (number a (affix_edges_in_match_order n))
    (match n_single n with Some _ => Some s | None => None end) (n_exact n) (n_rest n).

Lemma length_number {K V} first (es : list (K * V)) : length (number first es) = length es.
Proof. revert first; induction es as [|[k v] es IH]; intros first; cbn; auto. Qed.

Lemma number_indices {K V} first (es : list (K * V)) : snd <$> number first es = seq first (length es).
Proof. revert first; induction es as [|[k v] es IH]; intros first; cbn; by rewrite ?IH. Qed.

Lemma number_map {K V W} first (es : list (K * V)) (v : nat -> W) (g : V -> W) :
  (forall j e, es !! j = Some e -> v (first + j) = g (snd e)) ->
  (fun e => (fst e, v (snd e))) <$> number first es = (fun e => (fst e, g (snd e))) <$> es.
Proof.
  revert first; induction es as [|[k x] es IH]; intros first H; [done|]. cbn. f_equal.
  - f_equal. specialize (H 0 (k, x) eq_refl). by rewrite Nat.add_0_r in H.
  - apply IH. intros j e Hj. specialize (H (S j) e Hj). by rewrite Nat.add_succ_r in H.
Qed.

Lemma queue_children_spec {K} (es : list (K * Node)) source :
  queue_children es source = (number (length source) es, source ++ (Some <$> (snd <$> es))).
Proof.
  revert source; induction es as [|[k n] es IH]; intros source; cbn; [by rewrite app_nil_r|].
  rewrite IH, length_app. cbn. by rewrite Nat.add_1_r, <- app_assoc.
Qed.

Lemma btree_remove_spec {K V} `{EqDecision K} (k : K) (v : V) m :
  (k, v) ∈ m -> NoDup m.*1 -> exists m', btree_remove k m = Some (v, m') /\ m ≡ₚ (k, v) :: m'.
Proof.
  induction m as [|[k' w] m IH]; [intros []%not_elem_of_nil|].
  intros Hin [Hk' Hnd]%NoDup_cons. cbn. case_decide as Heq.
  - subst k'. apply elem_of_cons in Hin as [[= ->]|Hin]; [by exists m|].
    exfalso. apply Hk'. apply (list_elem_of_fmap_2 fst) in Hin. done.
  - apply elem_of_cons in Hin as [[= -> ->]|Hin]; [done|].
    destruct (IH Hin Hnd) as (m' & -> & Hp). eexists; split; [done|].
    by rewrite Hp, perm_swap.
Qed.

Lemma queue_affix_spec es m source :
  es ≡ₚ m -> NoDup m.*1 ->
  queue_affix (fst <$> es) m source
  = Ok (number (length source) es, source ++ (Some <$> (snd <$> es))).
Proof.
  revert m source; induction es as [|[k n] es IH]; intros m source Hp Hnd; cbn;
    [by rewrite app_nil_r|].
  destruct (btree_remove_spec k n m) as (m' & -> & Hm); [rewrite <- Hp; by left|done|].
  rewrite Hm in Hp, Hnd. apply Permutation_cons_inv in Hp.
  rewrite IH; [|done|by apply NoDup_cons in Hnd as [_ ?]].
  by rewrite length_app, Nat.add_1_r, <- app_assoc.
Qed.

Lemma affix_order_perm n : affix_edges_in_match_order n ≡ₚ n_affix n.
Proof. apply sort_by_perm. Qed.

Lemma flatten_node_spec b n source : node_ok b n ->
  flatten_node n source = Ok (flat_of n (length source), source ++ (Some <$> kids n)).
Proof.
  intros Hok. unfold flatten_node. rewrite queue_children_spec.
  rewrite queue_affix_spec; [|apply affix_order_perm|].
  2: { destruct Hok. by apply btree_sorted_NoDup. }
  unfold flat_of, kids. rewrite !length_app, !length_fmap, (Permutation_length (affix_order_perm n)).
  destruct (n_single n); by rewrite !fmap_app, ?app_nil_r, <- !app_assoc.
Qed.

(** The array the flattening produces for the nodes queued from index [i] on. *)
Inductive flattened : nat -> list Node -> list FlatNode -> Prop :=
| flattened_nil i : flattened i [] []
| flattened_cons i n q fs :
    flattened (S i) (q ++ kids n) fs ->
    flattened i (n :: q) (flat_of n (i + S (length q)) :: fs).

Definition total_size (q : list Node) : nat := list_sum (node_size <$> q).

Lemma total_size_app q r : total_size (q ++ r) = total_size q + total_size r.
Proof. unfold total_size. by rewrite fmap_app, list_sum_app. Qed.

Lemma total_size_cons n q : total_size (n :: q) = node_size n + total_size q.
Proof. done. Qed.

Lemma list_sum_perm (x y : list nat) : x ≡ₚ y -> list_sum x = list_sum y.
Proof. induction 1; unfold list_sum in *; cbn in *; lia. Qed.

Lemma kids_perm n :
  kids n ≡ₚ (snd <$> n_literals n) ++ (snd <$> n_affix n) ++ opt_list (n_single n).
Proof. unfold kids. by rewrite affix_order_perm. Qed.

Lemma node_size_kids n : node_size n = S (total_size (kids n)).
Proof.
  unfold total_size. rewrite (list_sum_perm _ _ (fmap_Permutation _ _ _ (kids_perm n))).
  rewrite !fmap_app, !list_sum_app, <- !list_fmap_compose.
  destruct n as [literals affix [c|] exact rest];
    cbn [node_size n_literals n_affix n_single opt_list]; unfold compose.
  - change (list_sum (node_size <$> [c])) with (node_size c + 0). lia.
  - change (list_sum (node_size <$> [])) with 0. lia.
Qed.

Lemma node_ok_kids b n : node_ok b n -> Forall (node_ok b) (kids n).
Proof.
  intros Hok. rewrite kids_perm. destruct Hok as [literals affix single exact rest ? ? Hl Ha Hs ? ?].
  cbn. rewrite !Forall_app, !Forall_fmap. split_and!; [done..|].
  destruct single; cbn; [|constructor]. constructor; [by apply Hs|constructor].
Qed.

Lemma flatten_nodes_spec b fuel q flat i :
  total_size q <= fuel -> Forall (node_ok b) q ->
  exists fs, flatten_nodes fuel (replicate i None ++ (Some <$> q)) flat i = Ok (flat ++ fs)
    /\ flattened i q fs.
Proof.
  revert q flat i; induction fuel as [|fuel IH]; intros q flat i Hf Hok.
  - destruct q as [|n q]; [|destruct n; cbn in Hf; lia].
    exists []. cbn [flatten_nodes fmap list_fmap].
    rewrite app_nil_r, length_replicate, Nat.ltb_irrefl.
    rewrite app_nil_r. split; [done|constructor].
  - cbn [flatten_nodes]. destruct q as [|n q].
    + exists []. cbn [fmap list_fmap]. rewrite app_nil_r, length_replicate, Nat.ltb_irrefl.
      rewrite app_nil_r. split; [done|constructor].
    + rewrite (proj2 (Nat.ltb_lt _ _)) by (rewrite length_app, length_replicate; cbn; lia).
      apply Forall_cons in Hok as [Hn Hq].
      unfold take_at. rewrite lookup_app_r by (by rewrite length_replicate).
      rewrite length_replicate, Nat.sub_diag. cbn [fmap list_fmap lookup list_lookup negb].
      replace (<[i:=None]> (replicate i None ++ Some n :: (Some <$> q)))
        with (replicate (S i) None ++ (Some <$> q)).
      2: { rewrite insert_app_r_alt by (rewrite length_replicate; lia).
           by rewrite length_replicate, Nat.sub_diag, replicate_S_end, <- app_assoc. }
      rewrite (flatten_node_spec b) by done. rewrite <- app_assoc, <- fmap_app.
      destruct (IH (q ++ kids n) (flat ++ [flat_of n (i + S (length q))]) (S i))
        as (fs & Hfs & Hfl).
      * rewrite total_size_app. rewrite total_size_cons, node_size_kids in Hf. lia.
      * apply Forall_app. split; [done|by apply node_ok_kids].
      * rewrite length_app, length_replicate, length_fmap.
        replace (S i + length q) with (i + S (length q)) by lia. rewrite Hfs.
        eexists. split; [by rewrite <- app_assoc|]. by constructor.
Qed.

(** *** Weights *)

Lemma index_at_middle {A} (l : list A) x r : index_at (l ++ x :: r) (length l) = Ok x.
Proof. unfold index_at. by rewrite list_lookup_middle. Qed.

Lemma sum_weights_number {K} (es : list (K * Node)) A B :
  sum_weights (A ++ (leaf_count <$> (snd <$> es)) ++ B) (number (length A) es)
  = Ok (list_sum ((fun e => leaf_count (snd e)) <$> es)).
Proof.
  revert A; induction es as [|[k n] es IH]; intros A; [done|]. cbn [number fmap list_fmap snd app].
  cbn [sum_weights]. rewrite index_at_middle, (cons_middle _ A), app_assoc.
  replace (S (length A)) with (length (A ++ [leaf_count n])) by (rewrite length_app; cbn; lia).
  by rewrite IH.
Qed.

Lemma with_weights_number (es : list (bytes * Node)) A B :
  with_weights (A ++ (leaf_count <$> (snd <$> es)) ++ B) (number (length A) es)
  = Ok (zip (leaf_count <$> (snd <$> es)) (number (length A) es)).
Proof.
  revert A; induction es as [|[k n] es IH]; intros A; [done|]. cbn [number fmap list_fmap snd app].
  cbn [with_weights]. rewrite index_at_middle, (cons_middle _ A), app_assoc.
  replace (S (length A)) with (length (A ++ [leaf_count n])) by (rewrite length_app; cbn; lia).
  by rewrite IH.
Qed.

Section weights.
Context (n : Node) (A B : list nat).
Let weights : list nat := A ++ (leaf_count <$> kids n) ++ B.

Lemma node_weight_flat : node_weight weights (flat_of n (length A)) = Ok (leaf_count n).
Proof.
  unfold weights, kids, node_weight, flat_of. cbn [f_literals f_affix f_single f_exact f_rest].
  rewrite !fmap_app, <- !app_assoc, sum_weights_number.
  rewrite (app_assoc A).
  replace (length A + length (n_literals n))
    with (length (A ++ (leaf_count <$> (snd <$> n_literals n))))
    by (by rewrite length_app, !length_fmap).
  rewrite sum_weights_number.
  assert (Hs : match (match n_single n with
      | Some _ => Some (length (A ++ (leaf_count <$> (snd <$> n_literals n))) + length (n_affix n))
      | None => None end) with
      | Some child => index_at ((A ++ (leaf_count <$> (snd <$> n_literals n)))
          ++ (leaf_count <$> (snd <$> affix_edges_in_match_order n))
          ++ (leaf_count <$> opt_list (n_single n)) ++ B) child
      | None => Ok 0 end = Ok (match n_single n with Some c => leaf_count c | None => 0 end)).
  { destruct (n_single n) as [c|]; [|done]. rewrite app_assoc. cbn [opt_list fmap list_fmap app].
    rewrite <- (Permutation_length (affix_order_perm n)).
    replace (length (A ++ _) + _) with (length ((A ++ (leaf_count <$> (snd <$> n_literals n)))
      ++ (leaf_count <$> (snd <$> affix_edges_in_match_order n))))
      by (by rewrite (length_app (A ++ _)), !length_fmap).
    apply index_at_middle. }
  rewrite Hs. f_equal.
  rewrite (list_sum_perm _ _ (fmap_Permutation (fun e => leaf_count (snd e)) _ _ (affix_order_perm n))).
  destruct n as [ls afs sg ex rs]. cbn [leaf_count n_literals n_affix n_single n_exact n_rest]. lia.
Qed.

(** A flat node with its literals ordered. *)
Definition ordered_flat (m : Node) (first : nat) : FlatNode :=
  let f := flat_of m first in
  mkFlat (snd <$> sort_by by_weight
            (zip (leaf_count <$> (snd <$> n_literals m)) (number first (n_literals m))))
    (f_affix f) (f_single f) (f_exact f) (f_rest f).

Lemma order_literals_flat :
  order_literals weights (flat_of n (length A)) = Ok (ordered_flat n (length A)).
Proof.
  unfold order_literals, weights, kids. cbn [f_literals flat_of].
  by rewrite fmap_app, <- app_assoc, with_weights_number.
Qed.
End weights.

Inductive ordered : nat -> list Node -> list FlatNode -> Prop :=
| ordered_nil i : ordered i [] []
| ordered_cons i n q fs :
    ordered (S i) (q ++ kids n) fs ->
    ordered i (n :: q) (ordered_flat n (i + S (length q)) :: fs).

Lemma insert_middle {A} (l : list A) x y r : <[length l := y]> (l ++ x :: r) = l ++ y :: r.
Proof. by rewrite insert_app_r_alt, Nat.sub_diag. Qed.

Lemma flattened_weights i q fs : flattened i q fs ->
  exists R fs',
    (forall pre, length pre = i ->
      node_weights_loop (pre ++ fs) (i + length fs) (replicate (i + length fs) 0)
      = node_weights_loop (pre ++ fs) i (replicate i 0 ++ (leaf_count <$> q) ++ R))
    /\ (forall A, length A = i -> order_all (A ++ (leaf_count <$> q) ++ R) fs = Ok fs')
    /\ ordered i q fs' /\ length fs' = length fs.
Proof.
  induction 1 as [i|i n q fs Hfl (R & fs' & Hw & Ho & Hord & Hlen)].
  { exists [], []. cbn. rewrite Nat.add_0_r. split; [by rewrite app_nil_r|].
    split; [done|]. split; [constructor|done]. }
  exists ((leaf_count <$> kids n) ++ R), (ordered_flat n (i + S (length q)) :: fs').
  split; [|split; [|split; [by constructor|cbn; by f_equal]]].
  - intros pre Hpre. specialize (Hw (pre ++ [flat_of n (i + S (length q))])).
    rewrite <- app_assoc in Hw. cbn [app length] in Hw |- *.
    rewrite (Nat.add_succ_r i (length fs)). rewrite (Nat.add_succ_l i (length fs)) in Hw.
    rewrite Hw by (rewrite length_app; cbn; lia). clear Hw.
    cbn [node_weights_loop].
    assert (index_at (pre ++ flat_of n (i + S (length q)) :: fs) i = Ok (flat_of n (i + S (length q))))
      as -> by (rewrite <- Hpre; apply index_at_middle).
    rewrite fmap_app, <- app_assoc, (app_assoc (replicate (S i) 0)).
    replace (i + S (length q)) with (length (replicate (S i) 0 ++ (leaf_count <$> q)))
      by (rewrite length_app, length_replicate, length_fmap; lia).
    rewrite node_weight_flat. f_equal. rewrite replicate_S_end, <- !app_assoc. cbn [app].
    pose proof (insert_middle (replicate i 0) 0 (leaf_count n)) as Hins.
    rewrite length_replicate in Hins. by rewrite Hins.
  - intros A HA. cbn [order_all fmap list_fmap app].
    rewrite (cons_middle _ A), (app_assoc A), (app_assoc (A ++ [leaf_count n])).
    rewrite <- (app_nil_r (_ ++ R)).
    replace (i + S (length q)) with (length ((A ++ [leaf_count n]) ++ (leaf_count <$> q)))
      by (rewrite !length_app, length_fmap; cbn; lia).
    rewrite app_nil_r, order_literals_flat.
    rewrite <- app_assoc, (app_assoc (leaf_count <$> q)), <- fmap_app, Ho; [done|].
    rewrite length_app. cbn. lia.
Qed.

Lemma order_literals_by_weight_spec i fs n : flattened 0 [n] fs -> i = length fs ->
  exists fs', order_literals_by_weight fs = Ok fs' /\ ordered 0 [n] fs' /\ length fs' = i.
Proof.
  intros Hfl ->. destruct (flattened_weights _ _ _ Hfl) as (R & fs' & Hw & Ho & Hord & Hlen).
  exists fs'. split; [|done]. unfold order_literals_by_weight, node_weights.
  pose proof (Hw [] eq_refl) as Hw'. cbn [app Nat.add] in Hw'. rewrite Hw'.
  cbn [node_weights_loop]. by apply (Ho []).
Qed.

(** *** Assembling *)

(** The nodes at distinct indices are taken, in whatever order, and leave holes. *)
Lemma take_children_spec {K} (edges : list (K * nat)) built (v : nat -> RtNode) :
  NoDup (snd <$> edges) ->
  (forall i, i ∈ snd <$> edges -> built !! i = Some (Some (v i))) ->
  exists built', take_children edges built = Ok ((fun e => (fst e, v (snd e))) <$> edges, built')
    /\ forall j, built' !! j = if decide (j ∈ snd <$> edges) then Some None else built !! j.
Proof.
  revert built; induction edges as [|[k i] edges IH]; intros built Hnd Hv.
  { exists built. split; [done|]. intros j. rewrite decide_False; [done|apply not_elem_of_nil]. }
  cbn in Hnd. apply NoDup_cons in Hnd as [Hi Hnd]. cbn [take_children]. unfold take_at.
  rewrite (Hv i) by (cbn; by left).
  destruct (IH (<[i := None]> built) Hnd) as (built' & Hb & Hl).
  { intros j Hj. rewrite list_lookup_insert_ne by (intros ->; done). apply Hv. cbn. by right. }
  exists built'. rewrite Hb. split; [done|]. intros j. rewrite Hl. cbn [fmap list_fmap snd].
  destruct (decide (j ∈ snd <$> edges)) as [Hj|Hj]; [by rewrite decide_True by by right|].
  destruct (decide (j = i)) as [->|Hne].
  - rewrite decide_True by by left. apply list_lookup_insert_eq.
    apply lookup_lt_is_Some. rewrite (Hv i) by (cbn; by left). by eexists.
  - rewrite decide_False by (rewrite elem_of_cons; tauto). by rewrite list_lookup_insert_ne.
Qed.

Lemma holes_eq {T} (b' A B xs : list (option T)) :
  (forall j, b' !! j = if decide (length A <= j < length A + length xs) then Some None
                       else (A ++ xs ++ B) !! j) ->
  b' = A ++ replicate (length xs) None ++ B.
Proof.
  intros H. apply list_eq. intros j. rewrite H. clear H. case_decide as Hj.
  - rewrite lookup_app_r, lookup_app_l by (rewrite ?length_replicate; lia).
    symmetry. apply lookup_replicate_2. lia.
  - destruct (decide (j < length A)) as [Hlt|Hge]; [by rewrite !lookup_app_l|].
    rewrite !(lookup_app_r A) by lia.
    rewrite !lookup_app_r by (rewrite ?length_replicate; lia). by rewrite length_replicate.
Qed.

Lemma zip_number_map (v : nat -> RtNode) i (ls : list (bytes * Node)) :
  (fun e => (fst e, v (snd e))) <$> number i ls = (fun e => (fst e, compile_ref (snd e))) <$> ls ->
  (fun x : nat * (bytes * nat) => (fst x, (fst (snd x), v (snd (snd x)))))
    <$> zip (leaf_count <$> (snd <$> ls)) (number i ls)
  = (fun e => (leaf_count (snd e), (fst e, compile_ref (snd e)))) <$> ls.
Proof.
  revert i; induction ls as [|[k c] ls IH]; intros i Hm; [done|]. cbn in Hm |- *.
  injection Hm as Hv Hm. rewrite Hv. f_equal. by apply IH.
Qed.

Section assemble.
Context (n : Node) (A B : list (option RtNode)).
Let L : nat := length A.
Let nl : nat := length (n_literals n).
Let na : nat := length (n_affix n).
Let built : list (option RtNode) := A ++ (Some <$> (compile_ref <$> kids n)) ++ B.
Let v (i : nat) : RtNode := compile_ref (default Node_default (kids n !! (i - L))).

Lemma length_affix_order : length (affix_edges_in_match_order n) = na.
Proof. apply Permutation_length, affix_order_perm. Qed.

Lemma length_kids : length (kids n) = nl + na + length (opt_list (n_single n)).
Proof. unfold kids. rewrite !length_app, !length_fmap, length_affix_order. unfold nl. lia. Qed.

Lemma built_kid i : L <= i < L + length (kids n) -> built !! i = Some (Some (v i)).
Proof.
  intros Hi. unfold built, v. rewrite lookup_app_r by (unfold L in Hi; lia).
  rewrite lookup_app_l by (rewrite !length_fmap; unfold L in Hi; lia).
  rewrite !list_lookup_fmap. fold L.
  destruct (lookup_lt_is_Some_2 (kids n) (i - L)) as [c Hc]; [lia|]. by rewrite Hc.
Qed.

Lemma kid_literal j e : n_literals n !! j = Some e -> v (L + j) = compile_ref (snd e).
Proof.
  intros Hj. unfold v, kids. replace (L + j - L) with j by lia.
  rewrite lookup_app_l by (rewrite length_fmap; by eapply lookup_lt_Some).
  by rewrite list_lookup_fmap, Hj.
Qed.

Lemma kid_affix j e :
  affix_edges_in_match_order n !! j = Some e -> v (L + nl + j) = compile_ref (snd e).
Proof.
  intros Hj. unfold v, kids. replace (L + nl + j - L) with (nl + j) by lia.
  rewrite lookup_app_r by (rewrite length_fmap; unfold nl; lia).
  rewrite length_fmap. replace (nl + j - length (n_literals n)) with j by (unfold nl; lia).
  rewrite lookup_app_l by (rewrite length_fmap; by eapply lookup_lt_Some).
  by rewrite list_lookup_fmap, Hj.
Qed.

Lemma kid_single c : n_single n = Some c -> v (L + nl + na) = compile_ref c.
Proof.
  intros Hc. unfold v, kids. replace (L + nl + na - L) with (nl + na) by lia.
  rewrite lookup_app_r by (rewrite length_fmap; unfold nl; lia). rewrite length_fmap.
  replace (nl + na - length (n_literals n)) with na by (unfold nl; lia).
  rewrite lookup_app_r by (rewrite length_fmap, length_affix_order; lia).
  by rewrite length_fmap, length_affix_order, Nat.sub_diag, Hc.
Qed.

Lemma ordered_literal_indices :
  snd <$> f_literals (ordered_flat n L) ≡ₚ seq L nl.
Proof.
  cbn [f_literals ordered_flat]. rewrite sort_by_perm, snd_zip, number_indices; [done|].
  by rewrite !length_fmap, length_number.
Qed.

Lemma ordered_literal_nodes :
  (fun e => (fst e, v (snd e))) <$> f_literals (ordered_flat n L) = rt_literals (compile_ref n).
Proof.
  cbn [f_literals ordered_flat]. pose proof (number_map L (n_literals n) v compile_ref kid_literal) as Hm.
  set (g := fun x : nat * (bytes * nat) => (fst x, (fst (snd x), v (snd (snd x))))).
  transitivity (snd <$> (g <$> sort_by by_weight
    (zip (leaf_count <$> (snd <$> n_literals n)) (number L (n_literals n))))).
  { rewrite <- !list_fmap_compose. done. }
  rewrite <- (sort_by_fmap g by_weight by_weight) by done.
  unfold g. rewrite zip_number_map by done. by destruct n.
Qed.

Lemma affix_nodes :
  (fun e => (fst e, v (snd e))) <$> f_affix (ordered_flat n L) = rt_affix (compile_ref n).
Proof.
  cbn [f_affix ordered_flat flat_of]. fold nl. rewrite (number_map _ _ _ compile_ref kid_affix).
  unfold affix_edges_in_match_order. destruct n as [ls afs sg ex rs].
  cbn [n_affix rt_affix compile_ref]. symmetry. by apply sort_by_fmap.
Qed.

Lemma assemble_flat :
  assemble (ordered_flat n L) built
  = Ok (compile_ref n, A ++ replicate (length (kids n)) None ++ B).
Proof.
  pose proof length_kids as Hk. pose proof built_kid as Hbk.
  destruct (take_children_spec (f_literals (ordered_flat n L)) built v) as (b1 & Hb1 & Hl1).
  { rewrite ordered_literal_indices. apply NoDup_seq. }
  { intros i Hi. rewrite ordered_literal_indices, elem_of_seq in Hi. apply Hbk. lia. }
  assert (Haff : snd <$> f_affix (ordered_flat n L) = seq (L + nl) na).
  { cbn [f_affix ordered_flat flat_of]. by rewrite number_indices, length_affix_order. }
  assert (Hlk1 : forall j, j ∉ seq L nl -> b1 !! j = built !! j).
  { intros j Hj. rewrite Hl1, decide_False by by rewrite ordered_literal_indices. done. }
  destruct (take_children_spec (f_affix (ordered_flat n L)) b1 v) as (b2 & Hb2 & Hl2).
  { rewrite Haff. apply NoDup_seq. }
  { intros i Hi. rewrite Haff, elem_of_seq in Hi. rewrite Hlk1 by (rewrite elem_of_seq; lia).
    apply Hbk. lia. }
  unfold assemble. rewrite Hb1, Hb2, ordered_literal_nodes, affix_nodes.
  assert (Hb2all : forall j, b2 !! j = if decide (L <= j < L + nl + na) then Some None else built !! j).
  { intros j. rewrite Hl2, Haff, Hl1. rewrite (decide_ext (j ∈ snd <$> _) (j ∈ seq L nl))
      by by rewrite ordered_literal_indices.
    repeat case_decide; rewrite ?elem_of_seq in *; try done; lia. }
  cbn [f_single f_exact f_rest ordered_flat flat_of]. fold nl na.
  destruct (n_single n) as [c|] eqn:Hc; cbn [opt_list length] in Hk.
  - unfold take_at. rewrite Hb2all, decide_False, Hbk by lia.
    rewrite (kid_single c Hc). f_equal. f_equal.
    + destruct n as [ls afs sg ex rs]. cbn in *. by rewrite Hc.
    + rewrite <- (length_fmap compile_ref (kids n)), <- (length_fmap Some). apply holes_eq.
      rewrite !length_fmap. intros j. fold L built.
      destruct (decide (j = L + nl + na)) as [->|Hne].
      * rewrite decide_True by lia. apply list_lookup_insert_eq.
        apply lookup_lt_is_Some. rewrite Hb2all, decide_False, Hbk by lia. by eexists.
      * rewrite list_lookup_insert_ne, Hb2all by done. repeat case_decide; try done; lia.
  - f_equal. f_equal.
    + destruct n as [ls afs sg ex rs]. cbn in *. by rewrite Hc.
    + rewrite <- (length_fmap compile_ref (kids n)), <- (length_fmap Some). apply holes_eq.
      rewrite !length_fmap. intros j. fold L built. rewrite Hb2all.
      repeat case_decide; try done; lia.
Qed.
End assemble.

Lemma ordered_length i q fs : ordered i q fs -> length q <= length fs.
Proof. induction 1; cbn; [lia|]. rewrite length_app in *. lia. Qed.

Lemma assemble_loop_spec i q fs : ordered i q fs -> forall pre, length pre = i ->
  assemble_loop (pre ++ fs) (i + length fs) (replicate (i + length fs) None)
  = assemble_loop (pre ++ fs) i
      (replicate i None ++ (Some <$> (compile_ref <$> q)) ++ replicate (length fs - length q) None).
Proof.
  induction 1 as [i|i n q fs Hord IH]; intros pre Hpre.
  { cbn [length fmap list_fmap app Nat.sub replicate]. by rewrite Nat.add_0_r, !app_nil_r. }
  pose proof (ordered_length _ _ _ Hord) as Hlen. rewrite length_app in Hlen.
  set (f := ordered_flat n (i + S (length q))).
  specialize (IH (pre ++ [f])). rewrite <- app_assoc in IH. cbn [app length] in IH |- *.
  rewrite (Nat.add_succ_r i (length fs)). rewrite (Nat.add_succ_l i (length fs)) in IH.
  rewrite IH by (rewrite length_app; cbn; lia). clear IH.
  cbn [assemble_loop].
  assert (index_at (pre ++ f :: fs) i = Ok f) as -> by (rewrite <- Hpre; apply index_at_middle).
  rewrite !fmap_app, <- !app_assoc, (app_assoc (replicate (S i) None)).
  set (A := replicate (S i) None ++ (Some <$> (compile_ref <$> q))).
  assert (HA : length A = i + S (length q)).
  { unfold A. rewrite length_app, length_replicate, !length_fmap. lia. }
  unfold f. rewrite <- HA, assemble_flat. f_equal.
  unfold A. rewrite replicate_S_end, <- !app_assoc. cbn [app fmap list_fmap].
  pose proof (insert_middle (replicate i (None (A := RtNode))) None (Some (compile_ref n))) as Hins.
  rewrite length_replicate in Hins. rewrite Hins, length_app.
  rewrite <- replicate_add. do 4 f_equal. lia.
Qed.

Lemma compile_spec b n : node_ok b n -> compile n = Ok (compile_ref n).
Proof.
  intros Hok. unfold compile.
  destruct (flatten_nodes_spec b (node_size n) [n] [] 0) as (fs & Hfs & Hfl).
  { unfold total_size. cbn. lia. }
  { by repeat constructor. }
  cbn [replicate app fmap list_fmap] in Hfs. rewrite Hfs. cbn [app].
  destruct (order_literals_by_weight_spec _ _ _ Hfl eq_refl) as (fs' & Ho & Hord & Hlen).
  rewrite Ho. pose proof (assemble_loop_spec _ _ _ Hord [] eq_refl) as Ha.
  cbn [app Nat.add] in Ha. by rewrite Ha.
Qed.

(** [discard_source] visits every node once and ends. *)
Lemma total_size_children n : node_size n = S (total_size (node_children n)).
Proof.
  rewrite node_size_kids. f_equal. unfold total_size.
  by rewrite (list_sum_perm _ _ (fmap_Permutation _ _ _ (kids_perm n))).
Qed.

Lemma discard_source_loop_ok fuel pending :
  total_size pending <= fuel -> discard_source_loop fuel pending = Ok tt.
Proof.
  revert pending; induction fuel as [|fuel IH]; intros pending Hf;
    destruct pending as [|n pending _] using rev_ind; [done| |done|].
  - rewrite total_size_app, total_size_cons, total_size_children in Hf. lia.
  - cbn [discard_source_loop]. rewrite last_snoc, removelast_last. apply IH.
    rewrite total_size_app in *. rewrite total_size_cons, total_size_children in Hf. lia.
Qed.

(** ** Main result *)

(** C3. Compiling the trie of a route set into runtime nodes terminates without a
    panic: every queued node is taken once, every affix key is found, every child is
    built before its parent takes it, and every index is in range.  The result is
    the recursive translation of the trie, with the affix edges in match order and
    the literal edges by decreasing number of routes.  The iterative disposal of a
    rejected trie ends as well. *)
Theorem compile_refines (U : UnicodeIdent) regs :
  Forall (fun reg => template_wf (snd reg)) regs ->
  exists t, build_trie (register <$> regs) = Ok t
    /\ compile (t_root t) = Ok (compile_ref (t_root t))
    /\ discard_source (t_root t) = Ok tt.
Proof.
  intros Hwf. destruct (build_trie_spec regs Hwf) as (t & Hb & Hok & _).
  exists t. split; [done|]. split; [by eapply compile_spec|].
  apply discard_source_loop_ok. unfold total_size. cbn. lia.
Qed.

Lemma compile_refines_witness :
  exists t, @build_trie ascii_ident (register <$> demo_regs) = Ok t
    /\ compile (t_root t) = Ok (compile_ref (t_root t))
    /\ discard_source (t_root t) = Ok tt.
Proof. apply (compile_refines ascii_ident demo_regs), demo_regs_wf. Defined.
