(* ===== verification/Walk.v ===== *)
(** * routerama: trie descent

    Models [src/crates/routerama/src/walk.rs]: the iterative descent with its
    explicit stack of postponed alternatives, proved equal to a recursive
    backtracking search, which in turn is proved to find the best matching route. *)

From S2P Require Import Prelude Collections PathTemplate Scan Trie RtTrie.

(** ** The walk *)

Record Walk : Type := mkWalk {
  w_path : ScannedPath;
  w_method : bytes;
  w_verb : option bytes }.

Inductive WalkAction : Type :=
| WNode (node : RtNode) (depth : nat)
| WLeaves (leaves : list Leaf).

(** [bytes.starts_with(prefix)] and [bytes.ends_with(suffix)]. *)
Definition starts_with (s prefix : bytes) : bool :=
  (length prefix <=? length s) && bytes_eqb (take (length prefix) s) prefix.
Definition ends_with (s suffix : bytes) : bool :=
  (length suffix <=? length s) && bytes_eqb (drop (length s - length suffix) s) suffix.

Definition literal_matches (s key : bytes) : bool :=
  (length key =? length s) && bool_decide (head key = head s) && bytes_eqb key s.

Definition affix_matches (s prefix suffix : bytes) : bool :=
  (length prefix + length suffix <? length s) && starts_with s prefix && ends_with s suffix.

Definition affix_edge_matches (s : bytes) (e : bytes * bytes * RtNode) : bool :=
  affix_matches s (fst (fst e)) (snd (fst e)).

(** [iter().enumerate().find(..)]. *)
Fixpoint find_enumerate {A} (p : A -> bool) (l : list A) (index : nat) : option (nat * A) :=
  match l with
  | [] => None
  | x :: tl => if p x then Some (index, x) else find_enumerate p tl (S index)
  end.

Section walk.
Context (VERBS : bool) (w : Walk).

Definition leaf_selected (l : Leaf) : bool :=
  bytes_eqb (l_method l) (w_method w) && (negb VERBS || bool_decide (l_verb l = w_verb w)).

Definition dispatch (leaves : list Leaf) : option Leaf := List.find leaf_selected leaves.

(** What one round of the outer loop does: go on at a node, return, or resume the
    postponed alternatives. *)
Inductive Round : Type :=
| Continue (node : RtNode) (depth : nat) (pending : list WalkAction)
| Return (l : Leaf)
| Resume (pending : list WalkAction).

(** The end of a round, when no child was entered. *)
Definition try_leaves (node : RtNode) (depth : nat) (pending : list WalkAction) : Round :=
  let count := p_count (w_path w) in
  match (if count =? depth then dispatch (rt_exact node) else None) with
  | Some matched => Return matched
  | None =>
      match (if depth <=? count then dispatch (rt_rest node) else None) with
      | Some matched => Return matched
      | None => Resume pending
      end
  end.

Definition push_rest (node : RtNode) (depth : nat) (pending : list WalkAction) : list WalkAction :=
  if (depth <=? p_count (w_path w)) && negb (bool_decide (rt_rest node = [])) then
    WLeaves (rt_rest node) :: pending
  else pending.

(** [if let Some(single) = single { .. }] after the segment's edges. *)
Definition try_single (node : RtNode) (depth : nat) (single : option RtNode)
    (pending : list WalkAction) : Round :=
  match single with
  | Some s => Continue s (depth + 1) (push_rest node depth pending)
  | None => try_leaves node depth pending
  end.

(** [for .. in node.affix.iter().skip(skip).rev() { if .. { pending.push(..) } }]. *)
Definition push_affixes (s : bytes) (depth : nat) (edges : list (bytes * bytes * RtNode))
    (pending : list WalkAction) : list WalkAction :=
  foldl (fun pending e => if affix_edge_matches s e then WNode (snd e) (depth + 1) :: pending
                          else pending) pending (rev edges).

(** The children a segment selects. *)
Definition enter_children (node : RtNode) (depth : nat) (s : bytes) (single : option RtNode)
    (pending : list WalkAction) : outcome unit Round :=
  let literal := List.find (fun e => literal_matches s (fst e)) (rt_literals node) in
  let first_affix := find_enumerate (affix_edge_matches s) (rt_affix node) 0 in
  match bool_decide (rt_affix node = []) && bool_decide (rt_single node = None)
        && bool_decide (rt_rest node = []), literal with
  | true, Some (_, child) => Ok (Continue child (depth + 1) pending)
  | _, _ =>
      if bool_decide (is_Some literal) || bool_decide (is_Some first_affix)
         || bool_decide (is_Some single) then
        let pending := push_rest node depth pending in
        let pending :=
          match single with
          | Some c =>
              if bool_decide (is_Some literal) || bool_decide (is_Some first_affix)
              then WNode c (depth + 1) :: pending else pending
          | None => pending
          end in
        let skip :=
          match first_affix with
          | Some (index, _) => (if bool_decide (literal = None) then 1 else 0) + index
          | None => 0
          end in
        let pending := push_affixes s depth (drop skip (rt_affix node)) pending in
        match literal, first_affix, single with
        | Some (_, child), _, _ => Ok (Continue child (depth + 1) pending)
        | None, Some (_, (_, child)), _ => Ok (Continue child (depth + 1) pending)
        | None, None, Some child => Ok (Continue child (depth + 1) pending)
        | None, None, None => Panic
        end
      else Ok (try_single node depth single pending)
  end.

Definition round (node : RtNode) (depth : nat) (pending : list WalkAction) : outcome unit Round :=
  let? seg := segment (w_path w) depth in
  let single :=
    match rt_single node, seg with
    | Some c, Some s => if bytes_eqb s [] then None else Some c
    | _, _ => None
    end in
  match bool_decide (rt_literals node = []) && bool_decide (rt_affix node = [])
        && bool_decide (rt_rest node = []), single with
  | true, Some c => Ok (Continue c (depth + 1) pending)
  | _, _ =>
      match seg with
      | Some s =>
          if negb (bool_decide (rt_literals node = [])) || negb (bool_decide (rt_affix node = []))
          then enter_children node depth s single pending
          else Ok (try_single node depth single pending)
      | None => Ok (try_single node depth single pending)
      end
  end.

(** The inner loop: pops postponed alternatives; [None] when the stack is empty. *)
Fixpoint pop_pending (pending : list WalkAction)
    : option Leaf + (RtNode * nat * list WalkAction) :=
  match pending with
  | [] => inl None
  | WNode next_node next_depth :: tl => inr (next_node, next_depth, tl)
  | WLeaves leaves :: tl =>
      match dispatch leaves with
      | Some matched => inl (Some matched)
      | None => pop_pending tl
      end
  end.

Fixpoint descend (fuel : nat) (node : RtNode) (depth : nat) (pending : list WalkAction)
    : outcome unit (option Leaf) :=
  match fuel with
  | O => Panic
  | S fuel' =>
      let? r := round node depth pending in
      match r with
      | Return matched => Ok (Some matched)
      | Continue node depth pending => descend fuel' node depth pending
      | Resume pending =>
          match pop_pending pending with
          | inl result => Ok result
          | inr (node, depth, pending) => descend fuel' node depth pending
          end
      end
  end.

(** The nodes of a runtime trie. *)
Fixpoint rt_size (n : RtNode) : nat :=
  match n with
  | mkRt literals affix single _ _ =>
      S (list_sum ((fun e => rt_size (snd e)) <$> literals)
         + list_sum ((fun e => rt_size (snd e)) <$> affix)
         + match single with Some c => rt_size c | None => 0 end)
  end.

(** No node is entered twice, so the size of the trie bounds the rounds. *)
Definition descend_iterative (node : RtNode) (depth : nat) : outcome unit (option Leaf) :=
  descend (rt_size node) node depth [].
End walk.

(** ** The recursive search *)

Definition orelse {A} (x y : option A) : option A := match x with Some _ => x | None => y end.

Lemma orelse_assoc {A} (x y z : option A) : orelse (orelse x y) z = orelse x (orelse y z).
Proof. by destruct x. Qed.

Lemma orelse_None_r {A} (x : option A) : orelse x None = x.
Proof. by destruct x. Qed.

Section search.
Context (VERBS : bool) (w : Walk) (seg : nat -> option bytes).
Let count : nat := p_count (w_path w).

Definition search_leaves (exact rest : list Leaf) (d : nat) : option Leaf :=
  orelse (if count =? d then dispatch VERBS w exact else None)
    (if d <=? count then dispatch VERBS w rest else None).

(** Literal edge, then the matching affix edges in order, then the wildcard, then the
    leaves of the node. *)
Fixpoint search (n : RtNode) (d : nat) : option Leaf :=
  match n with
  | mkRt literals affix single exact rest =>
      match seg d with
      | None => search_leaves exact rest d
      | Some s =>
          orelse
            ((fix go l :=
                match l with
                | [] => None
                | (key, c) :: tl => if literal_matches s key then search c (S d) else go tl
                end) literals)
            (orelse
               ((fix go l :=
                   match l with
                   | [] => None
                   | (key, c) :: tl =>
                       orelse (if affix_matches s (fst key) (snd key) then search c (S d) else None)
                         (go tl)
                   end) affix)
               (orelse
                  (match single with
                   | Some c => if bytes_eqb s [] then None else search c (S d)
                   | None => None
                   end)
                  (search_leaves exact rest d)))
      end
  end.

Fixpoint search_literals (s : bytes) (d : nat) (l : list (bytes * RtNode)) : option Leaf :=
  match l with
  | [] => None
  | (key, c) :: tl => if literal_matches s key then search c (S d) else search_literals s d tl
  end.

Fixpoint search_affixes (s : bytes) (d : nat) (l : list (bytes * bytes * RtNode)) : option Leaf :=
  match l with
  | [] => None
  | (key, c) :: tl =>
      orelse (if affix_matches s (fst key) (snd key) then search c (S d) else None)
        (search_affixes s d tl)
  end.

Definition search_single (s : bytes) (d : nat) (single : option RtNode) : option Leaf :=
  match single with
  | Some c => if bytes_eqb s [] then None else search c (S d)
  | None => None
  end.

Lemma search_eq n d :
  search n d =
  match seg d with
  | None => search_leaves (rt_exact n) (rt_rest n) d
  | Some s =>
      orelse (search_literals s d (rt_literals n))
        (orelse (search_affixes s d (rt_affix n))
          (orelse (search_single s d (rt_single n)) (search_leaves (rt_exact n) (rt_rest n) d)))
  end.
Proof.
  destruct n as [literals affix single exact rest]. cbn. destruct (seg d) as [s|]; [|done].
  f_equal; [|f_equal].
  - induction literals as [|[key c] tl IH]; [done|]. cbn. by rewrite IH.
  - induction affix as [|[key c] tl IH]; [done|]. cbn. by rewrite IH.
Qed.

(** ** The descent equals the search *)

Context (Hseg : forall d, segment (w_path w) d = Ok (seg d)).
Context (Hcount : forall d s, seg d = Some s -> d < count).

Fixpoint resume (pending : list WalkAction) : option Leaf :=
  match pending with
  | [] => None
  | WNode n d :: tl => orelse (search n d) (resume tl)
  | WLeaves leaves :: tl => orelse (dispatch VERBS w leaves) (resume tl)
  end.

Definition action_size (a : WalkAction) : nat :=
  match a with WNode n _ => rt_size n | WLeaves _ => 0 end.

Definition pending_size (pending : list WalkAction) : nat := list_sum (action_size <$> pending).

Definition rest_result (n : RtNode) (d : nat) : option Leaf :=
  if d <=? count then dispatch VERBS w (rt_rest n) else None.

Lemma resume_push_rest n d pending :
  resume (push_rest w n d pending) = orelse (rest_result n d) (resume pending)
  /\ pending_size (push_rest w n d pending) = pending_size pending.
Proof.
  unfold push_rest, rest_result. fold count. destruct (d <=? count); [|done].
  case_bool_decide as Hr; cbn [negb andb]; [|done]. by rewrite Hr.
Qed.

Lemma push_affixes_app s d es pending :
  push_affixes s d es pending
  = ((fun e => WNode (snd e) (d + 1)) <$> List.filter (affix_edge_matches s) es) ++ pending.
Proof.
  unfold push_affixes.
  revert pending; induction es as [|e es IH]; intros pending; [done|]. cbn [rev].
  rewrite foldl_app. cbn [foldl]. rewrite IH. cbn [List.filter].
  by destruct (affix_edge_matches s e).
Qed.

Lemma resume_push_affixes s d es pending :
  resume (push_affixes s d es pending) = orelse (search_affixes s d es) (resume pending).
Proof.
  rewrite push_affixes_app. induction es as [|[[p q] c] es IH]; [done|].
  cbn [List.filter search_affixes]. unfold affix_edge_matches at 1. cbn [fst snd].
  destruct (affix_matches s p q); [|done]. cbn [fmap list_fmap app resume snd].
  by rewrite IH, orelse_assoc, Nat.add_1_r.
Qed.

Lemma size_push_affixes s d es pending :
  pending_size (push_affixes s d es pending)
  <= list_sum ((fun e => rt_size (snd e)) <$> es) + pending_size pending.
Proof.
  rewrite push_affixes_app. unfold pending_size. rewrite fmap_app, list_sum_app.
  enough (list_sum (action_size <$> ((fun e => WNode (snd e) (d + 1))
    <$> List.filter (affix_edge_matches s) es)) <= list_sum ((fun e => rt_size (snd e)) <$> es)) by lia.
  induction es as [|e es IH]; [done|]. cbn [List.filter].
  change (list_sum ((fun e => rt_size (snd e)) <$> e :: es))
    with (rt_size (snd e) + list_sum ((fun e => rt_size (snd e)) <$> es)).
  destruct (affix_edge_matches s e); [|lia].
  match goal with |- list_sum (_ <$> (_ <$> ?x :: ?l)) <= _ =>
    change (rt_size (snd x) + list_sum (action_size <$> ((fun e => WNode (snd e) (d + 1)) <$> l))
      <= rt_size (snd e) + list_sum ((fun e => rt_size (snd e)) <$> es)) end.
  lia.
Qed.

Definition lits_size (n : RtNode) : nat := list_sum ((fun e => rt_size (snd e)) <$> rt_literals n).
Definition affs_size (n : RtNode) : nat := list_sum ((fun e => rt_size (snd e)) <$> rt_affix n).
Definition single_size (o : option RtNode) : nat := match o with Some c => rt_size c | None => 0 end.

Lemma rt_size_eq n : rt_size n = S (lits_size n + affs_size n + single_size (rt_single n)).
Proof. by destruct n. Qed.

Lemma size_elem {K} (l : list (K * RtNode)) e :
  e ∈ l -> rt_size (snd e) <= list_sum ((fun e => rt_size (snd e)) <$> l).
Proof.
  induction l as [|x l IH]; [intros []%not_elem_of_nil|].
  change (list_sum ((fun e => rt_size (snd e)) <$> x :: l))
    with (rt_size (snd x) + list_sum ((fun e => rt_size (snd e)) <$> l)).
  intros [->|H]%elem_of_cons; [lia|]. specialize (IH H). lia.
Qed.

Lemma size_drop {K} (l : list (K * RtNode)) i e : l !! i = Some e ->
  rt_size (snd e) + list_sum ((fun e => rt_size (snd e)) <$> drop (S i) l)
  <= list_sum ((fun e => rt_size (snd e)) <$> l).
Proof.
  intros Hi. rewrite <- (take_drop_middle l i e Hi) at 2. rewrite fmap_app, list_sum_app.
  change (list_sum ((fun e => rt_size (snd e)) <$> e :: ?r))
    with (rt_size (snd e) + list_sum ((fun e => rt_size (snd e)) <$> r)). lia.
Qed.

Lemma size_drop_le {K} (l : list (K * RtNode)) i :
  list_sum ((fun e => rt_size (snd e)) <$> drop i l) <= list_sum ((fun e => rt_size (snd e)) <$> l).
Proof. rewrite <- (take_drop i l) at 2. rewrite fmap_app, list_sum_app. lia. Qed.

(** What a round achieves: the pending work keeps its result, and shrinks. *)
Definition round_ok (node : RtNode) (depth : nat) (pending : list WalkAction) (r : Round) : Prop :=
  match r with
  | Continue n d p =>
      orelse (search node depth) (resume pending) = orelse (search n d) (resume p)
      /\ rt_size n + pending_size p < rt_size node + pending_size pending
  | Return l => search node depth = Some l
  | Resume p => p = pending /\ search node depth = None
  end.

Lemma try_leaves_ok node depth pending :
  search node depth = search_leaves (rt_exact node) (rt_rest node) depth ->
  round_ok node depth pending (try_leaves VERBS w node depth pending).
Proof.
  intros Hs. unfold try_leaves, round_ok. rewrite Hs. unfold search_leaves. fold count.
  destruct (if count =? depth then _ else _); [done|]. cbn [orelse].
  by destruct (if depth <=? count then _ else _).
Qed.

Lemma search_leaves_inner node depth s : seg depth = Some s ->
  search_leaves (rt_exact node) (rt_rest node) depth = rest_result node depth.
Proof.
  intros Hs. pose proof (Hcount _ _ Hs). unfold search_leaves.
  by rewrite (proj2 (Nat.eqb_neq count depth)) by lia.
Qed.

(** Entering the wildcard child with the node's catch-all postponed. *)
Lemma try_single_ok node depth s c pending :
  seg depth = Some s -> search_literals s depth (rt_literals node) = None ->
  search_affixes s depth (rt_affix node) = None ->
  rt_single node = Some c -> s <> [] ->
  round_ok node depth pending (Continue c (depth + 1) (push_rest w node depth pending)).
Proof.
  intros Hs Hl Ha Hc Hne. destruct (resume_push_rest node depth pending) as [Hr Hsz]. split.
  - rewrite search_eq, Hs, Hl, Ha. cbn [orelse]. rewrite (search_leaves_inner node depth s Hs), Hr.
    unfold search_single. rewrite Hc, (proj2 (bytes_eqb_neq _ _)) by done.
    by rewrite orelse_assoc, Nat.add_1_r.
  - rewrite Hsz, (rt_size_eq node), Hc. cbn. lia.
Qed.

Lemma search_literals_find s d l :
  search_literals s d l
  = match List.find (fun e => literal_matches s (fst e)) l with
    | Some (_, c) => search c (S d)
    | None => None
    end.
Proof. induction l as [|[k c] l IH]; [done|]. cbn. by destruct (literal_matches s k). Qed.

Lemma find_elem {A} (p : A -> bool) l e : List.find p l = Some e -> e ∈ l.
Proof. intros [H _]%List.find_some. by apply list_elem_of_In. Qed.

Lemma search_affixes_find s d l k :
  match find_enumerate (affix_edge_matches s) l k with
  | Some (i, e) =>
      k <= i /\ l !! (i - k) = Some e
      /\ search_affixes s d l = search_affixes s d (drop (i - k) l)
      /\ search_affixes s d l
        = orelse (search (snd e) (S d)) (search_affixes s d (drop (S (i - k)) l))
  | None => search_affixes s d l = None
  end.
Proof.
  revert k; induction l as [|[[p q] c] l IH]; intros k; [done|]. cbn [find_enumerate].
  unfold affix_edge_matches at 1. cbn [fst snd]. destruct (affix_matches s p q) eqn:Hm.
  - rewrite Nat.sub_diag. cbn. rewrite Hm. split_and!; [lia|done..].
  - specialize (IH (S k)). destruct (find_enumerate _ l (S k)) as [[i e]|]; cbn; rewrite Hm; [|done].
    destruct IH as (Hk & Hi & H1 & H2). replace (i - k) with (S (i - S k)) by lia.
    cbn. split_and!; [lia|done..].
Qed.

Lemma bool_decide_is_Some {A} (o : option A) :
  bool_decide (is_Some o) = match o with Some _ => true | None => false end.
Proof. destruct o; [by apply bool_decide_eq_true_2|]. apply bool_decide_eq_false_2. by intros []. Qed.

Lemma no_rest_leaves node depth s : seg depth = Some s -> rt_rest node = [] ->
  search_leaves (rt_exact node) (rt_rest node) depth = None.
Proof.
  intros Hs Hr. rewrite (search_leaves_inner node depth s Hs). unfold rest_result. rewrite Hr.
  by destruct (depth <=? count).
Qed.

(** The alternatives below the chosen child, as [enter_children] postpones them. *)
Lemma resume_alternatives node depth s (single : option RtNode) es pending :
  seg depth = Some s ->
  let after := push_rest w node depth pending in
  let with_single := match single with Some c => WNode c (depth + 1) :: after | None => after end in
  resume (push_affixes s depth es with_single)
  = orelse (search_affixes s depth es)
      (orelse (match single with Some c => search c (S depth) | None => None end)
        (orelse (search_leaves (rt_exact node) (rt_rest node) depth) (resume pending)))
  /\ pending_size (push_affixes s depth es with_single)
     <= list_sum ((fun e => rt_size (snd e)) <$> es) + single_size single + pending_size pending.
Proof.
  intros Hs after with_single. rewrite resume_push_affixes.
  pose proof (size_push_affixes s depth es with_single) as Hsz.
  destruct (resume_push_rest node depth pending) as [Hr Hrs].
  rewrite (search_leaves_inner node depth s Hs). unfold with_single, after in *. split.
  - destruct single; cbn [resume]; by rewrite Hr, ?Nat.add_1_r.
  - destruct single; cbn [single_size]; [|lia].
    change (pending_size (WNode ?n ?d :: ?p)) with (rt_size n + pending_size p) in Hsz. lia.
Qed.

(** The wildcard child the segment admits. *)
Definition admitted (node : RtNode) (s : bytes) : option RtNode :=
  match rt_single node with Some c => if bytes_eqb s [] then None else Some c | None => None end.

Lemma search_single_admitted node s d :
  search_single s d (rt_single node)
  = match admitted node s with Some c => search c (S d) | None => None end.
Proof. unfold search_single, admitted. destruct (rt_single node); [|done]. by case_match. Qed.

Lemma admitted_size node s : single_size (admitted node s) <= single_size (rt_single node).
Proof. unfold admitted. destruct (rt_single node); [|done]. by case_match; cbn; lia. Qed.

Lemma admitted_Some node s c : admitted node s = Some c -> rt_single node = Some c /\ s <> [].
Proof.
  unfold admitted. destruct (rt_single node); [|done].
  destruct (bytes_eqb s []) eqn:Hs; [done|]. intros [= ->]. by apply bytes_eqb_neq in Hs.
Qed.

Lemma push_affixes_none s d es pending :
  find_enumerate (affix_edge_matches s) es 0 = None -> push_affixes s d es pending = pending.
Proof.
  assert (Hf : forall k, find_enumerate (affix_edge_matches s) es k = None ->
    List.filter (affix_edge_matches s) es = []).
  { induction es as [|e es IH]; intros k; [done|]. cbn.
    destruct (affix_edge_matches s e); [done|apply IH]. }
  intros H%Hf. by rewrite push_affixes_app, H.
Qed.

Lemma enter_ok node depth s c es pending : seg depth = Some s ->
  orelse (search_literals s depth (rt_literals node)) (search_affixes s depth (rt_affix node))
  = orelse (search c (S depth)) (search_affixes s depth es) ->
  rt_size c + list_sum ((fun e => rt_size (snd e)) <$> es) <= lits_size node + affs_size node ->
  round_ok node depth pending (Continue c (depth + 1)
    (push_affixes s depth es
       (match admitted node s with
        | Some c => WNode c (depth + 1) :: push_rest w node depth pending
        | None => push_rest w node depth pending
        end))).
Proof.
  intros Hs Heq Hsz.
  destruct (resume_alternatives node depth s (admitted node s) es pending Hs) as [Hr Hp].
  pose proof (admitted_size node s). split.
  - rewrite search_eq, Hs, search_single_admitted, <- orelse_assoc, Heq, !orelse_assoc.
    by rewrite Hr, Nat.add_1_r.
  - rewrite (rt_size_eq node). lia.
Qed.

Lemma enter_children_ok node depth s pending : seg depth = Some s ->
  exists r, enter_children VERBS w node depth s (admitted node s) pending = Ok r
    /\ round_ok node depth pending r.
Proof.
  intros Hs. unfold enter_children. rewrite !bool_decide_is_Some.
  pose proof (search_literals_find s depth (rt_literals node)) as Hlit.
  pose proof (search_affixes_find s depth (rt_affix node) 0) as Haff.
  destruct (List.find _ (rt_literals node)) as [[key c]|] eqn:Hfind.
  - pose proof (size_elem _ _ (find_elem _ _ _ Hfind)) as Hc. cbn [snd] in Hc.
    change (list_sum _) with (lits_size node) in Hc.
    destruct (_ && _) eqn:Hfast.
    + eexists; split; [done|]. apply andb_true_iff in Hfast as [Hfast Hrr%bool_decide_eq_true].
      apply andb_true_iff in Hfast as [Hra%bool_decide_eq_true Hrs%bool_decide_eq_true].
      rewrite Nat.add_1_r. split; [|rewrite (rt_size_eq node); lia].
      rewrite search_eq, Hs, Hlit, (no_rest_leaves node depth s) by done.
      rewrite Hra, Hrs. cbn [search_affixes search_single orelse]. by rewrite orelse_None_r.
    + cbn [orb]. eexists; split; [done|]. rewrite bool_decide_eq_false_2 by done.
      apply enter_ok; [done| |].
      * rewrite Hlit. f_equal. destruct (find_enumerate _ _ 0) as [[i e]|]; [|by rewrite drop_0].
        destruct Haff as (_ & _ & Ha & _). by rewrite Nat.sub_0_r in Ha.
      * pose proof (size_drop_le (rt_affix node)) as Hd. unfold affs_size.
        specialize (Hd (match find_enumerate (affix_edge_matches s) (rt_affix node) 0 with
          | Some (index, _) => 0 + index | None => 0 end)). lia.
  - destruct (find_enumerate _ (rt_affix node) 0) as [[i [k c]]|] eqn:Hfa.
    + eexists. split; [by destruct (_ && _)|].
      destruct Haff as (_ & Hi & _ & Ha). rewrite Nat.sub_0_r in Hi, Ha. cbn [snd] in Ha.
      rewrite bool_decide_eq_true_2 by done. apply enter_ok; [done|by rewrite Hlit|].
      pose proof (size_drop _ _ _ Hi). unfold affs_size. cbn [snd Nat.add] in *. lia.
    + destruct (admitted node s) as [c|] eqn:Had; cbn [orb].
      * eexists. split; [by destruct (_ && _)|]. rewrite drop_0, push_affixes_none by done.
        apply admitted_Some in Had as [Hc Hne]. by eapply try_single_ok.
      * eexists. split; [by destruct (_ && _)|]. apply try_leaves_ok.
        by rewrite search_eq, Hs, Hlit, Haff, search_single_admitted, Had.
Qed.

Lemma round_segment_ok node depth s pending : seg depth = Some s ->
  exists r,
    (if negb (bool_decide (rt_literals node = [])) || negb (bool_decide (rt_affix node = []))
     then enter_children VERBS w node depth s (admitted node s) pending
     else Ok (try_single VERBS w node depth (admitted node s) pending)) = Ok r
    /\ round_ok node depth pending r.
Proof.
  intros Hs. destruct (_ || _) eqn:Hedges; [by apply enter_children_ok|].
  eexists; split; [done|]. apply orb_false_iff in Hedges as [Hl Ha].
  apply negb_false_iff, bool_decide_eq_true in Hl. apply negb_false_iff, bool_decide_eq_true in Ha.
  unfold try_single. destruct (admitted node s) as [c|] eqn:Had.
  - apply admitted_Some in Had as [Hc Hne].
    apply (try_single_ok node depth s); rewrite ?Hl, ?Ha; done.
  - apply try_leaves_ok. by rewrite search_eq, Hs, Hl, Ha, search_single_admitted, Had.
Qed.

Lemma round_total node depth pending :
  exists r, round VERBS w node depth pending = Ok r /\ round_ok node depth pending r.
Proof.
  unfold round. rewrite Hseg. destruct (seg depth) as [s|] eqn:Hs.
  - change (match rt_single node with
            | Some c => if bytes_eqb s [] then None else Some c | None => None end)
      with (admitted node s).
    destruct (_ && _) eqn:Hfast; [destruct (admitted node s) as [c|] eqn:Had|].
    + eexists; split; [done|]. apply andb_true_iff in Hfast as [Hfast Hrr%bool_decide_eq_true].
      apply andb_true_iff in Hfast as [Hrl%bool_decide_eq_true Hra%bool_decide_eq_true].
      pose proof (admitted_Some _ _ _ Had) as [Hc Hne].
      assert (Hpush : push_rest w node depth pending = pending).
      { unfold push_rest. rewrite (bool_decide_eq_true_2 _ Hrr). by rewrite andb_false_r. }
      rewrite <- Hpush at 2. apply (try_single_ok node depth s); rewrite ?Hrl, ?Hra; done.
    + rewrite <- Had. by apply round_segment_ok.
    + by apply round_segment_ok.
  - replace (match rt_single node with Some _ | _ => None end) with (@None RtNode)
      by by destruct (rt_single node).
    assert (Hl : round_ok node depth pending (try_single VERBS w node depth None pending)).
    { apply try_leaves_ok. by rewrite search_eq, Hs. }
    exists (try_single VERBS w node depth None pending). split; [by destruct (_ && _)|done].
Qed.

(** Enough fuel for the node and the postponed work gives the search's answer. *)
Lemma descend_spec fuel node depth pending :
  rt_size node + pending_size pending <= fuel ->
  descend VERBS w fuel node depth pending = Ok (orelse (search node depth) (resume pending)).
Proof.
  revert node depth pending; induction fuel as [|fuel IH]; intros node depth pending Hf.
  { rewrite rt_size_eq in Hf. lia. }
  cbn [descend]. destruct (round_total node depth pending) as (r & -> & Hr).
  destruct r as [n d p|l|p]; cbn [round_ok] in Hr.
  - destruct Hr as [-> Hsz]. apply IH. lia.
  - by rewrite Hr.
  - destruct Hr as [-> ->]. cbn [orelse]. rewrite rt_size_eq in Hf. clear -Hf IH.
    induction pending as [|[n d|ls] tl IHp]; [done| |].
    + cbn [pop_pending resume]. apply IH.
      change (pending_size (WNode n d :: tl)) with (rt_size n + pending_size tl) in Hf. lia.
    + cbn [pop_pending resume]. destruct (dispatch VERBS w ls); [done|]. by apply IHp.
Qed.

Lemma descend_iterative_search node depth :
  descend_iterative VERBS w node depth = Ok (search node depth).
Proof.
  unfold descend_iterative. rewrite descend_spec by (cbn; lia). cbn. by rewrite orelse_None_r.
Qed.
End search.

(** ** What the search finds

    Which routes match a path, and which of two matching routes takes precedence. *)

Fixpoint atoms_match (atoms : list Atom) (segs : list bytes) : bool :=
  match atoms, segs with
  | [], [] => true
  | ARest :: _, _ => true
  | ALiteral t :: atoms, s :: segs => bytes_eqb t s && atoms_match atoms segs
  | ASingle :: atoms, s :: segs => negb (bytes_eqb s []) && atoms_match atoms segs
  | AAffix p q :: atoms, s :: segs => affix_matches s p q && atoms_match atoms segs
  | _, _ => false
  end.

Definition atom_rank (a : Atom) : nat :=
  match a with ALiteral _ => 0 | AAffix _ _ => 1 | ASingle => 2 | ARest => 3 end.

(** Literal, then affix (the more literal text the better), then wildcard, then
    catch-all. *)
Definition atom_lt (x y : Atom) : bool :=
  match x, y with
  | AAffix p q, AAffix p' q' => bool_decide (affix_cmp (p, q) (p', q') = Lt)
  | _, _ => atom_rank x <? atom_rank y
  end.

(** The first differing atom decides; a route that ends precedes one that goes on. *)
Fixpoint precedes (a b : list Atom) : bool :=
  match a, b with
  | [], _ :: _ => true
  | _, [] => false
  | x :: a, y :: b => if decide (x = y) then precedes a b else atom_lt x y
  end.

Abbreviation entry_t := (list Atom * Leaf)%type.

Definition better (e f : entry_t) : Prop :=
  precedes (fst e) (fst f) = true \/ (fst e = fst f /\ route_index (snd e) <= route_index (snd f)).

Fixpoint rt_routes (n : RtNode) : list entry_t :=
  match n with
  | mkRt literals affix single exact rest =>
      concat ((fun e => under (ALiteral (fst e)) (rt_routes (snd e))) <$> literals)
      ++ concat ((fun e => under (AAffix (fst (fst e)) (snd (fst e))) (rt_routes (snd e))) <$> affix)
      ++ (match single with Some c => under ASingle (rt_routes c) | None => [] end)
      ++ ((fun l => ([], l)) <$> exact) ++ ((fun l => ([ARest], l)) <$> rest)
  end.

Inductive rt_ok : RtNode -> Prop :=
| rt_ok_intro literals affix single exact rest :
    NoDup literals.*1 ->
    StronglySorted (fun x y => affix_cmp (fst x) (fst y) = Lt) affix ->
    Forall (fun e => rt_ok (snd e)) literals -> Forall (fun e => rt_ok (snd e)) affix ->
    (forall c, single = Some c -> rt_ok c) ->
    StronglySorted lt (route_index <$> exact) -> StronglySorted lt (route_index <$> rest) ->
    rt_ok (mkRt literals affix single exact rest).

Section rt_ind.
Context (P : RtNode -> Prop).
Context (HP : forall literals affix single exact rest,
  Forall (fun e => P (snd e)) literals -> Forall (fun e => P (snd e)) affix ->
  (forall c, single = Some c -> P c) -> P (mkRt literals affix single exact rest)).

Fixpoint RtNode_ind' (n : RtNode) : P n :=
  match n with
  | mkRt literals affix single exact rest =>
      HP literals affix single exact rest
        ((fix go l : Forall (fun e => P (snd e)) l :=
            match l with
            | [] => List.Forall_nil _
            | (k, c) :: tl => List.Forall_cons _ (k, c) tl (RtNode_ind' c) (go tl)
            end) literals)
        ((fix go l : Forall (fun e => P (snd e)) l :=
            match l with
            | [] => List.Forall_nil _
            | (k, c) :: tl => List.Forall_cons _ (k, c) tl (RtNode_ind' c) (go tl)
            end) affix)
        (match single as s return forall c, s = Some c -> P c with
         | Some s => fun c Hc => eq_ind s P (RtNode_ind' s) c (f_equal (default s) Hc)
         | None => fun c Hc => False_ind _ (eq_ind None
             (fun o => match o with None => True | Some _ => False end) I _ Hc)
         end)
  end.
End rt_ind.

Section best.
Context (VERBS : bool) (w : Walk).

Definition matches (ss : list bytes) (e : entry_t) : bool :=
  atoms_match (fst e) ss && leaf_selected VERBS w (snd e).

(** [r] is the best matching route of [es], or there is none. *)
Definition best (ss : list bytes) (r : option Leaf) (es : list entry_t) : Prop :=
  match r with
  | Some l => exists a, (a, l) ∈ es /\ matches ss (a, l) = true
                /\ forall f, f ∈ es -> matches ss f = true -> better (a, l) f
  | None => forall f, f ∈ es -> matches ss f = false
  end.

Lemma best_perm ss r es fs : es ≡ₚ fs -> best ss r es -> best ss r fs.
Proof.
  intros Hp. destruct r as [l|]; cbn.
  - intros (a & Ha & Hm & Hb). exists a. rewrite <- Hp. split_and!; [done..|].
    intros f Hf. apply Hb. by rewrite Hp.
  - intros H f Hf. apply H. by rewrite Hp.
Qed.

Lemma best_app ss r1 r2 es fs :
  best ss r1 es -> best ss r2 fs ->
  (forall e f, e ∈ es -> f ∈ fs -> matches ss e = true -> matches ss f = true ->
     precedes (fst e) (fst f) = true) ->
  best ss (orelse r1 r2) (es ++ fs).
Proof.
  intros H1 H2 Hc. destruct r1 as [l|]; cbn [orelse].
  - destruct H1 as (a & Ha & Hm & Hb). exists a. split; [set_solver|]. split; [done|].
    intros f [Hf|Hf]%elem_of_app Hmf; [by apply Hb|]. left. by apply Hc.
  - destruct r2 as [l|]; cbn in *.
    + destruct H2 as (a & Ha & Hm & Hb). exists a. split; [set_solver|]. split; [done|].
      intros f [Hf|Hf]%elem_of_app Hmf; [by rewrite H1 in Hmf|]. by apply Hb.
    + intros f [Hf|Hf]%elem_of_app; auto.
Qed.

Lemma best_None ss es : (forall f, f ∈ es -> atoms_match (fst f) ss = false) -> best ss None es.
Proof. intros H f Hf. unfold matches. by rewrite H. Qed.

Lemma elem_of_under a es f : f ∈ under a es -> exists g, g ∈ es /\ f = (a :: fst g, snd g).
Proof. intros ([b l] & -> & H)%list_elem_of_fmap. by exists (b, l). Qed.

Lemma best_under a s ss r es :
  (forall atoms, atoms_match (a :: atoms) (s :: ss) = atoms_match atoms ss) ->
  best ss r es -> best (s :: ss) r (under a es).
Proof.
  intros Ha. assert (Hm : forall g, matches (s :: ss) (a :: fst g, snd g) = matches ss g).
  { intros g. unfold matches. cbn [fst snd]. by rewrite Ha. }
  destruct r as [l|]; cbn.
  - intros (b & Hb & Hml & Hbest). exists (a :: b). split.
    { apply list_elem_of_fmap. by exists (b, l). }
    split; [by rewrite <- Hml, <- Hm|]. intros f (g & Hg & ->)%elem_of_under.
    rewrite Hm. intros Hmg. destruct (Hbest g Hg Hmg) as [Hp|[Heq Hi]].
    + left. cbn [fst precedes]. by rewrite decide_True.
    + right. cbn in *. split; [by f_equal|done].
  - intros H f (g & Hg & ->)%elem_of_under. by rewrite Hm, H.
Qed.

Lemma under_no_match a s ss es :
  (forall atoms, atoms_match (a :: atoms) (s :: ss) = false) -> best (s :: ss) None (under a es).
Proof. intros Ha. apply best_None. intros f (g & _ & ->)%elem_of_under. apply Ha. Qed.

(** The first selected leaf of a bucket in registration order. *)
Lemma best_dispatch ss a leaves :
  atoms_match a ss = true -> StronglySorted lt (route_index <$> leaves) ->
  best ss (dispatch VERBS w leaves) ((fun l => (a, l)) <$> leaves).
Proof.
  intros Ha Hs. induction leaves as [|l leaves IH]; [by intros f []%not_elem_of_nil|].
  cbn in Hs. inversion_clear Hs as [|? ? Hs' Hall]. specialize (IH Hs').
  unfold dispatch. cbn [List.find]. fold (dispatch VERBS w leaves).
  assert (Hml : matches ss (a, l) = leaf_selected VERBS w l) by (unfold matches; cbn; by rewrite Ha).
  destruct (leaf_selected VERBS w l) eqn:Hsel.
  - exists a. split; [by left|]. split; [done|].
    intros f (l' & -> & Hl')%list_elem_of_fmap _. right. split; [done|]. cbn.
    apply elem_of_cons in Hl' as [->|Hl']; [done|].
    rewrite Forall_forall in Hall. apply Nat.lt_le_incl, Hall. by apply list_elem_of_fmap_2.
  - change ((fun l0 => (a, l0)) <$> l :: leaves) with ([(a, l)] ++ ((fun l0 => (a, l0)) <$> leaves)).
    change (dispatch VERBS w leaves) with (orelse None (dispatch VERBS w leaves)).
    apply best_app; [|done|].
    + intros f ->%list_elem_of_singleton. done.
    + intros e f ->%list_elem_of_singleton _ Hm. congruence.
Qed.
End best.

Section search_best.
Context (VERBS : bool) (w : Walk) (segs : list bytes) (cap : nat).
Let count : nat := p_count (w_path w).
Context (Hcount : count = length segs).
Let seg (d : nat) : option bytes := if d <? cap then segs !! d else None.
Abbreviation search := (search VERBS w seg) (only parsing).
Abbreviation best := (best VERBS w) (only parsing).
Abbreviation matches := (matches VERBS w) (only parsing).

Lemma affix_cmp_refl k : affix_cmp k k = Eq.
Proof. unfold affix_cmp. by rewrite !cmp_refl. Qed.

Lemma literal_matches_eq s key : literal_matches s key = bytes_eqb key s.
Proof.
  unfold literal_matches. destruct (bytes_eqb key s) eqn:H; [|by rewrite andb_false_r].
  apply bytes_eqb_eq in H as ->. by rewrite Nat.eqb_refl, bool_decide_eq_true_2.
Qed.

Lemma elem_of_edge_routes {K} (edge : K -> Atom) (m : list (K * RtNode)) f :
  f ∈ concat ((fun e => under (edge (fst e)) (rt_routes (snd e))) <$> m) ->
  exists e g, e ∈ m /\ g ∈ rt_routes (snd e) /\ f = (edge (fst e) :: fst g, snd g).
Proof.
  intros (l & (e & -> & He)%list_elem_of_fmap & Hf)%elem_of_concat.
  apply elem_of_under in Hf as (g & Hg & ->). by exists e, g.
Qed.

Lemma best_literals s ss d (m : list (bytes * RtNode)) : NoDup m.*1 ->
  (forall e, e ∈ m -> best ss (search (snd e) (S d)) (rt_routes (snd e))) ->
  best (s :: ss) (search_literals VERBS w seg s d m)
    (concat ((fun e => under (ALiteral (fst e)) (rt_routes (snd e))) <$> m)).
Proof.
  induction m as [|[k c] m IH]; intros Hnd Hb; [by intros f []%not_elem_of_nil|].
  cbn in Hnd. apply NoDup_cons in Hnd as [Hk Hnd].
  cbn [search_literals]. rewrite fmap_cons. cbn [concat fst snd]. rewrite literal_matches_eq.
  destruct (bytes_eqb k s) eqn:Hks.
  - apply bytes_eqb_eq in Hks as ->. rewrite <- (orelse_None_r (Walk.search VERBS w seg c (S d))).
    apply best_app.
    + apply best_under; [intros; cbn; by rewrite bytes_eqb_refl|]. apply (Hb (s, c)). by left.
    + apply best_None. intros f (e & g & He & _ & ->)%elem_of_edge_routes. cbn [fst atoms_match].
      destruct (bytes_eqb (fst e) s) eqn:Hes; [|done]. apply bytes_eqb_eq in Hes.
      exfalso. apply Hk. rewrite <- Hes. by apply list_elem_of_fmap_2.
    + intros e f _ (e' & g & He & _ & ->)%elem_of_edge_routes _. unfold Walk.matches. cbn [fst atoms_match].
      destruct (bytes_eqb (fst e') s) eqn:Hes; [|done]. apply bytes_eqb_eq in Hes.
      exfalso. apply Hk. rewrite <- Hes. by apply list_elem_of_fmap_2.
  - change (search_literals VERBS w seg s d m) with (orelse None (search_literals VERBS w seg s d m)).
    apply best_app.
    + apply under_no_match. intros atoms. cbn. by rewrite Hks.
    + apply IH; [done|]. intros e He. apply Hb. by right.
    + intros e f (g & _ & ->)%elem_of_under _. unfold Walk.matches. cbn [fst atoms_match]. by rewrite Hks.
Qed.

Lemma best_affixes s ss d (m : list (bytes * bytes * RtNode)) :
  StronglySorted (fun x y => affix_cmp (fst x) (fst y) = Lt) m ->
  (forall e, e ∈ m -> best ss (search (snd e) (S d)) (rt_routes (snd e))) ->
  best (s :: ss) (search_affixes VERBS w seg s d m)
    (concat ((fun e => under (AAffix (fst (fst e)) (snd (fst e))) (rt_routes (snd e))) <$> m)).
Proof.
  induction 1 as [|[[p q] c] m Hs IH Hall]; intros Hb; [by intros f []%not_elem_of_nil|].
  cbn [search_affixes]. rewrite fmap_cons. cbn [concat fst snd]. apply best_app.
  - destruct (affix_matches s p q) eqn:Hm.
    + apply best_under; [intros; cbn; by rewrite Hm|]. apply (Hb (p, q, c)). by left.
    + apply under_no_match. intros atoms. cbn. by rewrite Hm.
  - apply IH. intros e He. apply Hb. by right.
  - intros e f (g & _ & ->)%elem_of_under Hf _ _.
    apply (elem_of_edge_routes (fun k => AAffix (fst k) (snd k))) in Hf as (e' & g' & He & _ & ->).
    rewrite Forall_forall in Hall. specialize (Hall _ He). destruct e' as [[p' q'] c']. cbn [fst] in Hall.
    cbn [fst precedes]. cbn [snd]. rewrite decide_False.
    + cbn. by apply bool_decide_eq_true_2.
    + intros [= -> ->]. by rewrite affix_cmp_refl in Hall.
Qed.

(** Every route below the node fits into the recorded segments. *)
Definition recorded (n : RtNode) (d : nat) : Prop :=
  count <= cap \/ forall f, f ∈ rt_routes n -> d + length (fst f) <= cap.

Lemma recorded_child n d (a : Atom) c : recorded n d ->
  (forall g, g ∈ rt_routes c -> (a :: fst g, snd g) ∈ rt_routes n) -> recorded c (S d).
Proof.
  intros [H|H] Hin; [by left|right]. intros g Hg. specialize (H _ (Hin g Hg)). cbn in H. lia.
Qed.

Lemma elem_of_concat_2 {A B} (f : A -> list B) (l : list A) x y :
  x ∈ l -> y ∈ f x -> y ∈ concat (f <$> l).
Proof.
  induction l as [|z l IH]; [intros []%not_elem_of_nil|]. rewrite fmap_cons. cbn.
  intros [->|Hx]%elem_of_cons Hy; apply elem_of_app; [by left|right; by apply IH].
Qed.

Lemma elem_of_under_2 a es g : g ∈ es -> (a :: fst g, snd g) ∈ under a es.
Proof. intros H. apply list_elem_of_fmap. exists g. by destruct g. Qed.

Section node.
Context (literals : list (bytes * RtNode)) (affix : list (bytes * bytes * RtNode)).
Context (single : option RtNode) (exact rest : list Leaf).
Let node : RtNode := mkRt literals affix single exact rest.

Lemma recorded_literal e d : recorded node d -> e ∈ literals -> recorded (snd e) (S d).
Proof.
  intros H He. eapply (recorded_child _ _ (ALiteral (fst e))); [exact H|]. intros g Hg. cbn.
  apply elem_of_app. left. eapply elem_of_concat_2; [exact He|]. by apply elem_of_under_2.
Qed.

Lemma recorded_affix e d : recorded node d -> e ∈ affix -> recorded (snd e) (S d).
Proof.
  intros H He. eapply (recorded_child _ _ (AAffix (fst (fst e)) (snd (fst e)))); [exact H|].
  intros g Hg. cbn. apply elem_of_app. right. apply elem_of_app. left.
  eapply elem_of_concat_2; [exact He|]. by apply elem_of_under_2.
Qed.

Lemma recorded_single c d : recorded node d -> single = Some c -> recorded c (S d).
Proof.
  intros H Hc. eapply (recorded_child _ _ ASingle); [exact H|]. intros g Hg. cbn. rewrite Hc.
  do 2 (apply elem_of_app; right). apply elem_of_app. left. by apply elem_of_under_2.
Qed.

(** Which atoms the parts of a node start with. *)
Definition head_rank (e : entry_t) : nat :=
  match fst e with [] => 4 | a :: _ => atom_rank a end.

Lemma precedes_rank (e f : entry_t) :
  head_rank e < head_rank f -> fst f <> [] -> precedes (fst e) (fst f) = true.
Proof.
  unfold head_rank. intros Hr Hne. destruct (fst f) as [|y b]; [done|].
  destruct (fst e) as [|x a]; [done|]. cbn in *. rewrite decide_False by (intros ->; lia).
  destruct x, y; cbn in *; try lia; apply Nat.ltb_lt; lia.
Qed.

Lemma literal_rank e : e ∈ concat ((fun e => under (ALiteral (fst e)) (rt_routes (snd e))) <$> literals) ->
  head_rank e = 0.
Proof. by intros (? & ? & _ & _ & ->)%elem_of_edge_routes. Qed.

Lemma affix_rank e :
  e ∈ concat ((fun e => under (AAffix (fst (fst e)) (snd (fst e))) (rt_routes (snd e))) <$> affix) ->
  head_rank e = 1.
Proof.
  intros H. by apply (elem_of_edge_routes (fun k => AAffix (fst k) (snd k)))
    in H as (? & ? & _ & _ & ->).
Qed.

Lemma single_rank e :
  e ∈ match single with Some c => under ASingle (rt_routes c) | None => [] end -> head_rank e = 2.
Proof. destruct single; [by intros (? & _ & ->)%elem_of_under|by intros ?%not_elem_of_nil]. Qed.

Lemma rest_rank e : e ∈ (fun l => ([ARest], l) : entry_t) <$> rest -> head_rank e = 3.
Proof. by intros (? & -> & _)%list_elem_of_fmap. Qed.

Lemma exact_rank e : e ∈ (fun l => ([], l) : entry_t) <$> exact -> fst e = [].
Proof. by intros (? & -> & _)%list_elem_of_fmap. Qed.

Lemma search_best_inner d s :
  rt_ok node -> seg d = Some s -> d < count ->
  (forall e, e ∈ literals -> best (drop (S d) segs) (search (snd e) (S d)) (rt_routes (snd e))) ->
  (forall e, e ∈ affix -> best (drop (S d) segs) (search (snd e) (S d)) (rt_routes (snd e))) ->
  (forall c, single = Some c -> best (drop (S d) segs) (search c (S d)) (rt_routes c)) ->
  best (s :: drop (S d) segs) (search node d) (rt_routes node).
Proof.
  intros Hok Hs Hd Hl Ha Hsg. inversion_clear Hok as [? ? ? ? ? H1 H2 _ _ _ H6 H7].
  rewrite search_eq, Hs. cbn [node rt_literals rt_affix rt_single rt_exact rt_rest rt_routes].
  assert (Hne : forall f, matches (s :: drop (S d) segs) f = true -> fst f <> []).
  { intros f Hm Hf. unfold Walk.matches in Hm. by rewrite Hf in Hm. }
  apply best_app; [by apply best_literals|apply best_app; [by apply best_affixes|apply best_app; [|apply best_app|]|]|].
  - unfold search_single. destruct single as [c|]; [|by intros f []%not_elem_of_nil].
    destruct (bytes_eqb s []) eqn:Hse.
    + apply under_no_match. intros. cbn. by rewrite Hse.
    + apply best_under; [intros; cbn; by rewrite Hse|by apply Hsg].
  - fold count. rewrite (proj2 (Nat.eqb_neq count d)) by lia.
    apply best_None. by intros f ->%exact_rank.
  - fold count. rewrite (proj2 (Nat.leb_le d count)) by lia. by apply best_dispatch.
  - intros e f He%exact_rank _ Hm%Hne. done.
  - intros e f He%single_rank Hf _ Hm%Hne. apply precedes_rank; [|done].
    apply elem_of_app in Hf as [Hf%exact_rank|Hf%rest_rank]; [done|lia].
  - intros e f He%affix_rank Hf _ Hm%Hne. apply precedes_rank; [|done].
    repeat apply elem_of_app in Hf as [Hf|Hf];
      [apply single_rank in Hf|apply exact_rank in Hf; done|apply rest_rank in Hf]; lia.
  - intros e f He%literal_rank Hf _ Hm%Hne. apply precedes_rank; [|done].
    repeat apply elem_of_app in Hf as [Hf|Hf]; [apply affix_rank in Hf|apply single_rank in Hf
      |apply exact_rank in Hf; done|apply rest_rank in Hf]; lia.
Qed.

(** At the end of the path only the leaves of the node can match. *)
Lemma search_best_end d :
  rt_ok node -> d = count -> best [] (search_leaves VERBS w exact rest d) (rt_routes node).
Proof.
  intros Hok ->. inversion_clear Hok as [? ? ? ? ? H1 H2 _ _ _ H6 H7].
  unfold search_leaves. fold count. rewrite Nat.eqb_refl, Nat.leb_refl.
  cbn [node rt_routes].
  assert (Hedge : forall f k, head_rank f = k -> k < 3 -> atoms_match (fst f) [] = false).
  { intros [[|a atoms] l] k; unfold head_rank; cbn; [lia|]. intros <-.
    destruct a; cbn; [done|done|lia|done]. }
  change (orelse (dispatch VERBS w exact) ?r)
    with (orelse None (orelse None (orelse None (orelse (dispatch VERBS w exact) r)))).
  assert (Hm : forall (e f : entry_t) k, head_rank e = k -> k < 3 -> matches [] e = true ->
    precedes (fst e) (fst f) = true).
  { intros e f k He Hk Hme. unfold Walk.matches in Hme. by rewrite (Hedge e k) in Hme. }
  apply best_app; [apply best_None|apply best_app;
    [apply best_None|apply best_app; [apply best_None|apply best_app|]|]|].
  - intros f Hf%literal_rank. eapply Hedge; [exact Hf|lia].
  - intros f Hf%affix_rank. eapply Hedge; [exact Hf|lia].
  - intros f Hf%single_rank. eapply Hedge; [exact Hf|lia].
  - by apply best_dispatch.
  - by apply best_dispatch.
  - intros e f He%exact_rank Hf _ _. rewrite He.
    apply list_elem_of_fmap in Hf as (l & -> & _). done.
  - intros e f He%single_rank _ Hme _. eapply Hm; [exact He|lia|done].
  - intros e f He%affix_rank _ Hme _. eapply Hm; [exact He|lia|done].
  - intros e f He%literal_rank _ Hme _. eapply Hm; [exact He|lia|done].
Qed.

(** Past the recorded segments there is no route left. *)
Lemma search_best_beyond d :
  recorded node d -> cap <= d -> d < count ->
  best (drop d segs) (search_leaves VERBS w exact rest d) (rt_routes node).
Proof.
  intros [Hr|Hr] Hcap Hd; [lia|].
  assert (Hnil : forall f, f ∈ rt_routes node -> fst f = []).
  { intros f Hf. specialize (Hr f Hf). destruct (fst f); [done|cbn in Hr; lia]. }
  assert (rest = []) as ->.
  { destruct rest as [|l ls]; [done|]. specialize (Hnil ([ARest], l)). cbn in Hnil.
    exfalso. assert (H : [ARest] = []); [|done]. apply Hnil.
    do 4 (apply elem_of_app; right). by left. }
  unfold search_leaves. fold count. rewrite (proj2 (Nat.eqb_neq count d)) by lia.
  cbn [orelse]. assert ((if d <=? count then dispatch VERBS w [] else None) = None) as -> by by case_match.
  apply best_None. intros f Hf. rewrite (Hnil f Hf). cbn.
  destruct (drop d segs) eqn:Hdr; [|done]. apply (f_equal length) in Hdr.
  rewrite length_drop in Hdr. cbn in Hdr. lia.
Qed.
End node.

Lemma search_best n d :
  rt_ok n -> d <= count -> recorded n d -> best (drop d segs) (search n d) (rt_routes n).
Proof.
  revert d; induction n as [literals affix single exact rest IHl IHa IHs] using RtNode_ind'.
  intros d Hok Hd Hrec. pose proof Hok as Hok'. inversion_clear Hok' as [? ? ? ? ? _ _ H3 H4 H5 _ _].
  destruct (seg d) as [s|] eqn:Hs.
  - pose proof Hs as Hs'. unfold seg in Hs'. destruct (d <? cap); [|done].
    rewrite (drop_S _ _ _ Hs'). apply lookup_lt_Some in Hs'.
    rewrite Forall_forall in IHl. rewrite Forall_forall in IHa.
    rewrite Forall_forall in H3. rewrite Forall_forall in H4.
    apply search_best_inner; [done|done|lia| | |].
    + intros e He. apply IHl; [done|by apply H3|lia|by eapply recorded_literal].
    + intros e He. apply IHa; [done|by apply H4|lia|by eapply recorded_affix].
    + intros c Hc. apply IHs; [done|by apply H5|lia|by eapply recorded_single].
  - rewrite search_eq, Hs. cbn [rt_exact rt_rest].
    destruct (decide (d = count)) as [->|Hne].
    + rewrite drop_ge by lia. by apply search_best_end.
    + apply search_best_beyond; [done| |lia]. unfold seg in Hs.
      destruct (Nat.ltb_spec d cap); [|done]. apply lookup_ge_None in Hs. lia.
Qed.
End search_best.

(** ** The compiled trie *)

Lemma affix_cmp_eq x y : affix_cmp x y = Eq <-> x = y.
Proof.
  unfold affix_cmp. split.
  - destruct (cmp (affix_specificity _ _) _); cbn [then_with]; [|done..]. apply cmp_eq.
  - intros ->. apply affix_cmp_refl.
Qed.

Lemma affix_cmp_antisym x y : affix_cmp y x = CompOpp (affix_cmp x y).
Proof.
  unfold affix_cmp. rewrite (cmp_antisym x y), cmp_antisym.
  by destruct (cmp (affix_specificity (fst y) _) _).
Qed.

Lemma affix_cmp_trans x y z : affix_cmp x y = Lt -> affix_cmp y z = Lt -> affix_cmp x z = Lt.
Proof.
  unfold affix_cmp. set (sx := affix_specificity (fst x) _). set (sy := affix_specificity (fst y) _).
  set (sz := affix_specificity (fst z) _). cbn [nat_ord cmp].
  destruct (Nat.compare_spec sy sx), (Nat.compare_spec sz sy), (Nat.compare_spec sz sx);
    cbn [then_with]; try done; try lia. apply cmp_lt_trans.
Qed.

Lemma affix_cmp_le_trans x y z :
  affix_cmp x y <> Gt -> affix_cmp y z <> Gt -> affix_cmp x z <> Gt.
Proof.
  destruct (affix_cmp x y) eqn:Hxy, (affix_cmp y z) eqn:Hyz; try done; intros _ _.
  - apply affix_cmp_eq in Hxy as ->. by rewrite Hyz.
  - apply affix_cmp_eq in Hxy as ->. by rewrite Hyz.
  - apply affix_cmp_eq in Hyz as ->. by rewrite Hxy.
  - by rewrite (affix_cmp_trans x y z).
Qed.

Lemma affix_sorted_strict {A} (m : list (bytes * bytes * A)) : NoDup m.*1 ->
  StronglySorted (fun x y => affix_cmp (fst x) (fst y) = Lt)
    (sort_by (fun x y => affix_cmp (fst x) (fst y)) m).
Proof.
  intros Hnd. set (c := fun x y : bytes * bytes * A => affix_cmp (fst x) (fst y)).
  pose proof (sort_by_sorted c m (fun x y => affix_cmp_antisym _ _)
    (fun x y z => affix_cmp_le_trans _ _ _)) as Hs.
  pose proof (sort_by_perm c m) as Hp.
  assert (Hnd' : NoDup (sort_by c m).*1) by (by rewrite Hp). clear Hp Hnd.
  induction Hs as [|x l Hs IH Hall]; [constructor|]. rewrite fmap_cons in Hnd'.
  apply NoDup_cons in Hnd' as [Hx Hnd]. constructor; [by apply IH|].
  rewrite Forall_forall in *. intros y Hy. specialize (Hall y Hy). unfold c in Hall.
  destruct (affix_cmp (fst x) (fst y)) eqn:Hc; [|done..]. apply affix_cmp_eq in Hc.
  exfalso. apply Hx. rewrite Hc. by apply list_elem_of_fmap_2.
Qed.

Lemma concat_perm {A} (l l' : list (list A)) : l ≡ₚ l' -> concat l ≡ₚ concat l'.
Proof.
  induction 1; cbn; [done|by f_equiv| |by etrans]. by rewrite !app_assoc, (Permutation_app_comm x).
Qed.

Lemma concat_perm_ext {A B} (f g : A -> list B) (l : list A) :
  Forall (fun x => f x ≡ₚ g x) l -> concat (f <$> l) ≡ₚ concat (g <$> l).
Proof. induction 1; cbn; [done|]. by f_equiv. Qed.

Lemma compile_ref_literals ls afs sg ex rs :
  rt_literals (compile_ref (mkNode ls afs sg ex rs))
  ≡ₚ (fun e => (fst e, compile_ref (snd e))) <$> ls.
Proof.
  cbn. rewrite sort_by_perm. by rewrite <- list_fmap_compose.
Qed.

Lemma compile_ref_routes n : rt_routes (compile_ref n) ≡ₚ node_routes n.
Proof.
  induction n as [ls afs sg ex rs IHl IHa IHs] using Node_ind'.
  pose proof (compile_ref_literals ls afs sg ex rs) as Hl.
  cbn [compile_ref rt_literals] in *. cbn [rt_routes node_routes].
  f_equiv; [|f_equiv; [|f_equiv]].
  - rewrite (concat_perm _ _ (fmap_Permutation _ _ _ Hl)), <- list_fmap_compose.
    apply concat_perm_ext. eapply Forall_impl; [exact IHl|]. intros e He. cbn. by rewrite He.
  - rewrite (concat_perm _ _ (fmap_Permutation _ _ _ (sort_by_perm _ _))), <- list_fmap_compose.
    apply concat_perm_ext. eapply Forall_impl; [exact IHa|]. intros e He. cbn. by rewrite He.
  - destruct sg as [c|]; [|done]. by rewrite IHs.
Qed.

Lemma compile_ref_ok b n : node_ok b n -> rt_ok (compile_ref n).
Proof.
  induction n as [ls afs sg ex rs IHl IHa IHs] using Node_ind'. intros Hok.
  inversion_clear Hok as [? ? ? ? ? H1 H2 H3 H4 H5 [H6 _] [H7 _]].
  pose proof (compile_ref_literals ls afs sg ex rs) as Hl.
  cbn [compile_ref rt_literals] in *. constructor.
  - rewrite Hl, <- list_fmap_compose. by apply btree_sorted_NoDup.
  - apply affix_sorted_strict. rewrite <- list_fmap_compose. by apply btree_sorted_NoDup.
  - rewrite Hl, Forall_fmap. rewrite Forall_forall in *. intros e He. cbn. eauto.
  - rewrite sort_by_perm, Forall_fmap. rewrite Forall_forall in *. intros e He. cbn. eauto.
  - intros c Hc. destruct sg as [c'|]; [|done]. injection Hc as <-. eauto.
  - done.
  - done.
Qed.

(** ** Main result *)

(** The segments a scan of [body] into buffers of size [cap] records. *)
Definition recorded_segment (body : bytes) (cap d : nat) : option bytes :=
  if d <? cap then path_segments body !! d else None.

Lemma recorded_segment_count arch body starts ends d s :
  recorded_segment body (Nat.min (length starts) (length ends)) d = Some s ->
  d < p_count (scan_path arch body starts ends).
Proof.
  rewrite scan_path_count. unfold recorded_segment. case_match; [|done]. apply lookup_lt_Some.
Qed.

(** C2. The iterative descent with its explicit stack terminates within as many
    rounds as the trie has nodes, never panics, and returns exactly what the plain
    recursive backtracking search returns, whatever the trie, the request and the
    size of the offset buffers; the fast paths and the skipped affix edges lose
    nothing. *)
Theorem descend_is_search VERBS arch body starts ends method v node depth :
  let w := mkWalk (scan_path arch body starts ends) method v in
  descend_iterative VERBS w node depth
  = Ok (search VERBS w (recorded_segment body (Nat.min (length starts) (length ends))) node depth).
Proof.
  intros w. apply descend_iterative_search.
  - intros d. apply segment_spec.
  - intros d s. apply recorded_segment_count.
Qed.
