(* ===== verification/Resolver.v ===== *)
(** * routerama: resolvers and their registration

    Models [src/crates/routerama/src/raw_resolver.rs], [captures.rs],
    [raw_match.rs], [http_method.rs], [dyn_route.rs], [dyn_builder.rs],
    [build_error_entry.rs] and [configuration_error.rs]: building a resolver from
    routes, resolving a method and path to the matching route with its captured
    values, and the builder that checks dynamic registrations. *)

From S2P Require Import Prelude Collections PathTemplate Scan Trie RtTrie Walk.

(** The callees that cannot return an error. *)
Definition infallible {E A} (x : outcome unit A) : outcome E A :=
  match x with Ok a => Ok a | Err _ | Panic => Panic end.

(** ** Captures *)

(** [.expect(..)] on an optional slice. *)
Definition expect_some {A} (x : outcome unit (option A)) : outcome unit A :=
  match x with Ok (Some a) => Ok a | Ok None | Err _ | Panic => Panic end.

Definition materialize (plan : VarPlan) (path : ScannedPath) : outcome unit bytes :=
  match plan with
  | PSpan _ _ a b => expect_some (capture path a b)
  | PRest _ _ a => expect_some (rest_from path a)
  | PAffix _ _ a prefix_len suffix_len => expect_some (affix path a prefix_len suffix_len)
  end.

Record Captures : Type := mkCaptures {
  c_leaf : Leaf;
  c_path : ScannedPath;
  c_order : list nat }.

Definition Captures_get (c : Captures) (index : nat) : outcome unit (option bytes) :=
  match c_order c !! index with
  | None => Ok None
  | Some position =>
      match l_vars (c_leaf c) !! position with
      | None => Ok None
      | Some plan => let? v := materialize plan (c_path c) in Ok (Some v)
      end
  end.

(** ** Matches *)

Record RawMatch (T : Type) : Type := mkMatch {
  m_leaf : Leaf;
  m_values : list bytes;
  m_value : T }.
Arguments mkMatch {T}. Arguments m_leaf {T}. Arguments m_values {T}. Arguments m_value {T}.

Definition match_name {T} (m : RawMatch T) : bytes := l_name (m_leaf m).

(** [vars.iter().position(|plan| plan.key() == name)]. *)
Fixpoint plan_position (name : bytes) (plans : list VarPlan) : option nat :=
  match plans with
  | [] => None
  | p :: tl => if bytes_eqb (plan_key p) name then Some 0 else S <$> plan_position name tl
  end.

Definition match_capture {T} (m : RawMatch T) (name : bytes) : option bytes :=
  match plan_position name (l_vars (m_leaf m)) with
  | Some index => m_values m !! index
  | None => None
  end.

Definition match_captures {T} (m : RawMatch T) : list (bytes * bytes) :=
  zip (plan_key <$> l_vars (m_leaf m)) (m_values m).

(** ** Resolvers *)

Definition uses_heap_offsets (segment_count : nat) : bool := INLINE_SEGMENTS <? segment_count.

Record RawResolver (T : Type) : Type := mkResolver {
  rr_root : RtNode;
  rr_max_segments : nat;
  rr_any_verb : bool;
  payloads : list T }.
Arguments mkResolver {T}. Arguments rr_root {T}. Arguments rr_max_segments {T}.
Arguments rr_any_verb {T}. Arguments payloads {T}.

Definition resolver_compile {T} (trie : Trie) (values : list T) : outcome unit (RawResolver T) :=
  let? root := compile (t_root trie) in
  Ok {| rr_root := root; rr_max_segments := max_segments trie; rr_any_verb := any_verb trie;
        payloads := values |}.

Definition with_trie {T} (values : list T) (trie : Trie) : outcome unit (RawResolver T) :=
  resolver_compile trie values.

Definition resolver_build `{UnicodeIdent} {T} (routes : list Route) (values : list T)
    : outcome unit (RawResolver T) :=
  let? trie := build_trie routes in resolver_compile trie values.

Definition resolver_new `{UnicodeIdent} (routes : list Route) : outcome unit (RawResolver unit) :=
  resolver_build routes (replicate (length routes) tt).

Definition with_values `{UnicodeIdent} {T} (entries : list (Route * T))
    : outcome unit (RawResolver T) :=
  resolver_build entries.*1 entries.*2.

Definition splits_verbs {T} (r : RawResolver T) : bool := rr_any_verb r.

Definition force_verb_split {T} (force : bool) (r : RawResolver T) : RawResolver T :=
  {| rr_root := rr_root r; rr_max_segments := rr_max_segments r;
     rr_any_verb := rr_any_verb r || force; payloads := payloads r |}.

Section resolve.
Context {T R : Type} (arch : Arch) (r : RawResolver T).
Context (finish : Leaf -> T -> ScannedPath -> outcome unit R).

Definition finish_scanned (method : bytes) (v : option bytes) (path : ScannedPath)
    : outcome unit (option R) :=
  let walk := mkWalk path method v in
  let? leaf := (if rr_any_verb r then descend_iterative true walk (rr_root r) 0
                else descend_iterative false walk (rr_root r) 0) in
  match leaf with
  | None => Ok None
  | Some leaf =>
      let? value := index_at (payloads r) (route_index leaf) in
      let? result := finish leaf value path in
      Ok (Some result)
  end.

Definition resolve_with_heap_offsets (method body : bytes) (v : option bytes) (segment_count : nat)
    : outcome unit (option R) :=
  let capacity := Nat.min segment_count (rr_max_segments r) in
  let heap_offsets := replicate (capacity * 2) 0 in
  let path := scan_path arch body (take capacity heap_offsets) (drop capacity heap_offsets) in
  finish_scanned method v path.

Definition resolve_scanned_checked (method path : bytes) : outcome InvalidPath (option R) :=
  let? (body, v) := infallible (if rr_any_verb r then split_verb path else Ok (path, None)) in
  let inline_starts := replicate INLINE_SEGMENTS 0 in
  let inline_ends := replicate INLINE_SEGMENTS 0 in
  if rr_max_segments r <=? INLINE_SEGMENTS then
    let path := scan_path arch body (take (rr_max_segments r) inline_starts)
                  (take (rr_max_segments r) inline_ends) in
    if negb (p_valid path) then Err mkInvalidPath
    else
      let walk := mkWalk path method v in
      let? leaf := infallible
        (if rr_any_verb r then descend_iterative true walk (rr_root r) 0
         else descend_iterative false walk (rr_root r) 0) in
      match leaf with
      | None => Ok None
      | Some leaf =>
          let? value := infallible (index_at (payloads r) (route_index leaf)) in
          let? result := infallible (finish leaf value path) in
          Ok (Some result)
      end
  else
    let path := scan_path arch body inline_starts inline_ends in
    if negb (p_valid path) then Err mkInvalidPath
    else if uses_heap_offsets (p_count path) then
      infallible (resolve_with_heap_offsets method body v (p_count path))
    else infallible (finish_scanned method v path).
End resolve.

(** [for plan in &leaf.vars { values.push(materialize(plan, path)) }]. *)
Fixpoint materialize_all (plans : list VarPlan) (path : ScannedPath) : outcome unit (list bytes) :=
  match plans with
  | [] => Ok []
  | plan :: tl =>
      let? v := materialize plan path in
      let? vs := materialize_all tl path in
      Ok (v :: vs)
  end.

Definition resolve_checked {T} (arch : Arch) (r : RawResolver T) (method path : bytes)
    : outcome InvalidPath (option (RawMatch T)) :=
  resolve_scanned_checked arch r
    (fun leaf value path =>
       let? values := materialize_all (l_vars leaf) path in Ok (mkMatch leaf values value))
    method path.

(** [.ok().flatten()]. *)
Definition resolve {T} (arch : Arch) (r : RawResolver T) (method path : bytes)
    : outcome unit (option (RawMatch T)) :=
  match resolve_checked arch r method path with
  | Ok m => Ok m
  | Err _ => Ok None
  | Panic => Panic
  end.

(** ** Capture plans *)

(** The value a plan stands for. *)
Definition capture_value (segs : list bytes) (plan : VarPlan) : bytes :=
  match plan with
  | PSpan _ _ a b => join c_slash (take (S (b - a)) (drop a segs))
  | PRest _ _ a => join c_slash (drop a segs)
  | PAffix _ _ a prefix_len suffix_len =>
      let s := default [] (segs !! a) in
      take (length s - prefix_len - suffix_len) (drop prefix_len s)
  end.

(** A plan that fits a flattened template. *)
Definition plan_ok (atoms : list Atom) (plan : VarPlan) : Prop :=
  match plan with
  | PSpan _ _ a b => a <= b /\ b < length atoms /\ atoms !! b <> Some ARest
  | PRest _ _ a => a < length atoms /\ last atoms = Some ARest
  | PAffix _ _ a prefix_len suffix_len =>
      exists p q, atoms !! a = Some (AAffix p q) /\ length p = prefix_len /\ length q = suffix_len
  end.

Definition affixes_ascii (atoms : list Atom) : Prop :=
  forall p q, AAffix p q ∈ atoms ->
    forallb (in_range 0 127) p = true /\ forallb (in_range 0 127) q = true.

Lemma seg_vars_spec segs start v : v ∈ seg_vars segs start ->
  start <= v_first v /\ v_first v <= v_last v /\ v_last v < start + length (segs ≫= seg_atoms)
  /\ match v_affix v with
     | Some (pl, sl) =>
         v_last v = v_first v /\ exists p q,
           (segs ≫= seg_atoms) !! (v_first v - start) = Some (AAffix p q)
           /\ length p = pl /\ length q = sl
     | None => True
     end.
Proof.
  revert start; induction segs as [|s segs IH]; intros start; [intros []%not_elem_of_nil|].
  pose proof (seg_atoms_nonempty s) as Hne.
  assert (Hrec : v ∈ seg_vars segs (start + length (seg_atoms s)) ->
    start <= v_first v /\ v_first v <= v_last v
    /\ v_last v < start + length ((s :: segs) ≫= seg_atoms)
    /\ match v_affix v with
       | Some (pl, sl) =>
           v_last v = v_first v /\ exists p q,
             ((s :: segs) ≫= seg_atoms) !! (v_first v - start) = Some (AAffix p q)
             /\ length p = pl /\ length q = sl
       | None => True
       end).
  { intros (H1 & H2 & H3 & H4)%IH. cbn [mbind list_bind]. rewrite length_app.
    split_and!; [lia..|]. destruct (v_affix v) as [[pl sl]|]; [|done].
    destruct H4 as (H4 & p & q & H5 & H6). split; [done|]. exists p, q. split; [|done].
    rewrite lookup_app_r by lia. by replace (_ - _ - _) with (v_first v - (start + length (seg_atoms s))) by lia. }
  destruct s as [| | |vr|p n q]; cbn [seg_vars]; try exact Hrec;
    (intros [->|Hv]%elem_of_cons; [|by apply Hrec]);
    cbn [v_first v_last v_affix mbind list_bind]; rewrite length_app; split_and!; try lia; try done.
  exists p, q. by rewrite Nat.sub_diag.
Qed.

Lemma var_plan_ok `{UnicodeIdent} segs v :
  validate_rest_position segs = Ok tt -> v ∈ seg_vars segs 0 ->
  let atoms := segs ≫= seg_atoms in plan_ok atoms (var_plan (ends_with_rest atoms) (length atoms) v).
Proof.
  intros Hr%template_atoms_ok (_ & H1 & H2 & H3)%seg_vars_spec atoms. fold atoms in Hr, H2, H3.
  cbn [Nat.add] in H2. unfold var_plan.
  destruct (v_affix v) as [[pl sl]|].
  - destruct H3 as (_ & p & q & H3 & H4). rewrite Nat.sub_0_r in H3. by exists p, q.
  - unfold ends_with_rest. case_bool_decide as Hlast; cbn [andb].
    + destruct (Nat.eqb_spec (v_last v) (length atoms - 1)) as [Heq|Hne]; cbn.
      * split; [lia|done].
      * split_and!; [lia|lia|]. intros Hl%Hr. lia.
    + cbn. split_and!; [lia|lia|]. intros Hl. apply Hlast. rewrite last_lookup.
      by rewrite <- (Hr _ Hl).
Qed.

Lemma literal_char_ascii b : literal_char b = true -> in_range 0 127 b = true.
Proof.
  unfold literal_char, is_literal_punct, is_ascii_alphanumeric, is_ascii_alphabetic, is_ascii_digit.
  unfold in_range. cbn [existsb]. rewrite !orb_true_iff, !andb_true_iff, !Z.leb_le, !Z.eqb_eq. lia.
Qed.

Lemma valid_literal_ascii s : is_valid_literal s = true -> forallb (in_range 0 127) s = true.
Proof.
  intros Hs. apply forallb_forall. intros x Hx%list_elem_of_In.
  apply literal_char_ascii. by eapply valid_literal_chars.
Qed.

Lemma template_affixes_ascii segs : Forall segment_wf segs -> affixes_ascii (segs ≫= seg_atoms).
Proof.
  intros Hwf p q (s & Hpq & Hs)%list_elem_of_bind. rewrite Forall_forall in Hwf.
  specialize (Hwf s Hs). destruct s as [| | |v|p' n q']; cbn in Hpq.
  1-3: apply list_elem_of_singleton in Hpq; done.
  - apply list_elem_of_fmap in Hpq as (x & Hx & _). unfold atom_of_piece in Hx. by case_match.
  - apply list_elem_of_singleton in Hpq. injection Hpq as -> ->.
    destruct Hwf as (H1 & _ & H2 & _). by split; apply valid_literal_ascii.
Qed.

Lemma affix_matches_split s p q : affix_matches s p q = true ->
  exists m, s = p ++ m ++ q /\ m <> [].
Proof.
  unfold affix_matches, starts_with, ends_with. 
  intros [[Hl Hp]%andb_true_iff Hq]%andb_true_iff.
  apply andb_true_iff in Hp as [_ Hp%bytes_eqb_eq]. apply andb_true_iff in Hq as [_ Hq%bytes_eqb_eq].
  apply Nat.ltb_lt in Hl.
  exists (take (length s - length q - length p) (drop (length p) s)). split.
  - rewrite <- (take_drop (length p) s) at 1. rewrite Hp. f_equal.
    rewrite <- (take_drop (length s - length q - length p) (drop (length p) s)) at 1.
    f_equal. rewrite drop_drop. etransitivity; [|exact Hq]. f_equal. lia.
  - intros Hn%(f_equal length). rewrite length_take, length_drop in Hn. cbn in Hn. lia.
Qed.

(** An atom of a matching template has its segment. *)
Lemma atoms_match_lookup atoms segs i a :
  atoms_ok atoms -> atoms_match atoms segs = true -> atoms !! i = Some a -> a <> ARest ->
  exists s, segs !! i = Some s
    /\ match a with AAffix p q => affix_matches s p q = true | _ => True end.
Proof.
  intros Hok. revert segs i Hok; induction atoms as [|x atoms IH]; intros segs i Hok Hm Hi Ha; [done|].
  assert (Hx : x <> ARest).
  { intros ->. specialize (Hok 0 eq_refl). destruct atoms; [|done]. destruct i; [|done]. cbn in Hi. congruence. }
  assert (Hok' : atoms_ok atoms).
  { intros j Hj. specialize (Hok (S j) Hj). cbn in Hok. lia. }
  destruct x as [t| | |p q]; [| |done|]; destruct segs as [|s segs]; try done;
    cbn [atoms_match] in Hm; apply andb_true_iff in Hm as [Hs Hm];
    (destruct i as [|i]; [injection Hi as <-; by exists s|]); by apply (IH segs i).
Qed.

Lemma atoms_match_length atoms segs : atoms_ok atoms -> atoms_match atoms segs = true ->
  if ends_with_rest atoms then length atoms <= S (length segs) else length segs = length atoms.
Proof.
  intros Hok Hm. destruct (atoms_ok_split atoms Hok) as (pre & Hpre & Heq).
  assert (Hgo : forall tail segs, atoms_match (pre ++ tail) segs = true ->
    length pre <= length segs /\ (tail = [] -> length segs = length pre)).
  { clear -Hpre. induction Hpre as [|a pre Ha Hpre IH]; intros tail segs Hm.
    - split; [cbn; lia|]. intros ->. by destruct segs.
    - destruct a as [t| | |p q], segs as [|s segs]; try done;
        cbn [app atoms_match] in Hm; apply andb_true_iff in Hm as [_ Hm];
        destruct (IH tail segs Hm) as [H1 H2]; cbn; split; try lia; intros; f_equal; auto. }
  destruct (ends_with_rest atoms); rewrite Heq in Hm |- *; destruct (Hgo _ _ Hm) as [H1 H2];
    rewrite length_app; cbn; [lia|]. rewrite H2 by done. lia.
Qed.

Section materialize.
Context (arch : Arch) (body : bytes) (starts ends : list nat) (atoms : list Atom).
Let cap : nat := Nat.min (length starts) (length ends).
Let segs : list bytes := path_segments body.
Context (Hutf8 : utf8_valid body = true).
Context (Hok : atoms_ok atoms) (Hascii : affixes_ascii atoms).
Context (Hmatch : atoms_match atoms segs = true).
Context (Hcap : Nat.min (length segs) (length atoms) <= cap).

Lemma materialize_ok plan : plan_ok atoms plan ->
  materialize plan (scan_path arch body starts ends) = Ok (capture_value segs plan).
Proof.
  destruct plan as [f k a b|f k a|f k a pl sl]; cbn [plan_ok materialize capture_value].
  - intros (Hab & Hb & Hnr). rewrite capture_spec. fold segs.
    destruct (lookup_lt_is_Some_2 atoms b Hb) as [x Hx].
    destruct (atoms_match_lookup atoms segs b x) as (s & Hs & _); [done..|congruence|].
    apply lookup_lt_Some in Hs. cbn [p_capacity scan_path]. fold cap.
    by rewrite (proj2 (Nat.leb_le a b)), !(proj2 (Nat.ltb_lt b _)) by lia.
  - intros [Ha Hl]. rewrite rest_spec. fold segs.
    pose proof (atoms_match_length _ _ Hok Hmatch) as Hlen. unfold ends_with_rest in Hlen.
    rewrite bool_decide_eq_true_2 in Hlen by done. cbn [p_capacity scan_path]. fold cap.
    destruct (Nat.eqb_spec a (length segs)) as [->|Hne]; [by rewrite drop_ge|].
    by rewrite !(proj2 (Nat.ltb_lt a _)) by lia.
  - intros (p & q & Hpq & <- & <-).
    destruct (atoms_match_lookup atoms segs a _ Hok Hmatch Hpq) as (s & Hs & Hm); [done|].
    destruct (affix_matches_split _ _ _ Hm) as (m & Hsm & _).
    pose proof (lookup_lt_Some _ _ _ Hs). pose proof (lookup_lt_Some _ _ _ Hpq).
    destruct (Hascii p q) as [Hp Hq]; [by eapply list_elem_of_lookup_2|].
    rewrite Hs. change (default [] (Some s)) with s. rewrite Hsm in Hs |- *.
    rewrite (affix_middle arch body starts ends a p m q); [|done|done|fold cap; lia|done..].
    cbn [expect_some]. f_equal. rewrite drop_app_length, !length_app.
    replace (_ - _ - _) with (length m) by lia. by rewrite take_app_length.
Qed.

Lemma materialize_all_ok plans : Forall (plan_ok atoms) plans ->
  materialize_all plans (scan_path arch body starts ends) = Ok (capture_value segs <$> plans).
Proof.
  induction 1 as [|p plans Hp Hps IH]; [done|]. cbn. by rewrite materialize_ok, IH.
Qed.
End materialize.

(** ** Resolution *)

(** The request a path stands for: its body and custom verb. *)
Lemma request_total (any : bool) path :
  exists body v, (if any then split_verb path else Ok (path, None)) = Ok (body, v)
    /\ (any = false -> v = None) /\ (utf8_valid path = true -> utf8_valid body = true).
Proof.
  destruct any; [|by exists path, None].
  destruct (split_verb_cases path) as [(body & v & -> & _ & ->)|(_ & ->)]; [|by exists path, None].
  exists body, (Some v). split_and!; [done..|]. by apply utf8_valid_before_ascii.
Qed.

(** Whichever buffers are used, the walk sees every segment a route can have. *)
Lemma resolve_scanned_unfold {T R} arch (r : RawResolver T) finish method path body v :
  (if rr_any_verb r then split_verb path else Ok (path, None)) = Ok (body, v) ->
  if forallb admissible (strip_slash body) then
    exists starts ends,
      Nat.min (length (path_segments body)) (rr_max_segments r) <= Nat.min (length starts) (length ends)
      /\ resolve_scanned_checked (R:=R) arch r finish method path
         = infallible (finish_scanned r finish method v (scan_path arch body starts ends))
  else resolve_scanned_checked (R:=R) arch r finish method path = Err mkInvalidPath.
Proof.
  intros Hreq. unfold resolve_scanned_checked. rewrite Hreq. cbn [infallible].
  rewrite !scan_path_valid, scan_path_count.
  destruct (forallb admissible (strip_slash body)); cbn [negb].
  - destruct (Nat.leb_spec (rr_max_segments r) INLINE_SEGMENTS) as [Hle|Hgt].
    + exists (take (rr_max_segments r) (replicate INLINE_SEGMENTS 0)),
        (take (rr_max_segments r) (replicate INLINE_SEGMENTS 0)).
      split; [|unfold finish_scanned].
      * rewrite length_take, length_replicate. lia.
      * destruct (if rr_any_verb r then descend_iterative true _ _ _ else _) as [[leaf|]| |];
          cbn [infallible]; try done.
        destruct (index_at _ _); cbn [infallible]; try done.
        by destruct (finish _ _ _).
    + unfold uses_heap_offsets. destruct (Nat.ltb_spec INLINE_SEGMENTS (length (path_segments body))).
      * unfold resolve_with_heap_offsets. eexists _, _. split; [|done].
        rewrite length_take, length_drop, length_replicate. lia.
      * eexists _, _. split; [|done]. rewrite length_replicate. lia.
  - by destruct (rr_max_segments r <=? INLINE_SEGMENTS).
Qed.

(** A registered route matches a request. *)
Definition route_matches (method : bytes) (v : option bytes) (segs : list bytes) (e : entry_t) : bool :=
  atoms_match (fst e) segs
  && (bytes_eqb (l_method (snd e)) method && bool_decide (l_verb (snd e) = v)).

Lemma entries_from_spec `{UnicodeIdent} pairs i e : e ∈ entries_from pairs i ->
  exists j rt, pairs !! j = Some rt /\ e = route_entry (i + j) rt.
Proof.
  revert i; induction pairs as [|rt pairs IH]; intros i; [intros []%not_elem_of_nil|].
  cbn [entries_from]. intros [->|He]%elem_of_cons.
  - exists 0, rt. by rewrite Nat.add_0_r.
  - destruct (IH _ He) as (j & rt' & Hj & ->). exists (S j), rt'. by rewrite Nat.add_succ_r.
Qed.

Lemma registered_spec `{UnicodeIdent} regs e : e ∈ registered regs ->
  exists i reg, regs !! i = Some reg /\ e = route_entry i (register reg, snd reg).
Proof.
  intros (j & [rt t] & Hj & ->)%entries_from_spec. apply lookup_zip_Some in Hj as [H1 H2].
  rewrite list_lookup_fmap in H1. rewrite list_lookup_fmap in H2. destruct (regs !! j) as [reg|] eqn:Hreg; [|done].
  exists j, reg. split; [done|]. cbn in *. congruence.
Qed.

Lemma depth_of_le entries e : e ∈ entries -> length (fst e) <= depth_of entries.
Proof.
  unfold depth_of. induction entries as [|x es IH]; [intros []%not_elem_of_nil|].
  rewrite fmap_cons. cbn [foldr]. intros [->|He]%elem_of_cons; [lia|]. specialize (IH He). lia.
Qed.

(** What [resolve_checked] returns for a registered route set. *)
Definition resolution `{UnicodeIdent} {T} (regs : list (bytes * bytes * PathTemplate))
    (values : list T) (method body : bytes) (v : option bytes)
    (result : outcome InvalidPath (option (RawMatch T))) : Prop :=
  let segs := path_segments body in
  match result with
  | Ok (Some m) =>
      forallb admissible (strip_slash body) = true
      /\ exists atoms, (atoms, m_leaf m) ∈ registered regs
         /\ route_matches method v segs (atoms, m_leaf m) = true
         /\ (forall e, e ∈ registered regs -> route_matches method v segs e = true ->
               better (atoms, m_leaf m) e)
         /\ m_values m = capture_value segs <$> l_vars (m_leaf m)
         /\ values !! route_index (m_leaf m) = Some (m_value m)
  | Ok None =>
      forallb admissible (strip_slash body) = true
      /\ forall e, e ∈ registered regs -> route_matches method v segs e = false
  | Err _ => forallb admissible (strip_slash body) = false
  | Panic => False
  end.

Section resolve_proof.
Context {U : UnicodeIdent} {T : Type} (regs : list (bytes * bytes * PathTemplate)) (values : list T).
Context (Hwf : Forall (fun reg => template_wf (snd reg)) regs).
Context (Hlen : length values = length regs).

Lemma registered_wf e : e ∈ registered regs ->
  atoms_ok (fst e) /\ affixes_ascii (fst e) /\ Forall (plan_ok (fst e)) (l_vars (snd e))
  /\ route_index (snd e) < length regs
  /\ (existsb (fun reg => bool_decide (is_Some (verb (snd reg)))) regs = false ->
      l_verb (snd e) = None).
Proof.
  intros (i & reg & Hi & ->)%registered_spec. rewrite Forall_forall in Hwf.
  destruct (Hwf reg) as (Hsegs & _ & Hrest); [by eapply list_elem_of_lookup_2|].
  cbn [route_entry fst snd l_vars route_index l_verb]. split_and!.
  - by apply template_atoms_ok.
  - by apply template_affixes_ascii.
  - apply Forall_fmap, Forall_forall. intros v Hv. by apply var_plan_ok.
  - by eapply lookup_lt_Some.
  - intros Hv. destruct (verb (snd reg)) as [v|] eqn:Hverb; [|done]. exfalso.
    assert (Ht : existsb (fun reg => bool_decide (is_Some (verb (snd reg)))) regs = true); [|congruence].
    apply existsb_exists. exists reg. split; [by eapply list_elem_of_In, list_elem_of_lookup_2|].
    apply bool_decide_eq_true_2. rewrite Hverb. by eexists.
Qed.

Lemma resolver_build_spec :
  exists r t, resolver_build (register <$> regs) values = Ok r
    /\ rr_root r = compile_ref (t_root t) /\ node_ok (length regs) (t_root t)
    /\ node_routes (t_root t) ≡ₚ registered regs
    /\ rr_max_segments r = depth_of (registered regs)
    /\ rr_any_verb r = existsb (fun reg => bool_decide (is_Some (verb (snd reg)))) regs
    /\ payloads r = values.
Proof.
  destruct (build_trie_spec regs Hwf) as (t & Hb & Hok & Hr & Hm & Hv).
  unfold resolver_build. rewrite Hb. unfold resolver_compile.
  rewrite (compile_spec (length regs)) by done. eexists _, t. split; [done|]. by split_and!.
Qed.

(** The verb test of the walk decides exactly the route's match. *)
Lemma matches_route_matches path method v segs e any :
  any = existsb (fun reg => bool_decide (is_Some (verb (snd reg)))) regs ->
  (any = false -> v = None) -> e ∈ registered regs ->
  matches any (mkWalk path method v) segs e = route_matches method v segs e.
Proof.
  intros Hany Hv He. unfold matches, route_matches, leaf_selected. cbn [w_method w_verb].
  f_equal. f_equal. destruct any; cbn [negb orb]; [done|].
  rewrite (Hv eq_refl). destruct (registered_wf e He) as (_ & _ & _ & _ & Hn).
  rewrite Hn by done. by rewrite bool_decide_eq_true_2.
Qed.

(** The walk over the compiled trie finds the best registered route. *)
Lemma walk_best arch method body v (starts ends : list nat) root (max : nat) (any : bool) t :
  root = compile_ref (t_root t) -> node_ok (length regs) (t_root t) ->
  node_routes (t_root t) ≡ₚ registered regs -> max = depth_of (registered regs) ->
  Nat.min (length (path_segments body)) max <= Nat.min (length starts) (length ends) ->
  let w := mkWalk (scan_path arch body starts ends) method v in
  exists l, (if any then descend_iterative true w root 0 else descend_iterative false w root 0) = Ok l
    /\ best any w (path_segments body) l (registered regs).
Proof.
  intros Hroot Hok Hr Hm Hcap w.
  exists (search any w (recorded_segment body (Nat.min (length starts) (length ends))) root 0). split.
  { destruct any; apply descend_iterative_search;
      first [intros d; apply segment_spec|intros d s; apply recorded_segment_count]. }
  apply best_perm with (rt_routes root); [by rewrite Hroot, compile_ref_routes|].
  rewrite <- (drop_0 (path_segments body)).
  apply (search_best any w (path_segments body) (Nat.min (length starts) (length ends))).
  - apply scan_path_count.
  - rewrite Hroot. by eapply compile_ref_ok.
  - lia.
  - unfold recorded, w. cbn [w_path]. rewrite scan_path_count.
    destruct (decide (length (path_segments body) <= max)); [left; lia|right].
    intros f Hf. rewrite Hroot, compile_ref_routes, Hr in Hf. apply depth_of_le in Hf. lia.
Qed.

Lemma resolve_checked_spec arch method path :
  utf8_valid path = true ->
  exists r body v, resolver_build (register <$> regs) values = Ok r
    /\ (if rr_any_verb r then split_verb path else Ok (path, None)) = Ok (body, v)
    /\ resolution regs values method body v (resolve_checked arch r method path).
Proof.
  intros Hutf8. destruct resolver_build_spec as (r & t & Hb & Hroot & Hok & Hr & Hm & Hv & Hp).
  destruct (request_total (rr_any_verb r) path) as (body & v & Hreq & Hvn & Hu8). specialize (Hu8 Hutf8).
  exists r, body, v. split; [done|]. split; [done|].
  set (finish := fun leaf (value : T) path =>
    let? values := materialize_all (l_vars leaf) path in Ok (mkMatch leaf values value)).
  pose proof (resolve_scanned_unfold arch r finish method path body v Hreq) as Hun.
  unfold resolution, resolve_checked. fold finish.
  destruct (forallb admissible (strip_slash body)) eqn:Hadm; [|by rewrite Hun].
  destruct Hun as (starts & ends & Hcap & ->). unfold finish_scanned.
  destruct (walk_best arch method body v starts ends (rr_root r) (rr_max_segments r)
    (rr_any_verb r) t) as (l & -> & Hbest); [done..|].
  pose proof (fun e => matches_route_matches (scan_path arch body starts ends) method v
    (path_segments body) e (rr_any_verb r) Hv Hvn) as Hmm.
  destruct l as [l|].
  - destruct Hbest as (atoms & Hin & Hmatch & Hb'). rewrite Hmm in Hmatch by done.
    destruct (registered_wf _ Hin) as (H1 & H2 & H3 & H4 & _). cbn [fst snd] in *.
    destruct (lookup_lt_is_Some_2 values (route_index l)) as [x Hx]; [lia|].
    unfold index_at. rewrite Hp, Hx. unfold finish.
    rewrite (materialize_all_ok arch body starts ends atoms); [|done|done|done| | |done].
    + cbn [infallible m_leaf m_values m_value]. split; [done|]. exists atoms. split_and!; try done.
      intros e He Hme. apply Hb'; [done|]. by rewrite Hmm.
    + by apply andb_true_iff in Hmatch as [? _].
    + apply depth_of_le in Hin. cbn [fst] in Hin. lia.
  - cbn [infallible]. split; [done|]. intros e He. rewrite <- Hmm by done. by apply Hbest.
Qed.
End resolve_proof.

(** C1. Resolution is correct end to end.  For every route set of accepted templates
    with one value each, building the resolver succeeds, and resolving a method and a
    (UTF-8) path never panics: it reports an invalid path exactly when the body holds
    a ['?'] or ['#']; it finds nothing exactly when no registered route matches the
    request; otherwise it returns a registered route that matches method, verb and
    segments, that precedes every other matching route (literal before affix before
    wildcard before catch-all, segment by segment, earlier registration among equal
    paths), with its own value and with each variable bound to the text its span
    covers. *)
Theorem resolve_finds_best_route (U : UnicodeIdent) {T} regs (values : list T) arch method path :
  Forall (fun reg => template_wf (snd reg)) regs -> length values = length regs ->
  utf8_valid path = true ->
  exists r body v, with_values (zip (register <$> regs) values) = Ok r
    /\ (if rr_any_verb r then split_verb path else Ok (path, None)) = Ok (body, v)
    /\ resolution regs values method body v (resolve_checked arch r method path).
Proof.
  intros Hwf Hlen Hu. unfold with_values.
  rewrite fst_zip, snd_zip by (rewrite length_fmap; lia).
  by apply resolve_checked_spec.
Qed.

Lemma resolve_finds_best_route_witness :
  exists r body v, @with_values ascii_ident nat (zip (register <$> demo_regs) [10; 20; 30]) = Ok r
    /\ (if rr_any_verb r then split_verb (str "/v1/files/img-a.png")
        else Ok (str "/v1/files/img-a.png", None)) = Ok (body, v)
    /\ @resolution ascii_ident nat demo_regs [10; 20; 30] (str "GET") body v
         (resolve_checked X86_64 r (str "GET") (str "/v1/files/img-a.png")).
Proof.
  apply (resolve_finds_best_route ascii_ident demo_regs [10; 20; 30] X86_64 (str "GET")
    (str "/v1/files/img-a.png")); [apply demo_regs_wf|reflexivity|reflexivity].
Defined.
