(* ===== verification/DynBuilder.v ===== *)
(** * routerama: dynamic route registration

    Models [src/crates/routerama/src/dyn_builder.rs], [dyn_route.rs],
    [build_error_entry.rs], [configuration_error.rs] and [http_method.rs]: the
    builder behind the generated [add_*] methods, which validates every
    registration, collects the errors, and finishes into a resolver. *)

From S2P Require Import Prelude Collections PathTemplate Scan Trie RtTrie Walk Resolver.

(** ** Methods *)

Inductive HttpMethodRepr : Type :=
| Standard (token : bytes)
| Custom (token : bytes).

Definition standard_methods : list bytes :=
  [str "GET"; str "PUT"; str "POST"; str "DELETE"; str "PATCH"; str "HEAD"; str "OPTIONS";
   str "CONNECT"; str "TRACE"].

Definition as_str (m : HttpMethodRepr) : bytes := match m with Standard t | Custom t => t end.

Definition standard (value : bytes) : option HttpMethodRepr :=
  if existsb (bytes_eqb value) standard_methods then Some (Standard value) else None.

(** ** Errors *)

Inductive BuildErrorEntry : Type :=
| MissingRoute (add_method variant : bytes)
| InvalidTemplate (variant path : bytes) (source : ParseErrorKind)
| CaptureMismatch (variant path expected found : bytes)
| Conflict (message : bytes).

Inductive ConfigurationError : Type :=
| InvalidHttpMethod (value : bytes)
| ResolverErrors (entries : list BuildErrorEntry).

(** [HttpMethod::custom] (and [from_owned]). *)
Definition custom (value : bytes) : outcome ConfigurationError HttpMethodRepr :=
  if negb (is_http_token value) then Err (InvalidHttpMethod value)
  else Ok (default (Custom value) (standard value)).

Definition entry_source (e : BuildErrorEntry) : option ParseErrorKind :=
  match e with
  | InvalidTemplate _ _ source => Some source
  | MissingRoute _ _ | CaptureMismatch _ _ _ _ | Conflict _ => None
  end.

(** The causes behind a configuration error, in registration order. *)
Definition causes (e : ConfigurationError) : list ParseErrorKind :=
  let entries := match e with InvalidHttpMethod _ => [] | ResolverErrors entries => entries end in
  omap entry_source entries.

Definition invalid_http_method_value (e : ConfigurationError) : option bytes :=
  match e with InvalidHttpMethod value => Some value | ResolverErrors _ => None end.

(** ** The builder *)

Record DynRoute (X : Type) : Type := mkDynRoute { extractor : X; capture_order : list nat }.
Arguments mkDynRoute {X}. Arguments extractor {X}. Arguments capture_order {X}.

Record DynBuilder (X : Type) : Type := mkDynBuilder {
  b_entries : list (Route * DynRoute X);
  b_errors : list BuildErrorEntry }.
Arguments mkDynBuilder {X}. Arguments b_entries {X}. Arguments b_errors {X}.

Definition DynBuilder_new {X} : DynBuilder X := mkDynBuilder [] [].

(** [", "] between the items, braces around. *)
Fixpoint fmt_items (index : nat) (items : list bytes) : bytes :=
  match items with
  | [] => []
  | item :: tl => (if 0 <? index then str ", " else []) ++ item ++ fmt_items (S index) tl
  end.

Definition fmt_set (items : list bytes) : bytes :=
  if bool_decide (items = []) then str "{}" else [c_lbrace] ++ fmt_items 0 items ++ [c_rbrace].

(** [found.iter().position(|found| found == field)]. *)
Fixpoint name_position (field : bytes) (found : list bytes) : option nat :=
  match found with
  | [] => None
  | f :: tl => if bytes_eqb f field then Some 0 else S <$> name_position field tl
  end.

(** [.map(..).collect::<Option<Vec<_>>>()]. *)
Fixpoint positions (expected found : list bytes) : option (list nat) :=
  match expected with
  | [] => Some []
  | field :: tl =>
      match name_position field found with
      | None => None
      | Some i => cons i <$> positions tl found
      end
  end.

Definition push_error {X} (b : DynBuilder X) (e : BuildErrorEntry) : DynBuilder X :=
  mkDynBuilder (b_entries b) (b_errors b ++ [e]).

Definition add {X} (b : DynBuilder X) (method : HttpMethodRepr) (path : bytes)
    (expected : list bytes) (variant : bytes) (x : X) : outcome unit (DynBuilder X) :=
  match parse path (with_segment_affixes Grammar_default) with
  | Panic => Panic
  | Err error => Ok (push_error b (InvalidTemplate variant path error))
  | Ok template =>
      let? names := capture_field_names (segments template) in
      let found := join c_dot <$> names in
      let order := positions expected found in
      let found_sorted := sort_by cmp found in
      let wanted := sort_by cmp expected in
      let mismatch := CaptureMismatch variant path (fmt_set wanted) (fmt_set found_sorted) in
      match order with
      | None => Ok (push_error b mismatch)
      | Some order =>
          if negb (bool_decide (found_sorted = wanted)) then Ok (push_error b mismatch)
          else Ok (mkDynBuilder
                     (b_entries b ++ [(Route_new variant (as_str method) template, mkDynRoute x order)])
                     (b_errors b))
      end
  end.

Definition require {X} (b : DynBuilder X) (seen : bool) (add_method variant : bytes) : DynBuilder X :=
  if negb seen then push_error b (MissingRoute add_method variant) else b.

(** Without errors the trie becomes a resolver; otherwise it is discarded. *)
Definition finish `{UnicodeIdent} {X} (b : DynBuilder X)
    : outcome ConfigurationError (RawResolver (DynRoute X)) :=
  let? trie := infallible (build_trie (b_entries b).*1) in
  let? messages := infallible (conflicts (t_root trie)) in
  let errors := b_errors b ++ (Conflict <$> messages) in
  if bool_decide (errors = []) then infallible (with_trie (b_entries b).*2 trie)
  else
    let? _ := infallible (discard_source (t_root trie)) in
    Err (ResolverErrors errors).

(** ** What a registration does *)

(** The names of the variables a template captures, in declaration order. *)
Definition template_names (t : PathTemplate) : list bytes :=
  (fun v => join c_dot (v_name v)) <$> seg_vars (segments t) 0.

Lemma name_position_Some field found i : name_position field found = Some i -> found !! i = Some field.
Proof.
  revert i; induction found as [|f tl IH]; intros i; cbn; [done|].
  destruct (bytes_eqb f field) eqn:Hf.
  - apply bytes_eqb_eq in Hf as ->. by intros [= <-].
  - intros (j & Hj & ->)%fmap_Some. by apply IH.
Qed.

Lemma name_position_None field found : name_position field found = None -> field ∉ found.
Proof.
  induction found as [|f tl IH]; cbn; [intros _; apply not_elem_of_nil|].
  destruct (bytes_eqb f field) eqn:Hf; [done|]. intros Hn%fmap_None.
  apply bytes_eqb_neq in Hf. apply not_elem_of_cons. split; [congruence|by apply IH].
Qed.

Lemma positions_Some expected found order : positions expected found = Some order ->
  length order = length expected /\
  forall i field, expected !! i = Some field -> exists p, order !! i = Some p /\ found !! p = Some field.
Proof.
  revert order; induction expected as [|f tl IH]; intros order; cbn.
  - by intros [= <-].
  - destruct (name_position f found) as [p|] eqn:Hp; [|done].
    intros (os & Ho & ->)%fmap_Some. destruct (IH _ Ho) as [Hlen Hl]. split; [cbn; by f_equal|].
    intros [|i] field Hi; cbn in *; [|by apply Hl]. injection Hi as <-.
    exists p. split; [done|]. by apply name_position_Some.
Qed.

Lemma positions_None expected found :
  positions expected found = None -> exists f, f ∈ expected /\ f ∉ found.
Proof.
  induction expected as [|f tl IH]; cbn; [done|].
  destruct (name_position f found) as [p|] eqn:Hp.
  - intros Hn%fmap_None. destruct (IH Hn) as (g & ? & ?). exists g. set_solver.
  - intros _. exists f. split; [set_solver|]. by apply name_position_None.
Qed.

(** The builder after registering [path]: exactly one entry or one error more. *)
Definition added {X} (b : DynBuilder X) (method : HttpMethodRepr) (path : bytes)
    (expected : list bytes) (variant : bytes) (x : X) (b' : DynBuilder X) : Prop :=
  match parse path (with_segment_affixes Grammar_default) with
  | Ok t =>
      let mismatch := CaptureMismatch variant path (fmt_set (sort_by cmp expected))
                        (fmt_set (sort_by cmp (template_names t))) in
      (expected ≡ₚ template_names t /\ exists order,
         b' = mkDynBuilder (b_entries b ++ [(Route_new variant (as_str method) t, mkDynRoute x order)])
                (b_errors b)
         /\ length order = length expected
         /\ forall i field, expected !! i = Some field ->
              exists p, order !! i = Some p /\ template_names t !! p = Some field)
      \/ (~ expected ≡ₚ template_names t /\ b' = push_error b mismatch)
  | Err e => b' = push_error b (InvalidTemplate variant path e)
  | Panic => False
  end.

Lemma add_spec {X} (b : DynBuilder X) method path expected variant x :
  exists b', add b method path expected variant x = Ok b' /\ added b method path expected variant x b'.
Proof.
  unfold add, added. pose proof (parse_spec path (with_segment_affixes Grammar_default)) as Hp.
  destruct (parse path _) as [t|e|]; [|by eexists|done].
  unfold capture_field_names. rewrite flatten_spec.
  assert (Hnames : join c_dot <$> (v_name <$> seg_vars (segments t) 0) = template_names t).
  { unfold template_names. by rewrite <- list_fmap_compose. }
  rewrite Hnames. destruct (positions expected (template_names t)) as [order|] eqn:Hpos.
  - case_bool_decide as Heq; cbn [negb].
    + eexists. split; [done|]. left. split; [symmetry; by apply sort_by_eq|].
      exists order. split; [done|]. by apply positions_Some.
    + eexists. split; [done|]. right. split; [|done]. intros Hperm. apply Heq.
      apply sort_by_eq. by symmetry.
  - eexists. split; [done|]. right. split; [|done]. intros Hperm.
    destruct (positions_None _ _ Hpos) as (f & Hf & Hnf). apply Hnf. by rewrite <- Hperm.
Qed.

(** ** Building *)

(** The calls a generated builder makes. *)
Inductive BuildStep (X : Type) : Type :=
| AddStep (method : HttpMethodRepr) (path : bytes) (expected : list bytes) (variant : bytes) (x : X)
| RequireStep (seen : bool) (add_method variant : bytes).
Arguments AddStep {X}. Arguments RequireStep {X}.

Fixpoint run_steps {X} (steps : list (BuildStep X)) (b : DynBuilder X) : outcome unit (DynBuilder X) :=
  match steps with
  | [] => Ok b
  | AddStep method path expected variant x :: tl =>
      let? b := add b method path expected variant x in run_steps tl b
  | RequireStep seen add_method variant :: tl => run_steps tl (require b seen add_method variant)
  end.

(** The accepted registrations of a builder. *)
Definition builder_regs {X} (b : DynBuilder X) (regs : list (bytes * bytes * PathTemplate)) : Prop :=
  (b_entries b).*1 = register <$> regs /\ Forall (fun reg => template_wf (snd reg)) regs.

Lemma added_regs {X} (b b' : DynBuilder X) method path expected variant x regs :
  builder_regs b regs -> added b method path expected variant x b' -> exists regs', builder_regs b' regs'.
Proof.
  intros [Hr Hwf]. unfold added. pose proof (parse_spec path (with_segment_affixes Grammar_default)) as Hp.
  destruct (parse path _) as [t|e|]; [|intros ->; by exists regs|done].
  intros [(_ & order & -> & _)|[_ ->]]; [|by exists regs].
  exists (regs ++ [(variant, as_str method, t)]). split.
  - cbn. by rewrite !fmap_app, Hr.
  - apply Forall_app. split; [done|]. by apply Forall_singleton.
Qed.

Lemma run_steps_regs {X} (steps : list (BuildStep X)) b regs : builder_regs b regs ->
  exists b' regs', run_steps steps b = Ok b' /\ builder_regs b' regs'.
Proof.
  revert b regs; induction steps as [|[method path expected variant x|seen am variant] steps IH];
    intros b regs Hb; [by exists b, regs| |]; cbn [run_steps].
  - destruct (add_spec b method path expected variant x) as (b' & -> & Hadd).
    destruct (added_regs _ _ _ _ _ _ _ _ Hb Hadd) as [regs' Hb']. by eapply IH.
  - apply (IH _ regs). unfold require. by destruct seen.
Qed.

Lemma finish_spec `{UnicodeIdent} {X} (b : DynBuilder X) regs : builder_regs b regs ->
  match finish b with
  | Ok r => b_errors b = [] /\ NoDup (route_key <$> registered regs)
            /\ with_values (b_entries b) = Ok r
  | Err e => ~ (b_errors b = [] /\ NoDup (route_key <$> registered regs))
            /\ exists messages, e = ResolverErrors (b_errors b ++ (Conflict <$> messages))
                 /\ (messages = [] <-> NoDup (route_key <$> registered regs))
  | Panic => False
  end.
Proof.
  intros [Hr Hwf]. destruct (build_trie_spec regs Hwf) as (t & Hb & Hok & Hroutes & _).
  unfold finish. rewrite Hr, Hb. cbn [infallible]. rewrite conflicts_ref. cbn [infallible].
  pose proof (node_conflicts_nil _ _ Hok []) as Hn. rewrite Hroutes in Hn.
  unfold with_values, resolver_build, with_trie, resolver_compile. rewrite Hr, Hb.
  rewrite (compile_spec _ _ Hok). cbn [infallible].
  assert (discard_source (t_root t) = Ok tt) as ->.
  { apply discard_source_loop_ok. unfold total_size. cbn. lia. }
  cbn [infallible]. case_bool_decide as Herr.
  - apply app_nil in Herr as [He Hm%fmap_nil_inv]. split_and!; [done|by apply Hn|done].
  - split; [|by eexists]. intros [He Hnd%Hn]. apply Herr. by rewrite He, Hnd.
Qed.

(** ** Main results *)

(** Registering a dynamic route never panics and adds exactly one entry or
    exactly one error: an unparsable path is reported with its parse error; a path
    whose captures are not a permutation of the variant's fields is reported with
    both sets; otherwise the entry's capture order maps every field to the position
    of the template variable of that name. *)
Theorem dyn_add_validates {X} (b : DynBuilder X) method path expected variant x :
  exists b', add b method path expected variant x = Ok b' /\ added b method path expected variant x b'.
Proof. apply add_spec. Qed.

(** Finishing a builder after any sequence of registrations never panics and
    succeeds exactly when no registration was refused and no two accepted routes are
    indistinguishable; the resolver is then the one built from the accepted entries.
    Otherwise all refusals are returned, followed by the conflicts. *)
Theorem dyn_builder_finishes (U : UnicodeIdent) {X} (steps : list (BuildStep X)) :
  exists b regs, run_steps steps DynBuilder_new = Ok b
    /\ (b_entries b).*1 = register <$> regs /\ Forall (fun reg => template_wf (snd reg)) regs
    /\ match finish b with
       | Ok r => b_errors b = [] /\ NoDup (route_key <$> registered regs)
                 /\ with_values (b_entries b) = Ok r
       | Err e => ~ (b_errors b = [] /\ NoDup (route_key <$> registered regs))
                 /\ exists messages, e = ResolverErrors (b_errors b ++ (Conflict <$> messages))
                      /\ (messages = [] <-> NoDup (route_key <$> registered regs))
       | Panic => False
       end.
Proof.
  destruct (run_steps_regs steps DynBuilder_new []) as (b & regs & Hrun & Hb); [by split|].
  exists b, regs. destruct (Hb) as [? ?]. split_and!; [done..|]. by apply finish_spec.
Qed.
