(* ===== verification/Query.v ===== *)
(** * routerama: query strings

    Models [src/crates/routerama/src/query/scan.rs] (scalar, SSE2 and NEON byte
    search), [parser.rs] (the pair parser in its wide and scalar forms, percent
    decoding, resource limits), [encoder.rs] (the streaming form encoder),
    [query_limits.rs], [error.rs], [error_kind.rs] and [decoded.rs], and the path
    decoding of [src/crates/routerama/src/decode.rs].  Texts are byte strings; every
    cut of a [&str] in this code is next to an ASCII delimiter. *)

From S2P Require Import Prelude Collections Scan.

(** ** Byte search *)

Definition SIMD_THRESHOLD : nat := 32.

Definition find_byte_scalar (bs : bytes) (needle : Z) : option nat :=
  position (fun b => (b =? needle)%Z) bs.

Definition contains_either_scalar (bs : bytes) (first second : Z) : bool :=
  existsb (fun b => (b =? first)%Z || (b =? second)%Z) bs.

(** The first matching lane of a chunk, from the mask of each architecture. *)
Definition sse2_first_lane (chunk : bytes) (needle : Z) : option nat :=
  let mask := movemask (cmpeq chunk needle) in
  if (mask =? 0)%Z then None else Some (trailing_zeros mask).

Definition neon_first_lane (chunk : bytes) (needle : Z) : option nat :=
  let mask := lane_u64 (shrn4 (cmpeq chunk needle)) in
  if (mask =? 0)%Z then None
  else Some (Z.to_nat (Z.shiftr (Z.of_nat (trailing_zeros mask)) 2)).

(** [while offset + 16 <= bytes.len()], then the scalar search of the rest. *)
Fixpoint find_byte_loop (first_lane : bytes -> Z -> option nat) (fuel : nat) (bs : bytes)
    (needle : Z) (offset : nat) : option nat :=
  match fuel with
  | O => None
  | S fuel' =>
      if offset + 16 <=? length bs then
        match first_lane (take 16 (drop offset bs)) needle with
        | Some lane => Some (offset + lane)
        | None => find_byte_loop first_lane fuel' bs needle (offset + 16)
        end
      else (fun index => offset + index) <$> find_byte_scalar (drop offset bs) needle
  end.

Definition find_byte_sse2 (bs : bytes) (needle : Z) : option nat :=
  find_byte_loop sse2_first_lane (S (length bs)) bs needle 0.
Definition find_byte_neon (bs : bytes) (needle : Z) : option nat :=
  find_byte_loop neon_first_lane (S (length bs)) bs needle 0.

Definition sse2_any_lane (chunk : bytes) (first second : Z) : bool :=
  negb (movemask (or_lanes (cmpeq chunk first) (cmpeq chunk second)) =? 0)%Z.

(** [vmaxvq_u8]: the largest lane. *)
Definition max_lane (lanes : list Z) : Z := foldr Z.max 0%Z lanes.

Definition neon_any_lane (chunk : bytes) (first second : Z) : bool :=
  negb (max_lane (or_lanes (cmpeq chunk first) (cmpeq chunk second)) =? 0)%Z.

Fixpoint contains_either_loop (any_lane : bytes -> Z -> Z -> bool) (fuel : nat) (bs : bytes)
    (first second : Z) (offset : nat) : bool :=
  match fuel with
  | O => false
  | S fuel' =>
      if offset + 16 <=? length bs then
        if any_lane (take 16 (drop offset bs)) first second then true
        else contains_either_loop any_lane fuel' bs first second (offset + 16)
      else contains_either_scalar (drop offset bs) first second
  end.

Definition contains_either_sse2 (bs : bytes) (first second : Z) : bool :=
  contains_either_loop sse2_any_lane (S (length bs)) bs first second 0.
Definition contains_either_neon (bs : bytes) (first second : Z) : bool :=
  contains_either_loop neon_any_lane (S (length bs)) bs first second 0.

Definition find_byte (arch : Arch) (WIDE : bool) (bs : bytes) (needle : Z) : option nat :=
  if WIDE && (SIMD_THRESHOLD <=? length bs) then
    match arch with
    | X86_64 => find_byte_sse2 bs needle
    | Aarch64 => find_byte_neon bs needle
    | OtherArch => find_byte_scalar bs needle
    end
  else find_byte_scalar bs needle.

Definition contains_either (arch : Arch) (WIDE : bool) (bs : bytes) (first second : Z) : bool :=
  if WIDE && (SIMD_THRESHOLD <=? length bs) then
    match arch with
    | X86_64 => contains_either_sse2 bs first second
    | Aarch64 => contains_either_neon bs first second
    | OtherArch => contains_either_scalar bs first second
    end
  else contains_either_scalar bs first second.

(** ** Errors and limits *)

Inductive ErrorKind : Type :=
| QueryTooLong | TooManyPairs | DecodedTooLong | TooManyValues | InvalidEncoding | InvalidUtf8
| BorrowRequired | Missing | Duplicate | InvalidValue | UnknownParameter | AmbiguousParameter
| TooLong | Output | Format.

Record QError : Type := mkError {
  parameter : option bytes;
  pair_offset : option nat;
  kind : ErrorKind }.

Definition parsing (p : option bytes) (offset : nat) (k : ErrorKind) : QError := mkError p (Some offset) k.
Definition production (p : option bytes) (k : ErrorKind) : QError := mkError p None k.

Record QueryLimits : Type := mkLimits {
  max_query_length : Z;
  max_pairs : Z;
  max_decoded_length : Z;
  max_repeated_values : Z;
  max_encoded_length : Z }.

Definition limits_default : QueryLimits := mkLimits (16 * 1024) 256 (64 * 1024) 256 (64 * 1024).
Definition limits_unlimited : QueryLimits :=
  mkLimits usize_max usize_max usize_max usize_max usize_max.

(** [Cow<str>]. *)
Inductive Decoded : Type := Borrowed (s : bytes) | Owned (s : bytes).

Definition text (d : Decoded) : bytes := match d with Borrowed s | Owned s => s end.

Definition parse_borrowed (value : Decoded) (p : bytes) (offset : nat) : outcome QError bytes :=
  match value with
  | Borrowed v => Ok v
  | Owned _ => Err (parsing (Some p) offset BorrowRequired)
  end.

(** ** Decoding *)

Definition hex (b : Z) : option Z :=
  if in_range 48 57 b then Some (b - 48)%Z
  else if in_range 97 102 b then Some (b - 97 + 10)%Z
  else if in_range 65 70 b then Some (b - 65 + 10)%Z
  else None.

(** [index.checked_add(amount).expect(..)]. *)
Definition advance {S E} (index amount : nat) : action S E nat :=
  if (Z.of_nat index + Z.of_nat amount <=? usize_max)%Z then ret (index + amount) else panic.

(** The state of the decoders is the running total of decoded bytes. *)
Definition add_decoded (amount : nat) (offset : nat) (limits : QueryLimits) : action Z QError unit :=
  let! total := get_state in
  match checked_add total (Z.of_nat amount) with
  | None => throw (parsing None offset DecodedTooLong)
  | Some total =>
      let! _ := set_state total in
      if (max_decoded_length limits <? total)%Z then throw (parsing None offset DecodedTooLong)
      else ret tt
  end.

(** The escape at [at_]: its two digits, or where it fails. *)
Definition escape (input : bytes) (offset at_ : nat) : action Z QError Z :=
  let fail := throw (parsing None (offset + at_) InvalidEncoding) in
  let! i1 := advance at_ 1 in
  let! i2 := advance at_ 2 in
  match input !! i1, (if i2 <=? length input then Some (drop i2 input) else None) with
  | Some high, Some rest =>
      match head rest with
      | None => fail
      | Some low =>
          match hex high with
          | None => fail
          | Some high =>
              match hex low with
              | None => fail
              | Some low => ret (high * 16 + low)%Z
              end
          end
      end
  | _, _ => fail
  end.

Fixpoint decode_bytes_loop (fuel : nat) (input : bytes) (offset : nat) (output : bytes) (index : nat)
    : action Z QError bytes :=
  match input !! index with
  | None => ret output
  | Some b =>
      match fuel with
      | O => panic
      | S fuel' =>
          if (b =? c_plus)%Z then
            let! next := advance index 1 in
            decode_bytes_loop fuel' input offset (output ++ [c_space]) next
          else if (b =? c_percent)%Z then
            let! byte := escape input offset index in
            let! next := advance index 3 in
            decode_bytes_loop fuel' input offset (output ++ [byte]) next
          else
            let! next := advance index 1 in
            decode_bytes_loop fuel' input offset (output ++ [b]) next
      end
  end.

Definition decode_encoded_bytes (input : bytes) (offset : nat) (limits : QueryLimits)
    (output : bytes) (index : nat) : action Z QError Decoded :=
  let! output := decode_bytes_loop (length input) input offset output index in
  let! _ := add_decoded (length output) offset limits in
  if utf8_valid output then ret (Owned output) else throw (parsing None offset InvalidUtf8).

Definition is_special (b : Z) : bool := (b =? c_percent)%Z || (b =? c_plus)%Z.

(** The loop of [decode_encoded]: [inl] when it ends, [inr special] when a byte that
    is not ASCII must be decoded at [special]. *)
Fixpoint decode_loop (fuel : nat) (input : bytes) (offset : nat) (output : bytes) (index : nat)
    : action Z QError (bytes + bytes * nat) :=
  match input !! index with
  | None => ret (inl output)
  | Some _ =>
      match fuel with
      | O => panic
      | S fuel' =>
          match position is_special (drop index input) with
          | None => ret (inl (output ++ drop index input))
          | Some relative =>
              let! special := advance index relative in
              let output := output ++ take (special - index) (drop index input) in
              match input !! special with
              | None => panic
              | Some b =>
                  if (b =? c_plus)%Z then
                    let! next := advance special 1 in
                    decode_loop fuel' input offset (output ++ [c_space]) next
                  else
                    let! byte := escape input offset special in
                    if negb (byte <? 128)%Z then ret (inr (output, special))
                    else
                      let! next := advance special 3 in
                      decode_loop fuel' input offset (output ++ [byte]) next
              end
          end
      end
  end.

Definition decode_encoded (input : bytes) (offset : nat) (limits : QueryLimits)
    : action Z QError Decoded :=
  let! r := decode_loop (length input) input offset [] 0 in
  match r with
  | inr (output, special) => decode_encoded_bytes input offset limits output special
  | inl output =>
      let! _ := add_decoded (length output) offset limits in ret (Owned output)
  end.

Definition decode_known (input : bytes) (offset : nat) (limits : QueryLimits) (encoded : bool)
    : action Z QError Decoded :=
  if negb encoded then
    let! _ := add_decoded (length input) offset limits in ret (Borrowed input)
  else decode_encoded input offset limits.

Definition decode (arch : Arch) (WIDE : bool) (input : bytes) (offset : nat) (limits : QueryLimits)
    : action Z QError Decoded :=
  if negb (contains_either arch WIDE input c_percent c_plus) then
    let! _ := add_decoded (length input) offset limits in ret (Borrowed input)
  else decode_encoded input offset limits.

(** ** The parser *)

Record Pair : Type := mkPair { p_key : Decoded; p_value : Decoded; p_offset : nat }.

Record Parser : Type := mkParser {
  input : bytes;
  cursor : nat;
  pairs : Z;
  decoded : Z;
  limits : QueryLimits }.

Definition parser_new (s : bytes) (l : QueryLimits) : outcome QError Parser :=
  if (max_query_length l <? Z.of_nat (length s))%Z then Err (parsing None 0 QueryTooLong)
  else Ok (mkParser s 0 0 0 l).

Record PairScan : Type := mkPairScan {
  separator : option nat;
  equals : option nat;
  key_encoded : bool;
  value_encoded : bool }.

Fixpoint scan_pair_loop (bs : bytes) (index : nat) (scan : PairScan) : PairScan :=
  match bs with
  | [] => scan
  | byte :: tl =>
      if (byte =? c_amp)%Z then
        mkPairScan (Some index) (equals scan) (key_encoded scan) (value_encoded scan)
      else if (byte =? c_eq)%Z && bool_decide (equals scan = None) then
        scan_pair_loop tl (S index)
          (mkPairScan None (Some index) (key_encoded scan) (value_encoded scan))
      else if is_special byte then
        if bool_decide (is_Some (equals scan)) then
          scan_pair_loop tl (S index) (mkPairScan None (equals scan) (key_encoded scan) true)
        else scan_pair_loop tl (S index) (mkPairScan None (equals scan) true (value_encoded scan))
      else scan_pair_loop tl (S index) scan
  end.

Definition scan_pair (bs : bytes) : PairScan :=
  scan_pair_loop bs 0 (mkPairScan None None false false).

Definition set_cursor (c : nat) : action Parser QError unit := fun p =>
  (Ok tt, mkParser (input p) c (pairs p) (decoded p) (limits p)).

(** [self.pairs += 1; if self.pairs > self.limits.max_pairs { .. }]. *)
Definition count_pair (offset : nat) : action Parser QError unit := fun p =>
  let p' := mkParser (input p) (cursor p) (pairs p + 1) (decoded p) (limits p) in
  if (max_pairs (limits p) <? pairs p + 1)%Z then (Err (parsing None offset TooManyPairs), p')
  else (Ok tt, p').

(** Runs a decoder on [&mut self.decoded]. *)
Definition with_decoded {A} (m : action Z QError A) : action Parser QError A := fun p =>
  let '(r, total) := m (decoded p) in
  (r, mkParser (input p) (cursor p) (pairs p) total (limits p)).

Definition unencoded_pair_decoded_len (raw_pair : bytes) (eq : option nat) : nat :=
  length raw_pair - (if bool_decide (is_Some eq) then 1 else 0).

(** The key and the value of a raw pair. *)
Definition split_pair (raw_pair : bytes) (eq : option nat) : action Parser QError (bytes * bytes) :=
  match eq with
  | Some index =>
      match slice_to (E:=unit) raw_pair index, slice_from (E:=unit) raw_pair (index + 1) with
      | Ok key, Ok value => ret (key, value)
      | _, _ => panic
      end
  | None => ret (raw_pair, [])
  end.

Definition value_offset_of (offset : nat) (raw_pair : bytes) (eq : option nat) : nat :=
  offset + match eq with Some index => index + 1 | None => length raw_pair end.

(** The fast path of the scalar parser: neither part is encoded and the total fits. *)
Definition fits_unencoded (p : Parser) (scan : PairScan) (raw_pair : bytes) : option Z :=
  if negb (key_encoded scan) && negb (value_encoded scan) then
    match checked_add (decoded p) (Z.of_nat (unencoded_pair_decoded_len raw_pair (equals scan))) with
    | Some total => if (total <=? max_decoded_length (limits p))%Z then Some total else None
    | None => None
    end
  else None.

Fixpoint next_pair_scalar (fuel : nat) : action Parser QError (option Pair) :=
  let! p := get_state in
  match input p !! cursor p with
  | None => ret None
  | Some _ =>
      match fuel with
      | O => panic
      | S fuel' =>
          let offset := cursor p in
          let rest := drop offset (input p) in
          let scan := scan_pair rest in
          let pair_len := default (length rest) (separator scan) in
          let raw_pair := take pair_len rest in
          let! next :=
            match separator scan with
            | Some _ => let! w := advance pair_len 1 in advance offset w
            | None => ret (length (input p))
            end in
          let! _ := set_cursor next in
          if bytes_eqb raw_pair [] then next_pair_scalar fuel'
          else
            let! _ := count_pair offset in
            let! (key, value) := split_pair raw_pair (equals scan) in
            let! p := get_state in
            match fits_unencoded p scan raw_pair with
            | Some total =>
                let! _ := set_state (mkParser (input p) (cursor p) (pairs p) total (limits p)) in
                ret (Some (mkPair (Borrowed key) (Borrowed value) offset))
            | None =>
                let! key := with_decoded (decode_known key offset (limits p) (key_encoded scan)) in
                let value_offset := value_offset_of offset raw_pair (equals scan) in
                let! value := with_decoded
                  (decode_known value value_offset (limits p) (value_encoded scan)) in
                ret (Some (mkPair key value offset))
            end
      end
  end.

Fixpoint next_pair_wide (arch : Arch) (fuel : nat) : action Parser QError (option Pair) :=
  let! p := get_state in
  match input p !! cursor p with
  | None => ret None
  | Some _ =>
      match fuel with
      | O => panic
      | S fuel' =>
          let offset := cursor p in
          let rest := drop offset (input p) in
          if length rest <? SIMD_THRESHOLD then next_pair_scalar (S fuel')
          else
            let sep := find_byte arch true rest c_amp in
            let pair_len := default (length rest) sep in
            let raw_pair := take pair_len rest in
            let! _ := set_cursor
              (match sep with Some _ => offset + pair_len + 1 | None => length (input p) end) in
            if bytes_eqb raw_pair [] then next_pair_wide arch fuel'
            else
              let! _ := count_pair offset in
              let eq := find_byte arch true raw_pair c_eq in
              let! (key, value) := split_pair raw_pair eq in
              let! p := get_state in
              let! key := with_decoded (decode arch true key offset (limits p)) in
              let value_offset := value_offset_of offset raw_pair eq in
              let! value := with_decoded (decode arch true value value_offset (limits p)) in
              ret (Some (mkPair key value offset))
      end
  end.

(** Every skipped pair advances the cursor, so the length bounds the rounds. *)
Definition next_pair (arch : Arch) (WIDE : bool) : action Parser QError (option Pair) :=
  let! p := get_state in
  if negb WIDE then next_pair_scalar (length (input p)) else next_pair_wide arch (length (input p)).

(** ** The encoder *)

(** A [fmt::Write] destination: [None] when it rejects the text. *)
Class Writer (W : Type) : Type := { write_str : W -> bytes -> option W }.

Record Encoder (W : Type) : Type := mkEncoder {
  e_output : W;
  e_limits : QueryLimits;
  written : Z;
  e_first : bool }.
Arguments mkEncoder {W}. Arguments e_output {W}. Arguments e_limits {W}.
Arguments written {W}. Arguments e_first {W}.

Definition encoder_new {W} (output : W) (l : QueryLimits) : Encoder W := mkEncoder output l 0 true.

Section encoder.
Context {W : Type} `{Writer W}.
Abbreviation enc A := (action (Encoder W) QError A).

Definition write_raw (p : option bytes) (value : bytes) : enc unit :=
  let! e := get_state in
  match checked_add (written e) (Z.of_nat (length value)) with
  | None => throw (production p TooLong)
  | Some new_length =>
      if (max_encoded_length (e_limits e) <? new_length)%Z then throw (production p TooLong)
      else
        match write_str (e_output e) value with
        | None => throw (production p Output)
        | Some out => set_state (mkEncoder out (e_limits e) new_length (e_first e))
        end
  end.

Definition is_safe (b : Z) : bool :=
  is_ascii_alphanumeric b || existsb (Z.eqb b) [42; 45; 46; 95]%Z.

Definition HEX : bytes := str "0123456789ABCDEF".

Definition escaped (byte : Z) : bytes :=
  [c_percent; nth (Z.to_nat (Z.shiftr byte 4)) HEX 0%Z; nth (Z.to_nat (Z.land byte 15)) HEX 0%Z].

(** The byte loop of [write_encoded]; [rest] is the value from [index] on. *)
Fixpoint write_encoded_loop (p value rest : bytes) (index run_start : nat) : enc unit :=
  match rest with
  | [] =>
      if run_start <? length value then write_raw (Some p) (drop run_start value) else ret tt
  | byte :: tl =>
      if is_safe byte then write_encoded_loop p value tl (S index) run_start
      else
        let! _ := (if run_start <? index
                   then write_raw (Some p) (take (index - run_start) (drop run_start value))
                   else ret tt) in
        let! _ := (if (byte =? c_space)%Z then write_raw (Some p) [c_plus]
                   else write_raw (Some p) (escaped byte)) in
        write_encoded_loop p value tl (S index) (index + 1)
  end.

Definition write_encoded (p value : bytes) : enc unit := write_encoded_loop p value value 0 0.

Definition start_pair (p encoded_parameter : bytes) : enc unit :=
  let! e := get_state in
  let! _ := (if negb (e_first e) then write_raw (Some p) [c_amp] else ret tt) in
  let! e := get_state in
  let! _ := set_state (mkEncoder (e_output e) (e_limits e) (written e) false) in
  let! _ := write_raw (Some p) encoded_parameter in
  write_raw (Some p) [c_eq].

Definition pair_str (p encoded_parameter value : bytes) : enc unit :=
  let! _ := start_pair p encoded_parameter in write_encoded p value.

(** The integer and boolean methods write a text that needs no escaping. *)
Definition pair_raw (p encoded_parameter digits : bytes) : enc unit :=
  let! _ := start_pair p encoded_parameter in write_raw (Some p) digits.

Definition pair_bool (p encoded_parameter : bytes) (value : bool) : enc unit :=
  pair_raw p encoded_parameter (if value then str "true" else str "false").

(** [pair_display]: the pieces a [Display] implementation writes, [None] standing for
    a formatting failure of its own. *)
Fixpoint write_pieces (p : bytes) (pieces : list (option bytes)) : enc unit :=
  match pieces with
  | [] => ret tt
  | Some s :: tl => let! _ := write_encoded p s in write_pieces p tl
  | None :: _ => throw (production (Some p) Format)
  end.

Definition pair_display (p encoded_parameter : bytes) (pieces : list (option bytes)) : enc unit :=
  let! _ := start_pair p encoded_parameter in write_pieces p pieces.
End encoder.

(** [String] as a destination. *)
#[export] Instance string_writer : Writer bytes := {| write_str := fun out s => Some (out ++ s) |}.

(** ** Path captures *)

(** The loop of [decode] in [decode.rs]: path semantics, ['+'] is literal. *)
Fixpoint path_decode_loop (rest : bytes) : option bytes :=
  match rest with
  | [] => Some []
  | byte :: tail =>
      if (byte =? c_percent)%Z then
        match tail with
        | hi :: lo :: rest' =>
            match hex hi, hex lo with
            | Some hi, Some lo => cons (hi * 16 + lo)%Z <$> path_decode_loop rest'
            | _, _ => None
            end
        | _ => None
        end
      else cons byte <$> path_decode_loop tail
  end.

Definition path_decode (s : bytes) : option Decoded :=
  match position (Z.eqb c_percent) s with
  | None => Some (Borrowed s)
  | Some first =>
      match path_decode_loop (drop first s) with
      | None => None
      | Some out => if utf8_valid (take first s ++ out) then Some (Owned (take first s ++ out)) else None
      end
  end.

(** ** The parameter names the derive macro encodes at build time *)

Fixpoint encode_parameter (parameter : bytes) : bytes :=
  match parameter with
  | [] => []
  | byte :: rest =>
      (if is_ascii_alphanumeric byte || existsb (Z.eqb byte) [42; 45; 46; 95]%Z then [byte]
       else if (byte =? c_space)%Z then [c_plus]
       else [c_percent; nth (Z.to_nat (Z.shiftr byte 4)) HEX 0%Z; nth (Z.to_nat (Z.land byte 15)) HEX 0%Z])
      ++ encode_parameter rest
  end.

(** The generated [encode_fields] of string fields: one [pair_str] per value, the first
    error ends it. *)
Fixpoint encode_fields {W} `{Writer W} (fields : list (bytes * bytes)) : action (Encoder W) QError unit :=
  match fields with
  | [] => ret tt
  | (parameter, value) :: rest =>
      let! _ := pair_str parameter (encode_parameter parameter) value in encode_fields rest
  end.

(** ** The vector searches agree with the scalar ones *)

Lemma position_app_split (p : Z -> bool) l r :
  position p (l ++ r)
  = match position p l with Some i => Some i | None => (fun i => length l + i) <$> position p r end.
Proof.
  induction l as [|x l IH]; cbn [app position length].
  - by destruct (position p r).
  - destruct (p x); [done|]. rewrite IH. destruct (position p l); [done|]. cbn. by destruct (position p r).
Qed.

Lemma position_existsb (p : Z -> bool) l :
  existsb p l = match position p l with Some _ => true | None => false end.
Proof. induction l as [|x l IH]; [done|]. cbn. destruct (p x); [done|]. rewrite IH. by destruct (position p l). Qed.

Lemma bits_position p l :
  match position p l with
  | Some i => (0 < bits p l)%Z /\ trailing_zeros (bits p l) = i
  | None => bits p l = 0%Z
  end.
Proof.
  induction l as [|x l IH]; [done|]. cbn [position bits]. pose proof (bits_bound p l).
  destruct (p x); cbn [Z.b2z].
  - split; [lia|]. by apply trailing_zeros_odd.
  - destruct (position p l) as [i|]; cbn; rewrite Z.add_0_l; [|by rewrite IH].
    destruct IH as [IH1 <-]. split; [lia|]. by apply trailing_zeros_double.
Qed.

Lemma nibbles_position p l :
  match position p l with
  | Some i => (0 < nibbles p l)%Z /\ trailing_zeros (nibbles p l) = 4 * i
  | None => nibbles p l = 0%Z
  end.
Proof.
  induction l as [|x l IH]; [done|]. cbn [position nibbles]. pose proof (nibbles_bound p l).
  destruct (p x).
  - split; [lia|]. by apply nibble_trailing_zeros_odd.
  - destruct (position p l) as [i|]; cbn [fmap option_fmap option_map]; rewrite Z.add_0_l; [|by rewrite IH].
    destruct IH as [IH1 IH2]. split; [lia|]. rewrite nibble_trailing_zeros, IH2 by done. lia.
Qed.

Lemma sse2_first_lane_spec chunk needle :
  sse2_first_lane chunk needle = position (fun b => (b =? needle)%Z) chunk.
Proof.
  unfold sse2_first_lane. rewrite cmpeq_lanes, movemask_lanes.
  pose proof (bits_position (fun b => (b =? needle)%Z) chunk) as H.
  destruct (position _ chunk) as [i|]; [|by rewrite H].
  destruct H as [H <-]. by rewrite (proj2 (Z.eqb_neq _ 0)) by lia.
Qed.

Lemma neon_first_lane_spec chunk needle : Nat.Even (length chunk) ->
  neon_first_lane chunk needle = position (fun b => (b =? needle)%Z) chunk.
Proof.
  intros He. unfold neon_first_lane. rewrite cmpeq_lanes, shrn4_lanes by done.
  pose proof (nibbles_position (fun b => (b =? needle)%Z) chunk) as H.
  destruct (position _ chunk) as [i|]; [|by rewrite H].
  destruct H as [H ->]. rewrite (proj2 (Z.eqb_neq _ 0)) by lia. f_equal.
  rewrite Z.shiftr_div_pow2 by lia. change (2 ^ 2)%Z with 4%Z.
  rewrite Nat2Z.inj_mul, Z.mul_comm, Z.div_mul by lia. lia.
Qed.

Lemma find_byte_loop_spec first_lane fuel bs needle offset :
  (forall chunk, length chunk = 16 ->
     first_lane chunk needle = position (fun b => (b =? needle)%Z) chunk) ->
  length bs < offset + fuel -> offset <= length bs ->
  find_byte_loop first_lane fuel bs needle offset
  = (fun i => offset + i) <$> find_byte_scalar (drop offset bs) needle.
Proof.
  intros Hf. revert offset; induction fuel as [|fuel IH]; intros offset Hfuel Hoff; [lia|].
  cbn [find_byte_loop]. destruct (Nat.leb_spec (offset + 16) (length bs)) as [Hle|]; [|done].
  rewrite Hf by by apply chunk_length. unfold find_byte_scalar in *.
  rewrite <- (take_drop 16 (drop offset bs)) at 2. rewrite position_app_split.
  destruct (position _ (take 16 (drop offset bs))); [done|].
  rewrite IH by lia. rewrite chunk_length, drop_drop by done.
  destruct (position _ (drop (offset + 16) bs)); cbn; [f_equal; lia|done].
Qed.

Lemma existsb_lanes_max p l : negb (max_lane (lanes p l) =? 0)%Z = existsb p l.
Proof.
  assert (Hnn : forall l, (0 <= max_lane (lanes p l))%Z).
  { intros l'. induction l' as [|x l' IH]; cbn; [done|]. unfold max_lane, lanes in *. lia. }
  induction l as [|x l IH]; [done|]. cbn [existsb].
  change (max_lane (lanes p (x :: l))) with (Z.max (if p x then 255 else 0) (max_lane (lanes p l))).
  specialize (Hnn l). destruct (p x); cbn [orb].
  - by rewrite (proj2 (Z.eqb_neq _ 0)) by lia.
  - rewrite <- IH. f_equal. f_equal. lia.
Qed.

Lemma sse2_any_lane_spec chunk a b :
  sse2_any_lane chunk a b = contains_either_scalar chunk a b.
Proof.
  unfold sse2_any_lane, contains_either_scalar.
  rewrite !cmpeq_lanes, or_lanes_lanes, movemask_lanes, bits_zero.
  induction chunk as [|x l IH]; [done|]. cbn. rewrite <- IH. by destruct (_ || _).
Qed.

Lemma neon_any_lane_spec chunk a b :
  neon_any_lane chunk a b = contains_either_scalar chunk a b.
Proof. unfold neon_any_lane. by rewrite !cmpeq_lanes, or_lanes_lanes, existsb_lanes_max. Qed.

Lemma contains_either_loop_spec any_lane fuel bs a b offset :
  (forall chunk, any_lane chunk a b = contains_either_scalar chunk a b) ->
  length bs < offset + fuel -> offset <= length bs ->
  contains_either_loop any_lane fuel bs a b offset = contains_either_scalar (drop offset bs) a b.
Proof.
  intros Ha. revert offset; induction fuel as [|fuel IH]; intros offset Hfuel Hoff; [lia|].
  cbn [contains_either_loop]. destruct (Nat.leb_spec (offset + 16) (length bs)) as [Hle|]; [|done].
  rewrite Ha. unfold contains_either_scalar in *.
  rewrite <- (take_drop 16 (drop offset bs)) at 2. rewrite existsb_app.
  destruct (existsb _ (take 16 _)); [done|]. by rewrite IH, drop_drop by lia.
Qed.

Lemma find_byte_spec arch WIDE bs needle : find_byte arch WIDE bs needle = find_byte_scalar bs needle.
Proof.
  unfold find_byte, find_byte_sse2, find_byte_neon. destruct (_ && _); [|done].
  destruct arch; [| |done]; (rewrite find_byte_loop_spec; [rewrite drop_0; by destruct (find_byte_scalar _ _)
    |intros; try apply sse2_first_lane_spec|lia|lia]).
  apply neon_first_lane_spec. exists 8. lia.
Qed.

Lemma contains_either_spec arch WIDE bs a b :
  contains_either arch WIDE bs a b = contains_either_scalar bs a b.
Proof.
  unfold contains_either, contains_either_sse2, contains_either_neon. destruct (_ && _); [|done].
  destruct arch; [| |done]; (rewrite contains_either_loop_spec; [by rewrite drop_0| |lia|lia]).
  - intros. apply sse2_any_lane_spec.
  - intros. apply neon_any_lane_spec.
Qed.

(** The vector searches of the query parser return exactly what the scalar
    searches return, on every input and every architecture. *)
Theorem vector_search_matches_scalar arch bs needle first second :
  find_byte arch true bs needle = find_byte_scalar bs needle
  /\ contains_either arch true bs first second = contains_either_scalar bs first second.
Proof. split; [apply find_byte_spec|apply contains_either_spec]. Qed.

(** ** What decoding computes *)

(** Form decoding of a component that starts at [idx]: the bytes, or the position of
    a malformed escape. *)
Fixpoint form_decode (s : bytes) (idx : nat) : nat + bytes :=
  match s with
  | [] => inr []
  | b :: tl =>
      let push c r := match r with inl e => inl e | inr out => inr (c :: out) end in
      if (b =? c_plus)%Z then push c_space (form_decode tl (S idx))
      else if (b =? c_percent)%Z then
        match tl with
        | hi :: lo :: tl' =>
            match hex hi, hex lo with
            | Some hi, Some lo => push (hi * 16 + lo)%Z (form_decode tl' (S (S (S idx))))
            | _, _ => inl idx
            end
        | _ => inl idx
        end
      else push b (form_decode tl (S idx))
  end.

(** Charges the decoded bytes, then checks that they are a text. *)
Definition finish_decode (out : bytes) (offset : nat) (limits : QueryLimits) : action Z QError Decoded :=
  let! _ := add_decoded (length out) offset limits in
  if utf8_valid out then ret (Owned out) else throw (parsing None offset InvalidUtf8).

Definition decode_ref (s : bytes) (offset : nat) (limits : QueryLimits) : action Z QError Decoded :=
  if existsb is_special s then
    match form_decode s 0 with
    | inl at_ => throw (parsing None (offset + at_) InvalidEncoding)
    | inr out => finish_decode out offset limits
    end
  else let! _ := add_decoded (length s) offset limits in ret (Borrowed s).

Lemma advance_ok {S E} i a (s : S) :
  (Z.of_nat i + Z.of_nat a <= usize_max)%Z -> advance (E:=E) i a s = (Ok (i + a), s).
Proof. intros H. unfold advance. by rewrite (proj2 (Z.leb_le _ _)). Qed.

Section decoding.
Context (inp : bytes) (offset : nat) (lim : QueryLimits).
Context (Hlen : (Z.of_nat (length inp) <= isize_max)%Z).

Lemma advance_in i a (s : Z) : i <= length inp -> a <= Nat.max 3 (length inp) ->
  advance (E:=QError) i a s = (Ok (i + a), s).
Proof. intros Hi Ha. apply advance_ok. unfold isize_max, usize_max in *. lia. Qed.

(** The escape at a percent sign, from the bytes that follow it. *)
Lemma escape_spec i tl total : drop i inp = c_percent :: tl ->
  escape inp offset i total
  = match tl with
    | hi :: lo :: _ =>
        match hex hi, hex lo with
        | Some hi, Some lo => (Ok (hi * 16 + lo)%Z, total)
        | _, _ => (Err (parsing None (offset + i) InvalidEncoding), total)
        end
    | _ => (Err (parsing None (offset + i) InvalidEncoding), total)
    end.
Proof.
  intros Hd. assert (Hi : i < length inp).
  { apply (f_equal length) in Hd. rewrite length_drop in Hd. cbn in Hd. lia. }
  assert (H1 : drop (i + 1) inp = tl) by (by rewrite <- drop_drop, Hd).
  assert (H2 : drop (i + 2) inp = drop 1 tl) by (by rewrite <- H1, drop_drop, <- Nat.add_assoc).
  assert (Hl : length tl = length inp - (i + 1)) by (by rewrite <- H1, length_drop).
  unfold escape. rewrite (bind_ok _ _ _ _ _ (advance_in i 1 total ltac:(lia) ltac:(lia))).
  rewrite (bind_ok _ _ _ _ _ (advance_in i 2 total ltac:(lia) ltac:(lia))).
  rewrite <- (Nat.add_0_r (i + 1)), <- lookup_drop, H1, H2.
  destruct tl as [|hi tl]; [done|]. cbn [lookup list_lookup length drop] in *.
  rewrite (proj2 (Nat.leb_le (i + 2) (length inp))) by lia.
  destruct tl as [|lo tl]; [done|]. rewrite drop_0. cbn [head].
  destruct (hex hi); [|done]. by destruct (hex lo).
Qed.

Lemma drop_S_eq i b tl : drop i inp = b :: tl -> drop (i + 1) inp = tl /\ i < length inp
  /\ inp !! i = Some b.
Proof.
  intros Hd. split_and!.
  - by rewrite <- drop_drop, Hd.
  - apply (f_equal length) in Hd. rewrite length_drop in Hd. cbn in Hd. lia.
  - rewrite <- (Nat.add_0_r i), <- lookup_drop, Hd. done.
Qed.

(** The plain byte loop is form decoding. *)
Lemma decode_bytes_loop_spec fuel output i total :
  i <= length inp -> length inp <= i + fuel ->
  decode_bytes_loop fuel inp offset output i total
  = match form_decode (drop i inp) i with
    | inl at_ => (Err (parsing None (offset + at_) InvalidEncoding), total)
    | inr out => (Ok (output ++ out), total)
    end.
Proof.
  revert output i; induction fuel as [|fuel IH]; intros output i Hi Hf.
  - cbn [decode_bytes_loop]. rewrite lookup_ge_None_2, drop_ge by lia. cbn. by rewrite app_nil_r.
  - cbn [decode_bytes_loop]. destruct (drop i inp) as [|b tl] eqn:Hd.
    { rewrite lookup_ge_None_2; [cbn; by rewrite app_nil_r|].
      apply (f_equal length) in Hd. rewrite length_drop in Hd. cbn in Hd. lia. }
    destruct (drop_S_eq _ _ _ Hd) as (Hd1 & Hlt & ->). cbn [form_decode].
    destruct (Z.eqb_spec b c_plus) as [->|Hp].
    + rewrite (bind_ok _ _ _ _ _ (advance_in i 1 total ltac:(lia) ltac:(lia))).
      rewrite IH, Hd1, Nat.add_1_r by lia. destruct (form_decode tl (S i)); [done|].
      by rewrite <- app_assoc.
    + destruct (Z.eqb_spec b c_percent) as [->|Hc].
      * pose proof (escape_spec i tl total Hd) as He.
        destruct tl as [|hi [|lo tl]]; [by rewrite (bind_err _ _ _ _ _ He)..|].
        destruct (hex hi) as [h|]; [|by rewrite (bind_err _ _ _ _ _ He)].
        destruct (hex lo) as [l|]; [|by rewrite (bind_err _ _ _ _ _ He)].
        rewrite (bind_ok _ _ _ _ _ He).
        rewrite (bind_ok _ _ _ _ _ (advance_in i 3 total ltac:(lia) ltac:(lia))).
        assert (Hlt3 : i + 3 <= length inp).
        { apply (f_equal length) in Hd. rewrite length_drop in Hd. cbn in Hd. lia. }
        assert (Hd3 : drop (i + 3) inp = tl) by (by rewrite <- drop_drop, Hd).
        rewrite IH, Hd3 by lia. replace (i + 3) with (S (S (S i))) by lia.
        destruct (form_decode tl _); [done|]. by rewrite <- app_assoc.
      * rewrite (bind_ok _ _ _ _ _ (advance_in i 1 total ltac:(lia) ltac:(lia))).
        rewrite IH, Hd1, Nat.add_1_r by lia. destruct (form_decode tl (S i)); [done|].
        by rewrite <- app_assoc.
Qed.

Lemma form_decode_plain pre s i : existsb is_special pre = false ->
  form_decode (pre ++ s) i
  = match form_decode s (i + length pre) with inl e => inl e | inr out => inr (pre ++ out) end.
Proof.
  revert i; induction pre as [|b pre IH]; intros i Hp; cbn [app length].
  - rewrite Nat.add_0_r. by destruct (form_decode s i).
  - cbn [existsb] in Hp. apply orb_false_iff in Hp as [Hb Hp]. unfold is_special in Hb.
    apply orb_false_iff in Hb as [Hb1 Hb2]. cbn [form_decode]. rewrite Hb1, Hb2, IH by done.
    rewrite Nat.add_succ_r. cbn [Nat.add]. by destruct (form_decode s _).
Qed.

Lemma hex_range b v : hex b = Some v -> (0 <= v < 16)%Z /\ in_range 0 127 b = true.
Proof.
  unfold hex, in_range. repeat case_match; intros; simplify_eq; to_prop;
    (split; [lia|]; apply andb_true_iff; rewrite !Z.leb_le; lia).
Qed.

Lemma position_special_split l rel : position is_special l = Some rel ->
  exists pre b post, l = pre ++ b :: post /\ length pre = rel /\ existsb is_special pre = false
    /\ is_special b = true.
Proof.
  revert rel; induction l as [|x l IH]; intros rel; cbn; [done|].
  destruct (is_special x) eqn:Hx; [intros [= <-]; by exists [], x, l|].
  intros (r & Hr & ->)%fmap_Some. destruct (IH r Hr) as (pre & b & post & -> & <- & Hp & Hb).
  exists (x :: pre), b, post. cbn. by rewrite Hx.
Qed.

Definition after_loop (r : bytes + bytes * nat) : action Z QError Decoded :=
  match r with
  | inr (output, special) => decode_encoded_bytes inp offset lim output special
  | inl output => let! _ := add_decoded (length output) offset lim in ret (Owned output)
  end.

Definition decode_result (output : bytes) (r : nat + bytes) (total : Z) : outcome QError Decoded * Z :=
  match r with
  | inl at_ => (Err (parsing None (offset + at_) InvalidEncoding), total)
  | inr out => finish_decode (output ++ out) offset lim total
  end.

Lemma decode_encoded_bytes_spec output i total : i <= length inp ->
  decode_encoded_bytes inp offset lim output i total = decode_result output (form_decode (drop i inp) i) total.
Proof.
  intros Hi. unfold decode_encoded_bytes, decode_result.
  pose proof (decode_bytes_loop_spec (length inp) output i total Hi ltac:(lia)) as H.
  destruct (form_decode _ _); [by rewrite (bind_err _ _ _ _ _ H)|by rewrite (bind_ok _ _ _ _ _ H)].
Qed.

Lemma finish_valid out total : utf8_valid out = true ->
  after_loop (inl out) total = finish_decode out offset lim total.
Proof. intros Hu. unfold after_loop, finish_decode, bind. by rewrite Hu. Qed.

Lemma decode_result_push output c s j total :
  decode_result (output ++ [c]) (form_decode s j) total
  = decode_result output
      (match form_decode s j with inl e => inl e | inr out => inr (c :: out) end) total.
Proof. destruct (form_decode s j); [done|]. unfold decode_result. by rewrite <- app_assoc. Qed.

(** The loop at a plus or percent sign, given what it does further on. *)
Lemma decode_at_special fuel output sp b post total :
  drop sp inp = b :: post -> is_special b = true -> utf8_valid output = true -> utf8_valid post = true ->
  length inp <= sp + 1 + fuel ->
  (forall output i, i <= length inp -> length inp <= i + fuel ->
     utf8_valid output = true -> utf8_valid (drop i inp) = true ->
     bind (decode_loop fuel inp offset output i) after_loop total
     = decode_result output (form_decode (drop i inp) i) total) ->
  bind (if (b =? c_plus)%Z
        then let! next := advance sp 1 in decode_loop fuel inp offset (output ++ [c_space]) next
        else
          let! byte := escape inp offset sp in
          if negb (byte <? 128)%Z then ret (inr (output, sp))
          else let! next := advance sp 3 in decode_loop fuel inp offset (output ++ [byte]) next) after_loop total
  = decode_result output (form_decode (b :: post) sp) total.
Proof.
  intros Hds Hsp Ho Hpost Hf IH. destruct (drop_S_eq _ _ _ Hds) as (Hd1 & Hslt & _). cbn [form_decode].
  assert (Hlen' : length inp = sp + S (length post)).
  { apply (f_equal length) in Hds. rewrite length_drop in Hds. cbn in Hds. lia. }
  destruct (Z.eqb_spec b c_plus) as [->|Hp].
  { rewrite bind_assoc, (bind_ok _ _ _ _ _ (advance_in sp 1 total ltac:(lia) ltac:(lia))).
    rewrite IH, Hd1; [|lia|lia|auto with rust|by rewrite Hd1]. rewrite Nat.add_1_r. apply decode_result_push. }
  assert (b = c_percent) as ->.
  { unfold is_special in Hsp. apply orb_true_iff in Hsp as [?%Z.eqb_eq|?%Z.eqb_eq]; done. }
  rewrite (proj2 (Z.eqb_eq _ _) eq_refl), bind_assoc.
  pose proof (escape_spec sp post total Hds) as He.
  destruct post as [|hi [|lo tl]]; [by rewrite (bind_err _ _ _ _ _ He)..|].
  destruct (hex hi) as [h|] eqn:Hhi; [|by rewrite (bind_err _ _ _ _ _ He)].
  destruct (hex lo) as [l|] eqn:Hlo; [|by rewrite (bind_err _ _ _ _ _ He)].
  rewrite (bind_ok _ _ _ _ _ He). cbn [length] in Hlen'.
  destruct (hex_range _ _ Hhi) as [Hh Hhi'], (hex_range _ _ Hlo) as [Hl Hlo'].
  destruct (Z.ltb_spec (h * 16 + l) 128) as [Hb|Hb]; cbn [negb].
  - rewrite bind_assoc, (bind_ok _ _ _ _ _ (advance_in sp 3 total ltac:(lia) ltac:(lia))).
    assert (Hd3 : drop (sp + 3) inp = tl) by (by rewrite <- drop_drop, Hds).
    rewrite IH, Hd3; [|lia|lia| |].
    + replace (sp + 3) with (S (S (S sp))) by lia. apply decode_result_push.
    + apply utf8_valid_app; [done|]. apply utf8_valid_ascii. cbn. unfold in_range.
      rewrite !(proj2 (Z.leb_le _ _)) by lia. done.
    + rewrite Hd3. eapply (utf8_valid_after_ascii [] lo); [done|].
      by eapply (utf8_valid_after_ascii [] hi).
  - unfold bind at 1. cbn [after_loop ret]. rewrite decode_encoded_bytes_spec, Hds by lia.
    cbn [form_decode]. by rewrite Hhi, Hlo.
Qed.

Lemma decode_loop_spec fuel output i total :
  i <= length inp -> length inp <= i + fuel ->
  utf8_valid output = true -> utf8_valid (drop i inp) = true ->
  bind (decode_loop fuel inp offset output i) after_loop total
  = decode_result output (form_decode (drop i inp) i) total.
Proof.
  revert output i; induction fuel as [|fuel IH]; intros output i Hi Hf Ho Hr.
  { cbn [decode_loop]. rewrite lookup_ge_None_2, drop_ge by lia. cbn [form_decode].
    unfold decode_result. rewrite app_nil_r, <- finish_valid by done. done. }
  cbn [decode_loop]. destruct (drop i inp) as [|b0 rest] eqn:Hd.
  { rewrite lookup_ge_None_2 by (apply (f_equal length) in Hd; rewrite length_drop in Hd; cbn in Hd; lia).
    unfold decode_result. cbn [form_decode]. rewrite app_nil_r, <- finish_valid by done. done. }
  destruct (drop_S_eq _ _ _ Hd) as (_ & Hlt & ->). rewrite <- Hd in *. clear b0 rest Hd.
  destruct (position is_special (drop i inp)) as [rel|] eqn:Hpos.
  2: { assert (Hno : existsb is_special (drop i inp) = false) by by rewrite position_existsb, Hpos.
       pose proof (form_decode_plain (drop i inp) [] i Hno) as Hfd. rewrite app_nil_r in Hfd.
       rewrite Hfd. unfold decode_result. cbn [form_decode]. rewrite app_nil_r.
       by rewrite <- finish_valid by auto with rust. }
  destruct (position_special_split _ _ Hpos) as (pre & b & post & Hd & <- & Hno & Hsp).
  assert (Hlen' : length (drop i inp) = length pre + S (length post)) by by rewrite Hd, length_app.
  rewrite length_drop in Hlen'.
  assert (Hds : drop (i + length pre) inp = b :: post) by by rewrite <- drop_drop, Hd, drop_app_length.
  rewrite bind_assoc, (bind_ok _ _ _ _ _ (advance_in i (length pre) total ltac:(lia) ltac:(lia))).
  replace (i + length pre - i) with (length pre) by lia.
  destruct (drop_S_eq _ _ _ Hds) as (_ & _ & ->). rewrite Hd, take_app_length.
  rewrite form_decode_plain by done. rewrite Hd in Hr.
  assert (Hascii : in_range 0 127 b = true).
  { unfold is_special in Hsp. apply orb_true_iff in Hsp as [->%Z.eqb_eq| ->%Z.eqb_eq]; done. }
  assert (Hpre : utf8_valid pre = true) by by eapply utf8_valid_before_ascii.
  assert (Hpost : utf8_valid post = true) by by eapply utf8_valid_after_ascii.
  rewrite (decode_at_special fuel (output ++ pre) (i + length pre) b post total);
    [|done|done|auto with rust|done|lia|exact IH].
  destruct (form_decode (b :: post) (i + length pre)); [done|]. unfold decode_result. by rewrite app_assoc.
Qed.
End decoding.

(** Decoding a text is form decoding, charged to the total and checked. *)
Lemma decode_encoded_spec s offset lim total :
  (Z.of_nat (length s) <= isize_max)%Z -> utf8_valid s = true ->
  decode_encoded s offset lim total = decode_result offset lim [] (form_decode s 0) total.
Proof.
  intros Hlen Hu. rewrite <- (drop_0 s) at 2. rewrite <- (decode_loop_spec s offset lim Hlen (length s)); try done; lia.
Qed.

Lemma decode_known_spec s offset lim total :
  (Z.of_nat (length s) <= isize_max)%Z -> utf8_valid s = true ->
  decode_known s offset lim (existsb is_special s) total = decode_ref s offset lim total.
Proof.
  intros Hlen Hu. unfold decode_known, decode_ref. destruct (existsb is_special s); [|done]. cbn [negb].
  rewrite decode_encoded_spec by done. by destruct (form_decode s 0).
Qed.

Lemma decode_spec arch WIDE s offset lim total :
  (Z.of_nat (length s) <= isize_max)%Z -> utf8_valid s = true ->
  decode arch WIDE s offset lim total = decode_ref s offset lim total.
Proof.
  intros Hlen Hu. rewrite <- decode_known_spec by done. unfold decode, decode_known.
  by rewrite contains_either_spec.
Qed.

(** ** What the parser computes *)

(** The pieces between the ampersands with their positions; empty ones do not count. *)
Fixpoint offsets (o : nat) (pieces : list bytes) : list (nat * bytes) :=
  match pieces with
  | [] => []
  | x :: xs => (o, x) :: offsets (o + length x + 1) xs
  end.

Definition query_pieces (o : nat) (s : bytes) : list (nat * bytes) :=
  filter (fun x => x.2 <> []) (offsets o (split_on c_amp s)).

(** The key, the value and the position of the value in a piece. *)
Definition key_value (raw : bytes) : bytes * bytes * nat :=
  match position (Z.eqb c_eq) raw with
  | Some i => (take i raw, drop (i + 1) raw, i + 1)
  | None => (raw, [], length raw)
  end.

(** One piece: count it, then decode its key and its value. *)
Definition parse_piece (offset : nat) (raw : bytes) : action Parser QError (option Pair) :=
  let! _ := count_pair offset in
  let! p := get_state in
  let '(key, value, at_) := key_value raw in
  let! key := with_decoded (decode_ref key offset (limits p)) in
  let! value := with_decoded (decode_ref value (offset + at_) (limits p)) in
  ret (Some (mkPair key value offset)).

Lemma find_byte_scalar_eq bs c : find_byte_scalar bs c = position (Z.eqb c) bs.
Proof.
  unfold find_byte_scalar. induction bs as [|b bs IH]; [done|]. cbn. by rewrite IH, Z.eqb_sym.
Qed.

(** The scan of one piece, in three steps: the key, the value, the separator. *)
Lemma scan_key key s idx k :
  c_amp ∉ key -> c_eq ∉ key ->
  scan_pair_loop (key ++ s) idx (mkPairScan None None k false)
  = scan_pair_loop s (idx + length key) (mkPairScan None None (k || existsb is_special key) false).
Proof.
  revert idx k; induction key as [|b key IH]; intros idx k Ha He; cbn [app length existsb].
  { by rewrite orb_false_r, Nat.add_0_r. }
  apply not_elem_of_cons in Ha as [Ha1 Ha2]. apply not_elem_of_cons in He as [He1 He2].
  cbn [scan_pair_loop equals key_encoded value_encoded].
  rewrite (proj2 (Z.eqb_neq b c_amp)), (proj2 (Z.eqb_neq b c_eq)) by done. cbn [andb].
  rewrite Nat.add_succ_r. destruct (is_special b); cbn [orb].
  - rewrite bool_decide_eq_false_2 by (by intros [? ?]). rewrite IH by done. by rewrite orb_true_r.
  - by rewrite IH.
Qed.

Lemma scan_value value s idx e k v :
  c_amp ∉ value ->
  scan_pair_loop (value ++ s) idx (mkPairScan None (Some e) k v)
  = scan_pair_loop s (idx + length value) (mkPairScan None (Some e) k (v || existsb is_special value)).
Proof.
  revert idx v; induction value as [|b value IH]; intros idx v Ha; cbn [app length existsb].
  { by rewrite orb_false_r, Nat.add_0_r. }
  apply not_elem_of_cons in Ha as [Ha1 Ha2].
  cbn [scan_pair_loop equals key_encoded value_encoded].
  rewrite (proj2 (Z.eqb_neq b c_amp)) by done. rewrite (bool_decide_eq_false_2 (Some e = None)) by done.
  rewrite andb_false_r, Nat.add_succ_r. destruct (is_special b); cbn [orb].
  - rewrite bool_decide_eq_true_2 by done. rewrite IH by done. by rewrite orb_true_r.
  - by rewrite IH.
Qed.

(** A piece is its key, then, if there is an equals sign, its value. *)
Lemma key_value_cases raw :
  (c_eq ∉ raw /\ position (Z.eqb c_eq) raw = None /\ key_value raw = (raw, [], length raw))
  \/ exists key value, raw = key ++ c_eq :: value /\ c_eq ∉ key
     /\ position (Z.eqb c_eq) raw = Some (length key)
     /\ key_value raw = (key, value, length key + 1).
Proof.
  unfold key_value. destruct (position (Z.eqb c_eq) raw) as [i|] eqn:Hp.
  - right. destruct (position_Some _ _ _ Hp) as (key & value & -> & Hk & ->). exists key, value.
    split_and!; try done. rewrite take_app_length. by rewrite <- drop_drop, drop_app_length.
  - left. by rewrite <- position_None.
Qed.

Lemma scan_pair_spec raw tail :
  c_amp ∉ raw -> tail = [] \/ (exists rest, tail = c_amp :: rest) ->
  scan_pair (raw ++ tail)
  = let '(key, value, _) := key_value raw in
    mkPairScan (if bool_decide (tail = []) then None else Some (length raw)) (position (Z.eqb c_eq) raw)
      (existsb is_special key) (existsb is_special value).
Proof.
  intros Ha Ht. unfold scan_pair.
  assert (Hend : forall sc, separator sc = None -> forall i, i = length raw -> scan_pair_loop tail i sc
    = mkPairScan (if bool_decide (tail = []) then None else Some (length raw)) (equals sc)
        (key_encoded sc) (value_encoded sc)).
  { intros [? ? ? ?] Hs i ->. cbn in Hs. subst. by destruct Ht as [->|[rest ->]]. }
  destruct (key_value_cases raw) as [(He & -> & ->)|(key & value & -> & He & -> & ->)].
  - rewrite scan_key by done. by rewrite Hend.
  - assert (c_amp ∉ key /\ c_amp ∉ value) as [Hk Hv] by set_solver.
    rewrite <- app_assoc, scan_key by done. cbn [app scan_pair_loop].
    change (c_eq =? c_amp)%Z with false. change (c_eq =? c_eq)%Z with true. cbn [equals andb].
    rewrite bool_decide_eq_true_2 by done. cbn [key_encoded value_encoded].
    rewrite scan_value by done. rewrite Hend; [done..|]. rewrite length_app. cbn. lia.
Qed.

(** The parts of a text cut at ASCII delimiters are texts. *)
Lemma key_value_valid raw : utf8_valid raw = true ->
  utf8_valid (key_value raw).1.1 = true /\ utf8_valid (key_value raw).1.2 = true.
Proof.
  intros Hu. destruct (key_value_cases raw) as [(_ & _ & ->)|(key & value & -> & _ & _ & ->)]; [done|].
  split; [by apply (utf8_valid_before_ascii key c_eq value)|by apply (utf8_valid_after_ascii key c_eq value)].
Qed.

Lemma key_value_length raw :
  length (key_value raw).1.1 + length (key_value raw).1.2 <= length raw
  /\ length (key_value raw).1.1 + length (key_value raw).1.2
     = unencoded_pair_decoded_len raw (position (Z.eqb c_eq) raw).
Proof.
  unfold unencoded_pair_decoded_len.
  destruct (key_value_cases raw) as [(_ & -> & ->)|(key & value & -> & _ & -> & ->)]; cbn [fst snd].
  - rewrite bool_decide_eq_false_2 by (by intros [? ?]). cbn. lia.
  - rewrite bool_decide_eq_true_2 by done. rewrite length_app. cbn. lia.
Qed.

Lemma split_pair_spec raw p :
  split_pair raw (position (Z.eqb c_eq) raw) p = (Ok ((key_value raw).1.1, (key_value raw).1.2), p).
Proof.
  unfold split_pair. destruct (key_value_cases raw) as [(_ & -> & ->)|(key & value & -> & _ & -> & ->)]; [done|].
  autorewrite with slices. rewrite slice_from_ok by (rewrite length_app; cbn; lia).
  by rewrite <- drop_drop, drop_app_length.
Qed.

Lemma value_offset_spec offset raw :
  value_offset_of offset raw (position (Z.eqb c_eq) raw) = offset + (key_value raw).2.
Proof.
  unfold value_offset_of.
  by destruct (key_value_cases raw) as [(_ & -> & ->)|(key & value & -> & _ & -> & ->)].
Qed.

Lemma add_decoded_ok n offset lim total :
  (total + Z.of_nat n <= usize_max)%Z -> (total + Z.of_nat n <= max_decoded_length lim)%Z ->
  add_decoded n offset lim total = (Ok tt, (total + Z.of_nat n)%Z).
Proof.
  intros H1 H2. unfold add_decoded, bind, get_state, set_state, checked_add.
  rewrite (proj2 (Z.leb_le _ _)) by done. by rewrite (proj2 (Z.ltb_ge _ _)).
Qed.

Lemma with_decoded_ok {A} (m : action Z QError A) p a total :
  m (decoded p) = (Ok a, total) ->
  with_decoded m p = (Ok a, mkParser (input p) (cursor p) (pairs p) total (limits p)).
Proof. unfold with_decoded. by intros ->. Qed.

Lemma with_decoded_ext {A} (m m' : action Z QError A) p :
  m (decoded p) = m' (decoded p) -> with_decoded m p = with_decoded m' p.
Proof. unfold with_decoded. by intros ->. Qed.


(** Both parsers treat a piece the way [parse_piece] does. *)
Section piece.
Context (offset : nat) (raw : bytes).
Context (Hlen : (Z.of_nat (length raw) <= isize_max)%Z) (Hu : utf8_valid raw = true).

Definition piece_decodes (p : Parser) : outcome QError (option Pair) * Parser :=
  (let! key := with_decoded (decode_ref (key_value raw).1.1 offset (limits p)) in
   let! value := with_decoded (decode_ref (key_value raw).1.2 (offset + (key_value raw).2) (limits p)) in
   ret (Some (mkPair key value offset))) p.

Lemma parse_piece_decodes p :
  parse_piece offset raw p
  = (let! _ := count_pair offset in let! p := get_state in fun p' => piece_decodes p) p.
Proof.
  unfold parse_piece. apply bind_ext; [done|]. intros _ p'. rewrite !bind_get. unfold piece_decodes.
  by destruct (key_value raw) as [[k v] a].
Qed.

Lemma part_lengths :
  (Z.of_nat (length (key_value raw).1.1) <= isize_max)%Z /\ (Z.of_nat (length (key_value raw).1.2) <= isize_max)%Z.
Proof. destruct (key_value_length raw) as [H _]. lia. Qed.

Lemma unencoded_decodes p scan total :
  key_encoded scan = existsb is_special (key_value raw).1.1 ->
  value_encoded scan = existsb is_special (key_value raw).1.2 ->
  equals scan = position (Z.eqb c_eq) raw ->
  fits_unencoded p scan raw = Some total ->
  piece_decodes p
  = (Ok (Some (mkPair (Borrowed (key_value raw).1.1) (Borrowed (key_value raw).1.2) offset)),
     mkParser (input p) (cursor p) (pairs p) total (limits p)).
Proof.
  unfold fits_unencoded. intros -> -> ->. destruct (key_value_length raw) as [_ <-].
  unfold checked_add. intros Hf. repeat (case_match; simplify_eq). to_prop. unfold piece_decodes, decode_ref.
  repeat match goal with H : existsb _ _ = false |- _ => rewrite H; clear H end.
  rewrite (bind_ok _ _ _ (Borrowed (key_value raw).1.1)
     (mkParser (input p) (cursor p) (pairs p) (decoded p + Z.of_nat (length (key_value raw).1.1)) (limits p))).
  2: { apply with_decoded_ok. erewrite bind_ok by (apply add_decoded_ok; lia). done. }
  etrans; [eapply bind_ok, with_decoded_ok; by erewrite bind_ok by (apply add_decoded_ok; cbn; lia)|].
  unfold ret. cbn. do 2 f_equal. lia.
Qed.

Lemma scalar_piece p scan :
  key_encoded scan = existsb is_special (key_value raw).1.1 ->
  value_encoded scan = existsb is_special (key_value raw).1.2 ->
  equals scan = position (Z.eqb c_eq) raw ->
  (let! _ := count_pair offset in
   let! (key, value) := split_pair raw (equals scan) in
   let! p := get_state in
   match fits_unencoded p scan raw with
   | Some total =>
       let! _ := set_state (mkParser (input p) (cursor p) (pairs p) total (limits p)) in
       ret (Some (mkPair (Borrowed key) (Borrowed value) offset))
   | None =>
       let! key := with_decoded (decode_known key offset (limits p) (key_encoded scan)) in
       let value_offset := value_offset_of offset raw (equals scan) in
       let! value := with_decoded (decode_known value value_offset (limits p) (value_encoded scan)) in
       ret (Some (mkPair key value offset))
   end) p = parse_piece offset raw p.
Proof.
  intros Hk Hv He. rewrite parse_piece_decodes. apply bind_ext; [done|]. intros _ p'.
  rewrite He, (bind_ok _ _ _ _ _ (split_pair_spec raw p')). rewrite !bind_get.
  destruct (fits_unencoded p' scan raw) as [total|] eqn:Hf.
  { by rewrite (unencoded_decodes _ _ _ Hk Hv He Hf). }
  destruct part_lengths as [Hl1 Hl2], (key_value_valid raw Hu) as [Hu1 Hu2].
  apply bind_ext; [apply with_decoded_ext; rewrite Hk; by apply decode_known_spec|].
  intros key p''. rewrite value_offset_spec.
  apply bind_ext; [|done]. apply with_decoded_ext. rewrite Hv. by apply decode_known_spec.
Qed.

Lemma wide_piece arch p :
  (let! _ := count_pair offset in
   let eq := find_byte arch true raw c_eq in
   let! (key, value) := split_pair raw eq in
   let! p := get_state in
   let! key := with_decoded (decode arch true key offset (limits p)) in
   let value_offset := value_offset_of offset raw eq in
   let! value := with_decoded (decode arch true value value_offset (limits p)) in
   ret (Some (mkPair key value offset))) p = parse_piece offset raw p.
Proof.
  rewrite parse_piece_decodes. apply bind_ext; [done|]. intros _ p'. cbv zeta.
  rewrite find_byte_spec, find_byte_scalar_eq, (bind_ok _ _ _ _ _ (split_pair_spec raw p')).
  destruct part_lengths as [Hl1 Hl2], (key_value_valid raw Hu) as [Hu1 Hu2].
  rewrite !bind_get. unfold piece_decodes.
  apply bind_ext; [apply with_decoded_ext; by apply decode_spec|].
  intros key p''. rewrite value_offset_spec.
  apply bind_ext; [|done]. apply with_decoded_ext. by apply decode_spec.
Qed.
End piece.

(** ** One call of [next_pair] *)

Definition at_cursor (p : Parser) (c : nat) : Parser :=
  mkParser (input p) c (pairs p) (decoded p) (limits p).

(** The next piece, or the end of the query. *)
Definition next_ref (p : Parser) : outcome QError (option Pair) * Parser :=
  match query_pieces (cursor p) (drop (cursor p) (input p)) with
  | [] => (Ok None, at_cursor p (length (input p)))
  | (offset, raw) :: _ =>
      parse_piece offset raw (at_cursor p (Nat.min (offset + length raw + 1) (length (input p))))
  end.

(** A parser inside its input, between two pieces of it. *)
Record parser_ok (p : Parser) : Prop := {
  ok_cursor : cursor p <= length (input p);
  ok_text : utf8_valid (drop (cursor p) (input p)) = true;
  ok_length : (Z.of_nat (length (input p)) <= isize_max)%Z }.

Lemma query_pieces_last o raw : c_amp ∉ raw ->
  query_pieces o raw = if bytes_eqb raw [] then [] else [(o, raw)].
Proof. intros H. unfold query_pieces. rewrite split_on_none by done. by destruct raw. Qed.

Lemma query_pieces_cons o raw rest : c_amp ∉ raw ->
  query_pieces o (raw ++ c_amp :: rest)
  = (if bytes_eqb raw [] then [] else [(o, raw)]) ++ query_pieces (o + length raw + 1) rest.
Proof. intros H. unfold query_pieces. rewrite split_on_app by done. by destruct raw. Qed.

(** The rest of the input is a piece, then the end or an ampersand. *)
Lemma first_piece s :
  exists raw tail, s = raw ++ tail /\ c_amp ∉ raw
    /\ (tail = [] /\ position (Z.eqb c_amp) s = None
        \/ exists rest, tail = c_amp :: rest /\ position (Z.eqb c_amp) s = Some (length raw)).
Proof.
  destruct (position (Z.eqb c_amp) s) as [i|] eqn:Hp.
  - destruct (position_Some _ _ _ Hp) as (raw & rest & -> & Hr & ->). exists raw, (c_amp :: rest). eauto 10.
  - exists s, []. rewrite app_nil_r. apply position_None in Hp. auto.
Qed.

Lemma next_ref_end p : parser_ok p -> input p !! cursor p = None -> next_ref p = (Ok None, p).
Proof.
  intros [Hc _ _] Hn%lookup_ge_None_1. unfold next_ref. rewrite drop_ge by done.
  replace (length (input p)) with (cursor p) by lia. by destruct p.
Qed.

Section next.
Context (p : Parser) (raw tail : bytes).
Context (Hok : parser_ok p) (Hd : drop (cursor p) (input p) = raw ++ tail) (Ha : c_amp ∉ raw).
Context (Ht : tail = [] \/ exists rest, tail = c_amp :: rest).

(** Where the cursor goes. *)
Definition next_cursor : nat :=
  if bool_decide (tail = []) then length (input p) else cursor p + length raw + 1.

Lemma input_length : length (input p) = cursor p + length raw + length tail.
Proof.
  destruct Hok as [Hc _ _]. apply (f_equal length) in Hd. rewrite length_drop, length_app in Hd. lia.
Qed.

Lemma raw_valid : utf8_valid raw = true.
Proof.
  destruct Hok as [_ Hu _]. rewrite Hd in Hu. destruct Ht as [->|[rest ->]].
  - by rewrite app_nil_r in Hu.
  - by apply (utf8_valid_before_ascii raw c_amp rest).
Qed.

Lemma next_cursor_min : next_cursor = Nat.min (cursor p + length raw + 1) (length (input p)).
Proof.
  unfold next_cursor. pose proof input_length as Hl. destruct Ht as [->|[rest ->]]; cbn in *; lia.
Qed.

Lemma next_cursor_ok : parser_ok (at_cursor p next_cursor).
Proof.
  pose proof input_length as Hl. destruct Hok as [Hc Hu Hi].
  split; cbn [at_cursor cursor input]; [rewrite next_cursor_min; lia| |done].
  unfold next_cursor. destruct Ht as [->|[rest ->]]; cbn [bool_decide].
  - rewrite bool_decide_eq_true_2, drop_ge by done. done.
  - rewrite bool_decide_eq_false_2 by done. rewrite <- !drop_drop, Hd, drop_app_length. cbn [drop].
    rewrite drop_0. rewrite Hd in Hu. by apply (utf8_valid_after_ascii raw c_amp rest).
Qed.

(** An empty piece is skipped. *)
Lemma next_ref_skip : raw = [] -> tail <> [] -> next_ref p = next_ref (at_cursor p next_cursor).
Proof.
  intros Hr Hne. unfold next_ref at 1. rewrite Hd. unfold next_cursor. destruct Ht as [->|[rest ->]]; [done|].
  rewrite query_pieces_cons, Hr by done. unfold next_ref. change (bytes_eqb [] []) with true.
  cbn [app at_cursor cursor input]. rewrite bool_decide_eq_false_2 by done.
  rewrite <- !drop_drop, Hd, Hr. cbn [length drop app]. rewrite !drop_0. by destruct (query_pieces _ rest).
Qed.

(** Any other piece is parsed. *)
Lemma next_ref_piece : raw <> [] ->
  next_ref p = parse_piece (cursor p) raw (at_cursor p next_cursor).
Proof.
  intros Hne. unfold next_ref. rewrite Hd, next_cursor_min.
  destruct Ht as [->|[rest ->]]; [rewrite app_nil_r, query_pieces_last by done|rewrite query_pieces_cons by done];
    (destruct (bytes_eqb raw []) eqn:Hb; [by apply bytes_eqb_eq in Hb|done]).
Qed.
End next.

(** The cursor step of the scalar parser never overflows. *)
Lemma scalar_cursor p raw tail q :
  parser_ok p -> drop (cursor p) (input p) = raw ++ tail ->
  (match (if bool_decide (tail = []) then None else Some (length raw)) with
   | Some _ => let! w := advance (default (length (raw ++ tail))
        (if bool_decide (tail = []) then None else Some (length raw))) 1 in advance (cursor p) w
   | None => ret (length (input p))
   end) q = (Ok (next_cursor p raw tail), q) :> outcome QError nat * Parser.
Proof.
  intros Hok Hd. pose proof (input_length p raw tail Hok Hd) as Hl. destruct Hok as [Hc _ Hi].
  unfold next_cursor. unfold isize_max in Hi. case_bool_decide as Htail; [done|]. destruct tail; [done|]. cbn [length] in Hl.
  cbn [default from_option]. unfold id.
  erewrite bind_ok by (apply advance_ok; unfold usize_max; lia).
  rewrite advance_ok by (unfold usize_max; lia). by rewrite Nat.add_assoc.
Qed.

Lemma piece_take (raw tail : bytes) :
  take (default (length (raw ++ tail)) (if bool_decide (tail = []) then None else Some (length raw)))
    (raw ++ tail) = raw.
Proof.
  case_bool_decide as Ht; cbn [default from_option]; [|by apply take_app_length].
  rewrite Ht, app_nil_r. apply firstn_all.
Qed.

Lemma next_pair_scalar_spec fuel p :
  parser_ok p -> length (input p) <= cursor p + fuel -> next_pair_scalar fuel p = next_ref p.
Proof.
  revert p; induction fuel as [|fuel IH]; intros p Hok Hf; cbn [next_pair_scalar];
    rewrite bind_get; destruct (input p !! cursor p) as [b|] eqn:Hb;
    try by rewrite next_ref_end.
  { apply lookup_lt_Some in Hb. lia. }
  destruct (first_piece (drop (cursor p) (input p))) as (raw & tail & Hd & Ha & Ht').
  assert (Ht : tail = [] \/ exists rest, tail = c_amp :: rest) by naive_solver. clear Ht'.
  rewrite Hd, scan_pair_spec by done.
  pose proof (raw_valid p raw tail Hok Hd Ht) as Hu.
  pose proof (input_length p raw tail Hok Hd) as Hl.
  destruct (key_value raw) as [[key value] at_] eqn:Hkv. cbn [separator equals key_encoded value_encoded].
  rewrite (bind_ok _ _ _ _ _ (scalar_cursor p raw tail p Hok Hd)).
  rewrite piece_take. rewrite (bind_ok _ _ _ tt (at_cursor p (next_cursor p raw tail))) by done.
  destruct (bytes_eqb raw []) eqn:Hraw.
  - apply bytes_eqb_eq in Hraw. rewrite IH, <- next_ref_skip; try done.
    + intros ->. subst. apply lookup_lt_Some in Hb. cbn in Hl. lia.
    + by apply next_cursor_ok.
    + cbn [at_cursor input cursor]. rewrite next_cursor_min by done. lia.
  - apply bytes_eqb_neq in Hraw. rewrite next_ref_piece with (raw := raw) (tail := tail) by done.
    assert (Hkv1 : key = (key_value raw).1.1 /\ value = (key_value raw).1.2) by by rewrite Hkv.
    destruct Hkv1 as [-> ->]. destruct Hok as [_ _ Hi].
    apply (scalar_piece (cursor p) raw ltac:(lia) Hu (at_cursor p (next_cursor p raw tail))
      (mkPairScan (if bool_decide (tail = []) then None else Some (length raw))
         (position (Z.eqb c_eq) raw) _ _)); done.
Qed.

Lemma next_pair_wide_spec arch fuel p :
  parser_ok p -> length (input p) <= cursor p + fuel -> next_pair_wide arch fuel p = next_ref p.
Proof.
  revert p; induction fuel as [|fuel IH]; intros p Hok Hf; cbn [next_pair_wide];
    rewrite bind_get; destruct (input p !! cursor p) as [b|] eqn:Hb;
    try by rewrite next_ref_end.
  { apply lookup_lt_Some in Hb. lia. }
  case_match; [by apply next_pair_scalar_spec|].
  destruct (first_piece (drop (cursor p) (input p))) as (raw & tail & Hd & Ha & Ht').
  assert (Ht : tail = [] \/ exists rest, tail = c_amp :: rest) by naive_solver.
  assert (Hsep : find_byte arch true (drop (cursor p) (input p)) c_amp
                 = if bool_decide (tail = []) then None else Some (length raw)).
  { rewrite find_byte_spec, find_byte_scalar_eq. by destruct Ht' as [[-> ->]|(rest & -> & ->)]. }
  rewrite Hsep, Hd, piece_take. clear Ht' Hsep.
  pose proof (raw_valid p raw tail Hok Hd Ht) as Hu.
  pose proof (input_length p raw tail Hok Hd) as Hl.
  assert (Hcur : match (if bool_decide (tail = []) then None else Some (length raw)) with
    | Some _ => cursor p + default (length (raw ++ tail))
                  (if bool_decide (tail = []) then None else Some (length raw)) + 1
    | None => length (input p) end = next_cursor p raw tail).
  { unfold next_cursor. by case_bool_decide. }
  rewrite Hcur. clear Hcur. rewrite (bind_ok _ _ _ tt (at_cursor p (next_cursor p raw tail))) by done.
  destruct (bytes_eqb raw []) eqn:Hraw.
  - apply bytes_eqb_eq in Hraw. rewrite IH, <- next_ref_skip; try done.
    + intros ->. subst. apply lookup_lt_Some in Hb. cbn in Hl. lia.
    + by apply next_cursor_ok.
    + cbn [at_cursor input cursor]. rewrite next_cursor_min by done. lia.
  - apply bytes_eqb_neq in Hraw. rewrite next_ref_piece with (raw := raw) (tail := tail) by done.
    destruct Hok as [_ _ Hi]. apply wide_piece; [lia|done].
Qed.

Lemma next_pair_spec arch WIDE p : parser_ok p -> next_pair arch WIDE p = next_ref p.
Proof.
  intros Hok. unfold next_pair. rewrite bind_get. destruct WIDE; cbn [negb].
  - apply next_pair_wide_spec; [done|lia].
  - apply next_pair_scalar_spec; [done|lia].
Qed.

(** ** A whole query *)

(** All the pairs of a query, the way a generated parser asks for them. *)
Fixpoint collect (arch : Arch) (WIDE : bool) (fuel : nat) (p : Parser) : list Pair * outcome QError unit :=
  match fuel with
  | O => ([], Panic)
  | S fuel' =>
      match next_pair arch WIDE p with
      | (Ok (Some pr), p') =>
          let '(l, r) := collect arch WIDE fuel' p' in (pr :: l, r)
      | (Ok None, _) => ([], Ok tt)
      | (Err e, _) => ([], Err e)
      | (Panic, _) => ([], Panic)
      end
  end.

Definition parse_query (arch : Arch) (WIDE : bool) (s : bytes) (l : QueryLimits)
    : list Pair * outcome QError unit :=
  match parser_new s l with
  | Ok p => collect arch WIDE (S (length s)) p
  | Err e => ([], Err e)
  | Panic => ([], Panic)
  end.

(** The reference: every piece in turn, with the two running counters. *)
Fixpoint ref_pairs (l : QueryLimits) (pieces : list (nat * bytes)) (count total : Z)
    : list Pair * outcome QError unit :=
  match pieces with
  | [] => ([], Ok tt)
  | (o, raw) :: pieces' =>
      if (max_pairs l <? count + 1)%Z then ([], Err (parsing None o TooManyPairs))
      else
        let '(key, value, at_) := key_value raw in
        match decode_ref key o l total with
        | (Ok key, total) =>
            match decode_ref value (o + at_) l total with
            | (Ok value, total) =>
                let '(ps, r) := ref_pairs l pieces' (count + 1) total in (mkPair key value o :: ps, r)
            | (Err e, _) => ([], Err e)
            | (Panic, _) => ([], Panic)
            end
        | (Err e, _) => ([], Err e)
        | (Panic, _) => ([], Panic)
        end
  end.

Definition query_ref (s : bytes) (l : QueryLimits) : list Pair * outcome QError unit :=
  if (max_query_length l <? Z.of_nat (length s))%Z then ([], Err (parsing None 0 QueryTooLong))
  else ref_pairs l (query_pieces 0 s) 0 0.

(** The pieces after the first one are those from the new cursor. *)
Lemma query_pieces_next o s o1 raw ps :
  utf8_valid s = true ->
  query_pieces o s = (o1, raw) :: ps ->
  o <= o1 /\ o1 + length raw <= o + length s /\ utf8_valid raw = true
  /\ query_pieces (Nat.min (o1 + length raw + 1) (o + length s))
       (drop (Nat.min (o1 + length raw + 1) (o + length s) - o) s) = ps
  /\ utf8_valid (drop (Nat.min (o1 + length raw + 1) (o + length s) - o) s) = true.
Proof.
  revert o; induction s as [s IH] using (induction_ltof1 _ length); unfold ltof in IH. intros o Hu Hq.
  destruct (first_piece s) as (x & tail & -> & Ha & Ht). destruct Ht as [(-> & _)|(rest & -> & _)].
  - rewrite app_nil_r in *. rewrite query_pieces_last in Hq by done.
    destruct (bytes_eqb x []) eqn:Hx; simplify_eq. split_and!; try lia; [done|..].
    all: rewrite drop_ge by lia; done.
  - rewrite query_pieces_cons in Hq by done.
    pose proof (utf8_valid_after_ascii x c_amp rest eq_refl Hu) as Hrest.
    rewrite length_app. cbn [length].
    destruct (bytes_eqb x []) eqn:Hx; cbn [app] in Hq.
    + apply bytes_eqb_eq in Hx as ->. cbn [length app] in *. 
      destruct (IH rest ltac:(lia) (o + 0 + 1) Hrest Hq) as (H1 & H2 & H3 & H4 & H5).
      replace (o + 0 + 1 + length rest) with (o + (0 + S (length rest))) in * by lia.
      destruct (Nat.min (o1 + length raw + 1) (o + (0 + S (length rest))) - o) as [|k] eqn:Hk; [lia|].
      cbn [drop]. replace k with (Nat.min (o1 + length raw + 1) (o + (0 + S (length rest))) - (o + 0 + 1)) by lia.
      split_and!; try done; lia.
    + injection Hq as <- <- <-. rewrite Nat.min_l by lia. replace (o + length x + 1 - o) with (length x + 1) by lia.
      rewrite <- drop_drop, drop_app_length. cbn [drop]. rewrite drop_0.
      split_and!; try done; try lia. by apply (utf8_valid_before_ascii x c_amp rest).
Qed.

Lemma parse_piece_spec o raw p :
  parse_piece o raw p
  = if (max_pairs (limits p) <? pairs p + 1)%Z
    then (Err (parsing None o TooManyPairs),
          mkParser (input p) (cursor p) (pairs p + 1) (decoded p) (limits p))
    else
      let '(key, value, at_) := key_value raw in
      let at_total t := mkParser (input p) (cursor p) (pairs p + 1) t (limits p) in
      match decode_ref key o (limits p) (decoded p) with
      | (Ok key, total) =>
          match decode_ref value (o + at_) (limits p) total with
          | (Ok value, total) => (Ok (Some (mkPair key value o)), at_total total)
          | (Err e, total) => (Err e, at_total total)
          | (Panic, total) => (Panic, at_total total)
          end
      | (Err e, total) => (Err e, at_total total)
      | (Panic, total) => (Panic, at_total total)
      end.
Proof.
  unfold parse_piece, bind, count_pair, get_state, with_decoded, ret.
  destruct (max_pairs (limits p) <? pairs p + 1)%Z; [done|]. cbn. destruct (key_value raw) as [[key value] at_].
  destruct (decode_ref key _ _ _) as [[| |] ?]; try done. cbn.
  by destruct (decode_ref value _ _ _) as [[| |] ?].
Qed.

Lemma collect_spec arch WIDE fuel p :
  parser_ok p -> length (input p) < cursor p + fuel ->
  collect arch WIDE fuel p
  = ref_pairs (limits p) (query_pieces (cursor p) (drop (cursor p) (input p))) (pairs p) (decoded p).
Proof.
  revert p; induction fuel as [|fuel IH]; intros p Hok Hf; cbn [collect].
  { destruct Hok. lia. }
  rewrite next_pair_spec by done. unfold next_ref.
  destruct (query_pieces _ _) as [|[o raw] ps] eqn:Hq; [done|].
  destruct Hok as [Hc Hu Hi].
  assert (Hlt : cursor p < length (input p)).
  { destruct (decide (cursor p < length (input p))); [done|]. by rewrite drop_ge in Hq by lia. }
  destruct (query_pieces_next _ _ _ _ _ Hu Hq) as (H1 & H2 & H3 & H4 & H5).
  rewrite length_drop in *. replace (cursor p + (length (input p) - cursor p)) with (length (input p)) in * by lia.
  rewrite drop_drop in H4, H5. set (c := Nat.min (o + length raw + 1) (length (input p))) in *.
  replace (cursor p + (c - cursor p)) with c in * by lia.
  rewrite parse_piece_spec. cbn [at_cursor limits pairs decoded input cursor ref_pairs].
  destruct (max_pairs (limits p) <? pairs p + 1)%Z; [done|]. destruct (key_value raw) as [[key value] at_].
  destruct (decode_ref key _ _ _) as [[| |] total1]; [|done..].
  destruct (decode_ref value _ _ _) as [[| |] total2]; [|done..].
  rewrite IH; cbn [limits pairs decoded input cursor]; [by rewrite H4|split; cbn; try done; lia|lia].
Qed.

Lemma parse_query_spec arch WIDE s l :
  (Z.of_nat (length s) <= isize_max)%Z -> utf8_valid s = true ->
  parse_query arch WIDE s l = query_ref s l.
Proof.
  intros Hlen Hu. unfold parse_query, query_ref, parser_new.
  destruct (max_query_length l <? Z.of_nat (length s))%Z; [done|].
  rewrite collect_spec; [|split; cbn [cursor input]; [lia|by rewrite drop_0|exact Hlen]|cbn; lia].
  cbn [limits cursor input pairs decoded]. by rewrite drop_0.
Qed.

(** ** Resource limits *)

Definition decoded_size (pair : Pair) : Z :=
  Z.of_nat (length (text (p_key pair))) + Z.of_nat (length (text (p_value pair))).

Definition total_size (ps : list Pair) : Z := foldr (fun p t => decoded_size p + t)%Z 0%Z ps.

Lemma add_decoded_inv n offset lim total :
  match add_decoded n offset lim total with
  | (Ok _, total') => total' = (total + Z.of_nat n)%Z /\ (total' <= max_decoded_length lim)%Z
  | (Err _, _) => True
  | (Panic, _) => False
  end.
Proof.
  unfold add_decoded, bind, get_state, set_state, checked_add.
  destruct (_ <=? usize_max)%Z; [|done]. destruct (Z.ltb_spec (max_decoded_length lim) (total + Z.of_nat n)); done.
Qed.

Lemma decode_ref_inv s o l total :
  match decode_ref s o l total with
  | (Ok d, total') => total' = (total + Z.of_nat (length (text d)))%Z /\ (total' <= max_decoded_length l)%Z
  | (Err _, _) => True
  | (Panic, _) => False
  end.
Proof.
  unfold decode_ref, finish_decode.
  assert (H : forall n d (b : bool), length (text d) = n ->
    match bind (add_decoded n o l) (fun _ => if b then ret d else throw (parsing None o InvalidUtf8)) total with
    | (Ok d, total') => total' = (total + Z.of_nat (length (text d)))%Z /\ (total' <= max_decoded_length l)%Z
    | (Err _, _) => True
    | (Panic, _) => False
    end).
  { intros n d b <-. unfold bind. pose proof (add_decoded_inv (length (text d)) o l total) as Ha.
    destruct (add_decoded _ _ _ _) as [[| |] ?]; try done. by destruct b. }
  destruct (existsb is_special s); [|by apply (H _ (Borrowed s) true)].
  destruct (form_decode s 0) as [|out]; [done|]. by apply (H _ (Owned out)).
Qed.

Lemma ref_pairs_inv l pieces count total :
  (count <= max_pairs l)%Z -> (total <= max_decoded_length l)%Z ->
  (count + Z.of_nat (length (ref_pairs l pieces count total).1) <= max_pairs l)%Z
  /\ (total + total_size (ref_pairs l pieces count total).1 <= max_decoded_length l)%Z
  /\ (ref_pairs l pieces count total).2 <> Panic.
Proof.
  revert count total; induction pieces as [|[o raw] pieces IH]; intros count total Hc Ht.
  { cbn. split_and!; [lia|lia|done]. }
  cbn [ref_pairs]. destruct (Z.ltb_spec (max_pairs l) (count + 1)). { cbn. split_and!; [lia|lia|done]. }
  destruct (key_value raw) as [[key value] at_].
  pose proof (decode_ref_inv key o l total) as Hk.
  destruct (decode_ref key o l total) as [[k|e|] t1]; [|cbn; split_and!; [lia|lia|done]|done].
  destruct Hk as [-> Hk]. set (t1 := (total + _)%Z) in *.
  pose proof (decode_ref_inv value (o + at_) l t1) as Hv.
  destruct (decode_ref value _ l t1) as [[v|e|] t2]; [|cbn; split_and!; [lia|lia|done]|done].
  destruct Hv as [-> Hv]. destruct (IH (count + 1)%Z (t1 + Z.of_nat (length (text v)))%Z ltac:(lia) Hv) as (H1 & H2 & H3).
  destruct (ref_pairs l pieces _ _) as [ps r]. cbn [fst snd length total_size foldr] in *.
  unfold decoded_size, total_size in *. cbn [p_key p_value]. split_and!; [lia|lia|done].
Qed.

(** ** What the encoder writes *)

Definition encode_byte (b : Z) : bytes :=
  if is_safe b then [b] else if (b =? c_space)%Z then [c_plus] else escaped b.

Definition form_encode (v : bytes) : bytes := mjoin (encode_byte <$> v).

(** The counter is the length of the output, within the limit. *)
Record bounded (e : Encoder bytes) : Prop := {
  bounded_written : written e = Z.of_nat (length (e_output e));
  bounded_max : (written e <= max_encoded_length (e_limits e))%Z;
  bounded_usize : (max_encoded_length (e_limits e) <= usize_max)%Z }.

Definition fits (e : Encoder bytes) (x : bytes) : Prop :=
  (Z.of_nat (length (e_output e)) + Z.of_nat (length x) <= max_encoded_length (e_limits e))%Z.

(** [m] writes exactly [x] when [x] fits, and fails without passing the limit when it
    does not; [b] and [b'] are the first-pair flag before and after. *)
Definition sends (b b' : bool) (m : action (Encoder bytes) QError unit) (x : bytes) : Prop :=
  forall e, bounded e -> e_first e = b ->
  match m e with
  | (Ok _, e') => fits e x /\ bounded e' /\ e_output e' = e_output e ++ x
      /\ e_limits e' = e_limits e /\ e_first e' = b'
  | (Err err, e') => ~ fits e x /\ bounded e' /\ e_limits e' = e_limits e /\ kind err = TooLong
      /\ exists y, e_output e' = e_output e ++ y
  | (Panic, _) => False
  end.

Lemma sends_nothing b : sends b b (ret tt) [].
Proof.
  intros e He Hb. cbn. rewrite app_nil_r. destruct He as [H1 H2 H3]. unfold fits. cbn.
  split_and!; try done; lia.
Qed.

Lemma sends_write_raw b p x : sends b b (write_raw (Some p) x) x.
Proof.
  intros e [H1 H2 H3] Hb. unfold write_raw. rewrite bind_get. unfold checked_add, fits.
  destruct (Z.leb_spec (written e + Z.of_nat (length x)) usize_max) as [Hu|Hu].
  2: { cbn. split_and!; try done; [lia|]. exists []. by rewrite app_nil_r. }
  destruct (Z.ltb_spec (max_encoded_length (e_limits e)) (written e + Z.of_nat (length x))) as [Hm|Hm].
  { cbn. split_and!; try done; [lia|]. exists []. by rewrite app_nil_r. }
  cbn. split_and!; try done; [lia|]. split; cbn; rewrite ?length_app; lia.
Qed.

Lemma sends_bind b b' b'' m x k y :
  sends b b' m x -> sends b' b'' k y -> sends b b'' (bind m (fun _ => k)) (x ++ y).
Proof.
  intros Hm Hk e He Hb. specialize (Hm e He Hb). unfold bind.
  destruct (m e) as [[u|err|] e']; [| |done].
  - destruct Hm as (Hf & He' & Ho & Hl & Hb'). specialize (Hk e' He' Hb').
    destruct (k e') as [[u'|err|] e'']; [| |done].
    + destruct Hk as (Hf' & He'' & Ho' & Hl' & Hb''). unfold fits in *. rewrite Ho, Hl, !length_app in *.
      split_and!; try done; [lia|by rewrite Ho', app_assoc].
    + destruct Hk as (Hf' & He'' & Hl' & Hk & z & Hz). unfold fits in *. rewrite Ho, Hl, !length_app in *.
      split_and!; try done; [lia|]. exists (x ++ z). by rewrite Hz, app_assoc.
  - destruct Hm as (Hf & He' & Hl & Hk' & Hz). unfold fits in *. rewrite length_app. split_and!; try done; lia.
Qed.

(** The byte loop writes the runs of safe bytes and the escapes: [rest] is the value
    from [index] on, and the run in progress starts at [run_start]. *)
Lemma sends_encoded_loop b p value rest index run_start :
  drop index value = rest -> run_start <= index -> index <= length value ->
  sends b b (write_encoded_loop p value rest index run_start)
    (take (index - run_start) (drop run_start value) ++ form_encode rest).
Proof.
  revert index run_start; induction rest as [|byte rest IH]; intros index run_start Hd Hr Hi;
    cbn [write_encoded_loop].
  - assert (index = length value) as ->.
    { apply (f_equal length) in Hd. rewrite length_drop in Hd. cbn in Hd. lia. }
    change (form_encode []) with (@nil Z). rewrite app_nil_r.
    rewrite take_ge by (rewrite length_drop; lia).
    destruct (Nat.ltb_spec run_start (length value)); [apply sends_write_raw|].
    rewrite drop_ge by lia. apply sends_nothing.
  - destruct (drop_S_eq value index byte rest Hd) as (Hd1 & Hlt & Hby). rewrite Nat.add_1_r in Hd1.
    change (form_encode (byte :: rest)) with (encode_byte byte ++ form_encode rest). unfold encode_byte.
    destruct (is_safe byte).
    + specialize (IH (S index) run_start Hd1 ltac:(lia) ltac:(lia)).
      replace (S index - run_start) with (S (index - run_start)) in IH by lia.
      rewrite (take_S_r _ _ byte), <- app_assoc in IH; [done|].
      rewrite lookup_drop. by replace (run_start + (index - run_start)) with index by lia.
    + apply sends_bind with b.
      { destruct (Nat.ltb_spec run_start index); [apply sends_write_raw|].
        replace (index - run_start) with 0 by lia. apply sends_nothing. }
      apply sends_bind with b; [destruct (byte =? c_space)%Z; apply sends_write_raw|].
      specialize (IH (S index) (index + 1) Hd1 ltac:(lia) ltac:(lia)).
      by replace (S index - (index + 1)) with 0 in IH by lia.
Qed.

Lemma sends_encoded b p value : sends b b (write_encoded p value) (form_encode value).
Proof. apply (sends_encoded_loop b p value value 0 0); [by rewrite drop_0|lia|lia]. Qed.

Definition pair_prefix (first : bool) (encoded_parameter : bytes) : bytes :=
  (if first then [] else [c_amp]) ++ encoded_parameter ++ [c_eq].

Lemma sends_start_pair b p ep : sends b false (start_pair p ep) (pair_prefix b ep).
Proof.
  assert (Hset : sends b false (let! e := get_state in
    let! _ := set_state (mkEncoder (e_output e) (e_limits e) (written e) false) in
    let! _ := write_raw (Some p) ep in write_raw (Some p) [c_eq]) (ep ++ [c_eq])).
  { intros e [H1 H2 H3] Hb.
    pose proof (sends_bind _ _ _ _ _ _ _ (sends_write_raw false p ep) (sends_write_raw false p [c_eq])) as Hw.
    by apply (Hw (mkEncoder (e_output e) (e_limits e) (written e) false)). }
  intros e He Hb. unfold start_pair, pair_prefix. rewrite bind_get, Hb. destruct b; cbn [negb].
  - by apply (sends_bind _ _ _ _ _ _ _ (sends_nothing true) Hset).
  - by apply (sends_bind _ _ _ _ _ _ _ (sends_write_raw false p [c_amp]) Hset).
Qed.

Lemma sends_pair_str b p ep v :
  sends b false (pair_str p ep v) (pair_prefix b ep ++ form_encode v).
Proof. apply sends_bind with false; [apply sends_start_pair|apply sends_encoded]. Qed.

Lemma sends_pair_raw b p ep digits : sends b false (pair_raw p ep digits) (pair_prefix b ep ++ digits).
Proof. apply sends_bind with false; [apply sends_start_pair|apply sends_write_raw]. Qed.

Lemma sends_pieces b p pieces :
  sends b b (write_pieces p (Some <$> pieces)) (form_encode (mjoin pieces)).
Proof.
  induction pieces as [|s pieces IH]; [apply sends_nothing|]. cbn [fmap list_fmap write_pieces].
  assert (form_encode (mjoin (s :: pieces)) = form_encode s ++ form_encode (mjoin pieces)) as ->.
  { unfold form_encode. cbn. by rewrite fmap_app, join_app. }
  by apply sends_bind with b; [apply sends_encoded|].
Qed.

(** ** Encoding, then parsing *)

(** A check of all the byte values at once. *)
Lemma byte_cases (P : Z -> bool) :
  forallb P (seqZ 0 256) = true -> forall b, in_range 0 255 b = true -> P b = true.
Proof.
  intros H b Hb. unfold in_range in Hb. to_prop. eapply forallb_elem_of; [done|].
  apply elem_of_seqZ. lia.
Qed.

Definition encoded_ok (b : Z) : bool :=
  forallb (fun c => in_range 0 127 c && negb (c =? c_amp)%Z && negb (c =? c_eq)%Z) (encode_byte b)
  && (if is_safe b then negb (is_special b)
      else if (b =? c_space)%Z then true
      else match hex (nth (Z.to_nat (Z.shiftr b 4)) HEX 0%Z), hex (nth (Z.to_nat (Z.land b 15)) HEX 0%Z) with
           | Some h, Some l => (h * 16 + l =? b)%Z
           | _, _ => false
           end).

Lemma encode_byte_ok b : in_range 0 255 b = true -> encoded_ok b = true.
Proof. apply byte_cases. vm_compute. reflexivity. Qed.

Lemma form_encode_chars v c : forallb (in_range 0 255) v = true -> c ∈ form_encode v ->
  in_range 0 127 c = true /\ c <> c_amp /\ c <> c_eq.
Proof.
  intros Hv (x & Hc & Hx)%list_elem_of_join. apply list_elem_of_fmap in Hx as (b & -> & Hb).
  pose proof (encode_byte_ok b (forallb_elem_of _ _ _ Hv Hb)) as He. unfold encoded_ok in He.
  apply andb_true_iff in He as [He _]. pose proof (forallb_elem_of _ _ _ He Hc) as Hok. cbn beta in Hok.
  to_prop. done.
Qed.

Lemma form_decode_encode v i : forallb (in_range 0 255) v = true -> form_decode (form_encode v) i = inr v.
Proof.
  revert i; induction v as [|b v IH]; intros i Hv; [done|]. cbn [forallb] in Hv.
  apply andb_true_iff in Hv as [Hb Hv]. pose proof (encode_byte_ok b Hb) as He. unfold encoded_ok in He.
  apply andb_true_iff in He as [_ He].
  change (form_encode (b :: v)) with (encode_byte b ++ form_encode v). unfold encode_byte.
  destruct (is_safe b) eqn:Hs.
  - cbn [app form_decode]. apply negb_true_iff in He. unfold is_special in He.
    apply orb_false_iff in He as [-> ->]. by rewrite IH.
  - destruct (Z.eqb_spec b c_space) as [->|_].
    + cbn [app form_decode]. change (c_plus =? c_plus)%Z with true. by rewrite IH.
    + unfold escaped. cbn [app form_decode]. change (c_percent =? c_plus)%Z with false.
      change (c_percent =? c_percent)%Z with true.
      destruct (hex (nth (Z.to_nat (Z.shiftr b 4)) HEX 0%Z)) as [h|]; [|done].
      destruct (hex (nth (Z.to_nat (Z.land b 15)) HEX 0%Z)) as [l|]; [|done]. rewrite IH by done.
      by apply Z.eqb_eq in He as ->.
Qed.

(** An encoded value with no escape is the value itself. *)
Lemma form_encode_plain v : existsb is_special (form_encode v) = false -> form_encode v = v.
Proof.
  induction v as [|b v IH]; [done|]. change (form_encode (b :: v)) with (encode_byte b ++ form_encode v).
  rewrite existsb_app. intros [Hb Hv]%orb_false_iff. rewrite IH by done. unfold encode_byte, escaped in *.
  destruct (is_safe b); [done|]. by destruct (b =? c_space)%Z.
Qed.

Lemma encode_parameter_form v : encode_parameter v = form_encode v.
Proof. induction v as [|b v IH]; [done|]. cbn [encode_parameter]. by rewrite IH. Qed.

Lemma form_encode_length v : length v <= length (form_encode v).
Proof.
  induction v as [|b v IH]; [done|]. change (form_encode (b :: v)) with (encode_byte b ++ form_encode v).
  rewrite length_app. cbn [length].
  assert (1 <= length (encode_byte b)); [|lia].
  unfold encode_byte, escaped. repeat case_match; cbn; lia.
Qed.

(** The text of one field, and of a list of fields. *)
Definition field_text (f : bytes * bytes) : bytes := form_encode f.1 ++ c_eq :: form_encode f.2.
Definition query_text (fields : list (bytes * bytes)) : bytes := join c_amp (field_text <$> fields).

Lemma query_text_cons f fields :
  query_text (f :: fields)
  = field_text f ++ match fields with [] => [] | _ => c_amp :: query_text fields end.
Proof. unfold query_text. destruct fields as [|f' fields]; [symmetry; apply app_nil_r|]. by apply join_cons. Qed.

Lemma sends_fields b fields :
  sends b (if bool_decide (fields = []) then b else false) (encode_fields fields)
    (match fields with [] => [] | _ => (if b then [] else [c_amp]) ++ query_text fields end).
Proof.
  revert b; induction fields as [|[p v] fields IH]; intros b; [apply sends_nothing|].
  cbn [encode_fields]. rewrite bool_decide_eq_false_2, query_text_cons by done.
  pose proof (sends_bind _ _ _ _ _ _ _ (sends_pair_str b p (encode_parameter p) v) (IH false)) as Hs.
  rewrite encode_parameter_form in Hs at 2. unfold pair_prefix in Hs.
  assert (Heq : ((if b then [] else [c_amp]) ++ form_encode p ++ [c_eq]) ++ form_encode v
                = (if b then [] else [c_amp]) ++ field_text (p, v)).
  { unfold field_text. cbn. by rewrite <- !app_assoc. }
  rewrite Heq, <- app_assoc in Hs. by destruct fields.
Qed.

Lemma split_join c pieces :
  pieces <> [] -> (forall x, x ∈ pieces -> c ∉ x) -> split_on c (join c pieces) = pieces.
Proof.
  induction pieces as [|x pieces IH]; [done|]. intros _ H. destruct pieces as [|y pieces].
  - apply split_on_none, H. set_solver.
  - rewrite join_cons, split_on_app by (done || apply H; set_solver). rewrite IH; [done..|]. set_solver.
Qed.

Definition field_ok (f : bytes * bytes) : bool := utf8_valid f.1 && utf8_valid f.2.

Lemma field_text_chars f : field_ok f = true ->
  c_amp ∉ field_text f /\ c_eq ∉ form_encode f.1 /\ forallb (in_range 0 127) (field_text f) = true.
Proof.
  intros [H1%utf8_valid_bytes H2%utf8_valid_bytes]%andb_true_iff. unfold field_text.
  pose proof (form_encode_chars f.1) as Hk. pose proof (form_encode_chars f.2) as Hv. split_and!.
  - intros [H|[H|H]%elem_of_cons]%elem_of_app; [|done|].
    + by destruct (Hk c_amp H1 H) as (_ & ? & _).
    + by destruct (Hv c_amp H2 H) as (_ & ? & _).
  - intros H. by destruct (Hk c_eq H1 H) as (_ & _ & ?).
  - apply forallb_forall. intros x [H|[<-|H]]%in_app_iff; [|done|]; apply list_elem_of_In in H.
    + by destruct (Hk x H1 H).
    + by destruct (Hv x H2 H).
Qed.

Lemma field_key_value f : field_ok f = true ->
  key_value (field_text f) = (form_encode f.1, form_encode f.2, length (form_encode f.1) + 1).
Proof.
  intros Hf. destruct (field_text_chars f Hf) as (_ & He & _). unfold key_value, field_text.
  rewrite position_app by done. rewrite take_app_length. by rewrite <- drop_drop, drop_app_length.
Qed.

Lemma decode_ref_encode v o l total :
  utf8_valid v = true ->
  (total + Z.of_nat (length v) <= usize_max)%Z -> (total + Z.of_nat (length v) <= max_decoded_length l)%Z ->
  exists d, decode_ref (form_encode v) o l total = (Ok d, (total + Z.of_nat (length v))%Z) /\ text d = v.
Proof.
  intros Hu H1 H2. unfold decode_ref. destruct (existsb _ _) eqn:Hs.
  - rewrite form_decode_encode by auto with rust. exists (Owned v). unfold finish_decode.
    by rewrite (bind_ok _ _ _ _ _ (add_decoded_ok _ _ _ _ H1 H2)), Hu.
  - apply form_encode_plain in Hs. rewrite Hs. exists (Borrowed v).
    by rewrite (bind_ok _ _ _ _ _ (add_decoded_ok _ _ _ _ H1 H2)).
Qed.

Definition fields_size (fields : list (bytes * bytes)) : Z :=
  foldr (fun f t => Z.of_nat (length f.1) + Z.of_nat (length f.2) + t)%Z 0%Z fields.

Definition pair_texts (p : Pair) : bytes * bytes := (text (p_key p), text (p_value p)).

Lemma fields_size_nonneg fields : (0 <= fields_size fields)%Z.
Proof. induction fields; cbn [fields_size foldr]; unfold fields_size in *; lia. Qed.

Lemma ref_pairs_fields l fields o count total :
  forallb field_ok fields = true ->
  (count + Z.of_nat (length fields) <= max_pairs l)%Z ->
  (total + fields_size fields <= max_decoded_length l)%Z -> (total + fields_size fields <= usize_max)%Z ->
  exists ps, ref_pairs l (offsets o (field_text <$> fields)) count total = (ps, Ok tt)
    /\ pair_texts <$> ps = fields.
Proof.
  revert o count total; induction fields as [|f fields IH]; intros o count total Hf Hc H1 H2; [by exists []|].
  cbn [forallb] in Hf. apply andb_true_iff in Hf as [Hf Hfs]. cbn [fmap list_fmap offsets ref_pairs length] in *.
  change (fields_size (f :: fields))
    with (Z.of_nat (length f.1) + Z.of_nat (length f.2) + fields_size fields)%Z in *.
  pose proof (fields_size_nonneg fields).
  rewrite (proj2 (Z.ltb_ge _ _)) by lia. rewrite field_key_value by done.
  destruct (andb_prop _ _ Hf) as [Hu1 Hu2].
  destruct (decode_ref_encode f.1 o l total Hu1 ltac:(lia) ltac:(lia)) as (k & -> & Hk).
  destruct (decode_ref_encode f.2 (o + (length (form_encode f.1) + 1)) l _ Hu2
    ltac:(instantiate (1 := (total + Z.of_nat (length f.1))%Z); lia) ltac:(lia)) as (v & -> & Hv).
  destruct (IH (o + length (field_text f) + 1) (count + 1)%Z (total + Z.of_nat (length f.1) + Z.of_nat (length f.2))%Z
    Hfs ltac:(lia) ltac:(lia) ltac:(lia)) as (ps & -> & Hps).
  exists (mkPair k v o :: ps). split; [done|]. cbn [fmap list_fmap]. unfold pair_texts at 1. cbn [p_key p_value].
  rewrite Hk, Hv, Hps. by destruct f.
Qed.

Lemma query_pieces_text fields : forallb field_ok fields = true ->
  query_pieces 0 (query_text fields) = offsets 0 (field_text <$> fields).
Proof.
  intros Hf. destruct (decide (fields = [])) as [->|Hne]; [done|]. unfold query_pieces, query_text.
  rewrite split_join.
  - clear Hne Hf. generalize 0. induction fields as [|f fields IH]; intros o; [done|].
    cbn [fmap list_fmap offsets]. rewrite filter_cons_True; [by rewrite IH|].
    unfold field_text. cbn. by destruct (form_encode f.1).
  - by destruct fields.
  - intros x (f & -> & Hin)%list_elem_of_fmap. apply (field_text_chars f). by eapply forallb_elem_of.
Qed.

Lemma query_text_ascii fields : forallb field_ok fields = true -> utf8_valid (query_text fields) = true.
Proof.
  intros Hf. apply utf8_valid_ascii. induction fields as [|f fields IH]; [done|].
  cbn [forallb] in Hf. apply andb_true_iff in Hf as [Hf1 Hf]. rewrite query_text_cons, forallb_app.
  destruct (field_text_chars f Hf1) as (_ & _ & ->). destruct fields; [done|]. cbn [andb forallb]. by rewrite IH.
Qed.

Lemma query_text_size fields : (fields_size fields <= Z.of_nat (length (query_text fields)))%Z.
Proof.
  induction fields as [|f fields IH]; [done|]. rewrite query_text_cons.
  change (fields_size (f :: fields))
    with (Z.of_nat (length f.1) + Z.of_nat (length f.2) + fields_size fields)%Z.
  pose proof (form_encode_length f.1). pose proof (form_encode_length f.2).
  unfold field_text. rewrite !length_app. cbn [length].
  destruct fields; cbn [length fields_size foldr] in *; [lia|]. unfold fields_size in *. lia.
Qed.

(** What a fresh encoder produces for a list of fields. *)
Lemma encode_fields_output fields el :
  (0 <= max_encoded_length el <= usize_max)%Z ->
  match encode_fields fields (encoder_new [] el) with
  | (Ok _, e) => e_output e = query_text fields
      /\ (Z.of_nat (length (query_text fields)) <= max_encoded_length el)%Z
  | (Err err, e) => kind err = TooLong /\ (max_encoded_length el < Z.of_nat (length (query_text fields)))%Z
  | (Panic, _) => False
  end.
Proof.
  intros Hm. assert (Hb : bounded (encoder_new [] el)) by (split; cbn; lia).
  assert (Hs : sends true (if bool_decide (fields = []) then true else false) (encode_fields fields)
                 (query_text fields)) by (pose proof (sends_fields true fields); by destruct fields).
  specialize (Hs _ Hb eq_refl). unfold fits in Hs. cbn in Hs. destruct (encode_fields _ _) as [[| |] e]; [| |done].
  - by destruct Hs as (? & _ & ? & _).
  - destruct Hs as (? & _ & _ & ? & _). split; [done|lia].
Qed.

(** ** The properties *)

(** C13. Parsing a query gives the pairs of the reference parser: the pieces between
    the ampersands, empty ones skipped, each cut at its first equals sign, key and value
    form-decoded and charged to the limits, up to the first error.  The wide parser, on
    every architecture, and the scalar parser agree on it; both terminate without a
    panic. *)
Theorem parse_query_is_reference arch WIDE s l :
  (Z.of_nat (length s) <= isize_max)%Z -> utf8_valid s = true ->
  (0 <= max_pairs l)%Z -> (0 <= max_decoded_length l)%Z ->
  parse_query arch WIDE s l = query_ref s l /\ (parse_query arch WIDE s l).2 <> Panic.
Proof.
  intros Hlen Hu Hp Hd. rewrite parse_query_spec by done. split; [done|].
  unfold query_ref. destruct (_ <? _)%Z; [done|]. by apply ref_pairs_inv.
Qed.

Lemma parse_query_is_reference_witness :
  parse_query X86_64 true (str "a=1&&b=x%20y+z&bad=%g0") limits_default
  = query_ref (str "a=1&&b=x%20y+z&bad=%g0") limits_default
  /\ query_ref (str "a=1&&b=x%20y+z&bad=%g0") limits_default
     = ([mkPair (Borrowed (str "a")) (Borrowed (str "1")) 0;
         mkPair (Borrowed (str "b")) (Owned (str "x y z")) 5],
        Err (parsing None 19 InvalidEncoding)).
Proof.
  split; [|vm_compute; reflexivity].
  apply (parse_query_is_reference X86_64 true (str "a=1&&b=x%20y+z&bad=%g0") limits_default);
    vm_compute; congruence.
Defined.

(** A parser never returns more than [max_pairs] pairs nor more than
    [max_decoded_length] decoded bytes, and returns none at all from a query longer than
    [max_query_length]; this also holds when parsing ends in an error. *)
Theorem parse_query_respects_limits arch WIDE s l :
  (Z.of_nat (length s) <= isize_max)%Z -> utf8_valid s = true ->
  (0 <= max_pairs l)%Z -> (0 <= max_decoded_length l)%Z ->
  (Z.of_nat (length (parse_query arch WIDE s l).1) <= max_pairs l)%Z
  /\ (total_size (parse_query arch WIDE s l).1 <= max_decoded_length l)%Z
  /\ ((max_query_length l < Z.of_nat (length s))%Z ->
      parse_query arch WIDE s l = ([], Err (parsing None 0 QueryTooLong))).
Proof.
  intros Hlen Hu Hp Hd. rewrite parse_query_spec by done. unfold query_ref.
  destruct (Z.ltb_spec (max_query_length l) (Z.of_nat (length s))).
  - cbn. split_and!; [lia|lia|done].
  - destruct (ref_pairs_inv l (query_pieces 0 s) 0 0 Hp Hd) as (H1 & H2 & _). split_and!; [lia|lia|lia].
Qed.

Lemma parse_query_respects_limits_witness :
  (Z.of_nat (length (parse_query Aarch64 true (str "a=1&b=2&c=3") (mkLimits 100 2 100 9 9)).1) <= 2)%Z.
Proof.
  apply (parse_query_respects_limits Aarch64 true (str "a=1&b=2&c=3") (mkLimits 100 2 100 9 9));
    vm_compute; congruence.
Defined.

(** C28. Encoding fields and parsing the result gives the fields back: the same
    parameters and values in the same order, on every architecture, whenever the query
    the encoder produced is within the limits of the parser. *)
Theorem encode_parse_roundtrip arch WIDE fields el l e :
  forallb field_ok fields = true -> (0 <= max_encoded_length el <= isize_max)%Z ->
  encode_fields fields (encoder_new [] el) = (Ok tt, e) ->
  (Z.of_nat (length (e_output e)) <= max_query_length l)%Z ->
  (Z.of_nat (length fields) <= max_pairs l)%Z ->
  (fields_size fields <= max_decoded_length l)%Z ->
  exists ps, parse_query arch WIDE (e_output e) l = (ps, Ok tt) /\ pair_texts <$> ps = fields.
Proof.
  intros Hf Hm He Hq Hp Hd. unfold isize_max in Hm.
  pose proof (encode_fields_output fields el ltac:(unfold usize_max; lia)) as Ho. rewrite He in Ho.
  destruct Ho as [Ho Hl]. rewrite Ho in *. pose proof (query_text_size fields).
  rewrite parse_query_spec; [|unfold isize_max; lia|by apply query_text_ascii].
  unfold query_ref. rewrite (proj2 (Z.ltb_ge _ _)), query_pieces_text by done.
  apply ref_pairs_fields; [done|lia|lia|unfold usize_max; lia].
Qed.

Lemma encode_parse_roundtrip_witness :
  exists ps, parse_query OtherArch true (str "q=caf%C3%A9+%26+tea&empty=") limits_default = (ps, Ok tt)
    /\ pair_texts <$> ps = [(str "q", str "caf" ++ [195; 169]%Z ++ str " & tea"); (str "empty", [])].
Proof.
  apply (encode_parse_roundtrip OtherArch true
    [(str "q", str "caf" ++ [195; 169]%Z ++ str " & tea"); (str "empty", [])] limits_default limits_default
    (mkEncoder (str "q=caf%C3%A9+%26+tea&empty=") limits_default 26 false));
    vm_compute; (reflexivity || (split; congruence) || congruence).
Defined.

(** What a client may ask of an encoder. *)
Inductive EncOp : Type :=
| OpStr (p ep v : bytes) | OpDigits (p ep digits : bytes) | OpBool (p ep : bytes) (b : bool)
| OpDisplay (p ep : bytes) (pieces : list (option bytes)).

Definition run_op (op : EncOp) : action (Encoder bytes) QError unit :=
  match op with
  | OpStr p ep v => pair_str p ep v
  | OpDigits p ep d => pair_raw p ep d
  | OpBool p ep b => pair_bool p ep b
  | OpDisplay p ep pieces => pair_display p ep pieces
  end.

(** A client that goes on after errors. *)
Fixpoint run_ops (ops : list EncOp) (e : Encoder bytes) : Encoder bytes :=
  match ops with [] => e | op :: rest => run_ops rest (run_op op e).2 end.

Lemma sends_keeps b b' m x e : sends b b' m x -> e_first e = b -> bounded e ->
  bounded (m e).2 /\ e_limits (m e).2 = e_limits e.
Proof.
  intros Hm Hb He. specialize (Hm e He Hb). destruct (m e) as [[| |] e']; [|by destruct Hm as (_ & ? & ? & _)|done].
  by destruct Hm as (_ & ? & _ & ? & _).
Qed.

Lemma write_pieces_keeps p pieces e : bounded e ->
  bounded (write_pieces p pieces e).2 /\ e_limits (write_pieces p pieces e).2 = e_limits e.
Proof.
  revert e; induction pieces as [|[s|] pieces IH]; intros e He; [done| |done]. cbn [write_pieces].
  destruct (sends_keeps _ _ _ _ e (sends_encoded (e_first e) p s) eq_refl He) as [H1 H2]. unfold bind.
  destruct (write_encoded p s e) as [[| |] e1]; [|done..]. rewrite <- H2. by apply IH.
Qed.

Lemma run_op_keeps op e : bounded e -> bounded (run_op op e).2 /\ e_limits (run_op op e).2 = e_limits e.
Proof.
  intros He. destruct op as [p ep v|p ep d|p ep b|p ep pieces]; cbn [run_op].
  - eapply sends_keeps; [apply sends_pair_str|done..].
  - eapply sends_keeps; [apply sends_pair_raw|done..].
  - eapply sends_keeps; [apply sends_pair_raw|done..].
  - unfold pair_display, bind.
    destruct (sends_keeps _ _ _ _ e (sends_start_pair (e_first e) p ep) eq_refl He) as [H1 H2].
    destruct (start_pair p ep e) as [[| |] e1]; [|done..]. rewrite <- H2. by apply write_pieces_keeps.
Qed.

(** Whatever a client writes, and whether or not its writes fail, the output of an
    encoder stays within [max_encoded_length] and the counter is its exact length. *)
Theorem encoder_stays_bounded ops el :
  (0 <= max_encoded_length el <= usize_max)%Z ->
  let e := run_ops ops (encoder_new [] el) in
  (Z.of_nat (length (e_output e)) <= max_encoded_length el)%Z /\ written e = Z.of_nat (length (e_output e)).
Proof.
  intros Hm.
  assert (H : forall e, bounded e -> bounded (run_ops ops e) /\ e_limits (run_ops ops e) = e_limits e).
  { induction ops as [|op ops IH]; intros e He; [done|]. cbn [run_ops].
    destruct (run_op_keeps op e He) as [H1 <-]. by apply IH. }
  destruct (H (encoder_new [] el)) as [[H1 H2 _] H3]; [split; cbn; lia|].
  cbv zeta. rewrite H3 in H2. cbn [encoder_new e_limits] in H2. split; [lia|done].
Qed.

Lemma encoder_stays_bounded_witness :
  e_output (run_ops [OpStr (str "a") (str "a") (str "b c"); OpBool (str "t") (str "t") true]
    (encoder_new [] (mkLimits 9 9 9 9 8))) = str "a=b+c&t="
  /\ (Z.of_nat (length (e_output (run_ops [OpStr (str "a") (str "a") (str "b c"); OpBool (str "t") (str "t") true]
    (encoder_new [] (mkLimits 9 9 9 9 8))))) <= 8)%Z.
Proof.
  split; [vm_compute; reflexivity|].
  apply (encoder_stays_bounded [OpStr (str "a") (str "a") (str "b c"); OpBool (str "t") (str "t") true]
    (mkLimits 9 9 9 9 8)). vm_compute. split; congruence.
Defined.

Lemma path_decode_loop_plain pre s : c_percent ∉ pre ->
  path_decode_loop (pre ++ s) = app pre <$> path_decode_loop s.
Proof.
  induction pre as [|b pre IH]; cbn [app]; [by destruct (path_decode_loop s)|].
  intros [Hb Hp]%not_elem_of_cons. cbn [path_decode_loop]. rewrite (proj2 (Z.eqb_neq b c_percent)) by done.
  rewrite IH by done. by destruct (path_decode_loop s).
Qed.

(** Decoding a path capture is percent decoding of the whole capture followed by
    the UTF-8 check (the copy of the prefix before the first escape changes nothing), and
    the capture is borrowed exactly when it has no percent sign. *)
Theorem path_decode_is_percent_decoding s :
  utf8_valid s = true ->
  text <$> path_decode s
  = match path_decode_loop s with
    | Some out => if utf8_valid out then Some out else None
    | None => None
    end
  /\ (path_decode s = Some (Borrowed s) <-> c_percent ∉ s).
Proof.
  intros Hu. unfold path_decode. destruct (position (Z.eqb c_percent) s) as [i|] eqn:Hp.
  - destruct (position_Some _ _ _ Hp) as (pre & q & -> & Hpre & ->).
    rewrite take_app_length, drop_app_length, path_decode_loop_plain by done. split.
    + destruct (path_decode_loop (c_percent :: q)); [cbn|done]. by case_match.
    + split; [|set_solver]. destruct (path_decode_loop (c_percent :: q)); [cbn|done]. by case_match.
  - apply position_None in Hp. split; [|done].
    pose proof (path_decode_loop_plain s [] Hp) as Hl. rewrite app_nil_r in Hl. rewrite Hl. cbn.
    by rewrite app_nil_r, Hu.
Qed.

Lemma path_decode_is_percent_decoding_witness :
  text <$> path_decode (str "a%2Fb+c") = Some (str "a/b+c") /\ path_decode (str "%ff") = None.
Proof.
  split.
  - rewrite (proj1 (path_decode_is_percent_decoding (str "a%2Fb+c") eq_refl)). reflexivity.
  - vm_compute. reflexivity.
Defined.
