(* ===== verification/StdTime.v ===== *)
(** * What seatbelt uses of the standard library

    Durations, instants, saturating integers and floating-point numbers.  A
    [std::time::Duration] is its number of nanoseconds; an [Instant] is its distance in
    nanoseconds from the origin of the monotonic clock; an [f32] or [f64] is a
    [spec_float] of that format, with the IEEE operations of the Standard Library. *)

From Stdlib Require Export SpecFloat.
From S2P Require Import Prelude.

Open Scope Z_scope.

(** ** Saturating unsigned integers *)

Definition u32_max : Z := 4294967295.
Definition u64_max : Z := 18446744073709551615.
Definition u128_max : Z := 340282366920938463463374607431768211455.

Definition saturating_add (max a b : Z) : Z := Z.min max (a + b).
Definition saturating_sub (a b : Z) : Z := Z.max 0 (a - b).

(** ** Durations and instants *)

Definition NANOS_PER_SEC : Z := 1000000000.
Definition from_secs (s : Z) : Z := s * NANOS_PER_SEC.
Definition from_millis (ms : Z) : Z := ms * 1000000.

(** [Duration::MAX]: [u64::MAX] seconds and 999,999,999 nanoseconds. *)
Definition duration_max : Z := u64_max * NANOS_PER_SEC + 999999999.

(** [Duration::saturating_mul]. *)
Definition duration_saturating_mul (d n : Z) : Z := Z.min duration_max (d * n).

(** [later.duration_since(earlier)], which is zero when [earlier] is the later one. *)
Definition duration_since (later earlier : Z) : Z := Z.max 0 (later - earlier).

(** The largest instant: [i64::MAX] seconds on the 64-bit Unix targets. *)
Definition instant_max : Z := 9223372036854775807 * NANOS_PER_SEC + 999999999.

(** [instant + duration] panics when the sum is not an instant. *)
Definition instant_add {E} (i d : Z) : outcome E Z :=
  if i + d <=? instant_max then Ok (i + d) else Panic.

(** ** Floating point *)

Abbreviation f64_prec := 53%Z.
Abbreviation f64_emax := 1024%Z.
Abbreviation f32_prec := 24%Z.
Abbreviation f32_emax := 128%Z.

(** [f64::from(n)] for an unsigned integer. *)
Definition f64_from (n : Z) : spec_float := binary_normalize f64_prec f64_emax n 0 false.

(** [x as f32]: rounds to nearest, ties to even. *)
Definition as_f32 (x : spec_float) : spec_float :=
  match x with
  | S754_finite s m e => binary_normalize f32_prec f32_emax (cond_Zopp s (Zpos m)) e s
  | _ => x
  end.

Definition f64_add : spec_float -> spec_float -> spec_float := SFadd f64_prec f64_emax.
Definition f64_sub : spec_float -> spec_float -> spec_float := SFsub f64_prec f64_emax.
Definition f64_mul : spec_float -> spec_float -> spec_float := SFmul f64_prec f64_emax.
Definition f64_div : spec_float -> spec_float -> spec_float := SFdiv f64_prec f64_emax.

(** The literals [1.0_f32] and [0.0]. *)
Definition f32_one : spec_float := S754_finite false 8388608 (-23).
Definition f_zero : spec_float := S754_zero false.
