(* ===== verification/Health.v ===== *)
(** * seatbelt: circuit health

    Models [src/crates/recoverable/src/lib.rs] (recovery classification) and, of
    [src/crates/seatbelt/src/breaker/], [execution_result.rs], [abandoned_policy.rs],
    [health_eval.rs] (the health decision) and [health.rs] (the sliding window of
    execution results). *)

From Stdlib Require Import Sorted.
From S2P Require Import Prelude StdTime.

Open Scope Z_scope.

(** ** Recovery classification *)

Inductive RecoveryKind : Type := Unknown | Retry | Never | Unavailable.

Record RecoveryInfo : Type := mkRecovery { recovery_kind : RecoveryKind; recovery_delay : option Z }.

Definition recovery_unknown : RecoveryInfo := mkRecovery Unknown None.
Definition recovery_never : RecoveryInfo := mkRecovery Never None.
Definition recovery_retry : RecoveryInfo := mkRecovery Retry None.
Definition recovery_unavailable : RecoveryInfo := mkRecovery Unavailable None.
Definition with_delay (r : RecoveryInfo) (d : Z) : RecoveryInfo := mkRecovery (recovery_kind r) (Some d).

(** ** Execution results *)

Inductive ExecutionResult : Type := Success | Failure | Abandoned.

#[export] Instance ExecutionResult_eq_dec : EqDecision ExecutionResult.
Proof. solve_decision. Defined.

Definition from_recovery (recovery : RecoveryInfo) : ExecutionResult :=
  match recovery_kind recovery with
  | Retry | Unavailable => Failure
  | _ => Success
  end.

Record ExecutionInfo : Type := mkInfo { succeeded : Z; failed : Z; abandoned : Z }.

Definition info_default : ExecutionInfo := mkInfo 0 0 0.

Definition total (c : ExecutionInfo) : Z :=
  saturating_add u32_max (saturating_add u32_max (succeeded c) (failed c)) (abandoned c).

Definition info_record (c : ExecutionInfo) (result : ExecutionResult) : ExecutionInfo :=
  match result with
  | Success => mkInfo (saturating_add u32_max (succeeded c) 1) (failed c) (abandoned c)
  | Failure => mkInfo (succeeded c) (saturating_add u32_max (failed c) 1) (abandoned c)
  | Abandoned => mkInfo (succeeded c) (failed c) (saturating_add u32_max (abandoned c) 1)
  end.

Definition info_subtract (c other : ExecutionInfo) : ExecutionInfo :=
  mkInfo (saturating_sub (succeeded c) (succeeded other)) (saturating_sub (failed c) (failed other))
    (saturating_sub (abandoned c) (abandoned other)).

(** ** The health decision *)

Inductive PolicyMode : Type := Ignore | AsFailures | RateThreshold (threshold : spec_float).

(** [AbandonedPolicy] wraps its mode. *)
Record AbandonedPolicy : Type := mkPolicy { mode : PolicyMode }.

Definition policy_default : AbandonedPolicy := mkPolicy (RateThreshold f32_one).
Definition policy_ignore : AbandonedPolicy := mkPolicy Ignore.
Definition policy_as_failures : AbandonedPolicy := mkPolicy AsFailures.

(** Panics unless the threshold is in [(0.0, 1.0]]. *)
Definition rate_threshold {E} (threshold : spec_float) : outcome E AbandonedPolicy :=
  if SFltb f_zero threshold && SFleb threshold f32_one then Ok (mkPolicy (RateThreshold threshold)) else Panic.

Definition counts_abandoned_as_failure (p : AbandonedPolicy) : bool :=
  match mode p with AsFailures => true | _ => false end.

Inductive HealthStatus : Type := Healthy | Unhealthy.

#[export] Instance HealthStatus_eq_dec : EqDecision HealthStatus.
Proof. solve_decision. Defined.

Definition evaluate_threshold (failures total min_throughput : Z) (failure_threshold : spec_float)
    : HealthStatus :=
  if (total =? 0) || (total <? min_throughput) then Healthy
  else
    let failure_rate := as_f32 (f64_div (f64_from failures) (f64_from total)) in
    if SFleb failure_threshold failure_rate then Unhealthy else Healthy.

Record HealthEvaluator : Type := mkEvaluator {
  failure_threshold : spec_float;
  min_throughput : Z;
  abandoned_policy : AbandonedPolicy }.

Definition evaluate_core (ev : HealthEvaluator) (counts : ExecutionInfo) : Z * Z :=
  match mode (abandoned_policy ev) with
  | Ignore => (failed counts, saturating_add u32_max (succeeded counts) (failed counts))
  | AsFailures => (saturating_add u32_max (failed counts) (abandoned counts), total counts)
  | RateThreshold threshold =>
      match evaluate_threshold (abandoned counts) (total counts) (min_throughput ev) threshold with
      | Unhealthy => (saturating_add u32_max (failed counts) (abandoned counts), total counts)
      | Healthy => (failed counts, saturating_add u32_max (succeeded counts) (failed counts))
      end
  end.

Record HealthInfo : Type := mkHealthInfo { h_counts : ExecutionInfo; status : HealthStatus }.

Definition evaluate (ev : HealthEvaluator) (counts : ExecutionInfo) : HealthInfo :=
  let (decision_failures, decision_total) := evaluate_core ev counts in
  mkHealthInfo counts
    (evaluate_threshold decision_failures decision_total (min_throughput ev) (failure_threshold ev)).

(** ** The sliding window *)

Definition WINDOW_COUNT : Z := 10.
Definition MIN_SAMPLING_DURATION : Z := from_secs 1.

Record Window : Type := mkWindow { w_counts : ExecutionInfo; started_at : Z }.

Definition window_new (now : Z) : Window := mkWindow info_default now.
Definition window_update (w : Window) (r : ExecutionResult) : Window :=
  mkWindow (info_record (w_counts w) r) (started_at w).

Record HealthMetrics : Type := mkMetrics {
  sampling_duration : Z;
  window_duration : Z;
  windows : list Window;
  counts : ExecutionInfo;
  evaluator : HealthEvaluator }.

Definition metrics_new (sampling : Z) (ev : HealthEvaluator) : HealthMetrics :=
  mkMetrics sampling (sampling / WINDOW_COUNT) [] info_default ev.

Record HealthMetricsBuilder : Type := mkBuilder {
  b_sampling_duration : Z;
  b_failure_threshold : spec_float;
  b_min_throughput : Z;
  b_abandoned_policy : AbandonedPolicy }.

Definition builder_new (sampling : Z) (threshold : spec_float) (throughput : Z) (policy : AbandonedPolicy)
    : HealthMetricsBuilder :=
  mkBuilder (Z.max sampling MIN_SAMPLING_DURATION) threshold throughput policy.

Definition build (b : HealthMetricsBuilder) : HealthMetrics :=
  metrics_new (b_sampling_duration b)
    (mkEvaluator (b_failure_threshold b) (b_min_throughput b) (b_abandoned_policy b)).

(** [while let Some(expired) = self.windows.pop_front_if(..)]. *)
Fixpoint drop_expired (now sampling : Z) (ws : list Window) (counts : ExecutionInfo)
    : list Window * ExecutionInfo :=
  match ws with
  | [] => ([], counts)
  | front :: ws' =>
      if sampling <? duration_since now (started_at front)
      then drop_expired now sampling ws' (info_subtract counts (w_counts front))
      else (ws, counts)
  end.

(** The windows after [current_window]: the current one is the last. *)
Definition current_window (m : HealthMetrics) (now : Z) : HealthMetrics :=
  let (ws, counts) := drop_expired now (sampling_duration m) (windows m) (counts m) in
  let needs_new_window :=
    match last ws with
    | None => true
    | Some back => window_duration m <=? duration_since now (started_at back)
    end in
  mkMetrics (sampling_duration m) (window_duration m)
    (if needs_new_window then ws ++ [window_new now] else ws) counts (evaluator m).

(** [back_mut().expect(..).update(result)]. *)
Fixpoint update_back {E} (ws : list Window) (r : ExecutionResult) : outcome E (list Window) :=
  match ws with
  | [] => Panic
  | [w] => Ok [window_update w r]
  | w :: ws' => let? ws'' := update_back ws' r in Ok (w :: ws'')
  end.

Definition metrics_record {E} (m : HealthMetrics) (r : ExecutionResult) (now : Z) : outcome E HealthMetrics :=
  let m := current_window m now in
  let? ws := update_back (windows m) r in
  Ok (mkMetrics (sampling_duration m) (window_duration m) ws (info_record (counts m) r) (evaluator m)).

Definition health_info (m : HealthMetrics) : HealthInfo := evaluate (evaluator m) (counts m).

(** ** What the window holds *)

(** A recorded result and the time of its record. *)
Abbreviation event := (ExecutionResult * Z)%type (only parsing).

Definition count (r : ExecutionResult) (l : list event) : Z :=
  Z.of_nat (length (filter (fun e => e.1 = r) l)).

Definition exact (l : list event) : ExecutionInfo := mkInfo (count Success l) (count Failure l) (count Abandoned l).

Definition info_get (r : ExecutionResult) (c : ExecutionInfo) : Z :=
  match r with Success => succeeded c | Failure => failed c | Abandoned => abandoned c end.

(** Records a list of results in turn. *)
Fixpoint record_all {E} (m : HealthMetrics) (evs : list event) : outcome E HealthMetrics :=
  match evs with
  | [] => Ok m
  | (r, t) :: evs' => let? m := metrics_record m r t in record_all m evs'
  end.

Lemma count_app r l1 l2 : count r (l1 ++ l2) = count r l1 + count r l2.
Proof. unfold count. rewrite filter_app, length_app. lia. Qed.

Lemma count_bound r l : 0 <= count r l <= Z.of_nat (length l).
Proof. unfold count. split; [lia|]. apply inj_le, length_filter. Qed.

Lemma info_get_exact r l : info_get r (exact l) = count r l.
Proof. by destruct r. Qed.

Lemma record_exact l r t : Z.of_nat (length l) < u32_max ->
  info_record (exact l) r = exact (l ++ [(r, t)]).
Proof.
  intros Hl. unfold exact. rewrite !count_app.
  pose proof (count_bound Success l). pose proof (count_bound Failure l). pose proof (count_bound Abandoned l).
  assert (Hc : forall r', count r' [(r, t)] = if decide (r = r') then 1 else 0).
  { intros r'. unfold count. rewrite filter_cons. cbn. by case_decide. }
  rewrite !Hc. unfold info_record, saturating_add. clear Hc.
  destruct r; cbn [succeeded failed abandoned]; f_equal; case_decide; try done; lia.
Qed.

Lemma subtract_exact g l : info_subtract (exact (g ++ l)) (exact g) = exact l.
Proof.
  unfold info_subtract, exact, saturating_sub. cbn. rewrite !count_app.
  pose proof (count_bound Success l). pose proof (count_bound Failure l). pose proof (count_bound Abandoned l).
  f_equal; lia.
Qed.

(** The results of the [sampling] before [t]. *)
Abbreviation recent sampling t := (filter (fun e : event => t - sampling <= e.2 <= t)) (only parsing).

(** A window holds the results recorded during its time; it counts them exactly as long as [B]: the
    counters have not saturated. *)
Definition window_holds (B : Prop) (wd : Z) (w : Window) (g : list event) : Prop :=
  (B -> w_counts w = exact g) /\ Forall (fun e => started_at w <= e.2 < started_at w + wd) g.

(** The times of the results in the windows. *)
Lemma grouped_events B wd a ws gs :
  Forall2 (window_holds B wd) ws gs -> Forall (fun w => a <= started_at w) ws ->
  Forall (fun e : event => a <= e.2) (concat gs).
Proof.
  induction 1 as [|w g ws gs [_ Hg] _ IH]; intros Ha; cbn [concat]; [constructor|].
  apply Forall_cons in Ha as [Ha Has]. apply Forall_app. split; [|by apply IH].
  eapply Forall_impl; [exact Hg|]. intros; cbn in *; lia.
Qed.

Section window.
Context (B : Prop) (sampling wd : Z) (Hwd : 0 < wd).

Abbreviation spaced := (Sorted (fun a b => a + wd <= b)).

(** [old] are the results that have left the window, [groups] those of each window. *)
Record window_inv (m : HealthMetrics) (old : list event) (groups : list (list event)) (now : Z) : Prop := {
  inv_sampling : sampling_duration m = sampling;
  inv_duration : window_duration m = wd;
  inv_counts : B -> counts m = exact (concat groups);
  inv_groups : Forall2 (window_holds B wd) (windows m) groups;
  inv_spaced : spaced (started_at <$> windows m);
  inv_started : Forall (fun w => started_at w <= now) (windows m);
  inv_old : Forall (fun e => e.2 < now - sampling + wd) old;
  inv_past : Forall (fun e => e.2 <= now) (concat groups) }.

Lemma drop_expired_spec now ws groups : Forall2 (window_holds B wd) ws groups -> forall c, (B -> c = exact (concat groups)) ->
  exists ws1 ws2 gs1 gs2 c',
    ws = ws1 ++ ws2 /\ groups = gs1 ++ gs2
    /\ drop_expired now sampling ws c = (ws2, c') /\ (B -> c' = exact (concat gs2))
    /\ Forall2 (window_holds B wd) ws1 gs1 /\ Forall2 (window_holds B wd) ws2 gs2
    /\ Forall (fun w => sampling < duration_since now (started_at w)) ws1
    /\ (forall w, head ws2 = Some w -> duration_since now (started_at w) <= sampling).
Proof.
  induction 1 as [|w g ws gs Hw Hws IH]; intros c Hc; cbn [drop_expired].
  - exists [], [], [], [], c. by split_and!.
  - destruct (Z.ltb_spec sampling (duration_since now (started_at w))) as [He|He].
    + destruct Hw as [Hwc Hg]. destruct (IH (info_subtract c (w_counts w))) as (ws1 & ws2 & gs1 & gs2 & c' & -> & -> & -> & Hc' & H1 & H2 & H3 & H4).
      { intros HB. rewrite (Hc HB), (Hwc HB). apply subtract_exact. }
      exists (w :: ws1), ws2, (g :: gs1), gs2, c'. split_and!; try done; by constructor.
    + exists [], (w :: ws), [], (g :: gs), c. split_and!; try done; [by constructor|]. by intros ? [= ->].
Qed.

Lemma update_back_last {E} ws w r : update_back (E:=E) (ws ++ [w]) r = Ok (ws ++ [window_update w r]).
Proof.
  induction ws as [|x ws IH]; [done|]. cbn [app update_back].
  destruct (ws ++ [w]) eqn:Hw; [by destruct ws|]. by rewrite IH.
Qed.

Lemma spaced_app l x : spaced l -> (forall y, last l = Some y -> y + wd <= x) -> spaced (l ++ [x]).
Proof.
  induction l as [|a l IH]; intros Hs Hl; [by repeat constructor|].
  apply Sorted_inv in Hs as [Hs Ha]. cbn. constructor.
  - apply IH; [done|]. intros y Hy. apply Hl. cbn. by destruct l.
  - destruct l as [|b l]; cbn; [constructor; by apply Hl|]. constructor. by inversion Ha.
Qed.

Lemma spaced_suffix l1 l2 : spaced (l1 ++ l2) -> spaced l2.
Proof. induction l1 as [|a l1 IH]; [done|]. intros [Hs _]%Sorted_inv. by apply IH. Qed.

(** In a spaced list everything is at or after the head. *)
Lemma spaced_head a l x : spaced (a :: l) -> x ∈ l -> a + wd <= x.
Proof.
  revert a; induction l as [|b l IH]; intros a Hs Hx; [by apply not_elem_of_nil in Hx|].
  apply Sorted_inv in Hs as [Hs Ha]. inversion Ha; subst.
  apply elem_of_cons in Hx as [->|Hx]; [done|]. specialize (IH b Hs Hx). lia.
Qed.

Lemma old_events now ws gs :
  Forall2 (window_holds B wd) ws gs -> Forall (fun w => sampling < duration_since now (started_at w)) ws ->
  Forall (fun w => started_at w <= now) ws ->
  Forall (fun e : event => e.2 < now - sampling + wd) (concat gs).
Proof.
  induction 1 as [|w g ws gs [_ Hg] _ IH]; intros Hx Hn; cbn [concat]; [constructor|].
  inversion Hx; inversion Hn; subst. apply Forall_app. split; [|by apply IH].
  eapply Forall_impl; [exact Hg|]. intros [r t] Ht. unfold duration_since in *. cbn in *. lia.
Qed.

Context (Hsampling : 0 <= sampling).

(** After [current_window], the last window is open at [now]. *)
Lemma current_window_spec m old groups now0 now :
  window_inv m old groups now0 -> now0 <= now ->
  exists ws w gs g old',
    windows (current_window m now) = ws ++ [w]
    /\ Forall2 (window_holds B wd) (ws ++ [w]) (gs ++ [g])
    /\ (B -> counts (current_window m now) = exact (concat (gs ++ [g])))
    /\ old ++ concat groups = old' ++ concat (gs ++ [g])
    /\ Forall (fun e : event => e.2 < now - sampling + wd) old'
    /\ spaced (started_at <$> ws ++ [w])
    /\ Forall (fun w => now - sampling <= started_at w <= now) (ws ++ [w])
    /\ started_at w <= now < started_at w + wd
    /\ Forall (fun e : event => e.2 <= now) (concat (gs ++ [g])).
Proof.
  intros [Hs Hd Hc Hg Hsp Hst Hold Hpast] Hle. unfold current_window. rewrite Hs, Hd.
  destruct (drop_expired_spec now (windows m) groups Hg (counts m) Hc)
    as (ws1 & ws2 & gs1 & gs2 & c' & Hws & -> & -> & Hc' & H1 & H2 & H3 & H4).
  assert (Hpast2 : Forall (fun e : event => e.2 <= now) (concat gs2)).
  { rewrite concat_app, Forall_app in Hpast. eapply Forall_impl; [apply Hpast|]. intros; cbn in *; lia. }
  rewrite Hws in *. rewrite fmap_app in Hsp. apply spaced_suffix in Hsp.
  apply Forall_app in Hst as [Hst1 Hst2].
  assert (Hst1' : Forall (fun w => started_at w <= now) ws1) by (eapply Forall_impl; [exact Hst1|]; intros; cbn in *; lia).
  assert (Hst2' : Forall (fun w => now - sampling <= started_at w <= now) ws2).
  { destruct ws2 as [|w ws2]; [constructor|]. specialize (H4 w eq_refl).
    apply Forall_cons in Hst2 as [Hw Hst2]. unfold duration_since in H4. constructor; [lia|].
    rewrite !Forall_forall in *. intros x Hx. specialize (Hst2 x Hx). cbn in Hst2.
    assert (started_at w + wd <= started_at x); [|lia].
    eapply spaced_head; [done|]. apply list_elem_of_fmap. by exists x. }
  set (old' := old ++ concat gs1).
  assert (Hold' : Forall (fun e : event => e.2 < now - sampling + wd) old').
  { apply Forall_app. split; [eapply Forall_impl; [exact Hold|]; intros; cbn in *; lia|by eapply old_events]. }
  assert (Heq : old ++ concat (gs1 ++ gs2) = old' ++ concat gs2).
  { unfold old'. by rewrite concat_app, app_assoc. }
  set (needs := match last ws2 with None => true | Some back => wd <=? duration_since now (started_at back) end).
  cbn [windows counts]. destruct needs eqn:Hn; unfold needs in Hn.
  - exists ws2, (window_new now), gs2, [], old'. rewrite concat_app. cbn [concat]. rewrite !app_nil_r.
    split_and!; try done.
    + apply Forall2_app; [done|]. repeat constructor.
    + rewrite fmap_app. apply spaced_app; [done|]. intros y. rewrite fmap_last.
      destruct (last ws2) as [back|]; [|done]. intros [= <-]. to_prop. unfold duration_since in Hn. cbn. lia.
    + apply Forall_app. split; [done|]. constructor; [cbn; lia|done].
    + cbn [started_at window_new]. lia.
  - destruct (last ws2) as [back|] eqn:Hl; [|done]. apply last_Some in Hl as [ws Hl].
    rewrite Hl in *. apply Forall2_app_inv_l in H2 as (gs & gl & Hgs & Hgl & ->).
    apply Forall2_cons_inv_l in Hgl as (g & gl' & Hb & ->%Forall2_nil_inv_l & ->).
    assert (Hb' : now - sampling <= started_at back <= now).
    { apply Forall_app in Hst2' as [_ [Hb' _]%Forall_cons]. exact Hb'. }
    apply Z.leb_gt in Hn. unfold duration_since in Hn.
    exists ws, back, gs, g, old'. split_and!; try done; try lia. by apply Forall2_app; [|constructor].
Qed.

Lemma record_inv {E} m old groups now0 now r :
  window_inv m old groups now0 -> now0 <= now -> (B -> Z.of_nat (length (recent sampling now ((old ++ concat groups) ++ [(r, now)]))) <= u32_max) ->
  exists m' old' groups',
    metrics_record (E:=E) m r now = Ok m' /\ window_inv m' old' groups' now
    /\ old' ++ concat groups' = (old ++ concat groups) ++ [(r, now)]
    /\ Forall (fun w => now - sampling <= started_at w) (windows m').
Proof.
  intros Hinv Hle Hlen. unfold metrics_record.
  destruct (current_window_spec m old groups now0 now Hinv Hle)
    as (ws & w & gs & g & old' & Hws & Hg & Hc & Heq & Hold & Hsp & Hst & Hin & Hpast).
  rewrite Hws, update_back_last.
  assert (Hrecent : Forall (fun e : event => now - sampling <= e.2 <= now) (concat (gs ++ [g]))).
  { apply Forall_and. split; [|exact Hpast]. apply (grouped_events B wd _ (ws ++ [w])); [done|].
    eapply Forall_impl; [exact Hst|]. intros v [? _]. done. }
  assert (Hlc : B -> Z.of_nat (length (concat (gs ++ [g]))) < u32_max).
  { intros HB. specialize (Hlen HB). rewrite Heq, !filter_app, !length_app, (filter_all _ (concat _)), filter_cons_True in Hlen by (done || (cbn; lia)). cbn in Hlen. lia. }
  assert (Hlg : B -> Z.of_nat (length g) < u32_max).
  { intros HB. specialize (Hlc HB). rewrite concat_app, length_app in Hlc. cbn in Hlc. rewrite app_nil_r in Hlc. lia. }
  apply Forall2_app_inv in Hg as [Hg Hgw]; [|by eapply Forall2_length in Hg; rewrite !length_app in Hg; cbn in Hg; lia].
  apply Forall2_cons in Hgw as [[Hwc Hwe] _].
  assert (Hcat : concat (gs ++ [g ++ [(r, now)]]) = concat (gs ++ [g]) ++ [(r, now)]).
  { rewrite !concat_app. cbn. by rewrite !app_nil_r, app_assoc. }
  eexists _, old', (gs ++ [g ++ [(r, now)]]).
  split; [done|]. split_and!.
  - destruct Hinv as [Hs Hd _ _ _ _ _ _]. split; cbn [sampling_duration window_duration counts windows].
    + unfold current_window. by destruct (drop_expired _ _ _ _).
    + unfold current_window. by destruct (drop_expired _ _ _ _).
    + intros HB. rewrite Hcat, (Hc HB). by apply record_exact, Hlc.
    + apply Forall2_app; [done|]. constructor; [|constructor]. split; cbn [w_counts window_update started_at].
      * intros HB. rewrite (Hwc HB). by apply record_exact, Hlg.
      * apply Forall_app. split; [done|]. constructor; [cbn; lia|done].
    + rewrite fmap_app in *. done.
    + rewrite Forall_app in *. destruct Hst as [Hst [Hw _]%Forall_cons]. split.
      * eapply Forall_impl; [exact Hst|]. intros; cbn in *; lia.
      * constructor; [cbn; lia|done].
    + done.
    + rewrite Hcat, Forall_app. split; [done|]. by repeat constructor.
  - by rewrite Hcat, Heq, app_assoc.
  - cbn [windows]. rewrite Forall_app in *. destruct Hst as [Hst [Hw _]%Forall_cons]. split.
    + eapply Forall_impl; [exact Hst|]. intros; cbn in *; lia.
    + constructor; [cbn; lia|done].
Qed.

Lemma record_all_inv {E} evs m old groups now0 :
  window_inv m old groups now0 -> Sorted Z.le (now0 :: evs.*2) ->
  (B -> forall t, Z.of_nat (length (recent sampling t ((old ++ concat groups) ++ evs))) <= u32_max) ->
  exists m' old' groups',
    record_all (E:=E) m evs = Ok m' /\ window_inv m' old' groups' (default now0 (last evs.*2))
    /\ old' ++ concat groups' = (old ++ concat groups) ++ evs
    /\ (evs <> [] ->
        Forall (fun w => default now0 (last evs.*2) - sampling <= started_at w) (windows m')).
Proof.
  revert m old groups now0; induction evs as [|[r t] evs IH]; intros m old groups now0 Hinv Hs Hlen.
  { exists m, old, groups. by rewrite app_nil_r. }
  cbn [record_all fmap list_fmap length] in *. apply Sorted_inv in Hs as [Hs Ht]. inversion Ht; subst. cbn in *.
  assert (Hsnoc : (old ++ concat groups) ++ (r, t) :: evs = ((old ++ concat groups) ++ [(r, t)]) ++ evs) by (rewrite <- (app_assoc (old ++ concat groups)); reflexivity).
  destruct (record_inv (E:=E) m old groups now0 t r Hinv) as (m1 & old1 & gs1 & -> & Hinv1 & Heq1 & Hst1); [lia| |].
  { intros HB. specialize (Hlen HB t). rewrite Hsnoc, filter_app, length_app in Hlen. lia. }
  destruct (IH m1 old1 gs1 t Hinv1) as (m2 & old2 & gs2 & Hr & Hinv2 & Heq2 & Hst2).
  { exact Hs. }
  { intros HB t'. specialize (Hlen HB t'). by rewrite Hsnoc, <- Heq1 in Hlen. }
  assert (Hlast : default now0 (last (t :: evs.*2)) = default t (last evs.*2)).
  { destruct evs as [|e evs]; [done|]. cbn [fmap list_fmap].
    change (last (t :: e.2 :: evs.*2)) with (last (e.2 :: evs.*2)).
    destruct (last (e.2 :: evs.*2)) eqn:Hl; [done|]. by apply last_None in Hl. }
  change (list_fmap _ _ snd evs) with (evs.*2) in *. rewrite Hlast.
  exists m2, old2, gs2. split_and!; [done|done|by rewrite Heq2, Heq1, <- app_assoc|].
  intros _. destruct evs as [|e evs]; [cbn in *; by simplify_eq|]. by apply Hst2.
Qed.

Lemma spaced_length a l b : spaced (a :: l) -> Forall (fun x => x <= b) (a :: l) ->
  Z.of_nat (length l) * wd <= b - a.
Proof.
  revert a; induction l as [|x l IH]; intros a Hs Hb.
  { apply Forall_cons in Hb as [Hb _]. cbn in *. lia. }
  apply Forall_cons in Hb as [_ Hb]. apply Sorted_inv in Hs as [Hs Hx]. inversion Hx; subst.
  specialize (IH x Hs Hb). cbn [length]. lia.
Qed.
End window.

Lemma count_filter_le r (P : event -> Prop) `{forall x, Decision (P x)} l : count r (filter P l) <= count r l.
Proof.
  induction l as [|e l IH]; [done|]. rewrite filter_cons. change (e :: l) with ([e] ++ l).
  rewrite (count_app r [e] l). pose proof (count_bound r [e]). case_decide; [|lia].
  change (e :: filter P l) with ([e] ++ filter P l). rewrite count_app. lia.
Qed.

(** Recording never panics: there is always a current window. *)
Lemma metrics_record_total {E} m r now : exists m', metrics_record (E:=E) m r now = Ok m'.
Proof.
  unfold metrics_record.
  assert (Hw : exists ws w, windows (current_window m now) = ws ++ [w]).
  { unfold current_window. destruct (drop_expired _ _ _ _) as [ws c]. cbn [windows].
    destruct (match last ws with None => true | Some _ => _ end) eqn:Hn; [by exists ws, (window_new now)|].
    destruct (last ws) as [w|] eqn:Hl; [|done]. apply last_Some in Hl as [ws' ->]. by exists ws', w. }
  destruct Hw as (ws & w & Hw). rewrite Hw, update_back_last. by eexists.
Qed.

(** A fresh window that saw [evs], up to [now]. *)
Lemma recorded_window {E} B sampling ev evs now :
  MIN_SAMPLING_DURATION <= sampling -> Sorted Z.le evs.*2 -> last evs.*2 = Some now ->
  (B -> forall t, Z.of_nat (length (recent sampling t evs)) <= u32_max) ->
  exists m old groups,
    record_all (E:=E) (metrics_new sampling ev) evs = Ok m
    /\ window_inv B sampling (sampling / WINDOW_COUNT) m old groups now
    /\ old ++ concat groups = evs
    /\ Forall (fun w => now - sampling <= started_at w) (windows m).
Proof.
  intros Hmin Hs Hl Hlen. unfold MIN_SAMPLING_DURATION, from_secs, NANOS_PER_SEC in Hmin.
  assert (Hwd : 0 < sampling / WINDOW_COUNT) by (apply Z.div_str_pos; unfold WINDOW_COUNT; lia).
  destruct evs as [|[r t] evs]; [done|]. cbn [fmap list_fmap] in Hs.
  destruct (record_all_inv B sampling (sampling / WINDOW_COUNT) Hwd ltac:(lia) (E:=E) ((r, t) :: evs)
    (metrics_new sampling ev) [] [] t) as (m & old & gs & Hr & Hinv & Heq & Hst).
  - split; cbn; try done; constructor.
  - cbn [fmap list_fmap]. constructor; [done|]. constructor. reflexivity.
  - done.
  - rewrite Hl in *. cbn [default from_option] in *. exists m, old, gs. by split_and!; [..|apply Hst].
Qed.

(** No more results fall into one sampling duration than a [u32] can count. *)
Definition countable (sampling : Z) (evs : list event) : Prop := forall t, Z.of_nat (length (recent sampling t evs)) <= u32_max.

(** C33. The sliding window is sound and complete up to one tenth of the sampling
    duration: after any sequence of records at non-decreasing times, of any length, recording
    has not panicked and at most eleven windows are kept; and if no sampling duration holds
    more results than a [u32] can count (beyond that the counters saturate), then for each kind of
    result the aggregate counts every result of the last [sampling - sampling / 10] and
    no result older than [sampling]. *)
Theorem health_window_counts {E} d threshold throughput policy evs now :
  Sorted Z.le evs.*2 -> last evs.*2 = Some now ->
  let sampling := Z.max d MIN_SAMPLING_DURATION in
  exists m,
    record_all (E:=E) (build (builder_new d threshold throughput policy)) evs = Ok m
    /\ (length (windows m) <= 11)%nat
    /\ (countable sampling evs -> forall r,
       count r (filter (fun e => now - sampling + sampling / WINDOW_COUNT <= e.2) evs) <= info_get r (counts m)
       /\ info_get r (counts m) <= count r (filter (fun e => now - sampling <= e.2) evs)).
Proof.
  intros Hs Hl sampling. assert (Hmin : MIN_SAMPLING_DURATION <= sampling) by (unfold sampling; lia).
  destruct (recorded_window (E:=E) (countable sampling evs) sampling (mkEvaluator threshold throughput policy) evs now Hmin Hs Hl)
    as (m & old & groups & Hr & [Hsd Hd Hc Hg Hsp Hst Hold _] & Heq & Hin); [done|].
  exists m. split; [exact Hr|].
  assert (Hbig : 1000000000 <= sampling) by exact Hmin. split.
  - destruct (windows m) as [|w ws]; cbn [length]; [lia|].
    pose proof (spaced_length (sampling / WINDOW_COUNT) (started_at w) (fmap (M:=list) started_at ws) now Hsp) as Hn.
    rewrite length_fmap in Hn. apply Forall_cons in Hin as [Hw _].
    assert (Hle : Z.of_nat (length ws) * (sampling / WINDOW_COUNT) <= sampling).
    { etrans; [apply Hn|cbn in Hw; lia]. apply (Forall_fmap started_at (fun x => x <= now) (w :: ws)). exact Hst. }
    unfold WINDOW_COUNT in Hle. pose proof (Z.div_mod sampling 10). pose proof (Z.mod_pos_bound sampling 10). nia.
  - intros HB r. rewrite (Hc HB), info_get_exact, <- Heq, !filter_app, !count_app. split.
    + rewrite (filter_none _ old) by (eapply Forall_impl; [exact Hold|]; intros; cbn in *; lia).
      apply count_filter_le.
    + rewrite (filter_all _ (concat groups)) by by eapply grouped_events.
      pose proof (count_bound r (filter (fun e : event => now - sampling <= e.2) old)). lia.
Qed.

Definition sample_results : list event := [(Failure, 0); (Success, from_secs 1); (Failure, from_secs 11)].

Lemma health_window_counts_witness :
  exists m,
    record_all (E:=unit) (build (builder_new (from_secs 10) f32_one 1 policy_default)) sample_results = Ok m
    /\ (length (windows m) <= 11)%nat
    /\ forall r,
       count r (filter (fun e => from_secs 11 - from_secs 10 + from_secs 10 / WINDOW_COUNT <= e.2) sample_results) <= info_get r (counts m)
       /\ info_get r (counts m) <= count r (filter (fun e => from_secs 11 - from_secs 10 <= e.2) sample_results).
Proof.
  destruct (health_window_counts (E:=unit) (from_secs 10) f32_one 1 policy_default sample_results (from_secs 11)) as (m & H1 & H2 & H3).
  - repeat constructor; vm_compute; congruence.
  - reflexivity.
  - exists m. split_and!; [exact H1|exact H2|]. apply H3. intros t. pose proof (length_filter (fun e : event => t - Z.max (from_secs 10) MIN_SAMPLING_DURATION <= e.2 <= t) sample_results) as Hl.
    unfold sample_results in Hl at 2. cbn [length] in Hl. unfold u32_max. lia.
Defined.

Lemma evaluate_threshold_unhealthy f t mt th :
  evaluate_threshold f t mt th = Unhealthy -> t <> 0 /\ mt <= t.
Proof.
  unfold evaluate_threshold. destruct (Z.eqb_spec t 0), (Z.ltb_spec t mt); cbn [orb]; by intros.
Qed.

Definition info_ok (c : ExecutionInfo) : Prop :=
  0 <= succeeded c <= u32_max /\ 0 <= failed c <= u32_max /\ 0 <= abandoned c <= u32_max.

(** The health decision on each policy: a circuit is unhealthy only when the
    minimum throughput was reached; [ignore] does not look at abandoned executions;
    [as_failures] decides as if each abandoned execution had failed; [rate_threshold]
    decides like one of the two, by the rate of abandoned executions. *)
Theorem health_decision th mt policy c :
  info_ok c ->
  let decide_with p := status (evaluate (mkEvaluator th mt (mkPolicy p)) c) in
  let ignoring c' := status (evaluate (mkEvaluator th mt (mkPolicy Ignore)) c') in
  (decide_with policy = Unhealthy -> 0 < total c /\ mt <= total c)
  /\ (forall a, ignoring c = ignoring (mkInfo (succeeded c) (failed c) a))
  /\ decide_with AsFailures
     = ignoring (mkInfo (succeeded c) (saturating_add u32_max (failed c) (abandoned c)) 0)
  /\ forall rate, decide_with (RateThreshold rate)
     = match evaluate_threshold (abandoned c) (total c) mt rate with
       | Unhealthy => decide_with AsFailures
       | Healthy => decide_with Ignore
       end.
Proof.
  intros (Hs & Hf & Ha). cbn zeta. unfold evaluate, total, saturating_add in *. split_and!.
  - assert (Hsmall : forall f t, t <= total c -> 0 <= t -> evaluate_threshold f t mt th = Unhealthy ->
      0 < total c /\ mt <= total c).
    { intros f t Ht Ht0 [Hne Hmt]%evaluate_threshold_unhealthy. lia. }
    unfold total, saturating_add in Hsmall. unfold evaluate_core, total, saturating_add.
    destruct policy as [| |rate]; cbn; [apply Hsmall; lia..|].
    destruct (evaluate_threshold (abandoned c) _ mt rate); cbn; apply Hsmall; lia.
  - done.
  - cbn. unfold total, saturating_add. f_equal. lia.
  - intros rate. unfold evaluate_core, total, saturating_add. cbn.
    by destruct (evaluate_threshold (abandoned c) _ mt rate).
Qed.

Lemma health_decision_witness :
  status (evaluate (mkEvaluator f32_one 3 (mkPolicy AsFailures)) (mkInfo 0 2 2)) = Unhealthy
  /\ 3 <= total (mkInfo 0 2 2).
Proof.
  split; [vm_compute; reflexivity|].
  apply (health_decision f32_one 3 AsFailures (mkInfo 0 2 2)); [|vm_compute; reflexivity].
  split_and!; vm_compute; congruence.
Defined.

(** The rate is rounded to [f32]: with [2^25] executions, one of them a success, the
    default policy ([rate_threshold(1.0)]) already counts the others as failures. *)
Theorem default_policy_rounds_up :
  status (evaluate (mkEvaluator f32_one 100 policy_default) (mkInfo 1 0 33554431)) = Unhealthy
  /\ status (evaluate (mkEvaluator f32_one 100 policy_default) (mkInfo 2 0 33554430)) = Healthy.
Proof. split; vm_compute; reflexivity. Qed.
