(* ===== verification/Engine.v ===== *)
(** * seatbelt: the circuit breaker engine

    Models, of [src/crates/seatbelt/src/breaker/], the probes of [engine/probing/]
    ([single_probe.rs], [health_probe.rs], [probes.rs], [options.rs], [mod.rs]), the
    state machine of [engine/engine_core.rs] with its mutex, [half_open_mode.rs], and the
    settings of [layer.rs] and [constants.rs] that reach the engine.

    The clock and the random generator are not part of the engine: each operation takes
    the instant [now] that [clock.instant()] returned and the value [sample] that
    [rnd.next_f64()] returned.  Operations leave a state behind also when they panic,
    because the mutex keeps it. *)

From Stdlib Require Import Sorted.
From S2P Require Import Prelude StdTime Health.

(** No operation of the engine returns an error. *)
Abbreviation eng S A := (action S Empty_set A).
Abbreviation out A := (outcome Empty_set A).

(** Runs an outcome that does not touch the state. *)
Definition lift {S E A} (o : outcome E A) : action S E A := fun s => (o, s).

(** ** Probes *)

Inductive AllowProbeResult : Type := ProbeAccepted | ProbeRejected.
Inductive ProbingResult : Type := ProbingSuccess | ProbingFailure | ProbingPending.

Record SingleProbe : Type := mkSingle {
  probe_cooldown : Z;
  s_abandoned_policy : AbandonedPolicy;
  entered_at : option Z }.

Definition single_new (cooldown : Z) (p : AbandonedPolicy) : SingleProbe := mkSingle cooldown p None.

Definition single_allow (now : Z) : eng SingleProbe AllowProbeResult := fun p =>
  let entered := mkSingle (probe_cooldown p) (s_abandoned_policy p) (Some now) in
  match entered_at p with
  | None => (Ok ProbeAccepted, entered)
  | Some at_ =>
      if probe_cooldown p <? duration_since now at_ then (Ok ProbeAccepted, entered)
      else (Ok ProbeRejected, p)
  end.

Definition single_record (p : SingleProbe) (result : ExecutionResult) : ProbingResult :=
  match result with
  | Success => ProbingSuccess
  | Failure => ProbingFailure
  | Abandoned =>
      if counts_abandoned_as_failure (s_abandoned_policy p) then ProbingFailure else ProbingPending
  end.

Record HealthProbeOptions : Type := mkHealthOptions {
  builder : HealthMetricsBuilder;
  probing_ratio : spec_float }.

Definition f64_one : spec_float := f64_from 1.
Definition MIN_THROUGHPUT : Z := 1.

(** The three [assert!]s of the constructor. *)
Definition health_options_new (stage_duration : Z) (threshold ratio : spec_float) (p : AbandonedPolicy)
    : out HealthProbeOptions :=
  if negb (SFltb f_zero ratio && SFleb ratio f64_one) then Panic
  else if negb (SFleb f_zero threshold && SFltb threshold f32_one) then Panic
  else if negb (0 <? stage_duration) then Panic
  else Ok (mkHealthOptions (builder_new stage_duration threshold MIN_THROUGHPUT p) ratio).

Definition stage_duration (o : HealthProbeOptions) : Z := b_sampling_duration (builder o).

Record HealthProbe : Type := mkHealth {
  h_options : HealthProbeOptions;
  h_metrics : HealthMetrics;
  fallback_after : option Z;
  sample_until : option Z }.

Definition health_new (o : HealthProbeOptions) : HealthProbe := mkHealth o (build (builder o)) None None.

Definition set_sample_until (t : Z) : eng HealthProbe unit := fun p =>
  (Ok tt, mkHealth (h_options p) (h_metrics p) (fallback_after p) (Some t)).
Definition set_fallback_after (t : Z) : eng HealthProbe unit := fun p =>
  (Ok tt, mkHealth (h_options p) (h_metrics p) (Some t) (sample_until p)).
Definition set_metrics (m : HealthMetrics) : eng HealthProbe unit := fun p =>
  (Ok tt, mkHealth (h_options p) m (fallback_after p) (sample_until p)).

Definition health_allow (now : Z) (sample : spec_float) : eng HealthProbe AllowProbeResult :=
  let! p := get_state in
  let! until := match sample_until p with
                | Some t => ret t
                | None =>
                    let! t := lift (instant_add now (stage_duration (h_options p))) in
                    let! _ := set_sample_until t in ret t
                end in
  let! fallback := match fallback_after p with
                   | Some t => ret t
                   | None => let! _ := set_fallback_after until in ret until
                   end in
  if SFltb sample (probing_ratio (h_options p)) then ret ProbeAccepted
  else if fallback <? now then
    let! t := lift (instant_add now (stage_duration (h_options p))) in
    let! _ := set_fallback_after t in
    ret ProbeAccepted
  else ret ProbeRejected.

Definition keep_sampling (p : HealthProbe) (now : Z) : bool :=
  match sample_until p with None => true | Some until => now <? until end.

Definition health_record (result : ExecutionResult) (now : Z) : eng HealthProbe ProbingResult :=
  let! p := get_state in
  let! m := lift (metrics_record (h_metrics p) result now) in
  let! _ := set_metrics m in
  let! p := get_state in
  if keep_sampling p now then ret ProbingPending
  else match status (health_info (h_metrics p)) with
       | Healthy => ret ProbingSuccess
       | Unhealthy => ret ProbingFailure
       end.

Inductive ProbeOptions : Type :=
| SingleProbeOptions (cooldown : Z) (p : AbandonedPolicy)
| HealthProbeOption (o : HealthProbeOptions).

Inductive Probe : Type := Single (p : SingleProbe) | Health (p : HealthProbe).

Definition probe_new (o : ProbeOptions) : Probe :=
  match o with
  | SingleProbeOptions cooldown p => Single (single_new cooldown p)
  | HealthProbeOption o => Health (health_new o)
  end.

Definition probe_allow (now : Z) (sample : spec_float) : eng Probe AllowProbeResult := fun p =>
  match p with
  | Single p => let '(r, p) := single_allow now p in (r, Single p)
  | Health p => let '(r, p) := health_allow now sample p in (r, Health p)
  end.

Definition probe_record (result : ExecutionResult) (now : Z) : eng Probe ProbingResult := fun p =>
  match p with
  | Single s => (Ok (single_record s result), p)
  | Health p => let '(r, p) := health_record result now p in (r, Health p)
  end.

(** ** Sequences of probes *)

(** [ProbesOptions::new] panics on an empty list. *)
Definition probes_options_new (probes : list ProbeOptions) : out (list ProbeOptions) :=
  match probes with [] => Panic | _ => Ok probes end.

Definition quick (cooldown : Z) (p : AbandonedPolicy) : out (list ProbeOptions) :=
  probes_options_new [SingleProbeOptions cooldown p].

(** The health stages, built in order; the first failed [assert!] ends it. *)
Fixpoint gradual_stages (ratios : list spec_float) (stage : Z) (threshold : spec_float) (p : AbandonedPolicy)
    : out (list ProbeOptions) :=
  match ratios with
  | [] => Ok []
  | ratio :: ratios' =>
      let? o := health_options_new stage threshold ratio p in
      let? os := gradual_stages ratios' stage threshold p in
      Ok (HealthProbeOption o :: os)
  end.

Definition gradual (ratios : list spec_float) (stage : Z) (threshold : spec_float) (p : AbandonedPolicy)
    : out (list ProbeOptions) :=
  let? health := gradual_stages ratios stage threshold p in
  probes_options_new (SingleProbeOptions stage p :: health).

(** The literals [0.001], [0.01], [0.05], [0.1], [0.25] and [0.5], as the nearest [f64]s. *)
Definition progressive_ratios : list spec_float :=
  (fun n => f64_div (f64_from 1) (f64_from n)) <$> [1000; 100; 20; 10; 4; 2].

Definition progressive (stage : Z) (threshold : spec_float) (p : AbandonedPolicy) : out (list ProbeOptions) :=
  gradual progressive_ratios stage threshold p.

Record Probes : Type := mkProbes { remaining : list ProbeOptions; current : Probe }.

Definition probes_new (options : list ProbeOptions) : out Probes :=
  match options with
  | [] => Panic
  | probe :: rest => Ok (mkProbes rest (probe_new probe))
  end.

Definition probes_allow (now : Z) (sample : spec_float) : eng Probes AllowProbeResult := fun p =>
  let '(r, c) := probe_allow now sample (current p) in (r, mkProbes (remaining p) c).

Definition probes_record (result : ExecutionResult) (now : Z) : eng Probes ProbingResult := fun p =>
  let '(r, c) := probe_record result now (current p) in
  match r with
  | Ok ProbingSuccess =>
      if bool_decide (result = Abandoned) then (Ok ProbingPending, mkProbes (remaining p) c)
      else match remaining p with
           | probe :: rest => (Ok ProbingPending, mkProbes rest (probe_new probe))
           | [] => (Ok ProbingSuccess, mkProbes [] c)
           end
  | _ => (r, mkProbes (remaining p) c)
  end.

(** ** The state machine *)

Inductive ExecutionMode : Type := Normal | ProbeMode.

#[export] Instance ExecutionMode_eq_dec : EqDecision ExecutionMode.
Proof. solve_decision. Defined.

Inductive EnterCircuitResult : Type := Accepted (mode : ExecutionMode) | Rejected.

Definition from_allow (r : AllowProbeResult) : EnterCircuitResult :=
  match r with ProbeAccepted => Accepted ProbeMode | ProbeRejected => Rejected end.

Record Stats : Type := mkStats {
  probes : ExecutionInfo;
  probes_lost : Z;
  executions_lost : Z;
  opened_at : Z;
  re_opened : Z;
  rejected : Z }.

Definition stats_new (now : Z) : Stats := mkStats info_default 0 0 now 0 0.

Definition opened_duration (s : Stats) (now : Z) : Z := duration_since now (opened_at s).

Definition inc (n : Z) : Z := saturating_add usize_max n 1.

Definition add_rejected (s : Stats) : Stats :=
  mkStats (probes s) (probes_lost s) (executions_lost s) (opened_at s) (re_opened s) (inc (rejected s)).
Definition add_probe_lost (s : Stats) : Stats :=
  mkStats (probes s) (inc (probes_lost s)) (executions_lost s) (opened_at s) (re_opened s) (rejected s).
Definition add_execution_lost (s : Stats) : Stats :=
  mkStats (probes s) (probes_lost s) (inc (executions_lost s)) (opened_at s) (re_opened s) (rejected s).
Definition add_re_opened (s : Stats) : Stats :=
  mkStats (probes s) (probes_lost s) (executions_lost s) (opened_at s) (inc (re_opened s)) (rejected s).

Definition record_allow_result (s : Stats) (allow : AllowProbeResult) : Stats :=
  match allow with ProbeAccepted => s | ProbeRejected => add_rejected s end.

Definition record_probe_execution_result (s : Stats) (r : ExecutionResult) : Stats :=
  mkStats (info_record (probes s) r) (probes_lost s) (executions_lost s) (opened_at s) (re_opened s) (rejected s).

Inductive State : Type :=
| Closed (health : HealthMetrics)
| Open (open_until : Z) (stats : Stats)
| HalfOpen (p : Probes) (stats : Stats).

Inductive ExitCircuitResult : Type :=
| Unchanged | Opened (health : HealthInfo) | Reopened | ClosedAgain (stats : Stats).

Record EngineOptions : Type := mkOptions {
  break_duration : Z;
  health_metrics_builder : HealthMetricsBuilder;
  o_probes : list ProbeOptions }.

Definition enter (now : Z) (sample : spec_float) (settings : EngineOptions)
    : eng State EnterCircuitResult := fun s =>
  match s with
  | Closed _ => (Ok (Accepted Normal), s)
  | Open open_until stats =>
      if open_until <=? now then
        match probes_new (o_probes settings) with
        | Ok p =>
            let '(allow, p) := probes_allow now sample p in
            match allow with
            | Ok allow => (Ok (from_allow allow), HalfOpen p (record_allow_result stats allow))
            | Err e => (Err e, s)
            | Panic => (Panic, s)
            end
        | Err e => (Err e, s)
        | Panic => (Panic, s)
        end
      else (Ok Rejected, Open open_until (add_rejected stats))
  | HalfOpen p info =>
      let '(allow, p) := probes_allow now sample p in
      match allow with
      | Ok allow => (Ok (from_allow allow), HalfOpen p (record_allow_result info allow))
      | Err e => (Err e, HalfOpen p info)
      | Panic => (Panic, HalfOpen p info)
      end
  end.

Definition exit (result : ExecutionResult) (mode : ExecutionMode) (now : Z) (settings : EngineOptions)
    : eng State ExitCircuitResult := fun s =>
  match s with
  | Closed health =>
      if bool_decide (mode = ProbeMode) then (Ok Unchanged, s)
      else
        match metrics_record health result now with
        | Ok health =>
            match status (health_info health) with
            | Healthy => (Ok Unchanged, Closed health)
            | Unhealthy =>
                match instant_add now (break_duration settings) with
                | Ok until => (Ok (Opened (health_info health)), Open until (stats_new now))
                | Err e => (Err e, Closed health)
                | Panic => (Panic, Closed health)
                end
            end
        | Err e => (Err e, s)
        | Panic => (Panic, s)
        end
  | Open until stats =>
      (Ok Unchanged,
       Open until (match mode with ProbeMode => add_probe_lost stats | Normal => add_execution_lost stats end))
  | HalfOpen p stats =>
      if bool_decide (mode = Normal) then (Ok Unchanged, HalfOpen p (add_execution_lost stats))
      else
        let stats := record_probe_execution_result stats result in
        let '(r, p) := probes_record result now p in
        match r with
        | Ok ProbingSuccess => (Ok (ClosedAgain stats), Closed (build (health_metrics_builder settings)))
        | Ok ProbingFailure =>
            let stats := add_re_opened stats in
            match instant_add now (break_duration settings) with
            | Ok until => (Ok Reopened, Open until stats)
            | Err e => (Err e, HalfOpen p stats)
            | Panic => (Panic, HalfOpen p stats)
            end
        | Ok ProbingPending => (Ok Unchanged, HalfOpen p stats)
        | Err e => (Err e, HalfOpen p stats)
        | Panic => (Panic, HalfOpen p stats)
        end
  end.

(** ** The mutex *)

(** [Mutex<State>]: a panic while the lock is held poisons it. *)
Record EngineCore : Type := mkCore { state : State; poisoned : bool }.

Definition engine_new (o : EngineOptions) : EngineCore := mkCore (Closed (build (health_metrics_builder o))) false.

(** [self.state.lock().expect(ERR_POISONED_LOCK)]. *)
Definition locked {A} (m : eng State A) : eng EngineCore A := fun c =>
  if poisoned c then (Panic, c)
  else
    let '(r, s) := m (state c) in
    (r, mkCore s (match r with Panic => true | _ => false end)).

Definition engine_enter (o : EngineOptions) (now : Z) (sample : spec_float) : eng EngineCore EnterCircuitResult :=
  locked (enter now sample o).
Definition engine_exit (o : EngineOptions) (result : ExecutionResult) (mode : ExecutionMode) (now : Z)
    : eng EngineCore ExitCircuitResult :=
  locked (exit result mode now o).

(** ** The settings *)

Inductive HalfOpenMode : Type := Quick | Progressive (stage : option Z).

(** [HalfOpenMode::progressive]. *)
Definition half_open_progressive (stage : option Z) : HalfOpenMode :=
  Progressive ((fun d => Z.max d MIN_SAMPLING_DURATION) <$> stage).

Definition to_options (m : HalfOpenMode) (default_stage : Z) (threshold : spec_float) (p : AbandonedPolicy)
    : out (list ProbeOptions) :=
  match m with
  | Quick => quick default_stage p
  | Progressive d => progressive (default default_stage d) threshold p
  end.

Record BreakerLayer : Type := mkLayer {
  l_failure_threshold : spec_float;
  l_min_throughput : Z;
  l_sampling_duration : Z;
  l_break_duration : Z;
  l_half_open_mode : HalfOpenMode;
  l_abandoned_policy : AbandonedPolicy }.

(** [0.1_f32]. *)
Definition DEFAULT_FAILURE_THRESHOLD : spec_float := as_f32 (f64_div (f64_from 1) (f64_from 10)).

Definition layer_new : BreakerLayer :=
  mkLayer DEFAULT_FAILURE_THRESHOLD 100 (from_secs 30) (from_secs 5) (half_open_progressive None) policy_default.

(** [f32::clamp(0.0, 1.0)]. *)
Definition clamp_unit (x : spec_float) : spec_float :=
  if SFltb x f_zero then f_zero else if SFltb f32_one x then f32_one else x.

Definition set_failure_threshold (l : BreakerLayer) (threshold : spec_float) : BreakerLayer :=
  mkLayer (clamp_unit threshold) (l_min_throughput l) (l_sampling_duration l) (l_break_duration l)
    (l_half_open_mode l) (l_abandoned_policy l).
Definition set_break_duration (l : BreakerLayer) (d : Z) : BreakerLayer :=
  mkLayer (l_failure_threshold l) (l_min_throughput l) (l_sampling_duration l) d
    (l_half_open_mode l) (l_abandoned_policy l).

(** [BreakerLayer::engines]: the options every engine gets. *)
Definition layer_engine_options (l : BreakerLayer) : out EngineOptions :=
  let? ps := to_options (l_half_open_mode l) (l_break_duration l) (l_failure_threshold l) (l_abandoned_policy l) in
  Ok (mkOptions (l_break_duration l)
        (builder_new (l_sampling_duration l) (l_failure_threshold l) (l_min_throughput l) (l_abandoned_policy l))
        ps).

(** ** Histories *)

(** What the callers of an engine do, in the order in which they hold the lock. *)
Inductive EngineEvent : Type :=
| Enters (now : Z) (sample : spec_float)
| Exits (result : ExecutionResult) (mode : ExecutionMode) (now : Z).

Inductive Reply : Type := EnterReply (r : out EnterCircuitResult) | ExitReply (r : out ExitCircuitResult).

Definition engine_step (o : EngineOptions) (ev : EngineEvent) (c : EngineCore) : Reply * EngineCore :=
  match ev with
  | Enters now sample => let '(r, c) := engine_enter o now sample c in (EnterReply r, c)
  | Exits result mode now => let '(r, c) := engine_exit o result mode now c in (ExitReply r, c)
  end.

Fixpoint engine_run (o : EngineOptions) (evs : list EngineEvent) (c : EngineCore) : list Reply * EngineCore :=
  match evs with
  | [] => ([], c)
  | ev :: evs' =>
      let '(r, c) := engine_step o ev c in
      let '(rs, c) := engine_run o evs' c in (r :: rs, c)
  end.

Definition time_of (ev : EngineEvent) : Z := match ev with Enters now _ | Exits _ _ now => now end.

(** *** An open circuit blocks *)

Definition blocked (ev : EngineEvent) : Reply :=
  match ev with Enters _ _ => EnterReply (Ok Rejected) | Exits _ _ _ => ExitReply (Ok Unchanged) end.

Lemma engine_run_cons o ev evs c :
  engine_run o (ev :: evs) c
  = ((engine_step o ev c).1 :: (engine_run o evs (engine_step o ev c).2).1,
     (engine_run o evs (engine_step o ev c).2).2).
Proof. cbn. destruct (engine_step o ev c) as [r c']. cbn. by destruct (engine_run o evs c'). Qed.

Lemma open_step o ev until stats :
  time_of ev < until ->
  exists stats', engine_step o ev (mkCore (Open until stats) false) = (blocked ev, mkCore (Open until stats') false)
    /\ opened_at stats' = opened_at stats.
Proof.
  destruct ev as [now sample|result mode now]; cbn; intros Ht.
  - unfold engine_enter, locked. cbn. rewrite (proj2 (Z.leb_gt _ _)) by lia. by eexists.
  - unfold engine_exit, locked. cbn. destruct mode; by eexists.
Qed.

Lemma open_run o evs until stats :
  Forall (fun ev => time_of ev < until) evs ->
  exists stats', engine_run o evs (mkCore (Open until stats) false)
                 = (blocked <$> evs, mkCore (Open until stats') false)
    /\ opened_at stats' = opened_at stats.
Proof.
  revert stats; induction evs as [|ev evs IH]; intros stats Ht; [by exists stats|].
  apply Forall_cons in Ht as [Ht Hts]. destruct (open_step o ev until stats Ht) as (s1 & H1 & Ho1).
  rewrite engine_run_cons, H1. cbn [fst snd]. destruct (IH s1 Hts) as (s2 & -> & Ho2).
  exists s2. split; [done|]. congruence.
Qed.

(** *** Recovery *)

(** The probe results still needed before the circuit closes. *)
Definition stages_left (o : EngineOptions) (s : State) : nat :=
  match s with
  | Closed _ => 0
  | Open _ _ => length (o_probes o)
  | HalfOpen p _ => S (length (remaining p))
  end.

(** A result that counts for recovery. *)
Definition probe_result (ev : EngineEvent) : bool :=
  match ev with Exits result ProbeMode _ => bool_decide (result <> Abandoned) | _ => false end.

Lemma probes_allow_remaining now sample p : remaining (probes_allow now sample p).2 = remaining p.
Proof. unfold probes_allow. by destruct (probe_allow now sample (current p)). Qed.

Lemma probes_record_remaining result now p :
  (length (remaining (probes_record result now p).2) <= length (remaining p))%nat
  /\ match probes_record result now p with
     | (Ok ProbingSuccess, _) => remaining p = [] /\ result <> Abandoned
     | (_, p') => (length (remaining p) <= length (remaining p')
                                          + if bool_decide (result <> Abandoned) then 1 else 0)%nat
     end.
Proof.
  unfold probes_record. destruct (probe_record result now (current p)) as [[[| |]| |] c]; cbn; try (split; lia).
  case_bool_decide as Ha; [cbn; split; lia|]. rewrite bool_decide_eq_true_2 by done.
  destruct (remaining p); cbn; [done|split; lia].
Qed.

(** A half-open circuit runs stages of its options. *)
Definition stages_ok (o : EngineOptions) (s : State) : Prop :=
  match s with HalfOpen p _ => (S (length (remaining p)) <= length (o_probes o))%nat | _ => True end.

Lemma enter_stages now sample o s : stages_ok o s ->
  stages_ok o (enter now sample o s).2 /\ (stages_left o s <= stages_left o (enter now sample o s).2)%nat.
Proof.
  intros Hok. destruct s as [h|until stats|p stats]; cbn [enter stages_left]; [done| |].
  - destruct (until <=? now); [|done]. unfold probes_new.
    destruct (o_probes o) as [|po rest] eqn:Hp; [cbn; rewrite Hp; cbn; lia|].
    pose proof (probes_allow_remaining now sample (mkProbes rest (probe_new po))) as Hr.
    destruct (probes_allow now sample _) as [[| |] p']; cbn in *; rewrite ?Hr, ?Hp; cbn; lia.
  - pose proof (probes_allow_remaining now sample p) as Hr.
    destruct (probes_allow now sample p) as [[| |] p']; cbn in *; rewrite Hr; lia.
Qed.

Lemma exit_stages result mode now o s : stages_ok o s ->
  stages_ok o (exit result mode now o s).2
  /\ (stages_left o s <= stages_left o (exit result mode now o s).2
                        + if probe_result (Exits result mode now) then 1 else 0)%nat.
Proof.
  intros Hok. destruct s as [h|until stats|p stats]; cbn [exit stages_left probe_result].
  - split; [|lia]. case_bool_decide; [done|]. destruct (metrics_record h result now) as [m| |]; [|done..].
    destruct (status (health_info m)); [done|]. by destruct (instant_add now (break_duration o)).
  - split; [done|cbn; lia].
  - destruct mode; [rewrite (bool_decide_eq_true_2 (Normal = Normal)) by done; cbn in *; lia|].
    rewrite (bool_decide_eq_false_2 (ProbeMode = Normal)) by done.
    destruct (probes_record_remaining result now p) as [Hle Hr]. cbn in Hok.
    destruct (probes_record result now p) as [[[| |]| |] p']; cbn [fst snd] in *; try (cbn; lia).
    + destruct Hr as [Hr Ha]. rewrite bool_decide_eq_true_2 by done. cbn. rewrite Hr. cbn. split; [done|lia].
    + destruct (instant_add now (break_duration o)); cbn; lia.
Qed.

Lemma stages_step o ev c : stages_ok o (state c) ->
  stages_ok o (state (engine_step o ev c).2)
  /\ (stages_left o (state c) <= stages_left o (state (engine_step o ev c).2)
                               + if probe_result ev then 1 else 0)%nat.
Proof.
  intros Hok. destruct ev as [now sample|result mode now]; cbn [engine_step].
  - unfold engine_enter, locked. destruct (poisoned c); [cbn; split; [done|lia]|].
    destruct (enter_stages now sample o (state c) Hok) as [H1 H2].
    destruct (enter now sample o (state c)) as [r s]. cbn in *. split; [done|lia].
  - unfold engine_exit, locked. destruct (poisoned c); [cbn; split; [done|lia]|].
    destruct (exit_stages result mode now o (state c) Hok) as [H1 H2].
    by destruct (exit result mode now o (state c)) as [r s].
Qed.

Lemma stages_run o evs c : stages_ok o (state c) ->
  (stages_left o (state c) <= stages_left o (state (engine_run o evs c).2)
                            + length (List.filter probe_result evs))%nat.
Proof.
  revert c; induction evs as [|ev evs IH]; intros c Hok; [cbn; lia|].
  rewrite engine_run_cons. cbn [snd]. destruct (stages_step o ev c Hok) as [H1 H2].
  specialize (IH _ H1). cbn [List.filter]. destruct (probe_result ev); cbn [length]; lia.
Qed.

(** *** Panics *)

(** The options every time up to [T] can be added to. *)
Definition probe_time (o : ProbeOptions) : Z :=
  match o with SingleProbeOptions _ _ => 0 | HealthProbeOption o => stage_duration o end.

Definition current_time (p : Probe) : Z :=
  match p with Single _ => 0 | Health p => stage_duration (h_options p) end.

Section no_panic.
Context (T : Z) (o : EngineOptions).

Definition times_fit (s : State) : Prop :=
  match s with
  | HalfOpen p _ =>
      Forall (fun po => T + probe_time po <= instant_max) (remaining p)
      /\ T + current_time (current p) <= instant_max
  | _ => True
  end.

Context (Hbreak : T + break_duration o <= instant_max).
Context (Hne : o_probes o <> []).
Context (Hstages : Forall (fun po => T + probe_time po <= instant_max) (o_probes o)).

Lemma instant_add_ok {E} t d : t <= T -> T + d <= instant_max -> instant_add (E:=E) t d = Ok (t + d).
Proof. intros. unfold instant_add. by rewrite (proj2 (Z.leb_le _ _)) by lia. Qed.

Lemma health_allow_total now sample p : now <= T -> T + stage_duration (h_options p) <= instant_max ->
  exists r p', health_allow now sample p = (Ok r, p') /\ h_options p' = h_options p.
Proof.
  intros Hn Hd. unfold health_allow, bind, get_state, lift, set_sample_until, set_fallback_after, ret.
  rewrite !(instant_add_ok now) by done.
  destruct (sample_until p), (fallback_after p); cbn; repeat case_match; simplify_eq; eauto.
Qed.

Lemma health_record_total result now p :
  exists r p', health_record result now p = (Ok r, p') /\ h_options p' = h_options p.
Proof.
  unfold health_record, bind, get_state, lift, set_metrics, ret.
  destruct (metrics_record_total (E:=Empty_set) (h_metrics p) result now) as [m ->]. cbn.
  destruct (keep_sampling _ _); [eauto|]. destruct (status _); eauto.
Qed.

Lemma probe_allow_total now sample p : now <= T -> T + current_time p <= instant_max ->
  exists r p', probe_allow now sample p = (Ok r, p') /\ current_time p' = current_time p.
Proof.
  intros Hn Hd. destruct p as [p|p]; cbn [probe_allow current_time] in *.
  - unfold single_allow. repeat case_match; simplify_eq; eauto.
  - destruct (health_allow_total now sample p Hn Hd) as (r & p' & -> & Hp). exists r, (Health p'). cbn. by rewrite Hp.
Qed.

Lemma probe_record_total result now p :
  exists r p', probe_record result now p = (Ok r, p') /\ current_time p' = current_time p.
Proof.
  destruct p as [p|p]; cbn [probe_record]; [eauto|].
  destruct (health_record_total result now p) as (r & p' & -> & Hp). exists r, (Health p'). cbn. by rewrite Hp.
Qed.

Lemma current_time_new po : current_time (probe_new po) = probe_time po.
Proof. by destruct po. Qed.

Lemma enter_total now sample s : now <= T -> times_fit s ->
  exists r s', enter now sample o s = (Ok r, s') /\ times_fit s'.
Proof.
  intros Hn Hs. destruct s as [h|until stats|p stats]; cbn [enter]; [eauto| |].
  - destruct (until <=? now); [|eauto].
    destruct (o_probes o) as [|po rest]; [done|]. cbn [probes_new]. unfold probes_allow. cbn [current remaining].
    apply Forall_cons in Hstages as [Hpo Hrest].
    destruct (probe_allow_total now sample (probe_new po) Hn) as (r & p' & -> & Hp); [by rewrite current_time_new|].
    eexists _, _. split; [done|]. cbn. by rewrite Hp, current_time_new.
  - destruct Hs as [Hr Hc]. unfold probes_allow.
    destruct (probe_allow_total now sample (current p) Hn Hc) as (r & p' & -> & Hp).
    eexists _, _. split; [done|]. cbn. by rewrite Hp.
Qed.

Lemma exit_total result mode now s : now <= T -> times_fit s ->
  exists r s', exit result mode now o s = (Ok r, s') /\ times_fit s'.
Proof.
  intros Hn Hs. destruct s as [h|until stats|p stats]; cbn [exit]; [|eauto|].
  - case_bool_decide; [eauto|]. destruct (metrics_record_total (E:=Empty_set) h result now) as [m ->].
    destruct (status (health_info m)); [eauto|]. rewrite instant_add_ok by done. eauto.
  - case_bool_decide; [eauto|]. destruct Hs as [Hr Hc]. unfold probes_record.
    destruct (probe_record_total result now (current p)) as ([| |] & p' & -> & Hp);
      [|rewrite instant_add_ok by done; eexists _, _; by split|eexists _, _; split; [done|]; cbn; by rewrite Hp].
    case_bool_decide; [eexists _, _; split; [done|]; cbn; by rewrite Hp|].
    destruct (remaining p) as [|po rest]; [eexists _, _; by split|]. apply Forall_cons in Hr as [Hpo Hrest].
    eexists _, _. split; [done|]. cbn. by rewrite current_time_new.
Qed.

Definition reply_ok (r : Reply) : Prop :=
  match r with EnterReply (Ok _) | ExitReply (Ok _) => True | _ => False end.

Lemma run_total evs c :
  Forall (fun ev => time_of ev <= T) evs -> poisoned c = false -> times_fit (state c) ->
  Forall reply_ok (engine_run o evs c).1 /\ poisoned (engine_run o evs c).2 = false.
Proof.
  revert c; induction evs as [|ev evs IH]; intros c Ht Hp Hs; [done|].
  apply Forall_cons in Ht as [Ht Hts]. rewrite engine_run_cons. cbn [fst snd].
  assert (Hstep : exists r s', engine_step o ev c = (r, mkCore s' false) /\ reply_ok r /\ times_fit s').
  { destruct ev as [now sample|result mode now]; cbn [engine_step time_of] in *;
      unfold engine_enter, engine_exit, locked; rewrite Hp.
    - destruct (enter_total now sample (state c) Ht Hs) as (r & s' & -> & Hs'). eexists _, _. by split_and!.
    - destruct (exit_total result mode now (state c) Ht Hs) as (r & s' & -> & Hs'). eexists _, _. by split_and!. }
  destruct Hstep as (r & s' & -> & Hr & Hs'). cbn [fst snd].
  destruct (IH (mkCore s' false) Hts eq_refl Hs') as [H1 H2]. split; [by constructor|done].
Qed.
End no_panic.

(** *** The single probe *)

(** The times at which callers were let through. *)
Fixpoint admitted (evs : list EngineEvent) (rs : list Reply) : list Z :=
  match evs, rs with
  | Enters now _ :: evs', EnterReply (Ok (Accepted _)) :: rs' => now :: admitted evs' rs'
  | _ :: evs', _ :: rs' => admitted evs' rs'
  | _, _ => []
  end.

Lemma single_stage_spaced o cd pol rest enters stats t0 :
  Sorted Z.le (t0 :: enters.*1) ->
  Sorted (fun a b => a + cd < b)
    (t0 :: admitted ((fun x => Enters x.1 x.2) <$> enters)
             (engine_run o ((fun x => Enters x.1 x.2) <$> enters)
                (mkCore (HalfOpen (mkProbes rest (Single (mkSingle cd pol (Some t0)))) stats) false)).1).
Proof.
  revert stats t0; induction enters as [|[now sample] enters IH]; intros stats t0 Hs; [by repeat constructor|].
  cbn [fmap list_fmap fst snd] in *. apply Sorted_inv in Hs as [Hs Hle].
  assert (Hle' : t0 <= now) by by inversion Hle. clear Hle.
  rewrite engine_run_cons. cbn [fst].
  unfold engine_step at 1 2, engine_enter, locked. cbn [poisoned state].
  cbn [enter]. unfold probes_allow, probe_allow. cbn [current].
  unfold single_allow. cbn [entered_at probe_cooldown s_abandoned_policy].
  destruct (Z.ltb_spec cd (duration_since now t0)) as [Hcd|Hcd]; cbn [fst snd].
  - cbn [from_allow record_allow_result admitted remaining]. constructor; [by apply IH|].
    constructor. unfold duration_since in Hcd. lia.
  - cbn [from_allow record_allow_result admitted remaining]. apply IH.
    inversion Hs as [|? ? Hs' Hhd]; subst. constructor; [done|]. inversion Hhd; subst; constructor. lia.
Qed.

(** ** The properties *)

(** An open circuit blocks: until its deadline every caller is rejected, results
    that arrive late change nothing, and the circuit stays open with the same deadline and
    opening time, whatever callers do and in whatever order. *)
Theorem open_circuit_blocks o evs until stats :
  Forall (fun ev => time_of ev < until) evs ->
  exists stats', engine_run o evs (mkCore (Open until stats) false)
                 = (blocked <$> evs, mkCore (Open until stats') false)
    /\ opened_at stats' = opened_at stats.
Proof. apply open_run. Qed.

Definition demo_options : EngineOptions :=
  mkOptions (from_secs 5) (builder_new (from_secs 30) f32_one 1 policy_default)
    [SingleProbeOptions (from_secs 5) policy_default;
     HealthProbeOption (mkHealthOptions (builder_new (from_secs 5) f32_one 1 policy_default) f64_one)].

Lemma open_circuit_blocks_witness :
  exists stats', engine_run demo_options [Enters 1 f_zero; Exits Success Normal 2; Exits Failure ProbeMode 2; Enters 4 f_zero]
                   (mkCore (Open 5 (stats_new 0)) false)
                 = ([EnterReply (Ok Rejected); ExitReply (Ok Unchanged); ExitReply (Ok Unchanged); EnterReply (Ok Rejected)],
                    mkCore (Open 5 stats') false)
    /\ opened_at stats' = 0.
Proof.
  apply (open_circuit_blocks demo_options [Enters 1 f_zero; Exits Success Normal 2; Exits Failure ProbeMode 2; Enters 4 f_zero]
           5 (stats_new 0)).
  repeat constructor.
Defined.

(** C31. Recovery takes every stage: in any history, from an open circuit to a closed
    one, the callers report at least as many completed (not abandoned) probe results as
    the half-open mode has stages.  Normal traffic and abandoned probes alone never close
    a circuit. *)
Theorem recovery_needs_every_stage o evs until stats core :
  (engine_run o evs (mkCore (Open until stats) false)).2 = core ->
  (exists health, state core = Closed health) ->
  (length (o_probes o) <= length (List.filter probe_result evs))%nat.
Proof.
  intros <- [health Hc].
  pose proof (stages_run o evs (mkCore (Open until stats) false) I) as H. rewrite Hc in H. exact H.
Qed.

Lemma recovery_needs_every_stage_witness :
  let evs := [Enters (from_secs 5) f_zero; Exits Success ProbeMode (from_secs 5); Enters (from_secs 6) f_zero;
              Exits Success ProbeMode (from_secs 12)] in
  (2 <= length (List.filter probe_result evs))%nat.
Proof.
  intros evs.
  apply (recovery_needs_every_stage demo_options evs (from_secs 5) (stats_new 0)
           (engine_run demo_options evs (mkCore (Open (from_secs 5) (stats_new 0)) false)).2 eq_refl).
  vm_compute. eexists. reflexivity.
Defined.

(** When the first stage is a single probe, the first caller at or after the
    deadline of an open circuit is admitted as a probe, and while no result is reported
    the next callers are admitted only after more than the cool-down each. *)
Theorem half_open_admits_one_probe o cd pol rest until stats now sample enters :
  o_probes o = SingleProbeOptions cd pol :: rest -> until <= now ->
  Sorted Z.le (now :: enters.*1) ->
  let evs := (fun x => Enters x.1 x.2) <$> enters in
  exists rs, (engine_run o (Enters now sample :: evs) (mkCore (Open until stats) false)).1
             = EnterReply (Ok (Accepted ProbeMode)) :: rs
    /\ Sorted (fun a b => a + cd < b) (now :: admitted evs rs).
Proof.
  intros Ho Hu Hs evs. rewrite engine_run_cons. cbn [fst].
  unfold engine_step at 1 2, engine_enter, locked. cbn [poisoned state enter].
  rewrite (proj2 (Z.leb_le _ _) Hu), Ho. cbn [probes_new]. unfold probes_allow, probe_allow, single_allow.
  cbn [current probe_new single_new entered_at probe_cooldown s_abandoned_policy fst snd remaining].
  eexists. split; [done|]. by apply single_stage_spaced.
Qed.

Lemma half_open_admits_one_probe_witness :
  exists rs, (engine_run demo_options [Enters 10 f_zero; Enters 11 f_zero; Enters (from_secs 6) f_zero]
                (mkCore (Open 5 (stats_new 0)) false)).1
             = EnterReply (Ok (Accepted ProbeMode)) :: rs
    /\ Sorted (fun a b => a + from_secs 5 < b) (10 :: admitted [Enters 11 f_zero; Enters (from_secs 6) f_zero] rs).
Proof.
  apply (half_open_admits_one_probe demo_options (from_secs 5) policy_default
    [HealthProbeOption (mkHealthOptions (builder_new (from_secs 5) f32_one 1 policy_default) f64_one)]
    5 (stats_new 0) 10 f_zero [(11, f_zero); (from_secs 6, f_zero)]).
  - reflexivity.
  - lia.
  - repeat constructor; vm_compute; congruence.
Defined.

(** C38. No call panics and the lock is never poisoned, in any history from a new
    engine, as long as the break duration and the stage durations can be added to the
    times of the calls. *)
Theorem engine_never_panics T o evs :
  o_probes o <> [] -> T + break_duration o <= instant_max ->
  Forall (fun po => T + probe_time po <= instant_max) (o_probes o) ->
  Forall (fun ev => time_of ev <= T) evs ->
  Forall reply_ok (engine_run o evs (engine_new o)).1 /\ poisoned (engine_run o evs (engine_new o)).2 = false.
Proof. intros Hne Hb Hs Ht. by apply (run_total T). Qed.

Lemma engine_never_panics_witness :
  poisoned (engine_run demo_options [Exits Failure Normal 1; Enters (from_secs 9) f_zero] (engine_new demo_options)).2
  = false.
Proof.
  apply (engine_never_panics (from_secs 9) demo_options [Exits Failure Normal 1; Enters (from_secs 9) f_zero]).
  - discriminate.
  - vm_compute. congruence.
  - repeat constructor; vm_compute; congruence.
  - repeat constructor; vm_compute; congruence.
Defined.

(** *** Late results *)

(** The circuit without its statistics. *)
Definition strip_state (s : State) : State :=
  match s with
  | Closed h => Closed h
  | Open until _ => Open until (stats_new 0)
  | HalfOpen p _ => HalfOpen p (stats_new 0)
  end.

Definition strip (c : EngineCore) : EngineCore := mkCore (strip_state (state c)) (poisoned c).

Definition strip_reply (r : Reply) : Reply :=
  match r with ExitReply (Ok (ClosedAgain _)) => ExitReply (Ok (ClosedAgain (stats_new 0))) | _ => r end.

(** The circuit has outlived the call that reports this result. *)
Definition stale (s : State) (mode : ExecutionMode) : bool :=
  match s, mode with
  | Closed _, ProbeMode | Open _ _, _ | HalfOpen _ _, Normal => true
  | _, _ => false
  end.

Lemma strip_step o ev c :
  (strip_reply (engine_step o ev c).1, strip (engine_step o ev c).2)
  = (strip_reply (engine_step o ev (strip c)).1, strip (engine_step o ev (strip c)).2).
Proof.
  destruct c as [s [|]]; [by destruct ev, s|].
  destruct ev as [now sample|result mode now]; cbn [engine_step]; unfold engine_enter, engine_exit, locked, strip;
    cbn [poisoned state]; destruct s as [h|until stats|p stats]; cbn [strip_state enter exit]; try done.
  - destruct (until <=? now); [|done]. destruct (probes_new (o_probes o)) as [p| |]; try done.
    by destruct (probes_allow now sample p) as [[| |] ?].
  - by destruct (probes_allow now sample p) as [[| |] ?].
  - case_bool_decide; [done|]. destruct (probes_record result now p) as [[[| |]| |] ?]; try done.
    by destruct (instant_add now (break_duration o)).
Qed.

Lemma strip_run o evs c c' : strip c = strip c' ->
  strip_reply <$> (engine_run o evs c).1 = strip_reply <$> (engine_run o evs c').1
  /\ strip (engine_run o evs c).2 = strip (engine_run o evs c').2.
Proof.
  revert c c'; induction evs as [|ev evs IH]; intros c c' Hc; [done|]. rewrite !engine_run_cons. cbn [fst snd].
  pose proof (strip_step o ev c) as H1. pose proof (strip_step o ev c') as H2. rewrite Hc, <- H2 in H1.
  pose proof (f_equal fst H1) as Hr. pose proof (f_equal snd H1) as Hs. cbn [fst snd] in Hr, Hs.
  destruct (IH _ _ Hs) as [H3 H4]. cbn [fmap list_fmap]. by rewrite Hr, H3.
Qed.

(** A result that the circuit has outlived (a probe result at a closed circuit, any
    result at an open one, a normal result at a half-open one) has no influence on
    anything but the statistics: every later reply and every later state is what it would
    be without that result. *)
Theorem stale_results_do_not_interfere o result mode now c evs :
  stale (state c) mode = true ->
  let c' := (engine_step o (Exits result mode now) c).2 in
  strip_reply <$> (engine_run o evs c').1 = strip_reply <$> (engine_run o evs c).1
  /\ strip (engine_run o evs c').2 = strip (engine_run o evs c).2.
Proof.
  intros Hs c'. apply strip_run. unfold c'. destruct c as [s [|]]; [done|]. cbn [state] in Hs.
  by destruct s, mode.
Qed.

Lemma stale_results_do_not_interfere_witness :
  let c := mkCore (HalfOpen (mkProbes [] (Single (single_new 7 policy_as_failures))) (stats_new 0)) false in
  let c' := (engine_step demo_options (Exits Abandoned Normal 3) c).2 in
  strip (engine_run demo_options [Enters 4 f_zero] c').2 = strip (engine_run demo_options [Enters 4 f_zero] c).2.
Proof.
  intros c c'.
  apply (stale_results_do_not_interfere demo_options Abandoned Normal 3 c [Enters 4 f_zero]). reflexivity.
Defined.

(** *** Settings that the layer accepts and the engine does not *)

(** What [HealthProbeOptions::new] asserts of the failure threshold: at least 0 and below 1. *)
Definition threshold_ok (threshold : spec_float) : bool := SFleb f_zero threshold && SFltb threshold f32_one.

Lemma gradual_stages_spec ratios stage threshold p : Forall (fun r => SFltb f_zero r && SFleb r f64_one = true) ratios -> ratios <> [] ->
  if threshold_ok threshold && (0 <? stage) then exists os, gradual_stages ratios stage threshold p = Ok os else gradual_stages ratios stage threshold p = Panic.
Proof.
  intros Hr Hne. destruct (threshold_ok threshold && (0 <? stage)) eqn:Hok; [apply andb_true_iff in Hok as [Ht Hs]|].
  - clear Hne. induction Hr as [|r ratios Hr _ (os & IH)]; [by exists []|]. cbn [gradual_stages]. unfold health_options_new. fold (threshold_ok threshold).
    rewrite Hr, Ht, Hs. cbn [negb]. rewrite IH. by eexists.
  - destruct Hr as [|r ratios Hr _]; [done|]. cbn [gradual_stages]. unfold health_options_new. fold (threshold_ok threshold). rewrite Hr. cbn [negb].
    by destruct (threshold_ok threshold), (0 <? stage).
Qed.

Lemma progressive_ratios_ok : Forall (fun r => SFltb f_zero r && SFleb r f64_one = true) progressive_ratios.
Proof. repeat constructor. Qed.

Lemma layer_panics l d : l_half_open_mode l = Progressive d ->
  layer_engine_options l = Panic <-> threshold_ok (l_failure_threshold l) = false \/ default (l_break_duration l) d <= 0.
Proof.
  intros Hm. unfold layer_engine_options, to_options. rewrite Hm. unfold progressive, gradual.
  pose proof (gradual_stages_spec progressive_ratios (default (l_break_duration l) d) (l_failure_threshold l) (l_abandoned_policy l) progressive_ratios_ok) as Hg.
  destruct (threshold_ok (l_failure_threshold l)); cbn [andb] in Hg; [destruct (Z.ltb_spec 0 (default (l_break_duration l) d))|].
  - destruct Hg as [os ->]; [done|]. cbn. split; [done|]. intros [?|?]; [done|lia].
  - rewrite Hg by done. split; [by right|done].
  - rewrite Hg by done. split; [by left|done].
Qed.

(** The reply of a call that panics. *)
Definition panic_reply (ev : EngineEvent) : Reply :=
  match ev with Enters _ _ => EnterReply Panic | Exits _ _ _ => ExitReply Panic end.

Lemma poisoned_run o evs c : poisoned c = true -> engine_run o evs c = (panic_reply <$> evs, c).
Proof.
  intros Hp. induction evs as [|ev evs IH]; [done|]. rewrite engine_run_cons.
  assert (engine_step o ev c = (panic_reply ev, c)) as -> by (destruct ev; cbn; unfold engine_enter, engine_exit, locked; by rewrite Hp).
  cbn [fst snd]. by rewrite IH.
Qed.

(** C39. Settings that the layer accepts and that panic later, for any layer.  In the progressive half-open
    mode, the default, building the service panics exactly when the failure threshold is not in
    [[0, 1)] or the stage duration, which is the break duration unless it was set, is zero; a threshold
    of [1.0], which the layer documents as valid and keeps, is such a threshold.  And in any mode, a result that opens a
    closed circuit when the break duration cannot be added to the clock panics and poisons the
    lock: every later call of that breaker panics. *)
Theorem accepted_settings_that_panic l :
  (forall d, l_half_open_mode l = Progressive d ->
     (layer_engine_options l = Panic <-> threshold_ok (l_failure_threshold l) = false \/ default (l_break_duration l) d <= 0)
     /\ layer_engine_options (set_failure_threshold l f32_one) = Panic)
  /\ forall o health result now health', layer_engine_options l = Ok o ->
     metrics_record (E:=Empty_set) health result now = Ok health' -> status (health_info health') = Unhealthy -> instant_max < now + l_break_duration l ->
     forall evs, engine_run o (Exits result Normal now :: evs) (mkCore (Closed health) false)
       = (panic_reply <$> Exits result Normal now :: evs, mkCore (Closed health') true).
Proof.
  split.
  - intros d Hm. split; [by apply layer_panics|]. apply (layer_panics _ d); [done|]. left. vm_compute. reflexivity.
  - intros o health result now health' Ho Hrec Hun Hbig evs. rewrite engine_run_cons.
    assert (break_duration o = l_break_duration l) as Hb.
    { unfold layer_engine_options in Ho. destruct (to_options _ _ _ _); [|done..]. by injection Ho as <-. }
    assert (engine_step o (Exits result Normal now) (mkCore (Closed health) false) = (ExitReply Panic, mkCore (Closed health') true)) as ->.
    { cbn. unfold engine_exit, locked. cbn. rewrite Hrec, Hun, Hb. unfold instant_add. by rewrite (proj2 (Z.leb_gt _ _)) by lia. }
    cbn [fst snd]. by rewrite poisoned_run.
Qed.

(** A circuit that is to stay open for ever, from the first failure on. *)
Definition for_ever : BreakerLayer := mkLayer DEFAULT_FAILURE_THRESHOLD 1 (from_secs 30) duration_max (half_open_progressive None) policy_default.

Lemma accepted_settings_that_panic_witness : exists o, layer_engine_options for_ever = Ok o
  /\ layer_engine_options (set_failure_threshold for_ever f32_one) = Panic
  /\ (engine_run o [Exits Failure Normal 1; Enters 2 f_zero; Exits Success Normal 3] (engine_new o)).1
     = [ExitReply Panic; EnterReply Panic; ExitReply Panic].
Proof.
  destruct (layer_engine_options for_ever) as [o|e|] eqn:Ho; [|vm_compute in Ho; discriminate Ho..]. exists o. split; [reflexivity|].
  destruct (accepted_settings_that_panic for_ever) as [H1 H2]. split; [apply (H1 None); reflexivity|].
  assert (Hnew : engine_new o = mkCore (Closed (build (builder_new (from_secs 30) DEFAULT_FAILURE_THRESHOLD 1 policy_default))) false).
  { unfold layer_engine_options in Ho. destruct (to_options _ _ _ _); [|discriminate Ho..]. injection Ho as <-. reflexivity. }
  rewrite Hnew. erewrite (H2 o _ Failure 1 _ Ho); [reflexivity|vm_compute; reflexivity|vm_compute; reflexivity|vm_compute; reflexivity].
Defined.
