(* ===== verification/Breaker.v ===== *)
(** * seatbelt: breaker identities, engines and the middleware

    Models, of [src/crates/seatbelt/src/breaker/], [breaker_id.rs], [engine/engines.rs]
    (one engine per identity behind a read-write lock, shared by [Arc]) and [service.rs]
    (what happens before and after the inner service runs, and the guard that reports an
    execution whose future is dropped).

    An [Arc<Engine>] is an index into the list of the engines that were created, so
    sharing is visible.  The inner service is not modelled: a call starts, and later it
    completes with an output or its future is dropped. *)

From S2P Require Import Prelude StdTime Health Engine.

(** ** Identities *)

Inductive BreakerId : Type :=
| IdNumber (n : Z) | IdHashed (hash : Z) (label : string) | IdString (s : string).

#[export] Instance BreakerId_eq_dec : EqDecision BreakerId.
Proof. solve_decision. Defined.

#[export] Instance BreakerId_countable : Countable BreakerId.
Proof.
  refine (inj_countable'
    (fun i => match i with IdNumber n => inl (inl n) | IdHashed h l => inl (inr (h, l)) | IdString s => inr s end)
    (fun x => match x with inl (inl n) => IdNumber n | inl (inr (h, l)) => IdHashed h l | inr s => IdString s end) _).
  by intros [].
Defined.

Definition id_default : BreakerId := IdString "default".

Definition is_default (i : BreakerId) : bool :=
  match i with IdString s => bool_decide (s = "default"%string) | _ => false end.

(** ** The engines *)

Record Engines : Type := mkEngines {
  default_engine : nat;
  engine_map : gmap BreakerId nat;
  heap : list EngineCore;
  engine_options : EngineOptions }.

Definition engines_new (o : EngineOptions) : Engines := mkEngines 0 ∅ [engine_new o] o.

(** The part of [get_engine] before the write lock. *)
Definition get_engine_read (key : BreakerId) (e : Engines) : option nat :=
  if is_default key then Some (default_engine e) else engine_map e !! key.

(** The part under the write lock: [entry(key).or_insert_with(..)]. *)
Definition get_engine_write (key : BreakerId) (e : Engines) : nat * Engines :=
  match engine_map e !! key with
  | Some h => (h, e)
  | None =>
      let h := length (heap e) in
      (h, mkEngines (default_engine e) (<[key := h]> (engine_map e))
            (heap e ++ [engine_new (engine_options e)]) (engine_options e))
  end.

Definition get_engine (key : BreakerId) (e : Engines) : nat * Engines :=
  match get_engine_read key e with
  | Some h => (h, e)
  | None => get_engine_write key e
  end.

(** Runs an operation on the engine behind a handle. *)
Definition with_engine {A} (h : nat) (m : eng EngineCore A) : eng Engines A := fun e =>
  match heap e !! h with
  | None => (Panic, e)
  | Some c =>
      let '(r, c) := m c in
      (r, mkEngines (default_engine e) (engine_map e) (<[h := c]> (heap e)) (engine_options e))
  end.

(** ** The middleware *)

(** The callbacks a user may set. *)
Inductive Callback : Type :=
| OnProbing (id : BreakerId)
| OnOpened (with_output : bool) (id : BreakerId)
| OnClosed (id : BreakerId) (open_duration : Z).

(** One operation on an engine, by which call and for which identity. *)
Record Trace : Type := mkTrace {
  t_call : nat;
  t_id : BreakerId;
  t_engine : nat;
  t_event : EngineEvent;
  t_reply : Reply }.

Record AbandonedGuard : Type := mkGuard {
  g_engine : nat;
  g_id : BreakerId;
  g_mode : ExecutionMode }.

(** The shared part of the service, the guards of the calls in flight (an armed guard is
    one that is in the map), and the record of callbacks and engine operations. *)
Record World : Type := mkWorld {
  engines : Engines;
  in_flight : gmap nat AbandonedGuard;
  callbacks : list Callback;
  trace : list Trace }.

Definition world_new (o : EngineOptions) : World := mkWorld (engines_new o) ∅ [] [].

Definition upd_engines (e : Engines) (w : World) : World := mkWorld e (in_flight w) (callbacks w) (trace w).
Definition add_callback (b : bool) (c : Callback) (w : World) : World :=
  if b then mkWorld (engines w) (in_flight w) (callbacks w ++ [c]) (trace w) else w.
Definition add_trace (t : Trace) (w : World) : World :=
  mkWorld (engines w) (in_flight w) (callbacks w) (trace w ++ [t]).
Definition arm (call : nat) (g : AbandonedGuard) (w : World) : World :=
  mkWorld (engines w) (<[call := g]> (in_flight w)) (callbacks w) (trace w).
Definition disarm (call : nat) (w : World) : World :=
  mkWorld (engines w) (delete call (in_flight w)) (callbacks w) (trace w).

Section service.
Context {In Out : Type}.

(** [BreakerShared]: the user's functions. *)
Record BreakerShared : Type := mkShared {
  recovery : Out -> BreakerId -> RecoveryInfo;
  rejected_input : In -> BreakerId -> Out;
  enable_if : In -> bool;
  id_provider : option (In -> BreakerId);
  on_opened : bool;
  on_closed : bool;
  on_probing : option (In -> BreakerId -> In) }.

Context (shared : BreakerShared).

Definition get_breaker_id (input : In) : BreakerId :=
  match id_provider shared with None => id_default | Some provider => provider input end.

(** What the caller of [execute] sees when the call starts. *)
Inductive Started : Type :=
| Bypassed (input : In)
| Running (input : In)
| RejectedWith (output : Out)
| StartPanicked.

Definition before_execute (call h : nat) (input : In) (id : BreakerId) (now : Z) (sample : spec_float) (w : World)
    : Started * World :=
  let '(r, e) := with_engine h (engine_enter (engine_options (engines w)) now sample) (engines w) in
  let w := add_trace (mkTrace call id h (Enters now sample) (EnterReply r)) (upd_engines e w) in
  match r with
  | Ok (Accepted mode) =>
      let '(input, w) :=
        match mode, on_probing shared with
        | ProbeMode, Some f => (f input id, add_callback true (OnProbing id) w)
        | _, _ => (input, w)
        end in
      (Running input, arm call (mkGuard h id mode) w)
  | Ok Rejected => (RejectedWith (rejected_input shared input id), w)
  | _ => (StartPanicked, w)
  end.

(** [execute] up to the inner service. *)
Definition execute_start (call : nat) (input : In) (now : Z) (sample : spec_float) (w : World) : Started * World :=
  if negb (enable_if shared input) then (Bypassed input, w)
  else
    let id := get_breaker_id input in
    let '(h, e) := get_engine id (engines w) in
    before_execute call h input id now sample (upd_engines e w).

(** [after_execute]; [later] is the second reading of the clock. *)
Definition after_execute (call : nat) (g : AbandonedGuard) (output : Out) (now later : Z) (w : World) : World :=
  let result := from_recovery (recovery shared output (g_id g)) in
  let '(r, e) := with_engine (g_engine g)
                   (engine_exit (engine_options (engines w)) result (g_mode g) now) (engines w) in
  let w := add_trace (mkTrace call (g_id g) (g_engine g) (Exits result (g_mode g) now) (ExitReply r))
             (upd_engines e w) in
  match r with
  | Ok (Opened _) => add_callback (on_opened shared) (OnOpened true (g_id g)) w
  | Ok (ClosedAgain stats) => add_callback (on_closed shared) (OnClosed (g_id g) (opened_duration stats later)) w
  | _ => w
  end.

(** The inner service returned [output]: [guard.complete(&output)]. *)
Definition complete (call : nat) (output : Out) (now later : Z) (w : World) : World :=
  match in_flight w !! call with
  | None => w
  | Some g => after_execute call g output now later (disarm call w)
  end.

(** The future was dropped: the destructor of an armed guard. *)
Definition drop_guard (call : nat) (panicking : bool) (now : Z) (w : World) : World :=
  match in_flight w !! call with
  | None => w
  | Some g =>
      let w := disarm call w in
      if panicking then w
      else
        let '(r, e) := with_engine (g_engine g)
                         (engine_exit (engine_options (engines w)) Abandoned (g_mode g) now) (engines w) in
        let w := add_trace (mkTrace call (g_id g) (g_engine g) (Exits Abandoned (g_mode g) now) (ExitReply r))
                   (upd_engines e w) in
        match r with
        | Ok (Opened _) => add_callback (on_opened shared) (OnOpened false (g_id g)) w
        | _ => w
        end
  end.
End service.
Arguments BreakerShared : clear implicits.

(** ** Histories of a service *)

Inductive ServiceStep (In Out : Type) : Type :=
| Start (call : nat) (input : In) (now : Z) (sample : spec_float)
| Complete (call : nat) (output : Out) (now later : Z)
| Dropped (call : nat) (panicking : bool) (now : Z).
Arguments Start {In Out}. Arguments Complete {In Out}. Arguments Dropped {In Out}.

Definition service_step {In Out} (shared : BreakerShared In Out) (st : ServiceStep In Out) (w : World) : World :=
  match st with
  | Start call input now sample => (execute_start shared call input now sample w).2
  | Complete call output now later => complete shared call output now later w
  | Dropped call panicking now => drop_guard shared call panicking now w
  end.

Definition service_run {In Out} (shared : BreakerShared In Out) (steps : list (ServiceStep In Out)) (w : World)
    : World := foldl (fun w st => service_step shared st w) w steps.

(** *** Engines and their identities *)

(** Every identity has its own engine. *)
Record engines_ok (e : Engines) : Prop := {
  ok_default : default_engine e = 0%nat /\ (0 < length (heap e))%nat;
  ok_range : forall k h, engine_map e !! k = Some h -> (0 < h < length (heap e))%nat;
  ok_inj : forall k k' h, engine_map e !! k = Some h -> engine_map e !! k' = Some h -> k = k';
  ok_keys : forall k h, engine_map e !! k = Some h -> is_default k = false }.

(** The engine of an identity, if it exists already. *)
Abbreviation engine_of k e := (get_engine_read k e) (only parsing).

Lemma is_default_eq k : is_default k = true -> k = id_default.
Proof. destruct k; cbn; try done. intros H%bool_decide_eq_true. by subst. Qed.

Lemma engine_of_inj e k k' h : engines_ok e -> engine_of k e = Some h -> engine_of k' e = Some h -> k = k'.
Proof.
  intros [[Hd _] Hr Hi Hk]. unfold get_engine_read.
  destruct (is_default k) eqn:H1, (is_default k') eqn:H2; intros Ha Hb; simplify_eq.
  - apply is_default_eq in H1, H2. congruence.
  - apply Hr in Hb. lia.
  - apply Hr in Ha. lia.
  - by eapply Hi.
Qed.

Lemma get_engine_write_spec k e : engines_ok e -> is_default k = false ->
  let '(h, e') := get_engine_write k e in
  engines_ok e' /\ engine_of k e' = Some h
  /\ (forall k' h', engine_of k' e = Some h' -> engine_of k' e' = Some h')
  /\ engine_options e' = engine_options e
  /\ (heap e' = heap e \/ (heap e' = heap e ++ [engine_new (engine_options e)] /\ h = length (heap e))).
Proof.
  intros Hok Hk. unfold get_engine_write, get_engine_read. destruct (engine_map e !! k) as [h|] eqn:Hm.
  - rewrite Hk. by split_and!; try left.
  - cbn. rewrite Hk, lookup_insert_eq. destruct Hok as [[Hd Hl] Hr Hi Hks]. split_and!; try done; [|..|by right].
    + split; cbn.
      * rewrite length_app. lia.
      * intros k' h'. rewrite lookup_insert_Some, length_app. intros [[_ <-]|[_ H]]; cbn; [lia|]. apply Hr in H. lia.
      * intros k1 k2 h'. rewrite !lookup_insert_Some.
        intros [[<- <-]|[? H1]] [[<- H2]|[? H2]]; try done; [apply Hr in H2; lia|apply Hr in H1; lia|by eapply Hi].
      * intros k' h'. rewrite lookup_insert_Some. intros [[<- _]|[_ H]]; [done|by eapply Hks].
    + intros k' h'. destruct (is_default k'); [done|]. intros H. rewrite lookup_insert_ne; [done|]. congruence.
Qed.

Lemma engines_new_ok o : engines_ok (engines_new o).
Proof. split; cbn; try (intros *; rewrite lookup_empty; done). lia. Qed.

(** One atomic part of a [get_engine] call: the read, or the write after a read that
    found nothing. *)
Inductive GetStep : Type := GetRead (k : BreakerId) | GetWrite (k : BreakerId).

Fixpoint get_run (steps : list GetStep) (e : Engines) : list (BreakerId * nat) :=
  match steps with
  | [] => []
  | GetRead k :: steps' =>
      match get_engine_read k e with
      | Some h => (k, h) :: get_run steps' e
      | None => get_run steps' e
      end
  | GetWrite k :: steps' => let '(h, e) := get_engine_write k e in (k, h) :: get_run steps' e
  end.

Definition get_step_ok (s : GetStep) : bool := match s with GetRead _ => true | GetWrite k => negb (is_default k) end.

Lemma get_run_stable steps e : engines_ok e -> forallb get_step_ok steps = true ->
  exists e', engines_ok e' /\ (forall k h, engine_of k e = Some h -> engine_of k e' = Some h)
    /\ Forall (fun x => engine_of x.1 e' = Some x.2) (get_run steps e).
Proof.
  revert e; induction steps as [|[k|k] steps IH]; intros e Hok Hs; cbn [get_run].
  - by exists e.
  - destruct (IH e Hok Hs) as (e' & H1 & H2 & H3). exists e'. split_and!; try done.
    destruct (get_engine_read k e) as [h|] eqn:Hh; [|done]. constructor; [by apply H2|done].
  - cbn [forallb get_step_ok] in Hs. apply andb_true_iff in Hs as [Hk%negb_true_iff Hs].
    pose proof (get_engine_write_spec k e Hok Hk) as Hw. destruct (get_engine_write k e) as [h e1].
    destruct Hw as (H1 & H2 & H3 & _). destruct (IH e1 H1 Hs) as (e' & H4 & H5 & H6).
    exists e'. split_and!; [done|by eauto|]. constructor; [by apply H5|done].
Qed.

(** *** Every engine sees exactly the operations of its identity *)

Definition of_engine (h : nat) (w : World) : list Trace := filter (fun t => t_engine t = h) (trace w).

Record world_inv (o : EngineOptions) (w : World) : Prop := {
  wi_engines : engines_ok (engines w);
  wi_options : engine_options (engines w) = o;
  wi_heap : forall h c, heap (engines w) !! h = Some c ->
    engine_run o (t_event <$> of_engine h w) (engine_new o) = (t_reply <$> of_engine h w, c);
  wi_trace : forall t, t ∈ trace w -> engine_of (t_id t) (engines w) = Some (t_engine t);
  wi_guards : forall call g, in_flight w !! call = Some g -> engine_of (g_id g) (engines w) = Some (g_engine g) }.

Lemma engine_run_snoc o evs ev c :
  engine_run o (evs ++ [ev]) c
  = ((engine_run o evs c).1 ++ [(engine_step o ev (engine_run o evs c).2).1],
     (engine_step o ev (engine_run o evs c).2).2).
Proof.
  revert c; induction evs as [|e evs IH]; intros c; cbn [app]; rewrite !engine_run_cons; [done|].
  by rewrite IH.
Qed.

Lemma engine_in_heap e k h : engines_ok e -> engine_of k e = Some h -> exists c, heap e !! h = Some c.
Proof.
  intros [[Hd Hl] Hr _ _]. unfold get_engine_read. intros H. apply lookup_lt_is_Some.
  destruct (is_default k); simplify_eq; [lia|]. apply Hr in H. lia.
Qed.

(** The world after one operation on an engine. *)
Definition perform (call : nat) (id : BreakerId) (h : nat) (ev : EngineEvent) (r : Reply) (c : EngineCore) (w : World)
    : World :=
  let e := engines w in
  add_trace (mkTrace call id h ev r)
    (upd_engines (mkEngines (default_engine e) (engine_map e) (<[h := c]> (heap e)) (engine_options e)) w).

Lemma perform_inv o w call id h ev c :
  world_inv o w -> engine_of id (engines w) = Some h -> heap (engines w) !! h = Some c ->
  world_inv o (perform call id h ev (engine_step o ev c).1 (engine_step o ev c).2 w).
Proof.
  intros [Hok Ho Hh Ht Hg] Hid Hc. unfold perform. split; cbn.
  - destruct Hok as [Hd Hr Hi Hk]. split; cbn; [by rewrite length_insert|intros k h'; rewrite length_insert; apply Hr|done|done].
  - done.
  - intros h' c'. unfold of_engine. cbn. rewrite filter_app, list_lookup_insert_Some.
    intros [(<- & <- & _)|[Hne Hc']].
    + rewrite filter_cons_True, filter_nil, !fmap_app by done. cbn. rewrite engine_run_snoc.
      specialize (Hh h c Hc). unfold of_engine in Hh. by rewrite Hh.
    + rewrite filter_cons_False, filter_nil, app_nil_r by done. by apply Hh.
  - intros t [H|H%list_elem_of_singleton]%elem_of_app; [by apply Ht|by subst].
  - done.
Qed.

Lemma with_engine_perform {A} h (m : eng EngineCore A) c e :
  heap e !! h = Some c ->
  with_engine h m e
  = ((m c).1, mkEngines (default_engine e) (engine_map e) (<[h := (m c).2]> (heap e)) (engine_options e)).
Proof. intros H. unfold with_engine. rewrite H. by destruct (m c). Qed.

Lemma callback_inv o w b cb : world_inv o w -> world_inv o (add_callback b cb w).
Proof. intros [? ? ? ? ?]. unfold add_callback. destruct b; by split. Qed.

Lemma disarm_inv o w call : world_inv o w -> world_inv o (disarm call w).
Proof.
  intros [? ? ? ? Hg]. split; cbn; try done. intros c g. rewrite lookup_delete_Some. intros [_ H]. by eapply Hg.
Qed.

Lemma arm_inv o w call g : world_inv o w -> engine_of (g_id g) (engines w) = Some (g_engine g) ->
  world_inv o (arm call g w).
Proof.
  intros [? ? ? ? Hg] H. split; cbn; try done. intros c g'. rewrite lookup_insert_Some.
  intros [[_ <-]|[_ H']]; [done|by eapply Hg].
Qed.

Lemma get_engine_inv o w k : world_inv o w ->
  world_inv o (upd_engines (get_engine k (engines w)).2 w)
  /\ engine_of k (get_engine k (engines w)).2 = Some (get_engine k (engines w)).1.
Proof.
  intros [Hok Ho Hh Ht Hg]. unfold get_engine. destruct (get_engine_read k (engines w)) as [h|] eqn:Hr; [by split|].
  assert (Hk : is_default k = false) by (unfold get_engine_read in Hr; by destruct (is_default k)).
  pose proof (get_engine_write_spec k (engines w) Hok Hk) as Hw.
  destruct (get_engine_write k (engines w)) as [h e']. cbn [fst snd].
  destruct Hw as (H1 & H2 & H3 & H4 & H5). split; [|done]. split; cbn; [done|congruence| | |].
  - intros h' c. destruct H5 as [->|[-> ->]]; [by apply Hh|].
    rewrite lookup_app_Some, list_lookup_singleton_Some. intros [H|[Hge [H0 <-]]]; [by apply Hh|].
    assert (h' = length (heap (engines w))) as -> by lia.
    assert (Hnil : filter (fun t => t_engine t = length (heap (engines w))) (trace w) = []);
      [|unfold of_engine; cbn [trace upd_engines]; by rewrite Hnil, Ho].
    apply filter_none, Forall_forall. intros t Hin Heq. specialize (Ht t Hin).
    destruct (engine_in_heap _ _ _ Hok Ht) as [c' Hc']. apply lookup_lt_Some in Hc'. lia.
  - intros t Hin. by apply H3, Ht.
  - intros call g Hcg. by eapply H3, Hg.
Qed.

(** The four ways in which the middleware changes the world. *)
Section steps.
Context {In Out : Type} (shared : BreakerShared In Out) (o : EngineOptions).

Lemma before_execute_inv call h input id now sample w :
  world_inv o w -> engine_of id (engines w) = Some h ->
  world_inv o (before_execute shared call h input id now sample w).2.
Proof.
  intros Hinv Hid. destruct (engine_in_heap _ _ _ (wi_engines _ _ Hinv) Hid) as [c Hc].
  pose proof (perform_inv o w call id h (Enters now sample) c Hinv Hid Hc) as Hp.
  unfold before_execute. rewrite (with_engine_perform _ _ _ _ Hc), (wi_options _ _ Hinv).
  unfold engine_step in Hp. destruct (engine_enter o now sample c) as [r c']. cbn [fst snd] in *.
  unfold perform in Hp. rewrite (wi_options _ _ Hinv) in Hp.
  destruct r as [[mode|]| |]; try done. destruct mode; [by apply arm_inv|].
  destruct (on_probing shared); [|by apply arm_inv]. apply arm_inv; [by apply (callback_inv _ _ true)|done].
Qed.

Lemma execute_start_inv call input now sample w :
  world_inv o w -> world_inv o (execute_start shared call input now sample w).2.
Proof.
  intros Hinv. unfold execute_start. destruct (negb _); [done|].
  destruct (get_engine_inv o w (get_breaker_id shared input) Hinv) as [H1 H2].
  destruct (get_engine (get_breaker_id shared input) (engines w)) as [h e]. cbn [fst snd] in *.
  by apply before_execute_inv.
Qed.

Lemma exit_inv call g result now w :
  world_inv o w -> engine_of (g_id g) (engines w) = Some (g_engine g) ->
  exists c, heap (engines w) !! g_engine g = Some c
    /\ world_inv o (perform call (g_id g) (g_engine g) (Exits result (g_mode g) now)
                      (ExitReply (engine_exit o result (g_mode g) now c).1)
                      (engine_exit o result (g_mode g) now c).2 w).
Proof.
  intros Hinv Hid. destruct (engine_in_heap _ _ _ (wi_engines _ _ Hinv) Hid) as [c Hc]. exists c. split; [done|].
  pose proof (perform_inv o w call (g_id g) _ (Exits result (g_mode g) now) c Hinv Hid Hc) as Hp.
  unfold engine_step in Hp. by destruct (engine_exit o result (g_mode g) now c).
Qed.

Lemma complete_inv call output now later w :
  world_inv o w -> world_inv o (complete shared call output now later w).
Proof.
  intros Hinv. unfold complete. destruct (in_flight w !! call) as [g|] eqn:Hg; [|done].
  pose proof (disarm_inv o w call Hinv) as Hd. pose proof (wi_guards _ _ Hinv _ _ Hg) as Hid. unfold after_execute.
  set (result := from_recovery _).
  destruct (exit_inv call g result now (disarm call w) Hd Hid) as (c & Hc & Hp).
  rewrite (with_engine_perform _ _ _ _ Hc), (wi_options _ _ Hd). unfold perform in Hp.
  rewrite (wi_options _ _ Hd) in Hp.
  destruct (engine_exit o result (g_mode g) now c) as [[[]| |] c']; cbn [fst snd] in *; try done; by apply callback_inv.
Qed.

Lemma drop_inv call panicking now w : world_inv o w -> world_inv o (drop_guard shared call panicking now w).
Proof.
  intros Hinv. unfold drop_guard. destruct (in_flight w !! call) as [g|] eqn:Hg; [|done].
  pose proof (disarm_inv o w call Hinv) as Hd. pose proof (wi_guards _ _ Hinv _ _ Hg) as Hid.
  destruct panicking; [done|].
  destruct (exit_inv call g Abandoned now (disarm call w) Hd Hid) as (c & Hc & Hp).
  rewrite (with_engine_perform _ _ _ _ Hc), (wi_options _ _ Hd). unfold perform in Hp.
  rewrite (wi_options _ _ Hd) in Hp.
  destruct (engine_exit o Abandoned (g_mode g) now c) as [[[]| |] c']; cbn [fst snd] in *; try done; by apply callback_inv.
Qed.

Lemma service_inv steps w : world_inv o w -> world_inv o (service_run shared steps w).
Proof.
  revert w; induction steps as [|st steps IH]; intros w Hinv; [done|]. cbn. apply IH.
  destruct st; cbn; [by apply execute_start_inv|by apply complete_inv|by apply drop_inv].
Qed.
End steps.

Lemma world_new_inv o : world_inv o (world_new o).
Proof.
  split; cbn; [apply engines_new_ok|done| | |].
  - intros h c. rewrite list_lookup_singleton_Some. by intros [-> <-].
  - intros t []%not_elem_of_nil.
  - intros call g. by rewrite lookup_empty.
Qed.

(** *** Every admitted call reports exactly one result *)

Definition of_call (call : nat) (w : World) : list Trace := filter (fun t => t_call t = call) (trace w).

(** What an engine may have been asked by one call, and the guard the call holds; [unwound]: the future was
    dropped by an unwinding thread. *)
Inductive call_history (unwound : bool) : list Trace -> option AbandonedGuard -> Prop :=
| history_none : call_history unwound [] None
| history_refused t now sample :
    t_event t = Enters now sample -> (forall mode, t_reply t <> EnterReply (Ok (Accepted mode))) ->
    call_history unwound [t] None
| history_running t now sample g :
    t_event t = Enters now sample -> t_reply t = EnterReply (Ok (Accepted (g_mode g))) ->
    t_engine t = g_engine g -> t_id t = g_id g -> call_history unwound [t] (Some g)
| history_finished t t' now sample now' result mode :
    t_event t = Enters now sample -> t_reply t = EnterReply (Ok (Accepted mode)) ->
    t_event t' = Exits result mode now' -> t_engine t' = t_engine t -> t_id t' = t_id t ->
    call_history unwound [t; t'] None
| history_unwound t now sample mode : unwound = true ->
    t_event t = Enters now sample -> t_reply t = EnterReply (Ok (Accepted mode)) -> call_history unwound [t] None.

Definition starts {In Out} (steps : list (ServiceStep In Out)) : list nat :=
  omap (fun st => match st with Start call _ _ _ => Some call | _ => None end) steps.

(** The future of [call] is dropped by an unwinding thread. *)
Definition unwinds {In Out} (call : nat) (st : ServiceStep In Out) : bool :=
  match st with Dropped call' panicking _ => (call' =? call)%nat && panicking | _ => false end.

Section histories.
Context (unwound : nat -> bool).

Record calls_inv (started : list nat) (w : World) : Prop := {
  ci_history : forall call, call_history (unwound call) (of_call call w) (in_flight w !! call);
  ci_fresh : forall call, call ∉ started -> of_call call w = [] /\ in_flight w !! call = None }.

Lemma of_call_perform call' call id h ev r c w :
  of_call call' (perform call id h ev r c w)
  = of_call call' w ++ (if decide (call = call') then [mkTrace call id h ev r] else []).
Proof. unfold of_call, perform. cbn. rewrite filter_app. f_equal. Qed.

Lemma of_call_callback call b cb w : of_call call (add_callback b cb w) = of_call call w.
Proof. by destruct b. Qed.

Lemma in_flight_callback b cb w : in_flight (add_callback b cb w) = in_flight w.
Proof. by destruct b. Qed.

(** A guarded call reports its result. *)
Lemma finish_calls started w call g result now r c :
  calls_inv started w -> in_flight w !! call = Some g ->
  calls_inv started (perform call (g_id g) (g_engine g) (Exits result (g_mode g) now) r c (disarm call w)).
Proof.
  intros [Hh Hf] Hg. split.
  - intros call'. rewrite of_call_perform. cbn [perform add_trace upd_engines disarm in_flight].
    change (of_call call' (disarm call w)) with (of_call call' w).
    destruct (decide (call = call')) as [<-|Hne].
    + rewrite lookup_delete_eq. specialize (Hh call). rewrite Hg in Hh. inversion Hh; subst.
      eapply history_finished; cbn; try done; congruence.
    + rewrite lookup_delete_ne, app_nil_r by done. apply Hh.
  - intros call' Hn. rewrite of_call_perform. destruct (Hf call' Hn) as [H1 H2].
    destruct (decide (call = call')) as [<-|Hne]; [by rewrite Hg in H2|].
    cbn. rewrite lookup_delete_ne, app_nil_r by done. done.
Qed.

Lemma callback_calls started b cb w : calls_inv started w -> calls_inv started (add_callback b cb w).
Proof.
  intros [Hh Hf]. split; intros call; rewrite of_call_callback, in_flight_callback; [apply Hh|apply Hf].
Qed.

(** A new call enters the engine. *)
Lemma refused_calls started w call id h now sample r c :
  calls_inv started w -> call ∉ started -> (forall mode, r <> EnterReply (Ok (Accepted mode))) ->
  calls_inv (call :: started) (perform call id h (Enters now sample) r c w).
Proof.
  intros [Hh Hf] Hn Hr. destruct (Hf call Hn) as [H1 H2]. split; intros call'; rewrite of_call_perform; cbn [perform add_trace upd_engines in_flight].
  - destruct (decide (call = call')) as [<-|Hne]; [|rewrite app_nil_r; apply Hh].
    rewrite H1, H2. by eapply history_refused.
  - intros [Hc Hs]%not_elem_of_cons. destruct (Hf call' Hs) as [-> ->].
    destruct (decide (call = call')); [congruence|done].
Qed.

Lemma admitted_calls started w call id h now sample mode c :
  calls_inv started w -> call ∉ started ->
  calls_inv (call :: started)
    (arm call (mkGuard h id mode) (perform call id h (Enters now sample) (EnterReply (Ok (Accepted mode))) c w)).
Proof.
  intros [Hh Hf] Hn. destruct (Hf call Hn) as [H1 H2].
  split; intros call'; change (of_call call' (arm call (mkGuard h id mode) ?w)) with (of_call call' w);
    rewrite of_call_perform; cbn [arm perform add_trace upd_engines in_flight].
  - destruct (decide (call = call')) as [<-|Hne].
    + rewrite H1, lookup_insert_eq. by eapply history_running.
    + rewrite app_nil_r, lookup_insert_ne by done. apply Hh.
  - intros [Hc Hs]%not_elem_of_cons. destruct (Hf call' Hs) as [-> Hfl].
    rewrite lookup_insert_ne by congruence. destruct (decide (call = call')); [congruence|done].
Qed.

(** An unwinding thread drops a guarded call, which reports nothing. *)
Lemma unwound_calls started w call : calls_inv started w -> unwound call = true -> calls_inv started (disarm call w).
Proof.
  intros [Hh Hf] Hu. split; intros call'; change (of_call call' (disarm call w)) with (of_call call' w); cbn [disarm in_flight].
  - destruct (decide (call = call')) as [<-|Hne]; [|rewrite lookup_delete_ne by done; apply Hh]. rewrite lookup_delete_eq.
    specialize (Hh call). inversion Hh; subst; by econstructor.
  - intros Hn. destruct (Hf call' Hn) as [-> Hg]. split; [done|]. destruct (decide (call = call')) as [<-|Hne]; [apply lookup_delete_eq|by rewrite lookup_delete_ne].
Qed.
End histories.

Section protocol.
Context {In Out : Type} (shared : BreakerShared In Out) (o : EngineOptions) (unwound : nat -> bool).
Abbreviation calls_inv := (calls_inv unwound).

(** Whether the probing callback runs. *)
Definition probing (mode : ExecutionMode) : bool :=
  match mode, on_probing shared with ProbeMode, Some _ => true | _, _ => false end.

Lemma before_execute_eq call h input id now sample w c :
  world_inv o w -> heap (engines w) !! h = Some c ->
  let '(r, c') := engine_enter o now sample c in
  let w' := perform call id h (Enters now sample) (EnterReply r) c' w in
  (before_execute shared call h input id now sample w).2
  = match r with
    | Ok (Accepted mode) => add_callback (probing mode) (OnProbing id) (arm call (mkGuard h id mode) w')
    | _ => w'
    end.
Proof.
  intros Hinv Hc. unfold before_execute. rewrite (with_engine_perform _ _ _ _ Hc), (wi_options _ _ Hinv).
  unfold perform, probing. rewrite (wi_options _ _ Hinv).
  destruct (engine_enter o now sample c) as [[[mode|]| |] c']; cbn [fst snd]; try done.
  destruct mode; [done|]. by destruct (on_probing shared).
Qed.

Lemma start_calls started call input now sample w :
  world_inv o w -> calls_inv started w -> call ∉ started ->
  calls_inv (call :: started) (execute_start shared call input now sample w).2.
Proof.
  intros Hinv Hc Hn. unfold execute_start. destruct (negb _).
  { destruct Hc as [Hh Hf]. split; [done|]. intros c Hc. apply Hf. set_solver. }
  destruct (get_engine_inv o w (get_breaker_id shared input) Hinv) as [Hw Hid].
  destruct (get_engine (get_breaker_id shared input) (engines w)) as [h e]. cbn [fst snd] in *.
  assert (Hc' : calls_inv started (upd_engines e w)) by by destruct Hc.
  destruct (engine_in_heap _ _ _ (wi_engines _ _ Hw) Hid) as [c Hcore].
  pose proof (before_execute_eq call h input (get_breaker_id shared input) now sample _ c Hw Hcore) as Heq.
  destruct (engine_enter o now sample c) as [r c']. rewrite Heq.
  destruct r as [[mode|]| |]; [|by apply refused_calls..]. by apply callback_calls, admitted_calls.
Qed.

Lemma complete_eq call output now later w g :
  world_inv o w -> in_flight w !! call = Some g ->
  exists c, heap (engines w) !! g_engine g = Some c /\
  let result := from_recovery (recovery shared output (g_id g)) in
  let '(r, c') := engine_exit o result (g_mode g) now c in
  let w' := perform call (g_id g) (g_engine g) (Exits result (g_mode g) now) (ExitReply r) c' (disarm call w) in
  complete shared call output now later w
  = match r with
    | Ok (Opened _) => add_callback (on_opened shared) (OnOpened true (g_id g)) w'
    | Ok (ClosedAgain stats) => add_callback (on_closed shared) (OnClosed (g_id g) (opened_duration stats later)) w'
    | _ => w'
    end.
Proof.
  intros Hinv Hg. pose proof (wi_guards _ _ Hinv _ _ Hg) as Hid.
  destruct (engine_in_heap _ _ _ (wi_engines _ _ Hinv) Hid) as [c Hc]. exists c. split; [done|].
  unfold complete. rewrite Hg. unfold after_execute. cbv zeta.
  rewrite (with_engine_perform _ _ c) by done. cbn [disarm engines]. rewrite (wi_options _ _ Hinv).
  unfold perform. cbn [disarm engines]. rewrite (wi_options _ _ Hinv).
  by destruct (engine_exit o _ (g_mode g) now c) as [[[]| |] c'].
Qed.

Lemma drop_eq call now w g :
  world_inv o w -> in_flight w !! call = Some g ->
  exists c, heap (engines w) !! g_engine g = Some c /\
  let '(r, c') := engine_exit o Abandoned (g_mode g) now c in
  let w' := perform call (g_id g) (g_engine g) (Exits Abandoned (g_mode g) now) (ExitReply r) c' (disarm call w) in
  drop_guard shared call false now w
  = match r with
    | Ok (Opened _) => add_callback (on_opened shared) (OnOpened false (g_id g)) w'
    | _ => w'
    end.
Proof.
  intros Hinv Hg. pose proof (wi_guards _ _ Hinv _ _ Hg) as Hid.
  destruct (engine_in_heap _ _ _ (wi_engines _ _ Hinv) Hid) as [c Hc]. exists c. split; [done|].
  unfold drop_guard. rewrite Hg. cbv zeta.
  rewrite (with_engine_perform _ _ c) by done. cbn [disarm engines]. rewrite (wi_options _ _ Hinv).
  unfold perform. cbn [disarm engines]. rewrite (wi_options _ _ Hinv).
  by destruct (engine_exit o Abandoned (g_mode g) now c) as [[[]| |] c'].
Qed.

Lemma complete_calls started call output now later w :
  world_inv o w -> calls_inv started w -> calls_inv started (complete shared call output now later w).
Proof.
  intros Hinv Hc. destruct (in_flight w !! call) as [g|] eqn:Hg; [|unfold complete; by rewrite Hg].
  destruct (complete_eq call output now later w g Hinv Hg) as (c & _ & Heq). cbv zeta in Heq.
  destruct (engine_exit o _ (g_mode g) now c) as [r c']. rewrite Heq.
  destruct r as [[]| |]; try apply callback_calls; by apply finish_calls.
Qed.

Lemma drop_calls started call now w :
  world_inv o w -> calls_inv started w -> calls_inv started (drop_guard shared call false now w).
Proof.
  intros Hinv Hc. destruct (in_flight w !! call) as [g|] eqn:Hg; [|unfold drop_guard; by rewrite Hg].
  destruct (drop_eq call now w g Hinv Hg) as (c & _ & Heq). cbv zeta in Heq.
  destruct (engine_exit o _ (g_mode g) now c) as [r c']. rewrite Heq.
  destruct r as [[]| |]; try apply callback_calls; by apply finish_calls.
Qed.

Lemma service_calls steps started w :
  world_inv o w -> calls_inv started w -> NoDup (starts steps) -> (forall c, c ∈ starts steps -> c ∉ started) ->
  (forall call now, Dropped call true now ∈ steps -> unwound call = true) ->
  exists started', calls_inv started' (service_run shared steps w).
Proof.
  revert started w; induction steps as [|st steps IH]; intros started w Hinv Hc Hnd Hfr Hun; [by exists started|].
  assert (Hun' : forall call now, Dropped call true now ∈ steps -> unwound call = true) by (intros call now Hin; apply (Hun call now); set_solver).
  assert (Hinv' : world_inv o (service_step shared st w)).
  { apply (service_inv shared o [st]). done. }
  cbn. destruct st as [call input now sample|call output now later|call panicking now]; cbn in *.
  - apply NoDup_cons in Hnd as [Hn1 Hnd]. eapply IH; [done|apply start_calls; [done|done|apply Hfr; set_solver]|done| |done].
    intros c Hin. specialize (Hfr c). set_solver.
  - eapply IH; [done|by apply complete_calls|done..].
  - eapply IH; [done| |done..]. destruct panicking; [|by apply drop_calls]. unfold drop_guard. destruct (in_flight w !! call); [|done].
    apply unwound_calls; [done|]. apply (Hun call now). set_solver.
Qed.
End protocol.

(** *** The callbacks report the transitions *)

(** A callback without the time it reports. *)
Definition forget_time (c : Callback) : Callback :=
  match c with OnClosed id _ => OnClosed id 0 | _ => c end.

(** The callbacks that one operation on an engine calls for. *)
Definition expected {In Out} (shared : BreakerShared In Out) (t : Trace) : list Callback :=
  match t_event t, t_reply t with
  | Enters _ _, EnterReply (Ok (Accepted mode)) => if probing shared mode then [OnProbing (t_id t)] else []
  | Exits result _ _, ExitReply (Ok (Opened _)) =>
      if on_opened shared then [OnOpened (bool_decide (result <> Abandoned)) (t_id t)] else []
  | Exits _ _ _, ExitReply (Ok (ClosedAgain _)) => if on_closed shared then [OnClosed (t_id t) 0] else []
  | _, _ => []
  end.

Definition callbacks_ok {In Out} (shared : BreakerShared In Out) (w : World) : Prop :=
  forget_time <$> callbacks w = mjoin (expected shared <$> trace w).

(** An abandoned result never closes a circuit. *)
Lemma abandoned_never_closes o mode now c stats :
  (engine_exit o Abandoned mode now c).1 <> Ok (ClosedAgain stats).
Proof.
  unfold engine_exit, locked. destruct (poisoned c); [done|].
  destruct (state c) as [h|until st|p st]; cbn [exit].
  - case_bool_decide; [done|]. destruct (metrics_record h Abandoned now) as [m| |]; [|done..].
    destruct (status (health_info m)); [done|]. by destruct (instant_add now (break_duration o)).
  - done.
  - case_bool_decide; [done|]. destruct (probes_record_remaining Abandoned now p) as [_ Hr].
    destruct (probes_record Abandoned now p) as [[[| |]| |] p']; try done; [by destruct Hr|].
    by destruct (instant_add now (break_duration o)).
Qed.

Lemma from_recovery_completed r : from_recovery r <> Abandoned.
Proof. unfold from_recovery. by destruct (recovery_kind r). Qed.

Section callbacks.
Context {In Out : Type} (shared : BreakerShared In Out) (o : EngineOptions).

Lemma callbacks_perform w call id h ev r c :
  callbacks_ok shared w -> expected shared (mkTrace call id h ev r) = [] ->
  callbacks_ok shared (perform call id h ev r c w).
Proof.
  unfold callbacks_ok. cbn. intros -> He. rewrite fmap_app, join_app. cbn. by rewrite He, app_nil_r.
Qed.

Lemma callbacks_add w call id h ev r c (b : bool) cb :
  callbacks_ok shared w -> expected shared (mkTrace call id h ev r) = (if b then [forget_time cb] else []) ->
  callbacks_ok shared (add_callback b cb (perform call id h ev r c w)).
Proof.
  intros Hw He. destruct b; [|by apply callbacks_perform]. unfold callbacks_ok in *. cbn in *.
  rewrite !fmap_app, join_app, Hw. cbn. by rewrite He, app_nil_r.
Qed.

Lemma callbacks_arm (b : bool) cb call g w :
  callbacks_ok shared (add_callback b cb w) -> callbacks_ok shared (add_callback b cb (arm call g w)).
Proof. by destruct b. Qed.

Lemma start_callbacks call input now sample w :
  world_inv o w -> callbacks_ok shared w -> callbacks_ok shared (execute_start shared call input now sample w).2.
Proof.
  intros Hinv Hw. unfold execute_start. destruct (negb _); [done|].
  destruct (get_engine_inv o w (get_breaker_id shared input) Hinv) as [Hw' Hid].
  destruct (get_engine (get_breaker_id shared input) (engines w)) as [h e]. cbn [fst snd] in *.
  destruct (engine_in_heap _ _ _ (wi_engines _ _ Hw') Hid) as [c Hcore].
  pose proof (before_execute_eq shared o call h input (get_breaker_id shared input) now sample _ c Hw' Hcore) as Heq.
  destruct (engine_enter o now sample c) as [r c']. rewrite Heq.
  destruct r as [[mode|]| |]; [|by apply callbacks_perform..].
  apply callbacks_arm. by apply (callbacks_add (upd_engines e w)).
Qed.

Lemma complete_callbacks call output now later w :
  world_inv o w -> callbacks_ok shared w -> callbacks_ok shared (complete shared call output now later w).
Proof.
  intros Hinv Hw. destruct (in_flight w !! call) as [g|] eqn:Hg; [|unfold complete; by rewrite Hg].
  destruct (complete_eq shared o call output now later w g Hinv Hg) as (c & _ & Heq). cbv zeta in Heq.
  pose proof (from_recovery_completed (recovery shared output (g_id g))) as Hr.
  destruct (engine_exit o _ (g_mode g) now c) as [r c']. rewrite Heq.
  destruct r as [[]| |]; first [by apply callbacks_perform | apply callbacks_add; [done|]; cbn;
    try rewrite bool_decide_eq_true_2 by done; done].
Qed.

Lemma drop_callbacks call panicking now w :
  world_inv o w -> callbacks_ok shared w -> callbacks_ok shared (drop_guard shared call panicking now w).
Proof.
  intros Hinv Hw. destruct (in_flight w !! call) as [g|] eqn:Hg; [|unfold drop_guard; by rewrite Hg].
  destruct panicking; [unfold drop_guard; by rewrite Hg|].
  destruct (drop_eq shared o call now w g Hinv Hg) as (c & _ & Heq). cbv zeta in Heq.
  pose proof (abandoned_never_closes o (g_mode g) now c) as Hn.
  destruct (engine_exit o Abandoned (g_mode g) now c) as [r c']. rewrite Heq. cbn [fst] in Hn.
  destruct r as [[| | |stats]| |]; [by apply callbacks_perform|by apply callbacks_add|by apply callbacks_perform|
    by destruct (Hn stats)|by apply callbacks_perform|by apply callbacks_perform].
Qed.

Lemma service_callbacks steps w :
  world_inv o w -> callbacks_ok shared w -> callbacks_ok shared (service_run shared steps w).
Proof.
  revert w; induction steps as [|st steps IH]; intros w Hinv Hw; [done|].
  assert (Hinv' : world_inv o (service_step shared st w)) by by apply (service_inv shared o [st]).
  cbn. apply IH; [done|]. destruct st; cbn; [by apply start_callbacks|by apply complete_callbacks|by apply drop_callbacks].
Qed.
End callbacks.

(** ** The properties *)

(** Every breaker identity has one engine of its own, in every interleaving of the
    read and write sections of concurrent [get_engine] calls: two calls get the same
    engine exactly when they ask for the same identity. *)
Theorem engines_one_per_identity o steps i j k k' h h' :
  forallb get_step_ok steps = true ->
  get_run steps (engines_new o) !! i = Some (k, h) ->
  get_run steps (engines_new o) !! j = Some (k', h') ->
  h = h' <-> k = k'.
Proof.
  intros Hs Hi Hj. destruct (get_run_stable steps (engines_new o) (engines_new_ok o) Hs) as (e & Hok & _ & Hall).
  rewrite Forall_forall in Hall.
  pose proof (Hall _ (list_elem_of_lookup_2 _ _ _ Hi)) as H1. pose proof (Hall _ (list_elem_of_lookup_2 _ _ _ Hj)) as H2.
  cbn in H1, H2. split; [|intros ->; congruence]. intros ->. by eapply engine_of_inj.
Qed.

Definition demo_race : list GetStep :=
  [GetRead (IdNumber 1); GetRead (IdNumber 1); GetWrite (IdNumber 1); GetRead id_default; GetWrite (IdNumber 1);
   GetWrite (IdString "a")].

Lemma engines_one_per_identity_witness : (1 = 1)%nat <-> IdNumber 1 = IdNumber 1.
Proof.
  apply (engines_one_per_identity demo_options demo_race 0 2 (IdNumber 1) (IdNumber 1) 1 1); vm_compute; reflexivity.
Defined.

(** C30. The middleware refines the engine: after any history of calls, completions and
    dropped futures, the engine of each identity is in exactly the state, and has given
    exactly the replies, of an engine that ran the operations of that identity's own calls
    in order and nothing else. *)
Theorem service_refines_engines {In Out} (shared : BreakerShared In Out) o steps k h :
  let w := service_run shared steps (world_new o) in
  engine_of k (engines w) = Some h ->
  exists c, heap (engines w) !! h = Some c
    /\ engine_run o (t_event <$> filter (fun t => t_id t = k) (trace w)) (engine_new o)
       = (t_reply <$> filter (fun t => t_id t = k) (trace w), c).
Proof.
  intros w Hk. pose proof (service_inv shared o steps _ (world_new_inv o)) as Hinv. fold w in Hinv.
  destruct (engine_in_heap _ _ _ (wi_engines _ _ Hinv) Hk) as [c Hc]. exists c. split; [done|].
  assert (Hf : filter (fun t => t_id t = k) (trace w) = filter (fun t => t_engine t = h) (trace w)).
  { apply filter_equiv, Forall_forall. intros t Ht. pose proof (wi_trace _ _ Hinv t Ht) as Hid. split.
    - intros <-. congruence.
    - intros <-. by eapply engine_of_inj; [apply Hinv| |]. }
  rewrite Hf. exact (wi_heap _ _ Hinv h c Hc).
Qed.

(** A service whose outputs are their own success, with one breaker per even or odd input. *)
Definition demo_shared : BreakerShared Z bool :=
  mkShared (fun ok _ => if ok : bool then recovery_never else recovery_retry) (fun _ _ => false) (fun _ => true)
    (Some (fun n => IdNumber (n mod 2))) true true None.

Definition demo_steps : list (ServiceStep Z bool) :=
  [Start 0 7 0 f_zero; Start 1 8 1 f_zero; Complete 0 false 2 2; Dropped 1 false 3; Start 2 9 4 f_zero].

Lemma service_refines_engines_witness :
  let w := service_run demo_shared demo_steps (world_new demo_options) in
  exists c, heap (engines w) !! 1%nat = Some c
    /\ engine_run demo_options (t_event <$> filter (fun t => t_id t = IdNumber 1) (trace w)) (engine_new demo_options)
       = (t_reply <$> filter (fun t => t_id t = IdNumber 1) (trace w), c).
Proof.
  apply (service_refines_engines demo_shared demo_options demo_steps (IdNumber 1) 1). vm_compute. reflexivity.
Defined.

(** C32. The guard: in any history, every call that an engine admitted has reported exactly one
    result to that engine, with the mode it was admitted with, or is still running, or its
    future was dropped by an unwinding thread, and then it has reported no or one result; a call that
    was not admitted reports nothing. *)
Theorem admitted_calls_exit_once {In Out} (shared : BreakerShared In Out) o steps call :
  NoDup (starts steps) ->
  let w := service_run shared steps (world_new o) in
  call_history (existsb (unwinds call) steps) (filter (fun t => t_call t = call) (trace w)) (in_flight w !! call).
Proof.
  intros Hnd w.
  destruct (service_calls shared o (fun call => existsb (unwinds call) steps) steps [] (world_new o) (world_new_inv o)) as [started [Hh _]]; [..|apply Hh].
  - split; [intros c; cbn; rewrite lookup_empty; constructor|]. intros c _. cbn. by rewrite lookup_empty.
  - done.
  - intros c _. apply not_elem_of_nil.
  - intros c now Hin. apply existsb_exists. exists (Dropped c true now). split; [by apply list_elem_of_In|]. cbn. by rewrite Nat.eqb_refl.
Qed.

(** One call is dropped by an unwinding thread, one by its own. *)
Definition dropped_steps : list (ServiceStep Z bool) :=
  [Start 0 7 0 f_zero; Start 1 8 1 f_zero; Dropped 0 true 2; Dropped 1 false 3; Start 2 9 4 f_zero].

Lemma admitted_calls_exit_once_witness :
  let w := service_run demo_shared dropped_steps (world_new demo_options) in
  call_history false (filter (fun t => t_call t = 1%nat) (trace w)) (in_flight w !! 1%nat)
  /\ length (filter (fun t => t_call t = 0%nat) (trace w)) = 1%nat
  /\ length (filter (fun t => t_call t = 1%nat) (trace w)) = 2%nat.
Proof.
  split.
  - apply (admitted_calls_exit_once demo_shared demo_options dropped_steps 1).
    cbn. repeat (apply NoDup_cons; split; [set_solver|]). constructor.
  - split; vm_compute; reflexivity.
Defined.

(** The callbacks are exactly the transitions: [on_probing] runs for each admitted
    probe, [on_opened] for each change from closed to open (with the output unless the
    future was dropped), [on_closed] for each recovery, in order, and no callback runs for
    anything else, such as a rejected call or a reopened circuit. *)
Theorem callbacks_are_transitions {In Out} (shared : BreakerShared In Out) o steps :
  let w := service_run shared steps (world_new o) in
  forget_time <$> callbacks w = mjoin (expected shared <$> trace w).
Proof. apply (service_callbacks shared o); [apply world_new_inv|done]. Qed.
