(* ===== verification/Retry.v ===== *)
(** * seatbelt: attempts, backoff and the retry middleware

    Models [src/crates/seatbelt/src/attempt.rs] and, of
    [src/crates/seatbelt/src/retry/], [backoff.rs] (the delay iterator, with the float
    arithmetic of its jitter), [constants.rs], [args.rs] and [service.rs] (the retry loop).

    The inner service, the user's callbacks, the random generator and the functions
    [exp2] and [tanh] of the platform's math library are parameters. *)

From S2P Require Import Prelude StdTime Health.

(** ** Attempts *)

Record Attempt : Type := mkAttempt { index : Z; is_last : bool }.

Definition attempt_default : Attempt := mkAttempt 0 true.
Definition is_first (a : Attempt) : bool := index a =? 0.

Definition increment (a : Attempt) (max_attempts : Z) : option Attempt :=
  let next := saturating_add u32_max (index a) 1 in
  if max_attempts <=? next then None
  else Some (mkAttempt next (next =? saturating_sub max_attempts 1)).

Definition attempt_first (max_attempts : Z) : Attempt := mkAttempt 0 (max_attempts =? 1).

(** [RetryLayer::max_retry_attempts] stores the number of attempts, the first included. *)
Definition max_retry_attempts (retries : Z) : Z := saturating_add u32_max retries 1.

(** ** Floating-point helpers of the standard library *)

(** [Duration::as_secs_f64]. *)
Definition as_secs_f64 (d : Z) : spec_float :=
  f64_add (f64_from (d / NANOS_PER_SEC)) (f64_div (f64_from (d mod NANOS_PER_SEC)) (f64_from NANOS_PER_SEC)).

(** The integer nearest to [m * 2^e], ties to even. *)
Definition round_half_even (m : Z) (e : Z) : Z :=
  if 0 <=? e then m * 2 ^ e
  else
    let d := 2 ^ (- e) in
    let q := m / d in
    let r := m mod d in
    if 2 * r <? d then q else if d <? 2 * r then q + 1 else if Z.even q then q else q + 1.

(** [Duration::try_from_secs_f64]: [None] when the value is not a number, negative or
    too large; otherwise rounds to the nearest nanosecond. *)
Definition try_from_secs_f64 (secs : spec_float) : option Z :=
  match secs with
  | S754_zero _ => Some 0
  | S754_finite false m e =>
      let nanos := round_half_even (Zpos m * NANOS_PER_SEC) e in
      if nanos <=? duration_max then Some nanos else None
  | _ => None
  end.

(** [x.mul_add(y, z)]: the exact [x * y + z], rounded once. *)
Definition mantissa (x : spec_float) : Z :=
  match x with S754_finite s m _ => cond_Zopp s (Zpos m) | _ => 0 end.
Definition exponent (x : spec_float) : Z := match x with S754_finite _ _ e => e | _ => 0 end.
Definition is_finite (x : spec_float) : bool :=
  match x with S754_zero _ | S754_finite _ _ _ => true | _ => false end.

Definition f64_mul_add (x y z : spec_float) : spec_float :=
  if is_finite x && is_finite y && is_finite z then
    let e := Z.min (exponent x + exponent y) (exponent z) in
    let sum := mantissa x * mantissa y * 2 ^ (exponent x + exponent y - e) + mantissa z * 2 ^ (exponent z - e) in
    if sum =? 0 then f64_add (f64_mul x y) z
    else binary_normalize f64_prec f64_emax sum e false
  else f64_add (f64_mul x y) z.

(** [2.0_f64.powi(n)] for [n >= 0]. *)
Definition exp2i (n : Z) : spec_float := binary_normalize f64_prec f64_emax 1 n false.

(** ** Backoff *)

Inductive Backoff : Type := Constant | Linear | Exponential.

Record BackoffOptions : Type := mkBackoff {
  backoff_type : Backoff;
  base_delay : Z;
  max_delay : option Z;
  use_jitter : bool }.

Definition backoff_default : BackoffOptions := mkBackoff Exponential (from_millis 10) None true.

Definition i32_max : Z := 2147483647.
Definition f64_half : spec_float := f64_div (f64_from 1) (f64_from 2).
Definition JITTER_FACTOR : spec_float := f64_half.

Definition secs_to_duration_saturating (secs : spec_float) : Z :=
  if SFleb secs f_zero then 0 else default duration_max (try_from_secs_f64 secs).

Definition duration_mul_pow2 (base attempt : Z) : Z :=
  let factor := exp2i (Z.min attempt i32_max) in
  secs_to_duration_saturating (f64_mul (as_secs_f64 base) factor).

Definition clamp_to_max (d : Z) (max : option Z) : Z :=
  match max with None => d | Some m => Z.min d m end.

(** [sample] is the value of [rnd.next_f64()]. *)
Definition apply_jitter (delay : Z) (sample : spec_float) : Z :=
  let ms := f64_mul (as_secs_f64 delay) (f64_from 1000) in
  let offset := f64_div (f64_mul ms JITTER_FACTOR) (f64_from 2) in
  let random_delay := f64_mul_add (f64_mul ms JITTER_FACTOR) sample (SFopp offset) in
  let new_ms := f64_add ms random_delay in
  secs_to_duration_saturating (f64_div new_ms (f64_from 1000)).

Record DelaysIter : Type := mkDelays { props : BackoffOptions; d_attempt : Z; prev : spec_float }.

Definition delays (o : BackoffOptions) : DelaysIter := mkDelays o 0 f_zero.

Section backoff.
Context (exp2 tanh : spec_float -> spec_float).

Definition P_FACTOR : spec_float := f64_from 4.
Definition RP_SCALING : spec_float := f64_div (f64_from 1) (f64_div (f64_from 14) (f64_from 10)).

Definition decorrelated_jitter_backoff_v2 (attempt base : Z) (prev sample : spec_float) : Z * spec_float :=
  let target_secs_first_delay := as_secs_f64 base in
  let t := f64_add (f64_from attempt) sample in
  let next := f64_mul (exp2 t) (tanh (SFsqrt f64_prec f64_emax (f64_mul P_FACTOR t))) in
  if negb (is_finite next) then (duration_max, next)
  else
    let formula_intrinsic_value := f64_sub next prev in
    (secs_to_duration_saturating (f64_mul (f64_mul formula_intrinsic_value RP_SCALING) target_secs_first_delay), next).

(** [DelaysIter::next], which always yields. *)
Definition delays_next (sample : spec_float) (d : DelaysIter) : Z * DelaysIter :=
  let p := props d in
  if base_delay p =? 0 then (0, d)
  else
    let next_attempt := saturating_add u32_max (d_attempt d) 1 in
    let '(delay, prev') :=
      match backoff_type p, use_jitter p with
      | Constant, false => (base_delay p, prev d)
      | Constant, true => (apply_jitter (base_delay p) sample, prev d)
      | Linear, jitter =>
          let delay := duration_saturating_mul (base_delay p) next_attempt in
          (if jitter then apply_jitter delay sample else delay, prev d)
      | Exponential, false => (duration_mul_pow2 (base_delay p) (d_attempt d), prev d)
      | Exponential, true => decorrelated_jitter_backoff_v2 (d_attempt d) (base_delay p) (prev d) sample
      end in
    (clamp_to_max delay (max_delay p), mkDelays p next_attempt prev').

(** ** The retry loop *)

Section retry.
Context {In Out : Type}.

Record CloneArgs : Type := mkCloneArgs { c_attempt : Attempt; previous_recovery : option RecoveryInfo }.

(** [RetryShared]: the settings and the user's functions.  A function with a [&mut]
    argument returns what it leaves there. *)
Record RetryShared : Type := mkRetry {
  max_attempts : Z;
  backoff : BackoffOptions;
  clone_input : In -> CloneArgs -> option In * In;
  should_recover : Out -> Attempt -> RecoveryInfo;
  retry_enable_if : In -> bool;
  restore_input : option (Out -> Attempt -> RecoveryInfo -> option In * Out);
  handle_unavailable : bool }.

Context (shared : RetryShared).

Definition is_recoverable (recovery : RecoveryInfo) : bool :=
  match recovery_kind recovery with
  | Unavailable => handle_unavailable shared
  | Retry => true
  | Never | Unknown => false
  end.

(** [RetryShared::clone_input]. *)
Definition clone_for_attempt (input : In) (attempt : Attempt) (previous : option RecoveryInfo) : option In * In :=
  match clone_input shared input (mkCloneArgs attempt previous) with
  | (Some cloned, input) => (Some input, cloned)
  | (None, input) => (None, input)
  end.

Definition try_restore_input (original : option In) (out : Out) (attempt : Attempt) (recovery : RecoveryInfo)
    : option In * Out :=
  match original, restore_input shared with
  | Some _, _ => (None, out)
  | None, Some restore => restore out attempt recovery
  | None, None => (None, out)
  end.

Definition compute_retry_delay (recovery : RecoveryInfo) (sample : spec_float) (d : DelaysIter) : Z * DelaysIter :=
  let '(backoff_delay, d) := delays_next sample d in
  (default backoff_delay (recovery_delay recovery), d).

Record ContinueRetry : Type := mkContinue {
  r_input : In; r_attempt : Attempt; r_recovery : RecoveryInfo; r_delay : Z }.

(** [ControlFlow]: go on, or return the output. *)
Definition evaluate_attempt (original : option In) (out : Out) (attempt : Attempt) (sample : spec_float)
    (d : DelaysIter) : (ContinueRetry + Out) * DelaysIter :=
  let recovery := should_recover shared out attempt in
  if negb (is_recoverable recovery) then (inr out, d)
  else
    match increment attempt (max_attempts shared) with
    | None => (inr out, d)
    | Some next_attempt =>
        let '(retry_delay, d) := compute_retry_delay recovery sample d in
        let '(restored, out) := try_restore_input original out attempt recovery in
        match (match restored with Some input => Some input | None => original end) with
        | Some input => (inl (mkContinue input next_attempt recovery retry_delay), d)
        | None => (inr out, d)
        end
    end.

(** What one round of the loop did: its attempt, the input that was kept for another
    attempt, the input and output of the inner service, and the delay after it unless it
    was the last round. *)
Record Round : Type := mkRound {
  round_attempt : Attempt; round_original : option In; round_input : In; round_output : Out;
  round_delay : option Z }.

(** The loop of [execute].  [inner n] is the inner service at its [n]-th call and
    [samples n] the random number drawn in round [n]. *)
Fixpoint retry_loop (inner : nat -> In -> Out) (samples : nat -> spec_float) (fuel n : nat)
    (input : In) (attempt : Attempt) (d : DelaysIter) (previous : option RecoveryInfo)
    : list Round * option Out :=
  match fuel with
  | O => ([], None)
  | S fuel' =>
      let '(original_input, attempt_input) := clone_for_attempt input attempt previous in
      let out := inner n attempt_input in
      match evaluate_attempt original_input out attempt (samples n) d with
      | (inl state, d) =>
          let '(rounds, result) :=
            retry_loop inner samples fuel' (S n) (r_input state) (r_attempt state) d (Some (r_recovery state)) in
          (mkRound attempt original_input attempt_input out (Some (r_delay state)) :: rounds, result)
      | (inr returned, _) => ([mkRound attempt original_input attempt_input out None], Some returned)
      end
  end.

(** [execute]; at most [max_attempts] rounds, and one at least. *)
Definition retry_execute (inner : nat -> In -> Out) (samples : nat -> spec_float) (input : In)
    : list Round * option Out :=
  if negb (retry_enable_if shared input) then ([], Some (inner 0%nat input))
  else
    retry_loop inner samples (S (Z.to_nat (max_attempts shared))) 0 input (attempt_first (max_attempts shared))
      (delays (backoff shared)) None.
End retry.
End backoff.
Arguments RetryShared : clear implicits.
Arguments Round : clear implicits.

(** ** Delays *)

Section delay_facts.
Context (exp2 tanh : spec_float -> spec_float).

(** The [n]-th delay of an iterator. *)
Fixpoint nth_delay (samples : nat -> spec_float) (d : DelaysIter) (n : nat) : Z :=
  match n with
  | O => (delays_next exp2 tanh (samples 0%nat) d).1
  | S n' => nth_delay (fun i => samples (S i)) (delays_next exp2 tanh (samples 0%nat) d).2 n'
  end.

Lemma nth_delay_ext s s' d n : (forall j, s j = s' j) -> nth_delay s d n = nth_delay s' d n.
Proof.
  revert s s' d; induction n as [|n IH]; intros s s' d H; cbn [nth_delay]; rewrite H; [done|]. by apply IH.
Qed.

Definition backoff_ok (o : BackoffOptions) : Prop :=
  0 <= base_delay o <= duration_max /\ match max_delay o with Some m => 0 <= m | None => True end.

Lemma duration_max_pos : 0 < duration_max.
Proof. done. Qed.

Lemma round_half_even_nonneg m e : 0 <= m -> 0 <= round_half_even m e.
Proof.
  intros Hm. unfold round_half_even. destruct (Z.leb_spec 0 e); [nia|].
  assert (Hd : 0 < 2 ^ (- e)) by (apply Z.pow_pos_nonneg; lia).
  pose proof (Z.div_pos m (2 ^ (- e)) Hm Hd). repeat case_match; lia.
Qed.

Lemma secs_to_duration_range secs : 0 <= secs_to_duration_saturating secs <= duration_max.
Proof.
  pose proof duration_max_pos. unfold secs_to_duration_saturating. destruct (SFleb secs f_zero); [lia|].
  unfold try_from_secs_f64. destruct secs as [?|?| |[|] m e]; cbn [default from_option]; unfold id; try lia.
  pose proof (round_half_even_nonneg (Z.pos m * NANOS_PER_SEC) e ltac:(unfold NANOS_PER_SEC; lia)).
  destruct (Z.leb_spec (round_half_even (Z.pos m * NANOS_PER_SEC) e) duration_max); cbn; unfold id; lia.
Qed.

Lemma delays_next_range sample d :
  backoff_ok (props d) -> 0 <= d_attempt d ->
  let '(delay, d') := delays_next exp2 tanh sample d in
  0 <= delay <= duration_max
  /\ match max_delay (props d) with Some m => delay <= m | None => True end
  /\ props d' = props d /\ 0 <= d_attempt d'.
Proof.
  intros [Hb Hm] Ha. pose proof duration_max_pos. unfold delays_next.
  destruct (Z.eqb_spec (base_delay (props d)) 0) as [_|Hne].
  { split; [lia|]. split; [by destruct (max_delay (props d))|done]. }
  set (next := saturating_add u32_max (d_attempt d) 1).
  assert (Hn : 0 <= next) by (unfold next, saturating_add, u32_max; lia).
  assert (Hclamp : forall delay pv, 0 <= delay <= duration_max ->
    let '(x, d') := (clamp_to_max delay (max_delay (props d)), mkDelays (props d) next pv) in
    0 <= x <= duration_max /\ match max_delay (props d) with Some m => x <= m | None => True end
    /\ props d' = props d /\ 0 <= d_attempt d').
  { intros delay pv Hd. unfold clamp_to_max. destruct (max_delay (props d)); cbn; split_and!; try done; lia. }
  assert (Hj : forall x, 0 <= apply_jitter x sample <= duration_max) by (intros; apply secs_to_duration_range).
  assert (Hl : 0 <= duration_saturating_mul (base_delay (props d)) next <= duration_max).
  { unfold duration_saturating_mul. nia. }
  destruct (backoff_type (props d)), (use_jitter (props d)); try (apply Hclamp; first [done|apply Hj|lia]).
  - unfold decorrelated_jitter_backoff_v2. cbv zeta. destruct (negb _); apply Hclamp; [lia|apply secs_to_duration_range].
  - apply Hclamp, secs_to_duration_range.
Qed.

Lemma nth_delay_range samples d n :
  backoff_ok (props d) -> 0 <= d_attempt d ->
  0 <= nth_delay samples d n <= duration_max
  /\ match max_delay (props d) with Some m => nth_delay samples d n <= m | None => True end.
Proof.
  revert samples d; induction n as [|n IH]; intros samples d Hok Ha; cbn [nth_delay];
    pose proof (delays_next_range (samples 0%nat) d Hok Ha) as Hn;
    destruct (delays_next exp2 tanh (samples 0%nat) d) as [x d']; cbn [fst snd].
  - tauto.
  - destruct Hn as (_ & _ & Hp & Ha'). rewrite <- Hp. apply IH; [by rewrite Hp|done].
Qed.

(** The closed forms of the strategies without jitter. *)
Definition plain_delay (o : BackoffOptions) (n : Z) : Z :=
  if base_delay o =? 0 then 0
  else clamp_to_max
         (match backoff_type o with
          | Constant => base_delay o
          | Linear => Z.min duration_max (base_delay o * (n + 1))
          | Exponential => duration_mul_pow2 (base_delay o) n
          end) (max_delay o).

Lemma nth_delay_plain samples d n :
  use_jitter (props d) = false -> 0 <= d_attempt d -> d_attempt d + Z.of_nat n < u32_max ->
  nth_delay samples d n = plain_delay (props d) (d_attempt d + Z.of_nat n).
Proof.
  revert samples d; induction n as [|n IH]; intros samples d Hj Ha Hn; cbn [nth_delay]; unfold delays_next at 1;
    rewrite Hj.
  - unfold plain_delay, saturating_add. rewrite Z.add_0_r. destruct (base_delay (props d) =? 0); [done|].
    destruct (backoff_type (props d)); cbn [fst]; try done.
    rewrite Z.min_r by lia. done.
  - destruct (Z.eqb_spec (base_delay (props d)) 0) as [H0|H0].
    + cbn [snd]. rewrite IH by (done || lia). unfold plain_delay. by rewrite H0.
    + destruct (backoff_type (props d)) eqn:Hb; cbn [snd]; rewrite IH; cbn [props d_attempt]; try done;
        unfold saturating_add; rewrite ?Z.min_r by lia; try lia; f_equal; lia.
Qed.
End delay_facts.

(** ** The loop *)

Section loop_facts.
Context (exp2 tanh : spec_float -> spec_float).
Context {In Out : Type} (shared : RetryShared In Out).
Context (inner : nat -> In -> Out) (samples : nat -> spec_float).
Context (Hmax : 0 <= max_attempts shared <= u32_max).

Definition attempt_at (i : nat) : Attempt := mkAttempt (Z.of_nat i) (Z.of_nat i =? max_attempts shared - 1).

Definition recovery_of (r : Round In Out) : RecoveryInfo :=
  should_recover shared (round_output r) (round_attempt r).

(** Why the loop returned [out] after the round [r], the [i]-th. *)
Definition stop_reason (i : nat) (r : Round In Out) (out : Out) : Prop :=
  (is_recoverable shared (recovery_of r) = false /\ out = round_output r)
  \/ (max_attempts shared <= Z.of_nat i + 1 /\ out = round_output r)
  \/ (round_original r = None
      /\ try_restore_input shared None (round_output r) (round_attempt r) (recovery_of r) = (None, out)).

(** The [i]-th of [total] rounds; [delay] is the backoff delay of its position. *)
Definition round_ok (delay : Z) (i total : nat) (r : Round In Out) (out : Out) : Prop :=
  round_attempt r = attempt_at i /\ round_output r = inner i (round_input r)
  /\ if (S i <? total)%nat
     then is_recoverable shared (recovery_of r) = true
          /\ round_delay r = Some (default delay (recovery_delay (recovery_of r)))
     else round_delay r = None /\ stop_reason i r out.

Lemma increment_at i : Z.of_nat i + 1 < max_attempts shared ->
  increment (attempt_at i) (max_attempts shared) = Some (attempt_at (S i)).
Proof.
  intros Hi. unfold increment, attempt_at, saturating_add, saturating_sub. cbn [index].
  rewrite Z.min_r by lia. rewrite (proj2 (Z.leb_gt _ _)) by lia. do 2 f_equal; [lia|].
  rewrite Z.max_r by lia. f_equal. lia.
Qed.

Lemma increment_end i : max_attempts shared <= Z.of_nat i + 1 ->
  increment (attempt_at i) (max_attempts shared) = None.
Proof.
  intros Hi. unfold increment, attempt_at, saturating_add. cbn [index].
  rewrite (proj2 (Z.leb_le _ _)); [done|]. destruct Hmax. lia.
Qed.

(** One round either ends the loop for a reason or goes on with the next attempt. *)
Lemma evaluate_cases original (out : Out) i sample d input :
  let r dl := mkRound (attempt_at i) original input out dl in
  match evaluate_attempt exp2 tanh shared original out (attempt_at i) sample d with
  | (inr returned, _) => stop_reason i (r None) returned
  | (inl st, d') =>
      is_recoverable shared (should_recover shared out (attempt_at i)) = true
      /\ Z.of_nat i + 1 < max_attempts shared /\ r_attempt st = attempt_at (S i)
      /\ r_delay st = default (delays_next exp2 tanh sample d).1 (recovery_delay (should_recover shared out (attempt_at i)))
      /\ d' = (delays_next exp2 tanh sample d).2
  end.
Proof.
  unfold evaluate_attempt, stop_reason, recovery_of. cbn [round_attempt round_original round_output].
  destruct (is_recoverable shared _) eqn:Hrec; cbn [negb]; [|by left].
  destruct (Z.lt_ge_cases (Z.of_nat i + 1) (max_attempts shared)) as [Hi|Hi];
    [rewrite increment_at by done|rewrite increment_end by done; auto].
  unfold compute_retry_delay. destruct (delays_next exp2 tanh sample d) as [x d'] eqn:Hd.
  destruct (try_restore_input shared original out (attempt_at i) _) as [restored out'] eqn:Hr.
  destruct restored as [restored|]; [done|]. destruct original as [orig|]; [done|]. auto.
Qed.

Lemma retry_loop_spec fuel n input d previous :
  n = 0%nat \/ Z.of_nat n < max_attempts shared -> max_attempts shared < Z.of_nat fuel + Z.of_nat n ->
  (0 < fuel)%nat ->
  exists rounds out,
    retry_loop exp2 tanh shared inner samples fuel n input (attempt_at n) d previous = (rounds, Some out)
    /\ (0 < length rounds)%nat
    /\ ((n + length rounds = 1)%nat \/ Z.of_nat (n + length rounds) <= max_attempts shared)
    /\ forall i r, rounds !! i = Some r ->
         round_ok (nth_delay exp2 tanh (fun j => samples (n + j)%nat) d i) (n + i)%nat (n + length rounds)%nat r out.
Proof.
  revert n input d previous; induction fuel as [|fuel IH]; intros n input d previous Hn Hf Hpos; [lia|].
  cbn [retry_loop]. destruct (clone_for_attempt shared input (attempt_at n) previous) as [original ainput].
  pose proof (evaluate_cases original (inner n ainput) n (samples n) d ainput) as He. cbv zeta in He.
  destruct (evaluate_attempt exp2 tanh shared original _ (attempt_at n) (samples n) d) as [[st|returned] d'].
  - destruct He as (Hrec & Hlt & Hat & Hdl & ->). rewrite Hat.
    destruct (IH (S n) (r_input st) (delays_next exp2 tanh (samples n) d).2 (Some (r_recovery st)))
      as (rounds & out & -> & Hp & Hlen & Hall); [right; lia|lia|lia|].
    eexists _, out. split; [done|]. cbn [length]. split; [lia|]. split; [lia|].
    intros [|i] r Hr; cbn in Hr.
    + injection Hr as <-. rewrite Nat.add_0_r. split; [done|]. split; [done|].
      rewrite (proj2 (Nat.ltb_lt _ _)) by lia. split; [done|]. cbn [round_delay nth_delay]. by rewrite Nat.add_0_r, Hdl.
    + specialize (Hall i r Hr). replace (n + S i)%nat with (S n + i)%nat by lia.
      replace (n + S (length rounds))%nat with (S n + length rounds)%nat by lia.
      cbn [nth_delay]. rewrite Nat.add_0_r. replace (nth_delay _ _ (fun j => samples (n + S j)%nat) _ i)
        with (nth_delay exp2 tanh (fun j => samples (S n + j)%nat) (delays_next exp2 tanh (samples n) d).2 i); [done|].
      apply nth_delay_ext. intros j. f_equal. lia.
  - eexists _, returned. split; [done|]. cbn [length]. split; [lia|]. split; [lia|].
    intros [|i] r Hr; cbn in Hr; [|done]. injection Hr as <-. rewrite Nat.add_0_r. split; [done|]. split; [done|].
    rewrite (proj2 (Nat.ltb_ge _ _)) by lia. by split.
Qed.
End loop_facts.

(** ** The properties *)

(** C34. The retry loop always returns an output, after at least one attempt and at most
    one more than the configured retries.  Its attempts are numbered from zero and only the
    last permitted one is marked last; it goes on after an attempt only when that output is
    recoverable, waits the delay the output asks for or else the backoff delay of that
    position, and stops because the output is not recoverable, the attempts are used up, or
    no input is left to retry with. *)
Theorem retry_execute_correct exp2 tanh {In Out} (shared : RetryShared In Out) inner samples input retries :
  0 <= retries <= u32_max -> max_attempts shared = max_retry_attempts retries ->
  retry_enable_if shared input = true ->
  exists rounds out,
    retry_execute exp2 tanh shared inner samples input = (rounds, Some out)
    /\ (0 < length rounds)%nat /\ Z.of_nat (length rounds) <= retries + 1
    /\ forall i r, rounds !! i = Some r ->
         round_ok shared inner (nth_delay exp2 tanh samples (delays (backoff shared)) i) i (length rounds) r out.
Proof.
  intros Hr Hm Hen. unfold retry_execute. rewrite Hen. cbn [negb].
  unfold max_retry_attempts, saturating_add, u32_max in *.
  assert (Hmax : 0 <= max_attempts shared <= u32_max) by (unfold u32_max; lia).
  destruct (retry_loop_spec exp2 tanh shared inner samples Hmax (S (Z.to_nat (max_attempts shared))) 0 input
    (delays (backoff shared)) None) as (rounds & out & Heq & Hp & Hlen & Hall); [by left|lia|lia|].
  exists rounds, out. split_and!; [|done|lia|].
  - rewrite <- Heq. f_equal. unfold attempt_first, attempt_at. f_equal.
    destruct (Z.eqb_spec (max_attempts shared) 1), (Z.eqb_spec (Z.of_nat 0) (max_attempts shared - 1)); try done; lia.
  - intros i r Hir. exact (Hall i r Hir).
Qed.

(** A service that fails twice with a requested delay, then succeeds. *)
Definition demo_retry : RetryShared Z Z :=
  mkRetry (max_retry_attempts 3) (mkBackoff Exponential (from_millis 10) None false)
    (fun i _ => (Some i, i)) (fun o _ => if o <? 2 then with_delay recovery_retry o else recovery_never)
    (fun _ => true) None false.

Lemma retry_execute_correct_witness :
  (exists rounds out,
    retry_execute id id demo_retry (fun n _ => Z.of_nat n) (fun _ => f_zero) 5 = (rounds, Some out)
    /\ (0 < length rounds)%nat /\ Z.of_nat (length rounds) <= 3 + 1
    /\ forall i r, rounds !! i = Some r ->
         round_ok demo_retry (fun n _ => Z.of_nat n)
           (nth_delay id id (fun _ => f_zero) (delays (backoff demo_retry)) i) i (length rounds) r out)
  /\ (retry_execute id id demo_retry (fun n _ => Z.of_nat n) (fun _ => f_zero) 5).2 = Some 2.
Proof.
  split; [|vm_compute; reflexivity].
  apply (retry_execute_correct id id demo_retry (fun n _ => Z.of_nat n) (fun _ => f_zero) 5 3).
  - unfold u32_max. lia.
  - reflexivity.
  - reflexivity.
Defined.

(** Every backoff delay is a duration between zero and [Duration::MAX] and never
    exceeds the configured maximum, for every strategy, with and without jitter, whatever
    the random numbers and the math library return. *)
Theorem backoff_delays_bounded exp2 tanh samples o n :
  backoff_ok o ->
  0 <= nth_delay exp2 tanh samples (delays o) n <= duration_max
  /\ match max_delay o with Some m => nth_delay exp2 tanh samples (delays o) n <= m | None => True end.
Proof. intros Hok. by apply (nth_delay_range exp2 tanh samples (delays o) n). Qed.

Lemma backoff_delays_bounded_witness :
  nth_delay id id (fun _ => f64_half) (delays (mkBackoff Exponential (from_secs 2) (Some (from_secs 30)) true)) 40
  <= from_secs 30.
Proof.
  apply (backoff_delays_bounded id id (fun _ => f64_half) (mkBackoff Exponential (from_secs 2) (Some (from_secs 30)) true) 40).
  split; vm_compute; [split|]; congruence.
Defined.

(** Without jitter the delays are the documented sequences, for fewer than [2^32]
    attempts: the base delay each time, the base delay times the attempt number
    (saturating), or the base delay doubled once per attempt; clamped to the maximum. *)
Theorem backoff_plain_sequence exp2 tanh samples o n :
  use_jitter o = false -> Z.of_nat n < u32_max ->
  nth_delay exp2 tanh samples (delays o) n
  = if base_delay o =? 0 then 0
    else clamp_to_max
           (match backoff_type o with
            | Constant => base_delay o
            | Linear => Z.min duration_max (base_delay o * (Z.of_nat n + 1))
            | Exponential => duration_mul_pow2 (base_delay o) (Z.of_nat n)
            end) (max_delay o).
Proof. intros Hj Hn. by rewrite nth_delay_plain by (done || (cbn; lia)). Qed.

Lemma backoff_plain_sequence_witness :
  nth_delay id id (fun _ => f_zero) (delays (mkBackoff Exponential (from_secs 2) None false)) 4 = from_secs 32
  /\ nth_delay id id (fun _ => f_zero) (delays (mkBackoff Linear (from_secs 2) (Some (from_secs 9)) false)) 4
     = from_secs 9.
Proof.
  split.
  - rewrite (backoff_plain_sequence id id (fun _ => f_zero) (mkBackoff Exponential (from_secs 2) None false) 4 eq_refl eq_refl).
    vm_compute. reflexivity.
  - rewrite (backoff_plain_sequence id id (fun _ => f_zero) (mkBackoff Linear (from_secs 2) (Some (from_secs 9)) false) 4
      eq_refl eq_refl).
    vm_compute. reflexivity.
Defined.
