(* ===== verification/Hedging.v ===== *)
(** * seatbelt: the hedging middleware

    Models [src/crates/seatbelt/src/hedging/service.rs]: attempts that run concurrently,
    a new one started when the delay expires or a recoverable output arrives, the first
    acceptable output returned and the other attempts dropped.

    The [async] loop is a machine: between two events it waits in [select] or in
    [futs.next()]; an event is the completion of one attempt in flight, in any order, or
    the expiry of the delay. *)

From S2P Require Import Prelude StdTime Health Retry.

Section hedging.
Context {In Out : Type}.

(** [HedgingShared].  A function with a [&mut] argument returns what it leaves there. *)
Record HedgingShared : Type := mkHedging {
  max_hedged_attempts : Z;
  hedge_clone_input : In -> Attempt -> option In * In;
  hedge_should_recover : Out -> Attempt -> RecoveryInfo;
  on_execute : option (In -> Attempt -> Z -> In);
  delay_fn : In -> Attempt -> Z;
  hedge_handle_unavailable : bool;
  hedge_enable_if : In -> bool }.

Context (shared : HedgingShared).

(** [Some kind] to go on, [None] to accept the output. *)
Definition hedge_recovery_kind (out : Out) (attempt : Attempt) : option RecoveryKind :=
  match recovery_kind (hedge_should_recover shared out attempt) with
  | Unavailable => if hedge_handle_unavailable shared then Some Unavailable else None
  | Retry => Some Retry
  | Never | Unknown => None
  end.

(** The variables of [run_delay_loop]: the futures in flight with their attempts, the
    input that is cloned for each attempt, the attempt last started, and the last
    recoverable output.  [launched] and [delivered] record every attempt that was started
    and every output that [futs.next()] gave, in order. *)
Record HedgeState : Type := mkHedge {
  futs : list (Attempt * In);
  h_input : In;
  h_attempt : Attempt;
  last_result : option Out;
  launched : list (Attempt * In);
  delivered : list (Attempt * Out) }.

Definition total_attempts : Z := saturating_add u32_max (max_hedged_attempts shared) 1.

Definition invoke_on_execute (input : In) (attempt : Attempt) (delay : Z) : In :=
  match on_execute shared with Some f => f input attempt delay | None => input end.

Definition launch_hedging_attempt (attempt : Attempt) (hedging_delay : Z) (h : HedgeState) : HedgeState :=
  match hedge_clone_input shared (h_input h) attempt with
  | (Some cloned, input) =>
      let cloned := invoke_on_execute cloned attempt hedging_delay in
      mkHedge (futs h ++ [(attempt, cloned)]) input (h_attempt h) (last_result h)
        (launched h ++ [(attempt, cloned)]) (delivered h)
  | (None, input) => mkHedge (futs h) input (h_attempt h) (last_result h) (launched h) (delivered h)
  end.

Definition set_attempt (attempt : Attempt) (h : HedgeState) : HedgeState :=
  mkHedge (futs h) (h_input h) attempt (last_result h) (launched h) (delivered h).
Definition set_last (out : Out) (h : HedgeState) : HedgeState :=
  mkHedge (futs h) (h_input h) (h_attempt h) (Some out) (launched h) (delivered h).
(** [futs.next()] gives the output of the [i]-th future, which leaves the set. *)
Definition deliver (i : nat) (attempt : Attempt) (out : Out) (h : HedgeState) : HedgeState :=
  mkHedge (delete i (futs h)) (h_input h) (h_attempt h) (last_result h) (launched h)
    (delivered h ++ [(attempt, out)]).

(** What the middleware is doing: waiting, running the inner service without hedging, or
    done. *)
Inductive Hedge : Type :=
| Waiting (h : HedgeState)
| Direct (input : In)
| Returned (out : Out) (h : HedgeState)
| HedgePanicked.

(** The head of the loop: with no future in flight, [futs.next()] is ready at once with
    [None], and [last_result.expect(..)] is returned. *)
Definition resume (h : HedgeState) : Hedge :=
  match futs h with
  | [] => match last_result h with Some out => Returned out h | None => HedgePanicked end
  | _ => Waiting h
  end.

(** [execute], [run_hedging] and the entry of [run_delay_loop]. *)
Definition hedge_start (input : In) : Hedge :=
  if negb (hedge_enable_if shared input) then Direct input
  else
    let attempt := mkAttempt 0 (total_attempts =? 1) in
    match hedge_clone_input shared input attempt with
    | (None, input) => Direct (invoke_on_execute input attempt 0)
    | (Some first_cloned, input) =>
        let first_cloned := invoke_on_execute first_cloned attempt 0 in
        resume (mkHedge [(attempt, first_cloned)] input attempt None [(attempt, first_cloned)] [])
    end.

(** The next attempt and the delay that is armed for it while the machine waits. *)
Definition armed_delay (h : HedgeState) : option (Attempt * Z) :=
  (fun next => (next, delay_fn shared (h_input h) next)) <$> increment (h_attempt h) total_attempts.

Definition launch_next (next_attempt : Attempt) (delay : Z) (h : HedgeState) : Hedge :=
  resume (set_attempt next_attempt (launch_hedging_attempt next_attempt delay h)).

Inductive HedgeEvent : Type := Completed (i : nat) (out : Out) | DelayExpired.

(** One round of [run_delay_loop], of its first branch or of the final drain. *)
Definition hedge_step (ev : HedgeEvent) (m : Hedge) : Hedge :=
  match m with
  | Waiting h =>
      match ev with
      | Completed i out =>
          match futs h !! i with
          | None => m
          | Some (attempt, _) =>
              let h := deliver i attempt out h in
              match hedge_recovery_kind out attempt with
              | None => Returned out h
              | Some _ =>
                  let h := set_last out h in
                  match increment (h_attempt h) total_attempts with
                  | Some next_attempt => launch_next next_attempt 0 h
                  | None => resume h
                  end
              end
          end
      | DelayExpired =>
          match armed_delay h with
          | Some (next_attempt, delay) => launch_next next_attempt delay h
          | None => m
          end
      end
  | _ => m
  end.

Definition hedge_run (evs : list HedgeEvent) (m : Hedge) : Hedge := foldl (fun m ev => hedge_step ev m) m evs.

(** An event that can happen while the machine waits. *)
Definition possible (ev : HedgeEvent) (m : Hedge) : Prop :=
  match m, ev with
  | Waiting h, Completed i _ => (i < length (futs h))%nat
  | Waiting h, DelayExpired => is_Some (armed_delay h)
  | _, _ => False
  end.

(** A sequence of events each of which can happen when it does. *)
Fixpoint all_possible (evs : list HedgeEvent) (m : Hedge) : Prop :=
  match evs with
  | [] => True
  | ev :: evs => possible ev m /\ all_possible evs (hedge_step ev m)
  end.
End hedging.
Arguments HedgingShared : clear implicits.

(** ** Facts *)

Section facts.
Context {In Out : Type} (shared : HedgingShared In Out).
Context (Hmax : 0 <= max_hedged_attempts shared <= 255).

Abbreviation total := (total_attempts shared).
Abbreviation State := (HedgeState (In:=In) (Out:=Out)).

Lemma total_eq : total = max_hedged_attempts shared + 1.
Proof. unfold total_attempts, saturating_add, u32_max. lia. Qed.

(** The [k]-th attempt of the call, and all attempts up to it. *)
Definition hedge_attempt (k : Z) : Attempt := mkAttempt k (k =? total - 1).
Definition attempts_upto (k : Z) : list Attempt := hedge_attempt <$> seqZ 0 (k + 1).

Lemma attempts_upto_S k : 0 <= k -> attempts_upto (k + 1) = attempts_upto k ++ [hedge_attempt (k + 1)].
Proof.
  intros Hk. unfold attempts_upto. rewrite (seqZ_app 0 (k + 1) 1), fmap_app by lia. done.
Qed.

Lemma hedge_increment k : 0 <= k ->
  increment (hedge_attempt k) total = if k + 1 <? total then Some (hedge_attempt (k + 1)) else None.
Proof.
  intros Hk. pose proof total_eq as Ht. unfold increment, hedge_attempt, saturating_add, saturating_sub. cbn [index].
  rewrite (Z.max_r 0 (total - 1)) by lia.
  destruct (Z.ltb_spec (k + 1) total).
  - rewrite Z.min_r by (unfold u32_max; lia). by rewrite (proj2 (Z.leb_gt _ _)).
  - rewrite (proj2 (Z.leb_le _ _)); [done|]. unfold u32_max. lia.
Qed.

Definition recoverable (d : Attempt * Out) : Prop := is_Some (hedge_recovery_kind shared d.2 d.1).
Definition always_clones : Prop := forall input a, is_Some (hedge_clone_input shared input a).1.

(** What holds of the loop's variables, except that a future may be missing: *)
Record hedge_base (k : Z) (h : State) : Prop := {
  hi_attempt : h_attempt h = hedge_attempt k;
  hi_range : 0 <= k < total;
  hi_launches : (launched h).*1 `sublist_of` attempts_upto k;
  hi_started : launched h <> [];
  hi_split : (launched h).*1 ≡ₚ (futs h).*1 ++ (delivered h).*1;
  hi_recov : Forall recoverable (delivered h);
  hi_last : last_result h = snd <$> last (delivered h);
  hi_all : always_clones -> (launched h).*1 = attempts_upto k }.

(** ... and at the head of the loop. *)
Definition hedge_inv (k : Z) (h : State) : Prop :=
  hedge_base k h /\ (always_clones -> futs h = [] -> k + 1 = total).

Definition hedge_measure (k : Z) (h : State) : Z :=
  2 * (total - 1 - k) + Z.of_nat (length (futs h)).

(** The input that the inner service runs on when hedging is bypassed. *)
Definition bypasses (input input' : In) : Prop :=
  (hedge_enable_if shared input = false /\ input' = input)
  \/ (hedge_enable_if shared input = true
      /\ exists moved, hedge_clone_input shared input (hedge_attempt 0) = (None, moved)
      /\ input' = invoke_on_execute shared moved (hedge_attempt 0) 0).

(** What a returned output is. *)
Definition hedge_result (out : Out) (h : State) : Prop :=
  exists k a earlier, 0 <= k < total
  /\ (launched h).*1 `sublist_of` attempts_upto k
  /\ (launched h).*1 ≡ₚ (futs h).*1 ++ (delivered h).*1
  /\ delivered h = earlier ++ [(a, out)] /\ Forall recoverable earlier
  /\ (hedge_recovery_kind shared out a = None
      \/ (recoverable (a, out) /\ futs h = []
          /\ (always_clones -> (launched h).*1 = attempts_upto (max_hedged_attempts shared)))).

(** What a machine that was started with [input] may be doing. *)
Definition machine_ok (input : In) (m : Hedge) : Prop :=
  match m with
  | Waiting h => futs h <> [] /\ exists k, hedge_inv k h
  | Direct input' => bypasses input input'
  | Returned out h => hedge_result out h
  | HedgePanicked => False
  end.

Definition machine_measure (m : Hedge) (b : Z) : Prop :=
  match m with
  | Waiting h => exists k, hedge_inv k h /\ hedge_measure k h <= b
  | _ => True
  end.

Lemma resume_ok input k h b : hedge_inv k h -> hedge_measure k h <= b ->
  machine_ok input (resume h) /\ machine_measure (resume h) b.
Proof.
  intros Hinv Hm. pose proof Hinv as [Hb Hd]. unfold resume. destruct (futs h) as [|f fs] eqn:Hfs.
  - destruct Hb as [Ha Hr Hl Hst Hsp Hrc Hla Hall].
    destruct (last (delivered h)) as [[a out]|] eqn:Heq.
    2: { exfalso. apply last_None in Heq. rewrite Hfs, Heq in Hsp. apply Hst, (fmap_nil_inv fst). by apply Permutation_nil_r. }
    cbn in Hla. apply last_Some in Heq as [ds Heq]. rewrite Hla. cbn. split; [|done].
    rewrite Heq in Hrc. apply Forall_app in Hrc as [Hrc1 Hrc2].
    exists k, a, ds. split; [done|]. split_and!; try done. right. split_and!; [by inversion Hrc2|done|].
    intros Hc. rewrite Hall by done. f_equal. specialize (Hd Hc eq_refl). pose proof total_eq. lia.
  - cbn. rewrite Hfs. split; [split; [done|]|]; by exists k.
Qed.

(** Starting the next attempt. *)
Lemma launch_ok input k h delay b :
  k + 1 < total -> hedge_base k h -> hedge_measure k h <= b + 1 ->
  machine_ok input (launch_next shared (hedge_attempt (k + 1)) delay h)
  /\ machine_measure (launch_next shared (hedge_attempt (k + 1)) delay h) b.
Proof.
  intros Hk [Ha Hr Hl Hst Hsp Hrc Hla Hall] Hb. unfold launch_next. unfold hedge_measure in Hb.
  assert (H0 : 0 <= k) by lia. unfold launch_hedging_attempt.
  destruct (hedge_clone_input shared (h_input h) (hedge_attempt (k + 1))) as [[cloned|] moved] eqn:Hc;
    cbn [set_attempt futs h_input last_result launched delivered].
  - apply (resume_ok input (k + 1)); [|unfold hedge_measure; cbn; rewrite length_app; cbn; lia].
    split; [|cbn; intros _ Hnil; by destruct (futs h)].
    split; cbn; try done; try lia; rewrite ?fmap_app, ?attempts_upto_S by done.
    + by apply sublist_app.
    + by destruct (launched h).
    + rewrite Hsp. cbn. by rewrite <- !(assoc_L (++)), (Permutation_app_comm (delivered h).*1).
    + intros Hcl. by rewrite Hall.
  - apply (resume_ok input (k + 1)); [|unfold hedge_measure; cbn; lia].
    assert (Hnc : ~ always_clones).
    { intros Hcl. destruct (Hcl (h_input h) (hedge_attempt (k + 1))) as [? Hx]. by rewrite Hc in Hx. }
    split; [|done]. split; cbn; try done; [lia|]. rewrite attempts_upto_S by done. by apply sublist_inserts_r.
Qed.

(** An output is delivered. *)
Lemma deliver_split k h i a x out : hedge_base k h -> futs h !! i = Some (a, x) ->
  (launched h).*1 ≡ₚ (delete i (futs h)).*1 ++ (delivered h ++ [(a, out)]).*1.
Proof.
  intros Hb Hi. rewrite (hi_split _ _ Hb), fmap_app.
  assert (Hd : (futs h).*1 ≡ₚ a :: (delete i (futs h)).*1) by exact (fmap_Permutation fst _ _ (delete_Permutation _ _ _ Hi)).
  rewrite Hd. cbn. by rewrite (assoc_L (++)), <- Permutation_cons_append.
Qed.

Lemma deliver_base k h i a x out :
  hedge_base k h -> futs h !! i = Some (a, x) -> recoverable (a, out) ->
  hedge_base k (set_last out (deliver i a out h)).
Proof.
  intros Hb Hi Hout. pose proof (deliver_split k h i a x out Hb Hi). destruct Hb. split; cbn; try done.
  - apply Forall_app. split; [done|]. by constructor.
  - by rewrite last_snoc.
Qed.

Lemma completed_ok input k h i out b : hedge_inv k h -> hedge_measure k h <= b -> (i < length (futs h))%nat ->
  let m := hedge_step shared (Completed i out) (Waiting h) in machine_ok input m /\ machine_measure m (b - 1).
Proof.
  intros [Hb Hd] Hk [[a x] Hi]%lookup_lt_is_Some. cbn. rewrite Hi.
  pose proof (lookup_lt_Some _ _ _ Hi) as Hlt. assert (Hr := hi_range _ _ Hb).
  assert (Hlen : length (delete i (futs h)) = pred (length (futs h))) by (rewrite length_delete; [lia|by eexists]).
  unfold hedge_measure in Hk. destruct (hedge_recovery_kind shared out a) as [kd|] eqn:Hkd.
  - assert (Hb' : hedge_base k (set_last out (deliver i a out h))).
    { by eapply deliver_base; [done..|]; exists kd. }
    rewrite (hi_attempt _ _ Hb), hedge_increment by lia. destruct (Z.ltb_spec (k + 1) total) as [Hlt'|Hge].
    + apply launch_ok; [done..|]. unfold hedge_measure. cbn. lia.
    + apply (resume_ok input k); [|unfold hedge_measure; cbn; lia]. split; [done|]. intros _ _. lia.
  - cbn. split; [|done]. exists k, a, (delivered h). split; [done|]. cbn. split_and!.
    + by destruct Hb.
    + by eapply deliver_split.
    + done.
    + by destruct Hb.
    + by left.
Qed.

Lemma expired_ok input k h b : hedge_inv k h -> hedge_measure k h <= b -> is_Some (armed_delay shared h) ->
  let m := hedge_step shared DelayExpired (Waiting h) in machine_ok input m /\ machine_measure m (b - 1).
Proof.
  intros [Hb Hd] Hk. cbn. assert (Hr := hi_range _ _ Hb). unfold armed_delay.
  rewrite (hi_attempt _ _ Hb), hedge_increment by lia. destruct (Z.ltb_spec (k + 1) total) as [Hlt|Hge]; [|by intros [? ?]].
  intros _. cbn. apply launch_ok; [done..|]. lia.
Qed.

Lemma hedge_step_possible input ev m b : possible shared ev m -> machine_measure m b ->
  machine_ok input (hedge_step shared ev m) /\ machine_measure (hedge_step shared ev m) (b - 1).
Proof.
  intros Hp Hb. destruct m as [h| | |]; [|done..]. destruct Hb as (k & Hinv & Hk).
  destruct ev; [by eapply completed_ok|by eapply expired_ok].
Qed.

(** An event that cannot happen changes nothing. *)
Lemma hedge_step_impossible ev m : ~ possible shared ev m -> hedge_step shared ev m = m.
Proof.
  intros Hp. destruct m as [h| | |]; [|done..]. destruct ev as [i out|]; cbn [hedge_step possible] in *.
  - destruct (futs h !! i) as [[a x]|] eqn:Hi; [|done]. by apply lookup_lt_Some in Hi.
  - destruct (armed_delay shared h) as [[a d]|]; [|done]. destruct Hp. by eexists.
Qed.

Lemma possible_dec ev m : possible shared ev m \/ ~ possible shared ev m.
Proof.
  destruct m as [h| | |]; [|right; by intros []..]. destruct ev as [i out|]; cbn.
  - destruct (decide (i < length (futs h))%nat); tauto.
  - destruct (armed_delay shared h); [left; by eexists|right; by intros [? ?]].
Qed.

Lemma hedge_start_ok input : let m := hedge_start shared input in
  machine_ok input m /\ machine_measure m (2 * max_hedged_attempts shared + 1).
Proof.
  pose proof total_eq as Ht. unfold hedge_start. destruct (hedge_enable_if shared input) eqn:He; cbn [negb].
  2: { split; [|done]. by left. }
  replace (mkAttempt 0 (total =? 1)) with (hedge_attempt 0).
  2: { unfold hedge_attempt. f_equal. destruct (Z.eqb_spec 0 (total - 1)), (Z.eqb_spec total 1); (done || lia). }
  destruct (hedge_clone_input shared input (hedge_attempt 0)) as [[cloned|] moved] eqn:Hc.
  - apply (resume_ok input 0); [|unfold hedge_measure; cbn; lia]. split; [|done]. split; cbn; try done. lia.
  - split; [|done]. right. split; [done|]. by exists moved.
Qed.

Lemma hedge_run_ok input evs : forall m b, machine_ok input m -> machine_measure m b ->
  machine_ok input (hedge_run shared evs m).
Proof.
  induction evs as [|ev evs IH]; intros m b Hm Hb; [done|]. cbn.
  destruct (possible_dec ev m) as [Hp|Hp].
  - destruct (hedge_step_possible input ev m b Hp Hb). by eapply IH.
  - rewrite (hedge_step_impossible _ _ Hp). by eapply IH.
Qed.

Lemma all_possible_bound input evs : forall m b, machine_ok input m -> machine_measure m b -> 0 <= b ->
  all_possible shared evs m -> Z.of_nat (length evs) <= b.
Proof.
  induction evs as [|ev evs IH]; intros m b Hm Hb H0; [done|]. cbn [all_possible length]. intros [Hp Hr].
  destruct (hedge_step_possible input ev m b Hp Hb) as [Hm' Hb'].
  assert (1 <= b).
  { destruct m as [h| | |]; [|done..]. destruct Hm as [Hne _]. destruct Hb as (k & Hinv & Hk).
    pose proof (hi_range _ _ (proj1 Hinv)). unfold hedge_measure in Hk. destruct (futs h); [done|]. cbn in Hk. lia. }
  specialize (IH _ (b - 1) Hm' Hb' ltac:(lia) Hr). lia.
Qed.

Lemma all_possible_snoc evs ev : forall m, all_possible shared evs m ->
  possible shared ev (hedge_run shared evs m) -> all_possible shared (evs ++ [ev]) m.
Proof. induction evs as [|e evs IH]; intros m; cbn; [done|]. intros [? ?] ?. split; [done|]. by apply IH. Qed.
End facts.

(** ** The theorems *)

(** C35. The hedging middleware is safe, whatever its callbacks do and in whatever order the
    attempts complete and the delay expires: it never panics; the attempts it starts are
    numbered in order, each at most once and at most [max_hedged_attempts + 1] of them;
    every attempt started is in flight or was delivered once; the output it returns is the
    one delivered last, all earlier ones being recoverable; a recoverable output is
    returned only when no attempt is left in flight, and, when inputs can be cloned,
    only when all [max_hedged_attempts + 1] attempts ran.  Without hedging, or when the
    first clone fails, the inner service runs on the input itself. *)
Theorem hedging_outcome {In Out : Type} (shared : HedgingShared In Out) (input : In) (evs : list HedgeEvent) :
  0 <= max_hedged_attempts shared <= 255 ->
  match hedge_run shared evs (hedge_start shared input) with
  | Waiting h =>
      futs h <> [] /\ (exists k, 0 <= k <= max_hedged_attempts shared /\ (launched h).*1 `sublist_of` attempts_upto shared k)
      /\ (launched h).*1 ≡ₚ (futs h).*1 ++ (delivered h).*1 /\ Forall (recoverable shared) (delivered h)
  | Direct input' => bypasses shared input input'
  | Returned out h => hedge_result shared out h
  | HedgePanicked => False
  end.
Proof.
  intros Hmax. destruct (hedge_start_ok shared Hmax input) as [Hm Hb].
  pose proof (hedge_run_ok shared Hmax input evs _ _ Hm Hb) as Hok.
  destruct (hedge_run shared evs (hedge_start shared input)) as [h| | |]; try done.
  destruct Hok as [Hne (k & [Hr Hk Hl _ Hs Hc _ _] & _)]. split; [done|]. split; [|done].
  exists k. split; [|done]. pose proof (total_eq shared Hmax). lia.
Qed.

(** Hedging terminates: a call goes through at most [2 * max_hedged_attempts + 1]
    events, and while it waits there is an attempt in flight to wait for, so that once
    the attempts in flight complete it returns. *)
Theorem hedging_terminates {In Out : Type} (shared : HedgingShared In Out) (input : In) (evs : list HedgeEvent) :
  0 <= max_hedged_attempts shared <= 255 ->
  all_possible shared evs (hedge_start shared input) ->
  Z.of_nat (length evs) <= 2 * max_hedged_attempts shared + 1
  /\ forall h out, hedge_run shared evs (hedge_start shared input) = Waiting h ->
       possible shared (Completed 0 out) (Waiting h)
       /\ (Z.of_nat (length evs) < 2 * max_hedged_attempts shared + 1).
Proof.
  intros Hmax Hp. destruct (hedge_start_ok shared Hmax input) as [Hm Hb]. split.
  - eapply all_possible_bound; try done. lia.
  - intros h out Hrun. pose proof (hedge_run_ok shared Hmax input evs _ _ Hm Hb) as Hok. rewrite Hrun in Hok.
    destruct Hok as [Hne _].
    assert (Hfirst : possible shared (Completed 0 out) (Waiting h)) by (cbn; destruct (futs h); [done|cbn; lia]).
    split; [done|]. cut (Z.of_nat (length (evs ++ [Completed 0 out])) <= 2 * max_hedged_attempts shared + 1).
    { rewrite length_app. cbn. lia. }
    eapply all_possible_bound; try done; [lia|]. apply all_possible_snoc; [done|]. by rewrite Hrun.
Qed.

(** *** A call with two hedged attempts: odd outputs are recoverable *)
Definition sample_hedging : HedgingShared Z Z :=
  mkHedging 2 (fun input _ => (Some input, input))
    (fun out _ => if Z.odd out then recovery_retry else recovery_never)
    None (fun _ a => 10 * (index a)) false (fun _ => true).

Definition sample_events : list HedgeEvent := [DelayExpired; Completed 1 5; Completed 0 7; Completed 0 9].

(** The second attempt is delivered first, all three outputs are recoverable and the last
    one delivered is returned. *)
Lemma hedging_outcome_witness :
  exists h, hedge_run sample_hedging sample_events (hedge_start sample_hedging 1) = Returned 9 h
  /\ index <$> (delivered h).*1 = [1; 0; 2] /\ hedge_result sample_hedging 9 h.
Proof.
  pose proof (hedging_outcome sample_hedging 1 sample_events ltac:(cbn; lia)) as H.
  destruct (hedge_run sample_hedging sample_events (hedge_start sample_hedging 1)) as [h|input|out h|] eqn:E;
    vm_compute in E; try discriminate E.
  injection E as Eo Eh. subst out. exists h. split; [done|]. split; [by subst h|exact H].
Defined.

Lemma hedging_terminates_witness :
  Z.of_nat (length sample_events) <= 5
  /\ forall h out, hedge_run sample_hedging sample_events (hedge_start sample_hedging 1) = Waiting h ->
       possible sample_hedging (Completed 0 out) (Waiting h) /\ Z.of_nat (length sample_events) < 5.
Proof.
  apply (hedging_terminates sample_hedging 1 sample_events); [done|].
  repeat split; vm_compute; try lia; by eexists.
Defined.
