(* ===== verification/ByteSpan.v ===== *)
(** * bytesbuf: memory blocks, spans and span builders

    Models [src/crates/bytesbuf/src/mem/block.rs], [span.rs] and [span_builder.rs].

    Memory is a heap of blocks, each a list of cells that may be uninitialized.  A
    [BlockRef] is the name of its block and a pointer is a block with an offset, so that
    spans and builders that share a block really alias.  Using memory out of bounds,
    reading an uninitialized cell, and breaking the safety requirements of an [unsafe]
    function are [Panic] here, so that theorems about [Ok] exclude them. *)

From S2P Require Import Prelude.

Open Scope Z_scope.

(** ** The heap *)

Abbreviation heap := (gmap positive (list (option Z))).

Abbreviation result := (outcome Empty_set).

(** A [BlockSize] is a [u32]. *)
Definition block_size_max : Z := 4294967295.

Definition byte_at (h : heap) (block : positive) (offset : Z) : option Z :=
  if offset <? 0 then None else data ← h !! block; mjoin (data !! Z.to_nat offset).

(** Reads [len] bytes through a pointer. *)
Definition read (h : heap) (block : positive) (offset len : Z) : option bytes :=
  mapM (byte_at h block) (seqZ offset len).

(** Writes bytes through a pointer ([ptr::copy_nonoverlapping], [ptr::write_bytes]). *)
Definition write (h : heap) (block : positive) (offset : Z) (bs : bytes) : result heap :=
  match h !! block with
  | Some data =>
      if (0 <=? offset) && (offset + Z.of_nat (length bs) <=? Z.of_nat (length data))
      then Ok (<[block := list_inserts (Z.to_nat offset) (Some <$> bs) data]> h)
      else Panic
  | None => Panic
  end.

(** ** [Span] *)

Record Span : Type := mkSpan { s_block : positive; s_start : Z; s_len : Z }.

#[export] Instance Span_eq_dec : EqDecision Span.
Proof. solve_decision. Defined.

(** [Span::deref]: the bytes of a span. *)
Definition deref (h : heap) (s : Span) : option bytes := read h (s_block s) (s_start s) (s_len s).

Definition span_is_empty (s : Span) : bool := s_len s =? 0.

(** [core::ops::Bound]. *)
Inductive Bound : Type := Included (x : Z) | Excluded (x : Z) | Unbounded.

(** The two numbers that [slice_checked] and [range_checked] compute first: the bytes
    before the range and in it; [max] is the largest value of the index type. *)
Definition resolve_range (max len : Z) (range : Bound * Bound) : option (Z * Z) :=
  let checked_succ x := if x + 1 <=? max then Some (x + 1) else None in
  until ← match range.1 with
          | Included x => Some x
          | Excluded x => checked_succ x
          | Unbounded => Some 0
          end;
  inside ← match range.2 with
           | Included x => x ← checked_succ x; checked_sub x until
           | Excluded x => checked_sub x until
           | Unbounded => checked_sub len until
           end;
  Some (until, inside).

Definition slice_checked (s : Span) (range : Bound * Bound) : option Span :=
  '(until, inside) ← resolve_range block_size_max (s_len s) range;
  let required_len := wrap32 (until + inside) in
  if s_len s <? required_len then None
  else Some (mkSpan (s_block s) (s_start s + until) inside).

Definition span_slice (s : Span) (range : Bound * Bound) : result Span := expect (slice_checked s range).

(** [Span::advance]. *)
Definition span_advance (s : Span) (len : Z) : Span :=
  mkSpan (s_block s) (s_start s + len) (wrap32 (s_len s - wrap32 len)).

(** ** [SpanBuilder] *)

Record SpanBuilder : Type := mkBuilder {
  b_block : positive; b_start : Z; filled_bytes : Z; available_bytes : Z }.

(** [Block] and [Block::into_span_builder], which is [SpanBuilder::new]. *)
Record Block : Type := mkBlock { block_ptr : positive * Z; block_len : Z }.
Definition into_span_builder (b : Block) : SpanBuilder :=
  mkBuilder (block_ptr b).1 (block_ptr b).2 0 (block_len b).

Definition builder_is_empty (sb : SpanBuilder) : bool := filled_bytes sb =? 0.

Definition builder_consume (sb : SpanBuilder) (len : Z) : result (Span * SpanBuilder) :=
  let? _ := rust_assert (len <=? filled_bytes sb) in
  Ok (mkSpan (b_block sb) (b_start sb) len,
      mkBuilder (b_block sb) (b_start sb + len) (wrap32 (filled_bytes sb - len)) (available_bytes sb)).

Definition builder_peek (sb : SpanBuilder) : Span := mkSpan (b_block sb) (b_start sb) (filled_bytes sb).

(** A [&mut [MaybeUninit<u8>]]: where it points and how long it is. *)
Record SliceMut : Type := mkSlice { sl_block : positive; sl_start : Z; sl_len : Z }.

Definition unfilled_slice_mut (sb : SpanBuilder) : SliceMut :=
  mkSlice (b_block sb) (b_start sb + filled_bytes sb) (available_bytes sb).

(** [SpanBuilder::advance]. *)
Definition builder_advance (sb : SpanBuilder) (len : Z) : SpanBuilder :=
  let count := wrap32 len in
  mkBuilder (b_block sb) (b_start sb) (wrap32 (filled_bytes sb + count)) (wrap32 (available_bytes sb - count)).

Definition split_off_available (sb : SpanBuilder) (count : Z) : result (SpanBuilder * SpanBuilder) :=
  let? _ := rust_assert (count <=? available_bytes sb) in
  let keep := wrap32 (available_bytes sb - count) in
  let new_start := b_start sb + wrap32 (filled_bytes sb + keep) in
  Ok (mkBuilder (b_block sb) (b_start sb) (filled_bytes sb) keep,
      mkBuilder (b_block sb) new_start 0 count).

(** Writes through a slice, which must be long enough. *)
Definition write_slice (h : heap) (dst : SliceMut) (bs : bytes) : result heap :=
  if Z.of_nat (length bs) <=? sl_len dst then write h (sl_block dst) (sl_start dst) bs else Panic.

(** ** The cells a range covers *)

Lemma elem_of_concat_map {A B} (f : A -> list B) (l : list A) y : y ∈ concat (f <$> l) <-> exists x, x ∈ l /\ y ∈ f x.
Proof.
  induction l as [|x l IH]; cbn; [|rewrite elem_of_app, IH; set_solver].
  split; [by intros ?%not_elem_of_nil|]. by intros (x & ?%not_elem_of_nil & _).
Qed.

Definition cells_of (block : positive) (offset len : Z) : list (positive * Z) := (block,.) <$> seqZ offset len.

(** The cells a builder may still write. *)
Definition builder_cells (sb : SpanBuilder) : list (positive * Z) :=
  cells_of (b_block sb) (b_start sb + filled_bytes sb) (available_bytes sb).

Definition span_cells (s : Span) : list (positive * Z) := cells_of (s_block s) (s_start s) (s_len s).

Definition span_ok (s : Span) : Prop := 0 <= s_start s /\ 0 < s_len s <= block_size_max.

(** The cells of some spans. *)
Definition spans_cells (ss : list Span) : list (positive * Z) := concat (span_cells <$> ss).

(** The bytes of a sequence of spans, in order. *)
Fixpoint spans_bytes (h : heap) (ss : list Span) : option bytes :=
  match ss with
  | [] => Some []
  | s :: ss => c ← deref h s; rest ← spans_bytes h ss; Some (c ++ rest)
  end.

(** No span touches the cells. *)
Definition apart (cells : list (positive * Z)) (s : Span) : Prop := forall c, c ∈ span_cells s -> c ∉ cells.

(** The heap differs only in these cells. *)
Definition only_changes (cells : list (positive * Z)) (h h' : heap) : Prop :=
  forall block offset, (block, offset) ∉ cells -> byte_at h' block offset = byte_at h block offset.

(** The builder lies in allocated memory, within the range of its fields. *)
Definition builder_ok (h : heap) (sb : SpanBuilder) : Prop :=
  0 <= b_start sb /\ 0 <= filled_bytes sb /\ 0 < available_bytes sb
  /\ filled_bytes sb + available_bytes sb <= block_size_max
  /\ exists data, h !! b_block sb = Some data
       /\ b_start sb + filled_bytes sb + available_bytes sb <= Z.of_nat (length data).

(** ** Lemmas *)

Lemma elem_of_cells_of b o n c : c ∈ cells_of b o n <-> c.1 = b /\ o <= c.2 < o + n.
Proof.
  unfold cells_of. rewrite list_elem_of_fmap. setoid_rewrite elem_of_seqZ. destruct c as [b' o']. cbn. naive_solver.
Qed.

Lemma cells_of_app b o n m : 0 <= n -> 0 <= m -> cells_of b o (n + m) = cells_of b o n ++ cells_of b (o + n) m.
Proof. intros. unfold cells_of. by rewrite seqZ_app, fmap_app by lia. Qed.

Lemma cells_of_nodup b o n : NoDup (cells_of b o n).
Proof. apply NoDup_fmap_2; [intros ? ? [=]; done|apply NoDup_seqZ]. Qed.

Lemma elem_of_spans_cells ss c : c ∈ spans_cells ss <-> exists s, s ∈ ss /\ c ∈ span_cells s.
Proof. apply elem_of_concat_map. Qed.

Lemma spans_cells_rev ss c : c ∈ spans_cells (rev ss) <-> c ∈ spans_cells ss.
Proof. rewrite !elem_of_spans_cells. setoid_rewrite list_elem_of_In. setoid_rewrite <- in_rev. done. Qed.

Lemma spans_cells_app ss ss' : spans_cells (ss ++ ss') = spans_cells ss ++ spans_cells ss'.
Proof. unfold spans_cells. by rewrite fmap_app, concat_app. Qed.

Lemma length_read h b o n bs : read h b o n = Some bs -> length bs = Z.to_nat n.
Proof. intros H%mapM_Some_1%Forall2_length. by rewrite length_seqZ in H. Qed.

Lemma read_app h b o n m : 0 <= n -> 0 <= m ->
  read h b o (n + m) = (x ← read h b o n; y ← read h b (o + n) m; Some (x ++ y)).
Proof.
  intros. unfold read. rewrite seqZ_app by lia. generalize (seqZ (o + n) m). intros k.
  induction (seqZ o n) as [|z l IH]; cbn.
  - by destruct (mapM _ k).
  - destruct (byte_at h b z); [cbn|done]. rewrite IH. destruct (mapM _ l); [cbn|done]. by destruct (mapM _ k).
Qed.

Lemma read_nil h b o : read h b o 0 = Some [].
Proof. done. Qed.

(** Reading a part of what can be read. *)
Lemma read_part h b o n bs i j : read h b o n = Some bs -> 0 <= i -> 0 <= j -> i + j <= n ->
  read h b (o + i) j = Some (take (Z.to_nat j) (drop (Z.to_nat i) bs)).
Proof.
  intros Hr Hi Hj Hn. replace n with (i + (j + (n - i - j))) in Hr by lia.
  rewrite read_app in Hr by lia. destruct (read h b o i) as [x|] eqn:Hx; [cbn in Hr|done].
  rewrite read_app in Hr by lia. destruct (read h b (o + i) j) as [y|] eqn:Hy; [cbn in Hr|done].
  destruct (read h b (o + i + j) (n - i - j)) as [z|] eqn:Hz; [cbn in Hr|done]. injection Hr as <-.
  apply length_read in Hx, Hy. by rewrite <- Hx, drop_app_length, <- Hy, take_app_length.
Qed.

(** Reading where nothing changed. *)
Lemma read_same h h' b o n : (forall x, o <= x < o + n -> byte_at h' b x = byte_at h b x) -> read h' b o n = read h b o n.
Proof.
  intros Heq. unfold read.
  assert (H : Forall (fun x => byte_at h' b x = byte_at h b x) (seqZ o n)).
  { apply Forall_forall. intros x Hx%elem_of_seqZ. by apply Heq. }
  induction H as [|x l Hx _ IH]; cbn; [done|]. by rewrite Hx, IH.
Qed.

(** ** Writing *)

(** Blocks keep their sizes. *)
Definition same_shape (h h' : heap) : Prop := forall b, length <$> h' !! b = length <$> h !! b.

Lemma byte_at_insert h b data b' x :
  byte_at (<[b := data]> h) b' x = if decide (b' = b) then (if x <? 0 then None else mjoin (data !! Z.to_nat x)) else byte_at h b' x.
Proof.
  unfold byte_at. destruct (decide (b' = b)) as [->|Hne].
  - by rewrite lookup_insert_eq.
  - by rewrite lookup_insert_ne.
Qed.

(** What a write does: the bytes can be read back and nothing else changes. *)
Lemma write_ok h b o bs data : h !! b = Some data -> 0 <= o -> o + Z.of_nat (length bs) <= Z.of_nat (length data) ->
  exists h', write h b o bs = Ok h' /\ read h' b o (Z.of_nat (length bs)) = Some bs
    /\ only_changes (cells_of b o (Z.of_nat (length bs))) h h' /\ same_shape h h'.
Proof.
  intros Hb Ho Hlen. unfold write. rewrite Hb, (proj2 (Z.leb_le _ _)), (proj2 (Z.leb_le _ _)) by done. cbn.
  eexists. split; [done|]. split_and!.
  - unfold read. apply mapM_Some_2, Forall2_same_length_lookup_2; [rewrite length_seqZ; lia|].
    intros i x y Hx Hy. apply lookup_seqZ in Hx as [-> Hi]. rewrite byte_at_insert, decide_True by done.
    rewrite (proj2 (Z.ltb_ge _ _)) by lia. replace (Z.to_nat (o + Z.of_nat i)) with (Z.to_nat o + i)%nat by lia.
    rewrite list_lookup_inserts by (rewrite ?length_fmap; lia). rewrite list_lookup_fmap.
    replace (Z.to_nat o + i - Z.to_nat o)%nat with i by lia. by rewrite Hy.
  - intros b' x Hx. rewrite byte_at_insert. destruct (decide (b' = b)) as [->|]; [|done].
    unfold byte_at. destruct (Z.ltb_spec x 0); [done|]. rewrite Hb. cbn. f_equal.
    rewrite elem_of_cells_of in Hx. cbn in Hx.
    destruct (decide (x < o)); [apply list_lookup_inserts_lt; lia|].
    apply list_lookup_inserts_ge. rewrite length_fmap. lia.
  - intros b'. destruct (decide (b' = b)) as [->|].
    + rewrite lookup_insert_eq, Hb. cbn. by rewrite length_inserts.
    + by rewrite lookup_insert_ne.
Qed.

Lemma only_changes_mono c c' h h' : only_changes c h h' -> (forall x, x ∈ c -> x ∈ c') -> only_changes c' h h'.
Proof. intros H Hc b o Hn. apply H. auto. Qed.

Lemma only_changes_trans c h h' h'' : only_changes c h h' -> only_changes c h' h'' -> only_changes c h h''.
Proof. intros H1 H2 b o Hn. by rewrite H2, H1. Qed.

Lemma only_changes_refl c h : only_changes c h h.
Proof. done. Qed.

Lemma same_shape_refl h : same_shape h h.
Proof. done. Qed.

Lemma same_shape_trans h h' h'' : same_shape h h' -> same_shape h' h'' -> same_shape h h''.
Proof. intros H1 H2 b. by rewrite H2, H1. Qed.

#[export] Hint Resolve only_changes_refl same_shape_refl : rust.

Lemma builder_ok_shape h h' sb : same_shape h h' -> builder_ok h sb -> builder_ok h' sb.
Proof.
  intros Hs (H1 & H2 & H3 & H4 & data & Hd & Hlen). split_and!; try done.
  specialize (Hs (b_block sb)). rewrite Hd in Hs. cbn in Hs. apply fmap_Some in Hs as (data' & Hd' & Hl).
  exists data'. split; [done|lia].
Qed.

(** ** Spans *)

Lemma deref_only_changes cells h h' s : only_changes cells h h' -> apart cells s -> deref h' s = deref h s.
Proof.
  intros Hc Ha. apply read_same. intros x Hx. apply Hc, Ha. unfold span_cells. by rewrite elem_of_cells_of.
Qed.

Lemma spans_bytes_only_changes cells h h' ss :
  only_changes cells h h' -> Forall (apart cells) ss -> spans_bytes h' ss = spans_bytes h ss.
Proof. intros Hc. induction 1 as [|s ss Hs _ IH]; cbn; [done|]. by rewrite (deref_only_changes _ _ _ _ Hc Hs), IH. Qed.

Lemma spans_bytes_app h ss ss' :
  spans_bytes h (ss ++ ss') = (x ← spans_bytes h ss; y ← spans_bytes h ss'; Some (x ++ y)).
Proof.
  induction ss as [|s ss IH]; cbn; [by destruct (spans_bytes h ss')|].
  destruct (deref h s); cbn; [|done]. rewrite IH. destruct (spans_bytes h ss); cbn; [|done].
  destruct (spans_bytes h ss'); cbn; [|done]. by rewrite (assoc_L (++)).
Qed.

Lemma spans_bytes_cons h s ss bs : spans_bytes h (s :: ss) = Some bs <->
  exists c rest, deref h s = Some c /\ spans_bytes h ss = Some rest /\ bs = c ++ rest.
Proof. cbn. rewrite bind_Some. setoid_rewrite bind_Some. naive_solver. Qed.

Lemma spans_bytes_app_Some h ss ss' bs : spans_bytes h (ss ++ ss') = Some bs <->
  exists x y, spans_bytes h ss = Some x /\ spans_bytes h ss' = Some y /\ bs = x ++ y.
Proof. rewrite spans_bytes_app, bind_Some. setoid_rewrite bind_Some. naive_solver. Qed.

Lemma deref_length h s c : span_ok s -> deref h s = Some c -> Z.of_nat (length c) = s_len s.
Proof. intros [_ ?] Hc%length_read. lia. Qed.

Lemma spans_bytes_length h ss bs : Forall span_ok ss -> spans_bytes h ss = Some bs ->
  Z.of_nat (length bs) = sum_Z (s_len <$> ss).
Proof.
  intros Hok. revert bs. induction Hok as [|s ss Hs _ IH]; intros bs; [by intros [= <-]|].
  intros (c & rest & Hc & Hr & ->)%spans_bytes_cons. rewrite length_app. apply deref_length in Hc; [|done].
  specialize (IH _ Hr). unfold sum_Z in *. cbn. lia.
Qed.

(** The slice [a..b] of a span. *)
Lemma span_slice_ok s a b : 0 <= a <= b -> b <= s_len s <= block_size_max ->
  span_slice s (Included a, Excluded b) = Ok (mkSpan (s_block s) (s_start s + a) (b - a)).
Proof.
  intros Ha Hb. unfold span_slice, slice_checked, resolve_range. cbn.
  rewrite checked_sub_Some by lia. cbn. unfold block_size_max in *. rewrite wrap32_small by lia.
  rewrite (proj2 (Z.ltb_ge _ _)) by lia. done.
Qed.

Lemma span_advance_ok s n : 0 <= n <= s_len s -> s_len s <= block_size_max ->
  span_advance s n = mkSpan (s_block s) (s_start s + n) (s_len s - n).
Proof. intros. unfold span_advance, block_size_max in *. by rewrite (wrap32_small n), wrap32_small by lia. Qed.

Lemma deref_part h s c a n : span_ok s -> deref h s = Some c -> 0 <= a -> 0 <= n -> a + n <= s_len s ->
  deref h (mkSpan (s_block s) (s_start s + a) n) = Some (take (Z.to_nat n) (drop (Z.to_nat a) c)).
Proof. intros Hs Hc Ha Hn Hl. by eapply read_part. Qed.

Lemma span_part_cells s a n c : 0 <= a -> a + n <= s_len s ->
  c ∈ span_cells (mkSpan (s_block s) (s_start s + a) n) -> c ∈ span_cells s.
Proof. intros Ha Hn. unfold span_cells. rewrite !elem_of_cells_of. cbn. lia. Qed.

Lemma apart_part cells s a n : 0 <= a -> a + n <= s_len s -> apart cells s ->
  apart cells (mkSpan (s_block s) (s_start s + a) n).
Proof.
  intros Ha Hn Hs c Hc. apply Hs. unfold span_cells in *. rewrite elem_of_cells_of in *. cbn in *. lia.
Qed.

Lemma apart_mono cells cells' s : (forall c, c ∈ cells' -> c ∈ cells) -> apart cells s -> apart cells' s.
Proof. intros Hc Ha c Hs Hin. by apply (Ha c), Hc. Qed.
