(* ===== verification/ByteView.v ===== *)
(** * bytesbuf: immutable views

    Models [src/crates/bytesbuf/src/view.rs], [view_get.rs] and [view_read.rs]: a [BytesView] is a
    sequence of spans, kept in reverse, with its length.  The telemetry identity of a view
    does not influence it and is left out. *)

From S2P Require Import Prelude ByteSpan.

Record BytesView : Type := mkView { spans_reversed : list Span; v_len : Z }.

Definition view_new : BytesView := mkView [] 0.

(** The spans in the order of their contents. *)
Definition view_spans (v : BytesView) : list Span := rev (spans_reversed v).

Section view.
Context (debug : bool).

(** [len()], with its debug assertion. *)
Definition view_len (v : BytesView) : result Z :=
  let? _ := debug_assert debug (v_len v =? sum_Z (s_len <$> spans_reversed v)) in
  Ok (v_len v).

Definition view_is_empty (v : BytesView) : result bool :=
  let? len := view_len v in
  Ok (len =? 0).

Fixpoint sum_lens (acc : Z) (ss : list Span) : result Z :=
  match ss with
  | [] => Ok acc
  | s :: ss => let? acc := expect (checked_add acc (s_len s)) in sum_lens acc ss
  end.

Definition from_spans_reversed (ss : list Span) : result BytesView :=
  let? _ := debug_assert debug (forallb (fun s => negb (span_is_empty s)) ss) in
  let? len := sum_lens 0 ss in
  Ok (mkView ss len).

Definition from_views (views : list BytesView) : result BytesView :=
  from_spans_reversed (concat (spans_reversed <$> rev views)).

(** ** [range_checked] *)

(** What the first pass computes. *)
Record Pass1 : Type := mkPass1 {
  spans_until_range : Z; spans_in_range : Z;
  bytes_to_skip_in_first : Z; bytes_to_leave_in_last : Z }.

(** [usize::try_into::<BlockSize>()]. *)
Definition try_into_u32 (n : Z) : option Z := if n <=? block_size_max then Some n else None.

Fixpoint range_pass1 (ss : list Span) (until inside : Z) (p : Pass1) : result Pass1 :=
  match ss with
  | [] => Ok p
  | s :: ss =>
      let bytes_in_span := s_len s in
      if (0 <? until) && (bytes_in_span <=? until) then
        let? spans_until := expect (checked_add (spans_until_range p) 1) in
        let? until := expect (checked_sub until bytes_in_span) in
        range_pass1 ss until inside
          (mkPass1 spans_until (spans_in_range p) (bytes_to_skip_in_first p) (bytes_to_leave_in_last p))
      else
        let? until_bs := expect (try_into_u32 until) in
        let? (skip, leave) :=
          (if negb (until =? 0)
           then let? leave := expect (checked_sub bytes_in_span until_bs) in Ok (until_bs, leave)
           else Ok (bytes_to_skip_in_first p, bytes_in_span)) in
        let? rest := expect (checked_sub bytes_in_span until_bs) in
        let relevant := wrap32 (Z.min rest inside) in
        let? leave := expect (checked_sub leave relevant) in
        let? spans_in := expect (checked_add (spans_in_range p) 1) in
        let? inside := expect (checked_sub inside relevant) in
        let p := mkPass1 (spans_until_range p) spans_in skip leave in
        if inside =? 0 then Ok p else range_pass1 ss 0 inside p
  end.

(** The second pass visits the relevant spans from the last one to the first. *)
Fixpoint range_pass2 (ss : list Span) (remaining skip leave : Z) (slice_spans : list Span) : result (list Span) :=
  match ss with
  | [] => Ok slice_spans
  | s :: ss =>
      let? consider := (if 0 <? leave then expect (checked_sub (s_len s) leave) else Ok (s_len s)) in
      let max_take := wrap32 (Z.min consider remaining) in
      let is_first_span := remaining <=? max_take in
      if is_first_span && (0 <? skip) then
        let? remainder := expect (checked_sub consider skip) in
        let max_take := Z.min max_take remainder in
        let? remaining := expect (checked_sub remaining max_take) in
        let? stop := expect (if skip + max_take <=? block_size_max then Some (skip + max_take) else None) in
        let? piece := span_slice s (Included skip, Excluded stop) in
        range_pass2 ss remaining 0 0 (slice_spans ++ [piece])
      else
        let? remaining := expect (checked_sub remaining max_take) in
        let? piece := span_slice s (Included 0, Excluded max_take) in
        range_pass2 ss remaining skip 0 (slice_spans ++ [piece])
  end.

Definition range_checked (v : BytesView) (range : Bound * Bound) : result (option BytesView) :=
  let? len := view_len v in
  match resolve_range usize_max len range with
  | None => Ok None
  | Some (until, inside) =>
      let? required_len := expect (checked_add until inside) in
      if len <? required_len then Ok None
      else if inside =? 0 then Ok (Some view_new)
      else
        let general :=
          let? p := range_pass1 (view_spans v) until inside (mkPass1 0 0 0 0) in
          let relevant := take (Z.to_nat (spans_in_range p)) (drop (Z.to_nat (spans_until_range p)) (view_spans v)) in
          let? slice_spans := range_pass2 (rev relevant) inside (bytes_to_skip_in_first p) (bytes_to_leave_in_last p) [] in
          Ok (Some (mkView slice_spans inside)) in
        match last (spans_reversed v) with
        | Some first =>
            if required_len <=? s_len first then
              let? piece := span_slice first (Included (wrap32 until), Excluded (wrap32 required_len)) in
              Ok (Some (mkView [piece] inside))
            else general
        | None => general
        end
  end.

Definition range (v : BytesView) (r : Bound * Bound) : result BytesView :=
  let? o := range_checked v r in expect o.

(** ** Reading *)

Definition first_slice (h : heap) (v : BytesView) : result bytes :=
  match last (spans_reversed v) with Some s => expect (deref h s) | None => Ok [] end.

(** [slices()]: the iterator walks down from the last stored span. *)
Fixpoint slices_from (h : heap) (ss : list Span) (previous_span_index : nat) : result (list bytes) :=
  match previous_span_index with
  | O => Ok []
  | S i =>
      let? s := expect (ss !! i) in
      let? c := expect (deref h s) in
      let? rest := slices_from h ss i in
      Ok (c :: rest)
  end.
Definition slices (h : heap) (v : BytesView) : result (list bytes) :=
  slices_from h (spans_reversed v) (length (spans_reversed v)).

Definition to_vec (h : heap) (v : BytesView) : result bytes :=
  let? cs := slices h v in Ok (concat cs).

(** The loop of [advance], over the spans in content order. *)
Fixpoint advance_loop (count : Z) (ss : list Span) : result (list Span) :=
  if count <=? 0 then Ok ss
  else match ss with
       | [] => Panic
       | front :: rest =>
           if count <? s_len front then Ok (span_advance front count :: rest)
           else advance_loop (wrap64 (count - s_len front)) rest
       end.

Definition view_advance (v : BytesView) (count : Z) : result BytesView :=
  let? len := expect (checked_sub (v_len v) count) in
  let? ss := advance_loop count (view_spans v) in
  Ok (mkView (rev ss) len).

Definition view_append (v other : BytesView) : result BytesView :=
  let? new_len := expect (checked_add (v_len v) (v_len other)) in
  let? other_empty := view_is_empty other in
  if other_empty then Ok v
  else
    let? _ := view_is_empty v in
    Ok (mkView (spans_reversed other ++ spans_reversed v) new_len).

Definition view_concat (v other : BytesView) : result BytesView := view_append v other.

(** [get_byte]. *)
Definition get_byte (h : heap) (v : BytesView) : result (Z * BytesView) :=
  match pop_last (spans_reversed v) with
  | None => Panic
  | Some (others, front) =>
      let? c := expect (deref h front) in
      let? byte := expect (c !! 0%nat) in
      let ss := if s_len front =? 1 then others else others ++ [span_advance front 1] in
      Ok (byte, mkView ss (wrap64 (v_len v - 1)))
  end.

(** The loop of [copy_to_slice]: [n] bytes of the destination are left. *)
Fixpoint copy_loop (fuel : nat) (h : heap) (v : BytesView) (n : Z) : result (bytes * BytesView) :=
  if n <=? 0 then Ok ([], v)
  else match fuel with
       | O => Panic
       | S fuel =>
           let? src := first_slice h v in
           let bytes_to_copy := Z.min n (Z.of_nat (length src)) in
           let copied := take (Z.to_nat bytes_to_copy) src in
           let? v := view_advance v bytes_to_copy in
           let? (rest, v) := copy_loop fuel h v (n - bytes_to_copy) in
           Ok (copied ++ rest, v)
       end.

(** [copy_to_slice] and [copy_to_uninit_slice], for a destination of [n] bytes: each round
    copies a byte at least. *)
Definition copy_to_slice (h : heap) (v : BytesView) (n : Z) : result (bytes * BytesView) :=
  let? len := view_len v in
  let? _ := rust_assert (n <=? len) in
  copy_loop (Z.to_nat n) h v n.

Definition get_array_from_first_span (h : heap) (v : BytesView) (n : Z) : result (option (bytes * BytesView)) :=
  match pop_last (spans_reversed v) with
  | None => Ok None
  | Some (others, front) =>
      if s_len front <? n then Ok None
      else
        let? c := expect (deref h front) in
        let? array := slice_to c (Z.to_nat n) in
        let ss := if s_len front =? n then others else others ++ [span_advance front n] in
        Ok (Some (array, mkView ss (wrap64 (v_len v - n))))
  end.

Definition get_array (h : heap) (v : BytesView) (n : Z) : result (bytes * BytesView) :=
  let? len := view_len v in
  let? _ := rust_assert (n <=? len) in
  let? o := get_array_from_first_span h v n in
  match o with
  | Some r => Ok r
  | None => copy_to_slice h v n
  end.

(** [Read::read] into a buffer of [n] bytes. *)
Definition view_read (h : heap) (v : BytesView) (n : Z) : result (bytes * BytesView) :=
  let? empty := view_is_empty v in
  if empty then Ok ([], v)
  else
    let? len := view_len v in
    copy_to_slice h v (Z.min n len).

(** [consume_all_slices]: the slices that the callback receives, and the view left. *)
Fixpoint consume_all_slices (fuel : nat) (h : heap) (v : BytesView) : result (list bytes * BytesView) :=
  let? empty := view_is_empty v in
  if empty then Ok ([], v)
  else match fuel with
       | O => Panic
       | S fuel =>
           let? slice := first_slice h v in
           let? v := view_advance v (Z.of_nat (length slice)) in
           let? (rest, v) := consume_all_slices fuel h v in
           Ok (slice :: rest, v)
       end.

(** ** Comparing *)

(** The span that an index one past it names. *)
Definition span_before (h : heap) (ss : list Span) (idx : nat) : result bytes :=
  match idx with
  | O => Panic
  | S i => let? s := expect (ss !! i) in expect (deref h s)
  end.

(** [s.get(offset..)]. *)
Definition get_from (c : bytes) (offset : Z) : option bytes :=
  if offset <=? Z.of_nat (length c) then Some (drop (Z.to_nat offset) c) else None.

(** [NonZero::new(..).expect(..)]. *)
Definition non_zero (n : Z) : result Z := if n =? 0 then Panic else Ok n.

(** Moves a cursor [n] bytes on in the span [c]. *)
Definition move_cursor (idx : nat) (offset n : Z) (c : bytes) : result (nat * Z) :=
  let offset := offset + n in
  let? _ := debug_assert debug (offset <=? Z.of_nat (length c)) in
  Ok (if offset =? Z.of_nat (length c) then (pred idx, 0) else (idx, offset)).

Fixpoint view_eq_loop (fuel : nat) (h : heap) (ss ss' : list Span) (c c' : nat * Z) (remaining : Z) : result bool :=
  if remaining <=? 0 then Ok true
  else match fuel with
       | O => Panic
       | S fuel =>
           let? span := span_before h ss c.1 in
           let? span' := span_before h ss' c'.1 in
           let? slice := expect (get_from span c.2) in
           let? slice' := expect (get_from span' c'.2) in
           let? n := non_zero (Z.of_nat (Nat.min (length slice) (length slice'))) in
           if negb (bytes_eqb (take (Z.to_nat n) slice) (take (Z.to_nat n) slice')) then Ok false
           else
             let? c := move_cursor c.1 c.2 n span in
             let? c' := move_cursor c'.1 c'.2 n span' in
             let? remaining := expect (checked_sub remaining n) in
             view_eq_loop fuel h ss ss' c c' remaining
       end.

(** [PartialEq for BytesView]. *)
Definition view_eq (h : heap) (v v' : BytesView) : result bool :=
  let? len := view_len v in
  let? len' := view_len v' in
  if negb (len =? len') then Ok false
  else view_eq_loop (Z.to_nat len) h (spans_reversed v) (spans_reversed v')
         (length (spans_reversed v), 0) (length (spans_reversed v'), 0) len.

Fixpoint slice_eq_loop (fuel : nat) (h : heap) (ss : list Span) (c : nat * Z) (other : bytes) (remaining : Z) : result bool :=
  if remaining <=? 0 then Ok true
  else match fuel with
       | O => Panic
       | S fuel =>
           let? span := span_before h ss c.1 in
           let? slice := expect (get_from span c.2) in
           let? n := non_zero (Z.of_nat (length slice)) in
           let? other_slice := slice_to other (Z.to_nat n) in
           if negb (bytes_eqb slice other_slice) then Ok false
           else
             let? c := move_cursor c.1 c.2 n span in
             let? other := slice_from other (Z.to_nat n) in
             let? remaining := expect (checked_sub remaining n) in
             slice_eq_loop fuel h ss c other remaining
       end.

(** [PartialEq<&[u8]> for BytesView]. *)
Definition view_eq_slice (h : heap) (v : BytesView) (other : bytes) : result bool :=
  let? len := view_len v in
  if negb (len =? Z.of_nat (length other)) then Ok false
  else slice_eq_loop (Z.to_nat len) h (spans_reversed v) (length (spans_reversed v), 0) other len.

(** ** Hashing *)

Definition HASH_BLOCK_BYTES : nat := 64.

(** The inner loop of [Hash::hash] over one span: [block] is the filled part of the block
    buffer and [calls] the [write] calls so far. *)
Fixpoint hash_span (fuel : nat) (remaining block : bytes) (calls : list bytes) : result (bytes * list bytes) :=
  match remaining with
  | [] => Ok (block, calls)
  | _ =>
      match fuel with
      | O => Panic
      | S fuel =>
          if (Nat.eqb (length block) 0) && (Nat.leb HASH_BLOCK_BYTES (length remaining)) then
            hash_span fuel (drop HASH_BLOCK_BYTES remaining) block (calls ++ [take HASH_BLOCK_BYTES remaining])
          else
            let n := Nat.min (HASH_BLOCK_BYTES - length block) (length remaining) in
            let block := block ++ take n remaining in
            let remaining := drop n remaining in
            if Nat.eqb (length block) HASH_BLOCK_BYTES
            then hash_span fuel remaining [] (calls ++ [block])
            else hash_span fuel remaining block calls
      end
  end.

Fixpoint hash_spans (h : heap) (ss : list Span) (block : bytes) (calls : list bytes) : result (bytes * list bytes) :=
  match ss with
  | [] => Ok (block, calls)
  | s :: ss =>
      let? c := expect (deref h s) in
      let? (block, calls) := hash_span (length c) c block calls in
      hash_spans h ss block calls
  end.

(** The length that is hashed first, and the [write] calls after it. *)
Definition view_hash (h : heap) (v : BytesView) : result (Z * list bytes) :=
  let? (block, calls) := hash_spans h (view_spans v) [] [] in
  Ok (v_len v, if Nat.ltb 0 (length block) then calls ++ [block] else calls).
End view.

(** ** What a view represents *)

(** The view's bytes are [bs]. *)
Record view_rep (h : heap) (v : BytesView) (bs : bytes) : Prop := {
  vr_spans : Forall span_ok (spans_reversed v);
  vr_bytes : spans_bytes h (view_spans v) = Some bs;
  vr_len : v_len v = Z.of_nat (length bs);
  vr_bound : v_len v <= usize_max }.

Section facts.
Context (debug : bool).

Lemma view_ok_spans h v bs : view_rep h v bs -> Forall span_ok (view_spans v).
Proof. intros [H _ _ _]. by apply Forall_rev. Qed.

Lemma sum_view_spans v : sum_Z (s_len <$> view_spans v) = sum_Z (s_len <$> spans_reversed v).
Proof. unfold view_spans. rewrite <- (sum_Z_rev (s_len <$> spans_reversed v)). f_equal. apply map_rev. Qed.

Lemma view_len_ok h v bs : view_rep h v bs -> view_len debug v = Ok (Z.of_nat (length bs)).
Proof.
  intros Hv. unfold view_len. rewrite debug_assert_true.
  - by rewrite (vr_len _ _ _ Hv).
  - apply Z.eqb_eq. rewrite <- sum_view_spans, (vr_len _ _ _ Hv).
    eapply spans_bytes_length; [by eapply view_ok_spans|]. apply Hv.
Qed.

Lemma view_rep_new h : view_rep h view_new [].
Proof. by split. Qed.

(** A view made of spans in content order. *)
Lemma view_rep_of_spans h ss bs len : Forall span_ok ss -> spans_bytes h ss = Some bs ->
  len = Z.of_nat (length bs) -> len <= usize_max -> view_rep h (mkView (rev ss) len) bs.
Proof. intros Hs Hb -> Hl. split; cbn; [by apply Forall_rev| |done..]. unfold view_spans. cbn. by rewrite rev_involutive. Qed.

Lemma sum_lens_ok ss acc : Forall span_ok ss -> acc + sum_Z (s_len <$> ss) <= usize_max ->
  sum_lens acc ss = Ok (acc + sum_Z (s_len <$> ss)).
Proof.
  intros Hs. revert acc. induction Hs as [|s ss [_ Hs] Hss IH]; intros acc Hb; cbn in *; [f_equal; change (sum_Z []) with 0; lia|]. rewrite sum_Z_cons in *.
  assert (0 <= sum_Z (s_len <$> ss)).
  { apply sum_Z_nonneg, Forall_fmap. eapply Forall_impl; [exact Hss|]. intros ? [_ ?]. cbn. lia. }
  rewrite checked_add_Some by lia. cbn. rewrite IH by lia. f_equal. lia.
Qed.

Lemma from_spans_reversed_ok h ss bs : Forall span_ok ss -> spans_bytes h (rev ss) = Some bs ->
  Z.of_nat (length bs) <= usize_max ->
  exists v, from_spans_reversed debug ss = Ok v /\ view_rep h v bs /\ spans_reversed v = ss.
Proof.
  intros Hs Hb Hl. assert (Hsum : Z.of_nat (length bs) = sum_Z (s_len <$> ss)).
  { rewrite (spans_bytes_length _ _ _ (Forall_rev Hs) Hb). apply (sum_view_spans (mkView ss 0)). }
  unfold from_spans_reversed. rewrite debug_assert_true.
  - rewrite sum_lens_ok by (done || lia). eexists. split; [done|]. split; [|done].
    replace ss with (rev (rev ss)) at 1 by apply rev_involutive. apply view_rep_of_spans; [by apply Forall_rev|done|lia|lia].
  - apply forallb_forall. intros s Hin%list_elem_of_In. rewrite Forall_forall in Hs. destruct (Hs _ Hin) as [_ ?].
    unfold span_is_empty. destruct (Z.eqb_spec (s_len s) 0); [lia|done].
Qed.

(** ** Ranges *)

(** The first pass over spans that the range begins in: it stops at the span the range
    ends in, and leaves what is behind the range in it. *)
Lemma range_pass1_take ss : forall inside p, Forall span_ok ss ->
  0 < inside <= sum_Z (s_len <$> ss) -> spans_in_range p + Z.of_nat (length ss) <= usize_max ->
  exists mid post leave, ss = mid ++ post /\ mid <> []
    /\ range_pass1 ss 0 inside p
       = Ok (mkPass1 (spans_until_range p) (spans_in_range p + Z.of_nat (length mid)) (bytes_to_skip_in_first p) leave)
    /\ leave = sum_Z (s_len <$> mid) - inside
    /\ exists front m, mid = front ++ [m] /\ 0 <= leave < s_len m.
Proof.
  induction ss as [|s ss IH]; intros inside p Hok Hin Hcount; [change (sum_Z (s_len <$> [])) with 0 in Hin; lia|].
  apply Forall_cons in Hok as [[_ Hs] Hss]. cbn [fmap list_fmap] in *. rewrite sum_Z_cons in Hin. cbn [length] in Hcount.
  cbn [range_pass1]. rewrite (proj2 (Z.ltb_ge 0 0)) by lia. cbn [andb negb Z.eqb].
  change (try_into_u32 0) with (Some 0). cbn [expect]. rewrite (checked_sub_Some (s_len s) 0) by lia. cbn [expect].
  rewrite Z.sub_0_r, wrap32_small by (unfold block_size_max in *; lia). rewrite checked_sub_Some by lia. cbn [expect].
  rewrite checked_add_Some by lia. cbn [expect]. rewrite checked_sub_Some by lia. cbn [expect].
  destruct (Z.eqb_spec (inside - Z.min (s_len s) inside) 0) as [Hz|Hnz].
  - exists [s], ss, (s_len s - Z.min (s_len s) inside). split_and!; [done|done|done|cbn; rewrite sum_Z_cons; change (sum_Z []) with 0; lia|].
    exists [], s. split; [done|]. lia.
  - assert (s_len s < inside) by lia. rewrite Z.min_l in * by lia.
    destruct (IH (inside - s_len s) (mkPass1 (spans_until_range p) (spans_in_range p + 1) (bytes_to_skip_in_first p) (s_len s - s_len s)))
      as (mid & post & leave & -> & Hne & Heq & Hleave & front & m & -> & Hm); [done|lia|cbn [spans_in_range]; lia|].
    exists (s :: front ++ [m]), post, leave. split_and!; [done|done| | |].
    + rewrite Heq. cbn. do 2 f_equal. lia.
    + cbn [fmap list_fmap]. rewrite sum_Z_cons. lia.
    + exists (s :: front), m. done.
Qed.

(** The whole first pass: [pre] is before the range and [mid] touches it. *)
Record pass1_spec (ss : list Span) (until inside : Z) (p r : Pass1) (pre mid post : list Span) : Prop := {
  p1_split : ss = pre ++ mid ++ post;
  p1_until : spans_until_range r = spans_until_range p + Z.of_nat (length pre);
  p1_in : spans_in_range r = spans_in_range p + Z.of_nat (length mid);
  p1_skip : bytes_to_skip_in_first r = until - sum_Z (s_len <$> pre);
  p1_leave : bytes_to_leave_in_last r = sum_Z (s_len <$> mid) - bytes_to_skip_in_first r - inside;
  p1_first : exists m rest, mid = m :: rest /\ 0 <= bytes_to_skip_in_first r < s_len m;
  p1_last : exists front m, mid = front ++ [m] /\ 0 <= bytes_to_leave_in_last r < s_len m }.

Lemma range_pass1_ok ss : forall u inside p, Forall span_ok ss -> 0 <= u -> 0 < inside ->
  u + inside <= sum_Z (s_len <$> ss) -> bytes_to_skip_in_first p = 0 ->
  0 <= spans_until_range p -> 0 <= spans_in_range p ->
  spans_until_range p + Z.of_nat (length ss) <= usize_max -> spans_in_range p + Z.of_nat (length ss) <= usize_max ->
  exists r pre mid post, range_pass1 ss u inside p = Ok r /\ pass1_spec ss u inside p r pre mid post.
Proof.
  induction ss as [|s ss IH]; intros u inside p Hok Hu Hi Hsum Hsk Hp1 Hp2 Hc1 Hc2; [change (sum_Z (s_len <$> [])) with 0 in Hsum; lia|].
  destruct (decide (u = 0)) as [->|Hu0].
  { destruct (range_pass1_take (s :: ss) inside p) as (mid & post & leave & Hss & Hne & Heq & Hl & front & m & Hmid & Hm); [done|lia|done|].
    eexists _, [], mid, post. split; [exact Heq|]. split; cbn; rewrite ?Hsk; try done; try (change (sum_Z []) with 0; lia).
    - destruct mid as [|m' rest]; [done|]. exists m', rest. split; [done|]. rewrite Hss in Hok. apply Forall_app in Hok as [[[_ ?] _]%Forall_cons _]. lia.
    - by exists front, m. }
  apply Forall_cons in Hok as [[_ Hs] Hss]. cbn [fmap list_fmap length] in *. rewrite sum_Z_cons in Hsum. cbn [range_pass1].
  rewrite (proj2 (Z.ltb_lt 0 u)) by lia. cbn [andb]. destruct (Z.leb_spec (s_len s) u) as [Hle|Hlt].
  - rewrite checked_add_Some by lia. cbn [expect]. rewrite checked_sub_Some by lia. cbn [expect].
    destruct (IH (u - s_len s) inside (mkPass1 (spans_until_range p + 1) (spans_in_range p) (bytes_to_skip_in_first p) (bytes_to_leave_in_last p)))
      as (r & pre & mid & post & Heq & [E1 E2 E3 E4 E5 E6 E7]); cbn [spans_until_range spans_in_range bytes_to_skip_in_first]; try done; try lia.
    exists r, (s :: pre), mid, post. split; [exact Heq|]. cbn in E2, E3. split; try done; try (by rewrite E1); cbn [length fmap list_fmap]; rewrite ?sum_Z_cons; lia.
  - assert (Htry : try_into_u32 u = Some u) by (unfold try_into_u32; rewrite (proj2 (Z.leb_le _ _)); [done|unfold block_size_max in *; lia]).
    rewrite Htry. cbn [expect]. rewrite (proj2 (Z.eqb_neq u 0)) by done. cbn [negb].
    rewrite checked_sub_Some by lia. cbn [expect]. rewrite wrap32_small by (unfold block_size_max in *; lia).
    rewrite checked_sub_Some by lia. cbn [expect]. rewrite checked_add_Some by lia. cbn [expect]. rewrite checked_sub_Some by lia. cbn [expect].
    destruct (Z.eqb_spec (inside - Z.min (s_len s - u) inside) 0) as [Hz|Hnz].
    + eexists _, [], [s], ss. split; [done|]. split; cbn; rewrite ?sum_Z_cons; change (sum_Z []) with 0; try done; try lia.
      * exists s, []. split; [done|lia].
      * exists [], s. split; [done|lia].
    + assert (s_len s - u < inside) by lia. rewrite Z.min_l in * by lia.
      destruct (range_pass1_take ss (inside - (s_len s - u)) (mkPass1 (spans_until_range p) (spans_in_range p + 1) u (s_len s - u - (s_len s - u))))
        as (mid & post & leave & -> & Hne & Heq & Hl & front & m & -> & Hm); [done|lia|cbn [spans_in_range]; lia|].
      eexists _, [], (s :: front ++ [m]), post. split; [exact Heq|]. split; cbn [spans_until_range spans_in_range bytes_to_skip_in_first bytes_to_leave_in_last length fmap list_fmap app];
        rewrite ?sum_Z_cons; change (sum_Z []) with 0; try done; try lia.
      * exists s, (front ++ [m]). split; [done|lia].
      * exists (s :: front), m. done.
Qed.

(** The second pass without bytes to leave: all but the first [skip] bytes are taken. *)
Lemma range_pass2_ok h mid : forall skip remaining acc bs, Forall span_ok mid -> spans_bytes h mid = Some bs ->
  (exists m rest, mid = m :: rest /\ 0 <= skip < s_len m) -> sum_Z (s_len <$> mid) = skip + remaining ->
  exists out, range_pass2 (rev mid) remaining skip 0 acc = Ok (acc ++ rev out)
    /\ Forall span_ok out /\ spans_bytes h out = Some (drop (Z.to_nat skip) bs)
    /\ forall c, c ∈ spans_cells out -> c ∈ spans_cells mid.
Proof.
  induction mid as [|m mid IH] using rev_ind; intros skip remaining acc bs Hok Hb Hfirst Hsum; [by destruct Hfirst as (? & ? & ? & _)|].
  apply Forall_app in Hok as [Hok [[Hm0 Hm] _]%Forall_cons]. apply spans_bytes_app_Some in Hb as (x & y & Hx & Hy & ->).
  apply spans_bytes_cons in Hy as (c & y' & Hc & [= <-] & ->). rewrite app_nil_r.
  rewrite rev_app_distr. cbn [rev app range_pass2]. rewrite (proj2 (Z.ltb_ge 0 0)) by lia.
  rewrite fmap_app, sum_Z_app in Hsum. cbn [fmap list_fmap] in Hsum. rewrite sum_Z_cons in Hsum. change (sum_Z []) with 0 in Hsum.
  assert (Hlc : Z.of_nat (length c) = s_len m) by by apply (deref_length h).
  assert (Hmid : 0 <= sum_Z (s_len <$> mid)).
  { apply sum_Z_nonneg, Forall_fmap. eapply Forall_impl; [exact Hok|]. intros ? [_ ?]. cbn. lia. }
  unfold block_size_max in Hm. destruct mid as [|m' mid]; destruct Hfirst as (m1 & rest & [= <- <-] & Hskip).
  - clear IH. injection Hx as <-. cbn in Hsum. change (sum_Z []) with 0 in Hsum. cbn [app].
    rewrite wrap32_small by lia. rewrite (proj2 (Z.leb_le _ _)) by lia. cbn [andb]. exists [mkSpan (s_block m) (s_start m + skip) remaining].
    assert (Hout : Forall span_ok [mkSpan (s_block m) (s_start m + skip) remaining]
      /\ spans_bytes h [mkSpan (s_block m) (s_start m + skip) remaining] = Some (drop (Z.to_nat skip) c)
      /\ forall x, x ∈ spans_cells [mkSpan (s_block m) (s_start m + skip) remaining] -> x ∈ spans_cells [m]).
    { split; [repeat constructor; cbn; unfold block_size_max; lia|]. split.
      2: { intros x. unfold spans_cells. cbn. rewrite !app_nil_r. apply span_part_cells; lia. }
      cbn. rewrite (deref_part h m c) by (done || lia). cbn. rewrite app_nil_r, take_ge; [done|]. rewrite length_drop. lia. }
    split; [|exact Hout]. destruct (Z.ltb_spec 0 skip) as [Hs|Hs].
    + rewrite checked_sub_Some by lia. cbn [expect]. rewrite checked_sub_Some by lia. cbn [expect].
      rewrite (proj2 (Z.leb_le _ _)) by (unfold block_size_max; lia). cbn [expect].
      rewrite span_slice_ok by (unfold block_size_max; lia). cbn. do 4 f_equal. lia.
    + rewrite checked_sub_Some by lia. cbn [expect]. rewrite span_slice_ok by (unfold block_size_max; lia). cbn. do 4 f_equal; lia.
  - cbn [fmap list_fmap] in Hsum, Hmid. rewrite sum_Z_cons in *.
    assert (0 <= sum_Z (s_len <$> mid)).
    { apply sum_Z_nonneg, Forall_fmap. apply Forall_cons in Hok as [_ Hok]. eapply Forall_impl; [exact Hok|]. intros ? [_ ?]. cbn. lia. }
    rewrite wrap32_small by lia. rewrite (proj2 (Z.leb_gt _ _)) by lia. cbn [andb]. rewrite checked_sub_Some by lia. cbn [expect].
    rewrite span_slice_ok by (unfold block_size_max; lia).
    destruct (IH skip (remaining - Z.min (s_len m) remaining) (acc ++ [mkSpan (s_block m) (s_start m + 0) (Z.min (s_len m) remaining - 0)]) x)
      as (out & Heq & Hout & Hbytes & Hcells); [done|done|by exists m', mid|cbn [fmap list_fmap]; rewrite sum_Z_cons; lia|].
    exists (out ++ [m]). rewrite Heq. split_and!.
    + rewrite rev_app_distr. cbn [rev app]. rewrite <- (assoc_L (++)). cbn [app].
      replace (mkSpan (s_block m) (s_start m + 0) (Z.min (s_len m) remaining - 0)) with m; [done|].
      destruct m as [b st l]. cbn in *. f_equal; lia.
    + apply Forall_app. split; [done|]. apply Forall_singleton. split; [done|]. unfold block_size_max. lia.
    + rewrite spans_bytes_app, Hbytes. cbn. rewrite Hc. cbn. rewrite app_nil_r. f_equal. symmetry. apply drop_app_le.
      apply spans_bytes_length in Hx; [|done]. cbn [fmap list_fmap] in Hx. rewrite sum_Z_cons in Hx. lia.
    + intros c0. rewrite !spans_cells_app, !elem_of_app. intros [?%Hcells|?]; [by left|by right].
Qed.

(** Leaving bytes of the last span is like shortening it. *)
Lemma range_pass2_leave m ss remaining skip leave acc : span_ok m -> 0 <= leave < s_len m -> 0 <= remaining ->
  range_pass2 (m :: ss) remaining skip leave acc
  = range_pass2 (mkSpan (s_block m) (s_start m) (s_len m - leave) :: ss) remaining skip 0 acc.
Proof.
  intros [_ Hm] Hl Hr. cbn [range_pass2 s_len]. unfold block_size_max in Hm. rewrite (proj2 (Z.ltb_ge 0 0)) by lia.
  assert (Hlet : (if 0 <? leave then expect (checked_sub (s_len m) leave) else Ok (s_len m)) = Ok (E:=Empty_set) (s_len m - leave)).
  { destruct (Z.ltb_spec 0 leave); [by rewrite checked_sub_Some by lia|]. f_equal. lia. }
  rewrite Hlet. rewrite wrap32_small by lia. destruct (_ && (0 <? skip)) eqn:Hf.
  - to_prop. unfold checked_sub at 1 3. destruct (Z.leb_spec skip (s_len m - leave)); [|done]. cbn [expect].
    destruct (checked_sub remaining _); [cbn [expect]|done]. rewrite (proj2 (Z.leb_le _ _)) by (unfold block_size_max; lia). cbn [expect].
    by rewrite !span_slice_ok by (cbn; unfold block_size_max; lia).
  - destruct (checked_sub remaining _); [cbn [expect]|done]. by rewrite !span_slice_ok by (cbn; unfold block_size_max; lia).
Qed.

(** The second pass over the spans that touch the range. *)
Lemma range_pass2_mid h front m bf c skip leave inside : span_ok m -> Forall span_ok front ->
  spans_bytes h front = Some bf -> deref h m = Some c -> 0 <= leave < s_len m -> 0 < inside ->
  (exists m1 rest, front ++ [m] = m1 :: rest /\ 0 <= skip < s_len m1) ->
  sum_Z (s_len <$> front) + s_len m = skip + inside + leave ->
  exists out, range_pass2 (rev (front ++ [m])) inside skip leave [] = Ok (rev out)
    /\ Forall span_ok out /\ spans_bytes h out = Some (take (Z.to_nat inside) (drop (Z.to_nat skip) (bf ++ c)))
    /\ forall x, x ∈ spans_cells out -> x ∈ spans_cells (front ++ [m]).
Proof.
  intros Hm Hf Hbf Hc Hl Hi Hfirst Hsum. set (m' := mkSpan (s_block m) (s_start m) (s_len m - leave)).
  assert (Hm' : span_ok m') by (destruct Hm; split; cbn; lia).
  assert (Hc' : deref h m' = Some (take (Z.to_nat (s_len m')) c)).
  { rewrite <- (drop_0 c). unfold m'. rewrite <- (Z.add_0_r (s_start m)). apply (deref_part h m c 0); [done|done|lia|cbn; lia..]. }
  destruct (range_pass2_ok h (front ++ [m']) skip inside [] (bf ++ take (Z.to_nat (s_len m')) c)) as (out & Hp2 & Hout & Hbytes & Hcells).
  - apply Forall_app. split; [done|]. by apply Forall_singleton.
  - rewrite spans_bytes_app, Hbf. cbn. rewrite Hc'. cbn. by rewrite app_nil_r.
  - destruct Hfirst as (m1 & rest & Heq & Hs). destruct front as [|f front]; injection Heq as <- <-.
    + exists m', []. split; [done|]. cbn in *. change (sum_Z []) with 0 in Hsum. lia.
    + exists f, (front ++ [m']). done.
  - rewrite fmap_app, sum_Z_app. cbn. rewrite sum_Z_cons. change (sum_Z []) with 0. lia.
  - exists out. split_and!; [|done| |].
    3: { intros x Hx. apply Hcells in Hx. rewrite spans_cells_app, elem_of_app in *. destruct Hx as [|Hx]; [by left|right].
         unfold spans_cells in *. cbn in *. rewrite app_nil_r in *. apply (span_part_cells m 0 (s_len m - leave)); [lia|lia|]. by rewrite Z.add_0_r. }
    + rewrite rev_app_distr in *. cbn [rev app] in *. by rewrite range_pass2_leave by (done || lia).
    + rewrite Hbytes. f_equal. apply spans_bytes_length in Hbf; [|done]. cbn [m' s_len].
      rewrite take_drop_commute. f_equal.
      replace (Z.to_nat skip + Z.to_nat inside)%nat with (length bf + Z.to_nat (s_len m - leave))%nat;
        [by rewrite take_app_add'|]. destruct Hfirst as (? & ? & _ & ?). lia.
Qed.

Lemma range_general_ok h v bs start inside : view_rep h v bs -> 0 <= start -> 0 < inside ->
  start + inside <= Z.of_nat (length bs) ->
  exists p ss, range_pass1 (view_spans v) start inside (mkPass1 0 0 0 0) = Ok p
    /\ range_pass2 (rev (take (Z.to_nat (spans_in_range p)) (drop (Z.to_nat (spans_until_range p)) (view_spans v))))
         inside (bytes_to_skip_in_first p) (bytes_to_leave_in_last p) [] = Ok ss
    /\ view_rep h (mkView ss inside) (take (Z.to_nat inside) (drop (Z.to_nat start) bs))
    /\ forall x, x ∈ spans_cells ss -> x ∈ spans_cells (spans_reversed v).
Proof.
  intros Hv Hs Hi Hsum. pose proof (view_ok_spans _ _ _ Hv) as Hok. pose proof (vr_bytes _ _ _ Hv) as Hb.
  pose proof (spans_bytes_length _ _ _ Hok Hb) as Hlen. pose proof (vr_bound _ _ _ Hv) as Hbound. rewrite (vr_len _ _ _ Hv) in Hbound.
  assert (Hcount : Z.of_nat (length (view_spans v)) <= sum_Z (s_len <$> view_spans v)).
  { clear -Hok. induction Hok as [|s ss [_ ?] _ IH]; [done|]. cbn [length fmap list_fmap]. rewrite sum_Z_cons. lia. }
  destruct (range_pass1_ok (view_spans v) start inside (mkPass1 0 0 0 0)) as (p & pre & mid & post & Heq & [E1 E2 E3 E4 E5 E6 E7]);
    cbn [spans_until_range spans_in_range bytes_to_skip_in_first]; try done; try lia.
  cbn in E2, E3. destruct E7 as (front & m & Hmid & Hleave). exists p. rewrite E2, E3, !Z.add_0_l, !Nat2Z.id, E1, drop_app_length, take_app_length.
  rewrite E1 in Hok, Hb. apply Forall_app in Hok as [Hokp [Hokm _]%Forall_app].
  apply spans_bytes_app_Some in Hb as (x & y & Hx & Hy & ->). apply spans_bytes_app_Some in Hy as (bm & z & Hbm & Hz & ->).
  rewrite Hmid in Hokm, Hbm. pose proof (proj1 (Forall_app _ _ _) Hokm) as [Hokf [Hokl _]%Forall_cons].
  apply spans_bytes_app_Some in Hbm as (bf & bl & Hbf & (c & r & Hc & [= <-] & ->)%spans_bytes_cons & ->). rewrite app_nil_r in *.
  assert (Hsplit : sum_Z (s_len <$> mid) = sum_Z (s_len <$> front) + s_len m).
  { rewrite Hmid, fmap_app, sum_Z_app. cbn. rewrite sum_Z_cons. change (sum_Z []) with 0. lia. }
  destruct (range_pass2_mid h front m bf c (bytes_to_skip_in_first p) (bytes_to_leave_in_last p) inside) as (out & Hp2 & Hout & Hbytes & Hcells);
    [done..|by rewrite <- Hmid|lia|].
  exists (rev out). split; [by rewrite <- E1|]. rewrite Hmid. split; [exact Hp2|]. split.
  2: { intros c0. rewrite spans_cells_rev. intros Hc0%Hcells. rewrite <- Hmid in Hc0. rewrite <- (spans_cells_rev (spans_reversed v)).
       fold (view_spans v). rewrite E1, !spans_cells_app, !elem_of_app. tauto. }
  apply view_rep_of_spans; [done| | |].
  - rewrite Hbytes. f_equal. apply spans_bytes_length in Hx; [|done]. apply spans_bytes_length in Hbf; [|done].
    assert (Hlc := deref_length h m c Hokl Hc). destruct E6 as (? & ? & _ & Hskip).
    replace (Z.to_nat start) with (length x + Z.to_nat (bytes_to_skip_in_first p))%nat by lia.
    rewrite <- drop_drop, drop_app_length, (drop_app_le (bf ++ c)) by (rewrite length_app; lia).
    symmetry. apply take_app_le. rewrite length_drop, length_app. lia.
  - rewrite length_take, length_drop. lia.
  - lia.
Qed.

(** The positions a range denotes in a sequence of [len] bytes. *)
Definition range_start (r : Bound * Bound) : Z :=
  match r.1 with Included x => x | Excluded x => x + 1 | Unbounded => 0 end.
Definition range_stop (len : Z) (r : Bound * Bound) : Z :=
  match r.2 with Included x => x + 1 | Excluded x => x | Unbounded => len end.
Definition usize_bound (b : Bound) : Prop :=
  match b with Included x | Excluded x => 0 <= x <= usize_max | Unbounded => True end.

(** Either the range is resolved, or it cannot be inside. *)
Lemma resolve_range_cases len r : 0 <= len <= usize_max -> usize_bound r.1 -> usize_bound r.2 ->
  (resolve_range usize_max len r = Some (range_start r, range_stop len r - range_start r)
    /\ 0 <= range_start r <= range_stop len r /\ range_stop len r <= usize_max)
  \/ (resolve_range usize_max len r = None /\ (range_stop len r < range_start r \/ len < range_stop len r)).
Proof.
  intros Hlen H1 H2. destruct r as [[a|a|] [b|b|]]; cbn in *; unfold resolve_range; cbn -[usize_max];
    repeat match goal with |- context [if ?x <=? ?y then _ else _] => destruct (Z.leb_spec x y); cbn -[usize_max] end;
    unfold checked_sub;
    repeat match goal with |- context [if ?x <=? ?y then _ else _] => destruct (Z.leb_spec x y); cbn -[usize_max] end;
    first [left; split; [done|lia] | right; split; [done|lia]].
Qed.

Lemma range_checked_ok h v bs r : view_rep h v bs -> usize_bound r.1 -> usize_bound r.2 ->
  let len := Z.of_nat (length bs) in
  if (range_start r <=? range_stop len r) && (range_stop len r <=? len)
  then exists v', range_checked debug v r = Ok (Some v')
         /\ view_rep h v' (take (Z.to_nat (range_stop len r - range_start r)) (drop (Z.to_nat (range_start r)) bs))
         /\ forall c, c ∈ spans_cells (spans_reversed v') -> c ∈ spans_cells (spans_reversed v)
  else range_checked debug v r = Ok None.
Proof.
  intros Hv H1 H2 len. unfold range_checked. rewrite (view_len_ok _ _ _ Hv). fold len.
  pose proof (vr_bound _ _ _ Hv) as Hb. rewrite (vr_len _ _ _ Hv) in Hb. fold len in Hb.
  destruct (resolve_range_cases len r) as [(Hres & Hr & Hmax)|[Hres Hr]]; [lia|done..| |]; rewrite Hres.
  2: { destruct (_ && _) eqn:Hc; [|done]. to_prop. lia. }
  set (start := range_start r) in *. set (stop := range_stop len r) in *. rewrite checked_add_Some by lia. cbn [expect].
  replace (start + (stop - start)) with stop by lia. rewrite (proj2 (Z.leb_le start stop)) by lia. cbn [andb].
  destruct (Z.leb_spec stop len) as [Hle|Hgt]; [rewrite (proj2 (Z.ltb_ge _ _)) by lia|by rewrite (proj2 (Z.ltb_lt _ _)) by lia].
  destruct (Z.eqb_spec (stop - start) 0) as [Hz|Hnz].
  { rewrite Hz. eexists. split; [done|]. split; [apply view_rep_new|]. by intros c ?%not_elem_of_nil. }
  destruct (range_general_ok h v bs start (stop - start) Hv) as (p & ss & Hp1 & Hp2 & Hrep & Hsub); [lia|lia|lia|].
  assert (Hgen : exists v', Ok (E:=Empty_set) (Some (mkView ss (stop - start))) = Ok (Some v') /\ view_rep h v' (take (Z.to_nat (stop - start)) (drop (Z.to_nat start) bs))
    /\ forall c, c ∈ spans_cells (spans_reversed v') -> c ∈ spans_cells (spans_reversed v)) by by eexists.
  destruct (last (spans_reversed v)) as [first|] eqn:Hlast; [|by rewrite Hp1, Hp2].
  destruct (Z.leb_spec stop (s_len first)) as [Hfst|_]; [clear Hp1 Hp2 Hrep Hsub Hgen|by rewrite Hp1, Hp2].
  apply last_Some in Hlast as [others Hss]. pose proof (view_ok_spans _ _ _ Hv) as Hok. pose proof (vr_bytes _ _ _ Hv) as Hbytes.
  unfold view_spans in *. rewrite Hss, rev_app_distr in *. cbn [rev app] in *. apply Forall_cons in Hok as [Hfok _].
  apply spans_bytes_cons in Hbytes as (c & rest & Hc & _ & Heq). pose proof (deref_length _ _ _ Hfok Hc) as Hlc.
  destruct Hfok as [? Hfl]. unfold block_size_max in Hfl. rewrite !wrap32_small by lia. rewrite span_slice_ok by (unfold block_size_max; lia).
  eexists. split; [done|]. split.
  2: { intros x. cbn [spans_reversed]. rewrite spans_cells_app, elem_of_app. unfold spans_cells at 1 3. cbn. rewrite !app_nil_r.
       intros Hx. right. revert Hx. apply span_part_cells; lia. }
  apply (view_rep_of_spans h [_]); [|cbn|rewrite length_take, length_drop; lia|lia].
  - repeat constructor; cbn; unfold block_size_max; lia.
  - rewrite (deref_part h first c) by (done || lia || (split; unfold block_size_max; lia)). cbn. rewrite app_nil_r, Heq. f_equal.
    rewrite drop_app_le by lia. symmetry. apply take_app_le. rewrite length_drop. lia.
Qed.

(** ** Advancing and reading *)

Lemma advance_loop_ok h ss : forall count bs, Forall span_ok ss -> spans_bytes h ss = Some bs ->
  0 <= count <= Z.of_nat (length bs) -> Z.of_nat (length bs) <= usize_max ->
  exists ss', advance_loop count ss = Ok ss' /\ Forall span_ok ss' /\ spans_bytes h ss' = Some (drop (Z.to_nat count) bs)
    /\ forall x, x ∈ spans_cells ss' -> x ∈ spans_cells ss.
Proof.
  induction ss as [|s ss IH]; intros count bs Hok Hb Hc Hm; cbn [advance_loop].
  { injection Hb as <-. cbn in Hc. rewrite (proj2 (Z.leb_le _ _)) by lia. exists []. by destruct (Z.to_nat count). }
  destruct (Z.leb_spec count 0) as [H0|H0].
  { exists (s :: ss). replace count with 0 by lia. by rewrite drop_0. }
  apply Forall_cons in Hok as [Hs Hss]. apply spans_bytes_cons in Hb as (c & rest & Hd & Hr & ->).
  pose proof (deref_length _ _ _ Hs Hd) as Hl. rewrite length_app in Hc, Hm.
  destruct (Z.ltb_spec count (s_len s)) as [Hlt|Hge].
  - rewrite span_advance_ok by (destruct Hs; lia). eexists. split; [done|]. split_and!.
    + constructor; [|done]. destruct Hs. split; cbn; lia.
    + cbn. rewrite (deref_part h s c) by (done || lia). cbn. rewrite Hr. cbn. rewrite drop_app_le by lia.
      rewrite take_ge by (rewrite length_drop; lia). done.
    + intros x. unfold spans_cells. cbn. rewrite !elem_of_app. intros [Hx|?]; [left|by right]. revert Hx. apply span_part_cells; destruct Hs; lia.
  - rewrite wrap64_small by lia. destruct (IH (count - s_len s) rest) as (ss' & Heq & Hss' & Hb' & Hsub); [done|done|lia|lia|].
    exists ss'. rewrite Hb', drop_app_ge by lia. split_and!; try done; [do 2 f_equal; lia|].
    intros x ?%Hsub. unfold spans_cells. cbn. apply elem_of_app. by right.
Qed.

Lemma view_advance_ok h v bs count : view_rep h v bs -> 0 <= count <= Z.of_nat (length bs) ->
  exists v', view_advance v count = Ok v' /\ view_rep h v' (drop (Z.to_nat count) bs)
    /\ forall x, x ∈ spans_cells (spans_reversed v') -> x ∈ spans_cells (spans_reversed v).
Proof.
  intros Hv Hc. pose proof (vr_bound _ _ _ Hv) as Hb. rewrite (vr_len _ _ _ Hv) in Hb.
  unfold view_advance. rewrite (vr_len _ _ _ Hv), checked_sub_Some by lia. cbn [expect].
  destruct (advance_loop_ok h (view_spans v) count bs) as (ss' & -> & Hok & Hbytes & Hsub); [by eapply view_ok_spans|apply Hv|done|done|].
  eexists. split; [done|]. split; [|intros x; cbn [spans_reversed]; rewrite spans_cells_rev; intros ?%Hsub; by rewrite <- spans_cells_rev].
  apply view_rep_of_spans; [done..|rewrite length_drop; lia|lia].
Qed.

(** The front span of a view that is not empty. *)
Lemma view_front h v bs : view_rep h v bs -> bs <> [] ->
  exists others front c rest, spans_reversed v = others ++ [front] /\ span_ok front /\ deref h front = Some c
    /\ c <> [] /\ spans_bytes h (rev others) = Some rest /\ bs = c ++ rest /\ Forall span_ok others.
Proof.
  intros Hv Hne. pose proof (vr_bytes _ _ _ Hv) as Hb. pose proof (vr_spans _ _ _ Hv) as Hok. unfold view_spans in Hb.
  destruct (spans_reversed v) as [|front others _] using rev_ind; [by injection Hb as <-|].
  rewrite rev_app_distr in Hb. cbn [rev app] in Hb. apply spans_bytes_cons in Hb as (c & rest & Hc & Hr & ->).
  apply Forall_app in Hok as [Hok [Hf _]%Forall_cons]. exists others, front, c, rest. split_and!; try done.
  intros ->. apply deref_length in Hc; [|done]. destruct Hf. cbn in Hc. lia.
Qed.

Lemma first_slice_ok h v bs : view_rep h v bs -> bs <> [] ->
  exists c rest, first_slice h v = Ok c /\ c <> [] /\ bs = c ++ rest.
Proof.
  intros Hv Hne. destruct (view_front _ _ _ Hv Hne) as (others & front & c & rest & Hs & _ & Hd & Hc & _ & -> & _).
  exists c, rest. unfold first_slice. by rewrite Hs, last_snoc, Hd.
Qed.

Lemma copy_loop_ok h fuel : forall v bs n, view_rep h v bs -> 0 <= n <= Z.of_nat (length bs) -> (Z.to_nat n <= fuel)%nat ->
  exists v', copy_loop fuel h v n = Ok (take (Z.to_nat n) bs, v') /\ view_rep h v' (drop (Z.to_nat n) bs).
Proof.
  induction fuel as [|fuel IH]; intros v bs n Hv Hn Hf; cbn [copy_loop].
  { rewrite (proj2 (Z.leb_le _ _)) by lia. replace n with 0 by lia. by exists v. }
  destruct (Z.leb_spec n 0) as [H0|H0]; [replace n with 0 by lia; by exists v|].
  destruct (first_slice_ok _ _ _ Hv) as (c & rest & -> & Hc & ->); [destruct bs; [cbn in Hn; lia|done]|].
  assert (0 < length c)%nat by (destruct c; [done|cbn; lia]). rewrite length_app in Hn.
  destruct (view_advance_ok h v (c ++ rest) (Z.min n (Z.of_nat (length c)))) as (v1 & -> & Hv1 & _); [done|rewrite length_app; lia|].
  destruct (IH v1 _ (n - Z.min n (Z.of_nat (length c))) Hv1) as (v' & -> & Hv'); [rewrite length_drop, length_app; lia|lia|].
  exists v'. split; [|by rewrite drop_drop in Hv'; replace (Z.to_nat n) with (Z.to_nat (Z.min n (Z.of_nat (length c))) + Z.to_nat (n - Z.min n (Z.of_nat (length c))))%nat by lia].
  do 2 f_equal. destruct (decide (n <= Z.of_nat (length c))).
  - rewrite Z.min_l, Z.sub_diag, take_0, app_nil_r by lia. symmetry. apply take_app_le. lia.
  - rewrite Z.min_r, Nat2Z.id, drop_app_length, take_ge by lia. rewrite take_app_ge by lia. do 2 f_equal. lia.
Qed.

Lemma copy_to_slice_ok h v bs n : view_rep h v bs -> 0 <= n <= Z.of_nat (length bs) ->
  exists v', copy_to_slice debug h v n = Ok (take (Z.to_nat n) bs, v') /\ view_rep h v' (drop (Z.to_nat n) bs).
Proof.
  intros Hv Hn. unfold copy_to_slice. rewrite (view_len_ok _ _ _ Hv). unfold rust_assert.
  rewrite (proj2 (Z.leb_le _ _)) by lia. by apply copy_loop_ok.
Qed.

(** The view after the first [n] bytes of its front span are taken. *)
Lemma front_taken h v others front c rest n : view_rep h v (c ++ rest) -> spans_reversed v = others ++ [front] ->
  span_ok front -> deref h front = Some c -> spans_bytes h (rev others) = Some rest -> Forall span_ok others ->
  0 < n <= s_len front ->
  view_rep h (mkView (if s_len front =? n then others else others ++ [span_advance front n]) (wrap64 (v_len v - n)))
    (drop (Z.to_nat n) (c ++ rest)).
Proof.
  intros Hv Hs Hf Hd Hr Ho Hn. pose proof (deref_length _ _ _ Hf Hd) as Hl. pose proof (vr_bound _ _ _ Hv) as Hb.
  pose proof (vr_len _ _ _ Hv) as Hlen. rewrite length_app in Hlen. rewrite wrap64_small by lia.
  destruct (Z.eqb_spec (s_len front) n) as [Heq|Hne].
  - rewrite <- (rev_involutive others) at 1. apply view_rep_of_spans; [by apply Forall_rev| |rewrite length_drop, length_app; lia|lia].
    rewrite Hr. f_equal. symmetry. replace (Z.to_nat n) with (length c) by lia. apply drop_app_length.
  - rewrite span_advance_ok by (destruct Hf; lia).
    replace (others ++ [_]) with (rev (mkSpan (s_block front) (s_start front + n) (s_len front - n) :: rev others))
      by (cbn; by rewrite rev_involutive).
    apply view_rep_of_spans; [| |rewrite length_drop, length_app; lia|lia].
    + constructor; [|by apply Forall_rev]. destruct Hf. split; cbn; lia.
    + cbn. rewrite (deref_part h front c) by (done || lia). cbn. rewrite Hr. cbn. rewrite drop_app_le by lia.
      by rewrite take_ge by (rewrite length_drop; lia).
Qed.

Lemma get_byte_ok h v b bs : view_rep h v (b :: bs) -> exists v', get_byte h v = Ok (b, v') /\ view_rep h v' bs.
Proof.
  intros Hv. destruct (view_front _ _ _ Hv) as (others & front & c & rest & Hs & Hf & Hd & Hc & Hr & Heq & Ho); [done|].
  unfold get_byte. rewrite Hs, pop_last_snoc, Hd. cbn [expect]. destruct c as [|b' c]; [done|]. injection Heq as <- ->. cbn [lookup list_lookup expect].
  eexists. split; [done|]. apply (front_taken h v others front (b :: c) rest 1); try done. destruct Hf. lia.
Qed.

(** The fast path of [get_array] and the buffered one agree. *)
Lemma get_array_ok h v bs n : view_rep h v bs -> 0 < n <= Z.of_nat (length bs) ->
  exists v', get_array debug h v n = Ok (take (Z.to_nat n) bs, v') /\ view_rep h v' (drop (Z.to_nat n) bs).
Proof.
  intros Hv Hn. unfold get_array. rewrite (view_len_ok _ _ _ Hv). unfold rust_assert. rewrite (proj2 (Z.leb_le _ _)) by lia.
  destruct (view_front _ _ _ Hv) as (others & front & c & rest & Hs & Hf & Hd & Hc & Hr & -> & Ho); [destruct bs; [cbn in Hn; lia|done]|].
  unfold get_array_from_first_span. rewrite Hs, pop_last_snoc. pose proof (deref_length _ _ _ Hf Hd).
  destruct (Z.ltb_spec (s_len front) n) as [Hlt|Hge]; [apply copy_to_slice_ok; [done|lia]|].
  rewrite Hd. cbn [expect]. rewrite slice_to_ok by lia. eexists. split; [by rewrite take_app_le by lia|].
  apply front_taken; (done || lia).
Qed.

(** ** Joining views *)

Lemma view_append_ok h v v' bs bs' : view_rep h v bs -> view_rep h v' bs' ->
  Z.of_nat (length bs) + Z.of_nat (length bs') <= usize_max ->
  exists w, view_append debug v v' = Ok w /\ view_rep h w (bs ++ bs').
Proof.
  intros Hv Hv' Hl. unfold view_append, view_is_empty. rewrite (view_len_ok _ _ _ Hv), (view_len_ok _ _ _ Hv').
  rewrite (vr_len _ _ _ Hv), (vr_len _ _ _ Hv'), checked_add_Some by lia. cbn [expect].
  destruct (Z.eqb_spec (Z.of_nat (length bs')) 0) as [H0|_].
  - destruct bs'; [|done]. exists v. by rewrite app_nil_r.
  - eexists. split; [done|]. replace (spans_reversed v' ++ spans_reversed v) with (rev (view_spans v ++ view_spans v'))
      by (unfold view_spans; by rewrite rev_app_distr, !rev_involutive).
    apply view_rep_of_spans; [apply Forall_app; split; by eapply view_ok_spans| |rewrite length_app; lia|lia].
    rewrite spans_bytes_app, (vr_bytes _ _ _ Hv). cbn. by rewrite (vr_bytes _ _ _ Hv').
Qed.

Lemma slices_ok h v bs : view_rep h v bs -> exists cs, slices h v = Ok cs /\ concat cs = bs /\ Forall (fun c => c <> []) cs.
Proof.
  intros Hv. unfold slices. pose proof (vr_bytes _ _ _ Hv) as Hb. pose proof (vr_spans _ _ _ Hv) as Hok. unfold view_spans in Hb. clear Hv.
  assert (Hgen : forall i bs, (i <= length (spans_reversed v))%nat -> spans_bytes h (rev (take i (spans_reversed v))) = Some bs ->
    exists cs, slices_from h (spans_reversed v) i = Ok cs /\ concat cs = bs /\ Forall (fun c => c <> []) cs).
  2: { apply Hgen; [done|]. by rewrite take_ge. }
  clear Hb bs. induction i as [|i IH]; intros bs Hi Hb; cbn [slices_from].
  { injection Hb as <-. by exists []. }
  destruct (lookup_lt_is_Some_2 (spans_reversed v) i) as [s Hs]; [lia|]. rewrite Hs. cbn [expect].
  rewrite (take_S_r _ _ _ Hs), rev_app_distr in Hb. apply spans_bytes_cons in Hb as (c & rest & Hc & Hr & ->).
  rewrite Hc. cbn [expect]. destruct (IH rest) as (cs & -> & <- & Hcs); [lia|done|]. exists (c :: cs). split_and!; try done.
  constructor; [|done]. intros ->. rewrite Forall_lookup in Hok. apply deref_length in Hc; [|by eapply Hok].
  destruct (Hok _ _ Hs). cbn in Hc. lia.
Qed.

(** ** Comparing *)

(** The bytes from a cursor on. *)
Definition cursor_rep (h : heap) (ss : list Span) (c : nat * Z) (bs : bytes) : Prop :=
  (c.1 <= length ss)%nat /\ 0 <= c.2
  /\ exists w, spans_bytes h (rev (take c.1 ss)) = Some w /\ bs = drop (Z.to_nat c.2) w
  /\ match c.1 with
     | O => c.2 = 0
     | S i => exists s, ss !! i = Some s /\ c.2 < s_len s
     end.

Lemma cursor_start h v bs : view_rep h v bs -> cursor_rep h (spans_reversed v) (length (spans_reversed v), 0) bs.
Proof.
  intros Hv. split_and!; [done|done|]. exists bs. cbn [fst]. rewrite take_ge by done. split_and!; [apply Hv|done|].
  destruct (length (spans_reversed v)) as [|i] eqn:Hlen; [done|]. destruct (lookup_lt_is_Some_2 (spans_reversed v) i) as [s Hs]; [lia|].
  exists s. split; [done|]. pose proof (vr_spans _ _ _ Hv) as Hok. rewrite Forall_lookup in Hok. destruct (Hok _ _ Hs). cbn. lia.
Qed.

(** A cursor with bytes left is inside a span and moves on in it. *)
Lemma cursor_step h ss c bs : Forall span_ok ss -> cursor_rep h ss c bs -> bs <> [] ->
  exists span slice rest, span_before h ss c.1 = Ok span /\ get_from span c.2 = Some slice /\ slice <> [] /\ bs = slice ++ rest
    /\ forall n, 0 < n <= Z.of_nat (length slice) ->
         exists c', move_cursor debug c.1 c.2 n span = Ok c' /\ cursor_rep h ss c' (drop (Z.to_nat n) bs).
Proof.
  intros Hok (Hi & Ho & w & Hw & -> & Hin) Hne. destruct c as [[|i] o]; cbn in *.
  { injection Hw as <-. subst o. done. }
  destruct Hin as (s & Hs & Hos). rewrite (take_S_r _ _ _ Hs), rev_app_distr in Hw.
  apply spans_bytes_cons in Hw as (x & w' & Hx & Hw' & ->). rewrite Forall_lookup in Hok.
  pose proof (deref_length _ _ _ (Hok _ _ Hs) Hx) as Hlx. exists x, (drop (Z.to_nat o) x), w'.
  rewrite Hs. cbn. rewrite Hx. unfold get_from. rewrite (proj2 (Z.leb_le _ _)) by lia. rewrite drop_app_le by lia. split_and!; try done.
  { intros Hnil. apply (f_equal length) in Hnil. rewrite length_drop in Hnil. cbn in Hnil. lia. }
  intros n Hn. rewrite length_drop in Hn. unfold move_cursor. rewrite debug_assert_true by (apply Z.leb_le; lia).
  eexists. split; [done|]. destruct (Z.eqb_spec (o + n) (Z.of_nat (length x))) as [Heq|Hneq].
  - split_and!; cbn; [lia|lia|]. exists w'. split; [done|]. split.
    + rewrite drop_app_ge by (rewrite length_drop; lia). rewrite length_drop. f_equal. lia.
    + destruct i as [|i]; [done|]. destruct (lookup_lt_is_Some_2 ss i) as [s' Hs']; [apply lookup_lt_Some in Hs; lia|].
      exists s'. split; [done|]. destruct (Hok _ _ Hs'). lia.
  - split_and!; cbn; [lia|lia|]. exists (x ++ w'). rewrite (take_S_r _ _ _ Hs), rev_app_distr. cbn. rewrite Hx. cbn. rewrite Hw'.
    split_and!; [done| |by exists s; split; [done|lia]].
    rewrite <- drop_app_le, drop_drop by lia. f_equal. lia.
Qed.

Lemma view_eq_loop_ok h ss ss' fuel : forall c c' bs bs', Forall span_ok ss -> Forall span_ok ss' ->
  cursor_rep h ss c bs -> cursor_rep h ss' c' bs' -> length bs = length bs' -> (length bs <= fuel)%nat ->
  view_eq_loop debug fuel h ss ss' c c' (Z.of_nat (length bs)) = Ok (bytes_eqb bs bs').
Proof.
  induction fuel as [|fuel IH]; intros c c' bs bs' Hok Hok' Hc Hc' Hlen Hf; cbn [view_eq_loop].
  { destruct bs, bs'; try (cbn in *; lia). done. }
  destruct (Z.leb_spec (Z.of_nat (length bs)) 0) as [H0|H0]; [destruct bs, bs'; try (cbn in *; lia); done|].
  destruct (cursor_step h ss c bs) as (span & sl & rest & -> & Hget & Hsl & Hbs & Hmove); [done|done|by destruct bs|].
  destruct (cursor_step h ss' c' bs') as (span' & sl' & rest' & -> & Hget' & Hsl' & Hbs' & Hmove'); [done|done|destruct bs'; cbn in *; [lia|done]|].
  rewrite Hget, Hget'. cbn [expect]. set (k := Nat.min (length sl) (length sl')).
  assert (Hk : (0 < k)%nat) by (destruct sl, sl'; cbn in *; (done || lia)). unfold non_zero. rewrite (proj2 (Z.eqb_neq _ _)) by lia.
  rewrite Nat2Z.id.
  assert (Ht : take k bs = take k sl /\ take k bs' = take k sl') by (subst bs bs'; rewrite !take_app_le by lia; done).
  destruct Ht as [<- <-]. destruct (bytes_eqb (take k bs) (take k bs')) eqn:Heq; cbn [negb].
  - apply bytes_eqb_eq in Heq. destruct (Hmove (Z.of_nat k)) as (c1 & -> & Hc1); [lia|]. destruct (Hmove' (Z.of_nat k)) as (c1' & -> & Hc1'); [lia|].
    rewrite Nat2Z.id in Hc1, Hc1'. rewrite checked_sub_Some by (subst bs; rewrite length_app; lia). cbn [expect].
    replace (Z.of_nat (length bs) - Z.of_nat k) with (Z.of_nat (length (drop k bs))) by (rewrite length_drop; subst bs; rewrite length_app; lia).
    rewrite (IH c1 c1' (drop k bs) (drop k bs')); try done; [|rewrite !length_drop; lia..]. f_equal.
    apply bool_decide_ext. rewrite <- (take_drop k bs) at 2. rewrite <- (take_drop k bs') at 2. rewrite Heq. split; [by intros ->|apply app_inv_head].
  - apply bytes_eqb_neq in Heq. f_equal. symmetry. apply bytes_eqb_neq. by intros ->.
Qed.

Lemma view_eq_ok h v v' bs bs' : view_rep h v bs -> view_rep h v' bs' -> view_eq debug h v v' = Ok (bytes_eqb bs bs').
Proof.
  intros Hv Hv'. unfold view_eq. rewrite (view_len_ok _ _ _ Hv), (view_len_ok _ _ _ Hv').
  destruct (Z.eqb_spec (Z.of_nat (length bs)) (Z.of_nat (length bs'))) as [Heq|Hne]; cbn [negb].
  - rewrite Nat2Z.id. apply view_eq_loop_ok; [apply Hv|apply Hv'|by apply cursor_start..|lia|lia].
  - f_equal. symmetry. apply bytes_eqb_neq. by intros ->.
Qed.

Lemma slice_eq_loop_ok h ss fuel : forall c bs other, Forall span_ok ss -> cursor_rep h ss c bs ->
  length bs = length other -> (length bs <= fuel)%nat ->
  slice_eq_loop debug fuel h ss c other (Z.of_nat (length bs)) = Ok (bytes_eqb bs other).
Proof.
  induction fuel as [|fuel IH]; intros c bs other Hok Hc Hlen Hf; cbn [slice_eq_loop].
  { destruct bs, other; try (cbn in *; lia). done. }
  destruct (Z.leb_spec (Z.of_nat (length bs)) 0) as [H0|H0]; [destruct bs, other; try (cbn in *; lia); done|].
  destruct (cursor_step h ss c bs) as (span & sl & rest & -> & Hget & Hsl & Hbs & Hmove); [done|done|by destruct bs|].
  rewrite Hget. cbn [expect]. assert (Hk : (0 < length sl)%nat) by (destruct sl; cbn in *; (done || lia)).
  assert (Hl : (length sl <= length other)%nat) by (rewrite <- Hlen, Hbs, length_app; lia).
  unfold non_zero. rewrite (proj2 (Z.eqb_neq _ _)) by lia. rewrite Nat2Z.id, slice_to_ok by done.
  destruct (bytes_eqb sl (take (length sl) other)) eqn:Heq; cbn [negb].
  - apply bytes_eqb_eq in Heq. destruct (Hmove (Z.of_nat (length sl))) as (c1 & -> & Hc1); [lia|]. rewrite Nat2Z.id in Hc1.
    rewrite slice_from_ok by done. rewrite checked_sub_Some by (rewrite Hbs, length_app; lia). cbn [expect].
    replace (Z.of_nat (length bs) - Z.of_nat (length sl)) with (Z.of_nat (length (drop (length sl) bs))) by (rewrite length_drop, Hbs, length_app; lia).
    rewrite (IH c1 _ (drop (length sl) other)); [|done|done|rewrite !length_drop; lia|rewrite length_drop; lia]. f_equal.
    apply bool_decide_ext. rewrite Hbs, drop_app_length. rewrite <- (take_drop (length sl) other) at 2. rewrite <- Heq. split; [by intros ->|apply app_inv_head].
  - apply bytes_eqb_neq in Heq. f_equal. symmetry. apply bytes_eqb_neq. intros <-. apply Heq. by rewrite Hbs, take_app_length.
Qed.

Lemma view_eq_slice_ok h v bs other : view_rep h v bs -> view_eq_slice debug h v other = Ok (bytes_eqb bs other).
Proof.
  intros Hv. unfold view_eq_slice. rewrite (view_len_ok _ _ _ Hv).
  destruct (Z.eqb_spec (Z.of_nat (length bs)) (Z.of_nat (length other))) as [Heq|Hne]; cbn [negb].
  - rewrite Nat2Z.id. apply slice_eq_loop_ok; [apply Hv|by apply cursor_start|lia|lia].
  - f_equal. symmetry. apply bytes_eqb_neq. by intros ->.
Qed.

(** ** Hashing *)

(** The blocks of 64 bytes of a byte string; the last one may be shorter. *)
Fixpoint hash_blocks (fuel : nat) (bs : bytes) : list bytes :=
  match fuel, bs with
  | S fuel, _ :: _ => take HASH_BLOCK_BYTES bs :: hash_blocks fuel (drop HASH_BLOCK_BYTES bs)
  | _, _ => []
  end.

(** What is in the block buffer and what was written are the bytes seen so far. *)
Definition hash_inv (block : bytes) (calls : list bytes) (seen : bytes) : Prop :=
  concat calls ++ block = seen /\ Forall (fun c => length c = HASH_BLOCK_BYTES) calls /\ (length block < HASH_BLOCK_BYTES)%nat.

Lemma hash_inv_flush calls seen c : hash_inv [] calls seen -> length c = HASH_BLOCK_BYTES ->
  hash_inv [] (calls ++ [c]) (seen ++ c).
Proof.
  intros (H1 & H2 & H3) Hc. split_and!; [|apply Forall_app; by repeat constructor|done].
  rewrite app_nil_r in *. rewrite concat_app, H1. cbn. by rewrite app_nil_r.
Qed.

Lemma hash_span_ok fuel : forall rem block calls seen, hash_inv block calls seen -> (length rem <= fuel)%nat ->
  exists block' calls', hash_span fuel rem block calls = Ok (block', calls') /\ hash_inv block' calls' (seen ++ rem).
Proof.
  induction fuel as [|fuel IH]; intros rem block calls seen Hinv Hf; (destruct rem as [|x rem'] eqn:Hrem; [exists block, calls; by rewrite app_nil_r|]).
  { cbn in Hf. lia. }
  cbn [hash_span]. rewrite <- Hrem in *. assert (0 < length rem)%nat by (subst; cbn; lia). pose proof Hinv as (H1 & H2 & H3).
  destruct (_ && _) eqn:Hfast.
  - to_prop. destruct block; [|done]. destruct (IH (drop HASH_BLOCK_BYTES rem) [] (calls ++ [take HASH_BLOCK_BYTES rem]) (seen ++ take HASH_BLOCK_BYTES rem))
      as (b' & c' & -> & Hinv'); [apply hash_inv_flush; [done|rewrite length_take; lia]|rewrite length_drop; unfold HASH_BLOCK_BYTES in *; lia|].
    exists b', c'. split; [done|]. by rewrite <- (assoc_L (++)), take_drop in Hinv'.
  - set (n := Nat.min (HASH_BLOCK_BYTES - length block) (length rem)). assert (Hn : (0 < n <= length rem)%nat) by (unfold n; lia).
    assert (Hlen : length (block ++ take n rem) = (length block + n)%nat) by (rewrite length_app, length_take; lia).
    destruct (Nat.eqb_spec (length (block ++ take n rem)) HASH_BLOCK_BYTES) as [Hfull|Hpart].
    + destruct (IH (drop n rem) [] (calls ++ [block ++ take n rem]) (seen ++ take n rem)) as (b' & c' & -> & Hinv'); [|rewrite length_drop; lia|].
      { split_and!; [|apply Forall_app; by repeat constructor|unfold HASH_BLOCK_BYTES; cbn; lia].
        rewrite <- H1, concat_app. cbn. by rewrite !app_nil_r, (assoc_L (++)). }
      exists b', c'. split; [done|]. by rewrite <- (assoc_L (++)), take_drop in Hinv'.
    + destruct (IH (drop n rem) (block ++ take n rem) calls (seen ++ take n rem)) as (b' & c' & -> & Hinv'); [|rewrite length_drop; lia|].
      { split_and!; [by rewrite <- H1, (assoc_L (++))|done|]. rewrite Hlen in *. unfold n in *. lia. }
      exists b', c'. split; [done|]. by rewrite <- (assoc_L (++)), take_drop in Hinv'.
Qed.

Lemma hash_spans_ok h ss : forall block calls seen bs, hash_inv block calls seen -> spans_bytes h ss = Some bs ->
  exists block' calls', hash_spans h ss block calls = Ok (block', calls') /\ hash_inv block' calls' (seen ++ bs).
Proof.
  induction ss as [|s ss IH]; intros block calls seen bs Hinv Hb.
  { injection Hb as <-. exists block, calls. by rewrite app_nil_r. }
  apply spans_bytes_cons in Hb as (c & rest & Hc & Hr & ->). cbn [hash_spans]. rewrite Hc. cbn [expect].
  destruct (hash_span_ok (length c) c block calls seen) as (b1 & c1 & -> & H1); [done|done|].
  destruct (IH b1 c1 _ _ H1 Hr) as (b2 & c2 & -> & H2). exists b2, c2. by rewrite <- (assoc_L (++)) in H2.
Qed.

Lemma hash_blocks_unique calls : forall fuel block, Forall (fun c => length c = HASH_BLOCK_BYTES) calls ->
  (length block < HASH_BLOCK_BYTES)%nat -> (length (concat calls ++ block) <= fuel)%nat ->
  hash_blocks fuel (concat calls ++ block) = if Nat.ltb 0 (length block) then calls ++ [block] else calls.
Proof.
  induction calls as [|c calls IH]; intros fuel block Hc Hb Hf.
  - cbn in *. destruct block as [|x block]; [by destruct fuel|]. destruct fuel; [cbn in Hf; lia|].
    cbn [hash_blocks]. rewrite take_ge, drop_ge by lia. cbn. by destruct fuel.
  - apply Forall_cons in Hc as [Hc Hcs]. cbn [concat] in *. rewrite <- (assoc_L (++)) in *. rewrite length_app in Hf.
    destruct fuel as [|fuel]; [unfold HASH_BLOCK_BYTES in *; lia|]. destruct c as [|x c0] eqn:Ec; [done|]. rewrite <- Ec in *.
    replace (hash_blocks (S fuel) (c ++ concat calls ++ block))
      with (take HASH_BLOCK_BYTES (c ++ concat calls ++ block) :: hash_blocks fuel (drop HASH_BLOCK_BYTES (c ++ concat calls ++ block)))
      by (subst c; done).
    rewrite <- Hc at 1 2. rewrite take_app_length, drop_app_length, IH by (done || (unfold HASH_BLOCK_BYTES in *; lia)).
    by destruct (Nat.ltb 0 (length block)).
Qed.

Lemma view_hash_ok h v bs : view_rep h v bs -> view_hash h v = Ok (Z.of_nat (length bs), hash_blocks (length bs) bs).
Proof.
  intros Hv. unfold view_hash. destruct (hash_spans_ok h (view_spans v) [] [] [] bs) as (b & c & -> & H1 & H2 & H3).
  - split_and!; [done|done|]. unfold HASH_BLOCK_BYTES. cbn. lia.
  - apply Hv.
  - cbn in H1. rewrite (vr_len _ _ _ Hv). subst bs. by rewrite hash_blocks_unique.
Qed.
End facts.

(** ** The theorems *)

(** Slicing a view: [range_checked] returns a view of exactly the bytes of the range,
    for every form of the two bounds and however the bytes are split into spans, and [None]
    exactly when the range does not lie within the view; it never panics and only refers to
    memory that the view refers to. *)
Theorem view_range_is_slice (debug : bool) (h : heap) (v : BytesView) (bs : bytes) (r : Bound * Bound) :
  view_rep h v bs -> usize_bound r.1 -> usize_bound r.2 ->
  let len := Z.of_nat (length bs) in
  if (range_start r <=? range_stop len r) && (range_stop len r <=? len)
  then exists v', range_checked debug v r = Ok (Some v')
         /\ view_rep h v' (take (Z.to_nat (range_stop len r - range_start r)) (drop (Z.to_nat (range_start r)) bs))
         /\ forall c, c ∈ spans_cells (spans_reversed v') -> c ∈ spans_cells (spans_reversed v)
  else range_checked debug v r = Ok None.
Proof. apply range_checked_ok. Qed.

(** A view of "hello, world" in three spans of one block and of another. *)
Definition sample_heap : heap :=
  {[ 1%positive := Some <$> str "hello"; 2%positive := Some <$> str "xx, world" ]}.
Definition sample_view : BytesView := mkView [mkSpan 2 4 5; mkSpan 2 2 2; mkSpan 1 0 5] 12.

Lemma sample_view_rep : view_rep sample_heap sample_view (str "hello, world").
Proof. split; [repeat constructor; done|reflexivity|reflexivity|done]. Qed.

Lemma view_range_is_slice_witness :
  exists v', range_checked true sample_view (Included 3, Excluded 9) = Ok (Some v') /\ view_rep sample_heap v' (str "lo, wo")
    /\ forall c, c ∈ spans_cells (spans_reversed v') -> c ∈ spans_cells (spans_reversed sample_view).
Proof.
  exact (view_range_is_slice true sample_heap sample_view (str "hello, world") (Included 3, Excluded 9)
    sample_view_rep ltac:(cbn; unfold usize_max; lia) ltac:(cbn; unfold usize_max; lia)).
Defined.

(** The [Eq] and [Hash] contract of views: two views are equal exactly when their bytes are,
    whatever their spans, a view equals a slice exactly when its bytes do, equal views
    drive the hasher with the same calls, and those are the length and the blocks of 64
    bytes of the contents. *)
Theorem view_eq_hash_contract (debug : bool) (h : heap) (v v' : BytesView) (bs bs' other : bytes) :
  view_rep h v bs -> view_rep h v' bs' ->
  view_eq debug h v v' = Ok (bytes_eqb bs bs')
  /\ view_eq_slice debug h v other = Ok (bytes_eqb bs other)
  /\ view_hash h v = Ok (Z.of_nat (length bs), hash_blocks (length bs) bs)
  /\ (view_eq debug h v v' = Ok true -> view_hash h v = view_hash h v').
Proof.
  intros Hv Hv'. pose proof (view_hash_ok _ _ _ Hv) as Hh. split_and!.
  - by apply view_eq_ok.
  - by apply view_eq_slice_ok.
  - done.
  - rewrite (view_eq_ok debug h v v' bs bs' Hv Hv'). intros [= ->%bytes_eqb_eq].
    by rewrite Hh, (view_hash_ok _ _ _ Hv').
Qed.

Lemma view_eq_hash_contract_witness :
  view_eq true sample_heap sample_view sample_view = Ok true
  /\ view_eq_slice true sample_heap sample_view (str "hello, world") = Ok true.
Proof.
  destruct (view_eq_hash_contract true sample_heap sample_view sample_view _ _ (str "hello, world") sample_view_rep sample_view_rep)
    as (H1 & H2 & _ & _). split; [rewrite H1|rewrite H2]; reflexivity.
Defined.
