(* ===== verification/ByteBuf.v ===== *)
(** * bytesbuf: the buffer

    Models [src/crates/bytesbuf/src/buf.rs], [buf_put.rs] and [buf_writer.rs]: a [BytesBuf] holds frozen
    spans, whose bytes never change again, and span builders, kept in reverse, of which
    only the logically first may hold bytes that are not frozen.  [debug] says whether
    debug assertions are compiled in; the telemetry identity is left out. *)

From S2P Require Import Prelude ByteSpan ByteView.

Record BytesBuf : Type := mkBuf {
  frozen_spans : list Span;
  span_builders_reversed : list SpanBuilder;
  len : Z;
  frozen : Z;
  available : Z }.

Definition buf_new : BytesBuf := mkBuf [] [] 0 0 0.

Definition from_span_builders (sbs : list SpanBuilder) : BytesBuf :=
  mkBuf [] sbs 0 0 (sum_Z (available_bytes <$> sbs)).

Definition from_blocks (blocks : list Block) : BytesBuf := from_span_builders (into_span_builder <$> blocks).

Definition from_block (block : Block) : BytesBuf :=
  let sb := into_span_builder block in
  mkBuf [] [sb] 0 0 (available_bytes sb).

(** The bytes in the builder that may hold some. *)
Definition unfrozen_len (b : BytesBuf) : Z :=
  match last (span_builders_reversed b) with Some sb => filled_bytes sb | None => 0 end.

Definition calculate_len (b : BytesBuf) : Z := wrap64 (sum_Z (s_len <$> frozen_spans b) + unfrozen_len b).

Definition assert_capacity_within_bounds (len available : Z) : result unit :=
  rust_assert (bool_decide (is_Some (checked_add len available))).

Section buf.
Context (debug : bool).

Definition buf_len (b : BytesBuf) : result Z :=
  let? _ := debug_assert debug (len b =? calculate_len b) in
  Ok (len b).

Definition buf_is_empty (b : BytesBuf) : result bool :=
  let? n := buf_len b in Ok (n =? 0).

Definition remaining_capacity (b : BytesBuf) : result Z :=
  let? _ := debug_assert debug (available b =? sum_Z (available_bytes <$> span_builders_reversed b)) in
  Ok (available b).

Definition capacity (b : BytesBuf) : result Z :=
  let? n := buf_len b in
  let? a := remaining_capacity b in
  Ok (wrap64 (n + a)).

(** ** Capacity *)

(** [additional] is the buffer that the memory provider returned for [bytes]. *)
Definition extend_capacity_by_at_least (bytes : Z) (additional b : BytesBuf) : result BytesBuf :=
  let? cap := capacity additional in
  let? _ := debug_assert debug (bytes <=? cap) in
  let? empty := buf_is_empty additional in
  let? _ := debug_assert debug empty in
  let? new_available := expect (checked_add (available b) cap) in
  let? _ := assert_capacity_within_bounds (len b) new_available in
  Ok (mkBuf (frozen_spans b) (span_builders_reversed additional ++ span_builders_reversed b)
        (len b) (frozen b) new_available).

(** [reserve] with the provider's own [reserve] as an argument. *)
Definition reserve (provider : heap -> Z -> result (heap * BytesBuf)) (additional_bytes : Z) (h : heap) (b : BytesBuf)
  : result (heap * BytesBuf) :=
  let? rem := remaining_capacity b in
  let bytes_needed := Z.max 0 (additional_bytes - rem) in
  if bytes_needed =? 0 then Ok (h, b)
  else
    let? (h, additional) := provider h bytes_needed in
    let? b := extend_capacity_by_at_least bytes_needed additional b in
    Ok (h, b).

(** ** Freezing *)

Definition freeze_from_first (n : Z) (b : BytesBuf) : result BytesBuf :=
  match pop_last (span_builders_reversed b) with
  | None => Panic
  | Some (spare, sb) =>
      let? _ := debug_assert debug (n <=? filled_bytes sb) in
      let? (span, sb) := builder_consume sb n in
      let sbs := if available_bytes sb =? 0 then spare else spare ++ [sb] in
      let? frozen' := expect (checked_add (frozen b) n) in
      Ok (mkBuf (frozen_spans b ++ [span]) sbs (len b) frozen' (available b))
  end.

Definition ensure_frozen (n : Z) (b : BytesBuf) : result BytesBuf :=
  let? must_freeze := expect (try_into_u32 (Z.max 0 (n - frozen b))) in
  if must_freeze =? 0 then Ok b else freeze_from_first must_freeze b.

(** ** Writing *)

Definition append (view : BytesView) (b : BytesBuf) : result BytesBuf :=
  let? empty := view_is_empty debug view in
  if empty then Ok b
  else
    let? bytes_len := view_len debug view in
    let? new_len := expect (checked_add (len b) bytes_len) in
    let? _ := assert_capacity_within_bounds new_len (available b) in
    let? _ := buf_is_empty b in
    let? b := (if unfrozen_len b =? 0 then Ok b
               else
                 let? b := freeze_from_first (unfrozen_len b) b in
                 let? _ := debug_assert debug (unfrozen_len b =? 0) in
                 Ok b) in
    Ok (mkBuf (frozen_spans b ++ rev (spans_reversed view)) (span_builders_reversed b)
          new_len (wrap64 (frozen b + bytes_len)) (available b)).

(** [put_small]: whether the bytes fitted into the first builder. *)
Definition put_small (src : bytes) (h : heap) (b : BytesBuf) : result (heap * BytesBuf * bool) :=
  let n := Z.of_nat (length src) in
  let? rem := remaining_capacity b in
  let? _ := rust_assert (n <=? rem) in
  match pop_last (span_builders_reversed b) with
  | None => Ok (h, b, false)
  | Some (spare, sb) =>
      let dst := unfilled_slice_mut sb in
      if n <=? sl_len dst then
        let? h := write_slice h dst src in
        let sb := builder_advance sb n in
        let? freeze_len := (if available_bytes sb =? 0
                            then let? l := non_zero (filled_bytes sb) in Ok (Some l)
                            else Ok None) in
        let? len' := expect (checked_add (len b) n) in
        let? available' := expect (checked_sub (available b) n) in
        let b := mkBuf (frozen_spans b) (spare ++ [sb]) len' (frozen b) available' in
        match freeze_len with
        | Some l => let? b := freeze_from_first l b in Ok (h, b, true)
        | None => Ok (h, b, true)
        end
      else Ok (h, b, false)
  end.

(** [first_unfilled_slice]; the empty slice points nowhere. *)
Definition first_unfilled_slice (b : BytesBuf) : SliceMut :=
  match last (span_builders_reversed b) with
  | Some sb => unfilled_slice_mut sb
  | None => mkSlice 1 0 0
  end.

(** [BytesBuf::advance]. *)
Definition advance (count : Z) (b : BytesBuf) : result BytesBuf :=
  if count =? 0 then Ok b
  else
    let? _ := debug_assert debug (count <=? match last (span_builders_reversed b) with Some sb => available_bytes sb | None => 0 end) in
    match pop_last (span_builders_reversed b) with
    | None => Panic
    | Some (spare, sb) =>
        let sb := builder_advance sb count in
        let b := mkBuf (frozen_spans b) (spare ++ [sb]) (len b) (frozen b) (available b) in
        let? b := (if available_bytes sb =? 0 then
                     let? l := non_zero (filled_bytes sb) in
                     let? b := freeze_from_first l b in
                     let? _ := debug_assert debug
                       match last (span_builders_reversed b) with Some sb => 0 <? available_bytes sb | None => true end in
                     Ok b
                   else Ok b) in
        let? len' := expect (checked_add (len b) count) in
        let? available' := expect (checked_sub (available b) count) in
        Ok (mkBuf (frozen_spans b) (span_builders_reversed b) len' (frozen b) available')
    end.

(** One round of the loop of [put_slice_looped]: what is left to copy. *)
Definition put_slice_round (src : bytes) (h : heap) (b : BytesBuf) : result (bytes * heap * BytesBuf) :=
  let dst := first_unfilled_slice b in
  let to_copy_len := Z.min (sl_len dst) (Z.of_nat (length src)) in
  let? _ := debug_assert debug (negb (to_copy_len =? 0)) in
  let? to_copy := slice_to src (Z.to_nat to_copy_len) in
  let? remainder := slice_from src (Z.to_nat to_copy_len) in
  let? h := (if to_copy_len =? 0 then Ok h else write_slice h dst to_copy) in
  let? b := advance to_copy_len b in
  Ok (remainder, h, b).

Fixpoint put_slice_loop (fuel : nat) (src : bytes) (h : heap) (b : BytesBuf) : result (heap * BytesBuf) :=
  match src with
  | [] => Ok (h, b)
  | _ =>
      match fuel with
      | O => Panic
      | S fuel => let? (src, h, b) := put_slice_round src h b in put_slice_loop fuel src h b
      end
  end.

(** Each round copies a byte at least. *)
Definition put_slice_looped (src : bytes) (h : heap) (b : BytesBuf) : result (heap * BytesBuf) :=
  let? rem := remaining_capacity b in
  let? _ := rust_assert (Z.of_nat (length src) <=? rem) in
  put_slice_loop (length src) src h b.

Definition put_slice (src : bytes) (h : heap) (b : BytesBuf) : result (heap * BytesBuf) :=
  let? (h, b, done) := put_small src h b in
  if done then Ok (h, b) else put_slice_looped src h b.

(** [From<BytesView>]. *)
Definition buf_from_view (value : BytesView) : result BytesBuf := append value buf_new.

Definition put_bytes (view : BytesView) (b : BytesBuf) : result BytesBuf := append view b.

Definition put_byte (value : Z) (h : heap) (b : BytesBuf) : result (heap * BytesBuf) := put_slice [value] h b.

Fixpoint put_repeated_loop (fuel : nat) (value count : Z) (h : heap) (b : BytesBuf) : result (heap * BytesBuf) :=
  if count <=? 0 then Ok (h, b)
  else match fuel with
       | O => Panic
       | S fuel =>
           let dst := first_unfilled_slice b in
           let to_fill_len := Z.min (sl_len dst) count in
           let? _ := debug_assert debug (negb (to_fill_len =? 0)) in
           let? h := (if to_fill_len =? 0 then Ok h else write_slice h dst (replicate (Z.to_nat to_fill_len) value)) in
           let? b := advance to_fill_len b in
           put_repeated_loop fuel value (wrap64 (count - to_fill_len)) h b
       end.

Definition put_byte_repeated (value count : Z) (h : heap) (b : BytesBuf) : result (heap * BytesBuf) :=
  let? rem := remaining_capacity b in
  let? _ := rust_assert (count <=? rem) in
  put_repeated_loop (Z.to_nat count) value count h b.

(** ** Consuming *)

Definition peek (b : BytesBuf) : result BytesView :=
  let from_builder :=
    match last (span_builders_reversed b) with
    | Some sb => let span := builder_peek sb in if span_is_empty span then [] else [span]
    | None => []
    end in
  from_spans_reversed debug (from_builder ++ rev (frozen_spans b)).

(** [ConsumeManifest]. *)
Record ConsumeManifest : Type := mkManifest {
  detach_complete_frozen_spans : nat; consume_partial_span_bytes : Z }.

(** The loop of [prepare_consume]: the spans to detach and the bytes left to find. *)
Fixpoint prepare_loop (ss : list Span) (n : Z) (detach : nat) : result (nat * Z) :=
  match ss with
  | [] => Ok (detach, n)
  | s :: ss =>
      if s_len s <=? n then
        let? n := expect (checked_sub n (s_len s)) in
        if negb (n =? 0) then prepare_loop ss n (S detach) else Ok (S detach, n)
      else Ok (detach, n)
  end.

Definition prepare_consume (n : Z) (b : BytesBuf) : result ConsumeManifest :=
  let? _ := debug_assert debug (n <=? frozen b) in
  let? (detach, n) := prepare_loop (frozen_spans b) n 0 in
  let? partial := expect (try_into_u32 n) in
  Ok (mkManifest detach partial).

(** The part of [consume_checked] that divides the frozen spans. *)
Definition divide_spans (ss : list Span) (m : ConsumeManifest) : result (list Span * list Span) :=
  if negb (consume_partial_span_bytes m =? 0) then
    let? s := expect (ss !! detach_complete_frozen_spans m) in
    let? piece := span_slice s (Included 0, Excluded (consume_partial_span_bytes m)) in
    Ok ([piece], <[detach_complete_frozen_spans m := span_advance s (consume_partial_span_bytes m)]> ss)
  else Ok ([], ss).

(** The part of [consume_checked] after everything to take is frozen. *)
Definition take_frozen (n : Z) (b : BytesBuf) : result (BytesView * BytesBuf) :=
  let? m := prepare_consume n b in
  let? (partial, spans) := divide_spans (frozen_spans b) m in
  let result_spans_reversed := partial ++ rev (take (detach_complete_frozen_spans m) spans) in
  let b := mkBuf (drop (detach_complete_frozen_spans m) spans) (span_builders_reversed b)
             (wrap64 (len b - n)) (wrap64 (frozen b - n)) (available b) in
  let? view := from_spans_reversed debug result_spans_reversed in
  Ok (view, b).

Definition consume_checked (n : Z) (b : BytesBuf) : result (option BytesView * BytesBuf) :=
  let? total := buf_len b in
  if total <? n then Ok (None, b)
  else
    let? b := ensure_frozen n b in
    let? (view, b) := take_frozen n b in
    Ok (Some view, b).

Definition consume (n : Z) (b : BytesBuf) : result (BytesView * BytesBuf) :=
  let? (o, b) := consume_checked n b in
  let? v := expect o in Ok (v, b).

(** [consume_all]: [unwrap_unchecked] on [None] would be undefined. *)
Definition consume_all (b : BytesBuf) : result (BytesView * BytesBuf) :=
  let? n := buf_len b in
  consume n b.

(** ** Splitting off capacity *)

(** The loop that counts the whole builders to take. *)
Fixpoint whole_builders (sbs : list SpanBuilder) (remaining : Z) (count : nat) : Z * nat :=
  match sbs with
  | [] => (remaining, count)
  | sb :: sbs =>
      if negb (builder_is_empty sb) then (remaining, count)
      else if remaining <? available_bytes sb then (remaining, count)
      else whole_builders sbs (wrap64 (remaining - available_bytes sb)) (S count)
  end.

(** The part that divides the builders: those that are split off, and those that stay. *)
Definition split_builders (sbs : list SpanBuilder) (count : Z) : result (list SpanBuilder * list SpanBuilder) :=
  let '(remaining, whole) := whole_builders sbs count 0 in
  if 0 <? remaining then
    match drop whole sbs with
    | [] => Panic
    | sb :: rest =>
        let? n := expect (try_into_u32 remaining) in
        let? (sb, off) := split_off_available sb n in
        Ok (take whole sbs ++ [off], sb :: rest)
    end
  else Ok (take whole sbs, drop whole sbs).

Definition split_off_remaining_checked (count : Z) (b : BytesBuf) : result (option BytesBuf * BytesBuf) :=
  let? rem := remaining_capacity b in
  if rem <? count then Ok (None, b)
  else if count =? 0 then Ok (Some buf_new, b)
  else
    let? (result_builders, sbs) := split_builders (span_builders_reversed b) count in
    let? available' := expect (checked_sub (available b) count) in
    Ok (Some (from_span_builders result_builders), mkBuf (frozen_spans b) sbs (len b) (frozen b) available').

Definition split_off_remaining (count : Z) (b : BytesBuf) : result (BytesBuf * BytesBuf) :=
  let? (o, b) := split_off_remaining_checked count b in
  let? s := expect o in Ok (s, b).

(** ** Vectored writes *)

(** [begin_vectored_write_checked]: whether the write may begin. *)
Definition begin_vectored_write_checked (max_len : option Z) (b : BytesBuf) : result bool :=
  match max_len with
  | Some m => let? rem := remaining_capacity b in Ok (negb (rem <? m))
  | None => Ok true
  end.

Definition begin_vectored_write (max_len : option Z) (b : BytesBuf) : result unit :=
  let? may_begin := begin_vectored_write_checked max_len b in
  rust_assert may_begin.

(** [BytesBufRemaining::next]: the next slice, and the iterator's fields. *)
Definition remaining_next (b : BytesBuf) (it : option nat * option Z) : result (option SliceMut * (option nat * option Z)) :=
  match it.1 with
  | None => Ok (None, it)
  | Some i =>
      let next := if Nat.eqb (S i) (length (span_builders_reversed b)) then None else Some (S i) in
      let? sb := expect (if Nat.leb (S i) (length (span_builders_reversed b))
                         then span_builders_reversed b !! (length (span_builders_reversed b) - S i)%nat else None) in
      let sl := unfilled_slice_mut sb in
      match it.2 with
      | Some m =>
          let n := Z.min (sl_len sl) m in
          let m := wrap64 (m - n) in
          Ok (Some (mkSlice (sl_block sl) (sl_start sl) n), (if m =? 0 then None else next, Some m))
      | None => Ok (Some sl, (next, None))
      end
  end.

(** All slices that [slices_mut] gives. *)
Fixpoint remaining_slices (fuel : nat) (b : BytesBuf) (it : option nat * option Z) : result (list SliceMut) :=
  match fuel with
  | O => Ok []
  | S fuel =>
      let? (o, it) := remaining_next b it in
      match o with
      | None => Ok []
      | Some sl => let? rest := remaining_slices fuel b it in Ok (sl :: rest)
      end
  end.

Definition slices_mut (max_len : option Z) (b : BytesBuf) : result (list SliceMut) :=
  remaining_slices (S (length (span_builders_reversed b))) b
    (match span_builders_reversed b with [] => None | _ => Some 0%nat end, max_len).

(** The loop of [commit]. *)
Fixpoint commit_loop (fuel : nat) (bytes_remaining : Z) (b : BytesBuf) : result BytesBuf :=
  if bytes_remaining <=? 0 then Ok b
  else match fuel with
       | O => Panic
       | S fuel =>
           match last (span_builders_reversed b) with
           | None => Panic
           | Some sb =>
               let bytes_to_commit := Z.min (available_bytes sb) bytes_remaining in
               let? b := advance bytes_to_commit b in
               let? bytes_remaining := expect (checked_sub bytes_remaining bytes_to_commit) in
               commit_loop fuel bytes_remaining b
           end
       end.

Definition commit (max_len : option Z) (bytes_written : Z) (b : BytesBuf) : result BytesBuf :=
  let? rem := remaining_capacity b in
  let? _ := debug_assert debug (bytes_written <=? rem) in
  let? _ := debug_assert debug match max_len with Some m => bytes_written <=? m | None => true end in
  commit_loop (Z.to_nat bytes_written) bytes_written b.

(** ** [BytesBufWriter] *)

Definition INITIAL_RESERVATION_BYTES : Z := 4096.
Definition GROWTH_RESERVATION_BYTES : Z := 65536.

Definition ensure_sufficient_capacity (provider : heap -> Z -> result (heap * BytesBuf)) (required_bytes : Z) (h : heap) (b : BytesBuf)
  : result (heap * BytesBuf) :=
  let? rem := remaining_capacity b in
  if required_bytes <=? rem then Ok (h, b)
  else
    let? cap := capacity b in
    let reservation :=
      if (cap =? 0) && (required_bytes <=? INITIAL_RESERVATION_BYTES) then INITIAL_RESERVATION_BYTES
      else Z.max required_bytes GROWTH_RESERVATION_BYTES in
    reserve provider reservation h b.

Definition writer_write (provider : heap -> Z -> result (heap * BytesBuf)) (src : bytes) (h : heap) (b : BytesBuf)
  : result (Z * heap * BytesBuf) :=
  let? (h, b) := ensure_sufficient_capacity provider (Z.of_nat (length src)) h b in
  let? (h, b) := put_slice src h b in
  Ok (Z.of_nat (length src), h, b).
End buf.

(** ** What a buffer represents *)

(** The cells a buffer may still write. *)
Definition buf_cells (b : BytesBuf) : list (positive * Z) := concat (builder_cells <$> span_builders_reversed b).

(** The spans of its contents: the frozen ones and the filled part of the first builder. *)
Definition unfrozen_span (sbs : list SpanBuilder) : list Span :=
  match last sbs with
  | Some sb => if filled_bytes sb =? 0 then [] else [builder_peek sb]
  | None => []
  end.
Definition content_spans (b : BytesBuf) : list Span := frozen_spans b ++ unfrozen_span (span_builders_reversed b).

(** Only the logically first builder holds bytes. *)
Definition spare_empty (sbs : list SpanBuilder) : Prop :=
  forall spare sb, sbs = spare ++ [sb] -> Forall (fun s => filled_bytes s = 0) spare.

(** The invariant of a buffer with contents [bs]. *)
Record buf_ok (h : heap) (b : BytesBuf) (bs : bytes) : Prop := {
  bo_frozen : Forall span_ok (frozen_spans b);
  bo_builders : Forall (builder_ok h) (span_builders_reversed b);
  bo_spare : spare_empty (span_builders_reversed b);
  bo_nodup : NoDup (buf_cells b);
  bo_apart : Forall (apart (buf_cells b)) (content_spans b);
  bo_bytes : spans_bytes h (content_spans b) = Some bs;
  bo_len : len b = Z.of_nat (length bs);
  bo_frozen_len : frozen b = sum_Z (s_len <$> frozen_spans b);
  bo_available : available b = sum_Z (available_bytes <$> span_builders_reversed b);
  bo_bound : len b + available b <= usize_max }.

Definition content_cells (b : BytesBuf) : list (positive * Z) := concat (span_cells <$> content_spans b).

(** What an operation on a buffer may do: write its own cells, give cells up, and turn
    them into contents. *)
Record buf_step (h : heap) (b : BytesBuf) (h' : heap) (b' : BytesBuf) : Prop := {
  bs_heap : only_changes (buf_cells b) h h';
  bs_shape : same_shape h h';
  bs_cells : forall c, c ∈ buf_cells b' -> c ∈ buf_cells b;
  bs_content : forall c, c ∈ content_cells b' -> c ∈ content_cells b \/ c ∈ buf_cells b }.

Lemma buf_step_refl h b : buf_step h b h b.
Proof. split; auto with rust. Qed.

Lemma buf_step_trans h b h' b' h'' b'' : buf_step h b h' b' -> buf_step h' b' h'' b'' -> buf_step h b h'' b''.
Proof.
  intros [H1 H2 H3 H4] [K1 K2 K3 K4]. split.
  - eapply only_changes_trans; [done|]. by eapply only_changes_mono.
  - by eapply same_shape_trans.
  - auto.
  - intros c Hc. destruct (K4 c Hc) as [|]; auto.
Qed.

Lemma elem_of_content_cells b c : c ∈ content_cells b <-> exists s, s ∈ content_spans b /\ c ∈ span_cells s.
Proof. apply elem_of_concat_map. Qed.

Lemma elem_of_buf_cells b c : c ∈ buf_cells b <-> exists sb, sb ∈ span_builders_reversed b /\ c ∈ builder_cells sb.
Proof. apply elem_of_concat_map. Qed.

Section facts.
Context (debug : bool).

(** ** Lengths *)

Lemma content_ok h b bs : buf_ok h b bs -> Forall span_ok (content_spans b).
Proof.
  intros Hb. apply Forall_app. split; [apply Hb|]. unfold unfrozen_span. pose proof (bo_builders _ _ _ Hb) as Hs.
  destruct (last _) as [sb|] eqn:Hl; [|done]. destruct (Z.eqb_spec (filled_bytes sb) 0); [done|].
  apply Forall_singleton. apply last_Some in Hl as [spare Hl]. rewrite Hl in Hs.
  apply Forall_app in Hs as [_ [(H1 & H2 & H3 & H4 & _) _]%Forall_cons]. split; cbn; lia.
Qed.

Lemma sum_unfrozen b : sum_Z (s_len <$> unfrozen_span (span_builders_reversed b)) = unfrozen_len b.
Proof.
  unfold unfrozen_span, unfrozen_len. destruct (last _) as [sb|]; [|done]. destruct (Z.eqb_spec (filled_bytes sb) 0) as [->|]; [done|].
  cbn. rewrite sum_Z_cons. change (sum_Z []) with 0. lia.
Qed.

Lemma buf_lengths h b bs : buf_ok h b bs ->
  Z.of_nat (length bs) = frozen b + unfrozen_len b /\ 0 <= frozen b /\ 0 <= unfrozen_len b /\ 0 <= available b.
Proof.
  intros Hb. pose proof (content_ok _ _ _ Hb) as Hc. rewrite (spans_bytes_length _ _ _ Hc (bo_bytes _ _ _ Hb)).
  unfold content_spans in *. rewrite fmap_app, sum_Z_app, (bo_frozen_len _ _ _ Hb), sum_unfrozen. apply Forall_app in Hc as [Hc1 Hc2].
  split_and!; [done|..].
  - apply sum_Z_nonneg, Forall_fmap. eapply Forall_impl; [exact Hc1|]. intros ? [_ ?]. cbn. lia.
  - rewrite <- sum_unfrozen. apply sum_Z_nonneg, Forall_fmap. eapply Forall_impl; [exact Hc2|]. intros ? [_ ?]. cbn. lia.
  - rewrite (bo_available _ _ _ Hb). apply sum_Z_nonneg, Forall_fmap. eapply Forall_impl; [apply Hb|]. intros ? (? & ? & ? & _). cbn. lia.
Qed.

Lemma buf_len_ok h b bs : buf_ok h b bs -> buf_len debug b = Ok (Z.of_nat (length bs)).
Proof.
  intros Hb. destruct (buf_lengths _ _ _ Hb) as (H1 & H2 & H3 & H4). pose proof (bo_len _ _ _ Hb) as Hl. pose proof (bo_bound _ _ _ Hb).
  unfold buf_len. rewrite debug_assert_true; [by rewrite Hl|]. apply Z.eqb_eq. unfold calculate_len.
  rewrite <- (bo_frozen_len _ _ _ Hb), wrap64_small; lia.
Qed.

Lemma remaining_capacity_ok h b bs : buf_ok h b bs -> remaining_capacity debug b = Ok (available b).
Proof.
  intros Hb. unfold remaining_capacity. rewrite debug_assert_true; [done|]. apply Z.eqb_eq, Hb.
Qed.

Lemma buf_capacity_ok h b bs : buf_ok h b bs -> capacity debug b = Ok (len b + available b).
Proof.
  intros Hb. unfold capacity. rewrite (buf_len_ok _ _ _ Hb), (remaining_capacity_ok _ _ _ Hb), <- (bo_len _ _ _ Hb).
  destruct (buf_lengths _ _ _ Hb) as (? & ? & ? & ?). pose proof (bo_len _ _ _ Hb). pose proof (bo_bound _ _ _ Hb). by rewrite wrap64_small by lia.
Qed.

Lemma buf_ok_new h : buf_ok h buf_new [].
Proof.
  split; cbn; try done; [|apply NoDup_nil_2]. intros [|] ? ?; done.
Qed.

(** Writing into the cells of a buffer leaves what it represents. *)
Lemma buf_ok_write h h' b bs cells : buf_ok h b bs -> only_changes cells h h' -> same_shape h h' ->
  Forall (apart cells) (content_spans b) -> buf_ok h' b bs.
Proof.
  intros [] Hc Hs Ha. split; try done.
  - eapply Forall_impl; [done|]. intros sb. by apply builder_ok_shape.
  - by erewrite spans_bytes_only_changes.
Qed.

(** ** Filling the first builder *)

Lemma freeze_from_first_eq b spare sb n : span_builders_reversed b = spare ++ [sb] ->
  0 < n <= filled_bytes sb -> filled_bytes sb <= block_size_max -> frozen b + n <= usize_max ->
  freeze_from_first debug n b = Ok (mkBuf (frozen_spans b ++ [mkSpan (b_block sb) (b_start sb) n])
    (if available_bytes sb =? 0 then spare
     else spare ++ [mkBuilder (b_block sb) (b_start sb + n) (filled_bytes sb - n) (available_bytes sb)])
    (len b) (frozen b + n) (available b)).
Proof.
  intros Hs Hn Hm Hf. unfold freeze_from_first. rewrite Hs, pop_last_snoc, debug_assert_true by (apply Z.leb_le; lia).
  unfold builder_consume, rust_assert. rewrite (proj2 (Z.leb_le _ _)) by lia. cbn [available_bytes].
  rewrite checked_add_Some by done. unfold block_size_max in Hm. by rewrite wrap32_small by lia.
Qed.

(** The buffer after [n] bytes of its first builder were filled. *)
Definition filled_buf (b : BytesBuf) (spare : list SpanBuilder) (sb : SpanBuilder) (n : Z) : BytesBuf :=
  if available_bytes sb =? n
  then mkBuf (frozen_spans b ++ [mkSpan (b_block sb) (b_start sb) (filled_bytes sb + n)]) spare
         (len b + n) (frozen b + (filled_bytes sb + n)) (available b - n)
  else mkBuf (frozen_spans b) (spare ++ [mkBuilder (b_block sb) (b_start sb) (filled_bytes sb + n) (available_bytes sb - n)])
         (len b + n) (frozen b) (available b - n).

Lemma builder_advance_eq h sb n : builder_ok h sb -> 0 <= n <= available_bytes sb ->
  builder_advance sb n = mkBuilder (b_block sb) (b_start sb) (filled_bytes sb + n) (available_bytes sb - n).
Proof.
  intros (H1 & H2 & H3 & H4 & _) Hn. unfold builder_advance, block_size_max in *. by rewrite (wrap32_small n), !wrap32_small by lia.
Qed.

(** The builder that [pop_last] finds in a buffer that is in order. *)
Lemma first_builder h b bs spare sb : buf_ok h b bs -> span_builders_reversed b = spare ++ [sb] ->
  builder_ok h sb /\ Forall (builder_ok h) spare /\ Forall (fun s => filled_bytes s = 0) spare
  /\ unfrozen_len b = filled_bytes sb /\ available_bytes sb <= available b.
Proof.
  intros Hb Hs. pose proof (bo_builders _ _ _ Hb) as Hok. rewrite Hs in Hok. apply Forall_app in Hok as [Hsp [Hsb _]%Forall_cons].
  split_and!; [done|done|by eapply (bo_spare _ _ _ Hb)| |].
  - unfold unfrozen_len. by rewrite Hs, last_snoc.
  - rewrite (bo_available _ _ _ Hb), Hs, fmap_app, sum_Z_app. cbn. rewrite sum_Z_cons. change (sum_Z []) with 0.
    assert (0 <= sum_Z (available_bytes <$> spare)); [|lia]. apply sum_Z_nonneg, Forall_fmap.
    eapply Forall_impl; [exact Hsp|]. intros ? (? & ? & ? & _). cbn. lia.
Qed.

(** The spare builders have no contents. *)
Lemma unfrozen_spare spare : Forall (fun s => filled_bytes s = 0) spare -> unfrozen_span spare = [].
Proof.
  intros Hs. unfold unfrozen_span. destruct (last spare) as [sb|] eqn:Hl; [|done]. apply last_Some in Hl as [l ->].
  apply Forall_app in Hs as [_ [-> _]%Forall_cons]. done.
Qed.

Lemma advance_eq h b bs spare sb n : buf_ok h b bs -> span_builders_reversed b = spare ++ [sb] ->
  0 < n <= available_bytes sb -> advance debug n b = Ok (filled_buf b spare sb n).
Proof.
  intros Hb Hs Hn. destruct (first_builder _ _ _ _ _ Hb Hs) as (Hsb & Hsp & Hempty & Hun & Hav).
  pose proof Hsb as (H1 & H2 & H3 & H4 & _). destruct (buf_lengths _ _ _ Hb) as (L1 & L2 & L3 & L4).
  pose proof (bo_len _ _ _ Hb) as L5. pose proof (bo_bound _ _ _ Hb) as L6. unfold advance, filled_buf.
  rewrite (proj2 (Z.eqb_neq n 0)) by lia. rewrite Hs, last_snoc, debug_assert_true by (apply Z.leb_le; lia).
  rewrite pop_last_snoc, (builder_advance_eq h) by (done || lia). cbn [available_bytes filled_bytes].
  destruct (Z.eqb_spec (available_bytes sb) n) as [Heq|Hne].
  - rewrite (proj2 (Z.eqb_eq (available_bytes sb - n) 0)) by lia. unfold non_zero. rewrite (proj2 (Z.eqb_neq _ 0)) by lia.
    rewrite (freeze_from_first_eq _ spare (mkBuilder (b_block sb) (b_start sb) (filled_bytes sb + n) (available_bytes sb - n)))
      by (cbn; done || lia). cbn [available_bytes b_block b_start filled_bytes span_builders_reversed len available frozen_spans frozen].
    rewrite (proj2 (Z.eqb_eq (available_bytes sb - n) 0)) by lia. cbn [span_builders_reversed].
    rewrite debug_assert_true.
    + cbn [len available frozen_spans frozen]. rewrite checked_add_Some, checked_sub_Some by lia. done.
    + destruct (last spare) as [s|] eqn:Hl; [|done]. apply last_Some in Hl as [l ->]. apply Forall_app in Hsp as [_ [(? & ? & ? & _) _]%Forall_cons].
      apply Z.ltb_lt. lia.
  - rewrite (proj2 (Z.eqb_neq (available_bytes sb - n) 0)) by lia. cbn [len available frozen_spans frozen span_builders_reversed].
    rewrite checked_add_Some, checked_sub_Some by lia. done.
Qed.

Lemma put_small_eq h h' b bs spare sb src : buf_ok h b bs -> span_builders_reversed b = spare ++ [sb] ->
  0 < Z.of_nat (length src) <= available_bytes sb -> write_slice h (unfilled_slice_mut sb) src = Ok h' ->
  put_small debug src h b = Ok (h', filled_buf b spare sb (Z.of_nat (length src)), true).
Proof.
  intros Hb Hs Hn Hw. destruct (first_builder _ _ _ _ _ Hb Hs) as (Hsb & Hsp & Hempty & Hun & Hav).
  pose proof Hsb as (H1 & H2 & H3 & H4 & _). destruct (buf_lengths _ _ _ Hb) as (L1 & L2 & L3 & L4).
  pose proof (bo_len _ _ _ Hb) as L5. pose proof (bo_bound _ _ _ Hb) as L6. unfold put_small, filled_buf.
  rewrite (remaining_capacity_ok _ _ _ Hb). unfold rust_assert. rewrite (proj2 (Z.leb_le _ _)) by lia.
  rewrite Hs, pop_last_snoc. change (sl_len (unfilled_slice_mut sb)) with (available_bytes sb). rewrite (proj2 (Z.leb_le _ _)) by lia.
  rewrite Hw, (builder_advance_eq h) by (done || lia). cbn [available_bytes filled_bytes].
  destruct (Z.eqb_spec (available_bytes sb) (Z.of_nat (length src))) as [Heq|Hne].
  - rewrite (proj2 (Z.eqb_eq (available_bytes sb - _) 0)) by lia. unfold non_zero. rewrite (proj2 (Z.eqb_neq _ 0)) by lia.
    rewrite checked_add_Some, checked_sub_Some by lia. cbn [expect].
    erewrite freeze_from_first_eq; [|cbn; reflexivity|cbn; lia..]. cbn.
    by rewrite (proj2 (Z.eqb_eq (available_bytes sb - _) 0)) by lia.
  - rewrite (proj2 (Z.eqb_neq (available_bytes sb - _) 0)) by lia. rewrite checked_add_Some, checked_sub_Some by lia. done.
Qed.

Lemma buf_cells_snoc b spare sb : span_builders_reversed b = spare ++ [sb] ->
  buf_cells b = concat (builder_cells <$> spare) ++ builder_cells sb.
Proof. intros Hs. unfold buf_cells. rewrite Hs, fmap_app, concat_app. cbn. by rewrite app_nil_r. Qed.

Lemma filled_cells b spare sb n : buf_cells (filled_buf b spare sb n)
  = concat (builder_cells <$> spare) ++ cells_of (b_block sb) (b_start sb + filled_bytes sb + n) (available_bytes sb - n).
Proof.
  unfold filled_buf. destruct (Z.eqb_spec (available_bytes sb) n) as [->|Hne].
  - rewrite Z.sub_diag. unfold cells_of. cbn. by rewrite app_nil_r.
  - erewrite buf_cells_snoc by done. unfold builder_cells. cbn. do 2 f_equal. lia.
Qed.

Lemma filled_content b spare sb n : Forall (fun s => filled_bytes s = 0) spare -> 0 <= filled_bytes sb -> 0 < n ->
  content_spans (filled_buf b spare sb n) = frozen_spans b ++ [mkSpan (b_block sb) (b_start sb) (filled_bytes sb + n)].
Proof.
  intros Hs Hf Hn. unfold filled_buf, content_spans. destruct (_ =? n); cbn.
  - by rewrite unfrozen_spare, app_nil_r.
  - unfold unfrozen_span. rewrite last_snoc. cbn. by rewrite (proj2 (Z.eqb_neq _ 0)) by lia.
Qed.

Lemma content_spans_snoc b spare sb : span_builders_reversed b = spare ++ [sb] ->
  content_spans b = frozen_spans b ++ (if filled_bytes sb =? 0 then [] else [builder_peek sb]).
Proof. intros Hs. unfold content_spans, unfrozen_span. by rewrite Hs, last_snoc. Qed.

(** The filled cells of the first builder are contents. *)
Lemma filled_part_content b spare sb c : span_builders_reversed b = spare ++ [sb] ->
  c ∈ cells_of (b_block sb) (b_start sb) (filled_bytes sb) -> c ∈ content_cells b.
Proof.
  intros Hs Hc. apply elem_of_content_cells. exists (builder_peek sb). split; [|done]. rewrite (content_spans_snoc _ _ _ Hs).
  apply elem_of_app. right. destruct (Z.eqb_spec (filled_bytes sb) 0) as [H0|]; [|by left].
  rewrite H0 in Hc. by apply not_elem_of_nil in Hc.
Qed.

Lemma apart_content h b bs c : buf_ok h b bs -> c ∈ content_cells b -> c ∉ buf_cells b.
Proof.
  intros Hb (s & Hs & Hc)%elem_of_content_cells. pose proof (bo_apart _ _ _ Hb) as Ha. rewrite Forall_forall in Ha. by apply (Ha s).
Qed.

(** The cells of the first builder that get filled. *)
Lemma builder_cells_split h sb n : builder_ok h sb -> 0 <= n <= available_bytes sb ->
  builder_cells sb = cells_of (b_block sb) (b_start sb + filled_bytes sb) n
    ++ cells_of (b_block sb) (b_start sb + filled_bytes sb + n) (available_bytes sb - n).
Proof.
  intros _ Hn. unfold builder_cells. replace (available_bytes sb) with (n + (available_bytes sb - n)) at 1 by lia. apply cells_of_app; lia.
Qed.

Lemma filled_step h b bs spare sb n : buf_ok h b bs -> span_builders_reversed b = spare ++ [sb] ->
  0 < n <= available_bytes sb -> buf_step h b h (filled_buf b spare sb n).
Proof.
  intros Hb Hs Hn. destruct (first_builder _ _ _ _ _ Hb Hs) as (Hsb & _ & Hempty & _ & _). pose proof Hsb as (_ & H2 & _).
  split; [done|done| |].
  - intros c. rewrite filled_cells, (buf_cells_snoc _ _ _ Hs), (builder_cells_split h sb n), !elem_of_app by (done || lia). tauto.
  - intros c (s & Hin & Hc)%elem_of_content_cells. rewrite filled_content in Hin by (done || lia).
    apply elem_of_app in Hin as [Hin| ->%list_elem_of_singleton].
    + left. apply elem_of_content_cells. exists s. split; [|done]. apply elem_of_app. by left.
    + unfold span_cells in Hc. cbn in Hc. rewrite cells_of_app in Hc by lia. apply elem_of_app in Hc as [Hc|Hc].
      * left. by eapply filled_part_content.
      * right. rewrite (buf_cells_snoc _ _ _ Hs), (builder_cells_split h sb n), !elem_of_app by (done || lia). tauto.
Qed.

Lemma filled_nodup h b bs spare sb n : buf_ok h b bs -> span_builders_reversed b = spare ++ [sb] ->
  0 < n <= available_bytes sb ->
  NoDup (buf_cells (filled_buf b spare sb n))
  /\ forall c, c ∈ cells_of (b_block sb) (b_start sb + filled_bytes sb) n -> c ∉ buf_cells (filled_buf b spare sb n).
Proof.
  intros Hb Hs Hn. destruct (first_builder _ _ _ _ _ Hb Hs) as (Hsb & _). pose proof (bo_nodup _ _ _ Hb) as Hnd.
  rewrite (buf_cells_snoc _ _ _ Hs), (builder_cells_split h sb n) in Hnd by (done || lia). rewrite filled_cells. split.
  - eapply sublist_NoDup; [exact Hnd|]. apply sublist_app; [done|]. by apply sublist_inserts_l.
  - intros c Hc Hcells. apply NoDup_app in Hnd as (_ & Hd1 & (_ & Hd2 & _)%NoDup_app).
    apply elem_of_app in Hcells as [Hcells|Hcells]; [eapply Hd1; [done|]; apply elem_of_app; by left|by eapply Hd2].
Qed.

Lemma filled_apart h b bs spare sb n : buf_ok h b bs -> span_builders_reversed b = spare ++ [sb] ->
  0 < n <= available_bytes sb ->
  Forall (apart (buf_cells (filled_buf b spare sb n))) (content_spans (filled_buf b spare sb n)).
Proof.
  intros Hb Hs Hn. destruct (first_builder _ _ _ _ _ Hb Hs) as (Hsb & _ & Hempty & _). pose proof Hsb as (_ & H2 & _).
  pose proof (filled_step h b bs spare sb n Hb Hs Hn) as Hstep. destruct (filled_nodup h b bs spare sb n Hb Hs Hn) as [_ Hnew].
  assert (Hold : forall c, c ∈ content_cells b -> c ∉ buf_cells (filled_buf b spare sb n)).
  { intros c Hc Hin. by eapply (apart_content h b bs c Hb Hc), (bs_cells _ _ _ _ Hstep). }
  rewrite filled_content by (done || lia). apply Forall_app. split; [|apply Forall_singleton].
  - apply Forall_forall. intros s Hin c Hc. apply Hold, elem_of_content_cells. exists s. split; [|done]. apply elem_of_app. by left.
  - intros c Hc. unfold span_cells in Hc. cbn in Hc. rewrite cells_of_app in Hc by lia. apply elem_of_app in Hc as [Hc|Hc]; [|by apply Hnew].
    apply Hold. by eapply filled_part_content.
Qed.

Lemma filled_bytes_ok h b bs spare sb n src : buf_ok h b bs -> span_builders_reversed b = spare ++ [sb] ->
  0 < n <= available_bytes sb -> read h (b_block sb) (b_start sb + filled_bytes sb) n = Some src ->
  spans_bytes h (content_spans (filled_buf b spare sb n)) = Some (bs ++ src).
Proof.
  intros Hb Hs Hn Hr. destruct (first_builder _ _ _ _ _ Hb Hs) as (Hsb & _ & Hempty & _). pose proof Hsb as (_ & H2 & _).
  pose proof (bo_bytes _ _ _ Hb) as Hbb. rewrite (content_spans_snoc _ _ _ Hs) in Hbb. rewrite filled_content by (done || lia).
  apply spans_bytes_app_Some in Hbb as (x & y & Hx & Hy & ->). rewrite spans_bytes_app, Hx. cbn. unfold deref. cbn.
  rewrite read_app by lia. destruct (Z.eqb_spec (filled_bytes sb) 0) as [H0|H0].
  - rewrite H0 in *. injection Hy as <-. cbn. rewrite Z.add_0_r in Hr. rewrite Z.add_0_r, Hr, read_nil. cbn. by rewrite !app_nil_r.
  - apply spans_bytes_cons in Hy as (c & r & Hc & [= <-] & ->). unfold deref, builder_peek in Hc. cbn in Hc. rewrite Hc. cbn. rewrite Hr. cbn.
    by rewrite !app_nil_r, (assoc_L (++)).
Qed.

Lemma spare_empty_snoc spare sb : Forall (fun s => filled_bytes s = 0) spare -> spare_empty (spare ++ [sb]).
Proof. intros H spare' sb' [-> _]%app_inj_tail. done. Qed.

Lemma spare_empty_all sbs : Forall (fun s => filled_bytes s = 0) sbs -> spare_empty sbs.
Proof. intros H spare sb ->. by apply Forall_app in H as [? _]. Qed.

Lemma fill_ok h b bs spare sb n src : buf_ok h b bs -> span_builders_reversed b = spare ++ [sb] ->
  0 < n <= available_bytes sb -> read h (b_block sb) (b_start sb + filled_bytes sb) n = Some src ->
  buf_ok h (filled_buf b spare sb n) (bs ++ src).
Proof.
  intros Hb Hs Hn Hr. destruct (first_builder _ _ _ _ _ Hb Hs) as (Hsb & Hsp & Hempty & Hun & Hav).
  pose proof Hsb as (H1 & H2 & H3 & H4 & data & Hdata & Hlen). apply length_read in Hr as Hlr.
  pose proof (filled_bytes_ok h b bs spare sb n src Hb Hs Hn Hr) as Hbytes. pose proof (filled_apart h b bs spare sb n Hb Hs Hn) as Hapart.
  destruct (filled_nodup h b bs spare sb n Hb Hs Hn) as [Hnd _]. destruct (buf_lengths _ _ _ Hb) as (L1 & L2 & L3 & L4).
  pose proof (bo_len _ _ _ Hb). pose proof (bo_available _ _ _ Hb) as Hava. pose proof (bo_bound _ _ _ Hb).
  rewrite Hs, fmap_app, sum_Z_app in Hava. cbn in Hava. rewrite sum_Z_cons in Hava. change (sum_Z []) with 0 in Hava.
  revert Hnd Hbytes Hapart. unfold filled_buf. destruct (Z.eqb_spec (available_bytes sb) n) as [Heq|Hne]; intros Hnd Hbytes Hapart;
    split; try done; cbn; rewrite ?length_app, ?fmap_app, ?sum_Z_app; cbn; rewrite ?sum_Z_cons; change (sum_Z []) with 0; try lia.
  - apply Forall_app. split; [apply Hb|]. apply Forall_singleton. split; cbn; lia.
  - by apply spare_empty_all.
  - rewrite (bo_frozen_len _ _ _ Hb). lia.
  - apply Hb.
  - apply Forall_app. split; [done|]. apply Forall_singleton. split_and!; cbn; try lia. exists data. split; [done|lia].
  - by apply spare_empty_snoc.
  - apply Hb.
Qed.

(** ** Writing *)

(** Writing to the front of the first unfilled slice. *)
Lemma write_first h b bs spare sb src : buf_ok h b bs -> span_builders_reversed b = spare ++ [sb] ->
  Z.of_nat (length src) <= available_bytes sb ->
  exists h', write_slice h (unfilled_slice_mut sb) src = Ok h' /\ buf_ok h' b bs
    /\ read h' (b_block sb) (b_start sb + filled_bytes sb) (Z.of_nat (length src)) = Some src /\ buf_step h b h' b.
Proof.
  intros Hb Hs Hn. destruct (first_builder _ _ _ _ _ Hb Hs) as ((H1 & H2 & H3 & H4 & data & Hdata & Hlen) & _).
  destruct (write_ok h (b_block sb) (b_start sb + filled_bytes sb) src data) as (h' & Hw & Hr & Hc & Hsh); [done|lia|lia|].
  assert (Hc' : only_changes (buf_cells b) h h').
  { eapply only_changes_mono; [done|]. intros c Hin. rewrite (buf_cells_snoc _ _ _ Hs). apply elem_of_app. right.
    unfold builder_cells. rewrite elem_of_cells_of in *. lia. }
  exists h'. unfold write_slice. cbn [unfilled_slice_mut sl_len sl_block sl_start]. rewrite (proj2 (Z.leb_le _ _)) by done.
  split; [done|]. split; [|split; [done|]].
  - eapply buf_ok_write; [done..|]. apply Hb.
  - split; auto.
Qed.

Lemma fill_available b spare sb n : available (filled_buf b spare sb n) = available b - n.
Proof. unfold filled_buf. by destruct (_ =? n). Qed.

(** What every writing operation establishes. *)
Definition wrote (h : heap) (b : BytesBuf) (bs src : bytes) (h' : heap) (b' : BytesBuf) : Prop :=
  buf_ok h' b' (bs ++ src) /\ buf_step h b h' b' /\ available b' = available b - Z.of_nat (length src).

(** Filling the bytes that were just written. *)
Lemma fill_wrote h h' b bs spare sb src : buf_ok h' b bs -> buf_step h b h' b -> span_builders_reversed b = spare ++ [sb] ->
  0 < Z.of_nat (length src) <= available_bytes sb ->
  read h' (b_block sb) (b_start sb + filled_bytes sb) (Z.of_nat (length src)) = Some src ->
  wrote h b bs src h' (filled_buf b spare sb (Z.of_nat (length src))).
Proof.
  intros Hb Hst Hs Hn Hr. split_and!; [by apply fill_ok| |apply fill_available].
  eapply buf_step_trans; [done|]. by eapply filled_step.
Qed.

Lemma wrote_trans h b bs src h1 b1 src' h2 b2 :
  wrote h b bs src h1 b1 -> wrote h1 b1 (bs ++ src) src' h2 b2 -> wrote h b bs (src ++ src') h2 b2.
Proof.
  intros (H1 & H2 & H3) (K1 & K2 & K3). split_and!; [by rewrite (assoc_L (++))|by eapply buf_step_trans|]. rewrite length_app. lia.
Qed.

(** A buffer with capacity left has a first builder. *)
Lemma first_builder_exists h b bs : buf_ok h b bs -> 0 < available b -> exists spare sb, span_builders_reversed b = spare ++ [sb].
Proof.
  intros Hb Ha. rewrite (bo_available _ _ _ Hb) in Ha. destruct (span_builders_reversed b) as [|sb spare _] using rev_ind; [by cbn in Ha|].
  by exists spare, sb.
Qed.

Lemma put_slice_round_ok h b bs src : buf_ok h b bs -> src <> [] -> Z.of_nat (length src) <= available b ->
  exists k h' b', put_slice_round debug src h b = Ok (drop k src, h', b') /\ (0 < k <= length src)%nat
    /\ wrote h b bs (take k src) h' b'.
Proof.
  intros Hb Hne Ha. assert (0 < length src)%nat by (destruct src; [done|cbn; lia]).
  destruct (first_builder_exists _ _ _ Hb) as (spare & sb & Hs); [lia|]. destruct (first_builder _ _ _ _ _ Hb Hs) as ((_ & _ & H3 & _) & _).
  unfold put_slice_round, first_unfilled_slice. rewrite Hs, last_snoc. cbn [unfilled_slice_mut sl_len].
  set (n := Z.min (available_bytes sb) (Z.of_nat (length src))). rewrite debug_assert_true by (apply negb_true_iff, Z.eqb_neq; lia).
  rewrite slice_to_ok, slice_from_ok by lia. rewrite (proj2 (Z.eqb_neq n 0)) by lia.
  assert (Hlen : Z.of_nat (length (take (Z.to_nat n) src)) = n) by (rewrite length_take; lia).
  destruct (write_first h b bs spare sb (take (Z.to_nat n) src)) as (h' & Hw & Hb' & Hr & Hst); [done|done|lia|].
  rewrite Hw. rewrite (advance_eq h' b bs spare sb n) by (done || lia).
  exists (Z.to_nat n), h', (filled_buf b spare sb n). split; [done|]. split; [lia|].
  pose proof (fill_wrote h h' b bs spare sb (take (Z.to_nat n) src) Hb' Hst Hs) as Hfill. rewrite Hlen in Hfill, Hr. apply Hfill; [lia|done].
Qed.

Lemma put_slice_loop_ok fuel : forall src h b bs, buf_ok h b bs -> Z.of_nat (length src) <= available b -> (length src <= fuel)%nat ->
  exists h' b', put_slice_loop debug fuel src h b = Ok (h', b') /\ wrote h b bs src h' b'.
Proof.
  induction fuel as [|fuel IH]; intros src h b bs Hb Ha Hf; (destruct src as [|x src'] eqn:Hsrc; [exists h, b; split; [done|];
    split_and!; [by rewrite app_nil_r|apply buf_step_refl|cbn; lia]|]).
  { cbn in Hf. lia. }
  cbn [put_slice_loop]. rewrite <- Hsrc in *. destruct (put_slice_round_ok h b bs src) as (k & h1 & b1 & Hround & Hk & Hw); [done|by rewrite Hsrc|done|].
  rewrite Hround. destruct Hw as (W1 & W2 & W3). rewrite length_take in W3.
  destruct (IH (drop k src) h1 b1 (bs ++ take k src)) as (h2 & b2 & -> & Hw2); [done|rewrite length_drop; lia|rewrite length_drop; lia|].
  exists h2, b2. split; [done|]. rewrite <- (take_drop k src). eapply wrote_trans; [|done]. split_and!; [done|done|]. rewrite length_take. lia.
Qed.

(** [put_slice] appends, in one builder or across several. *)
Lemma put_slice_ok h b bs src : buf_ok h b bs -> Z.of_nat (length src) <= available b ->
  exists h' b', put_slice debug src h b = Ok (h', b') /\ wrote h b bs src h' b'.
Proof.
  intros Hb Ha. unfold put_slice.
  assert (Hloop : exists h' b', put_slice_looped debug src h b = Ok (h', b') /\ wrote h b bs src h' b').
  { unfold put_slice_looped, rust_assert. rewrite (remaining_capacity_ok _ _ _ Hb), (proj2 (Z.leb_le _ _)) by done. by apply put_slice_loop_ok. }
  destruct (pop_last (span_builders_reversed b)) as [[spare sb]|] eqn:Hpop.
  2: { unfold put_small, rust_assert. by rewrite (remaining_capacity_ok _ _ _ Hb), (proj2 (Z.leb_le _ _)), Hpop by done. }
  apply pop_last_Some in Hpop as Hs. destruct (Z.leb_spec (Z.of_nat (length src)) (available_bytes sb)) as [Hfit|Hbig].
  2: { unfold put_small, rust_assert. rewrite (remaining_capacity_ok _ _ _ Hb), (proj2 (Z.leb_le _ _)), Hpop by done.
       cbn [unfilled_slice_mut sl_len]. by rewrite (proj2 (Z.leb_gt _ _)) by lia. }
  destruct (write_first h b bs spare sb src) as (h' & Hw & Hb' & Hr & Hst); [done|done|done|].
  destruct (decide (src = [])) as [->|Hne].
  - exists h', b. split.
    + unfold put_small, rust_assert. rewrite (remaining_capacity_ok _ _ _ Hb), (proj2 (Z.leb_le _ _)), Hpop by (cbn in *; lia).
      cbn [unfilled_slice_mut sl_len length Z.of_nat] in *. rewrite (proj2 (Z.leb_le _ _)) by lia.
      rewrite Hw. destruct (first_builder _ _ _ _ _ Hb Hs) as (Hsb & _). pose proof Hsb as (_ & _ & H3 & _).
      rewrite (builder_advance_eq h) by (done || lia). cbn [available_bytes]. rewrite Z.sub_0_r, Z.add_0_r, (proj2 (Z.eqb_neq _ 0)) by lia.
      pose proof (bo_bound _ _ _ Hb). destruct (buf_lengths _ _ _ Hb) as (? & ? & ? & ?).
      rewrite checked_add_Some, checked_sub_Some by lia. cbn. rewrite Z.add_0_r, Z.sub_0_r. destruct b, sb. cbn in *. by rewrite Hs.
    + split_and!; [by rewrite app_nil_r|done|cbn; lia].
  - assert (0 < length src)%nat by (destruct src; [done|cbn; lia]).
    rewrite (put_small_eq h h' b bs spare sb src) by (done || lia). do 2 eexists. split; [done|]. apply fill_wrote; (done || lia).
Qed.

Lemma put_repeated_loop_ok fuel : forall value count h b bs, buf_ok h b bs -> 0 <= count <= available b -> (Z.to_nat count <= fuel)%nat ->
  exists h' b', put_repeated_loop debug fuel value count h b = Ok (h', b') /\ wrote h b bs (replicate (Z.to_nat count) value) h' b'.
Proof.
  induction fuel as [|fuel IH]; intros value count h b bs Hb Ha Hf; cbn [put_repeated_loop];
    (destruct (Z.leb_spec count 0) as [H0|H0]; [exists h, b; split; [done|]; replace count with 0 by lia;
      split_and!; [by rewrite app_nil_r|apply buf_step_refl|rewrite length_replicate; lia]|]); [lia|].
  destruct (first_builder_exists _ _ _ Hb) as (spare & sb & Hs); [lia|]. destruct (first_builder _ _ _ _ _ Hb Hs) as ((_ & _ & H3 & _) & _).
  unfold first_unfilled_slice. rewrite Hs, last_snoc. change (sl_len (unfilled_slice_mut sb)) with (available_bytes sb).
  set (n := Z.min (available_bytes sb) count). rewrite debug_assert_true by (apply negb_true_iff, Z.eqb_neq; lia).
  rewrite (proj2 (Z.eqb_neq n 0)) by lia. set (src := replicate (Z.to_nat n) value).
  assert (Hlen : Z.of_nat (length src) = n) by (unfold src; rewrite length_replicate; lia).
  destruct (write_first h b bs spare sb src) as (h1 & Hw & Hb1 & Hr & Hst); [done|done|lia|]. rewrite Hw.
  rewrite (advance_eq h1 b bs spare sb n) by (done || lia). pose proof (bo_bound _ _ _ Hb). destruct (buf_lengths _ _ _ Hb) as (? & ? & ? & ?).
  pose proof (bo_len _ _ _ Hb). rewrite wrap64_small by lia.
  pose proof (fill_wrote h h1 b bs spare sb src Hb1 Hst Hs) as Hfill. rewrite Hlen in Hfill, Hr. specialize (Hfill ltac:(lia) Hr).
  destruct Hfill as (W1 & W2 & W3).
  destruct (IH value (count - n) h1 (filled_buf b spare sb n) (bs ++ src)) as (h2 & b2 & -> & Hw2); [done|lia|lia|].
  exists h2, b2. split; [done|]. replace (Z.to_nat count) with (Z.to_nat n + Z.to_nat (count - n))%nat by lia. rewrite replicate_add.
  eapply wrote_trans; [by split_and!|done].
Qed.

Lemma put_byte_repeated_ok h b bs value count : buf_ok h b bs -> 0 <= count <= available b ->
  exists h' b', put_byte_repeated debug value count h b = Ok (h', b') /\ wrote h b bs (replicate (Z.to_nat count) value) h' b'.
Proof.
  intros Hb Ha. unfold put_byte_repeated, rust_assert. rewrite (remaining_capacity_ok _ _ _ Hb), (proj2 (Z.leb_le _ _)) by lia.
  by apply put_repeated_loop_ok.
Qed.

(** ** Freezing and consuming *)

Lemma apart_cells cells ss : Forall (apart cells) ss <-> forall c, c ∈ concat (span_cells <$> ss) -> c ∉ cells.
Proof.
  rewrite Forall_forall. unfold apart. setoid_rewrite elem_of_concat_map. naive_solver.
Qed.

(** The buffer after [n] bytes of its first builder, which keeps capacity, were frozen. *)
Definition frozen_buf (b : BytesBuf) (spare : list SpanBuilder) (sb : SpanBuilder) (n : Z) : BytesBuf :=
  mkBuf (frozen_spans b ++ [mkSpan (b_block sb) (b_start sb) n])
    (spare ++ [mkBuilder (b_block sb) (b_start sb + n) (filled_bytes sb - n) (available_bytes sb)])
    (len b) (frozen b + n) (available b).

Lemma frozen_buf_cells b spare sb n : span_builders_reversed b = spare ++ [sb] -> 0 < n <= filled_bytes sb ->
  buf_cells (frozen_buf b spare sb n) = buf_cells b /\ content_cells (frozen_buf b spare sb n) = content_cells b.
Proof.
  intros Hs Hn. assert (Hs' : span_builders_reversed (frozen_buf b spare sb n) = spare ++ [mkBuilder (b_block sb) (b_start sb + n) (filled_bytes sb - n) (available_bytes sb)]) by done.
  split.
  - rewrite (buf_cells_snoc _ _ _ Hs), (buf_cells_snoc _ _ _ Hs'). unfold builder_cells. cbn. do 2 f_equal. lia.
  - unfold content_cells. rewrite (content_spans_snoc _ _ _ Hs), (content_spans_snoc _ _ _ Hs'). cbn. rewrite (proj2 (Z.eqb_neq (filled_bytes sb) 0)) by lia.
    assert (Hpeek : span_cells (builder_peek sb) = span_cells (mkSpan (b_block sb) (b_start sb) n) ++ cells_of (b_block sb) (b_start sb + n) (filled_bytes sb - n)).
    { unfold span_cells. cbn. rewrite <- cells_of_app by lia. f_equal. lia. }
    rewrite !fmap_app, !concat_app, <- (assoc_L (++)). f_equal. cbn. rewrite !app_nil_r, Hpeek. f_equal.
    destruct (Z.eqb_spec (filled_bytes sb - n) 0) as [->|]; [done|]. cbn. by rewrite app_nil_r.
Qed.

Lemma frozen_buf_bytes h b bs spare sb n : spans_bytes h (content_spans b) = Some bs ->
  span_builders_reversed b = spare ++ [sb] -> 0 < n <= filled_bytes sb ->
  spans_bytes h (content_spans (frozen_buf b spare sb n)) = Some bs.
Proof.
  intros Hbb Hs Hn. rewrite (content_spans_snoc _ _ _ Hs) in Hbb. erewrite content_spans_snoc by done. cbn.
  rewrite (proj2 (Z.eqb_neq (filled_bytes sb) 0)) in Hbb by lia. apply spans_bytes_app_Some in Hbb as (x & y & Hx & (c & r & Hc & [= <-] & ->)%spans_bytes_cons & ->).
  rewrite <- (assoc_L (++)), spans_bytes_app, Hx. cbn. unfold deref, builder_peek in *. cbn in *.
  replace (filled_bytes sb) with (n + (filled_bytes sb - n)) in Hc by lia. rewrite read_app in Hc by lia.
  apply bind_Some in Hc as (c1 & -> & (c2 & Hc2 & [= <-])%bind_Some). cbn.
  destruct (Z.eqb_spec (filled_bytes sb - n) 0) as [Hz|]; cbn.
  - rewrite Hz in Hc2. injection Hc2 as <-. by rewrite !app_nil_r.
  - unfold deref. cbn. rewrite Hc2. cbn. by rewrite !app_nil_r.
Qed.

Lemma freeze_ok h b bs n : buf_ok h b bs -> 0 < n <= unfrozen_len b ->
  exists b', freeze_from_first debug n b = Ok b' /\ buf_ok h b' bs /\ buf_step h b h b'
    /\ frozen b' = frozen b + n /\ available b' = available b /\ unfrozen_len b' = unfrozen_len b - n /\ buf_cells b' = buf_cells b.
Proof.
  intros Hb Hn. assert (Hex : exists spare sb, span_builders_reversed b = spare ++ [sb]).
  { unfold unfrozen_len in Hn. destruct (last _) as [sb|] eqn:Hl; [|lia]. apply last_Some in Hl as [spare ->]. by exists spare, sb. }
  destruct Hex as (spare & sb & Hs). destruct (first_builder _ _ _ _ _ Hb Hs) as (Hsb & Hsp & Hempty & Hun & Hav). rewrite Hun in *.
  pose proof Hsb as (H1 & H2 & H3 & H4 & data & Hdata & Hlen). destruct (buf_lengths _ _ _ Hb) as (L1 & L2 & L3 & L4).
  pose proof (bo_bound _ _ _ Hb). pose proof (bo_len _ _ _ Hb).
  rewrite (freeze_from_first_eq b spare sb n) by (done || lia). rewrite (proj2 (Z.eqb_neq _ 0)) by lia.
  destruct (frozen_buf_cells b spare sb n Hs Hn) as [Hcells Hcc]. pose proof (frozen_buf_bytes h b bs spare sb n (bo_bytes _ _ _ Hb) Hs Hn) as Hbytes.
  exists (frozen_buf b spare sb n). split; [done|]. split_and!; try done.
  - split; try done.
    + apply Forall_app. split; [apply Hb|]. apply Forall_singleton. split; cbn; lia.
    + apply Forall_app. split; [done|]. apply Forall_singleton. split_and!; cbn; try lia. exists data. split; [done|lia].
    + by apply spare_empty_snoc.
    + rewrite Hcells. apply Hb.
    + rewrite Hcells. apply apart_cells. fold (content_cells (frozen_buf b spare sb n)). rewrite Hcc. intros c. by eapply apart_content.
    + cbn. rewrite fmap_app, sum_Z_app, (bo_frozen_len _ _ _ Hb). cbn. rewrite sum_Z_cons. change (sum_Z []) with 0. lia.
    + cbn. rewrite (bo_available _ _ _ Hb), Hs, !fmap_app, !sum_Z_app. done.
  - split; auto with rust; [by rewrite Hcells|]. rewrite Hcc. auto.
  - unfold unfrozen_len. cbn. by rewrite last_snoc.
Qed.

(** The first half of [append]: everything is frozen. *)
Lemma freeze_all_ok h b bs : buf_ok h b bs ->
  exists b', (if unfrozen_len b =? 0 then Ok b else
      let? b := freeze_from_first debug (unfrozen_len b) b in let? _ := debug_assert debug (unfrozen_len b =? 0) in Ok b) = Ok (E:=Empty_set) b'
    /\ buf_ok h b' bs /\ available b' = available b /\ unfrozen_len b' = 0 /\ buf_cells b' = buf_cells b /\ buf_step h b h b'.
Proof.
  intros Hb. destruct (buf_lengths _ _ _ Hb) as (L1 & L2 & L3 & L4).
  destruct (Z.eqb_spec (unfrozen_len b) 0) as [Hz|Hz]; [exists b; split_and!; auto using buf_step_refl|].
  destruct (freeze_ok h b bs (unfrozen_len b)) as (b1 & -> & H1 & H2 & H3 & H4 & H5 & H6); [done|lia|].
  rewrite Z.sub_diag in H5. rewrite debug_assert_true by by apply Z.eqb_eq. exists b1. split_and!; auto.
Qed.

(** The second half: the spans of the view become contents. *)
Lemma add_spans_ok h b bs view vs : buf_ok h b bs -> unfrozen_len b = 0 -> view_rep h view vs ->
  Forall (apart (buf_cells b)) (spans_reversed view) -> len b + Z.of_nat (length vs) + available b <= usize_max ->
  let b' := mkBuf (frozen_spans b ++ rev (spans_reversed view)) (span_builders_reversed b)
              (len b + Z.of_nat (length vs)) (frozen b + Z.of_nat (length vs)) (available b) in
  buf_ok h b' (bs ++ vs)
  /\ forall c, c ∈ content_cells b' -> c ∈ content_cells b \/ exists s, s ∈ spans_reversed view /\ c ∈ span_cells s.
Proof.
  intros Hb Hu Hv Hapart Hbound b'. assert (Hun : unfrozen_span (span_builders_reversed b) = []).
  { unfold unfrozen_span, unfrozen_len in *. destruct (last (span_builders_reversed b)) as [sb|]; [|done]. by rewrite Hu. }
  assert (Hcs : content_spans b = frozen_spans b) by (unfold content_spans; by rewrite Hun, app_nil_r).
  assert (Hcs' : content_spans b' = frozen_spans b ++ rev (spans_reversed view)) by (unfold content_spans; cbn; by rewrite Hun, app_nil_r).
  split.
  - destruct Hb as [K1 K2 K3 K4 K5 K6 K7 K8 K9 K10]. rewrite Hcs in *. split; rewrite ?Hcs'; cbn; try done.
    + apply Forall_app. split; [done|]. by eapply view_ok_spans.
    + apply Forall_app. split; [done|]. by apply Forall_rev.
    + rewrite spans_bytes_app, K6. cbn. pose proof (vr_bytes _ _ _ Hv) as Hvb. unfold view_spans in Hvb. by rewrite Hvb.
    + rewrite length_app. lia.
    + rewrite fmap_app, sum_Z_app, K8. f_equal. by rewrite (spans_bytes_length _ _ _ (view_ok_spans _ _ _ Hv) (vr_bytes _ _ _ Hv)).
  - intros c (s & Hin & Hc)%elem_of_content_cells. rewrite Hcs' in Hin. apply elem_of_app in Hin as [Hin|Hin].
    + left. apply elem_of_content_cells. exists s. by rewrite Hcs.
    + right. exists s. split; [|done]. by rewrite list_elem_of_In, <- in_rev, <- list_elem_of_In in Hin.
Qed.

(** [append] adds the bytes of the view without copying them. *)
Lemma append_ok h b bs view vs : buf_ok h b bs -> view_rep h view vs -> Forall (apart (buf_cells b)) (spans_reversed view) ->
  len b + Z.of_nat (length vs) + available b <= usize_max ->
  exists b', append debug view b = Ok b' /\ buf_ok h b' (bs ++ vs) /\ buf_cells b' = buf_cells b /\ available b' = available b
    /\ forall c, c ∈ content_cells b' -> c ∈ content_cells b \/ exists s, s ∈ spans_reversed view /\ c ∈ span_cells s.
Proof.
  intros Hb Hv Hapart Hbound. unfold append, view_is_empty. rewrite (view_len_ok debug _ _ _ Hv).
  destruct (Z.eqb_spec (Z.of_nat (length vs)) 0) as [H0|H0].
  { destruct vs; [|done]. exists b. rewrite app_nil_r. split_and!; auto. }
  destruct (buf_lengths _ _ _ Hb) as (L1 & L2 & L3 & L4). rewrite checked_add_Some by lia. cbn [expect].
  unfold assert_capacity_within_bounds, rust_assert. rewrite checked_add_Some by lia. rewrite bool_decide_true by by eexists.
  unfold buf_is_empty. rewrite (buf_len_ok _ _ _ Hb). destruct (freeze_all_ok _ _ _ Hb) as (b1 & -> & Hb1 & Ha1 & Hu1 & Hc1 & Hs1).
  destruct (buf_lengths _ _ _ Hb1) as (M1 & M2 & M3 & M4). pose proof (bo_len _ _ _ Hb1) as Hl1. pose proof (bo_len _ _ _ Hb) as Hl.
  rewrite wrap64_small by lia.
  destruct (add_spans_ok h b1 bs view vs) as [Hb2 Hcc]; [done|done|done|by rewrite Hc1|lia|]. rewrite Hl1, <- Hl in *.
  eexists. split; [done|]. split_and!; [done|done|done|]. intros c Hc. destruct (Hcc c Hc) as [Hold|]; [left|by right].
  destruct (bs_content _ _ _ _ Hs1 c Hold) as [|Hbad]; [done|]. exfalso. rewrite <- Hc1 in Hbad. by eapply (apart_content h b1 bs c).
Qed.

Lemma prepare_loop_ok ss : forall n d, Forall span_ok ss -> 0 <= n <= sum_Z (s_len <$> ss) ->
  exists k m, prepare_loop ss n d = Ok ((d + k)%nat, m) /\ (k <= length ss)%nat /\ n = sum_Z (s_len <$> take k ss) + m /\ 0 <= m
    /\ (m = 0 \/ exists s, ss !! k = Some s /\ m < s_len s).
Proof.
  induction ss as [|s ss IH]; intros n d Hok Hn; cbn [prepare_loop].
  { change (sum_Z (s_len <$> [])) with 0 in Hn. exists 0%nat, n. rewrite Nat.add_0_r. split_and!; cbn; try done; change (sum_Z []) with 0; lia. }
  apply Forall_cons in Hok as [[_ Hs] Hss]. cbn [fmap list_fmap] in Hn. rewrite sum_Z_cons in Hn.
  destruct (Z.leb_spec (s_len s) n) as [Hle|Hgt].
  - rewrite checked_sub_Some by lia. cbn [expect]. destruct (Z.eqb_spec (n - s_len s) 0) as [Hz|Hnz]; cbn [negb].
    + exists 1%nat, (n - s_len s). rewrite Nat.add_1_r. cbn [take fmap list_fmap length]. rewrite sum_Z_cons, take_0. change (sum_Z (s_len <$> [])) with 0.
      split_and!; try done; lia.
    + destruct (IH (n - s_len s) (S d)) as (k & m & -> & Hk & Heq & Hm & Hcase); [done|lia|].
      exists (S k), m. cbn [take fmap list_fmap length]. rewrite sum_Z_cons. split_and!; [do 2 f_equal; lia|lia|lia|done|done].
  - exists 0%nat, n. rewrite Nat.add_0_r, take_0. change (sum_Z (s_len <$> [])) with 0. split_and!; try done; try lia. right. by exists s.
Qed.

(** The frozen spans are divided after [n] bytes. *)
Record divided (h : heap) (ss taken left : list Span) (n : Z) (bs : bytes) : Prop := {
  dv_taken : Forall span_ok taken;
  dv_left : Forall span_ok left;
  dv_taken_bytes : spans_bytes h taken = Some (take (Z.to_nat n) bs);
  dv_left_bytes : spans_bytes h left = Some (drop (Z.to_nat n) bs);
  dv_sum : sum_Z (s_len <$> left) = sum_Z (s_len <$> ss) - n;
  dv_cells : concat (span_cells <$> taken) ++ concat (span_cells <$> left) = concat (span_cells <$> ss) }.

Lemma divide_spans_ok h ss k m n bs : Forall span_ok ss -> spans_bytes h ss = Some bs -> (k <= length ss)%nat ->
  n = sum_Z (s_len <$> take k ss) + m -> 0 <= m -> (m = 0 \/ exists s, ss !! k = Some s /\ m < s_len s) ->
  exists partial spans taken left, divide_spans ss (mkManifest k m) = Ok (partial, spans)
    /\ partial ++ rev (take k spans) = rev taken /\ drop k spans = left /\ divided h ss taken left n bs.
Proof.
  intros Hok Hb Hk Hn Hm Hcase. unfold divide_spans. cbn [consume_partial_span_bytes detach_complete_frozen_spans].
  rewrite <- (take_drop k ss) in Hok, Hb. apply Forall_app in Hok as [Hok1 Hok2]. apply spans_bytes_app_Some in Hb as (x & y & Hx & Hy & ->).
  pose proof (spans_bytes_length _ _ _ Hok1 Hx) as Hlx.
  destruct (Z.eqb_spec m 0) as [->|Hnz]; cbn [negb].
  - rewrite Z.add_0_r in Hn. exists [], ss, (take k ss), (drop k ss). split_and!; [done|done|done|].
    assert (Hnx : Z.to_nat n = length x) by lia. split; try done.
    + by rewrite Hnx, take_app_length.
    + by rewrite Hnx, drop_app_length.
    + rewrite <- (take_drop k ss) at 2. rewrite fmap_app, sum_Z_app. lia.
    + by rewrite <- concat_app, <- fmap_app, take_drop.
  - destruct Hcase as [?|(s & Hs & Hms)]; [lia|]. rewrite Hs. cbn [expect].
    rewrite (drop_S _ _ _ Hs) in Hok2, Hy. apply Forall_cons in Hok2 as [Hsok Hok2]. apply spans_bytes_cons in Hy as (c & r & Hc & Hr & ->).
    pose proof (deref_length _ _ _ Hsok Hc) as Hlc. pose proof Hsok as [Hs0 Hsl]. rewrite span_slice_ok, span_advance_ok by lia.
    rewrite Z.add_0_r, Z.sub_0_r. pose proof (lookup_lt_Some _ _ _ Hs) as Hlt.
    eexists _, _, (take k ss ++ [mkSpan (s_block s) (s_start s) m]), (mkSpan (s_block s) (s_start s + m) (s_len s - m) :: drop (S k) ss).
    split; [done|]. split; [by rewrite take_insert_ge, rev_app_distr by lia|]. split.
    { rewrite insert_take_drop by done. rewrite drop_app_ge by (rewrite length_take; lia).
      rewrite length_take. replace (k - Nat.min k (length ss))%nat with 0%nat by lia. done. }
    assert (Hnx : Z.to_nat n = (length x + Z.to_nat m)%nat) by lia. split.
    + apply Forall_app. split; [done|]. apply Forall_singleton. split; cbn; lia.
    + constructor; [|done]. split; cbn; lia.
    + rewrite spans_bytes_app, Hx. cbn. pose proof (deref_part h s c 0 m Hsok Hc) as Hd. rewrite Z.add_0_r, drop_0 in Hd. rewrite Hd by lia. cbn.
      rewrite Hnx, take_app_add'; [|done]. rewrite take_app_le by lia. by rewrite app_nil_r.
    + cbn. rewrite (deref_part h s c) by (done || lia). cbn. rewrite Hr. cbn. rewrite Hnx, <- drop_drop, drop_app_length, drop_app_le by lia.
      by rewrite take_ge by (rewrite length_drop; lia).
    + cbn [fmap list_fmap]. rewrite sum_Z_cons. cbn [s_len]. rewrite <- (take_drop k ss) at 2. rewrite (drop_S _ _ _ Hs), fmap_app, sum_Z_app. cbn. rewrite sum_Z_cons. lia.
    + rewrite <- (take_drop k ss) at 3. rewrite (drop_S _ _ _ Hs), !fmap_app, !concat_app. cbn. rewrite app_nil_r, <- !(assoc_L (++)). f_equal.
      rewrite (assoc_L (++)). f_equal. unfold span_cells. cbn. rewrite <- cells_of_app by lia. f_equal. lia.
Qed.

(** A view whose spans are contents of the buffer. *)
Definition view_of (b : BytesBuf) (v : BytesView) : Prop :=
  forall s c, s ∈ spans_reversed v -> c ∈ span_cells s -> c ∈ content_cells b.

Lemma ensure_frozen_ok h b bs n : buf_ok h b bs -> 0 <= n <= Z.of_nat (length bs) ->
  exists b', ensure_frozen debug n b = Ok b' /\ buf_ok h b' bs /\ buf_cells b' = buf_cells b /\ available b' = available b
    /\ n <= frozen b' /\ buf_step h b h b'.
Proof.
  intros Hb Hn. destruct (buf_lengths _ _ _ Hb) as (L1 & L2 & L3 & L4). unfold ensure_frozen, try_into_u32.
  assert (Hu : unfrozen_len b <= block_size_max).
  { unfold unfrozen_len. destruct (last _) as [sb|] eqn:Hl; [|by unfold block_size_max]. apply last_Some in Hl as [spare Hs].
    destruct (first_builder _ _ _ _ _ Hb Hs) as ((_ & ? & ? & ? & _) & _). lia. }
  rewrite (proj2 (Z.leb_le _ _)) by lia. cbn [expect]. destruct (Z.eqb_spec (Z.max 0 (n - frozen b)) 0) as [Hz|Hnz].
  - exists b. split_and!; auto using buf_step_refl. lia.
  - destruct (freeze_ok h b bs (Z.max 0 (n - frozen b))) as (b' & -> & H1 & H2 & H3 & H4 & H5 & H6); [done|lia|].
    exists b'. split_and!; try done. lia.
Qed.

Lemma content_cells_split b : content_cells b = concat (span_cells <$> frozen_spans b) ++ concat (span_cells <$> unfrozen_span (span_builders_reversed b)).
Proof. unfold content_cells, content_spans. by rewrite fmap_app, concat_app. Qed.

Lemma take_frozen_ok h b bs n : buf_ok h b bs -> 0 <= n <= frozen b ->
  exists v b', take_frozen debug n b = Ok (v, b') /\ view_rep h v (take (Z.to_nat n) bs) /\ buf_ok h b' (drop (Z.to_nat n) bs)
    /\ view_of b v /\ (forall c, c ∈ content_cells b' -> c ∈ content_cells b) /\ buf_cells b' = buf_cells b /\ available b' = available b.
Proof.
  intros Hb Hn. destruct (buf_lengths _ _ _ Hb) as (L1 & L2 & L3 & L4). pose proof (bo_bytes _ _ _ Hb) as Hbytes. pose proof (bo_frozen_len _ _ _ Hb) as Hfl.
  pose proof (bo_len _ _ _ Hb) as Hlen. pose proof (bo_bound _ _ _ Hb) as Hbound.
  unfold content_spans in Hbytes. apply spans_bytes_app_Some in Hbytes as (fs & us & Hfs & Hus & ->).
  pose proof (spans_bytes_length _ _ _ (bo_frozen _ _ _ Hb) Hfs) as Hlfs. rewrite length_app in *.
  destruct (prepare_loop_ok (frozen_spans b) n 0 (bo_frozen _ _ _ Hb)) as (k & m & Hprep & Hk & Heq & Hm & Hcase); [lia|].
  unfold take_frozen, prepare_consume. rewrite debug_assert_true, Hprep by (apply Z.leb_le; lia).
  assert (Hmu : try_into_u32 m = Some m).
  { unfold try_into_u32. rewrite (proj2 (Z.leb_le _ _)); [done|]. destruct Hcase as [->|(s & Hs & ?)]; [done|].
    pose proof (bo_frozen _ _ _ Hb) as Hok. rewrite Forall_lookup in Hok. destruct (Hok _ _ Hs). lia. }
  rewrite Hmu. cbn [expect plus].
  destruct (divide_spans_ok h (frozen_spans b) k m n fs (bo_frozen _ _ _ Hb) Hfs Hk Heq Hm Hcase) as (partial & spans & taken & left & -> & Hrev & Hleft & Hdiv).
  cbn [detach_complete_frozen_spans]. rewrite Hrev, Hleft.
  destruct (from_spans_reversed_ok debug h (rev taken) (take (Z.to_nat n) fs)) as (v & -> & Hv & Hvs).
  { apply Forall_rev, Hdiv. } { rewrite rev_involutive. apply Hdiv. } { rewrite length_take. lia. }
  rewrite !wrap64_small by lia. exists v. eexists. split; [done|].
  assert (Hin : forall c, c ∈ concat (span_cells <$> taken) \/ c ∈ concat (span_cells <$> left) -> c ∈ concat (span_cells <$> frozen_spans b)).
  { intros c. by rewrite <- (dv_cells _ _ _ _ _ _ Hdiv), elem_of_app. }
  set (b2 := mkBuf left _ _ _ _).
  assert (Hcc : forall c, c ∈ content_cells b2 -> c ∈ content_cells b).
  { intros c. rewrite !content_cells_split, !elem_of_app. cbn. intros [|]; [left|by right]. auto. }
  split_and!; [by rewrite take_app_le by lia| | |done|done|done].
  - destruct Hb as [K1 K2 K3 K4 K5 K6 K7 K8 K9 K10]. split; cbn; try done.
    + apply Hdiv.
    + apply apart_cells. intros c Hc. apply (proj1 (apart_cells _ _) K5). by apply Hcc.
    + unfold content_spans. cbn. rewrite spans_bytes_app, (dv_left_bytes _ _ _ _ _ _ Hdiv). cbn. rewrite Hus. cbn. by rewrite drop_app_le by lia.
    + rewrite length_drop, length_app. lia.
    + rewrite (dv_sum _ _ _ _ _ _ Hdiv). lia.
    + lia.
  - intros s c Hs Hc. rewrite content_cells_split. apply elem_of_app. left. apply Hin. left. apply elem_of_concat_map.
    exists s. split; [|done]. rewrite Hvs in Hs. by rewrite list_elem_of_In, <- in_rev, <- list_elem_of_In in Hs.
Qed.

(** [consume_checked] takes bytes from the front. *)
Lemma consume_ok h b bs n : buf_ok h b bs -> 0 <= n <= Z.of_nat (length bs) ->
  exists v b', consume_checked debug n b = Ok (Some v, b') /\ view_rep h v (take (Z.to_nat n) bs) /\ buf_ok h b' (drop (Z.to_nat n) bs)
    /\ view_of b v /\ buf_step h b h b' /\ buf_cells b' = buf_cells b /\ available b' = available b.
Proof.
  intros Hb Hn. unfold consume_checked. rewrite (buf_len_ok _ _ _ Hb), (proj2 (Z.ltb_ge _ _)) by lia.
  destruct (ensure_frozen_ok h b bs n Hb Hn) as (b1 & -> & Hb1 & Hc1 & Ha1 & Hf1 & Hs1).
  destruct (take_frozen_ok h b1 bs n Hb1) as (v & b2 & -> & Hv & Hb2 & Hof & Hcc & Hc2 & Ha2); [lia|].
  assert (Hback : forall c, c ∈ content_cells b1 -> c ∈ content_cells b).
  { intros c Hc. destruct (bs_content _ _ _ _ Hs1 c Hc) as [|Hbad]; [done|]. exfalso. rewrite <- Hc1 in Hbad. by eapply (apart_content h b1 bs c). }
  exists v, b2. split_and!; [done|done|done| | |congruence|congruence].
  - intros s c Hs Hc. eapply Hback, Hof; done.
  - eapply buf_step_trans; [done|]. split; auto with rust. by rewrite Hc2.
Qed.

(** [peek] shows all bytes and changes nothing. *)
Lemma peek_ok h b bs : buf_ok h b bs -> exists v, peek debug b = Ok v /\ view_rep h v bs /\ view_of b v.
Proof.
  intros Hb. unfold peek. assert (Hss : forall x, match last (span_builders_reversed b) with
      | Some sb => let span := builder_peek sb in if span_is_empty span then [] else [span] | None => [] end ++ x
      = rev (unfrozen_span (span_builders_reversed b)) ++ x).
  { intros x. unfold unfrozen_span. destruct (last _) as [sb|]; [|done]. cbn. unfold span_is_empty. cbn. by destruct (_ =? 0). }
  rewrite Hss, <- rev_app_distr. fold (content_spans b). destruct (from_spans_reversed_ok debug h (rev (content_spans b)) bs) as (v & -> & Hv & Hvs).
  - apply Forall_rev. by eapply content_ok.
  - rewrite rev_involutive. apply Hb.
  - rewrite <- (bo_len _ _ _ Hb). pose proof (bo_bound _ _ _ Hb). destruct (buf_lengths _ _ _ Hb) as (_ & _ & _ & ?). lia.
  - exists v. split_and!; [done|done|]. intros s c Hs Hc. apply elem_of_content_cells. exists s. split; [|done].
    rewrite Hvs in Hs. by rewrite list_elem_of_In, <- in_rev, <- list_elem_of_In in Hs.
Qed.

(** ** Splitting off capacity *)

Lemma whole_builders_ok h sbs : forall count w0, Forall (builder_ok h) sbs ->
  0 <= count <= sum_Z (available_bytes <$> sbs) -> count <= usize_max ->
  exists r w, whole_builders sbs count w0 = (r, (w0 + w)%nat) /\ (w <= length sbs)%nat /\ Forall (fun sb => filled_bytes sb = 0) (take w sbs)
    /\ r = count - sum_Z (available_bytes <$> take w sbs) /\ 0 <= r
    /\ (r = 0 \/ exists sb rest, drop w sbs = sb :: rest /\ (filled_bytes sb <> 0 \/ r < available_bytes sb)).
Proof.
  induction sbs as [|sb sbs IH]; intros count w0 Hok Hc Hu; cbn [whole_builders].
  { change (sum_Z (available_bytes <$> [])) with 0 in Hc. exists count, 0%nat. rewrite Nat.add_0_r. cbn. change (sum_Z []) with 0. split_and!; try done; try lia. }
  apply Forall_cons in Hok as [Hsb Hok]. pose proof Hsb as (_ & _ & Hav & _). cbn [fmap list_fmap] in Hc. rewrite sum_Z_cons in Hc.
  unfold builder_is_empty. destruct (Z.eqb_spec (filled_bytes sb) 0) as [Hf|Hf]; cbn [negb].
  - destruct (Z.ltb_spec count (available_bytes sb)) as [Hlt|Hge].
    + exists count, 0%nat. rewrite Nat.add_0_r, take_0. cbn. change (sum_Z []) with 0. split_and!; try done; try lia. right. exists sb, sbs. auto.
    + rewrite wrap64_small by lia. destruct (IH (count - available_bytes sb) (S w0)) as (r & w & -> & Hw & Hfill & Hr & Hr0 & Hcase); [done|lia|lia|].
      exists r, (S w). cbn [take drop fmap list_fmap length]. rewrite sum_Z_cons. split_and!; [f_equal; lia|lia|by constructor|lia|done|done].
  - exists count, 0%nat. rewrite Nat.add_0_r, take_0. cbn. change (sum_Z []) with 0. split_and!; try done; try lia. right. exists sb, sbs. auto.
Qed.

Lemma split_off_available_eq h sb n : builder_ok h sb -> 0 <= n <= available_bytes sb ->
  split_off_available sb n = Ok (mkBuilder (b_block sb) (b_start sb) (filled_bytes sb) (available_bytes sb - n),
    mkBuilder (b_block sb) (b_start sb + filled_bytes sb + (available_bytes sb - n)) 0 n).
Proof.
  intros (H1 & H2 & H3 & H4 & _) Hn. unfold split_off_available, rust_assert, block_size_max in *. rewrite (proj2 (Z.leb_le _ _)) by lia.
  rewrite !(wrap32_small (available_bytes sb - n)), wrap32_small by lia. do 3 f_equal. lia.
Qed.

(** Builders without contents are a buffer without contents. *)
Lemma from_span_builders_ok h sbs : Forall (builder_ok h) sbs -> Forall (fun sb => filled_bytes sb = 0) sbs ->
  NoDup (concat (builder_cells <$> sbs)) -> sum_Z (available_bytes <$> sbs) <= usize_max -> buf_ok h (from_span_builders sbs) [].
Proof.
  intros Hok Hf Hnd Hsum.
  split; cbn; rewrite ?unfrozen_spare by done; try done; try lia; unfold content_spans; cbn; rewrite ?unfrozen_spare by done; try done.
  by apply spare_empty_all.
Qed.


(** When the first builder must keep capacity, as long as it holds bytes. *)
Definition split_safe (count : Z) (b : BytesBuf) : Prop := count < available b \/ unfrozen_len b = 0.

Record split_ok (h : heap) (sbs off sbs' : list SpanBuilder) (count : Z) : Prop := {
  so_off : Forall (builder_ok h) off;
  so_empty : Forall (fun sb => filled_bytes sb = 0) off;
  so_keep : Forall (builder_ok h) sbs';
  so_cells : concat (builder_cells <$> sbs) ≡ₚ concat (builder_cells <$> off) ++ concat (builder_cells <$> sbs');
  so_sum_off : sum_Z (available_bytes <$> off) = count;
  so_sum : sum_Z (available_bytes <$> sbs') = sum_Z (available_bytes <$> sbs) - count;
  so_unfrozen : unfrozen_span sbs' = unfrozen_span sbs;
  so_spare : spare_empty sbs' }.

(** Splitting the builder [sb] itself. *)
Lemma split_one_ok h taken sb rest n : Forall (builder_ok h) (taken ++ sb :: rest) -> spare_empty (taken ++ sb :: rest) ->
  Forall (fun s => filled_bytes s = 0) taken -> 0 < n < available_bytes sb ->
  split_ok h (taken ++ sb :: rest)
    (taken ++ [mkBuilder (b_block sb) (b_start sb + filled_bytes sb + (available_bytes sb - n)) 0 n])
    (mkBuilder (b_block sb) (b_start sb) (filled_bytes sb) (available_bytes sb - n) :: rest)
    (sum_Z (available_bytes <$> taken) + n).
Proof.
  intros Hok Hsp Hf Hn. apply Forall_app in Hok as [Hok1 [Hsb Hok2]%Forall_cons]. pose proof Hsb as (H1 & H2 & H3 & H4 & data & Hd & Hl).
  split.
  - apply Forall_app. split; [done|]. apply Forall_singleton. split_and!; cbn; try lia. exists data. split; [done|lia].
  - apply Forall_app. split; [done|]. by apply Forall_singleton.
  - constructor; [|done]. split_and!; cbn; try lia. exists data. split; [done|lia].
  - rewrite !fmap_app, !concat_app. cbn. rewrite app_nil_r, <- (assoc_L (++)). apply Permutation_app_head.
    unfold builder_cells at 1 3 4. cbn. replace (available_bytes sb) with ((available_bytes sb - n) + n) at 1 by lia.
    rewrite cells_of_app by lia. rewrite Z.add_0_r, (assoc_L (++)). apply Permutation_app_tail, Permutation_app_comm.
  - rewrite fmap_app, sum_Z_app. cbn. rewrite sum_Z_cons. change (sum_Z []) with 0. lia.
  - rewrite fmap_app, sum_Z_app. cbn. rewrite !sum_Z_cons. cbn. lia.
  - unfold unfrozen_span. rewrite last_app. destruct rest as [|s rest _] using rev_ind; [done|]. by rewrite !app_comm_cons, !last_snoc.
  - destruct rest as [|s rest _] using rev_ind; [intros [|? [|]] ? [=]; done|].
    intros spare sb' Heq. rewrite app_comm_cons in Heq. apply app_inj_tail in Heq as [<- ->].
    specialize (Hsp (taken ++ sb :: rest) sb'). rewrite <- (assoc_L (++)) in Hsp. cbn in Hsp. specialize (Hsp eq_refl).
    apply Forall_app in Hsp as [_ [Hs0 Hs1]%Forall_cons]. by constructor.
Qed.

Lemma split_builders_ok h b bs count : buf_ok h b bs -> 0 < count <= available b -> split_safe count b ->
  exists off sbs', split_builders (span_builders_reversed b) count = Ok (off, sbs') /\ split_ok h (span_builders_reversed b) off sbs' count.
Proof.
  intros Hb Hc Hsafe. pose proof (bo_available _ _ _ Hb) as Hav. pose proof (bo_builders _ _ _ Hb) as Hok. pose proof (bo_spare _ _ _ Hb) as Hsp.
  pose proof (bo_bound _ _ _ Hb) as Hbd. destruct (buf_lengths _ _ _ Hb) as (L1 & L2 & L3 & L4). pose proof (bo_len _ _ _ Hb) as Hlen.
  unfold split_safe, unfrozen_len in Hsafe. set (sbs := span_builders_reversed b) in *. rewrite Hav in *.
  destruct (whole_builders_ok h sbs count 0 Hok) as (r & w & Hwb & Hw & Hf & Hr & Hr0 & Hcase); [lia|lia|].
  unfold split_builders. rewrite Hwb. cbn [plus].
  assert (Hsum : sum_Z (available_bytes <$> sbs) = sum_Z (available_bytes <$> take w sbs) + sum_Z (available_bytes <$> drop w sbs)).
  { rewrite <- (take_drop w sbs) at 1. by rewrite fmap_app, sum_Z_app. }
  destruct (Z.ltb_spec 0 r) as [Hpos|Hz].
  - destruct Hcase as [?|(sb & rest & Hd & Hcase)]; [lia|]. rewrite Hd in *.
    assert (Hsplit : sbs = take w sbs ++ sb :: rest) by by rewrite <- Hd, take_drop.
    assert (Hsb : builder_ok h sb) by (rewrite Hsplit in Hok; by apply Forall_app in Hok as [_ [? _]%Forall_cons]).
    cbn [fmap list_fmap] in Hsum. rewrite sum_Z_cons in Hsum.
    assert (Hlt : r < available_bytes sb).
    { destruct Hcase as [Hne|]; [|done]. destruct rest as [|s rest _] using rev_ind.
      - change (sum_Z (available_bytes <$> [])) with 0 in Hsum. destruct Hsafe as [|Hun]; [lia|].
        rewrite Hsplit, last_snoc in Hun. done.
      - exfalso. apply Hne. specialize (Hsp (take w sbs ++ sb :: rest) s). rewrite <- (assoc_L (++)) in Hsp. cbn in Hsp.
        specialize (Hsp Hsplit). by apply Forall_app in Hsp as [_ [? _]%Forall_cons]. }
    pose proof Hsb as (_ & _ & _ & Hbm & _). pose proof Hsb as (_ & Hfb & _).
    unfold try_into_u32. rewrite (proj2 (Z.leb_le _ _)) by lia. cbn [expect]. rewrite (split_off_available_eq h) by (done || lia).
    eexists _, _. split; [done|]. pose proof (split_one_ok h (take w sbs) sb rest r) as Hone. rewrite <- Hsplit in Hone.
    replace count with (sum_Z (available_bytes <$> take w sbs) + r) by lia. apply Hone; [done|done|done|lia].
  - eexists _, _. split; [done|]. assert (Hok' := Hok). rewrite <- (take_drop w sbs) in Hok'. apply Forall_app in Hok' as [Hok1 Hok2]. split; try done; try lia.
    + by rewrite <- concat_app, <- fmap_app, take_drop.
    + unfold unfrozen_span. rewrite <- (take_drop w sbs) at 2. rewrite last_app. destruct (last (drop w sbs)) eqn:Hl; [done|].
      apply last_None in Hl. destruct (last (take w sbs)) as [sb|] eqn:Hl'; [|done]. apply last_Some in Hl' as [l' Hl'].
      rewrite Hl' in Hf. apply Forall_app in Hf as [_ [-> _]%Forall_cons]. done.
    + intros spare sb Heq. specialize (Hsp (take w sbs ++ spare) sb). rewrite <- (assoc_L (++)), <- Heq, take_drop in Hsp.
      specialize (Hsp eq_refl). by apply Forall_app in Hsp as [_ ?].
Qed.

Lemma split_off_ok h b bs count : buf_ok h b bs -> 0 <= count <= available b -> split_safe count b ->
  exists s b', split_off_remaining_checked debug count b = Ok (Some s, b') /\ buf_ok h s [] /\ buf_ok h b' bs
    /\ buf_cells b ≡ₚ buf_cells s ++ buf_cells b' /\ available s = count /\ available b' = available b - count
    /\ content_spans b' = content_spans b.
Proof.
  intros Hb Hc Hsafe. unfold split_off_remaining_checked. rewrite (remaining_capacity_ok _ _ _ Hb), (proj2 (Z.ltb_ge _ _)) by lia.
  destruct (Z.eqb_spec count 0) as [->|Hnz].
  { exists buf_new, b. split_and!; try done; [apply buf_ok_new|lia]. }
  destruct (split_builders_ok h b bs count Hb) as (off & sbs' & -> & [S1 S2 S3 S4 S5 S6 S7 S8]); [lia|done|].
  rewrite checked_sub_Some by lia. cbn [expect]. eexists _, _. split; [done|].
  pose proof (bo_nodup _ _ _ Hb) as Hnd. unfold buf_cells in Hnd. rewrite S4 in Hnd. apply NoDup_app in Hnd as (Hnd1 & Hdis & Hnd2).
  pose proof (bo_bound _ _ _ Hb). destruct (buf_lengths _ _ _ Hb) as (L1 & L2 & L3 & L4). pose proof (bo_len _ _ _ Hb).
  split_and!; [|..|done|done|done|].
  - apply from_span_builders_ok; try done. lia.
  - destruct Hb as [K1 K2 K3 K4 K5 K6 K7 K8 K9 K10]. unfold content_spans in *. split; cbn; rewrite ?S7; try done; try lia.
    + unfold content_spans. cbn. rewrite ?S7. eapply Forall_impl; [exact K5|]. intros s. apply apart_mono. intros c Hin. unfold buf_cells in *. rewrite S4. apply elem_of_app. by right.
  - unfold content_spans. cbn. by rewrite S7.
Qed.

(** The other case: taking all capacity from a first builder that holds bytes succeeds too, but leaves
    that builder behind, full. *)
Lemma split_all_builders h b bs count : buf_ok h b bs -> count <= available b -> ~ split_safe count b ->
  exists spare sb off, span_builders_reversed b = spare ++ [sb]
    /\ split_builders (span_builders_reversed b) count = Ok (off, [mkBuilder (b_block sb) (b_start sb) (filled_bytes sb) 0]).
Proof.
  intros Hb Hc Hunsafe. pose proof (bo_available _ _ _ Hb) as Hav. pose proof (bo_builders _ _ _ Hb) as Hok. pose proof (bo_bound _ _ _ Hb) as Hbd.
  destruct (buf_lengths _ _ _ Hb) as (L1 & L2 & L3 & L4). pose proof (bo_len _ _ _ Hb) as Hlen.
  assert (count = available b /\ unfrozen_len b <> 0) as [-> Hun] by (unfold split_safe in Hunsafe; lia).
  destruct (last (span_builders_reversed b)) as [sb|] eqn:Hl; [|by unfold unfrozen_len in Hun; rewrite Hl in Hun].
  apply last_Some in Hl as [spare Hs]. destruct (first_builder _ _ _ _ _ Hb Hs) as (Hsb & Hspare & Hempty & Hf & Hle).
  destruct (whole_builders_ok h (span_builders_reversed b) (available b) 0 Hok) as (r & w & Hwb & Hw & Hfill & Hr & Hr0 & Hcase); [lia|lia|].
  rewrite Hs in *. assert (w = length spare) as ->.
  { rewrite length_app in Hw. cbn in Hw. destruct (Nat.lt_trichotomy w (length spare)) as [Hlt|[|Hgt]]; [|done|].
    - exfalso. rewrite fmap_app, sum_Z_app in Hav. cbn in Hav. rewrite sum_Z_cons in Hav. change (sum_Z []) with 0 in Hav.
      rewrite take_app_le in Hr by lia. rewrite <- (take_drop w spare), fmap_app, sum_Z_app in Hav.
      destruct (drop w spare) as [|x rest] eqn:Hd; [apply (f_equal length) in Hd; rewrite length_drop in Hd; cbn in Hd; lia|].
      rewrite drop_app_le, Hd in Hcase by lia. cbn [fmap list_fmap app] in *. rewrite sum_Z_cons in Hav.
      rewrite <- (take_drop w spare), Hd in Hspare, Hempty. apply Forall_app in Hspare as [_ [Hx Hrest]%Forall_cons]. apply Forall_app in Hempty as [_ [Hx0 _]%Forall_cons].
      assert (0 <= sum_Z (available_bytes <$> rest)). { apply sum_Z_nonneg, Forall_fmap. eapply Forall_impl; [exact Hrest|]. intros ? (_ & _ & ? & _). cbn. lia. }
      destruct Hsb as (_ & _ & Hsb & _). destruct Hx as (_ & _ & Hx & _). destruct Hcase as [?|(y & ? & [= <- _] & [?|?])]; [lia|done|lia].
    - exfalso. rewrite take_ge in Hfill by (rewrite length_app; cbn; lia). apply Forall_app in Hfill as [_ [? _]%Forall_cons]. lia. }
  rewrite take_app_length in Hr. rewrite fmap_app, sum_Z_app in Hav. cbn in Hav. rewrite sum_Z_cons in Hav. change (sum_Z []) with 0 in Hav.
  pose proof Hsb as (_ & Hfb & Hap & Hbm & _). unfold split_builders. rewrite Hwb. cbn [plus]. rewrite (proj2 (Z.ltb_lt _ _)), drop_app_length by lia.
  unfold try_into_u32. rewrite (proj2 (Z.leb_le _ _)) by lia. cbn [expect]. rewrite (split_off_available_eq h) by (done || lia).
  replace (available_bytes sb - r) with 0 by lia. by eexists _, _, _.
Qed.

Lemma split_all_ok h b bs count : buf_ok h b bs -> count <= available b -> ~ split_safe count b ->
  exists spare sb s, span_builders_reversed b = spare ++ [sb]
    /\ split_off_remaining_checked debug count b
       = Ok (Some s, mkBuf (frozen_spans b) [mkBuilder (b_block sb) (b_start sb) (filled_bytes sb) 0] (len b) (frozen b) 0).
Proof.
  intros Hb Hc Hunsafe. destruct (split_all_builders h b bs count Hb Hc Hunsafe) as (spare & sb & off & Hs & Hsplit).
  destruct (first_builder _ _ _ _ _ Hb Hs) as ((_ & _ & Hpos & _) & _ & _ & _ & Hle).
  assert (count = available b) as -> by (unfold split_safe in Hunsafe; lia).
  unfold split_off_remaining_checked. rewrite (remaining_capacity_ok _ _ _ Hb), (proj2 (Z.ltb_ge _ _)), (proj2 (Z.eqb_neq _ _)), Hsplit by lia.
  rewrite checked_sub_Some by lia. cbn [expect]. rewrite Z.sub_diag. by eexists _, _, _.
Qed.

(** Splitting off never fails within the capacity. *)
Lemma split_off_total h b bs count : buf_ok h b bs -> 0 <= count <= available b ->
  exists s b', split_off_remaining_checked debug count b = Ok (Some s, b').
Proof.
  intros Hb Hc. assert (split_safe count b \/ ~ split_safe count b) as [Hsafe|Hunsafe] by (unfold split_safe; lia).
  - destruct (split_off_ok h b bs count Hb Hc Hsafe) as (s & b' & -> & _). by eexists _, _.
  - destruct (split_all_ok h b bs count Hb) as (spare & sb & s & _ & ->); [lia|done|]. by eexists _, _.
Qed.

(** ** What is left after splitting off everything *)

(** The frozen bytes alone are a buffer too. *)
Lemma frozen_alone h b bs : buf_ok h b bs ->
  buf_ok h (mkBuf (frozen_spans b) [] (frozen b) (frozen b) 0) (take (Z.to_nat (frozen b)) bs).
Proof.
  intros Hb. destruct (buf_lengths _ _ _ Hb) as (L1 & L2 & L3 & L4). pose proof (bo_bound _ _ _ Hb). pose proof (bo_len _ _ _ Hb).
  pose proof (bo_bytes _ _ _ Hb) as Hbytes. unfold content_spans in Hbytes. apply spans_bytes_app_Some in Hbytes as (fs & us & Hfs & _ & Hbs).
  pose proof (spans_bytes_length _ _ _ (bo_frozen _ _ _ Hb) Hfs) as Hl. rewrite <- (bo_frozen_len _ _ _ Hb) in Hl.
  assert (take (Z.to_nat (frozen b)) bs = fs) as ->. { rewrite Hbs, <- Hl, Nat2Z.id. apply take_app_length. }
  split; unfold content_spans; cbn; rewrite ?app_nil_r; try done; try apply Hb; try lia.
  - intros [|? ?] ? [=].
  - constructor.
  - pose proof (bo_frozen _ _ _ Hb) as Hok. eapply Forall_impl; [exact Hok|]. intros s _ c _. apply not_elem_of_nil.
Qed.

(** [take_frozen] does not look at the length. *)
Lemma take_frozen_len n fs sbs l l' f a v b2 : take_frozen debug n (mkBuf fs sbs l f a) = Ok (v, b2) ->
  take_frozen debug n (mkBuf fs sbs l' f a) = Ok (v, mkBuf (frozen_spans b2) sbs (wrap64 (l' - n)) (frozen b2) a).
Proof.
  unfold take_frozen, prepare_consume. cbn [frozen frozen_spans span_builders_reversed len available].
  destruct (debug_assert _ _); try done. destruct (prepare_loop _ _ _) as [[d m]|?|]; try done. destruct (expect _) as [p|?|]; try done.
  destruct (divide_spans _ _) as [[ps ss]|?|]; try done. destruct (from_spans_reversed _ _) as [v'|?|]; try done. by intros [= <- <-].
Qed.

(** ** Vectored writes *)

(** The slices that are given out when at most [max_len] bytes may be written. *)
Fixpoint limit (max_len : option Z) (sls : list SliceMut) : list SliceMut :=
  match sls with
  | [] => []
  | sl :: sls =>
      match max_len with
      | Some m =>
          let n := Z.min (sl_len sl) m in
          mkSlice (sl_block sl) (sl_start sl) n :: (if m - n =? 0 then [] else limit (Some (m - n)) sls)
      | None => sl :: limit None sls
      end
  end.

Definition unfilled_slices (sbs : list SpanBuilder) : list SliceMut := unfilled_slice_mut <$> rev sbs.

Definition at_most (max_len : option Z) (n : Z) : Prop := match max_len with Some m => n <= m <= usize_max | None => True end.

Lemma remaining_slices_done fuel b m : remaining_slices fuel b (None, m) = Ok [].
Proof. by destruct fuel. Qed.

Lemma remaining_slices_ok h b bs fuel : forall i m, buf_ok h b bs -> (i < length (span_builders_reversed b))%nat ->
  (length (span_builders_reversed b) - i <= fuel)%nat -> at_most m 0 ->
  remaining_slices fuel b (Some i, m)
  = Ok (limit m (drop i (unfilled_slices (span_builders_reversed b)))).
Proof.
  induction fuel as [|fuel IH]; intros i m Hb Hi Hf Hm; [lia|]. cbn [remaining_slices]. unfold remaining_next. cbn [fst snd].
  rewrite (proj2 (Nat.leb_le _ _)) by lia. set (sbs := span_builders_reversed b) in *.
  destruct (lookup_lt_is_Some_2 sbs (length sbs - S i)) as [sb Hsb]; [lia|]. rewrite Hsb. cbn [expect].
  assert (Hdrop : drop i (unfilled_slices sbs) = unfilled_slice_mut sb :: drop (S i) (unfilled_slices sbs)).
  { apply drop_S. unfold unfilled_slices. rewrite list_lookup_fmap, rev_alt. change (rev_append sbs []) with (reverse sbs). rewrite reverse_lookup by done.
    by rewrite Hsb. }
  assert (Hav : 0 < available_bytes sb).
  { pose proof (bo_builders _ _ _ Hb) as Hok. rewrite Forall_lookup in Hok. by destruct (Hok _ _ Hsb) as (_ & _ & ? & _). }
  assert (Hend : length (unfilled_slices sbs) = length sbs) by (unfold unfilled_slices; rewrite length_fmap, length_rev; done).
  rewrite Hdrop. cbn [limit]. unfold at_most in Hm. destruct m as [m|].
  - rewrite wrap64_small by (cbn; lia). destruct (Z.eqb_spec (m - Z.min (sl_len (unfilled_slice_mut sb)) m) 0) as [Hz|Hnz].
    + by rewrite remaining_slices_done.
    + destruct (Nat.eqb_spec (S i) (length sbs)) as [He|Hne].
      * rewrite remaining_slices_done, drop_ge by lia. done.
      * rewrite IH by (done || (cbn in *; lia)). done.
  - destruct (Nat.eqb_spec (S i) (length sbs)) as [He|Hne].
    + rewrite remaining_slices_done, drop_ge by lia. done.
    + rewrite IH by (done || lia). done.
Qed.

Lemma slices_mut_ok h b bs m : buf_ok h b bs -> at_most m 0 ->
  slices_mut m b = Ok (limit m (unfilled_slices (span_builders_reversed b))).
Proof.
  intros Hb Hm. unfold slices_mut. destruct (span_builders_reversed b) as [|sb sbs] eqn:Hs; [done|].
  rewrite <- Hs. erewrite remaining_slices_ok; [by rewrite drop_0|done|rewrite Hs; cbn; lia|lia|done].
Qed.

(** A writer that fills the slices one after the other. *)
Fixpoint write_slices (h : heap) (sls : list SliceMut) (src : bytes) : result heap :=
  match sls with
  | [] => if bool_decide (src = []) then Ok h else Panic
  | sl :: sls =>
      let n := Nat.min (Z.to_nat (sl_len sl)) (length src) in
      let? h := write_slice h sl (take n src) in
      write_slices h sls (drop n src)
  end.

(** Bytes that were written to the builders, in content order, and not yet committed. *)
Fixpoint pending (h : heap) (sbs : list SpanBuilder) (src : bytes) : Prop :=
  match sbs with
  | [] => src = []
  | sb :: sbs =>
      let n := Z.min (available_bytes sb) (Z.of_nat (length src)) in
      read h (b_block sb) (b_start sb + filled_bytes sb) n = Some (take (Z.to_nat n) src) /\ pending h sbs (drop (Z.to_nat n) src)
  end.

Lemma commit_loop_ok h fuel : forall b bs src, buf_ok h b bs -> pending h (rev (span_builders_reversed b)) src -> (length src <= fuel)%nat ->
  exists b', commit_loop debug fuel (Z.of_nat (length src)) b = Ok b' /\ wrote h b bs src h b'.
Proof.
  induction fuel as [|fuel IH]; intros b bs src Hb Hp Hf; (destruct (decide (src = [])) as [->|Hne];
    [exists b; split; [done|]; split_and!; [by rewrite app_nil_r|apply buf_step_refl|cbn; lia]|]).
  { destruct src; [done|]. cbn in Hf. lia. }
  assert (0 < length src)%nat by (destruct src; [done|cbn; lia]). cbn [commit_loop]. rewrite (proj2 (Z.leb_gt _ _)) by lia.
  destruct (span_builders_reversed b) as [|sb spare _] eqn:Hs using rev_ind; [done|]. rewrite last_snoc.
  rewrite rev_app_distr in Hp. destruct Hp as [Hr Hp]. destruct (first_builder _ _ _ _ _ Hb Hs) as ((_ & _ & H3 & _) & _).
  set (n := Z.min (available_bytes sb) (Z.of_nat (length src))) in *. rewrite (advance_eq h b bs spare sb n) by (done || lia).
  rewrite checked_sub_Some by lia. cbn [expect].
  assert (Hlen : Z.of_nat (length (take (Z.to_nat n) src)) = n) by (rewrite length_take; lia).
  pose proof (fill_wrote h h b bs spare sb (take (Z.to_nat n) src) Hb (buf_step_refl _ _) Hs) as Hw. rewrite Hlen in Hw. specialize (Hw ltac:(lia) Hr).
  replace (Z.of_nat (length src) - n) with (Z.of_nat (length (drop (Z.to_nat n) src))) by (rewrite length_drop; lia).
  destruct (IH (filled_buf b spare sb n) (bs ++ take (Z.to_nat n) src) (drop (Z.to_nat n) src)) as (b' & -> & Hw').
  - apply Hw.
  - unfold filled_buf. destruct (Z.eqb_spec (available_bytes sb) n) as [He|Hn']; [done|]. cbn. rewrite rev_app_distr. cbn.
    assert (Hnil : drop (Z.to_nat n) src = []) by (apply drop_ge; lia). rewrite Hnil in *. rewrite Z.min_r by (cbn; lia). split; done.
  - rewrite length_drop. lia.
  - exists b'. split; [done|]. rewrite <- (take_drop (Z.to_nat n) src). by eapply wrote_trans.
Qed.

Lemma pending_nil h sbs : Forall (builder_ok h) sbs -> pending h sbs [].
Proof.
  induction 1 as [|sb sbs (? & ? & ? & _) _ IH]; cbn; [done|]. rewrite Z.min_r by lia. done.
Qed.

Lemma pending_only_changes h h' sbs cells src : only_changes cells h h' ->
  (forall c, c ∈ concat (builder_cells <$> sbs) -> c ∉ cells) -> pending h sbs src -> pending h' sbs src.
Proof.
  intros Hc. revert src. induction sbs as [|sb sbs IH]; intros src Hd; [done|]. cbn in *. intros [Hr Hp]. split.
  - rewrite <- Hr. apply read_same. intros x Hx. apply Hc, Hd, elem_of_app. left. unfold builder_cells. rewrite elem_of_cells_of. cbn. lia.
  - apply IH; [|done]. intros c Hin. apply Hd, elem_of_app. by right.
Qed.

(** Filling the slices puts the bytes where [commit] expects them. *)
Lemma write_slices_ok sbs : forall h m src, Forall (builder_ok h) sbs -> NoDup (concat (builder_cells <$> sbs)) ->
  Z.of_nat (length src) <= sum_Z (available_bytes <$> sbs) -> at_most m (Z.of_nat (length src)) ->
  exists h', write_slices h (limit m (unfilled_slice_mut <$> sbs)) src = Ok h' /\ pending h' sbs src
    /\ only_changes (concat (builder_cells <$> sbs)) h h' /\ same_shape h h'.
Proof.
  induction sbs as [|sb sbs IH]; intros h m src Hok Hnd Hsum Hm.
  { change (sum_Z (available_bytes <$> [])) with 0 in Hsum. destruct src; [|cbn in Hsum; lia]. exists h. split_and!; done. }
  apply Forall_cons in Hok as [Hsb Hok]. pose proof Hsb as (H1 & H2 & H3 & H4 & data & Hd & Hl). cbn [fmap list_fmap concat] in *. rewrite sum_Z_cons in Hsum.
  apply NoDup_app in Hnd as (Hnd1 & Hdis & Hnd2). set (n := Z.min (available_bytes sb) (Z.of_nat (length src))).
  assert (Hlim : exists m' sls, limit m (unfilled_slice_mut sb :: (unfilled_slice_mut <$> sbs)) = mkSlice (b_block sb) (b_start sb + filled_bytes sb) m' :: sls
      /\ n <= m' <= available_bytes sb /\ (Z.min m' (Z.of_nat (length src)) = n)
      /\ ((sls = [] /\ Z.of_nat (length src) <= n) \/ exists m2, sls = limit m2 (unfilled_slice_mut <$> sbs) /\ at_most m2 (Z.of_nat (length src) - n))).
  { cbn [limit]. destruct m as [m|]; cbn in Hm.
    - eexists _, _. split; [done|]. cbn [unfilled_slice_mut sl_len]. split_and!; try lia.
      destruct (Z.eqb_spec (m - Z.min (available_bytes sb) m) 0); [left; split; [done|lia]|right]. eexists. split; [done|]. cbn. lia.
    - eexists _, _. split; [done|]. split_and!; try lia. right. by exists None. }
  destruct Hlim as (m' & sls & -> & Hm' & Hmin & Hsls). cbn [write_slices sl_len].
  replace (Nat.min (Z.to_nat m') (length src)) with (Z.to_nat n) by lia.
  assert (Hlen : Z.of_nat (length (take (Z.to_nat n) src)) = n) by (rewrite length_take; lia).
  destruct (write_ok h (b_block sb) (b_start sb + filled_bytes sb) (take (Z.to_nat n) src) data) as (h1 & Hw & Hr & Hc & Hsh); [done|lia|lia|].
  unfold write_slice. cbn [sl_len sl_block sl_start]. rewrite (proj2 (Z.leb_le _ _)) by lia. rewrite Hw. rewrite Hlen in Hr, Hc.
  assert (Hok1 : Forall (builder_ok h1) sbs) by (eapply Forall_impl; [exact Hok|]; intros s; by apply builder_ok_shape).
  assert (Hsub : forall c, c ∈ cells_of (b_block sb) (b_start sb + filled_bytes sb) n -> c ∈ builder_cells sb).
  { intros c. unfold builder_cells. rewrite !elem_of_cells_of. lia. }
  assert (Hrest : exists h', write_slices h1 sls (drop (Z.to_nat n) src) = Ok h' /\ pending h' sbs (drop (Z.to_nat n) src)
      /\ only_changes (concat (builder_cells <$> sbs)) h1 h' /\ same_shape h1 h').
  { destruct Hsls as [[-> Hdone]|(m2 & -> & Hm2)].
    - assert (Hnil : drop (Z.to_nat n) src = []) by (apply drop_ge; lia). rewrite Hnil. exists h1. split_and!; auto using pending_nil with rust.
    - assert (0 <= sum_Z (available_bytes <$> sbs)).
      { apply sum_Z_nonneg, Forall_fmap. eapply Forall_impl; [exact Hok|]. intros ? (? & ? & ? & _). cbn. lia. }
      apply IH; [done|done|rewrite length_drop; lia|]. rewrite length_drop. unfold at_most in *. destruct m2; [lia|done]. }
  destruct Hrest as (h' & -> & Hp & Hc' & Hsh'). exists h'. split; [done|]. split_and!.
  - cbn [pending]. fold n. split; [|done]. rewrite <- Hr. apply read_same. intros x Hx. apply Hc'. intros Hin. eapply Hdis; [|done].
    apply Hsub. rewrite elem_of_cells_of. cbn. lia.
  - eapply only_changes_trans; (eapply only_changes_mono; [done|]); intros c Hin; apply elem_of_app; [left; auto|by right].
  - by eapply same_shape_trans.
Qed.

(** A whole vectored write: begin it, fill the slices, commit. *)
Definition vectored_write (max_len : option Z) (src : bytes) (h : heap) (b : BytesBuf) : result (heap * BytesBuf) :=
  let? _ := begin_vectored_write debug max_len b in
  let? sls := slices_mut max_len b in
  let? h := write_slices h sls src in
  let? b := commit debug max_len (Z.of_nat (length src)) b in
  Ok (h, b).

Lemma rev_cells sbs : concat (builder_cells <$> rev sbs) ≡ₚ concat (builder_cells <$> sbs).
Proof.
  induction sbs as [|sb sbs IH]; [done|]. cbn. rewrite fmap_app, concat_app, IH. cbn. rewrite app_nil_r. apply Permutation_app_comm.
Qed.

Lemma vectored_write_ok h b bs m src : buf_ok h b bs -> Z.of_nat (length src) <= available b ->
  match m with Some m => Z.of_nat (length src) <= m <= available b | None => True end ->
  exists h' b', vectored_write m src h b = Ok (h', b') /\ wrote h b bs src h' b'.
Proof.
  intros Hb Ha Hm. destruct (buf_lengths _ _ _ Hb) as (L1 & L2 & L3 & L4). pose proof (bo_bound _ _ _ Hb) as Hbd. pose proof (bo_len _ _ _ Hb) as Hlen.
  assert (Hm1 : at_most m (Z.of_nat (length src))) by (unfold at_most; destruct m; [lia|done]).
  assert (Hm0 : at_most m 0) by (unfold at_most in *; destruct m; [lia|done]).
  assert (Hbegin : begin_vectored_write debug m b = Ok tt).
  { unfold begin_vectored_write, begin_vectored_write_checked. destruct m as [m|]; [|done].
    by rewrite (remaining_capacity_ok _ _ _ Hb), (proj2 (Z.ltb_ge _ _)) by lia. }
  unfold vectored_write. rewrite Hbegin, (slices_mut_ok h b bs m Hb Hm0). unfold unfilled_slices.
  assert (Hsum : sum_Z (available_bytes <$> rev (span_builders_reversed b)) = available b).
  { rewrite (bo_available _ _ _ Hb), <- (sum_Z_rev (available_bytes <$> span_builders_reversed b)). f_equal. apply map_rev. }
  destruct (write_slices_ok (rev (span_builders_reversed b)) h m src) as (h' & -> & Hp & Hc & Hsh); [apply Forall_rev, Hb|rewrite rev_cells; apply Hb|lia|done|].
  assert (Hc' : only_changes (buf_cells b) h h') by (eapply only_changes_mono; [done|]; intros c; by rewrite rev_cells).
  assert (Hb' : buf_ok h' b bs) by (eapply buf_ok_write; [done..|apply Hb]).
  unfold commit. rewrite (remaining_capacity_ok _ _ _ Hb), debug_assert_true by by apply Z.leb_le.
  rewrite debug_assert_true by (destruct m as [m|]; [apply Z.leb_le; lia|done]). rewrite Nat2Z.id.
  destruct (commit_loop_ok h' (length src) b bs src Hb' Hp) as (b' & -> & W1 & W2 & W3); [done|].
  exists h', b'. split; [done|]. split_and!; [done| |done]. eapply buf_step_trans; [|done]. split; auto.
Qed.
End facts.

(** ** Limits *)


Definition limits_heap : heap := <[1%positive := [Some 7; None; None]]> ∅.
Definition limits_buf : BytesBuf := mkBuf [] [mkBuilder 1 0 1 2] 1 0 2.

Lemma limits_buf_ok : buf_ok limits_heap limits_buf [7].
Proof.
  split; try done; cbn.
  - apply Forall_singleton. split_and!; try done. eexists. split; [done|]. cbn. lia.
  - intros spare sb Heq. destruct spare as [|? [|]]; [done|discriminate..].
  - apply (bool_decide_unpack _). by vm_compute.
  - apply Forall_singleton. intros c. rewrite app_nil_r. unfold span_cells, builder_cells. rewrite !elem_of_cells_of. cbn. lia.
Defined.

