(* ===== verification/ByteWorld.v ===== *)
(** * bytesbuf: memory providers, and buffers and views that share memory

    Models the [Memory] trait and the providers of [src/crates/bytesbuf/src/mem/] ([global.rs],
    [testing/fixed_block.rs]), the conversion of a [Vec] ([vec.rs]), the number codecs of
    [buf_put.rs] and [view_get.rs], and a world in which any number of buffers and views
    share blocks. *)

From S2P Require Import Prelude ByteSpan ByteView ByteBuf.

(** ** The [Memory] trait

    A provider hands out an empty buffer of at least the requested capacity over memory
    that nobody else uses; this is what the trait's documentation promises. *)
Class Memory (provider : heap -> Z -> result (heap * BytesBuf)) : Prop :=
  memory_reserve h n : 0 < n <= isize_max ->
    exists h' b, provider h n = Ok (h', b) /\ h ⊆ h' /\ buf_ok h' b [] /\ n <= available b
      /\ forall c, c ∈ buf_cells b -> h !! c.1 = None.

(** A block of uninitialized memory that is not in use ([allocate_block], [std_alloc_block::allocate]). *)
Definition allocate_block (size : Z) (h : heap) : heap * Block :=
  let id := fresh (dom h) in
  (<[id := replicate (Z.to_nat size) None]> h, mkBlock (id, 0) size).

(** [iter::repeat_with(|| allocate_block(..)).take(count)]. *)
Fixpoint allocate_blocks (count : nat) (size : Z) (h : heap) : heap * list Block :=
  match count with
  | O => (h, [])
  | S count =>
      let '(h, block) := allocate_block size h in
      let '(h, blocks) := allocate_blocks count size h in
      (h, block :: blocks)
  end.

Definition div_ceil (a b : Z) : Z := (a + b - 1) / b.

(** [FixedBlockMemoryInner::reserve]. *)
Definition fixed_block_reserve (block_size : Z) (h : heap) (min_bytes : Z) : result (heap * BytesBuf) :=
  if min_bytes =? 0 then Ok (h, buf_new)
  else
    let blocks_required := div_ceil min_bytes block_size in
    let '(h, blocks) := allocate_blocks (Z.to_nat blocks_required) block_size h in
    Ok (h, from_blocks blocks).

(** [allocate_uniform] of the global pool. *)
Definition allocate_uniform (size : Z) (h : heap) (min_bytes : Z) : heap * BytesBuf :=
  let block_count := div_ceil min_bytes size in
  if block_count =? 1 then
    let '(h, block) := allocate_block size h in (h, from_block block)
  else
    let '(h, blocks) := allocate_blocks (Z.to_nat block_count) size h in (h, from_blocks blocks).

(** [GlobalPoolInner::reserve]. *)
Definition global_pool_reserve (h : heap) (min_bytes : Z) : result (heap * BytesBuf) :=
  if min_bytes =? 0 then Ok (h, buf_new)
  else if min_bytes <=? 1024 then Ok (allocate_uniform 1024 h min_bytes)
  else if min_bytes <=? 4096 then Ok (allocate_uniform 4096 h min_bytes)
  else if min_bytes <=? 16384 then Ok (allocate_uniform 16384 h min_bytes)
  else Ok (allocate_uniform 65536 h min_bytes).

(** ** Facts about providers *)

(** Builders over fresh memory. *)
Definition fresh_blocks (h h' : heap) (size : Z) (blocks : list Block) : Prop :=
  h ⊆ h' /\ Forall (fun b => exists id, block_ptr b = (id, 0) /\ block_len b = size /\ h !! id = None
                             /\ h' !! id = Some (replicate (Z.to_nat size) None)) blocks
  /\ NoDup ((fun b => (block_ptr b).1) <$> blocks).

Lemma allocate_block_ok size h h' b : allocate_block size h = (h', b) -> fresh_blocks h h' size [b].
Proof.
  intros [= <- <-]. assert (Hf : h !! fresh (dom h) = None) by apply not_elem_of_dom, is_fresh.
  split_and!; [by apply insert_subseteq| |cbn; apply NoDup_singleton].
  apply Forall_singleton. exists (fresh (dom h)). split_and!; try done. by rewrite lookup_insert_eq.
Qed.

Lemma allocate_blocks_ok size count : forall h h' blocks, allocate_blocks count size h = (h', blocks) ->
  fresh_blocks h h' size blocks /\ length blocks = count.
Proof.
  induction count as [|count IH]; intros h h' blocks; cbn [allocate_blocks].
  - intros [= <- <-]. split; [|done]. split_and!; [done|done|apply NoDup_nil_2].
  - destruct (allocate_block size h) as [h1 b] eqn:H1. destruct (allocate_blocks count size h1) as [h2 bs] eqn:H2. intros [= <- <-].
    apply allocate_block_ok in H1 as (Hs1 & Hf1 & _). inversion Hf1 as [|? ? (id & Hp & Hl & Hn & Hi) _]; subst. apply IH in H2 as [(Hs2 & Hf2 & Hnd) Hlen].
    split; [|cbn; by rewrite Hlen]. split_and!; [by etrans|constructor|].
    + exists id. split_and!; try done. by eapply lookup_weaken.
    + eapply Forall_impl; [exact Hf2|]. intros b' (id' & Hp' & Hl' & Hn' & Hi'). exists id'. split_and!; try done.
      destruct (h !! id') eqn:Hid; [|done]. eapply lookup_weaken in Hid; [|exact Hs1]. congruence.
    + cbn. constructor; [|done]. rewrite list_elem_of_fmap. intros (b' & Heq & Hin). rewrite Forall_forall in Hf2.
      destruct (Hf2 _ Hin) as (id' & Hp' & _ & Hn' & _). rewrite Hp, Hp' in Heq. cbn in Heq. congruence.
Qed.

Lemma from_blocks_ok h h' size blocks : 0 < size <= block_size_max -> fresh_blocks h h' size blocks ->
  Z.of_nat (length blocks) * size <= usize_max ->
  buf_ok h' (from_blocks blocks) [] /\ available (from_blocks blocks) = Z.of_nat (length blocks) * size
  /\ forall c, c ∈ buf_cells (from_blocks blocks) -> h !! c.1 = None.
Proof.
  intros Hsize (_ & Hf & Hnd) Hmax. unfold from_blocks.
  assert (Hsum : sum_Z (available_bytes <$> (into_span_builder <$> blocks)) = Z.of_nat (length blocks) * size).
  { clear -Hf. induction Hf as [|b bs (id & _ & Hl & _) _ IH]; [done|]. cbn [fmap list_fmap length]. rewrite sum_Z_cons, IH. cbn. lia. }
  split_and!; [|done|].
  - apply from_span_builders_ok; [| | |lia].
    + apply Forall_fmap. eapply Forall_impl; [exact Hf|]. intros b (id & Hp & Hl & _ & Hi). unfold builder_ok, into_span_builder. cbn. rewrite Hp, Hl. cbn.
      split_and!; try lia. exists (replicate (Z.to_nat size) None). split; [done|]. rewrite length_replicate. lia.
    + apply Forall_fmap. eapply Forall_impl; [exact Hf|]. done.
    + clear -Hnd. induction blocks as [|b bs IH]; cbn; [apply NoDup_nil_2|]. apply NoDup_cons in Hnd as [Hb Hnd]. apply NoDup_app.
      split_and!; [apply cells_of_nodup| |by apply IH]. intros c Hc (sb & Hsb & Hc')%elem_of_concat_map.
      apply list_elem_of_fmap in Hsb as (b' & -> & Hb'). unfold builder_cells in *. rewrite elem_of_cells_of in *. cbn in *.
      apply Hb, list_elem_of_fmap. exists b'. split; [|done]. by destruct Hc as [<- _], Hc' as [<- _].
  - intros c (sb & Hsb & Hc)%elem_of_buf_cells. cbn in Hsb. apply list_elem_of_fmap in Hsb as (b & -> & Hb). rewrite Forall_forall in Hf.
    destruct (Hf _ Hb) as (id & Hp & _ & Hn & _). unfold builder_cells in Hc. rewrite elem_of_cells_of in Hc. cbn in Hc. rewrite Hp in Hc. cbn in Hc. by destruct Hc as [-> _].
Qed.

Lemma div_ceil_bounds n size : 0 < n -> 0 < size -> 0 < div_ceil n size /\ n <= div_ceil n size * size < n + size.
Proof.
  intros Hn Hs. unfold div_ceil. pose proof (Z.div_mod (n + size - 1) size ltac:(lia)) as Hd. pose proof (Z.mod_pos_bound (n + size - 1) size Hs). nia.
Qed.

#[export] Instance fixed_block_memory size : 0 < size <= block_size_max -> Memory (fixed_block_reserve size).
Proof.
  intros Hsize h n Hn. unfold fixed_block_reserve. rewrite (proj2 (Z.eqb_neq n 0)) by lia.
  destruct (div_ceil_bounds n size) as [Hc Hb]; [lia|lia|]. destruct (allocate_blocks _ size h) as [h' blocks] eqn:Ha.
  apply allocate_blocks_ok in Ha as [Hf Hl]. destruct (from_blocks_ok h h' size blocks Hsize Hf) as (H1 & H2 & H3).
  { rewrite Hl. unfold usize_max, isize_max, block_size_max in *. lia. }
  exists h', (from_blocks blocks). split_and!; try done; [apply Hf|]. rewrite H2, Hl. lia.
Qed.

Lemma allocate_uniform_ok size h n : 0 < size <= block_size_max -> 0 < n <= isize_max ->
  exists h' b, allocate_uniform size h n = (h', b) /\ h ⊆ h' /\ buf_ok h' b [] /\ n <= available b /\ forall c, c ∈ buf_cells b -> h !! c.1 = None.
Proof.
  intros Hsize Hn. unfold allocate_uniform. destruct (div_ceil_bounds n size) as [Hc Hb]; [lia|lia|].
  assert (Hmax : div_ceil n size * size <= usize_max) by (unfold usize_max, isize_max, block_size_max in *; lia).
  destruct (Z.eqb_spec (div_ceil n size) 1) as [H1|H1].
  - destruct (allocate_block size h) as [h' b] eqn:Ha. apply allocate_block_ok in Ha as Hf.
    destruct (from_blocks_ok h h' size [b] Hsize Hf) as (K1 & K2 & K3); [cbn; lia|].
    assert (Heq : from_block b = from_blocks [b]).
    { unfold from_block, from_blocks, from_span_builders. cbn. f_equal. rewrite sum_Z_cons. change (sum_Z []) with 0. lia. }
    exists h', (from_blocks [b]). rewrite Heq. split_and!; try done; [apply Hf|]. rewrite K2. cbn. lia.
  - destruct (allocate_blocks _ size h) as [h' blocks] eqn:Ha. apply allocate_blocks_ok in Ha as [Hf Hl].
    destruct (from_blocks_ok h h' size blocks Hsize Hf) as (K1 & K2 & K3); [rewrite Hl; lia|].
    exists h', (from_blocks blocks). split_and!; try done; [apply Hf|]. rewrite K2, Hl. lia.
Qed.

#[export] Instance global_pool_memory : Memory global_pool_reserve.
Proof.
  intros h n Hn. unfold global_pool_reserve. rewrite (proj2 (Z.eqb_neq n 0)) by lia.
  repeat (case_match; [match goal with |- context [allocate_uniform ?s h n] =>
    destruct (allocate_uniform_ok s h n) as (h' & b & -> & ?); [by unfold block_size_max|done|by exists h', b] end|]).
  destruct (allocate_uniform_ok 65536 h n) as (h' & b & -> & ?); [by unfold block_size_max|done|by exists h', b].
Qed.

(** ** Larger heaps *)

Lemma byte_at_mono h h' b o x : h ⊆ h' -> byte_at h b o = Some x -> byte_at h' b o = Some x.
Proof.
  intros Hs. unfold byte_at. destruct (o <? 0); [done|]. destruct (h !! b) eqn:Hb; [|done]. by rewrite (lookup_weaken _ _ _ _ Hb Hs).
Qed.

Lemma read_mono h h' b o n bs : h ⊆ h' -> read h b o n = Some bs -> read h' b o n = Some bs.
Proof.
  intros Hs. unfold read. rewrite !mapM_Some. intros H. eapply Forall2_impl; [exact H|]. intros ? ?. by apply byte_at_mono.
Qed.

Lemma spans_bytes_mono h h' ss : forall bs, h ⊆ h' -> spans_bytes h ss = Some bs -> spans_bytes h' ss = Some bs.
Proof.
  induction ss as [|s ss IH]; intros bs Hs; [done|]. rewrite !spans_bytes_cons. intros (c & r & Hc & Hr & ->).
  exists c, r. split_and!; [by eapply read_mono|by apply IH|done].
Qed.

Lemma builder_ok_mono h h' sb : h ⊆ h' -> builder_ok h sb -> builder_ok h' sb.
Proof. intros Hs (H1 & H2 & H3 & H4 & data & Hd & Hl). split_and!; try done. exists data. split; [by eapply lookup_weaken|done]. Qed.

Lemma buf_ok_mono h h' b bs : h ⊆ h' -> buf_ok h b bs -> buf_ok h' b bs.
Proof.
  intros Hs []. split; try done; [|by eapply spans_bytes_mono]. eapply Forall_impl; [done|]. intros sb. by apply builder_ok_mono.
Qed.

Lemma view_rep_mono h h' v bs : h ⊆ h' -> view_rep h v bs -> view_rep h' v bs.
Proof. intros Hs []. split; try done. by eapply spans_bytes_mono. Qed.

(** Spans that can be read and builders lie in blocks of the heap. *)
Lemma span_cells_dom h ss bs c : spans_bytes h ss = Some bs -> c ∈ concat (span_cells <$> ss) -> is_Some (h !! c.1).
Proof.
  revert bs. induction ss as [|s ss IH]; intros bs; cbn; [by intros _ ?%not_elem_of_nil|].
  intros (x & y & Hx & Hy & _)%spans_bytes_cons [Hc|Hc]%elem_of_app; [|by eapply IH].
  unfold span_cells in Hc. apply elem_of_cells_of in Hc as [Hb Ho]. unfold deref, read in Hx. apply mapM_Some_1 in Hx.
  destruct (proj1 (list_elem_of_lookup (seqZ (s_start s) (s_len s)) c.2)) as [i Hi]; [by apply elem_of_seqZ|].
  destruct (Forall2_lookup_l _ _ _ _ _ Hx Hi) as (v & _ & Hv). unfold byte_at in Hv. destruct (_ <? 0); [done|]. rewrite Hb.
  by destruct (h !! s_block s).
Qed.

Lemma buf_cells_dom h b bs c : buf_ok h b bs -> c ∈ buf_cells b -> is_Some (h !! c.1).
Proof.
  intros Hb (sb & Hin & Hc)%elem_of_buf_cells. pose proof (bo_builders _ _ _ Hb) as Hok. rewrite Forall_forall in Hok.
  destruct (Hok _ Hin) as (_ & _ & _ & _ & data & Hd & _). unfold builder_cells in Hc. apply elem_of_cells_of in Hc as [-> _]. by rewrite Hd.
Qed.

Lemma content_cells_dom h b bs c : buf_ok h b bs -> c ∈ content_cells b -> is_Some (h !! c.1).
Proof. intros Hb. apply (span_cells_dom h _ bs). apply Hb. Qed.

(** ** Reserving *)

Lemma empty_builders h b : buf_ok h b [] -> Forall (fun sb => filled_bytes sb = 0) (span_builders_reversed b) /\ len b = 0.
Proof.
  intros Hb. destruct (buf_lengths _ _ _ Hb) as (L1 & L2 & L3 & _). split; [|apply Hb].
  pose proof (bo_spare _ _ _ Hb) as Hsp. unfold unfrozen_len in *. destruct (span_builders_reversed b) as [|sb spare _] using rev_ind; [done|].
  rewrite last_snoc in *. cbn in L1. apply Forall_app. split; [by eapply Hsp|]. apply Forall_singleton. lia.
Qed.

Lemma extend_ok debug h b bs n add : buf_ok h b bs -> buf_ok h add [] -> n <= available add ->
  (forall c, c ∈ buf_cells add -> c ∉ buf_cells b /\ c ∉ content_cells b) ->
  len b + available b + available add <= usize_max ->
  exists b', extend_capacity_by_at_least debug n add b = Ok b' /\ buf_ok h b' bs /\ available b' = available b + available add
    /\ buf_cells b' = buf_cells add ++ buf_cells b /\ content_spans b' = content_spans b.
Proof.
  intros Hb Ha Hn Hdis Hmax. destruct (empty_builders _ _ Ha) as [Hempty Hlen]. destruct (buf_lengths _ _ _ Hb) as (L1 & L2 & L3 & L4). pose proof (bo_len _ _ _ Hb) as L5.
  destruct (buf_lengths _ _ _ Ha) as (_ & _ & _ & La). unfold extend_capacity_by_at_least. rewrite (buf_capacity_ok debug _ _ _ Ha), Hlen, Z.add_0_l.
  rewrite debug_assert_true by by apply Z.leb_le. unfold buf_is_empty. rewrite (buf_len_ok debug _ _ _ Ha). cbn [length Z.of_nat Z.eqb].
  rewrite debug_assert_true by done. rewrite checked_add_Some by lia. cbn [expect]. unfold assert_capacity_within_bounds, rust_assert.
  rewrite checked_add_Some by lia. rewrite bool_decide_true by by eexists. eexists. split; [done|]. set (b' := mkBuf _ _ _ _ _).
  assert (Hun : unfrozen_span (span_builders_reversed b') = unfrozen_span (span_builders_reversed b)).
  { cbn. unfold unfrozen_span. rewrite last_app. destruct (span_builders_reversed b) as [|sb spare _] using rev_ind; [|by rewrite last_snoc].
    cbn. pose proof (unfrozen_spare _ Hempty) as Hu. unfold unfrozen_span in Hu. done. }
  assert (Hcells : buf_cells b' = buf_cells add ++ buf_cells b) by (unfold buf_cells; cbn; by rewrite fmap_app, concat_app).
  assert (Hcont : content_spans b' = content_spans b) by (unfold content_spans; by rewrite Hun).
  split_and!; [|done|done|done]. destruct Hb as [K1 K2 K3 K4 K5 K6 K7 K8 K9 K10]. split; rewrite ?Hcont, ?Hcells; cbn; try done; try lia.
  - apply Forall_app. split; [apply Ha|done].
  - intros spare sb Heq. destruct (span_builders_reversed b) as [|sb' spare' _] eqn:Hs using rev_ind.
    + rewrite app_nil_r in Heq. rewrite Heq in Hempty. by apply Forall_app in Hempty as [? _].
    + rewrite (assoc_L (++)) in Heq. apply app_inj_tail in Heq as [<- ->]. apply Forall_app. split; [done|]. by eapply K3.
  - apply NoDup_app. split_and!; [apply Ha| |done]. intros c Hc. by apply Hdis.
  - apply apart_cells. intros c Hc [Hbad|Hbad]%elem_of_app; [by apply (Hdis c)|]. by apply (proj1 (apart_cells _ _) K5 c).
  - rewrite fmap_app, sum_Z_app, (bo_available _ _ _ Ha). lia.
Qed.

(** ** Buffers and views that share memory *)

Record World : Type := mkWorld { w_heap : heap; w_bufs : list BytesBuf; w_views : list BytesView }.

(** What a program does with buffers and views, which it names by position. *)
Inductive Op : Type :=
| ONew
| OReserve (i : nat) (n : Z)
| OPut (i : nat) (src : bytes)
| OPutRepeated (i : nat) (value count : Z)
| OPutView (i j : nat)
| OVectored (i : nat) (max_len : option Z) (src : bytes)
| OConsume (i : nat) (n : Z)
| OPeek (i : nat)
| OSplit (i : nat) (n : Z)
| ORange (j : nat) (start stop : Z)
| OAdvance (j : nat) (n : Z).

Section world.
Context (debug : bool) (provider : heap -> Z -> result (heap * BytesBuf)).

Definition set_buf (i : nat) (h : heap) (b : BytesBuf) (w : World) : World := mkWorld h (<[i := b]> (w_bufs w)) (w_views w).
Definition add_view (v : BytesView) (w : World) : World := mkWorld (w_heap w) (w_bufs w) (w_views w ++ [v]).

Definition on_buf (i : nat) (w : World) (f : heap -> BytesBuf -> result (heap * BytesBuf)) : result World :=
  let? b := expect (w_bufs w !! i) in
  let? (h, b) := f (w_heap w) b in
  Ok (set_buf i h b w).

Definition step (op : Op) (w : World) : result World :=
  match op with
  | ONew => Ok (mkWorld (w_heap w) (w_bufs w ++ [buf_new]) (w_views w))
  | OReserve i n => on_buf i w (reserve debug provider n)
  | OPut i src => on_buf i w (put_slice debug src)
  | OPutRepeated i value count => on_buf i w (put_byte_repeated debug value count)
  | OPutView i j =>
      let? v := expect (w_views w !! j) in
      on_buf i w (fun h b => let? b := put_bytes debug v b in Ok (h, b))
  | OVectored i max_len src => on_buf i w (vectored_write debug max_len src)
  | OConsume i n =>
      let? b := expect (w_bufs w !! i) in
      let? (v, b) := consume debug n b in
      Ok (add_view v (set_buf i (w_heap w) b w))
  | OPeek i =>
      let? b := expect (w_bufs w !! i) in
      let? v := peek debug b in
      Ok (add_view v w)
  | OSplit i n =>
      let? b := expect (w_bufs w !! i) in
      let? (s, b) := split_off_remaining debug n b in
      let w := set_buf i (w_heap w) b w in
      Ok (mkWorld (w_heap w) (w_bufs w ++ [s]) (w_views w))
  | ORange j start stop =>
      let? v := expect (w_views w !! j) in
      let? v := range debug v (Included start, Excluded stop) in
      Ok (add_view v w)
  | OAdvance j n =>
      let? v := expect (w_views w !! j) in
      let? v := view_advance v n in
      Ok (mkWorld (w_heap w) (w_bufs w) (<[j := v]> (w_views w)))
  end.

Fixpoint run (ops : list Op) (w : World) : result World :=
  match ops with
  | [] => Ok w
  | op :: ops => let? w := step op w in run ops w
  end.
End world.

(** ** The specification: buffers and views are byte strings *)

Record Spec : Type := mkSpec { sp_bufs : list bytes; sp_views : list bytes }.

Definition spec_step (op : Op) (s : Spec) : Spec :=
  let buf i := sp_bufs s !!! i in
  let view j := sp_views s !!! j in
  match op with
  | ONew => mkSpec (sp_bufs s ++ [[]]) (sp_views s)
  | OReserve i n => s
  | OPut i src | OVectored i _ src => mkSpec (<[i := buf i ++ src]> (sp_bufs s)) (sp_views s)
  | OPutRepeated i value count => mkSpec (<[i := buf i ++ replicate (Z.to_nat count) value]> (sp_bufs s)) (sp_views s)
  | OPutView i j => mkSpec (<[i := buf i ++ view j]> (sp_bufs s)) (sp_views s)
  | OConsume i n => mkSpec (<[i := drop (Z.to_nat n) (buf i)]> (sp_bufs s)) (sp_views s ++ [take (Z.to_nat n) (buf i)])
  | OPeek i => mkSpec (sp_bufs s) (sp_views s ++ [buf i])
  | OSplit i n => mkSpec (sp_bufs s ++ [[]]) (sp_views s)
  | ORange j start stop => mkSpec (sp_bufs s) (sp_views s ++ [take (Z.to_nat (stop - start)) (drop (Z.to_nat start) (view j))])
  | OAdvance j n => mkSpec (sp_bufs s) (<[j := drop (Z.to_nat n) (view j)]> (sp_views s))
  end.

(** The documented preconditions, in terms of what [len()] and [remaining_capacity()] say, and one that is
    not documented: a split may not take all remaining capacity while the first builder holds
    unfrozen bytes. The code accepts that call and breaks the buffer; see the excluded case below. *)
Definition allowed (provider : heap -> Z -> result (heap * BytesBuf)) (op : Op) (w : World) : bool :=
  let buf i (ok : BytesBuf -> bool) := match w_bufs w !! i with Some b => ok b | None => false end in
  let view j (ok : BytesView -> bool) := match w_views w !! j with Some v => ok v | None => false end in
  match op with
  | ONew => true
  | OReserve i n => buf i (fun b => (0 <=? n) && (n <=? isize_max)
      && match provider (w_heap w) (n - available b) with Ok (_, add) => len b + available b + available add <=? usize_max | _ => true end)
  | OPut i src => buf i (fun b => Z.of_nat (length src) <=? available b)
  | OPutRepeated i _ count => buf i (fun b => (0 <=? count) && (count <=? available b))
  | OPutView i j => buf i (fun b => view j (fun v => len b + v_len v + available b <=? usize_max))
  | OVectored i max_len src => buf i (fun b => (Z.of_nat (length src) <=? available b)
      && match max_len with Some m => (Z.of_nat (length src) <=? m) && (m <=? available b) | None => true end)
  | OConsume i n => buf i (fun b => (0 <=? n) && (n <=? len b))
  | OPeek i => buf i (fun _ => true)
  | OSplit i n => buf i (fun b => (0 <=? n) && (n <=? available b) && ((n <? available b) || (unfrozen_len b =? 0)))
  | ORange j start stop => view j (fun v => (0 <=? start) && (start <=? stop) && (stop <=? v_len v))
  | OAdvance j n => view j (fun v => (0 <=? n) && (n <=? v_len v))
  end.

(** Every operation of a program is allowed when its turn comes. *)
Fixpoint all_allowed (debug : bool) (provider : heap -> Z -> result (heap * BytesBuf)) (ops : list Op) (w : World) : bool :=
  match ops with
  | [] => true
  | op :: ops => allowed provider op w && match step debug provider op w with Ok w => all_allowed debug provider ops w | _ => true end
  end.

Definition all_cells (bufs : list BytesBuf) : list (positive * Z) := concat (buf_cells <$> bufs).
Definition view_cells (v : BytesView) : list (positive * Z) := concat (span_cells <$> spans_reversed v).

(** A world and the byte strings it stands for: no two buffers may write the same cell,
    and nobody may write a cell that is part of contents or of a view. *)
Record world_rep (w : World) (s : Spec) : Prop := {
  wr_bufs : Forall2 (buf_ok (w_heap w)) (w_bufs w) (sp_bufs s);
  wr_views : Forall2 (view_rep (w_heap w)) (w_views w) (sp_views s);
  wr_nodup : NoDup (all_cells (w_bufs w));
  wr_content : forall b c, b ∈ w_bufs w -> c ∈ content_cells b -> c ∉ all_cells (w_bufs w);
  wr_view_cells : forall v c, v ∈ w_views w -> c ∈ view_cells v -> c ∉ all_cells (w_bufs w) }.

(** ** Simulation *)

Section simulation.
Context (debug : bool) (provider : heap -> Z -> result (heap * BytesBuf)) (Hprovider : Memory provider).

Lemma elem_of_all_cells bufs c : c ∈ all_cells bufs <-> exists b, b ∈ bufs /\ c ∈ buf_cells b.
Proof. apply elem_of_concat_map. Qed.

Lemma elem_of_view_cells v c : c ∈ view_cells v <-> exists s, s ∈ spans_reversed v /\ c ∈ span_cells s.
Proof. apply elem_of_concat_map. Qed.

(** A buffer's cells among those of all. *)
Lemma all_cells_split bufs i b : bufs !! i = Some b ->
  all_cells bufs = all_cells (take i bufs) ++ buf_cells b ++ all_cells (drop (S i) bufs).
Proof. intros Hi. unfold all_cells. rewrite <- (take_drop_middle bufs i b Hi) at 1. by rewrite fmap_app, concat_app. Qed.

Lemma all_cells_insert bufs i b b' : bufs !! i = Some b ->
  all_cells (<[i := b']> bufs) = all_cells (take i bufs) ++ buf_cells b' ++ all_cells (drop (S i) bufs).
Proof.
  intros Hi. unfold all_cells. rewrite insert_take_drop by by eapply lookup_lt_Some. by rewrite fmap_app, concat_app.
Qed.

(** The cells of two different buffers are different. *)
Lemma cells_disjoint bufs i j b b' c : NoDup (all_cells bufs) -> bufs !! i = Some b -> bufs !! j = Some b' -> i <> j ->
  c ∈ buf_cells b -> c ∉ buf_cells b'.
Proof.
  intros Hnd Hi Hj Hne Hc Hc'. assert (Hmain : forall i j b b', (i < j)%nat -> bufs !! i = Some b -> bufs !! j = Some b' -> c ∈ buf_cells b -> c ∉ buf_cells b').
  { clear -Hnd. intros i j b b' Hij Hi Hj Hc Hc'. rewrite (all_cells_split bufs i b Hi) in Hnd.
    apply NoDup_app in Hnd as (_ & _ & (_ & Hd & _)%NoDup_app). apply (Hd c Hc), elem_of_all_cells. exists b'. split; [|done].
    apply list_elem_of_lookup. exists (j - S i)%nat. rewrite lookup_drop. by replace (S i + (j - S i))%nat with j by lia. }
  destruct (decide (i < j)%nat); [by eapply (Hmain i j)|]. eapply (Hmain j i); [lia|done..].
Qed.

Lemma insert_elem {A} (l : list A) i x y : y ∈ <[i := x]> l -> y = x \/ exists j, j <> i /\ l !! j = Some y.
Proof.
  intros [j Hj]%list_elem_of_lookup. apply list_lookup_insert_Some in Hj as [(_ & -> & _)|[? ?]]; [by left|right]. by exists j.
Qed.

(** An operation on one buffer leaves all others and all views alone. *)
Lemma world_set_buf w s i b h' b' c' : world_rep w s -> w_bufs w !! i = Some b -> buf_step (w_heap w) b h' b' -> buf_ok h' b' c' ->
  world_rep (set_buf i h' b' w) (mkSpec (<[i := c']> (sp_bufs s)) (sp_views s)).
Proof.
  intros [W1 W2 W3 W4 W5] Hi [S1 S2 S3 S4] Hb'. assert (Hin : b ∈ w_bufs w) by by eapply list_elem_of_lookup_2.
  assert (Hsub : forall c, c ∈ all_cells (<[i := b']> (w_bufs w)) -> c ∈ all_cells (w_bufs w)).
  { intros c. rewrite (all_cells_insert _ _ _ _ Hi), (all_cells_split _ _ _ Hi), !elem_of_app. naive_solver. }
  assert (Hcell : forall c, c ∈ buf_cells b -> c ∈ all_cells (w_bufs w)) by (intros c Hc; apply elem_of_all_cells; by exists b).
  assert (Hlen := Forall2_length _ _ _ W1). pose proof (lookup_lt_Some _ _ _ Hi) as Hlt. split; cbn [set_buf w_heap w_bufs w_views sp_bufs sp_views].
  - apply Forall2_same_length_lookup_2; [by rewrite !length_insert|].
    intros j x y Hx Hy. destruct (decide (j = i)) as [->|Hne].
    + rewrite list_lookup_insert_eq in Hx by lia. rewrite list_lookup_insert_eq in Hy by lia. by simplify_eq.
    + rewrite list_lookup_insert_ne in Hx by done. rewrite list_lookup_insert_ne in Hy by done. pose proof (Forall2_lookup_lr _ _ _ _ _ _ W1 Hx Hy).
      eapply (buf_ok_write (w_heap w) h' x y (buf_cells b)); try done. apply apart_cells. intros c Hc Hbad. eapply (W4 x c); [by eapply list_elem_of_lookup_2|done|auto].
  - apply Forall2_same_length_lookup_2; [by eapply Forall2_length|]. intros j v y Hv Hy. pose proof (Forall2_lookup_lr _ _ _ _ _ _ W2 Hv Hy) as [R1 R2 R3 R4].
    split; try done. rewrite <- R2. eapply spans_bytes_only_changes; [exact S1|]. apply Forall_rev, apart_cells. intros c Hc Hbad.
    eapply (W5 v c); [by eapply list_elem_of_lookup_2|done|auto].
  - rewrite (all_cells_insert _ _ _ _ Hi). rewrite (all_cells_split _ _ _ Hi) in W3.
    apply NoDup_app in W3 as (N1 & N2 & (N3 & N4 & N5)%NoDup_app). apply NoDup_app. split_and!; [done| |apply NoDup_app; split_and!; [apply Hb'| |done]].
    + intros c Hc. specialize (N2 c Hc). rewrite elem_of_app in *. naive_solver.
    + intros c Hc. apply N4. auto.
  - intros x c Hx Hc Hbad. apply insert_elem in Hx as [->|(j & Hne & Hj)]; [|eapply (W4 x c); [by eapply list_elem_of_lookup_2|done|by apply Hsub]].
    destruct (S4 c Hc) as [Hold|Hold]; [eapply (W4 b c); [done|done|by apply Hsub]|]. apply elem_of_all_cells in Hbad as (y & Hy & Hyc).
    apply insert_elem in Hy as [->|(j & Hne & Hj)]; [by eapply apart_content|]. by eapply (cells_disjoint (w_bufs w) i j b y c).
  - intros v c Hv Hc Hbad. eapply (W5 v c); [done|done|by apply Hsub].
Qed.

(** A new view of cells that nobody may write. *)
Lemma world_add_view w s v bs : world_rep w s -> view_rep (w_heap w) v bs -> (forall c, c ∈ view_cells v -> c ∉ all_cells (w_bufs w)) ->
  world_rep (add_view v w) (mkSpec (sp_bufs s) (sp_views s ++ [bs])).
Proof.
  intros [W1 W2 W3 W4 W5] Hv Hc. split; cbn; try done.
  - apply Forall2_app; [done|]. constructor; [done|constructor].
  - intros v' c [Hin| ->%list_elem_of_singleton]%elem_of_app; [by apply W5|apply Hc].
Qed.

(** A new buffer with cells of its own. *)
Lemma world_add_buf w s b : world_rep w s -> buf_ok (w_heap w) b [] ->
  (forall c, c ∈ buf_cells b -> c ∉ all_cells (w_bufs w) /\ (forall x, x ∈ w_bufs w -> c ∉ content_cells x) /\ forall v, v ∈ w_views w -> c ∉ view_cells v) ->
  world_rep (mkWorld (w_heap w) (w_bufs w ++ [b]) (w_views w)) (mkSpec (sp_bufs s ++ [[]]) (sp_views s)).
Proof.
  intros [W1 W2 W3 W4 W5] Hb Hc. assert (Hall : all_cells (w_bufs w ++ [b]) = all_cells (w_bufs w) ++ buf_cells b).
  { unfold all_cells. rewrite fmap_app, concat_app. cbn. by rewrite app_nil_r. }
  assert (Hcont : forall c, c ∉ content_cells b).
  { intros c (s' & Hs & Hc')%elem_of_content_cells. pose proof (content_ok _ _ _ Hb) as Hok. pose proof (bo_bytes _ _ _ Hb) as Hbytes.
    destruct (content_spans b) as [|s0 ss]; [by apply not_elem_of_nil in Hs|]. apply Forall_cons in Hok as [[_ Hl] _].
    apply spans_bytes_cons in Hbytes as (x & y & Hx & _ & Heq). symmetry in Heq. apply app_nil in Heq as [-> _].
    apply length_read in Hx. cbn in Hx. lia. }
  split; cbn [w_heap w_bufs w_views sp_bufs sp_views]; rewrite ?Hall; try done.
  - apply Forall2_app; [done|]. constructor; [done|constructor].
  - apply NoDup_app. split_and!; [done| |apply Hb]. intros c Hin Hbad. by apply (Hc c).
  - intros x c [Hx| ->%list_elem_of_singleton]%elem_of_app Hcx [Hbad|Hbad]%elem_of_app; [by eapply W4| |by eapply Hcont..].
    destruct (Hc c Hbad) as (_ & Hno & _). by eapply Hno.
  - intros v c Hv Hcv [Hbad|Hbad]%elem_of_app; [by eapply W5|]. destruct (Hc c Hbad) as (_ & _ & Hno). by eapply Hno.
Qed.

(** A view of a buffer's contents may be added. *)
Lemma view_of_cells w s b v c : world_rep w s -> b ∈ w_bufs w -> view_of b v -> c ∈ view_cells v -> c ∉ all_cells (w_bufs w).
Proof. intros Hw Hb Hof (sp & Hs & Hc)%elem_of_view_cells. eapply (wr_content _ _ Hw); [done|]. by eapply Hof. Qed.

Lemma buf_lookup w s i b : world_rep w s -> w_bufs w !! i = Some b -> exists bs, sp_bufs s !! i = Some bs /\ buf_ok (w_heap w) b bs.
Proof. intros Hw Hi. by destruct (Forall2_lookup_l _ _ _ _ _ (wr_bufs _ _ Hw) Hi) as (bs & ? & ?); exists bs. Qed.

Lemma view_lookup w s j v : world_rep w s -> w_views w !! j = Some v -> exists bs, sp_views s !! j = Some bs /\ view_rep (w_heap w) v bs.
Proof. intros Hw Hi. by destruct (Forall2_lookup_l _ _ _ _ _ (wr_views _ _ Hw) Hi) as (bs & ? & ?); exists bs. Qed.

(** An operation that writes. *)
Lemma step_wrote w s i b bs src h' b' : world_rep w s -> w_bufs w !! i = Some b -> sp_bufs s !! i = Some bs ->
  wrote (w_heap w) b bs src h' b' -> world_rep (set_buf i h' b' w) (mkSpec (<[i := (sp_bufs s !!! i) ++ src]> (sp_bufs s)) (sp_views s)).
Proof.
  intros Hw Hi Hs (H1 & H2 & _). rewrite (list_lookup_total_correct _ _ _ Hs). by eapply world_set_buf.
Qed.

Lemma step_consume w s i n b : world_rep w s -> w_bufs w !! i = Some b -> 0 <= n <= len b ->
  exists w', step debug provider (OConsume i n) w = Ok w' /\ world_rep w' (spec_step (OConsume i n) s).
Proof.
  intros Hw Hi Hn. destruct (buf_lookup _ _ _ _ Hw Hi) as (bs & Hs & Hb). rewrite (bo_len _ _ _ Hb) in Hn.
  destruct (consume_ok debug _ _ _ n Hb Hn) as (v & b' & Hc & Hv & Hb' & Hof & Hstep & Hcells & _). cbn [step spec_step]. rewrite Hi. cbn [expect].
  unfold consume. rewrite Hc. cbn [expect]. eexists. split; [done|]. rewrite (list_lookup_total_correct _ _ _ Hs).
  assert (Hw' : world_rep (set_buf i (w_heap w) b' w) (mkSpec (<[i := drop (Z.to_nat n) bs]> (sp_bufs s)) (sp_views s))) by by eapply world_set_buf.
  apply (world_add_view _ _ v (take (Z.to_nat n) bs) Hw'); [done|].
  intros c Hc' Hbad. assert (Hin : b ∈ w_bufs w) by by eapply list_elem_of_lookup_2. eapply (view_of_cells w s b v c); [done|done|done|done|].
  cbn [set_buf w_bufs] in Hbad. rewrite (all_cells_insert _ _ _ _ Hi), Hcells, <- (all_cells_split _ _ _ Hi) in Hbad. done.
Qed.

Lemma step_split w s i n b : world_rep w s -> w_bufs w !! i = Some b -> 0 <= n <= available b -> split_safe n b ->
  exists w', step debug provider (OSplit i n) w = Ok w' /\ world_rep w' (spec_step (OSplit i n) s).
Proof.
  intros Hw Hi Hn Hsafe. destruct (buf_lookup _ _ _ _ Hw Hi) as (bs & Hs & Hb). assert (Hin : b ∈ w_bufs w) by by eapply list_elem_of_lookup_2.
  destruct (split_off_ok debug _ _ _ n Hb Hn Hsafe) as (sp & b' & Hc & Hsp & Hb' & Hperm & _ & _ & Hcont). cbn [step spec_step]. rewrite Hi. cbn [expect].
  unfold split_off_remaining. rewrite Hc. cbn [expect]. eexists. split; [done|].
  assert (Hw' : world_rep (set_buf i (w_heap w) b' w) s).
  { replace s with (mkSpec (<[i := bs]> (sp_bufs s)) (sp_views s)) by (rewrite list_insert_id by done; by destruct s).
    eapply world_set_buf; try done. split; auto with rust.
    - intros c Hc'. rewrite Hperm. apply elem_of_app. by right.
    - intros c. unfold content_cells. rewrite Hcont. auto. }
  assert (Hcell : forall c, c ∈ buf_cells sp -> c ∈ all_cells (w_bufs w)).
  { intros c Hc'. apply elem_of_all_cells. exists b. split; [done|]. rewrite Hperm. apply elem_of_app. by left. }
  apply (world_add_buf _ _ sp Hw'); [done|]. intros c Hc'. cbn [set_buf w_bufs w_views]. split_and!.
  - intros (y & Hy & Hyc)%elem_of_all_cells. apply insert_elem in Hy as [->|(j & Hne & Hj)].
    + pose proof (bo_nodup _ _ _ Hb) as Hnd. rewrite Hperm in Hnd. apply NoDup_app in Hnd as (_ & Hd & _). by eapply Hd.
    + eapply (cells_disjoint (w_bufs w) i j b y c); try done; [apply Hw|]. rewrite Hperm. apply elem_of_app. by left.
  - intros x Hx Hcx. apply insert_elem in Hx as [->|(j & Hne & Hj)]; [unfold content_cells in Hcx; rewrite Hcont in Hcx; fold (content_cells b) in Hcx|].
    + by eapply (wr_content _ _ Hw b c); [..|auto].
    + eapply (wr_content _ _ Hw x c); [by eapply list_elem_of_lookup_2|done|auto].
  - intros v Hv Hcv. eapply (wr_view_cells _ _ Hw v c); auto.
Qed.

Lemma heap_mono w s h' : world_rep w s -> w_heap w ⊆ h' -> world_rep (mkWorld h' (w_bufs w) (w_views w)) s.
Proof.
  intros [W1 W2 W3 W4 W5] Hs. split; cbn; try done; (eapply Forall2_impl; [done|]); intros ? ?; [by apply buf_ok_mono|by apply view_rep_mono].
Qed.

(** Cells of blocks that are not in the heap are unknown to everybody. *)
Lemma fresh_cells w s c : world_rep w s -> w_heap w !! c.1 = None ->
  c ∉ all_cells (w_bufs w) /\ (forall x, x ∈ w_bufs w -> c ∉ content_cells x) /\ forall v, v ∈ w_views w -> c ∉ view_cells v.
Proof.
  intros Hw Hn. assert (Hno : ~ is_Some (w_heap w !! c.1)) by (rewrite Hn; by intros [? ?]). split_and!.
  - intros (b & [i Hi]%list_elem_of_lookup & Hc)%elem_of_all_cells. destruct (buf_lookup _ _ _ _ Hw Hi) as (bs & _ & Hb). by eapply Hno, buf_cells_dom.
  - intros b [i Hi]%list_elem_of_lookup Hc. destruct (buf_lookup _ _ _ _ Hw Hi) as (bs & _ & Hb). by eapply Hno, content_cells_dom.
  - intros v [i Hi]%list_elem_of_lookup Hc. destruct (view_lookup _ _ _ _ Hw Hi) as (bs & _ & Hv). eapply Hno, (span_cells_dom _ (view_spans v)); [apply Hv|].
    unfold view_spans. unfold view_cells in Hc. rewrite elem_of_concat_map in *. destruct Hc as (sp & Hin & Hc). exists sp. split; [|done].
    by rewrite list_elem_of_In, <- in_rev, <- list_elem_of_In.
Qed.

Lemma step_reserve w s i n b : world_rep w s -> w_bufs w !! i = Some b -> 0 <= n <= isize_max ->
  (forall h add, provider (w_heap w) (n - available b) = Ok (h, add) -> len b + available b + available add <= usize_max) ->
  exists w', step debug provider (OReserve i n) w = Ok w' /\ world_rep w' s
    /\ exists b', w_bufs w' !! i = Some b' /\ n <= available b' /\ available b <= available b'.
Proof.
  intros Hw Hi Hn Hfit. destruct (buf_lookup _ _ _ _ Hw Hi) as (bs & Hs & Hb). pose proof (lookup_lt_Some _ _ _ Hi) as Hlt.
  cbn [step]. unfold on_buf, reserve. rewrite Hi. cbn [expect]. rewrite (remaining_capacity_ok debug _ _ _ Hb).
  assert (Hsame : forall w, w_bufs w !! i = Some b -> set_buf i (w_heap w) b w = w) by (intros [] ?; unfold set_buf; cbn in *; by rewrite list_insert_id).
  destruct (Z.eqb_spec (Z.max 0 (n - available b)) 0) as [Hz|Hnz].
  { rewrite Hsame by done. exists w. split_and!; try done. exists b. split_and!; [done|lia|lia]. }
  destruct (buf_lengths _ _ _ Hb) as (_ & _ & _ & L4). replace (Z.max 0 (n - available b)) with (n - available b) by lia.
  destruct (memory_reserve (w_heap w) (n - available b)) as (h' & add & Hp & Hsub & Hadd & Hcap & Hfresh); [lia|]. rewrite Hp. specialize (Hfit _ _ Hp).
  assert (Hin : b ∈ w_bufs w) by by eapply list_elem_of_lookup_2.
  destruct (extend_ok debug h' b bs (n - available b) add) as (b' & -> & Hb' & Hav & Hcells & Hcont); [by eapply buf_ok_mono|done|done| |lia|].
  { intros c Hc. destruct (fresh_cells w s c Hw (Hfresh c Hc)) as (F1 & F2 & _). split; [|by apply F2]. intros Hbad. apply F1, elem_of_all_cells. by exists b. }
  eexists. split; [done|]. split; [|exists b'; cbn; rewrite list_lookup_insert_eq by done; split_and!; [done|lia|lia]].
  pose proof (heap_mono w s h' Hw Hsub) as [W1 W2 W3 W4 W5]. cbn [w_heap w_bufs w_views] in *.
  assert (Hall : all_cells (<[i := b']> (w_bufs w)) ≡ₚ buf_cells add ++ all_cells (w_bufs w)).
  { rewrite (all_cells_insert _ _ _ _ Hi), (all_cells_split _ _ _ Hi), Hcells, <- !(assoc_L (++)). rewrite !(assoc_L (++) _ (buf_cells add)), (Permutation_app_comm _ (buf_cells add)), <- (assoc_L (++)). done. }
  split; cbn [set_buf w_heap w_bufs w_views]; try done.
  - replace (sp_bufs s) with (<[i := bs]> (sp_bufs s)) by by apply list_insert_id. by apply Forall2_insert.
  - rewrite Hall. apply NoDup_app. split_and!; [apply Hadd| |done]. intros c Hc. by destruct (fresh_cells w s c Hw (Hfresh c Hc)) as (F1 & _).
  - intros x c Hx Hcx. rewrite Hall. intros [Hbad|Hbad]%elem_of_app.
    + destruct (fresh_cells w s c Hw (Hfresh c Hbad)) as (_ & F2 & _). apply insert_elem in Hx as [->|(j & _ & Hj)].
      * unfold content_cells in Hcx. rewrite Hcont in Hcx. by eapply (F2 b).
      * eapply (F2 x); [by eapply list_elem_of_lookup_2|done].
    + apply insert_elem in Hx as [->|(j & _ & Hj)].
      * unfold content_cells in Hcx. rewrite Hcont in Hcx. by eapply (W4 b c).
      * eapply (W4 x c); [by eapply list_elem_of_lookup_2|done|done].
  - intros v c Hv Hcv. rewrite Hall. intros [Hbad|Hbad]%elem_of_app; [|by eapply W5].
    destruct (fresh_cells w s c Hw (Hfresh c Hbad)) as (_ & _ & F3). by eapply F3.
Qed.

Lemma step_new w s : world_rep w s ->
  exists w', step debug provider ONew w = Ok w' /\ world_rep w' (spec_step ONew s).
Proof.
  intros Hw. eexists. split; [done|]. apply world_add_buf; [done|apply buf_ok_new|]. by intros c ?%not_elem_of_nil.
Qed.

(** Writing bytes, a repeated byte or into the slices of a vectored write. *)
Lemma step_write w s i b bs src f : world_rep w s -> w_bufs w !! i = Some b -> sp_bufs s !! i = Some bs ->
  (exists h' b', f (w_heap w) b = Ok (h', b') /\ wrote (w_heap w) b bs src h' b') ->
  exists w', on_buf i w f = Ok w' /\ world_rep w' (mkSpec (<[i := (sp_bufs s !!! i) ++ src]> (sp_bufs s)) (sp_views s)).
Proof.
  intros Hw Hi Hs (h' & b' & Hf & Hwrote). unfold on_buf. rewrite Hi. cbn [expect]. rewrite Hf. eexists. split; [done|]. by eapply step_wrote.
Qed.

Lemma step_put_view w s i j b v : world_rep w s -> w_bufs w !! i = Some b -> w_views w !! j = Some v ->
  len b + v_len v + available b <= usize_max ->
  exists w', step debug provider (OPutView i j) w = Ok w' /\ world_rep w' (spec_step (OPutView i j) s).
Proof.
  intros Hw Hi Hj Hfit. destruct (buf_lookup _ _ _ _ Hw Hi) as (bs & Hs & Hb). destruct (view_lookup _ _ _ _ Hw Hj) as (vs & Hsj & Hv).
  assert (Hin : b ∈ w_bufs w) by by eapply list_elem_of_lookup_2. assert (Hvin : v ∈ w_views w) by by eapply list_elem_of_lookup_2.
  rewrite (vr_len _ _ _ Hv) in Hfit. assert (Hno : forall c, c ∈ view_cells v -> c ∉ buf_cells b).
  { intros c Hc Hbad. eapply (wr_view_cells _ _ Hw v c); [done|done|]. apply elem_of_all_cells. by exists b. }
  destruct (append_ok debug _ b bs v vs Hb Hv) as (b' & Ha & Hb' & Hcells & _ & Hcont); [by apply apart_cells|done|].
  cbn [step spec_step]. rewrite Hj. cbn [expect]. unfold on_buf. rewrite Hi. cbn [expect]. unfold put_bytes. rewrite Ha. eexists. split; [done|].
  rewrite (list_lookup_total_correct _ _ _ Hs), (list_lookup_total_correct _ _ _ Hsj).
  pose proof Hw as [W1 W2 W3 W4 W5]. assert (Hall : all_cells (<[i := b']> (w_bufs w)) = all_cells (w_bufs w)).
  { by rewrite (all_cells_insert _ _ _ _ Hi), (all_cells_split _ _ _ Hi), Hcells. }
  split; cbn [set_buf w_heap w_bufs w_views sp_bufs sp_views]; rewrite ?Hall; try done.
  - by apply Forall2_insert.
  - intros x c Hx Hcx. apply insert_elem in Hx as [->|(k & _ & Hk)]; [|eapply W4; [by eapply list_elem_of_lookup_2|done]].
    destruct (Hcont c Hcx) as [Hold|Hold]; [by eapply W4|]. eapply W5; [done|]. by apply elem_of_view_cells.
Qed.

Lemma step_peek w s i b : world_rep w s -> w_bufs w !! i = Some b ->
  exists w', step debug provider (OPeek i) w = Ok w' /\ world_rep w' (spec_step (OPeek i) s).
Proof.
  intros Hw Hi. destruct (buf_lookup _ _ _ _ Hw Hi) as (bs & Hs & Hb). destruct (peek_ok debug _ _ _ Hb) as (v & Hp & Hv & Hof).
  cbn [step spec_step]. rewrite Hi. cbn [expect]. rewrite Hp. eexists. split; [done|]. rewrite (list_lookup_total_correct _ _ _ Hs).
  apply world_add_view; [done|done|]. intros c. eapply view_of_cells; [done|by eapply list_elem_of_lookup_2|done].
Qed.

Lemma step_range w s j start stop v : world_rep w s -> w_views w !! j = Some v -> 0 <= start <= stop -> stop <= v_len v ->
  exists w', step debug provider (ORange j start stop) w = Ok w' /\ world_rep w' (spec_step (ORange j start stop) s).
Proof.
  intros Hw Hj H1 H2. destruct (view_lookup _ _ _ _ Hw Hj) as (bs & Hs & Hv). pose proof (vr_bound _ _ _ Hv) as Hbd. pose proof (vr_len _ _ _ Hv) as Hl.
  pose proof (range_checked_ok debug _ _ _ (Included start, Excluded stop) Hv) as Hr. cbn -[usize_max] in Hr.
  rewrite !(proj2 (Z.leb_le _ _)) in Hr by lia. cbn [andb] in Hr. destruct Hr as (v' & Hr & Hv' & Hsub); [lia|lia|].
  cbn [step spec_step]. rewrite Hj. cbn [expect]. unfold range. rewrite Hr. eexists. split; [done|]. rewrite (list_lookup_total_correct _ _ _ Hs).
  apply world_add_view; [done|done|]. intros c Hc%Hsub. eapply (wr_view_cells _ _ Hw v c); [by eapply list_elem_of_lookup_2|done].
Qed.

Lemma step_advance w s j n v : world_rep w s -> w_views w !! j = Some v -> 0 <= n <= v_len v ->
  exists w', step debug provider (OAdvance j n) w = Ok w' /\ world_rep w' (spec_step (OAdvance j n) s).
Proof.
  intros Hw Hj Hn. destruct (view_lookup _ _ _ _ Hw Hj) as (bs & Hs & Hv). rewrite (vr_len _ _ _ Hv) in Hn.
  destruct (view_advance_ok _ _ _ n Hv Hn) as (v' & Ha & Hv' & Hsub). cbn [step spec_step]. rewrite Hj. cbn [expect]. rewrite Ha.
  eexists. split; [done|]. rewrite (list_lookup_total_correct _ _ _ Hs). pose proof Hw as [W1 W2 W3 W4 W5].
  split; cbn [w_heap w_bufs w_views sp_bufs sp_views]; try done; [by apply Forall2_insert|].
  intros x c Hx Hc. apply insert_elem in Hx as [->|(k & _ & Hk)]; [|eapply W5; [by eapply list_elem_of_lookup_2|done]].
  apply Hsub in Hc. eapply (W5 v); [by eapply list_elem_of_lookup_2|done].
Qed.

(** Every operation that is allowed succeeds and does what the specification says. *)
Lemma step_ok op w s : world_rep w s -> allowed provider op w = true ->
  exists w', step debug provider op w = Ok w' /\ world_rep w' (spec_step op s).
Proof.
  intros Hw. destruct op as [|i n|i src|i value count|i j|i m src|i n|i|i n|j start stop|j n]; cbn [allowed].
  1: { intros _. by apply step_new. }
  1-8: destruct (w_bufs w !! i) as [b|] eqn:Hi; [|done]; destruct (buf_lookup _ _ _ _ Hw Hi) as (bs & Hs & Hb).
  9-10: destruct (w_views w !! j) as [v|] eqn:Hj; [|done].
  all: intros Hallow; to_prop.
  - destruct (step_reserve w s i n b Hw Hi) as (w' & ? & ? & _); [done| |by exists w'].
    intros h add Hp. rewrite Hp in *. to_prop. done.
  - eapply step_write; [done..|]. by apply put_slice_ok.
  - eapply step_write; [done..|]. by apply put_byte_repeated_ok.
  - destruct (w_views w !! j) as [v|] eqn:Hj; [|done]. to_prop. by eapply step_put_view.
  - eapply step_write; [done..|]. apply vectored_write_ok; [done|done|]. destruct m; [|done]. by to_prop.
  - by eapply step_consume.
  - by eapply step_peek.
  - eapply step_split; [done|done|done|]. unfold split_safe. apply orb_true_iff in H0 as [?|?]; to_prop; [by left|by right].
  - by eapply step_range.
  - by eapply step_advance.
Qed.

Lemma run_ok ops : forall w s, world_rep w s -> all_allowed debug provider ops w = true ->
  exists w', run debug provider ops w = Ok w' /\ world_rep w' (foldl (fun s op => spec_step op s) s ops).
Proof.
  induction ops as [|op ops IH]; intros w s Hw; cbn [all_allowed run foldl]; [by exists w|]. intros [Ha Hrest]%andb_true_iff.
  destruct (step_ok op w s Hw Ha) as (w1 & Hs & Hw1). rewrite Hs in *. by apply IH.
Qed.

Lemma to_vec_ok h v bs : view_rep h v bs -> to_vec h v = Ok bs.
Proof. intros Hv. unfold to_vec. destruct (slices_ok _ _ _ Hv) as (cs & -> & <- & _). done. Qed.
End simulation.

Lemma world_rep_empty : world_rep (mkWorld ∅ [] []) (mkSpec [] []).
Proof. split; cbn; try done; [apply NoDup_nil_2|by intros ? ? ?%not_elem_of_nil..]. Qed.

(** The bytes a program sees: what [peek] shows of every buffer, and the contents of every view. *)
Fixpoint collect {A} (rs : list (result A)) : result (list A) :=
  match rs with
  | [] => Ok []
  | r :: rs => let? x := r in let? xs := collect rs in Ok (x :: xs)
  end.

Definition observe (debug : bool) (w : World) : result Spec :=
  let? bufs := collect (fmap (fun b => let? v := peek debug b in to_vec (w_heap w) v) (w_bufs w)) in
  let? views := collect (fmap (to_vec (w_heap w)) (w_views w)) in
  Ok (mkSpec bufs views).

Lemma collect_ok {A B} (f : A -> result B) xs ys : Forall2 (fun x y => f x = Ok y) xs ys -> collect (f <$> xs) = Ok ys.
Proof. induction 1 as [|x y xs ys Hxy _ IH]; [done|]. cbn. by rewrite Hxy, IH. Qed.

Lemma observe_ok debug w s : world_rep w s -> observe debug w = Ok s.
Proof.
  intros [W1 W2 _ _ _]. unfold observe. rewrite (collect_ok _ _ (sp_bufs s)), (collect_ok _ _ (sp_views s)); [by destruct s| |].
  - eapply Forall2_impl; [exact W2|]. intros ? ?. apply to_vec_ok.
  - eapply Forall2_impl; [exact W1|]. intros b bs Hb. destruct (peek_ok debug _ _ _ Hb) as (v & -> & Hv & _). by apply to_vec_ok.
Qed.

(** ** Theorems *)

(** C6. Whatever sequence of operations a program applies to buffers and views that share
    memory (reserve, put bytes, put a repeated byte, put a view, vectored write, consume, peek,
    split off capacity, subrange, advance) with a provider that keeps the trait's promise,
    each within its documented limits, and where no split takes all remaining capacity while the first
    builder holds unfrozen bytes (the case in which the code breaks the buffer): nothing panics, no unsafe access is out of bounds or reads
    uninitialized memory, and all buffers and views show exactly the byte strings that plain append,
    drop and slice give; in particular bytes once handed out in a view never change. *)
Theorem bytesbuf_refines_bytes debug provider ops : Memory provider -> all_allowed debug provider ops (mkWorld ∅ [] []) = true ->
  exists w, run debug provider ops (mkWorld ∅ [] []) = Ok w
    /\ observe debug w = Ok (foldl (fun s op => spec_step op s) (mkSpec [] []) ops).
Proof.
  intros Hp Ha. destruct (run_ok debug provider Hp ops _ _ world_rep_empty Ha) as (w & Hr & Hw). exists w. split; [done|]. by apply observe_ok.
Qed.

Definition sample_ops : list Op :=
  [ONew; OReserve 0 10; OPut 0 [1; 2; 3; 4; 5; 6]; OConsume 0 3; OPeek 0; OPut 0 [7]; OPutView 0 0; OSplit 0 2;
   OPut 1 [8; 9]; OVectored 0 (Some 2) [10]; OPutRepeated 0 11 1; OPeek 0; ORange 2 1 6; OAdvance 3 2; OConsume 1 2].

Lemma bytesbuf_refines_bytes_witness :
  exists w, run true (fixed_block_reserve 4) sample_ops (mkWorld ∅ [] []) = Ok w
    /\ observe true w = Ok (mkSpec [[4; 5; 6; 7; 1; 2; 3; 10; 11]; []] [[1; 2; 3]; [4; 5; 6]; [4; 5; 6; 7; 1; 2; 3; 10; 11]; [7; 1; 2]; [8; 9]]).
Proof.
  apply (bytesbuf_refines_bytes true (fixed_block_reserve 4) sample_ops); [apply fixed_block_memory; by unfold block_size_max|by vm_compute].
Defined.

(** ** The excluded case of [split_off_remaining] *)

(** A buffer whose only builder holds bytes and has no capacity. *)
Definition stuck (b : BytesBuf) (sb : SpanBuilder) : BytesBuf :=
  mkBuf (frozen_spans b) [mkBuilder (b_block sb) (b_start sb) (filled_bytes sb) 0] (len b) (frozen b) 0.

(** In a release build the length is not recomputed. *)
Lemma consume_release n b : n <= len b ->
  consume_checked false n b = (let? b1 := ensure_frozen false n b in let? (v, b2) := take_frozen false n b1 in Ok (Some v, b2)).
Proof. intros Hn. apply Z.ltb_ge in Hn. unfold consume_checked. cbn. by rewrite Hn. Qed.

(** Consuming a part of its unfrozen bytes drops the builder with the rest of them. *)
Lemma consume_stuck h b bs spare sb n : buf_ok h b bs -> span_builders_reversed b = spare ++ [sb] ->
  frozen b < n < Z.of_nat (length bs) ->
  exists v b2, consume_checked false n (stuck b sb)
      = Ok (Some v, mkBuf (frozen_spans b2) [] (Z.of_nat (length bs) - n) 0 0)
    /\ view_rep h v (take (Z.to_nat n) bs) /\ buf_ok h b2 [] /\ span_builders_reversed b2 = [].
Proof.
  intros Hb Hs Hn. destruct (buf_lengths _ _ _ Hb) as (L1 & L2 & L3 & L4). pose proof (bo_bound _ _ _ Hb). pose proof (bo_len _ _ _ Hb).
  destruct (first_builder _ _ _ _ _ Hb Hs) as ((_ & H2 & H3 & H4 & _) & _ & _ & Hun & _). set (m := n - frozen b).
  destruct (freeze_ok false h b bs m Hb) as (b1 & Hf & Hb1 & _ & Hfr & _); [lia|].
  rewrite (freeze_from_first_eq false b spare sb m) in Hf by (done || lia). injection Hf as <-. cbn [frozen] in Hfr.
  pose proof (frozen_alone h _ _ Hb1) as Hall. cbn [frozen frozen_spans] in Hall. replace (frozen b + m) with n in * by lia.
  destruct (take_frozen_ok false h _ _ n Hall) as (v & b2 & Htake & Hv & Hb2 & _); [cbn; lia|].
  assert (Hnil : span_builders_reversed b2 = []).
  { apply (take_frozen_len _ _ _ _ _ n) in Htake as Htake'. rewrite Htake in Htake'. injection Htake' as ->. done. }
  apply (take_frozen_len _ _ _ _ _ (len b)) in Htake. rewrite take_take, Nat.min_id in Hv. rewrite drop_ge in Hb2 by (rewrite length_take; lia).
  destruct (buf_lengths _ _ _ Hb2) as (M1 & M2 & M3 & _). cbn [length] in M1.
  exists v, b2. split; [|done]. rewrite consume_release by (cbn; lia). unfold ensure_frozen, try_into_u32, stuck. cbn [frozen].
  rewrite (proj2 (Z.leb_le _ _)) by lia. cbn [expect]. rewrite Z.max_r, (proj2 (Z.eqb_neq _ _)) by lia.
  rewrite (freeze_from_first_eq false _ [] (mkBuilder (b_block sb) (b_start sb) (filled_bytes sb) 0)) by (cbn; done || lia).
  cbn. fold m. replace (frozen b + m) with n by lia. rewrite Htake. replace (frozen b2) with 0 by lia.
  rewrite wrap64_small by lia. by replace (len b) with (Z.of_nat (length bs)) by lia.
Qed.

(** C37. Splitting off the whole remaining capacity of any buffer whose first builder holds bytes
    succeeds and leaves a full builder in the buffer. In a release build, consuming a part of these
    bytes then drops the builder with the others: the buffer still reports them in its length, a view of
    it shows none, and consuming them panics. And whatever is reserved afterwards, a round of the loop of
    [put_slice] changes nothing, so that the loop never ends. *)
Theorem split_off_all_corrupts h b bs : buf_ok h b bs -> unfrozen_len b <> 0 ->
  exists s b', split_off_remaining_checked false (available b) b = Ok (Some s, b')
    /\ buf_len false b' = Ok (Z.of_nat (length bs))
    /\ (forall n, frozen b < n < Z.of_nat (length bs) ->
         exists v b'', consume_checked false n b' = Ok (Some v, b'')
           /\ buf_len false b'' = Ok (Z.of_nat (length bs) - n)
           /\ (let? w := peek false b'' in to_vec h w) = Ok []
           /\ consume_checked false (Z.of_nat (length bs) - n) b'' = Panic)
    /\ (forall provider n h' b'', reserve false provider n h b' = Ok (h', b'') ->
         forall src, put_slice_round false src h' b'' = Ok (src, h', b'')).
Proof.
  intros Hb Hun. destruct (split_all_ok false h b bs (available b) Hb) as (spare & sb & s & Hs & Hsplit); [lia|unfold split_safe; lia|].
  exists s, (stuck b sb). split; [exact Hsplit|]. split; [by rewrite <- (bo_len _ _ _ Hb)|]. split.
  - intros n Hn. destruct (consume_stuck h b bs spare sb n Hb Hs Hn) as (v & b2 & Hc & _ & Hb2 & Hnil).
    eexists v, _. split; [exact Hc|]. split; [done|]. split.
    + destruct (peek_ok false _ _ _ Hb2) as (w & Hp & Hw & _). unfold peek in *. rewrite Hnil in Hp. cbn [span_builders_reversed frozen_spans].
      rewrite Hp. by apply to_vec_ok.
    + rewrite consume_release by (cbn; lia). unfold ensure_frozen. cbn [frozen].
      destruct (try_into_u32 _) as [k|] eqn:Hk; [|done]. unfold try_into_u32 in Hk. destruct (_ <=? _); [|done]. injection Hk as <-. cbn [expect].
      by rewrite (proj2 (Z.eqb_neq _ _)) by lia.
  - intros provider n h' b'' Hr src.
    assert (Hlast : last (span_builders_reversed b'') = Some (mkBuilder (b_block sb) (b_start sb) (filled_bytes sb) 0)).
    { unfold reserve, remaining_capacity, debug_assert in Hr. cbn in Hr. destruct (_ =? 0); [by injection Hr as <- <-|].
      destruct (provider _ _) as [[h1 add]|?|]; try done. unfold extend_capacity_by_at_least, capacity, buf_is_empty, buf_len, remaining_capacity, debug_assert in Hr.
      cbn in Hr. destruct (checked_add _ _); [|done]. cbn in Hr. destruct (assert_capacity_within_bounds _ _); try done.
      injection Hr as <- <-. apply last_snoc. }
    unfold put_slice_round, first_unfilled_slice, debug_assert. rewrite Hlast. cbn [unfilled_slice_mut sl_len available_bytes].
    rewrite Z.min_l by lia. by destruct src.
Qed.

(** Five bytes in a block of ten. *)
Definition half_heap : heap := <[1%positive := [Some 1; Some 2; Some 3; Some 4; Some 5; None; None; None; None; None]]> ∅.
Definition half_buf : BytesBuf := mkBuf [] [mkBuilder 1 0 5 5] 5 0 5.

Lemma half_buf_ok : buf_ok half_heap half_buf [1; 2; 3; 4; 5].
Proof.
  split; try done; cbn.
  - apply Forall_singleton. split_and!; try done. eexists. split; [done|]. cbn. lia.
  - intros spare sb Heq. destruct spare as [|? [|]]; [done|discriminate..].
  - apply (bool_decide_unpack _). by vm_compute.
  - apply Forall_singleton. intros c. rewrite app_nil_r. unfold span_cells, builder_cells. rewrite !elem_of_cells_of. cbn. lia.
Defined.

Lemma split_off_all_corrupts_witness :
  exists s b' v b'', split_off_remaining_checked false 5 half_buf = Ok (Some s, b')
    /\ consume_checked false 3 b' = Ok (Some v, b'') /\ consume_checked false 2 b'' = Panic.
Proof.
  destruct (split_off_all_corrupts half_heap half_buf [1; 2; 3; 4; 5] half_buf_ok) as (s & b' & H1 & _ & H2 & _); [done|].
  destruct (H2 3) as (v & b'' & H3 & _ & _ & H4); [cbn; lia|]. exists s, b', v, b''. split_and!; [exact H1|exact H3|exact H4].
Defined.
