(* ===== verification/ByteNum.v ===== *)
(** * bytesbuf: numbers in buffers and views, and views of vectors

    Models the number accessors of [src/crates/bytesbuf/src/buf_put.rs] and [view_get.rs] (the macros
    [put_num_accessors] and [get_num_accessors]) and the conversion of a [Vec<u8>] into a view ([vec.rs]). *)

From S2P Require Import Prelude ByteSpan ByteView ByteBuf ByteWorld.

(** ** Numbers as bytes *)

(** The number types of the accessors; a float is its bit pattern, as [to_bits] gives it. *)
Inductive NumType : Type := U16 | I16 | U32 | I32 | U64 | I64 | U128 | I128 | F32 | F64.

Definition octets (t : NumType) : nat :=
  match t with U16 | I16 => 2 | U32 | I32 | F32 => 4 | U64 | I64 | F64 => 8 | U128 | I128 => 16 end.

Definition signed (t : NumType) : bool :=
  match t with I16 | I32 | I64 | I128 => true | _ => false end.

Definition bits (t : NumType) : Z := 8 * Z.of_nat (octets t).

(** The values of a type. *)
Definition in_type (t : NumType) (v : Z) : bool :=
  if signed t then (- 2 ^ (bits t - 1) <=? v) && (v <? 2 ^ (bits t - 1)) else (0 <=? v) && (v <? 2 ^ bits t).

(** [to_le_bytes] and [from_le_bytes]. *)
Fixpoint le_bytes (n : nat) (v : Z) : bytes :=
  match n with O => [] | S n => Z.land v 255 :: le_bytes n (Z.shiftr v 8) end.

Fixpoint le_value (bs : bytes) : Z :=
  match bs with [] => 0 | b :: bs => b + 256 * le_value bs end.

Definition from_le_bytes (t : NumType) (bs : bytes) : Z :=
  let u := le_value bs in
  if signed t && (2 ^ (bits t - 1) <=? u) then u - 2 ^ bits t else u.

Inductive Endian : Type := LE | BE | NE.

Section codec.
(** The byte order of the target. *)
Context (debug big_endian : bool).

Definition is_big (e : Endian) : bool := match e with LE => false | BE => true | NE => big_endian end.

Definition to_bytes (t : NumType) (e : Endian) (v : Z) : bytes :=
  if is_big e then rev (le_bytes (octets t) v) else le_bytes (octets t) v.

Definition from_bytes (t : NumType) (e : Endian) (bs : bytes) : Z :=
  from_le_bytes t (if is_big e then rev bs else bs).

Definition put_num (t : NumType) (e : Endian) (v : Z) (h : heap) (b : BytesBuf) : result (heap * BytesBuf) :=
  put_slice debug (to_bytes t e v) h b.

Definition get_num (t : NumType) (e : Endian) (h : heap) (v : BytesView) : result (Z * BytesView) :=
  let? (bs, v) := get_array debug h v (Z.of_nat (octets t)) in
  Ok (from_bytes t e bs, v).

(** Several numbers in a row. *)
Fixpoint put_nums (xs : list (NumType * Endian * Z)) (h : heap) (b : BytesBuf) : result (heap * BytesBuf) :=
  match xs with
  | [] => Ok (h, b)
  | (t, e, x) :: xs => let? (h, b) := put_num t e x h b in put_nums xs h b
  end.

Fixpoint get_nums (ts : list (NumType * Endian)) (h : heap) (v : BytesView) : result (list Z * BytesView) :=
  match ts with
  | [] => Ok ([], v)
  | (t, e) :: ts =>
      let? (x, v) := get_num t e h v in
      let? (xs, v) := get_nums ts h v in
      Ok (x :: xs, v)
  end.
End codec.

(** ** A view of a vector *)

(** [VecBlockIterator]: pieces of at most [BlockSize::MAX] bytes; a piece takes a byte at least. *)
Fixpoint vec_blocks (fuel : nat) (remaining : bytes) : list bytes :=
  match fuel, remaining with
  | S fuel, _ :: _ =>
      let bytes_to_take := Z.to_nat (Z.min (Z.of_nat (length remaining)) block_size_max) in
      take bytes_to_take remaining :: vec_blocks fuel (drop bytes_to_take remaining)
  | _, _ => []
  end.

(** [non_empty_vec_to_immutable_block]: the bytes of the vector become a block. *)
Definition vec_to_block (vec : bytes) (h : heap) : result (heap * Block) :=
  let? _ := rust_assert (negb (bool_decide (vec = []))) in
  let? len := expect (try_into_u32 (Z.of_nat (length vec))) in
  let? len := non_zero len in
  let id := fresh (dom h) in
  Ok (<[id := Some <$> vec]> h, mkBlock (id, 0) len).

(** The span of a block that is already full. *)
Definition block_to_span (block : Block) : result Span :=
  let sb := into_span_builder block in
  let? len := non_zero (wrap32 (available_bytes sb)) in
  let sb := builder_advance sb len in
  let? (span, _) := builder_consume sb len in
  Ok span.

Fixpoint vec_spans (vecs : list bytes) (h : heap) : result (heap * list Span) :=
  match vecs with
  | [] => Ok (h, [])
  | vec :: vecs =>
      let? (h, block) := vec_to_block vec h in
      let? span := block_to_span block in
      let? (h, spans) := vec_spans vecs h in
      Ok (h, span :: spans)
  end.

(** [From<Vec<u8>> for BytesView]. *)
Definition from_vec (debug : bool) (value : bytes) (h : heap) : result (heap * BytesView) :=
  if bool_decide (value = []) then Ok (h, view_new)
  else
    let? (h, spans) := vec_spans (vec_blocks (length value) value) h in
    let? v := from_spans_reversed debug (rev spans) in
    Ok (h, v).

(** [BytesView::copied_from_slice]. *)
Definition copied_from_slice (debug : bool) (provider : heap -> Z -> result (heap * BytesBuf)) (bs : bytes) (h : heap) : result (heap * BytesView) :=
  let? (h, b) := provider h (Z.of_nat (length bs)) in
  let? (h, b) := put_slice debug bs h b in
  let? (v, _) := consume_all debug b in
  Ok (h, v).

(** ** Facts *)

Lemma length_le_bytes n : forall v, length (le_bytes n v) = n.
Proof. induction n as [|n IH]; intros v; cbn; [done|by rewrite IH]. Qed.

Lemma le_value_bytes n : forall v, le_value (le_bytes n v) = v mod 2 ^ (8 * Z.of_nat n).
Proof.
  induction n as [|n IH]; intros v; cbn [le_bytes le_value]; [by rewrite Z.mod_1_r|].
  rewrite IH, Z.shiftr_div_pow2 by lia. change 255 with (Z.ones 8). rewrite Z.land_ones by lia.
  replace (8 * Z.of_nat (S n)) with (8 + 8 * Z.of_nat n) by lia. rewrite Z.pow_add_r by lia.
  change (2 ^ 8) with 256. symmetry. apply Z.rem_mul_r; [lia|]. apply Z.pow_pos_nonneg; lia.
Qed.

Lemma from_le_bytes_ok t v : in_type t v = true -> from_le_bytes t (le_bytes (octets t) v) = v.
Proof.
  unfold in_type, from_le_bytes. rewrite le_value_bytes. fold (bits t).
  assert (Hb : 2 ^ bits t = 2 * 2 ^ (bits t - 1)) by by destruct t.
  assert (Hp : 0 < 2 ^ (bits t - 1)) by by destruct t.
  rewrite Hb. set (m := 2 ^ (bits t - 1)) in *. clearbody m. destruct (signed t); cbn [andb]; intros H; to_prop; [|apply Z.mod_small; lia].
  destruct (Z.le_gt_cases 0 v) as [Hv|Hv].
  - rewrite Z.mod_small by lia. rewrite (proj2 (Z.leb_gt _ _)) by lia. done.
  - rewrite <- (Z_mod_plus_full v 1), Z.mod_small by lia. rewrite (proj2 (Z.leb_le _ _)) by lia. lia.
Qed.

Section facts.
Context (debug big_endian : bool).

Lemma length_to_bytes t e v : length (to_bytes big_endian t e v) = octets t.
Proof. unfold to_bytes. destruct (is_big _ _); by rewrite ?length_rev, length_le_bytes. Qed.

Lemma from_to_bytes t e v : in_type t v = true -> from_bytes big_endian t e (to_bytes big_endian t e v) = v.
Proof. intros Hv. unfold from_bytes, to_bytes. destruct (is_big _ _); rewrite ?rev_involutive; by apply from_le_bytes_ok. Qed.

(** The bytes of several numbers. *)
Definition nums_bytes (xs : list (NumType * Endian * Z)) : bytes :=
  concat ((fun '(t, e, x) => to_bytes big_endian t e x) <$> xs).

Lemma put_nums_ok xs : forall h b bs, buf_ok h b bs -> Z.of_nat (length (nums_bytes xs)) <= available b ->
  exists h' b', put_nums debug big_endian xs h b = Ok (h', b') /\ buf_ok h' b' (bs ++ nums_bytes xs).
Proof.
  induction xs as [|[[t e] x] xs IH]; intros h b bs Hb Hn; cbn [put_nums].
  { exists h, b. by rewrite app_nil_r. }
  unfold nums_bytes in Hn. cbn [fmap list_fmap concat] in Hn. fold (nums_bytes xs) in Hn. rewrite length_app in Hn.
  unfold put_num. destruct (put_slice_ok debug h b bs (to_bytes big_endian t e x) Hb) as (h1 & b1 & -> & Hb1 & _ & Hav); [lia|].
  destruct (IH h1 b1 _ Hb1) as (h2 & b2 & -> & Hb2); [lia|]. exists h2, b2. split; [done|]. by rewrite <- (assoc_L (++)) in Hb2.
Qed.

Lemma get_nums_ok xs : forall h v, Forall (fun '(t, _, x) => in_type t x = true) xs -> view_rep h v (nums_bytes xs) ->
  exists v', get_nums debug big_endian (fst <$> xs) h v = Ok (snd <$> xs, v') /\ view_rep h v' [].
Proof.
  induction xs as [|[[t e] x] xs IH]; intros h v Hin Hv; cbn [fmap list_fmap fst snd get_nums]; [by exists v|].
  apply Forall_cons in Hin as [Hx Hin]. unfold nums_bytes in Hv. cbn [fmap list_fmap concat] in Hv. fold (nums_bytes xs) in Hv.
  pose proof (length_to_bytes t e x) as Hl. unfold get_num.
  destruct (get_array_ok debug h v _ (Z.of_nat (octets t)) Hv) as (v1 & -> & Hv1); [rewrite length_app, Hl; destruct t; cbn; lia|].
  rewrite Nat2Z.id, <- Hl, ?take_app_length, ?drop_app_length in *. destruct (IH h v1 Hin Hv1) as (v2 & -> & Hv2).
  exists v2. split; [|done]. by rewrite from_to_bytes.
Qed.

Lemma vec_blocks_ok fuel : forall bs, (length bs <= fuel)%nat ->
  concat (vec_blocks fuel bs) = bs /\ Forall (fun c => 0 < Z.of_nat (length c) <= block_size_max) (vec_blocks fuel bs).
Proof.
  induction fuel as [|fuel IH]; intros [|x bs] Hl; cbn [vec_blocks]; try done; [cbn in Hl; lia|].
  set (n := Z.to_nat _). assert (Hn : (0 < n <= length (x :: bs))%nat /\ Z.of_nat n <= block_size_max).
  { subst n. cbn [length]. unfold block_size_max. lia. }
  clearbody n. destruct (IH (drop n (x :: bs))) as [Hc Hf]; [rewrite length_drop; lia|]. split.
  - cbn [concat]. by rewrite Hc, take_drop.
  - constructor; [|done]. rewrite length_take. lia.
Qed.

Lemma fresh_block (h : heap) (vec : bytes) : <[fresh (dom h) := Some <$> vec]> h !! fresh (dom h) = Some (Some <$> vec) /\ h ⊆ <[fresh (dom h) := Some <$> vec]> h.
Proof. split; [by rewrite lookup_insert_eq|]. apply insert_subseteq, not_elem_of_dom, is_fresh. Qed.

Lemma deref_whole (h : heap) id (vec : bytes) : h !! id = Some (Some <$> vec) -> deref h (mkSpan id 0 (Z.of_nat (length vec))) = Some vec.
Proof.
  intros Hid. unfold deref, read. cbn. apply mapM_Some, Forall2_same_length_lookup_2; [rewrite length_seqZ; lia|].
  intros i o x Ho Hx. apply lookup_seqZ in Ho as [-> Hi]. unfold byte_at. rewrite Hid, (proj2 (Z.ltb_ge _ _)) by lia.
  cbn. by rewrite Z.add_0_l, Nat2Z.id, list_lookup_fmap, Hx.
Qed.

Lemma block_to_span_ok id n : 0 < n <= block_size_max -> block_to_span (mkBlock (id, 0) n) = Ok (mkSpan id 0 n).
Proof.
  unfold block_size_max. intros Hn. unfold block_to_span, builder_consume, builder_advance, rust_assert, non_zero. cbn.
  rewrite (wrap32_small n) by lia. rewrite (proj2 (Z.eqb_neq _ _)) by lia. cbv beta iota. rewrite Z.add_0_l, !(wrap32_small n) by lia. by rewrite Z.leb_refl.
Qed.

Lemma vec_spans_ok vecs : forall h, Forall (fun c => 0 < Z.of_nat (length c) <= block_size_max) vecs ->
  exists h' ss, vec_spans vecs h = Ok (h', ss) /\ h ⊆ h' /\ Forall span_ok ss /\ spans_bytes h' ss = Some (concat vecs).
Proof.
  induction vecs as [|vec vecs IH]; intros h Hf; cbn [vec_spans]; [by exists h, []|].
  apply Forall_cons in Hf as [Hv Hf]. unfold vec_to_block, rust_assert. rewrite bool_decide_false by (intros ->; cbn in Hv; lia). cbn [negb].
  unfold try_into_u32. rewrite (proj2 (Z.leb_le _ _)) by (unfold block_size_max in *; lia). cbn [expect]. unfold non_zero at 1. rewrite (proj2 (Z.eqb_neq _ _)) by lia.
  cbn [block_ptr block_len]. rewrite block_to_span_ok by done. destruct (fresh_block h vec) as [Hid Hsub].
  destruct (IH (<[fresh (dom h) := Some <$> vec]> h) Hf) as (h' & ss & -> & Hs & Hok & Hb). eexists h', _. split; [done|].
  split_and!; [by etrans|constructor; [by split|done]|].
  apply spans_bytes_cons. exists vec, (concat vecs). split_and!; [|done|done]. apply deref_whole. by eapply lookup_weaken.
Qed.
End facts.

(** ** Theorems *)

(** Numbers of any of the accessors' types, each in any byte order, that are put into a buffer
    one after the other come back from the consumed view in the same order, exactly and with nothing
    left over, wherever block boundaries cut them. *)
Theorem numbers_roundtrip debug big_endian xs h b : buf_ok h b [] -> Z.of_nat (length (nums_bytes big_endian xs)) <= available b ->
  Forall (fun '(t, _, x) => in_type t x = true) xs ->
  exists h' b1 v b2 v', put_nums debug big_endian xs h b = Ok (h', b1) /\ consume_all debug b1 = Ok (v, b2)
    /\ get_nums debug big_endian (fst <$> xs) h' v = Ok (snd <$> xs, v') /\ view_len debug v' = Ok 0.
Proof.
  intros Hb Ha Hin. destruct (put_nums_ok debug big_endian xs h b [] Hb Ha) as (h' & b1 & Hp & Hb1).
  destruct (consume_ok debug h' b1 _ (len b1) Hb1) as (v & b2 & Hc & Hv & _); [rewrite (bo_len _ _ _ Hb1); lia|].
  rewrite (bo_len _ _ _ Hb1), take_ge in Hv by lia. destruct (get_nums_ok debug big_endian xs h' v Hin Hv) as (v' & Hg & Hv').
  exists h', b1, v, b2, v'. split_and!; [done| |done|by apply (view_len_ok debug) in Hv'].
  unfold consume_all, consume. by rewrite (buf_len_ok debug _ _ _ Hb1), <- (bo_len _ _ _ Hb1), Hc.
Qed.

(** Numbers across blocks of three bytes. *)
Definition sample_numbers : list (NumType * Endian * Z) := [(U16, BE, 258); (I32, LE, -2); (I64, NE, -(2 ^ 63)); (F32, BE, 1065353216)].
Definition sample_memory : heap * BytesBuf :=
  match fixed_block_reserve 3 ∅ 18 with Ok r => r | _ => (∅, buf_new) end.

Lemma sample_memory_ok : buf_ok sample_memory.1 sample_memory.2 [] /\ 18 <= available sample_memory.2.
Proof.
  destruct (fixed_block_memory 3 ltac:(by unfold block_size_max) ∅ 18) as (h & b & Heq & _ & Hb & Ha & _); [by unfold isize_max|].
  unfold sample_memory. by rewrite Heq.
Qed.

Lemma numbers_roundtrip_witness :
  exists h' b1 v b2 v', put_nums true false sample_numbers sample_memory.1 sample_memory.2 = Ok (h', b1) /\ consume_all true b1 = Ok (v, b2)
    /\ get_nums true false [(U16, BE); (I32, LE); (I64, NE); (F32, BE)] h' v = Ok ([258; -2; -9223372036854775808; 1065353216], v')
    /\ view_len true v' = Ok 0.
Proof.
  apply (numbers_roundtrip true false sample_numbers); [apply sample_memory_ok| |repeat constructor].
  eapply Z.le_trans; [|apply sample_memory_ok]. by vm_compute.
Defined.

(** A view made of a vector, or copied from a slice with any provider that keeps the trait's promise,
    contains exactly those bytes, also when they need several blocks; memory that was in use before
    keeps its contents. *)
Theorem view_of_bytes_roundtrip debug provider value h : Memory provider -> Z.of_nat (length value) <= isize_max ->
  (exists h' v, from_vec debug value h = Ok (h', v) /\ to_vec h' v = Ok value /\ h ⊆ h')
  /\ (value <> [] -> exists h' v, copied_from_slice debug provider value h = Ok (h', v) /\ to_vec h' v = Ok value
       /\ forall c x, byte_at h c.1 c.2 = Some x -> byte_at h' c.1 c.2 = Some x).
Proof.
  intros Hp Hl. split; [|intros Hne].
  - unfold from_vec. case_bool_decide as Hv; [subst; by exists h, view_new|].
    destruct (vec_blocks_ok (length value) value) as [Hc Hf]; [done|]. destruct (vec_spans_ok _ h Hf) as (h' & ss & -> & Hs & Hok & Hb). rewrite Hc in Hb.
    destruct (from_spans_reversed_ok debug h' (rev ss) value) as (v & -> & Hrep & _);
      [by apply Forall_rev|by rewrite rev_involutive|unfold isize_max, usize_max in *; lia|].
    exists h', v. split_and!; [done| |done]. by apply to_vec_ok.
  - unfold copied_from_slice. destruct (memory_reserve h (Z.of_nat (length value))) as (h1 & b & -> & Hsub & Hb & Ha & Hfresh).
    { destruct value; [done|cbn [length] in *; lia]. }
    destruct (put_slice_ok debug h1 b [] value Hb Ha) as (h' & b' & -> & Hb' & Hstep & _). cbn [app] in Hb'.
    destruct (consume_ok debug h' b' value (Z.of_nat (length value)) Hb') as (v & b2 & Hc & Hv & _); [lia|].
    unfold consume_all, consume. rewrite (buf_len_ok debug _ _ _ Hb'), Hc. exists h', v. split_and!; [done| |].
    + rewrite Nat2Z.id, take_ge in Hv by done. by apply to_vec_ok.
    + intros c x Hx. apply (byte_at_mono h h1) in Hx as Hx1; [|done]. rewrite <- Hx1. apply (bs_heap _ _ _ _ Hstep). intros Hin%Hfresh.
      unfold byte_at in Hx. destruct (_ <? 0); [done|]. cbn in Hin. by rewrite Hin in Hx.
Qed.

Lemma view_of_bytes_roundtrip_witness :
  (exists h' v, from_vec true [1; 2; 3] ∅ = Ok (h', v) /\ to_vec h' v = Ok [1; 2; 3] /\ ∅ ⊆ h')
  /\ ([1; 2; 3] <> [] -> exists h' v, copied_from_slice true (fixed_block_reserve 2) [1; 2; 3] ∅ = Ok (h', v) /\ to_vec h' v = Ok [1; 2; 3]
       /\ forall c x, byte_at ∅ c.1 c.2 = Some x -> byte_at h' c.1 c.2 = Some x).
Proof. apply (view_of_bytes_roundtrip true (fixed_block_reserve 2) [1; 2; 3] ∅); [apply fixed_block_memory; by unfold block_size_max|by vm_compute]. Defined.
