(* ===== verification/Llrb.v ===== *)
(** * rallocator: intrusive left-leaning red-black trees

    Models [Nodes] of [src/crates/rallocator/src/buddy.rs]: the trees that keep the free
    blocks of one size. A node is a free block itself, so its key is its address, and its two links
    and its color lie in the page map ([pagemap.rs]) or in the block. Both storages are instances of one
    class, and the tree operations are proved against the class. *)

From S2P Require Import Prelude ByteSpan.

(** ** Node storage *)

(** What the tree needs of a storage: reading and writing a node; whether a merge of two
    buddies is permitted ([can_merge]). *)
Class Nodes (M : Type) : Type := {
  backed : M -> Z -> Prop;
  node_read : M -> Z -> result (Z * Z * bool);
  node_write : M -> Z -> Z -> Z -> bool -> result M;
  may_merge : M -> Z -> Z -> result bool }.

(** A state after writes to nodes among [ks]. *)
Record evolves `{Nodes M} (ks : list Z) (s s' : M) : Prop := {
  ev_backed : forall a, backed s' a <-> backed s a;
  ev_read : forall a, backed s a -> a ∉ ks -> node_read s' a = node_read s a;
  ev_merge : forall a size, may_merge s' a size = may_merge s a size }.

Definition link `{Nodes M} (s : M) (a : Z) : Prop := a = 0 \/ backed s a.

(** Writing a node of which the storage is backed changes only that node; whether two buddies may
    merge is known and does not depend on which one asks. *)
Class NodesLaws (M : Type) `{Nodes M} : Prop := {
  backed_pos s a : backed s a -> 0 < a;
  node_write_ok s a l r c : backed s a -> link s l -> link s r ->
    exists s', node_write s a l r c = Ok s' /\ node_read s' a = Ok (l, r, c) /\ evolves [a] s s';
  may_merge_ok s a size : backed s a -> backed s (Z.lxor a size) -> exists b, may_merge s a size = Ok b;
  may_merge_sym s a size : may_merge s (Z.lxor a size) size = may_merge s a size }.

(** ** The operations *)

Section operations.
Context `{Nodes M}.

Definition red (s : M) (address : Z) : result bool :=
  if address =? 0 then Ok false else let? (_, _, c) := node_read s address in Ok c.

Definition color (s : M) (address : Z) (red : bool) : result M :=
  if address =? 0 then Ok s
  else let? (left_, right_, _) := node_read s address in node_write s address left_ right_ red.

Definition rotate_left (s : M) (root : Z) : result (M * Z) :=
  let? (left_, pivot, c) := node_read s root in
  let? (middle, right_, _) := node_read s pivot in
  let? s := node_write s root left_ middle true in
  let? s := node_write s pivot root right_ c in
  Ok (s, pivot).

Definition rotate_right (s : M) (root : Z) : result (M * Z) :=
  let? (pivot, right_, c) := node_read s root in
  let? (left_, middle, _) := node_read s pivot in
  let? s := node_write s root middle right_ true in
  let? s := node_write s pivot left_ root c in
  Ok (s, pivot).

(** The part of [flip] that recolors a child. *)
Definition flip_child (s : M) (child : Z) : result M :=
  if negb (child =? 0) then let? c := red s child in color s child (negb c) else Ok s.

Definition flip (s : M) (h : Z) : result M :=
  let? (l, r, c) := node_read s h in
  let? s := color s h (negb c) in
  let? s := flip_child s l in
  flip_child s r.

(** Whether the left child of a node is red. *)
Definition red_left (s : M) (h : Z) : result bool :=
  let? (l, _, _) := node_read s h in red s l.

(** The three parts of [balance]: a red right child leans left, two red left links in a row turn
    right, two red children pass their color up. *)
Definition lean_left (s : M) (h : Z) : result (M * Z) :=
  let? (l, r, _) := node_read s h in
  let? red_r := red s r in
  let? lean := (if red_r then let? red_l := red s l in Ok (negb red_l) else Ok false) in
  if lean : bool then rotate_left s h else Ok (s, h).

Definition turn_right (s : M) (h : Z) : result (M * Z) :=
  let? (l, _, _) := node_read s h in
  let? red_l := red s l in
  let? turn := (if red_l then red_left s l else Ok false) in
  if turn : bool then rotate_right s h else Ok (s, h).

Definition pass_up (s : M) (h : Z) : result (M * Z) :=
  let? (l, r, _) := node_read s h in
  let? red_l := red s l in
  let? both := (if red_l then red s r else Ok false) in
  let? s := (if both : bool then flip s h else Ok s) in
  Ok (s, h).

Definition balance (s : M) (h : Z) : result (M * Z) :=
  let? (s, h) := lean_left s h in
  let? (s, h) := turn_right s h in
  pass_up s h.

Definition move_red_left (s : M) (h : Z) : result (M * Z) :=
  let? s := flip s h in
  let? (l, r, c) := node_read s h in
  let? turn := (if negb (r =? 0) then red_left s r else Ok false) in
  if turn then
    let? (s, r) := rotate_right s r in
    let? s := node_write s h l r c in
    let? (s, h) := rotate_left s h in
    let? s := flip s h in
    Ok (s, h)
  else Ok (s, h).

Definition move_red_right (s : M) (h : Z) : result (M * Z) :=
  let? s := flip s h in
  let? (l, _, _) := node_read s h in
  let? turn := (if negb (l =? 0) then red_left s l else Ok false) in
  if turn then
    let? (s, h) := rotate_right s h in
    let? s := flip s h in
    Ok (s, h)
  else Ok (s, h).

(** The recursions are bounded by the height of a tree, see [MAX_DEPTH]. *)
Fixpoint tree_insert (fuel : nat) (s : M) (h address : Z) : result (M * Z) :=
  if h =? 0 then
    let? s := node_write s address 0 0 true in Ok (s, address)
  else match fuel with
  | O => Panic
  | S fuel =>
      let? (l, r, c) := node_read s h in
      let? (s, l, r) := (if address <? h
                         then let? (s, l) := tree_insert fuel s l address in Ok (s, l, r)
                         else let? (s, r) := tree_insert fuel s r address in Ok (s, l, r)) in
      let? s := node_write s h l r c in
      balance s h
  end.

(** A child that is black, as is its left child, needs a red link from its sibling. *)
Definition needs_red (s : M) (child : Z) : result bool :=
  let? c := red s child in
  if negb c then let? c := red_left s child in Ok (negb c) else Ok false.

(** The new root, and the node that was removed. *)
Fixpoint delete_min (fuel : nat) (s : M) (h : Z) : result (M * (Z * Z)) :=
  match fuel with
  | O => Panic
  | S fuel =>
      let? (l, _, _) := node_read s h in
      if l =? 0 then Ok (s, (0, h))
      else
        let? move := needs_red s l in
        let? (s, h) := (if move : bool then move_red_left s h else Ok (s, h)) in
        let? (l, r, c) := node_read s h in
        let? (s, (l, removed)) := delete_min fuel s l in
        let? s := node_write s h l r c in
        let? (s, h) := balance s h in
        Ok (s, (h, removed))
  end.

Fixpoint tree_delete (fuel : nat) (s : M) (h key : Z) : result (M * Z) :=
  match fuel with
  | O => Panic
  | S fuel =>
      if key <? h then
        let? (l, _, _) := node_read s h in
        let? move := needs_red s l in
        let? (s, h) := (if move : bool then move_red_left s h else Ok (s, h)) in
        let? (l, r, c) := node_read s h in
        let? (s, l) := tree_delete fuel s l key in
        let? s := node_write s h l r c in
        balance s h
      else
        let? red_l := red_left s h in
        let? (s, h) := (if red_l : bool then rotate_right s h else Ok (s, h)) in
        let? (_, r, _) := node_read s h in
        if (key =? h) && (r =? 0) then Ok (s, 0)
        else
          let? move := needs_red s r in
          let? (s, h) := (if move : bool then move_red_right s h else Ok (s, h)) in
          let? (l, r, c) := node_read s h in
          if key =? h then
            let? (s, (r, successor)) := delete_min fuel s r in
            let? s := node_write s successor l r c in
            balance s successor
          else
            let? (s, r) := tree_delete fuel s r key in
            let? s := node_write s h l r c in
            balance s h
  end.

Fixpoint tree_contains (fuel : nat) (s : M) (h key : Z) : result bool :=
  if h =? 0 then Ok false
  else if h =? key then Ok true
  else match fuel with
  | O => Panic
  | S fuel =>
      let? (l, r, _) := node_read s h in
      tree_contains fuel s (if key <? h then l else r) key
  end.

Definition tree_remove (fuel : nat) (s : M) (root key : Z) : result (M * Z) :=
  let? (l, r, _) := node_read s root in
  let? red_l := red s l in
  let? redden := (if negb red_l then let? red_r := red s r in Ok (negb red_r) else Ok false) in
  let? s := (if redden : bool then color s root true else Ok s) in
  let? (s, root) := tree_delete fuel s root key in
  let? s := color s root false in
  Ok (s, root).

(** The loop of [smallest]. *)
Fixpoint leftmost (fuel : nat) (s : M) (h : Z) : result Z :=
  match fuel with
  | O => Panic
  | S fuel =>
      let? (l, _, _) := node_read s h in
      if negb (l =? 0) then leftmost fuel s l else Ok h
  end.

(** The new root, and the smallest node or 0. *)
Definition smallest (fuel : nat) (s : M) (root : Z) : result (M * (Z * Z)) :=
  if root =? 0 then Ok (s, (0, 0))
  else
    let? h := leftmost fuel s root in
    let? (s, root) := tree_remove fuel s root h in
    Ok (s, (root, h)).
End operations.

(** Nodes have distinct 64-bit addresses, so the black height is at most 64 and no path is
    longer than this. *)
Definition MAX_DEPTH : nat := 130.

(** ** Trees *)

Inductive tree : Type := E | N (c : bool) (l : tree) (k : Z) (r : tree).

#[export] Instance tree_eq_dec : EqDecision tree.
Proof. solve_decision. Defined.

Definition addr (t : tree) : Z := match t with E => 0 | N _ _ k _ => k end.
Definition tred (t : tree) : bool := match t with E => false | N c _ _ _ => c end.
Definition lft (t : tree) : tree := match t with E => E | N _ l _ _ => l end.
Definition rgt (t : tree) : tree := match t with E => E | N _ _ _ r => r end.
Fixpoint keys (t : tree) : list Z := match t with E => [] | N _ l k r => keys l ++ k :: keys r end.

(** Ordered, with all keys between two bounds. *)
Fixpoint bst (lo hi : Z) (t : tree) : Prop :=
  match t with E => True | N _ l k r => lo < k < hi /\ bst lo k l /\ bst k hi r end.

(** The storage holds the tree. *)
Fixpoint stored `{Nodes M} (s : M) (t : tree) : Prop :=
  match t with
  | E => True
  | N c l k r => backed s k /\ node_read s k = Ok (addr l, addr r, c) /\ stored s l /\ stored s r
  end.

(** The local changes of the operations, on trees. *)
Definition paint (c : bool) (t : tree) : tree := match t with E => E | N _ l k r => N c l k r end.
Definition toggle (t : tree) : tree := paint (negb (tred t)) t.
Definition flipped (t : tree) : tree := match t with E => E | N c l k r => N (negb c) (toggle l) k (toggle r) end.
Definition rotl (t : tree) : tree := match t with N c l k (N _ m p r) => N c (N true l k m) p r | _ => t end.
Definition rotr (t : tree) : tree := match t with N c (N _ l p m) k r => N c l p (N true m k r) | _ => t end.
Definition leaned (t : tree) : tree := if tred (rgt t) && negb (tred (lft t)) then rotl t else t.
Definition turned (t : tree) : tree := if tred (lft t) && tred (lft (lft t)) then rotr t else t.
Definition passed (t : tree) : tree := if tred (lft t) && tred (rgt t) then flipped t else t.
Definition balanced (t : tree) : tree := passed (turned (leaned t)).
Definition moved_left (t : tree) : tree :=
  let t := flipped t in
  if tred (lft (rgt t)) then flipped (rotl match t with N c l k r => N c l k (rotr r) | E => E end) else t.
Definition moved_right (t : tree) : tree :=
  let t := flipped t in
  if tred (lft (lft t)) then flipped (rotr t) else t.

(** ** The operations change the stored tree as the local changes say *)

Section storage.
Context `{NodesLaws M}.

Lemma evolves_refl ks s : evolves ks s s.
Proof. by split. Qed.

Lemma evolves_trans ks s s1 s2 : evolves ks s s1 -> evolves ks s1 s2 -> evolves ks s s2.
Proof.
  intros [A1 A2 A3] [B1 B2 B3]. split; [intros a; by rewrite B1, A1| |intros a z; by rewrite B3, A3].
  intros a Ha Hk. rewrite B2, A2 by (rewrite ?A1; done). done.
Qed.

Lemma evolves_mono ks ks' s s' : evolves ks s s' -> (forall k, k ∈ ks -> k ∈ ks') -> evolves ks' s s'.
Proof. intros [A1 A2 A3] Hs. split; auto. Qed.

Lemma stored_backed s t k : stored s t -> k ∈ keys t -> backed s k.
Proof. induction t as [|c l IHl k0 r IHr]; cbn; [by intros _ ?%not_elem_of_nil|]. rewrite elem_of_app, elem_of_cons. intros (? & _ & ? & ?) [?|[->|?]]; auto. Qed.

Lemma stored_evolves ks s s' t : evolves ks s s' -> (forall k, k ∈ keys t -> k ∉ ks) -> stored s t -> stored s' t.
Proof.
  intros He. induction t as [|c l IHl k r IHr]; cbn; [done|]. intros Hk (Hb & Hr & Hl & Hrr).
  split_and!; [by apply (ev_backed _ _ _ He)| | |].
  - rewrite (ev_read _ _ _ He); [done|done|]. apply Hk, elem_of_app. right. by apply elem_of_cons; left.
  - apply IHl; [|done]. intros x Hx. apply Hk, elem_of_app. by left.
  - apply IHr; [|done]. intros x Hx. apply Hk, elem_of_app. right. apply elem_of_cons. by right.
Qed.

Lemma bst_keys t : forall lo hi x, bst lo hi t -> x ∈ keys t -> lo < x < hi.
Proof.
  induction t as [|c l IHl k r IHr]; cbn; intros lo hi x; [by intros _ ?%not_elem_of_nil|]. rewrite elem_of_app, elem_of_cons.
  intros (Hk & Hl & Hr) [Hx|[->|Hx]]; [|done|]; [apply (IHl _ _ _ Hl) in Hx|apply (IHr _ _ _ Hr) in Hx]; lia.
Qed.

Lemma bst_mono t : forall lo hi lo' hi', bst lo hi t -> lo' <= lo -> hi <= hi' -> bst lo' hi' t.
Proof. induction t as [|c l IHl k r IHr]; cbn; intros lo hi lo' hi'; [done|]. intros (Hk & Hl & Hr) H1 H2. split_and!; [lia|lia|eapply IHl; [done|lia|lia]|eapply IHr; [done|lia|lia]]. Qed.

Lemma stored_link s t : stored s t -> link s (addr t).
Proof. destruct t; [by left|]. intros (? & _). by right. Qed.

Lemma red_ok s t : stored s t -> red s (addr t) = Ok (tred t).
Proof.
  destruct t as [|c l k r]; [done|]. intros (Hb & Hr & _). unfold red. cbn [addr tred]. apply backed_pos in Hb as Hp.
  rewrite (proj2 (Z.eqb_neq _ _)) by lia. by rewrite Hr.
Qed.

Lemma node_wrote s c l k r lo hi : backed s k -> stored s l -> stored s r -> bst lo k l -> bst k hi r ->
  exists s', node_write s k (addr l) (addr r) c = Ok s' /\ stored s' (N c l k r) /\ evolves [k] s s'.
Proof.
  intros Hk Hl Hr Bl Br. destruct (node_write_ok s k (addr l) (addr r) c Hk) as (s' & Hw & Hrd & He); [by apply stored_link..|].
  exists s'. split_and!; [done| |done]. cbn. split_and!; [by apply (ev_backed _ _ _ He)|done| |]; (eapply stored_evolves; [done| |done]).
  - intros x Hx. apply (bst_keys _ _ _ _ Bl) in Hx. rewrite list_elem_of_singleton. lia.
  - intros x Hx. apply (bst_keys _ _ _ _ Br) in Hx. rewrite list_elem_of_singleton. lia.
Qed.

(** What an operation on the tree [t] does: it returns the tree [t'] and writes only nodes of [t]. *)
Definition leaves (s : M) (t : tree) (r : result M) (t' : tree) : Prop :=
  exists s', r = Ok s' /\ stored s' t' /\ evolves (keys t) s s'.
Definition yields (s : M) (t : tree) (r : result (M * Z)) (t' : tree) : Prop :=
  exists s', r = Ok (s', addr t') /\ stored s' t' /\ evolves (keys t) s s'.

(** A subtree that a write among other keys leaves alone. *)
Lemma stored_apart lo hi ks s s' t : evolves ks s s' -> bst lo hi t -> (forall k, k ∈ ks -> k <= lo \/ hi <= k) -> stored s t -> stored s' t.
Proof. intros He Hb Hk. apply (stored_evolves ks s s' t He). intros k Hin Hbad. apply (bst_keys _ _ _ _ Hb) in Hin. apply Hk in Hbad. lia. Qed.

Lemma color_ok lo hi s t c : stored s t -> bst lo hi t -> leaves s t (color s (addr t) c) (paint c t).
Proof.
  destruct t as [|c0 l k r]; intros Hs Hb; [exists s; split_and!; auto using evolves_refl|].
  destruct Hs as (Hk & Hr & Hl & Hrr). destruct Hb as (_ & Bl & Br). unfold color. cbn [addr]. apply backed_pos in Hk as Hp.
  rewrite (proj2 (Z.eqb_neq _ _)) by lia. rewrite Hr. destruct (node_wrote s c l k r _ _ Hk Hl Hrr Bl Br) as (s' & -> & Hs' & He).
  exists s'. split_and!; [done|done|]. eapply evolves_mono; [done|]. cbn. set_solver.
Qed.

Lemma rotate_left_ok lo hi s c l k c' m p r : let t := N c l k (N c' m p r) in stored s t -> bst lo hi t ->
  yields s t (rotate_left s k) (rotl t).
Proof.
  intros t (Bk & Rk & Sl & (Bp & Rp & Sm & Sr)) (Hk & Bl & Hp & Bm & Br). unfold rotate_left. rewrite Rk. cbn [addr]. rewrite Rp.
  destruct (node_wrote s true l k m _ _ Bk Sl Sm Bl Bm) as (s1 & -> & S1 & E1).
  destruct (node_wrote s1 c (N true l k m) p r lo hi) as (s2 & Hw & S2 & E2); [by apply (ev_backed _ _ _ E1)|done| | |done|].
  - eapply (stored_apart p hi); [done..| |done]. intros x ->%list_elem_of_singleton. lia.
  - cbn. split_and!; [lia|lia|done|done].
  - cbn [addr] in Hw. rewrite Hw. exists s2. split_and!; [done|done|]. eapply evolves_trans; (eapply evolves_mono; [done|]); cbn; set_solver.
Qed.

Lemma rotate_right_ok lo hi s c c' l p m k r : let t := N c (N c' l p m) k r in stored s t -> bst lo hi t ->
  yields s t (rotate_right s k) (rotr t).
Proof.
  intros t (Bk & Rk & (Bp & Rp & Sl & Sm) & Sr) (Hk & (Hp & Bl & Bm) & Br). unfold rotate_right. rewrite Rk. cbn [addr]. rewrite Rp.
  destruct (node_wrote s true m k r _ _ Bk Sm Sr Bm Br) as (s1 & -> & S1 & E1).
  destruct (node_wrote s1 c l p (N true m k r) lo hi) as (s2 & Hw & S2 & E2); [by apply (ev_backed _ _ _ E1)| |done|done| |].
  - eapply (stored_apart lo p); [done..| |done]. intros x ->%list_elem_of_singleton. lia.
  - cbn. split_and!; [lia|lia|done|done].
  - cbn [addr] in Hw. rewrite Hw. exists s2. split_and!; [done|done|]. eapply evolves_trans; (eapply evolves_mono; [done|]); cbn; set_solver.
Qed.

Lemma flip_child_ok lo hi s t : stored s t -> bst lo hi t -> leaves s t (flip_child s (addr t)) (toggle t).
Proof.
  intros Hs Hb. unfold flip_child. rewrite red_ok by done. destruct t as [|c l k r]; [by exists s; split_and!; auto using evolves_refl|].
  destruct Hs as (Hk & Hs). apply backed_pos in Hk as Hp. cbn [addr]. rewrite (proj2 (Z.eqb_neq _ _)) by lia. cbn [negb].
  by apply (color_ok lo hi s (N c l k r)).
Qed.

Lemma flip_ok lo hi s t : t <> E -> stored s t -> bst lo hi t -> leaves s t (flip s (addr t)) (flipped t).
Proof.
  destruct t as [|c l k r]; [done|]. intros _ Hs Hb. pose proof Hs as (Bk & Rk & Sl & Sr). pose proof Hb as (Hk & Bl & Br).
  unfold flip. cbn [addr]. rewrite Rk. destruct (color_ok lo hi s _ (negb c) Hs Hb) as (s1 & Hc & (K1 & R1 & S1l & S1r) & E1).
  cbn [addr] in Hc. rewrite Hc. destruct (flip_child_ok lo k s1 l S1l Bl) as (s2 & -> & S2l & E2).
  assert (S2r : stored s2 r). { eapply (stored_apart k hi); [done..| |done]. intros x Hx. apply (bst_keys _ _ _ _ Bl) in Hx. lia. }
  destruct (flip_child_ok k hi s2 r S2r Br) as (s3 & -> & S3r & E3). exists s3. split; [done|].
  assert (E12 : evolves (keys l) s1 s2) by done.
  split; [|eapply evolves_trans; [eapply evolves_trans|]; (eapply evolves_mono; [done|]); cbn; set_solver].
  cbn. assert (Hkl : k ∉ keys l) by (intros Hx; apply (bst_keys _ _ _ _ Bl) in Hx; lia). assert (Hkr : k ∉ keys r) by (intros Hx; apply (bst_keys _ _ _ _ Br) in Hx; lia).
  split_and!.
  - by apply (ev_backed _ _ _ E3), (ev_backed _ _ _ E2).
  - rewrite (ev_read _ _ _ E3), (ev_read _ _ _ E2); [|done|done|by apply (ev_backed _ _ _ E2)|done].
    rewrite R1. by destruct l, r.
  - eapply (stored_apart lo k); [done| | |done]; [by destruct l|]. intros x Hx. apply (bst_keys _ _ _ _ Br) in Hx. lia.
  - done.
Qed.

(** Local changes keep the keys and their order. *)
Record same (t t' : tree) : Prop := {
  same_keys : keys t' = keys t;
  same_bst : forall lo hi, bst lo hi t -> bst lo hi t';
  same_node : t <> E -> t' <> E }.

Lemma same_refl t : same t t.
Proof. by split. Qed.
Lemma same_trans t t1 t2 : same t t1 -> same t1 t2 -> same t t2.
Proof. intros [] []. split; [congruence|auto..]. Qed.
Lemma same_if (b : bool) t t1 t2 : same t t1 -> same t t2 -> same t (if b then t1 else t2).
Proof. by destruct b. Qed.
Lemma same_paint c t : same t (paint c t).
Proof. by destruct t. Qed.
Lemma same_rotl t : same t (rotl t).
Proof.
  destruct t as [|c l k [|c' m p r]]; [done|done|]. split; [cbn; by rewrite <- !(assoc_L (++))| |done].
  intros lo hi. cbn. intros (? & ? & ? & ? & ?). split_and!; (done || lia).
Qed.
Lemma same_rotr t : same t (rotr t).
Proof.
  destruct t as [|c [|c' l p m] k r]; [done|done|]. split; [cbn; by rewrite <- !(assoc_L (++))| |done].
  intros lo hi. cbn. intros (? & (? & ? & ?) & ?). split_and!; (done || lia).
Qed.
Lemma same_flipped t : same t (flipped t).
Proof.
  destruct t as [|c l k r]; [done|]. destruct (same_paint (negb (tred l)) l) as [K1 B1 _], (same_paint (negb (tred r)) r) as [K2 B2 _].
  split; [cbn; unfold toggle; by rewrite K1, K2| |done]. intros lo hi. cbn. unfold toggle. intros (? & ? & ?). split_and!; (lia || auto).
Qed.
Lemma same_leaned t : same t (leaned t).
Proof. apply same_if; [apply same_rotl|apply same_refl]. Qed.
Lemma same_turned t : same t (turned t).
Proof. apply same_if; [apply same_rotr|apply same_refl]. Qed.
Lemma same_passed t : same t (passed t).
Proof. apply same_if; [apply same_flipped|apply same_refl]. Qed.
Lemma same_balanced t : same t (balanced t).
Proof. eapply same_trans; [apply same_leaned|]. eapply same_trans; [apply same_turned|apply same_passed]. Qed.
Lemma same_right c l k r r' : same r r' -> same (N c l k r) (N c l k r').
Proof. intros [K B _]. split; [cbn; by rewrite K| |done]. intros lo hi. cbn. intros (? & ? & ?). split_and!; (lia || auto). Qed.
Lemma same_moved_left t : same t (moved_left t).
Proof.
  unfold moved_left. eapply same_trans; [apply same_flipped|]. destruct (flipped t) as [|c l k r]; [done|]. apply same_if; [|apply same_refl].
  eapply same_trans; [apply same_right, same_rotr|]. eapply same_trans; [apply same_rotl|apply same_flipped].
Qed.
Lemma same_moved_right t : same t (moved_right t).
Proof.
  unfold moved_right. eapply same_trans; [apply same_flipped|]. apply same_if; [|apply same_refl].
  eapply same_trans; [apply same_rotr|apply same_flipped].
Qed.

Lemma read_ok s t : t <> E -> stored s t -> node_read s (addr t) = Ok (addr (lft t), addr (rgt t), tred t).
Proof. destruct t; [done|]. by intros _ (_ & ? & _). Qed.

Lemma stored_lft s t : stored s t -> stored s (lft t).
Proof. destruct t; [done|]. by intros (_ & _ & ? & _). Qed.
Lemma stored_rgt s t : stored s t -> stored s (rgt t).
Proof. destruct t; [done|]. by intros (_ & _ & _ & ?). Qed.

Lemma addr_nonzero s t : t <> E -> stored s t -> (addr t =? 0) = false.
Proof. destruct t as [|c l k r]; [done|]. intros _ (Hk & _). apply backed_pos in Hk. cbn. apply Z.eqb_neq. lia. Qed.

(** An operation after local changes. *)
Lemma yields_after s t t1 s1 r t2 : same t t1 -> evolves (keys t) s s1 -> yields s1 t1 r t2 -> yields s t r t2.
Proof. intros [K _ _] He (s2 & Hr & Hs & He2). exists s2. split_and!; [done|done|]. rewrite K in He2. by eapply evolves_trans. Qed.

Lemma yields_refl s t : stored s t -> yields s t (Ok (s, addr t)) t.
Proof. intros Hs. exists s. split_and!; [done|done|apply evolves_refl]. Qed.

Lemma rotate_left_node lo hi s t : rgt t <> E -> stored s t -> bst lo hi t -> yields s t (rotate_left s (addr t)) (rotl t).
Proof. destruct t as [|c l k [|c' m p r]]; [done|done|]. intros _. apply rotate_left_ok. Qed.
Lemma rotate_right_node lo hi s t : lft t <> E -> stored s t -> bst lo hi t -> yields s t (rotate_right s (addr t)) (rotr t).
Proof. destruct t as [|c [|c' m p r] k r']; [done|done|]. intros _. apply rotate_right_ok. Qed.

Lemma red_left_ok s t : t <> E -> stored s t -> red_left s (addr t) = Ok (tred (lft t)).
Proof. intros Ht Hs. unfold red_left. rewrite read_ok by done. by apply red_ok, stored_lft. Qed.

Lemma red_node t : tred t = true -> t <> E.
Proof. by destruct t. Qed.

Lemma lean_left_ok lo hi s t : t <> E -> stored s t -> bst lo hi t -> yields s t (lean_left s (addr t)) (leaned t).
Proof.
  intros Ht Hs Hb. unfold lean_left, leaned. rewrite read_ok, !red_ok by auto using stored_lft, stored_rgt.
  destruct (tred (rgt t)) eqn:Hr; [destruct (tred (lft t))|]; cbn; try by apply yields_refl. eapply rotate_left_node; eauto using red_node.
Qed.

Lemma turn_right_ok lo hi s t : t <> E -> stored s t -> bst lo hi t -> yields s t (turn_right s (addr t)) (turned t).
Proof.
  intros Ht Hs Hb. unfold turn_right, turned. rewrite read_ok, red_ok by auto using stored_lft.
  destruct (tred (lft t)) eqn:Hl; cbn [andb]; [|by apply yields_refl].
  rewrite red_left_ok by auto using red_node, stored_lft. destruct (tred (lft (lft t))); [eapply rotate_right_node; eauto using red_node|by apply yields_refl].
Qed.

Lemma pass_up_ok lo hi s t : t <> E -> stored s t -> bst lo hi t -> yields s t (pass_up s (addr t)) (passed t).
Proof.
  intros Ht Hs Hb. unfold pass_up, passed. rewrite read_ok, !red_ok by auto using stored_lft, stored_rgt.
  destruct (tred (lft t)); cbn [andb]; [destruct (tred (rgt t))|]; try by apply yields_refl.
  destruct (flip_ok lo hi s t Ht Hs Hb) as (s' & -> & Hs' & He). exists s'. split_and!; [by destruct t|done|done].
Qed.

(** Two operations in a row. *)
Lemma yields_bind s t r t1 f t2 : same t t1 -> yields s t r t1 -> (forall s1, stored s1 t1 -> yields s1 t1 (f s1 (addr t1)) t2) ->
  yields s t (let? (s, h) := r in f s h) t2.
Proof. intros Hsame (s1 & -> & S1 & E1) Hf. eapply yields_after; [done|done|]. by apply Hf. Qed.

Lemma balance_ok lo hi s t : t <> E -> stored s t -> bst lo hi t -> yields s t (balance s (addr t)) (balanced t).
Proof.
  intros Ht Hs Hb. pose proof (same_leaned t) as H1. pose proof (same_turned (leaned t)) as H2.
  pose proof (same_node _ _ H1 Ht) as Ht1. pose proof (same_node _ _ H2 Ht1) as Ht2. apply (same_bst _ _ H1) in Hb as Hb1. apply (same_bst _ _ H2) in Hb1 as Hb2.
  eapply yields_bind; [exact H1|by eapply lean_left_ok|]. intros s1 S1. eapply yields_bind; [exact H2|by eapply turn_right_ok|].
  intros s2 S2. by eapply pass_up_ok.
Qed.

Lemma yields_flip lo hi s t : t <> E -> stored s t -> bst lo hi t -> yields s t (let? s := flip s (addr t) in Ok (s, addr t)) (flipped t).
Proof.
  intros Ht Hs Hb. destruct (flip_ok lo hi s t Ht Hs Hb) as (s' & -> & Hs' & He). exists s'. split_and!; [by destruct t|done|done].
Qed.

(** Whether a child that may be missing has a red left child. *)
Lemma red_grandchild s t : stored s t -> (if negb (addr t =? 0) then red_left s (addr t) else Ok false) = Ok (tred (lft t)).
Proof.
  intros Hs. destruct t as [|c l k r] eqn:Ht; [done|]. rewrite <- Ht in *. rewrite (addr_nonzero s), red_left_ok by (by subst). done.
Qed.

Lemma move_red_right_ok lo hi s t : t <> E -> stored s t -> bst lo hi t -> yields s t (move_red_right s (addr t)) (moved_right t).
Proof.
  intros Ht Hs Hb. unfold move_red_right, moved_right. destruct (flip_ok lo hi s t Ht Hs Hb) as (s1 & -> & S1 & E1).
  pose proof (same_flipped t) as H1. pose proof (same_node _ _ H1 Ht) as Ht1. apply (same_bst _ _ H1) in Hb as Hb1.
  replace (addr t) with (addr (flipped t)) by by destruct t. eapply yields_after; [done|done|]. set (t1 := flipped t) in *. clearbody t1.
  rewrite read_ok, red_grandchild by auto using stored_lft. destruct (tred (lft (lft t1))) eqn:Hll; [|by apply yields_refl].
  pose proof (same_rotr t1) as H2. eapply yields_bind; [exact H2|eapply rotate_right_node; eauto; by intros Hl; rewrite Hl in Hll|].
  intros s2 S2. eapply yields_flip; [by apply (same_node _ _ H2)|done|by apply (same_bst _ _ H2)].
Qed.

(** A node with a new left or right child. *)
Lemma write_left_ok lo hi ks s c l k r s1 l1 : stored s (N c l k r) -> bst lo hi (N c l k r) -> evolves ks s s1 ->
  (forall x, x ∈ ks -> x < k) -> stored s1 l1 -> bst lo k l1 ->
  exists s2, node_write s1 k (addr l1) (addr r) c = Ok s2 /\ stored s2 (N c l1 k r) /\ evolves (k :: ks) s s2.
Proof.
  intros (Hk & _ & _ & Sr) (_ & _ & Br) E1 Hks S1 B1. destruct (node_wrote s1 c l1 k r lo hi) as (s2 & Hw & S2 & E2); try done.
  - by apply (ev_backed _ _ _ E1).
  - eapply (stored_apart k hi); [done..| |done]. intros x Hx%Hks. lia.
  - exists s2. split_and!; [done|done|]. eapply evolves_trans; (eapply evolves_mono; [done|]); set_solver.
Qed.

Lemma write_right_ok lo hi ks s c l k r s1 r1 : stored s (N c l k r) -> bst lo hi (N c l k r) -> evolves ks s s1 ->
  (forall x, x ∈ ks -> k < x) -> stored s1 r1 -> bst k hi r1 ->
  exists s2, node_write s1 k (addr l) (addr r1) c = Ok s2 /\ stored s2 (N c l k r1) /\ evolves (k :: ks) s s2.
Proof.
  intros (Hk & _ & Sl & _) (_ & Bl & _) E1 Hks S1 B1. destruct (node_wrote s1 c l k r1 lo hi) as (s2 & Hw & S2 & E2); try done.
  - by apply (ev_backed _ _ _ E1).
  - eapply (stored_apart lo k); [done..| |done]. intros x Hx%Hks. lia.
  - exists s2. split_and!; [done|done|]. eapply evolves_trans; (eapply evolves_mono; [done|]); set_solver.
Qed.

Lemma move_red_left_ok lo hi s t : t <> E -> stored s t -> bst lo hi t -> yields s t (move_red_left s (addr t)) (moved_left t).
Proof.
  intros Ht Hs Hb. unfold move_red_left, moved_left. destruct (flip_ok lo hi s t Ht Hs Hb) as (s1 & -> & S1 & E1).
  pose proof (same_flipped t) as H1. pose proof (same_node _ _ H1 Ht) as Ht1. apply (same_bst _ _ H1) in Hb as Hb1.
  replace (addr t) with (addr (flipped t)) by by destruct t. eapply yields_after; [done|done|]. set (t1 := flipped t) in *. clearbody t1.
  rewrite read_ok, red_grandchild by auto using stored_rgt. destruct (tred (lft (rgt t1))) eqn:Hrl; [|by apply yields_refl].
  destruct t1 as [|c l k r]; [done|]. cbn [lft rgt addr tred] in *. pose proof (same_rotr r) as H2. pose proof Hb1 as (_ & _ & Br).
  destruct (rotate_right_node k hi s1 r) as (s2 & -> & S2 & E2); [by intros Hl; rewrite Hl in Hrl|by apply (stored_rgt s1 (N c l k r))|done|].
  destruct (write_right_ok lo hi (keys r) s1 c l k r s2 (rotr r)) as (s3 & -> & S3 & E3); [done|done|done| |done|by apply (same_bst _ _ H2)|].
  { intros x Hx. apply (bst_keys _ _ _ _ Br) in Hx. lia. } pose proof (same_right c l k _ _ H2) as H3.
  eapply yields_after; [exact H3|eapply evolves_mono; [exact E3|cbn; set_solver]|]. pose proof (same_rotl (N c l k (rotr r))) as H4. apply (same_bst _ _ H3) in Hb1 as Hb3.
  assert (Hr : rotr r <> E). { apply (same_node _ _ H2). by intros ->. }
  change k with (addr (N c l k (rotr r))). eapply yields_bind; [exact H4|by eapply rotate_left_node|].
  intros s4 S4. eapply yields_flip; [by apply (same_node _ _ H4)|done|by apply (same_bst _ _ H4)].
Qed.
End storage.

(** ** The red-black invariant

    No right link is red, no two red links follow each other, and every path has [n] black nodes. *)
Fixpoint rb (n : nat) (t : tree) : Prop :=
  match t with
  | E => n = 0%nat
  | N true l _ r => rb n l /\ rb n r /\ tred l = false /\ tred r = false
  | N false l _ r => match n with O => False | S m => rb m l /\ rb m r /\ tred r = false end
  end.

(** A red node whose left child may be red too. *)
Definition almost (n : nat) (t : tree) : Prop :=
  match t with N true l _ r => rb n l /\ rb n r /\ tred r = false | _ => rb n t end.

Lemma rb_almost n t : rb n t -> almost n t.
Proof. destruct t as [|[] l k r]; cbn; naive_solver. Qed.

Lemma rb_red_lft n t : rb n t -> tred t = true -> tred (lft t) = false.
Proof. destruct t as [|[] l k r]; cbn; naive_solver. Qed.

Lemma rb_paint_black n t : almost n t -> exists m, rb m (paint false t).
Proof. destruct t as [|[] l k r]; cbn; [by exists 0%nat|intros (? & ? & ?); by exists (S n)|]. destruct n; [done|]. intros ?. by exists (S n). Qed.

(** What [balance] repairs. *)
Lemma balanced_black m l k r : rb m l -> rb m r ->
  rb (S m) (balanced (N false l k r)) /\ (tred l = false \/ tred r = false -> tred (balanced (N false l k r)) = false).
Proof.
  intros Hl Hr. unfold balanced, leaned. cbn [lft rgt]. destruct (tred r) eqn:Er; cbn [andb]; [destruct (tred l) eqn:El; cbn [negb]|].
  - unfold turned. cbn [lft]. rewrite El, (rb_red_lft m l Hl El). cbn [andb]. unfold passed. cbn [lft rgt]. rewrite El, Er. cbn [andb flipped].
    destruct l as [|[] ll lk lr]; [done| |done]. destruct r as [|[] rl rk rr]; [done| |done]. cbn in *. naive_solver.
  - destruct r as [|[] rl rk rr]; [done| |done]. destruct Hr as (Hrl & Hrr & Erl & Err). cbn [rotl]. unfold turned. cbn [lft tred]. rewrite El. cbn [andb].
    unfold passed. cbn [lft rgt tred andb]. rewrite Err. cbn. naive_solver.
  - unfold turned. cbn [lft]. assert (Hll : tred l && tred (lft l) = false) by (destruct (tred l) eqn:El; [by rewrite (rb_red_lft m l)|done]). rewrite Hll.
    unfold passed. cbn [lft rgt]. rewrite Er, andb_false_r. cbn. naive_solver.
Qed.

Lemma balanced_red n l k r : rb n l -> rb n r -> tred l = false -> tred r = false -> balanced (N true l k r) = N true l k r.
Proof.
  intros Hl Hr El Er. unfold balanced, leaned. cbn [lft rgt]. rewrite Er. cbn [andb]. unfold turned. cbn [lft]. rewrite El. cbn [andb].
  unfold passed. cbn [lft]. by rewrite El.
Qed.

Lemma balanced_red_ok n l k r : rb n l -> rb n r -> tred l = false -> tred r = false ->
  rb n (balanced (N true l k r)) /\ (true = false -> tred (balanced (N true l k r)) = false).
Proof. intros. by rewrite (balanced_red n). Qed.

Lemma balanced_red_left n l k r : rb n l -> rb n r -> tred r = false -> almost n (balanced (N true l k r)).
Proof.
  intros Hl Hr Er. unfold balanced, leaned. cbn [lft rgt]. rewrite Er. cbn [andb]. unfold turned. cbn [lft].
  assert (Hll : tred l && tred (lft l) = false) by (destruct (tred l) eqn:El; [by rewrite (rb_red_lft n l)|done]). rewrite Hll.
  unfold passed. cbn [lft rgt]. rewrite Er, andb_false_r. done.
Qed.

Lemma balanced_red_right n l k r : rb n l -> rb n r -> tred l = false -> almost n (balanced (N true l k r)).
Proof.
  intros Hl Hr El. destruct (tred r) eqn:Er; [|by rewrite (balanced_red n) by done]. unfold balanced, leaned. cbn [lft rgt]. rewrite Er, El. cbn [andb negb].
  destruct r as [|[] rl rk rr]; [done| |done]. destruct Hr as (Hrl & Hrr & Erl & Err). cbn [rotl]. unfold turned. cbn [lft tred]. rewrite El. cbn [andb].
  unfold passed. cbn [lft rgt tred andb]. rewrite Err. cbn. naive_solver.
Qed.

Lemma balanced_black_left m l k r : almost m l -> rb m r -> tred r = false -> rb (S m) (balanced (N false l k r)).
Proof.
  intros Hl Hr Er. destruct l as [|[] ll lk lr]; try by apply balanced_black. destruct Hl as (Hll & Hlr & Elr).
  destruct (tred ll) eqn:Ell; [|by apply balanced_black].
  unfold balanced, leaned. cbn [lft rgt]. rewrite Er. cbn [andb]. unfold turned. cbn [lft tred]. rewrite Ell. cbn [andb rotr]. unfold passed. cbn [lft rgt tred]. rewrite Ell.
  cbn [andb flipped]. destruct ll as [|[] a x b]; [done| |done]. cbn in *. naive_solver.
Qed.

(** What a red link taken from a sibling leaves. *)
Lemma moved_left_ok m l k r : rb (S m) (N true l k r) -> tred (lft l) = false ->
  (exists l' k' r', moved_left (N true l k r) = N false l' k' r' /\ k' = k /\ rb m l' /\ tred l' = true /\ rb m r' /\ tred r' = true)
  \/ (exists l' k' r', moved_left (N true l k r) = N true l' k' r' /\ k' ∈ keys r /\ rb (S m) l' /\ rb (S m) r' /\ tred l' = false /\ tred (lft l') = true /\ tred r' = false).
Proof.
  intros (Hl & Hr & El & Er) Ell. destruct l as [|[] ll lk lr]; [done|done|]. destruct r as [|[] rl rk rr]; [done|done|].
  destruct Hl as (Hll & Hlr & Elr), Hr as (Hrl & Hrr & Err). cbn [lft] in Ell. unfold moved_left. cbn [flipped toggle paint tred negb rgt lft].
  destruct (tred rl) eqn:Erl.
  - right. destruct rl as [|[] a x b]; [done| |done]. destruct Hrl as (Ha & Hb & Ea & Eb). cbn [rotr rotl flipped toggle paint tred negb].
    eexists _, _, _. split; [done|]. cbn. set_solver.
  - left. eexists _, _, _. split; [done|]. cbn. naive_solver.
Qed.

Lemma moved_right_ok m l k r : rb (S m) (N true l k r) -> tred (lft r) = false ->
  (exists l' k' r', moved_right (N true l k r) = N false l' k' r' /\ k' = k /\ rb m l' /\ tred l' = true /\ rb m r' /\ tred r' = true)
  \/ (exists l' k' b r', moved_right (N true l k r) = N true l' k' (N false b k r') /\ k' ∈ keys l /\ rb (S m) l' /\ tred l' = false
       /\ rb m b /\ rb m r' /\ tred b = false /\ tred r' = true).
Proof.
  intros (Hl & Hr & El & Er) Erl. destruct l as [|[] ll lk lr]; [done|done|]. destruct r as [|[] rl rk rr]; [done|done|].
  destruct Hl as (Hll & Hlr & Elr), Hr as (Hrl & Hrr & Err). cbn [lft] in Erl. unfold moved_right. cbn [flipped toggle paint tred negb rgt lft].
  destruct (tred ll) eqn:Ell.
  - right. destruct ll as [|[] a x b]; [done| |done]. destruct Hll as (Ha & Hb & Ea & Eb). cbn [rotr rotl flipped toggle paint tred negb].
    eexists _, _, _, _. split; [done|]. cbn. set_solver.
  - left. eexists _, _, _. split; [done|]. cbn. naive_solver.
Qed.

(** ** Insertion and deletion *)

(** No path is longer than this. *)
Definition depth (n : nat) (t : tree) : nat := 2 * n + if tred t then 1 else 0.

Lemma depth_le n t : (depth n t <= 2 * n + 1)%nat.
Proof. unfold depth. destruct (tred t); lia. Qed.

(** A black node with a red right child only, which rotations on the way to a key leave. *)
Definition leans (n : nat) (t : tree) : Prop :=
  match n, t with S p, N false l _ r => rb p l /\ rb p r /\ tred l = false /\ tred r = true | _, _ => False end.

(** A node into which deletion may descend: it is red or has a red child on the way. *)
Definition loose (n : nat) (t : tree) : Prop := rb n t /\ tred t || tred (lft t) = true.

Ltac loose_side := first [done | by rewrite orb_true_r | by left | by left; split_and!; [done|done|rewrite orb_true_r] | cbn; lia].

(** Descending to the left: the node, its left child, and what a smaller left child makes of it. *)
Lemma left_ready n c l k r lo hi : loose n (N c l k r) -> l <> E -> bst lo hi (N c l k r) ->
  let t1 := if negb (tred l) && negb (tred (lft l)) then moved_left (N c l k r) else N c l k r in
  exists c' l' k' r' m, t1 = N c' l' k' r' /\ k <= k' /\ loose m l' /\ (depth m l' < depth n (N c l k r))%nat
    /\ forall l'', rb m l'' -> (tred l' = false -> tred l'' = false) ->
         rb n (balanced (N c' l'' k' r')) /\ (c = false -> tred (balanced (N c' l'' k' r')) = false).
Proof.
  intros [Hn Hred] Hl (_ & _ & Br). cbn zeta. unfold depth. destruct c.
  - destruct n as [|m]; [destruct l as [|[] ? ? ?]; cbn in Hn; naive_solver|]. pose proof Hn as (Rl & Rr & El & Er). rewrite El. cbn [negb andb].
    destruct (tred (lft l)) eqn:Ell; cbn [negb].
    + exists true, l, k, r, (S m). rewrite El. unfold loose. rewrite Ell. split_and!; try loose_side. intros l'' R'' E''. apply balanced_red_ok; auto.
    + destruct (moved_left_ok m l k r Hn Ell) as [(l' & k' & r' & -> & -> & A1 & A2 & A3 & A4)|(l' & k' & r' & -> & A0 & A1 & A2 & A3 & A4 & A5)].
      * exists false, l', k, r', m. rewrite A2. unfold loose. rewrite A2. split_and!; try loose_side. intros l'' R'' _. split; [by apply balanced_black|done].
      * exists true, l', k', r', (S m). rewrite A3. unfold loose. rewrite A4. split_and!; try loose_side; [apply (bst_keys _ _ _ _ Br) in A0; lia|].
        intros l'' R'' E''. apply balanced_red_ok; auto.
  - destruct n as [|m]; [done|]. destruct Hn as (Rl & Rr & Er). cbn in Hred. rewrite Hred. cbn [negb andb].
    exists false, l, k, r, m. rewrite Hred. unfold loose. rewrite Hred. split_and!; try loose_side. intros l'' R'' _. destruct (balanced_black m l'' k r R'' Rr). auto.
Qed.

(** Descending to the right, also when the successor takes the node's place. *)
Lemma right_ready n c l k r lo hi : rb n (N c l k r) /\ c = true \/ leans n (N c l k r) -> r <> E -> bst lo hi (N c l k r) ->
  let t1 := if negb (tred r) && negb (tred (lft r)) then moved_right (N c l k r) else N c l k r in
  exists c' l' k' r' m, t1 = N c' l' k' r' /\ (k' = k /\ loose m r' \/ k' < k /\ leans m r' /\ addr r' = k) /\ (depth m r' < depth n (N c l k r))%nat
    /\ forall x r'', rb m r'' -> (tred r' = false -> tred r'' = false) ->
         rb n (balanced (N c' l' x r'')) /\ (c = false -> tred (balanced (N c' l' x r'')) = false).
Proof.
  intros Hn Hr (_ & Bl & _). cbn zeta. unfold depth. destruct Hn as [[Hn ->]|Hn].
  - destruct n as [|m]; [destruct r as [|[] ? ? ?]; cbn in Hn; naive_solver|]. pose proof Hn as (Rl & Rr & El & Er). rewrite Er. cbn [negb andb].
    destruct (tred (lft r)) eqn:Erl; cbn [negb].
    + exists true, l, k, r, (S m). rewrite Er. unfold loose. rewrite Erl. split_and!; try loose_side.
      intros x r'' R'' E''. apply balanced_red_ok; auto.
    + destruct (moved_right_ok m l k r Hn Erl) as [(l' & k' & r' & -> & -> & A1 & A2 & A3 & A4)|(l' & k' & b & r' & -> & A0 & A1 & A2 & A3 & A4 & A5 & A6)].
      * exists false, l', k, r', m. rewrite A4. unfold loose. rewrite A4. split_and!; try loose_side. intros x r'' R'' _. split; [by apply balanced_black|done].
      * exists true, l', k', (N false b k r'), (S m). split_and!; [done| |cbn; lia|].
        -- right. split_and!; [apply (bst_keys _ _ _ _ Bl) in A0; lia|done|done].
        -- intros x r'' R'' E''. apply balanced_red_ok; auto.
  - destruct n as [|m]; [done|]. destruct c; [done|]. destruct Hn as (Rl & Rr & El & Er). rewrite Er. cbn [negb andb].
    exists false, l, k, r, m. rewrite Er. unfold loose. rewrite Er. split_and!; try loose_side. intros x r'' R'' _. destruct (balanced_black m l x r'' Rl R''). auto.
Qed.

Section correctness.
Context `{NodesLaws M}.

(** Balancing the node that was written. *)
Lemma finish_ok lo hi ks s s2 c l k r : stored s2 (N c l k r) -> bst lo hi (N c l k r) -> evolves ks s s2 -> (forall x, x ∈ keys (N c l k r) -> x ∈ ks) ->
  exists s3, balance s2 k = Ok (s3, addr (balanced (N c l k r))) /\ stored s3 (balanced (N c l k r)) /\ evolves ks s s3.
Proof.
  intros S2 B2 E2 Hks. destruct (balance_ok lo hi s2 (N c l k r)) as (s3 & Hb & S3 & E3); [done..|]. exists s3. split_and!; [done|done|].
  eapply evolves_trans; [done|]. by eapply evolves_mono.
Qed.

(** What insertion achieves. *)
Record inserted (s : M) (t : tree) (n : nat) (lo hi a : Z) (s' : M) (t' : tree) : Prop := {
  in_stored : stored s' t';
  in_bst : bst lo hi t';
  in_evolves : evolves (a :: keys t) s s';
  in_keys x : x ∈ keys t' <-> x = a \/ x ∈ keys t;
  in_almost : almost n t';
  in_rb : tred t = false -> rb n t' }.

Lemma rb_child n c l k r : rb n (N c l k r) -> exists m, rb m l /\ rb m r /\ tred r = false /\ (if c then m = n /\ tred l = false else n = S m)
  /\ (depth m l < depth n (N c l k r))%nat /\ (depth m r < depth n (N c l k r))%nat.
Proof.
  unfold depth. destruct c; cbn; [intros (? & ? & El & Er); exists n; rewrite El, Er; split_and!; (done || lia)|].
  destruct n as [|m]; [done|]. intros (? & ? & Er). exists m. rewrite Er. destruct (tred l); split_and!; (done || lia).
Qed.

Lemma insert_ok fuel : forall s t n lo hi a, stored s t -> bst lo hi t -> rb n t -> backed s a -> a ∉ keys t -> lo < a < hi -> (depth n t <= fuel)%nat ->
  exists s' t', tree_insert fuel s (addr t) a = Ok (s', addr t') /\ inserted s t n lo hi a s' t'.
Proof.
  induction fuel as [|fuel IH]; intros s [|c l k r] n lo hi a Hs Hb Hn Ha Hnot Hlim Hd; cbn [tree_insert addr].
  1,3: destruct (node_wrote s true E a E lo hi) as (s' & Hw & S' & E'); [done..|]; cbn [addr] in Hw; rewrite Hw; exists s', (N true E a E);
    split; [done|]; cbn in Hn; subst n; split; [done|cbn; split_and!; (done || lia)|done|cbn; set_solver|done|done].
  { apply rb_child in Hn as (m & _ & _ & _ & _ & Hd1 & _). lia. }
  destruct (rb_child _ _ _ _ _ Hn) as (m & Hl & Hr & Er & Hc & Dl & Dr). pose proof Hs as (Hk & Hread & Sl & Sr). pose proof Hb as (Hkk & Bl & Br).
  apply backed_pos in Hk as Hp. rewrite (proj2 (Z.eqb_neq k 0)) by lia. rewrite Hread. cbn in Hnot. rewrite elem_of_app, elem_of_cons in Hnot.
  destruct (Z.ltb_spec a k) as [Hlt|Hge].
  - destruct (IH s l m lo k a) as (s1 & l1 & -> & [I1 I2 I3 I4 I5 I6]); [done|done|done|done|tauto|lia|lia|].
    destruct (write_left_ok lo hi (a :: keys l) s c l k r s1 l1) as (s2 & -> & S2 & E2); [done|done|done| |done|done|].
    { intros x [->|Hx]%elem_of_cons; [done|]. apply (bst_keys _ _ _ _ Bl) in Hx. lia. }
    assert (B2 : bst lo hi (N c l1 k r)) by (cbn; split_and!; (done || lia)).
    destruct (finish_ok lo hi (a :: keys (N c l k r)) s s2 c l1 k r S2 B2) as (s3 & -> & S3 & E3); [eapply evolves_mono; [done|cbn; set_solver]|cbn; set_solver|].
    pose proof (same_balanced (N c l1 k r)) as Hsame. exists s3, (balanced (N c l1 k r)). split; [done|].
    split; [done|by apply (same_bst _ _ Hsame)|done|intros x; rewrite (same_keys _ _ Hsame); cbn; set_solver| |].
    + destruct c; [destruct Hc as [-> El]; apply balanced_red_left; auto|]. subst n. by apply rb_almost, balanced_black_left.
    + destruct c; [done|]. intros _. subst n. by apply balanced_black_left.
  - assert (k < a) by (destruct (decide (a = k)) as [->|]; [tauto|lia]).
    destruct (IH s r m k hi a) as (s1 & r1 & -> & [I1 I2 I3 I4 I5 I6]); [done|done|done|done|tauto|lia|lia|].
    destruct (write_right_ok lo hi (a :: keys r) s c l k r s1 r1) as (s2 & -> & S2 & E2); [done|done|done| |done|done|].
    { intros x [->|Hx]%elem_of_cons; [done|]. apply (bst_keys _ _ _ _ Br) in Hx. lia. }
    assert (B2 : bst lo hi (N c l k r1)) by (cbn; split_and!; (done || lia)).
    destruct (finish_ok lo hi (a :: keys (N c l k r)) s s2 c l k r1 S2 B2) as (s3 & -> & S3 & E3); [eapply evolves_mono; [done|cbn; set_solver]|cbn; set_solver|].
    pose proof (same_balanced (N c l k r1)) as Hsame. exists s3, (balanced (N c l k r1)). split; [done|].
    split; [done|by apply (same_bst _ _ Hsame)|done|intros x; rewrite (same_keys _ _ Hsame); cbn; set_solver| |].
    + destruct c; [destruct Hc as [-> El]; apply balanced_red_right; auto|]. subst n. by apply rb_almost, balanced_black; auto.
    + destruct c; [done|]. intros _. subst n. by apply balanced_black; auto.
Qed.

Lemma needs_red_ok s t : t <> E -> stored s t -> needs_red s (addr t) = Ok (negb (tred t) && negb (tred (lft t))).
Proof. intros Ht Hs. unfold needs_red. rewrite red_ok, red_left_ok by done. by destruct (tred t). Qed.

(** The move before descending. *)
Lemma move_left_ok lo hi s t b : t <> E -> stored s t -> bst lo hi t ->
  yields s t (if b : bool then move_red_left s (addr t) else Ok (s, addr t)) (if b then moved_left t else t) /\ same t (if b then moved_left t else t).
Proof. intros Ht Hs Hb. destruct b; split; [by eapply move_red_left_ok|apply same_moved_left|by apply yields_refl|apply same_refl]. Qed.

Lemma move_right_ok lo hi s t b : t <> E -> stored s t -> bst lo hi t ->
  yields s t (if b : bool then move_red_right s (addr t) else Ok (s, addr t)) (if b then moved_right t else t) /\ same t (if b then moved_right t else t).
Proof. intros Ht Hs Hb. destruct b; split; [by eapply move_red_right_ok|apply same_moved_right|by apply yields_refl|apply same_refl]. Qed.

(** What removing a key achieves. *)
Record removed (s : M) (t : tree) (n : nat) (lo hi key : Z) (s' : M) (t' : tree) : Prop := {
  rm_stored : stored s' t';
  rm_bst : bst lo hi t';
  rm_evolves : evolves (keys t) s s';
  rm_keys x : x ∈ keys t' <-> x <> key /\ x ∈ keys t;
  rm_rb : rb n t';
  rm_black : tred t = false -> tred t' = false }.

(** Writing and balancing the node above a subtree from which a key was removed. *)
Lemma removed_left n lo hi s t s1 c l k r m key s2 l2 : same t (N c l k r) -> bst lo hi t -> evolves (keys t) s s1 -> stored s1 (N c l k r) ->
  key ∈ keys l -> removed s1 l m lo k key s2 l2 ->
  rb n (balanced (N c l2 k r)) -> (tred t = false -> tred (balanced (N c l2 k r)) = false) ->
  exists s3 s', node_write s2 k (addr l2) (addr r) c = Ok s3 /\ balance s3 k = Ok (s', addr (balanced (N c l2 k r)))
    /\ removed s t n lo hi key s' (balanced (N c l2 k r)).
Proof.
  intros Hsame Hb He Hs Hin [R1 R2 R3 R4 R5 R6] Hrb Hbl. apply (same_bst _ _ Hsame) in Hb as Hb1. pose proof Hb1 as (Hk & Bl & Br).
  destruct (write_left_ok lo hi (keys l) s1 c l k r s2 l2) as (s3 & Hw3 & S3 & E3); [done|done|done| |done|done|].
  { intros x Hx. apply (bst_keys _ _ _ _ Bl) in Hx. lia. }
  assert (B3 : bst lo hi (N c l2 k r)) by (cbn; split_and!; (done || lia)). pose proof (same_keys _ _ Hsame) as Hkeys. cbn in Hkeys.
  destruct (finish_ok lo hi (keys t) s s3 c l2 k r S3 B3) as (s4 & Hb4 & S4 & E4).
  { eapply evolves_trans; [done|]. eapply evolves_mono; [done|]. rewrite <- Hkeys. set_solver. }
  { rewrite <- Hkeys. cbn. set_solver. }
  pose proof (same_balanced (N c l2 k r)) as Hs2. exists s3, s4. split_and!; [done|done|]. split; try done; [by apply (same_bst _ _ Hs2)|].
  intros x. rewrite (same_keys _ _ Hs2), <- Hkeys. cbn. rewrite !elem_of_app, !elem_of_cons, R4.
  apply (bst_keys _ _ _ _ Bl) in Hin. split; [|tauto]. intros [?|[->|Hx]]; [tauto|split; [lia|tauto]|]. apply (bst_keys _ _ _ _ Br) in Hx as ?. split; [lia|tauto].
Qed.

Lemma removed_right n lo hi s t s1 c l k r m key s2 r2 : same t (N c l k r) -> bst lo hi t -> evolves (keys t) s s1 -> stored s1 (N c l k r) ->
  key ∈ keys r -> removed s1 r m k hi key s2 r2 ->
  rb n (balanced (N c l k r2)) -> (tred t = false -> tred (balanced (N c l k r2)) = false) ->
  exists s3 s', node_write s2 k (addr l) (addr r2) c = Ok s3 /\ balance s3 k = Ok (s', addr (balanced (N c l k r2)))
    /\ removed s t n lo hi key s' (balanced (N c l k r2)).
Proof.
  intros Hsame Hb He Hs Hin [R1 R2 R3 R4 R5 R6] Hrb Hbl. apply (same_bst _ _ Hsame) in Hb as Hb1. pose proof Hb1 as (Hk & Bl & Br).
  destruct (write_right_ok lo hi (keys r) s1 c l k r s2 r2) as (s3 & Hw3 & S3 & E3); [done|done|done| |done|done|].
  { intros x Hx. apply (bst_keys _ _ _ _ Br) in Hx. lia. }
  assert (B3 : bst lo hi (N c l k r2)) by (cbn; split_and!; (done || lia)). pose proof (same_keys _ _ Hsame) as Hkeys. cbn in Hkeys.
  destruct (finish_ok lo hi (keys t) s s3 c l k r2 S3 B3) as (s4 & Hb4 & S4 & E4).
  { eapply evolves_trans; [done|]. eapply evolves_mono; [done|]. rewrite <- Hkeys. set_solver. }
  { rewrite <- Hkeys. cbn. set_solver. }
  pose proof (same_balanced (N c l k r2)) as Hs2. exists s3, s4. split_and!; [done|done|]. split; try done; [by apply (same_bst _ _ Hs2)|].
  intros x. rewrite (same_keys _ _ Hs2), <- Hkeys. cbn. rewrite !elem_of_app, !elem_of_cons, R4.
  apply (bst_keys _ _ _ _ Br) in Hin. split; [|tauto]. intros [Hx|[->|?]]; [|split; [lia|tauto]|tauto]. apply (bst_keys _ _ _ _ Bl) in Hx as ?. split; [lia|tauto].
Qed.

Lemma delete_min_ok fuel : forall s t n lo hi, t <> E -> stored s t -> bst lo hi t -> loose n t -> (depth n t < fuel)%nat ->
  exists s' t' k, delete_min fuel s (addr t) = Ok (s', (addr t', k)) /\ k ∈ keys t /\ removed s t n lo hi k s' t' /\ bst k hi t'.
Proof.
  induction fuel as [|fuel IH]; intros s t n lo hi Ht Hs Hb Hn Hd; [lia|]. cbn [delete_min]. rewrite read_ok by done.
  destruct t as [|c l k r]; [done|]. clear Ht. cbn [lft rgt addr]. destruct (decide (l = E)) as [->|Hl].
  - cbn [addr]. rewrite Z.eqb_refl. exists s, E, k. destruct Hn as [Hn Hred]. destruct c; [|cbn in Hred; done]. cbn in Hn. destruct Hn as (-> & Hr & _ & Er).
    destruct r as [|[] ? ? ?]; [|done|done]. split_and!; [done|cbn; set_solver| |done]. split; [done|done|apply evolves_refl|cbn; set_solver|done|done].
  - rewrite (addr_nonzero s) by (done || apply (stored_lft s (N c l k r)); done). rewrite needs_red_ok by (done || apply (stored_lft s (N c l k r)); done).
    destruct (move_left_ok lo hi s (N c l k r) (negb (tred l) && negb (tred (lft l)))) as [(s1 & Hm & S1 & E1) Hsame]; [done..|]. cbn [addr] in Hm. rewrite Hm.
    destruct (left_ready n c l k r lo hi Hn Hl Hb) as (c' & l' & k' & r' & m & Ht1 & _ & Hloose & Hdep & Hbal). rewrite Ht1 in *.
    rewrite (read_ok s1) by done. cbn [lft rgt tred addr]. apply (same_bst _ _ Hsame) in Hb as Hb1. pose proof Hb1 as (Hk' & Bl & Br).
    destruct (IH s1 l' m lo k') as (s2 & l2 & x & -> & Hin & Hrm & Bx); [|by apply (stored_lft s1 (N c' l' k' r'))|done|done|lia|].
    { intros ->. destruct Hloose as [_ ?]. done. }
    destruct (Hbal l2) as [Hrb Hbl]; [apply Hrm|apply Hrm|].
    destruct (removed_left n lo hi s (N c l k r) s1 c' l' k' r' m x s2 l2) as (s3 & s4 & -> & -> & Hrm4); [done..|].
    exists s4, (balanced (N c' l2 k' r')), x. split_and!; [done| |done|].
    + rewrite <- (same_keys _ _ Hsame). cbn. set_solver.
    + apply (bst_keys _ _ _ _ Bl) in Hin. apply (same_bst _ _ (same_balanced _)). cbn. split_and!; (done || lia).
Qed.

(** The successor takes the place of the root. *)
Lemma removed_root n lo hi s t s1 c l k r m x s2 r2 : same t (N c l k r) -> bst lo hi t -> evolves (keys t) s s1 -> stored s1 (N c l k r) ->
  x ∈ keys r -> removed s1 r m k hi x s2 r2 -> bst x hi r2 ->
  rb n (balanced (N c l x r2)) -> (tred t = false -> tred (balanced (N c l x r2)) = false) ->
  exists s3 s', node_write s2 x (addr l) (addr r2) c = Ok s3 /\ balance s3 x = Ok (s', addr (balanced (N c l x r2)))
    /\ removed s t n lo hi k s' (balanced (N c l x r2)).
Proof.
  intros Hsame Hb He Hs Hin [R1 R2 R3 R4 R5 R6] Bx Hrb Hbl. apply (same_bst _ _ Hsame) in Hb as Hb1. pose proof Hb1 as (Hk & Bl & Br).
  pose proof Hs as (_ & _ & Sl & Sr). apply (bst_keys _ _ _ _ Br) in Hin as Hx. destruct (node_wrote s2 c l x r2 lo hi) as (s3 & Hw & S3 & E3); try done.
  - apply (ev_backed _ _ _ R3). by eapply stored_backed.
  - eapply (stored_apart lo k); [done..| |done]. intros y Hy. apply (bst_keys _ _ _ _ Br) in Hy. lia.
  - eapply bst_mono; [done|lia|lia].
  - assert (B3 : bst lo hi (N c l x r2)) by (cbn; split_and!; [lia|lia|eapply bst_mono; [done|lia|lia]|done]). pose proof (same_keys _ _ Hsame) as Hkeys. cbn in Hkeys.
    destruct (finish_ok lo hi (keys t) s s3 c l x r2 S3 B3) as (s4 & Hb4 & S4 & E4).
    { eapply evolves_trans; [done|]. rewrite <- Hkeys. eapply evolves_trans; (eapply evolves_mono; [done|]); set_solver. }
    { rewrite <- Hkeys. cbn. set_solver. }
    pose proof (same_balanced (N c l x r2)) as Hs2. exists s3, s4. split_and!; [done|done|]. split; try done; [by apply (same_bst _ _ Hs2)|].
    intros y. rewrite (same_keys _ _ Hs2), <- Hkeys. cbn. rewrite !elem_of_app, !elem_of_cons, R4. split.
    + intros [Hy|[->|[_ Hy]]]; [apply (bst_keys _ _ _ _ Bl) in Hy as ?; split; [lia|tauto]|split; [lia|tauto]|].
      apply (bst_keys _ _ _ _ Br) in Hy as ?. split; [lia|tauto].
    + intros [Hne [Hy|[->|Hy]]]; [tauto|done|]. destruct (decide (y = x)); tauto.
Qed.

(** The rotation before descending to the right. *)
Lemma rotated_ready n t lo hi : t <> E -> loose n t \/ leans n t -> bst lo hi t ->
  exists c l k r, (if tred (lft t) then rotr t else t) = N c l k r /\ (rb n (N c l k r) /\ c = true \/ leans n (N c l k r)) /\ c = tred t /\ k <= addr t.
Proof.
  destruct t as [|c l k r]; [done|]. intros _ Hn Hb. cbn [lft addr tred]. destruct Hn as [[Hn Hred]|Hn].
  - destruct c; [destruct (tred l) eqn:El; [destruct Hn as (_ & _ & ? & _); congruence|exists true, l, k, r; split_and!; (done || auto || lia)]|].
    cbn in Hred. rewrite Hred. destruct l as [|[] ll lk lr]; [done| |done]. destruct n as [|m]; [done|]. cbn [rotr]. exists false, ll, lk, (N true lr k r).
    destruct Hb as (_ & (? & _) & _). split_and!; [done|right; cbn in *; naive_solver|done|lia].
  - destruct n as [|m]; [done|]. destruct c; [done|]. assert (El : tred l = false) by apply Hn. rewrite El. exists false, l, k, r. split_and!; [done|by right|done|lia].
Qed.

Definition delete_spec (fuel : nat) : Prop := forall s t n lo hi key, stored s t -> bst lo hi t -> loose n t \/ leans n t /\ addr t <= key ->
  key ∈ keys t -> (depth n t < fuel)%nat -> exists s' t', tree_delete fuel s (addr t) key = Ok (s', addr t') /\ removed s t n lo hi key s' t'.

Lemma node_of_key t key : key ∈ keys t -> t <> E.
Proof. destruct t; [by intros ?%not_elem_of_nil|done]. Qed.

Lemma delete_left fuel s t n lo hi key : delete_spec fuel -> stored s t -> bst lo hi t -> loose n t -> key ∈ keys t -> key < addr t -> (depth n t < S fuel)%nat ->
  exists s' t', tree_delete (S fuel) s (addr t) key = Ok (s', addr t') /\ removed s t n lo hi key s' t'.
Proof.
  intros IH Hs Hb Hn Hin Hlt Hd. pose proof (node_of_key _ _ Hin) as Ht. cbn [tree_delete]. rewrite (proj2 (Z.ltb_lt _ _)) by lia. rewrite read_ok by done.
  destruct t as [|c l k r]; [done|]. clear Ht. cbn [lft addr] in *. pose proof Hb as (_ & _ & Br).
  assert (Hinl : key ∈ keys l). { cbn in Hin. rewrite elem_of_app, elem_of_cons in Hin. destruct Hin as [?|[->|Hx]]; [done|lia|]. apply (bst_keys _ _ _ _ Br) in Hx. lia. }
  pose proof (node_of_key _ _ Hinl) as Hl. rewrite needs_red_ok by (done || apply (stored_lft s (N c l k r)); done).
  destruct (move_left_ok lo hi s (N c l k r) (negb (tred l) && negb (tred (lft l)))) as [(s1 & Hm & S1 & E1) Hsame]; [done..|]. cbn [addr] in Hm. rewrite Hm.
  destruct (left_ready n c l k r lo hi Hn Hl Hb) as (c' & l' & k' & r' & m & Ht1 & Hk & Hloose & Hdep & Hbal). rewrite Ht1 in *.
  rewrite (read_ok s1) by done. cbn [lft rgt tred addr]. apply (same_bst _ _ Hsame) in Hb as Hb1. pose proof Hb1 as (Hk' & Bl' & Br').
  assert (Hin' : key ∈ keys l').
  { rewrite <- (same_keys _ _ Hsame) in Hin. cbn in Hin. rewrite elem_of_app, elem_of_cons in Hin. destruct Hin as [?|[->|Hx]]; [done|lia|]. apply (bst_keys _ _ _ _ Br') in Hx. lia. }
  destruct (IH s1 l' m lo k' key) as (s2 & l2 & -> & Hrm); [by apply (stored_lft s1 (N c' l' k' r'))|done|by left|done|lia|].
  destruct (Hbal l2) as [Hrb Hbl]; [apply Hrm|apply Hrm|].
  destruct (removed_left n lo hi s (N c l k r) s1 c' l' k' r' m key s2 l2) as (s3 & s4 & -> & -> & Hrm4); [done..|]. by eexists _, _.
Qed.

Lemma key_right lo hi c l k r key : bst lo hi (N c l k r) -> key ∈ keys (N c l k r) -> k < key -> key ∈ keys r.
Proof.
  intros (_ & Bl & _). cbn. rewrite elem_of_app, elem_of_cons. intros [Hx|[->|?]] Hlt; [|lia|done]. apply (bst_keys _ _ _ _ Bl) in Hx. lia.
Qed.

(** Descending to the right from a node that may be descended into. *)
Lemma delete_right_step fuel s t n lo hi key s1 c l k r : delete_spec fuel -> same t (N c l k r) -> c = tred t -> bst lo hi t -> evolves (keys t) s s1 ->
  stored s1 (N c l k r) -> rb n (N c l k r) /\ c = true \/ leans n (N c l k r) -> r <> E -> key ∈ keys t -> k <= key -> (depth n t < S fuel)%nat ->
  exists s' t', (let? move := needs_red s1 (addr r) in
     let? (s, h) := (if move : bool then move_red_right s1 k else Ok (s1, k)) in
     let? (l, r, c) := node_read s h in
     if key =? h then let? (s, (r, successor)) := delete_min fuel s r in let? s := node_write s successor l r c in balance s successor
     else let? (s, r) := tree_delete fuel s r key in let? s := node_write s h l r c in balance s h) = Ok (s', addr t')
    /\ removed s t n lo hi key s' t'.
Proof.
  intros IH Hsame Hc Hb He S1 Hn Hr Hin Hle Hd. apply (same_bst _ _ Hsame) in Hb as Hb1. rewrite needs_red_ok by (done || apply (stored_rgt s1 (N c l k r)); done).
  destruct (move_right_ok lo hi s1 (N c l k r) (negb (tred r) && negb (tred (lft r)))) as [(s2 & Hm & S2 & E2) Hsame2]; [done..|]. cbn [addr] in Hm. rewrite Hm.
  destruct (right_ready n c l k r lo hi Hn Hr Hb1) as (c' & l' & k' & r' & m & Ht1 & Hcase & Hdep & Hbal). rewrite Ht1 in *.
  rewrite (read_ok s2) by done. cbn [lft rgt tred addr]. apply (same_bst _ _ Hsame2) in Hb1 as Hb2. pose proof Hb2 as (Hk' & Bl' & Br').
  pose proof (same_trans _ _ _ Hsame Hsame2) as Hsame'. assert (He' : evolves (keys t) s s2) by (eapply evolves_trans; [done|]; by rewrite (same_keys _ _ Hsame) in E2).
  assert (Hd' : (depth m r' < fuel)%nat) by (unfold depth in *; rewrite Hc in Hdep; cbn [tred] in Hdep; lia).
  assert (Hblack : forall x r2, (c = false -> tred (balanced (N c' l' x r2)) = false) -> tred t = false -> tred (balanced (N c' l' x r2)) = false) by (intros x r2 Hx; by rewrite <- Hc).
  destruct (Z.eqb_spec key k') as [->|Hne].
  - destruct Hcase as [[-> Hloose]|(? & _ & _)]; [|lia].
    destruct (delete_min_ok fuel s2 r' m k hi) as (s3 & r2 & x & -> & Hx & Hrm & Bx); [|by apply (stored_rgt s2 (N c' l' k r'))|done|done|done|].
    { intros ->. by destruct Hloose. }
    destruct (Hbal x r2) as [Hrb Hbl]; [apply Hrm|apply Hrm|].
    destruct (removed_root n lo hi s t s2 c' l' k r' m x s3 r2) as (s4 & s5 & -> & -> & Hrm5); auto. by eexists _, _.
  - assert (Hlt : k' < key) by (destruct Hcase as [[-> _]|(? & _ & _)]; lia).
    assert (Hin' : key ∈ keys r') by (eapply key_right; [exact Hb2| |done]; by rewrite (same_keys _ _ Hsame')).
    destruct (IH s2 r' m k' hi key) as (s3 & r2 & -> & Hrm); [by apply (stored_rgt s2 (N c' l' k' r'))|done| |done|done|].
    { destruct Hcase as [[_ ?]|(_ & ? & ->)]; [by left|right; split; [done|lia]]. }
    destruct (Hbal k' r2) as [Hrb Hbl]; [apply Hrm|apply Hrm|].
    destruct (removed_right n lo hi s t s2 c' l' k' r' m key s3 r2) as (s4 & s5 & -> & -> & Hrm5); auto. by eexists _, _.
Qed.

Lemma delete_right fuel s t n lo hi key : delete_spec fuel -> stored s t -> bst lo hi t -> loose n t \/ leans n t -> key ∈ keys t -> addr t <= key -> (depth n t < S fuel)%nat ->
  exists s' t', tree_delete (S fuel) s (addr t) key = Ok (s', addr t') /\ removed s t n lo hi key s' t'.
Proof.
  intros IH Hs Hb Hn Hin Hge Hd. pose proof (node_of_key _ _ Hin) as Ht. cbn [tree_delete]. rewrite (proj2 (Z.ltb_ge _ _)) by lia. rewrite red_left_ok by done.
  destruct (rotated_ready n t lo hi Ht Hn Hb) as (c & l & k & r & Ht1 & Hn1 & Hc & Hk).
  assert (H1 : yields s t (if tred (lft t) then rotate_right s (addr t) else Ok (s, addr t)) (N c l k r) /\ same t (N c l k r)).
  { rewrite <- Ht1. destruct (tred (lft t)) eqn:El; [|by split; [apply yields_refl|]]. split; [eapply rotate_right_node; eauto using red_node|apply same_rotr]. }
  destruct H1 as ((s1 & -> & S1 & E1) & Hsame). rewrite (read_ok s1) by done. cbn [lft rgt tred addr].
  destruct ((key =? k) && (addr r =? 0)) eqn:Hlast.
  - apply andb_true_iff in Hlast as [->%Z.eqb_eq Hr%Z.eqb_eq]. assert (r = E) as ->.
    { destruct r as [|c2 l2 k2 r2]; [done|]. destruct S1 as (_ & _ & _ & (Hk2 & _)). apply backed_pos in Hk2. cbn in Hr. lia. }
    destruct Hn1 as [[Hn1 ->]|Hn1]; [|destruct n, c; try done; destruct Hn1 as (_ & _ & _ & ?); done]. destruct Hn1 as (Hl & -> & El & _). destruct l as [|[] ? ? ?]; [|done|done].
    pose proof (same_keys _ _ Hsame) as Hkeys. cbn in Hkeys. exists s1, E. split; [done|]. split; try done. intros x. rewrite <- Hkeys. cbn. set_solver.
  - apply (delete_right_step fuel s t n lo hi key s1 c l k r); try done; [|lia]. intros ->. rewrite Z.eqb_refl, andb_true_r in Hlast. apply Z.eqb_neq in Hlast.
    assert (Hin' : key ∈ keys E) by (eapply (key_right lo hi c l k E); [by apply (same_bst _ _ Hsame)|by rewrite (same_keys _ _ Hsame)|lia]). by apply not_elem_of_nil in Hin'.
Qed.

Lemma delete_ok fuel : delete_spec fuel.
Proof.
  induction fuel as [|fuel IH]; intros s t n lo hi key Hs Hb Hn Hin Hd; [lia|]. destruct (Z.lt_ge_cases key (addr t)).
  - apply delete_left; try done. destruct Hn as [?|[_ ?]]; [done|lia].
  - apply delete_right; try done. destruct Hn as [?|[? _]]; [by left|by right].
Qed.

(** ** A whole tree *)

(** A tree at rest: stored, ordered, balanced, with a black root. *)
Record tree_ok (s : M) (t : tree) : Prop := {
  to_stored : stored s t;
  to_bst : bst 0 (2 ^ 64) t;
  to_rb : exists n, rb n t;
  to_black : tred t = false }.

Lemma rb_size t : forall n, rb n t -> 2 ^ Z.of_nat n <= Z.of_nat (length (keys t)) + 1.
Proof.
  induction t as [|c l IHl k r IHr]; intros n Hn; [cbn in Hn; by subst|]. cbn [keys]. rewrite length_app. cbn [length].
  destruct (rb_child _ _ _ _ _ Hn) as (m & Hl & Hr & _ & Hc & _). apply IHl in Hl. apply IHr in Hr.
  destruct c; [destruct Hc as [-> _]; lia|]. subst n. replace (Z.of_nat (S m)) with (1 + Z.of_nat m) by lia. rewrite Z.pow_add_r by lia. lia.
Qed.

Lemma bst_size t : forall lo hi, lo < hi -> bst lo hi t -> Z.of_nat (length (keys t)) < hi - lo.
Proof.
  induction t as [|c l IHl k r IHr]; intros lo hi Hlt Hb; cbn [keys length]; [lia|]. destruct Hb as (Hk & Bl & Br).
  apply IHl in Bl; [|lia]. apply IHr in Br; [|lia]. rewrite length_app. cbn [length]. lia.
Qed.

(** Addresses have 64 bits. *)
Lemma black_height t n : bst 0 (2 ^ 64) t -> rb n t -> (n <= 64)%nat.
Proof.
  intros Hb Hn. apply rb_size in Hn. apply bst_size in Hb; [|lia]. destruct (decide (n <= 64)%nat) as [|Hgt]; [done|].
  assert (2 ^ 64 < 2 ^ Z.of_nat n) by (apply Z.pow_lt_mono_r; lia). lia.
Qed.

Lemma depth_bound t n t' : bst 0 (2 ^ 64) t -> rb n t -> (depth n t' < MAX_DEPTH)%nat.
Proof. intros Hb Hn. pose proof (black_height _ _ Hb Hn). pose proof (depth_le n t'). unfold MAX_DEPTH. lia. Qed.

Lemma paint_black_ok s t : stored s t -> bst 0 (2 ^ 64) t -> (exists n, almost n t) ->
  exists s', color s (addr t) false = Ok s' /\ tree_ok s' (paint false t) /\ evolves (keys t) s s' /\ addr (paint false t) = addr t /\ keys (paint false t) = keys t.
Proof.
  intros Hs Hb [n Hn]. destruct (color_ok _ _ s t false Hs Hb) as (s1 & -> & S1 & E1). pose proof (same_paint false t) as Hsame.
  exists s1. split_and!; [done| |done|by destruct t|by apply (same_keys _ _ Hsame)].
  split; [done|by apply (same_bst _ _ Hsame)|by eapply rb_paint_black|by destruct t].
Qed.

Lemma insert_root s t a : tree_ok s t -> backed s a -> a < 2 ^ 64 -> a ∉ keys t ->
  exists s1 h s' t', tree_insert MAX_DEPTH s (addr t) a = Ok (s1, h) /\ color s1 h false = Ok s' /\ h = addr t' /\ tree_ok s' t'
    /\ evolves (a :: keys t) s s' /\ forall x, x ∈ keys t' <-> x = a \/ x ∈ keys t.
Proof.
  intros [Hs Hb [n Hn] Hbl] Ha Hmax Hnot. apply backed_pos in Ha as Hp. pose proof (depth_bound t n t Hb Hn).
  destruct (insert_ok MAX_DEPTH s t n 0 (2 ^ 64) a) as (s1 & t1 & Hi & [I1 I2 I3 I4 I5 I6]); [done|done|done|done|done|lia|lia|].
  destruct (paint_black_ok s1 t1 I1 I2) as (s2 & Hc & Hok & E2 & Haddr & Hkeys); [by eexists|].
  exists s1, (addr t1), s2, (paint false t1). split_and!; [done|done|done|done| |by rewrite Hkeys]. eapply evolves_trans; [done|].
  eapply evolves_mono; [done|]. intros x Hx. apply elem_of_cons. by apply I4.
Qed.

Lemma remove_root s t key : tree_ok s t -> key ∈ keys t ->
  exists s' t', tree_remove MAX_DEPTH s (addr t) key = Ok (s', addr t') /\ tree_ok s' t' /\ evolves (keys t) s s'
    /\ forall x, x ∈ keys t' <-> x <> key /\ x ∈ keys t.
Proof.
  intros [Hs Hb [n Hn] Hbl] Hin. pose proof (node_of_key _ _ Hin) as Ht. unfold tree_remove. rewrite read_ok, !red_ok by auto using stored_lft, stored_rgt.
  destruct t as [|c l k r]; [done|]. cbn in Hbl. subst c. destruct n as [|m]; [done|]. pose proof Hn as (Hl & Hr & Er). cbn [lft rgt]. rewrite Er.
  assert (H1 : exists s1 c1 n1, (if negb (tred l) then color s k true else Ok s) = Ok (E:=Empty_set) s1
    /\ stored s1 (N c1 l k r) /\ loose n1 (N c1 l k r) /\ evolves (keys (N false l k r)) s s1 /\ (depth n1 (N c1 l k r) < MAX_DEPTH)%nat).
  { destruct (tred l) eqn:El; cbn [negb].
    - exists s, false, (S m). split_and!; [done|done|split; [done|exact El]|apply evolves_refl|by eapply depth_bound].
    - destruct (color_ok _ _ s (N false l k r) true Hs Hb) as (s1 & Hc & S1 & E1). exists s1, true, m. split_and!; [done..|].
      pose proof (depth_bound _ _ (N true l k r) Hb Hn). unfold depth in *. lia. }
  destruct H1 as (s1 & c1 & n1 & Hc & S1 & Hloose & E1 & Hd). cbn [addr].
  assert (Hif : (if negb (tred l) then Ok (negb false) else Ok false) = Ok (E:=Empty_set) (negb (tred l))) by by destruct (tred l). rewrite Hif, Hc.
  destruct (delete_ok MAX_DEPTH s1 (N c1 l k r) n1 0 (2 ^ 64) key) as (s2 & t2 & Hdel & [R1 R2 R3 R4 R5 R6]); [done|done|by left|done|done|].
  cbn [addr] in *. rewrite Hdel. destruct (paint_black_ok s2 t2 R1 R2) as (s3 & -> & Hok & E3 & Haddr & Hkeys); [exists n1; by apply rb_almost|].
  exists s3, (paint false t2). rewrite Haddr, Hkeys. split_and!; [done|done| |done]. eapply evolves_trans; [done|]. eapply evolves_trans; [done|]. eapply evolves_mono; [done|].
  intros x Hx. by apply R4 in Hx as [_ ?].
Qed.

Lemma contains_ok fuel : forall s t n lo hi key, stored s t -> bst lo hi t -> rb n t -> (depth n t <= fuel)%nat ->
  tree_contains fuel s (addr t) key = Ok (bool_decide (key ∈ keys t)).
Proof.
  induction fuel as [|fuel IH]; intros s [|c l k r] n lo hi key Hs Hb Hn Hd; try done.
  { destruct (rb_child _ _ _ _ _ Hn) as (m & _ & _ & _ & _ & ? & _). lia. }
  destruct (rb_child _ _ _ _ _ Hn) as (m & Hl & Hr & _ & _ & Dl & Dr). destruct Hb as (Hk & Bl & Br). pose proof Hs as (Bk & Hread & Sl & Sr).
  cbn [tree_contains addr]. apply backed_pos in Bk. rewrite (proj2 (Z.eqb_neq k 0)) by lia. destruct (Z.eqb_spec k key) as [->|Hne].
  { rewrite bool_decide_true; [done|]. cbn. set_solver. }
  rewrite Hread. destruct (Z.ltb_spec key k).
  - rewrite (IH s l m lo k) by (done || lia). f_equal. apply bool_decide_ext. cbn. rewrite elem_of_app, elem_of_cons. split; [tauto|].
    intros [?|[->|Hx]]; [done|lia|]. apply (bst_keys _ _ _ _ Br) in Hx. lia.
  - rewrite (IH s r m k hi) by (done || lia). f_equal. apply bool_decide_ext. cbn. rewrite elem_of_app, elem_of_cons. split; [tauto|].
    intros [Hx|[->|?]]; [|lia|done]. apply (bst_keys _ _ _ _ Bl) in Hx. lia.
Qed.

Lemma contains_root s t key : tree_ok s t -> tree_contains MAX_DEPTH s (addr t) key = Ok (bool_decide (key ∈ keys t)).
Proof. intros [Hs Hb [n Hn] _]. pose proof (depth_bound t n t Hb Hn). eapply contains_ok; [done..|lia]. Qed.

Lemma leftmost_ok fuel : forall s t n lo hi, t <> E -> stored s t -> bst lo hi t -> rb n t -> (depth n t <= fuel)%nat ->
  exists k, leftmost fuel s (addr t) = Ok k /\ k ∈ keys t /\ forall x, x ∈ keys t -> k <= x.
Proof.
  induction fuel as [|fuel IH]; intros s [|c l k r] n lo hi Ht Hs Hb Hn Hd; try done; destruct (rb_child _ _ _ _ _ Hn) as (m & Hl & Hr & _ & _ & Dl & Dr); [lia|].
  destruct Hb as (Hk & Bl & Br). pose proof Hs as (Bk & Hread & Sl & Sr). cbn [leftmost addr]. rewrite Hread. destruct (decide (l = E)) as [->|Hne].
  - exists k. split_and!; [done|cbn; set_solver|]. intros x. cbn. intros [->|Hx]%elem_of_cons; [lia|]. apply (bst_keys _ _ _ _ Br) in Hx. lia.
  - rewrite (addr_nonzero s) by done. destruct (IH s l m lo k) as (x & Hx & Hin & Hmin); [done..|lia|]. exists x. apply (bst_keys _ _ _ _ Bl) in Hin as Hlt.
    split_and!; [done|cbn; set_solver|]. intros y. cbn. rewrite elem_of_app, elem_of_cons. intros [Hy|[->|Hy]]; [by apply Hmin|lia|]. apply (bst_keys _ _ _ _ Br) in Hy. lia.
Qed.

Lemma smallest_root s t : tree_ok s t -> t <> E ->
  exists s' t' k, smallest MAX_DEPTH s (addr t) = Ok (s', (addr t', k)) /\ k ∈ keys t /\ (forall x, x ∈ keys t -> k <= x) /\ tree_ok s' t'
    /\ evolves (keys t) s s' /\ forall x, x ∈ keys t' <-> x <> k /\ x ∈ keys t.
Proof.
  intros Hok Ht. pose proof Hok as [Hs Hb [n Hn] _]. pose proof (depth_bound t n t Hb Hn). unfold smallest. rewrite (addr_nonzero s) by done.
  destruct (leftmost_ok MAX_DEPTH s t n 0 (2 ^ 64)) as (k & -> & Hin & Hmin); [done..|lia|].
  destruct (remove_root s t k Hok Hin) as (s' & t' & -> & Hok' & He & Hkeys). by exists s', t', k.
Qed.
End correctness.

(** ** The trees as sets of addresses *)

Inductive TreeOp : Type := TInsert (a : Z) | TRemove (a : Z) | TContains (a : Z) | TSmallest.

(** What a user of a tree does; [add] of [buddy.rs] paints the root black after an insertion. A
    reply is the address [smallest] found, or whether [contains] found its key. *)
Definition tree_step `{Nodes M} (op : TreeOp) (st : M * Z) : result (M * Z * Z) :=
  let '(s, root) := st in
  match op with
  | TInsert a => let? (s, h) := tree_insert MAX_DEPTH s root a in let? s := color s h false in Ok (s, h, 0)
  | TRemove a => let? (s, h) := tree_remove MAX_DEPTH s root a in Ok (s, h, 0)
  | TContains a => let? b := tree_contains MAX_DEPTH s root a in Ok (s, root, Z.b2z b)
  | TSmallest => let? (s, (h, a)) := smallest MAX_DEPTH s root in Ok (s, h, a)
  end.

Fixpoint tree_run `{Nodes M} (ops : list TreeOp) (st : M * Z) : result (M * Z * list Z) :=
  match ops with
  | [] => Ok (st.1, st.2, [])
  | op :: ops =>
      let? (s, root, reply) := tree_step op st in
      let? (s, root, replies) := tree_run ops (s, root) in
      Ok (s, root, reply :: replies)
  end.

(** The same on a set; inserting a member or removing a stranger is not allowed. *)
Definition least (X : gset Z) : Z := match elements X with [] => 0 | x :: l => foldr Z.min x l end.

Definition set_step (op : TreeOp) (X : gset Z) : option (gset Z * Z) :=
  match op with
  | TInsert a => if decide (a ∈ X) then None else Some ({[a]} ∪ X, 0)
  | TRemove a => if decide (a ∈ X) then Some (X ∖ {[a]}, 0) else None
  | TContains a => Some (X, Z.b2z (bool_decide (a ∈ X)))
  | TSmallest => Some (X ∖ {[least X]}, least X)
  end.

Fixpoint set_run (ops : list TreeOp) (X : gset Z) : option (gset Z * list Z) :=
  match ops with
  | [] => Some (X, [])
  | op :: ops =>
      match set_step op X with
      | Some (X, reply) => match set_run ops X with Some (X, replies) => Some (X, reply :: replies) | None => None end
      | None => None
      end
  end.

Lemma foldr_min_spec l x : foldr Z.min x l ∈ x :: l /\ forall y, y ∈ x :: l -> foldr Z.min x l <= y.
Proof.
  induction l as [|z l [IH1 IH2]]; cbn [foldr].
  - split; [by apply elem_of_cons; left|]. intros y ->%list_elem_of_singleton. lia.
  - split.
    + destruct (Z.min_spec z (foldr Z.min x l)) as [[_ ->]|[_ ->]]; [apply elem_of_cons; right; apply elem_of_cons; by left|].
      apply elem_of_cons in IH1 as [->|?]; apply elem_of_cons; [by left|right; apply elem_of_cons; by right].
    + intros y [->|[->|Hy]%elem_of_cons]%elem_of_cons; [|lia|]; [specialize (IH2 x)|specialize (IH2 y)]; rewrite elem_of_cons in IH2; [specialize (IH2 (or_introl eq_refl))|specialize (IH2 (or_intror Hy))]; lia.
Qed.

Lemma least_unique (X : gset Z) k : k ∈ X -> (forall x, x ∈ X -> k <= x) -> least X = k.
Proof.
  intros Hk Hmin. unfold least. destruct (elements X) as [|x l] eqn:He; [apply elem_of_elements in Hk; rewrite He in Hk; by apply not_elem_of_nil in Hk|].
  destruct (foldr_min_spec l x) as [Hin Hle]. rewrite <- He in Hin, Hle. apply elem_of_elements in Hin. apply Hmin in Hin.
  specialize (Hle k). rewrite elem_of_elements in Hle. specialize (Hle Hk). lia.
Qed.

Section sets.
Context `{NodesLaws M}.

Definition tree_set (t : tree) : gset Z := list_to_set (keys t).

Lemma tree_set_eq t X : (forall x, x ∈ keys t <-> x ∈ X) -> tree_set t = X.
Proof. intros Hx. apply set_eq. intros x. unfold tree_set. by rewrite elem_of_list_to_set. Qed.

Lemma in_tree_set t x : x ∈ tree_set t <-> x ∈ keys t.
Proof. apply elem_of_list_to_set. Qed.

(** Every step of a tree is the step of its set. *)
Lemma tree_step_ok op s t X reply : tree_ok s t -> (forall a, op = TInsert a -> backed s a /\ a < 2 ^ 64) -> set_step op (tree_set t) = Some (X, reply) ->
  exists s' t', tree_step op (s, addr t) = Ok (s', addr t', reply) /\ tree_ok s' t' /\ tree_set t' = X /\ forall x, backed s' x <-> backed s x.
Proof.
  intros Ht Hop. destruct op as [a|a|a|]; cbn [set_step tree_step].
  - case_decide as Hin; [done|]. rewrite in_tree_set in Hin. intros [= <- <-]. destruct (Hop a eq_refl) as [Hb Hlt].
    destruct (insert_root s t a Ht Hb Hlt Hin) as (s1 & h & s' & t' & -> & -> & -> & Ht' & He & Hk). exists s', t'. split_and!; [done|done| |apply He].
    apply tree_set_eq. intros x. by rewrite Hk, elem_of_union, elem_of_singleton, in_tree_set.
  - case_decide as Hin; [|done]. rewrite in_tree_set in Hin. intros [= <- <-]. destruct (remove_root s t a Ht Hin) as (s' & t' & -> & Ht' & He & Hk).
    exists s', t'. split_and!; [done|done| |apply He]. apply tree_set_eq. intros x. rewrite Hk, elem_of_difference, elem_of_singleton, in_tree_set. tauto.
  - intros [= <- <-]. rewrite (contains_root s t a Ht). exists s, t. split_and!; [|done|done|done]. by rewrite (bool_decide_ext _ _ (in_tree_set t a)).
  - intros [= <- <-]. destruct (decide (t = E)) as [->|Hne].
    { exists s, E. split_and!; [done|done| |done]. apply set_eq; intros x; rewrite elem_of_difference; unfold tree_set; cbn. split; [by intros ?%not_elem_of_empty|by intros [?%not_elem_of_empty _]]. }
    destruct (smallest_root s t Ht Hne) as (s' & t' & k & -> & Hin & Hmin & Ht' & He & Hk). rewrite (least_unique (tree_set t) k); [|by apply in_tree_set|intros x ?%in_tree_set; auto].
    exists s', t'. split_and!; [done|done| |apply He]. apply tree_set_eq. intros x. rewrite Hk, elem_of_difference, elem_of_singleton, in_tree_set. tauto.
Qed.

Lemma tree_run_ok ops : forall s t X replies, tree_ok s t -> (forall a, TInsert a ∈ ops -> backed s a /\ a < 2 ^ 64) -> set_run ops (tree_set t) = Some (X, replies) ->
  exists s' t', tree_run ops (s, addr t) = Ok (s', addr t', replies) /\ tree_ok s' t' /\ tree_set t' = X.
Proof.
  induction ops as [|op ops IH]; intros s t X replies Ht Hin; cbn [set_run tree_run]; [intros [= <- <-]; by exists s, t|].
  destruct (set_step op (tree_set t)) as [[X1 reply]|] eqn:Hstep; [|done]. destruct (set_run ops X1) as [[X2 rs]|] eqn:Hrun; [|done]. intros [= <- <-].
  destruct (tree_step_ok op s t X1 reply) as (s1 & t1 & -> & Ht1 & <- & Hbk); [done|intros a ->; apply Hin; by left|done|].
  destruct (IH s1 t1 X2 rs) as (s2 & t2 & -> & Ht2 & <-); [done| |done|by exists s2, t2].
  intros a Ha. rewrite Hbk. apply Hin. by right.
Qed.

(** C8. The tree of free blocks is a set of addresses, however its nodes are stored (in the page
    map or in the blocks themselves): along every sequence of insertions of new, backed addresses,
    removals of members, membership tests and removals of the smallest, from the empty tree on, no
    step panics or runs out of stack depth (130 levels), and every reply is the set's. *)
Theorem free_tree_is_ordered_set s ops X replies : (forall a, TInsert a ∈ ops -> backed s a /\ a < 2 ^ 64) ->
  set_run ops ∅ = Some (X, replies) ->
  exists s' root, tree_run ops (s, 0) = Ok (s', root, replies) /\ (root = 0 <-> X = ∅).
Proof.
  intros Hin Hrun. destruct (tree_run_ok ops s E X replies) as (s' & t' & Heq & Ht' & HX); [split; [done|done|by exists O|done]|done|done|].
  exists s', (addr t'). split; [done|]. subst X. destruct t' as [|c l k r]; [done|]. split; [|intros Hbad].
  - intros Hz. destruct Ht' as [_ (Hk & _) _ _]. cbn in Hz. lia.
  - assert (Hk : k ∈ tree_set (N c l k r)) by (apply in_tree_set; cbn; rewrite elem_of_app, elem_of_cons; auto). rewrite Hbad in Hk. by apply not_elem_of_empty in Hk.
Qed.
End sets.
