(* ===== verification/Pagemap.v ===== *)
(** * rallocator: the page map and the two node storages

    Models [src/crates/rallocator/src/pagemap.rs] (one entry of two words per 16 KiB chunk of the address
    space, which says who owns the chunk or links it into a tree of free blocks) and the [Inline] storage
    of [buddy.rs], and shows that both keep what the trees of [Llrb] rely on. *)

From S2P Require Import Prelude ByteSpan Llrb.

Definition CHUNK_BITS : Z := 14.
Definition ADDRESS_BITS : Z := 48.
Definition BACKEND : Z := 128.
Definition BOUNDARY : Z := 1.
Definition RED : Z := 256.

(** ** The page map *)

(** The committed entries, by index; an entry is its [meta] and its [owner] word. *)
Record Map : Type := mkMap { entries : gmap Z (Z * Z) }.

(** [Map::entry], as an index. *)
Definition entry_index (address : Z) : Z := Z.shiftr address CHUNK_BITS.

Definition entry (map : Map) (address : Z) : result (Z * Z) := expect (entries map !! entry_index address).

Definition store (map : Map) (address meta owner : Z) : Map := mkMap (<[entry_index address := (meta, owner)]> (entries map)).

(** Commits fresh entries, which read as zero; entries in use stay. *)
Definition commit_entries (first last : Z) (map : Map) : Map :=
  mkMap (entries map ∪ gset_to_gmap (0, 0) (list_to_set (seqZ first (last - first)))).

Definition page_down (entry_bytes page : Z) : Z := entry_bytes / page * page.

(** [register]; [commit] is the operating system's answer, [page] its page size. The
    map starts on a page, so rounding its addresses rounds offsets. *)
Definition register (page : Z) (commit : bool) (map : Map) (address size : Z) : result (Map * bool) :=
  match checked_add address size with
  | None => Ok (map, false)
  | Some end_ =>
      if Z.shiftl 1 ADDRESS_BITS <? end_ then Ok (map, false)
      else
        let first := page_down (entry_index address * 16) page in
        let last := page_down (entry_index (address + size - 1) * 16 + 16 + page - 1) page in
        if negb commit then Ok (map, false)
        else
          let map := commit_entries (first / 16) (last / 16) map in
          let? _ := entry map address in
          Ok (store map address BOUNDARY BACKEND, true)
  end.

(** One round of [assign]. *)
Definition assign_entry (map : Map) (address meta owner : Z) : result Map :=
  let? (old, _) := entry map address in
  let boundary := Z.land old BOUNDARY in
  Ok (store map address (Z.lor meta boundary) owner).

(** The loop over [(0..size).step_by(1 << CHUNK_BITS)], [count] rounds from [address] on. *)
Fixpoint assign_loop (count : nat) (map : Map) (address meta owner : Z) : result Map :=
  match count with
  | O => Ok map
  | S count =>
      let? map := assign_entry map address meta owner in
      assign_loop count map (address + Z.shiftl 1 CHUNK_BITS) meta owner
  end.

Definition assign (map : Map) (address size meta owner : Z) : result Map :=
  assign_loop (Z.to_nat ((size + Z.shiftl 1 CHUNK_BITS - 1) / Z.shiftl 1 CHUNK_BITS)) map address meta owner.

Definition lookup_entry (map : Map) (address : Z) : result (Z * Z) :=
  let? (meta, owner) := entry map address in
  Ok (Z.ldiff meta BOUNDARY, owner).

Definition can_merge (map : Map) (address size : Z) : result bool :=
  let? (meta, _) := entry map (Z.max address (Z.lxor address size)) in
  Ok (Z.land meta BOUNDARY =? 0).

Definition children (map : Map) (address : Z) : result (Z * Z * bool) :=
  let? (meta, owner) := entry map address in
  Ok (Z.ldiff meta (Z.lor RED BOUNDARY), Z.ldiff owner BACKEND, negb (Z.land meta RED =? 0)).

Definition set_children (map : Map) (address l r : Z) (red : bool) : result Map :=
  let? (meta, _) := entry map address in
  let boundary := Z.land meta BOUNDARY in
  Ok (store map address (Z.lor (Z.lor l boundary) (if red then RED else 0)) (Z.lor r BACKEND)).

#[export] Instance map_nodes : Nodes Map := {
  backed map a := 0 < a /\ a mod 2 ^ 14 = 0 /\ is_Some (entries map !! entry_index a);
  node_read := children;
  node_write := set_children;
  may_merge := can_merge }.

(** ** Nodes in the blocks themselves *)

(** Words of memory by their byte address. *)
Record Inline : Type := mkInline { words : gmap Z Z }.

Definition inline_read (m : Inline) (address : Z) : result (Z * Z * bool) :=
  let? first := expect (words m !! address) in
  let? r := expect (words m !! (address + 8)) in
  Ok (Z.ldiff first 1, r, negb (Z.land first 1 =? 0)).

Definition inline_write (m : Inline) (address l r : Z) (red : bool) : result Inline :=
  let? _ := expect (words m !! address) in
  let? _ := expect (words m !! (address + 8)) in
  Ok (mkInline (<[address + 8 := r]> (<[address := Z.lor l (Z.b2z red)]> (words m)))).

#[export] Instance inline_nodes : Nodes Inline := {
  backed m a := 0 < a /\ a mod 16 = 0 /\ is_Some (words m !! a) /\ is_Some (words m !! (a + 8));
  node_read := inline_read;
  node_write := inline_write;
  may_merge _ _ _ := Ok true }.

(** ** Packed words *)

Lemma aligned_bits a k i : 0 <= i < k -> a mod 2 ^ k = 0 -> Z.testbit a i = false.
Proof. intros Hi Ha. apply Z.mod_divide in Ha as [q ->]; [|apply Z.pow_nonzero; lia]. apply Z.mul_pow2_bits_low. lia. Qed.

(** The bits of the three flags. *)
Lemma flag_bit k i : 0 <= k -> 0 <= i -> Z.testbit (2 ^ k) i = (k =? i).
Proof. intros. by apply Z.pow2_bits_eqb. Qed.

Lemma bit_land x k : 0 <= k -> (Z.land x (2 ^ k) =? 0) = negb (Z.testbit x k).
Proof.
  intros Hk. destruct (Z.testbit x k) eqn:Hx; cbn.
  - apply Z.eqb_neq. intros H0. apply (f_equal (fun y => Z.testbit y k)) in H0. rewrite Z.land_spec, Hx, flag_bit, Z.eqb_refl, Z.bits_0 in H0 by lia. done.
  - apply Z.eqb_eq, Z.bits_inj'. intros i Hi. rewrite Z.land_spec, flag_bit, Z.bits_0 by lia. destruct (Z.eqb_spec k i) as [->|]; [by rewrite Hx|by rewrite andb_false_r].
Qed.

Ltac by_bits := apply Z.bits_inj'; intros i Hi; repeat rewrite ?Z.ldiff_spec, ?Z.lor_spec, ?Z.land_spec, ?flag_bit, ?Z.bits_0 by lia.

Definition link_aligned (k l : Z) : Prop := l = 0 \/ l mod 2 ^ k = 0.

Lemma link_bits k l i : 0 <= i < k -> link_aligned k l -> Z.testbit l i = false.
Proof. intros Hi [->|Hl]; [apply Z.bits_0|by eapply aligned_bits]. Qed.

Lemma unpack_left l old (red : bool) : link_aligned 14 l ->
  Z.ldiff (Z.lor (Z.lor l (Z.land old BOUNDARY)) (if red then RED else 0)) (Z.lor RED BOUNDARY) = l.
Proof.
  intros Hl. change BOUNDARY with (2 ^ 0). change RED with (2 ^ 8). by_bits.
  destruct (Z.eqb_spec 8 i) as [<-|]; [by rewrite (link_bits 14 l 8), andb_false_r by (lia || done)|]. destruct (Z.eqb_spec 0 i) as [<-|]; [by rewrite (link_bits 14 l 0), andb_false_r by (lia || done)|].
  rewrite andb_false_r, orb_false_r, andb_true_r. destruct red; rewrite ?flag_bit, ?Z.bits_0 by lia; [|apply orb_false_r].
  rewrite (proj2 (Z.eqb_neq 8 i)) by done. apply orb_false_r.
Qed.

Lemma unpack_right r : link_aligned 14 r -> Z.ldiff (Z.lor r BACKEND) BACKEND = r.
Proof.
  intros Hr. change BACKEND with (2 ^ 7). by_bits. destruct (Z.eqb_spec 7 i) as [<-|]; [by rewrite (link_bits 14 r 7) by (lia || done)|].
  by rewrite orb_false_r, andb_true_r.
Qed.

Lemma unpack_red l old (red : bool) : link_aligned 14 l ->
  negb (Z.land (Z.lor (Z.lor l (Z.land old BOUNDARY)) (if red then RED else 0)) RED =? 0) = red.
Proof.
  intros Hl. change BOUNDARY with (2 ^ 0). change RED with (2 ^ 8). rewrite bit_land, negb_involutive by lia.
  rewrite !Z.lor_spec, Z.land_spec, flag_bit, (link_bits 14 l 8), andb_false_r by (lia || done). cbn. destruct red; rewrite ?flag_bit, ?Z.bits_0 by lia; done.
Qed.

Lemma keep_boundary l old (red : bool) : link_aligned 14 l ->
  Z.land (Z.lor (Z.lor l (Z.land old BOUNDARY)) (if red then RED else 0)) BOUNDARY = Z.land old BOUNDARY.
Proof.
  intros Hl. change BOUNDARY with (2 ^ 0). change RED with (2 ^ 8). by_bits. destruct (Z.eqb_spec 0 i) as [<-|]; [|by rewrite !andb_false_r].
  rewrite (link_bits 14 l 0) by (lia || done). rewrite !andb_true_r. destruct red; rewrite ?flag_bit, ?Z.bits_0 by lia; by rewrite orb_false_r.
Qed.

(** Different chunks have different entries. *)
Lemma entry_index_inj a b : a mod 2 ^ 14 = 0 -> b mod 2 ^ 14 = 0 -> entry_index a = entry_index b -> a = b.
Proof. unfold entry_index, CHUNK_BITS. rewrite !Z.shiftr_div_pow2 by lia. intros Ha Hb He. rewrite (Z.div_mod a (2 ^ 14)), (Z.div_mod b (2 ^ 14)), Ha, Hb, He by lia. done. Qed.

#[export] Instance map_laws : NodesLaws Map.
Proof.
  split; [by intros s a [? _]| | |].
  2: { intros s a size (_ & _ & [[m1 o1] H1]) (_ & _ & [[m2 o2] H2]). cbn. unfold can_merge, entry.
       destruct (Z.max_spec a (Z.lxor a size)) as [[_ ->]|[_ ->]]; rewrite ?H1, ?H2; cbn; by eexists. }
  2: { intros s a size. cbn. unfold can_merge. by rewrite Z.lxor_assoc, Z.lxor_nilpotent, Z.lxor_0_r, Z.max_comm. }
  intros s a l r c (Hpos & Hal & [[meta owner] He]) Hl Hr.
  assert (Ll : link_aligned 14 l) by (destruct Hl as [?|(_ & ? & _)]; [by left|by right]). assert (Lr : link_aligned 14 r) by (destruct Hr as [?|(_ & ? & _)]; [by left|by right]).
  eexists. split; [cbn; unfold set_children, entry; by rewrite He|]. split.
  - cbn. unfold children, entry, store. cbn [entries]. rewrite lookup_insert_eq. cbn [expect]. by rewrite unpack_left, unpack_right, unpack_red.
  - split.
    + intros b. cbn. unfold store. cbn [entries]. destruct (decide (entry_index b = entry_index a)) as [Hab|Hab]; [rewrite Hab, lookup_insert_eq, He|by rewrite lookup_insert_ne].
      split; intros (? & ? & _); split_and!; try done; by eexists.
    + intros b (_ & Hb & _) Hnot. cbn. unfold children, entry, store. cbn [entries]. rewrite lookup_insert_ne; [done|]. intros Hab.
      apply Hnot, list_elem_of_singleton. symmetry. by apply entry_index_inj.
    + intros b size. cbn. unfold can_merge, entry, store. cbn [entries]. destruct (decide (entry_index (Z.max b (Z.lxor b size)) = entry_index a)) as [->|Hne];
        [rewrite lookup_insert_eq, He; cbn [expect]; by rewrite keep_boundary|by rewrite lookup_insert_ne].
Qed.

Lemma insert_present (m : gmap Z Z) k v x : is_Some (m !! k) -> is_Some (<[k := v]> m !! x) <-> is_Some (m !! x).
Proof. intros Hk. rewrite lookup_insert_is_Some'. split; [by intros [->|?]|by right]. Qed.

#[export] Instance inline_laws : NodesLaws Inline.
Proof.
  split; [by intros s a [? _]| |by eexists|done]. intros s a l r c (Hpos & Hal & [w0 H0] & [w1 H1]) Hl Hr.
  assert (Ll : link_aligned 4 l) by (destruct Hl as [?|(_ & ? & _)]; [by left|by right]).
  eexists. split; [cbn; unfold inline_write; by rewrite H0, H1|]. split; [|split].
  - cbn. unfold inline_read. cbn [words]. rewrite (lookup_insert_ne _ (a + 8) a) by lia. rewrite !lookup_insert_eq. cbn [expect]. do 2 f_equal; [f_equal|].
    + change 1 with (2 ^ 0). by_bits. destruct (Z.eqb_spec 0 i) as [<-|]; [by rewrite (link_bits 4 l 0), andb_false_r by (lia || done)|]. rewrite andb_true_r.
      destruct c; cbn [Z.b2z]; [change 1 with (2 ^ 0); rewrite flag_bit, (proj2 (Z.eqb_neq 0 i)) by lia|rewrite Z.bits_0]; apply orb_false_r.
    + change 1 with (2 ^ 0) at 1. rewrite bit_land, negb_involutive, Z.lor_spec, (link_bits 4 l 0) by (lia || done). by destruct c.
  - intros b. cbn [backed inline_nodes words]. by rewrite !insert_present by (rewrite ?insert_present; by eexists).
  - intros b (_ & Hb & _) Hnot. cbn. unfold inline_read. cbn [words]. rewrite list_elem_of_singleton in Hnot.
    assert (b <> a + 8 /\ b + 8 <> a) as [] by (split; intros ?; subst; Z.div_mod_to_equations; lia).
    by rewrite !lookup_insert_ne by lia.
  - done.
Qed.

(** ** Ownership of chunks *)

Lemma index_next a : entry_index (a + Z.shiftl 1 CHUNK_BITS) = entry_index a + 1.
Proof. unfold entry_index, CHUNK_BITS. rewrite Z.shiftl_1_l, !Z.shiftr_div_pow2 by lia. change (a + 2 ^ 14) with (a + 1 * 2 ^ 14). by rewrite Z.div_add by lia. Qed.

Lemma assign_loop_ok count : forall map address meta owner,
  (forall i, entry_index address <= i < entry_index address + Z.of_nat count -> is_Some (entries map !! i)) ->
  exists map', assign_loop count map address meta owner = Ok map'
    /\ (forall i, entry_index address <= i < entry_index address + Z.of_nat count ->
         entries map' !! i = (fun e => (Z.lor meta (Z.land e.1 BOUNDARY), owner)) <$> entries map !! i)
    /\ (forall i, i < entry_index address \/ entry_index address + Z.of_nat count <= i -> entries map' !! i = entries map !! i).
Proof.
  induction count as [|count IH]; intros map address meta owner Hreg; cbn [assign_loop]; [exists map; split_and!; [done|lia|done]|].
  destruct (Hreg (entry_index address)) as [[old own] Hold]; [lia|]. unfold assign_entry, entry. rewrite Hold. cbn [expect].
  set (map1 := store map address (Z.lor meta (Z.land old BOUNDARY)) owner).
  assert (Hne : forall i, i <> entry_index address -> entries map1 !! i = entries map !! i) by (intros i Hi; subst map1; cbn; by rewrite lookup_insert_ne).
  destruct (IH map1 (address + Z.shiftl 1 CHUNK_BITS) meta owner) as (map' & Heq & Hin & Hout).
  { rewrite index_next. intros i Hi. rewrite Hne by lia. apply Hreg. lia. }
  rewrite index_next in *. exists map'. split_and!; [done| |].
  - intros i Hi. destruct (decide (i = entry_index address)) as [->|Hn]; [|rewrite Hin, Hne by lia; done].
    rewrite Hout by lia. subst map1. cbn. rewrite lookup_insert_eq, Hold. done.
  - intros i Hi. rewrite Hout, Hne by lia. done.
Qed.

Lemma ldiff_lor_boundary meta old : Z.ldiff (Z.lor meta (Z.land old BOUNDARY)) BOUNDARY = Z.ldiff meta BOUNDARY.
Proof. change BOUNDARY with (2 ^ 0). by_bits. destruct (Z.eqb_spec 0 i); [by rewrite !andb_false_r|]. by rewrite andb_false_r, orb_false_r. Qed.

(** Registration commits all entries of the range and keeps those in use. *)
Lemma register_ok page map address size : 0 < page -> page mod 16 = 0 -> 0 <= address -> 0 < size -> address + size <= 2 ^ 48 ->
  exists map', register page true map address size = Ok (map', true)
    /\ (forall x, address <= x < address + size -> is_Some (entries map' !! entry_index x))
    /\ entries map' !! entry_index address = Some (BOUNDARY, BACKEND)
    /\ (forall i e, i <> entry_index address -> entries map !! i = Some e -> entries map' !! i = Some e).
Proof.
  intros Hpage H16 Ha Hs Hlim. unfold register. rewrite checked_add_Some by (unfold usize_max; lia). change (Z.shiftl 1 ADDRESS_BITS) with (2 ^ 48).
  rewrite (proj2 (Z.ltb_ge _ _)) by lia. cbn [negb]. set (first := page_down _ _ / 16). set (last := page_down (_ + 16 + page - 1) _ / 16).
  assert (Hidx : forall x, address <= x < address + size -> first <= entry_index x < last).
  { intros x Hx. assert (He : entry_index address <= entry_index x <= entry_index (address + size - 1)).
    { unfold entry_index, CHUNK_BITS. rewrite !Z.shiftr_div_pow2 by lia. split; apply Z.div_le_mono; lia. }
    subst first last. unfold page_down. apply Z.mod_divide in H16 as [q ->]; [|lia]. split; [|]; Z.div_mod_to_equations; nia. }
  assert (Hpres : forall x, address <= x < address + size -> is_Some (entries (commit_entries first last map) !! entry_index x)).
  { intros x Hx. unfold commit_entries. cbn [entries]. apply lookup_union_is_Some. right. exists (0, 0).
    apply lookup_gset_to_gmap_Some. split; [|done]. apply elem_of_list_to_set, elem_of_seqZ. specialize (Hidx x Hx). lia. }
  destruct (Hpres address) as [e He]; [lia|]. unfold entry. rewrite He. cbn [expect]. eexists. split; [done|]. cbn [store entries]. split_and!.
  - intros x Hx. destruct (decide (entry_index x = entry_index address)) as [->|]; [by rewrite lookup_insert_eq|]. rewrite lookup_insert_ne by done. by apply Hpres.
  - by rewrite lookup_insert_eq.
  - intros i e' Hne Hi. rewrite lookup_insert_ne by done. unfold commit_entries. cbn [entries]. by apply lookup_union_Some_l.
Qed.

(** What [assign] does to the entries of its chunks. *)
Lemma assign_ok map address size meta owner : 0 <= address -> address mod 2 ^ 14 = 0 -> 0 < size ->
  (forall x, address <= x < address + size -> is_Some (entries map !! entry_index x)) ->
  let last := entry_index address + (size + 2 ^ 14 - 1) / 2 ^ 14 in
  exists map', assign map address size meta owner = Ok map'
    /\ (forall i, entry_index address <= i < last -> entries map' !! i = (fun e => (Z.lor meta (Z.land e.1 BOUNDARY), owner)) <$> entries map !! i)
    /\ (forall i, i < entry_index address \/ last <= i -> entries map' !! i = entries map !! i).
Proof.
  intros Ha Hal Hs Hreg. cbn zeta. unfold assign. change (Z.shiftl 1 CHUNK_BITS) with (2 ^ 14). set (count := (size + 2 ^ 14 - 1) / 2 ^ 14).
  assert (Hcount : 0 <= count) by (subst count; apply Z.div_pos; lia). assert (Hbase : address = entry_index address * 2 ^ 14).
  { unfold entry_index, CHUNK_BITS. rewrite Z.shiftr_div_pow2 by lia. Z.div_mod_to_equations; lia. }
  assert (Hidx : forall x, entry_index x = x / 2 ^ 14) by (intros x; unfold entry_index, CHUNK_BITS; by rewrite Z.shiftr_div_pow2 by lia).
  destruct (assign_loop_ok (Z.to_nat count) map address meta owner) as (map' & -> & Hin & Hout).
  { rewrite Z2Nat.id by done. intros i Hi. assert (Hx : exists x, address <= x < address + size /\ entry_index x = i).
    { exists (Z.max address (i * 2 ^ 14)). rewrite !Hidx in *. subst count. split; Z.div_mod_to_equations; lia. }
    destruct Hx as (x & Hx & <-). by apply Hreg. }
  rewrite Z2Nat.id in * by done. by exists map'.
Qed.

(** Merging depends only on the marks, which [assign] keeps. *)
Lemma merge_marks map map' : (forall i, (fun e => Z.land e.1 BOUNDARY) <$> entries map' !! i = (fun e => Z.land e.1 BOUNDARY) <$> entries map !! i) -> forall a len, can_merge map' a len = can_merge map a len.
Proof.
  intros Hm a len. unfold can_merge, entry. specialize (Hm (entry_index (Z.max a (Z.lxor a len)))).
  destruct (entries map' !! _) as [[m1 o1]|], (entries map !! _) as [[m2 o2]|]; cbn in *; congruence.
Qed.

Lemma land_boundary meta old : Z.testbit meta 0 = false -> Z.land (Z.lor meta (Z.land old BOUNDARY)) BOUNDARY = Z.land old BOUNDARY.
Proof.
  intros Hmeta. change BOUNDARY with (2 ^ 0). by_bits. destruct (Z.eqb_spec 0 i) as [<-|]; [by rewrite Hmeta, !andb_true_r|by rewrite !andb_false_r].
Qed.

(** ** Theorems *)

(** Once a range of chunks is assigned, a lookup of any address in it (also in the middle of a
    chunk) gives exactly the assigned metadata and owner; addresses outside the chunks of the range are
    looked up as before; and the marks that forbid merging across reservations stay. *)
Theorem pagemap_assign_lookup map address size meta owner : 0 <= address -> address mod 2 ^ 14 = 0 -> 0 < size ->
  (forall x, address <= x < address + size -> is_Some (entries map !! entry_index x)) ->
  exists map', assign map address size meta owner = Ok map'
    /\ (forall x, address <= x < address + size -> lookup_entry map' x = Ok (Z.ldiff meta BOUNDARY, owner))
    /\ (forall x, x < address \/ address + (size + 2 ^ 14 - 1) / 2 ^ 14 * 2 ^ 14 <= x -> lookup_entry map' x = lookup_entry map x)
    /\ (Z.testbit meta 0 = false -> forall a len, can_merge map' a len = can_merge map a len).
Proof.
  intros Ha Hal Hs Hreg. destruct (assign_ok map address size meta owner Ha Hal Hs Hreg) as (map' & -> & Hin & Hout). set (count := (size + 2 ^ 14 - 1) / 2 ^ 14) in *.
  assert (Hidx : forall x, entry_index x = x / 2 ^ 14) by (intros x; unfold entry_index, CHUNK_BITS; by rewrite Z.shiftr_div_pow2 by lia). exists map'. split_and!; [done| | |].
  - intros x Hx. unfold lookup_entry, entry. rewrite Hin by (rewrite !Hidx in *; subst count; Z.div_mod_to_equations; lia).
    destruct (Hreg x Hx) as [[old own] ->]. cbn [fmap option_fmap option_map expect fst]. by rewrite ldiff_lor_boundary.
  - intros x Hx. unfold lookup_entry, entry. rewrite Hout; [done|]. rewrite !Hidx in *. subst count. Z.div_mod_to_equations; lia.
  - intros Hmeta. apply merge_marks. intros i. destruct (decide (entry_index address <= i < entry_index address + count)) as [Hi|Hi]; [|by rewrite Hout by lia].
    rewrite Hin by done. destruct (entries map !! i) as [[old own]|]; [|done]. cbn. by rewrite land_boundary.
Qed.

(** Two chunks, the first of which starts a reservation. *)
Definition sample_map : Map := mkMap {[64 := (BOUNDARY, BACKEND); 65 := (0, 0)]}.

Lemma pagemap_assign_lookup_witness :
  exists map', assign sample_map 1048576 32768 4096 77 = Ok map'
    /\ (forall x, 1048576 <= x < 1048576 + 32768 -> lookup_entry map' x = Ok (4096, 77))
    /\ (forall x, x < 1048576 \/ 1048576 + (32768 + 2 ^ 14 - 1) / 2 ^ 14 * 2 ^ 14 <= x -> lookup_entry map' x = lookup_entry sample_map x)
    /\ (Z.testbit 4096 0 = false -> forall a len, can_merge map' a len = can_merge sample_map a len).
Proof.
  apply (pagemap_assign_lookup sample_map 1048576 32768 4096 77); [lia|done|lia|].
  intros x Hx. assert (entry_index x = 64 \/ entry_index x = 65) as [-> | ->];
    [unfold entry_index, CHUNK_BITS; rewrite Z.shiftr_div_pow2 by lia; Z.div_mod_to_equations; lia|by eexists..].
Defined.

(** 128 bytes of zeroed memory from address 4096 on. *)
Definition arena : Inline := mkInline (list_to_map ((fun i => (4096 + 8 * i, 0)) <$> seqZ 0 16)).

Lemma arena_backed x : 4096 <= x < 4224 -> x mod 16 = 0 -> backed arena x.
Proof.
  intros Hx Hm. assert (Hq : exists q, (0 <= q < 8)%Z /\ x = 4096 + 16 * q) by (exists ((x - 4096) / 16); split; Z.div_mod_to_equations; lia).
  destruct Hq as (q & Hq & ->). assert (q = 0 \/ q = 1 \/ q = 2 \/ q = 3 \/ q = 4 \/ q = 5 \/ q = 6 \/ q = 7) as Hcase by lia.
  split_and!; [lia|done|..]; destruct Hcase as [->|[->|[->|[->|[->|[->|[->| ->]]]]]]]; by eexists.
Qed.

Lemma free_tree_is_ordered_set_witness :
  let ops := [TInsert 4112; TInsert 4096; TInsert 4160; TContains 4096; TSmallest; TContains 4096; TRemove 4160; TSmallest; TSmallest] in
  exists s' root, tree_run ops (arena, 0) = Ok (s', root, [0; 0; 0; 1; 4096; 0; 0; 4112; 0]) /\ (root = 0 <-> (∅ : gset Z) = ∅).
Proof.
  apply free_tree_is_ordered_set; [|reflexivity].
  intros a Ha. assert (a = 4112 \/ a = 4096 \/ a = 4160) as Hcase by (repeat (apply elem_of_cons in Ha as [Ha|Ha]; [simplify_eq; auto|]); by apply not_elem_of_nil in Ha).
  destruct Hcase as [->|[->| ->]]; (split; [apply arena_backed; [lia|done]|done]).
Defined.
