(* ===== verification/Buddy.v ===== *)
(** * rallocator: buddy ranges

    Models [Buddy] of [src/crates/rallocator/src/buddy.rs]: free blocks of every power-of-two size, a cache of three
    and a tree of the rest per size, which merge with their buddies when they are given back and are
    split when a smaller block is taken. *)

From S2P Require Import Prelude ByteSpan Llrb Pagemap.

Record Entry : Type := mkEntry { cache : list Z; root : Z }.
Record Buddy : Type := mkBuddy { b_entries : list Entry; empty_above : nat }.

(** [iter().position(|value| value == x)]. *)
Definition position (x : Z) (l : list Z) : option nat := fst <$> list_find (fun v => v = x) l.

(** [1usize << bits]. *)
Definition size_of (bits : nat) : Z := Z.shiftl 1 (Z.of_nat bits).

Definition set_entry (bits : nat) (e : Entry) (b : Buddy) : Buddy := mkBuddy (<[bits := e]> (b_entries b)) (empty_above b).

(** The loop of [take] that exchanges the smallest block of the tree with the cache. *)
Fixpoint swap_cache (slots : list Z) (address : Z) : list Z * Z :=
  match slots with
  | [] => ([], address)
  | slot :: slots =>
      if (address =? 0) || (address <? slot)
      then let '(slots, a) := swap_cache slots slot in (address :: slots, a)
      else let '(slots, a) := swap_cache slots address in (slot :: slots, a)
  end.

Section buddy.
Context `{Nodes M} (MIN MAX : nat) (debug : bool).

Definition buddy_new : Buddy := mkBuddy (replicate MAX (mkEntry [0; 0; 0] 0)) MIN.

(** Takes the buddy of a block out of its entry. *)
Definition take_out (s : M) (e : Entry) (sibling : Z) (cached : option nat) : result (M * Entry) :=
  match cached with
  | Some i => let? (s, (r, a)) := smallest MAX_DEPTH s (root e) in Ok (s, mkEntry (<[i := a]> (cache e)) r)
  | None => let? (s, r) := tree_remove MAX_DEPTH s (root e) sibling in Ok (s, mkEntry (cache e) r)
  end.

(** Puts a block into its entry. *)
Definition put_in (s : M) (e : Entry) (address : Z) : result (M * Entry) :=
  match position 0 (cache e) with
  | Some i => Ok (s, mkEntry (<[i := address]> (cache e)) (root e))
  | None =>
      let? (s, r) := tree_insert MAX_DEPTH s (root e) address in
      let? s := color s r false in
      Ok (s, mkEntry (cache e) r)
  end.

(** [add], one round per size; returns the merged block when it outgrows the range, else 0. *)
Fixpoint add_loop (fuel : nat) (s : M) (b : Buddy) (address : Z) (bits : nat) : result (M * Buddy * Z) :=
  if (MAX <=? bits)%nat then Ok (s, b, address)
  else match fuel with
  | O => Panic
  | S fuel =>
      let sibling := Z.lxor address (size_of bits) in
      let? e := expect (b_entries b !! bits) in
      let cached := position sibling (cache e) in
      let? present := (match cached with Some _ => Ok true | None => tree_contains MAX_DEPTH s (root e) sibling end) in
      let? merge := (if present : bool then may_merge s address (size_of bits) else Ok false) in
      if merge : bool then
        let? (s, e) := take_out s e sibling cached in
        add_loop fuel s (set_entry bits e b) (Z.ldiff address (size_of bits)) (S bits)
      else
        let b := mkBuddy (b_entries b) (Nat.max (empty_above b) (S bits)) in
        let? (s, e) := put_in s e address in
        Ok (s, set_entry bits e b, 0)
  end.

Definition add (s : M) (b : Buddy) (address : Z) (bits : nat) : result (M * Buddy * Z) := add_loop (MAX - bits) s b address bits.

Fixpoint take_loop (fuel : nat) (s : M) (b : Buddy) (bits : nat) : result (M * Buddy * Z) :=
  if ((empty_above b <=? bits) || (MAX <=? bits))%nat then Ok (s, b, 0)
  else match fuel with
  | O => Panic
  | S fuel =>
      let? e := expect (b_entries b !! bits) in
      let? (s, (r, address)) := smallest MAX_DEPTH s (root e) in
      let '(slots, address) := swap_cache (cache e) address in
      let b := set_entry bits (mkEntry slots r) b in
      if negb (address =? 0)%Z then Ok (s, b, address)
      else if (S bits =? MAX)%nat then Ok (s, b, 0)
      else
        let? (s, b, larger) := take_loop fuel s b (S bits) in
        if (larger =? 0)%Z then Ok (s, mkBuddy (b_entries b) bits, 0)
        else
          let? (s, b, overflow) := add s b (wrap64 (larger + size_of bits)) bits in
          let? _ := debug_assert debug (overflow =? 0)%Z in
          Ok (s, b, larger)
  end.

Definition take_block (s : M) (b : Buddy) (bits : nat) : result (M * Buddy * Z) := take_loop (MAX - bits) s b bits.
End buddy.

(** ** One size *)

Lemma slot_Some x l i : position x l = Some i -> l !! i = Some x.
Proof. unfold position. destruct (list_find _ l) as [[j y]|] eqn:Hf; [|done]. intros [= <-]. by apply list_find_Some in Hf as (? & -> & _). Qed.

Lemma slot_None x l : position x l = None <-> x ∉ l.
Proof.
  unfold position. rewrite fmap_None, list_find_None, Forall_forall. split; [intros Hn Hx; by apply (Hn x)|intros Hn y Hy ->; done].
Qed.

Lemma insert_perm {A} (l : list A) i x y : l !! i = Some x -> x :: <[i := y]> l ≡ₚ y :: l.
Proof.
  intros Hi. rewrite insert_take_drop by by eapply lookup_lt_Some. rewrite <- (take_drop_middle l i x Hi) at 3.
  rewrite <- !Permutation_middle. apply Permutation_swap.
Qed.

Lemma bst_nodup t : forall lo hi, bst lo hi t -> NoDup (keys t).
Proof.
  induction t as [|c l IHl k r IHr]; intros lo hi; cbn; [constructor|]. intros (Hk & Bl & Br). apply NoDup_app. split_and!; [by eapply IHl| |].
  - intros x Hx. apply (bst_keys _ _ _ _ Bl) in Hx as ?. rewrite elem_of_cons. intros [->|Hy]; [lia|]. apply (bst_keys _ _ _ _ Br) in Hy. lia.
  - apply NoDup_cons. split; [|by eapply IHr]. intros Hy. apply (bst_keys _ _ _ _ Br) in Hy. lia.
Qed.

(** The free blocks of one size: what is in the cache and in the tree. *)
Definition nonzero (l : list Z) : list Z := filter (fun a => a <> 0) l.
Definition blocks_of (e : Entry) (t : tree) : list Z := nonzero (cache e) ++ keys t.

Section entry.
Context `{NodesLaws M}.

Record entry_ok (s : M) (e : Entry) (t : tree) : Prop := {
  eo_root : root e = addr t;
  eo_tree : tree_ok s t;
  eo_cache : length (cache e) = 3%nat;
  eo_nonneg : Forall (fun a => 0 <= a) (cache e) }.

Lemma tree_keys_pos s t k : tree_ok s t -> k ∈ keys t -> 0 < k < 2 ^ 64.
Proof. intros [_ Hb _ _] Hk. by apply (bst_keys _ _ _ _ Hb) in Hk. Qed.

Lemma keys_removed s s' t t' k : tree_ok s t -> tree_ok s' t' -> k ∈ keys t -> (forall x, x ∈ keys t' <-> x <> k /\ x ∈ keys t) -> keys t ≡ₚ k :: keys t'.
Proof.
  intros [_ Hb _ _] [_ Hb' _ _] Hk Hx. apply NoDup_Permutation; [by eapply bst_nodup| |].
  - apply NoDup_cons. split; [|by eapply bst_nodup]. rewrite Hx. by intros [? _].
  - intros x. rewrite elem_of_cons, Hx. destruct (decide (x = k)) as [->|]; tauto.
Qed.

Lemma keys_inserted s s' t t' a : tree_ok s t -> tree_ok s' t' -> a ∉ keys t -> (forall x, x ∈ keys t' <-> x = a \/ x ∈ keys t) -> keys t' ≡ₚ a :: keys t.
Proof.
  intros [_ Hb _ _] [_ Hb' _ _] Ha Hx. apply NoDup_Permutation; [by eapply bst_nodup| |].
  - apply NoDup_cons. split; [done|by eapply bst_nodup].
  - intros x. by rewrite elem_of_cons, Hx.
Qed.

(** The smallest of the tree, or nothing. *)
Lemma smallest_ok s t : tree_ok s t -> exists s' t' a, smallest MAX_DEPTH s (addr t) = Ok (s', (addr t', a)) /\ tree_ok s' t' /\ evolves (keys t) s s'
  /\ 0 <= a /\ keys t ≡ₚ nonzero [a] ++ keys t' /\ (a = 0 -> t = E).
Proof.
  intros Ht. destruct (decide (t = E)) as [->|Hne].
  - exists s, E, 0. split_and!; [done|done|apply evolves_refl|done|done|done].
  - destruct (smallest_root s t Ht Hne) as (s' & t' & a & Hs & Ha & _ & Ht' & He & Hk). apply (tree_keys_pos s t a Ht) in Ha as Hpos.
    exists s', t', a. split_and!; [done|done|done|lia| |lia]. unfold nonzero. rewrite filter_cons_True by lia. by eapply keys_removed.
Qed.

Lemma nonzero_insert l i x y : l !! i = Some x -> nonzero [x] ++ nonzero (<[i := y]> l) ≡ₚ nonzero [y] ++ nonzero l.
Proof. intros Hi. unfold nonzero. rewrite <- !filter_app. cbn [app]. by rewrite (insert_perm l i x y Hi). Qed.

Lemma nonzero_single a : a <> 0 -> nonzero [a] = [a].
Proof. intros. unfold nonzero. by rewrite filter_cons_True. Qed.

Lemma present_ok s e t sibling : entry_ok s e t -> sibling <> 0 ->
  match position sibling (cache e) with Some _ => Ok true | None => tree_contains MAX_DEPTH s (root e) sibling end = Ok (E:=Empty_set) (bool_decide (sibling ∈ blocks_of e t)).
Proof.
  intros [Hr Ht _ _] Hne. unfold blocks_of, nonzero. destruct (position sibling (cache e)) as [i|] eqn:Hp.
  - apply slot_Some, list_elem_of_lookup_2 in Hp. rewrite bool_decide_true; [done|]. apply elem_of_app. left. by apply list_elem_of_filter.
  - apply slot_None in Hp. rewrite Hr, (contains_root s t) by done. f_equal. apply bool_decide_ext. rewrite elem_of_app, list_elem_of_filter. tauto.
Qed.

Lemma take_out_ok s e t sibling : entry_ok s e t -> sibling <> 0 -> sibling ∈ blocks_of e t ->
  exists s' e' t', take_out s e sibling (position sibling (cache e)) = Ok (s', e') /\ entry_ok s' e' t' /\ blocks_of e t ≡ₚ sibling :: blocks_of e' t' /\ evolves (keys t) s s'.
Proof.
  intros [Hr Ht Hc Hnn] Hne Hin. unfold take_out, blocks_of. destruct (position sibling (cache e)) as [i|] eqn:Hp.
  - apply slot_Some in Hp. destruct (smallest_ok s t Ht) as (s' & t' & a & Hs & Ht' & He & Ha & Hk & _). rewrite Hr, Hs. eexists s', _, t'. split; [done|]. split_and!.
    + split; cbn; [done|done|by rewrite length_insert|]. by apply Forall_insert.
    + cbn [cache]. rewrite Hk, (assoc_L (++)), <- (Permutation_app_comm (nonzero [a])), <- (nonzero_insert _ _ _ a Hp), nonzero_single by done. done.
    + done.
  - apply slot_None in Hp. assert (Hk : sibling ∈ keys t).
    { unfold blocks_of, nonzero in Hin. rewrite elem_of_app, list_elem_of_filter in Hin. tauto. }
    destruct (remove_root s t sibling Ht Hk) as (s' & t' & Hs & Ht' & He & Hkeys). rewrite Hr, Hs. eexists s', _, t'. split; [done|]. split_and!; [by split| |done].
    cbn [cache]. rewrite (keys_removed s s' t t' sibling) by done. by rewrite Permutation_middle.
Qed.

Lemma put_in_ok s e t a : entry_ok s e t -> backed s a -> a < 2 ^ 64 -> a ∉ keys t ->
  exists s' e' t', put_in s e a = Ok (s', e') /\ entry_ok s' e' t' /\ blocks_of e' t' ≡ₚ a :: blocks_of e t /\ evolves (a :: keys t) s s'.
Proof.
  intros [Hr Ht Hc Hnn] Hb Hlt Hnot. unfold put_in, blocks_of. apply backed_pos in Hb as Hpos. destruct (position 0 (cache e)) as [i|] eqn:Hp.
  - apply slot_Some in Hp. eexists s, _, t. split; [done|]. split_and!; [split; cbn; [done|done|by rewrite length_insert|apply Forall_insert; [done|lia]]| |apply evolves_refl].
    cbn [cache]. pose proof (nonzero_insert _ _ _ a Hp) as Hperm. rewrite (nonzero_single a) in Hperm by lia. cbn [nonzero filter list_filter app] in Hperm.
    rewrite decide_False in Hperm by (intros Hx; by apply Hx). cbn [app] in Hperm. by rewrite Hperm.
  - destruct (insert_root s t a Ht Hb Hlt Hnot) as (s1 & h & s' & t' & Hi & Hcol & Hh & Ht' & He & Hkeys). rewrite Hr, Hi, Hcol. eexists s', _, t'. split; [done|].
    split_and!; [by split| |done]. cbn [cache]. rewrite (keys_inserted s s' t t' a) by done. by rewrite Permutation_middle.
Qed.

Lemma swap_cache_ok slots : forall a slots' a', Forall (fun x => 0 <= x) slots -> 0 <= a -> swap_cache slots a = (slots', a') ->
  length slots' = length slots /\ a' :: slots' ≡ₚ a :: slots /\ a <= a' /\ Forall (fun x => x <= a') slots /\ Forall (fun x => 0 <= x) slots'.
Proof.
  induction slots as [|x slots IH]; intros a slots' a' Hnn Ha; cbn [swap_cache]; [intros [= <- <-]; split_and!; auto; lia|]. apply Forall_cons in Hnn as [Hx Hnn].
  destruct ((a =? 0) || (a <? x)) eqn:Hc.
  - destruct (swap_cache slots x) as [sl y] eqn:Hs. intros [= <- <-]. destruct (IH _ _ _ Hnn Hx Hs) as (L & P & Hle & Hf & Hn2).
    assert (a <= x) by (apply orb_true_iff in Hc as [?|?]; to_prop; lia). split_and!; [cbn; by rewrite L| |lia|by constructor|by constructor].
    rewrite Permutation_swap, P. done.
  - destruct (swap_cache slots a) as [sl y] eqn:Hs. intros [= <- <-]. destruct (IH _ _ _ Hnn Ha Hs) as (L & P & Hle & Hf & Hn2). apply orb_false_iff in Hc as [_ Hc]. to_prop.
    split_and!; [cbn; by rewrite L| |lia|constructor; [lia|done]|by constructor]. rewrite Permutation_swap, P. apply Permutation_swap.
Qed.

(** Taking a block of exactly this size, if there is one. *)
Lemma take_best_ok s e t : entry_ok s e t -> exists s' r a slots a' t', smallest MAX_DEPTH s (root e) = Ok (s', (r, a)) /\ swap_cache (cache e) a = (slots, a')
  /\ entry_ok s' (mkEntry slots r) t' /\ evolves (keys t) s s' /\ 0 <= a' /\ blocks_of e t ≡ₚ nonzero [a'] ++ blocks_of (mkEntry slots r) t' /\ (a' = 0 -> blocks_of e t = []).
Proof.
  intros [Hr Ht Hc Hnn]. destruct (smallest_ok s t Ht) as (s' & t' & a & Hs & Ht' & He & Ha & Hk & Hz0). destruct (swap_cache (cache e) a) as [slots a'] eqn:Hswap.
  destruct (swap_cache_ok _ _ _ _ Hnn Ha Hswap) as (L & P & Hle & Hf & Hn2). exists s', (addr t'), a, slots, a', t'. rewrite Hr.
  assert (Hperm : blocks_of e t ≡ₚ nonzero [a'] ++ blocks_of (mkEntry slots (addr t')) t').
  { unfold blocks_of. cbn [cache]. rewrite Hk, (assoc_L (++)), (Permutation_app_comm (nonzero (cache e))), (assoc_L (++)). f_equiv. unfold nonzero. rewrite <- !filter_app. cbn [app]. by rewrite P. }
  split_and!; try done; [by split; cbn; [|done|congruence|]|lia|]. intros ->. assert (a = 0) as -> by lia.
  assert (Hz : nonzero (cache e) = []). { unfold nonzero. clear -Hf Hnn. induction (cache e) as [|x l IH]; [done|]. apply Forall_cons in Hf as [? ?]. apply Forall_cons in Hnn as [? ?]. rewrite filter_cons_False by lia. auto. }
  unfold blocks_of. rewrite Hz, (Hz0 eq_refl). done.
Qed.
End entry.

(** ** Buddies *)

Lemma size_of_pow i : size_of i = 2 ^ Z.of_nat i.
Proof. unfold size_of. by rewrite Z.shiftl_1_l. Qed.

Lemma pow_pos i : 0 < 2 ^ Z.of_nat i.
Proof. apply Z.pow_pos_nonneg; lia. Qed.

Lemma pow_succ i : 2 ^ Z.of_nat (S i) = 2 * 2 ^ Z.of_nat i.
Proof. replace (Z.of_nat (S i)) with (Z.succ (Z.of_nat i)) by lia. apply Z.pow_succ_r. lia. Qed.

Lemma bits_aligned a k : 0 <= k -> (forall i, 0 <= i < k -> Z.testbit a i = false) -> a mod 2 ^ k = 0.
Proof.
  intros Hk Ha. rewrite <- Z.land_ones by done. apply Z.bits_inj'. intros i Hi. rewrite Z.land_spec, Z.bits_0.
  destruct (Z.lt_ge_cases i k); [by rewrite Ha|]. by rewrite Z.ones_spec_high, andb_false_r by lia.
Qed.

(** A block and its buddy are the halves of the merged block. *)
Lemma sibling_cases a i : a mod 2 ^ Z.of_nat i = 0 ->
  let sib := Z.lxor a (size_of i) in let m := Z.ldiff a (size_of i) in
  m mod 2 ^ Z.of_nat (S i) = 0 /\ (m = a /\ sib = a + 2 ^ Z.of_nat i \/ m = sib /\ a = sib + 2 ^ Z.of_nat i).
Proof.
  intros Ha. cbn zeta. rewrite size_of_pow. set (k := Z.of_nat i) in *. assert (Hk : 0 <= k) by lia. split.
  - apply bits_aligned; [lia|]. intros j Hj. rewrite Z.ldiff_spec, flag_bit by lia. destruct (Z.eqb_spec k j); [apply andb_false_r|]. rewrite andb_true_r. eapply aligned_bits; [|done]. lia.
  - destruct (Z.testbit a k) eqn:Hb; [right|left].
    + assert (Hx : Z.lxor a (2 ^ k) = Z.ldiff a (2 ^ k)).
      { apply Z.bits_inj'. intros j Hj. rewrite Z.lxor_spec, Z.ldiff_spec, flag_bit by lia. destruct (Z.eqb_spec k j) as [<-|]; [by rewrite Hb|]. by rewrite xorb_false_r, andb_true_r. }
      rewrite Hx. split; [done|]. rewrite <- Z.sub_nocarry_ldiff; [lia|]. apply Z.bits_inj'. intros j Hj. rewrite Z.ldiff_spec, flag_bit, Z.bits_0 by lia.
      destruct (Z.eqb_spec k j) as [<-|]; [by rewrite Hb|done].
    + split.
      * apply Z.bits_inj'. intros j Hj. rewrite Z.ldiff_spec, flag_bit by lia. destruct (Z.eqb_spec k j) as [<-|]; [by rewrite Hb|apply andb_true_r].
      * symmetry. apply Z.add_nocarry_lxor. apply Z.bits_inj'. intros j Hj. rewrite Z.land_spec, flag_bit, Z.bits_0 by lia.
        destruct (Z.eqb_spec k j) as [<-|]; [by rewrite Hb|apply andb_false_r].
Qed.

(** ** The invariant *)

Definition free (b : Buddy) (ts : list tree) (i : nat) : list Z :=
  match b_entries b !! i, ts !! i with Some e, Some t => blocks_of e t | _, _ => [] end.

Definition block (a : Z) (i : nat) (x : Z) : Prop := a <= x < a + 2 ^ Z.of_nat i.

Definition covered (b : Buddy) (ts : list tree) (x : Z) : Prop := exists i a, a ∈ free b ts i /\ block a i x.

Definition blocks_apart (i : nat) (a : Z) (j : nat) (a' : Z) : Prop := a + 2 ^ Z.of_nat i <= a' \/ a' + 2 ^ Z.of_nat j <= a.

Section invariant.
Context `{NodesLaws M} (MIN MAX : nat) (debug : bool).

(** An aligned block of memory in which every place for a node is backed. *)
Record block_ok (s : M) (i : nat) (a : Z) : Prop := {
  bl_min : (MIN <= i)%nat;
  bl_pos : 0 < a;
  bl_aligned : a mod 2 ^ Z.of_nat i = 0;
  bl_end : a + 2 ^ Z.of_nat i <= 2 ^ 64;
  bl_backed x : block a i x -> x mod 2 ^ Z.of_nat MIN = 0 -> backed s x }.

Record buddy_ok (s : M) (b : Buddy) (ts : list tree) : Prop := {
  bk_entries : Forall2 (entry_ok s) (b_entries b) ts;
  bk_len : length (b_entries b) = MAX;
  bk_nodup i : NoDup (free b ts i);
  bk_blocks i a : a ∈ free b ts i -> block_ok s i a;
  bk_apart i j a a' : a ∈ free b ts i -> a' ∈ free b ts j -> (i, a) <> (j, a') -> blocks_apart i a j a';
  bk_empty i : (empty_above b <= i)%nat -> free b ts i = [];
  bk_merged i a : a ∈ free b ts i -> Z.lxor a (size_of i) ∈ free b ts i -> may_merge s a (size_of i) = Ok false }.

Lemma block_ok_evolves ks s s' i a : evolves ks s s' -> block_ok s i a -> block_ok s' i a.
Proof. intros He []. split; try done. intros x Hx Hm. apply (ev_backed _ _ _ He). auto. Qed.

Lemma tree_ok_evolves ks s s' t : evolves ks s s' -> (forall k, k ∈ keys t -> k ∉ ks) -> tree_ok s t -> tree_ok s' t.
Proof. intros He Hk []. split; try done. by eapply stored_evolves. Qed.

Lemma aligned_down a i : (MIN <= i)%nat -> a mod 2 ^ Z.of_nat i = 0 -> a mod 2 ^ Z.of_nat MIN = 0.
Proof. intros Hle Ha. apply bits_aligned; [lia|]. intros j Hj. eapply aligned_bits; [|done]. lia. Qed.

Lemma block_start s i a : block_ok s i a -> backed s a.
Proof. intros []. apply bl_backed0; [split; [lia|pose proof (pow_pos i); lia]|by eapply aligned_down]. Qed.

Lemma free_insert b ts i e j ea : b_entries b !! i = Some e -> length (b_entries b) = length ts ->
  forall e' t', free (mkBuddy (<[i := e']> (b_entries b)) ea) (<[i := t']> ts) j = if decide (j = i) then blocks_of e' t' else free b ts j.
Proof.
  intros Hi Hlen e' t'. apply lookup_lt_Some in Hi. unfold free. cbn [b_entries]. destruct (decide (j = i)) as [->|Hne].
  - by rewrite !list_lookup_insert_eq by lia.
  - by rewrite !list_lookup_insert_ne by done.
Qed.

(** A new entry of one size. *)
Lemma buddy_update s b ts i e t s' e' t' ks ea : buddy_ok s b ts -> b_entries b !! i = Some e -> ts !! i = Some t -> entry_ok s' e' t' -> evolves ks s s' ->
  (forall x j a, x ∈ ks -> j <> i -> a ∈ free b ts j -> x <> a) ->
  NoDup (blocks_of e' t') -> (forall a, a ∈ blocks_of e' t' -> block_ok s i a) ->
  (forall a j a', a ∈ blocks_of e' t' -> j <> i -> a' ∈ free b ts j -> blocks_apart i a j a') ->
  (forall a a', a ∈ blocks_of e' t' -> a' ∈ blocks_of e' t' -> a <> a' -> blocks_apart i a i a') ->
  (forall j, (ea <= j)%nat -> (if decide (j = i) then blocks_of e' t' else free b ts j) = []) ->
  (forall a, a ∈ blocks_of e' t' -> Z.lxor a (size_of i) ∈ blocks_of e' t' -> may_merge s a (size_of i) = Ok false) ->
  buddy_ok s' (mkBuddy (<[i := e']> (b_entries b)) ea) (<[i := t']> ts).
Proof.
  intros [B1 B2 B3 B4 B5 B6 B7] Hi Ht He' Hev Hks Hnd Hok Hap1 Hap2 Hea Hmg. pose proof (Forall2_length _ _ _ B1) as Hlen.
  assert (Hfree := free_insert b ts i e). split; cbn [b_entries empty_above].
  - apply Forall2_same_length_lookup_2; [by rewrite !length_insert|]. intros j x y Hx Hy. destruct (decide (j = i)) as [->|Hne].
    + apply lookup_lt_Some in Hi, Ht. rewrite list_lookup_insert_eq in Hx by lia. rewrite list_lookup_insert_eq in Hy by lia. by simplify_eq.
    + rewrite list_lookup_insert_ne in Hx by done. rewrite list_lookup_insert_ne in Hy by done. pose proof (Forall2_lookup_lr _ _ _ _ _ _ B1 Hx Hy) as [R1 R2 R3 R4].
      split; try done. eapply tree_ok_evolves; [done| |done]. intros k Hk Hbad. eapply (Hks k j k); [done|done| |done]. unfold free. rewrite Hx, Hy. apply elem_of_app. by right.
  - by rewrite length_insert.
  - intros j. rewrite (Hfree j ea) by done. case_decide; [done|apply B3].
  - intros j a. rewrite (Hfree j ea) by done. intros Ha. eapply block_ok_evolves; [done|]. revert Ha. case_decide; [subst; apply Hok|apply B4].
  - intros j j' a a'. rewrite !(Hfree _ ea) by done. repeat case_decide; subst; intros Ha Ha' Hne.
    + apply Hap2; [done|done|]. intros ->. by apply Hne.
    + by apply Hap1.
    + destruct (Hap1 a' j a) as [?|?]; [done|done|done|by right|by left].
    + by apply B5.
  - intros j Hj. rewrite (Hfree j ea) by done. by apply Hea.
  - intros j a. rewrite !(Hfree j ea), (ev_merge _ _ _ Hev) by done. case_decide; [subst; apply Hmg|apply B7].
Qed.

Lemma free_entry b ts i e t : b_entries b !! i = Some e -> ts !! i = Some t -> free b ts i = blocks_of e t.
Proof. intros Hi Ht. unfold free. by rewrite Hi, Ht. Qed.

(** Blocks of different sizes at one address would overlap. *)
Lemma sizes_differ s b ts i j a : buddy_ok s b ts -> a ∈ free b ts i -> a ∈ free b ts j -> i = j.
Proof.
  intros Hb Hi Hj. destruct (decide (i = j)) as [|Hne]; [done|]. destruct (bk_apart _ _ _ Hb i j a a Hi Hj) as [Hx|Hx]; [congruence|..];
    [pose proof (pow_pos i)|pose proof (pow_pos j)]; lia.
Qed.

(** Removing blocks of one size. *)
Lemma buddy_shrink s b ts i e t s' e' t' gone : buddy_ok s b ts -> b_entries b !! i = Some e -> ts !! i = Some t -> entry_ok s' e' t' -> evolves (keys t) s s' ->
  blocks_of e t ≡ₚ gone ++ blocks_of e' t' -> buddy_ok s' (mkBuddy (<[i := e']> (b_entries b)) (empty_above b)) (<[i := t']> ts).
Proof.
  intros Hb Hi Ht He' Hev Hperm. pose proof (free_entry b ts i e t Hi Ht) as Hfree.
  assert (Hsub : forall a, a ∈ blocks_of e' t' -> a ∈ free b ts i) by (intros a Ha; rewrite Hfree, Hperm; apply elem_of_app; by right).
  eapply (buddy_update s b ts i e t); try done.
  - intros x j a Hx Hne Ha ->. apply Hne. eapply (sizes_differ s b ts j i a Hb Ha). rewrite Hfree. apply elem_of_app. by right.
  - pose proof (bk_nodup _ _ _ Hb i) as Hnd. rewrite Hfree, Hperm in Hnd. by apply NoDup_app in Hnd as (_ & _ & ?).
  - intros a Ha. by apply (bk_blocks _ _ _ Hb), Hsub.
  - intros a j a' Ha Hne Ha'. apply (bk_apart _ _ _ Hb); [by apply Hsub|done|congruence].
  - intros a a' Ha Ha' Hne. apply (bk_apart _ _ _ Hb); [by apply Hsub..|congruence].
  - intros j Hj. pose proof (bk_empty _ _ _ Hb j Hj) as Hempty. case_decide; [subst j|done]. rewrite Hfree in Hempty. rewrite Hempty in Hperm.
    apply Permutation_nil in Hperm. by apply app_nil in Hperm as [_ ?].
  - intros a Ha Hs. apply (bk_merged _ _ _ Hb); by apply Hsub.
Qed.

(** Adding a block of one size. *)
Lemma buddy_grow s b ts i e t s' e' t' a : buddy_ok s b ts -> b_entries b !! i = Some e -> ts !! i = Some t -> entry_ok s' e' t' -> evolves (a :: keys t) s s' ->
  blocks_of e' t' ≡ₚ a :: blocks_of e t -> block_ok s i a -> (forall j a', a' ∈ free b ts j -> blocks_apart i a j a') ->
  (Z.lxor a (size_of i) ∈ free b ts i -> may_merge s a (size_of i) = Ok false) ->
  buddy_ok s' (mkBuddy (<[i := e']> (b_entries b)) (Nat.max (empty_above b) (S i))) (<[i := t']> ts).
Proof.
  intros Hb Hi Ht He' Hev Hperm Hok Hap Hmg. pose proof (free_entry b ts i e t Hi Ht) as Hfree. pose proof (pow_pos i) as Hpos.
  assert (Hin : forall x, x ∈ blocks_of e' t' <-> x = a \/ x ∈ free b ts i) by (intros x; by rewrite Hperm, Hfree, elem_of_cons).
  assert (Hnew : forall j, a ∉ free b ts j) by (intros j Ha; destruct (Hap j a Ha) as [?|?]; [|pose proof (pow_pos j)]; lia).
  assert (Hflip : Z.lxor (Z.lxor a (size_of i)) (size_of i) = a) by by rewrite Z.lxor_assoc, Z.lxor_nilpotent, Z.lxor_0_r.
  eapply (buddy_update s b ts i e t); try done.
  - intros x j y [->|Hx]%elem_of_cons Hne Hy ->; [by eapply Hnew|]. apply Hne. eapply (sizes_differ s b ts j i y Hb Hy). rewrite Hfree. apply elem_of_app. by right.
  - rewrite Hperm, <- Hfree. apply NoDup_cons. split; [apply Hnew|apply Hb].
  - intros x [->|Hx]%Hin; [done|]. by apply (bk_blocks _ _ _ Hb).
  - intros x j y [->|Hx]%Hin Hne Hy; [by apply Hap|]. apply (bk_apart _ _ _ Hb); [done|done|congruence].
  - intros x y [->|Hx]%Hin [->|Hy]%Hin Hne; [done|by apply Hap| |apply (bk_apart _ _ _ Hb); [done|done|congruence]].
    destruct (Hap i x Hx); [by right|by left].
  - intros j Hj. case_decide; [lia|]. apply (bk_empty _ _ _ Hb). lia.
  - intros x [->|Hx]%Hin [Hs|Hs]%Hin; [|auto| |by apply (bk_merged _ _ _ Hb)].
    + exfalso. assert (Hz : size_of i = Z.lxor a a) by (rewrite <- Hs at 2; by rewrite <- Z.lxor_assoc, Z.lxor_nilpotent, Z.lxor_0_l).
      rewrite Z.lxor_nilpotent, size_of_pow in Hz. lia.
    + rewrite <- (may_merge_sym s x). subst a. apply Hmg. by rewrite Z.lxor_assoc, Z.lxor_nilpotent, Z.lxor_0_r.
Qed.

(** ** Giving back and taking *)

Lemma covered_perm b ts i e t e' t' ea gone x : b_entries b !! i = Some e -> ts !! i = Some t -> length (b_entries b) = length ts ->
  blocks_of e t ≡ₚ gone ++ blocks_of e' t' ->
  covered b ts x <-> covered (mkBuddy (<[i := e']> (b_entries b)) ea) (<[i := t']> ts) x \/ exists a, a ∈ gone /\ block a i x.
Proof.
  intros Hi Ht Hlen Hperm. pose proof (free_entry b ts i e t Hi Ht) as Hfree. assert (Hins := free_insert b ts i e). unfold covered. split.
  - intros (j & a & Ha & Hx). destruct (decide (j = i)) as [->|Hne].
    + rewrite Hfree, Hperm in Ha. apply elem_of_app in Ha as [Ha|Ha]; [right; by exists a|left]. exists i, a. rewrite (Hins i ea), decide_True by done. done.
    + left. exists j, a. rewrite (Hins j ea), decide_False by done. done.
  - intros [(j & a & Ha & Hx)|(a & Ha & Hx)]; [|exists i, a; rewrite Hfree, Hperm, elem_of_app; auto].
    rewrite (Hins j ea) in Ha by done. case_decide; [subst j; exists i, a; rewrite Hfree, Hperm, elem_of_app; auto|by exists j, a].
Qed.

(** Only nodes in [P] were written. *)
Definition touches (P : Z -> Prop) (s s' : M) : Prop := exists ks, evolves ks s s' /\ forall k, k ∈ ks -> P k.

Lemma touches_refl P s : touches P s s.
Proof. exists []. split; [apply evolves_refl|by intros k ?%not_elem_of_nil]. Qed.

Lemma touches_trans P P' s s1 s2 : touches P s s1 -> touches P' s1 s2 -> touches (fun x => P x \/ P' x) s s2.
Proof.
  intros (ks & He & Hk) (ks' & He' & Hk'). exists (ks ++ ks'). split; [|intros k [?|?]%elem_of_app; auto].
  eapply evolves_trans; (eapply evolves_mono; [done|]); intros k Hin; apply elem_of_app; auto.
Qed.

Lemma touches_mono P P' s s' : (forall x, P x -> P' x) -> touches P s s' -> touches P' s s'.
Proof. intros HP (ks & He & Hk). exists ks. auto. Qed.

Lemma touches_backed P s s' x : touches P s s' -> backed s' x <-> backed s x.
Proof. intros (ks & He & _). apply He. Qed.

Lemma key_covered b ts i e t k : b_entries b !! i = Some e -> ts !! i = Some t -> k ∈ keys t -> covered b ts k.
Proof.
  intros Hi Ht Hk. exists i, k. split; [rewrite (free_entry b ts i e t) by done; apply elem_of_app; by right|]. unfold block. pose proof (pow_pos i). lia.
Qed.

(** What [add] achieves; [r] is the block that outgrew the range, or 0. *)
Record added (s : M) (b : Buddy) (ts : list tree) (address : Z) (bits : nat) (s' : M) (b' : Buddy) (ts' : list tree) (r : Z) : Prop := {
  ad_ok : buddy_ok s' b' ts';
  ad_cover x : covered b' ts' x \/ (r <> 0 /\ block r MAX x) <-> covered b ts x \/ block address bits x;
  ad_rest : r <> 0 -> block_ok s' MAX r /\ forall j a, a ∈ free b' ts' j -> blocks_apart MAX r j a;
  ad_touch : touches (fun x => covered b ts x \/ block address bits x) s s' }.

(** A block of size [2^j] at address [2^j] has its buddy at address 0, which also marks an empty slot of
    the cache. No such block is part of the memory, or it may not merge. *)
Definition null_apart (s : M) (covered : Z -> Prop) (bits : nat) : Prop :=
  forall j, (bits <= j < MAX)%nat -> (exists x, block (2 ^ Z.of_nat j) j x /\ ~ covered x) \/ may_merge s (2 ^ Z.of_nat j) (size_of j) = Ok false.

Lemma null_apart_touches P s s' (c : Z -> Prop) bits : touches P s s' -> null_apart s c bits -> null_apart s' c bits.
Proof. intros (ks & He & _) Hn j Hj. destruct (Hn j Hj) as [?|Hm]; [by left|right]. by rewrite (ev_merge _ _ _ He). Qed.

(** The buddies of a block and their union. *)
Lemma merge_block s i a sib : sib = Z.lxor a (size_of i) -> block_ok s i a -> block_ok s i sib ->
  block_ok s (S i) (Z.ldiff a (size_of i)) /\ forall x, block (Z.ldiff a (size_of i)) (S i) x <-> block a i x \/ block sib i x.
Proof.
  intros -> [A1 A2 A3 A4 A5] [B1 B2 B3 B4 B5]. destruct (sibling_cases a i A3) as [Hm Hcase]. set (sib := Z.lxor a (size_of i)) in *. set (m := Z.ldiff a (size_of i)) in *.
  assert (Hx : forall x, block m (S i) x <-> block a i x \/ block sib i x) by (intros x; unfold block; rewrite pow_succ; lia).
  split; [|done]. split; [lia|lia|done|rewrite pow_succ; lia|]. intros x [?|?]%Hx ?; auto.
Qed.

Lemma lookup_entry_ok s b ts i : buddy_ok s b ts -> (i < MAX)%nat -> exists e t, b_entries b !! i = Some e /\ ts !! i = Some t /\ entry_ok s e t.
Proof.
  intros Hb Hi. rewrite <- (bk_len _ _ _ Hb) in Hi. apply lookup_lt_is_Some_2 in Hi as [e He].
  destruct (Forall2_lookup_l _ _ _ _ _ (bk_entries _ _ _ Hb) He) as (t & Ht & Hok). by exists e, t.
Qed.

(** The round of [add] that keeps the block. *)
Lemma put_in_round s b ts address bits e t : buddy_ok s b ts -> b_entries b !! bits = Some e -> ts !! bits = Some t -> entry_ok s e t -> block_ok s bits address ->
  (forall j a, a ∈ free b ts j -> blocks_apart bits address j a) -> (Z.lxor address (size_of bits) ∈ free b ts bits -> may_merge s address (size_of bits) = Ok false) ->
  exists s' e' ts', put_in s e address = Ok (s', e') /\
    let b' := set_entry bits e' (mkBuddy (b_entries b) (Nat.max (empty_above b) (S bits))) in added s b ts address bits s' b' ts' 0
    /\ (forall j, j <> bits -> free b' ts' j = free b ts j) /\ free b' ts' bits ≡ₚ address :: free b ts bits.
Proof.
  intros Hb Hi Ht He Hok Hap Hmg. pose proof (pow_pos bits) as Hpos. assert (Hnot : address ∉ keys t).
  { intros Hk. destruct (Hap bits address) as [?|?]; [|lia|lia]. rewrite (free_entry b ts bits e t Hi Ht). apply elem_of_app. by right. }
  destruct (put_in_ok s e t address He) as (s' & e' & t' & Hput & He' & Hperm & Hev); [by eapply block_start|destruct Hok; lia|done|].
  exists s', e', (<[bits := t']> ts). split; [done|]. unfold set_entry. cbn [b_entries empty_above]. pose proof (Forall2_length _ _ _ (bk_entries _ _ _ Hb)) as Hlen.
  split_and!; [|intros j Hj; by rewrite (free_insert b ts bits e j), decide_False by done|
    by rewrite (free_insert b ts bits e bits), decide_True, Hperm, <- (free_entry b ts bits e t) by done].
  split; [by eapply (buddy_grow s b ts)| |done|].
  2: { exists (address :: keys t). split; [done|]. intros k [->|Hk]%elem_of_cons; [right; unfold block; lia|left; by eapply key_covered]. }
  intros x. set (b' := mkBuddy _ _).
  assert (Hcov : covered b' (<[bits := t']> ts) x <-> covered b ts x \/ block address bits x).
  { pose proof (covered_perm b' (<[bits := t']> ts) bits e' t' e t (empty_above b) [address] x) as Hc. subst b'. cbn [b_entries] in Hc.
    apply lookup_lt_Some in Hi as Hi', Ht as Ht'. rewrite Hc; [|by rewrite list_lookup_insert_eq|by rewrite list_lookup_insert_eq|by rewrite !length_insert|done].
    rewrite !list_insert_insert_eq, !list_insert_id by done. destruct b as [es ea]. cbn [b_entries empty_above]. split; (intros [?|Hx]; [by left|right]).
    - by destruct Hx as (y & ->%list_elem_of_singleton & ?).
    - exists address. by rewrite list_elem_of_singleton. }
  rewrite Hcov. split; [by intros [?|[? _]]|by left].
Qed.

Lemma added_step s b ts a bits s1 b1 ts1 a1 s' b' ts' r : touches (covered b ts) s s1 ->
  (forall x, covered b1 ts1 x \/ block a1 (S bits) x <-> covered b ts x \/ block a bits x) ->
  added s1 b1 ts1 a1 (S bits) s' b' ts' r -> added s b ts a bits s' b' ts' r.
Proof.
  intros Ht Hc [A1 A2 A3 A4]. split; try done; [intros x; by rewrite A2, Hc|]. eapply touches_mono; [|by eapply touches_trans]. intros x. cbn. rewrite Hc. tauto.
Qed.

Lemma add_loop_ok fuel : forall s b ts address bits, buddy_ok s b ts -> (bits <= MAX)%nat -> block_ok s bits address ->
  (forall j a, a ∈ free b ts j -> blocks_apart bits address j a) -> null_apart s (fun x => covered b ts x \/ block address bits x) bits -> (MAX - bits <= fuel)%nat ->
  exists s' b' ts' r, add_loop MAX fuel s b address bits = Ok (s', b', r) /\ added s b ts address bits s' b' ts' r.
Proof.
  induction fuel as [|fuel IH]; intros s b ts address bits Hb Hmax Hok Hap Hnull Hfuel; cbn [add_loop]; destruct (Nat.leb_spec MAX bits) as [Hge|Hlt]; try lia.
  1,2: assert (bits = MAX) as -> by lia; exists s, b, ts, address; split; [done|]; destruct Hok; split; [done| |by intros _; split|apply touches_refl];
    intros x; split; [intros [?|[_ ?]]; auto|intros [?|?]; [by left|right; split; [lia|done]]].
  destruct (lookup_entry_ok s b ts bits Hb Hlt) as (e & t & Hi & Ht & He). rewrite Hi. cbn [expect]. set (sib := Z.lxor address (size_of bits)).
  pose proof (free_entry b ts bits e t Hi Ht) as Hfree. pose proof (pow_pos bits) as Hpos. destruct (sibling_cases address bits (bl_aligned _ _ _ Hok)) as [_ Hcase]. fold sib in Hcase.
  destruct (decide (sib = 0)) as [Hz|Hne].
  { assert (Ha : address = 2 ^ Z.of_nat bits) by (pose proof (bl_pos _ _ _ Hok); lia). assert (Hmm : may_merge s address (size_of bits) = Ok false).
    { rewrite Ha. destruct (Hnull bits) as [(x & Hx & Hno)|?]; [lia| |done]. exfalso. apply Hno. right. by rewrite Ha. }
    rewrite (eo_root _ _ _ He), (contains_root s t sib (eo_tree _ _ _ He)), Hmm. destruct (put_in_round s b ts address bits e t) as (s' & e' & ts' & Hput & Hadd & _); try done. exists s', (set_entry bits e' (mkBuddy (b_entries b) (Nat.max (empty_above b) (S bits)))), ts', 0.
    split; [|done]. by destruct (position sib (cache e)), (bool_decide (sib ∈ keys t)); rewrite Hput. }
  rewrite (present_ok s e t sib He Hne). rewrite <- Hfree. destruct (bool_decide_reflect (sib ∈ free b ts bits)) as [Hin|Hout].
  2: { destruct (put_in_round s b ts address bits e t) as (s' & e' & ts' & -> & Hadd & _); try done. by eexists _, _, _, _. }
  pose proof (bk_blocks _ _ _ Hb _ _ Hin) as Hsib. destruct (may_merge_ok s address (size_of bits)) as [[] Hmm]; [by eapply block_start|by eapply block_start| |]; rewrite Hmm.
  2: { destruct (put_in_round s b ts address bits e t) as (s' & e' & ts' & -> & Hadd & _); try done. by eexists _, _, _, _. }
  assert (Hinb : sib ∈ blocks_of e t) by by rewrite <- Hfree. destruct (take_out_ok s e t sib He Hne Hinb) as (s1 & e1 & t1 & -> & He1 & Hperm & Hev).
  pose proof (Forall2_length _ _ _ (bk_entries _ _ _ Hb)) as Hlen. destruct (merge_block s bits address sib eq_refl Hok Hsib) as [Hmok Hmcov].
  pose proof (buddy_shrink s b ts bits e t s1 e1 t1 [sib] Hb Hi Ht He1 Hev Hperm) as Hb1. fold (set_entry bits e1 b) in Hb1. set (b1 := set_entry bits e1 b) in *. set (ts1 := <[bits := t1]> ts) in *.
  assert (Hcov : forall x, covered b1 ts1 x \/ block (Z.ldiff address (size_of bits)) (S bits) x <-> covered b ts x \/ block address bits x).
  { intros x. rewrite Hmcov, (covered_perm b ts bits e t e1 t1 (empty_above b) [sib] x) by done. fold (set_entry bits e1 b) b1 ts1. split; [|intros [[?|(y & Hy & ?)]|?]; auto].
    - intros [?|[?|?]]; [by left; left|by right|]. left. right. exists sib. by rewrite list_elem_of_singleton.
    - apply list_elem_of_singleton in Hy as ->. auto. }
  destruct (IH s1 b1 ts1 (Z.ldiff address (size_of bits)) (S bits)) as (s' & b' & ts' & r & Hadd & Hpost); [done|lia|by eapply block_ok_evolves| | |lia|].
  - intros j a Ha. assert (Hold : a ∈ free b ts j /\ (j, a) <> (bits, sib)).
    { subst b1 ts1. unfold set_entry in Ha. rewrite (free_insert b ts bits e j (empty_above b)) in Ha by done. case_decide; [subst j|split; [done|congruence]].
      rewrite Hfree, Hperm, elem_of_cons. split; [by right|]. intros [= ->]. pose proof (bk_nodup _ _ _ Hb bits) as Hnd. rewrite Hfree, Hperm in Hnd. by apply NoDup_cons in Hnd as [? _]. }
    destruct Hold as [Hold Hdiff]. pose proof (Hap j a Hold) as P1. pose proof (bk_apart _ _ _ Hb j bits a sib Hold Hin Hdiff) as P2. unfold blocks_apart in *. rewrite pow_succ. pose proof (pow_pos j). lia.
  - intros j Hj. rewrite (ev_merge _ _ _ Hev). destruct (Hnull j) as [(x & Hx & Hno)|?]; [lia| |by right]. left. exists x. split; [done|]. by rewrite Hcov.
  - exists s', b', ts', r. split; [done|]. eapply added_step; [|exact Hcov|done]. exists (keys t). split; [done|]. intros k Hk. by eapply key_covered.
Qed.

(** What [take] achieves; 0 when there is no block of this size or above. *)
Record taken (s : M) (b : Buddy) (ts : list tree) (bits : nat) (s' : M) (b' : Buddy) (ts' : list tree) (r : Z) : Prop := {
  tk_ok : buddy_ok s' b' ts';
  tk_none : r = 0 -> (forall j, (bits <= j)%nat -> free b ts j = []) /\ forall j, free b' ts' j = free b ts j;
  tk_some : r <> 0 -> block_ok s' bits r /\ (forall x, covered b ts x <-> covered b' ts' x \/ block r bits x)
              /\ forall j a, a ∈ free b' ts' j -> blocks_apart bits r j a;
  tk_below j : (j < bits)%nat -> free b' ts' j = free b ts j;
  tk_touch : touches (covered b ts) s s' }.

Lemma free_beyond s b ts j : buddy_ok s b ts -> (MAX <= j)%nat -> free b ts j = [].
Proof. intros Hb Hj. unfold free. by rewrite (lookup_ge_None_2 (b_entries b)) by (rewrite (bk_len _ _ _ Hb); lia). Qed.

(** A block of exactly this size is there. *)
Lemma take_exact s b ts bits e t s' e' t' a : buddy_ok s b ts -> b_entries b !! bits = Some e -> ts !! bits = Some t -> entry_ok s' e' t' -> evolves (keys t) s s' ->
  blocks_of e t ≡ₚ a :: blocks_of e' t' -> taken s b ts bits s' (set_entry bits e' b) (<[bits := t']> ts) a.
Proof.
  intros Hb Hi Ht He' Hev Hperm. pose proof (Forall2_length _ _ _ (bk_entries _ _ _ Hb)) as Hlen. pose proof (free_entry b ts bits e t Hi Ht) as Hfree.
  assert (Ha : a ∈ free b ts bits) by (rewrite Hfree, Hperm; apply elem_of_cons; by left). pose proof (bk_blocks _ _ _ Hb _ _ Ha) as Hok.
  split; [by eapply (buddy_shrink s b ts bits e t s' e' t' [a])|intros ->; destruct Hok; lia| | |exists (keys t); split; [done|]; intros k Hk; by eapply key_covered].
  - intros _. split_and!; [by eapply block_ok_evolves| |].
    + intros x. rewrite (covered_perm b ts bits e t e' t' (empty_above b) [a] x) by done. split; (intros [?|Hx]; [by left|right]);
        [by destruct Hx as (y & ->%list_elem_of_singleton & ?)|exists a; by rewrite list_elem_of_singleton].
    + intros j y Hy. unfold set_entry in Hy. rewrite (free_insert b ts bits e j (empty_above b)) in Hy by done. assert (Hold : y ∈ free b ts j /\ (bits, a) <> (j, y)).
      { case_decide; [subst j|split; [done|congruence]]. rewrite Hfree, Hperm, elem_of_cons. split; [by right|]. intros [= ->].
        pose proof (bk_nodup _ _ _ Hb bits) as Hnd. rewrite Hfree, Hperm in Hnd. by apply NoDup_cons in Hnd as [? _]. }
      destruct Hold. by apply (bk_apart _ _ _ Hb).
  - intros j Hj. unfold set_entry. rewrite (free_insert b ts bits e j (empty_above b)) by done. rewrite decide_False by lia. done.
Qed.

(** The half of a larger block that stays. *)
Lemma upper_half larger bits : larger mod 2 ^ Z.of_nat (S bits) = 0 ->
  (larger + 2 ^ Z.of_nat bits) mod 2 ^ Z.of_nat bits = 0 /\ Z.lxor (larger + 2 ^ Z.of_nat bits) (size_of bits) = larger.
Proof.
  intros Hl. pose proof (pow_pos bits) as Hp. rewrite pow_succ in Hl. apply Z.mod_divide in Hl as [q Hq]; [|lia].
  assert (Hal : (larger + 2 ^ Z.of_nat bits) mod 2 ^ Z.of_nat bits = 0) by (apply Z.mod_divide; [lia|]; exists (2 * q + 1); lia). split; [done|].
  destruct (sibling_cases _ _ Hal) as [Hm [[Hm1 _]|[_ Hs]]]; [|lia]. exfalso. rewrite Hm1, pow_succ in Hm. apply Z.mod_divide in Hm as [p Hp']; [|lia].
  assert (2 ^ Z.of_nat bits * (2 * q + 1) = 2 ^ Z.of_nat bits * (2 * p)) as Heq%Z.mul_reg_l by lia; lia.
Qed.

(** Splitting a larger block. *)
Lemma split_larger s b ts bits larger : buddy_ok s b ts -> (bits < MAX)%nat -> (MIN <= bits)%nat -> free b ts bits = [] -> block_ok s (S bits) larger ->
  (forall j a, a ∈ free b ts j -> blocks_apart (S bits) larger j a) ->
  exists s' b' ts', add MAX s b (wrap64 (larger + size_of bits)) bits = Ok (s', b', 0) /\ buddy_ok s' b' ts' /\ block_ok s' bits larger
    /\ (forall x, covered b' ts' x \/ block larger bits x <-> covered b ts x \/ block larger (S bits) x)
    /\ (forall j a, a ∈ free b' ts' j -> blocks_apart bits larger j a) /\ (forall j, (j < bits)%nat -> free b' ts' j = free b ts j) /\ touches (fun x => covered b ts x \/ block larger (S bits) x) s s'.
Proof.
  intros Hb Hlt Hmin Hempty [L1 L2 L3 L4 L5] Hap. pose proof (pow_pos bits) as Hp. destruct (upper_half _ _ L3) as [Hal Hsib]. rewrite pow_succ in *.
  rewrite size_of_pow. rewrite wrap64_small by (unfold usize_max; lia). set (up := larger + 2 ^ Z.of_nat bits) in *.
  destruct (lookup_entry_ok s b ts bits Hb Hlt) as (e & t & Hi & Ht & He). pose proof (free_entry b ts bits e t Hi Ht) as Hfree.
  assert (Hup : block_ok s bits up). { split; try done; [lia|lia|]. intros x Hx. apply L5. unfold block in *. rewrite pow_succ. lia. }
  assert (Hupap : forall j a, a ∈ free b ts j -> blocks_apart bits up j a) by (intros j a Ha; apply Hap in Ha; unfold blocks_apart in *; rewrite pow_succ in Ha; lia).
  unfold add. destruct (MAX - bits)%nat as [|fuel] eqn:Hf; [lia|]. cbn [add_loop]. rewrite (proj2 (Nat.leb_gt _ _)) by lia. rewrite Hi. cbn [expect].
  rewrite Hsib, (present_ok s e t larger He) by lia. rewrite <- Hfree, Hempty, bool_decide_false by apply not_elem_of_nil.
  destruct (put_in_round s b ts up bits e t) as (s' & e' & ts' & -> & [A1 A2 A3 A4] & Hoth & Hown); try done; [by rewrite Hempty; intros ?%not_elem_of_nil|].
  eexists s', _, ts'. split; [done|]. split_and!; [done| | | | |].
  5: { eapply touches_mono; [|exact A4]. intros x. cbn. intros [?|Hx]; [by left|right]. unfold block in *. rewrite pow_succ. subst up. lia. }
  - split; [done|done| |lia|]; [apply Z.mod_divide in L3 as [q Hq]; [|lia]; apply Z.mod_divide; [lia|]; exists (2 * q); lia|].
    intros x Hx Hm. apply (touches_backed _ _ _ _ A4), L5; [|done]. unfold block in *. rewrite pow_succ. lia.
  - intros x. specialize (A2 x). unfold block in *. rewrite pow_succ. subst up. split; [intros [Hc|?]|intros [Hc|?]].
    + destruct (proj1 A2) as [?|?]; [by left|by left|right; lia].
    + right. lia.
    + left. destruct (proj2 A2) as [?|[? _]]; [by left|done|done].
    + destruct (Z.lt_ge_cases x (larger + 2 ^ Z.of_nat bits)); [right; lia|left]. destruct (proj2 A2) as [?|[? _]]; [right; lia|done|done].
  - intros j a Ha. destruct (decide (j = bits)) as [->|Hne]; [|rewrite Hoth in Ha by done; apply Hap in Ha; unfold blocks_apart in *; rewrite pow_succ in Ha; lia].
    rewrite Hown, Hempty in Ha. apply list_elem_of_singleton in Ha as ->. unfold blocks_apart. lia.
  - intros j Hj. apply Hoth. lia.
Qed.

Lemma free_same b ts bits e t e' t' ea j : b_entries b !! bits = Some e -> ts !! bits = Some t -> length (b_entries b) = length ts -> blocks_of e t = [] -> blocks_of e' t' = [] ->
  free (mkBuddy (<[bits := e']> (b_entries b)) ea) (<[bits := t']> ts) j = free b ts j.
Proof. intros Hi Ht Hlen H1 H2. rewrite (free_insert b ts bits e j) by done. case_decide; [subst j|done]. by rewrite (free_entry b ts bits e t), H1. Qed.

Lemma covered_same b ts b' ts' : (forall j, free b' ts' j = free b ts j) -> forall x, covered b' ts' x <-> covered b ts x.
Proof. intros Hf x. unfold covered. split; intros (i & a & Ha & Hx); exists i, a; [rewrite <- Hf|rewrite Hf]; done. Qed.

Lemma lower_empty_above s b ts ea : buddy_ok s b ts -> (forall j, (ea <= j)%nat -> free b ts j = []) -> buddy_ok s (mkBuddy (b_entries b) ea) ts.
Proof. intros [B1 B2 B3 B4 B5 B6 B7] Hea. by split. Qed.

Lemma take_loop_ok fuel : forall s b ts bits, buddy_ok s b ts -> (MIN <= bits)%nat -> (MAX - bits <= fuel)%nat ->
  exists s' b' ts' r, take_loop MAX debug fuel s b bits = Ok (s', b', r) /\ taken s b ts bits s' b' ts' r.
Proof.
  induction fuel as [|fuel IH]; intros s b ts bits Hb Hmin Hfuel; cbn [take_loop]; destruct (_ || _)%nat eqn:Hdone.
  1,3: assert (Hnone : forall j, (bits <= j)%nat -> free b ts j = []) by
    (intros j Hj; apply orb_true_iff in Hdone as [?%Nat.leb_le|?%Nat.leb_le]; [apply (bk_empty _ _ _ Hb); lia|apply (free_beyond s); [done|lia]]);
    exists s, b, ts, 0; split; [done|]; split; try done; apply touches_refl.
  { apply orb_false_iff in Hdone as [_ ?%Nat.leb_gt]. lia. }
  apply orb_false_iff in Hdone as [_ Hlt%Nat.leb_gt]. destruct (lookup_entry_ok s b ts bits Hb Hlt) as (e & t & Hi & Ht & He). rewrite Hi. cbn [expect].
  destruct (take_best_ok s e t He) as (s1 & r & a & slots & a' & t1 & -> & Hswap & He1 & Hev & Ha' & Hperm & Hzero). rewrite Hswap.
  pose proof (Forall2_length _ _ _ (bk_entries _ _ _ Hb)) as Hlen. destruct (Z.eqb_spec a' 0) as [->|Hne]; cbn [negb].
  2: { eexists _, _, (<[bits := t1]> ts), a'. split; [done|]. eapply take_exact; try done. by rewrite nonzero_single in Hperm. }
  assert (Ht1 : touches (covered b ts) s s1) by (exists (keys t); split; [done|]; intros k Hk; by eapply key_covered).
  specialize (Hzero eq_refl). rewrite Hzero in Hperm. apply Permutation_nil in Hperm. set (e1 := mkEntry slots r) in *. apply app_nil in Hperm as [_ He1n].
  set (b1 := set_entry bits e1 b). set (ts1 := <[bits := t1]> ts). assert (Hsame : forall j, free b1 ts1 j = free b ts j) by (intros j; by eapply free_same).
  assert (Hb1 : buddy_ok s1 b1 ts1) by (eapply (buddy_shrink s b ts bits e t s1 e1 t1 []); try done; by rewrite Hzero, He1n).
  assert (Hown : free b ts bits = []) by (rewrite (free_entry b ts bits e t); done). destruct (Nat.eqb_spec (S bits) MAX) as [Hlast|Hmore].
  { exists s1, b1, ts1, 0. split; [done|]. split; [done| |done|auto|done]. intros _. split; [|done].
    intros j Hj. destruct (decide (j = bits)) as [->|]; [done|]. apply (free_beyond s); [done|lia]. }
  destruct (IH s1 b1 ts1 (S bits)) as (s2 & b2 & ts2 & larger & -> & [T1 T2 T3 T4 T5]); [done|lia|lia|]. destruct (Z.eqb_spec larger 0) as [->|Hlarge].
  - destruct (T2 eq_refl) as [Hnone Hfree2]. assert (Hall : forall j, (bits <= j)%nat -> free b ts j = []).
    { intros j Hj. destruct (decide (j = bits)) as [->|]; [done|]. rewrite <- Hsame. apply Hnone. lia. }
    eexists s2, _, ts2, 0. split; [done|]. split; [apply lower_empty_above; [done|]; intros j Hj; rewrite Hfree2, Hsame; auto| |done| |].
    + intros _. split; [done|]. intros j. by rewrite <- Hsame, <- Hfree2.
    + intros j Hj. by rewrite <- Hsame, <- Hfree2.
    + eapply touches_mono; [|by eapply touches_trans]. intros x. cbn. rewrite (covered_same b ts b1 ts1) by done. tauto.
  - destruct (T3 Hlarge) as (Hlok & Hcov & Hap). assert (Hown2 : free b2 ts2 bits = []) by by rewrite T4, Hsame by lia.
    destruct (split_larger s2 b2 ts2 bits larger) as (s3 & b3 & ts3 & -> & B3 & Hok3 & Hcov3 & Hap3 & Hlow3 & Hbk3); try done.
    cbn [Z.eqb]. rewrite debug_assert_true by done. exists s3, b3, ts3, larger. split; [done|]. split; [done|done| | |].
    + intros _. split_and!; [done| |done]. intros x. by rewrite Hcov3, <- Hcov, (covered_same b ts b1 ts1).
    + intros j Hj. by rewrite Hlow3, T4, Hsame by lia.
    + eapply touches_mono; [|eapply touches_trans; [by eapply touches_trans|done]]. intros x. cbn. rewrite (covered_same b ts b1 ts1), <- (covered_same b ts b1 ts1 Hsame x), Hcov by done. tauto.
Qed.
(** A range does not notice writes to nodes outside it. *)
(** [s'] is as [s] for the nodes in [P]. *)
Definition agrees (P : Z -> Prop) (s s' : M) : Prop :=
  forall x, P x -> backed s x -> backed s' x /\ node_read s' x = node_read s x
    /\ forall size, P (Z.lxor x size) -> backed s (Z.lxor x size) -> may_merge s' x size = may_merge s x size.

Lemma agrees_refl P s : agrees P s s.
Proof. by intros x. Qed.

Lemma touches_agrees P Q s s' : touches Q s s' -> (forall x, Q x -> ~ P x) -> agrees P s s'.
Proof.
  intros (ks & He & Hk) HQ x Hx Hb. split_and!; [by apply (ev_backed _ _ _ He)| |intros; by rewrite (ev_merge _ _ _ He)]. apply (ev_read _ _ _ He); [done|]. intros Hin. by apply (HQ x); [apply Hk|].
Qed.

Lemma stored_agrees s s' t : agrees (fun x => x ∈ keys t) s s' -> stored s t -> stored s' t.
Proof.
  induction t as [|c l IHl k r IHr]; cbn; [done|]. intros Ha (Hb & Hr & Hl & Hrr).
  assert (Hsub : forall P : Z -> Prop, (forall x, P x -> x ∈ keys l ++ k :: keys r) -> agrees P s s') by (intros P HP x Hx Hbx; destruct (Ha x) as (? & ? & ?); auto).
  destruct (Ha k) as (Hb' & Hread & _); [set_solver|done|]. split_and!; [done|by rewrite Hread|apply IHl; [apply Hsub; set_solver|done]|apply IHr; [apply Hsub; set_solver|done]].
Qed.

Lemma buddy_frame s s' b ts : agrees (covered b ts) s s' -> buddy_ok s b ts -> buddy_ok s' b ts.
Proof.
  intros Ha [B1 B2 B3 B4 B5 B6 B7]. assert (Hblock : forall i a, a ∈ free b ts i -> covered b ts a) by (intros i a Hin; exists i, a; split; [done|]; unfold block; pose proof (pow_pos i); lia). split; try done.
  - apply Forall2_same_length_lookup_2; [by eapply Forall2_length|]. intros i e t Hi Ht. destruct (Forall2_lookup_lr _ _ _ _ _ _ B1 Hi Ht) as [E1 [T1 T2 T3 T4] E3 E4]. split; try done.
    split; try done. eapply stored_agrees; [|done]. intros k Hk Hb. pose proof (key_covered b ts i e t k Hi Ht Hk). destruct (Ha k) as (? & ? & Hm); [done|done|]. split_and!; [done|done|].
    intros size Hs. apply Hm. by eapply key_covered.
  - intros i a Hin. destruct (B4 i a Hin). split; try done. intros x Hx Hm. apply (Ha x); [by exists i, a|auto].
  - intros i a Hin Hs. destruct (Ha a) as (_ & _ & Hm); [by eapply Hblock|by eapply block_start, B4|]. rewrite Hm; [by apply B7|by eapply Hblock|by eapply block_start, B4].
Qed.
End invariant.

(** ** A client that takes blocks and gives them back *)

Inductive BuddyOp : Type := Give (k : nat) | Take (bits : nat).

Section client.
Context `{NodesLaws M} (MIN MAX : nat) (debug : bool).

(** The node storage, the buddy, and the blocks the client holds. A block that outgrows the range
    comes back to the client. *)
Definition client_step (op : BuddyOp) (st : M * Buddy * list (Z * nat)) : result (M * Buddy * list (Z * nat)) :=
  let '(s, b, held) := st in
  match op with
  | Give k =>
      let? (a, bits) := expect (held !! k) in
      let? (s, b, r) := add MAX s b a bits in
      Ok (s, b, delete k held ++ if r =? 0 then [] else [(r, MAX)])
  | Take bits =>
      let? (s, b, r) := take_block MAX debug s b bits in
      Ok (s, b, held ++ if r =? 0 then [] else [(r, bits)])
  end.

Fixpoint client_run (ops : list BuddyOp) (st : M * Buddy * list (Z * nat)) : result (M * Buddy * list (Z * nat)) :=
  match ops with
  | [] => Ok st
  | op :: ops => let? st := client_step op st in client_run ops st
  end.

(** A client gives what it holds and asks for sizes of the range. *)
Fixpoint ops_ok (ops : list BuddyOp) (st : M * Buddy * list (Z * nat)) : bool :=
  match ops with
  | [] => true
  | op :: ops =>
      match op with Give k => (k <? length st.2)%nat | Take bits => (MIN <=? bits)%nat end
      && match client_step op st with Ok st => ops_ok ops st | _ => true end
  end.

Definition holds (held : list (Z * nat)) (x : Z) : Prop := exists a i, (a, i) ∈ held /\ block a i x.

(** The blocks of a client: well-formed, and pairwise apart. *)
Record held_ok (s : M) (held : list (Z * nat)) : Prop := {
  hd_blocks a i : (a, i) ∈ held -> block_ok MIN s i a /\ (i <= MAX)%nat;
  hd_apart k k' a i a' i' : held !! k = Some (a, i) -> held !! k' = Some (a', i') -> k <> k' -> blocks_apart i a i' a' }.

Record client_ok (region : Z -> Prop) (s : M) (b : Buddy) (held : list (Z * nat)) (ts : list tree) : Prop := {
  cl_buddy : buddy_ok MIN MAX s b ts;
  cl_held : held_ok s held;
  cl_apart a i j a' : (a, i) ∈ held -> a' ∈ free b ts j -> blocks_apart i a j a';
  cl_region x : covered b ts x \/ holds held x <-> region x;
  cl_null : null_apart MAX s region MIN }.

Lemma held_backed s s' held : (forall x, backed s' x <-> backed s x) -> held_ok s held -> held_ok s' held.
Proof. intros Hb [H1 H2]. split; [|done]. intros a i Ha. destruct (H1 a i Ha) as [[] ?]. split; [split; try done; intros x Hx Hm; apply Hb; auto|done]. Qed.

Lemma apart_sym i a j a' : blocks_apart i a j a' -> blocks_apart j a' i a.
Proof. unfold blocks_apart. tauto. Qed.

(** One block more. *)
Lemma held_snoc s held a i : held_ok s held -> block_ok MIN s i a -> (i <= MAX)%nat -> (forall a' i', (a', i') ∈ held -> blocks_apart i a i' a') -> held_ok s (held ++ [(a, i)]).
Proof.
  intros [H1 H2] Hok Hi Hap. split.
  - intros a' i' [?|[= -> ->]%list_elem_of_singleton]%elem_of_app; auto.
  - intros k k' a1 i1 a2 i2 Hk Hk' Hne. apply lookup_snoc_Some in Hk as [[? Hk]|[-> [= <- <-]]]; apply lookup_snoc_Some in Hk' as [[? Hk']|[-> [= <- <-]]]; [by eapply H2| |..|lia].
    + apply apart_sym, Hap. by eapply list_elem_of_lookup_2.
    + apply Hap. by eapply list_elem_of_lookup_2.
Qed.

(** One block less. *)
Lemma held_delete s held k a i : held_ok s held -> held !! k = Some (a, i) ->
  held_ok s (delete k held) /\ (forall a' i', (a', i') ∈ delete k held -> (a', i') ∈ held /\ blocks_apart i a i' a')
  /\ forall x, holds held x <-> holds (delete k held) x \/ block a i x.
Proof.
  intros [H1 H2] Hk. assert (Hfrom : forall j y, delete k held !! j = Some y -> exists j', held !! j' = Some y /\ j' <> k /\ (forall j2 y2, delete k held !! j2 = Some y2 -> j <> j2 -> exists j2', held !! j2' = Some y2 /\ j2' <> k /\ j' <> j2')).
  { intros j y Hj. rewrite list_lookup_delete in Hj. case_decide.
    - exists j. split_and!; [done|lia|]. intros j2 y2 Hj2 Hne. rewrite list_lookup_delete in Hj2. case_decide; [exists j2|exists (S j2)]; split_and!; (done || lia).
    - exists (S j). split_and!; [done|lia|]. intros j2 y2 Hj2 Hne. rewrite list_lookup_delete in Hj2. case_decide; [exists j2|exists (S j2)]; split_and!; (done || lia). }
  assert (Hin : forall a' i', (a', i') ∈ delete k held -> (a', i') ∈ held /\ blocks_apart i a i' a').
  { intros a' i' [j Hj]%list_elem_of_lookup. destruct (Hfrom j _ Hj) as (j' & Hj' & Hne & _). split; [by eapply list_elem_of_lookup_2|]. by eapply (H2 k j'). }
  split_and!; [split| |]; [intros a' i' Ha'; apply H1; by apply Hin| |done|].
  - intros j j2 a1 i1 a2 i2 Hj Hj2 Hne. destruct (Hfrom j _ Hj) as (j' & Hj' & _ & Hother). destruct (Hother j2 _ Hj2 Hne) as (j2' & Hj2' & _ & Hne'). by eapply H2.
  - intros x. unfold holds. split.
    + intros (a' & i' & Ha' & Hx). rewrite (delete_Permutation held k (a, i) Hk), elem_of_cons in Ha'. destruct Ha' as [[= -> ->]|Ha']; [by right|left; by exists a', i'].
    + intros [(a' & i' & Ha' & Hx)|Hx]; [exists a', i'; split; [by apply Hin|done]|exists a, i; split; [by eapply list_elem_of_lookup_2|done]].
Qed.

Lemma holds_snoc held a i x : holds (held ++ [(a, i)]) x <-> holds held x \/ block a i x.
Proof.
  unfold holds. split.
  - intros (a' & i' & [Ha|[= -> ->]%list_elem_of_singleton]%elem_of_app & Hx); [left; by exists a', i'|by right].
  - intros [(a' & i' & Ha & Hx)|Hx]; [exists a', i'|exists a, i]; (split; [apply elem_of_app|done]); [by left|right; by apply list_elem_of_singleton].
Qed.

Lemma apart_disjoint i a j a' : blocks_apart i a j a' <-> forall x, block a i x -> ~ block a' j x.
Proof.
  unfold blocks_apart, block. pose proof (pow_pos i). pose proof (pow_pos j). split; [intros Hx x; lia|]. intros Hx.
  specialize (Hx (Z.max a a')). lia.
Qed.

Lemma free_covered b ts j a x : a ∈ free b ts j -> block a j x -> covered b ts x.
Proof. intros. by exists j, a. Qed.

(** A held block stays apart from what covers nothing new. *)
Lemma apart_from_covered b ts b' ts' (extra : Z -> Prop) a i : (forall x, covered b' ts' x -> covered b ts x \/ extra x) ->
  (forall j a', a' ∈ free b ts j -> blocks_apart i a j a') -> (forall x, block a i x -> ~ extra x) -> forall j a', a' ∈ free b' ts' j -> blocks_apart i a j a'.
Proof.
  intros Hcov Hap Hex j a' Ha'. apply apart_disjoint. intros x Hx Hx'. destruct (Hcov x) as [(j' & y & Hy & Hxy)|?]; [by eapply free_covered| |by eapply Hex].
  by apply (proj1 (apart_disjoint _ _ _ _) (Hap j' y Hy) x).
Qed.

Lemma client_give region s b held ts k : client_ok region s b held ts -> (k < length held)%nat ->
  exists s' b' held' ts', client_step (Give k) (s, b, held) = Ok (s', b', held') /\ client_ok region s' b' held' ts'.
Proof.
  intros [C1 C2 C3 C4 Hnull] Hk. apply lookup_lt_is_Some_2 in Hk as [[a bits] Hk]. cbn [client_step]. rewrite Hk. cbn [expect].
  assert (Hin : (a, bits) ∈ held) by by eapply list_elem_of_lookup_2. destruct (hd_blocks _ _ C2 _ _ Hin) as [Hok Hmax].
  destruct (held_delete s held k a bits C2 Hk) as (Hdel & Hrest & Hholds).
  destruct (add_loop_ok MIN MAX (MAX - bits) s b ts a bits) as (s' & b' & ts' & r & Hadd & [A1 A2 A3 A4]); [done|done|done|by intros j a' Ha'; eapply C3| |done|].
  { intros j Hj. destruct (Hnull j) as [(x & Hx & Hno)|?]; [destruct Hok; lia| |by right]. left. exists x. split; [done|].
    intros Hbad. apply Hno, C4. destruct Hbad; [by left|right; by exists a, bits]. }
  apply (null_apart_touches MAX _ _ _ _ _ A4) in Hnull.
  unfold add. rewrite Hadd. apply (held_backed s s') in Hdel; [|intros x; by eapply touches_backed].
  assert (Hap : forall a' i', (a', i') ∈ delete k held -> forall j y, y ∈ free b' ts' j -> blocks_apart i' a' j y).
  { intros a' i' Ha'. destruct (Hrest _ _ Ha') as [Hold Hapart]. apply (apart_from_covered b ts b' ts' (block a bits)).
    - intros x Hx. apply A2. by left.
    - intros j y Hy. by eapply C3.
    - apply apart_disjoint. by apply apart_sym. }
  destruct (Z.eqb_spec r 0) as [->|Hr].
  - eexists s', b', _, ts'. split; [done|]. rewrite app_nil_r. split; [done|done|intros; by eapply Hap| |done].
    intros x. rewrite <- C4, Hholds. specialize (A2 x). assert (Hz : 0 <> 0 <-> False) by done. tauto.
  - destruct (A3 Hr) as [Hrok Hrap]. eexists s', b', _, ts'. split; [done|]. split; [done| | | |done].
    + apply held_snoc; [done|done|done|]. intros a' i' Ha'. destruct (Hrest _ _ Ha') as [Hold Hapart]. apply apart_disjoint. intros x Hx Hx'.
      destruct (proj1 (A2 x)) as [(j & y & Hy & Hxy)|Hxa]; [by right|apply (proj1 (apart_disjoint _ _ _ _) (C3 _ _ _ _ Hold Hy) x); done|by apply (proj1 (apart_disjoint _ _ _ _) Hapart x)].
    + intros a' i' j y [Ha'|[= -> ->]%list_elem_of_singleton]%elem_of_app Hy; [by eapply Hap|by apply Hrap].
    + intros x. rewrite holds_snoc, <- C4, Hholds. specialize (A2 x). tauto.
Qed.

Lemma take_in_range s b bits s' b' r : take_block MAX debug s b bits = Ok (s', b', r) -> r <> 0 -> (bits < MAX)%nat.
Proof.
  intros Ht Hr. destruct (decide (bits < MAX)%nat) as [|Hge]; [done|]. unfold take_block in Ht. replace (MAX - bits)%nat with O in Ht by lia.
  cbn [take_loop] in Ht. rewrite (proj2 (Nat.leb_le MAX bits)), orb_true_r in Ht by lia. congruence.
Qed.

Lemma client_take region s b held ts bits : client_ok region s b held ts -> (MIN <= bits)%nat ->
  exists s' b' held' ts', client_step (Take bits) (s, b, held) = Ok (s', b', held') /\ client_ok region s' b' held' ts'.
Proof.
  intros [C1 C2 C3 C4 Hnull] Hmin. cbn [client_step].
  destruct (take_loop_ok MIN MAX debug (MAX - bits) s b ts bits C1 Hmin) as (s' & b' & ts' & r & Htake & [T1 T2 T3 T4 T5]); [done|].
  change (take_block MAX debug s b bits = Ok (s', b', r)) in Htake. rewrite Htake. apply (held_backed s s') in C2; [|intros x; by eapply touches_backed].
  apply (null_apart_touches MAX _ _ _ _ _ T5) in Hnull. destruct (Z.eqb_spec r 0) as [->|Hr].
  - destruct (T2 eq_refl) as [_ Hfree]. eexists s', b', _, ts'. split; [done|]. rewrite app_nil_r. split; [done|done|intros a i j a' Ha; rewrite Hfree; by apply C3| |done].
    intros x. by rewrite (covered_same b ts b' ts'), C4.
  - destruct (T3 Hr) as (Hok & Hcov & Hap). pose proof (take_in_range _ _ _ _ _ _ Htake Hr) as Hbits.
    eexists s', b', _, ts'. split; [done|]. split; [done| | | |done].
    + apply held_snoc; [done|done|lia|]. intros a' i' Ha'. apply apart_disjoint. intros x Hx Hx'. destruct (proj2 (Hcov x)) as (j & y & Hy & Hxy); [by right|].
      by apply (proj1 (apart_disjoint _ _ _ _) (C3 _ _ _ _ Ha' Hy) x).
    + intros a' i' j y [Ha'|[= -> ->]%list_elem_of_singleton]%elem_of_app Hy; [|by apply Hap].
      eapply (apart_from_covered b ts b' ts' (fun _ => False)); [intros x Hx; left; apply Hcov; by left|by intros j' y' ?; eapply C3|by intros ? ? ?|done].
    + intros x. rewrite holds_snoc, <- C4, Hcov. tauto.
Qed.
Lemma client_step_ok region op s b held ts : client_ok region s b held ts ->
  match op with Give k => (k <? length held)%nat | Take bits => (MIN <=? bits)%nat end = true ->
  exists s' b' held' ts', client_step op (s, b, held) = Ok (s', b', held') /\ client_ok region s' b' held' ts'.
Proof.
  intros Hc. destruct op as [k|bits]; [intros ?%Nat.ltb_lt; by eapply client_give|intros ?%Nat.leb_le; by eapply client_take].
Qed.

Lemma client_run_ok region ops : forall s b held ts, client_ok region s b held ts -> ops_ok ops (s, b, held) = true ->
  exists s' b' held' ts', client_run ops (s, b, held) = Ok (s', b', held') /\ client_ok region s' b' held' ts'.
Proof.
  induction ops as [|op ops IH]; intros s b held ts Hc; cbn [ops_ok client_run]; [intros _; by eexists _, _, _, _|].
  intros [Hop Hrest]%andb_true_iff. destruct (client_step_ok region op s b held ts Hc Hop) as (s1 & b1 & held1 & ts1 & Hs & Hc1).
  rewrite Hs in *. by eapply IH.
Qed.

Lemma free_new j : free (buddy_new MIN MAX) (replicate MAX E) j = [].
Proof.
  unfold free, buddy_new. cbn [b_entries]. destruct (_ !! j) as [e|] eqn:He; [|done]. apply lookup_replicate in He as [-> _].
  destruct (_ !! j) as [t|] eqn:Ht; [|done]. by apply lookup_replicate in Ht as [-> _].
Qed.

Lemma buddy_new_ok s : buddy_ok MIN MAX s (buddy_new MIN MAX) (replicate MAX E).
Proof.
  split.
  - apply Forall2_replicate. split; [done|split; [done|done|by exists O|done]|done|by repeat constructor].
  - apply length_replicate.
  - intros i. rewrite free_new. constructor.
  - intros i a. rewrite free_new. by intros ?%not_elem_of_nil.
  - intros i j a a'. rewrite free_new. by intros ?%not_elem_of_nil.
  - intros. apply free_new.
  - intros i a. rewrite free_new. by intros ?%not_elem_of_nil.
Qed.

(** C7. A client that gives blocks to an empty buddy range and takes blocks of any size back, in any
    order, always gets an answer; every block it holds is aligned to its size and in backed memory; no
    two of its blocks overlap, and none overlaps a free block; and free and held memory together
    are always exactly the memory it started with: nothing leaks, nothing is handed out twice. The memory
    must not hold, for any size [2^j] of the range, all of the block at address [2^j] (its buddy would be at
    address 0, which marks an empty slot), unless the storage forbids that block to merge; the backend
    keeps to this, the safety comment of [add] does not ask for it. *)
Theorem buddy_client_safe s held ops : held_ok s held -> null_apart MAX s (holds held) MIN -> ops_ok ops (s, buddy_new MIN MAX, held) = true ->
  exists s' b' held' ts, client_run ops (s, buddy_new MIN MAX, held) = Ok (s', b', held')
    /\ held_ok s' held' /\ buddy_ok MIN MAX s' b' ts
    /\ (forall a i j a', (a, i) ∈ held' -> a' ∈ free b' ts j -> blocks_apart i a j a')
    /\ forall x, covered b' ts x \/ holds held' x <-> holds held x.
Proof.
  intros Hh Hnull Hops. destruct (client_run_ok (holds held) ops s (buddy_new MIN MAX) held (replicate MAX E)) as (s' & b' & held' & ts' & Hr & [C1 C2 C3 C4 _]); [|done|by eexists s', b', held', ts'].
  split; [apply buddy_new_ok|done|intros a i j a' _; rewrite free_new; by intros ?%not_elem_of_nil| |done].
  intros x. split; [intros [(j & y & Hy & _)|?]; [|done]|by right]. rewrite free_new in Hy. by apply not_elem_of_nil in Hy.
Qed.

(** Without that condition memory is lost: a block at its own size, given to an empty range whose
    storage lets it merge, "merges" with an empty slot into a block at address 0, which is then stored
    as an empty slot. *)
Theorem null_buddy_is_lost s bits : (MIN <= bits < MAX)%nat -> may_merge s (2 ^ Z.of_nat bits) (size_of bits) = Ok true ->
  exists b', add MAX s (buddy_new MIN MAX) (2 ^ Z.of_nat bits) bits = Ok (s, b', 0)
    /\ b_entries b' = b_entries (buddy_new MIN MAX).
Proof.
  intros Hb Hm. set (e := mkEntry [0; 0; 0] 0).
  assert (He : forall j, (j < MAX)%nat -> replicate MAX e !! j = Some e /\ <[j := e]> (replicate MAX e) = replicate MAX e).
  { intros j Hj. rewrite list_insert_id; rewrite lookup_replicate_2 by done; done. }
  unfold add. replace (MAX - bits)%nat with (S (MAX - S bits)) by lia. cbn [add_loop]. rewrite (proj2 (Nat.leb_gt _ _)) by lia.
  unfold buddy_new. fold e. cbn [b_entries]. rewrite (proj1 (He bits ltac:(lia))). cbn [expect]. rewrite size_of_pow, Z.lxor_nilpotent, Z.ldiff_diag.
  rewrite size_of_pow in Hm. assert (position 0 (cache e) = Some 0%nat) as -> by reflexivity. rewrite Hm.
  assert (take_out s e 0 (Some 0%nat) = Ok (s, e)) as -> by reflexivity. unfold set_entry. cbn [b_entries empty_above]. rewrite (proj2 (He bits ltac:(lia))).
  destruct (MAX - S bits)%nat as [|fuel] eqn:Hf; cbn [add_loop].
  { rewrite (proj2 (Nat.leb_le _ _)) by lia. by eexists. }
  rewrite (proj2 (Nat.leb_gt _ _)) by lia. cbn [b_entries]. rewrite (proj1 (He (S bits) ltac:(lia))). cbn [expect]. rewrite Z.lxor_0_l, size_of_pow.
  pose proof (pow_pos (S bits)). assert (position (2 ^ Z.of_nat (S bits)) (cache e) = None) as ->.
  { apply slot_None. cbn [e cache]. rewrite !elem_of_cons, elem_of_nil. lia. }
  assert (tree_contains MAX_DEPTH s (root e) (2 ^ Z.of_nat (S bits)) = Ok false) as -> by reflexivity.
  assert (put_in s e 0 = Ok (s, e)) as -> by reflexivity. unfold set_entry. cbn [b_entries]. rewrite (proj2 (He (S bits) ltac:(lia))). by eexists.
Qed.

(** [take] fails exactly when no block of the size or above is free, and then leaves the free
    blocks as they were; otherwise the block it returns is aligned and backed, was free and is free no
    more, and no other memory is lost; free buddies that may merge are never left apart. *)
Theorem buddy_take_exact s b ts bits : buddy_ok MIN MAX s b ts -> (MIN <= bits)%nat ->
  exists s' b' ts' r, take_block MAX debug s b bits = Ok (s', b', r) /\ buddy_ok MIN MAX s' b' ts'
    /\ (r = 0 <-> forall j, (bits <= j)%nat -> free b ts j = [])
    /\ (r = 0 -> forall j, free b' ts' j = free b ts j)
    /\ (r <> 0 -> block_ok MIN s' bits r /\ (forall x, covered b ts x <-> covered b' ts' x \/ block r bits x)
         /\ forall x, block r bits x -> ~ covered b' ts' x).
Proof.
  intros Hb Hmin. destruct (take_loop_ok MIN MAX debug (MAX - bits) s b ts bits Hb Hmin) as (s' & b' & ts' & r & Ht & [T1 T2 T3 T4 T5]); [done|].
  exists s', b', ts', r. split; [done|]. assert (Hap : r <> 0 -> forall x, block r bits x -> ~ covered b' ts' x).
  { intros Hr x Hx (j & a & Ha & Hxa). destruct (T3 Hr) as (_ & _ & Hap). by apply (proj1 (apart_disjoint _ _ _ _) (Hap j a Ha) x). }
  split_and!; [done| |by intros ?; apply T2|intros Hr; split_and!; [by apply T3..|auto]]. split; [by intros ?; apply T2|]. intros Hnone.
  destruct (decide (r = 0)) as [|Hr]; [done|]. exfalso. destruct (T3 Hr) as (Hok & Hcov & _). destruct (proj2 (Hcov r)) as (j & a & Ha & Hx); [right; split; [lia|pose proof (pow_pos bits); lia]|].
  (* every free block smaller than the size stays, so what was taken came from above *)
  destruct (decide (bits <= j)%nat) as [Hge|Hlt]; [rewrite Hnone in Ha by done; by apply not_elem_of_nil in Ha|].
  apply (Hap Hr r); [split; [lia|pose proof (pow_pos bits); lia]|]. exists j, a. by rewrite T4 by lia.
Qed.
End client.

(** ** Concrete runs *)

(** A client with 128 bytes in a range of blocks of 16 to 128 bytes. *)
Lemma arena_held : held_ok 4 8 arena [(4096, 7%nat)].
Proof.
  split.
  - intros a i [= -> ->]%list_elem_of_singleton. split; [|lia]. split; [lia|lia|done|done|]. intros x Hx Hm. by apply arena_backed.
  - intros k k' a i a' i' Hk Hk'. apply lookup_lt_Some in Hk, Hk'. cbn in *. lia.
Qed.

Lemma arena_no_null : null_apart 8 arena (holds [(4096, 7%nat)]) 4.
Proof.
  intros j Hj. left. exists (2 ^ Z.of_nat j). split; [split; [lia|pose proof (pow_pos j); lia]|]. intros (a & i & [= -> ->]%list_elem_of_singleton & Hx).
  assert (2 ^ Z.of_nat j <= 2 ^ 7) by (apply Z.pow_le_mono_r; lia). destruct Hx. lia.
Qed.

Definition arena_ops : list BuddyOp := [Give 0; Take 4; Take 4; Take 5; Give 1; Take 6; Take 7; Give 0; Give 0; Give 0; Take 7].

Lemma buddy_client_safe_witness :
  exists s' b' held' ts, client_run 8 true arena_ops (arena, buddy_new 4 8, [(4096, 7%nat)]) = Ok (s', b', held')
    /\ held_ok 4 8 s' held' /\ buddy_ok 4 8 s' b' ts
    /\ (forall a i j a', (a, i) ∈ held' -> a' ∈ free b' ts j -> blocks_apart i a j a')
    /\ forall x, covered b' ts x \/ holds held' x <-> holds [(4096, 7%nat)] x.
Proof. apply (buddy_client_safe 4 8 true arena); [apply arena_held|apply arena_no_null|vm_compute; reflexivity]. Defined.

Example arena_run : match client_run 8 true arena_ops (arena, buddy_new 4 8, [(4096, 7%nat)]) with Ok (_, _, held) => held = [(4096, 7%nat)] | _ => False end.
Proof. vm_compute. reflexivity. Qed.

(** The range with the 128 bytes free. *)
Definition arena_buddy : Buddy := set_entry 7 (mkEntry [4096; 0; 0] 0) (mkBuddy (b_entries (buddy_new 4 8)) 8).

Lemma arena_free j : free arena_buddy (replicate 8 E) j = if decide (j = 7)%nat then [4096] else [].
Proof. do 9 (destruct j as [|j]; [vm_compute; reflexivity|]). rewrite decide_False by lia. unfold free, arena_buddy. cbn. done. Qed.

Lemma arena_buddy_ok : buddy_ok 4 8 arena arena_buddy (replicate 8 E).
Proof.
  assert (Hin : forall i a, a ∈ free arena_buddy (replicate 8 E) i -> i = 7%nat /\ a = 4096).
  { intros i a. rewrite arena_free. case_decide; [by intros ->%list_elem_of_singleton|by intros ?%not_elem_of_nil]. }
  split.
  - repeat constructor; cbn; done || by exists O.
  - done.
  - intros i. rewrite arena_free. case_decide; [apply NoDup_singleton|constructor].
  - intros i a [-> ->]%Hin. by apply (hd_blocks _ _ _ _ arena_held 4096 7), list_elem_of_singleton.
  - intros i j a a' [-> ->]%Hin [-> ->]%Hin. done.
  - intros i Hi. rewrite arena_free, decide_False; [done|cbn in Hi; lia].
  - intros i a [-> ->]%Hin [_ Hs]%Hin. done.
Qed.

Lemma buddy_take_exact_witness : exists s' b' ts' r, take_block 8 true arena arena_buddy 5 = Ok (s', b', r) /\ buddy_ok 4 8 s' b' ts'
    /\ (r = 0 <-> forall j, (5 <= j)%nat -> free arena_buddy (replicate 8 E) j = [])
    /\ (r = 0 -> forall j, free b' ts' j = free arena_buddy (replicate 8 E) j)
    /\ (r <> 0 -> block_ok 4 s' 5 r /\ (forall x, covered arena_buddy (replicate 8 E) x <-> covered b' ts' x \/ block r 5 x)
         /\ forall x, block r 5 x -> ~ covered b' ts' x).
Proof. apply (buddy_take_exact 4 8 true arena); [apply arena_buddy_ok|lia]. Defined.
