(* ===== verification/Classes.v ===== *)
(** * rallocator: size classes

    Models [src/crates/rallocator/src/classes.rs]: the table of the 44 small classes, the lookup table by
    16-byte steps, and the requests that round a layout up to a class or a power of two. *)

From S2P Require Import Prelude ByteSpan.
Open Scope Z_scope.

Definition CHUNK : Z := Z.shiftl 1 14.
Definition SMALL_MAX : Z := Z.shiftl 1 16.
Definition COUNT : nat := 44.
Definition SMALL_TAG : Z := 64.

Record Class_ : Type := mkClass { c_size : Z; c_slab : Z; c_capacity : Z; c_waking : Z }.

(** [usize::next_power_of_two] of a value of at least 1. *)
Definition next_power_of_two (x : Z) : Z := 2 ^ Z.log2_up x.

Definition wrap16 (x : Z) : Z := x mod 2 ^ 16.

(** One round of the loop of [make_classes]. *)
Definition make_class (i : Z) : Class_ :=
  let size := if i <? 4 then (i + 1) * 16
              else
                let exponent := (i - 4) / 4 in
                let mantissa := (i - 4) mod 4 in
                Z.shiftl (5 + mantissa) (4 + exponent) in
  let slab := if size * 4 <? CHUNK then CHUNK else next_power_of_two (size * 4) in
  let capacity := wrap16 (slab / size) in
  mkClass size slab capacity (if capacity / 4 <? 32 then capacity / 4 else 32).

Definition make_classes : list Class_ := make_class <$> seqZ 0 (Z.of_nat COUNT).

Definition CLASSES : list Class_ := Eval vm_compute in make_classes.

(** The inner loop of [make_lookup]. *)
Fixpoint next_class (fuel : nat) (class : nat) (bucket : Z) : result nat :=
  let? c := expect (CLASSES !! class) in
  if c_size c <=? bucket * 16 then
    match fuel with O => Panic | S fuel => next_class fuel (S class) bucket end
  else Ok class.

(** The outer loop of [make_lookup]: [count] buckets are left. *)
Fixpoint lookup_loop (count : nat) (bucket : Z) (class : nat) : result (list Z) :=
  match count with
  | O => Ok []
  | S count =>
      let? class := next_class COUNT class bucket in
      let? rest := lookup_loop count (bucket + 1) class in
      Ok (Z.of_nat class mod 256 :: rest)
  end.

Definition make_lookup : result (list Z) := lookup_loop (Z.to_nat (SMALL_MAX / 16)) 0 0.

Definition SIZE_LOOKUP : list Z := Eval vm_compute in match make_lookup with Ok t => t | _ => [] end.

Definition index (size : Z) : result Z := expect (SIZE_LOOKUP !! Z.to_nat (Z.shiftr (Z.max size 1 - 1) 4)).

(** [Layout]: an alignment, a power of two, and a size. *)
Record Layout : Type := mkLayout { l_size : Z; l_align : Z }.

(** [checked_next_power_of_two]. *)
Definition checked_next_power_of_two (x : Z) : option Z := if x <=? 2 ^ 63 then Some (next_power_of_two x) else None.

(** [leading_zeros] of a positive [isize]. *)
Definition leading_zeros (x : Z) : Z := 63 - Z.log2 x.

Definition with_size (layout : Layout) (size : Z) : result (option Z) :=
  let alignment := l_align layout in
  match checked_add (Z.max size 1) (alignment - 1) with
  | None => Ok None
  | Some sum =>
      let padded := Z.ldiff sum (alignment - 1) in
      if padded <=? SMALL_MAX then
        let? i := index padded in
        Ok (Some ((SMALL_TAG + i) mod 256))
      else
        match checked_next_power_of_two padded with
        | None => Ok None
        | Some size =>
            if size <=? isize_max then Ok (Some ((leading_zeros size + 1) mod 256)) else Ok None
        end
  end.

Definition request_new (layout : Layout) : result (option Z) := with_size layout (l_size layout).

(** [size], of a tag. *)
Definition size (tag : Z) : result Z :=
  if SMALL_TAG <=? tag then
    let? c := expect (CLASSES !! Z.to_nat (tag - SMALL_TAG)) in
    Ok (c_size c)
  else Ok (wrap64 (Z.shiftl 1 (64 - tag))).

(** ** The tables *)

Definition class_size (i : Z) : Z := c_size (nth (Z.to_nat i) CLASSES (mkClass 0 0 0 0)).

Lemma tables_generated : make_classes = CLASSES /\ make_lookup = Ok SIZE_LOOKUP.
Proof. split; vm_compute; reflexivity. Qed.

(** Decides a property of all numbers below a bound. *)
Definition all_below (n : Z) (p : Z -> bool) : bool := forallb p (seqZ 0 n).

Lemma all_below_spec n p : all_below n p = true -> forall i, 0 <= i < n -> p i = true.
Proof. unfold all_below. rewrite forallb_forall. intros Hp i Hi. apply Hp, list_elem_of_In, elem_of_seqZ. lia. Qed.

(** A bucket's class is the first one above the sizes below the bucket. *)
Definition bucket_ok (b : Z) : bool :=
  match SIZE_LOOKUP !! Z.to_nat b with
  | Some i => (0 <=? i) && (i <? 44) && (b * 16 <? class_size i) && (class_size i mod 16 =? 0)
              && ((i =? 0) || (class_size (i - 1) <=? b * 16))
  | None => false
  end.

Lemma buckets_ok : all_below 4096 bucket_ok = true.
Proof. vm_compute. reflexivity. Qed.

(** The class of a multiple of [2 ^ k] is a multiple of [2 ^ k]. *)
Definition class_of (b : Z) : Z := default 0 (SIZE_LOOKUP !! Z.to_nat b).

Definition aligned_ok (k : Z) : bool := all_below (2 ^ (16 - k)) (fun m => class_size (class_of (((m + 1) * 2 ^ k - 1) / 16)) mod 2 ^ k =? 0).

Lemma classes_aligned : all_below 12 (fun k => aligned_ok (k + 5)) = true.
Proof. vm_compute. reflexivity. Qed.

Lemma classes_increasing : all_below 43 (fun i => class_size i <? class_size (i + 1)) = true.
Proof. vm_compute. reflexivity. Qed.

Lemma class_sizes_mono i j : 0 <= i -> i <= j -> j < 44 -> class_size i <= class_size j.
Proof.
  intros Hi Hij Hj. replace j with (i + Z.of_nat (Z.to_nat (j - i))) in * by lia. generalize dependent (Z.to_nat (j - i)). intros n.
  clear j. induction n as [|n IH]; intros Hij Hn; [replace (i + Z.of_nat 0) with i by lia; lia|]. etrans; [apply IH; lia|].
  pose proof (all_below_spec _ _ classes_increasing (i + Z.of_nat n)) as Hlt. cbv beta in Hlt.
  replace (i + Z.of_nat (S n)) with (i + Z.of_nat n + 1) by lia. apply Z.lt_le_incl, Z.ltb_lt, Hlt. lia.
Qed.

(** The class of a small size: the smallest that holds it. *)
Lemma index_ok s : 1 <= s <= SMALL_MAX -> exists i, index s = Ok i /\ 0 <= i < 44 /\ s <= class_size i /\ (forall j, 0 <= j < i -> class_size j < s)
  /\ i = class_of ((s - 1) / 16).
Proof.
  intros Hs. change SMALL_MAX with 65536 in Hs. unfold index. rewrite Z.max_l, Z.shiftr_div_pow2 by lia. change (2 ^ 4) with 16.
  assert (Hb : 0 <= (s - 1) / 16 < 4096) by (Z.div_mod_to_equations; lia). pose proof (all_below_spec _ _ buckets_ok _ Hb) as Hok.
  unfold bucket_ok in Hok. unfold class_of. destruct (SIZE_LOOKUP !! _) as [i|]; [|done]. cbn [expect default]. to_prop.
  exists i. split_and!; [done|lia|lia|Z.div_mod_to_equations; lia| |done]. intros j Hj.
  assert (class_size j <= class_size (i - 1)) by (apply class_sizes_mono; lia).
  match goal with H : _ || _ = true |- _ => apply orb_true_iff in H as [?|?]; to_prop; [lia|] end. Z.div_mod_to_equations; lia.
Qed.

Lemma size_small i : 0 <= i < 44 -> size (SMALL_TAG + i) = Ok (class_size i).
Proof.
  intros Hi. unfold size, SMALL_TAG, class_size. rewrite (proj2 (Z.leb_le _ _)) by lia. replace (64 + i - 64) with i by lia.
  destruct (lookup_lt_is_Some_2 CLASSES (Z.to_nat i)) as [c Hc]; [change (length CLASSES) with 44%nat; lia|]. rewrite Hc. cbn [expect].
  by rewrite (nth_lookup_Some _ _ _ c).
Qed.

(** ** Rounding up *)

Lemma pow_log2_up x : 1 <= x -> let p := next_power_of_two x in x <= p /\ (forall n, 0 <= n -> x <= 2 ^ n -> p <= 2 ^ n).
Proof.
  intros Hx. cbn zeta. unfold next_power_of_two. split.
  - destruct (decide (x = 1)) as [->|]; [done|]. apply Z.log2_up_spec. lia.
  - intros n Hn Hle. apply Z.pow_le_mono_r; [lia|]. apply Z.log2_up_le_mono in Hle. by rewrite Z.log2_up_pow2 in Hle by lia.
Qed.

(** [(x + (a - 1)) & !(a - 1)] is the next multiple of the power of two [a]. *)
Lemma pad_up x k : 0 <= k -> 1 <= x -> let a := 2 ^ k in let p := Z.ldiff (x + (a - 1)) (a - 1) in x <= p < x + a /\ p mod a = 0.
Proof.
  intros Hk Hx. cbn zeta. pose proof (Z.pow_pos_nonneg 2 k) as Hp. replace (2 ^ k - 1) with (Z.ones k) by (rewrite Z.ones_equiv; lia).
  rewrite Z.ldiff_ones_r, Z.shiftl_mul_pow2, Z.shiftr_div_pow2 by done. rewrite Z.ones_equiv. split; [Z.div_mod_to_equations; nia|apply Z_mod_mult].
Qed.

Lemma class_aligned p k : 1 <= p <= SMALL_MAX -> 0 <= k -> p mod 2 ^ k = 0 -> class_size (class_of ((p - 1) / 16)) mod 2 ^ k = 0.
Proof.
  intros Hp Hk Hal. change SMALL_MAX with 65536 in Hp. assert (Hpos : 0 < 2 ^ k) by (apply Z.pow_pos_nonneg; lia). apply Z.mod_divide in Hal as [m Hm]; [|lia].
  destruct (Z.lt_ge_cases k 5) as [Hlt|Hge].
  - assert (Hb : 0 <= (p - 1) / 16 < 4096) by (Z.div_mod_to_equations; lia). pose proof (all_below_spec _ _ buckets_ok _ Hb) as Hok.
    unfold bucket_ok in Hok. unfold class_of. destruct (SIZE_LOOKUP !! _) as [i|]; [|done]. cbn [default]. to_prop.
    apply Z.mod_divide; [lia|]. etrans; [|apply Z.mod_divide; [|eassumption]; lia]. exists (2 ^ (4 - k)). rewrite <- Z.pow_add_r by lia. by replace (4 - k + k) with 4 by lia.
  - assert (Hk16 : k < 17) by (destruct (Z.lt_ge_cases k 17); [done|]; assert (2 ^ 17 <= 2 ^ k) by (apply Z.pow_le_mono_r; lia); change (2 ^ 17) with 131072 in *; assert (1 <= m) by nia; nia).
    pose proof (all_below_spec _ _ classes_aligned (k - 5)) as Hal. cbv beta in Hal. replace (k - 5 + 5) with k in Hal by lia. specialize (Hal ltac:(lia)).
    assert (Hsplit : 2 ^ (16 - k) * 2 ^ k = 65536) by (rewrite <- Z.pow_add_r by lia; by replace (16 - k + k) with 16 by lia).
    pose proof (all_below_spec _ _ Hal (m - 1)) as Hc. cbv beta in Hc. replace ((m - 1 + 1) * 2 ^ k - 1) with (p - 1) in Hc by lia. apply Z.eqb_eq, Hc. nia.
Qed.

(** The sizes a request can have: those of the classes, and the powers of two above. *)
Definition request_size (n : Z) : Prop := (exists i, 0 <= i < 44 /\ n = class_size i) \/ exists k, 16 < k < 63 /\ n = 2 ^ k.

Lemma request_size_pos n : request_size n -> 16 <= n.
Proof.
  intros [(i & Hi & ->)|(k & Hk & ->)]; [etrans; [|apply (class_sizes_mono 0 i); lia]; vm_compute; done|].
  change 16 with (2 ^ 4). apply Z.pow_le_mono_r; lia.
Qed.

Lemma small_request p k : 1 <= p <= SMALL_MAX -> 0 <= k -> p mod 2 ^ k = 0 ->
  exists i, index p = Ok i /\ size ((SMALL_TAG + i) mod 256) = Ok (class_size i) /\ 0 <= i < 44 /\ p <= class_size i /\ class_size i mod 2 ^ k = 0
    /\ forall n, request_size n -> p <= n -> class_size i <= n.
Proof.
  intros Hp Hk Hal. destruct (index_ok p Hp) as (i & Hi & Hr & Hle & Hmin & Hcl). exists i. split_and!; [done| |lia|lia|done| |].
  - rewrite Z.mod_small by (unfold SMALL_TAG; lia). by apply size_small.
  - rewrite Hcl. by apply class_aligned.
  - intros n [(j & Hj & ->)|(e & He & ->)] Hn.
    + destruct (Z.lt_ge_cases j i) as [Hlt|Hge]; [specialize (Hmin j); lia|apply class_sizes_mono; lia].
    + assert (class_size i <= class_size 43) by (apply class_sizes_mono; lia). assert (2 ^ 16 <= 2 ^ e) by (apply Z.pow_le_mono_r; lia).
      change (class_size 43) with (2 ^ 16) in *. lia.
Qed.

(** A power of two above the classes: its tag is the number of its leading zeros and one. *)
Lemma large_request p : SMALL_MAX < p -> next_power_of_two p <= isize_max ->
  exists k, next_power_of_two p = 2 ^ k /\ 16 < k < 63 /\ size ((leading_zeros (next_power_of_two p) + 1) mod 256) = Ok (2 ^ k)
    /\ forall n, request_size n -> p <= n -> 2 ^ k <= n.
Proof.
  intros Hp Hmax. change SMALL_MAX with (2 ^ 16) in Hp. destruct (pow_log2_up p) as [Hle Hleast]; [lia|]. unfold next_power_of_two in *. set (k := Z.log2_up p) in *.
  assert (Hk0 : 0 <= k) by apply Z.log2_up_nonneg. assert (Hk : 16 < k < 63).
  { split; [apply (Z.pow_lt_mono_r_iff 2); lia|]. apply (Z.pow_lt_mono_r_iff 2); [lia|lia|]. unfold isize_max in Hmax. lia. }
  exists k. split_and!; [done|lia|lia| |].
  - unfold leading_zeros. rewrite Z.log2_pow2 by done. rewrite Z.mod_small by lia. unfold size, SMALL_TAG. rewrite (proj2 (Z.leb_gt _ _)) by lia.
    replace (64 - (63 - k + 1)) with k by lia. rewrite Z.shiftl_1_l. f_equal. apply Z.mod_small. split; [lia|]. change 18446744073709551616 with (2 ^ 64). apply Z.pow_lt_mono_r; lia.
  - intros n [(j & Hj & ->)|(e & He & ->)] Hn; [|apply Hleast; lia]. assert (class_size j <= class_size 43) by (apply class_sizes_mono; lia).
    change (class_size 43) with (2 ^ 16) in *. lia.
Qed.

(** C29. A request for a valid layout never panics. When it is granted, the size of its tag is at least
    the size asked for (one byte at least), is a multiple of the alignment and is the smallest size of
    a class or power of two that holds the padded size. It is refused exactly when no power of two
    up to [isize::MAX] holds the padded size. *)
Theorem request_is_best_fit layout n k : l_align layout = 2 ^ k -> 0 <= k < 64 -> 0 <= n <= usize_max ->
  exists r, with_size layout n = Ok r
    /\ match r with
       | Some tag => exists s padded, size tag = Ok s /\ Z.max n 1 <= padded < Z.max n 1 + 2 ^ k /\ padded mod 2 ^ k = 0
           /\ padded <= s /\ s mod 2 ^ k = 0 /\ request_size s /\ forall s', request_size s' -> padded <= s' -> s <= s'
       | None => forall s, s mod 2 ^ k = 0 -> request_size s -> s < n
       end.
Proof.
  intros Hal Hk Hn. unfold with_size. rewrite Hal. set (x := Z.max n 1). assert (Hx : 1 <= x <= usize_max) by (subst x; unfold usize_max in *; lia).
  assert (Hpos : 0 < 2 ^ k) by (apply Z.pow_pos_nonneg; lia). assert (Hlim : forall s, request_size s -> s <= 2 ^ 62).
  { intros s [(i & Hi & ->)|(e & He & ->)]; [etrans; [apply (class_sizes_mono i 43); lia|]; vm_compute; done|apply Z.pow_le_mono_r; lia]. }
  assert (Hnone : forall p, p mod 2 ^ k = 0 -> p < x + 2 ^ k -> 2 ^ 62 < p -> forall s, s mod 2 ^ k = 0 -> request_size s -> s < n).
  { intros p Hp2 Hp3 Hp4 s Hs Hsz. pose proof (request_size_pos s Hsz). apply Hlim in Hsz. apply Z.mod_divide in Hp2 as [q Hq]; [|lia].
    apply Z.mod_divide in Hs as [t Ht]; [|lia]. assert (t < q) by nia. assert (s < x) by nia. lia. }
  pose proof (pad_up x k) as Hpad. cbv zeta in Hpad. destruct Hpad as [Hp Hpal]; [lia|lia|].
  unfold checked_add. destruct (_ <=? usize_max) eqn:Hov; to_prop.
  2: { exists None. split; [done|]. apply (Hnone (Z.ldiff (x + (2 ^ k - 1)) (2 ^ k - 1))); [done|lia|].
       assert (2 ^ k <= 2 ^ 63) by (apply Z.pow_le_mono_r; lia). unfold usize_max in Hov. lia. }
  set (p := Z.ldiff _ _) in *. destruct (p <=? SMALL_MAX) eqn:Hsmall; to_prop.
  { destruct (small_request p k) as (i & -> & Hsz & Hi & Hle & Hm & Hleast); [lia|lia|done|]. eexists. split; [done|]. exists (class_size i), p.
    split_and!; try done; [lia|lia|]. left. by exists i. }
  unfold checked_next_power_of_two. destruct (p <=? 2 ^ 63) eqn:H63; to_prop.
  2: { exists None. split; [done|]. apply (Hnone p); lia. }
  destruct (next_power_of_two p <=? isize_max) eqn:Himax; to_prop.
  - destruct (large_request p) as (e & He & Hr & Hsz & Hleast); [done|done|]. eexists. split; [done|]. exists (2 ^ e), p. destruct (pow_log2_up p) as [Hup _]; [lia|].
    split_and!; try done; [lia|lia|lia| |right; by exists e].
    assert (k <= e). { apply (Z.pow_le_mono_r_iff 2); [lia|lia|]. apply Z.mod_divide in Hpal as [q Hq]; [|lia]. rewrite He in Hup. assert (1 <= q) by nia. nia. }
    replace e with (e - k + k) by lia. rewrite Z.pow_add_r by lia. apply Z_mod_mult.
  - exists None. split; [done|]. apply (Hnone p); [done|lia|]. destruct (pow_log2_up p) as [_ Hleast]; [lia|]. specialize (Hleast 62). unfold isize_max in Himax. lia.
Qed.

Lemma request_is_best_fit_witness :
  exists r, with_size (mkLayout 0 (2 ^ 6)) 100 = Ok r
    /\ match r with
       | Some tag => exists s padded, size tag = Ok s /\ Z.max 100 1 <= padded < Z.max 100 1 + 2 ^ 6 /\ padded mod 2 ^ 6 = 0
           /\ padded <= s /\ s mod 2 ^ 6 = 0 /\ request_size s /\ forall s', request_size s' -> padded <= s' -> s <= s'
       | None => forall s, s mod 2 ^ 6 = 0 -> request_size s -> s < 100
       end.
Proof. apply (request_is_best_fit (mkLayout 0 (2 ^ 6)) 100 6); [reflexivity|lia|unfold usize_max; lia]. Defined.

