(* ===== verification/Timers.v ===== *)
(** * tick: the timer set and the storage of a system clock

    Models [src/crates/tick/src/timers.rs] (one-shot timers in firing order, each with the waker of the
    task that waits for it) and the storage of [src/crates/tick/src/state.rs] (timers, driver wakers
    and the count of clocks), with the calls that one thread makes while it holds a lock. *)

From S2P Require Import Prelude Collections ByteSpan StdTime.

(** ** [BTreeMap] *)

Definition btree_insert {K V} `{Ord K} (k : K) (v : V) (m : list (K * V)) : list (K * V) := entry v k (fun _ => v) m.

Definition btree_get {K V} `{EqDecision K} (k : K) (m : list (K * V)) : option V := (fun x => snd (snd x)) <$> list_find (fun x => x.1 = k) m.

Definition btree_remove {K V} `{EqDecision K} (k : K) (m : list (K * V)) : list (K * V) := filter (fun x => x.1 <> k) m.

(** [get_mut] and the assignment to what it found. *)
Definition btree_replace {K V} `{EqDecision K} (k : K) (v : V) (m : list (K * V)) : list (K * V) :=
  (fun x => if decide (x.1 = k) then (k, v) else x) <$> m.

(** [split_off]: what stays, and what is at [k] or after. *)
Definition btree_split_off {K V} `{Ord K} (k : K) (m : list (K * V)) : list (K * V) * list (K * V) :=
  (filter (fun x => cmp x.1 k = Lt) m, filter (fun x => cmp x.1 k <> Lt) m).

Definition btree_append {K V} `{Ord K} (m other : list (K * V)) : list (K * V) := foldl (fun m x => btree_insert x.1 x.2 m) m other.

(** ** Timers *)

(** The instant when the timer fires, and the discriminator; keys compare in this order. *)
Definition TimerKey : Type := Z * Z.
Definition tick (k : TimerKey) : Z := k.1.

Definition TIMER_RESOLUTION : Z := from_millis 1.

(** A waker is the task it wakes. *)
Definition Waker : Type := Z.
Definition will_wake (a b : Waker) : bool := a =? b.

Record Timers : Type := mkTimers { wakers : list (TimerKey * Waker); last_discriminator : Z; alive : bool }.

Definition timers_default : Timers := mkTimers [] 0 false.

Definition timers_len (t : Timers) : Z := Z.of_nat (length (wakers t)).

Definition timers_register (t : Timers) (when : Z) (w : Waker) : Timers * TimerKey :=
  let last := wrap32 (last_discriminator t + 1) in
  let key := (when, last) in
  (mkTimers (btree_insert key w (wakers t)) last (alive t), key).

Definition timers_unregister (t : Timers) (key : TimerKey) : Timers * option Waker :=
  (mkTimers (btree_remove key (wakers t)) (last_discriminator t) (alive t), btree_get key (wakers t)).

(** Returns whether the timer exists, and the waker to drop. *)
Definition update_waker (t : Timers) (key : TimerKey) (replacement : Waker) : Timers * (bool * Waker) :=
  match btree_get key (wakers t) with
  | None => (t, (false, replacement))
  | Some current =>
      if will_wake current replacement then (t, (true, replacement))
      else (mkTimers (btree_replace key replacement (wakers t)) (last_discriminator t) (alive t), (true, current))
  end.

Definition next_timer (t : Timers) : option Z := (fun x => tick x.1) <$> head (wakers t).

(** The loop of [pop_ready_into], with [slots] slots of [ready] left. *)
Fixpoint pop_loop (slots : nat) (now : Z) (m : list (TimerKey * Waker)) : list Waker * list (TimerKey * Waker) :=
  match slots, m with
  | S slots, (k, w) :: rest =>
      if now <? tick k then ([], m)
      else let '(ready, m) := pop_loop slots now rest in (w :: ready, m)
  | _, _ => ([], m)
  end.

(** The filled slots of [ready], of which the count is the number, and the next instant. *)
Definition pop_ready_into (t : Timers) (now : Z) (slots : nat) : Timers * (list Waker * option Z) :=
  let '(ready, m) := pop_loop slots now (wakers t) in
  let t := mkTimers m (last_discriminator t) true in
  (t, (ready, next_timer t)).

Definition instant_checked_add (i d : Z) : option Z := if i + d <=? instant_max then Some (i + d) else None.

(** [advance_timers] of a controlled clock. *)
Definition advance_timers (t : Timers) (now : Z) (ready : list (TimerKey * Waker)) : Timers * list (TimerKey * Waker) * option Z :=
  let t := mkTimers (wakers t) (last_discriminator t) true in
  match wakers t with
  | (k, w) :: _ =>
      if tick k <=? now then
        let '(expired, pending) :=
          match instant_checked_add now 1 with
          | Some after_now => btree_split_off (after_now, 0) (wakers t)
          | None => (wakers t, [])
          end in
        let t := mkTimers pending (last_discriminator t) true in
        (t, btree_append ready expired, next_timer t)
      else (t, ready, Some (tick k))
  | [] => (t, ready, None)
  end.

(** ** The storage of a system clock *)

Record Storage : Type := mkStorage { timers : Timers; driver_wakers : list (Z * Waker); next_driver_id : Z; clock_owners : Z }.

Definition storage_default : Storage := mkStorage timers_default [] 0 0.

Definition set_timers (s : Storage) (t : Timers) : Storage := mkStorage t (driver_wakers s) (next_driver_id s) (clock_owners s).

Definition register_driver (s : Storage) (w : Waker) : Storage * Z :=
  let id := next_driver_id s in
  (mkStorage (timers s) (driver_wakers s ++ [(id, w)]) (wrap64 (id + 1)) (clock_owners s), id).

(** [Vec::swap_remove]. *)
Definition swap_remove {A} (i : nat) (l : list A) : list A :=
  match pop_last l with
  | Some (front, last) => if (i =? length front)%nat then front else <[i := last]> front
  | None => l
  end.

Definition unregister_driver (s : Storage) (id : Z) : Storage :=
  match list_find (fun d => d.1 = id) (driver_wakers s) with
  | Some (i, _) => mkStorage (timers s) (swap_remove i (driver_wakers s)) (next_driver_id s) (clock_owners s)
  | None => s
  end.

Definition add_clock_owner (s : Storage) : Storage := mkStorage (timers s) (driver_wakers s) (next_driver_id s) (wrap64 (clock_owners s + 1)).

(** Also says whether the drivers are to be woken. *)
Definition remove_clock_owner (s : Storage) : result (Storage * bool) :=
  let previous := clock_owners s in
  let s := mkStorage (timers s) (driver_wakers s) (next_driver_id s) (wrap64 (previous - 1)) in
  let? _ := rust_assert (0 <? previous) in
  Ok (s, previous =? 1).

Definition has_no_clock_owners (s : Storage) : bool := clock_owners s =? 0.

(** The wakers [wake_drivers] calls, in order. *)
Definition wake_drivers (s : Storage) : list Waker := snd <$> driver_wakers s.

(** Under the lock; also says whether the drivers are to be woken. *)
Definition register_timer (s : Storage) (when : Z) (w : Waker) : Storage * TimerKey * bool :=
  let previous_next := next_timer (timers s) in
  let '(t, key) := timers_register (timers s) when w in
  (set_timers s t, key, match previous_next with None => true | Some previous => when <? previous end).

Definition READY_BATCH_SIZE : nat := 8.

Definition after_now (next : option Z) (now : Z) : bool := match next with None => true | Some next => now <? next end.

(** The loop of [try_advance_timers], when nobody else takes the lock in between; the wakers it
    calls, in order, are returned. *)
Fixpoint advance_loop (fuel : nat) (t : Timers) (now : Z) : result (Timers * list Waker * option Z) :=
  let '(t, (ready, next)) := pop_ready_into t now READY_BATCH_SIZE in
  if (length ready <? READY_BATCH_SIZE)%nat || after_now next now then Ok (t, ready, next)
  else match fuel with
  | O => Panic
  | S fuel => let? (t, woken, next) := advance_loop fuel t now in Ok (t, ready ++ woken, next)
  end.

Definition try_advance_timers (t : Timers) (now : Z) : result (Timers * list Waker * option Z) :=
  let '(t, (first, next)) := pop_ready_into t now 1 in
  match first with
  | [] => Ok (t, [], next)
  | w :: _ =>
      if after_now next now then Ok (t, [w], next)
      else let? (t, woken, next) := advance_loop (length (wakers t)) t now in Ok (t, w :: woken, next)
  end.

(** ** Facts about maps *)

Section maps.
Context {K V : Type} `{HK : OrdLaws K} `{EqDecision K}.
Implicit Types m : list (K * V).

Lemma elem_of_insert k v m x : btree_sorted m -> x ∈ btree_insert k v m <-> x = (k, v) \/ (x.1 <> k /\ x ∈ m).
Proof.
  intros Hm. unfold btree_insert. pose proof (btree_sorted_NoDup m Hm) as Hnd. destruct (entry_spec v k (fun _ => v) m Hm) as [(v' & m1 & m2 & -> & ->)|(Hk & m1 & m2 & -> & ->)].
  - rewrite fmap_app, fmap_cons in Hnd. apply NoDup_app in Hnd as (_ & Hd & Hnd). apply NoDup_cons in Hnd as [Hn2 _]. cbn [fst] in *.
    rewrite !elem_of_app, !elem_of_cons. split.
    + intros [Hx|[->|Hx]]; [right; split; [|by left]|by left|right; split; [|by right; right]]; intros Hk; [eapply (Hd x.1); [by apply list_elem_of_fmap_2|rewrite Hk; by left]|].
      apply Hn2. rewrite <- Hk. by apply list_elem_of_fmap_2.
    + intros [->|(Hne & [?|[->|?]])]; [by right; left|by left|done|by right; right].
  - rewrite !elem_of_app, elem_of_cons. split; [|intros [->|[_ [?|?]]]; auto].
    assert (Hne : x ∈ m1 ++ m2 -> x.1 <> k) by (intros Hx <-; apply Hk; by apply list_elem_of_fmap_2). rewrite elem_of_app in Hne. intros [?|[->|?]]; auto.
Qed.

Lemma insert_sorted k v m : btree_sorted m -> btree_sorted (btree_insert k v m).
Proof. apply entry_sorted. Qed.

Lemma filter_sorted (P : K * V -> Prop) `{!forall x, Decision (P x)} m : btree_sorted m -> btree_sorted (filter P m).
Proof.
  unfold btree_sorted. induction 1 as [|x m Hm IH Hall]; [constructor|]. rewrite filter_cons. case_decide; [|done]. constructor; [done|].
  rewrite Forall_forall in *. intros y [_ Hy]%list_elem_of_filter. auto.
Qed.

Lemma elem_of_remove k m x : x ∈ btree_remove k m <-> x.1 <> k /\ x ∈ m.
Proof. unfold btree_remove. by rewrite list_elem_of_filter. Qed.

Lemma key_unique m k v v' : btree_sorted m -> (k, v) ∈ m -> (k, v') ∈ m -> v = v'.
Proof.
  unfold btree_sorted. induction 1 as [|[k1 v1] m Hm IH Hall]; [by intros ?%not_elem_of_nil|]. rewrite !elem_of_cons, Forall_forall in *.
  unfold key_lt in Hall. intros [[= -> ->]|Hv] [Heq|Hv']; [by injection Heq as ->|apply Hall in Hv'|injection Heq as -> ->; apply Hall in Hv|auto];
    [cbn in Hv'; by rewrite cmp_refl in Hv'|cbn in Hv; by rewrite cmp_refl in Hv].
Qed.

Lemma get_spec k v m : btree_sorted m -> btree_get k m = Some v <-> (k, v) ∈ m.
Proof.
  intros Hm. unfold btree_get. destruct (list_find _ m) as [[i [k' v']]|] eqn:Hf; cbn.
  - apply list_find_Some in Hf as (Hi & Hk & _). cbn in Hk. subst k'. apply list_elem_of_lookup_2 in Hi. split; [by intros [= <-]|].
    intros Hv. f_equal. by eapply key_unique.
  - split; [done|]. intros Hv. apply list_find_None in Hf. rewrite Forall_forall in Hf. by eapply Hf in Hv.
Qed.

Lemma get_None k m : btree_get k m = None <-> k ∉ m.*1.
Proof.
  unfold btree_get. rewrite fmap_None, list_find_None, Forall_forall. split; [intros Hn ([k' v] & -> & Hx)%list_elem_of_fmap; by eapply Hn|].
  intros Hn [k' v] Hx Hk. apply Hn. cbn in Hk. subst k'. by apply (list_elem_of_fmap_2 fst _ (k, v)).
Qed.

Lemma keys_replace k v m : (btree_replace k v m).*1 = m.*1.
Proof. unfold btree_replace. rewrite <- list_fmap_compose. apply list_fmap_ext. intros i [k' v'] _. cbn. by case_decide. Qed.

Lemma replace_sorted k v m : btree_sorted m -> btree_sorted (btree_replace k v m).
Proof.
  unfold btree_sorted. induction 1 as [|x m Hm IH Hall]; [constructor|]. cbn. constructor; [done|]. rewrite Forall_forall in *.
  intros y (z & -> & Hz)%list_elem_of_fmap. specialize (Hall z Hz). revert Hall. unfold key_lt. destruct (decide (x.1 = k)) as [Hx'|], (decide (z.1 = k)) as [Hz'|]; cbn; rewrite ?Hx', ?Hz'; done.
Qed.

Lemma elem_of_replace k v m x : x ∈ btree_replace k v m <-> (x = (k, v) /\ k ∈ m.*1) \/ (x.1 <> k /\ x ∈ m).
Proof.
  unfold btree_replace. rewrite list_elem_of_fmap. split.
  - intros (y & -> & Hy). case_decide as Hk; [left; split; [done|]; rewrite <- Hk; by apply list_elem_of_fmap_2|by right].
  - intros [[-> (y & Hk & Hy)%list_elem_of_fmap]|[Hne Hx]]; [exists y; by rewrite decide_True|exists x; by rewrite decide_False].
Qed.
End maps.

(** ** Facts about timers *)

Definition due (now : Z) (m : list (TimerKey * Waker)) : list (TimerKey * Waker) := filter (fun x => tick x.1 <= now) m.
Definition later (now : Z) (m : list (TimerKey * Waker)) : list (TimerKey * Waker) := filter (fun x => now < tick x.1) m.

Lemma key_lt_tick (x y : TimerKey * Waker) : key_lt x y -> tick x.1 <= tick y.1.
Proof.
  unfold key_lt, tick. cbn. destruct (Z.compare_spec x.1.1 y.1.1); cbn; try done; lia.
Qed.

(** The due timers come first. *)
Lemma due_later now m : btree_sorted m -> m = due now m ++ later now m.
Proof.
  unfold btree_sorted, due, later. induction 1 as [|x m Hm IH Hall]; [done|]. rewrite !filter_cons. destruct (decide (tick x.1 <= now)) as [Hle|Hgt].
  - rewrite decide_False by lia. cbn. by f_equal.
  - rewrite decide_True by lia. assert (Hnone : filter (fun x => tick x.1 <= now) m = []).
    { apply filter_none, Forall_forall. intros y Hy Hle. rewrite Forall_forall in Hall. apply Hall in Hy. apply key_lt_tick in Hy. lia. }
    rewrite Hnone in *. cbn in *. by f_equal.
Qed.

Lemma pop_loop_spec n : forall now m, btree_sorted m -> pop_loop n now m = ((take n (due now m)).*2, drop n (due now m) ++ later now m).
Proof.
  induction n as [|n IH]; intros now m Hm; [cbn [pop_loop]; rewrite drop_0, <- due_later by done; done|]. destruct m as [|[k w] m]; [done|]. cbn [pop_loop]. unfold tick in *. inversion Hm as [|? ? Hm' Hall]; subst.
  destruct (Z.ltb_spec now k.1) as [Hgt|Hle].
  - pose proof (due_later now _ Hm) as Heq. assert (Hd : due now ((k, w) :: m) = []).
    { unfold due. apply filter_none, Forall_forall. intros y Hy Hyle. unfold tick in *. apply elem_of_cons in Hy as [->|Hy]; [cbn in *; lia|]. rewrite Forall_forall in Hall. apply Hall in Hy. apply key_lt_tick in Hy. unfold tick in *. cbn in *. lia. }
    rewrite Hd in *. cbn in *. by rewrite <- Heq.
  - rewrite IH by done. unfold due, later. rewrite !filter_cons. unfold tick. cbn [fst]. rewrite decide_True, decide_False by lia. done.
Qed.

Lemma head_later now m next : head (later now m) = Some next -> now < tick next.1.
Proof. intros Hh. assert (Hin : next ∈ later now m) by (destruct (later now m); [done|]; injection Hh as ->; by left). by apply list_elem_of_filter in Hin as [? _]. Qed.

Lemma due_filtered now m : due now (later now m) = [].
Proof. unfold due, later. apply filter_none, Forall_forall. intros x [Hx _]%list_elem_of_filter. lia. Qed.

Definition timers_ok (t : Timers) : Prop := btree_sorted (wakers t) /\ Forall (fun x => 0 <= x.1.2) (wakers t).

(** What is left after some due timers were taken. *)
Lemma left_over now m n : let m' := drop n (due now m) ++ later now m in due now m' = drop n (due now m) /\ later now m' = later now m.
Proof.
  assert (Hd : Forall (fun x => tick x.1 <= now) (drop n (due now m))) by (apply Forall_drop, Forall_forall; intros x [? _]%list_elem_of_filter; done).
  assert (Hl : Forall (fun x => now < tick x.1) (later now m)) by (apply Forall_forall; intros x [? _]%list_elem_of_filter; done).
  cbn zeta. revert Hd Hl. generalize (drop n (due now m)) (later now m). intros d l Hd Hl. unfold due, later. rewrite !filter_app. split.
  - rewrite (filter_all _ d), (filter_none _ l), app_nil_r; [done| |done]. eapply Forall_impl; [done|]. cbn. intros; lia.
  - rewrite (filter_none _ d), (filter_all _ l); [done|done|]. eapply Forall_impl; [done|]. cbn. intros; lia.
Qed.

Lemma left_over_sorted now m n : btree_sorted m -> btree_sorted (drop n (due now m) ++ later now m).
Proof.
  intros Hm. rewrite (due_later now m Hm) in Hm. unfold btree_sorted in *. rewrite <- (take_drop n (due now m)), <- (assoc_L (++)) in Hm.
  revert Hm. generalize (take n (due now m)). induction l as [|x l IH]; [done|]. cbn. intros Hx. inversion Hx. auto.
Qed.

Lemma pop_ready_spec t now n : btree_sorted (wakers t) ->
  let t' := mkTimers (drop n (due now (wakers t)) ++ later now (wakers t)) (last_discriminator t) true in
  pop_ready_into t now n = (t', ((take n (due now (wakers t))).*2, next_timer t')).
Proof. intros Ht. unfold pop_ready_into. by rewrite pop_loop_spec. Qed.

(** The next timer is later exactly when no due timer is left. *)
Lemma after_now_spec t now : btree_sorted (wakers t) -> after_now (next_timer t) now = true <-> due now (wakers t) = [].
Proof.
  intros Ht. unfold next_timer, after_now. rewrite (due_later now (wakers t) Ht) at 1. destruct (due now (wakers t)) as [|x d] eqn:Hd; cbn [app head fmap option_fmap option_map].
  - split; [done|]. intros _. destruct (head (later now (wakers t))) as [x|] eqn:Hh; [|done]. apply head_later in Hh. by apply Z.ltb_lt.
  - split; [|done]. intros Hx%Z.ltb_lt. assert (Hin : x ∈ due now (wakers t)) by (rewrite Hd; by left). apply list_elem_of_filter in Hin as [? _]. lia.
Qed.

Definition fired (t : Timers) (now : Z) : Timers := mkTimers (later now (wakers t)) (last_discriminator t) true.

Lemma fire_loop_ok fuel : forall t now, btree_sorted (wakers t) -> (length (due now (wakers t)) <= fuel)%nat ->
  advance_loop fuel t now = Ok (fired t now, (due now (wakers t)).*2, next_timer (fired t now)).
Proof.
  induction fuel as [|fuel IH]; intros t now Ht Hfuel; cbn [advance_loop]; rewrite pop_ready_spec by done; set (t' := mkTimers _ _ _);
    (assert (Ht' : btree_sorted (wakers t')) by by apply left_over_sorted); destruct (left_over now (wakers t) READY_BATCH_SIZE) as [Hd Hl];
    assert (Hdone : forall c, c || after_now (next_timer t') now = true -> (c = true -> drop READY_BATCH_SIZE (due now (wakers t)) = []) -> drop READY_BATCH_SIZE (due now (wakers t)) = [])
      by (intros c [Hc|Hc]%orb_true_iff Hx; [auto|apply after_now_spec in Hc; [by rewrite <- Hd|done]]);
    destruct (_ || _) eqn:Hstop.
  1,3: assert (Hnil : drop READY_BATCH_SIZE (due now (wakers t)) = []) by
    (eapply Hdone; [exact Hstop|]; intros Hc%Nat.ltb_lt; rewrite length_fmap, length_take in Hc; apply drop_ge; lia);
    pose proof (take_drop READY_BATCH_SIZE (due now (wakers t))) as Htd; rewrite Hnil, app_nil_r in Htd; subst t'; rewrite Hnil, Htd; done.
  - exfalso. apply orb_false_iff in Hstop as [Hc%Nat.ltb_ge _]. rewrite length_fmap, length_take in Hc. unfold READY_BATCH_SIZE in Hc. lia.
  - apply orb_false_iff in Hstop as [Hc%Nat.ltb_ge _]. rewrite length_fmap, length_take in Hc. rewrite IH; [|done|].
    + unfold fired. subst t'. cbn [wakers last_discriminator]. rewrite Hd, Hl, <- fmap_app, take_drop. done.
    + change (wakers t') with (drop READY_BATCH_SIZE (due now (wakers t)) ++ later now (wakers t)). rewrite Hd, length_drop. unfold READY_BATCH_SIZE in *. lia.
Qed.

Lemma try_advance_ok t now : btree_sorted (wakers t) ->
  try_advance_timers t now = Ok (fired t now, (due now (wakers t)).*2, next_timer (fired t now)).
Proof.
  intros Ht. unfold try_advance_timers. rewrite pop_ready_spec by done. destruct (left_over now (wakers t) 1) as [Hd Hl]. set (t' := mkTimers _ _ _).
  assert (Ht' : btree_sorted (wakers t')) by by apply left_over_sorted. destruct (due now (wakers t)) as [|x d] eqn:Hdue; cbn [take fmap list_fmap]; [done|].
  change (drop 1 (x :: d)) with d in *. destruct (after_now (next_timer t') now) eqn:Han.
  - apply after_now_spec in Han; [|done]. change (wakers t') with (d ++ later now (wakers t)) in Han. rewrite Hd in Han. subst d. done.
  - rewrite fire_loop_ok; [|done|]; change (wakers t') with (d ++ later now (wakers t)); rewrite Hd; [|rewrite length_app; lia].
    unfold fired. cbn [wakers last_discriminator]. change (wakers t') with (d ++ later now (wakers t)). by rewrite Hl.
Qed.

(** ** Advancing a controlled clock *)

(** Every timer has a possible instant and discriminator. *)
Definition keys_ok (m : list (TimerKey * Waker)) : Prop := Forall (fun x => tick x.1 <= instant_max /\ 0 <= x.1.2) m.

Lemma append_after (m other : list (TimerKey * Waker)) : btree_sorted (m ++ other) -> btree_append m other = m ++ other.
Proof.
  revert m. induction other as [|x other IH]; intros m Hm; [by rewrite app_nil_r|]. cbn [btree_append foldl]. fold (btree_append (btree_insert x.1 x.2 m) other).
  assert (Hx : btree_insert x.1 x.2 m = m ++ [x]).
  { clear IH. unfold btree_insert. revert Hm. induction m as [|y m IHm]; intros Hm; [by destruct x|]. destruct y as [k v]. cbn [app entry] in *. inversion Hm as [|? ? Hm' Hall]; subst.
    rewrite Forall_app, Forall_cons in Hall. destruct Hall as (_ & Hlt & _). unfold key_lt in Hlt. cbn [fst] in Hlt. rewrite (cmp_antisym k x.1), Hlt. cbn [CompOpp]. f_equal. by apply IHm. }
  rewrite Hx, IH; rewrite <- (assoc_L (++)); done.
Qed.

Lemma split_off_due now m : keys_ok m -> btree_split_off (now + 1, 0) m = (due now m, later now m).
Proof.
  intros Hk. unfold btree_split_off, due, later, tick, keys_ok in *. f_equal; apply filter_equiv; (eapply Forall_impl; [exact Hk|]); intros [[t d] w] [_ Hd]; cbn in *;
    destruct (Z.compare_spec t (now + 1)); cbn; (try destruct (Z.compare_spec d 0)); cbn; split; intros; try done; try lia; congruence.
Qed.

Lemma advance_timers_ok t now ready : btree_sorted (ready ++ wakers t) -> btree_sorted (wakers t) -> keys_ok (wakers t) ->
  advance_timers t now ready = (fired t now, ready ++ due now (wakers t), next_timer (fired t now)).
Proof.
  intros Hr Ht Hk. unfold advance_timers. cbn [wakers last_discriminator]. pose proof (due_later now _ Ht) as Hsplit.
  assert (Happ : btree_append ready (due now (wakers t)) = ready ++ due now (wakers t)).
  { apply append_after. rewrite Hsplit, (assoc_L (++)) in Hr. unfold btree_sorted in *. clear -Hr. induction (ready ++ due now (wakers t)) as [|x l IH]; [constructor|].
    cbn in Hr. inversion Hr as [|? ? H1 H2]; subst. constructor; [auto|]. by apply Forall_app in H2 as [? _]. }
  destruct (wakers t) as [|[k w] m] eqn:Hm; [unfold fired; rewrite Hm; cbn; by rewrite app_nil_r|]. rewrite <- Hm in *. destruct (Z.leb_spec (tick k) now) as [Hle|Hgt].
  - assert (Hpair : match instant_checked_add now 1 with Some after => btree_split_off (after, 0) (wakers t) | None => (wakers t, []) end = (due now (wakers t), later now (wakers t))).
    { unfold instant_checked_add. destruct (Z.leb_spec (now + 1) instant_max); [by apply split_off_due|].
      assert (Hl : later now (wakers t) = []) by (apply filter_none; eapply Forall_impl; [exact Hk|]; cbn; intros x [? _]; lia). rewrite Hl, app_nil_r in Hsplit. by rewrite Hl, <- Hsplit. }
    rewrite Hpair, Happ. done.
  - assert (Hd : due now (wakers t) = []). { destruct (due now (wakers t)) as [|x d] eqn:Hd; [done|]. exfalso. assert (Hx : x ∈ due now (wakers t)) by (rewrite Hd; by left).
      apply list_elem_of_filter in Hx as [Hx _]. cbn [app] in Hsplit. rewrite Hm in Hsplit. injection Hsplit as <- _. cbn in Hx. lia. }
    unfold fired. rewrite Hd, app_nil_r. rewrite Hd in Hsplit. cbn [app] in Hsplit. rewrite <- Hsplit. unfold next_timer. cbn [wakers]. rewrite Hm. done.
Qed.

(** ** The discriminator wraps *)

(** Registers a timer at [when] and unregisters it. *)
Definition churn (when : Z) (w : Waker) (t : Timers) : Timers :=
  let '(t, key) := timers_register t when w in (timers_unregister t key).1.

Lemma remove_inserted {V} (key : TimerKey) (v : V) m : key ∉ m.*1 -> btree_remove key (btree_insert key v m) = m.
Proof.
  unfold btree_insert, btree_remove. induction m as [|[k v'] m IH]; cbn [entry fmap list_fmap fst]; intros Hk.
  - by rewrite filter_cons_False by (intros Hx; by apply Hx).
  - apply not_elem_of_cons in Hk as [Hne Hk]. assert (Hm : filter (fun x : TimerKey * V => x.1 <> key) m = m).
    { apply filter_all, Forall_forall. intros x Hx Heq. apply Hk. rewrite <- Heq. by apply list_elem_of_fmap_2. }
    destruct (cmp key k) eqn:Hc; [by apply cmp_eq in Hc|..]; rewrite !filter_cons.
    + rewrite decide_False by (intros Hx; by apply Hx). rewrite decide_True by (cbn; congruence). by rewrite Hm.
    + rewrite decide_True by (cbn; congruence). by rewrite IH.
Qed.

Lemma churn_ok when w t : (forall x, x ∈ wakers t -> tick x.1 <> when) -> churn when w t = mkTimers (wakers t) (wrap32 (last_discriminator t + 1)) (alive t).
Proof.
  intros Hx. unfold churn, timers_register, timers_unregister. cbn [fst wakers last_discriminator alive]. rewrite remove_inserted; [done|].
  intros ([k v] & Hk & Hin)%list_elem_of_fmap. cbn in Hk. apply (Hx _ Hin). by rewrite <- Hk.
Qed.

Lemma churn_many n when w t : (forall x, x ∈ wakers t -> tick x.1 <> when) -> wakers (Nat.iter n (churn when w) t) = wakers t
  /\ last_discriminator (Nat.iter n (churn when w) t) mod 4294967296 = (last_discriminator t + Z.of_nat n) mod 4294967296.
Proof.
  intros Hx. induction n as [|n [IH1 IH2]]; [cbn; by rewrite Z.add_0_r|]. rewrite Nat.iter_succ, churn_ok by by rewrite IH1. cbn [wakers last_discriminator]. split; [done|].
  unfold wrap32. rewrite Zmod_mod, <- Zplus_mod_idemp_l, IH2, Zplus_mod_idemp_l. f_equal. lia.
Qed.

(** Timer keys are unique only among 2^32 registrations: a timer that is still pending after as many
    others were registered and removed is overwritten by the next registration for the same instant, which
    gets the same key; the first waker is lost and is never called. *)
Theorem discriminator_wrap_loses_timer t when w1 w2 other w n : Z.of_nat n = 4294967295 -> btree_sorted (wakers t) -> other <> when -> (forall x, x ∈ wakers t -> tick x.1 <> other) -> w1 <> w2 ->
  let '(t1, key1) := timers_register t when w1 in
  let t2 := Nat.iter n (churn other w) t1 in
  let '(t3, key2) := timers_register t2 when w2 in
  (key1, w1) ∈ wakers t2 /\ key2 = key1 /\ (key1, w1) ∉ wakers t3.
Proof.
  intros Hn Hs Hne Hx Hw. unfold timers_register at 1. set (key1 := (when, wrap32 (last_discriminator t + 1))). set (t1 := mkTimers _ _ _).
  assert (Hs1 : btree_sorted (wakers t1)) by by apply insert_sorted. assert (Hin : (key1, w1) ∈ wakers t1) by (apply elem_of_insert; [done|by left]).
  destruct (churn_many n other w t1) as [H1 H2].
  { intros x [->|[_ Hin']]%elem_of_insert; [cbn; congruence|by apply Hx|done]. }
  set (t2 := Nat.iter _ _ t1) in *. rewrite Hn in H2. cbn zeta. unfold timers_register. assert (Hkey : wrap32 (last_discriminator t2 + 1) = wrap32 (last_discriminator t + 1)).
  { unfold wrap32 at 1. rewrite <- Zplus_mod_idemp_l, H2, Zplus_mod_idemp_l. cbn [t1 last_discriminator]. unfold wrap32. rewrite <- Z.add_assoc, Zplus_mod_idemp_l.
    replace (last_discriminator t + 1 + (4294967295 + 1)) with (last_discriminator t + 1 + 1 * 4294967296) by lia. by rewrite Z_mod_plus_full. }
  rewrite Hkey. fold key1. rewrite H1. split_and!; [done|done|]. cbn [wakers]. intros [[= Heq]|[Hk _]]%elem_of_insert; [done|by apply Hk|done].
Qed.
