(* ===== verification/ClockControl.v ===== *)
(** * tick: the controlled clock

    Models [src/crates/tick/src/clock_control.rs]: a clock whose time its owner moves, by hand or
    automatically on every reading or to the next timer, and which wakes the timers it passes. *)

From S2P Require Import Prelude Collections ByteSpan StdTime Timers.

(** The smallest [Instant] and [SystemTime]: [i64::MIN] seconds on the 64-bit Unix targets. *)
Definition instant_min : Z := -9223372036854775808 * NANOS_PER_SEC.

Definition time_checked_sub (t d : Z) : option Z := if instant_min <=? t - d then Some (t - d) else None.

Record State : Type := mkState {
  instant : Z; system_time : Z; st_timers : Timers; auto_advance : Z; auto_advance_total : Z; auto_advance_timers : bool;
  auto_advance_total_max : option Z }.

(** [State::default] at an instant of the monotonic clock. *)
Definition state_default (i0 : Z) : State := mkState i0 0 timers_default 0 0 false None.

Definition ReadyWakers : Type := list (TimerKey * Waker).

Inductive TimeFlow : Type := Forward | Backward.

Definition set_clock (i s : Z) (st : State) : State := mkState i s (st_timers st) (auto_advance st) (auto_advance_total st) (auto_advance_timers st) (auto_advance_total_max st).
Definition set_timers (t : Timers) (st : State) : State := mkState (instant st) (system_time st) t (auto_advance st) (auto_advance_total st) (auto_advance_timers st) (auto_advance_total_max st).
Definition set_total (d : Z) (st : State) : State := mkState (instant st) (system_time st) (st_timers st) (auto_advance st) d (auto_advance_timers st) (auto_advance_total_max st).

Definition get_next_auto_advance_duration (st : State) (hint : Z) : Z :=
  match auto_advance_total_max st with
  | Some max => let remaining := saturating_sub max (auto_advance_total st) in Z.min hint remaining
  | None => hint
  end.

Definition advance_time (st : State) (duration : Z) (flow : TimeFlow) : result State :=
  if duration =? 0 then Ok st
  else match flow with
  | Forward =>
      let? i := expect (instant_checked_add (instant st) duration) in
      let? s := expect (instant_checked_add (system_time st) duration) in
      Ok (set_clock i s st)
  | Backward =>
      let? i := expect (time_checked_sub (instant st) duration) in
      let? s := expect (time_checked_sub (system_time st) duration) in
      Ok (set_clock i s st)
  end.

(** [self.timers.advance_timers(self.instant, ready)]. *)
Definition fire (st : State) (ready : ReadyWakers) : State * ReadyWakers :=
  let '(t, ready, _) := advance_timers (st_timers st) (instant st) ready in (set_timers t st, ready).

(** The loop that advances to the next timers. *)
Fixpoint evaluate_loop (fuel : nat) (st : State) (ready : ReadyWakers) : result (State * ReadyWakers) :=
  match next_timer (st_timers st) with
  | None => Ok (st, ready)
  | Some next_timer =>
      let time_to_next_timer := duration_since next_timer (instant st) in
      let advance := get_next_auto_advance_duration st time_to_next_timer in
      if advance =? 0 then Ok (st, ready)
      else match fuel with
      | O => Panic
      | S fuel =>
          let previous_instant := instant st in
          let? st := advance_time st advance Forward in
          let? _ := rust_assert (previous_instant <? instant st) in
          let st := set_total (saturating_add duration_max (auto_advance_total st) advance) st in
          let '(st, ready) := fire st ready in
          evaluate_loop fuel st ready
      end
  end.

Definition evaluate_timers (st : State) (ready : ReadyWakers) : result (State * ReadyWakers) :=
  let '(st, ready) := fire st ready in
  if negb (auto_advance_timers st) then Ok (st, ready)
  else evaluate_loop (S (length (wakers (st_timers st)))) st ready.

Definition advance (st : State) (duration : Z) (flow : TimeFlow) (ready : ReadyWakers) : result (State * ReadyWakers) :=
  let? st := advance_time st duration flow in
  evaluate_timers st ready.

Definition set_time (st : State) (timestamp : Z) (ready : ReadyWakers) : result (State * ReadyWakers) :=
  if system_time st <=? timestamp then advance st (timestamp - system_time st) Forward ready
  else advance st (system_time st - timestamp) Backward ready.

Definition auto_advance_by (st : State) (duration : option Z) (ready : ReadyWakers) : result (State * ReadyWakers) :=
  let auto_advance := get_next_auto_advance_duration st (default (auto_advance st) duration) in
  let st := set_total (saturating_add duration_max (auto_advance_total st) auto_advance) st in
  advance st auto_advance Forward ready.

Definition now (st : State) (ready : ReadyWakers) : result (State * ReadyWakers * Z) :=
  let time := system_time st in
  let? (st, ready) := auto_advance_by st None ready in
  Ok (st, ready, time).

Definition instant_now (st : State) (ready : ReadyWakers) : result (State * ReadyWakers * Z) :=
  let time := instant st in
  let? (st, ready) := auto_advance_by st None ready in
  Ok (st, ready, time).

(** ** The calls on [ClockControl] *)

Inductive ControlOp : Type :=
| AutoAdvance (d : Z) | AutoAdvanceLimit (d : Z) | AutoAdvanceTimers (enabled : bool)
| Advance (d : Z) | SetTime (timestamp : Z) | SystemTime | InstantNow
| RegisterTimer (when : Z) (w : Waker) | UpdateTimerWaker (key : TimerKey) (w : Waker) | UnregisterTimer (key : TimerKey).

Inductive Reply : Type := Done | Time (t : Z) | Key (k : TimerKey) | Updated (exists_ : bool) | Removed (w : option Waker).

(** The new state, the wakers called after the lock is released, and what the call returns. *)
Definition control_step (op : ControlOp) (st : State) : result (State * ReadyWakers * Reply) :=
  match op with
  | AutoAdvance d => Ok (mkState (instant st) (system_time st) (st_timers st) d (auto_advance_total st) (auto_advance_timers st) (auto_advance_total_max st), [], Done)
  | AutoAdvanceLimit d => Ok (mkState (instant st) (system_time st) (st_timers st) (auto_advance st) (auto_advance_total st) (auto_advance_timers st) (Some d), [], Done)
  | AutoAdvanceTimers b => Ok (mkState (instant st) (system_time st) (st_timers st) (auto_advance st) (auto_advance_total st) b (auto_advance_total_max st), [], Done)
  | Advance d => let? (st, ready) := advance st d Forward [] in Ok (st, ready, Done)
  | SetTime t => let? (st, ready) := set_time st t [] in Ok (st, ready, Done)
  | SystemTime => let? (st, ready, t) := now st [] in Ok (st, ready, Time t)
  | InstantNow => let? (st, ready, t) := instant_now st [] in Ok (st, ready, Time t)
  | RegisterTimer when w =>
      let '(t, key) := timers_register (st_timers st) when w in
      let? (st, ready) := evaluate_timers (set_timers t st) [] in
      Ok (st, ready, Key key)
  | UpdateTimerWaker key w => let '(t, (e, _)) := update_waker (st_timers st) key w in Ok (set_timers t st, [], Updated e)
  | UnregisterTimer key => let '(t, w) := timers_unregister (st_timers st) key in Ok (set_timers t st, [], Removed w)
  end.

Fixpoint control_run (ops : list ControlOp) (st : State) : result (State * ReadyWakers) :=
  match ops with
  | [] => Ok (st, [])
  | op :: ops =>
      let? (st, ready, _) := control_step op st in
      let? (st, woken) := control_run ops st in
      Ok (st, ready ++ woken)
  end.

(** Reads the fields of an updated state. *)
Ltac fields := cbn [set_total set_clock set_timers instant system_time st_timers auto_advance auto_advance_timers auto_advance_total auto_advance_total_max fired wakers] in *.

(** ** The invariant *)

(** The automatic advance has used up its limit. *)
Definition exhausted (st : State) : Prop := exists max, auto_advance_total_max st = Some max /\ max <= auto_advance_total st.

(** System time never runs ahead of the instant: it starts at the epoch, and both move together. *)
Record clock_ok (st : State) : Prop := {
  co_sorted : btree_sorted (wakers (st_timers st));
  co_keys : keys_ok (wakers (st_timers st));
  co_behind : system_time st <= instant st;
  co_range : instant_min <= system_time st /\ instant st <= instant_max;
  co_auto : 0 <= auto_advance st /\ 0 <= auto_advance_total st <= duration_max;
  co_limit max : auto_advance_total_max st = Some max -> 0 <= max <= duration_max }.

Record state_ok (st : State) : Prop := {
  so_clock : clock_ok st;
  so_pending : Forall (fun x => instant st < tick x.1) (wakers (st_timers st)) }.

(** What evaluating the timers of a state leaves. *)
Record evaluated (st : State) (ready : ReadyWakers) (st' : State) (ready' : ReadyWakers) : Prop := {
  ev_instant : instant st <= instant st';
  ev_wakers : wakers (st_timers st') = later (instant st') (wakers (st_timers st));
  ev_ready : ready' = ready ++ due (instant st') (wakers (st_timers st));
  ev_lockstep : system_time st' - instant st' = system_time st - instant st;
  ev_total : auto_advance_total st <= auto_advance_total st' /\ forall max, auto_advance_total_max st = Some max -> auto_advance_total st' <= Z.max max (auto_advance_total st);
  ev_flags : auto_advance st' = auto_advance st /\ auto_advance_timers st' = auto_advance_timers st /\ auto_advance_total_max st' = auto_advance_total_max st;
  ev_stays : auto_advance_timers st = false -> instant st' = instant st;
  ev_reaches : auto_advance_timers st = true -> wakers (st_timers st') = [] \/ exhausted st';
  ev_state : state_ok st' }.

Lemma later_pending i m : Forall (fun x => i < tick x.1) m -> later i m = m /\ due i m = [].
Proof. intros Hm. unfold later, due. rewrite filter_all, filter_none; [done| |done]. eapply Forall_impl; [done|]. cbn. intros. lia. Qed.

Lemma later_later i j m : i <= j -> later j (later i m) = later j m.
Proof. intros Hij. unfold later. rewrite list_filter_filter. apply filter_equiv, Forall_forall. intros. lia. Qed.

Lemma due_due i j m : i <= j -> btree_sorted m -> due i m ++ due j (later i m) = due j m.
Proof.
  intros Hij Hm. rewrite (due_later i m Hm) at 3. unfold due at 3. rewrite filter_app. f_equal. symmetry. apply filter_all.
  apply Forall_forall. intros x [? _]%list_elem_of_filter. lia.
Qed.

Lemma keys_later i m : keys_ok m -> keys_ok (later i m).
Proof. unfold keys_ok. rewrite !Forall_forall. intros Hm x [_ Hx]%list_elem_of_filter. auto. Qed.

Lemma forall_later i m : Forall (fun x => i < tick x.1) (later i m).
Proof. apply Forall_forall. by intros x [? _]%list_elem_of_filter. Qed.

(** Firing what is due. *)
Lemma fire_ok st ready : clock_ok st -> btree_sorted (ready ++ wakers (st_timers st)) ->
  let st' := set_timers (fired (st_timers st) (instant st)) st in
  fire st ready = (st', ready ++ due (instant st) (wakers (st_timers st))) /\ state_ok st'.
Proof.
  intros [C1 C2 C3 C4 C5 C6] Hr. cbn zeta. unfold fire. rewrite advance_timers_ok by done. split; [done|].
  split; [|apply forall_later]. split; cbn; try done; [by apply filter_sorted|by apply keys_later].
Qed.

Lemma next_timer_Some st next : next_timer (st_timers st) = Some next -> exists x, x ∈ wakers (st_timers st) /\ tick x.1 = next.
Proof. unfold next_timer. destruct (wakers (st_timers st)) as [|x m]; [done|]. intros [= <-]. exists x. split; [by left|done]. Qed.

(** Moving on by a positive amount up to the next timer. *)
Lemma advance_time_ok st d : clock_ok st -> 0 <= d -> instant st + d <= instant_max ->
  advance_time st d Forward = Ok (set_clock (instant st + d) (system_time st + d) st).
Proof.
  intros [C1 C2 C3 C4 C5 C6] Hd Hmax. unfold advance_time. destruct (Z.eqb_spec d 0) as [->|]; [by destruct st; cbn; rewrite !Z.add_0_r|].
  unfold instant_checked_add. by rewrite !(proj2 (Z.leb_le _ _)) by lia.
Qed.

Lemma state_evaluated st ready : state_ok st -> wakers (st_timers st) = [] \/ exhausted st -> evaluated st ready st ready.
Proof.
  intros Hst Hdone. destruct (later_pending _ _ (so_pending _ Hst)) as [Hl Hd]. split; rewrite ?Hl, ?Hd, ?app_nil_r; try done. split; [lia|]. intros; lia.
Qed.

(** One round of the loop: time moves to the next timer, or by what the limit leaves. *)
Record moved (st : State) (next d : Z) (st' : State) : Prop := {
  mv_to : instant st' = instant st + d /\ system_time st' = system_time st + d;
  mv_timers : st_timers st' = st_timers st;
  mv_flags : auto_advance st' = auto_advance st /\ auto_advance_timers st' = auto_advance_timers st /\ auto_advance_total_max st' = auto_advance_total_max st;
  mv_total : auto_advance_total st <= auto_advance_total st' /\ forall max, auto_advance_total_max st = Some max -> auto_advance_total st' <= Z.max max (auto_advance_total st);
  mv_progress : instant st' = next \/ exhausted st';
  mv_clock : clock_ok st' }.

Lemma round_ok st next : state_ok st -> next_timer (st_timers st) = Some next ->
  let d := get_next_auto_advance_duration st (duration_since next (instant st)) in
  (d = 0 /\ exhausted st) \/
  (0 < d /\ exists st1, advance_time st d Forward = Ok st1 /\ moved st next d (set_total (saturating_add duration_max (auto_advance_total st1) d) st1)
    /\ rust_assert (E:=Empty_set) (instant st <? instant st1) = Ok tt).
Proof.
  intros [Hc Hp] Hn. destruct (next_timer_Some _ _ Hn) as (x & Hx & Hnext). pose proof Hc as [C1 C2 C3 [C4 C4'] [C5 C5'] C6].
  rewrite Forall_forall in Hp. specialize (Hp x Hx). unfold keys_ok in C2. rewrite Forall_forall in C2. destruct (C2 x Hx) as [Hmax _].
  cbn zeta. set (d := get_next_auto_advance_duration _ _). assert (Hd : d = next - instant st \/ exists max, auto_advance_total_max st = Some max /\ d = Z.max 0 (max - auto_advance_total st) /\ d < next - instant st).
  { subst d. unfold get_next_auto_advance_duration, duration_since, saturating_sub. rewrite Z.max_r by lia. destruct (auto_advance_total_max st) as [max|]; [|by left].
    destruct (Z.min_spec (next - instant st) (Z.max 0 (max - auto_advance_total st))) as [[_ ->]|[Hlt ->]]; [by left|].
    destruct (Z.eq_dec (Z.max 0 (max - auto_advance_total st)) (next - instant st)); [by left|right; exists max; split_and!; [done|done|lia]]. }
  assert (Hnn : 0 <= d <= next - instant st) by (destruct Hd as [->|(max & _ & -> & ?)]; lia).
  destruct (Z.eq_dec d 0) as [Hz|Hz].
  { left. split; [done|]. destruct Hd as [Hd|(max & Hmx & Hd & _)]; [lia|]. exists max. split; [done|lia]. }
  right. split; [lia|]. eexists. split; [apply advance_time_ok; [done|lia|lia]|]. split; [|cbn; unfold rust_assert; by rewrite (proj2 (Z.ltb_lt _ _)) by lia].
  assert (Hlim : forall max, auto_advance_total_max st = Some max -> d <= Z.max 0 (max - auto_advance_total st)).
  { intros max Hmx. subst d. unfold get_next_auto_advance_duration, saturating_sub. rewrite Hmx. lia. }
  assert (Hdm : 0 < duration_max) by by unfold duration_max, u64_max, NANOS_PER_SEC. unfold saturating_add.
  split; fields; [auto..| | |].
  - split; [lia|]. intros max Hmx. specialize (Hlim max Hmx). lia.
  - destruct Hd as [Hd|(max & Hmx & Hd & _)]; [left; lia|right]. exists max. split; [exact Hmx|].
    cbn [set_total set_clock auto_advance_total]. specialize (C6 max Hmx). lia.
  - split; fields; [assumption|unfold keys_ok; by apply Forall_forall|lia|lia|lia|assumption].
Qed.

Lemma fired_shorter st : btree_sorted (wakers (st_timers st)) -> forall i next, next_timer (st_timers st) = Some next -> next <= i ->
  (length (later i (wakers (st_timers st))) < length (wakers (st_timers st)))%nat.
Proof.
  intros Hs i next Hn Hle. unfold next_timer in Hn. rewrite (due_later i _ Hs) at 2. rewrite length_app. destruct (wakers (st_timers st)) as [|x m]; [done|].
  injection Hn as Hn. unfold due. rewrite filter_cons_True by lia. cbn. lia.
Qed.

(** Rounds compose. *)
Lemma evaluated_after st ready next d st1 st' ready' : btree_sorted (wakers (st_timers st)) -> 0 <= d -> auto_advance_timers st = true -> moved st next d st1 ->
  evaluated (set_timers (fired (st_timers st1) (instant st1)) st1) (ready ++ due (instant st1) (wakers (st_timers st1))) st' ready' -> evaluated st ready st' ready'.
Proof.
  intros Hs Hd Hauto [[M1 M1'] M2 (M3 & M3' & M3'') [M4 M5] M6 M7] [E1 E2 E3 E4 [E5 E5'] (E6 & E6' & E6'') E7 E8 E9]. unfold fired in *. fields.
  assert (Hij : instant st1 <= instant st') by lia. rewrite M2 in *. split.
  - lia.
  - by rewrite E2, later_later.
  - by rewrite E3, <- (assoc_L (++)), due_due.
  - lia.
  - split; [lia|]. intros max Hmx. specialize (M5 max Hmx). specialize (E5' max). rewrite M3'' in E5'. specialize (E5' Hmx). lia.
  - split_and!; congruence.
  - congruence.
  - intros _. apply E8. congruence.
  - done.
Qed.

Lemma evaluate_loop_ok fuel : forall st ready, state_ok st -> btree_sorted (ready ++ wakers (st_timers st)) -> auto_advance_timers st = true ->
  exhausted st \/ (length (wakers (st_timers st)) < fuel)%nat -> exists st' ready', evaluate_loop fuel st ready = Ok (st', ready') /\ evaluated st ready st' ready'.
Proof.
  induction fuel as [|fuel IH]; intros st ready Hst Hr Hauto Hfuel; cbn [evaluate_loop]; destruct (next_timer (st_timers st)) as [next|] eqn:Hn.
  2,4: exists st, ready; split; [done|]; apply state_evaluated; [done|]; left; unfold next_timer in Hn; by destruct (wakers (st_timers st)).
  all: pose proof (co_sorted _ (so_clock _ Hst)) as Hsorted; destruct (round_ok st next Hst Hn) as [[Hz Hex]|(Hpos & st1 & Hadv & Hmv & Hassert)].
  1,3: rewrite Hz; exists st, ready; split; [done|]; apply state_evaluated; auto.
  - exfalso. destruct Hfuel as [(max & Hmx & Hle)|]; [|lia]. unfold get_next_auto_advance_duration, saturating_sub in Hpos. rewrite Hmx in Hpos. lia.
  - rewrite (proj2 (Z.eqb_neq _ 0)) by lia. rewrite Hadv, Hassert. set (st2 := set_total _ st1) in *. pose proof Hmv as [[M1 _] M2 M3 M4 M6 M7].
    destruct (fire_ok st2 ready M7) as [-> Hst3]; [by rewrite M2|]. set (st3 := set_timers _ st2) in *.
    destruct (IH st3 (ready ++ due (instant st2) (wakers (st_timers st2)))) as (st' & ready' & -> & Hev); [done| | | |].
    + cbn [st3 set_timers st_timers fired wakers]. rewrite M2, <- (assoc_L (++)), <- (due_later _ _ Hsorted). done.
    + destruct M3 as (_ & M3 & _). unfold st3. fields. congruence.
    + destruct M6 as [Hto|Hex]; [|by left]. right. cbn [st3 set_timers st_timers fired wakers]. rewrite M2.
      destruct Hfuel as [(max & Hmx & Hle)|Hfuel]; [exfalso; unfold get_next_auto_advance_duration, saturating_sub in Hpos; rewrite Hmx in Hpos; lia|].
      pose proof (fired_shorter st Hsorted (instant st2) next Hn). lia.
    + exists st', ready'. split; [done|]. eapply evaluated_after; [done| |done|done|done]. lia.
Qed.

Lemma evaluate_timers_ok st ready : clock_ok st -> btree_sorted (ready ++ wakers (st_timers st)) ->
  exists st' ready', evaluate_timers st ready = Ok (st', ready') /\ evaluated st ready st' ready'.
Proof.
  intros Hc Hr. unfold evaluate_timers. destruct (fire_ok st ready Hc Hr) as [-> Hst]. set (st1 := set_timers _ st) in *. destruct (auto_advance_timers st1) eqn:Hauto; cbn [negb].
  - destruct (evaluate_loop_ok (S (length (wakers (st_timers st1)))) st1 (ready ++ due (instant st) (wakers (st_timers st)))) as (st' & ready' & -> & Hev); [done| |done|right; lia|].
    { cbn [st1 set_timers st_timers fired wakers]. by rewrite <- (assoc_L (++)), <- (due_later _ _ (co_sorted _ Hc)). }
    exists st', ready'. split; [done|]. destruct Hev as [E1 E2 E3 E4 E5 E6 E7 E8 E9]. unfold st1, fired in *. fields. split; try assumption.
    + by rewrite E2, later_later.
    + by rewrite E3, <- (assoc_L (++)), due_due by (lia || apply Hc).
  - eexists _, _. split; [done|]. unfold st1 in *. unfold fired in *. fields. split; fields; try reflexivity; try done; [split; [lia|intros; lia]|congruence].
Qed.

(** ** Every call *)

(** Arguments of the types of the source. *)
Definition op_ok (op : ControlOp) : Prop :=
  match op with
  | AutoAdvance d | AutoAdvanceLimit d | Advance d => 0 <= d <= duration_max
  | SetTime t | RegisterTimer t _ => instant_min <= t <= instant_max
  | _ => True
  end.

(** What the call does to the timers itself. *)
Definition own_change (op : ControlOp) (t : Timers) : Timers :=
  match op with
  | RegisterTimer when w => (timers_register t when w).1
  | UpdateTimerWaker key w => (update_waker t key w).1
  | UnregisterTimer key => (timers_unregister t key).1
  | _ => t
  end.

(** The instant the call asks for. *)
Definition asked (op : ControlOp) (st : State) : Z :=
  match op with
  | Advance d => instant st + d
  | SetTime t => instant st + (t - system_time st)
  | SystemTime | InstantNow => instant st + get_next_auto_advance_duration st (auto_advance st)
  | _ => instant st
  end.

(** The calls that evaluate the timers. *)
Definition evaluates (op : ControlOp) : bool :=
  match op with Advance _ | SetTime _ | SystemTime | InstantNow | RegisterTimer _ _ => true | _ => false end.

Record step_ok (op : ControlOp) (st st' : State) (woken : ReadyWakers) : Prop := {
  sp_ok : state_ok st';
  sp_wakers : wakers (st_timers st') = later (instant st') (wakers (own_change op (st_timers st)));
  sp_woken : woken = due (instant st') (wakers (own_change op (st_timers st)));
  sp_lockstep : system_time st' - instant st' = system_time st - instant st;
  sp_asked : asked op st <= instant st';
  sp_exact : auto_advance_timers st = false -> instant st' = asked op st;
  sp_reaches : auto_advance_timers st = true -> evaluates op = true -> wakers (st_timers st') = [] \/ exhausted st';
  sp_limit max : auto_advance_total_max st' = Some max -> auto_advance_total st' <= Z.max max (auto_advance_total st) }.

Lemma clock_moved st d : clock_ok st -> instant_min <= system_time st + d -> instant st + d <= instant_max -> clock_ok (set_clock (instant st + d) (system_time st + d) st).
Proof. intros [C1 C2 C3 C4 C5 C6] Hmin Hmax. split; fields; try assumption; lia. Qed.

Lemma advance_panics st d ready : instant_max < instant st + d -> clock_ok st -> advance st d Forward ready = Panic.
Proof.
  intros Hd [C1 C2 C3 C4 C5 C6]. unfold advance, advance_time. rewrite (proj2 (Z.eqb_neq d 0)) by lia. unfold instant_checked_add. by rewrite (proj2 (Z.leb_gt _ _)) by lia.
Qed.

Lemma move_ok st d (flow : TimeFlow) : let d' := match flow with Forward => d | Backward => - d end in
  clock_ok st -> 0 <= d -> instant_min <= system_time st + d' -> instant st + d' <= instant_max ->
  exists st' woken, advance st d flow [] = Ok (st', woken) /\ evaluated (set_clock (instant st + d') (system_time st + d') st) [] st' woken.
Proof.
  intros d' Hc Hd Hmin Hmax. unfold advance. assert (Hadv : advance_time st d flow = Ok (set_clock (instant st + d') (system_time st + d') st)).
  { subst d'. destruct flow; [by apply advance_time_ok|]. unfold advance_time, time_checked_sub. destruct (Z.eqb_spec d 0) as [->|]; [by destruct st; cbn; rewrite !Z.add_0_r|].
    pose proof (co_behind _ Hc). rewrite !(proj2 (Z.leb_le _ _)) by lia. done. }
  rewrite Hadv. apply evaluate_timers_ok; [by apply clock_moved|]. apply Hc.
Qed.

(** Evaluating after time has moved. *)
Lemma evaluated_step op st st1 st' woken : evaluated st1 [] st' woken -> wakers (st_timers st1) = wakers (own_change op (st_timers st)) ->
  system_time st1 - instant st1 = system_time st - instant st -> instant st1 = asked op st -> auto_advance_timers st1 = auto_advance_timers st ->
  (forall max, auto_advance_total_max st1 = Some max -> auto_advance_total st1 <= Z.max max (auto_advance_total st)) -> step_ok op st st' woken.
Proof.
  intros [E1 E2 E3 E4 [E5 E5'] (E6 & E6' & E6'') E7 E8 E9] Hm Hl Ha Ht Hlim. rewrite Hm in *. cbn [app] in *. split; try assumption; try lia.
  - intros Hf. rewrite E7; congruence.
  - intros Hf _. apply E8. congruence.
  - intros max Hmx. rewrite E6'' in Hmx. specialize (E5' max Hmx). specialize (Hlim max Hmx). lia.
Qed.

(** Calls that only change the timers or the settings. *)
Lemma settled_step op st st' : evaluates op = false -> clock_ok st' -> wakers (st_timers st') = wakers (own_change op (st_timers st)) -> Forall (fun x => instant st < tick x.1) (wakers (st_timers st')) ->
  system_time st' = system_time st -> instant st' = instant st -> asked op st = instant st -> auto_advance_total st' = auto_advance_total st -> step_ok op st st' [].
Proof.
  intros Hev Hc Hm Hp Hs Hi Ha Ht. rewrite <- Hi in Hp. destruct (later_pending _ _ Hp) as [Hl Hd]. split; rewrite <- ?Hm, ?Hl, ?Hd; try done; [lia|lia|congruence|congruence|]. intros; lia.
Qed.

Lemma auto_total st d : clock_ok st -> 0 <= d -> (forall max, auto_advance_total_max st = Some max -> d <= Z.max 0 (max - auto_advance_total st)) ->
  let st1 := set_total (saturating_add duration_max (auto_advance_total st) d) st in
  clock_ok st1 /\ forall max, auto_advance_total_max st1 = Some max -> auto_advance_total st1 <= Z.max max (auto_advance_total st).
Proof.
  intros [C1 C2 C3 C4 [C5 C5'] C6] Hd Hlim. unfold saturating_add. split; [split; fields; try assumption; lia|]. fields. intros max Hmx. specialize (Hlim max Hmx). lia.
Qed.

Lemma auto_amount st : clock_ok st -> let d := get_next_auto_advance_duration st (auto_advance st) in
  0 <= d /\ forall max, auto_advance_total_max st = Some max -> d <= Z.max 0 (max - auto_advance_total st).
Proof.
  intros [_ _ _ _ [Ha _] _]. cbn zeta. unfold get_next_auto_advance_duration, saturating_sub. destruct (auto_advance_total_max st) as [m|]; split; try lia; [|done]. intros max [= <-]. lia.
Qed.

Lemma reading_ok op st : clock_ok st -> wakers (own_change op (st_timers st)) = wakers (st_timers st) -> asked op st = instant st + get_next_auto_advance_duration st (auto_advance st) ->
  (instant_max < asked op st -> auto_advance_by st None [] = Panic)
  /\ (asked op st <= instant_max -> exists st' woken, auto_advance_by st None [] = Ok (st', woken) /\ step_ok op st st' woken).
Proof.
  intros Hc Hown Hask. destruct (auto_amount st Hc) as [Hd Hlim]. unfold auto_advance_by. cbn [default]. set (d := get_next_auto_advance_duration st (auto_advance st)) in *.
  destruct (auto_total st d Hc Hd Hlim) as [Hc1 Hlim1]. set (st1 := set_total _ st) in *. rewrite Hask. split.
  - intros Hmax. by apply advance_panics.
  - intros Hmax. destruct (move_ok st1 d Forward) as (st' & woken & -> & Hev); [done|done|pose proof (co_range _ Hc); unfold st1; fields; lia|done|].
    exists st', woken. split; [done|]. eapply evaluated_step; [done|..]; unfold st1 in *; fields; [done|lia|done|done|done].
Qed.

Lemma own_change_ok op st : op_ok op -> state_ok st -> clock_ok (set_timers (own_change op (st_timers st)) st).
Proof.
  intros Hop [[C1 C2 C3 C4 C5 C6] _]. unfold keys_ok in *. destruct op as [d|d|b|d|t| | |when w|key w|key]; try done; cbn [own_change].
  - split; fields; try assumption; cbn [timers_register fst wakers]; [by apply insert_sorted|]. unfold keys_ok. rewrite Forall_forall in *.
    intros x [->|[_ Hx]]%elem_of_insert; [|auto|done]. cbn in *. split; [lia|]. apply Z.mod_pos_bound. lia.
  - unfold update_waker. destruct (btree_get key _) as [cur|] eqn:Hg; [|by split]. destruct (will_wake cur w); [by split|]. apply (get_spec key cur _ C1) in Hg as Hin.
    split; fields; try assumption; cbn [wakers]; [by apply replace_sorted|]. unfold keys_ok. rewrite Forall_forall in *. intros x [[-> _]|[_ Hx]]%elem_of_replace; [apply (C2 _ Hin)|auto].
  - split; fields; try assumption; cbn [timers_unregister fst wakers]; [by apply filter_sorted|]. unfold keys_ok. rewrite Forall_forall in *. intros x [_ Hx]%elem_of_remove. auto.
Qed.

(** Changing wakers and removing timers leaves only pending timers. *)
Lemma own_change_pending op st : state_ok st -> evaluates op = false -> Forall (fun x => instant st < tick x.1) (wakers (own_change op (st_timers st))).
Proof.
  intros [[C1 _ _ _ _ _] Hp] Hev. destruct op as [d|d|b|d|t| | |when w|key w|key]; try done; cbn [own_change].
  - unfold update_waker. destruct (btree_get key _) as [cur|] eqn:Hg; [|done]. destruct (will_wake cur w); [done|]. apply (get_spec key cur _ C1) in Hg as Hin.
    cbn [fst wakers]. rewrite Forall_forall in *. intros x [[-> _]|[_ Hx]]%elem_of_replace; [apply (Hp _ Hin)|auto].
  - cbn [timers_unregister fst wakers]. rewrite Forall_forall in *. intros x [_ Hx]%elem_of_remove. auto.
Qed.

Lemma control_step_ok op st : op_ok op -> state_ok st ->
  (instant_max < asked op st -> control_step op st = Panic)
  /\ (asked op st <= instant_max -> exists st' woken reply, control_step op st = Ok (st', woken, reply) /\ step_ok op st st' woken).
Proof.
  intros Hop Hst. pose proof (so_clock _ Hst) as Hc. pose proof (co_range _ Hc) as Hr. pose proof (co_behind _ Hc) as Hb. pose proof (own_change_ok op st Hop Hst) as Hown. pose proof (own_change_pending op st Hst) as Hpend.
  destruct op as [d|d|b|d|t| | |when w|key w|key]; cbn [op_ok asked control_step evaluates own_change] in *.
  1-3: split; [lia|]; intros _; eexists _, [], _; split; [reflexivity|]; (apply settled_step; fields; [reflexivity| |reflexivity|by apply Hpend|reflexivity..]);
    destruct Hc as [C1 C2 C3 C4 C5 C6]; split; fields; try assumption; try lia; intros max [= <-]; lia.
  - split; [intros Hm; by rewrite advance_panics|]. intros Hm. destruct (move_ok st d Forward) as (st' & woken & -> & Hev); [done|lia|lia|done|].
    eexists _, _, _. split; [done|]. eapply evaluated_step; [done|..]; fields; try assumption; try reflexivity; [lia|]. intros; lia.
  - unfold set_time. destruct (Z.leb_spec (system_time st) t) as [Hle|Hgt].
    + split; [intros Hm; rewrite advance_panics; [done|lia|done]|]. intros Hm. destruct (move_ok st (t - system_time st) Forward) as (st' & woken & -> & Hev); [done|lia|lia|lia|].
      eexists _, _, _. split; [done|]. eapply evaluated_step; [done|..]; fields; try assumption; try reflexivity; [lia|]. intros; lia.
    + split; [lia|]. intros Hm. destruct (move_ok st (system_time st - t) Backward) as (st' & woken & -> & Hev); [done|lia|lia|lia|].
      eexists _, _, _. split; [done|]. eapply evaluated_step; [done|..]; fields; try assumption; try reflexivity; [lia|cbn; lia|]. intros; lia.
  - destruct (reading_ok SystemTime st Hc eq_refl eq_refl) as [Hp Hok]. unfold now. split; [intros Hm; by rewrite Hp|]. intros Hm. destruct (Hok Hm) as (st' & woken & -> & Hs). by eexists _, _, _.
  - destruct (reading_ok InstantNow st Hc eq_refl eq_refl) as [Hp Hok]. unfold instant_now. split; [intros Hm; by rewrite Hp|]. intros Hm. destruct (Hok Hm) as (st' & woken & -> & Hs). by eexists _, _, _.
  - split; [lia|]. intros _. destruct (timers_register (st_timers st) when w) as [t key] eqn:Hreg. cbn [fst] in Hown.
    destruct (evaluate_timers_ok (set_timers t st) [] Hown) as (st' & woken & -> & Hev); [apply Hown|]. eexists _, _, _. split; [done|].
    eapply evaluated_step; [done|..]; fields; try assumption; try reflexivity; [cbn [own_change]; by rewrite Hreg|]. intros; lia.
  - split; [lia|]. intros _. destruct (update_waker (st_timers st) key w) as [t [e dropped]] eqn:Hu. eexists _, _, _. split; [done|]. apply settled_step; fields; try assumption; try reflexivity; [cbn [own_change]; by rewrite Hu|by apply Hpend].
  - split; [lia|]. intros _. destruct (timers_unregister (st_timers st) key) as [t r] eqn:Hu. eexists _, _, _. split; [done|]. apply settled_step; fields; try assumption; try reflexivity; [cbn [own_change]; by rewrite Hu|by apply Hpend].
Qed.

Lemma state_default_ok i0 : 0 <= i0 <= instant_max -> state_ok (state_default i0).
Proof.
  intros Hi. split; [split|]; unfold state_default; fields.
  - apply SSorted_nil.
  - apply Forall_nil. exact I.
  - lia.
  - unfold instant_min, NANOS_PER_SEC. lia.
  - unfold duration_max, u64_max, NANOS_PER_SEC. lia.
  - intros max. discriminate.
  - apply Forall_nil. exact I.
Qed.

Lemma control_run_ok ops : forall st st' log, state_ok st -> Forall op_ok ops -> control_run ops st = Ok (st', log) ->
  state_ok st' /\ system_time st' - instant st' = system_time st - instant st.
Proof.
  induction ops as [|op ops IH]; intros st st' log Hst Hops; cbn [control_run]; [by intros [= <- _]|]. apply Forall_cons in Hops as [Hop Hops].
  destruct (control_step_ok op st Hop Hst) as [Hp Hok]. destruct (Z.le_gt_cases (asked op st) instant_max) as [Hle|Hgt]; [|rewrite Hp by lia; done].
  destruct (Hok Hle) as (st1 & woken & reply & -> & [S1 _ _ S4 _ _ _ _]). destruct (control_run ops st1) as [[st2 log2]|e|] eqn:Hrun; [|done..]. intros [= <- _].
  destruct (IH _ _ _ S1 Hops Hrun) as [? ->]. split; [done|]. lia.
Qed.

(** C27. A controlled clock, after any calls: a call panics exactly when it asks for an instant beyond
    the largest one. Otherwise it wakes exactly the timers that the new instant has reached, in firing
    order, and keeps exactly the others, so that no timer that is due is ever left behind and none
    fires early; system time moves in step with the instant; without automatic timers the instant is
    the one asked for; with them the clock stops only when no timer is left or the limit is used up (the
    loop always ends); and automatic advances never exceed the limit. *)
Theorem controlled_clock_exact i0 ops st log op : 0 <= i0 <= instant_max -> Forall op_ok ops -> op_ok op -> control_run ops (state_default i0) = Ok (st, log) ->
  (control_step op st = Panic <-> instant_max < asked op st)
  /\ (asked op st <= instant_max -> exists st' woken reply, control_step op st = Ok (st', woken, reply)
      /\ wakers (st_timers st') = later (instant st') (wakers (own_change op (st_timers st)))
      /\ woken = due (instant st') (wakers (own_change op (st_timers st)))
      /\ system_time st' = instant st' - i0
      /\ asked op st <= instant st'
      /\ (auto_advance_timers st = false -> instant st' = asked op st)
      /\ (auto_advance_timers st = true -> evaluates op = true -> wakers (st_timers st') = [] \/ exhausted st')
      /\ forall max, auto_advance_total_max st' = Some max -> auto_advance_total st' <= Z.max max (auto_advance_total st)).
Proof.
  intros Hi Hops Hop Hrun. destruct (control_run_ok ops _ _ _ (state_default_ok i0 Hi) Hops Hrun) as [Hst Hlock]. cbn in Hlock.
  destruct (control_step_ok op st Hop Hst) as [Hp Hok]. split; [split; [|done]|].
  - intros Hpanic. destruct (Z.lt_ge_cases instant_max (asked op st)) as [|Hle]; [done|]. destruct (Hok Hle) as (st' & woken & reply & Heq & _). congruence.
  - intros Hle. destruct (Hok Hle) as (st' & woken & reply & Heq & [S1 S2 S3 S4 S5 S6 S7 S8]). exists st', woken, reply. split_and!; try assumption. lia.
Qed.

Definition control_ops : list ControlOp := [RegisterTimer 2000 7; RegisterTimer 3000 8; RegisterTimer 9000 9; AutoAdvanceTimers true; AutoAdvanceLimit 2500].

Lemma controlled_clock_exact_witness :
  exists st log, control_run control_ops (state_default 1000) = Ok (st, log)
    /\ exists st' woken reply, control_step (Advance 100) st = Ok (st', woken, reply)
      /\ wakers (st_timers st') = later (instant st') (wakers (st_timers st)) /\ woken = due (instant st') (wakers (st_timers st)).
Proof.
  let r := eval vm_compute in (control_run control_ops (state_default 1000)) in
  match r with Ok (?st, ?log) => exists st, log; split; [vm_compute; reflexivity|];
    destruct (controlled_clock_exact 1000 control_ops st log (Advance 100)) as [_ Hok] end.
  - unfold instant_max, NANOS_PER_SEC. lia.
  - repeat constructor; cbn; unfold duration_max, u64_max, instant_min, instant_max, NANOS_PER_SEC; lia.
  - cbn. unfold duration_max, u64_max, NANOS_PER_SEC. lia.
  - vm_compute. reflexivity.
  - destruct Hok as (st' & woken & reply & H1 & H2 & H3 & _); [vm_compute; discriminate|]. exists st', woken, reply. split_and!; assumption.
Defined.
