(* ===== verification/TickWorld.v ===== *)
(** * tick: tasks, delays and the driver of a system clock

    Composes the storage of [Timers] with the futures of [src/crates/tick/src/delay.rs] and
    [timer.rs], the clocks that own the storage, and the driver task of [tokio.rs] with
    [runtime/clock_driver.rs]. Everything that happens under one lock, or in one atomic operation, is one
    step; the steps of the threads interleave in any order, and time passes in between. *)

From S2P Require Import Prelude Collections ByteSpan StdTime Timers.

(** ** State *)

(** [Delay] and the periodic [Timer]. *)
Inductive Kind : Type := KDelay | KTimer.

(** Where a future is: what its last poll returned, or what the thread that polls or drops it does
    next. A poll carries the waker of its context. *)
Inductive Pc : Type :=
| PNew
| PRegistering (when : Z) (w : Waker)  (** about to take the lock and register *)
| PWaking (w : Waker)                  (** registered, about to wake the drivers *)
| PUpdating (key : TimerKey) (w : Waker)
| PUnregistering (key : TimerKey)
| PPending (w : Waker)
| PReady
| PDropping                            (** unregistered, about to drop its clock *)
| PGone.

(** [f_woken]: the waker of the last poll was called since that poll began. *)
Record Fut : Type := mkFut { f_kind : Kind; f_duration : Z; f_timer : option TimerKey; f_pc : Pc; f_woken : bool }.

(** What the driver does after waking: leave [try_advance_timers], or go on with its loop. *)
Inductive Next : Type := Return (next : option Z) | Again (at_ : Z).

Inductive Driver : Type :=
| DStart
| DFirst (at_ : Z)
| DLoop (at_ : Z)
| DWaking (hand : list Waker) (k : Next)
| DCheck (next : option Z)
| DWait (next : option Z)
| DGone.

(** [closing]: threads that dropped the last clock and are about to wake the drivers. [notified]:
    the permit of tokio's [Notify], which [notify_one] stores and [notified] takes. *)
Record World : Type := mkWorld {
  time : Z; storage : Storage; clocks : nat; futs : list Fut; closing : nat; notified : bool; driver : Driver }.

(** [Clock::new_tokio]: one clock, and its driver (with waker [-1]) at the start of its loop. *)
Definition new_tokio (now : Z) : World :=
  let '(s, _) := register_driver storage_default (-1) in
  mkWorld now (add_clock_owner s) 1 [] 0 false DStart.

Definition set_storage (s : Storage) (w : World) : World := mkWorld (time w) s (clocks w) (futs w) (closing w) (notified w) (driver w).
Definition set_fut (i : nat) (f : Fut) (w : World) : World := mkWorld (time w) (storage w) (clocks w) (<[i := f]> (futs w)) (closing w) (notified w) (driver w).
Definition set_driver (d : Driver) (w : World) : World := mkWorld (time w) (storage w) (clocks w) (futs w) (closing w) (notified w) d.
Definition set_pc (pc : Pc) (f : Fut) : Fut := mkFut (f_kind f) (f_duration f) (f_timer f) pc (f_woken f).

(** The wakers of [wake_drivers] are those of the driver, which call [notify_one]. *)
Definition notify_drivers (w : World) : World :=
  mkWorld (time w) (storage w) (clocks w) (futs w) (closing w) (match wake_drivers (storage w) with [] => notified w | _ => true end) (driver w).

(** The waker that a registration made by the last poll would call. *)
Definition waits_with (f : Fut) : option Waker := match f_pc f with PPending w | PWaking w => Some w | _ => None end.

Definition wake_fut (wk : Waker) (f : Fut) : Fut :=
  if bool_decide (waits_with f = Some wk) then mkFut (f_kind f) (f_duration f) (f_timer f) (f_pc f) true else f.

Definition wake_task (wk : Waker) (w : World) : World := mkWorld (time w) (storage w) (clocks w) (wake_fut wk <$> futs w) (closing w) (notified w) (driver w).

(** ** Steps *)

(** [Err tt]: the step is not possible now. *)
Definition step_result : Type := outcome unit World.

(** [Timer::new] raises short periods. *)
Definition new_duration (k : Kind) (d : Z) : Z := match k with KDelay => d | KTimer => Z.max d TIMER_RESOLUTION end.

(** [register_timer] of both futures, up to the lock. *)
Definition start_register (now : Z) (wk : Waker) (f : Fut) : Fut :=
  match instant_checked_add now (f_duration f) with
  | Some when => mkFut (f_kind f) (f_duration f) (f_timer f) (PRegistering when wk) false
  | None => mkFut (f_kind f) duration_max (f_timer f) (PPending wk) false
  end.

(** The part of [poll] (or [poll_next_tick]) before it takes a lock; it reads the clock. *)
Definition start_poll (now : Z) (wk : Waker) (f : Fut) : Fut :=
  let polled pc := mkFut (f_kind f) (f_duration f) (f_timer f) pc false in
  let registered key :=
    if tick key <=? now then mkFut (f_kind f) (f_duration f) None (PUnregistering key) false
    else polled (PUpdating key wk) in
  match f_kind f with
  | KDelay =>
      match f_timer f with
      | None =>
          if f_duration f =? duration_max then polled (PPending wk)
          else if f_duration f =? 0 then polled PReady
          else start_register now wk f
      | Some key => registered key
      end
  | KTimer =>
      if f_duration f =? duration_max then polled (PPending wk)
      else match f_timer f with
      | Some key => registered key
      | None => start_register now wk f
      end
  end.

(** The next step of a future that is polled or dropped. *)
Definition act (i : nat) (f : Fut) (w : World) : step_result :=
  match f_pc f with
  | PRegistering when wk =>
      let '(s, key, became_earliest) := register_timer (storage w) when wk in
      Ok (set_fut i (mkFut (f_kind f) (f_duration f) (Some key) (if became_earliest : bool then PWaking wk else PPending wk) (f_woken f)) (set_storage s w))
  | PWaking wk => Ok (set_fut i (set_pc (PPending wk) f) (notify_drivers w))
  | PUpdating key wk =>
      let '(t, (exists_, _)) := update_waker (timers (storage w)) key wk in
      let w := set_storage (Timers.set_timers (storage w) t) w in
      if exists_ : bool then Ok (set_fut i (set_pc (PPending wk) f) w)
      else Ok (set_fut i (mkFut (f_kind f) (f_duration f) None PReady (f_woken f)) w)
  | PUnregistering key =>
      let '(t, _) := timers_unregister (timers (storage w)) key in
      Ok (set_fut i (set_pc PReady f) (set_storage (Timers.set_timers (storage w) t) w))
  | PDropping =>
      match remove_clock_owner (storage w) with
      | Ok (s, last) =>
          let w := set_fut i (set_pc PGone f) (set_storage s w) in
          Ok (mkWorld (time w) (storage w) (clocks w) (futs w) (if last : bool then S (closing w) else closing w) (notified w) (driver w))
      | _ => Panic
      end
  | _ => Err tt
  end.

Definition driver_step (w : World) : step_result :=
  match driver w with
  | DStart => Ok (set_driver (DFirst (time w)) w)
  | DFirst at_ =>
      let '(t, (ready, next)) := pop_ready_into (timers (storage w)) at_ 1 in
      let w := set_storage (Timers.set_timers (storage w) t) w in
      match ready with
      | [] => Ok (set_driver (DCheck next) w)
      | _ => Ok (set_driver (DWaking ready (if after_now next at_ then Return next else Again at_)) w)
      end
  | DLoop at_ =>
      let '(t, (ready, next)) := pop_ready_into (timers (storage w)) at_ READY_BATCH_SIZE in
      let w := set_storage (Timers.set_timers (storage w) t) w in
      Ok (set_driver (DWaking ready (if (length ready <? READY_BATCH_SIZE)%nat || after_now next at_ then Return next else Again at_)) w)
  | DWaking (wk :: hand) k => Ok (set_driver (DWaking hand k) (wake_task wk w))
  | DWaking [] (Return next) => Ok (set_driver (DCheck next) w)
  | DWaking [] (Again at_) => Ok (set_driver (DLoop at_) w)
  | DCheck (Some next) => Ok (set_driver (DWait (Some next)) w)
  | DCheck None =>
      if has_no_clock_owners (storage w) then Ok (set_driver DGone (set_storage (unregister_driver (storage w) 0) w))
      else Ok (set_driver (DWait None) w)
  | DWait next =>
      if notified w then Ok (mkWorld (time w) (storage w) (clocks w) (futs w) (closing w) false DStart)
      else match next with
      | Some deadline => if deadline <=? time w then Ok (set_driver DStart w) else Err tt
      | None => Err tt
      end
  | DGone => Err tt
  end.

Inductive Event : Type :=
| ETime (d : Z) | EDriver
| ECloneClock | EDropClock | EClose
| ECreate (k : Kind) (d : Z) | EPoll (i : nat) (wk : Waker) | EAct (i : nat) | EDrop (i : nat).

Definition world_step (e : Event) (w : World) : step_result :=
  match e with
  | ETime d => if (0 <=? d) && (time w + d <=? instant_max) then Ok (mkWorld (time w + d) (storage w) (clocks w) (futs w) (closing w) (notified w) (driver w)) else Err tt
  | EDriver => driver_step w
  | ECloneClock =>
      match clocks w with
      | O => Err tt
      | S _ => Ok (mkWorld (time w) (add_clock_owner (storage w)) (S (clocks w)) (futs w) (closing w) (notified w) (driver w))
      end
  | EDropClock =>
      match clocks w with
      | O => Err tt
      | S n =>
          match remove_clock_owner (storage w) with
          | Ok (s, last) => Ok (mkWorld (time w) s n (futs w) (if last : bool then S (closing w) else closing w) (notified w) (driver w))
          | _ => Panic
          end
      end
  | EClose =>
      match closing w with
      | O => Err tt
      | S n => let w := notify_drivers w in Ok (mkWorld (time w) (storage w) (clocks w) (futs w) n (notified w) (driver w))
      end
  | ECreate k d =>
      match clocks w with
      | O => Err tt
      | S _ =>
          if (0 <=? d) && (d <=? duration_max) then
            Ok (mkWorld (time w) (add_clock_owner (storage w)) (clocks w) (futs w ++ [mkFut k (new_duration k d) None PNew false]) (closing w) (notified w) (driver w))
          else Err tt
      end
  | EPoll i wk =>
      match futs w !! i with
      | Some f => match f_pc f with PNew | PPending _ | PReady => Ok (set_fut i (start_poll (time w) wk f) w) | _ => Err tt end
      | None => Err tt
      end
  | EAct i => match futs w !! i with Some f => act i f w | None => Err tt end
  | EDrop i =>
      match futs w !! i with
      | Some f =>
          match f_pc f with
          | PNew | PPending _ | PReady =>
              let t := match f_timer f with Some key => (timers_unregister (timers (storage w)) key).1 | None => timers (storage w) end in
              Ok (set_fut i (mkFut (f_kind f) (f_duration f) None PDropping (f_woken f)) (set_storage (Timers.set_timers (storage w) t) w))
          | _ => Err tt
          end
      | None => Err tt
      end
  end.

Fixpoint world_run (es : list Event) (w : World) : step_result :=
  match es with
  | [] => Ok w
  | e :: es => let? w := world_step e w in world_run es w
  end.

(** ** The invariant *)

(** The timer that belongs to a future, also while it unregisters it. *)
Definition f_key (f : Fut) : option TimerKey := match f_pc f with PUnregistering key => Some key | _ => f_timer f end.

Definition fut_ok (f : Fut) : Prop :=
  match f_pc f with
  | PWaking _ => is_Some (f_timer f)
  | PUpdating key _ => f_timer f = Some key
  | PPending _ => True
  | _ => f_timer f = None
  end /\ (is_Some (f_timer f) \/ (exists when wk, f_pc f = PRegistering when wk) -> f_duration f <> duration_max).

Definition registered (W : list (TimerKey * Waker)) (k : TimerKey) : Prop := exists wk, (k, wk) ∈ W.

(** The timers and the futures they belong to. *)
Record reg_ok (last : Z) (W : list (TimerKey * Waker)) (fs : list Fut) (now : Z) : Prop := {
  ro_sorted : btree_sorted W;
  ro_disc k : registered W k -> 0 < k.2 <= last;
  ro_keys i f k : fs !! i = Some f -> f_key f = Some k -> 0 < k.2 <= last;
  ro_owned k : registered W k -> exists i f, fs !! i = Some f /\ f_key f = Some k;
  ro_unique i j f g k : fs !! i = Some f -> fs !! j = Some g -> f_key f = Some k -> f_key g = Some k -> i = j;
  ro_futs i f : fs !! i = Some f -> fut_ok f;
  ro_early i f k : fs !! i = Some f -> f_timer f = Some k -> registered W k \/ tick k <= now;
  ro_past i f k : fs !! i = Some f -> f_pc f = PUnregistering k -> tick k <= now }.

Definition hand (d : Driver) : list Waker := match d with DWaking hand _ => hand | _ => [] end.

(** A future that waits for its timer is woken, or its waker is in place, or about to be called. *)
Definition wakers_ok (W : list (TimerKey * Waker)) (fs : list Fut) (h : list Waker) : Prop :=
  forall i f wk k, fs !! i = Some f -> waits_with f = Some wk -> f_timer f = Some k -> f_woken f = true \/ (k, wk) ∈ W \/ wk ∈ h.

(** The deadline that the driver is about to wait for. *)
Definition view (d : Driver) : option (option Z) :=
  match d with DWaking _ (Return next) | DCheck next | DWait next => Some next | _ => None end.

Definition no_earlier (W : list (TimerKey * Waker)) (next : option Z) : Prop := forall x, x ∈ W -> exists d, next = Some d /\ d <= tick x.1.

Definition someone_wakes (fs : list Fut) : Prop := exists i f wk, fs !! i = Some f /\ f_pc f = PWaking wk.

(** A driver that goes to sleep has not missed an earlier timer, or is about to be notified. *)
Definition view_ok (W : list (TimerKey * Waker)) (fs : list Fut) (notified : bool) (d : Driver) : Prop :=
  forall next, view d = Some next -> notified = true \/ someone_wakes fs \/ no_earlier W next.

Definition live (f : Fut) : bool := match f_pc f with PGone => false | _ => true end.
Definition live_count (fs : list Fut) : nat := length (filter (fun f => live f = true) fs).

(** Clocks are counted, and a driver that sleeps with no clock left is about to be notified. *)
Record owners_ok (w : World) : Prop := {
  oo_count : clock_owners (storage w) = Z.of_nat (clocks w) + Z.of_nat (live_count (futs w));
  oo_drivers : driver w <> DGone -> driver_wakers (storage w) = [(0, -1)];
  oo_sleep : (exists next, driver w = DWait next \/ exists d, view (driver w) = Some (Some d)) -> 0 < clock_owners (storage w) \/ notified w = true \/ (0 < closing w)%nat;
  oo_gone : driver w = DGone -> clock_owners (storage w) = 0 }.

Definition read_at (d : Driver) (now : Z) : Prop := match d with DFirst at_ | DLoop at_ | DWaking _ (Again at_) => at_ <= now | _ => True end.

Definition W_of (w : World) : list (TimerKey * Waker) := wakers (timers (storage w)).

(** After [n] steps. *)
Record inv (n : Z) (w : World) : Prop := {
  iv_reg : reg_ok (last_discriminator (timers (storage w))) (W_of w) (futs w) (time w);
  iv_last : 0 <= last_discriminator (timers (storage w)) <= n;
  iv_size : Z.of_nat (clocks w) + Z.of_nat (length (futs w)) <= n + 1;
  iv_time : 0 <= time w <= instant_max;
  iv_read : read_at (driver w) (time w);
  iv_wakers : wakers_ok (W_of w) (futs w) (hand (driver w));
  iv_view : view_ok (W_of w) (futs w) (notified w) (driver w);
  iv_owners : owners_ok w }.

(** ** Changing one future *)

Lemma lookup_set {A} (l : list A) i j x y f : l !! i = Some f -> <[i := x]> l !! j = Some y -> (i = j /\ y = x) \/ (i <> j /\ l !! j = Some y).
Proof.
  intros Hi. destruct (decide (i = j)) as [<-|Hne]; [|rewrite list_lookup_insert_ne by done; by right].
  rewrite list_lookup_insert_eq by by eapply lookup_lt_Some. intros [= <-]. by left.
Qed.

Lemma lookup_set_self {A} (l : list A) i (x f : A) : l !! i = Some f -> <[i := x]> l !! i = Some x.
Proof. intros Hi. apply list_lookup_insert_eq. by eapply lookup_lt_Some. Qed.

Lemma lookup_set_other {A} (l : list A) i j (x y : A) : i <> j -> l !! j = Some y -> <[i := x]> l !! j = Some y.
Proof. intros Hne Hj. by rewrite list_lookup_insert_ne. Qed.

Lemma reg_change last W fs now i f f' last' W' : reg_ok last W fs now -> fs !! i = Some f -> last <= last' -> btree_sorted W' -> fut_ok f' ->
  (forall k, f_key f' = Some k -> (f_key f = Some k \/ last < k.2) /\ 0 < k.2 <= last') ->
  (forall k, registered W' k -> f_key f' = Some k \/ (registered W k /\ f_key f <> Some k)) ->
  (forall k, registered W k -> f_key f <> Some k -> registered W' k) ->
  (forall k, f_timer f' = Some k -> registered W' k \/ tick k <= now) -> (forall k, f_pc f' = PUnregistering k -> tick k <= now) -> reg_ok last' W' (<[i := f']> fs) now.
Proof.
  intros [R1 R2 R3 R4 R5 R6 R7 R8] Hi Hl Hs Hok Hkey Hnew Hold Hearly Hpast. split; [done|..].
  - intros k [Hf|[Hk _]]%Hnew; [by apply Hkey|]. apply R2 in Hk. lia.
  - intros j g k Hj Hg. apply (lookup_set fs i j f' g f Hi) in Hj as [[_ ->]|[_ Hj]]; [by apply Hkey|]. specialize (R3 _ _ _ Hj Hg). lia.
  - intros k [Hf|[Hk Hne]]%Hnew; [exists i, f'; split; [by eapply lookup_set_self|done]|]. destruct (R4 k Hk) as (j & g & Hj & Hg). exists j, g. split; [|done].
    apply lookup_set_other; [|done]. intros <-. congruence.
  - intros a b g h k Ha Hb Hg Hh. apply (lookup_set fs i a f' g f Hi) in Ha as [[<- ->]|[Hia Ha]]; apply (lookup_set fs i b f' h f Hi) in Hb as [[<- ->]|[Hib Hb]]; [done| | |by eapply R5].
    + exfalso. destruct (Hkey k Hg) as [[Hf|Hlt] _]; [by apply Hib; eapply R5|]. specialize (R3 _ _ _ Hb Hh). lia.
    + exfalso. destruct (Hkey k Hh) as [[Hf|Hlt] _]; [by apply Hia; eapply R5|]. specialize (R3 _ _ _ Ha Hg). lia.
  - intros j g Hj. apply (lookup_set fs i j f' g f Hi) in Hj as [[_ ->]|[_ Hj]]; [done|by eapply R6].
  - intros j g k Hj Hg. apply (lookup_set fs i j f' g f Hi) in Hj as [[_ ->]|[Hne Hj]]; [by apply Hearly|]. destruct (R7 _ _ _ Hj Hg) as [Hk|]; [|by right]. left. apply Hold; [done|].
    intros Hf. apply Hne. assert (Hgk : f_key g = Some k) by (pose proof (R6 _ _ Hj) as [Hgp _]; unfold f_key; destruct (f_pc g); congruence). by eapply R5.
  - intros j g k Hj Hg. apply (lookup_set fs i j f' g f Hi) in Hj as [[_ ->]|[_ Hj]]; [by apply Hpast|by eapply R8].
Qed.

Lemma f_key_timer f k : fut_ok f -> f_timer f = Some k -> f_key f = Some k.
Proof. intros [Hp _] Hk. unfold f_key. destruct (f_pc f); congruence. Qed.

(** A change that keeps the timers. *)
Lemma reg_same last W fs now i f f' : reg_ok last W fs now -> fs !! i = Some f -> fut_ok f' -> f_key f' = f_key f -> (forall k, f_timer f' = Some k -> f_timer f = Some k) -> (forall k, f_pc f' = PUnregistering k -> tick k <= now) ->
  reg_ok last W (<[i := f']> fs) now.
Proof.
  intros HR Hi Hok Hkey Ht Hpast. eapply reg_change; try done; [apply HR|..].
  - intros k Hk. rewrite Hkey in Hk. split; [by left|]. by eapply (ro_keys _ _ _ _ HR).
  - intros k Hk. rewrite Hkey. destruct (decide (f_key f = Some k)); auto.
  - intros k Hk. eapply (ro_early _ _ _ _ HR); [done|]. auto.
Qed.

(** A change that removes the timer of the future. *)
Lemma reg_removed last W fs now i f f' W' : reg_ok last W fs now -> fs !! i = Some f -> fut_ok f' -> f_key f' = None -> btree_sorted W' ->
  (forall x, x ∈ W' <-> x ∈ W /\ f_key f <> Some x.1) -> reg_ok last W' (<[i := f']> fs) now.
Proof.
  intros HR Hi Hok Hkey Hs Hx. assert (Hr : forall k, registered W' k <-> registered W k /\ f_key f <> Some k).
  { intros k. unfold registered. split; [intros (wk & [Hw Hne]%Hx); split; [by exists wk|done]|]. intros [[wk Hw] Hne]. exists wk. by apply Hx. }
  eapply reg_change; try done.
  - intros k. congruence.
  - intros k Hk. right. by apply Hr.
  - intros k Hk Hne. by apply Hr.
  - intros k Hk. apply (f_key_timer f') in Hk; [congruence|done].
  - intros k Hk. unfold f_key in Hkey. by rewrite Hk in Hkey.
Qed.

Lemma live_count_set fs i f f' : fs !! i = Some f -> (live_count (<[i := f']> fs) + (if live f then 1 else 0) = live_count fs + (if live f' then 1 else 0))%nat.
Proof.
  intros Hi. unfold live_count. rewrite insert_take_drop by by eapply lookup_lt_Some. rewrite <- (take_drop_middle fs i f Hi) at 3.
  rewrite !filter_app, !length_app, !filter_cons. destruct (live f), (live f'); repeat case_decide; cbn [length]; try done; lia.
Qed.

Lemma wakers_change W fs h i f f' W' : wakers_ok W fs h -> (forall j g, fs !! j = Some g -> fut_ok g) -> (forall j g k, fs !! j = Some g -> i <> j -> f_key g = Some k -> f_key f <> Some k) ->
  fs !! i = Some f -> (forall x, x ∈ W -> f_key f <> Some x.1 -> x ∈ W') ->
  (forall wk k, waits_with f' = Some wk -> f_timer f' = Some k -> f_woken f' = true \/ (k, wk) ∈ W' \/ wk ∈ h) -> wakers_ok W' (<[i := f']> fs) h.
Proof.
  intros Hw Hok Hun Hi Hsub Hf' j g wk k Hj Hwk Hk. apply (lookup_set fs i j f' g f Hi) in Hj as [[_ ->]|[Hne Hj]]; [auto|].
  destruct (Hw _ _ _ _ Hj Hwk Hk) as [?|[Hin|?]]; [by left| |by right; right]. right. left. apply Hsub; [done|]. eapply Hun; [done|done|]. eapply f_key_timer; [by eapply Hok|done].
Qed.

Lemma someone_change fs i f f' : fs !! i = Some f -> ((exists wk, f_pc f = PWaking wk) -> exists wk, f_pc f' = PWaking wk) -> someone_wakes fs -> someone_wakes (<[i := f']> fs).
Proof.
  intros Hi Hk (j & g & wk & Hj & Hg). destruct (decide (i = j)) as [<-|Hne].
  - destruct Hk as [wk' Hwk']; [exists wk; congruence|]. exists i, f', wk'. split; [by eapply lookup_set_self|done].
  - exists j, g, wk. split; [by apply lookup_set_other|done].
Qed.

Lemma someone_new fs i (f f' : Fut) wk : fs !! i = Some f -> f_pc f' = PWaking wk -> someone_wakes (<[i := f']> fs).
Proof. intros Hi Hp. exists i, f', wk. split; [by eapply lookup_set_self|done]. Qed.

(** A step of one future, with what it does to the timers. *)
Lemma inv_fut n w i f f' t' : inv n w -> futs w !! i = Some f -> live f' = live f ->
  reg_ok (last_discriminator t') (wakers t') (<[i := f']> (futs w)) (time w) -> 0 <= last_discriminator t' <= n + 1 ->
  (forall x, x ∈ W_of w -> f_key f <> Some x.1 -> x ∈ wakers t') ->
  (forall wk k, waits_with f' = Some wk -> f_timer f' = Some k -> f_woken f' = true \/ (k, wk) ∈ wakers t' \/ wk ∈ hand (driver w)) ->
  (forall next, no_earlier (W_of w) next -> no_earlier (wakers t') next \/ exists wk, f_pc f' = PWaking wk) ->
  ((exists wk, f_pc f = PWaking wk) -> exists wk, f_pc f' = PWaking wk) ->
  inv (n + 1) (set_fut i f' (set_storage (Timers.set_timers (storage w) t') w)).
Proof.
  intros [I1 I2 I3 I4 I5 I6 I7 [O1 O2 O3 O4]] Hi Hlive Hreg Hlast Hsub Hnew Hview Hsome.
  split; cbn [set_fut set_storage Timers.set_timers storage futs clocks time driver timers notified closing W_of]; try done.
  - rewrite length_insert. lia.
  - eapply (wakers_change (W_of w)); try done; [by apply I1|]. intros j g k Hj Hne Hg Hf. apply Hne. by eapply (ro_unique _ _ _ _ I1).
  - intros next Hn. destruct (I7 next Hn) as [?|[Hs|Hne]]; [by left|right; left; by eapply someone_change|].
    destruct (Hview next Hne) as [?|[wk Hwk]]; [by right; right|right; left; by eapply someone_new].
  - split; cbn [set_fut set_storage Timers.set_timers storage futs clocks time driver timers notified closing clock_owners driver_wakers]; try done.
    pose proof (live_count_set (futs w) i f f' Hi) as Hl. rewrite Hlive in Hl. rewrite O1. destruct (live f); lia.
Qed.

Lemma inv_same n w i f f' : inv n w -> futs w !! i = Some f -> live f' = live f -> fut_ok f' -> f_key f' = f_key f -> (forall k, f_timer f' = Some k -> f_timer f = Some k) ->
  (forall wk k, waits_with f' = Some wk -> f_timer f' = Some k -> f_woken f' = true \/ (k, wk) ∈ W_of w \/ wk ∈ hand (driver w)) ->
  ((exists wk, f_pc f = PWaking wk) -> exists wk, f_pc f' = PWaking wk) -> (forall k, f_pc f' = PUnregistering k -> tick k <= time w) -> inv (n + 1) (set_fut i f' w).
Proof.
  intros Hinv Hi Hlive Hok Hkey Ht Hw Hs Hpast. replace (set_fut i f' w) with (set_fut i f' (set_storage (Timers.set_timers (storage w) (timers (storage w))) w)) by by destruct w as [? []].
  apply (inv_fut n w i f f'); try done; [|pose proof (iv_last _ _ Hinv); lia|by intros next; left]. by eapply reg_same; [apply Hinv|..].
Qed.

(** Reads off where a future is. *)
Ltac fut_case Ht := unfold fut_ok, f_key, live, waits_with; cbn; rewrite ?Ht; split_and!; try done; try (intros [[? ?]|(? & ? & ?)]; congruence); try (intros ? [= <-]; assumption).

(** Polling up to the lock. *)
Lemma start_poll_ok now wk f : 0 <= now <= instant_max -> fut_ok f -> match f_pc f with PNew | PPending _ | PReady => True | _ => False end ->
  let f' := start_poll now wk f in fut_ok f' /\ f_key f' = f_key f /\ (forall k, f_timer f' = Some k -> f_timer f = Some k) /\ live f' = true
    /\ (forall wk' k, waits_with f' = Some wk' -> f_timer f' = Some k -> False) /\ (forall k, f_pc f' = PUnregistering k -> tick k <= now).
Proof.
  intros Hnow [Hp Hd] Hpc. assert (Hkey : f_key f = f_timer f) by (unfold f_key; by destruct (f_pc f)). rewrite Hkey. cbn zeta.
  assert (Hreg : f_timer f = None -> f_duration f <> duration_max -> let f' := start_register now wk f in fut_ok f' /\ f_key f' = f_timer f /\ (forall k, f_timer f' = Some k -> f_timer f = Some k) /\ live f' = true
    /\ (forall wk' k, waits_with f' = Some wk' -> f_timer f' = Some k -> False) /\ (forall k, f_pc f' = PUnregistering k -> tick k <= now)).
  { intros Hn Hmax. cbn zeta. unfold start_register. destruct (instant_checked_add now (f_duration f)); fut_case Hn. }
  assert (Hrun : forall key, f_timer f = Some key -> f_duration f <> duration_max) by (intros key Hk; apply Hd; left; by exists key).
  unfold start_poll. destruct (f_kind f); [destruct (f_timer f) as [key|] eqn:Ht|].
  - destruct (Z.leb_spec (tick key) now); fut_case Ht. intros _. by apply (Hrun key).
  - destruct (Z.eqb_spec (f_duration f) duration_max); [|destruct (Z.eqb_spec (f_duration f) 0); [|by apply Hreg]]; fut_case Ht.
  - assert (Hmx : f_duration f = duration_max -> f_timer f = None) by (intros Hx; destruct (f_timer f) as [key|]; [by destruct (Hrun key)|done]).
    destruct (Z.eqb_spec (f_duration f) duration_max) as [Hx|]; [|destruct (f_timer f) as [key|] eqn:Ht; [|by apply Hreg]].
    + fut_case (Hmx Hx).
    + destruct (Z.leb_spec (tick key) now); fut_case Ht.
Qed.

Lemma inv_poll n w i f wk : inv n w -> futs w !! i = Some f -> match f_pc f with PNew | PPending _ | PReady => True | _ => False end -> inv (n + 1) (set_fut i (start_poll (time w) wk f) w).
Proof.
  intros Hinv Hi Hpc. destruct (start_poll_ok (time w) wk f) as (H1 & H2 & H3 & H4 & H5 & H6); [apply Hinv|by eapply (ro_futs _ _ _ _ (iv_reg _ _ Hinv))|done|].
  apply (inv_same n w i f); try done; [rewrite H4; unfold live; by destruct (f_pc f)|intros wk' k Hw Hk; exfalso; by eapply H5|]. intros [wk' Hw]. by rewrite Hw in Hpc.
Qed.

(** ** The steps of futures *)

Definition step_inv (n : Z) (r : step_result) : Prop := r = Err tt \/ exists w, r = Ok w /\ inv n w.

Lemma elem_no_earlier W next x : no_earlier W next -> x ∈ W -> exists d, next = Some d /\ d <= tick x.1.
Proof. intros Hn Hx. by apply Hn. Qed.

Lemma earliest_ok W next when (key : TimerKey) wk W' : no_earlier W next -> btree_sorted W -> (forall x, x ∈ W' -> x = (key, wk) \/ x ∈ W) -> tick key = when ->
  match (fun x => tick x.1) <$> head W with None => true | Some previous => when <? previous end = false -> no_earlier W' next.
Proof.
  intros Hn Hs Hx Hk Hno x Hin. apply Hx in Hin as [->|Hin]; [|auto]. destruct W as [|y W]; [done|]. cbn in Hno. apply Z.ltb_ge in Hno.
  destruct (Hn y) as (d & -> & Hd); [by left|]. exists d. split; [done|]. cbn. lia.
Qed.

Lemma inv_register n w i f when wk : inv n w -> n < u32_max -> futs w !! i = Some f -> f_pc f = PRegistering when wk -> step_inv (n + 1) (act i f w).
Proof.
  intros Hinv Hn Hi Hpc. unfold act. rewrite Hpc. right. pose proof Hinv as [I1 I2 I3 I4 I5 I6 I7 I8]. unfold register_timer, timers_register. fold (W_of w).
  rewrite wrap32_small by (unfold u32_max in Hn; lia). set (last := last_discriminator (timers (storage w))) in *. set (key := (when, last + 1)).
  set (earliest := match next_timer (timers (storage w)) with None => true | Some previous => when <? previous end). eexists. split; [done|].
  destruct (ro_futs _ _ _ _ I1 i f Hi) as [Hp Hd]. rewrite Hpc in Hp. assert (Hk : f_key f = None) by (unfold f_key; by rewrite Hpc).
  pose proof (ro_sorted _ _ _ _ I1) as Hs. set (f' := mkFut _ _ _ _ _). assert (Hkey : f_key f' = Some key) by (unfold f', f_key; cbn; by destruct earliest).
  assert (Hx : forall x, x ∈ btree_insert key wk (W_of w) <-> x = (key, wk) \/ (x.1 <> key /\ x ∈ W_of w)) by (intros x; by apply elem_of_insert).
  assert (Hnew : forall k, registered (W_of w) k -> k <> key) by (intros k Hr ->; apply (ro_disc _ _ _ _ I1) in Hr; cbn in Hr; lia).
  apply (inv_fut n w i f f' (mkTimers (btree_insert key wk (W_of w)) (last + 1) (alive (timers (storage w))))); try done; cbn [wakers last_discriminator].
  - unfold f', live. cbn. rewrite Hpc. by destruct earliest.
  - eapply reg_change; [exact I1|exact Hi|lia|by apply insert_sorted|..].
    + unfold f', fut_ok. cbn. split; [destruct earliest; [by eexists|done]|]. intros _. apply Hd. right. by exists when, wk.
    + intros k Hk'. rewrite Hkey in Hk'. injection Hk' as <-. cbn. split; [right; lia|lia].
    + intros k [wk' [[= -> ->]|[Hne Hin]]%Hx]; [by left|right]. split; [by exists wk'|by rewrite Hk].
    + intros k [wk' Hin] _. exists wk'. apply Hx. right. split; [|done]. apply Hnew. by exists wk'.
    + intros k Hk'. cbn in Hk'. injection Hk' as <-. left. exists wk. apply Hx. by left.
    + intros k. unfold f'. cbn. by destruct earliest.
  - lia.
  - intros x Hin _. apply Hx. right. split; [|done]. destruct x as [k wk']. apply Hnew. by exists wk'.
  - intros wk' k Hw Hk'. cbn in Hk'. injection Hk' as <-. right. left. unfold f', waits_with in Hw. cbn in Hw. assert (wk' = wk) as -> by (destruct earliest; congruence). apply Hx. by left.
  - intros next Hne. destruct earliest eqn:He; [right; by exists wk|left]. eapply (earliest_ok (W_of w) next when key wk); [done|done| |done|done].
    intros x [->|[_ ?]]%Hx; auto.
  - rewrite Hpc. by intros [? ?].
Qed.

Lemma owner_live n w i f : inv n w -> futs w !! i = Some f -> live f = true -> 0 < clock_owners (storage w) /\ driver w <> DGone.
Proof.
  intros Hinv Hi Hl. destruct (iv_owners _ _ Hinv) as [O1 O2 O3 O4]. assert (Hpos : 0 < clock_owners (storage w)).
  { rewrite O1. assert (Hin : f ∈ filter (fun f => live f = true) (futs w)) by (apply list_elem_of_filter; split; [done|by eapply list_elem_of_lookup_2]).
    unfold live_count. destruct (filter _ _); [by apply not_elem_of_nil in Hin|]. cbn. lia. }
  split; [done|]. intros Hg. specialize (O4 Hg). lia.
Qed.

Lemma notified_after w : driver w <> DGone -> (driver w <> DGone -> driver_wakers (storage w) = [(0, -1)]) -> notified (notify_drivers w) = true.
Proof. intros Hg Hd. unfold notify_drivers, wake_drivers. cbn. by rewrite Hd. Qed.

Lemma inv_wake n w i f wk : inv n w -> futs w !! i = Some f -> f_pc f = PWaking wk -> step_inv (n + 1) (act i f w).
Proof.
  intros Hinv Hi Hpc. unfold act. rewrite Hpc. right. eexists. split; [done|]. pose proof Hinv as [I1 I2 I3 I4 I5 I6 I7 [O1 O2 O3 O4]].
  destruct (owner_live n w i f Hinv Hi) as [Hpos Hg]; [unfold live; by rewrite Hpc|]. pose proof (notified_after w Hg O2) as Hnot. set (f' := set_pc (PPending wk) f).
  destruct (ro_futs _ _ _ _ I1 i f Hi) as [Hp Hd]. rewrite Hpc in Hp.
  split; cbn [set_fut notify_drivers storage futs clocks time driver timers closing W_of]; try done.
  - eapply reg_same; [exact I1|done| | |done|done]; [unfold f', fut_ok; cbn; split; [done|]; intros [?|(? & ? & ?)]; [by apply Hd; left|done]|unfold f_key; cbn; by rewrite Hpc].
  - lia.
  - rewrite length_insert. lia.
  - eapply (wakers_change (W_of w)); try done; [by apply I1| |].
    + intros j g k Hj Hne Hg' Hf. apply Hne. by eapply (ro_unique _ _ _ _ I1).
    + intros wk' k Hw Hk. cbn in *. injection Hw as <-. eapply I6; [done| |done]. unfold waits_with. by rewrite Hpc.
  - intros next _. left. exact Hnot.
  - split; cbn [set_fut notify_drivers storage futs clocks time driver timers closing]; try done; [|intros _; left; lia].
    pose proof (live_count_set (futs w) i f f' Hi) as Hl. unfold live, f' in Hl. rewrite Hpc in Hl. cbn in Hl. rewrite O1. unfold f'. lia.
Qed.

Lemma inv_remove n w i f f' t : inv n w -> futs w !! i = Some f -> live f' = live f -> fut_ok f' -> f_key f' = None -> last_discriminator t = last_discriminator (timers (storage w)) ->
  btree_sorted (wakers t) -> (forall x, x ∈ wakers t <-> x ∈ W_of w /\ f_key f <> Some x.1) -> (forall wk, f_pc f <> PWaking wk) ->
  inv (n + 1) (set_fut i f' (set_storage (Timers.set_timers (storage w) t) w)).
Proof.
  intros Hinv Hi Hlive Hok Hkey Hlast Hs Hx Hpc. apply (inv_fut n w i f f' t); try done.
  - rewrite Hlast. eapply reg_removed; [apply Hinv|done..].
  - rewrite Hlast. pose proof (iv_last _ _ Hinv). lia.
  - intros x Hin Hne. by apply Hx.
  - intros wk k _ Hk. apply (f_key_timer f' k Hok) in Hk. congruence.
  - intros next Hne. left. intros x [Hin _]%Hx. by apply Hne.
  - intros [wk Hw]. by destruct (Hpc wk).
Qed.

Lemma inv_update n w i f key wk : inv n w -> futs w !! i = Some f -> f_pc f = PUpdating key wk -> step_inv (n + 1) (act i f w).
Proof.
  intros Hinv Hi Hpc. unfold act. rewrite Hpc. right. pose proof Hinv as [I1 I2 I3 I4 I5 I6 I7 I8]. destruct (ro_futs _ _ _ _ I1 i f Hi) as [Hp Hd]. rewrite Hpc in Hp.
  pose proof (ro_sorted _ _ _ _ I1) as Hs. assert (Hk : f_key f = Some key) by (unfold f_key; by rewrite Hpc). unfold update_waker. fold (W_of w). destruct (btree_get key (W_of w)) as [cur|] eqn:Hget.
  2: { eexists. split; [done|]. apply get_None in Hget. apply (inv_remove n w i f _ (timers (storage w))); try done; [unfold live; by rewrite Hpc|by split; [|intros [[? ?]|(? & ? & ?)]]| |intros wk'; by rewrite Hpc].
       intros x. rewrite Hk. split; [|by intros [? _]]. intros Hx. split; [done|]. intros [= Heq]. apply Hget. rewrite Heq. by apply (list_elem_of_fmap_2 fst _ x). }
  apply (get_spec key cur _ Hs) in Hget as Hin. set (f' := set_pc (PPending wk) f).
  assert (Hok' : fut_ok f') by (unfold f', fut_ok; cbn; split; [done|]; intros [?|(? & ? & ?)]; [by apply Hd; left|done]). assert (Hkey' : f_key f' = Some key) by by unfold f', f_key.
  assert (Hlive : live f' = live f) by (unfold f', live; by rewrite Hpc). unfold will_wake. destruct (Z.eqb_spec cur wk) as [->|Hne].
  - eexists. split; [done|]. apply (inv_fut n w i f f' (timers (storage w))); try done; [|lia| |by left|rewrite Hpc; by intros [? ?]].
    + eapply reg_same; [exact I1|done|done|congruence| |]; unfold f'; cbn; by intros.
    + intros wk' k Hw Hk'. injection Hw as <-. unfold f' in Hk'. cbn in Hk'. assert (k = key) as -> by congruence. right. left. exact Hin.
  - eexists. split; [done|]. set (t' := mkTimers _ _ _). assert (Hx : forall x, x ∈ wakers t' <-> (x = (key, wk) /\ key ∈ (W_of w).*1) \/ (x.1 <> key /\ x ∈ W_of w)) by (intros x; apply elem_of_replace).
    assert (Hkin : key ∈ (W_of w).*1) by by apply (list_elem_of_fmap_2 fst _ (key, cur)). assert (Hnew : (key, wk) ∈ wakers t') by (apply Hx; by left).
    assert (Hr : forall k, registered (wakers t') k <-> registered (W_of w) k).
    { intros k. split; intros [v Hv]; [apply Hx in Hv as [[[= -> ->] _]|[_ Hv]]; [by exists cur|by exists v]|].
      destruct (decide (k = key)) as [->|]; [by exists wk|]. exists v. apply Hx. by right. }
    apply (inv_fut n w i f f' t'); try done; [|unfold t'; cbn; lia|..].
    + eapply reg_change; [exact I1|exact Hi|done|by apply replace_sorted|done|..].
      * intros k. rewrite Hkey', Hk. intros [= <-]. split; [by left|]. apply (ro_disc _ _ _ _ I1). by exists cur.
      * intros k Hk'. rewrite Hkey', Hk. apply Hr in Hk'. destruct (decide (key = k)) as [->|]; [by left|right]. split; [done|congruence].
      * intros k Hk' _. by apply Hr.
      * intros k Hk'. unfold f' in Hk'. cbn in Hk'. left. apply Hr. exists cur. congruence.
      * by intros.
    + intros x Hxin Hne'. apply Hx. right. split; [congruence|done].
    + intros wk' k Hw Hk'. injection Hw as <-. unfold f' in Hk'. cbn in Hk'. assert (k = key) as -> by congruence. by right; left.
    + intros next Hno. left. intros x [[-> _]|[_ Hxin]]%Hx; [|by apply Hno]. destruct (Hno _ Hin) as (d & ? & ?). by exists d.
    + rewrite Hpc. by intros [? ?].
Qed.

Lemma removed_entries t key : forall x, x ∈ wakers (timers_unregister t key).1 <-> x ∈ wakers t /\ Some key <> Some x.1.
Proof. intros x. cbn. rewrite elem_of_remove. split; intros [H1 H2]; split; congruence. Qed.

Lemma inv_unregister n w i f key : inv n w -> futs w !! i = Some f -> f_pc f = PUnregistering key -> step_inv (n + 1) (act i f w).
Proof.
  intros Hinv Hi Hpc. unfold act. rewrite Hpc. right. eexists. split; [done|]. pose proof (ro_futs _ _ _ _ (iv_reg _ _ Hinv) i f Hi) as [Hp Hd]. rewrite Hpc in Hp.
  apply (inv_remove n w i f _ (timers_unregister (timers (storage w)) key).1); try done.
  - unfold live. by rewrite Hpc.
  - unfold fut_ok. cbn. rewrite Hp. split; [done|]. by intros [[? ?]|(? & ? & ?)].
  - apply filter_sorted, Hinv.
  - intros x. unfold f_key. rewrite Hpc. apply removed_entries.
  - intros wk. by rewrite Hpc.
Qed.

(** The count of clocks stays far from its limits. *)
Lemma owners_small n w : inv n w -> n < u32_max -> 0 <= clock_owners (storage w) <= u32_max.
Proof.
  intros [_ _ I3 _ _ _ _ [O1 _ _ _]] Hn. rewrite O1. unfold live_count. pose proof (length_filter (fun f => live f = true) (futs w)). lia.
Qed.

Lemma remove_owner_ok n w : inv n w -> n < u32_max -> 0 < clock_owners (storage w) ->
  let s := storage w in remove_clock_owner s = Ok (mkStorage (timers s) (driver_wakers s) (next_driver_id s) (clock_owners s - 1), clock_owners s =? 1).
Proof.
  intros Hinv Hn Hpos. pose proof (owners_small n w Hinv Hn) as Hs. cbn zeta. unfold remove_clock_owner, rust_assert. rewrite (proj2 (Z.ltb_lt _ _)) by lia.
  by rewrite wrap64_small by (unfold u32_max, usize_max in *; lia).
Qed.

(** One clock less; whoever drops the last one wakes the drivers. *)
Lemma inv_less n w clocks' fs' : inv n w -> n < u32_max -> 0 < clock_owners (storage w) -> (Z.of_nat clocks' + Z.of_nat (length fs') <= n + 2) ->
  reg_ok (last_discriminator (timers (storage w))) (W_of w) fs' (time w) -> wakers_ok (W_of w) fs' (hand (driver w)) -> (someone_wakes (futs w) -> someone_wakes fs') ->
  clock_owners (storage w) - 1 = Z.of_nat clocks' + Z.of_nat (live_count fs') ->
  let s := storage w in let last := clock_owners s =? 1 in
  inv (n + 1) (mkWorld (time w) (mkStorage (timers s) (driver_wakers s) (next_driver_id s) (clock_owners s - 1)) clocks' fs' (if last then S (closing w) else closing w) (notified w) (driver w)).
Proof.
  intros [I1 I2 I3 I4 I5 I6 I7 [O1 O2 O3 O4]] Hn Hpos Hsize Hreg Hwk Hsome Hcount. split; cbn [time storage clocks futs closing notified driver timers W_of]; try done; [lia|lia|..].
  - intros next Hv. destruct (I7 next Hv) as [?|[?|?]]; auto.
  - split; cbn [time storage clocks futs closing notified driver clock_owners driver_wakers]; try done.
    + intros Hsl. destruct (Z.eqb_spec (clock_owners (storage w)) 1); [right; right; lia|]. destruct (O3 Hsl) as [?|[?|?]]; [left; lia|by right; left|by right; right].
    + intros Hg. specialize (O4 Hg). lia.
Qed.

Lemma inv_dropping n w i f : inv n w -> n < u32_max -> futs w !! i = Some f -> f_pc f = PDropping -> step_inv (n + 1) (act i f w).
Proof.
  intros Hinv Hn Hi Hpc. unfold act. rewrite Hpc. right. pose proof Hinv as [I1 I2 I3 I4 I5 I6 I7 [O1 O2 O3 O4]]. destruct (ro_futs _ _ _ _ I1 i f Hi) as [Hp Hd]. rewrite Hpc in Hp.
  destruct (owner_live n w i f Hinv Hi) as [Hpos Hg]; [unfold live; by rewrite Hpc|]. rewrite (remove_owner_ok n w Hinv Hn Hpos). eexists. split; [done|]. cbn [set_fut set_storage storage futs clocks time driver notified closing].
  set (f' := set_pc PGone f). pose proof (live_count_set (futs w) i f f' Hi) as Hl. unfold live, f' in Hl. rewrite Hpc in Hl. cbn in Hl.
  apply (inv_less n w); try done; [rewrite length_insert; lia| | | |unfold f'; lia].
  - eapply reg_same; [exact I1|done| | |done|done]; [unfold f', fut_ok; cbn; split; [done|]; rewrite Hp; by intros [[? ?]|(? & ? & ?)]|unfold f_key; cbn; by rewrite Hpc].
  - eapply (wakers_change (W_of w)); try done; [by apply I1|]. intros j g k Hj Hne Hg' Hf. apply Hne. by eapply (ro_unique _ _ _ _ I1).
  - apply (someone_change (futs w) i f); [done|]. rewrite Hpc. by intros [? ?].
Qed.

Lemma inv_act n w i f : inv n w -> n < u32_max -> futs w !! i = Some f -> step_inv (n + 1) (act i f w).
Proof.
  intros Hinv Hn Hi. destruct (f_pc f) as [|when wk|wk|key wk|key|wk| | |] eqn:Hpc; [|by eapply inv_register|by eapply inv_wake|by eapply inv_update|by eapply inv_unregister| | |by eapply inv_dropping|];
    left; unfold act; by rewrite Hpc.
Qed.

(** ** The steps of clocks *)

Lemma reg_later last W fs now now' : now <= now' -> reg_ok last W fs now -> reg_ok last W fs now'.
Proof. intros Hle [R1 R2 R3 R4 R5 R6 R7 R8]. split; try done; intros i f k Hi Hf; [destruct (R7 i f k Hi Hf); [by left|right; lia]|specialize (R8 i f k Hi Hf); lia]. Qed.

Lemma inv_time n w d : inv n w -> 0 <= d -> time w + d <= instant_max ->
  inv (n + 1) (mkWorld (time w + d) (storage w) (clocks w) (futs w) (closing w) (notified w) (driver w)).
Proof.
  intros [I1 I2 I3 I4 I5 I6 I7 [O1 O2 O3 O4]] Hd Hmax. split; cbn [time storage clocks futs closing notified driver W_of]; try done; try lia.
  - eapply reg_later; [|exact I1]. lia.
  - unfold read_at in *. destruct (driver w) as [| | |? []| | |]; lia || done.
Qed.

(** One clock more. *)
Lemma inv_more n w clocks' fs' : inv n w -> n < u32_max -> (0 < clocks w)%nat -> (Z.of_nat clocks' + Z.of_nat (length fs') <= n + 2) ->
  reg_ok (last_discriminator (timers (storage w))) (W_of w) fs' (time w) -> wakers_ok (W_of w) fs' (hand (driver w)) -> (someone_wakes (futs w) -> someone_wakes fs') ->
  clock_owners (storage w) + 1 = Z.of_nat clocks' + Z.of_nat (live_count fs') ->
  inv (n + 1) (mkWorld (time w) (add_clock_owner (storage w)) clocks' fs' (closing w) (notified w) (driver w)).
Proof.
  intros Hinv Hn Hc Hsize Hreg Hwk Hsome Hcount. pose proof (owners_small n w Hinv Hn) as Hs. destruct Hinv as [I1 I2 I3 I4 I5 I6 I7 [O1 O2 O3 O4]].
  assert (Hwrap : wrap64 (clock_owners (storage w) + 1) = clock_owners (storage w) + 1) by (apply wrap64_small; unfold u32_max, usize_max in *; lia).
  split; cbn [time storage clocks futs closing notified driver add_clock_owner timers W_of]; try done; [lia|lia|..].
  - intros next Hv. destruct (I7 next Hv) as [?|[?|?]]; auto.
  - split; cbn [time storage clocks futs closing notified driver add_clock_owner clock_owners driver_wakers]; try done; [lia|intros _; left; lia|].
    intros Hg. specialize (O4 Hg). lia.
Qed.

Lemma lookup_new {A} (fs : list A) (f' : A) j g : (fs ++ [f']) !! j = Some g -> fs !! j = Some g \/ g = f'.
Proof. intros Hj. apply lookup_app_Some in Hj as [?|[_ Hj]]; [by left|right]. apply list_lookup_singleton_Some in Hj as [_ ?]. congruence. Qed.

(** A new future has no timer. *)
Lemma inv_create n w k d : inv n w -> n < u32_max -> (0 < clocks w)%nat -> 0 <= d ->
  inv (n + 1) (mkWorld (time w) (add_clock_owner (storage w)) (clocks w) (futs w ++ [mkFut k d None PNew false]) (closing w) (notified w) (driver w)).
Proof.
  intros Hinv Hn Hc Hd. pose proof Hinv as [[R1 R2 R3 R4 R5 R6 R7 R8] I2 I3 I4 I5 I6 I7 [O1 O2 O3 O4]]. set (f' := mkFut k d None PNew false). apply inv_more; try done.
  - rewrite length_app. cbn. lia.
  - split; try done.
    + intros j g key Hj Hg. apply lookup_new in Hj as [Hj| ->]; [by eapply R3|done].
    + intros key Hk. destruct (R4 key Hk) as (j & g & Hj & Hg). exists j, g. split; [by apply lookup_app_l_Some|done].
    + intros a b g h key Ha Hb Hg Hh. apply lookup_new in Ha as [Ha| ->]; [|done]. apply lookup_new in Hb as [Hb| ->]; [|done]. by eapply R5.
    + intros j g Hj. apply lookup_new in Hj as [Hj| ->]; [by eapply R6|]. split; [done|]. by intros [[? ?]|(? & ? & ?)].
    + intros j g key Hj Hg. apply lookup_new in Hj as [Hj| ->]; [by eapply R7|done].
    + intros j g key Hj Hg. apply lookup_new in Hj as [Hj| ->]; [by eapply R8|done].
  - intros j g wk key Hj Hw Hg. apply lookup_new in Hj as [Hj| ->]; [by eapply I6|done].
  - intros (j & g & wk & Hj & Hg). exists j, g, wk. split; [by apply lookup_app_l_Some|done].
  - unfold live_count in *. rewrite filter_app, length_app, (filter_cons_True _ f') by done. cbn [length filter list_filter]. lia.
Qed.

Lemma inv_drop_clock n w c : inv n w -> n < u32_max -> clocks w = S c ->
  0 < clock_owners (storage w) /\ let s := storage w in inv (n + 1) (mkWorld (time w) (mkStorage (timers s) (driver_wakers s) (next_driver_id s) (clock_owners s - 1)) c (futs w)
      (if clock_owners s =? 1 then S (closing w) else closing w) (notified w) (driver w)).
Proof.
  intros Hinv Hn Hc. pose proof Hinv as [I1 I2 I3 I4 I5 I6 I7 [O1 O2 O3 O4]]. assert (Hpos : 0 < clock_owners (storage w)) by (rewrite O1, Hc; lia). split; [done|].
  apply inv_less; try done; lia.
Qed.

Lemma inv_close n w c : inv n w -> closing w = S c -> inv (n + 1) (mkWorld (time w) (storage w) (clocks w) (futs w) c (notified (notify_drivers w)) (driver w)).
Proof.
  intros [I1 I2 I3 I4 I5 I6 I7 [O1 O2 O3 O4]] Hc. assert (Hnot : driver w <> DGone -> notified (notify_drivers w) = true) by (intros; by apply notified_after).
  split; cbn [time storage clocks futs closing notified driver]; try done; try lia.
  - intros next Hv. left. apply Hnot. intros Hg. by rewrite Hg in Hv.
  - split; cbn [time storage clocks futs closing notified driver]; try done. intros (next & Hn). right. left. apply Hnot. intros Hg. rewrite Hg in Hn. destruct Hn as [?|[? ?]]; done.
Qed.

Lemma inv_drop n w i f : inv n w -> futs w !! i = Some f -> match f_pc f with PNew | PPending _ | PReady => True | _ => False end ->
  let t := match f_timer f with Some key => (timers_unregister (timers (storage w)) key).1 | None => timers (storage w) end in
  inv (n + 1) (set_fut i (mkFut (f_kind f) (f_duration f) None PDropping (f_woken f)) (set_storage (Timers.set_timers (storage w) t) w)).
Proof.
  intros Hinv Hi Hpc. cbn zeta. assert (Hkey : f_key f = f_timer f) by (unfold f_key; by destruct (f_pc f)). apply inv_remove with (f := f); try done.
  - unfold live. by destruct (f_pc f).
  - split; [done|]. by intros [[? ?]|(? & ? & ?)].
  - by destruct (f_timer f).
  - destruct (f_timer f); [apply filter_sorted|]; apply Hinv.
  - intros x. rewrite Hkey. destruct (f_timer f); [apply removed_entries|]. split; [by intros|by intros [? _]].
  - intros wk Hw. by rewrite Hw in Hpc.
Qed.

(** ** The steps of the driver *)

Lemma registered_live n w k : inv n w -> registered (W_of w) k -> 0 < clock_owners (storage w).
Proof.
  intros Hinv Hk. destruct (ro_owned _ _ _ _ (iv_reg _ _ Hinv) k Hk) as (i & f & Hi & Hf). eapply (owner_live n w i f Hinv Hi).
  pose proof (ro_futs _ _ _ _ (iv_reg _ _ Hinv) i f Hi) as [Hp _]. unfold live, f_key in *. destruct (f_pc f); congruence.
Qed.

Lemma next_no_earlier t : btree_sorted (wakers t) -> no_earlier (wakers t) (next_timer t).
Proof.
  unfold next_timer, btree_sorted. intros Hs x Hx. destruct (wakers t) as [|y m]; [by apply not_elem_of_nil in Hx|]. exists (tick y.1). split; [done|].
  inversion Hs as [|? ? _ Hall]; subst. apply elem_of_cons in Hx as [->|Hx]; [lia|]. rewrite Forall_forall in Hall. by apply key_lt_tick, Hall.
Qed.

(** A driver step that changes nothing but where the driver is. *)
Lemma inv_driver n w d : inv n w -> driver w <> DGone -> d <> DGone -> read_at d (time w) -> hand d = hand (driver w) ->
  (forall next, view d = Some next -> view (driver w) = Some next) -> (forall next, d = DWait next -> (exists x, next = Some x) \/ 0 < clock_owners (storage w)) -> inv (n + 1) (set_driver d w).
Proof.
  intros [I1 I2 I3 I4 I5 I6 I7 [O1 O2 O3 O4]] Hg Hg' Hread Hhand Hview Hwait. split; cbn [set_driver time storage clocks futs closing notified driver]; try done; try lia.
  - by rewrite Hhand.
  - intros next Hv. apply I7. auto.
  - split; cbn [set_driver time storage clocks futs closing notified driver]; try done; [by intros; apply O2|]. intros (next & [Hd|(x & Hx)]).
    + destruct (Hwait next Hd) as [[x ->]|?]; [|by left]. apply O3. exists None. right. exists x. apply Hview. by rewrite Hd.
    + apply O3. exists None. right. exists x. by apply Hview.
Qed.

(** Taking due timers. *)
Lemma inv_pop n w at_ slots d : inv n w -> at_ <= time w -> driver w <> DGone -> d <> DGone -> (forall next, d <> DWait next) ->
  let due_ := due at_ (W_of w) in
  let t := mkTimers (drop slots due_ ++ later at_ (W_of w)) (last_discriminator (timers (storage w))) true in
  read_at d (time w) -> hand d = (take slots due_).*2 -> (forall next, view d = Some next -> next = next_timer t) -> hand (driver w) = [] ->
  inv (n + 1) (set_driver d (set_storage (Timers.set_timers (storage w) t) w)).
Proof.
  intros Hinv Hat Hg Hg' Hnw due_ t Hread Hhand Hview Hempty. pose proof Hinv as [I1 I2 I3 I4 I5 I6 I7 [O1 O2 O3 O4]]. pose proof I1 as [R1 R2 R3 R4 R5 R6 R7 R8].
  assert (Ht : btree_sorted (wakers t)) by by apply left_over_sorted. assert (Hcases : forall x, x ∈ W_of w <-> x ∈ take slots due_ \/ x ∈ wakers t).
  { intros x. rewrite (due_later at_ (W_of w) R1) at 1. rewrite <- (take_drop slots (due at_ (W_of w))) at 1. cbn. rewrite !elem_of_app. tauto. }
  assert (Hdue : forall x, x ∈ take slots due_ -> tick x.1 <= time w).
  { intros x Hx. assert (Hin : x ∈ due_) by (rewrite <- (take_drop slots due_); apply elem_of_app; by left). apply list_elem_of_filter in Hin as [? _]. lia. }
  split; cbn [set_driver set_storage Timers.set_timers time storage clocks futs closing notified driver timers last_discriminator W_of]; try done; [|unfold t; cbn; lia|lia|..].
  - split; try done.
    + intros k [wk Hk]. apply R2. exists wk. apply Hcases. by right.
    + intros k [wk Hk]. apply R4. exists wk. apply Hcases. by right.
    + intros i f k Hi Hf. destruct (R7 i f k Hi Hf) as [[wk [Hk|Hk]%Hcases]|]; [right; by apply (Hdue (k, wk))|left; by exists wk|by right].
  - intros i f wk k Hi Hw Hf. destruct (I6 i f wk k Hi Hw Hf) as [?|[[Hk|Hk]%Hcases|Hh]]; [by left| |by right; left|rewrite Hempty in Hh; by apply not_elem_of_nil in Hh].
    right. right. rewrite Hhand. by apply (list_elem_of_fmap_2 snd _ (k, wk)).
  - intros next Hv. right. right. rewrite (Hview next Hv). by apply next_no_earlier.
  - split; cbn [set_driver set_storage Timers.set_timers time storage clocks futs closing notified driver clock_owners driver_wakers]; try done; [by intros; apply O2|].
    intros (next & [Hd|(x & Hx)]); [by destruct (Hnw next)|]. left. apply Hview in Hx. unfold next_timer in Hx. destruct (wakers t) as [|[k wk] m] eqn:Hm; [done|].
    eapply (registered_live n w k Hinv). exists wk. apply Hcases. right. by left.
Qed.

(** Waking a task changes no future but its flag. *)
Lemma wake_fut_same wk f : f_key (wake_fut wk f) = f_key f /\ f_timer (wake_fut wk f) = f_timer f /\ f_pc (wake_fut wk f) = f_pc f /\ f_duration (wake_fut wk f) = f_duration f.
Proof. unfold wake_fut. by case_bool_decide. Qed.

Lemma wake_lookup wk (fs : list Fut) (i : nat) f' : (wake_fut wk <$> fs) !! i = Some f' -> exists f, fs !! i = Some f /\ f' = wake_fut wk f.
Proof. intros Hi. apply list_lookup_fmap_Some in Hi as (f & -> & Hf). by exists f. Qed.

Lemma inv_wake_task n w wk h k : inv n w -> driver w = DWaking (wk :: h) k -> inv (n + 1) (set_driver (DWaking h k) (wake_task wk w)).
Proof.
  intros [I1 I2 I3 I4 I5 I6 I7 [O1 O2 O3 O4]] Hd. pose proof I1 as [R1 R2 R3 R4 R5 R6 R7 R8]. rewrite Hd in *.
  split; cbn [set_driver wake_task time storage clocks futs closing notified driver timers W_of]; try done; [|lia|rewrite length_fmap; lia|..].
  - split; try done.
    + intros i f' key (f & Hi & ->)%wake_lookup Hf. destruct (wake_fut_same wk f) as (Hk & _). rewrite Hk in Hf. by eapply R3.
    + intros key Hk. destruct (R4 key Hk) as (i & f & Hi & Hf). exists i, (wake_fut wk f). rewrite list_lookup_fmap, Hi. split; [done|]. destruct (wake_fut_same wk f) as (-> & _). done.
    + intros i j f' g' key (f & Hi & ->)%wake_lookup (g & Hj & ->)%wake_lookup. destruct (wake_fut_same wk f) as (-> & _), (wake_fut_same wk g) as (-> & _). by eapply R5.
    + intros i f' (f & Hi & ->)%wake_lookup. specialize (R6 i f Hi). unfold fut_ok in *. destruct (wake_fut_same wk f) as (_ & -> & -> & ->). done.
    + intros i f' key (f & Hi & ->)%wake_lookup. destruct (wake_fut_same wk f) as (_ & -> & _). by eapply R7.
    + intros i f' key (f & Hi & ->)%wake_lookup. destruct (wake_fut_same wk f) as (_ & _ & -> & _). by eapply R8.
  - intros i f' wk' key (f & Hi & ->)%wake_lookup Hw Hf. destruct (wake_fut_same wk f) as (_ & Ht & Hp & _). unfold waits_with in Hw. rewrite Hp in Hw. fold (waits_with f) in Hw. rewrite Ht in Hf.
    unfold wake_fut. case_bool_decide as Hb; [by left|]. destruct (I6 i f wk' key Hi Hw Hf) as [?|[?|[->|?]%elem_of_cons]]; [by left|by right; left|congruence|by right; right].
  - intros next Hv. destruct (I7 next Hv) as [?|[(i & f & wk' & Hi & Hf)|?]]; [by left| |by right; right]. right. left. exists i, (wake_fut wk f), wk'. rewrite list_lookup_fmap, Hi. split; [done|].
    by destruct (wake_fut_same wk f) as (_ & _ & -> & _).
  - split; cbn [set_driver wake_task time storage clocks futs closing notified driver]; rewrite ?Hd; try done; [|by intros; apply O2|].
    + rewrite O1. f_equal. f_equal. unfold live_count. clear. induction (futs w) as [|f fs IH]; [done|]. cbn [fmap list_fmap]. rewrite !filter_cons. assert (Hl : live (wake_fut wk f) = live f) by (unfold live; by destruct (wake_fut_same wk f) as (_ & _ & -> & _)).
      rewrite Hl. case_decide; cbn [length]; by rewrite IH.
    + intros (next & [?|?]); [done|]. apply O3. exists next. by right.
Qed.

Lemma unregister_same s id : timers (unregister_driver s id) = timers s /\ clock_owners (unregister_driver s id) = clock_owners s.
Proof. unfold unregister_driver. by destruct (list_find _ _) as [[? ?]|]. Qed.

Lemma inv_driver_step n w : inv n w -> step_inv (n + 1) (driver_step w).
Proof.
  intros Hinv. pose proof (iv_read _ _ Hinv) as Hread. unfold driver_step. pose proof (ro_sorted _ _ _ _ (iv_reg _ _ Hinv)) as Hs.
  destruct (driver w) as [|at_|at_|[|wk h] [next|at_]|[next|]|next|] eqn:Hd; cbn [read_at] in Hread.
  - right. eexists. split; [done|]. apply inv_driver; rewrite ?Hd; cbn; try done.
  - right. rewrite pop_ready_spec by done. fold (W_of w). set (t := mkTimers _ _ _). destruct ((take 1 (due at_ (W_of w))).*2) as [|wk h] eqn:Hready.
    + eexists. split; [done|]. apply (inv_pop n w at_ 1); rewrite ?Hd, ?Hready; try done. by intros next [= <-].
    + destruct (after_now (next_timer t) at_); eexists; (split; [done|]); apply (inv_pop n w at_ 1); rewrite ?Hd, ?Hready; try done; by intros next [= <-].
  - right. rewrite pop_ready_spec by done. fold (W_of w). set (t := mkTimers _ _ _).
    destruct (_ || _); eexists; (split; [done|]); apply (inv_pop n w at_ READY_BATCH_SIZE); rewrite ?Hd; try done; by intros next [= <-].
  - right. eexists. split; [done|]. apply inv_driver; rewrite ?Hd; cbn; try done.
  - right. eexists. split; [done|]. apply inv_driver; rewrite ?Hd; cbn; try done.
  - right. eexists. split; [done|]. by apply inv_wake_task.
  - right. eexists. split; [done|]. by apply inv_wake_task.
  - right. eexists. split; [done|]. apply inv_driver; rewrite ?Hd; cbn; try done. intros ? [= <-]. left. by eexists.
  - right. pose proof Hinv as [I1 I2 I3 I4 I5 I6 I7 [O1 O2 O3 O4]]. unfold has_no_clock_owners. destruct (Z.eqb_spec (clock_owners (storage w)) 0) as [Hz|Hnz].
    + eexists. split; [done|]. destruct (unregister_same (storage w) 0) as [Ht Ho]. rewrite Hd in *.
      split; unfold W_of in *; cbn [set_driver set_storage time storage clocks futs closing notified driver]; rewrite ?Ht; try done; try lia.
      split; cbn [set_driver set_storage time storage clocks futs closing notified driver]; rewrite ?Ho; try done. intros (next & [?|(d & ?)]); done.
    + eexists. split; [done|]. apply inv_driver; rewrite ?Hd; cbn; try done. intros ? _. right. lia.
  - pose proof Hinv as [I1 I2 I3 I4 I5 I6 I7 [O1 O2 O3 O4]]. assert (Hstart : forall b, inv (n + 1) (mkWorld (time w) (storage w) (clocks w) (futs w) (closing w) b DStart)).
    { intros b. rewrite Hd in *. split; cbn [time storage clocks futs closing notified driver]; try done; try lia. split; cbn [time storage clocks futs closing notified driver]; try done; [by intros; apply O2|].
      intros (x & [?|(d & ?)]); done. }
    destruct (notified w) eqn:Hn; [right; eexists; split; [done|apply Hstart]|]. destruct next as [deadline|]; [|by left]. destruct (deadline <=? time w); [|by left].
    right. eexists. split; [done|]. unfold set_driver. rewrite Hn. apply Hstart.
  - by left.
Qed.

Lemma inv_step n w e : inv n w -> n < u32_max -> step_inv (n + 1) (world_step e w).
Proof.
  intros Hinv Hn. destruct e as [d| | | | |k d|i wk|i|i]; cbn [world_step].
  - destruct (_ && _) eqn:Hc; [|by left]. to_prop. right. eexists. split; [done|]. by apply inv_time.
  - by apply inv_driver_step.
  - destruct (clocks w) as [|c] eqn:Hc; [by left|]. right. eexists. split; [done|]. pose proof Hinv as [I1 I2 I3 I4 I5 I6 I7 [O1 _ _ _]]. apply inv_more; try done; lia.
  - destruct (clocks w) as [|c] eqn:Hc; [by left|]. destruct (inv_drop_clock n w c Hinv Hn Hc) as [Hpos Hinv']. rewrite (remove_owner_ok n w Hinv Hn Hpos). right. by eexists.
  - destruct (closing w) as [|c] eqn:Hc; [by left|]. right. eexists. split; [done|]. by apply (inv_close n w c).
  - destruct (clocks w) as [|c] eqn:Hc; [by left|]. destruct (_ && _) eqn:Hd; [|by left]. to_prop. right. eexists. split; [done|]. rewrite <- Hc. apply inv_create; try done; [lia|].
    unfold new_duration. destruct k; [done|lia].
  - destruct (futs w !! i) as [f|] eqn:Hi; [|by left]. destruct (f_pc f) eqn:Hpc; try (by left); right; eexists; (split; [done|]); apply inv_poll; rewrite ?Hpc; done.
  - destruct (futs w !! i) as [f|] eqn:Hi; [|by left]. by apply inv_act.
  - destruct (futs w !! i) as [f|] eqn:Hi; [|by left]. destruct (f_pc f) eqn:Hpc; try (by left); right; eexists; (split; [done|]); apply inv_drop; rewrite ?Hpc; done.
Qed.

(** ** How long a run may be

    The discriminators of timer keys have 32 bits.  What counts are the registrations, and the futures and
    clocks that are made; polls, drops, steps of the driver and of the time do not. *)
Definition grows (e : Event) (w : World) : bool :=
  match e with
  | ECloneClock | ECreate _ _ => true
  | EAct i => match futs w !! i with Some f => match f_pc f with PRegistering _ _ => true | _ => false end | None => false end
  | _ => false
  end.

Fixpoint growth (es : list Event) (w : World) : Z :=
  match es with
  | [] => 0
  | e :: es => Z.b2z (grows e w) + match world_step e w with Ok w => growth es w | _ => 0 end
  end.

Lemma growth_nonneg es : forall w, 0 <= growth es w.
Proof. induction es as [|e es IH]; intros w; cbn; [lia|]. destruct (grows e w), (world_step e w) as [w1| |]; try specialize (IH w1); cbn; lia. Qed.

Definition disc (w : World) : Z := last_discriminator (timers (storage w)).

Lemma pop_disc t now slots : last_discriminator (pop_ready_into t now slots).1 = last_discriminator t.
Proof. unfold pop_ready_into. by repeat case_match. Qed.

Lemma driver_keeps_size w w' : driver_step w = Ok w' -> disc w' = disc w /\ clocks w' = clocks w /\ length (futs w') = length (futs w).
Proof.
  unfold driver_step, disc. intros Hs. repeat (case_match; simplify_eq); simplify_eq; cbn; rewrite ?length_fmap; try done.
  all: try (match goal with Hp : pop_ready_into ?t ?n ?k = _ |- _ => pose proof (pop_disc t n k) as Hd; rewrite Hp in Hd; cbn in Hd end; done).
  unfold unregister_driver. by case_match; [case_match|].
Qed.

Lemma act_keeps_size w i f w' : act i f w = Ok w' -> match f_pc f with PRegistering _ _ => False | _ => True end ->
  disc w' = disc w /\ clocks w' = clocks w /\ length (futs w') = length (futs w).
Proof.
  unfold act, disc. intros Ha Hp. unfold update_waker, timers_unregister, remove_clock_owner in Ha. repeat (case_match; simplify_eq); simplify_eq; cbn; by rewrite ?length_insert.
Qed.

Lemma step_keeps_size e w w' : grows e w = false -> world_step e w = Ok w' -> disc w' = disc w /\ (clocks w' <= clocks w)%nat /\ length (futs w') = length (futs w).
Proof.
  intros Hg Hs. destruct e as [d| | | | |k d|i wk|i|i]; cbn [world_step grows] in *; try done.
  - destruct (_ && _); [|done]. by injection Hs as <-.
  - destruct (driver_keeps_size w w' Hs) as (? & -> & ?). auto.
  - unfold remove_clock_owner in Hs. destruct (clocks w); [done|]. destruct (rust_assert _); [|done..]. injection Hs as <-. cbn. auto.
  - destruct (closing w); [done|]. by injection Hs as <-.
  - destruct (futs w !! i) as [f|]; [|done]. destruct (f_pc f); simplify_eq; cbn; by rewrite length_insert.
  - destruct (futs w !! i) as [f|]; [|done]. destruct (act_keeps_size w i f w' Hs) as (? & -> & ?); [by destruct (f_pc f)|]. auto.
  - destruct (futs w !! i) as [f|]; [|done]. destruct (f_pc f); simplify_eq; cbn; rewrite length_insert; unfold disc; cbn; by destruct (f_timer f).
Qed.

Lemma inv_step_tight n w e : inv n w -> n < u32_max -> step_inv (n + Z.b2z (grows e w)) (world_step e w).
Proof.
  intros Hinv Hn. destruct (inv_step n w e Hinv Hn) as [?|(w1 & Hs & Hinv1)]; [by left|]. right. exists w1. split; [done|].
  destruct (grows e w) eqn:Hg; [done|]. destruct (step_keeps_size e w w1 Hg Hs) as (Hd & Hc & Hl). unfold disc in Hd.
  pose proof (iv_last _ _ Hinv). pose proof (iv_size _ _ Hinv). destruct Hinv1. split; try done; cbn; lia.
Qed.

Lemma inv_run es : forall n w, inv n w -> n + growth es w < u32_max -> world_run es w = Err tt \/ exists w', world_run es w = Ok w' /\ inv (n + growth es w) w'.
Proof.
  induction es as [|e es IH]; intros n w Hinv Hn; cbn [world_run growth] in *; [right; exists w; split; [done|]; by replace (n + 0) with n by lia|].
  destruct (inv_step_tight n w e Hinv) as [He|(w1 & He & Hinv1)]; [|rewrite He; by left|].
  - destruct (world_step e w) as [w1| |]; [pose proof (growth_nonneg es w1)|..]; destruct (grows e w); cbn in Hn; lia.
  - rewrite He in *. rewrite Z.add_assoc in *. by apply IH.
Qed.

Lemma inv_new now : 0 <= now <= instant_max -> inv 0 (new_tokio now).
Proof.
  intros Hnow. split; cbn; try done; try lia.
  - split; try done; [constructor|..].
    + intros k [wk Hk]. by apply not_elem_of_nil in Hk.
    + intros k [wk Hk]. by apply not_elem_of_nil in Hk.
  - split; cbn; try done. intros (next & [?|(d & ?)]); done.
Qed.

(** ** Progress *)

(** A future that waits for its timer and has not been woken. *)
Definition sleeps (i : nat) (k : TimerKey) (wk : Waker) (w : World) : Prop :=
  exists f, futs w !! i = Some f /\ f_pc f = PPending wk /\ f_timer f = Some k /\ f_woken f = false.

Definition is_woken (i : nat) (k : TimerKey) (wk : Waker) (w : World) : Prop :=
  exists f, futs w !! i = Some f /\ f_pc f = PPending wk /\ f_timer f = Some k /\ f_woken f = true.

(** The steps the driver is away from its next wake-up call. *)
Definition stage (d : Driver) (now : Z) : nat :=
  match d with
  | DWaking [] (Again at_) => if at_ =? now then 4 else 9
  | DLoop at_ | DFirst at_ => if at_ =? now then 3 else 8
  | DWaking [] (Return _) => 7
  | DCheck _ => 6
  | DWait _ => 5
  | DStart => 4
  | DWaking (_ :: _) _ => 2
  | DGone => 0
  end.

Definition distance (w : World) : nat := 10 * (length (W_of w) + length (hand (driver w))) + stage (driver w) (time w).

Lemma stage_le d now : (stage d now <= 9)%nat.
Proof. destruct d as [| | |[|] []| | |]; cbn; try case_match; lia. Qed.

Lemma sleeps_entry n w i k wk : inv n w -> sleeps i k wk w -> hand (driver w) = [] -> (k, wk) ∈ W_of w.
Proof.
  intros Hinv (f & Hi & Hp & Ht & Hw) Hh. destruct (iv_wakers _ _ Hinv i f wk k Hi) as [?|[?|Hin]]; [unfold waits_with; by rewrite Hp|done|congruence|done|].
  rewrite Hh in Hin. by apply not_elem_of_nil in Hin.
Qed.

Lemma sleeps_live n w i k wk : inv n w -> sleeps i k wk w -> 0 < clock_owners (storage w) /\ driver w <> DGone.
Proof. intros Hinv (f & Hi & Hp & _). eapply (owner_live n w i f Hinv Hi). unfold live. by rewrite Hp. Qed.

(** Popping does not lose a timer from the sum. *)
Lemma pop_length at_ slots m : btree_sorted m -> (length (drop slots (due at_ m) ++ later at_ m) + length ((take slots (due at_ m)).*2) = length m)%nat.
Proof. intros Hm. rewrite (due_later at_ m Hm) at 4. rewrite !length_app, length_fmap, length_take, length_drop. lia. Qed.

Lemma due_entry at_ m (k : TimerKey) (wk : Waker) slots : (k, wk) ∈ m -> tick k <= at_ -> (0 < slots)%nat -> (take slots (due at_ m)).*2 <> [].
Proof.
  intros Hin Hle Hs. assert (Hd : (k, wk) ∈ due at_ m) by by apply list_elem_of_filter. destruct (due at_ m) as [|x l]; [by apply not_elem_of_nil in Hd|]. by destruct slots; [lia|].
Qed.

(** Reads the distance of an updated world. *)
Ltac distances := cbn [set_driver set_storage Timers.set_timers driver hand time storage timers wakers stage length W_of] in *; unfold W_of in *;
  cbn [set_driver set_storage Timers.set_timers driver hand time storage timers wakers stage length] in *; rewrite ?Z.eqb_refl.

Lemma wake_progress n w i k wk wk0 h c : inv n w -> sleeps i k wk w -> ~ someone_wakes (futs w) -> driver w = DWaking (wk0 :: h) c ->
  let w' := set_driver (DWaking h c) (wake_task wk0 w) in
  inv (n + 1) w' /\ (is_woken i k wk w' \/ (sleeps i k wk w' /\ ~ someone_wakes (futs w') /\ (distance w' < distance w)%nat)).
Proof.
  intros Hinv (f & Hi & Hp & Ht & Hf) Hno Hd. cbn zeta. split; [by apply inv_wake_task|]. assert (Hlook : (wake_fut wk0 <$> futs w) !! i = Some (wake_fut wk0 f)) by by rewrite list_lookup_fmap, Hi.
  assert (Hww : waits_with f = Some wk) by (unfold waits_with; by rewrite Hp). destruct (decide (wk0 = wk)) as [->|Hne].
  - left. exists (wake_fut wk f). unfold wake_fut in *. rewrite bool_decide_true in * by done. done.
  - right. split_and!.
    + exists (wake_fut wk0 f). unfold wake_fut in *. rewrite bool_decide_false in * by congruence. done.
    + intros (j & g & wk' & (g' & Hj & ->)%wake_lookup & Hg). destruct (wake_fut_same wk0 g') as (_ & _ & Hgp & _). apply Hno. exists j, g', wk'. split; congruence.
    + assert (Hw : distance w = (10 * (length (W_of w) + S (length h)) + 2)%nat) by (unfold distance; by rewrite Hd).
      change (10 * (length (W_of w) + length h) + stage (DWaking h c) (time w) < distance w)%nat. pose proof (stage_le (DWaking h c) (time w)). lia.
Qed.

(** The driver is never stuck while a due timer sleeps, and every step brings it nearer. *)
Lemma driver_progress n w i k wk : inv n w -> sleeps i k wk w -> tick k <= time w -> ~ someone_wakes (futs w) ->
  exists w', driver_step w = Ok w' /\ inv (n + 1) w' /\ time w' = time w
    /\ (is_woken i k wk w' \/ (sleeps i k wk w' /\ ~ someone_wakes (futs w') /\ (distance w' < distance w)%nat)).
Proof.
  intros Hinv Hsl Hdue Hno. destruct (sleeps_live n w i k wk Hinv Hsl) as [Hpos Hg]. pose proof (ro_sorted _ _ _ _ (iv_reg _ _ Hinv)) as Hs. pose proof (iv_read _ _ Hinv) as Hread.
  assert (Hgo : forall w', driver_step w = Ok w' -> time w' = time w -> futs w' = futs w -> (distance w' < distance w)%nat ->
    exists w', driver_step w = Ok w' /\ inv (n + 1) w' /\ time w' = time w /\ (is_woken i k wk w' \/ (sleeps i k wk w' /\ ~ someone_wakes (futs w') /\ (distance w' < distance w)%nat))).
  { intros w' Hstep Htime Hfuts Hdist. exists w'. destruct (inv_driver_step n w Hinv) as [?|(w1 & Heq & Hinv')]; [congruence|]. assert (w1 = w') as -> by congruence.
    split_and!; try done. right. unfold sleeps. rewrite Hfuts. done. }
  assert (Hlen : forall at_ slots, driver w = DFirst at_ \/ driver w = DLoop at_ -> (length (drop slots (due at_ (W_of w)) ++ later at_ (W_of w)) + length ((take slots (due at_ (W_of w))).*2) = length (W_of w))%nat) by (intros; by apply pop_length).
  unfold distance in *. unfold driver_step in *. destruct (driver w) as [|at_|at_|[|wk0 h] [next|at_]|[next|]|next|] eqn:Hd; cbn [hand read_at] in *; try done.
  - eapply Hgo; [done|done|done|]. distances. lia.
  - rewrite pop_ready_spec in * by done. fold (W_of w) in *. specialize (Hlen at_ 1%nat (or_introl eq_refl)). destruct ((take 1 (due at_ (W_of w))).*2) as [|wk0 h] eqn:Hready.
    + eapply Hgo; [done|done|done|]. assert (Hat : at_ <> time w).
      { intros ->. eapply (due_entry (time w) (W_of w) k wk 1); [|done|lia|done]. eapply (sleeps_entry n); [done|done|by rewrite Hd]. }
      distances. rewrite (proj2 (Z.eqb_neq _ _) Hat). lia.
    + eapply Hgo; [done|done|done|]. distances. repeat case_match; lia.
  - rewrite pop_ready_spec in * by done. fold (W_of w) in *. specialize (Hlen at_ READY_BATCH_SIZE (or_intror eq_refl)). destruct ((take READY_BATCH_SIZE (due at_ (W_of w))).*2) as [|wk0 h] eqn:Hready.
    + eapply Hgo; [done|done|done|]. assert (Hat : at_ <> time w).
      { intros ->. eapply (due_entry (time w) (W_of w) k wk READY_BATCH_SIZE); [|done|unfold READY_BATCH_SIZE; lia|done]. eapply (sleeps_entry n); [done|done|by rewrite Hd]. }
      distances. rewrite (proj2 (Z.eqb_neq _ _) Hat). change (0 <? READY_BATCH_SIZE)%nat with true. cbn [orb]. lia.
    + eapply Hgo; [done|done|done|]. distances. repeat case_match; lia.
  - eapply Hgo; [done|done|done|]. distances. lia.
  - eapply Hgo; [done|done|done|]. distances. repeat case_match; lia.
  - eexists. destruct (wake_progress n w i k wk wk0 h (Return next) Hinv Hsl Hno Hd) as [Hinv' Hres]. split_and!; [done|done|done|]. unfold distance in Hres. by rewrite Hd in Hres.
  - eexists. destruct (wake_progress n w i k wk wk0 h (Again at_) Hinv Hsl Hno Hd) as [Hinv' Hres]. split_and!; [done|done|done|]. unfold distance in Hres. by rewrite Hd in Hres.
  - eapply Hgo; [done|done|done|]. distances. lia.
  - unfold has_no_clock_owners in *. rewrite (proj2 (Z.eqb_neq _ 0)) in * by lia. eapply Hgo; [done|done|done|]. distances. lia.
  - destruct (notified w) eqn:Hn; [eapply Hgo; [done|done|done|]; distances; lia|].
    destruct (iv_view _ _ Hinv next) as [?|[?|Hne]]; [by rewrite Hd|congruence|done|].
    destruct (Hne (k, wk)) as (d & -> & Hle); [eapply (sleeps_entry n); [done|done|by rewrite Hd]|]. cbn in Hle. rewrite (proj2 (Z.leb_le _ _)) in * by lia.
    eapply Hgo; [done|done|done|]. distances. lia.
Qed.

Lemma driver_reaches m : forall n w i k wk, (distance w <= m)%nat -> inv n w -> sleeps i k wk w -> tick k <= time w -> ~ someone_wakes (futs w) ->
  exists r n' w', (r <= S m)%nat /\ world_run (replicate r EDriver) w = Ok w' /\ inv n' w' /\ time w' = time w /\ is_woken i k wk w'.
Proof.
  induction m as [|m IH]; intros n w i k wk Hm Hinv Hsl Hdue Hno; destruct (driver_progress n w i k wk Hinv Hsl Hdue Hno) as (w1 & Hstep & Hinv1 & Ht & [Hw|(Hsl1 & Hno1 & Hlt)]).
  1,3: exists 1%nat, (n + 1), w1; split_and!; [lia|cbn; by rewrite Hstep|done..].
  - lia.
  - destruct (IH (n + 1) w1 i k wk) as (r & n' & w' & Hr & Hrun & Hinv' & Ht' & Hw'); [lia|done|done|lia|done|]. exists (S r), n', w'.
    split_and!; [lia|cbn [replicate world_run world_step]; by rewrite Hstep|done|congruence|done].
Qed.

Definition is_waking (f : Fut) : bool := match f_pc f with PWaking _ => true | _ => false end.

Definition waking_count (fs : list Fut) : nat := length (filter (fun f => is_waking f = true) fs).

Lemma waking_some fs : (0 < waking_count fs)%nat -> exists i f wk, fs !! i = Some f /\ f_pc f = PWaking wk.
Proof.
  unfold waking_count. intros Hc. destruct (filter _ fs) as [|f l] eqn:Hf; [cbn in Hc; lia|]. assert (Hin : f ∈ filter (fun f => is_waking f = true) fs) by (rewrite Hf; by left).
  apply list_elem_of_filter in Hin as [Hw Hin]. apply list_elem_of_lookup in Hin as [i Hi]. unfold is_waking in Hw. destruct (f_pc f) as [| |wk| | | | | |] eqn:Hp; try done. by exists i, f, wk.
Qed.

Lemma waking_none fs : waking_count fs = 0%nat -> ~ someone_wakes fs.
Proof.
  intros Hc (i & f & wk & Hi & Hp). unfold waking_count in Hc. assert (Hin : f ∈ filter (fun f => is_waking f = true) fs).
  { apply list_elem_of_filter. split; [unfold is_waking; by rewrite Hp|by eapply list_elem_of_lookup_2]. }
  destruct (filter _ fs); [by apply not_elem_of_nil in Hin|done].
Qed.

Lemma waking_less fs i f f' : fs !! i = Some f -> is_waking f = true -> is_waking f' = false -> S (waking_count (<[i := f']> fs)) = waking_count fs.
Proof.
  intros Hi Hf Hf'. unfold waking_count. rewrite insert_take_drop by by eapply lookup_lt_Some. rewrite <- (take_drop_middle fs i f Hi) at 3.
  rewrite !filter_app, !length_app, !filter_cons, Hf, Hf'. repeat case_decide; cbn [length]; try done; lia.
Qed.

(** A thread in the middle of a registration. *)
Definition registering (w : World) (e : Event) : Prop := exists j g wk, futs w !! j = Some g /\ f_pc g = PWaking wk /\ e = EAct j.

(** The threads that are about to wake the drivers do so. *)
Lemma flush m : forall n w i k wk, waking_count (futs w) = m -> inv n w -> sleeps i k wk w ->
  exists es n' w', length es = m /\ Forall (registering w) es /\ world_run es w = Ok w' /\ inv n' w' /\ sleeps i k wk w' /\ time w' = time w /\ ~ someone_wakes (futs w') /\ distance w' = distance w.
Proof.
  induction m as [|m IH]; intros n w i k wk Hm Hinv Hsl; [exists [], n, w; split_and!; try done; by apply waking_none|].
  destruct (waking_some (futs w)) as (j & g & wk' & Hj & Hg); [lia|]. destruct (inv_wake n w j g wk' Hinv Hj Hg) as [Herr|(w1 & Hact & Hinv1)]; [unfold act in Herr; by rewrite Hg in Herr|].
  assert (Hw1 : w1 = set_fut j (set_pc (PPending wk') g) (notify_drivers w)) by (unfold act in Hact; rewrite Hg in Hact; congruence).
  assert (Hfuts : futs w1 = <[j := set_pc (PPending wk') g]> (futs w)) by by rewrite Hw1.
  destruct (IH (n + 1) w1 i k wk) as (es & n' & w' & Hlen & Hes & Hrun & Hinv' & Hsl' & Ht & Hno & Hdist).
  - rewrite Hfuts. pose proof (waking_less (futs w) j g (set_pc (PPending wk') g) Hj) as Hless. rewrite <- Nat.succ_inj_wd, <- Hm, Hless; [done|unfold is_waking; by rewrite Hg|done].
  - done.
  - destruct Hsl as (f & Hi & Hp & Hrest). exists f. rewrite Hfuts. split; [|done]. apply lookup_set_other; [|done]. intros ->. congruence.
  - exists (EAct j :: es), n', w'. split_and!; [cbn; by rewrite Hlen| |cbn [world_run world_step]; by rewrite Hj, Hact|done|done|by rewrite Ht, Hw1|done|by rewrite Hdist, Hw1].
    constructor; [by exists j, g, wk'|]. eapply Forall_impl; [exact Hes|]. intros e (a & b & wk2 & Ha & Hb & ->). exists a, b, wk2. split_and!; [|done|done].
    rewrite Hfuts in Ha. apply (lookup_set (futs w) j a _ b g Hj) in Ha as [[_ ->]|[_ ?]]; [done|done].
Qed.

Lemma world_run_app es1 : forall es2 w w1, world_run es1 w = Ok w1 -> world_run (es1 ++ es2) w = world_run es2 w1.
Proof. induction es1 as [|e es1 IH]; intros es2 w w1; cbn; [by intros [= ->]|]. destruct (world_step e w); [|done..]. apply IH. Qed.

Lemma reachable_inv now es w : 0 <= now <= instant_max -> growth es (new_tokio now) < u32_max -> world_run es (new_tokio now) = Ok w -> inv (growth es (new_tokio now)) w.
Proof.
  intros Hnow Hlen Hrun. destruct (inv_run es 0 (new_tokio now) (inv_new now Hnow) Hlen) as [?|(w' & Heq & Hinv)]; [congruence|]. assert (w' = w) as -> by congruence. exact Hinv.
Qed.

(** Polling a woken future whose deadline has passed completes it. *)
Lemma poll_completes n w i k wk wk2 : inv n w -> is_woken i k wk w -> tick k <= time w ->
  exists w' f', world_run [EPoll i wk2; EAct i] w = Ok w' /\ futs w' !! i = Some f' /\ f_pc f' = PReady.
Proof.
  intros Hinv (f & Hi & Hp & Ht & Hw) Hdue. assert (Hpoll : start_poll (time w) wk2 f = mkFut (f_kind f) (f_duration f) None (PUnregistering k) false).
  { destruct (ro_futs _ _ _ _ (iv_reg _ _ Hinv) i f Hi) as [_ Hd]. unfold start_poll. rewrite Ht, (proj2 (Z.leb_le _ _) Hdue). destruct (f_kind f); [done|].
    rewrite (proj2 (Z.eqb_neq _ _)); [done|]. apply Hd. left. by exists k. }
  cbn [world_run world_step]. rewrite Hi, Hp, Hpoll. cbn [world_run world_step set_fut futs]. rewrite (lookup_set_self _ _ _ f) by done. unfold act, timers_unregister. cbn [f_pc world_run]. eexists _, _. split; [reflexivity|].
  split; [cbn [set_fut set_storage futs]; eapply lookup_set_self; eapply lookup_set_self; exact Hi|reflexivity].
Qed.

(** ** Shutting down *)

#[export] Instance next_eq_dec : EqDecision Next.
Proof. solve_decision. Defined.
#[export] Instance driver_eq_dec : EqDecision Driver.
Proof. solve_decision. Defined.

(** The steps a driver without clocks and timers is away from its end. *)
Definition stop_stage (d : Driver) : nat :=
  match d with
  | DWaking _ (Again _) => 9
  | DLoop _ => 8
  | DWaking _ (Return (Some _)) => 7
  | DCheck (Some _) => 6
  | DWait _ => 5
  | DStart => 4
  | DFirst _ | DWaking _ (Return None) => 3
  | DCheck None => 2
  | DGone => 0
  end.

Lemma no_owner_no_timer n w : inv n w -> clock_owners (storage w) = 0 -> W_of w = [].
Proof.
  intros Hinv Hz. destruct (W_of w) as [|[k wk] W] eqn:HW; [done|]. exfalso. assert (0 < clock_owners (storage w)); [|lia].
  eapply (registered_live n w k Hinv). exists wk. rewrite HW. by left.
Qed.

Lemma stop_step n w : inv n w -> clock_owners (storage w) = 0 -> closing w = 0%nat -> driver w <> DGone ->
  exists w', driver_step w = Ok w' /\ inv (n + 1) w' /\ clock_owners (storage w') = 0 /\ closing w' = 0%nat
    /\ (length (hand (driver w')) + stop_stage (driver w') < length (hand (driver w)) + stop_stage (driver w))%nat.
Proof.
  intros Hinv Hz Hc Hg. pose proof (no_owner_no_timer n w Hinv Hz) as HW. unfold W_of in HW.
  assert (Hgo : forall w', driver_step w = Ok w' -> clock_owners (storage w') = 0 -> closing w' = 0%nat -> (length (hand (driver w')) + stop_stage (driver w') < length (hand (driver w)) + stop_stage (driver w))%nat ->
    exists w', driver_step w = Ok w' /\ inv (n + 1) w' /\ clock_owners (storage w') = 0 /\ closing w' = 0%nat /\ (length (hand (driver w')) + stop_stage (driver w') < length (hand (driver w)) + stop_stage (driver w))%nat).
  { intros w' Hstep H1 H2 H3. exists w'. destruct (inv_driver_step n w Hinv) as [?|(w1 & Heq & Hinv')]; [congruence|]. assert (w1 = w') as -> by congruence. done. }
  destruct (iv_owners _ _ Hinv) as [_ _ O3 _]. unfold driver_step in *. unfold pop_ready_into in *. rewrite HW in *. cbn [pop_loop] in *.
  destruct (driver w) as [|at_|at_|[|wk0 h] [[next|]|at_]|[next|]|next|] eqn:Hd; try done.
  11: { unfold has_no_clock_owners in *. rewrite Hz in *. cbn [Z.eqb] in *. eapply Hgo; [done| |done|cbn; lia]. cbn. destruct (unregister_same (storage w) 0) as [_ ->]. done. }
  11: { destruct (O3 ltac:(exists next; by left)) as [?|[Hn|?]]; [lia| |lia]. rewrite Hn in *. eapply Hgo; [done|done|done|cbn; lia]. }
  all: eapply Hgo; [done|done|done|cbn; lia].
Qed.

Lemma stop_run m : forall n w, (length (hand (driver w)) + stop_stage (driver w) <= m)%nat -> inv n w -> clock_owners (storage w) = 0 -> closing w = 0%nat ->
  exists r w', (r <= m)%nat /\ world_run (replicate r EDriver) w = Ok w' /\ driver w' = DGone.
Proof.
  induction m as [|m IH]; intros n w Hm Hinv Hz Hc; (destruct (decide (driver w = DGone)) as [Hg|Hg]; [exists 0%nat, w; split_and!; [lia|done|done]|]);
    destruct (stop_step n w Hinv Hz Hc Hg) as (w1 & Hs & Hinv1 & Hz1 & Hc1 & Hlt); [lia|].
  destruct (IH (n + 1) w1) as (r & w' & Hr & Hrun & Hg'); [lia|done|done|done|]. exists (S r), w'. split_and!; [lia|cbn [replicate world_run world_step]; by rewrite Hs|done].
Qed.

Lemma close_all c : forall n w, closing w = c -> inv n w -> exists n' w', world_run (replicate c EClose) w = Ok w' /\ inv n' w' /\ closing w' = 0%nat
  /\ storage w' = storage w /\ driver w' = driver w.
Proof.
  induction c as [|c IH]; intros n w Hc Hinv; [by exists n, w|]. cbn [replicate world_run world_step]. rewrite Hc. pose proof (inv_close n w c Hinv Hc) as Hinv1.
  destruct (fun Hx => IH (n + 1) _ Hx Hinv1) as (n' & w' & Hrun & Hinv' & Hc' & Hs & Hd); [done|]. exists n', w'. split_and!; done.
Qed.

(** ** Theorems *)

(** C26. In every interleaving of tasks, clocks and the driver, of any length, in which fewer than 2^32 - 1
    registrations of timers and creations of futures and clocks happen (keys repeat beyond that): nothing
    panics; a future that waits has its current waker in the timer set, or in the hands of the
    driver, or was woken since it was polled (no wake-up is lost); a future completes only at or after
    its deadline; every timer belongs to a future that has not completed (none leaks); and
    the driver ends only when no clock, no future and no timer is left. *)
Theorem wakeups_are_never_lost now es : 0 <= now <= instant_max -> growth es (new_tokio now) < u32_max ->
  world_run es (new_tokio now) <> Panic
  /\ forall w, world_run es (new_tokio now) = Ok w ->
     (forall i f wk k, futs w !! i = Some f -> f_pc f = PPending wk -> f_timer f = Some k -> f_woken f = true \/ (k, wk) ∈ W_of w \/ wk ∈ hand (driver w))
     /\ (forall i f w' f', futs w !! i = Some f -> world_step (EAct i) w = Ok w' -> futs w' !! i = Some f' -> f_pc f' = PReady -> exists k, f_key f = Some k /\ tick k <= time w)
     /\ (forall x, x ∈ W_of w -> exists i f, futs w !! i = Some f /\ f_key f = Some x.1)
     /\ (driver w = DGone -> clocks w = 0%nat /\ W_of w = [] /\ forall i f, futs w !! i = Some f -> f_pc f = PGone).
Proof.
  intros Hnow Hlen. split; [destruct (inv_run es 0 (new_tokio now) (inv_new now Hnow)) as [?|(w & ? & _)]; [lia|congruence..]|]. intros w Hrun.
  pose proof (reachable_inv now es w Hnow ltac:(lia) Hrun) as Hinv. pose proof Hinv as [I1 _ _ _ _ I6 _ [O1 _ _ O4]]. split_and!.
  - intros i f wk k Hi Hp Ht. eapply I6; [done| |done]. unfold waits_with. by rewrite Hp.
  - intros i f w' f' Hi Hact Hi' Hp'. cbn [world_step] in Hact. rewrite Hi in Hact. unfold f_key, act in *. destruct (f_pc f) as [|when wk|wk|key wk|key|wk| | |] eqn:Hp; try done.
    + destruct (register_timer _ _ _) as [[s k] e]. injection Hact as <-. cbn in Hi'. rewrite (lookup_set_self _ _ _ f) in Hi' by done. injection Hi' as <-. cbn in Hp'. by destruct e.
    + injection Hact as <-. cbn in Hi'. rewrite (lookup_set_self _ _ _ f) in Hi' by done. injection Hi' as <-. done.
    + destruct (ro_futs _ _ _ _ I1 i f Hi) as [Hpc _]. rewrite Hp in Hpc. exists key. split; [done|]. unfold update_waker in Hact. fold (W_of w) in Hact. destruct (btree_get key (W_of w)) as [cur|] eqn:Hget.
      * exfalso. destruct (will_wake cur wk); injection Hact as <-; cbn in Hi'; rewrite (lookup_set_self _ _ _ f) in Hi' by done; injection Hi' as <-; done.
      * apply get_None in Hget. destruct (ro_early _ _ _ _ I1 i f key Hi Hpc) as [[wk' Hk]|]; [|done]. destruct Hget. by apply (list_elem_of_fmap_2 fst _ (key, wk')).
    + exists key. split; [done|]. by eapply (ro_past _ _ _ _ I1).
    + destruct (remove_clock_owner (storage w)) as [[s last]|e|]; try done. injection Hact as <-. cbn in Hi'. rewrite (lookup_set_self _ _ _ f) in Hi' by done. injection Hi' as <-. done.
  - intros [k wk] Hx. apply (ro_owned _ _ _ _ I1). by exists wk.
  - intros Hg. specialize (O4 Hg). assert (live_count (futs w) = 0%nat) by lia. split_and!; [lia|by eapply no_owner_no_timer|]. intros i f Hi. destruct (live f) eqn:Hl; [|unfold live in Hl; by destruct (f_pc f)].
    destruct (owner_live _ w i f Hinv Hi Hl). lia.
Qed.

(** C25. No timer is forgotten: in every state that is reached with fewer than 2^32 - 1 registrations of timers and
    creations of futures and clocks (keys repeat beyond that), a future whose deadline has passed is woken by
    the driver alone, once the threads that are in the middle of a registration have finished it, and
    after a bounded number of steps, whatever the driver was doing and whether or not it slept;
    polled again, the future completes. *)
Theorem due_timer_is_woken now es w i f wk k : 0 <= now <= instant_max -> growth es (new_tokio now) < u32_max -> world_run es (new_tokio now) = Ok w ->
  futs w !! i = Some f -> f_pc f = PPending wk -> f_timer f = Some k -> tick k <= time w ->
  exists es1 r w', Forall (registering w) es1 /\ (length es1 <= length (futs w))%nat /\ (r <= 10 * (length (W_of w) + length (hand (driver w))) + 10)%nat
    /\ world_run (es1 ++ replicate r EDriver) w = Ok w' /\ (exists f', futs w' !! i = Some f' /\ f_pc f' = PPending wk /\ f_timer f' = Some k /\ f_woken f' = true)
    /\ forall wk2, exists w2 f2, world_run [EPoll i wk2; EAct i] w' = Ok w2 /\ futs w2 !! i = Some f2 /\ f_pc f2 = PReady.
Proof.
  intros Hnow Hlen Hrun Hi Hp Ht Hdue. pose proof (reachable_inv now es w Hnow Hlen Hrun) as Hinv. destruct (f_woken f) eqn:Hw.
  - exists [], 0%nat, w. split_and!; [constructor|cbn; lia|lia|done|by exists f|]. intros wk2. eapply poll_completes; [done|by exists f|done].
  - destruct (flush (waking_count (futs w)) _ w i k wk eq_refl Hinv) as (es1 & n1 & w1 & Hl1 & Hes1 & Hrun1 & Hinv1 & Hsl1 & Ht1 & Hno1 & Hd1); [by exists f|].
    destruct (driver_reaches (distance w1) n1 w1 i k wk) as (r & n2 & w2 & Hr & Hrun2 & Hinv2 & Ht2 & Hw2); [done|done|done|lia|done|]. exists es1, r, w2. split_and!; [done| | |..].
    + rewrite Hl1. unfold waking_count. apply length_filter.
    + rewrite Hd1 in Hr. unfold distance in Hr. pose proof (stage_le (driver w) (time w)). lia.
    + by rewrite (world_run_app es1 _ _ w1).
    + done.
    + intros wk2. eapply poll_completes; [done|done|lia].
Qed.

(** A driver whose clocks are all gone always comes to its end: from every reachable state without
    clocks, the threads that dropped the last one and the driver alone lead to it, in a bounded
    number of steps, even when the driver sleeps without a deadline. *)
Theorem driver_stops now es w : 0 <= now <= instant_max -> growth es (new_tokio now) < u32_max -> world_run es (new_tokio now) = Ok w ->
  clocks w = 0%nat -> (forall i f, futs w !! i = Some f -> f_pc f = PGone) ->
  exists r w', (r <= length (hand (driver w)) + 9)%nat /\ world_run (replicate (closing w) EClose ++ replicate r EDriver) w = Ok w' /\ driver w' = DGone.
Proof.
  intros Hnow Hlen Hrun Hc Hgone. pose proof (reachable_inv now es w Hnow Hlen Hrun) as Hinv. assert (Hz : clock_owners (storage w) = 0).
  { rewrite (oo_count _ (iv_owners _ _ Hinv)), Hc. unfold live_count. rewrite (filter_none _ (futs w)); [done|]. apply Forall_forall. intros f [i Hi]%list_elem_of_lookup.
    unfold live. by rewrite (Hgone i f Hi). }
  destruct (close_all (closing w) _ w eq_refl Hinv) as (n1 & w1 & Hrun1 & Hinv1 & Hc1 & Hs1 & Hd1).
  destruct (stop_run (length (hand (driver w1)) + stop_stage (driver w1)) n1 w1) as (r & w' & Hr & Hrun' & Hg); [done|done|congruence|done|].
  exists r, w'. split_and!; [|by rewrite (world_run_app _ _ _ w1)|done]. rewrite Hd1 in Hr. assert (stop_stage (driver w) <= 9)%nat; [|lia].
  destruct (driver w) as [| | |? [[]|]|[]|[]|]; cbn; lia.
Qed.

(** ** Concrete runs *)

(** A delay of five nanoseconds whose driver sleeps when it is registered, and time passes. *)
Definition delay_run : list Event :=
  [EDriver; EDriver; EDriver; ECreate KDelay 5; EPoll 0 7; EAct 0; ETime 6].

Lemma due_timer_is_woken_witness : exists w f, world_run delay_run (new_tokio 100) = Ok w /\ futs w !! 0%nat = Some f /\ f_pc f = PWaking 7
  /\ exists w1 f1, world_run (delay_run ++ [EAct 0]) (new_tokio 100) = Ok w1 /\ futs w1 !! 0%nat = Some f1
  /\ exists es1 r w', Forall (registering w1) es1 /\ (length es1 <= 1)%nat /\ world_run (es1 ++ replicate r EDriver) w1 = Ok w' /\ exists f', futs w' !! 0%nat = Some f' /\ f_woken f' = true.
Proof.
  let r := eval vm_compute in (world_run delay_run (new_tokio 100)) in match r with Ok ?w => exists w end.
  eexists. split; [vm_compute; reflexivity|]. split; [reflexivity|]. split; [reflexivity|].
  let r := eval vm_compute in (world_run (delay_run ++ [EAct 0]) (new_tokio 100)) in match r with Ok ?w =>
    exists w; eexists; split; [vm_compute; reflexivity|]; split; [reflexivity|];
    destruct (due_timer_is_woken 100 (delay_run ++ [EAct 0]) w 0 (mkFut KDelay 5 (Some (105, 1)) (PPending 7) false) 7 (105, 1)) as (es1 & n & w' & H1 & H2 & H3 & H4 & (f' & H5 & H6 & H7 & H8) & _) end.
  - unfold instant_max, NANOS_PER_SEC. lia.
  - vm_compute. reflexivity.
  - vm_compute. reflexivity.
  - reflexivity.
  - reflexivity.
  - reflexivity.
  - vm_compute. discriminate.
  - exists es1, n, w'. split; [exact H1|]. split; [exact H2|]. split; [exact H4|]. exists f'. split; [exact H5|exact H8].
Defined.

Lemma wakeups_are_never_lost_witness : world_run delay_run (new_tokio 100) <> Panic.
Proof. apply (wakeups_are_never_lost 100 delay_run); [unfold instant_max, NANOS_PER_SEC; lia|vm_compute; reflexivity]. Defined.

(** The last clock goes while the driver sleeps. *)
Definition stop_events : list Event := [EDriver; EDriver; EDriver; EDropClock].

Lemma driver_stops_witness : exists w r w', world_run stop_events (new_tokio 100) = Ok w /\ closing w = 1%nat
  /\ world_run (replicate 1 EClose ++ replicate r EDriver) w = Ok w' /\ driver w' = DGone.
Proof.
  let r := eval vm_compute in (world_run stop_events (new_tokio 100)) in match r with Ok ?w => exists w; destruct (driver_stops 100 stop_events w) as (n & w' & H1 & H2 & H3) end.
  - unfold instant_max, NANOS_PER_SEC. lia.
  - vm_compute. reflexivity.
  - vm_compute. reflexivity.
  - reflexivity.
  - intros i f Hi. cbn in Hi. by rewrite lookup_nil in Hi.
  - exists n, w'. split; [vm_compute; reflexivity|]. split; [reflexivity|]. split; [exact H2|exact H3].
Defined.
