(* ===== verification/Uniflight.v ===== *)
(** * [uniflight]: coalescing of concurrent calls

    [src/crates/uniflight/src/lib.rs].  A [Merger] keeps a concurrent map from keys to weak
    references of once-cells.  A call of [execute] takes a strong reference to the live cell of
    its key or installs a new cell, races to initialize it with its own future, clones the
    stored result, gives the reference back and removes a dead entry.

    Any number of calls, on any threads, run as one machine whose steps are the atomic sections
    of the code: a map operation under its shard lock, one operation on a reference count, one
    operation on a once-cell.  The map ([dashmap]) is any finite map, the once-cell
    ([async_once_cell]) any implementation of its documented contract [OnceCellLaws]. *)
From S2P Require Import Prelude.
From stdpp Require Import fin_maps.

(** ** Panics and their messages *)
Inductive Payload : Type := PStaticStr (s : bytes) | PString (s : bytes) | PAny.

Record LeaderPanicked : Type := mkLeaderPanicked { message : bytes }.

Definition extract_panic_message (payload : Payload) : bytes :=
  match payload with PStaticStr s => s | PString s => s | PAny => str "unknown panic" end.

Section uniflight.
Context {T : Type}.

Inductive Output : Type := Value (v : T) | LeaderErr (e : LeaderPanicked).

(** What polling the user's future can give, and what [catch_unwind] and [map_err] make of it. *)
Inductive FutPoll : Type := FPending | FReady (v : T) | FPanic (payload : Payload).

Definition caught (p : FutPoll) : option Output :=
  match p with
  | FPending => None
  | FReady v => Some (Value v)
  | FPanic payload => Some (LeaderErr (mkLeaderPanicked (extract_panic_message payload)))
  end.

(** ** The contract of the once-cell

    [oc_poll i] polls the [get_or_init] future of caller [i]: the stored value, the turn of [i]'s
    own initializer, or pending.  [oc_complete] ends the initializer of its caller with a value
    and [oc_drop] is the drop of a caller's [get_or_init] future. *)
Inductive CellPoll : Type := CReady (r : Output) | CInit | CPending.

Class OnceCell : Type := {
  oc : Type;
  oc_new : oc;
  oc_poll : nat -> oc -> oc * CellPoll;
  oc_complete : nat -> Output -> oc -> oc;
  oc_drop : nat -> oc -> oc;
  oc_value : oc -> option Output;
  oc_running : oc -> option nat }.

Class OnceCellLaws `{OnceCell} : Prop := {
  oc_new_empty : oc_value oc_new = None /\ oc_running oc_new = None;
  oc_poll_ready i c r : oc_value c = Some r -> oc_poll i c = (c, CReady r);
  oc_poll_turn i c : oc_value c = None -> oc_running c = None ->
    (oc_poll i c).2 = CInit /\ oc_value (oc_poll i c).1 = None /\ oc_running (oc_poll i c).1 = Some i;
  oc_poll_wait i j c : oc_value c = None -> oc_running c = Some j -> i <> j ->
    (oc_poll i c).2 = CPending /\ oc_value (oc_poll i c).1 = None /\ oc_running (oc_poll i c).1 = Some j;
  oc_complete_stores i r c : oc_value c = None -> oc_running c = Some i ->
    oc_value (oc_complete i r c) = Some r /\ oc_running (oc_complete i r c) = None;
  oc_drop_releases i c : oc_value (oc_drop i c) = oc_value c
    /\ oc_running (oc_drop i c) = if decide (oc_running c = Some i) then None else oc_running c }.

Context {K : Type} {M : Type -> Type} `{FinMap K M} `{OnceCell}.

(** ** The merger and its calls

    An [Arc] is the number of its cell; a cell is live while it has strong references. *)
Record Cell : Type := mkCell { strong : nat; once : oc }.

(** Where a call stands: inside [get_or_create_cell], as a future that was not polled, was polled
    and waits, runs its initializer, holds the result, or is being dropped; after it gave its
    reference back.  The last two keep the cell they used for the statements only. *)
Inductive Pc : Type :=
| CEnter | CSlow
| CCreated (c : nat) | CWaiting (c : nat) | CLeader (c : nat) | CGot (c : nat) (r : Output) | CDropping (c : nat)
| CCleanup (c : nat) (r : Output) | CDone (c : nat) (r : Output) | CDropped.

Record Call : Type := mkCall { c_key : K; c_pc : Pc }.

Record World : Type := mkWorld { entries : M nat; cells : list Cell; calls : list Call }.

Definition merger_new : World := mkWorld ∅ [] [].

Definition step_result : Type := outcome unit World.

Definition set_pc (i : nat) (cl : Call) (pc : Pc) (w : World) : World :=
  mkWorld (entries w) (cells w) (<[i := mkCall (c_key cl) pc]> (calls w)).

(** [Weak::upgrade]. *)
Definition upgrade (c : nat) (w : World) : option World :=
  match cells w !! c with
  | Some (mkCell (S n) o) => Some (mkWorld (entries w) (<[c := mkCell (S (S n)) o]> (cells w)) (calls w))
  | _ => None
  end.

(** The drop of an [Arc]. *)
Definition drop_arc (c : nat) (w : World) : step_result :=
  match cells w !! c with
  | Some (mkCell (S n) o) => Ok (mkWorld (entries w) (<[c := mkCell n o]> (cells w)) (calls w))
  | _ => Panic
  end.

Definition set_once (c : nat) (x : Cell) (o : oc) (w : World) : World :=
  mkWorld (entries w) (<[c := mkCell (strong x) o]> (cells w)) (calls w).

(** The fast path of [get_or_create_cell]. *)
Definition get_existing (k : K) (w : World) : option (World * nat) :=
  match entries w !! k with
  | Some c => match upgrade c w with Some w => Some (w, c) | None => None end
  | None => None
  end.

Definition insert_or_get_existing (k : K) (w : World) : step_result * nat :=
  let cell := length (cells w) in
  let w := mkWorld (entries w) (cells w ++ [mkCell 1 oc_new]) (calls w) in
  match entries w !! k with
  | Some weak =>
      match upgrade weak w with
      | Some w => (drop_arc cell w, weak)
      | None => (Ok (mkWorld (<[k := cell]> (entries w)) (cells w) (calls w)), cell)
      end
  | None => (Ok (mkWorld (<[k := cell]> (entries w)) (cells w) (calls w)), cell)
  end.

(** [entries.remove_if(key, |_, weak| weak.upgrade().is_none())]. *)
Definition remove_dead (k : K) (w : World) : World :=
  match entries w !! k with
  | Some weak => match upgrade weak w with Some _ => w | None => mkWorld (delete k (entries w)) (cells w) (calls w) end
  | None => w
  end.

(** The next step of a call that does not wait. *)
Definition act (i : nat) (cl : Call) (w : World) : step_result :=
  match c_pc cl with
  | CEnter => match get_existing (c_key cl) w with Some (w, c) => Ok (set_pc i cl (CCreated c) w) | None => Ok (set_pc i cl CSlow w) end
  | CSlow => let '(r, c) := insert_or_get_existing (c_key cl) w in let? w := r in Ok (set_pc i cl (CCreated c) w)
  | CGot c r => let? w := drop_arc c w in Ok (set_pc i cl (CCleanup c r) w)
  | CCleanup c r => Ok (set_pc i cl (CDone c r) (remove_dead (c_key cl) w))
  | CDropping c => let? w := drop_arc c w in Ok (set_pc i cl CDropped w)
  | _ => Err tt
  end.

(** [func()], on the first poll of the returned future; when it panics the future unwinds. *)
Definition first_poll (i : nat) (cl : Call) (panics : bool) (w : World) : step_result :=
  match c_pc cl with
  | CCreated c => Ok (set_pc i cl (if panics then CDropping c else CWaiting c) w)
  | _ => Err tt
  end.

Definition poll (i : nat) (cl : Call) (w : World) : step_result :=
  match c_pc cl with
  | CWaiting c =>
      match cells w !! c with
      | Some x =>
          let '(o, p) := oc_poll i (once x) in
          let w := set_once c x o w in
          Ok match p with CReady r => set_pc i cl (CGot c r) w | CInit => set_pc i cl (CLeader c) w | CPending => w end
      | None => Panic
      end
  | _ => Err tt
  end.

(** The initializer of a leading call is polled. *)
Definition poll_init (i : nat) (cl : Call) (p : FutPoll) (w : World) : step_result :=
  match c_pc cl with
  | CLeader c =>
      match cells w !! c with
      | Some x => match caught p with None => Ok w | Some r => Ok (set_pc i cl (CGot c r) (set_once c x (oc_complete i r (once x)) w)) end
      | None => Panic
      end
  | _ => Err tt
  end.

(** The returned future is dropped: first the [get_or_init] future it may hold. *)
Definition drop_future (i : nat) (cl : Call) (w : World) : step_result :=
  match c_pc cl with
  | CCreated c => Ok (set_pc i cl (CDropping c) w)
  | CWaiting c | CLeader c =>
      match cells w !! c with
      | Some x => Ok (set_pc i cl (CDropping c) (set_once c x (oc_drop i (once x)) w))
      | None => Panic
      end
  | _ => Err tt
  end.

Inductive Event : Type :=
| EExecute (k : K) | EAct (i : nat) | EFirst (i : nat) (panics : bool) | EPoll (i : nat) | EInit (i : nat) (p : FutPoll) | EDrop (i : nat).

Definition with_call (i : nat) (w : World) (f : Call -> step_result) : step_result :=
  match calls w !! i with Some cl => f cl | None => Err tt end.

Definition world_step (e : Event) (w : World) : step_result :=
  match e with
  | EExecute k => Ok (mkWorld (entries w) (cells w) (calls w ++ [mkCall k CEnter]))
  | EAct i => with_call i w (fun cl => act i cl w)
  | EFirst i panics => with_call i w (fun cl => first_poll i cl panics w)
  | EPoll i => with_call i w (fun cl => poll i cl w)
  | EInit i p => with_call i w (fun cl => poll_init i cl p w)
  | EDrop i => with_call i w (fun cl => drop_future i cl w)
  end.

Fixpoint world_run (es : list Event) (w : World) : step_result :=
  match es with
  | [] => Ok w
  | e :: es => let? w := world_step e w in world_run es w
  end.

End uniflight.

(** ** The abstract specification: one flight per key

    A flight is started by the first call of its key and ends when its last member leaves.  One
    member at a time leads; a value ends the leading for good, and a member leaves with the value
    of its flight or, cancelled, without one. *)
Module Flights.
Section flights.
Context {T K : Type} {M : Type -> Type} `{FinMap K M}.

Record Flight : Type := mkFlight { members : nat; value : option (Output (T := T)); leader : option nat }.

Inductive Caller : Type := Outside (k : K) | Member (k : K) | Returned (r : Output (T := T)) | Cancelled.

Record Spec : Type := mkSpec { flights : M Flight; callers : list Caller }.

Inductive Move : Type := AEnter (k : K) | AJoin (i : nat) | ALead (i : nat) | AFinish (i : nat) (r : Output (T := T)) | AYield (i : nat) | AReturn (i : nat) | ACancel (i : nat).

Definition spec_new : Spec := mkSpec ∅ [].

Definition leave (k : K) (f : Flight) (i : nat) (c : Caller) (s : Spec) : Spec :=
  mkSpec (match members f with
          | S (S n) => <[k := mkFlight (S n) (value f) (leader f)]> (flights s)
          | _ => delete k (flights s)
          end) (<[i := c]> (callers s)).

Definition with_member (i : nat) (s : Spec) (f : K -> Flight -> option Spec) : option Spec :=
  match callers s !! i with
  | Some (Member k) => match flights s !! k with Some x => f k x | None => None end
  | _ => None
  end.

Definition spec_step (m : Move) (s : Spec) : option Spec :=
  match m with
  | AEnter k => Some (mkSpec (flights s) (callers s ++ [Outside k]))
  | AJoin i =>
      match callers s !! i with
      | Some (Outside k) =>
          let f := match flights s !! k with Some f => mkFlight (S (members f)) (value f) (leader f) | None => mkFlight 1 None None end in
          Some (mkSpec (<[k := f]> (flights s)) (<[i := Member k]> (callers s)))
      | _ => None
      end
  | ALead i => with_member i s (fun k f =>
      match value f, leader f with
      | None, None => Some (mkSpec (<[k := mkFlight (members f) None (Some i)]> (flights s)) (callers s))
      | _, _ => None
      end)
  | AFinish i r => with_member i s (fun k f =>
      if decide (leader f = Some i) then Some (mkSpec (<[k := mkFlight (members f) (Some r) None]> (flights s)) (callers s)) else None)
  | AYield i => with_member i s (fun k f =>
      if decide (leader f = Some i) then Some (mkSpec (<[k := mkFlight (members f) (value f) None]> (flights s)) (callers s)) else None)
  | AReturn i => with_member i s (fun k f =>
      match value f with Some r => Some (leave k f i (Returned r) s) | None => None end)
  | ACancel i => with_member i s (fun k f => if decide (leader f = Some i) then None else Some (leave k f i Cancelled s))
  end.

Fixpoint spec_run (ms : list Move) (s : Spec) : option Spec :=
  match ms with
  | [] => Some s
  | m :: ms => match spec_step m s with Some s => spec_run ms s | None => None end
  end.

Lemma spec_run_app ms ms' s : spec_run (ms ++ ms') s = s' ← spec_run ms s; spec_run ms' s'.
Proof. revert s. induction ms as [|m ms IH]; intros s; [done|]. cbn. destruct (spec_step m s); [apply IH|done]. Qed.

End flights.
End Flights.
Import Flights.

(** ** The invariant

    The references are judged on what they depend on: the entries, the strong counts, and of each
    call its key, the cell it holds and whether it may have left an entry behind. *)
Section invariant.
Context {T K : Type} {M : Type -> Type} `{FinMap K M} `{!OnceCell (T := T)} `{!OnceCellLaws}.

Definition holds (pc : Pc (T := T)) : option nat :=
  match pc with CCreated c | CWaiting c | CLeader c | CGot c _ | CDropping c => Some c | _ => None end.

(** A call that left its cell and did not check the entry since. *)
Definition unchecked (pc : Pc (T := T)) : bool := match pc with CCleanup _ _ | CDropped => true | _ => false end.

Definition ref_of (cl : Call) : K * option nat * bool := (c_key cl, holds (c_pc cl), unchecked (c_pc cl)).

Definition holders (c : nat) (R : list (K * option nat * bool)) : nat := length (filter (fun x => x.1.2 = Some c) R).

Record refs_ok (E : M nat) (S : list nat) (R : list (K * option nat * bool)) : Prop := {
  refs_held i k c b : R !! i = Some (k, Some c, b) -> E !! k = Some c;
  refs_count c n : S !! c = Some n -> n = holders c R;
  refs_range k c : E !! k = Some c -> (c < length S)%nat;
  refs_inj k1 k2 c : E !! k1 = Some c -> E !! k2 = Some c -> k1 = k2;
  refs_stale k c : E !! k = Some c -> S !! c = Some 0%nat -> exists i h, R !! i = Some (k, h, true) }.

Definition result_of (pc : Pc (T := T)) : option (nat * Output) :=
  match pc with CGot c r | CCleanup c r | CDone c r => Some (c, r) | _ => None end.

Record onces_ok (O : list oc) (cs : list (Call (K := K))) : Prop := {
  onces_running i c o : O !! c = Some o -> oc_running o = Some i -> exists cl, cs !! i = Some cl /\ c_pc cl = CLeader c;
  onces_leader i c cl : cs !! i = Some cl -> c_pc cl = CLeader c -> exists o, O !! c = Some o /\ oc_running o = Some i;
  onces_settled c o r : O !! c = Some o -> oc_value o = Some r -> oc_running o = None;
  onces_result i cl c r : cs !! i = Some cl -> result_of (c_pc cl) = Some (c, r) -> exists o, O !! c = Some o /\ oc_value o = Some r }.

Record inv (w : World (K := K) (M := M)) : Prop := {
  inv_refs : refs_ok (entries w) (strong <$> cells w) (ref_of <$> calls w);
  inv_onces : onces_ok (once <$> cells w) (calls w) }.

Lemma holders_insert c R i x y : R !! i = Some x ->
  (holders c (<[i := y]> R) + (if decide (x.1.2 = Some c) then 1 else 0) = holders c R + (if decide (y.1.2 = Some c) then 1 else 0))%nat.
Proof.
  unfold holders. revert i. induction R as [|z R IH]; intros i Hi; [done|].
  destruct i as [|i]; cbn in Hi; simplify_eq/=.
  - rewrite !filter_cons. repeat case_decide; cbn; lia.
  - specialize (IH _ Hi). rewrite !filter_cons. repeat case_decide; cbn in *; lia.
Qed.

Lemma holders_app c R x : holders c (R ++ [x]) = (holders c R + if decide (x.1.2 = Some c) then 1 else 0)%nat.
Proof. unfold holders. rewrite filter_app, length_app, filter_cons. case_decide; done. Qed.

Lemma holders_pos c R i k b : R !! i = Some (k, Some c, b) -> (0 < holders c R)%nat.
Proof. intros Hi. pose proof (holders_insert c R i _ (k, None, b) Hi) as Hs. cbn in Hs. rewrite decide_True, decide_False in Hs by done. lia. Qed.

(** *** The moves of a reference *)
Section refs.
Context (E : M nat) (S : list nat) (R : list (K * option nat * bool)) (Hok : refs_ok E S R).

Lemma refs_enter k : refs_ok E S (R ++ [(k, None, false)]).
Proof.
  destruct Hok as [A1 A2 A3 A4 A5]. split; [| |done|done|].
  - intros i k' c b Hi. apply lookup_app_Some in Hi as [Hi|[_ Hi]]; [by eapply A1|]. by apply list_lookup_singleton_Some in Hi as [_ ?].
  - intros c n Hc. rewrite holders_app. cbn. case_decide; [done|]. rewrite Nat.add_0_r. by apply A2.
  - intros k' c He Hc. destruct (A5 _ _ He Hc) as (i & h & Hi). exists i, h. by apply lookup_app_l_Some.
Qed.

Lemma refs_dead_cell : refs_ok E (S ++ [0%nat]) R.
Proof.
  destruct Hok as [A1 A2 A3 A4 A5]. split; [done| | |done|].
  - intros c n Hc. apply lookup_app_Some in Hc as [Hc|[Hl Hc]]; [by apply A2|].
    apply list_lookup_singleton_Some in Hc as [Hc <-]. unfold holders.
    destruct (filter _ R) as [|[[k h] b] l] eqn:Ef; [done|]. exfalso.
    assert (Hin : (k, h, b) ∈ filter (fun x => x.1.2 = Some c) R) by (rewrite Ef; left).
    apply list_elem_of_filter in Hin as [Hh Hin]. cbn in Hh. subst h. apply list_elem_of_lookup in Hin as [i Hi]. apply A1, A3 in Hi. lia.
  - intros k c He. rewrite length_app. cbn. specialize (A3 _ _ He). lia.
  - intros k c He Hc. apply A5 with c; [done|]. rewrite lookup_app_l in Hc; [done|]. by eapply A3.
Qed.

Lemma refs_join i k c n : R !! i = Some (k, None, false) -> E !! k = Some c -> S !! c = Some n -> n <> 0%nat ->
  refs_ok E (<[c := Datatypes.S n]> S) (<[i := (k, Some c, false)]> R).
Proof.
  intros Hi He Hc Hn. destruct Hok as [A1 A2 A3 A4 A5]. split; [| | |done|].
  - intros j k' c' b Hj. apply list_lookup_insert_Some in Hj as [(-> & Hj & _)|[_ Hj]]; [by simplify_eq|by eapply A1].
  - intros c' m Hc'. pose proof (holders_insert c' R i _ (k, Some c, false) Hi) as Hs. cbn in Hs. case_decide; [done|].
    apply list_lookup_insert_Some in Hc' as [(-> & <- & _)|[Hne Hc']].
    + apply A2 in Hc. case_decide; [lia|congruence].
    + apply A2 in Hc'. case_decide; [congruence|lia].
  - intros k' c' He'. rewrite length_insert. by eapply A3.
  - intros k' c' He' Hc'. apply list_lookup_insert_Some in Hc' as [(-> & ? & _)|[_ Hc']]; [lia|].
    destruct (A5 _ _ He' Hc') as (j & h & Hj). exists j, h. rewrite list_lookup_insert_ne; [done|]. intros ->. congruence.
Qed.

Lemma refs_install i k : R !! i = Some (k, None, false) -> (forall c n, E !! k = Some c -> S !! c = Some n -> n = 0%nat) ->
  refs_ok (<[k := length S]> E) (S ++ [1%nat]) (<[i := (k, Some (length S), false)]> R).
Proof.
  intros Hi Hdead. destruct Hok as [A1 A2 A3 A4 A5].
  assert (Hnone : forall j b c, R !! j <> Some (k, Some c, b)).
  { intros j b c Hj. pose proof (A1 _ _ _ _ Hj) as He. pose proof (A3 _ _ He) as Hl. apply lookup_lt_is_Some in Hl as [n Hn].
    pose proof (Hdead _ _ He Hn) as ->. apply A2 in Hn. apply holders_pos in Hj. lia. }
  split.
  - intros j k' c' b Hj. apply list_lookup_insert_Some in Hj as [(-> & Hj & _)|[_ Hj]]; [simplify_eq; apply lookup_insert_eq|].
    rewrite lookup_insert_ne; [by eapply A1|]. intros <-. by apply Hnone in Hj.
  - intros c m Hc. pose proof (holders_insert c R i _ (k, Some (length S), false) Hi) as Hs. cbn in Hs. case_decide; [done|].
    apply lookup_app_Some in Hc as [Hc|[Hl Hc]].
    + pose proof (lookup_lt_Some _ _ _ Hc). apply A2 in Hc as ->. case_decide; [simplify_eq; lia|lia].
    + apply list_lookup_singleton_Some in Hc as [Hc <-]. assert (c = length S) as -> by lia.
      pose proof (refs_count _ _ _ refs_dead_cell (length S) 0%nat (list_lookup_middle _ _ _ _ eq_refl)) as Hz.
      case_decide; [lia|done].
  - intros k' c He. rewrite length_app. cbn. apply lookup_insert_Some in He as [[<- <-]|[_ He]]; [lia|]. specialize (A3 _ _ He). lia.
  - intros k1 k2 c He1 He2. apply lookup_insert_Some in He1 as [[<- <-]|[? He1]], He2 as [[<- Hc]|[? He2]]; [done| | |by eapply A4].
    + apply A3 in He2. lia.
    + subst c. apply A3 in He1. lia.
  - intros k' c He Hc. apply lookup_insert_Some in He as [[<- <-]|[Hne He]].
    + rewrite list_lookup_middle in Hc by done. done.
    + rewrite lookup_app_l in Hc by (by eapply A3). destruct (A5 _ _ He Hc) as (j & h & Hj). exists j, h.
      rewrite list_lookup_insert_ne; [done|]. intros ->. congruence.
Qed.

Lemma refs_leave i k c n : R !! i = Some (k, Some c, false) -> S !! c = Some (Datatypes.S n) ->
  refs_ok E (<[c := n]> S) (<[i := (k, None, true)]> R).
Proof.
  intros Hi Hc. destruct Hok as [A1 A2 A3 A4 A5]. pose proof (lookup_lt_Some _ _ _ Hi) as Hl. split; [| | |done|].
  - intros j k' c' b Hj. apply list_lookup_insert_Some in Hj as [(-> & Hj & _)|[_ Hj]]; [done|by eapply A1].
  - intros c' m Hc'. pose proof (holders_insert c' R i _ (k, None, true) Hi) as Hs. cbn in Hs. rewrite (decide_False (P := None = Some c')) in Hs by done.
    apply list_lookup_insert_Some in Hc' as [(-> & <- & _)|[Hne Hc']].
    + apply A2 in Hc. rewrite decide_True in Hs by done. lia.
    + apply A2 in Hc'. rewrite decide_False in Hs by congruence. lia.
  - intros k' c' He'. rewrite length_insert. by eapply A3.
  - intros k' c' He' Hc'. apply list_lookup_insert_Some in Hc' as [(-> & ? & _)|[_ Hc']].
    + rewrite (A4 _ _ _ He' (A1 _ _ _ _ Hi)). exists i, None. by apply list_lookup_insert_eq.
    + destruct (A5 _ _ He' Hc') as (j & h & Hj). exists j, h. rewrite list_lookup_insert_ne; [done|]. intros ->. congruence.
Qed.

(** After the check of the entry of [k] the call owes nothing, if the entry is gone or its cell live. *)
Lemma refs_checked i k : R !! i = Some (k, None, true) -> (forall c, E !! k = Some c -> S !! c <> Some 0%nat) ->
  refs_ok E S (<[i := (k, None, false)]> R).
Proof.
  intros Hi Hlive. destruct Hok as [A1 A2 A3 A4 A5]. split; [| |done|done|].
  - intros j k' c' b Hj. apply list_lookup_insert_Some in Hj as [(-> & Hj & _)|[_ Hj]]; [done|by eapply A1].
  - intros c' m Hc'. pose proof (holders_insert c' R i _ (k, None, false) Hi) as Hs. cbn in Hs. apply A2 in Hc'. case_decide; [done|]. lia.
  - intros k' c He Hc. destruct (A5 _ _ He Hc) as (j & h & Hj). exists j, h. rewrite list_lookup_insert_ne; [done|].
    intros <-. simplify_eq. by apply Hlive in He.
Qed.

Lemma refs_delete k : (forall c n, E !! k = Some c -> S !! c = Some n -> n = 0%nat) -> refs_ok (delete k E) S R.
Proof.
  intros Hdead. destruct Hok as [A1 A2 A3 A4 A5]. split; [|done| | |].
  - intros j k' c b Hj. pose proof (A1 _ _ _ _ Hj) as He. rewrite lookup_delete_ne; [done|]. intros <-.
    pose proof (A3 _ _ He) as Hl. apply lookup_lt_is_Some in Hl as [n Hn].
    pose proof (Hdead _ _ He Hn) as ->. apply A2 in Hn. apply holders_pos in Hj. lia.
  - intros k' c He. apply lookup_delete_Some in He as [_ He]. by eapply A3.
  - intros k1 k2 c He1 He2. apply lookup_delete_Some in He1 as [_ He1], He2 as [_ He2]. by eapply A4.
  - intros k' c He. apply lookup_delete_Some in He as [_ He]. by apply A5.
Qed.
End refs.

(** *** The moves of a once-cell *)
Lemma onces_enter O cs k : onces_ok O cs -> onces_ok O (cs ++ [mkCall k CEnter]).
Proof.
  intros [A1 A2 A3 A4]. split; [| |done|].
  - intros i c o Ho Hr. destruct (A1 _ _ _ Ho Hr) as (cl & Hcl & Hpc). exists cl. split; [by apply lookup_app_l_Some|done].
  - intros i c cl Hi Hpc. apply lookup_app_Some in Hi as [Hi|[_ Hi]]; [by eapply A2|]. by apply list_lookup_singleton_Some in Hi as [_ <-].
  - intros i cl c r Hi Hr. apply lookup_app_Some in Hi as [Hi|[_ Hi]]; [by eapply A4|]. by apply list_lookup_singleton_Some in Hi as [_ <-].
Qed.

Lemma onces_push O cs : onces_ok O cs -> onces_ok (O ++ [oc_new]) cs.
Proof.
  intros [A1 A2 A3 A4]. destruct oc_new_empty as [Hv Hr]. split.
  - intros i c o Ho Hrun. apply lookup_app_Some in Ho as [Ho|[_ Ho]]; [by eapply A1|]. apply list_lookup_singleton_Some in Ho as [_ <-]. congruence.
  - intros i c cl Hi Hpc. destruct (A2 _ _ _ Hi Hpc) as (o & Ho & ?). exists o. split; [by apply lookup_app_l_Some|done].
  - intros c o r Ho Hrun. apply lookup_app_Some in Ho as [Ho|[_ Ho]]; [by eapply A3|]. by apply list_lookup_singleton_Some in Ho as [_ <-].
  - intros i cl c r Hi Hpc. destruct (A4 _ _ _ _ Hi Hpc) as (o & Ho & ?). exists o. split; [by apply lookup_app_l_Some|done].
Qed.

(** Call [i] moves to [pc] while the cell [c] goes from [o] to [o'], which is [o] but for who leads and a first value. *)
Lemma onces_change O cs i cl pc c o o' : onces_ok O cs -> cs !! i = Some cl -> O !! c = Some o ->
  (forall c', c_pc cl = CLeader c' -> c' = c) -> (oc_running o' = Some i <-> pc = CLeader c) -> (forall c', pc = CLeader c' -> c' = c) ->
  (forall j, j <> i -> oc_running o' = Some j <-> oc_running o = Some j) ->
  (forall r, oc_value o = Some r -> oc_value o' = Some r) -> (forall r, oc_value o' = Some r -> oc_running o' = None) ->
  (forall c' r, result_of pc = Some (c', r) -> c' = c /\ oc_value o' = Some r) ->
  onces_ok (<[c := o']> O) (<[i := mkCall (c_key cl) pc]> cs).
Proof.
  intros [A1 A2 A3 A4] Hi Hc Hl Hr Hl' Hj Hv Hs Hres.
  pose proof (lookup_lt_Some _ _ _ Hi) as Li. pose proof (lookup_lt_Some _ _ _ Hc) as Lc. split.
  - intros j c' x Hx Hrun. destruct (decide (j = i)) as [->|Hne].
    + exists (mkCall (c_key cl) pc). split; [by apply list_lookup_insert_eq|]. cbn. apply list_lookup_insert_Some in Hx as [(<- & <- & _)|[Hcc Hx]]; [by apply Hr|].
      destruct (A1 _ _ _ Hx Hrun) as (cl' & Hcl' & Hpc). simplify_eq. by apply Hl in Hpc.
    + rewrite list_lookup_insert_ne by done. apply list_lookup_insert_Some in Hx as [(<- & <- & _)|[Hcc Hx]]; [|by eapply A1].
      apply Hj in Hrun; [|done]. by eapply A1.
  - intros j c' x Hx Hpc. destruct (decide (j = i)) as [->|Hne].
    + rewrite list_lookup_insert_eq in Hx by done. simplify_eq/=. assert (c' = c) as -> by auto. exists o'. rewrite list_lookup_insert_eq by done. by rewrite Hr.
    + rewrite list_lookup_insert_ne in Hx by done. destruct (A2 _ _ _ Hx Hpc) as (y & Hy & Hrun). destruct (decide (c' = c)) as [->|Hcc].
      * simplify_eq. exists o'. rewrite list_lookup_insert_eq by done. split; [done|]. by apply Hj.
      * exists y. by rewrite list_lookup_insert_ne.
  - intros c' x r Hx Hval. apply list_lookup_insert_Some in Hx as [(<- & <- & _)|[Hcc Hx]]; [by eapply Hs|by eapply A3].
  - intros j x c' r Hx Hpc. destruct (decide (j = i)) as [->|Hne].
    + rewrite list_lookup_insert_eq in Hx by done. simplify_eq/=. apply Hres in Hpc as [-> Hval]. exists o'. by rewrite list_lookup_insert_eq.
    + rewrite list_lookup_insert_ne in Hx by done. destruct (A4 _ _ _ _ Hx Hpc) as (y & Hy & Hval). destruct (decide (c' = c)) as [->|Hcc].
      * simplify_eq. exists o'. rewrite list_lookup_insert_eq by done. auto.
      * exists y. by rewrite list_lookup_insert_ne.
Qed.

(** Call [i], which does not lead, moves where it does not either and has no result of its own. *)
Lemma onces_move O cs i cl pc : onces_ok O cs -> cs !! i = Some cl -> (forall c, c_pc cl <> CLeader c) -> (forall c, pc <> CLeader c) ->
  (forall c r, result_of pc = Some (c, r) -> result_of (c_pc cl) = Some (c, r)) -> onces_ok O (<[i := mkCall (c_key cl) pc]> cs).
Proof.
  intros [A1 A2 A3 A4] Hi Hl Hl' Hr. pose proof (lookup_lt_Some _ _ _ Hi) as Li. split; [| |done|].
  - intros j c o Ho Hrun. destruct (A1 _ _ _ Ho Hrun) as (x & Hx & Hpc). exists x. rewrite list_lookup_insert_ne; [done|]. intros <-. simplify_eq. by apply Hl in Hpc.
  - intros j c x Hx Hpc. apply list_lookup_insert_Some in Hx as [(-> & <- & _)|[_ Hx]]; [by apply Hl' in Hpc|by eapply A2].
  - intros j x c r Hx Hpc. apply list_lookup_insert_Some in Hx as [(-> & <- & _)|[_ Hx]]; [|by eapply A4]. eapply A4; [done|by apply Hr].
Qed.

(** ** The abstraction *)
Definition cell_flight (x : Cell) : option (Flight (T := T)) :=
  match strong x with O => None | S n => Some (mkFlight (S n) (oc_value (once x)) (oc_running (once x))) end.

Definition flight_of (C : list Cell) (c : nat) : option Flight := match C !! c with Some x => cell_flight x | None => None end.

Definition caller_of (cl : Call) : Caller (T := T) (K := K) :=
  match c_pc cl with
  | CEnter | CSlow => Outside (c_key cl)
  | CCleanup _ r | CDone _ r => Returned r
  | CDropped => Cancelled
  | _ => Member (c_key cl)
  end.

Definition abs (w : World (K := K) (M := M)) : Spec (M := M) := mkSpec (omap (flight_of (cells w)) (entries w)) (caller_of <$> calls w).

(** The event of the machine that a move of the specification stands for. *)
Definition explains (e : Event (T := T) (K := K)) (m : Move (T := T) (K := K)) : Prop :=
  match m with
  | AEnter k => e = EExecute k
  | AJoin i | AReturn i | ACancel i => e = EAct i
  | ALead i => e = EPoll i
  | AFinish i r => exists p, e = EInit i p /\ caught p = Some r
  | AYield i => e = EDrop i
  end.

(** A step keeps the invariant and is a run of the specification, of moves the event explains. *)
Definition good (e : Event) (w : World) (r : step_result) : Prop :=
  exists w', r = Ok w' /\ inv w' /\ exists ms, spec_run ms (abs w) = Some (abs w') /\ Forall (explains e) ms.

Lemma flights_update E C k c x : E !! k = Some c -> (forall k', E !! k' = Some c -> k' = k) -> (c < length C)%nat ->
  omap (flight_of (<[c := x]> C)) E = partial_alter (fun _ => cell_flight x) k (omap (flight_of C) E : M Flight).
Proof.
  intros He Hinj Hl. apply map_eq. intros k'. rewrite lookup_omap. destruct (decide (k' = k)) as [->|Hne].
  - rewrite lookup_partial_alter_eq, He. cbn. unfold flight_of. by rewrite list_lookup_insert_eq.
  - rewrite lookup_partial_alter_ne, lookup_omap by done. destruct (E !! k') as [c'|] eqn:Hk; [|done]. cbn. unfold flight_of.
    rewrite list_lookup_insert_ne; [done|]. intros <-. by apply Hinj in Hk.
Qed.

Lemma flights_push E C x : (forall k c, E !! k = Some c -> (c < length C)%nat) -> omap (flight_of (C ++ [x])) E = (omap (flight_of C) E : M Flight).
Proof.
  intros Hr. apply map_eq. intros k. rewrite !lookup_omap. destruct (E !! k) as [c|] eqn:Hk; [|done]. cbn. unfold flight_of.
  rewrite lookup_app_l; [done|]. by eapply Hr.
Qed.

Section steps.
Context (w : World (K := K) (M := M)) (Hinv : inv w).

Lemma call_ref i cl : calls w !! i = Some cl -> (ref_of <$> calls w) !! i = Some (ref_of cl).
Proof. intros Hi. by rewrite list_lookup_fmap, Hi. Qed.

Lemma held i cl c : calls w !! i = Some cl -> holds (c_pc cl) = Some c ->
  entries w !! c_key cl = Some c /\ exists x, cells w !! c = Some x /\ strong x <> 0%nat.
Proof.
  intros Hi Hh. destruct (inv_refs _ Hinv) as [A1 A2 A3 A4 A5]. apply call_ref in Hi.
  assert (Hc : ref_of cl = (c_key cl, Some c, unchecked (c_pc cl))) by (unfold ref_of; by rewrite Hh). rewrite Hc in Hi.
  pose proof (A1 _ _ _ _ Hi) as He. split; [done|]. pose proof (A3 _ _ He) as Hl. rewrite length_fmap in Hl. apply lookup_lt_is_Some in Hl as [x Hx].
  exists x. split; [done|]. assert (Hs : (strong <$> cells w) !! c = Some (strong x)) by (by rewrite list_lookup_fmap, Hx).
  apply A2 in Hs. apply holders_pos in Hi. lia.
Qed.

Lemma flight_at k : flights (abs w) !! k = match entries w !! k with Some c => flight_of (cells w) c | None => None end.
Proof. cbn. rewrite lookup_omap. by destruct (entries w !! k). Qed.

Lemma caller_at i cl : calls w !! i = Some cl -> callers (abs w) !! i = Some (caller_of cl).
Proof. intros Hi. cbn. by rewrite list_lookup_fmap, Hi. Qed.

(** A step inside one state of the specification. *)
Lemma quiet e i cl pc : calls w !! i = Some cl -> (forall c, c_pc cl <> CLeader c) -> (forall c, pc <> CLeader c) -> result_of pc = None ->
  holds pc = holds (c_pc cl) -> unchecked pc = unchecked (c_pc cl) -> caller_of (mkCall (c_key cl) pc) = caller_of cl ->
  good e w (Ok (set_pc i cl pc w)).
Proof.
  intros Hi Hl Hl' Hr Hh Hu Hc. eexists. split; [done|]. split.
  - destruct Hinv as [Hrefs Honces]. split; cbn.
    + rewrite list_fmap_insert. unfold ref_of at 1. cbn. rewrite Hh, Hu, list_insert_id; [done|]. by apply call_ref.
    + apply onces_move; try done. intros c r. by rewrite Hr.
  - exists []. split; [|done]. cbn. f_equal. unfold abs. cbn. rewrite list_fmap_insert, Hc, list_insert_id; [done|]. by apply caller_at.
Qed.

(** The cell a member holds changes while the member stays one. *)
Lemma once_step i cl pc c x o' : calls w !! i = Some cl -> holds (c_pc cl) = Some c -> holds pc = Some c -> cells w !! c = Some x ->
  onces_ok (<[c := o']> (once <$> cells w)) (<[i := mkCall (c_key cl) pc]> (calls w)) ->
  inv (set_pc i cl pc (set_once c x o' w))
  /\ abs (set_pc i cl pc (set_once c x o' w)) = mkSpec (<[c_key cl := mkFlight (strong x) (oc_value o') (oc_running o')]> (flights (abs w))) (callers (abs w))
  /\ callers (abs w) !! i = Some (Member (c_key cl))
  /\ flights (abs w) !! c_key cl = Some (mkFlight (strong x) (oc_value (once x)) (oc_running (once x))).
Proof.
  intros Hi Hh Hh' Hx Honce. destruct (held _ _ _ Hi Hh) as (He & x' & Hx' & Hs). simplify_eq.
  assert (Hm : caller_of (mkCall (c_key cl) pc) = Member (c_key cl) /\ caller_of cl = Member (c_key cl)).
  { unfold caller_of. cbn. by destruct pc, (c_pc cl). }
  destruct Hm as [Hm Hm0]. destruct Hinv as [Hrefs _]. split_and!.
  - split; cbn.
    + rewrite !list_fmap_insert. cbn. rewrite list_insert_id by (by rewrite list_lookup_fmap, Hx). unfold ref_of at 1. cbn.
      rewrite list_insert_id; [done|]. rewrite (call_ref _ _ Hi). unfold ref_of. rewrite Hh, Hh'. by destruct pc, (c_pc cl).
    + by rewrite list_fmap_insert.
  - unfold abs. cbn. rewrite list_fmap_insert, Hm, (list_insert_id (caller_of <$> calls w)) by (rewrite list_lookup_fmap, Hi; cbn; by rewrite Hm0).
    f_equal. erewrite flights_update; [|done|intros k' Hk'; by eapply (refs_inj _ _ _ Hrefs)|by eapply lookup_lt_Some].
    unfold cell_flight. cbn. by destruct (strong x).
  - rewrite (caller_at _ _ Hi). by rewrite Hm0.
  - rewrite flight_at, He. unfold flight_of, cell_flight. rewrite Hx. by destruct (strong x).
Qed.

(** An upgraded reference makes the call a member of the flight. *)
Lemma join_step i cl c n o : calls w !! i = Some cl -> c_pc cl = CEnter \/ c_pc cl = CSlow -> entries w !! c_key cl = Some c ->
  cells w !! c = Some (mkCell (S n) o) ->
  let w' := set_pc i cl (CCreated c) (mkWorld (entries w) (<[c := mkCell (S (S n)) o]> (cells w)) (calls w)) in
  inv w' /\ spec_step (AJoin i) (abs w) = Some (abs w').
Proof.
  intros Hi Hpc He Hc w'. pose proof (lookup_lt_Some _ _ _ Hc) as Hl. destruct Hinv as [Hrefs Honces]. split; [split|]; cbn.
  - rewrite !list_fmap_insert. cbn. apply refs_join; [done| |done| |done].
    + rewrite (call_ref _ _ Hi). unfold ref_of. by destruct Hpc as [-> | ->].
    + by rewrite list_lookup_fmap, Hc.
  - rewrite list_fmap_insert. cbn. rewrite (list_insert_id (once <$> cells w)) by (by rewrite list_lookup_fmap, Hc).
    apply onces_move; try done; destruct Hpc as [-> | ->]; done.
  - rewrite list_lookup_fmap, Hi. cbn. unfold caller_of at 1. assert (Hout : match c_pc cl with CEnter | CSlow => Outside (c_key cl) | CCleanup _ r | CDone _ r => Returned r | CDropped => Cancelled | _ => Member (c_key cl) end = Outside (T := T) (c_key cl)) by (by destruct Hpc as [-> | ->]).
    rewrite Hout, lookup_omap, He. cbn. unfold flight_of at 1. rewrite Hc. cbn. f_equal. unfold abs, w'. cbn. rewrite list_fmap_insert. f_equal.
    erewrite flights_update; [|done|intros k' Hk'; by eapply (refs_inj _ _ _ Hrefs)|done]. done.
Qed.

(** A dead cell nobody refers to. *)
Lemma push_dead_step : let w' := mkWorld (entries w) (cells w ++ [mkCell 0 oc_new]) (calls w) in inv w' /\ abs w' = abs w.
Proof.
  destruct Hinv as [Hrefs Honces]. split; [split|]; cbn.
  - rewrite fmap_app. by apply refs_dead_cell.
  - rewrite fmap_app. by apply onces_push.
  - unfold abs. cbn. f_equal. apply flights_push. intros k c He. apply (refs_range _ _ _ Hrefs) in He. by rewrite length_fmap in He.
Qed.

Lemma install_step i cl : calls w !! i = Some cl -> c_pc cl = CSlow -> 
  (forall c, entries w !! c_key cl = Some c -> flight_of (cells w) c = None) ->
  let w' := set_pc i cl (CCreated (length (cells w))) (mkWorld (<[c_key cl := length (cells w)]> (entries w)) (cells w ++ [mkCell 1 oc_new]) (calls w)) in
  inv w' /\ spec_step (AJoin i) (abs w) = Some (abs w').
Proof.
  intros Hi Hpc Hdead w'. destruct Hinv as [Hrefs Honces]. split; [split|]; cbn.
  - rewrite list_fmap_insert, fmap_app. cbn. rewrite <- (length_fmap strong (cells w)). apply refs_install; [done| |].
    + rewrite (call_ref _ _ Hi). unfold ref_of. by rewrite Hpc.
    + intros c n He Hn. apply Hdead in He. unfold flight_of, cell_flight in He. rewrite list_lookup_fmap in Hn.
      destruct (cells w !! c) as [x|]; [|done]. cbn in Hn. by destruct (strong x); simplify_eq.
  - rewrite fmap_app. apply onces_move; [by apply onces_push|done|by rewrite Hpc..|done|done].
  - rewrite list_lookup_fmap, Hi. cbn. unfold caller_of at 1. rewrite Hpc, lookup_omap.
    assert (Hf : entries w !! c_key cl ≫= flight_of (cells w) = None) by (destruct (entries w !! c_key cl) eqn:He; [by apply Hdead|done]).
    cbn in Hf. rewrite Hf. unfold abs, w'. cbn. rewrite list_fmap_insert. do 2 f_equal. destruct oc_new_empty as [Hv Hr].
    erewrite omap_insert_Some; [|unfold flight_of; rewrite list_lookup_middle by done; cbn; rewrite Hv, Hr; done]. f_equal. symmetry.
    apply flights_push. intros k c He. apply (refs_range _ _ _ Hrefs) in He. by rewrite length_fmap in He.
Qed.

(** A member that does not lead gives its reference back. *)
Lemma leave_step i cl c pc : calls w !! i = Some cl -> holds (c_pc cl) = Some c -> (forall c', c_pc cl <> CLeader c') ->
  holds pc = None -> unchecked pc = true -> (forall c' r, result_of pc = Some (c', r) -> result_of (c_pc cl) = Some (c', r)) ->
  exists w1 x, drop_arc c w = Ok w1 /\ cells w !! c = Some x /\ inv (set_pc i cl pc w1) /\ exists f,
    callers (abs w) !! i = Some (Member (c_key cl)) /\ flights (abs w) !! c_key cl = Some f /\ value f = oc_value (once x) /\ leader f = oc_running (once x)
    /\ abs (set_pc i cl pc w1) = leave (c_key cl) f i (caller_of (mkCall (c_key cl) pc)) (abs w).
Proof.
  intros Hi Hh Hl Hp Hu Hr. destruct (held _ _ _ Hi Hh) as (He & [st o] & Hx & Hs). destruct st as [|n]; [done|].
  pose proof (lookup_lt_Some _ _ _ Hx) as Hlt. destruct Hinv as [Hrefs Honces].
  assert (Hm : caller_of cl = Member (c_key cl)) by (unfold caller_of; by destruct (c_pc cl)).
  unfold drop_arc. rewrite Hx. eexists _, _. split_and!; [done|done| |].
  - split; cbn.
    + rewrite !list_fmap_insert. unfold ref_of at 1. cbn. rewrite Hp, Hu. apply refs_leave; [done| |by rewrite list_lookup_fmap, Hx].
      rewrite (call_ref _ _ Hi). unfold ref_of. rewrite Hh. by destruct (c_pc cl).
    + rewrite list_fmap_insert. cbn. rewrite (list_insert_id (once <$> cells w)) by (by rewrite list_lookup_fmap, Hx).
      apply onces_move; try done. by intros c' ->.
  - exists (mkFlight (S n) (oc_value o) (oc_running o)). split_and!; [by rewrite (caller_at _ _ Hi), Hm| |done|done|].
    + rewrite flight_at, He. unfold flight_of. by rewrite Hx.
    + unfold abs, leave. cbn. rewrite list_fmap_insert. f_equal.
      erewrite flights_update; [|done|intros k' Hk'; by eapply (refs_inj _ _ _ Hrefs)|done]. by destruct n.
Qed.

(** The check of the entry changes nothing the specification sees. *)
Lemma check_step i cl c r : calls w !! i = Some cl -> c_pc cl = CCleanup c r ->
  let w' := set_pc i cl (CDone c r) (remove_dead (c_key cl) w) in inv w' /\ abs w' = abs w.
Proof.
  intros Hi Hpc w'. destruct Hinv as [Hrefs Honces].
  assert (Hcalls : caller_of <$> <[i := mkCall (c_key cl) (CDone c r)]> (calls w) = caller_of <$> calls w).
  { rewrite list_fmap_insert, list_insert_id; [done|]. rewrite list_lookup_fmap, Hi. cbn. unfold caller_of. by rewrite Hpc. }
  assert (Honce : onces_ok (once <$> cells w) (<[i := mkCall (c_key cl) (CDone c r)]> (calls w))) by (apply onces_move; rewrite ?Hpc; done).
  pose proof (call_ref _ _ Hi) as Href. unfold ref_of in Href at 2. rewrite Hpc in Href. unfold w', remove_dead.
  destruct (entries w !! c_key cl) as [weak|] eqn:He.
  - pose proof (refs_range _ _ _ Hrefs _ _ He) as Hlt. rewrite length_fmap in Hlt. apply lookup_lt_is_Some in Hlt as [[n o] Hx].
    unfold upgrade. rewrite Hx. destruct n as [|n].
    + split; [split|]; cbn; [|done|].
      * rewrite list_fmap_insert. apply refs_checked; [apply refs_delete; [done|]|done|intros c'; by rewrite lookup_delete_eq].
        intros c' m Hc' Hm. rewrite list_lookup_fmap in Hm. simplify_eq. rewrite Hx in Hm. by injection Hm as <-.
      * unfold abs. cbn. rewrite Hcalls, omap_delete. f_equal. apply delete_id. rewrite lookup_omap, He. cbn. unfold flight_of. by rewrite Hx.
    + split; [split|]; cbn; [|done|].
      * rewrite list_fmap_insert. apply refs_checked; [done|done|]. intros c' Hc'. cbn in Hc'. rewrite He in Hc'. injection Hc' as <-. rewrite list_lookup_fmap, Hx. done.
      * unfold abs. cbn. by rewrite Hcalls.
  - split; [split|]; cbn; [|done|].
    + rewrite list_fmap_insert. apply refs_checked; [done|done|]. cbn. congruence.
    + unfold abs. cbn. by rewrite Hcalls.
Qed.

Lemma upgrade_live c : match upgrade c w with
  | Some w' => exists n o, cells w !! c = Some (mkCell (S n) o) /\ w' = mkWorld (entries w) (<[c := mkCell (S (S n)) o]> (cells w)) (calls w)
  | None => flight_of (cells w) c = None
  end.
Proof. unfold upgrade, flight_of. destruct (cells w !! c) as [[[|n] o]|] eqn:Hc; [done| |done]. by exists n, o. Qed.

Lemma enter_good i cl : calls w !! i = Some cl -> c_pc cl = CEnter -> good (EAct i) w (act i cl w).
Proof.
  intros Hi Hpc. unfold act. rewrite Hpc. unfold get_existing.
  assert (Hslow : good (EAct i) w (Ok (set_pc i cl CSlow w))) by (apply quiet; rewrite ?Hpc; try done; unfold caller_of; by rewrite Hpc).
  destruct (entries w !! c_key cl) as [c|] eqn:He; [|done]. pose proof (upgrade_live c) as Hu. destruct (upgrade c w) as [w'|]; [|done].
  destruct Hu as (n & o & Hc & ->). destruct (join_step i cl c n o) as [Hw Hs]; auto. eexists. split; [done|]. split; [done|].
  exists [AJoin i]. cbn [spec_run]. rewrite Hs. split; [done|by repeat constructor].
Qed.

End steps.

Lemma slow_good w i cl : inv w -> calls w !! i = Some cl -> c_pc cl = CSlow -> good (EAct i) w (act i cl w).
Proof.
  intros Hinv Hi Hpc. unfold act. rewrite Hpc. unfold insert_or_get_existing. cbn [entries].
  assert (Hinst : (forall c, entries w !! c_key cl = Some c -> flight_of (cells w) c = None) ->
    good (EAct i) w (Ok (set_pc i cl (CCreated (length (cells w))) (mkWorld (<[c_key cl := length (cells w)]> (entries w)) (cells w ++ [mkCell 1 oc_new]) (calls w))))).
  { intros Hd. destruct (install_step w Hinv i cl Hi Hpc Hd) as [Hw Hs]. eexists. split; [done|]. split; [done|]. exists [AJoin i]. cbn [spec_run]. rewrite Hs. split; [done|by repeat constructor]. }
  destruct (entries w !! c_key cl) as [c|] eqn:He; [|by apply Hinst].
  pose proof (refs_range _ _ _ (inv_refs _ Hinv) _ _ He) as Hlt. rewrite length_fmap in Hlt.
  unfold upgrade. cbn [cells]. rewrite lookup_app_l by done. destruct (cells w !! c) as [[[|n] o]|] eqn:Hc.
  - apply Hinst. intros c' [= <-]. unfold flight_of. by rewrite Hc.
  - unfold drop_arc. cbn [cells entries calls]. rewrite list_lookup_insert_ne by lia. rewrite list_lookup_middle by done.
    destruct (push_dead_step w Hinv) as [Hw Ha]. destruct (join_step _ Hw i cl c n o) as [Hw' Hs]; cbn [cells calls entries]; auto; [by apply lookup_app_l_Some|].
    rewrite Ha in Hs. rewrite list_insert_insert_ne by lia. rewrite insert_app_r_alt, Nat.sub_diag by done. eexists. split; [done|]. split; [done|]. exists [AJoin i]. cbn [spec_run]. rewrite Hs. split; [done|by repeat constructor].
  - apply Hinst. intros c' [= <-]. unfold flight_of. by rewrite Hc.
Qed.

Lemma got_good w i cl c r : inv w -> calls w !! i = Some cl -> c_pc cl = CGot c r -> good (EAct i) w (act i cl w).
Proof.
  intros Hinv Hi Hpc. unfold act. rewrite Hpc.
  destruct (leave_step w Hinv i cl c (CCleanup c r)) as (w1 & x & Hd & Hx & Hw & f & Hm & Hf & Hv & Hl & Ha); rewrite ?Hpc; try done.
  rewrite Hd. eexists. split; [done|]. split; [done|]. exists [AReturn i]. split; [|by repeat constructor]. cbn [spec_run spec_step]. unfold with_member. rewrite Hm, Hf, Hv.
  destruct (onces_result _ _ (inv_onces _ Hinv) i cl c r Hi) as (o & Ho & Hval); [by rewrite Hpc|].
  rewrite list_lookup_fmap, Hx in Ho. injection Ho as <-. rewrite Hval. by rewrite Ha.
Qed.

Lemma dropping_good w i cl c : inv w -> calls w !! i = Some cl -> c_pc cl = CDropping c -> good (EAct i) w (act i cl w).
Proof.
  intros Hinv Hi Hpc. unfold act. rewrite Hpc.
  destruct (leave_step w Hinv i cl c CDropped) as (w1 & x & Hd & Hx & Hw & f & Hm & Hf & Hv & Hl & Ha); rewrite ?Hpc; try done.
  rewrite Hd. eexists. split; [done|]. split; [done|]. exists [ACancel i]. split; [|by repeat constructor]. cbn [spec_run spec_step]. unfold with_member. rewrite Hm, Hf, Hl, decide_False; [by rewrite Ha|].
  intros Hr. destruct (onces_running _ _ (inv_onces _ Hinv) i c (once x)) as (cl' & Hcl' & Hpc'); [by rewrite list_lookup_fmap, Hx|done|]. congruence.
Qed.

Lemma act_good w i cl : inv w -> calls w !! i = Some cl -> act i cl w = Err tt \/ good (EAct i) w (act i cl w).
Proof.
  intros Hinv Hi. destruct (c_pc cl) as [| |c|c|c|c r|c|c r|c r|] eqn:Hpc; try (left; unfold act; by rewrite Hpc); right.
  - by apply enter_good.
  - by apply slow_good.
  - by eapply got_good.
  - by eapply dropping_good.
  - unfold act. rewrite Hpc. destruct (check_step w Hinv i cl c r Hi Hpc) as [Hw Ha]. eexists. split; [done|]. split; [done|]. exists []. split; [cbn; by rewrite Ha|done].
Qed.

(** A change of a cell that the specification does not see. *)
Lemma once_quiet e w i cl pc c x o' : inv w -> calls w !! i = Some cl -> holds (c_pc cl) = Some c -> holds pc = Some c -> cells w !! c = Some x ->
  onces_ok (<[c := o']> (once <$> cells w)) (<[i := mkCall (c_key cl) pc]> (calls w)) -> oc_value o' = oc_value (once x) -> oc_running o' = oc_running (once x) ->
  good e w (Ok (set_pc i cl pc (set_once c x o' w))).
Proof.
  intros Hinv Hi Hh Hp Hx Ho Hv Hr. destruct (once_step w Hinv i cl pc c x o' Hi Hh Hp Hx Ho) as (Hw & Ha & Hm & Hf).
  eexists. split; [done|]. split; [done|]. exists []. split; [|done]. cbn. rewrite Ha, Hv, Hr, insert_id by done. by destruct (abs w).
Qed.

(** A change of the cell that is a move of its member in the specification. *)
Lemma once_move e w i cl pc c x o' m : inv w -> calls w !! i = Some cl -> holds (c_pc cl) = Some c -> holds pc = Some c -> cells w !! c = Some x ->
  onces_ok (<[c := o']> (once <$> cells w)) (<[i := mkCall (c_key cl) pc]> (calls w)) ->
  (callers (abs w) !! i = Some (Member (c_key cl)) -> flights (abs w) !! c_key cl = Some (mkFlight (strong x) (oc_value (once x)) (oc_running (once x))) ->
    spec_step m (abs w) = Some (mkSpec (<[c_key cl := mkFlight (strong x) (oc_value o') (oc_running o')]> (flights (abs w))) (callers (abs w)))) -> explains e m ->
  good e w (Ok (set_pc i cl pc (set_once c x o' w))).
Proof.
  intros Hinv Hi Hh Hp Hx Ho Hs He. destruct (once_step w Hinv i cl pc c x o' Hi Hh Hp Hx Ho) as (Hw & Ha & Hm & Hf).
  eexists. split; [done|]. split; [done|]. exists [m]. split; [|by repeat constructor]. cbn [spec_run]. by rewrite (Hs Hm Hf), Ha.
Qed.

Lemma once_at (w : World (K := K) (M := M)) c x : cells w !! c = Some x -> (once <$> cells w) !! c = Some (once x).
Proof. intros Hx. by rewrite list_lookup_fmap, Hx. Qed.

(** A waiting call does not lead. *)
Lemma not_leading w i cl c x : inv w -> calls w !! i = Some cl -> cells w !! c = Some x -> c_pc cl <> CLeader c -> oc_running (once x) <> Some i.
Proof. intros Hinv Hi Hx Hpc Hr. destruct (onces_running _ _ (inv_onces _ Hinv) i c _ (once_at _ _ _ Hx) Hr) as (cl' & ? & ?). congruence. Qed.

Lemma poll_good w i cl : inv w -> calls w !! i = Some cl -> poll i cl w = Err tt \/ good (EPoll i) w (poll i cl w).
Proof.
  intros Hinv Hi. unfold poll. destruct (c_pc cl) as [| |c|c|c|c r|c|c r|c r|] eqn:Hpc; auto. right.
  destruct (held w Hinv i cl c Hi) as (He & x & Hx & _); [by rewrite Hpc|]. rewrite Hx. pose proof (once_at _ _ _ Hx) as Ho.
  assert (Hnl : oc_running (once x) <> Some i) by (eapply not_leading; rewrite ?Hpc; done). pose proof (inv_onces _ Hinv) as Honces.
  destruct (oc_value (once x)) as [r|] eqn:Hv.
  - rewrite (oc_poll_ready i _ _ Hv). apply once_quiet; rewrite ?Hpc; try done. eapply onces_change; rewrite ?Hpc; try done.
    + intros r' Hr'. by eapply (onces_settled _ _ Honces).
    + intros c' r' [= <- <-]. done.
  - destruct (oc_running (once x)) as [j|] eqn:Hr.
    + assert (Hne : i <> j) by congruence. destruct (oc_poll_wait i j _ Hv Hr Hne) as (Hp & Hv' & Hr'). destruct (oc_poll i (once x)) as [o' p]. cbn in *. subst p.
      assert (Heq : set_once c x o' w = set_pc i cl (CWaiting c) (set_once c x o' w)).
      { unfold set_pc, set_once. cbn. rewrite (list_insert_id (calls w)); [done|]. rewrite Hi. f_equal. destruct cl. cbn in *. by rewrite Hpc. }
      rewrite Heq. apply once_quiet; rewrite ?Hpc; try congruence; try done. eapply onces_change; rewrite ?Hpc; try done; try congruence.
      * split; [congruence|done].
      * intros k Hk. rewrite Hr', Hr. done.
    + destruct (oc_poll_turn i _ Hv Hr) as (Hp & Hv' & Hr'). destruct (oc_poll i (once x)) as [o' p]. cbn in *. subst p.
      eapply once_move with (m := ALead i); rewrite ?Hpc; try done; [eapply onces_change; rewrite ?Hpc; try done; try congruence|].
      * intros k Hk. rewrite Hr', Hr. split; congruence.
      * intros Hm Hf. cbn [spec_step]. unfold with_member. rewrite Hm, Hf. cbn. rewrite Hv, Hr, Hv', Hr'. done.
Qed.

Lemma init_good w i cl p : inv w -> calls w !! i = Some cl -> poll_init i cl p w = Err tt \/ good (EInit i p) w (poll_init i cl p w).
Proof.
  intros Hinv Hi. unfold poll_init. destruct (c_pc cl) as [| |c|c|c|c r|c|c r|c r|] eqn:Hpc; auto. right.
  destruct (held w Hinv i cl c Hi) as (He & x & Hx & _); [by rewrite Hpc|]. rewrite Hx. pose proof (inv_onces _ Hinv) as Honces.
  destruct (caught p) as [r|] eqn:Hcaught; [|exists w; split; [done|]; split; [done|]; by exists []].
  destruct (onces_leader _ _ Honces i c cl Hi Hpc) as (o & Ho & Hr). rewrite (once_at _ _ _ Hx) in Ho. injection Ho as <-.
  assert (Hv : oc_value (once x) = None) by (destruct (oc_value (once x)) as [v|] eqn:Hv; [|done]; apply (onces_settled _ _ Honces c) in Hv; [congruence|by apply once_at]).
  destruct (oc_complete_stores i r _ Hv Hr) as [Hv' Hr'].
  eapply once_move with (m := AFinish i r); rewrite ?Hpc; try done; [eapply onces_change; [done|done|by apply once_at|..]; rewrite ?Hpc; try done; try congruence| |by exists p].
  - split; [congruence|done].
  - intros k Hk. split; congruence.
  - intros c' r' [= <- <-]. done.
  - intros Hm Hf. cbn [spec_step]. unfold with_member. rewrite Hm, Hf. cbn. rewrite decide_True, Hv', Hr' by done. done.
Qed.

Lemma drop_good w i cl : inv w -> calls w !! i = Some cl -> drop_future i cl w = Err tt \/ good (EDrop i) w (drop_future i cl w).
Proof.
  intros Hinv Hi. unfold drop_future. pose proof (inv_onces _ Hinv) as Honces. destruct (c_pc cl) as [| |c|c|c|c r|c|c r|c r|] eqn:Hpc; auto; right.
  - apply quiet; rewrite ?Hpc; try done. unfold caller_of. by rewrite Hpc.
  - destruct (held w Hinv i cl c Hi) as (He & x & Hx & _); [by rewrite Hpc|]. rewrite Hx. destruct (oc_drop_releases i (once x)) as [Hv Hr].
    assert (Hnl : oc_running (once x) <> Some i) by (eapply not_leading; rewrite ?Hpc; done). rewrite decide_False in Hr by done.
    apply once_quiet; rewrite ?Hpc; try done. eapply onces_change; [done|done|by apply once_at|..]; rewrite ?Hpc, ?Hv, ?Hr; try done.
    intros r Hr'. eapply (onces_settled _ _ Honces); [by apply once_at|done].
  - destruct (held w Hinv i cl c Hi) as (He & x & Hx & _); [by rewrite Hpc|]. rewrite Hx. destruct (oc_drop_releases i (once x)) as [Hv Hr].
    destruct (onces_leader _ _ Honces i c cl Hi Hpc) as (o & Ho & Hrun). rewrite (once_at _ _ _ Hx) in Ho. injection Ho as <-. rewrite decide_True in Hr by done.
    eapply once_move with (m := AYield i); rewrite ?Hpc; try done; [eapply onces_change; [done|done|by apply once_at|..]; rewrite ?Hpc, ?Hv, ?Hr; try done; try congruence|].
    + split; congruence.
    + intros Hm Hf. cbn [spec_step]. unfold with_member. rewrite Hm, Hf. cbn. rewrite decide_True, Hv, Hr by done. done.
Qed.

Lemma step_good w e : inv w -> world_step e w = Err tt \/ good e w (world_step e w).
Proof.
  intros Hinv. destruct e as [k|i|i b|i|i p|i]; cbn; unfold with_call; [|destruct (calls w !! i) as [cl|] eqn:Hi; [|by left]..].
  - right. eexists. split; [done|]. split.
    + destruct Hinv as [Hrefs Honces]. split; cbn; [rewrite fmap_app; by apply refs_enter|by apply onces_enter].
    + exists [AEnter k]. split; [|by repeat constructor]. cbn. unfold abs. cbn. by rewrite fmap_app.
  - by apply act_good.
  - unfold first_poll. destruct (c_pc cl) as [| |c|c|c|c r|c|c r|c r|] eqn:Hpc; auto. right.
    apply quiet; rewrite ?Hpc; try done; [by destruct b..|unfold caller_of; rewrite Hpc; by destruct b].
  - by apply poll_good.
  - by apply init_good.
  - by apply drop_good.
Qed.

Lemma run_good w es : inv w -> world_run es w = Err tt \/ exists w', world_run es w = Ok w' /\ inv w' /\
  exists ms, spec_run ms (abs w) = Some (abs w') /\ Forall (fun m => exists e, e ∈ es /\ explains e m) ms.
Proof.
  revert w. induction es as [|e es IH]; intros w Hinv; cbn; [right; exists w; split; [done|]; split; [done|]; by exists []|].
  destruct (step_good w e Hinv) as [-> |(w1 & -> & Hw1 & ms & Hms & Hx)]; [by left|].
  destruct (IH w1 Hw1) as [-> |(w2 & -> & Hw2 & ms' & Hms' & Hx')]; [by left|]. right. exists w2. split; [done|]. split; [done|].
  exists (ms ++ ms'). rewrite spec_run_app, Hms. split; [done|]. apply Forall_app. split.
  - eapply Forall_impl; [done|]. intros m Hm. exists e. split; [left|done].
  - eapply Forall_impl; [done|]. intros m (e' & He' & Hm). exists e'. split; [by right|done].
Qed.

Lemma merger_inv_new : inv merger_new.
Proof. split; split; cbn; try done; intros ?*; rewrite ?lookup_empty; done. Qed.

Lemma abs_new : abs merger_new = spec_new.
Proof. unfold abs, spec_new. cbn. by rewrite omap_empty. Qed.

Lemma reachable es w : world_run es merger_new = Ok w -> inv w.
Proof. intros Hrun. destruct (run_good _ es merger_inv_new) as [Hr|(w' & Hr & Hw & _)]; congruence. Qed.

(** *** What the specification returns *)
Lemma leave_callers k f i c (s : Spec (T := T) (K := K) (M := M)) j x : callers (leave k f i c s) !! j = Some x -> x = c \/ callers s !! j = Some x.
Proof. cbn. intros Hx. apply list_lookup_insert_Some in Hx as [(_ & <- & _)|[_ Hx]]; auto. Qed.

Lemma leave_flights k f i c (s : Spec (T := T) (K := K) (M := M)) k' f' : flights (leave k f i c s) !! k' = Some f' ->
  (k' = k /\ value f' = value f) \/ flights s !! k' = Some f'.
Proof.
  cbn. destruct (members f) as [|[|n]]; intros Hf; [apply lookup_delete_Some in Hf as [_ ?]; by right..|].
  apply lookup_insert_Some in Hf as [[<- <-]|[_ ?]]; auto.
Qed.

(** The values and the results known after [ms] were finished with. *)
Definition finished (ms : list (Move (T := T) (K := K))) (r : Output) : Prop := exists i, AFinish i r ∈ ms.

Record sourced (ms : list (Move (T := T) (K := K))) (s : Spec (T := T) (K := K) (M := M)) : Prop := {
  sourced_flights k f r : flights s !! k = Some f -> value f = Some r -> finished ms r;
  sourced_callers i r : callers s !! i = Some (Returned r) -> finished ms r }.

Lemma sourced_step ms s m s' : sourced ms s -> spec_step m s = Some s' -> sourced (ms ++ [m]) s'.
Proof.
  intros [A1 A2] Hs. assert (Hf : forall r, finished ms r -> finished (ms ++ [m]) r) by (intros r [i Hi]; exists i; set_solver).
  assert (Hput : forall k f cs, (forall r, value f = Some r -> finished (ms ++ [m]) r) -> (forall i r, cs !! i = Some (Returned r) -> callers s !! i = Some (Returned r)) ->
    sourced (ms ++ [m]) (mkSpec (<[k := f]> (flights s)) cs)).
  { intros k f cs Hv Hc. split; cbn; [|eauto]. intros k' f' r Hk Hr. apply lookup_insert_Some in Hk as [[<- <-]|[_ Hk]]; eauto. }
  assert (Hleave : forall k f i c, flights s !! k = Some f -> (forall r, c = Returned r -> value f = Some r) -> sourced (ms ++ [m]) (leave k f i c s)).
  { intros k f i c Hk Hc. split.
    - intros k' f' r Hk' Hr. apply leave_flights in Hk' as [[-> Hv]|Hk']; [rewrite Hv in Hr|]; eauto.
    - intros j r Hj. apply leave_callers in Hj as [Hj|Hj]; [symmetry in Hj; apply Hc in Hj|]; eauto. }
  destruct m; cbn in Hs; unfold with_member in Hs; repeat (case_match; simplify_eq); eauto; simplify_eq.
  - split; cbn; [eauto|]. intros i r Hi. apply lookup_app_Some in Hi as [Hi|[_ Hi]]; [eauto|]. by apply list_lookup_singleton_Some in Hi as [_ ?].
  - apply Hput; cbn; [eauto|]. intros j r Hj. by apply list_lookup_insert_Some in Hj as [(_ & ? & _)|[_ Hj]].
  - apply Hput; cbn; [done|]. intros j r Hj. by apply list_lookup_insert_Some in Hj as [(_ & ? & _)|[_ Hj]].
  - apply Hput; cbn; done.
  - apply Hput; cbn; [|done]. intros r' [= <-]. eexists. apply elem_of_app. right. by left.
  - eapply Hleave; [done|]. congruence.
  - eapply Hleave; done.
Qed.

Lemma sourced_run ms ms' s s' : sourced ms s -> spec_run ms' s = Some s' -> sourced (ms ++ ms') s'.
Proof.
  revert ms s. induction ms' as [|m ms' IH]; intros ms s Hs Hr; cbn in Hr; [simplify_eq; by rewrite app_nil_r|].
  destruct (spec_step m s) as [s1|] eqn:Hm; [|done]. rewrite cons_middle, app_assoc. eapply IH; [by eapply sourced_step|done].
Qed.

Lemma sourced_new : sourced [] (spec_new (M := M)).
Proof. split; cbn; intros *; by rewrite ?lookup_empty. Qed.

(** *** Progress of a call

    [i] reaches its end with the steps of its own and, for another call that leads, with the
    completion of that initializer. *)
Inductive helps (i : nat) (v : T) : Event (T := T) (K := K) -> World (K := K) (M := M) -> Prop :=
| helps_act w : helps i v (EAct i) w
| helps_first w : helps i v (EFirst i false) w
| helps_poll w : helps i v (EPoll i) w
| helps_init j w cl c : calls w !! j = Some cl -> c_pc cl = CLeader c -> helps i v (EInit j (FReady v)) w.

Inductive finishes (i : nat) (v : T) : World (K := K) (M := M) -> list (Event (T := T) (K := K)) -> World (K := K) (M := M) -> Prop :=
| finishes_done w cl c r : calls w !! i = Some cl -> c_pc cl = CDone c r -> finishes i v w [] w
| finishes_step w e w1 es w2 : helps i v e w -> world_step e w = Ok w1 -> finishes i v w1 es w2 -> finishes i v w (e :: es) w2.

(** The longest way to the end from where a call stands. *)
Definition to_go (pc : Pc (T := T)) : nat :=
  match pc with CEnter => 7 | CSlow => 6 | CCreated _ => 5 | CWaiting _ => 4 | CLeader _ => 3 | CGot _ _ => 2 | CCleanup _ _ => 1 | _ => 0 end.

Definition cancelled (pc : Pc (T := T)) : bool := match pc with CDropping _ | CDropped => true | _ => false end.

Lemma set_pc_call i cl pc (w w0 : World (K := K) (M := M)) : calls w !! i = Some cl -> calls w0 = calls w -> calls (set_pc i cl pc w0) !! i = Some (mkCall (c_key cl) pc).
Proof. intros Hi Hc. cbn. rewrite Hc. apply list_lookup_insert_eq. by eapply lookup_lt_Some. Qed.

Lemma drop_arc_calls c (w w' : World (K := K) (M := M)) : drop_arc c w = Ok w' -> calls w' = calls w.
Proof. unfold drop_arc. destruct (cells w !! c) as [[[|n] o]|]; [done| |done]. by intros [= <-]. Qed.

Lemma get_existing_calls k c (w w' : World (K := K) (M := M)) : get_existing k w = Some (w', c) -> calls w' = calls w.
Proof.
  unfold get_existing, upgrade. destruct (entries w !! k) as [c'|]; [|done]. destruct (cells w !! c') as [[[|n] o]|]; [done| |done]. by intros [= <- _].
Qed.

Lemma insert_calls k c (w w' : World (K := K) (M := M)) : insert_or_get_existing k w = (Ok w', c) -> calls w' = calls w.
Proof.
  unfold insert_or_get_existing. cbn [entries]. destruct (entries w !! k) as [c'|]; [|by intros [= <- _]].
  unfold upgrade. cbn [cells]. destruct ((cells w ++ _) !! c') as [[[|n] o]|]; [by intros [= <- _]| |by intros [= <- _]].
  intros [= Hd <-]. by apply drop_arc_calls in Hd.
Qed.

Lemma remove_dead_calls k (w : World (K := K) (M := M)) : calls (remove_dead k w) = calls w.
Proof. unfold remove_dead. destruct (entries w !! k); [|done]. by destruct (upgrade _ _). Qed.

(** The own steps bring a call that does not wait nearer to its end. *)
Lemma act_progress (w w' : World (K := K) (M := M)) i cl : calls w !! i = Some cl -> act i cl w = Ok w' -> cancelled (c_pc cl) = false ->
  exists pc, calls w' !! i = Some (mkCall (c_key cl) pc) /\ (to_go pc < to_go (c_pc cl))%nat /\ cancelled pc = false.
Proof.
  intros Hi Ha Hc. unfold act in Ha. destruct (c_pc cl) as [| |c|c|c|c r|c|c r|c r|] eqn:Hpc; try done.
  - destruct (get_existing (c_key cl) w) as [[w0 c]|] eqn:Hg; injection Ha as <-; eexists; (split; [eapply set_pc_call; [done|]|cbn; split; [lia|done]]); [|done].
    by eapply get_existing_calls.
  - destruct (insert_or_get_existing (c_key cl) w) as [[w0| |] c] eqn:Hg; try done. injection Ha as <-. eexists.
    split; [eapply set_pc_call; [done|by eapply insert_calls]|cbn; split; [lia|done]].
  - destruct (drop_arc c w) as [w0| |] eqn:Hg; try done. injection Ha as <-. eexists.
    split; [eapply set_pc_call; [done|by eapply drop_arc_calls]|cbn; split; [lia|done]].
  - injection Ha as <-. eexists. split; [eapply set_pc_call; [done|apply remove_dead_calls]|cbn; split; [lia|done]].
Qed.

Lemma step_inv (w w' : World (K := K) (M := M)) e : inv w -> world_step e w = Ok w' -> inv w'.
Proof. intros Hinv He. destruct (step_good w e Hinv) as [Hr|(w1 & Hr & Hw & _)]; congruence. Qed.

Lemma poll_value (w : World (K := K) (M := M)) i cl c x r : calls w !! i = Some cl -> c_pc cl = CWaiting c -> cells w !! c = Some x -> oc_value (once x) = Some r ->
  world_step (EPoll i) w = Ok (set_pc i cl (CGot c r) (set_once c x (once x) w)).
Proof. intros Hi Hpc Hx Hv. cbn. unfold with_call, poll. rewrite Hi, Hpc, Hx. by rewrite (oc_poll_ready _ _ _ Hv). Qed.

(** A waiting call gets the value, leads, or gets the value once the leader has completed. *)
Lemma waiting_progress (w : World (K := K) (M := M)) i cl c v : inv w -> calls w !! i = Some cl -> c_pc cl = CWaiting c ->
  (exists w1 pc, world_step (EPoll i) w = Ok w1 /\ calls w1 !! i = Some (mkCall (c_key cl) pc) /\ (to_go pc <= 3)%nat /\ cancelled pc = false) \/
  exists j w1 w2 cj c', calls w !! j = Some cj /\ c_pc cj = CLeader c' /\ world_step (EInit j (FReady v)) w = Ok w1 /\ world_step (EPoll i) w1 = Ok w2
    /\ calls w2 !! i = Some (mkCall (c_key cl) (CGot c (Value v))).
Proof.
  intros Hinv Hi Hpc. destruct (held w Hinv i cl c Hi) as (He & x & Hx & _); [by rewrite Hpc|]. pose proof (inv_onces _ Hinv) as Honces.
  destruct (oc_value (once x)) as [r|] eqn:Hv.
  - left. eexists _, _. split; [by eapply poll_value|]. split; [by eapply set_pc_call|]. cbn. split; [lia|done].
  - destruct (oc_running (once x)) as [j|] eqn:Hr.
    + right. destruct (onces_running _ _ Honces j c (once x) (once_at _ _ _ Hx) Hr) as (cj & Hj & Hpj). destruct (oc_complete_stores j (Value v) _ Hv Hr) as [Hv' _].
      eexists j, _, _, cj, c. split; [done|]. split; [done|]. split; [cbn; unfold with_call, poll_init; rewrite Hj, Hpj, Hx; done|].
      assert (Hne : i <> j) by (intros <-; congruence). assert (Hl : (c < length (cells w))%nat) by (by eapply lookup_lt_Some).
      assert (Hi' : calls (set_pc j cj (CGot c (Value v)) (set_once c x (oc_complete j (Value v) (once x)) w)) !! i = Some cl) by (cbn; by rewrite list_lookup_insert_ne).
      split; [eapply poll_value; [done|done|cbn; by apply list_lookup_insert_eq|done]|]. by eapply set_pc_call.
    + left. destruct (oc_poll_turn i _ Hv Hr) as (Hp & _). cbn. unfold with_call, poll. rewrite Hi, Hpc, Hx. destruct (oc_poll i (once x)) as [o' p]. cbn in Hp. subst p.
      eexists _, _. split; [done|]. split; [by eapply set_pc_call|]. cbn. split; [lia|done].
Qed.

Lemma finish_within n (w : World (K := K) (M := M)) i cl v : inv w -> calls w !! i = Some cl -> cancelled (c_pc cl) = false -> (to_go (c_pc cl) <= n)%nat ->
  exists es w', (length es <= n)%nat /\ finishes i v w es w'.
Proof.
  revert w cl. induction n as [n IH] using lt_wf_ind. intros w cl Hinv Hi Hc Hn.
  assert (Hone : forall e w1 pc, helps i v e w -> world_step e w = Ok w1 -> calls w1 !! i = Some (mkCall (c_key cl) pc) -> (to_go pc < n)%nat -> cancelled pc = false ->
    exists es w', (length es <= n)%nat /\ finishes i v w es w').
  { intros e w1 pc Hh He Hi1 Hlt Hc1. destruct (IH (n - 1)%nat ltac:(lia) w1 (mkCall (c_key cl) pc)) as (es & w' & Hl & Hf); [by eapply step_inv|done|done|cbn; lia|].
    exists (e :: es), w'. split; [cbn; lia|]. by eapply finishes_step. }
  assert (Hact : good (EAct i) w (act i cl w) -> exists es w', (length es <= n)%nat /\ finishes i v w es w').
  { intros (w1 & Ha & _). destruct (act_progress w w1 i cl Hi Ha Hc) as (pc & Hi1 & Hlt & Hc1).
    eapply (Hone (EAct i)); [constructor|cbn; unfold with_call; by rewrite Hi|done|lia|done]. }
  destruct (c_pc cl) as [| |c|c|c|c r|c|c r|c r|] eqn:Hpc; try done; cbn in Hn.
  - by apply Hact, enter_good.
  - by apply Hact, slow_good.
  - eapply (Hone (EFirst i false)); [constructor|cbn; unfold with_call, first_poll; rewrite Hi, Hpc; done|by eapply set_pc_call|cbn; lia|done].
  - destruct (waiting_progress w i cl c v Hinv Hi Hpc) as [(w1 & pc & He & Hi1 & Hlt & Hc1)|(j & w1 & w2 & cj & c' & Hj & Hpj & He1 & He2 & Hi2)].
    + eapply (Hone (EPoll i)); [constructor|done|done|lia|done].
    + destruct (IH 2%nat ltac:(lia) w2 (mkCall (c_key cl) (CGot c (Value v)))) as (es & w' & Hl & Hf); [eapply step_inv; [by eapply step_inv|done]|done|done|cbn; lia|].
      exists (EInit j (FReady v) :: EPoll i :: es), w'. split; [cbn; lia|]. eapply finishes_step; [by econstructor|done|]. eapply finishes_step; [constructor|done|done].
  - destruct (held w Hinv i cl c Hi) as (He & x & Hx & _); [by rewrite Hpc|].
    eapply (Hone (EInit i (FReady v))); [by econstructor|cbn; unfold with_call, poll_init; rewrite Hi, Hpc, Hx; done|by eapply set_pc_call|cbn; lia|done].
  - apply Hact. by eapply got_good.
  - apply Hact. destruct (act_good w i cl Hinv Hi) as [Ha|Ha]; [|done]. unfold act in Ha. by rewrite Hpc in Ha.
  - exists [], w. split; [cbn; lia|]. by econstructor.
Qed.

Lemma finishes_runs i v (w : World (K := K) (M := M)) es w' : finishes i v w es w' ->
  world_run es w = Ok w' /\ exists cl c r, calls w' !! i = Some cl /\ c_pc cl = CDone c r.
Proof. induction 1 as [|w e w1 es w2 _ He _ [IH Hd]]; [split; [done|]; by eexists _, _, _|]. cbn. by rewrite He. Qed.

Lemma holder_of c (R : list (K * option nat * bool)) : holders c R <> 0%nat -> exists i k b, R !! i = Some (k, Some c, b).
Proof.
  unfold holders. destruct (filter _ R) as [|[[k h] b] l] eqn:Ef; [done|]. intros _.
  assert (Hin : (k, h, b) ∈ filter (fun x => x.1.2 = Some c) R) by (rewrite Ef; left).
  apply list_elem_of_filter in Hin as [Hh Hin]. cbn in Hh. subst h. apply list_elem_of_lookup in Hin as [i Hi]. eauto.
Qed.

Lemma entry_excused (w : World (K := K) (M := M)) k c : inv w -> entries w !! k = Some c ->
  exists i cl, calls w !! i = Some cl /\ c_key cl = k /\ (holds (c_pc cl) = Some c \/ unchecked (c_pc cl) = true).
Proof.
  intros Hw Hk. pose proof (inv_refs _ Hw) as Hrefs. pose proof (refs_range _ _ _ Hrefs _ _ Hk) as Hl. apply lookup_lt_is_Some in Hl as [n Hn].
  assert (Hcall : forall i x, (ref_of <$> calls w) !! i = Some x -> exists cl, calls w !! i = Some cl /\ ref_of cl = x).
  { intros i x Hx. apply list_lookup_fmap_Some in Hx as (cl & Hcl & ->). eauto. }
  destruct n as [|n].
  - destruct (refs_stale _ _ _ Hrefs _ _ Hk Hn) as (i & h & Hi). destruct (Hcall _ _ Hi) as (cl & Hcl & [= <- _ Hu]). exists i, cl. auto.
  - destruct (holder_of c (ref_of <$> calls w)) as (i & k' & b & Hi); [rewrite <- (refs_count _ _ _ Hrefs _ _ Hn); done|].
    pose proof (refs_held _ _ _ Hrefs _ _ _ _ Hi) as Hk'. destruct (Hcall _ _ Hi) as (cl & Hcl & [= <- Hh _]).
    exists i, cl. split; [done|]. split; [by eapply (refs_inj _ _ _ Hrefs)|auto].
Qed.

(** *** A call that is dropped leaves its entry *)
Lemma set_last (k : K) pc pc' (E : M nat) C cs : set_pc (length cs) (mkCall k pc) pc' (mkWorld E C (cs ++ [mkCall k pc])) = mkWorld E C (cs ++ [mkCall k pc']).
Proof. unfold set_pc. cbn. rewrite insert_app_r_alt, Nat.sub_diag by done. done. Qed.

Lemma call_last (k : K) pc (E : M nat) C cs (f : Call -> step_result (K := K) (M := M)) :
  with_call (length cs) (mkWorld E C (cs ++ [mkCall k pc])) f = f (mkCall k pc).
Proof. unfold with_call. cbn. by rewrite list_lookup_middle. Qed.

Lemma run_cons e es (w w' : World (K := K) (M := M)) : world_step e w = Ok w' -> world_run (e :: es) w = world_run es w'.
Proof. intros He. cbn. by rewrite He. Qed.

Definition cancelled_call (k : K) (w : World (K := K) (M := M)) : list (Event (T := T) (K := K)) :=
  let i := length (calls w) in [EExecute k; EAct i; EAct i; EDrop i; EAct i].

Lemma cancel_one (w : World (K := K) (M := M)) k : entries w !! k = None -> exists w', world_run (cancelled_call k w) w = Ok w'
  /\ entries w' = <[k := length (cells w)]> (entries w) /\ calls w' = calls w ++ [mkCall k CDropped].
Proof.
  intros Hk. destruct w as [E C cs]. cbn in Hk.
  unfold cancelled_call. cbn [calls entries cells]. erewrite run_cons; [|done]. cbn [calls entries cells].
  erewrite run_cons; [|cbn; rewrite call_last; unfold act, get_existing; cbn; rewrite Hk; cbn; rewrite set_last; done].
  erewrite run_cons; [|cbn; rewrite call_last; unfold act, insert_or_get_existing; cbn; rewrite Hk; rewrite set_last; done].
  erewrite run_cons; [|cbn; rewrite call_last; unfold drop_future; cbn; rewrite set_last; done].
  erewrite run_cons; [|cbn; rewrite call_last; unfold act, drop_arc; cbn; rewrite list_lookup_middle by done; cbn; rewrite set_last; done].
  cbn. eexists. done.
Qed.

Lemma cancel_all ks : NoDup ks -> exists es w, world_run es (merger_new (M := M)) = Ok w /\ Forall (fun cl => c_pc cl = CDropped) (calls w)
  /\ forall k, k ∈ ks <-> is_Some (entries w !! k).
Proof.
  intros Hnd. induction Hnd as [|k ks Hk _ (es & w & Hrun & Hall & Hdom)].
  - exists [], merger_new. split; [done|]. split; [constructor|]. intros k. cbn. rewrite lookup_empty. split; [by intros ?%not_elem_of_nil|by intros []].
  - destruct (cancel_one w k) as (w' & Hrun' & He & Hc); [apply eq_None_not_Some; by rewrite <- Hdom|]. exists (es ++ cancelled_call k w), w'. split_and!.
    + clear - Hrun Hrun'. revert Hrun. generalize (merger_new (K := K) (M := M)). induction es as [|e es IH]; cbn; intros w0 Hrun; [by injection Hrun as ->|].
      destruct (world_step e w0); [by apply IH|done|done].
    + rewrite Hc. apply Forall_app. split; [done|by constructor].
    + intros k'. rewrite He, elem_of_cons, lookup_insert_is_Some', Hdom. naive_solver.
Qed.

(** ** The properties *)

(** C24. The merger implements one flight per key: no interleaving of calls, polls, completions,
    panics and cancellations panics, and every state it reaches is one the specification reaches by
    moves that stand for events of the run.  In particular a call that comes while its key has
    members joins them, one member leads at a time, and every returned result was computed by the
    initializer of some call. *)
Theorem merger_refines_single_flight es :
  world_run es (merger_new (M := M)) <> Panic /\ forall w, world_run es merger_new = Ok w ->
    exists ms, spec_run ms spec_new = Some (abs w) /\ Forall (fun m => exists e, e ∈ es /\ explains e m) ms
    /\ forall i r, callers (abs w) !! i = Some (Returned r) -> exists j p, EInit j p ∈ es /\ caught p = Some r.
Proof.
  destruct (run_good _ es merger_inv_new) as [Hr|(w' & Hr & Hw & ms & Hms & Hex)]; rewrite Hr; [done|]. split; [done|]. intros w [= <-].
  rewrite abs_new in Hms. exists ms. split; [done|]. split; [done|]. intros i r Hi.
  destruct (sourced_callers _ _ (sourced_run [] ms _ _ sourced_new Hms) i r Hi) as [j Hj].
  rewrite Forall_forall in Hex. destruct (Hex _ Hj) as (e & He & p & -> & Hp). by exists j, p.
Qed.

(** Calls of one key share their flight: any two that hold a cell hold the same one, at most one
    of them runs its initializer, none does once there is a result, and all that used a cell have
    the same result. *)
Theorem flights_are_shared es w i j ci cj : world_run es (merger_new (M := M)) = Ok w -> calls w !! i = Some ci -> calls w !! j = Some cj ->
  (c_key ci = c_key cj -> forall c c', holds (c_pc ci) = Some c -> holds (c_pc cj) = Some c' -> c = c')
  /\ (c_key ci = c_key cj -> forall c c', c_pc ci = CLeader c -> c_pc cj = CLeader c' -> i = j)
  /\ (forall c r, c_pc ci = CLeader c -> result_of (c_pc cj) <> Some (c, r))
  /\ (forall c r r', result_of (c_pc ci) = Some (c, r) -> result_of (c_pc cj) = Some (c, r') -> r = r').
Proof.
  intros Hw%reachable Hi Hj. pose proof (inv_onces _ Hw) as Ho.
  assert (Hsame : c_key ci = c_key cj -> forall c c', holds (c_pc ci) = Some c -> holds (c_pc cj) = Some c' -> c = c').
  { intros Hk c c' Hc Hc'. destruct (held w Hw i ci c Hi Hc) as [He _], (held w Hw j cj c' Hj Hc') as [He' _]. congruence. }
  split; [done|]. split_and!.
  - intros Hk c c' Hc Hc'. assert (c = c') as <- by (apply Hsame; rewrite ?Hc, ?Hc'; done).
    destruct (onces_leader _ _ Ho i c ci Hi Hc) as (o & Hoc & Hr), (onces_leader _ _ Ho j c cj Hj Hc') as (o' & Hoc' & Hr'). congruence.
  - intros c r Hc Hr. destruct (onces_leader _ _ Ho i c ci Hi Hc) as (o & Hoc & Hrun), (onces_result _ _ Ho j cj c r Hj Hr) as (o' & Hoc' & Hv).
    simplify_eq. apply (onces_settled _ _ Ho c) in Hv; congruence.
  - intros c r r' Hr Hr'. destruct (onces_result _ _ Ho i ci c r Hi Hr) as (o & Hoc & Hv), (onces_result _ _ Ho j cj c r' Hj Hr') as (o' & Hoc' & Hv'). congruence.
Qed.

(** Nobody is stranded: in every reachable state, whatever was cancelled before, a call that is
    not itself cancelled returns after at most seven steps, its own and the completion of the call
    that leads. *)
Theorem every_call_finishes es w i cl v : world_run es (merger_new (M := M)) = Ok w -> calls w !! i = Some cl -> cancelled (c_pc cl) = false ->
  exists es' w' cl' c r, (length es' <= 7)%nat /\ finishes i v w es' w' /\ world_run es' w = Ok w' /\ calls w' !! i = Some cl' /\ c_pc cl' = CDone c r.
Proof.
  intros Hw%reachable Hi Hc. destruct (finish_within 7 w i cl v Hw Hi Hc) as (es' & w' & Hl & Hf); [destruct (c_pc cl); cbn; lia|].
  destruct (finishes_runs _ _ _ _ _ Hf) as (Hrun & cl' & c & r & Hi' & Hpc). by exists es', w', cl', c, r.
Qed.

(** C40. Entries are removed with their last caller: an entry of a reachable state is held by a call
    of its key, about to be checked by one, or left by a cancelled one; when every call has
    returned the map is empty.  Cancelled calls alone leave any set of keys behind. *)
Theorem entries_are_cleaned_up : (forall es w, world_run es (merger_new (M := M)) = Ok w ->
    (forall k c, entries w !! k = Some c -> exists i cl, calls w !! i = Some cl /\ c_key cl = k /\ (holds (c_pc cl) = Some c \/ unchecked (c_pc cl) = true))
    /\ (Forall (fun cl => exists c r, c_pc cl = CDone c r) (calls w) -> entries w = ∅))
  /\ forall ks, NoDup ks -> exists es w, world_run es (merger_new (M := M)) = Ok w /\ Forall (fun cl => c_pc cl = CDropped) (calls w)
    /\ forall k, k ∈ ks <-> is_Some (entries w !! k).
Proof.
  split; [|apply cancel_all]. intros es w Hw%reachable.
  assert (He : forall k c, entries w !! k = Some c -> exists i cl, calls w !! i = Some cl /\ c_key cl = k /\ (holds (c_pc cl) = Some c \/ unchecked (c_pc cl) = true)).
  { intros k c Hk. by apply entry_excused. }
  split; [done|]. intros Hall. apply map_eq. intros k. rewrite lookup_empty. destruct (entries w !! k) as [c|] eqn:Hk; [|done].
  destruct (He _ _ Hk) as (i & cl & Hi & _ & Hh). rewrite Forall_lookup in Hall. destruct (Hall _ _ Hi) as (c' & r & Hpc). rewrite Hpc in Hh. by destruct Hh.
Qed.

End invariant.

(** ** The contract holds of a plain cell *)
Record PlainCell (T : Type) : Type := mkPlain { pl_value : option (Output (T := T)); pl_running : option nat }.
Arguments mkPlain {T}.
Arguments pl_value {T}.
Arguments pl_running {T}.

Definition plain_poll {T} (i : nat) (c : PlainCell T) : PlainCell T * CellPoll :=
  match pl_value c, pl_running c with
  | Some r, _ => (c, CReady r)
  | None, None => (mkPlain None (Some i), CInit)
  | None, Some j => (c, if decide (i = j) then CInit else CPending)
  end.

#[export] Instance plain_cell {T} : OnceCell (T := T) := {|
  oc := PlainCell T; oc_new := mkPlain None None; oc_poll := plain_poll; oc_complete i r c := mkPlain (Some r) None;
  oc_drop i c := mkPlain (pl_value c) (if decide (pl_running c = Some i) then None else pl_running c);
  oc_value := pl_value; oc_running := pl_running |}.

#[export] Instance plain_cell_laws {T} : OnceCellLaws (T := T).
Proof.
  split; cbn; unfold plain_poll; try done.
  - intros i c r Hv. by rewrite Hv.
  - intros i c Hv Hr. by rewrite Hv, Hr.
  - intros i j c Hv Hr Hne. rewrite Hv, Hr, decide_False by done. done.
Qed.

(** Two calls of key 5 share a flight; the first leader is dropped, the second call leads and panics,
    and a third call of the key gets the same error. *)
Definition shared_run : list (Event (T := Z) (K := nat)) :=
  [EExecute 5; EExecute 5; EAct 0; EAct 1; EAct 0; EAct 1; EFirst 0 false; EFirst 1 false; EPoll 0; EPoll 1; EInit 0 FPending; EDrop 0;
   EPoll 1; EAct 0; EExecute 5; EAct 2; EFirst 2 false; EPoll 2; EInit 1 (FPanic (PString (str "boom"))); EAct 1; EPoll 2; EAct 2; EAct 1]%nat.

Definition boom : Output (T := Z) := LeaderErr (mkLeaderPanicked (str "boom")).

Definition world0 : World (T := Z) (K := nat) (M := gmap nat) := merger_new.

Definition calls_after (es : list (Event (T := Z) (K := nat))) : list (nat * Pc) :=
  match world_run es world0 with Ok w => (fun cl => (c_key cl, c_pc cl)) <$> calls w | _ => [] end.

Lemma calls_at es w i k pc : world_run es world0 = Ok w -> calls_after es !! i = Some (k, pc) -> calls w !! i = Some (mkCall k pc).
Proof. unfold calls_after. intros ->. rewrite list_lookup_fmap_Some. intros ([k' pc'] & Heq & Hcl). cbn in Heq. by injection Heq as -> ->. Qed.

Lemma merger_refines_single_flight_witness : exists w, world_run shared_run world0 = Ok w
  /\ calls_after shared_run = [(5, CDropped); (5, CDone 0 boom); (5, CCleanup 0 boom)]%nat
  /\ exists ms, spec_run ms spec_new = Some (abs w) /\ exists j p, EInit j p ∈ shared_run /\ caught p = Some boom.
Proof.
  destruct (merger_refines_single_flight (M := gmap nat) shared_run) as [_ Hw].
  destruct (world_run shared_run world0) as [w|e|] eqn:Hrun; [|vm_compute in Hrun; discriminate..].
  exists w. split; [reflexivity|]. split; [vm_compute; reflexivity|]. destruct (Hw w Hrun) as (ms & Hms & _ & Hret). exists ms. split; [exact Hms|].
  apply (Hret 1%nat boom). cbn. rewrite list_lookup_fmap, (calls_at shared_run w 1 5 (CDone 0 boom) Hrun); [reflexivity|vm_compute; reflexivity].
Defined.

Lemma flights_are_shared_witness : exists w, world_run shared_run world0 = Ok w /\ forall r, result_of (CDone 0 boom) = Some (0%nat, r) -> boom = r.
Proof.
  destruct (world_run shared_run world0) as [w|e|] eqn:Hrun; [|vm_compute in Hrun; discriminate..]. exists w. split; [reflexivity|].
  intros r Hr. destruct (flights_are_shared (M := gmap nat) shared_run w 2 1 (mkCall 5%nat (CCleanup 0 boom)) (mkCall 5%nat (CDone 0 boom)) Hrun) as (_ & _ & _ & Hres).
  - eapply calls_at; [exact Hrun|vm_compute; reflexivity].
  - eapply calls_at; [exact Hrun|vm_compute; reflexivity].
  - exact (Hres 0%nat boom r eq_refl Hr).
Defined.

Lemma every_call_finishes_witness : exists w es' w' cl' c r, world_run (take 14 shared_run) world0 = Ok w /\ (length es' <= 7)%nat /\ world_run es' w = Ok w'
  /\ calls w' !! 1%nat = Some cl' /\ c_pc cl' = CDone c r.
Proof.
  destruct (world_run (take 14 shared_run) world0) as [w|e|] eqn:Hrun; [|vm_compute in Hrun; discriminate..].
  destruct (every_call_finishes (M := gmap nat) (take 14 shared_run) w 1 (mkCall 5%nat (CLeader 0)) 7%Z Hrun) as (es' & w' & cl' & c & r & Hl & _ & Hr & Hi & Hpc).
  - eapply calls_at; [exact Hrun|vm_compute; reflexivity].
  - reflexivity.
  - exists w, es', w', cl', c, r. split; [reflexivity|]. split; [exact Hl|]. split; [exact Hr|]. split; [exact Hi|exact Hpc].
Defined.

Definition returned_run : list (Event (T := Z) (K := nat)) := [EExecute 5; EAct 0; EAct 0; EFirst 0 false; EPoll 0; EInit 0 (FReady 42%Z); EAct 0; EAct 0]%nat.

Lemma entries_are_cleaned_up_witness : exists w, world_run returned_run world0 = Ok w /\ entries w = ∅.
Proof.
  destruct (world_run returned_run world0) as [w|e|] eqn:Hrun; [|vm_compute in Hrun; discriminate..]. exists w. split; [reflexivity|].
  apply (proj1 (entries_are_cleaned_up (K := nat) (M := gmap nat)) returned_run w Hrun).
  assert (Hc : calls_after returned_run = [(5%nat, CDone 0 (Value 42%Z))]) by (vm_compute; reflexivity).
  unfold calls_after in Hc. rewrite Hrun in Hc. destruct (calls w) as [|[k pc] [|]]; try discriminate. injection Hc as -> ->.
  constructor; [exists 0%nat, (Value 42%Z); reflexivity|constructor].
Defined.
