(* ===== verification/SlotList.v ===== *)
(** * [performables]: the list of waiters

    [src/crates/performables/src/sync/slot_list.rs]: a doubly linked list threaded through a
    vector of slots, with a free list through the same links and a generation per slot that
    tells a registration from an earlier one of the same slot. *)
From S2P Require Import Prelude.

Abbreviation result := (outcome Empty_set).
Open Scope Z_scope.

(** ** The source *)
Record Key : Type := mkKey { index : nat; k_generation : Z }.

#[export] Instance key_eq_dec : EqDecision Key.
Proof. solve_decision. Defined.

Section slot_list.
Context {T : Type}.

Record Slot : Type := mkSlot { s_value : option T; previous : option nat; next : option nat; generation : Z }.

Record SlotList : Type := mkSlotList { slots : list Slot; first : option nat; last : option nat; free : option nat; len : nat }.

Definition slot_list_new : SlotList := mkSlotList [] None None None 0.

Definition is_empty (l : SlotList) : bool := Nat.eqb (len l) 0.

(** [self.slots[i]], which panics out of range, and a write to a field of it. *)
Definition slot_at (sl : list Slot) (i : nat) : result Slot := match sl !! i with Some s => Ok s | None => Panic end.

Definition write (sl : list Slot) (i : nat) (f : Slot -> Slot) : result (list Slot) :=
  let? s := slot_at sl i in Ok (<[i := f s]> sl).

Definition set_next (n : option nat) (s : Slot) : Slot := mkSlot (s_value s) (previous s) n (generation s).
Definition set_previous (p : option nat) (s : Slot) : Slot := mkSlot (s_value s) p (next s) (generation s).

(** The slot a value goes to: the first free one, in its next generation, or a new one. *)
Definition take_slot (l : SlotList) : result (SlotList * nat) :=
  match free l with
  | Some i =>
      let? s := slot_at (slots l) i in
      let s' := mkSlot (s_value s) (previous s) (next s) (wrap64 (generation s + 1)) in
      Ok (mkSlotList (<[i := s']> (slots l)) (first l) (last l) (next s) (len l), i)
  | None =>
      let i := length (slots l) in
      Ok (mkSlotList (slots l ++ [mkSlot None None None 0]) (first l) (last l) (free l) (len l), i)
  end.

Definition push_back (l : SlotList) (v : T) : result (SlotList * Key) :=
  let? (l, i) := take_slot l in
  let? s := slot_at (slots l) i in
  let sl := <[i := mkSlot (Some v) (last l) None (generation s)]> (slots l) in
  let key := mkKey i (generation s) in
  match last l with
  | Some a => let? sl := write sl a (set_next (Some i)) in Ok (mkSlotList sl (first l) (Some i) (free l) (S (len l)), key)
  | None => Ok (mkSlotList sl (Some i) (Some i) (free l) (S (len l)), key)
  end.

Definition get_mut (l : SlotList) (k : Key) : option T :=
  match slots l !! index k with
  | Some s => if generation s =? k_generation k then s_value s else None
  | None => None
  end.

(** A write through the reference of [get_mut]. *)
Definition assign_mut (l : SlotList) (k : Key) (v : T) : SlotList :=
  match get_mut l k, slots l !! index k with
  | Some _, Some s => mkSlotList (<[index k := mkSlot (Some v) (previous s) (next s) (generation s)]> (slots l)) (first l) (last l) (free l) (len l)
  | _, _ => l
  end.

Definition unlink_previous (l : SlotList) (p n : option nat) : result SlotList :=
  match p with
  | Some p => let? sl := write (slots l) p (set_next n) in Ok (mkSlotList sl (first l) (last l) (free l) (len l))
  | None => Ok (mkSlotList (slots l) n (last l) (free l) (len l))
  end.

Definition unlink_next (l : SlotList) (p n : option nat) : result SlotList :=
  match n with
  | Some n => let? sl := write (slots l) n (set_previous p) in Ok (mkSlotList sl (first l) (last l) (free l) (len l))
  | None => Ok (mkSlotList (slots l) (first l) p (free l) (len l))
  end.

Definition remove (l : SlotList) (k : Key) : result (SlotList * option T) :=
  match slots l !! index k with
  | None => Ok (l, None)
  | Some s =>
      if negb (generation s =? k_generation k) || bool_decide (s_value s = None) then Ok (l, None)
      else
        let? l := unlink_previous l (previous s) (next s) in
        let? l := unlink_next l (previous s) (next s) in
        let? s := slot_at (slots l) (index k) in
        let sl := <[index k := mkSlot None None (free l) (generation s)]> (slots l) in
        match len l with
        | O => Panic
        | S n => Ok (mkSlotList sl (first l) (last l) (Some (index k)) n, s_value s)
        end
  end.

Definition remove_index_if (l : SlotList) (i : nat) (matches : T -> bool) : result (SlotList * option T) :=
  match slots l !! i with
  | Some (mkSlot (Some v) _ _ g) => if matches v then remove l (mkKey i g) else Ok (l, None)
  | _ => Ok (l, None)
  end.

Definition pop_front (l : SlotList) : result (SlotList * option T) :=
  match first l with
  | None => Ok (l, None)
  | Some i => let? s := slot_at (slots l) i in remove l (mkKey i (generation s))
  end.

(** ** The sequence a list stands for

    Entries in order, each with its key.  [segment sl p es n]: the slots of [es] are linked in
    order, after [p] and before [n]. *)
Definition entry_index (e : Key * T) : nat := index e.1.

Fixpoint segment (sl : list Slot) (p : option nat) (es : list (Key * T)) (n : option nat) : Prop :=
  match es with
  | [] => True
  | e :: es => sl !! entry_index e = Some (mkSlot (Some e.2) p (from_option (Some ∘ entry_index) n (head es)) (k_generation e.1))
               /\ segment sl (Some (entry_index e)) es n
  end.

Fixpoint free_chain (sl : list Slot) (i : option nat) (fs : list nat) : Prop :=
  match fs with
  | [] => i = None
  | f :: fs => i = Some f /\ exists s, sl !! f = Some s /\ s_value s = None /\ free_chain sl (next s) fs
  end.

(** The list [l] stands for the entries [es]; [fs] is its free list. *)
Record models (l : SlotList) (es : list (Key * T)) (fs : list nat) : Prop := {
  m_segment : segment (slots l) None es None;
  m_first : first l = entry_index <$> head es;
  m_last : last l = entry_index <$> list.last es;
  m_free : free_chain (slots l) (free l) fs;
  m_slots : (entry_index <$> es) ++ fs ≡ₚ seq 0 (length (slots l));
  m_len : len l = length es }.

Lemma segment_app sl p es es' n : segment sl p (es ++ es') n <->
  segment sl p es (from_option (Some ∘ entry_index) n (head es')) /\ segment sl (from_option (Some ∘ entry_index) p (list.last es)) es' n.
Proof.
  revert p. induction es as [|e es IH]; intros p; cbn; [tauto|]. rewrite IH.
  assert (Hl : from_option (Some ∘ entry_index) p (list.last (e :: es)) = from_option (Some ∘ entry_index) (Some (entry_index e)) (list.last es)).
  { rewrite last_cons. by destruct (list.last es). }
  rewrite <- Hl. destruct es; cbn; tauto.
Qed.

Lemma segment_frame sl p es n i s : (forall e, e ∈ es -> entry_index e <> i) -> segment (<[i := s]> sl) p es n <-> segment sl p es n.
Proof.
  revert p. induction es as [|e es IH]; intros p Hi; cbn; [done|]. rewrite IH by (intros; apply Hi; by right).
  rewrite list_lookup_insert_ne; [done|]. intros ->. by apply (Hi e); [left|].
Qed.

Lemma segment_grow sl p es n s : segment sl p es n -> segment (sl ++ [s]) p es n.
Proof.
  revert p. induction es as [|e es IH]; intros p; cbn; [done|]. intros [He Hs]. split; [by apply lookup_app_l_Some|by apply IH].
Qed.

Lemma free_frame sl i fs j s : j ∉ fs -> free_chain (<[j := s]> sl) i fs <-> free_chain sl i fs.
Proof.
  revert i. induction fs as [|f fs IH]; intros i Hj; cbn; [done|]. apply not_elem_of_cons in Hj as [Hne Hj].
  rewrite list_lookup_insert_ne by done. split; intros (Hi & x & Hx & Hv & Hc); (split; [done|]); exists x; (split; [done|]); (split; [done|]); by apply IH.
Qed.

Lemma free_grow sl i fs s : free_chain sl i fs -> free_chain (sl ++ [s]) i fs.
Proof.
  revert i. induction fs as [|f fs IH]; intros i; cbn; [done|]. intros (Hi & x & Hx & Hv & Hc). split; [done|]. exists x. split; [by apply lookup_app_l_Some|]. auto.
Qed.

(** *** Facts of a well-formed list *)
Section models.
Context (l : SlotList) (es : list (Key * T)) (fs : list nat) (Hm : models l es fs).

Lemma models_nodup : NoDup ((entry_index <$> es) ++ fs).
Proof. rewrite (m_slots _ _ _ Hm). apply NoDup_seq. Qed.

Lemma models_range i : i ∈ (entry_index <$> es) ++ fs <-> (i < length (slots l))%nat.
Proof. rewrite (m_slots _ _ _ Hm), elem_of_seq. lia. Qed.

Lemma entry_slot e : e ∈ es -> exists p n, slots l !! entry_index e = Some (mkSlot (Some e.2) p n (k_generation e.1)).
Proof.
  intros He. apply list_elem_of_split in He as (A & B & ->). pose proof (m_segment _ _ _ Hm) as Hs. rewrite segment_app in Hs. cbn in Hs.
  destruct Hs as [_ [Hs _]]. eauto.
Qed.

Lemma free_slot i : i ∈ fs -> exists s, slots l !! i = Some s /\ s_value s = None.
Proof.
  pose proof (m_free _ _ _ Hm) as Hf. revert Hf. generalize (free l). clear. induction fs as [|f fs' IH]; intros o Hf Hi; [by apply not_elem_of_nil in Hi|].
  cbn in Hf. destruct Hf as (_ & s & Hs & Hv & Hc). apply elem_of_cons in Hi as [->|Hi]; [eauto|]. by eapply IH.
Qed.

Lemma entry_not_free e : e ∈ es -> entry_index e ∉ fs.
Proof. intros He Hf. pose proof models_nodup as Hn. apply NoDup_app in Hn as (_ & Hd & _). apply (Hd (entry_index e)); [by apply list_elem_of_fmap_2|done]. Qed.

Lemma entries_apart A e B : es = A ++ e :: B -> forall e', e' ∈ A ++ B -> entry_index e' <> entry_index e.
Proof.
  intros Hes e' He' Heq. pose proof models_nodup as Hn. rewrite Hes in Hn. apply NoDup_app in Hn as (Hn & _ & _). rewrite fmap_app, fmap_cons in Hn.
  apply NoDup_app in Hn as (_ & Hd & Hn). apply NoDup_cons in Hn as [Hi _]. apply elem_of_app in He' as [He'|He'].
  - apply (Hd (entry_index e')); [by apply list_elem_of_fmap_2|]. rewrite Heq. by left.
  - apply Hi. rewrite <- Heq. by apply list_elem_of_fmap_2.
Qed.

(** A slot of the key's index whose generation is the key's and that has a value is the key's entry. *)
Lemma find_entry k s : slots l !! index k = Some s -> generation s = k_generation k -> s_value s <> None -> exists v, (k, v) ∈ es /\ s_value s = Some v.
Proof.
  intros Hs Hg Hv. assert (Hi : index k ∈ (entry_index <$> es) ++ fs) by (apply models_range; by eapply lookup_lt_Some).
  apply elem_of_app in Hi as [Hi|Hi].
  - apply list_elem_of_fmap in Hi as ([k' v] & Hk & He). destruct (entry_slot _ He) as (p & n & Hs'). unfold entry_index in *. cbn in *.
    rewrite <- Hk, Hs in Hs'. injection Hs' as ->. cbn in *. exists v. split; [|done]. destruct k, k'. cbn in *. by subst.
  - destruct (free_slot _ Hi) as (s' & Hs' & Hv'). congruence.
Qed.

Lemma get_entry k v : (k, v) ∈ es -> get_mut l k = Some v.
Proof. intros He. destruct (entry_slot _ He) as (p & n & Hs). unfold get_mut. unfold entry_index in Hs. cbn in Hs. rewrite Hs. cbn. by rewrite Z.eqb_refl. Qed.

Lemma get_no_entry k : (forall v, (k, v) ∉ es) -> get_mut l k = None.
Proof.
  intros Hk. unfold get_mut. destruct (slots l !! index k) as [s|] eqn:Hs; [|done]. destruct (Z.eqb_spec (generation s) (k_generation k)) as [Hg|]; [|done].
  destruct (s_value s) as [v|] eqn:Hv; [|done]. exfalso. destruct (find_entry k s Hs Hg) as (v' & He & _); [by rewrite Hv|]. by apply Hk in He.
Qed.

Lemma remove_no_entry k : (forall v, (k, v) ∉ es) -> remove l k = Ok (l, None).
Proof.
  intros Hk. apply get_no_entry in Hk. unfold get_mut in Hk. unfold remove. destruct (slots l !! index k) as [s|]; [|done].
  destruct (generation s =? k_generation k); [|done]. by rewrite Hk.
Qed.

End models.

(** *** Pushing *)
Lemma take_slot_ok l es fs : models l es fs -> exists l' i s fs', take_slot l = Ok (l', i) /\ slots l' !! i = Some s
  /\ segment (slots l') None es None /\ first l' = first l /\ last l' = last l /\ len l' = len l /\ free_chain (slots l') (free l') fs'
  /\ (entry_index <$> es) ++ i :: fs' ≡ₚ seq 0 (length (slots l'))
  /\ ((slots l !! i = None /\ generation s = 0 /\ slots l' = slots l ++ [s]) \/ exists s0, slots l !! i = Some s0 /\ generation s = wrap64 (generation s0 + 1) /\ slots l' = <[i := s]> (slots l)).
Proof.
  intros Hm. destruct Hm as [Hs H1 H2 Hf Hp Hl]. unfold take_slot. destruct (free l) as [i|] eqn:Hfree.
  - destruct fs as [|f fs]; [done|]. cbn in Hf. destruct Hf as ([= <-] & s & Hi & Hv & Hc). unfold slot_at. rewrite Hi.
    assert (Hnd : NoDup ((entry_index <$> es) ++ i :: fs)) by (rewrite Hp; apply NoDup_seq).
    apply NoDup_app in Hnd as (_ & Hd & Hnd). apply NoDup_cons in Hnd as [Hni _].
    eexists _, i, _, fs. split; [done|]. cbn. split; [apply list_lookup_insert_eq; by eapply lookup_lt_Some|]. split_and!; try done.
    + apply segment_frame; [|done]. intros e He Heq. apply (Hd i); [rewrite <- Heq; by apply list_elem_of_fmap_2|by left].
    + by apply free_frame.
    + by rewrite length_insert.
    + right. exists s. done.
  - destruct fs as [|f fs]; [|cbn in Hf; by destruct Hf as [Hf _]]. eexists _, _, _, []. split; [done|]. cbn. split; [by apply list_lookup_middle|].
    split_and!; try done; [by apply segment_grow| |].
    + rewrite length_app, seq_app. cbn. rewrite <- Hp, app_nil_r. done.
    + left. split; [by apply lookup_ge_None_2|done].
Qed.

Definition gens (l : SlotList) (i : nat) : option Z := generation <$> slots l !! i.

(** The new last slot is linked behind the old one. *)
Lemma link_back sl A a e : segment sl None (A ++ [a]) None -> NoDup (entry_index <$> A ++ [a; e]) -> (entry_index e < length sl)%nat ->
  let sl1 := <[entry_index e := mkSlot (Some e.2) (Some (entry_index a)) None (k_generation e.1)]> sl in
  exists s, sl1 !! entry_index a = Some s /\ generation <$> sl !! entry_index a = Some (generation s)
    /\ segment (<[entry_index a := set_next (Some (entry_index e)) s]> sl1) None (A ++ [a; e]) None.
Proof.
  intros Hseg Hnd Hlt sl1. rewrite fmap_app in Hnd. cbn in Hnd. apply NoDup_app in Hnd as (_ & Hd & Hnd). apply NoDup_cons in Hnd as [Hae _].
  assert (Hne : entry_index a <> entry_index e) by (intros Heq; apply Hae; rewrite Heq; by left).
  rewrite segment_app in Hseg. cbn in Hseg. destruct Hseg as [HA [Ha _]]. pose proof (lookup_lt_Some _ _ _ Ha) as Hla.
  exists (mkSlot (Some a.2) (from_option (Some ∘ entry_index) None (list.last A)) None (k_generation a.1)).
  unfold sl1. rewrite list_lookup_insert_ne, Ha by done. split; [done|]. split; [done|]. rewrite segment_app. cbn. split.
  - rewrite !segment_frame; [done| |]; intros x Hx Heq; (apply (Hd (entry_index x)); [by apply list_elem_of_fmap_2|rewrite Heq]); [right; by left|by left].
  - rewrite list_lookup_insert_eq by (by rewrite length_insert). split; [done|]. rewrite list_lookup_insert_ne, list_lookup_insert_eq by done. done.
Qed.

(** The generations after the slot [i] was taken. *)
Lemma taken_gens (l l1 : SlotList) i s : slots l1 !! i = Some s ->
  ((slots l !! i = None /\ generation s = 0 /\ slots l1 = slots l ++ [s]) \/ exists s0, slots l !! i = Some s0 /\ generation s = wrap64 (generation s0 + 1) /\ slots l1 = <[i := s]> (slots l)) ->
  (forall j, j <> i -> gens l1 j = gens l j) /\ match gens l i with None => generation s = 0 | Some g => generation s = wrap64 (g + 1) end.
Proof.
  unfold gens. intros Hi [(Hn & Hg & Hs)|(s0 & Hs0 & Hg & ->)].
  - rewrite Hn. split; [|done]. intros j Hj. apply lookup_ge_None in Hn. pose proof (lookup_lt_Some _ _ _ Hi) as Hlt. rewrite Hs, length_app in Hlt. cbn in Hlt.
    rewrite Hs, lookup_app. destruct (slots l !! j) as [x|] eqn:Hj'; [done|]. apply lookup_ge_None in Hj'. destruct (j - length (slots l))%nat eqn:He; [lia|done].
  - rewrite Hs0. split; [|done]. intros j Hj. by rewrite list_lookup_insert_ne.
Qed.

Lemma push_ok l es fs v : models l es fs -> exists l' k fs', push_back l v = Ok (l', k) /\ models l' (es ++ [(k, v)]) fs'
  /\ (forall j, j <> index k -> gens l' j = gens l j) /\ gens l' (index k) = Some (k_generation k)
  /\ match gens l (index k) with None => k_generation k = 0 | Some g => k_generation k = wrap64 (g + 1) end.
Proof.
  intros Hm. destruct (take_slot_ok l es fs Hm) as (l1 & i & s & fs' & Ht & Hi & Hseg & Hf & Hla & Hlen & Hfree & Hp & Hgen).
  destruct (taken_gens l l1 i s Hi Hgen) as [Hg1 Hgk]. pose proof (lookup_lt_Some _ _ _ Hi) as Hlt.
  set (e := (mkKey i (generation s), v)).
  assert (Hp' : (entry_index <$> es ++ [e]) ++ fs' ≡ₚ seq 0 (length (slots l1))) by (rewrite fmap_app, <- app_assoc; exact Hp).
  assert (Hnd : NoDup ((entry_index <$> es ++ [e]) ++ fs')) by (rewrite Hp'; apply NoDup_seq). apply NoDup_app in Hnd as (Hnd & Hd & _).
  assert (Hni : i ∉ fs') by (apply Hd; rewrite fmap_app; apply elem_of_app; right; by left).
  unfold push_back. rewrite Ht. unfold slot_at at 1. rewrite Hi. destruct Hm as [_ H1 H2 _ _ Hl]. rewrite Hla, H2.
  destruct (list.last es) as [a|] eqn:Hlast; cbn.
  - apply last_Some in Hlast as [A ->]. rewrite <- app_assoc in Hnd. cbn in Hnd. destruct (link_back (slots l1) A a e Hseg Hnd Hlt) as (sa & Ha & Hga & Hseg').
    unfold write, slot_at. cbn in Ha. rewrite Ha. eexists _, _, fs'. split; [done|]. split; [split; cbn|].
    + by rewrite <- app_assoc.
    + rewrite Hf, H1. by destruct A.
    + by rewrite last_snoc.
    + rewrite !free_frame; [done|done|]. intros Hin. apply (Hd (entry_index a)); [|done]. rewrite !fmap_app. set_solver.
    + by rewrite !length_insert.
    + rewrite Hlen, Hl, !length_app. cbn. lia.
    + unfold gens in *. cbn. assert (Hai : entry_index a <> i).
      { intros Heq. rewrite fmap_app in Hnd. apply NoDup_app in Hnd as (_ & _ & Hnd). apply NoDup_cons in Hnd as [Hnd _]. apply Hnd. cbn. rewrite Heq. by left. }
      split_and!; [|rewrite list_lookup_insert_ne, list_lookup_insert_eq by done; done|done].
      intros j Hj. rewrite <- Hg1 by done. destruct (decide (j = entry_index a)) as [->|Hja].
      * rewrite list_lookup_insert_eq by (by eapply lookup_lt_Some, Ha). rewrite Hga. done.
      * by rewrite !list_lookup_insert_ne.
  - apply last_None in Hlast as ->. eexists _, _, fs'. split; [done|]. split; [split; cbn|].
    + rewrite list_lookup_insert_eq by done. done.
    + done.
    + done.
    + by rewrite free_frame.
    + rewrite length_insert. exact Hp'.
    + by rewrite Hlen, Hl.
    + unfold gens in *. cbn. split_and!; [|by rewrite list_lookup_insert_eq|done]. intros j Hj. rewrite <- Hg1 by done. by rewrite list_lookup_insert_ne.
Qed.

(** *** Removing *)
Lemma segment_ext sl sl' p es n : (forall e, e ∈ es -> sl' !! entry_index e = sl !! entry_index e) -> segment sl p es n -> segment sl' p es n.
Proof.
  revert p. induction es as [|e es IH]; intros p Hx; cbn; [done|]. intros [He Hs]. rewrite Hx by left. split; [done|]. apply IH; [|done]. intros; apply Hx; by right.
Qed.

Lemma free_ext sl sl' i fs : (forall f, f ∈ fs -> sl' !! f = sl !! f) -> free_chain sl i fs -> free_chain sl' i fs.
Proof.
  revert i. induction fs as [|f fs IH]; intros i Hx; cbn; [done|]. intros (Hi & s & Hs & Hv & Hc). split; [done|]. exists s. rewrite Hx by left. split; [done|]. split; [done|].
  apply IH; [|done]. intros; apply Hx; by right.
Qed.

(** What unlinking one neighbour leaves alone. *)
Record same_but (l l' : SlotList) (touched : list nat) : Prop := {
  sb_slots j : j ∉ touched -> slots l' !! j = slots l !! j;
  sb_gens j : gens l' j = gens l j;
  sb_length : length (slots l') = length (slots l);
  sb_free : free l' = free l;
  sb_len : len l' = len l }.

Lemma unlink_previous_ok l A n n' : segment (slots l) None A n -> NoDup (entry_index <$> A) ->
  exists l', unlink_previous l (entry_index <$> list.last A) n' = Ok l' /\ segment (slots l') None A n' /\ same_but l l' (entry_index <$> A)
    /\ first l' = (if decide (A = []) then n' else first l) /\ last l' = last l.
Proof.
  intros Hs Hnd. destruct (list.last A) as [a|] eqn:Hl; cbn.
  - apply last_Some in Hl as [A' ->]. rewrite segment_app in Hs. cbn in Hs. destruct Hs as [HA [Ha _]]. unfold write, slot_at. rewrite Ha. eexists. split; [done|]. cbn.
    pose proof (lookup_lt_Some _ _ _ Ha) as Hlt. rewrite fmap_app in Hnd. apply NoDup_app in Hnd as (_ & Hd & _). split_and!; [| |by rewrite decide_False by (by destruct A')|done].
    + rewrite segment_app. cbn. rewrite list_lookup_insert_eq by done. split; [|done]. apply segment_frame; [|done].
      intros e He Heq. apply (Hd (entry_index e)); [by apply list_elem_of_fmap_2|]. rewrite Heq. by left.
    + split; cbn; [| |by rewrite length_insert|done|done].
      * intros j Hj. rewrite list_lookup_insert_ne; [done|]. intros <-. apply Hj. rewrite fmap_app. set_solver.
      * intros j. unfold gens. cbn. destruct (decide (j = entry_index a)) as [->|]; [|by rewrite list_lookup_insert_ne]. by rewrite list_lookup_insert_eq, Ha.
  - apply last_None in Hl as ->. eexists. split; [done|]. by split_and!.
Qed.

Lemma unlink_next_ok l p p' B : segment (slots l) p B None -> NoDup (entry_index <$> B) ->
  exists l', unlink_next l p' (entry_index <$> head B) = Ok l' /\ segment (slots l') p' B None /\ same_but l l' (entry_index <$> B)
    /\ first l' = first l /\ last l' = (if decide (B = []) then p' else last l).
Proof.
  intros Hs Hnd. destruct B as [|b B]; cbn; [eexists; split; [done|]; by split_and!|].
  cbn in Hs. destruct Hs as [Hb HB]. unfold write, slot_at. rewrite Hb. eexists. split; [done|]. cbn. pose proof (lookup_lt_Some _ _ _ Hb) as Hlt.
  cbn in Hnd. apply NoDup_cons in Hnd as [Hni Hnd]. split_and!; try done.
  - by rewrite list_lookup_insert_eq.
  - apply segment_frame; [|done]. intros e He Heq. apply Hni. rewrite <- Heq. by apply list_elem_of_fmap_2.
  - split; cbn; [| |by rewrite length_insert|done|done].
    + intros j Hj. rewrite list_lookup_insert_ne; [done|]. intros <-. apply Hj. by left.
    + intros j. unfold gens. cbn. destruct (decide (j = entry_index b)) as [->|]; [|by rewrite list_lookup_insert_ne]. by rewrite list_lookup_insert_eq, Hb.
Qed.

Lemma remove_ok l A k v B fs : models l (A ++ (k, v) :: B) fs -> exists l', remove l k = Ok (l', Some v) /\ models l' (A ++ B) (index k :: fs) /\ forall j, gens l' j = gens l j.
Proof.
  intros Hm. pose proof (models_nodup _ _ _ Hm) as Hnd. pose proof (entries_apart _ _ _ Hm A (k, v) B eq_refl) as Hap. destruct Hm as [Hs H1 H2 Hf Hp Hl].
  apply NoDup_app in Hnd as (Hnd & Hd & Hndf). rewrite fmap_app, fmap_cons in Hnd. pose proof Hnd as Hnd0. apply NoDup_app in Hnd as (HndA & HdA & Hnd). apply NoDup_cons in Hnd as [Hkb HndB].
  rewrite segment_app in Hs. cbn in Hs. destruct Hs as (HA & Hk & HB).
  assert (Hpn : from_option (Some ∘ entry_index) None (list.last A) = entry_index <$> list.last A /\ from_option (Some ∘ entry_index) None (head B) = entry_index <$> head B) by (by destruct (list.last A), (head B)).
  destruct Hpn as [Hpn1 Hpn2]. rewrite Hpn1, Hpn2 in Hk. unfold entry_index at 1 in Hk. cbn in Hk.
  unfold remove. rewrite Hk. cbn [generation s_value previous next]. rewrite Z.eqb_refl, bool_decide_false by done. cbn [negb orb].
  destruct (unlink_previous_ok l A _ (entry_index <$> head B) HA HndA) as (l1 & -> & HA1 & Hsb1 & Hf1 & Hl1).
  assert (HB1 : segment (slots l1) (Some (entry_index (k, v))) B None).
  { eapply segment_ext; [|exact HB]. intros e He. apply (sb_slots _ _ _ Hsb1). intros Hin. apply (HdA (entry_index e)); [done|]. right. by apply list_elem_of_fmap_2. }
  destruct (unlink_next_ok l1 _ (entry_index <$> list.last A) B HB1 HndB) as (l2 & -> & HB2 & Hsb2 & Hf2 & Hl2).
  assert (HkA : index k ∉ entry_index <$> A) by (intros Hin; apply (HdA (index k)); [done|by left]).
  assert (Hk2 : slots l2 !! index k = Some (mkSlot (Some v) (entry_index <$> list.last A) (entry_index <$> head B) (k_generation k))) by (rewrite (sb_slots _ _ _ Hsb2), (sb_slots _ _ _ Hsb1); done).
  pose proof (lookup_lt_Some _ _ _ Hk2) as Hlt.
  unfold slot_at. rewrite Hk2. cbn [s_value generation]. rewrite (sb_len _ _ _ Hsb2), (sb_len _ _ _ Hsb1), Hl, length_app. cbn [length]. rewrite Nat.add_succ_r.
  eexists. split; [done|]. split; [split; cbn [slots first last free len]|].
  - apply segment_frame; [exact Hap|]. rewrite segment_app. assert (HA2 : segment (slots l2) None A (entry_index <$> head B)).
    { eapply segment_ext; [|exact HA1]. intros e He. apply (sb_slots _ _ _ Hsb2). intros Hin. apply (HdA (entry_index e)); [by apply list_elem_of_fmap_2|by right]. }
    rewrite Hpn1, Hpn2. done.
  - rewrite Hf2, Hf1. destruct (decide (A = [])) as [HA0|HA0]; [by subst A|]. rewrite H1. by destruct A.
  - rewrite Hl2, Hl1. destruct (decide (B = [])) as [HB0|HB0]; [subst B; by rewrite app_nil_r|]. rewrite H2. destruct B as [|b B]; [done|]. rewrite !last_app. rewrite last_cons_cons. by destruct (list.last (b :: B)) eqn:E; [|apply last_None in E].
  - cbn. split; [done|]. eexists. rewrite list_lookup_insert_eq by done. split; [done|]. split; [done|]. cbn. rewrite (sb_free _ _ _ Hsb2), (sb_free _ _ _ Hsb1).
    assert (Hnf : forall f, f ∈ fs -> f ∉ (entry_index <$> A) ++ index k :: (entry_index <$> B)).
    { intros f Hin Hin'. apply (Hd f); [|done]. rewrite fmap_app. exact Hin'. }
    apply free_frame; [intros Hin; apply (Hnf _ Hin); apply elem_of_app; right; by left|]. eapply free_ext; [|exact Hf]. intros f Hin. apply Hnf in Hin. apply not_elem_of_app in Hin as [Hin1 Hin2].
    apply not_elem_of_cons in Hin2 as [_ Hin2]. by rewrite (sb_slots _ _ _ Hsb2), (sb_slots _ _ _ Hsb1).
  - rewrite length_insert, (sb_length _ _ _ Hsb2), (sb_length _ _ _ Hsb1), <- Hp, !fmap_app, fmap_cons, <- !app_assoc. cbn. apply Permutation_app_head. symmetry. apply Permutation_middle.
  - by rewrite length_app.
  - intros j. rewrite <- (sb_gens _ _ _ Hsb1), <- (sb_gens _ _ _ Hsb2). unfold gens. cbn [slots]. destruct (decide (j = index k)) as [->|]; [|by rewrite list_lookup_insert_ne]. by rewrite list_lookup_insert_eq, Hk2.
Qed.

(** ** The specification: a sequence of values under unique keys *)
Inductive Op : Type := OPush (v : T) | OGet (k : Key) | OSet (k : Key) (v : T) | ORemove (k : Key) | ORemoveIf (i : nat) (p : T -> bool) | OPop | OLen.
Inductive Reply : Type := RKey (k : Key) | RValue (o : option T) | RDone | RLen (n : nat).

Definition slot_step (op : Op) (l : SlotList) : result (SlotList * Reply) :=
  match op with
  | OPush v => let? (l, k) := push_back l v in Ok (l, RKey k)
  | OGet k => Ok (l, RValue (get_mut l k))
  | OSet k v => Ok (assign_mut l k v, RDone)
  | ORemove k => let? (l, o) := remove l k in Ok (l, RValue o)
  | ORemoveIf i p => let? (l, o) := remove_index_if l i p in Ok (l, RValue o)
  | OPop => let? (l, o) := pop_front l in Ok (l, RValue o)
  | OLen => Ok (l, RLen (len l))
  end.

Fixpoint slot_run (ops : list Op) (l : SlotList) : result (SlotList * list Reply) :=
  match ops with
  | [] => Ok (l, [])
  | op :: ops => let? (l, r) := slot_step op l in let? (l, rs) := slot_run ops l in Ok (l, r :: rs)
  end.

Record Seq : Type := mkSeq { entries : list (Key * T); issued : list Key }.

Definition seq_find (P : Key * T -> bool) (s : Seq) : option T := (fun x => x.2.2) <$> list_find (fun e => P e = true) (entries s).
Definition seq_drop (P : Key * T -> bool) (s : Seq) : Seq := mkSeq (filter (fun e => P e = false) (entries s)) (issued s).
Definition has_key (k : Key) (e : Key * T) : bool := bool_decide (e.1 = k).
Definition at_index (i : nat) (p : T -> bool) (e : Key * T) : bool := Nat.eqb (entry_index e) i && p e.2.

Definition put (k : Key) (v : T) (e : Key * T) : Key * T := if has_key k e then (e.1, v) else e.

Inductive seq_step : Op -> Seq -> Reply -> Seq -> Prop :=
| seq_push v k s : k ∉ issued s -> seq_step (OPush v) s (RKey k) (mkSeq (entries s ++ [(k, v)]) (k :: issued s))
| seq_get k s : seq_step (OGet k) s (RValue (seq_find (has_key k) s)) s
| seq_set k v s : seq_step (OSet k v) s RDone (mkSeq (put k v <$> entries s) (issued s))
| seq_remove k s : seq_step (ORemove k) s (RValue (seq_find (has_key k) s)) (seq_drop (has_key k) s)
| seq_remove_if i p s : seq_step (ORemoveIf i p) s (RValue (seq_find (at_index i p) s)) (seq_drop (at_index i p) s)
| seq_pop s : seq_step OPop s (RValue (snd <$> head (entries s))) (mkSeq (tail (entries s)) (issued s))
| seq_len s : seq_step OLen s (RLen (length (entries s))) s.

Inductive seq_run : list Op -> Seq -> list Reply -> Seq -> Prop :=
| seq_run_nil s : seq_run [] s [] s
| seq_run_cons op ops s r s1 rs s2 : seq_step op s r s1 -> seq_run ops s1 rs s2 -> seq_run (op :: ops) s (r :: rs) s2.

(** *** The remaining operations on a well-formed list *)
Lemma seq_find_split P s : match seq_find P s with
  | Some v => exists A k B, entries s = A ++ (k, v) :: B /\ P (k, v) = true /\ forall e, e ∈ A -> P e = false
  | None => forall e, e ∈ entries s -> P e = false
  end.
Proof.
  unfold seq_find. destruct (list_find _ (entries s)) as [[i [k v]]|] eqn:Hf; cbn.
  - apply list_find_Some in Hf as (Hi & HP & Hb). apply list_elem_of_split_length in Hi as (A & B & Hes & ->). rewrite Hes in *. exists A, k, B. split; [done|]. split; [done|].
    intros e He. apply list_elem_of_lookup in He as [j Hj]. apply not_true_is_false, (Hb j); [by apply lookup_app_l_Some|by eapply lookup_lt_Some].
  - apply list_find_None in Hf. rewrite Forall_forall in Hf. intros e He. by apply not_true_is_false, Hf.
Qed.

Lemma slot_filter_all (P : Key * T -> bool) (es : list (Key * T)) : (forall e, e ∈ es -> P e = false) -> filter (fun e => P e = false) es = es.
Proof.
  induction es as [|e es IH]; intros HP; [done|]. rewrite filter_cons_True by (apply HP; left). f_equal. apply IH. intros x Hx. apply HP. by right.
Qed.

Lemma seq_drop_split (P : Key * T -> bool) (A : list (Key * T)) e B : (forall x, x ∈ A ++ B -> P x = false) -> P e = true -> filter (fun x => P x = false) (A ++ e :: B) = A ++ B.
Proof.
  intros HP He. rewrite filter_app, filter_cons_False by congruence. rewrite !slot_filter_all; [done| |]; intros x Hx; apply HP, elem_of_app; auto.
Qed.

(** Removing the only entry that satisfies [P]. *)
Lemma drop_step l s fs P k v : models l (entries s) fs -> seq_find P s = Some v -> (forall e, P e = true -> P (k, v) = true -> (k, v) ∈ entries s -> e ∈ entries s -> entry_index e = index k) ->
  (forall A k' B, entries s = A ++ (k', v) :: B -> P (k', v) = true -> k' = k) ->
  exists l' fs', remove l k = Ok (l', Some v) /\ models l' (entries (seq_drop P s)) fs' /\ forall j, gens l' j = gens l j.
Proof.
  intros Hm Hf Hu Hk. pose proof (seq_find_split P s) as Hs. rewrite Hf in Hs. destruct Hs as (A & k' & B & Hes & HP & HA). assert (k' = k) as -> by (by eapply Hk).
  rewrite Hes in Hm. destruct (remove_ok l A k v B fs Hm) as (l' & Hr & Hm' & Hg). exists l', (index k :: fs). split; [done|]. split; [|done]. cbn. rewrite Hes, seq_drop_split; [done| |done].
  intros x Hx. apply not_true_is_false. intros HPx. apply (entries_apart _ _ _ Hm A (k, v) B eq_refl x Hx). unfold entry_index at 2. cbn. apply Hu; [done|done| |]; rewrite Hes; set_solver.
Qed.

Lemma remove_step l s fs k : models l (entries s) fs ->
  exists l' fs', remove l k = Ok (l', seq_find (has_key k) s) /\ models l' (entries (seq_drop (has_key k) s)) fs' /\ forall j, gens l' j = gens l j.
Proof.
  intros Hm. destruct (seq_find (has_key k) s) as [v|] eqn:Hf.
  - eapply drop_step; try done.
    + intros e He _ _ _. apply bool_decide_eq_true in He. unfold entry_index. by rewrite He.
    + intros A k' B _ He. by apply bool_decide_eq_true in He.
  - pose proof (seq_find_split (has_key k) s) as Hs. rewrite Hf in Hs. exists l, fs. rewrite (remove_no_entry _ _ _ Hm).
    + split; [done|]. split; [|done]. cbn. by rewrite slot_filter_all.
    + intros v He. apply Hs in He. unfold has_key in He. cbn in He. by rewrite bool_decide_true in He.
Qed.

Lemma remove_if_step l s fs i p : models l (entries s) fs ->
  exists l' fs', remove_index_if l i p = Ok (l', seq_find (at_index i p) s) /\ models l' (entries (seq_drop (at_index i p) s)) fs' /\ forall j, gens l' j = gens l j.
Proof.
  intros Hm. unfold remove_index_if. destruct (seq_find (at_index i p) s) as [v|] eqn:Hf.
  - pose proof (seq_find_split (at_index i p) s) as Hs. rewrite Hf in Hs. destruct Hs as (A & k & B & Hes & HP & HA).
    unfold at_index in HP. cbn in HP. apply andb_prop in HP as [Hi Hp]. apply Nat.eqb_eq in Hi. unfold entry_index in Hi. cbn in Hi. subst i.
    destruct (entry_slot _ _ _ Hm (k, v)) as (pr & nx & Hsl); [rewrite Hes; set_solver|]. unfold entry_index in Hsl. cbn in Hsl. rewrite Hsl, Hp.
    assert (Hk : mkKey (index k) (k_generation k) = k) by (by destruct k). rewrite Hk. eapply drop_step; try done.
    + intros e He _ _ _. unfold at_index in He. apply andb_prop in He as [He _]. by apply Nat.eqb_eq in He.
    + intros A' k' B' Hes' He. unfold at_index in He. apply andb_prop in He as [He _]. apply Nat.eqb_eq in He. destruct (decide (k' = k)) as [|Hne]; [done|].
      exfalso. apply (entries_apart _ _ _ Hm A (k, v) B Hes (k', v)); [|done]. assert (Hin : (k', v) ∈ entries s) by (rewrite Hes'; set_solver). rewrite Hes in Hin. set_solver.
  - pose proof (seq_find_split (at_index i p) s) as Hs. rewrite Hf in Hs. exists l, fs. split; [|split; [cbn; by rewrite slot_filter_all|done]].
    destruct (slots l !! i) as [[[v|] pr nx g]|] eqn:Hsl; [|done|done]. destruct (p v) eqn:Hp; [|done]. exfalso.
    destruct (find_entry _ _ _ Hm (mkKey i g) _ Hsl eq_refl) as (v' & He & [= ->]); [done|]. apply Hs in He. unfold at_index, entry_index in He. cbn in He. by rewrite Nat.eqb_refl, Hp in He.
Qed.

Lemma pop_step l s fs : models l (entries s) fs ->
  exists l' fs', pop_front l = Ok (l', snd <$> head (entries s)) /\ models l' (tail (entries s)) fs' /\ forall j, gens l' j = gens l j.
Proof.
  intros Hm. unfold pop_front. rewrite (m_first _ _ _ Hm). destruct (entries s) as [|[k v] es] eqn:Hes; cbn; [by exists l, fs|].
  destruct (entry_slot _ _ _ Hm (k, v)) as (pr & nx & Hsl); [by left|]. unfold slot_at. rewrite Hsl. cbn. unfold entry_index. cbn.
  assert (Hk : mkKey (index k) (k_generation k) = k) by (by destruct k). rewrite Hk. destruct (remove_ok l [] k v es fs Hm) as (l' & Hr & Hm' & Hg). eauto.
Qed.

Lemma put_other k v (es : list (Key * T)) : (forall e, e ∈ es -> has_key k e = false) -> put k v <$> es = es.
Proof.
  intros Hno. induction es as [|e es IH]; [done|]. cbn. rewrite IH by (intros; apply Hno; by right). unfold put. by rewrite Hno by left.
Qed.

Lemma assign_step l s fs k v : models l (entries s) fs ->
  let s' := mkSeq (put k v <$> entries s) (issued s) in
  models (assign_mut l k v) (entries s') fs /\ forall j, gens (assign_mut l k v) j = gens l j.
Proof.
  intros Hm s'. unfold assign_mut. cbn. destruct (seq_find (has_key k) s) as [v0|] eqn:Hf; pose proof (seq_find_split (has_key k) s) as Hs; rewrite Hf in Hs.
  - destruct Hs as (A & k' & B & Hes & HP & HA). apply bool_decide_eq_true in HP. cbn in HP. subst k'.
    assert (He : (k, v0) ∈ entries s) by (rewrite Hes; set_solver). rewrite (get_entry _ _ _ Hm _ _ He).
    destruct (entry_slot _ _ _ Hm _ He) as (pr & nx & Hsl). unfold entry_index in Hsl. cbn in Hsl. rewrite Hsl. cbn.
    assert (Hother : forall e, e ∈ A ++ B -> has_key k e = false).
    { intros e Hin. apply bool_decide_eq_false. intros Heq. apply (entries_apart _ _ _ Hm A (k, v0) B Hes e Hin). unfold entry_index. by rewrite Heq. }
    assert (Hs' : put k v <$> entries s = A ++ (k, v) :: B).
    { rewrite Hes, fmap_app, fmap_cons, !put_other; [unfold put, has_key; cbn; by rewrite bool_decide_true| |]; intros e Hin; apply Hother, elem_of_app; auto. }
    rewrite Hs'. pose proof (lookup_lt_Some _ _ _ Hsl) as Hlt. split.
    + pose proof Hm as [Hs H1 H2 Hf0 Hp Hl]. rewrite Hes in *. split; cbn; [| | | | |by rewrite Hl, !length_app].
      * rewrite segment_app in *. cbn in *. unfold entry_index at 2 in Hs. unfold entry_index at 2. cbn in *. destruct Hs as (HsA & HsK & HsB).
        rewrite Hsl in HsK. injection HsK as -> ->. rewrite list_lookup_insert_eq by done. split; [|split; [done|]].
        -- apply segment_frame; [|by destruct B]. intros e Hin. apply (entries_apart _ _ _ Hm A (k, v0) B eq_refl e). set_solver.
        -- apply segment_frame; [|done]. intros e Hin. apply (entries_apart _ _ _ Hm A (k, v0) B eq_refl e). set_solver.
      * rewrite H1. by destruct A.
      * rewrite H2, !last_app. cbn. by destruct B.
      * apply free_frame; [|done]. apply (entry_not_free _ _ _ Hm (k, v0)). set_solver.
      * rewrite length_insert, <- Hp, !fmap_app. done.
    + intros j. unfold gens. cbn. destruct (decide (j = index k)) as [->|]; [by rewrite list_lookup_insert_eq, Hsl|by rewrite list_lookup_insert_ne].
  - rewrite (get_no_entry _ _ _ Hm) by (intros v' He; apply Hs in He; unfold has_key in He; cbn in He; by rewrite bool_decide_true in He).
    by rewrite put_other.
Qed.

(** Keys that were issued have a generation no later than their slot's, and there are at most [n] generations. *)
Record fresh_ok (l : SlotList) (ks : list Key) (n : Z) : Prop := {
  fresh_issued k : k ∈ ks -> exists g, gens l (index k) = Some g /\ k_generation k <= g;
  fresh_gens i g : gens l i = Some g -> 0 <= g < n }.

Lemma fresh_same l l' ks n : fresh_ok l ks n -> (forall j, gens l' j = gens l j) -> fresh_ok l' ks (n + 1).
Proof. intros [H1 H2] Hg. split; [intros k Hk; rewrite Hg; auto|]. intros i g. rewrite Hg. intros Hi. apply H2 in Hi. lia. Qed.

Lemma step_refines op l s fs n : models l (entries s) fs -> fresh_ok l (issued s) n -> 0 <= n < usize_max ->
  exists l' r s' fs', slot_step op l = Ok (l', r) /\ seq_step op s r s' /\ models l' (entries s') fs' /\ fresh_ok l' (issued s') (n + 1).
Proof.
  intros Hm Hfr Hn. destruct op as [v|k|k v|k|i p| |]; cbn.
  - destruct (push_ok l _ fs v Hm) as (l' & k & fs' & Hpush & Hm' & Hg & Hgk & Hnew). rewrite Hpush. pose proof Hfr as [H1 H2]. unfold usize_max in Hn.
    assert (Hgen : match gens l (index k) with None => k_generation k = 0 | Some g => k_generation k = g + 1 end /\ 0 <= k_generation k < n + 1).
    { destruct (gens l (index k)) as [g|] eqn:Hi; [|rewrite Hnew; lia]. apply H2 in Hi. unfold wrap64 in Hnew. rewrite Z.mod_small in Hnew by lia. lia. }
    destruct Hgen as [Hgen Hb]. eexists _, _, _, fs'. split; [done|]. split; [constructor|split; [done|]].
    + intros Hin. destruct (H1 _ Hin) as (g & Hi & Hle). rewrite Hi in Hgen. lia.
    + split; cbn.
      * intros k' [->|Hin]%elem_of_cons; [exists (k_generation k); split; [done|lia]|]. destruct (H1 _ Hin) as (g & Hi & Hle). destruct (decide (index k' = index k)) as [Heq|Hne].
        -- rewrite Heq in *. exists (k_generation k). split; [done|]. rewrite Hi in Hgen. lia.
        -- exists g. rewrite Hg by done. done.
      * intros i g Hi. destruct (decide (i = index k)) as [->|Hne]; [rewrite Hgk in Hi; injection Hi as <-; lia|]. rewrite Hg in Hi by done. apply H2 in Hi. lia.
  - exists l, (RValue (get_mut l k)), s, fs. split; [done|]. split; [|split; [done|by eapply fresh_same]].
    assert (Hget : get_mut l k = seq_find (has_key k) s); [|rewrite Hget; constructor]. pose proof (seq_find_split (has_key k) s) as Hs. destruct (seq_find (has_key k) s) as [v|].
    + destruct Hs as (A & k' & B & Hes & HP & _). apply bool_decide_eq_true in HP. cbn in HP. subst k'. apply (get_entry _ _ _ Hm). rewrite Hes. set_solver.
    + apply (get_no_entry _ _ _ Hm). intros v He. apply Hs in He. unfold has_key in He. cbn in He. by rewrite bool_decide_true in He.
  - destruct (assign_step l s fs k v Hm) as [Hm' Hg]. eexists _, _, _, fs. split; [done|]. split; [constructor|]. split; [done|by eapply fresh_same].
  - destruct (remove_step l s fs k Hm) as (l' & fs' & -> & Hm' & Hg). eexists _, _, _, fs'. split; [done|]. split; [constructor|]. split; [done|by eapply fresh_same].
  - destruct (remove_if_step l s fs i p Hm) as (l' & fs' & -> & Hm' & Hg). eexists _, _, _, fs'. split; [done|]. split; [constructor|]. split; [done|by eapply fresh_same].
  - destruct (pop_step l s fs Hm) as (l' & fs' & -> & Hm' & Hg). eexists _, _, _, fs'. split; [done|]. split; [constructor|]. split; [done|by eapply fresh_same].
  - eexists l, _, s, fs. split; [done|]. rewrite (m_len _ _ _ Hm). split; [constructor|]. split; [done|by eapply fresh_same].
Qed.

Lemma models_new : models slot_list_new [] [].
Proof. by split. Qed.

Lemma run_refines ops l s fs n : models l (entries s) fs -> fresh_ok l (issued s) n -> 0 <= n -> n + Z.of_nat (length ops) <= usize_max ->
  exists l' rs s' fs', slot_run ops l = Ok (l', rs) /\ seq_run ops s rs s' /\ models l' (entries s') fs'.
Proof.
  revert l s fs n. induction ops as [|op ops IH]; intros l s fs n Hm Hfr Hn Hl; cbn; [by eexists _, _, _, _; split; [|split; [constructor|]]|].
  cbn in Hl. destruct (step_refines op l s fs n Hm Hfr) as (l1 & r & s1 & fs1 & -> & Hs & Hm1 & Hf1); [lia|].
  destruct (IH l1 s1 fs1 (n + 1) Hm1 Hf1) as (l2 & rs & s2 & fs2 & -> & Hr & Hm2); [lia|lia|]. eexists _, _, _, _. split; [done|]. split; [by econstructor|done].
Qed.

(** ** The properties *)

(** The slot list is a sequence of values under unique keys: for fewer than 2^64 operations no
    operation panics and each replies and acts as on the sequence, in its order; in particular
    every key is new, so that a key whose value is gone never reaches another value. *)
Theorem slot_list_is_keyed_sequence ops : Z.of_nat (length ops) <= usize_max ->
  exists l rs s fs, slot_run ops slot_list_new = Ok (l, rs) /\ seq_run ops (mkSeq [] []) rs s /\ models l (entries s) fs.
Proof.
  intros Hl. apply run_refines with (fs := []) (n := 0); [apply models_new| |lia|lia]. split; cbn; [set_solver|]. intros i g. unfold gens. cbn. by rewrite lookup_nil.
Qed.

End slot_list.
Arguments Slot : clear implicits.
Arguments SlotList : clear implicits.

Definition sample_ops : list Op := [OPush 7; OPush 8; OPush 9; ORemove (mkKey 1 0); OPush 10; OGet (mkKey 1 0); ORemoveIf 2 (Z.eqb 9); OPop; OPop; OLen].

Lemma slot_list_is_keyed_sequence_witness : exists l s fs,
  slot_run sample_ops slot_list_new
  = Ok (l, [RKey (mkKey 0 0); RKey (mkKey 1 0); RKey (mkKey 2 0); RValue (Some 8); RKey (mkKey 1 1); RValue None; RValue (Some 9); RValue (Some 7); RValue (Some 10); RLen 0])
  /\ models l (entries s) fs.
Proof.
  destruct (slot_list_is_keyed_sequence sample_ops) as (l & rs & s & fs & Hr & _ & Hm); [vm_compute; discriminate|].
  exists l, s, fs. split; [|exact Hm]. assert (Hrs : (let? (_, rs) := slot_run sample_ops slot_list_new in Ok rs : result _) = Ok rs) by (rewrite Hr; reflexivity).
  vm_compute in Hrs. injection Hrs as <-. exact Hr.
Defined.
