(* ===== verification/AsyncMutex.v ===== *)
(** * [performables]: the asynchronous mutex and its queue of waiters

    [src/crates/performables/src/sync/mutex.rs] (the [Async] strategy) and [wait_queue.rs].  The
    lock is a byte with a [LOCKED] and a [WAITERS] bit; a call that finds it taken registers a
    waker, enters the queue and tries once more; an unlock that sees [WAITERS] wakes the first
    waiter; a waiter that is dropped after it was woken passes the wake-up on.

    Any number of calls run as one machine.  Its steps are the operations other threads can see:
    one operation on the lock byte, on the poison flag, on a waiter's flag or waker.  What happens
    inside a section of the queue lock and touches only what that lock guards (the queue, the
    [queued] and [position] fields, [has_waiters]) belongs to the step before the section's next
    visible operation.  The orderings of the atomics are not modelled. *)
From S2P Require Import Prelude SlotList.
Open Scope Z_scope.

Definition LOCKED : Z := 1.
Definition WAITERS : Z := 2.

Definition Waker : Type := Z.

(** ** [wait_queue.rs]: a waiter

    [position] is [None] for [usize::MAX], which is no index of a vector. *)
Record Waiter : Type := mkWaiter { active : bool; queued : bool; position : option nat; w_waker : option Waker }.

Definition waiter_new : Waiter := mkWaiter true false None None.
Definition register (wk : Waker) (x : Waiter) : Waiter := mkWaiter (active x) (queued x) (position x) (Some wk).
Definition deactivate (x : Waiter) : Waiter := mkWaiter false (queued x) (position x) (w_waker x).
Definition take_waker (x : Waiter) : Waiter := mkWaiter (active x) (queued x) (position x) None.
Definition unqueue (x : Waiter) : Waiter := mkWaiter (active x) false None (w_waker x).
Definition enqueue_at (i : nat) (x : Waiter) : Waiter := mkWaiter (active x) true (Some i) (w_waker x).

(** ** Calls of the mutex

    [MTry]: [try_lock]; [MLock]: the attempt of [lock] before it blocks on a future.
    [MNew], [MPending]: a lock future that was never polled, or whose poll returned [Pending].
    [MFirst] to [MRetry]: inside a poll; [MWon] to [MCancel3]: it has the lock and takes its waiter
    back.  [MCheck], [MGuard], [MRelease]: [acquired], the guard with whether it came as an error, [unlock];
    [MUnwind]: [panic_poisoned] was called with the error and its guard is about to be dropped.
    [MDrop1] to [MDrop4]: the drop of a pending future; [MWake1] to [MWake4]: [wake_one_marked]. *)
Inductive Pc : Type :=
| MTry | MLock (wk : Waker)
| MNew | MPending (wk : Waker)
| MFirst (wk : Waker) | MRegister (wk : Waker) | MEnqueue (wk : Waker) | MRetry (wk : Waker)
| MWon | MCancel1 | MCancel2 | MCancel3
| MCheck | MGuard (poison_seen panicking_at_acquisition : bool) | MRelease
| MDrop1 | MDrop2 | MDrop3 (removed : bool) | MDrop4 (removed : bool)
| MWake1 | MWake2 (j : nat) | MWake3 (wk : option Waker) | MWake4 (wk : Waker)
| MDone | MUnwind (panicking_at_acquisition : bool).

Record Call : Type := mkCall { c_pc : Pc; c_waiter : option Waiter; c_woken : bool }.

Record World : Type := mkWorld {
  state : Z; poisoned : bool; published : bool; has_waiters : bool; queue : SlotList nat; qlock : option nat; calls : list Call }.

Definition mutex_new : World := mkWorld 0 false false false slot_list_new None [].

Definition step_result : Type := outcome unit World.

Definition set_state (s : Z) (w : World) : World := mkWorld s (poisoned w) (published w) (has_waiters w) (queue w) (qlock w) (calls w).
Definition set_poisoned (b : bool) (w : World) : World := mkWorld (state w) b (published w) (has_waiters w) (queue w) (qlock w) (calls w).
Definition set_queue (b : bool) (q : SlotList nat) (w : World) : World := mkWorld (state w) (poisoned w) (published w) b q (qlock w) (calls w).
Definition set_qlock (o : option nat) (w : World) : World := mkWorld (state w) (poisoned w) (published w) (has_waiters w) (queue w) o (calls w).
Definition publish (w : World) : World := mkWorld (state w) (poisoned w) true (has_waiters w) (queue w) (qlock w) (calls w).
Definition set_calls (cs : list Call) (w : World) : World := mkWorld (state w) (poisoned w) (published w) (has_waiters w) (queue w) (qlock w) cs.
Definition set_call (i : nat) (c : Call) (w : World) : World := set_calls (<[i := c]> (calls w)) w.

Definition go (i : nat) (c : Call) (pc : Pc) (w : World) : World := set_call i (mkCall pc (c_waiter c) (c_woken c)) w.
Definition go_with (i : nat) (c : Call) (pc : Pc) (x : Waiter) (w : World) : World := set_call i (mkCall pc (Some x) (c_woken c)) w.

(** [try_acquire]: the new state, when the lock is free. *)
Definition try_acquire (s : Z) : option Z := if (s =? 0) || (s =? WAITERS) then Some (s + LOCKED) else None.

Definition mark_waiting (w : World) : World := set_state (Z.lor (state w) WAITERS) w.
Definition clear_waiting (w : World) : World := set_state (Z.land (state w) (Z.lnot WAITERS)) w.

(** The end of a section: [has_waiters] and [clear_waiting] when the queue is empty. *)
Definition clear_if_empty (w : World) : World := if is_empty (queue w) then clear_waiting (set_queue false (queue w) w) else w.

(** [waiters.remove_index_if(position, |queued| Arc::ptr_eq(queued, waiter))] of the waiter of call [i]. *)
Definition remove_waiter (i : nat) (x : Waiter) (q : SlotList nat) : outcome unit (SlotList nat * bool) :=
  match position x with
  | None => Ok (q, false)
  | Some p => match remove_index_if q p (Nat.eqb i) with Ok (q, o) => Ok (q, bool_decide (o <> None)) | _ => Panic end
  end.

(** The section of [cancel_marked]; its answer is whether the waiter was queued. *)
Definition cancel_section (i : nat) (x : Waiter) (w : World) : outcome unit (World * Waiter * bool) :=
  if published w then
    match qlock w with
    | Some _ => Err tt
    | None =>
        let? (q, removed) := remove_waiter i x (queue w) in
        Ok (clear_if_empty (set_queue (has_waiters w) q w), mkWaiter (active x) (if removed then false else queued x) None (w_waker x), removed)
    end
  else Ok (clear_waiting w, x, false).

(** The loop of [wake_one_marked]: the first active waiter. *)
Fixpoint pop_active (fuel : nat) (q : SlotList nat) (cs : list Call) : outcome unit (SlotList nat * list Call * option nat) :=
  match pop_front q with
  | Ok (q, None) => Ok (q, cs, None)
  | Ok (q, Some j) =>
      match cs !! j with
      | Some (mkCall pc (Some x) b) =>
          let cs := <[j := mkCall pc (Some (unqueue x)) b]> cs in
          if active x then Ok (q, cs, Some j)
          else match fuel with O => Panic | S fuel => pop_active fuel q cs end
      | _ => Panic
      end
  | _ => Panic
  end.

(** A task that is woken polls the futures it polled with this waker. *)
Definition polls_with (pc : Pc) : option Waker := match pc with MPending wk | MFirst wk | MRegister wk | MEnqueue wk | MRetry wk => Some wk | _ => None end.
Definition wake_call (wk : Waker) (c : Call) : Call := if bool_decide (polls_with (c_pc c) = Some wk) then mkCall (c_pc c) (c_waiter c) true else c.

Definition with_waiter (c : Call) (f : Waiter -> step_result) : step_result := match c_waiter c with Some x => f x | None => Panic end.

(** ** The steps of a call *)

(** [try_lock], and the attempt of [lock] before it blocks: to [MDone] or to the first poll. *)
Definition attempt (i : nat) (c : Call) (contended : Pc) (w : World) : step_result :=
  match try_acquire (state w) with Some s => Ok (go i c MCheck (set_state s w)) | None => Ok (go i c contended w) end.

(** [MutexLockFuture::poll]. *)
Definition poll_first (i : nat) (c : Call) (wk : Waker) (w : World) : step_result :=
  match try_acquire (state w) with
  | Some s => Ok (go i c (match c_waiter c with Some _ => MCancel1 | None => MCheck end) (set_state s w))
  | None => Ok (go i c (MRegister wk) w)
  end.

(** [poll_registered] up to the queue. *)
Definition poll_registered (i : nat) (c : Call) (wk : Waker) (w : World) : step_result :=
  Ok (go_with i c (MEnqueue wk) (register wk (default waiter_new (c_waiter c))) w).

(** [enqueue_if_needed_marked]: the lock of the queue and [mark_waiting]; [retry] and the queueing; or,
    when [retry] got the lock, the end of the section. *)
Definition enqueue_mark (i : nat) (c : Call) (wk : Waker) (w : World) : step_result :=
  match qlock w with
  | Some _ => Err tt
  | None => Ok (go i c (MRetry wk) (mark_waiting (set_queue true (queue w) (publish (set_qlock (Some i) w)))))
  end.

Definition enqueue_retry (i : nat) (c : Call) (wk : Waker) (w : World) : step_result :=
  with_waiter c (fun x =>
    match try_acquire (state w) with
    | Some s => Ok (go i c MWon (set_state s w))
    | None =>
        if queued x then Ok (go i c (MPending wk) (set_qlock None w))
        else match push_back (queue w) i with
        | Ok (q, key) => Ok (go_with i c (MPending wk) (enqueue_at (index key) x) (set_qlock None (set_queue (has_waiters w) q w)))
        | _ => Panic
        end
    end).

Definition enqueue_won (i : nat) (c : Call) (w : World) : step_result :=
  with_waiter c (fun x =>
    let? (q, _) := (if queued x then remove_waiter i x (queue w) else Ok (queue w, false)) in
    let x := take_waker (deactivate (mkWaiter (active x) false (if queued x then None else position x) (w_waker x))) in
    Ok (go_with i c MCheck x (set_qlock None (clear_if_empty (set_queue (has_waiters w) q w))))).

(** [acquired]: a guard, in an [Err] when the mutex is poisoned. *)
Definition acquired (i : nat) (c : Call) (panicking : bool) (w : World) : step_result := Ok (go i c (MGuard (poisoned w) panicking) w).

(** What [lock], [try_lock] and the poll of [lock_async]'s future do with that result, and the callers of the
    [_result] forms do not: an [Err] makes them panic, with the guard in it. *)
Definition unwrap_guard (i : nat) (c : Call) (w : World) : step_result :=
  match c_pc c with
  | MGuard true at_acquisition => Ok (go i c (MUnwind at_acquisition) w)
  | MGuard false _ => Ok w
  | _ => Err tt
  end.

(** [release_inner] up to [unlock]: [poison] when the thread began to panic under the guard. *)
Definition release_inner (i : nat) (c : Call) (at_acquisition panicking : bool) (w : World) : step_result :=
  Ok (go i c MRelease (if negb at_acquisition && panicking then set_poisoned true w else w)).

(** [unlock] up to the wake-up. *)
Definition unlock (i : nat) (c : Call) (w : World) : step_result :=
  let previous := state w in
  let w := set_state ((previous - LOCKED) mod 256) w in
  Ok (go i c (if Z.land previous WAITERS =? WAITERS then MWake1 else MDone) w).

(** The end of the drop of a lock future. *)
Definition drop_check (i : nat) (c : Call) (removed : bool) (w : World) : step_result :=
  Ok (go i c (if negb removed && (Z.land (state w) LOCKED =? 0) then MWake1 else MDone) w).

(** [wake_one_marked]: the pop of an active waiter, its waker, the end of the section. *)
Definition wake_pop (i : nat) (c : Call) (w : World) : step_result :=
  if published w then
    match qlock w with
    | Some _ => Err tt
    | None =>
        let? (q, cs, popped) := pop_active (len (queue w)) (queue w) (calls w) in
        let w := set_calls cs (set_queue (has_waiters w) q (set_qlock (Some i) w)) in
        match cs !! i with
        | Some c => Ok (go i c (match popped with Some j => MWake2 j | None => MWake3 None end) w)
        | None => Panic
        end
    end
  else Ok (go i c MDone (clear_waiting w)).

Definition wake_take (i : nat) (c : Call) (j : nat) (w : World) : step_result :=
  match calls w !! j with
  | Some (mkCall pc (Some x) b) => Ok (go i c (MWake3 (w_waker x)) (set_call j (mkCall pc (Some (take_waker x)) b) w))
  | _ => Panic
  end.

Definition wake_end (i : nat) (c : Call) (wk : option Waker) (w : World) : step_result :=
  let w := set_qlock None (clear_if_empty (set_queue (negb (is_empty (queue w))) (queue w) w)) in
  Ok (go i c (match wk with Some wk => MWake4 wk | None => MDone end) w).

Definition wake (i : nat) (c : Call) (wk : Waker) (w : World) : step_result :=
  Ok (set_calls (wake_call wk <$> <[i := mkCall MDone (c_waiter c) (c_woken c)]> (calls w)) w).

(** The next step of a call; [panicking]: its thread unwinds. *)
Definition act (i : nat) (c : Call) (panicking : bool) (w : World) : step_result :=
  match c_pc c with
  | MTry => attempt i c MDone w
  | MLock wk => attempt i c (MFirst wk) w
  | MFirst wk => poll_first i c wk w
  | MRegister wk => poll_registered i c wk w
  | MEnqueue wk => enqueue_mark i c wk w
  | MRetry wk => enqueue_retry i c wk w
  | MWon => enqueue_won i c w
  | MCancel1 => with_waiter c (fun x => Ok (go_with i c MCancel2 (deactivate x) w))
  | MCancel2 => with_waiter c (fun x => let? (w, x, _) := cancel_section i x w in Ok (go_with i c MCancel3 x w))
  | MCancel3 => with_waiter c (fun x => Ok (go_with i c MCheck (take_waker x) w))
  | MCheck => acquired i c panicking w
  | MRelease => unlock i c w
  | MUnwind at_acquisition => release_inner i c at_acquisition true w
  | MDrop1 => with_waiter c (fun x => Ok (go_with i c MDrop2 (deactivate x) w))
  | MDrop2 => with_waiter c (fun x => let? (w, x, removed) := cancel_section i x w in Ok (go_with i c (MDrop3 removed) x w))
  | MDrop3 removed => with_waiter c (fun x => Ok (go_with i c (MDrop4 removed) (take_waker x) w))
  | MDrop4 removed => drop_check i c removed w
  | MWake1 => wake_pop i c w
  | MWake2 j => wake_take i c j w
  | MWake3 wk => wake_end i c wk w
  | MWake4 wk => wake i c wk w
  | MNew | MPending _ | MGuard _ _ | MDone => Err tt
  end.

Ltac unfold_act := unfold act, attempt, poll_first, poll_registered, enqueue_mark, enqueue_retry, enqueue_won, acquired, unlock, drop_check, wake_pop, wake_take, wake_end, wake, release_inner.

Inductive Event : Type :=
| ETryLock | ELock (wk : Waker) | EFuture | EPoll (i : nat) (wk : Waker) | EAct (i : nat) (panicking : bool) | ERelease (i : nat) (panicking : bool) | EDrop (i : nat) | EClearPoison | EUnwrap (i : nat).

Definition add_call (pc : Pc) (w : World) : World := set_calls (calls w ++ [mkCall pc None false]) w.

Definition with_call (i : nat) (w : World) (f : Call -> step_result) : step_result := match calls w !! i with Some c => f c | None => Err tt end.

Definition world_step (e : Event) (w : World) : step_result :=
  match e with
  | ETryLock => Ok (add_call MTry w)
  | ELock wk => Ok (add_call (MLock wk) w)
  | EFuture => Ok (add_call MNew w)
  | EPoll i wk => with_call i w (fun c => match c_pc c with
      | MNew | MPending _ => Ok (set_call i (mkCall (MFirst wk) (c_waiter c) false) w)
      | _ => Err tt
      end)
  | EAct i panicking => with_call i w (fun c => act i c panicking w)
  | ERelease i panicking => with_call i w (fun c => match c_pc c with
      | MGuard _ at_acquisition => release_inner i c at_acquisition panicking w
      | _ => Err tt
      end)
  | EDrop i => with_call i w (fun c => match c_pc c with
      | MNew => Ok (go i c MDone w)
      | MPending _ => Ok (go i c MDrop1 w)
      | _ => Err tt
      end)
  | EClearPoison => Ok (set_poisoned false w)
  | EUnwrap i => with_call i w (fun c => unwrap_guard i c w)
  end.

Fixpoint world_run (es : list Event) (w : World) : step_result :=
  match es with
  | [] => Ok w
  | e :: es => let? w := world_step e w in world_run es w
  end.

(** ** The invariant *)
Definition owner (pc : Pc) : bool := match pc with MWon | MCancel1 | MCancel2 | MCancel3 | MCheck | MGuard _ _ | MUnwind _ | MRelease => true | _ => false end.
Definition qholder (pc : Pc) : bool := match pc with MRetry _ | MWon | MWake2 _ | MWake3 _ => true | _ => false end.
Definition marker (pc : Pc) : bool := match pc with MRetry _ | MWon => true | _ => false end.

Definition no_waiter (pc : Pc) : bool := match pc with MTry | MLock _ | MNew => true | _ => false end.
Definition needs_waiter (pc : Pc) : bool :=
  match pc with MPending _ | MEnqueue _ | MRetry _ | MWon | MCancel1 | MCancel2 | MCancel3 | MDrop1 | MDrop2 | MDrop3 _ | MDrop4 _ => true | _ => false end.
Definition may_queue (pc : Pc) : bool :=
  match pc with MPending _ | MFirst _ | MRegister _ | MEnqueue _ | MRetry _ | MWon | MCancel1 | MCancel2 | MDrop1 | MDrop2 => true | _ => false end.
Definition may_stop (pc : Pc) : bool :=
  match pc with MCancel2 | MCancel3 | MCheck | MGuard _ _ | MUnwind _ | MRelease | MDrop2 | MDrop3 _ | MDrop4 _ | MWake1 | MWake2 _ | MWake3 _ | MWake4 _ | MDone => true | _ => false end.

Definition local_ok (c : Call) : Prop :=
  match c_waiter c with
  | None => needs_waiter (c_pc c) = false
  | Some x => no_waiter (c_pc c) = false /\ (queued x = true -> may_queue (c_pc c) = true) /\ (active x = false -> may_stop (c_pc c) = true)
  end.

(** The queue and the fields of the waiter of call [i] agree. *)
Definition queue_ok (es : list (Key * nat)) (i : nat) (c : Call) : Prop :=
  match c_waiter c with
  | Some x => if queued x then exists k, position x = Some (index k) /\ forall k', (k', i) ∈ es <-> k' = k else (forall k, (k, i) ∉ es) /\ position x = None
  | None => forall k, (k, i) ∉ es
  end.

(** A waker on its way to be called. *)
Definition carries (wk : Waker) (pc : Pc) : Prop := pc = MWake4 wk \/ pc = MWake3 (Some wk).
Definition some_pc (P : Pc -> Prop) (cs : list Call) : Prop := exists j c, cs !! j = Some c /\ P (c_pc c).

Definition coming (cs : list Call) (i : nat) (wk : Waker) (c : Call) : Prop := c_woken c = true \/ some_pc (carries wk) cs \/ w_waker <$> c_waiter c = Some (Some wk).

(** A pending call is woken, about to be, or waits in the queue with its waker registered. *)
Definition wake_ok (cs : list Call) (i : nat) (c : Call) : Prop :=
  match c_pc c with
  | MPending wk => coming cs i wk c /\ (c_woken c = true \/ some_pc (carries wk) cs \/ queued <$> c_waiter c = Some true \/ some_pc (fun pc => pc = MWake2 i) cs)
  | MEnqueue wk | MRetry wk => coming cs i wk c
  | _ => True
  end.

Record inv_at (w : World) (es : list (Key * nat)) (fs : list nat) (l f : bool) : Prop := {
  i_state : state w = Z.b2z l + 2 * Z.b2z f;
  i_owner i j ci cj : calls w !! i = Some ci -> calls w !! j = Some cj -> owner (c_pc ci) = true -> owner (c_pc cj) = true -> i = j;
  i_owned : l = true <-> some_pc (fun pc => owner pc = true) (calls w);
  i_qlock i : qlock w = Some i <-> exists c, calls w !! i = Some c /\ qholder (c_pc c) = true;
  i_models : models (queue w) es fs;
  i_queue i c : calls w !! i = Some c -> queue_ok es i c;
  i_member k j : (k, j) ∈ es -> is_Some (calls w !! j);
  i_flag : es <> [] -> f = true;
  i_marked i c : calls w !! i = Some c -> marker (c_pc c) = true -> f = true;
  i_local i c : calls w !! i = Some c -> local_ok c;
  i_published : published w = false -> es = [] /\ forall i c, calls w !! i = Some c -> qholder (c_pc c) = false;
  i_wake i c : calls w !! i = Some c -> wake_ok (calls w) i c;
  i_target i c j : calls w !! i = Some c -> c_pc c = MWake2 j -> j <> i /\ exists cj x, calls w !! j = Some cj /\ c_waiter cj = Some x }.

(** A call that will try the lock again, or see to it that another one does. *)
Definition resp (c : Call) : bool :=
  match c_pc c with
  | MWake1 | MFirst _ | MRegister _ | MEnqueue _ | MRetry _ => true
  | MPending _ | MDrop1 | MDrop2 => negb (from_option queued false (c_waiter c))
  | MDrop3 removed | MDrop4 removed => negb removed
  | _ => false
  end.

Definition resp_ok (w : World) (es : list (Key * nat)) (l : bool) : Prop :=
  l = false -> es <> [] -> exists i c, calls w !! i = Some c /\ resp c = true.

Definition inv (w : World) : Prop := exists es fs l f, inv_at w es fs l f /\ resp_ok w es l.

Lemma some_pc_insert P cs i c c' : cs !! i = Some c -> (P (c_pc c) -> P (c_pc c')) -> some_pc P cs -> some_pc P (<[i := c']> cs).
Proof.
  intros Hi Hp (j & x & Hj & Hx). pose proof (lookup_lt_Some _ _ _ Hi) as Hl. destruct (decide (j = i)) as [->|Hne].
  - simplify_eq. exists i, c'. by rewrite list_lookup_insert_eq; auto.
  - exists j, x. by rewrite list_lookup_insert_ne.
Qed.

(** What a change of call [i] must not take away from the others. *)
Definition keeps (c c' : Call) : Prop := (forall wk, carries wk (c_pc c) -> carries wk (c_pc c')) /\ forall j, c_pc c <> MWake2 j.

Lemma wake_frame cs i c c' j x : cs !! i = Some c -> keeps c c' -> wake_ok cs j x -> wake_ok (<[i := c']> cs) j x.
Proof.
  intros Hi [Hk1 Hk2]. assert (Hc : forall wk, some_pc (carries wk) cs -> some_pc (carries wk) (<[i := c']> cs)) by (intros wk; apply some_pc_insert with c; auto).
  assert (Hw : some_pc (fun pc => pc = MWake2 j) cs -> some_pc (fun pc => pc = MWake2 j) (<[i := c']> cs)).
  { apply some_pc_insert with c; [done|]. intros Heq. by apply Hk2 in Heq. }
  unfold wake_ok, coming. destruct (c_pc x); naive_solver.
Qed.

Lemma wakes_kept cs i c c' : cs !! i = Some c -> keeps c c' -> forall j x, j <> i -> cs !! j = Some x -> wake_ok cs j x -> wake_ok (<[i := c']> cs) j x.
Proof. intros Hi Hk j x _ _. by apply wake_frame with c. Qed.

(** *** A step that changes one call *)
Definition owner_move (o o' l l' : bool) : Prop := (o' = o /\ l' = l) \/ (o = false /\ o' = true /\ l = false /\ l' = true) \/ (o = true /\ o' = false /\ l' = false).

Definition qlock_move (i : nat) (q q' : bool) (o o' : option nat) : Prop := (q' = q /\ o' = o) \/ (q = false /\ q' = true /\ o = None /\ o' = Some i) \/ (q = true /\ q' = false /\ o' = None).

Record change (w : World) (es : list (Key * nat)) (l f : bool) (i : nat) (c : Call) (w' : World) (es' : list (Key * nat)) (fs' : list nat) (l' f' : bool) (c' : Call) : Prop := {
  ch_calls : calls w' = <[i := c']> (calls w);
  ch_state : state w' = Z.b2z l' + 2 * Z.b2z f';
  ch_owner : owner_move (owner (c_pc c)) (owner (c_pc c')) l l';
  ch_qlock : qlock_move i (qholder (c_pc c)) (qholder (c_pc c')) (qlock w) (qlock w');
  ch_models : models (queue w') es' fs';
  ch_others k j : j <> i -> (k, j) ∈ es' <-> (k, j) ∈ es;
  ch_queue : queue_ok es' i c';
  ch_flag : es' <> [] -> f' = true;
  ch_marked : marker (c_pc c') = true -> f' = true;
  ch_cleared : f' = false -> f = true -> qholder (c_pc c) = true \/ qlock w = None \/ published w = false;
  ch_local : local_ok c';
  ch_published : published w' = false -> published w = false /\ es' = [] /\ qholder (c_pc c') = false;
  ch_wake : wake_ok (calls w') i c';
  ch_wakes j x : j <> i -> calls w !! j = Some x -> wake_ok (calls w) j x -> wake_ok (calls w') j x;
  ch_target j : c_pc c' = MWake2 j -> j <> i /\ exists cj x, calls w !! j = Some cj /\ c_waiter cj = Some x;
  ch_waiter : is_Some (c_waiter c) -> is_Some (c_waiter c') }.

Lemma insert_at {A} (cs : list A) i c' j x : <[i := c']> cs !! j = Some x -> (j = i /\ x = c') \/ (j <> i /\ cs !! j = Some x).
Proof. intros Hj. apply list_lookup_insert_Some in Hj as [(-> & -> & _)|[? ?]]; auto. Qed.

Definition other_pc (i : nat) (P : Pc -> Prop) (cs : list Call) : Prop := exists j x, j <> i /\ cs !! j = Some x /\ P (c_pc x).

Lemma some_pc_at P cs i c : cs !! i = Some c -> some_pc P cs <-> P (c_pc c) \/ other_pc i P cs.
Proof.
  intros Hi. split.
  - intros (j & x & Hj & Hx). destruct (decide (j = i)) as [->|Hne]; [left; congruence|right; by exists j, x].
  - intros [Hp|(j & x & _ & Hj & Hx)]; [by exists i, c|by exists j, x].
Qed.

Lemma other_pc_insert P cs i c' : other_pc i P (<[i := c']> cs) <-> other_pc i P cs.
Proof. split; intros (j & x & Hne & Hj & Hx); exists j, x; (split; [done|]); [rewrite list_lookup_insert_ne in Hj by done|rewrite list_lookup_insert_ne by done]; done. Qed.

Lemma some_pc_changed P cs i c c' : cs !! i = Some c -> some_pc P (<[i := c']> cs) <-> P (c_pc c') \/ other_pc i P cs.
Proof. intros Hi. rewrite (some_pc_at P _ i c'), other_pc_insert; [done|]. apply list_lookup_insert_eq. by eapply lookup_lt_Some. Qed.

Lemma owners_change cs i c c' l l' : cs !! i = Some c ->
  (forall i j ci cj, cs !! i = Some ci -> cs !! j = Some cj -> owner (c_pc ci) = true -> owner (c_pc cj) = true -> i = j) ->
  (l = true <-> some_pc (fun pc => owner pc = true) cs) -> owner_move (owner (c_pc c)) (owner (c_pc c')) l l' ->
  (forall i' j ci cj, <[i := c']> cs !! i' = Some ci -> <[i := c']> cs !! j = Some cj -> owner (c_pc ci) = true -> owner (c_pc cj) = true -> i' = j)
  /\ (l' = true <-> some_pc (fun pc => owner pc = true) (<[i := c']> cs)).
Proof.
  intros Hi A2 A3 Ho.
  assert (Hone : forall j x, j <> i -> cs !! j = Some x -> owner (c_pc x) = true -> owner (c_pc c') = true -> False).
  { intros j x Hne Hj Hx Hc'. destruct Ho as [[Heq _]|[(_ & _ & -> & _)|(_ & Heq & _)]]; [| |congruence].
    - apply Hne. eapply A2; [done|done|done|congruence].
    - assert (Hl : false = true); [|done]. rewrite A3. by exists j, x. }
  split.
  - intros j k x y Hj Hk Hx Hy. apply insert_at in Hj as [[-> ->]|[Hj1 Hj]], Hk as [[-> ->]|[Hk1 Hk]]; [done| | |by eapply A2]; exfalso; by eapply Hone.
  - rewrite (some_pc_changed _ cs i c c' Hi). rewrite (some_pc_at _ cs i c Hi) in A3. destruct Ho as [[-> ->]|[(_ & -> & _ & ->)|(Hc & Hc1 & ->)]].
    + done.
    + tauto.
    + split; [done|]. intros [Hc'|(j & x & Hne & Hj & Hx)]; [congruence|]. exfalso. apply Hne. by eapply A2.
Qed.

Lemma qlock_change (cs : list Call) i c c' o o' : cs !! i = Some c -> (forall j, o = Some j <-> exists c, cs !! j = Some c /\ qholder (c_pc c) = true) ->
  qlock_move i (qholder (c_pc c)) (qholder (c_pc c')) o o' -> forall j, o' = Some j <-> exists x, <[i := c']> cs !! j = Some x /\ qholder (c_pc x) = true.
Proof.
  intros Hi A4 Hq j. pose proof (lookup_lt_Some _ _ _ Hi) as Hl.
  destruct (decide (j = i)) as [->|Hne].
  - rewrite list_lookup_insert_eq by done. destruct Hq as [[Hq ->]|[(_ & Hq & _ & ->)|(_ & Hq & ->)]].
    + rewrite A4, Hi. naive_solver congruence.
    + naive_solver congruence.
    + naive_solver congruence.
  - rewrite list_lookup_insert_ne by done. destruct Hq as [[Hq ->]|[(_ & Hq & -> & ->)|(Hq & _ & ->)]].
    + apply A4.
    + split; [congruence|]. intros Hx. by apply A4 in Hx.
    + split; [done|]. intros Hx. apply A4 in Hx. assert (Hoi : o = Some i) by (apply A4; eauto). congruence.
Qed.

Lemma inv_change w es fs l f i c w' es' fs' l' f' c' : inv_at w es fs l f -> calls w !! i = Some c ->
  change w es l f i c w' es' fs' l' f' c' -> inv_at w' es' fs' l' f'.
Proof.
  intros Hinv Hi [Hcs Hst Ho Hq Hm Hes Hqi Hf Hmk Hcl Hlo Hpub Hwk Hkp Ht Hwt]. destruct Hinv as [A1 A2 A3 A4 A5 A6 A7 A8 A9 A10 A11 A12 A13].
  pose proof (lookup_lt_Some _ _ _ Hi) as Hl. destruct (owners_change _ _ _ _ _ _ Hi A2 A3 Ho) as [B2 B3]. pose proof (qlock_change _ _ _ _ _ _ Hi A4 Hq) as B4.
  split; rewrite ?Hcs in *; try done.
  - intros j x Hj. apply insert_at in Hj as [[-> ->]|[Hne Hj]]; [done|]. specialize (A6 _ _ Hj). unfold queue_ok in *.
    destruct (c_waiter x) as [y|]; [destruct (queued y)|]; naive_solver.
  - intros k j Hk. destruct (decide (j = i)) as [->|Hne]; [rewrite list_lookup_insert_eq by done; eauto|]. rewrite list_lookup_insert_ne by done. apply Hes in Hk; [|done]. by eapply A7.
  - intros j x Hj Hx. apply insert_at in Hj as [[-> ->]|[Hne Hj]]; [auto|]. specialize (A9 _ _ Hj Hx). destruct f'; [done|]. exfalso.
    assert (Hqx : qholder (c_pc x) = true) by (by destruct (c_pc x)). assert (Hqj : qlock w = Some j) by (apply A4; eauto).
    destruct (Hcl eq_refl A9) as [Hqc|[Hqn|Hp]]; [|congruence|].
    + assert (Hqi' : qlock w = Some i) by (apply A4; eauto). congruence.
    + destruct (A11 Hp) as [_ Hno]. apply Hno in Hj. congruence.
  - intros j x Hj. apply insert_at in Hj as [[-> ->]|[Hne Hj]]; [done|]. by eapply A10.
  - intros Hp. destruct (Hpub Hp) as (Hp0 & He & Hq'). split; [done|]. intros j x Hj. apply insert_at in Hj as [[-> ->]|[Hne Hj]]; [done|]. destruct (A11 Hp0) as [_ Hno]. by eapply Hno.
  - intros j x Hj. apply insert_at in Hj as [[-> ->]|[Hne Hj]]; [done|]. apply Hkp; [done|done|]. by apply A12.
  - intros j x k Hj Hx. assert (Hk' : k <> j /\ exists cj y, calls w !! k = Some cj /\ c_waiter cj = Some y).
    { apply insert_at in Hj as [[-> ->]|[Hne Hj]]; [by apply Ht in Hx|by eapply A13]. }
    destruct Hk' as (Hkj & cj & y & Hk & Hy). split; [done|].
    destruct (decide (k = i)) as [->|Hki]; [|exists cj, y; by rewrite list_lookup_insert_ne]. simplify_eq. destruct Hwt as [y' Hy']; [by rewrite Hy|].
    exists c', y'. by rewrite list_lookup_insert_eq.
Qed.

Lemma resp_change w w' es es' l l' i c c' : calls w !! i = Some c -> calls w' = <[i := c']> (calls w) -> resp_ok w es l ->
  (l' = false -> es' <> [] -> resp c' = true \/ (l = false /\ es <> [] /\ resp c = false)) -> resp_ok w' es' l'.
Proof.
  intros Hi Hcs Hr Hc Hl He. destruct (Hc Hl He) as [Hc'|(Hl0 & He0 & Hc0)].
  - exists i, c'. rewrite Hcs. split; [apply list_lookup_insert_eq; by eapply lookup_lt_Some|done].
  - destruct (Hr Hl0 He0) as (j & x & Hj & Hx). exists j, x. rewrite Hcs, list_lookup_insert_ne; [done|]. intros <-. congruence.
Qed.

Lemma mutex_inv_step w es fs l f i c w' es' fs' l' f' c' : inv_at w es fs l f -> resp_ok w es l -> calls w !! i = Some c ->
  change w es l f i c w' es' fs' l' f' c' -> (l' = false -> es' <> [] -> resp c' = true \/ (l = false /\ es <> [] /\ resp c = false)) -> inv w'.
Proof. intros Hinv Hr Hi Hc Hre. exists es', fs', l', f'. split; [by eapply inv_change|]. eapply resp_change; [done|apply Hc|done|done]. Qed.

(** A call that moves without touching the lock byte, the queue or its place in it. *)
Record plain (c c' : Call) : Prop := {
  pl_owner : owner (c_pc c') = owner (c_pc c);
  pl_qholder : qholder (c_pc c') = qholder (c_pc c);
  pl_marker : marker (c_pc c') = true -> marker (c_pc c) = true;
  pl_local : local_ok c';
  pl_queued : queued <$> c_waiter c' = queued <$> c_waiter c \/ (c_waiter c = None /\ queued <$> c_waiter c' = Some false);
  pl_position : position <$> c_waiter c' = position <$> c_waiter c \/ (c_waiter c = None /\ position <$> c_waiter c' = Some None);
  pl_keeps : keeps c c';
  pl_target j : c_pc c' <> MWake2 j;
  pl_resp : owner (c_pc c) = true \/ (resp c = true -> resp c' = true) }.

Lemma plain_queue es i c c' : plain c c' -> queue_ok es i c -> queue_ok es i c'.
Proof.
  intros [_ _ _ _ Hq Hp _ _ _]. unfold queue_ok. destruct (c_waiter c) as [x|], (c_waiter c') as [x'|]; cbn in *; try naive_solver.
  - destruct Hq as [[= ->]|[? _]], Hp as [[= ->]|[? _]]; done.
  - destruct Hq as [?|[_ [= ->]]], Hp as [?|[_ [= ->]]]; done.
Qed.

Lemma inv_plain w w' i c c' : inv w -> calls w !! i = Some c -> calls w' = <[i := c']> (calls w) -> state w' = state w -> queue w' = queue w -> qlock w' = qlock w ->
  published w' = published w -> plain c c' -> wake_ok (calls w') i c' -> inv w'.
Proof.
  intros (es & fs & l & f & Hinv & Hr) Hi Hcs Hst Hq Hql Hpub Hp Hw. eapply mutex_inv_step with (es' := es) (fs' := fs) (l' := l) (f' := f); [done..| |].
  - destruct Hp as [P1 P2 P3 P4 P5 P6 P7 P8 P9] eqn:Heq. clear Heq. split; try done.
    + rewrite Hst. apply Hinv.
    + by left.
    + left. by rewrite Hql.
    + rewrite Hq. apply Hinv.
    + eapply plain_queue; [done|]. by eapply i_queue.
    + apply Hinv.
    + intros Hm. eapply (i_marked _ _ _ _ _ Hinv); eauto.
    + intros ->. done.
    + rewrite Hpub. intros Hp'. split; [done|]. destruct (i_published _ _ _ _ _ Hinv Hp') as [He Hno]. split; [done|]. rewrite P2. by eapply Hno.
    + rewrite Hcs. by apply wakes_kept with c.
    + intros j Hj. by apply P8 in Hj.
    + intros [x Hx]. destruct P5 as [P5|[P5 _]]; [|congruence]. rewrite Hx in P5. destruct (c_waiter c'); [done|done].
  - intros Hl He. destruct (pl_resp _ _ Hp) as [Ho|Hre].
    + assert (l = true); [|congruence]. apply (i_owned _ _ _ _ _ Hinv). by exists i, c.
    + destruct (resp c); auto.
Qed.

Lemma inv_local w i c : inv w -> calls w !! i = Some c -> local_ok c.
Proof. intros (es & fs & l & f & Hinv & _). apply Hinv. Qed.

Lemma inv_wake_ok w i c : inv w -> calls w !! i = Some c -> wake_ok (calls w) i c.
Proof. intros (es & fs & l & f & Hinv & _). apply Hinv. Qed.

Definition waking (pc : Pc) : bool := match pc with MWake2 _ | MWake3 _ | MWake4 _ => true | _ => false end.

Lemma keeps_quiet c c' : waking (c_pc c) = false -> keeps c c'.
Proof. unfold keeps, carries. destruct (c_pc c); naive_solver. Qed.

(** The goals of [plain], once the two program counters are known. *)
Ltac plain_tac Hpc :=
  split; rewrite ?Hpc; cbn; rewrite ?Hpc; cbn; try done; try (by left); try (apply keeps_quiet; by rewrite Hpc).

(** Moves that change only where a call stands. *)
Definition simple_move (pc pc' : Pc) : Prop :=
  match pc, pc' with
  | MTry, MDone | MLock _, MFirst _ | MFirst _, MRegister _ | MNew, MFirst _ | MNew, MDone | MPending _, MFirst _ | MPending _, MDrop1 => True
  | MCheck, MGuard _ _ | MGuard _ _, MRelease | MGuard _ _, MUnwind _ | MUnwind _, MRelease => True
  | _, _ => False
  end.

Lemma simple_ok w w' i c pc' b : inv w -> calls w !! i = Some c -> simple_move (c_pc c) pc' -> calls w' = <[i := mkCall pc' (c_waiter c) b]> (calls w) ->
  state w' = state w -> queue w' = queue w -> qlock w' = qlock w -> published w' = published w -> inv w'.
Proof.
  intros Hinv Hi Hs Hcs Hst Hq Hql Hp. pose proof (inv_local _ _ _ Hinv Hi) as Hlo. eapply inv_plain; try done.
  - unfold local_ok in Hlo. destruct (c_pc c) eqn:Hpc, pc'; try done; plain_tac Hpc; unfold local_ok, resp in *; cbn in *; rewrite ?Hpc; destruct (c_waiter c); naive_solver.
  - by destruct pc', (c_pc c).
Qed.

Definition set_waiter (c : Call) (pc : Pc) (x : Waiter) : Call := mkCall pc (Some x) (c_woken c).

Lemma mutex_register_ok w i c wk : inv w -> calls w !! i = Some c -> c_pc c = MRegister wk ->
  inv (go_with i c (MEnqueue wk) (register wk (default waiter_new (c_waiter c))) w).
Proof.
  intros Hinv Hi Hpc. pose proof (inv_local _ _ _ Hinv Hi) as Hlo. unfold local_ok in Hlo. rewrite Hpc in Hlo. eapply inv_plain; [done|done|reflexivity..| |].
  - plain_tac Hpc; unfold local_ok; destruct (c_waiter c) as [x|]; cbn in *; naive_solver.
  - unfold wake_ok, coming. cbn. by auto.
Qed.

(** Moves that leave the waiter's place alone: [deactivate] and [take_waker]. *)
Lemma waiter_ok w i c x pc' x' : inv w -> calls w !! i = Some c -> c_waiter c = Some x -> queued x' = queued x -> position x' = position x ->
  match c_pc c, pc' with
  | MCancel1, MCancel2 | MCancel3, MCheck | MDrop1, MDrop2 => True
  | MDrop3 a, MDrop4 b => a = b
  | _, _ => False
  end -> inv (go_with i c pc' x' w).
Proof.
  intros Hinv Hi Hx Hq Hp Hm. pose proof (inv_local _ _ _ Hinv Hi) as Hlo. unfold local_ok in Hlo. rewrite Hx in Hlo. eapply inv_plain; [done|done|reflexivity..| |].
  - destruct (c_pc c) eqn:Hpc, pc'; try done; subst; plain_tac Hpc; unfold local_ok, resp; cbn; rewrite ?Hx, ?Hpc, ?Hq, ?Hp; cbn; auto; try tauto.
    all: destruct Hlo as (_ & Hlo & _); split; [done|]; split; [done|auto].
  - by destruct (c_pc c), pc'.
Qed.

Lemma try_acquire_spec w es fs l f : inv_at w es fs l f -> try_acquire (state w) = if l then None else Some (Z.b2z true + 2 * Z.b2z f).
Proof. intros Hinv. rewrite (i_state _ _ _ _ _ Hinv). by destruct l, f. Qed.

(** The lock is taken. *)
Lemma take_ok w i c s pc' : inv w -> calls w !! i = Some c -> try_acquire (state w) = Some s ->
  match c_pc c, pc' with
  | MTry, MCheck | MLock _, MCheck | MRetry _, MWon => True
  | MFirst _, MCancel1 => is_Some (c_waiter c)
  | MFirst _, MCheck => c_waiter c = None
  | _, _ => False
  end -> inv (go i c pc' (set_state s w)).
Proof.
  intros Hinv0 Hi Hs Hm. pose proof (inv_local _ _ _ Hinv0 Hi) as Hlo. unfold local_ok in Hlo. destruct Hinv0 as (es & fs & l & f & Hinv & Hr).
  rewrite (try_acquire_spec _ _ _ _ _ Hinv) in Hs. destruct l; [done|]. injection Hs as <-.
  pose proof (i_queue _ _ _ _ _ Hinv _ _ Hi) as Hqo. pose proof (i_published _ _ _ _ _ Hinv) as Hpu.
  eapply mutex_inv_step with (es' := es) (fs' := fs) (l' := true) (f' := f) (c' := mkCall pc' (c_waiter c) (c_woken c)); [done|done|done| |done].
  assert (Hlo' : local_ok (mkCall pc' (c_waiter c) (c_woken c))).
  { unfold local_ok. cbn. destruct (c_waiter c) as [x|]; [destruct Hlo as (Hlo0 & Hlo1 & Hlo2)|]; destruct (c_pc c), pc'; cbn in *; try done; try (by destruct Hm).
    all: split; [done|]; split; [done|]; intros Ha; by apply Hlo2 in Ha. }
  assert (Hmk : marker pc' = true -> f = true) by (intros Hmk; apply (i_marked _ _ _ _ _ Hinv i c Hi); by destruct (c_pc c), pc').
  destruct (c_pc c) eqn:Hpc, pc'; try done; split; cbn; rewrite ?Hpc; cbn; try done; try apply Hinv; unfold owner_move, qlock_move; cbn; auto 6; try (apply wakes_kept with c; [done|apply keeps_quiet; by rewrite Hpc]); try congruence.
  all: try (by apply Hlo').
  all: try (intros Hp; destruct (Hpu Hp) as [He Hno]; split; [done|]; split; [done|]; specialize (Hno _ _ Hi); by rewrite Hpc in Hno).
Qed.

(** *** The queue *)
Lemma remove_waiter_ok i c x q es fs : models q es fs -> c_waiter c = Some x -> queue_ok es i c -> exists q' es' fs', remove_waiter i x q = Ok (q', queued x)
  /\ models q' es' fs' /\ (forall k, (k, i) ∉ es') /\ (forall k j, j <> i -> (k, j) ∈ es' <-> (k, j) ∈ es).
Proof.
  intros Hm Hx Hq. unfold queue_ok in Hq. rewrite Hx in Hq. unfold remove_waiter. destruct (queued x).
  - destruct Hq as (k & -> & Hk). destruct (remove_if_step q (mkSeq es []) fs (index k) (Nat.eqb i) Hm) as (q' & fs' & -> & Hm' & _).
    set (P := at_index (index k) (Nat.eqb i)) in *. assert (HPk : forall k', (k', i) ∈ es -> P (k', i) = true).
    { intros k' Hin. apply Hk in Hin as ->. unfold P, at_index, entry_index. cbn. by rewrite !Nat.eqb_refl. }
    assert (Hin : (k, i) ∈ es) by (by apply Hk). eexists q', _, fs'. split; [|split; [exact Hm'|]].
    + pose proof (seq_find_split P (mkSeq es [])) as Hf. destruct (seq_find P (mkSeq es [])) as [v|]; [by rewrite bool_decide_true|]. cbn in Hf. pose proof (HPk _ Hin). rewrite Hf in H by done. done.
    + cbn. split; [intros k' [HP Hin']%list_elem_of_filter; rewrite HPk in HP; done|]. intros k' j Hj. rewrite list_elem_of_filter. split; [by intros [_ ?]|]. intros Hin'. split; [|done].
      unfold P, at_index. cbn. destruct (Nat.eqb_spec i j); [by subst|]. by rewrite andb_false_r.
  - destruct Hq as [Hq ->]. exists q, es, fs. done.
Qed.

Definition lowered (es : list (Key * nat)) (f : bool) : bool := match es with [] => false | _ => f end.

Lemma clear_ok w q b es fs l f : models q es fs -> state w = Z.b2z l + 2 * Z.b2z f ->
  let w' := clear_if_empty (set_queue b q w) in
  state w' = Z.b2z l + 2 * Z.b2z (lowered es f) /\ queue w' = q /\ qlock w' = qlock w /\ published w' = published w /\ calls w' = calls w.
Proof.
  intros Hm Hs. unfold clear_if_empty, is_empty. cbn. rewrite (m_len _ _ _ Hm). destruct es as [|e es]; cbn; [|done]. rewrite Hs. by destruct l, f.
Qed.

Lemma lowered_flag (es : list (Key * nat)) f : (es <> [] -> f = true) -> es <> [] -> lowered es f = true.
Proof. destruct es; auto. Qed.

Lemma enqueue_ok w i c wk : inv w -> calls w !! i = Some c -> c_pc c = MEnqueue wk -> qlock w = None ->
  inv (go i c (MRetry wk) (mark_waiting (set_queue true (queue w) (publish (set_qlock (Some i) w))))).
Proof.
  intros Hinv0 Hi Hpc Hq. pose proof (inv_local _ _ _ Hinv0 Hi) as Hlo. pose proof (inv_wake_ok _ _ _ Hinv0 Hi) as Hw. destruct Hinv0 as (es & fs & l & f & Hinv & Hr).
  eapply mutex_inv_step with (es' := es) (fs' := fs) (l' := l) (f' := true) (c' := mkCall (MRetry wk) (c_waiter c) (c_woken c)); [done..| |].
  - split; cbn; rewrite ?Hpc, ?Hq; cbn; try done.
    + rewrite (i_state _ _ _ _ _ Hinv). by destruct l, f.
    + by left.
    + right. left. done.
    + apply Hinv.
    + exact (i_queue _ _ _ _ _ Hinv _ _ Hi).
    + unfold local_ok in *. rewrite Hpc in Hlo. exact Hlo.
    + set (c' := mkCall _ _ _). apply (wake_frame _ i c c' i c' Hi); [apply keeps_quiet; by rewrite Hpc|]. unfold wake_ok in *. rewrite Hpc in Hw. exact Hw.
    + apply wakes_kept with c; [done|]. apply keeps_quiet. by rewrite Hpc.
  - auto.
Qed.

Lemma pend_ok w es fs f i c x wk q x' es' fs' : inv_at w es fs true f -> calls w !! i = Some c -> c_pc c = MRetry wk -> c_waiter c = Some x ->
  models q es' fs' -> (forall k j, j <> i -> (k, j) ∈ es' <-> (k, j) ∈ es) ->
  queue_ok es' i (mkCall (MPending wk) (Some x') (c_woken c)) -> queued x' = true -> active x' = active x -> w_waker x' = w_waker x ->
  inv_at (go_with i c (MPending wk) x' (set_qlock None (set_queue (has_waiters w) q w))) es' fs' true f.
Proof.
  intros Hinv Hi Hpc Hx Hm' Ho Hq' Hqx Hax Hwx. pose proof (i_local _ _ _ _ _ Hinv _ _ Hi) as Hlo. pose proof (i_wake _ _ _ _ _ Hinv _ _ Hi) as Hw.
  pose proof (i_marked _ _ _ _ _ Hinv i c Hi) as Hf. rewrite Hpc in Hf. specialize (Hf eq_refl). subst f.
  eapply inv_change with (c' := mkCall (MPending wk) (Some x') (c_woken c)); [done..|]. split; cbn; rewrite ?Hpc; cbn; try done.
  - apply Hinv.
  - by left.
  - right. right. done.
  - unfold local_ok in *. rewrite Hpc, Hx in Hlo. cbn in *. split; [done|]. split; [done|]. rewrite Hax. apply Hlo.
  - intros Hp. destruct (i_published _ _ _ _ _ Hinv Hp) as [_ Hno]. specialize (Hno _ _ Hi). by rewrite Hpc in Hno.
  - set (c' := mkCall _ _ _). apply (wake_frame _ i c c' i c' Hi); [apply keeps_quiet; by rewrite Hpc|]. unfold wake_ok, coming, c' in *. rewrite Hpc, Hx in Hw. cbn in *. rewrite Hqx, Hwx. tauto.
  - apply wakes_kept with c; [done|]. apply keeps_quiet. by rewrite Hpc.
Qed.

Lemma retry_fails w i c x wk : inv w -> calls w !! i = Some c -> c_pc c = MRetry wk -> c_waiter c = Some x -> try_acquire (state w) = None ->
  exists w', (if queued x then Ok (go i c (MPending wk) (set_qlock None w))
    else match push_back (queue w) i with
    | Ok (q, key) => Ok (go_with i c (MPending wk) (enqueue_at (index key) x) (set_qlock None (set_queue (has_waiters w) q w)))
    | _ => Panic
    end : step_result) = Ok w' /\ inv w'.
Proof.
  intros (es & fs & l & f & Hinv & _) Hi Hpc Hx Ht. pose proof (i_queue _ _ _ _ _ Hinv _ _ Hi) as Hq. pose proof (i_models _ _ _ _ _ Hinv) as Hm.
  rewrite (try_acquire_spec _ _ _ _ _ Hinv) in Ht. destruct l; [|done]. unfold queue_ok in Hq. rewrite Hx in Hq. destruct (queued x) eqn:Hqx.
  - eexists. split; [done|]. assert (Heq : go i c (MPending wk) (set_qlock None w) = go_with i c (MPending wk) x (set_qlock None (set_queue (has_waiters w) (queue w) w))).
    { unfold go, go_with. rewrite Hx. by destruct w. }
    rewrite Heq. exists es, fs, true, f. split; [|done]. eapply pend_ok; try done. unfold queue_ok. cbn. by rewrite Hqx.
  - destruct Hq as [Hno _]. destruct (push_ok (queue w) es fs i Hm) as (q & key & fs' & -> & Hm' & _). eexists. split; [done|]. exists (es ++ [(key, i)]), fs', true, f. split; [|done].
    eapply pend_ok; try done.
    + intros k j Hj. rewrite elem_of_app, list_elem_of_singleton. naive_solver.
    + unfold queue_ok. cbn. exists key. split; [done|]. intros k'. rewrite elem_of_app, list_elem_of_singleton. naive_solver.
Qed.

Lemma sub_nonempty (es es' : list (Key * nat)) i : (forall k, (k, i) ∉ es') -> (forall k j, j <> i -> (k, j) ∈ es' <-> (k, j) ∈ es) -> es' <> [] -> es <> [].
Proof.
  intros Hno Hoth Hne. destruct es' as [|[k j] es0]; [done|]. intros ->. assert (Hj : j <> i) by (intros ->; by apply (Hno k); left).
  apply (Hoth k j) in Hj as [Hj _]. by apply not_elem_of_nil in Hj; [|left].
Qed.

(** A call leaves the queue: by the section of [cancel_marked], or inside that of a successful retry. *)
Lemma leave_ok w es fs l f i c x pc' x' w' q es' fs' b : inv_at w es fs l f -> calls w !! i = Some c -> c_waiter c = Some x ->
  models q es' fs' -> (forall k, (k, i) ∉ es') -> (forall k j, j <> i -> (k, j) ∈ es' <-> (k, j) ∈ es) ->
  w' = clear_if_empty (set_queue b q w) \/ w' = set_qlock None (clear_if_empty (set_queue b q w)) -> qlock_move i (qholder (c_pc c)) (qholder pc') (qlock w) (qlock w') ->
  qholder (c_pc c) = true \/ qlock w = None -> qholder pc' = false -> queued x' = false -> position x' = None -> (active x' = false -> may_stop pc' = true) ->
  match c_pc c, pc' with MWon, MCheck | MCancel2, MCancel3 | MDrop2, MDrop3 _ => True | _, _ => False end ->
  inv_at (go_with i c pc' x' w') es' fs' l (lowered es' f).
Proof.
  intros Hinv Hi Hx Hm Hno Hoth Hw' Hql Hqh Hqp Hq' Hp' Ha' Hpc. destruct (clear_ok w q b es' fs' l f Hm (i_state _ _ _ _ _ Hinv)) as (Hs & Hqu & Hlk & Hpub & Hcs).
  pose proof (sub_nonempty _ _ _ Hno Hoth) as Hsub.
  assert (Hst : state w' = state (clear_if_empty (set_queue b q w)) /\ queue w' = queue (clear_if_empty (set_queue b q w)) /\ published w' = published (clear_if_empty (set_queue b q w)) /\ calls w' = calls (clear_if_empty (set_queue b q w))) by (by destruct Hw' as [-> | ->]).
  destruct Hst as (Hst1 & Hst2 & Hst3 & Hst4).
  eapply inv_change with (c' := mkCall pc' (Some x') (c_woken c)); [done|done|]. split; cbn; rewrite ?Hst1, ?Hst2, ?Hst3, ?Hst4, ?Hs, ?Hqu, ?Hcs; try done.
  - left. by destruct (c_pc c), pc'.
  - unfold queue_ok. cbn. by rewrite Hq'.
  - intros Hne. apply lowered_flag; [|done]. intros _. apply (i_flag _ _ _ _ _ Hinv). auto.
  - by destruct pc', (c_pc c).
  - intros _ _. destruct Hqh; auto.
  - unfold local_ok. cbn. rewrite Hq'. split; [by destruct pc', (c_pc c)|]. done.
  - rewrite Hpub. intros Hp. destruct (i_published _ _ _ _ _ Hinv Hp) as [He _]. split; [done|]. split; [|done]. destruct es'; [done|]. by destruct Hsub.
  - by destruct pc', (c_pc c).
  - apply wakes_kept with c; [done|]. apply keeps_quiet. by destruct (c_pc c).
  - intros j ->. by destruct (c_pc c).
Qed.

Lemma resp_leave w w' es es' l i c c' : resp_ok w es l -> calls w !! i = Some c -> calls w' = <[i := c']> (calls w) -> (es' <> [] -> es <> []) ->
  l = true \/ resp c' = true \/ resp c = false -> resp_ok w' es' l.
Proof. intros Hr Hi Hcs Hsub Hc. eapply resp_change; [done|done|done|]. intros Hl He. destruct Hc as [->|[Hc|Hc]]; [done|by left|right; auto]. Qed.

Lemma won_ok w i c x : inv w -> calls w !! i = Some c -> c_pc c = MWon -> c_waiter c = Some x ->
  exists w', act i c false w = Ok w' /\ inv w'.
Proof.
  intros (es & fs & l & f & Hinv & Hr) Hi Hpc Hx. pose proof (i_queue _ _ _ _ _ Hinv _ _ Hi) as Hq. pose proof (i_models _ _ _ _ _ Hinv) as Hm.
  assert (Hl : l = true) by (apply (i_owned _ _ _ _ _ Hinv); exists i, c; by rewrite Hpc).
  assert (Hql : qlock w = Some i) by (apply (i_qlock _ _ _ _ _ Hinv); exists c; by rewrite Hpc).
  destruct (remove_waiter_ok i c x _ es fs Hm Hx Hq) as (q & es' & fs' & Hrm & Hm' & Hno & Hoth).
  assert (Hif : (if queued x then remove_waiter i x (queue w) else Ok (queue w, false)) = Ok (q, queued x)).
  { destruct (queued x) eqn:Hqx; [done|]. unfold remove_waiter in Hrm. unfold queue_ok in Hq. rewrite Hx, Hqx in Hq. destruct Hq as [_ Hq]. rewrite Hq in Hrm. by injection Hrm as ->. }
  unfold_act. rewrite Hpc. unfold with_waiter. rewrite Hx, Hif. eexists. split; [done|]. subst l. exists es', fs', true, (lowered es' f). split; [|done].
  eapply leave_ok; try done; rewrite ?Hpc; try done.
  - by right.
  - right. right. done.
  - by left.
  - cbn. destruct (queued x) eqn:Hqx; [done|]. unfold queue_ok in Hq. rewrite Hx, Hqx in Hq. by destruct Hq.
Qed.

Lemma same_inv w w' es fs l f : inv_at w es fs l f -> state w' = state w -> queue w' = queue w -> qlock w' = qlock w -> published w' = published w -> calls w' = calls w -> inv_at w' es fs l f.
Proof. intros [] Hs Hq Hl Hp Hc. split; rewrite ?Hs, ?Hq, ?Hl, ?Hp, ?Hc; done. Qed.

Definition after_cancel (pc : Pc) (removed : bool) : Pc := match pc with MCancel2 => MCancel3 | _ => MDrop3 removed end.

Lemma cancel_ok w i c x : inv w -> calls w !! i = Some c -> c_waiter c = Some x -> c_pc c = MCancel2 \/ c_pc c = MDrop2 ->
  cancel_section i x w = Err tt \/ exists w1 x' removed, cancel_section i x w = Ok (w1, x', removed) /\ inv (go_with i c (after_cancel (c_pc c) removed) x' w1).
Proof.
  intros (es & fs & l & f & Hinv & Hr) Hi Hx Hpc. pose proof (i_queue _ _ _ _ _ Hinv _ _ Hi) as Hq. pose proof (i_models _ _ _ _ _ Hinv) as Hm. unfold cancel_section.
  assert (Hnh : qholder (c_pc c) = false) by (by destruct Hpc as [-> | ->]).
  destruct (published w) eqn:Hpub.
  - destruct (qlock w) as [j|] eqn:Hql; [by left|]. right. destruct (remove_waiter_ok i c x _ es fs Hm Hx Hq) as (q & es' & fs' & -> & Hm' & Hno & Hoth).
    eexists _, _, _. split; [done|]. exists es', fs', l, (lowered es' f). split.
    + eapply leave_ok; try done; try (by left); try (by right); [|by destruct Hpc as [-> | ->]|by cbn; destruct (queued x)|by destruct Hpc as [-> | ->]|by destruct Hpc as [-> | ->]].
      destruct (clear_ok w q (has_waiters w) es' fs' l f Hm' (i_state _ _ _ _ _ Hinv)) as (_ & _ & Hlk & _). left. rewrite Hnh, Hlk. split; [by destruct Hpc as [-> | ->]|done].
    + eapply resp_leave; [done|done| |by eapply sub_nonempty|].
      * cbn. destruct (clear_ok w q (has_waiters w) es' fs' l f Hm' (i_state _ _ _ _ _ Hinv)) as (_ & _ & _ & _ & Hcs). by rewrite Hcs.
      * right. unfold resp. destruct Hpc as [-> | ->]; cbn; [by right|]. rewrite Hx. cbn. destruct (queued x); auto.
  - right. destruct (i_published _ _ _ _ _ Hinv Hpub) as [He Hno]. subst es. eexists _, _, _. split; [done|]. unfold queue_ok in Hq. rewrite Hx in Hq.
    assert (Hqx : queued x = false) by (destruct (queued x); [|done]; destruct Hq as (k & _ & Hk); destruct (Hk k) as [_ Hk']; exfalso; by apply (not_elem_of_nil (k, i)), Hk').
    rewrite Hqx in Hq. destruct Hq as [Hq Hpos]. exists [], fs, l, false. split.
    + assert (Hql : qlock w = None) by (destruct (qlock w) as [j|] eqn:Hj; [|done]; apply (i_qlock _ _ _ _ _ Hinv) in Hj as (x0 & Hj & Hx0); apply Hno in Hj; congruence).
      destruct (clear_ok w (queue w) false [] fs l f Hm (i_state _ _ _ _ _ Hinv)) as (Hs & Hqu & Hlk & Hpb & Hcs).
      apply (same_inv (go_with i c (after_cancel (c_pc c) false) x (clear_if_empty (set_queue false (queue w) w)))); cbn; rewrite ?Hqu, ?Hlk, ?Hpb, ?Hcs; try done.
      * eapply (leave_ok w [] fs l f i c x _ x _ (queue w) [] fs false Hinv Hi Hx Hm Hq); try done; try (by left); try (by right); try (by destruct Hpc as [-> | ->]).
        unfold qlock_move. left. rewrite Hlk. split; [by destruct Hpc as [-> | ->]|done].
      * rewrite Hs, (i_state _ _ _ _ _ Hinv). by destruct l, f.
    + intros _ Hne. done.
Qed.

(** A call that is in no section and not queued moves on with its waiter as it is. *)
Lemma idle_change w es fs l f i c w' pc' l' f' : inv_at w es fs l f -> calls w !! i = Some c -> calls w' = <[i := mkCall pc' (c_waiter c) (c_woken c)]> (calls w) ->
  state w' = Z.b2z l' + 2 * Z.b2z f' -> owner_move (owner (c_pc c)) (owner pc') l l' -> qlock_move i (qholder (c_pc c)) (qholder pc') (qlock w) (qlock w') ->
  queue w' = queue w -> published w' = published w -> (es <> [] -> f' = true) -> (f' = false -> f = true -> qholder (c_pc c) = true \/ qlock w = None \/ published w = false) ->
  may_queue (c_pc c) = false \/ may_queue pc' = true -> may_stop pc' = true -> marker pc' = false -> no_waiter pc' = false -> needs_waiter pc' = false -> (published w = false -> qholder pc' = false) ->
  (forall j x, j <> i -> calls w !! j = Some x -> wake_ok (calls w) j x -> wake_ok (calls w') j x) ->
  (forall j, pc' = MWake2 j -> j <> i /\ exists cj x, calls w !! j = Some cj /\ c_waiter cj = Some x) ->
  inv_at w' es fs l' f'.
Proof.
  intros Hinv Hi Hcs Hst Ho Hq Hqu Hpub Hf Hcl Hmq Hms Hmk Hnw Hneed Hqp Hw Ht. pose proof (i_local _ _ _ _ _ Hinv _ _ Hi) as Hlo.
  eapply inv_change with (c' := mkCall pc' (c_waiter c) (c_woken c)); [done|done|]. split; cbn; try done.
  - rewrite Hqu. apply Hinv.
  - exact (i_queue _ _ _ _ _ Hinv _ _ Hi).
  - congruence.
  - unfold local_ok in *. cbn. destruct (c_waiter c) as [x|]; [|done]. destruct Hlo as (_ & Hlo & _). split; [done|]. split; [|done]. intros Hqx. apply Hlo in Hqx. destruct Hmq; congruence.
  - rewrite Hpub. intros Hp. split; [done|]. split; [apply (i_published _ _ _ _ _ Hinv Hp)|auto].
  - unfold wake_ok. cbn. by destruct pc'.
Qed.

Lemma release_ok w i c : inv w -> calls w !! i = Some c -> c_pc c = MRelease -> exists w', act i c false w = Ok w' /\ inv w'.
Proof.
  intros (es & fs & l & f & Hinv & Hr) Hi Hpc. assert (Hl : l = true) by (apply (i_owned _ _ _ _ _ Hinv); exists i, c; by rewrite Hpc). subst l.
  unfold_act. rewrite Hpc. eexists. split; [done|]. pose proof (i_state _ _ _ _ _ Hinv) as Hs.
  assert (Hland : (Z.land (state w) WAITERS =? WAITERS) = f) by (rewrite Hs; by destruct f). rewrite Hland.
  set (pc' := if f then MWake1 else MDone). exists es, fs, false, f. split.
  - eapply idle_change with (pc' := pc') (l := true) (f := f) (i := i) (c := c); try done; rewrite ?Hpc; unfold pc'; try (by destruct f).
    + cbn. rewrite Hs. by destruct f.
    + right. right. by destruct f.
    + left. by destruct f.
    + apply Hinv.
    + by left.
    + apply wakes_kept with c; [done|]. apply keeps_quiet. by rewrite Hpc.
  - intros _ Hne. exists i, (mkCall pc' (c_waiter c) (c_woken c)). split; [apply list_lookup_insert_eq; by eapply lookup_lt_Some|]. unfold pc'. by rewrite (i_flag _ _ _ _ _ Hinv Hne).
Qed.

Lemma drop4_ok w i c removed : inv w -> calls w !! i = Some c -> c_pc c = MDrop4 removed -> exists w', act i c false w = Ok w' /\ inv w'.
Proof.
  intros (es & fs & l & f & Hinv & Hr) Hi Hpc. unfold_act. rewrite Hpc. eexists. split; [done|]. pose proof (i_state _ _ _ _ _ Hinv) as Hs.
  assert (Hland : (Z.land (state w) LOCKED =? 0) = negb l) by (rewrite Hs; by destruct l, f). rewrite Hland.
  set (pc' := if negb removed && negb l then MWake1 else MDone). exists es, fs, l, f. split.
  - eapply idle_change with (pc' := pc') (l := l) (f := f) (i := i) (c := c); try done; rewrite ?Hpc; unfold pc'; try (by destruct removed, l).
    + left. by destruct removed, l.
    + left. by destruct removed, l.
    + apply Hinv.
    + intros ->. done.
    + by left.
    + apply wakes_kept with c; [done|]. apply keeps_quiet. by rewrite Hpc.
  - eapply resp_change; [done|reflexivity|done|]. intros -> Hne. unfold resp. rewrite Hpc. cbn. destruct removed; [right; done|by left].
Qed.

Lemma wake3_ok w i c o : inv w -> calls w !! i = Some c -> c_pc c = MWake3 o -> exists w', act i c false w = Ok w' /\ inv w'.
Proof.
  intros (es & fs & l & f & Hinv & Hr) Hi Hpc. unfold_act. rewrite Hpc. eexists. split; [done|].
  destruct (clear_ok w (queue w) (negb (is_empty (queue w))) es fs l f (i_models _ _ _ _ _ Hinv) (i_state _ _ _ _ _ Hinv)) as (Hs & Hqu & Hlk & Hpb & Hcs).
  set (pc' := match o with Some wk => MWake4 wk | None => MDone end). exists es, fs, l, (lowered es f). split.
  - eapply idle_change with (pc' := pc') (l := l) (f := f) (i := i) (c := c); try done; rewrite ?Hpc; cbn; rewrite ?Hcs; unfold pc'; try (by destruct o).
    + left. by destruct o.
    + right. right. by destruct o.
    + intros Hne. apply lowered_flag; [apply Hinv|done].
    + auto.
    + by left.
    + apply wakes_kept with c; [done|]. unfold keeps, carries. rewrite Hpc. cbn. split; [|done]. intros wk [?|[= ->]]; [done|by left].
  - eapply resp_change with (c := c) (c' := mkCall pc' (c_waiter c) (c_woken c)); [done|cbn; by rewrite Hcs|done|]. intros -> Hne. right. unfold resp. by rewrite Hpc.
Qed.

(** The waker of [j] is taken: by then it is on its way. *)
Lemma wake2_ok w i c j : inv w -> calls w !! i = Some c -> c_pc c = MWake2 j -> exists w', act i c false w = Ok w' /\ inv w'.
Proof.
  intros (es & fs & l & f & Hinv & Hr) Hi Hpc. destruct (i_target _ _ _ _ _ Hinv i c j Hi Hpc) as (Hne & [pc wt b] & x & Hj & Hx). cbn in Hx. subst wt.
  unfold_act. rewrite Hpc, Hj. eexists. split; [done|]. set (ci := mkCall (MWake3 (w_waker x)) (c_waiter c) (c_woken c)). set (cj := mkCall pc (Some (take_waker x)) b).
  assert (H1 : inv_at (set_call i ci w) es fs l f).
  { eapply idle_change with (pc' := MWake3 (w_waker x)) (l := l) (f := f) (i := i) (c := c); try done; rewrite ?Hpc; cbn; try (by left); try apply Hinv; try (intros ->; done).
    - intros Hp. destruct (i_published _ _ _ _ _ Hinv Hp) as [_ Hno]. specialize (Hno _ _ Hi). by rewrite Hpc in Hno.
    - intros k y Hk Hyk Hw. unfold wake_ok, coming in *.
      assert (Hc : forall wk, some_pc (carries wk) (calls w) -> some_pc (carries wk) (<[i := ci]> (calls w))) by (intros wk; apply some_pc_insert with c; [done|]; unfold carries; rewrite Hpc; naive_solver).
      assert (Hnew : forall wk, w_waker x = Some wk -> some_pc (carries wk) (<[i := ci]> (calls w))).
      { intros wk Hwk. exists i, ci. split; [apply list_lookup_insert_eq; by eapply lookup_lt_Some|]. unfold ci. cbn. rewrite Hwk. by right. }
      assert (Hw2 : k <> j -> some_pc (fun pc => pc = MWake2 k) (calls w) -> some_pc (fun pc => pc = MWake2 k) (<[i := ci]> (calls w))) by (intros Hkj; apply some_pc_insert with c; [done|]; rewrite Hpc; congruence).
      destruct (c_pc y); try done; destruct (decide (k = j)) as [->|Hkj]; try naive_solver. }
  assert (Hi1 : <[i := ci]> (calls w) !! j = Some (mkCall pc (Some x) b)) by (by rewrite list_lookup_insert_ne).
  assert (Heq : go i c (MWake3 (w_waker x)) (set_call j cj w) = set_call j cj (set_call i ci w)).
  { unfold go, set_call, set_calls. cbn. f_equal. by apply list_insert_insert_ne. }
  assert (Hqj : qholder pc = false).
  { destruct (qholder pc) eqn:Hqj; [|done]. exfalso. apply Hne. assert (Ha : qlock w = Some j) by (apply (i_qlock _ _ _ _ _ Hinv); eauto).
    assert (Hb : qlock w = Some i) by (apply (i_qlock _ _ _ _ _ Hinv); exists c; by rewrite Hpc). congruence. }
  rewrite Heq. pose proof (i_local _ _ _ _ _ H1 _ _ Hi1) as Hlo. pose proof (i_queue _ _ _ _ _ H1 _ _ Hi1) as Hqo. pose proof (i_wake _ _ _ _ _ H1 _ _ Hi1) as Hwo.
  exists es, fs, l, f. split.
  - eapply inv_change with (i := j) (c' := cj); [exact H1|exact Hi1|]. split; cbn; try done; try apply H1; try (by left); try (intros ->; done).
    + intros Hmk. by apply (i_marked _ _ _ _ _ H1 j _ Hi1).
    + intros Hp. destruct (i_published _ _ _ _ _ Hinv Hp) as [He Hno]. split; [done|]. split; [done|]. by specialize (Hno _ _ Hj).
    + apply (wake_frame _ j (mkCall pc (Some x) b) cj j cj Hi1); [split; [done|intros k Hk; cbn in Hk; by subst pc]|]. unfold wake_ok, coming, cj in *. cbn in *.
      assert (Hnew : forall wk, Some (w_waker x) = Some (Some wk) -> some_pc (carries wk) (<[i := ci]> (calls w))).
      { intros wk [= Hwk]. exists i, ci. split; [apply list_lookup_insert_eq; by eapply lookup_lt_Some|]. unfold ci. cbn. rewrite Hwk. by right. }
      destruct pc; try done; [destruct Hwo as [Hwo Hd]; split; [|exact Hd]|]; destruct Hwo as [Hwo|[Hwo|Hwo]]; auto.
    + apply wakes_kept with (mkCall pc (Some x) b); [done|]. split; [done|]. intros k Hk. cbn in Hk. by subst pc.
    + intros k Hk. by subst pc.
  - apply (resp_change (set_call i ci w) _ es es l l j (mkCall pc (Some x) b) cj); [done|reflexivity| |].
    + eapply (resp_change w _ es es l l i c); [exact Hi|reflexivity|done|]. intros -> He. right. unfold resp. by rewrite Hpc.
    + intros -> He. assert (Hre : resp cj = resp (mkCall pc (Some x) b)) by done. destruct (resp cj); auto.
Qed.

(** *** Waking a task *)
Lemma wake_call_pc wk c : c_pc (wake_call wk c) = c_pc c.
Proof. unfold wake_call. by case_bool_decide. Qed.

Lemma wake_call_waiter wk c : c_waiter (wake_call wk c) = c_waiter c.
Proof. unfold wake_call. by case_bool_decide. Qed.

Lemma wake_call_woken wk c : c_woken c = true -> c_woken (wake_call wk c) = true.
Proof. unfold wake_call. by case_bool_decide. Qed.

Lemma woken_at wk (cs : list Call) i c : (wake_call wk <$> cs) !! i = Some c -> exists c0, cs !! i = Some c0 /\ c = wake_call wk c0.
Proof. rewrite list_lookup_fmap. destruct (cs !! i) as [c0|]; [|done]. intros [= <-]. eauto. Qed.

Lemma woken_back wk (cs : list Call) i c : cs !! i = Some c -> (wake_call wk <$> cs) !! i = Some (wake_call wk c).
Proof. intros Hi. by rewrite list_lookup_fmap, Hi. Qed.

Lemma some_pc_woken P wk cs : some_pc P (wake_call wk <$> cs) <-> some_pc P cs.
Proof.
  split; intros (j & c & Hj & Hc).
  - apply woken_at in Hj as (c0 & Hj & ->). rewrite wake_call_pc in Hc. by exists j, c0.
  - exists j, (wake_call wk c). rewrite wake_call_pc. split; [by apply woken_back|done].
Qed.

Lemma wake_ok_woken wk cs i c : wake_ok cs i c -> wake_ok (wake_call wk <$> cs) i (wake_call wk c).
Proof.
  unfold wake_ok, coming. rewrite wake_call_pc, wake_call_waiter. pose proof (wake_call_woken wk c) as Hw.
  destruct (c_pc c) as [| | |wk'|wk'|wk'|wk'|wk'| | | | | | | | | | | | | | | | |]; try done; rewrite !some_pc_woken; intuition.
Qed.

Lemma wake_all_ok w es fs l f wk : inv_at w es fs l f -> inv_at (set_calls (wake_call wk <$> calls w) w) es fs l f.
Proof.
  intros [A1 A2 A3 A4 A5 A6 A7 A8 A9 A10 A11 A12 A13]. split; cbn; try done.
  - intros i j ci cj Hi Hj. apply woken_at in Hi as (c & Hi & ->), Hj as (c' & Hj & ->). rewrite !wake_call_pc. by eapply A2.
  - by rewrite some_pc_woken.
  - intros i. rewrite A4. split; intros (c & Hi & Hc).
    + exists (wake_call wk c). rewrite wake_call_pc. split; [by apply woken_back|done].
    + apply woken_at in Hi as (c0 & Hi & ->). rewrite wake_call_pc in Hc. eauto.
  - intros i c Hi. apply woken_at in Hi as (c0 & Hi & ->). unfold queue_ok. rewrite wake_call_waiter. exact (A6 _ _ Hi).
  - intros k j Hk. destruct (A7 _ _ Hk) as [c Hc]. exists (wake_call wk c). by apply woken_back.
  - intros i c Hi. apply woken_at in Hi as (c0 & Hi & ->). rewrite wake_call_pc. by eapply A9.
  - intros i c Hi. apply woken_at in Hi as (c0 & Hi & ->). unfold local_ok. rewrite wake_call_waiter, wake_call_pc. exact (A10 _ _ Hi).
  - intros Hp. destruct (A11 Hp) as [He Hno]. split; [done|]. intros i c Hi. apply woken_at in Hi as (c0 & Hi & ->). rewrite wake_call_pc. by eapply Hno.
  - intros i c Hi. apply woken_at in Hi as (c0 & Hi & ->). by apply wake_ok_woken, A12.
  - intros i c j Hi. apply woken_at in Hi as (c0 & Hi & ->). rewrite wake_call_pc. intros Hc. destruct (A13 _ _ _ Hi Hc) as (Hne & cj & x & Hj & Hx). split; [done|].
    exists (wake_call wk cj), x. rewrite wake_call_waiter. split; [by apply woken_back|done].
Qed.

Lemma wake4_ok w i c wk : inv w -> calls w !! i = Some c -> c_pc c = MWake4 wk -> exists w', act i c false w = Ok w' /\ inv w'.
Proof.
  intros (es & fs & l & f & Hinv & Hr) Hi Hpc. unfold_act. rewrite Hpc. eexists. split; [done|]. set (cs := wake_call wk <$> calls w).
  assert (Hi' : cs !! i = Some c).
  { unfold cs. rewrite (woken_back _ _ _ _ Hi). unfold wake_call. rewrite Hpc. by rewrite bool_decide_false. }
  assert (Heq : set_calls (wake_call wk <$> <[i := mkCall MDone (c_waiter c) (c_woken c)]> (calls w)) w = go i c MDone (set_calls cs w)).
  { unfold go, set_call, set_calls. cbn. f_equal. by rewrite list_fmap_insert. }
  rewrite Heq. pose proof (wake_all_ok _ _ _ _ _ wk Hinv) as Hinv'. exists es, fs, l, f. split.
  - eapply idle_change with (pc' := MDone) (l := l) (f := f) (i := i) (c := c); [exact Hinv'|exact Hi'|..]; try done; rewrite ?Hpc; cbn; try (by left); try apply Hinv; try (intros ->; done).
    intros k x Hk Hx Hw. apply woken_at in Hx as (x0 & Hx & ->).
    assert (Hc : forall wk', wk' <> wk -> some_pc (carries wk') cs -> some_pc (carries wk') (<[i := mkCall MDone (c_waiter c) (c_woken c)]> cs)).
    { intros wk' Hne. apply some_pc_insert with c; [done|]. unfold carries. rewrite Hpc. intros [[= ->]|?]; done. }
    assert (H2 : some_pc (fun pc => pc = MWake2 k) cs -> some_pc (fun pc => pc = MWake2 k) (<[i := mkCall MDone (c_waiter c) (c_woken c)]> cs)) by (apply some_pc_insert with c; [done|]; by rewrite Hpc).
    assert (Hwoke : polls_with (c_pc x0) = Some wk -> c_woken (wake_call wk x0) = true) by (intros Hp; unfold wake_call; by rewrite bool_decide_true).
    fold cs in Hw. unfold wake_ok, coming in *. rewrite wake_call_pc in *. destruct (c_pc x0) as [| | |wk'|wk'|wk'|wk'|wk'| | | | | | | | | | | | | | | | |]; try done; cbn in Hwoke; specialize (Hc wk'); destruct (decide (wk' = wk)) as [->|Hne]; intuition.
  - intros -> He. destruct (Hr eq_refl He) as (j & x & Hj & Hx). exists j, (wake_call wk x). cbn. assert (Hji : j <> i) by (intros ->; simplify_eq; unfold resp in Hx; by rewrite Hpc in Hx).
    rewrite list_lookup_insert_ne by done. split; [by apply woken_back|]. unfold resp in *. by rewrite wake_call_pc, wake_call_waiter.
Qed.

Lemma add_ok w pc : inv w -> no_waiter pc = true -> inv (add_call pc w).
Proof.
  intros (es & fs & l & f & [A1 A2 A3 A4 A5 A6 A7 A8 A9 A10 A11 A12 A13] & Hr) Hpc. exists es, fs, l, f.
  assert (Hat : forall j x, (calls w ++ [mkCall pc None false]) !! j = Some x -> calls w !! j = Some x \/ (calls w !! j = None /\ x = mkCall pc None false)).
  { intros j x Hj. apply lookup_app_Some in Hj as [Hj|[Hl Hj]]; [auto|]. apply list_lookup_singleton_Some in Hj as [_ <-]. right. split; [by apply lookup_ge_None_2|done]. }
  assert (Hback : forall j x, calls w !! j = Some x -> (calls w ++ [mkCall pc None false]) !! j = Some x) by (intros; by apply lookup_app_l_Some).
  assert (Hsome : forall P : Pc -> Prop, (~ P pc) -> some_pc P (calls w ++ [mkCall pc None false]) <-> some_pc P (calls w)).
  { intros P HP. split; intros (j & x & Hj & Hx); [|exists j, x; auto]. apply Hat in Hj as [Hj|[_ ->]]; [by exists j, x|done]. }
  assert (Hno : owner pc = false /\ qholder pc = false /\ marker pc = false /\ needs_waiter pc = false /\ resp (mkCall pc None false) = false) by (by destruct pc).
  destruct Hno as (Ho & Hq & Hm & Hn & Hre). split.
  - split; cbn; try done.
    + intros i j ci cj Hi Hj. apply Hat in Hi as [Hi|[_ ->]], Hj as [Hj|[_ ->]]; cbn; try congruence. by eapply A2.
    + rewrite A3, Hsome; [done|congruence].
    + intros i. rewrite A4. split; intros (x & Hi & Hx); [eauto|]. apply Hat in Hi as [Hi|[_ ->]]; [eauto|]. cbn in Hx. congruence.
    + intros i c Hi. apply Hat in Hi as [Hi|[Hi ->]]; [by apply A6|]. intros k Hk. apply A7 in Hk as [x Hx]. congruence.
    + intros k j Hk. apply A7 in Hk as [x Hx]. eauto.
    + intros i c Hi Hx. apply Hat in Hi as [Hi|[_ ->]]; [by eapply A9|]. cbn in Hx. congruence.
    + intros i c Hi. apply Hat in Hi as [Hi|[_ ->]]; [by eapply A10|done].
    + intros Hp. destruct (A11 Hp) as [He Hno]. split; [done|]. intros i c Hi. apply Hat in Hi as [Hi|[_ ->]]; [by eapply Hno|done].
    + intros i c Hi. apply Hat in Hi as [Hi|[_ ->]]; [|unfold wake_ok; cbn; by destruct pc]. specialize (A12 _ _ Hi). unfold wake_ok, coming in *.
      destruct (c_pc c) as [| | |wk'|wk'|wk'|wk'|wk'| | | | | | | | | | | | | | | | |]; try done; rewrite !Hsome; try done; unfold carries; intros Hx; destruct pc; try done; by destruct Hx.
    + intros i c j Hi Hc. apply Hat in Hi as [Hi|[_ ->]]; [|cbn in Hc; by subst pc]. destruct (A13 _ _ _ Hi Hc) as (Hne & cj & x & Hj & Hx). split; [done|]. exists cj, x. auto.
  - intros Hl He. destruct (Hr Hl He) as (j & x & Hj & Hx). exists j, x. auto.
Qed.

(** *** The loop of [wake_one_marked] *)
Lemma front_ok w k j es fs l f : inv_at w ((k, j) :: es) fs l f -> exists pc x b q fs', pop_front (queue w) = Ok (q, Some j) /\ models q es fs'
  /\ calls w !! j = Some (mkCall pc (Some x) b) /\ queued x = true /\ may_queue pc = true /\ forall k', (k', j) ∉ es.
Proof.
  intros Hinv. pose proof (i_models _ _ _ _ _ Hinv) as Hm. destruct (pop_step (queue w) (mkSeq ((k, j) :: es) []) fs Hm) as (q & fs' & Hpop & Hm' & _). cbn in *.
  destruct (i_member _ _ _ _ _ Hinv k j) as [[pc wt b] Hj]; [by left|]. pose proof (i_queue _ _ _ _ _ Hinv _ _ Hj) as Hq. pose proof (i_local _ _ _ _ _ Hinv _ _ Hj) as Hlo.
  unfold queue_ok, local_ok in *. cbn in *. destruct wt as [x|]; [|exfalso; apply (Hq k); by left]. destruct (queued x) eqn:Hqx; [|exfalso; apply (proj1 Hq k); by left].
  destruct Hq as (k0 & _ & Hk). assert (k = k0) as <- by (apply Hk; by left). exists pc, x, b, q, fs'. split_and!; try done; [apply Hlo; done|].
  intros k' Hin. assert (k' = k) as -> by (apply Hk; by right). pose proof (models_nodup _ _ _ Hm) as Hnd. apply NoDup_app in Hnd as [Hnd _]. cbn in Hnd.
  apply NoDup_cons in Hnd as [Hnd _]. apply Hnd. exact (list_elem_of_fmap_2 entry_index es (k, j) Hin).
Qed.

Lemma unqueue_ok w k j es fs l f pc x b q fs' hw : inv_at w ((k, j) :: es) fs l f -> models q es fs' -> calls w !! j = Some (mkCall pc (Some x) b) -> queued x = true -> may_queue pc = true ->
  (forall k', (k', j) ∉ es) -> wake_ok (calls w) j (mkCall pc (Some (unqueue x)) b) ->
  inv_at (set_calls (<[j := mkCall pc (Some (unqueue x)) b]> (calls w)) (set_queue hw q w)) es fs' l f.
Proof.
  intros Hinv Hm Hj Hqx Hmq Hno Hw. pose proof (i_local _ _ _ _ _ Hinv _ _ Hj) as Hlo. assert (Hf : f = true) by (by apply (i_flag _ _ _ _ _ Hinv)).
  assert (Hk : forall c', c_pc c' = pc -> keeps (mkCall pc (Some x) b) c') by (intros c' Hc; apply keeps_quiet; by destruct pc).
  eapply inv_change with (i := j) (c' := mkCall pc (Some (unqueue x)) b); [exact Hinv|exact Hj|]. split; cbn; try done; try (by left).
  - apply Hinv.
  - intros k' j' Hne. rewrite elem_of_cons. split; [auto|]. intros [[= _ ->]|?]; done.
  - congruence.
  - unfold local_ok in *. cbn in *. destruct Hlo as (? & _ & ?). split; [done|]. split; [done|done].
  - intros Hp. by destruct (i_published _ _ _ _ _ Hinv Hp) as [? _].
  - eapply wake_frame; [exact Hj|by apply Hk|done].
  - apply wakes_kept with (mkCall pc (Some x) b); [done|by apply Hk].
  - intros i ->. done.
Qed.

Lemma pop_active_empty fuel w fs l f hw (P : nat -> SlotList nat -> list Call -> Prop) : inv_at w [] fs l f -> exists q cs o, pop_active fuel (queue w) (calls w) = Ok (q, cs, o)
  /\ (forall i c, calls w !! i = Some c -> may_queue (c_pc c) = false -> cs !! i = Some c)
  /\ match o with None => exists fs', inv_at (set_calls cs (set_queue hw q w)) [] fs' l f | Some j => P j q cs end.
Proof.
  intros Hinv. exists (queue w), (calls w), None. assert (Hpop : pop_front (queue w) = Ok (queue w, None)) by (unfold pop_front; by rewrite (m_first _ _ _ (i_models _ _ _ _ _ Hinv))).
  split; [destruct fuel; cbn; by rewrite Hpop|]. split; [done|]. exists fs. by eapply same_inv.
Qed.

Lemma pop_active_ok fuel w es fs l f hw : inv_at w es fs l f -> (length es <= fuel)%nat -> exists q cs o, pop_active fuel (queue w) (calls w) = Ok (q, cs, o)
  /\ (forall i c, calls w !! i = Some c -> may_queue (c_pc c) = false -> cs !! i = Some c)
  /\ match o with
     | None => exists fs', inv_at (set_calls cs (set_queue hw q w)) [] fs' l f
     | Some j => exists q1 cs1 k es1 fs1 fs' pc x b, inv_at (set_calls cs1 (set_queue hw q1 w)) ((k, j) :: es1) fs1 l f /\ models q es1 fs'
         /\ cs1 !! j = Some (mkCall pc (Some x) b) /\ cs = <[j := mkCall pc (Some (unqueue x)) b]> cs1 /\ queued x = true /\ active x = true /\ may_queue pc = true /\ forall k', (k', j) ∉ es1
     end.
Proof.
  revert w es fs. induction fuel as [|fuel IH]; intros w es fs Hinv Hl; (destruct es as [|[k j] es]; [eapply (pop_active_empty _ _ _ _ _ _ (fun j q cs => _)); exact Hinv|]).
  - cbn in Hl. lia.
  - destruct (front_ok _ _ _ _ _ _ _ Hinv) as (pc & x & b & q & fs' & Hpop & Hm & Hj & Hqx & Hmq & Hno). cbn. rewrite Hpop, Hj. destruct (active x) eqn:Ha.
    + eexists _, _, (Some j). split; [done|]. split; [|exists (queue w), (calls w), k, es, fs, fs', pc, x, b; split_and!; try done; by eapply same_inv].
      intros i c Hi Hc. rewrite list_lookup_insert_ne; [done|]. intros ->. rewrite Hj in Hi. injection Hi as <-. cbn in Hc. congruence.
    + pose proof (i_local _ _ _ _ _ Hinv _ _ Hj) as (_ & _ & Hms). specialize (Hms Ha). cbn in Hms.
      assert (Hinv' : inv_at (set_calls (<[j := mkCall pc (Some (unqueue x)) b]> (calls w)) (set_queue hw q w)) es fs' l f) by (eapply unqueue_ok; try done; by destruct pc).
      cbn in Hl. destruct (IH _ _ _ Hinv') as (q' & cs & o & Hp & Hsame & Ho); [lia|]. exists q', cs, o. split; [exact Hp|]. split; [|exact Ho].
      intros i c Hi Hc. apply Hsame; [|done]. cbn. rewrite list_lookup_insert_ne; [done|]. intros ->. rewrite Hj in Hi. injection Hi as <-. cbn in Hc. congruence.
Qed.

Lemma hold_queue w es fs l f i c pc' : inv_at w es fs l f -> calls w !! i = Some c -> c_pc c = MWake1 -> qlock w = None -> published w = true -> qholder pc' = true -> waking pc' = true ->
  (forall j, pc' = MWake2 j -> j <> i /\ exists cj x, calls w !! j = Some cj /\ c_waiter cj = Some x) ->
  inv_at (go i c pc' (set_qlock (Some i) w)) es fs l f.
Proof.
  intros Hinv Hi Hpc Hq Hpub Hqp Hwk Ht. eapply idle_change with (pc' := pc') (l := l) (f := f) (i := i) (c := c); try done; rewrite ?Hpc; cbn; try (by destruct pc'); try apply Hinv; try (intros ->; done).
  - left. by destruct pc'.
  - right. left. by rewrite Hq, Hqp.
  - by left.
  - congruence.
  - apply wakes_kept with c; [done|]. apply keeps_quiet. by rewrite Hpc.
Qed.

Lemma wake1_ok w i c : inv w -> calls w !! i = Some c -> c_pc c = MWake1 -> act i c false w = Err tt \/ exists w', act i c false w = Ok w' /\ inv w'.
Proof.
  intros (es & fs & l & f & Hinv & Hr) Hi Hpc. unfold_act. rewrite Hpc. destruct (published w) eqn:Hpub.
  - destruct (qlock w) as [j|] eqn:Hq; [by left|]. right. pose proof (m_len _ _ _ (i_models _ _ _ _ _ Hinv)) as Hlen.
    destruct (pop_active_ok (len (queue w)) w es fs l f (has_waiters w) Hinv) as (q & cs & o & -> & Hsame & Ho); [lia|].
    assert (Hci : cs !! i = Some c) by (apply Hsame; [done|by rewrite Hpc]). rewrite Hci. eexists. split; [done|]. destruct o as [j|].
    + destruct Ho as (q1 & cs1 & k & es1 & fs1 & fs' & pc & x & b & H1 & Hm & Hj & -> & Hqx & Ha & Hmq & Hno). set (w1 := set_calls cs1 (set_queue (has_waiters w) q1 w)) in *.
      assert (Hji : j <> i) by (intros ->; rewrite list_lookup_insert_eq in Hci by (by eapply lookup_lt_Some); injection Hci as <-; cbn in Hpc; by subst pc).
      rewrite list_lookup_insert_ne in Hci by done.
      assert (H2 : inv_at (go i c (MWake2 j) (set_qlock (Some i) w1)) ((k, j) :: es1) fs1 l f).
      { eapply hold_queue; try done. intros j' [= <-]. split; [done|]. by exists (mkCall pc (Some x) b), x. }
      assert (Hj2 : calls (go i c (MWake2 j) (set_qlock (Some i) w1)) !! j = Some (mkCall pc (Some x) b)) by (cbn; by rewrite list_lookup_insert_ne).
      pose proof (i_wake _ _ _ _ _ H2 _ _ Hj2) as Hw. exists es1, fs', l, f. split.
      * eapply same_inv; [eapply (unqueue_ok _ k j es1 fs1 l f pc x b q fs' (has_waiters w) H2 Hm Hj2 Hqx Hmq Hno)|done..|]; [|cbn; by apply list_insert_insert_ne].
        assert (Hwake2 : some_pc (fun pc => pc = MWake2 j) (calls (go i c (MWake2 j) (set_qlock (Some i) w1)))).
        { exists i, (mkCall (MWake2 j) (c_waiter c) (c_woken c)). split; [apply list_lookup_insert_eq; by eapply lookup_lt_Some|done]. }
        unfold wake_ok, coming in *. cbn [c_pc c_waiter c_woken] in *. destruct pc; try done. destruct Hw as [Hw _]. split; [exact Hw|]. auto.
      * intros -> _. exists j, (mkCall pc (Some (unqueue x)) b). split; [cbn; rewrite list_lookup_insert_ne, list_lookup_insert_eq by (done || by eapply lookup_lt_Some); done|].
        pose proof (i_local _ _ _ _ _ H2 _ _ Hj2) as Hlo. assert (Hown : owner pc = false).
        { destruct (owner pc) eqn:Hop; [|done]. assert (Hf : false = true) by (apply (i_owned _ _ _ _ _ H2); by exists j, (mkCall pc (Some x) b)). done. }
        destruct Hlo as (_ & _ & _). destruct pc; try done.
    + destruct Ho as [fs' H1]. exists [], fs', l, f. split; [|by intros _ ?]. apply (hold_queue _ _ _ _ _ i c (MWake3 None) H1); try done.
  - right. eexists. split; [done|]. destruct (i_published _ _ _ _ _ Hinv Hpub) as [-> Hno]. exists [], fs, l, false. split; [|by intros _ ?].
    eapply idle_change with (pc' := MDone) (l := l) (f := f) (i := i) (c := c); try done; rewrite ?Hpc; cbn; try (by left); try apply Hinv.
    + rewrite (i_state _ _ _ _ _ Hinv). by destruct l, f.
    + auto.
    + apply wakes_kept with c; [done|]. apply keeps_quiet. by rewrite Hpc.
Qed.

(** *** Every step *)
Lemma needed w i c : inv w -> calls w !! i = Some c -> needs_waiter (c_pc c) = true -> exists x, c_waiter c = Some x.
Proof. intros Hinv Hi Hn. pose proof (inv_local _ _ _ Hinv Hi) as Hlo. unfold local_ok in Hlo. destruct (c_waiter c) as [x|]; [eauto|congruence]. Qed.

Definition fine (r : step_result) : Prop := r = Err tt \/ exists w, r = Ok w /\ inv w.

Lemma fine_ok w : inv w -> fine (Ok w).
Proof. intros Hw. right. eauto. Qed.

Ltac simple_step Hpc := eapply simple_ok; [eassumption|eassumption| |reflexivity|reflexivity..]; by rewrite Hpc.

Lemma act_ok w i c b : inv w -> calls w !! i = Some c -> fine (act i c b w).
Proof.
  intros Hinv Hi. pose proof (needed _ _ _ Hinv Hi) as Hn.
  assert (Hb : c_pc c <> MCheck -> act i c b w = act i c false w) by (unfold_act; destruct (c_pc c); done).
  destruct (c_pc c) as [|wk| |wk|wk|wk|wk|wk| | | | | |ps pa| | | |rm|rm| |j|o|wk| |pa] eqn:Hpc; try (rewrite Hb by done); unfold fine.
  all: try (left; unfold_act; by rewrite Hpc).
  - unfold_act. rewrite Hpc. destruct (try_acquire (state w)) as [s|] eqn:Ht; apply fine_ok; [eapply take_ok; [done..|by rewrite Hpc]|simple_step Hpc].
  - unfold_act. rewrite Hpc. destruct (try_acquire (state w)) as [s|] eqn:Ht; apply fine_ok; [eapply take_ok; [done..|by rewrite Hpc]|simple_step Hpc].
  - unfold_act. rewrite Hpc. destruct (try_acquire (state w)) as [s|] eqn:Ht; apply fine_ok; [|simple_step Hpc].
    eapply take_ok; [done..|]. rewrite Hpc. by destruct (c_waiter c).
  - unfold_act. rewrite Hpc. apply fine_ok. by apply mutex_register_ok.
  - unfold_act. rewrite Hpc. destruct (qlock w) eqn:Hq; [by left|]. apply fine_ok. by apply enqueue_ok.
  - destruct (Hn eq_refl) as [x Hx]. unfold_act; unfold with_waiter. rewrite Hpc, Hx. destruct (try_acquire (state w)) as [s|] eqn:Ht.
    + apply fine_ok. eapply take_ok; [done..|by rewrite Hpc].
    + right. by eapply retry_fails.
  - destruct (Hn eq_refl) as [x Hx]. right. by eapply won_ok.
  - destruct (Hn eq_refl) as [x Hx]. unfold_act; unfold with_waiter. rewrite Hpc, Hx. apply fine_ok. eapply waiter_ok; try done. by rewrite Hpc.
  - destruct (Hn eq_refl) as [x Hx]. unfold_act; unfold with_waiter. rewrite Hpc, Hx. destruct (cancel_ok w i c x Hinv Hi Hx) as [-> |(w1 & x' & rm & -> & Hw)]; [by left|by left|].
    apply fine_ok. by rewrite Hpc in Hw.
  - destruct (Hn eq_refl) as [x Hx]. unfold_act; unfold with_waiter. rewrite Hpc, Hx. apply fine_ok. eapply waiter_ok; try done. by rewrite Hpc.
  - unfold_act. rewrite Hpc. apply fine_ok. simple_step Hpc.
  - right. by apply release_ok.
  - destruct (Hn eq_refl) as [x Hx]. unfold_act; unfold with_waiter. rewrite Hpc, Hx. apply fine_ok. eapply waiter_ok; try done. by rewrite Hpc.
  - destruct (Hn eq_refl) as [x Hx]. unfold_act; unfold with_waiter. rewrite Hpc, Hx. destruct (cancel_ok w i c x Hinv Hi Hx) as [-> |(w1 & x' & rm & -> & Hw)]; [by right|by left|].
    apply fine_ok. by rewrite Hpc in Hw.
  - destruct (Hn eq_refl) as [x Hx]. unfold_act; unfold with_waiter. rewrite Hpc, Hx. apply fine_ok. eapply waiter_ok; try done. by rewrite Hpc.
  - right. by eapply drop4_ok.
  - by apply wake1_ok.
  - right. by eapply wake2_ok.
  - right. by eapply wake3_ok.
  - right. by eapply wake4_ok.
  - unfold_act. rewrite Hpc. apply fine_ok. destruct (negb pa && true); simple_step Hpc.
Qed.

Lemma mutex_step_ok e w : inv w -> fine (world_step e w).
Proof.
  intros Hinv. destruct e as [|wk| |i wk|i b|i b|i| |i]; cbn; unfold with_call.
  - apply fine_ok. by apply add_ok.
  - apply fine_ok. by apply add_ok.
  - apply fine_ok. by apply add_ok.
  - destruct (calls w !! i) as [c|] eqn:Hi; [|by left]. destruct (c_pc c) eqn:Hpc; try (by left); apply fine_ok; simple_step Hpc.
  - destruct (calls w !! i) as [c|] eqn:Hi; [|by left]. by apply act_ok.
  - destruct (calls w !! i) as [c|] eqn:Hi; [|by left]. destruct (c_pc c) as [| | | | | | | | | | | | |ps pa| | | | | | | | | | |] eqn:Hpc; try (by left). apply fine_ok.
    destruct (negb pa && b); simple_step Hpc.
  - destruct (calls w !! i) as [c|] eqn:Hi; [|by left]. destruct (c_pc c) eqn:Hpc; try (by left); apply fine_ok; simple_step Hpc.
  - apply fine_ok. destruct Hinv as (es & fs & l & f & Hinv & Hr). exists es, fs, l, f. split; [by eapply same_inv|exact Hr].
  - destruct (calls w !! i) as [c|] eqn:Hi; [|by left]. unfold unwrap_guard. destruct (c_pc c) as [| | | | | | | | | | | | |[] pa| | | | | | | | | | |] eqn:Hpc; try (by left); apply fine_ok; [simple_step Hpc|done].
Qed.

Lemma mutex_run_ok es w : inv w -> fine (world_run es w).
Proof.
  revert w. induction es as [|e es IH]; intros w Hinv; cbn; [by apply fine_ok|]. destruct (mutex_step_ok e w Hinv) as [-> |(w1 & -> & Hw)]; [by left|by apply IH].
Qed.

Lemma mutex_inv_new : inv mutex_new.
Proof.
  exists [], [], false, false. split; [|by intros _ ?]. split; cbn; try done.
  - split; [done|]. intros (j & c & Hj & _). done.
  - intros i. split; [done|]. intros (c & Hj & _). done.
  - intros k j Hk. by apply not_elem_of_nil in Hk.
Qed.

(** ** Progress

    [busy]: the call has a step of its own to do.  [stage] bounds the steps it still does while
    the lock is free. *)
Definition pcs (w : World) : list Pc := c_pc <$> calls w.

Definition pending (pc : Pc) : bool := match pc with MPending _ => true | _ => false end.
Definition busy (pc : Pc) : bool := match pc with MNew | MPending _ | MGuard _ _ | MDone => false | _ => true end.
Definition blocks (pc : Pc) : bool := match pc with MEnqueue _ | MCancel2 | MDrop2 | MWake1 => true | _ => false end.

(** The calls that want the lock. *)
Definition wants (pc : Pc) : bool := match pc with MPending _ | MFirst _ | MRegister _ | MEnqueue _ | MRetry _ => true | _ => false end.

Definition stage (pc : Pc) : nat :=
  match pc with
  | MPending _ => 20 | MDrop1 => 18 | MDrop2 => 17 | MDrop3 _ => 16 | MDrop4 _ => 15 | MUnwind _ => 16 | MRelease => 15 | MWake1 => 14 | MWake2 _ => 13 | MWake3 _ => 12 | MWake4 _ => 11
  | MLock _ => 11 | MFirst _ => 10 | MRegister _ => 9 | MEnqueue _ => 8 | MRetry _ => 7 | MTry => 1 | _ => 0
  end.

Definition distance (w : World) : nat := sum_list (stage <$> pcs w).

Lemma sum_insert (ps : list Pc) i pc pc' : ps !! i = Some pc -> (sum_list (stage <$> <[i := pc']> ps) + stage pc = sum_list (stage <$> ps) + stage pc')%nat.
Proof. intros Hi. rewrite list_fmap_insert. apply (sum_with_insert (fun n => n) (stage <$> ps) i (stage pc)). by rewrite list_lookup_fmap, Hi. Qed.

Lemma pop_active_pcs fuel q cs q' cs' o : pop_active fuel q cs = Ok (q', cs', o) -> c_pc <$> cs' = c_pc <$> cs.
Proof.
  revert q cs. induction fuel as [|fuel IH]; intros q cs; cbn; destruct (pop_front q) as [[q1 [j|]]| |]; try done; try (by intros [= _ <- _]).
  all: destruct (cs !! j) as [[pc [x|] b]|] eqn:Hj; try done; assert (Heq : c_pc <$> <[j := mkCall pc (Some (unqueue x)) b]> cs = c_pc <$> cs) by (rewrite list_fmap_insert, list_insert_id; [done|by rewrite list_lookup_fmap, Hj]).
  - destruct (active x); [|done]. by intros [= _ <- _].
  - destruct (active x); [by intros [= _ <- _]|]. intros Hp. apply IH in Hp. congruence.
Qed.

Lemma cancel_calls i x w w' x' b : cancel_section i x w = Ok (w', x', b) -> calls w' = calls w.
Proof.
  unfold cancel_section. destruct (published w); [|by intros [= <- _ _]]. destruct (qlock w); [done|]. destruct (remove_waiter i x (queue w)) as [[q rm]| |]; try done. intros [= <- _ _].
  unfold clear_if_empty. cbn. by destruct (is_empty q).
Qed.

Lemma clear_calls b q w : calls (clear_if_empty (set_queue b q w)) = calls w.
Proof. unfold clear_if_empty. by destruct (is_empty _). Qed.

(** What a step of a call does to where the calls stand. *)
Lemma act_moves w i c b w' : calls w !! i = Some c -> act i c b w = Ok w' -> exists pc', pcs w' = <[i := pc']> (pcs w)
  /\ (owner pc' = true \/ (stage pc' < stage (c_pc c))%nat \/ try_acquire (state w) = None) /\ (wants (c_pc c) = true -> wants pc' = true \/ owner pc' = true).
Proof.
  intros Hi Ha. unfold pcs.
  assert (Hgo : forall w0 c' pc', calls w0 = calls w -> c_pc c' = pc' -> c_pc <$> calls (set_call i c' w0) = <[i := pc']> (c_pc <$> calls w)) by (intros w0 c' pc' Hc <-; cbn; by rewrite Hc, list_fmap_insert).
  assert (Hend : forall w0 c' pc', Ok w' = Ok (set_call i c' w0) :> step_result -> calls w0 = calls w -> c_pc c' = pc' ->
    (owner pc' = true \/ (stage pc' < stage (c_pc c))%nat \/ try_acquire (state w) = None) -> (wants (c_pc c) = true -> wants pc' = true \/ owner pc' = true) ->
    exists pc', c_pc <$> calls w' = <[i := pc']> (c_pc <$> calls w) /\ (owner pc' = true \/ (stage pc' < stage (c_pc c))%nat \/ try_acquire (state w) = None) /\ (wants (c_pc c) = true -> wants pc' = true \/ owner pc' = true)).
  { intros w0 c' pc' [= ->] Hc Hp H1 H2. exists pc'. split; [by apply Hgo|done]. }
  symmetry in Ha. revert Ha. unfold_act. intros Ha. destruct (c_pc c) as [|wk| |wk|wk|wk|wk|wk| | | | | |ps pa| | | |rm|rm| |j|o|wk| |pa] eqn:Hpc; try done; unfold with_waiter in Ha.
  - destruct (try_acquire (state w)) eqn:Ht; (eapply Hend; [exact Ha|done..| |done]); cbn; auto.
  - destruct (try_acquire (state w)) eqn:Ht; (eapply Hend; [exact Ha|done..| |done]); cbn; auto.
  - destruct (try_acquire (state w)) eqn:Ht; (eapply Hend; [exact Ha|done..| |]); cbn; auto; by destruct (c_waiter c); auto.
  - eapply Hend; [exact Ha|done..| |]; cbn; auto; right; left; lia.
  - destruct (qlock w); [done|]. eapply Hend; [exact Ha|done..| |]; cbn; auto; right; left; lia.
  - destruct (c_waiter c) as [x|]; [|done]. destruct (try_acquire (state w)) eqn:Ht; [eapply Hend; [exact Ha|done..| |]; cbn; auto|].
    destruct (queued x); [eapply Hend; [exact Ha|done..| |]; cbn; auto|]. destruct (push_back (queue w) i) as [[q key]| |]; try done. eapply Hend; [exact Ha|done..| |]; cbn; auto.
  - destruct (c_waiter c) as [x|]; [|done]. destruct (if queued x then _ else _) as [[q rm]| |]; try done. eapply Hend; [exact Ha|apply clear_calls|done..| |]; cbn; auto.
  - destruct (c_waiter c) as [x|]; [|done]. eapply Hend; [exact Ha|done..| |]; cbn; auto.
  - destruct (c_waiter c) as [x|]; [|done]. destruct (cancel_section i x w) as [[[w1 x1] rm]| |] eqn:Hcs; try done. apply cancel_calls in Hcs. eapply Hend; [exact Ha|done..| |]; cbn; auto.
  - destruct (c_waiter c) as [x|]; [|done]. eapply Hend; [exact Ha|done..| |]; cbn; auto.
  - eapply Hend; [exact Ha|done..| |]; cbn; auto.
  - eapply Hend; [exact Ha|done..| |done]. right. left. destruct (_ =? _); cbn; lia.
  - destruct (c_waiter c) as [x|]; [|done]. eapply Hend; [exact Ha|done..| |done]; cbn. right. left. lia.
  - destruct (c_waiter c) as [x|]; [|done]. destruct (cancel_section i x w) as [[[w1 x1] rm]| |] eqn:Hcs; try done. apply cancel_calls in Hcs. eapply Hend; [exact Ha|done..| |done]; cbn. right. left. lia.
  - destruct (c_waiter c) as [x|]; [|done]. eapply Hend; [exact Ha|done..| |done]; cbn. right. left. lia.
  - eapply Hend; [exact Ha|done..| |done]. right. left. destruct (_ && _); cbn; lia.
  - destruct (published w); [|eapply Hend; [exact Ha|done..| |done]; cbn; right; left; lia]. destruct (qlock w); [done|].
    destruct (pop_active _ _ _) as [[[q cs] o]| |] eqn:Hpop; try done. apply pop_active_pcs in Hpop. destruct (cs !! i) as [c1|]; [|done]. injection Ha as ->. eexists. split; [|split; [|done]].
    + cbn. rewrite list_fmap_insert, Hpop. reflexivity.
    + cbn. right. left. destruct o; cbn; lia.
  - destruct (calls w !! j) as [[pc [x|] b0]|] eqn:Hj; try done. injection Ha as ->. eexists. split; [|split; [|done]].
    + cbn. rewrite !list_fmap_insert. cbn. rewrite (list_insert_id (c_pc <$> calls w) j) by (by rewrite list_lookup_fmap, Hj). reflexivity.
    + cbn. right. left. lia.
  - eapply Hend; [exact Ha|cbn; apply clear_calls|done..| |done]. right. left. destruct o; cbn; lia.
  - injection Ha as ->. exists MDone. split; [|split; [right; left; cbn; lia|done]]. cbn. rewrite <- list_fmap_compose. rewrite (list_fmap_ext _ c_pc); [|intros; apply wake_call_pc]. by rewrite list_fmap_insert.
  - eapply Hend; [exact Ha|by destruct (negb pa && true)|done|by left|done].
Qed.

Lemma act_err i c b w : act i c b w = Err tt -> busy (c_pc c) = false \/ (blocks (c_pc c) = true /\ qlock w <> None).
Proof.
  unfold_act; unfold with_waiter. assert (Hcs : forall x, cancel_section i x w = Err tt -> qlock w <> None).
  { intros x. unfold cancel_section. destruct (published w); [|done]. destruct (qlock w); [done|]. unfold remove_waiter. destruct (position x); [|done]. destruct (remove_index_if _ _ _) as [[q o]| |]; done. }
  assert (Hrm : forall x, remove_waiter i x (queue w) <> Err tt) by (intros x; unfold remove_waiter; destruct (position x); [|done]; by destruct (remove_index_if _ _ _) as [[q o]| |]).
  assert (Hpop : forall fuel q cs, pop_active fuel q cs <> Err tt).
  { intros fuel. induction fuel as [|fuel IH]; intros q cs; cbn; repeat case_match; auto; done. }
  intros Ha. destruct (blocks (c_pc c)) eqn:Hb.
  - right. split; [done|]. destruct (c_pc c); try done; repeat (case_match; simplify_eq); try done; try (by eapply Hcs); exfalso; by eapply Hpop.
  - destruct (busy (c_pc c)) eqn:Hbu; [exfalso|by left]. destruct (c_pc c); try done; repeat (case_match; simplify_eq); try done; by eapply Hrm.
Qed.

Lemma no_owner_free w es fs l f : inv_at w es fs l f -> ~ some_pc (fun pc => owner pc = true) (calls w) -> l = false.
Proof. intros Hinv Hno. destruct l; [|done]. exfalso. apply Hno. by apply (i_owned _ _ _ _ _ Hinv). Qed.

(** While somebody wants the free lock, some call is busy or was woken. *)
Lemma someone_moves w : inv w -> ~ some_pc (fun pc => owner pc = true) (calls w) -> some_pc (fun pc => wants pc = true) (calls w) ->
  some_pc (fun pc => busy pc = true) (calls w) \/ exists i c wk, calls w !! i = Some c /\ c_pc c = MPending wk /\ c_woken c = true.
Proof.
  intros (es & fs & l & f & Hinv & Hr) Hno (i & c & Hi & Hw). pose proof (no_owner_free _ _ _ _ _ Hinv Hno) as ->.
  assert (Hpend : forall j x wk, calls w !! j = Some x -> c_pc x = MPending wk -> queued <$> c_waiter x = Some true \/
    some_pc (fun pc => busy pc = true) (calls w) \/ exists i c wk, calls w !! i = Some c /\ c_pc c = MPending wk /\ c_woken c = true).
  { intros j x wk Hj Hx. pose proof (i_wake _ _ _ _ _ Hinv _ _ Hj) as Hok. unfold wake_ok in Hok. rewrite Hx in Hok. destruct Hok as [_ [Hwo|[(k & y & Hk & Hy)|[Hq|(k & y & Hk & Hy)]]]].
    - right. right. by exists j, x, wk.
    - right. left. exists k, y. split; [done|]. by destruct Hy as [-> | ->].
    - by left.
    - right. left. exists k, y. split; [done|]. by rewrite Hy. }
  destruct (pending (c_pc c)) eqn:Hp; [|left; exists i, c; split; [done|by destruct (c_pc c)]]. destruct (c_pc c) as [| | |wk| | | | | | | | | | | | | | | | | | | | |] eqn:Hpc; try done.
  destruct (Hpend _ _ _ Hi Hpc) as [Hq|?]; [|done]. pose proof (i_queue _ _ _ _ _ Hinv _ _ Hi) as Hqo. unfold queue_ok in Hqo.
  destruct (c_waiter c) as [x|]; [|done]. cbn in Hq. injection Hq as Hq. rewrite Hq in Hqo. destruct Hqo as (k & _ & Hk).
  assert (He : es <> []) by (intros ->; destruct (Hk k) as [_ Hk']; by apply (not_elem_of_nil (k, i)), Hk'). destruct (Hr eq_refl He) as (j & y & Hj & Hy).
  unfold resp in Hy. destruct (c_pc y) as [| | |wk'| | | | | | | | | | | | | | | | | | | | |] eqn:Hpy; try done; try (left; exists j, y; by rewrite Hpy).
  destruct (Hpend _ _ _ Hj Hpy) as [Hq'|?]; [|done]. exfalso. destruct (c_waiter y) as [x'|]; cbn in *; [|done]. injection Hq' as Hq'. by rewrite Hq' in Hy.
Qed.

(** A step of a call that is busy, or the poll of a future that was woken. *)
Inductive helpful (w : World) : Event -> Prop :=
| helpful_act i c : calls w !! i = Some c -> busy (c_pc c) = true -> helpful w (EAct i false)
| helpful_poll i c wk : calls w !! i = Some c -> c_pc c = MPending wk -> c_woken c = true -> helpful w (EPoll i wk).

Inductive helped : World -> list Event -> World -> Prop :=
| helped_nil w : helped w [] w
| helped_cons w e w1 es w2 : helpful w e -> world_step e w = Ok w1 -> helped w1 es w2 -> helped w (e :: es) w2.

Lemma pcs_at w i c : calls w !! i = Some c -> pcs w !! i = Some (c_pc c).
Proof. intros Hi. unfold pcs. by rewrite list_lookup_fmap, Hi. Qed.

Lemma pcs_some P w : some_pc P (calls w) <-> exists j pc, pcs w !! j = Some pc /\ P pc.
Proof.
  unfold pcs. split.
  - intros (j & c & Hj & Hc). exists j, (c_pc c). split; [by apply pcs_at|done].
  - intros (j & pc & Hj & Hc). rewrite list_lookup_fmap in Hj. destruct (calls w !! j) as [c|] eqn:Hcj; [|done]. injection Hj as <-. by exists j, c.
Qed.

(** The step of an unblocked busy call leads to an owner or nearer to one. *)
Lemma busy_moves w i c : inv w -> ~ some_pc (fun pc => owner pc = true) (calls w) -> some_pc (fun pc => wants pc = true) (calls w) ->
  calls w !! i = Some c -> busy (c_pc c) = true -> (blocks (c_pc c) = true -> qlock w = None) ->
  exists e w', helpful w e /\ world_step e w = Ok w' /\ inv w' /\ (some_pc (fun pc => owner pc = true) (calls w') \/ (some_pc (fun pc => wants pc = true) (calls w') /\ (distance w' < distance w)%nat)).
Proof.
  intros Hinv Hno Hwant Hi Hb Hbl. exists (EAct i false). assert (Hstep : world_step (EAct i false) w = act i c false w) by (cbn; unfold with_call; by rewrite Hi).
  destruct (act_ok w i c false Hinv Hi) as [Herr|(w' & Ha & Hw')]; [apply act_err in Herr as [?|[Hx Hy]]; [congruence|by apply Hbl in Hx]|].
  exists w'. split; [by eapply helpful_act|]. split; [congruence|]. split; [done|]. destruct (act_moves _ _ _ _ _ Hi Ha) as (pc' & Hpcs & Hmove & Hwants).
  pose proof (pcs_at _ _ _ Hi) as Hpi. pose proof (lookup_lt_Some _ _ _ Hpi) as Hlt. rewrite !pcs_some, Hpcs.
  assert (Hfree : try_acquire (state w) <> None).
  { destruct Hinv as (es & fs & l & f & Hinv & _). rewrite (try_acquire_spec _ _ _ _ _ Hinv), (no_owner_free _ _ _ _ _ Hinv Hno). done. }
  destruct (owner pc') eqn:Ho; [left; exists i, pc'; by rewrite list_lookup_insert_eq|]. destruct Hmove as [?|[Hst|?]]; [congruence| |done]. right. split.
  - apply pcs_some in Hwant as (j & pc & Hj & Hpc). destruct (decide (j = i)) as [->|Hne]; [|exists j, pc; by rewrite list_lookup_insert_ne].
    rewrite Hpi in Hj. injection Hj as <-. destruct (Hwants Hpc) as [?|?]; [|congruence]. exists i, pc'. by rewrite list_lookup_insert_eq.
  - unfold distance. rewrite Hpcs. pose proof (sum_insert _ i _ pc' Hpi). lia.
Qed.

Lemma progress_step w : inv w -> ~ some_pc (fun pc => owner pc = true) (calls w) -> some_pc (fun pc => wants pc = true) (calls w) ->
  exists e w', helpful w e /\ world_step e w = Ok w' /\ inv w' /\ (some_pc (fun pc => owner pc = true) (calls w') \/ (some_pc (fun pc => wants pc = true) (calls w') /\ (distance w' < distance w)%nat)).
Proof.
  intros Hinv Hno Hwant. destruct (someone_moves w Hinv Hno Hwant) as [(i & c & Hi & Hb)|(i & c & wk & Hi & Hpc & Hwo)].
  - destruct (blocks (c_pc c)) eqn:Hbl; [|eapply busy_moves; try done; congruence]. destruct (qlock w) as [k|] eqn:Hq; [|by eapply busy_moves].
    pose proof Hinv as (es & fs & l & f & Hat & _). pose proof Hq as Hk. apply (i_qlock _ _ _ _ _ Hat) in Hk as (ck & Hk & Hqh). eapply (busy_moves w k ck); try done; by destruct (c_pc ck).
  - exists (EPoll i wk). destruct (mutex_step_ok (EPoll i wk) w Hinv) as [He|(w' & He & Hw')]; cbn in He; unfold with_call in He; rewrite Hi, Hpc in He; [done|].
    injection He as <-. eexists. split; [by eapply helpful_poll|]. cbn. unfold with_call. rewrite Hi, Hpc. split; [done|]. split; [done|]. right.
    pose proof (pcs_at _ _ _ Hi) as Hpi. assert (Hpcs : pcs (set_call i (mkCall (MFirst wk) (c_waiter c) false) w) = <[i := MFirst wk]> (pcs w)) by (unfold pcs; cbn; by rewrite list_fmap_insert).
    split; [rewrite pcs_some, Hpcs; exists i, (MFirst wk); split; [apply list_lookup_insert_eq; by eapply lookup_lt_Some|done]|].
    unfold distance. rewrite Hpcs. pose proof (sum_insert _ i _ (MFirst wk) Hpi) as Hs. rewrite Hpc in Hs. cbn in Hs. lia.
Qed.

Lemma lock_is_taken n w : (distance w <= n)%nat -> inv w -> some_pc (fun pc => wants pc = true) (calls w) \/ some_pc (fun pc => owner pc = true) (calls w) ->
  exists es w', helped w es w' /\ (length es <= n)%nat /\ some_pc (fun pc => owner pc = true) (calls w').
Proof.
  revert w. induction n as [n IH] using lt_wf_ind. intros w Hn Hinv Hor.
  assert (Hdec : some_pc (fun pc => owner pc = true) (calls w) \/ ~ some_pc (fun pc => owner pc = true) (calls w)).
  { pose proof Hinv as (es & fs & l & f & Hat & _). destruct l; [left; by apply (i_owned _ _ _ _ _ Hat)|right; intros Ho; by apply (i_owned _ _ _ _ _ Hat) in Ho]. }
  destruct Hdec as [Ho|Hno]; [exists [], w; split; [constructor|]; split; [cbn; lia|done]|]. destruct Hor as [Hwant|?]; [|done].
  destruct (progress_step w Hinv Hno Hwant) as (e & w1 & Hh & He & Hw1 & [Ho|[Hwant1 Hd]]).
  - pose proof (pcs_some (fun pc => wants pc = true) w) as Hps. apply Hps in Hwant as (j & pc & Hj & Hpc).
    assert (Hpos : (0 < distance w)%nat) by (pose proof (sum_insert _ j _ MNew Hj) as Hs; unfold distance; cbn in Hs; destruct pc; cbn in *; try done; lia).
    exists [e], w1. split; [econstructor; [done|done|constructor]|]. split; [cbn; lia|done].
  - destruct (IH (n - 1)%nat ltac:(lia) w1 ltac:(lia) Hw1 (or_introl Hwant1)) as (es & w2 & Hes & Hl & Ho). exists (e :: es), w2. split; [by econstructor|]. split; [cbn; lia|done].
Qed.

Lemma distance_bound w : (distance w <= 20 * length (calls w))%nat.
Proof.
  unfold distance, pcs. induction (calls w) as [|c cs IH]; cbn; [lia|]. assert (stage (c_pc c) <= 20)%nat by (destruct (c_pc c); cbn; lia). cbn in IH. lia.
Qed.

Lemma mutex_reachable es w : world_run es mutex_new = Ok w -> inv w.
Proof. intros Hrun. destruct (mutex_run_ok es _ mutex_inv_new) as [Hr|(w' & Hr & Hw)]; congruence. Qed.

(** ** Poisoning *)

(** A call that saw the poison flag. *)
Definition saw_poison (pc : Pc) : bool := match pc with MGuard true _ | MUnwind _ => true | _ => false end.

Lemma cancel_poisoned i x w w' x' b : cancel_section i x w = Ok (w', x', b) -> poisoned w' = poisoned w.
Proof.
  unfold cancel_section. destruct (published w); [|by intros [= <- _ _]]. destruct (qlock w); [done|]. destruct (remove_waiter i x (queue w)) as [[q rm]| |]; try done. intros [= <- _ _].
  unfold clear_if_empty. cbn. by destruct (is_empty q).
Qed.

Lemma clear_poisoned b q w : poisoned (clear_if_empty (set_queue b q w)) = poisoned w.
Proof. unfold clear_if_empty. by destruct (is_empty _). Qed.

(** A step of a call sees the flag only when it is set, and sets it only after it saw it. *)
Lemma act_poison w i c b w' c' : act i c b w = Ok w' ->
  (poisoned w' = true -> poisoned w = true \/ saw_poison (c_pc c) = true) /\ (calls w' !! i = Some c' -> saw_poison (c_pc c') = true -> poisoned w = true).
Proof.
  unfold_act; unfold with_waiter. intros Ha.
  destruct (c_pc c) as [|wk| |wk|wk|wk|wk|wk| | | | | |ps pa| | | |rm|rm| |j|o|wk| |pa] eqn:Hpc; try done.
  all: repeat (case_match; simplify_eq); simplify_eq; try done.
  all: try match goal with Hc : cancel_section _ _ _ = Ok _ |- _ => apply cancel_poisoned in Hc end.
  all: split; [cbn; rewrite ?clear_poisoned; try (by left); try (by right); by left; congruence|].
  all: try (cbn; rewrite list_lookup_insert_Some; intros [(_ & <- & _)|[? _]]; done).
  - cbn. rewrite list_lookup_insert_Some. intros [(_ & <- & _)|[? _]]; [|done]. cbn. by destruct (poisoned w).
  - unfold wake, set_calls. cbn [calls]. rewrite list_lookup_fmap, fmap_Some. intros (x & Hx & ->). rewrite wake_call_pc.
    apply list_lookup_insert_Some in Hx as [(_ & <- & _)|[? _]]; done.
Qed.

Definition poison_known (w : World) : Prop := poisoned w = true \/ some_pc (fun pc => saw_poison pc = true) (calls w).

Lemma poison_moved w w' i c c' : calls w !! i = Some c -> pcs w' = <[i := c_pc c']> (pcs w) -> (poisoned w' = true -> poison_known w) ->
  (saw_poison (c_pc c') = true -> poison_known w) -> poison_known w' -> poison_known w.
Proof.
  intros Hi Hp H1 H2 [Hw|Hs]; [by apply H1|]. apply pcs_some in Hs as (j & pc & Hj & Hpc). rewrite Hp in Hj.
  apply list_lookup_insert_Some in Hj as [(_ & <- & _)|[_ Hj]]; [by apply H2|]. right. apply pcs_some. by exists j, pc.
Qed.

Lemma go_pcs i c pc w w0 : calls w0 = calls w -> pcs (go i c pc w0) = <[i := pc]> (pcs w).
Proof. intros Hc. unfold pcs, go, set_call. cbn. by rewrite Hc, list_fmap_insert. Qed.

(** Only a guard that is released by a thread that began to panic under it makes poison known. *)
Lemma step_poison e w w' : world_step e w = Ok w' -> poison_known w' -> poison_known w \/ exists j, e = ERelease j true.
Proof.
  assert (Hadd : forall pc, saw_poison pc = false -> poison_known (add_call pc w) -> poison_known w).
  { intros pc Hpc [?|(j & x & Hj & Hx)]; [by left|right]. cbn in Hj. apply lookup_app_Some in Hj as [Hj|[_ Hj]]; [by exists j, x|].
    apply list_lookup_singleton_Some in Hj as [_ <-]. cbn in Hx. congruence. }
  destruct e as [|wk| |i wk|i b|i b|i| |i]; cbn; unfold with_call.
  1-3: intros [= <-] Hk; left; refine (Hadd _ _ Hk); reflexivity.
  - destruct (calls w !! i) as [c|] eqn:Hi; [|done]. intros Hs Hk. left. eapply (poison_moved w w' i c (mkCall (MFirst wk) (c_waiter c) false)); [done| | |done|done];
      destruct (c_pc c); simplify_eq; try (by left); unfold pcs; cbn; by rewrite list_fmap_insert.
  - destruct (calls w !! i) as [c|] eqn:Hi; [|done]. intros Hs Hk. left. destruct (act_moves _ _ _ _ _ Hi Hs) as (pc' & Hpcs & _).
    assert (Hi' : exists c', calls w' !! i = Some c' /\ c_pc c' = pc').
    { assert (Hp : pcs w' !! i = Some pc') by (rewrite Hpcs; apply list_lookup_insert_eq; unfold pcs; rewrite length_fmap; by eapply lookup_lt_Some).
      unfold pcs in Hp. rewrite list_lookup_fmap in Hp. destruct (calls w' !! i) as [c'|]; [|done]. injection Hp as <-. eauto. }
    destruct Hi' as (c' & Hi' & <-). destruct (act_poison w i c b w' c' Hs) as [H1 H2].
    eapply (poison_moved w w' i c c'); [done|done| | |done]; [intros [?|?]%H1; [by left|right; by exists i, c]|intros Hx; left; by apply H2].
  - destruct (calls w !! i) as [c|] eqn:Hi; [|done]. intros Hs Hk. destruct b; [right; by exists i|left].
    destruct (c_pc c); try done. unfold release_inner in Hs. rewrite andb_false_r in Hs. injection Hs as <-.
    eapply (poison_moved w _ i c (mkCall MRelease (c_waiter c) (c_woken c))); [done|by apply go_pcs|intros ?; by left|done|done].
  - destruct (calls w !! i) as [c|] eqn:Hi; [|done]. intros Hs Hk. left. destruct (c_pc c); simplify_eq.
    + eapply (poison_moved w _ i c (mkCall MDone (c_waiter c) (c_woken c))); [done|by apply go_pcs|intros ?; by left|done|done].
    + eapply (poison_moved w _ i c (mkCall MDrop1 (c_waiter c) (c_woken c))); [done|by apply go_pcs|intros ?; by left|done|done].
  - intros [= <-] [?|?]; [done|left; by right].
  - destruct (calls w !! i) as [c|] eqn:Hi; [|done]. unfold unwrap_guard. intros Hs Hk. left. destruct (c_pc c) as [| | | | | | | | | | | | |[] pa| | | | | | | | | | |] eqn:Hpc; simplify_eq; [|done].
    right. exists i, c. by rewrite Hpc.
Qed.

Lemma run_poison es w w' : world_run es w = Ok w' -> poison_known w' -> poison_known w \/ exists j, ERelease j true ∈ es.
Proof.
  revert w. induction es as [|e es IH]; intros w; cbn; [intros [= <-]; by left|]. destruct (world_step e w) as [w1| |] eqn:He; try done. intros Hr Hk.
  destruct (IH _ Hr Hk) as [Hk1|[j Hj]]; [|right; exists j; by apply elem_of_cons; right].
  destruct (step_poison _ _ _ He Hk1) as [?|[j ->]]; [by left|right; exists j; by apply elem_of_cons; left].
Qed.

(** ** The properties *)

(** C22. The mutex excludes: in every interleaving of lock futures, blocking and trying calls, in their
    panicking and their [_result] forms, guards, releases, poisonings and drops, the mutex code itself never
    panics; the lock byte stays in range, at most one call has the lock (a call that panics on a poisoned mutex
    included, until its guard is dropped), and one does exactly when the [LOCKED] bit is set. A call finds the
    mutex poisoned, so that [lock], [try_lock] or the poll of the lock future panics, only after some guard
    was released by a thread that panicked. *)
Theorem mutex_excludes es : world_run es mutex_new <> Panic /\ forall w, world_run es mutex_new = Ok w ->
  (forall i j ci cj, calls w !! i = Some ci -> calls w !! j = Some cj -> owner (c_pc ci) = true -> owner (c_pc cj) = true -> i = j)
  /\ (Z.testbit (state w) 0 = true <-> some_pc (fun pc => owner pc = true) (calls w)) /\ 0 <= state w <= 3
  /\ (some_pc (fun pc => saw_poison pc = true) (calls w) -> exists j, ERelease j true ∈ es).
Proof.
  split; [destruct (mutex_run_ok es _ mutex_inv_new) as [-> |(w & -> & _)]; done|]. intros w Hrun. pose proof (run_poison _ _ _ Hrun) as Hpoison.
  apply mutex_reachable in Hrun as (qs & fs & l & f & Hinv & _).
  split; [apply Hinv|]. rewrite <- (i_owned _ _ _ _ _ Hinv), (i_state _ _ _ _ _ Hinv). split; [by destruct l, f|]. split; [by destruct l, f|].
  intros Hs. destruct Hpoison as [[?|(j & c & Hj & _)]|?]; [by right|done|done|done].
Qed.

(** C23. No wake-up is lost: in every mutex_reachable state in which a future is pending and nobody has the
    lock, some call still has a step to do or some pending future was woken, and steps of such
    calls and polls of such futures alone, at most twenty per call, give the lock to a call. *)
Theorem free_mutex_reaches_a_waiter es w i c wk : world_run es mutex_new = Ok w -> calls w !! i = Some c -> c_pc c = MPending wk ->
  ~ some_pc (fun pc => owner pc = true) (calls w) ->
  (some_pc (fun pc => busy pc = true) (calls w) \/ exists j x wk', calls w !! j = Some x /\ c_pc x = MPending wk' /\ c_woken x = true)
  /\ exists es' w', helped w es' w' /\ (length es' <= 20 * length (calls w))%nat /\ some_pc (fun pc => owner pc = true) (calls w').
Proof.
  intros Hw%mutex_reachable Hi Hpc Hno. assert (Hwant : some_pc (fun pc => wants pc = true) (calls w)) by (exists i, c; by rewrite Hpc).
  split; [by apply someone_moves|]. apply lock_is_taken; [apply distance_bound|done|by left].
Qed.

(** The first future gets the lock, a second one waits for it, the first is released, its wake-up goes
    to the second future, and that one is dropped while a third waits. *)
Definition handover : list Event :=
  [EFuture; EFuture; EFuture; EPoll 0 7; EAct 0 false; EAct 0 false; EPoll 1 8; EAct 1 false; EAct 1 false; EAct 1 false; EAct 1 false;
   EPoll 2 9; EAct 2 false; EAct 2 false; EAct 2 false; EAct 2 false; ERelease 0 false; EAct 0 false; EAct 0 false; EAct 0 false; EAct 0 false; EAct 0 false;
   EDrop 1; EAct 1 false; EAct 1 false].

Definition summary (es : list Event) : outcome unit (Z * list Pc) := let? w := world_run es mutex_new in Ok (state w, pcs w).

Lemma summary_world es s ps : summary es = Ok (s, ps) -> exists w, world_run es mutex_new = Ok w /\ state w = s /\ pcs w = ps.
Proof. unfold summary. destruct (world_run es mutex_new) as [w|e|]; [|done..]. intros [= <- <-]. eauto. Qed.

Lemma handover_world : exists w, world_run handover mutex_new = Ok w /\ state w = 2 /\ pcs w = [MDone; MDrop3 false; MPending 9].
Proof. apply summary_world. vm_compute. reflexivity. Qed.

(** The guard of the first call is dropped by a panicking thread; [try_lock] then panics, and its guard unlocks. *)
Definition poisoning : list Event := [ETryLock; EAct 0 false; EAct 0 false; ERelease 0 true; EAct 0 true; ETryLock; EAct 1 false; EAct 1 false; EUnwrap 1].

Example poisoned_call_unlocks : summary poisoning = Ok (1, [MDone; MUnwind false]) /\ summary (poisoning ++ [EAct 1 true; EAct 1 true]) = Ok (0, [MDone; MDone]).
Proof. split; vm_compute; reflexivity. Qed.

Lemma mutex_excludes_witness : exists w, world_run poisoning mutex_new = Ok w /\ pcs w = [MDone; MUnwind false] /\ 0 <= state w <= 3
  /\ exists j, ERelease j true ∈ poisoning.
Proof.
  destruct (summary_world poisoning 1 [MDone; MUnwind false]) as (w & Hrun & _ & Hp); [vm_compute; reflexivity|]. exists w. split; [exact Hrun|]. split; [exact Hp|].
  destruct (proj2 (mutex_excludes poisoning) w Hrun) as (_ & _ & Hs & Hpoison). split; [exact Hs|]. apply Hpoison, pcs_some.
  exists 1%nat, (MUnwind false). by rewrite Hp.
Defined.

Lemma free_mutex_reaches_a_waiter_witness : exists w es' w', world_run handover mutex_new = Ok w /\ helped w es' w' /\ some_pc (fun pc => owner pc = true) (calls w').
Proof.
  destruct handover_world as (w & Hrun & _ & Hpcs).
  assert (Hi : exists c, calls w !! 2%nat = Some c /\ c_pc c = MPending 9).
  { assert (Hi : pcs w !! 2%nat = Some (MPending 9)) by (rewrite Hpcs; reflexivity). unfold pcs in Hi. rewrite list_lookup_fmap in Hi.
    destruct (calls w !! 2%nat) as [c|]; [|discriminate Hi]. exists c. split; [reflexivity|]. injection Hi as Hi. exact Hi. }
  destruct Hi as (c & Hc & Hpc). destruct (free_mutex_reaches_a_waiter handover w 2 c 9 Hrun Hc Hpc) as (_ & es' & w' & Hh & _ & Ho).
  - rewrite pcs_some, Hpcs. intros (j & pc & Hj & Hx). destruct j as [|[|[|j]]]; cbn in Hj; try discriminate Hj; injection Hj as <-; discriminate Hx.
  - exists w, es', w'. split; [exact Hrun|]. split; [exact Hh|exact Ho].
Defined.
