(* ===== verification/Combining.v ===== *)
(** * [rallocator]: the combining lock

    [src/crates/rallocator/src/combining.rs]: a queue lock in which the holder runs the actions of
    the callers that wait behind it.  A caller's node lies on its stack, so it is gone once its call
    returns; the lock must then not touch it any more.  A caller that waits long sleeps on its
    node's status ([wait] and [wake_one] of [hal/linux/mod.rs]).

    Any number of calls of [with] run as one machine; a step is one atomic operation, or one
    half of the run of an action: the value is read at its start and written at its end, so that
    two actions at once would be seen.  The orderings of the atomics are not modelled. *)
From stdpp Require Import functions.
From S2P Require Import Prelude.

Inductive Status : Type := WAITING | DONE | HEAD | SLEEPING.
#[export] Instance status_eq_dec : EqDecision Status.
Proof. solve_decision. Defined.

(** Why a step is not taken: the call sleeps or has returned, or the process was aborted. *)
Inductive Stop : Type := Blocked | Aborted.

(** What follows a [wake]: the loop goes on with the successor, the lock is released, the handed-over
    caller completes the last node, the call ends. *)
Inductive Then : Type := TNext (s : nat) | TRelease | TDone (cur : nat) | TEnd.

Section machine.
Context {T R : Type} (act : nat -> T -> option (T * R)).

(** A node names its call; [action] says that the [FnOnce] was not taken yet. *)
Record Node : Type := mkNode { status : Status; next : option nat; action : bool; result : option R }.

(** [KStart] to [KFastEnd]: [with] up to the queue.  [KAttach] to [KCheck]: [attach] until the call
    has the lock or is done; [KWait] to [KAsleep] are [wait].  [KLoop] to [KGrant]: the combiner.
    [KComplete], [KNotify]: [wake]. *)
Inductive Pc : Type :=
| KStart | KTry | KFast | KFastRun (v : T) | KFastEnd (r : R)
| KAttach | KSpin | KSpinLoad | KLink (p : nat)
| KWait (k : nat) | KSleep | KFutex | KFutexWait | KAsleep | KCheck
| KLoop (s : nat) | KPrefetch (cur : nat) | KInvoke (cur : nat) | KRun (cur : nat) (v : T) | KNext (cur : nat)
| KTail (cur : nat) | KStalled (cur : nat) | KSuccessor (cur : nat) | KGrant (cur s : nat)
| KComplete (cur : nat) (t : Then) | KNotify (j : nat) (t : Then)
| KRelease | KFinish | KReturned (r : R).

(** A call and the node on its stack. *)
Record Call : Type := mkCall { pc : Pc; node : option Node }.

Record World : Type := mkWorld { flag : bool; last : option nat; value : T; calls : list Call }.

Definition combining_new (v : T) : World := mkWorld false None v [].

Definition step_result : Type := outcome Stop World.

Definition set_flag (b : bool) (w : World) : World := mkWorld b (last w) (value w) (calls w).
Definition set_last (o : option nat) (w : World) : World := mkWorld (flag w) o (value w) (calls w).
Definition set_value (v : T) (w : World) : World := mkWorld (flag w) (last w) v (calls w).
Definition set_calls (cs : list Call) (w : World) : World := mkWorld (flag w) (last w) (value w) cs.
Definition set_call (i : nat) (c : Call) (w : World) : World := set_calls (<[i := c]> (calls w)) w.

(** Call [i] goes to [p]. *)
Definition go (i : nat) (p : Pc) (w : World) : World :=
  match calls w !! i with Some c => set_call i (mkCall p (node c)) w | None => w end.

(** An access to the node of call [j]; there is none once the call has returned. *)
Definition with_node {A} (j : nat) (w : World) (f : Call -> Node -> outcome Stop A) : outcome Stop A :=
  match calls w !! j with
  | Some c => match node c with Some n => f c n | None => Panic end
  | None => Panic
  end.

Definition set_node (j : nat) (c : Call) (n : Node) (w : World) : World := set_call j (mkCall (pc c) (Some n)) w.

Definition set_status (st : Status) (n : Node) : Node := mkNode st (next n) (action n) (result n).
Definition set_next (o : option nat) (n : Node) : Node := mkNode (status n) o (action n) (result n).
Definition take_action (n : Node) : Node := mkNode (status n) (next n) false (result n).
Definition write_result (r : R) (n : Node) : Node := mkNode (status n) (next n) (action n) (Some r).

Definition fresh_node : Node := mkNode WAITING None true None.

(** *** [with] up to the queue *)
Definition with_start (i : nat) (w : World) : step_result := Ok (go i (match last w with None => KTry | Some _ => KAttach end) w).

Definition with_try (i : nat) (w : World) : step_result := Ok (go i (if flag w then KAttach else KFast) (set_flag true w)).

Definition fast_run (i : nat) (v : T) (w : World) : step_result :=
  match act i v with Some (v', r) => Ok (go i (KFastEnd r) (set_value v' w)) | None => Err Aborted end.

(** *** [attach] until the lock or the result is there *)
Definition attach (i : nat) (c : Call) (w : World) : step_result :=
  let p := match last w with None => KSpin | Some previous => KLink previous end in
  Ok (set_last (Some i) (set_call i (mkCall p (Some fresh_node)) w)).

Definition spin (i : nat) (w : World) : step_result := Ok (go i (if flag w then KSpinLoad else KPrefetch i) (set_flag true w)).

Definition spin_load (i : nat) (w : World) : step_result := Ok (go i (if flag w then KSpinLoad else KSpin) w).

Definition link (i p : nat) (w : World) : step_result :=
  with_node p w (fun c n => Ok (go i (KWait 100) (set_node p c (set_next (Some i) n) w))).

(** [wait], and [hal::wait] with the system call that sleeps if the word is still [SLEEPING]. *)
Definition wait_spin (i k : nat) (w : World) : step_result :=
  match k with
  | O => Ok (go i KSleep w)
  | S k => with_node i w (fun _ n => Ok (go i (if decide (status n = WAITING) then KWait k else KCheck) w))
  end.

Definition wait_sleep (i : nat) (w : World) : step_result :=
  with_node i w (fun c n => if decide (status n = WAITING) then Ok (go i KFutex (set_node i c (set_status SLEEPING n) w)) else Ok (go i KCheck w)).

Definition futex_load (i : nat) (w : World) : step_result :=
  with_node i w (fun _ n => Ok (go i (if decide (status n = SLEEPING) then KFutexWait else KCheck) w)).

Definition futex_wait (i : nat) (w : World) : step_result :=
  with_node i w (fun _ n => Ok (go i (if decide (status n = SLEEPING) then KAsleep else KFutex) w)).

Definition attach_check (i : nat) (w : World) : step_result :=
  with_node i w (fun _ n => Ok (go i (if decide (status n = DONE) then KFinish else KPrefetch i) w)).

(** *** The combiner *)
Definition prefetch (i cur : nat) (w : World) : step_result := with_node cur w (fun _ _ => Ok (go i (KInvoke cur) w)).

(** [invoke]: the action is taken and starts; it ends and its result is written. *)
Definition invoke (i cur : nat) (w : World) : step_result :=
  with_node cur w (fun c n => if action n then Ok (go i (KRun cur (value w)) (set_node cur c (take_action n) w)) else Err Aborted).

Definition invoke_end (i cur : nat) (v : T) (w : World) : step_result :=
  match act cur v with
  | Some (v', r) => with_node cur w (fun c n => Ok (go i (KNext cur) (set_node cur c (write_result r n) (set_value v' w))))
  | None => Err Aborted
  end.

Definition load_next (i cur : nat) (w : World) : step_result :=
  with_node cur w (fun _ n => Ok (go i (match next n with Some s => KComplete cur (TNext s) | None => KTail cur end) w)).

Definition close_queue (i cur : nat) (w : World) : step_result :=
  if decide (last w = Some cur) then Ok (go i (KComplete cur TRelease) (set_last None w)) else Ok (go i (KStalled cur) w).

Definition stalled (i cur : nat) (w : World) : step_result :=
  with_node cur w (fun _ n => Ok (go i (match next n with Some _ => KSuccessor cur | None => KStalled cur end) w)).

Definition successor (i cur : nat) (w : World) : step_result :=
  with_node cur w (fun _ n => match next n with Some s => Ok (go i (KGrant cur s) w) | None => Panic end).

(** [wake]: the exchange of the status, and the wake-up of a sleeper. *)
Definition after (t : Then) : Pc :=
  match t with TNext s => KLoop s | TRelease => KRelease | TDone cur => KComplete cur TEnd | TEnd => KFinish end.

Definition wake (i j : nat) (st : Status) (t : Then) (w : World) : step_result :=
  with_node j w (fun c n => Ok (go i (if decide (status n = SLEEPING) then KNotify j t else after t) (set_node j c (set_status st n) w))).

Definition wake_call (c : Call) : Call := match pc c with KAsleep => mkCall KFutex (node c) | _ => c end.

Definition wake_one (j : nat) (w : World) : World := match calls w !! j with Some c => set_call j (wake_call c) w | None => w end.

(** The end of [attach], and of [with]: the result is moved out and the node is gone. *)
Definition finish (i : nat) (w : World) : step_result :=
  with_node i w (fun _ n => match result n with Some r => Ok (set_call i (mkCall (KReturned r) None) w) | None => Panic end).

(** *** The machine *)
Definition call_step (i : nat) (c : Call) (w : World) : step_result :=
  match pc c with
  | KStart => with_start i w
  | KTry => with_try i w
  | KFast => Ok (go i (KFastRun (value w)) w)
  | KFastRun v => fast_run i v w
  | KFastEnd r => Ok (go i (KReturned r) (set_flag false w))
  | KAttach => attach i c w
  | KSpin => spin i w
  | KSpinLoad => spin_load i w
  | KLink p => link i p w
  | KWait k => wait_spin i k w
  | KSleep => wait_sleep i w
  | KFutex => futex_load i w
  | KFutexWait => futex_wait i w
  | KAsleep => Err Blocked
  | KCheck => attach_check i w
  | KLoop s => Ok (go i (KPrefetch s) w)
  | KPrefetch cur => prefetch i cur w
  | KInvoke cur => invoke i cur w
  | KRun cur v => invoke_end i cur v w
  | KNext cur => load_next i cur w
  | KTail cur => close_queue i cur w
  | KStalled cur => stalled i cur w
  | KSuccessor cur => successor i cur w
  | KGrant cur s => wake i s HEAD (TDone cur) w
  | KComplete cur t => wake i cur DONE t w
  | KNotify j t => Ok (go i (after t) (wake_one j w))
  | KRelease => Ok (go i KFinish (set_flag false w))
  | KFinish => finish i w
  | KReturned _ => Err Blocked
  end.

(** A new call, a step of a call, a sleeper that wakes without reason. *)
Inductive Event : Type := ECall | EStep (i : nat) | ESpurious (i : nat).

Definition world_step (e : Event) (w : World) : step_result :=
  match e with
  | ECall => Ok (set_calls (calls w ++ [mkCall KStart None]) w)
  | EStep i => match calls w !! i with Some c => call_step i c w | None => Err Blocked end
  | ESpurious i => Ok (wake_one i w)
  end.

Fixpoint world_run (es : list Event) (w : World) : step_result :=
  match es with
  | [] => Ok w
  | e :: es => let? w := world_step e w in world_run es w
  end.

(** ** The invariant

    Ghost state: who has the lock, the queue, in whose hands each node is, and the order in which
    the actions ran. *)
Inductive Own : Type := Free | Fast (i : nat) | Comb (i : nat) | Next (i : nat) | Rel (i : nat) | Granted.
#[local] Instance own_eq_dec : EqDecision Own.
Proof. solve_decision. Defined.

(** No node; its caller spins for the flag; links itself behind [p]; waits in the queue; was handed the lock.
    [CReady] to [CRan]: the head whose action is next, runs, has run.  [CHeld c]: out of the queue, call [c] will complete it. *)
Inductive Cust : Type := CNone | CSpin | CLinking (p : nat) | CQueued | CGranted | CReady | CTaken | CRan | CHeld (c : nat) | CDone.

Definition in_queue (k : Cust) : bool := match k with CSpin | CLinking _ | CQueued | CGranted | CReady | CTaken | CRan => true | _ => false end.

Context (v0 : T).

(** The value after the actions of [log], one after the other. *)
Definition apply_log (log : list nat) : T := foldl (fun v i => match act i v with Some (v', _) => v' | None => v end) v0 log.

(** Call [i] ran in its turn and its result is [r]. *)
Definition logged (log : list nat) (i : nat) (r : R) : Prop := exists pre post v, log = pre ++ i :: post /\ act i (apply_log pre) = Some (v, r).

Definition claim (i : nat) (p : Pc) : option Own :=
  match p with
  | KFast | KFastRun _ | KFastEnd _ => Some (Fast i)
  | KPrefetch _ | KInvoke _ | KRun _ _ | KNext _ | KTail _ | KStalled _ | KSuccessor _ | KGrant _ _ => Some (Comb i)
  | KLoop _ | KComplete _ (TNext _) | KNotify _ (TNext _) => Some (Next i)
  | KComplete _ TRelease | KNotify _ TRelease | KRelease => Some (Rel i)
  | _ => None
  end.

Definition held (p : Pc) : option nat := match p with KComplete cur _ | KNotify _ (TDone cur) => Some cur | _ => None end.

(** The node the combiner runs, or still has to complete. *)
Definition carried (p : Pc) : option nat :=
  match p with
  | KPrefetch cur | KInvoke cur | KRun cur _ | KNext cur | KTail cur | KStalled cur | KSuccessor cur | KGrant cur _ => Some cur
  | _ => held p
  end.

Definition idle (n : Node) : Prop := action n = true /\ result n = None.

Definition node_ok (log : list nat) (i : nat) (k : Cust) (o : option Node) : Prop :=
  match k, o with
  | CNone, None => True
  | (CSpin | CLinking _), Some n => status n = WAITING /\ idle n /\ i ∉ log
  | CQueued, Some n => (status n = WAITING \/ status n = SLEEPING) /\ idle n /\ i ∉ log
  | CGranted, Some n => status n = HEAD /\ idle n /\ i ∉ log
  | CReady, Some n => status n <> DONE /\ idle n /\ i ∉ log
  | CTaken, Some n => status n <> DONE /\ action n = false /\ result n = None /\ i ∉ log
  | (CRan | CHeld _), Some n => status n <> DONE /\ exists r, result n = Some r /\ logged log i r
  | CDone, Some n => status n = DONE /\ exists r, result n = Some r /\ logged log i r
  | _, _ => False
  end.

Definition waits (k : Cust) : bool := match k with CQueued | CGranted | CReady | CTaken | CRan | CHeld _ | CDone => true | _ => false end.

Definition pc_ok (log : list nat) (i : nat) (k : Cust) (p : Pc) (st : option Status) : Prop :=
  match p with
  | KStart | KTry | KFast | KFastRun _ | KAttach => k = CNone /\ i ∉ log
  | KFastEnd r | KReturned r => k = CNone /\ logged log i r
  | KSpin | KSpinLoad => k = CSpin
  | KLink p => k = CLinking p
  | KWait _ | KSleep => waits k = true /\ st <> Some SLEEPING /\ (st = Some HEAD -> k = CGranted)
  | KFutex | KFutexWait | KAsleep => waits k = true /\ st <> Some WAITING /\ (st = Some HEAD -> k = CGranted)
  | KCheck => k = CGranted \/ k = CDone
  | KLoop _ | KNotify _ (TNext _ | TRelease | TEnd) | KRelease | KFinish => k = CDone
  | KComplete _ (TDone _) => False
  | _ => carried p = Some i \/ k = CDone
  end.

Definition call_ok (log : list nat) (i : nat) (k : Cust) (c : Call) : Prop :=
  node_ok log i k (node c) /\ pc_ok log i k (pc c) (status <$> node c).

Definition nx (cs : list Call) (a : nat) : option nat :=
  match cs !! a with Some c => match node c with Some n => next n | None => None end | None => None end.

(** Each caller in the queue is linked behind its predecessor, or about to link itself. *)
Fixpoint chain (cust : nat -> Cust) (cs : list Call) (q : list nat) : Prop :=
  match q with
  | [] => True
  | a :: q =>
      match q with
      | [] => nx cs a = None
      | b :: _ => cust b = CLinking a /\ nx cs a = None \/ cust b = CQueued /\ nx cs a = Some b
      end /\ chain cust cs q
  end.

Definition stage_ok (cust : nat -> Cust) (v : T) (p : Pc) (cur : nat) (rest : list nat) : Prop :=
  match p with
  | KPrefetch x | KInvoke x => x = cur /\ cust cur = CReady
  | KRun x v' => x = cur /\ cust cur = CTaken /\ v' = v
  | KNext x | KTail x => x = cur /\ cust cur = CRan
  | KStalled x => x = cur /\ cust cur = CRan /\ rest <> []
  | KSuccessor x => x = cur /\ cust cur = CRan /\ exists s, head rest = Some s /\ cust s = CQueued
  | KGrant x s => x = cur /\ cust cur = CRan /\ head rest = Some s /\ cust s = CQueued
  | _ => False
  end.

Definition fast_ok (v : T) (p : Pc) : Prop := match p with KFast | KFastEnd _ => True | KFastRun v' => v' = v | _ => False end.

Definition next_pc (p : Pc) : option nat := match p with KLoop s | KComplete _ (TNext s) | KNotify _ (TNext s) => Some s | _ => None end.

Definition pc_at (cs : list Call) (i : nat) (P : Pc -> Prop) : Prop := exists c, cs !! i = Some c /\ P (pc c).

Definition spinning (cust : nat -> Cust) (q : list nat) : Prop := forall h, head q = Some h -> cust h = CSpin.

Definition owner_ok (own : Own) (q : list nat) (cust : nat -> Cust) (v : T) (cs : list Call) : Prop :=
  match own with
  | Free => spinning cust q
  | Fast i => spinning cust q /\ pc_at cs i (fast_ok v)
  | Rel i => spinning cust q /\ pc_at cs i (fun p => claim i p = Some (Rel i))
  | Granted => exists h, head q = Some h /\ cust h = CGranted
  | Next i => exists s, head q = Some s /\ cust s = CQueued /\ pc_at cs i (fun p => next_pc p = Some s)
  | Comb i => exists cur rest, q = cur :: rest /\ pc_at cs i (fun p => stage_ok cust v p cur rest)
  end.

(** A sleeper whose status has changed is about to be woken. *)
Definition asleep_ok (cs : list Call) (i : nat) (c : Call) : Prop :=
  pc c = KAsleep -> status <$> node c <> Some SLEEPING -> exists k t, pc_at cs k (fun p => p = KNotify i t).

Record inv_at (w : World) (own : Own) (q : list nat) (cust : nat -> Cust) (log : list nat) : Prop := {
  v_flag : flag w = match own with Free => false | _ => true end;
  v_last : last w = list.last q;
  v_nodup : NoDup q;
  v_members i : i ∈ q <-> in_queue (cust i) = true;
  v_chain : chain cust (calls w) q;
  v_claim i c o : calls w !! i = Some c -> claim i (pc c) = Some o -> own = o;
  v_owner : owner_ok own q cust (value w) (calls w);
  v_calls i c : calls w !! i = Some c -> call_ok log i (cust i) c;
  v_fresh i : calls w !! i = None -> cust i = CNone /\ i ∉ log;
  v_held i c j : calls w !! i = Some c -> held (pc c) = Some j -> cust j = CHeld i;
  v_holder i j : cust j = CHeld i -> pc_at (calls w) i (fun p => held p = Some j);
  v_log : NoDup log;
  v_value : value w = apply_log log;
  v_asleep i c : calls w !! i = Some c -> asleep_ok (calls w) i c }.

Definition inv (w : World) (log : list nat) : Prop := exists own q cust, inv_at w own q cust log.

(** *** Facts of the invariant *)
Lemma logged_app log x i r : logged log i r -> logged (log ++ [x]) i r.
Proof. intros (pre & post & v & -> & Ha). exists pre, (post ++ [x]), v. by rewrite <- app_assoc. Qed.

Lemma logged_in log i r : logged log i r -> i ∈ log.
Proof. intros (pre & post & v & -> & _). apply elem_of_app. right. by left. Qed.

Lemma call_ok_log log x i k c : x <> i -> call_ok log i k c -> call_ok (log ++ [x]) i k c.
Proof.
  intros Hne. assert (Hni : i ∉ log -> i ∉ log ++ [x]) by (intros Hi; rewrite elem_of_app, list_elem_of_singleton; naive_solver).
  assert (Hr : forall o : option R, (exists r, o = Some r /\ logged log i r) -> exists r, o = Some r /\ logged (log ++ [x]) i r) by (intros o (r & ? & ?); eauto using logged_app).
  intros [Hn Hp]. split.
  - unfold node_ok in *. destruct k, (node c); naive_solver.
  - unfold pc_ok in *. destruct (pc c) as [| | | | | | | | | | | | | | | | | | | | | | | |? []|? []| | |]; naive_solver eauto using logged_app.
Qed.

Lemma inv_node w own q cust log i : inv_at w own q cust log -> cust i <> CNone -> exists c n, calls w !! i = Some c /\ node c = Some n /\ node_ok log i (cust i) (Some n) /\ pc_ok log i (cust i) (pc c) (Some (status n)).
Proof.
  intros Hinv Hk. destruct (calls w !! i) as [c|] eqn:Hi; [|by destruct (v_fresh _ _ _ _ _ Hinv _ Hi)].
  destruct (v_calls _ _ _ _ _ Hinv _ _ Hi) as [Hn Hp]. destruct (node c) as [n|] eqn:Hnode; [by exists c, n|]. by destruct (cust i).
Qed.

Lemma with_node_eq {A} j w c n (f : Call -> Node -> outcome Stop A) : calls w !! j = Some c -> node c = Some n -> with_node j w f = f c n.
Proof. intros Hj Hn. unfold with_node. by rewrite Hj, Hn. Qed.

(** *** The queue *)
Lemma chain_frame cust cust' cs cs' q : (forall a, a ∈ q -> nx cs' a = nx cs a) -> (forall b, b ∈ tail q -> cust' b = cust b) -> chain cust cs q -> chain cust' cs' q.
Proof.
  induction q as [|a q IH]; [done|]. cbn [chain tail]. intros Hnx Hc [Hh Ht]. rewrite (Hnx a) by by left. split.
  - destruct q as [|b q]; [done|]. by rewrite Hc by by left.
  - apply IH; [|intros b Hb; apply Hc|done]; [intros b Hb; apply Hnx; by right|]. destruct q; [done|by right].
Qed.

Lemma chain_snoc cust cs q i : chain cust cs q -> nx cs i = None -> (forall p, list.last q = Some p -> cust i = CLinking p) -> chain cust cs (q ++ [i]).
Proof.
  induction q as [|a q IH]; cbn [app chain]; [done|]. intros [Hh Ht] Hi Hp. destruct q as [|b q].
  - cbn. split; [left|done]. split; [by apply Hp|done].
  - split; [done|]. apply IH; [done|done|]. intros p Hl. by apply Hp.
Qed.

(** A caller that links itself is behind its predecessor. *)
Lemma chain_linking cust cs q i p : chain cust cs q -> NoDup q -> i ∈ tail q -> cust i = CLinking p -> p ∈ q /\ p <> i.
Proof.
  induction q as [|a q IH]; [by intros _ _ ?%not_elem_of_nil|]. cbn [chain tail]. intros [Hh Ht] Hnd Hi Hc. apply NoDup_cons in Hnd as [Ha Hnd].
  destruct q as [|b q]; [by apply not_elem_of_nil in Hi|]. apply elem_of_cons in Hi as [->|Hi].
  - destruct Hh as [[Hb _]|[Hb _]]; [|congruence]. rewrite Hb in Hc. injection Hc as ->. split; [by left|]. intros ->. apply Ha. by left.
  - destruct (IH Ht Hnd Hi Hc) as [Hp Hne]. split; [by right|done].
Qed.

Lemma chain_link cust cs cs' q i p : chain cust cs q -> NoDup q -> i ∈ tail q -> cust i = CLinking p -> nx cs' p = Some i -> (forall a, a <> p -> nx cs' a = nx cs a) ->
  chain (<[i := CQueued]> cust) cs' q.
Proof.
  induction q as [|a q IH]; [done|]. cbn [chain tail]. intros [Hh Ht] Hnd Hi Hc Hp Hnx. apply NoDup_cons in Hnd as [Ha Hnd]. destruct q as [|b q]; [by apply not_elem_of_nil in Hi|].
  destruct (decide (b = i)) as [->|Hne].
  - rewrite fn_lookup_insert. destruct Hh as [[Hb _]|[Hb _]]; [|congruence]. rewrite Hb in Hc. injection Hc as ->. split; [by right|]. apply NoDup_cons in Hnd as [Hb' Hnd].
    eapply chain_frame; [| |done]; [intros x Hx; apply Hnx; intros ->; by apply Ha|]. intros x Hx. apply fn_lookup_insert_ne. intros ->. done.
  - rewrite fn_lookup_insert_ne by done. apply elem_of_cons in Hi as [->|Hi]; [done|]. destruct (chain_linking _ _ _ _ _ Ht Hnd Hi Hc) as [Hpq _].
    split; [rewrite Hnx by (intros ->; done); done|]. by apply IH.
Qed.

(** *** A step of one call *)
Definition mine (i : nat) (own : Own) : Prop := own = Free \/ own = Granted \/ own = Fast i \/ own = Comb i \/ own = Next i \/ own = Rel i.

Definition other (c c' : Call) : Prop := pc c' = pc c \/ (pc c = KAsleep /\ pc c' = KFutex).

(** Call [i] goes from [ci] to [ci']; [xs]: the calls and nodes that change. *)
Record change (i : nat) (xs : list nat) (ci ci' : Call) (w : World) (own : Own) (cust : nat -> Cust) (log : list nat)
    (w' : World) (own' : Own) (q' : list nat) (cust' : nat -> Cust) (log' : list nat) : Prop := {
  h_from : calls w !! i = Some ci;
  h_to : calls w' !! i = Some ci';
  h_len : length (calls w') = length (calls w);
  h_in : i ∈ xs /\ forall k, k ∈ xs -> (k < length (calls w))%nat;
  h_frame k : k ∉ xs -> calls w' !! k = calls w !! k /\ cust' k = cust k;
  h_others k c' : k <> i -> calls w' !! k = Some c' -> exists c, calls w !! k = Some c /\ other c c';
  h_new k c' : k ∈ xs -> calls w' !! k = Some c' -> call_ok log' k (cust' k) c';
  h_flag : flag w' = match own' with Free => false | _ => true end;
  h_last : last w' = list.last q';
  h_nodup : NoDup q';
  h_members k : k ∈ q' <-> in_queue (cust' k) = true;
  h_chain : chain cust' (calls w') q';
  h_own : own' = own \/ mine i own;
  h_claim o : claim i (pc ci') = Some o -> own' = o;
  h_owner : owner_ok own' q' cust' (value w') (calls w');
  h_held x : held (pc ci') = Some x <-> cust' x = CHeld i;
  h_heldk x k : k <> i -> x ∈ xs -> cust' x = CHeld k <-> cust x = CHeld k;
  h_log : log' = log \/ exists x, x ∈ xs /\ x ∉ log /\ log' = log ++ [x];
  h_value : value w' = apply_log log';
  h_asleep k c' : k ∈ xs -> calls w' !! k = Some c' -> pc c' = KAsleep -> status <$> node c' <> Some SLEEPING ->
    (exists t, pc ci' = KNotify k t) \/ (forall t, pc ci <> KNotify k t) /\ exists c, calls w !! k = Some c /\ pc c = KAsleep /\ status <$> node c <> Some SLEEPING;
  h_notify k t c : pc ci = KNotify k t -> calls w' !! k = Some c -> k ∈ xs \/ pc c <> KAsleep }.

Lemma other_claim c c' k : other c c' -> claim k (pc c') = claim k (pc c) /\ held (pc c') = held (pc c).
Proof. intros [->|[-> ->]]; done. Qed.

Lemma pc_at_other i xs ci ci' w own cust log w' own' q' cust' log' k P : change i xs ci ci' w own cust log w' own' q' cust' log' -> k <> i ->
  (P KAsleep -> P KFutex) -> pc_at (calls w) k P -> pc_at (calls w') k P.
Proof.
  intros Hc Hk HP (c & Hck & Hp). assert (Hs : is_Some (calls w' !! k)) by (apply lookup_lt_is_Some; rewrite (h_len _ _ _ _ _ _ _ _ _ _ _ _ _ Hc); by eapply lookup_lt_Some).
  destruct Hs as [c' Hc']. exists c'. split; [done|]. destruct (h_others _ _ _ _ _ _ _ _ _ _ _ _ _ Hc _ _ Hk Hc') as (c0 & Hc0 & Ho). simplify_eq. destruct Ho as [->|[Ha ->]]; [done|]. rewrite Ha in Hp. auto.
Qed.

Lemma claim_mine i k p own : k <> i -> claim k p = Some own -> ~ mine i own.
Proof. intros Hk. unfold mine. destruct p as [| | | | | | | | | | | | | | | | | | | | | | | |? []|? []| | |]; cbn; intros [=<-]; naive_solver. Qed.

Lemma combining_inv_change i xs ci ci' w own q cust log w' own' q' cust' log' : inv_at w own q cust log -> change i xs ci ci' w own cust log w' own' q' cust' log' -> inv_at w' own' q' cust' log'.
Proof.
  intros Hinv Hc. pose proof Hc as [Hi Hi' Hlen [Hin Hxs] Hfr Hot Hnew Hfl Hla Hnd Hme Hch Hown Hcl Hoo Hhe Hhk Hlog Hval Has Hno].
  assert (Hsub : forall k, k ∉ log -> k ∉ log' \/ k ∈ xs).
  { intros k Hk. destruct Hlog as [->|(x & Hx & _ & ->)]; [by left|]. destruct (decide (k = x)) as [->|]; [by right|]. left. rewrite elem_of_app, list_elem_of_singleton. naive_solver. }
  split; try done.
  - intros k c o Hk Ho. destruct (decide (k = i)) as [->|Hne]; [apply Hcl; congruence|]. destruct (Hot _ _ Hne Hk) as (c0 & Hc0 & Hot0). destruct (other_claim _ _ k Hot0) as [Heq _].
    rewrite Heq in Ho. pose proof (v_claim _ _ _ _ _ Hinv _ _ _ Hc0 Ho) as ->. destruct Hown as [->|Hm]; [done|]. by eapply claim_mine in Hm.
  - intros k c Hk. destruct (decide (k ∈ xs)) as [Hx|Hx]; [by apply Hnew|]. destruct (Hfr _ Hx) as [Heq ->]. rewrite Heq in Hk.
    pose proof (v_calls _ _ _ _ _ Hinv _ _ Hk) as Hok. destruct Hlog as [->|(x & Hxx & _ & ->)]; [done|]. apply call_ok_log; [by intros ->|done].
  - intros k Hk. assert (Hx : k ∉ xs). { intros Hx. apply Hxs in Hx. apply lookup_ge_None in Hk. lia. }
    destruct (Hfr _ Hx) as [Heq ->]. rewrite Heq in Hk. destruct (v_fresh _ _ _ _ _ Hinv _ Hk) as [? Hl]. split; [done|]. by destruct (Hsub _ Hl).
  - intros k c j Hk Hj. destruct (decide (k = i)) as [->|Hne]; [simplify_eq; by apply Hhe|]. destruct (Hot _ _ Hne Hk) as (c0 & Hc0 & Hot0). destruct (other_claim _ _ k Hot0) as [_ Heq].
    rewrite Heq in Hj. pose proof (v_held _ _ _ _ _ Hinv _ _ _ Hc0 Hj) as Hj'. destruct (decide (j ∈ xs)) as [Hx|Hx]; [by apply Hhk|]. by destruct (Hfr _ Hx) as [_ ->].
  - intros k j Hj. destruct (decide (k = i)) as [->|Hne]; [exists ci'; split; [done|by apply Hhe]|].
    assert (Hj0 : cust j = CHeld k) by (destruct (decide (j ∈ xs)) as [Hx|Hx]; [by apply Hhk|by destruct (Hfr _ Hx) as [_ <-]]).
    eapply pc_at_other; [done|done|done|]. by apply (v_holder _ _ _ _ _ Hinv).
  - destruct Hlog as [->|(x & Hx & Hxl & ->)]; [apply Hinv|]. apply NoDup_app. split_and!; [apply Hinv| |apply NoDup_singleton]. intros y Hy ->%list_elem_of_singleton. done.
  - intros k c Hk Ha Hs. assert (Hold : (exists t, pc ci' = KNotify k t) \/ (forall t, pc ci <> KNotify k t) /\ exists c, calls w !! k = Some c /\ pc c = KAsleep /\ status <$> node c <> Some SLEEPING).
    { destruct (decide (k ∈ xs)) as [Hx|Hx]; [by eapply Has|]. right. destruct (Hfr _ Hx) as [Heq _]. split; [|rewrite Heq in Hk; eauto].
      intros t Ht. by destruct (Hno _ _ _ Ht Hk). }
    destruct Hold as [[t Ht]|(Hnn & c0 & Hc0 & Ha0 & Hs0)]; [exists i, t, ci'; done|]. destruct (v_asleep _ _ _ _ _ Hinv _ _ Hc0 Ha0 Hs0) as (k' & t & c1 & Hc1 & Hp1).
    exists k', t. destruct (decide (k' = i)) as [->|Hne]; [simplify_eq; by apply Hnn in Hp1|]. eapply pc_at_other; [done|done|done|by exists c1].
Qed.

Lemma stage_frame cust cust' v p cur rest l : (forall x k, x ∈ cur :: rest -> cust x = k -> (forall p, k <> CLinking p) -> cust' x = k) ->
  stage_ok cust v p cur rest -> stage_ok cust' v p cur (rest ++ l).
Proof.
  intros Hq Hp. assert (Hcur : forall k, cust cur = k -> (forall p, k <> CLinking p) -> cust' cur = k) by (intros k; apply Hq; by left).
  assert (Hs : forall s, head rest = Some s -> cust s = CQueued -> head (rest ++ l) = Some s /\ cust' s = CQueued).
  { intros s Hs Hc. destruct rest as [|x rest]; [done|]. injection Hs as ->. split; [done|]. apply Hq; [right; by left|done|done]. }
  destruct p; cbn in *; try done; destruct Hp as [-> Hp].
  1-2, 4-5: by split; [|apply Hcur].
  - destruct Hp as [Hc ->]. by split_and!; [|apply Hcur|].
  - destruct Hp as [Hc Hr]. split_and!; [done|by apply Hcur|]. intros [? _]%app_eq_nil. done.
  - destruct Hp as (Hc & s & Hh & Hs'). split_and!; [done|by apply Hcur|]. exists s. by apply Hs.
  - destruct Hp as (Hc & Hh & Hs'). split; [done|]. split; [by apply Hcur|]. by apply Hs.
Qed.

(** The lock's holder does not notice steps of other calls. *)
Lemma owner_frame i ci w own q cust log cs' cust' l : inv_at w own q cust log -> calls w !! i = Some ci -> claim i (pc ci) = None ->
  (forall k P, k <> i -> (P KAsleep -> P KFutex) -> pc_at (calls w) k P -> pc_at cs' k P) ->
  (forall x, x ∈ q -> (forall p, cust x <> CLinking p) -> cust' x = cust x) -> (q = [] -> spinning cust' l) -> owner_ok own (q ++ l) cust' (value w) cs'.
Proof.
  intros Hinv Hi Hcl Hpc Hcu Hl. pose proof (v_owner _ _ _ _ _ Hinv) as Ho.
  assert (Hsp : spinning cust q -> spinning cust' (q ++ l)).
  { intros Hs. destruct q as [|h q]; [by apply Hl|]. intros h' [= <-]. specialize (Hs h eq_refl). rewrite Hcu; [done|by left|congruence]. }
  assert (Hne : forall k P, (forall p, P p -> is_Some (claim k p)) -> pc_at (calls w) k P -> k <> i).
  { intros k P HP (c & Hk & Hp) ->. simplify_eq. apply HP in Hp. rewrite Hcl in Hp. by destruct Hp. }
  assert (Hat : forall k P, (forall p, P p -> is_Some (claim k p)) -> pc_at (calls w) k P -> pc_at cs' k P).
  { intros k P HP Hp. apply Hpc; [by eapply Hne| |done]. intros Ha. apply HP in Ha. by destruct Ha. }
  destruct own as [|k|k|k|k|]; cbn [owner_ok] in *.
  - auto.
  - destruct Ho as [Hs Hp]. split; [auto|]. apply Hat; [|done]. by intros [| | | | | | | | | | | | | | | | | | | | | | | | | | | |].
  - destruct Ho as (cur & rest & -> & c & Hk & Hp). exists cur, (rest ++ l). split; [done|]. apply Hpc; [|done|].
    + intros ->. simplify_eq. destruct (pc ci) as [| | | | | | | | | | | | | | | | | | | | | | | |? []|? []| | |]; done.
    + exists c. split; [done|]. eapply stage_frame; [|done]. intros x kk Hx Hk1 Hk2. by rewrite Hcu; [|done|rewrite Hk1].
  - destruct Ho as (s & Hh & Hs & Hp). exists s. assert (Hsq : s ∈ q) by (destruct q; [done|]; injection Hh as ->; by left). split_and!; [by destruct q|rewrite Hcu; [done|done|congruence]|].
    apply Hat; [|done]. by intros [| | | | | | | | | | | | | | | | | | | | | | | |? []|? []| | |]; cbn; intros [= ->].
  - destruct Ho as [Hs Hp]. split; [auto|]. apply Hat; [|done]. intros p ->. done.
  - destruct Ho as (h & Hh & Hg). exists h. assert (Hsq : h ∈ q) by (destruct q; [done|]; injection Hh as ->; by left). split; [by destruct q|]. rewrite Hcu; [done|done|congruence].
Qed.

Lemma held_iff w own q cust log i c x : inv_at w own q cust log -> calls w !! i = Some c -> held (pc c) = Some x <-> cust x = CHeld i.
Proof.
  intros Hinv Hi. split; [by apply (v_held _ _ _ _ _ Hinv)|]. intros Hx. destruct (v_holder _ _ _ _ _ Hinv _ _ Hx) as (c' & Hc' & Hh). congruence.
Qed.

Lemma go_calls i p w c : calls w !! i = Some c -> go i p w = set_call i (mkCall p (node c)) w.
Proof. intros Hi. unfold go. by rewrite Hi. Qed.

Definition next_of (o : option Node) : option nat := match o with Some n => next n | None => None end.

Lemma nx_insert cs i c x : (i < length cs)%nat -> nx (<[i := c]> cs) x = if decide (x = i) then next_of (node c) else nx cs x.
Proof.
  intros Hi. unfold nx. case_decide as Hx; [subst; by rewrite list_lookup_insert_eq|]. by rewrite list_lookup_insert_ne.
Qed.

Lemma nx_same cs i c c' x : cs !! i = Some c -> next_of (node c') = next_of (node c) -> nx (<[i := c']> cs) x = nx cs x.
Proof. intros Hi Hn. rewrite nx_insert by by eapply lookup_lt_Some. case_decide as Hx; [subst|done]. unfold nx. by rewrite Hi, Hn. Qed.

Lemma pc_at_insert cs i c k P : k <> i -> pc_at cs k P -> pc_at (<[i := c]> cs) k P.
Proof. intros Hk (x & Hx & Hp). exists x. by rewrite list_lookup_insert_ne. Qed.

(** A call that moves, and touches at most the status of its own node. *)
Record moves (log : list nat) (i : nat) (k : Cust) (c c' : Call) : Prop := {
  mv_next : next_of (node c') = next_of (node c);
  mv_ok : call_ok log i k c';
  mv_claim : claim i (pc c') = claim i (pc c);
  mv_held : held (pc c') = held (pc c);
  mv_asleep : pc c' = KAsleep -> status <$> node c' = Some SLEEPING }.

Lemma move_gen_ok w own q cust log i c c' : inv_at w own q cust log -> calls w !! i = Some c -> moves log i (cust i) c c' -> (forall j t cj, pc c = KNotify j t -> calls w !! j = Some cj -> pc cj <> KAsleep) ->
  (claim i (pc c) <> None -> owner_ok own q cust (value w) (<[i := c']> (calls w))) -> inv_at (set_call i c' w) own q cust log.
Proof.
  intros Hinv Hi [Hnx Hok Hcl Hhe Has] Hno Hoo. pose proof (lookup_lt_Some _ _ _ Hi) as Hl. eapply (combining_inv_change i [i] c c'); [done|]. split; cbn [calls set_call set_calls flag last value].
  - done.
  - by apply list_lookup_insert_eq.
  - apply length_insert.
  - split; [by left|]. by intros k ->%list_elem_of_singleton.
  - intros k Hk. rewrite list_elem_of_singleton in Hk. by rewrite list_lookup_insert_ne.
  - intros k x Hk. rewrite list_lookup_insert_ne by done. intros Hx. exists x. split; [done|by left].
  - intros k x ->%list_elem_of_singleton. rewrite list_lookup_insert_eq by done. by intros [= <-].
  - apply Hinv.
  - apply Hinv.
  - apply Hinv.
  - apply Hinv.
  - eapply chain_frame; [|done|apply Hinv]. intros a _. by apply nx_same with c.
  - by left.
  - intros o. rewrite Hcl. by apply (v_claim _ _ _ _ _ Hinv i c).
  - destruct (claim i (pc c)) eqn:Hcl0; [by apply Hoo|]. rewrite <- (app_nil_r q). eapply (owner_frame i c w); try done. intros k P Hk _. by apply pc_at_insert.
  - intros x. rewrite Hhe. by eapply held_iff.
  - done.
  - by left.
  - apply Hinv.
  - intros k x ->%list_elem_of_singleton. rewrite list_lookup_insert_eq by done. intros [= <-] Ha Hs. by rewrite Has in Hs.
  - intros k t x Ht Hx. destruct (decide (k = i)) as [->|Hki]; [by left; left|right]. rewrite list_lookup_insert_ne in Hx by done. by eapply Hno.
Qed.

Lemma combining_move_ok w own q cust log i c c' : inv_at w own q cust log -> calls w !! i = Some c -> moves log i (cust i) c c' -> (forall j t, pc c <> KNotify j t) ->
  (claim i (pc c) <> None -> owner_ok own q cust (value w) (<[i := c']> (calls w))) -> inv_at (set_call i c' w) own q cust log.
Proof. intros Hinv Hi Hm Hno. apply (move_gen_ok w own q cust log i c c' Hinv Hi Hm). intros j t cj Ht. by apply Hno in Ht. Qed.

Lemma owner_stage w own q cust log i c : inv_at w own q cust log -> calls w !! i = Some c -> claim i (pc c) = Some (Comb i) ->
  own = Comb i /\ exists cur rest, q = cur :: rest /\ stage_ok cust (value w) (pc c) cur rest.
Proof.
  intros Hinv Hi Hc. pose proof (v_claim _ _ _ _ _ Hinv _ _ _ Hi Hc) as ->. split; [done|]. pose proof (v_owner _ _ _ _ _ Hinv) as (cur & rest & -> & c' & Hc' & Hs).
  exists cur, rest. split; [done|]. congruence.
Qed.

Lemma stage_move w own q cust log i c c' cur rest : inv_at w own q cust log -> calls w !! i = Some c -> own = Comb i -> q = cur :: rest -> stage_ok cust (value w) (pc c') cur rest ->
  owner_ok own q cust (value w) (<[i := c']> (calls w)).
Proof. intros Hinv Hi -> -> Hs. exists cur, rest. split; [done|]. exists c'. split; [|done]. apply list_lookup_insert_eq. by eapply lookup_lt_Some. Qed.

(** Moves before and after the lock, and inside [wait]. *)
Definition quiet_move (p p' : Pc) (st : option Status) : Prop :=
  match p, p' with
  | KStart, (KTry | KAttach) | KTry, KAttach => True
  | KSpin, KSpinLoad | KSpinLoad, (KSpin | KSpinLoad) => True
  | KWait _, KSleep => True
  | KWait _, KWait _ => st = Some WAITING
  | (KWait _ | KSleep), KCheck => st <> Some WAITING
  | KFutex, KFutexWait => st = Some SLEEPING
  | KFutex, KCheck => st <> Some SLEEPING
  | KFutexWait, KAsleep => st = Some SLEEPING
  | KFutexWait, KFutex => True
  | KCheck, KFinish => st = Some DONE
  | _, _ => False
  end.

Lemma status_done log i k n : node_ok log i k (Some n) -> status n = DONE <-> k = CDone.
Proof.
  unfold node_ok. destruct k; cbn; try (by intros []); intros H; (split; [intros Hs|]); try done; try (destruct H as [H _]); try congruence; try done; destruct H; congruence.
Qed.

Lemma quiet_ok w own q cust log i c p : inv_at w own q cust log -> calls w !! i = Some c -> quiet_move (pc c) p (status <$> node c) -> inv_at (go i p w) own q cust log.
Proof.
  intros Hinv Hi Hm. rewrite (go_calls _ _ _ c Hi). destruct (v_calls _ _ _ _ _ Hinv _ _ Hi) as [Hn Hp]. apply combining_move_ok with c; [done|done| |by destruct (pc c), p|].
  - assert (Hd : forall n, node c = Some n -> status n = DONE <-> cust i = CDone) by (intros n Hnode; rewrite Hnode in Hn; by eapply status_done).
    split; cbn; [done| |by destruct (pc c), p|by destruct (pc c), p|by destruct (pc c), p]. split; [done|]. cbn.
    destruct (node c) as [n|]; [specialize (Hd n eq_refl); cbn in *; destruct (status n)|]; destruct (pc c), p; cbn in *; try done; try naive_solver; destruct Hp as [Hw _]; by destruct (cust i).
  - intros Hc. exfalso. apply Hc. by destruct (pc c), p.
Qed.

(** A call that moves and changes another node, the queue or the holder. *)
Record shift (i : nat) (c c' : Call) (j : nat) (cj cj' : Call) (xs : list nat) (w : World) (own : Own) (cust : nat -> Cust) (log : list nat)
    (w' : World) (own' : Own) (q' : list nat) (cust' : nat -> Cust) (log' : list nat) : Prop := {
  s_from : calls w !! i = Some c;
  s_node : calls w !! j = Some cj;
  s_calls : calls w' = <[i := c']> (<[j := cj']> (calls w));
  s_pc : pc cj' = pc cj;
  s_in : i ∈ xs /\ j ∈ xs /\ forall k, k ∈ xs -> (k < length (calls w))%nat;
  s_frame k : k ∉ xs -> cust' k = cust k;
  s_new k x : k ∈ xs -> calls w' !! k = Some x -> call_ok log' k (cust' k) x;
  s_flag : flag w' = match own' with Free => false | _ => true end;
  s_last : last w' = list.last q';
  s_nodup : NoDup q';
  s_members k : k ∈ q' <-> in_queue (cust' k) = true;
  s_chain : chain cust' (calls w') q';
  s_own : own' = own \/ mine i own;
  s_claim o : claim i (pc c') = Some o -> own' = o;
  s_owner : owner_ok own' q' cust' (value w') (calls w');
  s_held x : held (pc c') = Some x <-> cust' x = CHeld i;
  s_heldk x k : k <> i -> x ∈ xs -> cust' x = CHeld k <-> cust x = CHeld k;
  s_log : log' = log \/ exists x, x ∈ xs /\ x ∉ log /\ log' = log ++ [x];
  s_value : value w' = apply_log log';
  s_asleep : pc c' <> KAsleep /\ (forall k t, pc c <> KNotify k t) /\ (status <$> node cj' <> Some SLEEPING -> status <$> node cj = Some SLEEPING -> exists t, pc c' = KNotify j t) }.

Lemma shift_ok i c c' j cj cj' xs w own q cust log w' own' q' cust' log' : inv_at w own q cust log ->
  shift i c c' j cj cj' xs w own cust log w' own' q' cust' log' -> inv_at w' own' q' cust' log'.
Proof.
  intros Hinv [Hi Hj Hcs Hpc (Hix & Hjx & Hxs) Hfr Hnew Hfl Hla Hnd Hme Hch Hown Hcl Hoo Hhe Hhk Hlog Hval (Ha1 & Ha2 & Ha3)].
  pose proof (lookup_lt_Some _ _ _ Hi) as Hli. pose proof (lookup_lt_Some _ _ _ Hj) as Hlj.
  assert (Hlook : forall k x, k <> i -> calls w' !! k = Some x -> (k = j /\ x = cj') \/ (k <> j /\ calls w !! k = Some x)).
  { intros k x Hk. rewrite Hcs, list_lookup_insert_ne by done. intros Hx. apply list_lookup_insert_Some in Hx as [(-> & -> & _)|[? ?]]; auto. }
  eapply (combining_inv_change i xs c c'); [done|]. split; try done.
  - rewrite Hcs. apply list_lookup_insert_eq. by rewrite length_insert.
  - rewrite Hcs. by rewrite !length_insert.
  - intros k Hk. split; [|by apply Hfr]. rewrite Hcs, !list_lookup_insert_ne; [done|by intros ->..].
  - intros k x Hk Hx. destruct (Hlook _ _ Hk Hx) as [[-> ->]|[_ Hx']]; [exists cj; split; [done|by left]|exists x; split; [done|by left]].
  - intros k x Hk Hx Ha Hs. destruct (decide (k = i)) as [->|Hki].
    { rewrite Hcs, list_lookup_insert_eq in Hx by (by rewrite length_insert). injection Hx as <-. done. }
    destruct (Hlook _ _ Hki Hx) as [[-> ->]|[_ Hx']]; [|right; split; [done|eauto]].
    destruct (decide (status <$> node cj = Some SLEEPING)) as [Hsl|Hsl]; [left; by apply Ha3|right]. split; [done|]. exists cj. split_and!; [done|congruence|done].
  - intros k t x Ht. by apply Ha2 in Ht.
Qed.

(** The combiner moves on without an effect. *)
Lemma comb_move w own q cust log i c p : inv_at w own q cust log -> calls w !! i = Some c -> claim i (pc c) = Some (Comb i) -> claim i p = Some (Comb i) -> carried p = carried (pc c) ->
  (forall cur rest, q = cur :: rest -> stage_ok cust (value w) (pc c) cur rest -> stage_ok cust (value w) p cur rest) -> inv_at (go i p w) own q cust log.
Proof.
  intros Hinv Hi Hc Hp Hcar Hst. destruct (owner_stage _ _ _ _ _ _ _ Hinv Hi Hc) as (-> & cur & rest & -> & Hs). rewrite (go_calls _ _ _ c Hi).
  destruct (v_calls _ _ _ _ _ Hinv _ _ Hi) as [Hn Hpo]. apply combining_move_ok with c; [done|done| |intros j t Heq; rewrite Heq in Hc; by destruct t|intros _; eapply stage_move; [done|done|done|done|by apply Hst]].
  split; cbn; [done| |congruence| |].
  - split; [done|]. cbn. assert (Hx : carried (pc c) = Some i \/ cust i = CDone) by (destruct (pc c) as [| | | | | | | | | | | | | | | | | | | | | | | |? []|? []| | |]; done).
    destruct p as [| | | | | | | | | | | | | | | | | | | | | | | |? []|? []| | |]; try done; cbn in *; rewrite Hcar; done.
  - destruct p as [| | | | | | | | | | | | | | | | | | | | | | | |? []|? []| | |], (pc c) as [| | | | | | | | | | | | | | | | | | | | | | | |? []|? []| | |]; done.
  - by intros ->.
Qed.

(** [KSleep]: the caller announces that it sleeps. *)
Lemma sleep_ok w own q cust log i c n : inv_at w own q cust log -> calls w !! i = Some c -> pc c = KSleep -> node c = Some n -> status n = WAITING ->
  inv_at (go i KFutex (set_node i c (set_status SLEEPING n) w)) own q cust log.
Proof.
  intros Hinv Hi Hpc Hn Hs. pose proof (lookup_lt_Some _ _ _ Hi) as Hl. destruct (v_calls _ _ _ _ _ Hinv _ _ Hi) as [Hok Hp]. rewrite Hpc, Hn in *.
  assert (Heq : go i KFutex (set_node i c (set_status SLEEPING n) w) = set_call i (mkCall KFutex (Some (set_status SLEEPING n))) w).
  { unfold go, set_node, set_call, set_calls. cbn [calls]. rewrite list_lookup_insert_eq by done. cbn. by rewrite list_insert_insert_eq. }
  rewrite Heq. apply combining_move_ok with c; [done|done| |by rewrite Hpc|by rewrite Hpc]. split; cbn; rewrite ?Hpc, ?Hn; try done. destruct Hp as (Hw & Hp1 & Hp2).
  split; cbn; [|split_and!; [done|done|done]]. unfold node_ok in *. rewrite Hs in *. destruct (cust i); cbn; naive_solver.
Qed.

Lemma insert_twice (cs : list Call) i c c' : cs !! i = Some c -> <[i := c']> (<[i := c]> cs) = <[i := c']> cs.
Proof. intros _. apply list_insert_insert_eq. Qed.

(** A call takes or gives back the lock, or runs its action on the fast path. *)
Lemma turn_ok w own q cust log i c p w' own' log' : inv_at w own q cust log -> calls w !! i = Some c -> calls w' = <[i := mkCall p (node c)]> (calls w) -> last w' = last w ->
  flag w' = match own' with Free => false | _ => true end -> own' = own \/ mine i own -> (forall o, claim i p = Some o -> own' = o) ->
  owner_ok own' q cust (value w') (<[i := mkCall p (node c)]> (calls w)) -> held p = None -> held (pc c) = None -> call_ok log' i (cust i) (mkCall p (node c)) ->
  log' = log \/ i ∉ log /\ log' = log ++ [i] -> value w' = apply_log log' -> p <> KAsleep -> (forall k t, pc c <> KNotify k t) -> inv_at w' own' q cust log'.
Proof.
  intros Hinv Hi Hcs Hla Hfl Hown Hcl Hoo Hh Hh0 Hok Hlog Hval Hna Hno. pose proof (lookup_lt_Some _ _ _ Hi) as Hl.
  apply (shift_ok i c (mkCall p (node c)) i c c [i] w own q cust log); [done|]. split; try done; rewrite ?Hcs, ?insert_twice by done; try done.
  - split_and!; [by left..|]. by intros k ->%list_elem_of_singleton.
  - intros k x ->%list_elem_of_singleton. rewrite list_lookup_insert_eq by done. by intros [= <-].
  - rewrite Hla. apply Hinv.
  - apply Hinv.
  - apply Hinv.
  - eapply chain_frame; [|done|apply Hinv]. intros a _. by apply nx_same with c.
  - intros x. cbn. rewrite Hh, <- Hh0. by eapply held_iff.
  - destruct Hlog as [->|[? ->]]; [by left|right; exists i; split_and!; [by left|done|done]].
Qed.

Lemma apply_log_snoc log i v r : act i (apply_log log) = Some (v, r) -> apply_log (log ++ [i]) = v.
Proof. intros Ha. unfold apply_log in *. rewrite foldl_app. cbn. by rewrite Ha. Qed.

Lemma logged_last log i v r : act i (apply_log log) = Some (v, r) -> logged (log ++ [i]) i r.
Proof. intros Ha. by exists log, [], v. Qed.

Lemma inv_own w own q cust log i c o : inv_at w own q cust log -> calls w !! i = Some c -> claim i (pc c) = Some o -> own = o.
Proof. intros Hinv. apply (v_claim _ _ _ _ _ Hinv). Qed.

Lemma pc_at_new (cs : list Call) i c (P : Pc -> Prop) : (i < length cs)%nat -> P (pc c) -> pc_at (<[i := c]> cs) i P.
Proof. intros Hl HP. exists c. split; [by apply list_lookup_insert_eq|done]. Qed.

Lemma flag_free w own q cust log : inv_at w own q cust log -> flag w = false -> own = Free.
Proof. intros Hinv Hf. rewrite (v_flag _ _ _ _ _ Hinv) in Hf. by destruct own. Qed.

Lemma try_ok w own q cust log i c : inv_at w own q cust log -> calls w !! i = Some c -> pc c = KTry -> flag w = false -> inv_at (go i KFast (set_flag true w)) (Fast i) q cust log.
Proof.
  intros Hinv Hi Hpc Hf. pose proof (flag_free _ _ _ _ _ Hinv Hf) as ->. rewrite (go_calls _ _ _ c) by done. pose proof (lookup_lt_Some _ _ _ Hi) as Hl.
  destruct (v_calls _ _ _ _ _ Hinv _ _ Hi) as [Hn Hp]. rewrite Hpc in Hp. apply (turn_ok w Free q cust log i c KFast); try done; rewrite ?Hpc; try done.
  - right. by left.
  - by intros o [= <-].
  - split; [apply (v_owner _ _ _ _ _ Hinv)|by apply pc_at_new].
  - by left.
  - apply Hinv.
Qed.

Lemma fast_start_ok w own q cust log i c : inv_at w own q cust log -> calls w !! i = Some c -> pc c = KFast -> inv_at (go i (KFastRun (value w)) w) own q cust log.
Proof.
  intros Hinv Hi Hpc. rewrite (go_calls _ _ _ c) by done. pose proof (lookup_lt_Some _ _ _ Hi) as Hl. destruct (v_calls _ _ _ _ _ Hinv _ _ Hi) as [Hn Hp]. rewrite Hpc in Hp.
  assert (own = Fast i) as -> by (eapply inv_own; [done|done|by rewrite Hpc]). apply combining_move_ok with c; [done|done|split; by rewrite ?Hpc|by rewrite Hpc|]. intros _.
  split; [apply (v_owner _ _ _ _ _ Hinv)|by apply pc_at_new].
Qed.

Lemma fast_run_ok w own q cust log i c v v' r : inv_at w own q cust log -> calls w !! i = Some c -> pc c = KFastRun v -> act i v = Some (v', r) ->
  inv_at (go i (KFastEnd r) (set_value v' w)) own q cust (log ++ [i]).
Proof.
  intros Hinv Hi Hpc Ha. rewrite (go_calls _ _ _ c) by done. pose proof (lookup_lt_Some _ _ _ Hi) as Hl. destruct (v_calls _ _ _ _ _ Hinv _ _ Hi) as [Hn Hp]. rewrite Hpc in Hp. destruct Hp as [Hk Hlog].
  assert (own = Fast i) as -> by (eapply inv_own; [done|done|by rewrite Hpc]). destruct (v_owner _ _ _ _ _ Hinv) as [Hsp (c1 & Hc1 & Hv)]. simplify_eq. rewrite Hpc in Hv. cbn in Hv. subst v.
  rewrite (v_value _ _ _ _ _ Hinv) in Ha. apply (turn_ok w (Fast i) q cust log i c (KFastEnd r)); try done; rewrite ?Hpc; try done.
  - apply (v_flag _ _ _ _ _ Hinv).
  - by left.
  - by intros o [= <-].
  - split; [done|by apply pc_at_new].
  - split; cbn; [|split; [done|by eapply logged_last]]. rewrite Hk in *. by destruct (node c).
  - by right.
  - cbn. symmetry. by eapply apply_log_snoc.
Qed.

Lemma fast_end_ok w own q cust log i c r : inv_at w own q cust log -> calls w !! i = Some c -> pc c = KFastEnd r -> inv_at (go i (KReturned r) (set_flag false w)) Free q cust log.
Proof.
  intros Hinv Hi Hpc. rewrite (go_calls _ _ _ c) by done. destruct (v_calls _ _ _ _ _ Hinv _ _ Hi) as [Hn Hp]. rewrite Hpc in Hp.
  assert (own = Fast i) as -> by (eapply inv_own; [done|done|by rewrite Hpc]). destruct (v_owner _ _ _ _ _ Hinv) as [Hsp _].
  apply (turn_ok w (Fast i) q cust log i c (KReturned r)); try done; rewrite ?Hpc; try done; [right; unfold mine; auto|by left|apply Hinv].
Qed.

Lemma combining_release_ok w own q cust log i c : inv_at w own q cust log -> calls w !! i = Some c -> pc c = KRelease -> inv_at (go i KFinish (set_flag false w)) Free q cust log.
Proof.
  intros Hinv Hi Hpc. rewrite (go_calls _ _ _ c) by done. destruct (v_calls _ _ _ _ _ Hinv _ _ Hi) as [Hn Hp]. rewrite Hpc in Hp.
  assert (own = Rel i) as -> by (eapply inv_own; [done|done|by rewrite Hpc]). destruct (v_owner _ _ _ _ _ Hinv) as [Hsp _].
  apply (turn_ok w (Rel i) q cust log i c KFinish); try done; rewrite ?Hpc; try done; [right; unfold mine; auto 6|by left|apply Hinv].
Qed.

(** *** Custody *)
Definition wait_pc (p : Pc) : bool := match p with KWait _ | KSleep | KFutex | KFutexWait | KAsleep => true | _ => false end.

Lemma tail_kind cust cs q b : chain cust cs q -> b ∈ tail q -> cust b = CQueued \/ exists a, cust b = CLinking a.
Proof.
  induction q as [|a q IH]; [by intros _ ?%not_elem_of_nil|]. cbn [chain tail]. intros [Hh Ht] Hb. destruct q as [|x q]; [by apply not_elem_of_nil in Hb|].
  apply elem_of_cons in Hb as [->|Hb]; [naive_solver|by apply IH].
Qed.

Lemma at_head w own q cust log x : inv_at w own q cust log -> in_queue (cust x) = true -> cust x <> CQueued -> (forall p, cust x <> CLinking p) -> exists rest, q = x :: rest.
Proof.
  intros Hinv Hq Hn1 Hn2. apply (v_members _ _ _ _ _ Hinv) in Hq. destruct q as [|h rest]; [by apply not_elem_of_nil in Hq|]. apply elem_of_cons in Hq as [->|Hq]; [by exists rest|].
  destruct (tail_kind _ _ _ _ (v_chain _ _ _ _ _ Hinv) Hq) as [?|[a Ha]]; [done|]. by apply Hn2 in Ha.
Qed.

(** Who has the lock, by the custody of the head. *)
Lemma head_owner w own h rest cust log : inv_at w own (h :: rest) cust log ->
  match cust h with
  | CSpin => own = Free \/ (exists i, own = Fast i) \/ exists i, own = Rel i
  | CGranted => own = Granted
  | CQueued => exists i, own = Next i
  | CReady | CTaken | CRan => exists i, own = Comb i
  | _ => False
  end.
Proof.
  intros Hinv. pose proof (v_owner _ _ _ _ _ Hinv) as Ho. destruct own as [|i|i|i|i|]; cbn [owner_ok] in Ho.
  - rewrite (Ho h eq_refl). auto.
  - destruct Ho as [Ho _]. rewrite (Ho h eq_refl). eauto.
  - destruct Ho as (cur & r & [= <- <-] & c & _ & Hs). destruct (pc c); cbn in Hs; try done; destruct Hs as [_ Hs]; first [rewrite Hs|destruct Hs as [Hs _]; rewrite Hs]; eauto.
  - destruct Ho as (s & [= <-] & Hs & _). rewrite Hs. eauto.
  - destruct Ho as [Ho _]. rewrite (Ho h eq_refl). eauto.
  - destruct Ho as (s & [= <-] & Hs). by rewrite Hs.
Qed.

Lemma linking_in_tail w own q cust log i p : inv_at w own q cust log -> cust i = CLinking p -> i ∈ tail q.
Proof.
  intros Hinv Hc. assert (Hq : i ∈ q) by (apply (v_members _ _ _ _ _ Hinv); by rewrite Hc). destruct q as [|h rest]; [by apply not_elem_of_nil in Hq|].
  apply elem_of_cons in Hq as [->|Hq]; [|done]. pose proof (head_owner _ _ _ _ _ _ Hinv) as Hh. by rewrite Hc in Hh.
Qed.

(** A call whose node is in other hands waits. *)
Lemma passive w own q cust log x c : inv_at w own q cust log -> calls w !! x = Some c -> own <> Comb x ->
  match cust x with CQueued | CReady | CTaken | CRan => True | CHeld i => i <> x | _ => False end -> wait_pc (pc c) = true.
Proof.
  intros Hinv Hx Hown Hk. destruct (v_calls _ _ _ _ _ Hinv _ _ Hx) as [_ Hp]. pose proof (v_claim _ _ _ _ _ Hinv _ _ (Comb x) Hx) as Hcl.
  pose proof (v_held _ _ _ _ _ Hinv _ _ x Hx) as Hh. destruct (wait_pc (pc c)) eqn:Hw; [done|]. exfalso.
  assert (Hc : carried (pc c) = Some x /\ cust x <> CDone).
  { destruct (pc c) as [| | | | | | | | | | | | | | | | | | | | | | | |? []|? []| | |]; cbn in *; try done; destruct (cust x); naive_solver. }
  destruct Hc as [Hc _]. destruct (pc c) as [| | | | | | | | | | | | | | | | | | | | | | | |? []|? []| | |]; cbn in *; try done; try (by apply Hown, Hcl); rewrite Hh in Hk by done; done.
Qed.

Lemma wait_pc_ok log x k k' p st st' : wait_pc p = true -> waits k' = true -> pc_ok log x k p st -> st' = st \/ st' = Some DONE \/ st' = Some HEAD -> (st' = Some HEAD -> k' = CGranted) -> pc_ok log x k' p st'.
Proof. intros Hw Hk Hp Hst Hh. destruct p; try done; cbn in *; destruct Hp as (_ & Hp & _); split_and!; try done; destruct Hst as [->|[->| ->]]; done. Qed.

Lemma wait_not_head log x k p st : wait_pc p = true -> k <> CGranted -> pc_ok log x k p st -> st <> Some HEAD.
Proof. intros Hw Hk Hp ->. destruct p; try done; cbn in *; naive_solver. Qed.

(** *** Ghost updates *)
Lemma upd_members (q : list nat) (cust : nat -> Cust) x k : (forall y, y ∈ q <-> in_queue (cust y) = true) -> in_queue k = in_queue (cust x) -> forall y, y ∈ q <-> in_queue (<[x := k]> cust y) = true.
Proof. intros Hq Hk y. destruct (decide (y = x)) as [->|Hne]; [by rewrite fn_lookup_insert, Hk|by rewrite fn_lookup_insert_ne]. Qed.

Lemma pop_members (q : list nat) (cust : nat -> Cust) x k : (forall y, y ∈ x :: q <-> in_queue (cust y) = true) -> x ∉ q -> in_queue k = false -> forall y, y ∈ q <-> in_queue (<[x := k]> cust y) = true.
Proof.
  intros Hq Hx Hk y. destruct (decide (y = x)) as [->|Hne]; [rewrite fn_lookup_insert, Hk; done|]. rewrite fn_lookup_insert_ne by done. rewrite <- Hq, elem_of_cons. naive_solver.
Qed.

Lemma upd_frame (cust : nat -> Cust) x k (xs : list nat) : x ∈ xs -> forall y, y ∉ xs -> <[x := k]> cust y = cust y.
Proof. intros Hx y Hy. apply fn_lookup_insert_ne. by intros ->. Qed.

Lemma upd_heldk (cust : nat -> Cust) x k i : (forall j, j <> i -> k <> CHeld j) -> (forall j, j <> i -> cust x <> CHeld j) -> forall (xs : list nat) y j, j <> i -> y ∈ xs -> <[x := k]> cust y = CHeld j <-> cust y = CHeld j.
Proof. intros Hk Hc xs y j Hj _. destruct (decide (y = x)) as [->|Hne]; [rewrite fn_lookup_insert|by rewrite fn_lookup_insert_ne]. naive_solver. Qed.

Lemma upd_held w own q cust log i c x k : inv_at w own q cust log -> calls w !! i = Some c -> k <> CHeld i -> cust x <> CHeld i -> forall y, held (pc c) = Some y <-> <[x := k]> cust y = CHeld i.
Proof.
  intros Hinv Hi Hk Hc y. rewrite (held_iff _ _ _ _ _ _ _ _ Hinv Hi). destruct (decide (y = x)) as [->|Hne]; [rewrite fn_lookup_insert|by rewrite fn_lookup_insert_ne]. naive_solver.
Qed.

Lemma lookup_twice (cs : list Call) i c' j cj' : (i < length cs)%nat -> (j < length cs)%nat -> forall k x, <[i := c']> (<[j := cj']> cs) !! k = Some x ->
  (k = i /\ x = c') \/ (k <> i /\ k = j /\ x = cj') \/ (k <> i /\ k <> j /\ cs !! k = Some x).
Proof.
  intros Hi Hj k x Hx. destruct (decide (k = i)) as [->|Hki]; [rewrite list_lookup_insert_eq in Hx by (by rewrite length_insert); naive_solver|]. rewrite list_lookup_insert_ne in Hx by done.
  destruct (decide (k = j)) as [->|Hkj]; [rewrite list_lookup_insert_eq in Hx by done; naive_solver|]. rewrite list_lookup_insert_ne in Hx by done. naive_solver.
Qed.

(** A call that moves itself and changes the custody of one node. *)
Lemma custody_ok w own q cust log i c c' x k w' own' q' : inv_at w own q cust log -> calls w !! i = Some c -> (x < length (calls w))%nat -> calls w' = <[i := c']> (calls w) -> value w' = value w ->
  call_ok log i (<[x := k]> cust i) c' -> (forall cx, x <> i -> calls w !! x = Some cx -> call_ok log x k cx) ->
  flag w' = match own' with Free => false | _ => true end -> last w' = list.last q' -> NoDup q' -> (forall y, y ∈ q' <-> in_queue (<[x := k]> cust y) = true) ->
  chain (<[x := k]> cust) (<[i := c']> (calls w)) q' -> own' = own \/ mine i own -> (forall o, claim i (pc c') = Some o -> own' = o) ->
  owner_ok own' q' (<[x := k]> cust) (value w) (<[i := c']> (calls w)) -> (forall y, held (pc c') = Some y <-> <[x := k]> cust y = CHeld i) ->
  (forall j, j <> i -> k <> CHeld j) -> (forall j, j <> i -> cust x <> CHeld j) -> pc c' <> KAsleep -> (forall k t, pc c <> KNotify k t) -> inv_at w' own' q' (<[x := k]> cust) log.
Proof.
  intros Hinv Hi Hx Hcs Hv Hok Hokx Hfl Hla Hnd Hme Hch Hown Hcl Hoo Hhe Hk Hcx Hna Hno. pose proof (lookup_lt_Some _ _ _ Hi) as Hl.
  apply (shift_ok i c c' i c c [i; x] w own q cust log); [done|]. split; rewrite ?Hcs, ?insert_twice, ?Hv by done; try done.
  - split_and!; [by left..|]. intros y [->|Hy]%elem_of_cons; [done|]. by apply list_elem_of_singleton in Hy as ->.
  - apply upd_frame. right. by left.
  - intros y cy Hy Hcy. destruct (decide (y = i)) as [->|Hyi]; [rewrite list_lookup_insert_eq in Hcy by done; by injection Hcy as <-|]. rewrite list_lookup_insert_ne in Hcy by done.
    apply elem_of_cons in Hy as [->|Hy]; [done|]. apply list_elem_of_singleton in Hy as ->. rewrite fn_lookup_insert. by apply Hokx.
  - by apply upd_heldk.
  - by left.
  - apply Hinv.
Qed.

Lemma head_chain cust cs cs' x rest k : NoDup (x :: rest) -> (forall a, a ∈ x :: rest -> nx cs' a = nx cs a) -> chain cust cs (x :: rest) -> chain (<[x := k]> cust) cs' (x :: rest).
Proof. intros [Hx _]%NoDup_cons Hnx. apply chain_frame; [done|]. intros b Hb. apply fn_lookup_insert_ne. intros ->. done. Qed.

Lemma pop_chain cust cs cs' x rest k : NoDup (x :: rest) -> (forall a, a ∈ rest -> nx cs' a = nx cs a) -> chain cust cs (x :: rest) -> chain (<[x := k]> cust) cs' rest.
Proof.
  intros [Hx _]%NoDup_cons Hnx [_ Hch]. eapply chain_frame; [done| |done]. intros b Hb. apply fn_lookup_insert_ne. intros ->. apply Hx. by destruct rest; [|right].
Qed.

(** The caller that finds the flag free becomes the combiner; so does the one that was handed the lock. *)
Lemma become_ok w own q cust log i c w' : inv_at w own q cust log -> calls w !! i = Some c -> cust i = CSpin /\ own = Free \/ cust i = CGranted -> pc c = KSpin \/ pc c = KCheck ->
  calls w' = <[i := mkCall (KPrefetch i) (node c)]> (calls w) -> value w' = value w -> last w' = last w -> flag w' = true -> inv_at w' (Comb i) q (<[i := CReady]> cust) log.
Proof.
  intros Hinv Hi Hk Hpc Hcs Hv Hla Hfl. pose proof (lookup_lt_Some _ _ _ Hi) as Hl. destruct (v_calls _ _ _ _ _ Hinv _ _ Hi) as [Hn Hp].
  assert (Hq : exists rest, q = i :: rest) by (apply (at_head _ _ _ _ _ _ Hinv); destruct Hk as [[-> _]| ->]; done). destruct Hq as [rest ->].
  assert (Hown : mine i own). { unfold mine. pose proof (head_owner _ _ _ _ _ _ Hinv) as Hh. destruct Hk as [[_ ->]|Hk]; [by left|]. rewrite Hk in Hh. auto. }
  eapply (custody_ok w own (i :: rest) cust log i c); try done; cbn [pc node]; rewrite ?Hla, ?fn_lookup_insert.
  - split; cbn; [|by left]. unfold node_ok in *. destruct (node c) as [n|]; destruct Hk as [[Hk _]|Hk]; rewrite Hk in Hn; try done; destruct Hn as [Hst Hn]; (split; [congruence|done]).
  - apply Hinv.
  - apply Hinv.
  - apply upd_members; [apply Hinv|]. by destruct Hk as [[-> _]| ->].
  - apply head_chain with (calls w); [apply Hinv| |apply Hinv]. intros a _. by apply nx_same with c.
  - by right.
  - by intros o [= <-].
  - exists i, rest. split; [done|]. apply pc_at_new; [done|]. cbn. by rewrite fn_lookup_insert.
  - assert (Hnone : held (pc c) = None) by (by destruct Hpc as [-> | ->]). cbn. rewrite <- Hnone. eapply upd_held; [done|done|done|]. destruct Hk as [[-> _]| ->]; done.
  - intros j _. destruct Hk as [[-> _]| ->]; done.
  - intros j t. destruct Hpc as [-> | ->]; done.
Qed.

(** The combiner turns to the successor. *)
Lemma loop_ok w own q cust log i c s : inv_at w own q cust log -> calls w !! i = Some c -> pc c = KLoop s -> inv_at (go i (KPrefetch s) w) (Comb i) q (<[s := CReady]> cust) log.
Proof.
  intros Hinv Hi Hpc. pose proof (lookup_lt_Some _ _ _ Hi) as Hl. destruct (v_calls _ _ _ _ _ Hinv _ _ Hi) as [Hn Hp]. rewrite Hpc in Hp. cbn in Hp.
  assert (own = Next i) as -> by (eapply inv_own; [done|done|by rewrite Hpc]). destruct (v_owner _ _ _ _ _ Hinv) as (s' & Hh & Hs & c1 & Hc1 & Hp1). simplify_eq. rewrite Hpc in Hp1. injection Hp1 as <-.
  destruct q as [|h rest]; [done|]. injection Hh as ->. assert (Hsi : s <> i) by (intros ->; congruence).
  destruct (inv_node _ _ _ _ _ s Hinv) as (cs & n & Hcs & Hns & Hnok & Hpok); [congruence|]. rewrite (go_calls _ _ _ c) by done.
  eapply (custody_ok w (Next i) (s :: rest) cust log i c); try done; cbn [pc node set_call set_calls calls flag last value]; rewrite ?fn_lookup_insert.
  - by eapply lookup_lt_Some.
  - rewrite fn_lookup_insert_ne by done. split; [done|]. cbn. by right.
  - intros cx _ Hcx. simplify_eq. rewrite Hs in *. split; rewrite Hns; [destruct Hnok as [[Hst|Hst] Hnok]; (split; [congruence|done])|]. eapply wait_pc_ok; [|done|exact Hpok|by left|].
    + apply (passive _ _ _ _ _ s cs Hinv Hcs); [done|by rewrite Hs].
    + cbn. intros [= Hst]. destruct Hnok as [[Hst2|Hst2] _]; congruence.
  - apply Hinv.
  - apply Hinv.
  - apply Hinv.
  - apply upd_members; [apply Hinv|by rewrite Hs].
  - apply head_chain with (calls w); [apply Hinv| |apply Hinv]. intros a _. by apply nx_same with c.
  - right. unfold mine. auto 6.
  - by intros o [= <-].
  - exists s, rest. split; [done|]. apply pc_at_new; [done|]. cbn. by rewrite fn_lookup_insert.
  - cbn. assert (Hnone : held (pc c) = None) by (by rewrite Hpc). rewrite <- Hnone. eapply upd_held; [done|done|done|]. by rewrite Hs.
  - intros j _. by rewrite Hs.
  - intros j t. by rewrite Hpc.
Qed.

(** The combiner takes the head out of the queue: it knows the successor, or closed the queue. *)
Lemma pop_ok w own q cust log i c cur rest p own' o : inv_at w own q cust log -> calls w !! i = Some c -> pc c = KNext cur \/ pc c = KTail cur -> q = cur :: rest ->
  (exists s r, p = KComplete cur (TNext s) /\ rest = s :: r /\ cust s = CQueued /\ own' = Next i) \/ (p = KComplete cur TRelease /\ rest = [] /\ own' = Rel i) ->
  o = list.last rest -> inv_at (go i p (set_last o w)) own' rest (<[cur := CHeld i]> cust) log.
Proof.
  intros Hinv Hi Hpc -> Hp ->. pose proof (lookup_lt_Some _ _ _ Hi) as Hl. assert (Hcl : claim i (pc c) = Some (Comb i)) by (by destruct Hpc as [-> | ->]).
  assert (Hhe : forall t, held (KComplete cur t) = Some cur) by done. assert (Hpk : exists t, p = KComplete cur t /\ (t = TRelease \/ exists s, t = TNext s)) by (destruct Hp as [(s & r & -> & _)|[-> _]]; eauto).
  destruct Hpk as (t & Hpt & Ht). destruct (owner_stage _ _ _ _ _ _ _ Hinv Hi Hcl) as (-> & cur' & rest' & [= <- <-] & Hs).
  assert (Hcur : cust cur = CRan) by (destruct Hpc as [Hpc|Hpc]; rewrite Hpc in Hs; apply Hs). destruct (inv_node _ _ _ _ _ cur Hinv) as (cc & n & Hcc & Hns & Hnok & Hpok); [congruence|]. rewrite Hcur in *.
  pose proof (v_nodup _ _ _ _ _ Hinv) as Hnd. destruct (v_calls _ _ _ _ _ Hinv _ _ Hi) as [Hn Hpo]. rewrite (go_calls _ _ _ c) by done.
  assert (Hmine : cur = i \/ cust i = CDone) by (destruct Hpc as [Hpc|Hpc]; rewrite Hpc in Hpo; cbn in Hpo; naive_solver).
  eapply (custody_ok w (Comb i) (cur :: rest) cust log i c); cbn [pc node set_call set_calls set_last calls flag last value]; try done; rewrite ?fn_lookup_insert.
  - by eapply lookup_lt_Some.
  - destruct (decide (cur = i)) as [->|Hne]; [rewrite fn_lookup_insert|rewrite fn_lookup_insert_ne by done; destruct Hmine as [?|Hd]; [done|]].
    + assert (cc = c) as -> by congruence. split; [by rewrite Hns|]. rewrite Hpt. destruct Ht as [->|[s ->]]; by left.
    + split; [done|]. rewrite Hpt. destruct Ht as [->|[s ->]]; by right.
  - intros cx Hne Hcx. assert (cx = cc) as -> by congruence. split; rewrite Hns; [done|]. eapply wait_pc_ok; [|done|exact Hpok|by left|].
    + apply (passive _ _ _ _ _ cur cc Hinv Hcc); [naive_solver|by rewrite Hcur].
    + intros Hh. exfalso. eapply (wait_not_head log cur CRan); [|done|exact Hpok|exact Hh]. apply (passive _ _ _ _ _ cur cc Hinv Hcc); [naive_solver|by rewrite Hcur].
  - rewrite (v_flag _ _ _ _ _ Hinv). by destruct Hp as [(s & r & _ & _ & _ & ->)|(_ & _ & ->)].
  - by apply NoDup_cons in Hnd as [_ ?].
  - apply NoDup_cons in Hnd as [? _]. apply pop_members; [apply Hinv|done|done].
  - apply pop_chain with (calls w); [done| |apply Hinv]. intros a _. by apply nx_same with c.
  - right. unfold mine. auto 6.
  - intros o. by destruct Hp as [(s & r & -> & _ & _ & ->)|(-> & _ & ->)]; intros [= <-].
  - destruct Hp as [(s & r & -> & -> & Hsq & ->)|(-> & -> & ->)].
    + exists s. split_and!; [done| |by apply pc_at_new]. rewrite fn_lookup_insert_ne; [done|congruence].
    + split; [done|by apply pc_at_new].
  - intros y. rewrite Hpt. cbn. destruct (decide (y = cur)) as [->|Hne]; [by rewrite fn_lookup_insert|]. rewrite fn_lookup_insert_ne by done. rewrite <- (held_iff _ _ _ _ _ _ _ _ Hinv Hi).
    destruct Hpc as [-> | ->]; cbn; naive_solver.
  - naive_solver.
  - intros j _. by rewrite Hcur.
  - by rewrite Hpt.
  - intros k t' Heq. destruct Hpc; congruence.
Qed.

(** A call enters the queue. *)
Lemma attach_ok w own q cust log i c : inv_at w own q cust log -> calls w !! i = Some c -> pc c = KAttach ->
  exists w' cust', attach i c w = Ok w' /\ inv_at w' own (q ++ [i]) cust' log.
Proof.
  intros Hinv Hi Hpc. pose proof (lookup_lt_Some _ _ _ Hi) as Hl. destruct (v_calls _ _ _ _ _ Hinv _ _ Hi) as [Hn Hp]. rewrite Hpc in Hp. destruct Hp as [Hk Hlog].
  assert (Hiq : i ∉ q) by (rewrite (v_members _ _ _ _ _ Hinv), Hk; done). unfold attach. set (p := match last w with None => KSpin | Some previous => KLink previous end).
  set (k := match last w with None => CSpin | Some p => CLinking p end). eexists _, (<[i := k]> cust). split; [done|].
  assert (Hne : forall y, y <> i -> <[i := k]> cust y = cust y) by (intros y Hy; by apply fn_lookup_insert_ne).
  assert (Hh0 : held (pc c) = None) by by rewrite Hpc. assert (Hh : held p = None) by (unfold p; by destruct (last w)). assert (Hq : in_queue k = true) by (unfold k; by destruct (last w)).
  assert (Hkh : forall j, k <> CHeld j) by (intros j; unfold k; by destruct (last w)). assert (Hcl : claim i p = None) by (unfold p; by destruct (last w)).
  eapply (custody_ok w own q cust log i c); cbn [pc node set_call set_calls set_last calls flag last value]; try done; rewrite ?fn_lookup_insert.
  - unfold k, p. by destruct (last w); (split; [cbn; split_and!|]).
  - apply Hinv.
  - by rewrite last_snoc.
  - apply NoDup_app. split_and!; [apply Hinv| |apply NoDup_singleton]. by intros y Hy ->%list_elem_of_singleton.
  - intros y. rewrite elem_of_app, list_elem_of_singleton. destruct (decide (y = i)) as [->|Hy]; [rewrite fn_lookup_insert; naive_solver|]. rewrite Hne, <- (v_members _ _ _ _ _ Hinv) by done. naive_solver.
  - apply chain_snoc.
    + eapply chain_frame; [| |apply Hinv]; [intros a Ha; rewrite nx_insert, decide_False by (done || by intros ->); done|]. intros b Hb. apply Hne. intros ->. apply Hiq. destruct q; [done|by right].
    + by rewrite nx_insert, decide_True.
    + intros p'. rewrite <- (v_last _ _ _ _ _ Hinv), fn_lookup_insert. unfold k. by intros ->.
  - by left.
  - intros o Ho. cbn [pc] in Ho. congruence.
  - eapply (owner_frame i c w); [done|done|by rewrite Hpc|intros k' P Hk' _; by apply pc_at_insert|intros x Hx _; apply Hne; by intros ->|].
    intros ->. intros h [= <-]. rewrite fn_lookup_insert. unfold k. by rewrite (v_last _ _ _ _ _ Hinv).
  - cbn. rewrite Hh, <- Hh0. eapply upd_held; [done|done|done|by rewrite Hk].
  - intros j _. by rewrite Hk.
  - unfold p. by destruct (last w).
  - intros j t. by rewrite Hpc.
Qed.

(** A call returns; its node is gone. *)
Lemma combining_finish_ok w own q cust log i c : inv_at w own q cust log -> calls w !! i = Some c -> pc c = KFinish ->
  exists w' cust', finish i w = Ok w' /\ inv_at w' own q cust' log.
Proof.
  intros Hinv Hi Hpc. pose proof (lookup_lt_Some _ _ _ Hi) as Hl. destruct (v_calls _ _ _ _ _ Hinv _ _ Hi) as [Hn Hp]. rewrite Hpc in Hp. cbn in Hp.
  destruct (inv_node _ _ _ _ _ i Hinv) as (c1 & n & Hc1 & Hns & Hnok & Hpok); [congruence|]. simplify_eq. rewrite Hp in *. destruct Hnok as (Hs & r & Hr & Hlg).
  assert (Hiq : i ∉ q) by (rewrite (v_members _ _ _ _ _ Hinv), Hp; done). assert (Hne : forall y, y <> i -> <[i := CNone]> cust y = cust y) by (intros y Hy; by apply fn_lookup_insert_ne).
  assert (Hh0 : held (pc c) = None) by by rewrite Hpc. unfold finish. rewrite (with_node_eq i w c n) by done. rewrite Hr. eexists _, (<[i := CNone]> cust). split; [done|].
  eapply (custody_ok w own q cust log i c); cbn [pc node set_call set_calls set_last calls flag last value]; try done; rewrite ?fn_lookup_insert; try apply Hinv.
  - by split.
  - apply upd_members; [apply Hinv|by rewrite Hp].
  - eapply chain_frame; [| |apply Hinv]; [intros a Ha; rewrite nx_insert, decide_False by (done || by intros ->); done|]. intros b Hb. apply Hne. intros ->. apply Hiq. destruct q; [done|by right].
  - by left.
  - rewrite <- (app_nil_r q). eapply (owner_frame i c w); [done|done|by rewrite Hpc|intros k' P Hk' _; by apply pc_at_insert|intros x Hx _; apply Hne; by intros ->|done].
  - cbn. rewrite <- Hh0. eapply upd_held; [done|done|done|by rewrite Hp].
  - intros j _. by rewrite Hp.
  - intros j t. by rewrite Hpc.
Qed.

Lemma go_node i c p j cj n w : calls w !! i = Some c -> calls w !! j = Some cj ->
  go i p (set_node j cj n w) = set_calls (<[i := mkCall p (if decide (j = i) then Some n else node c)]> (<[j := mkCall (pc cj) (Some n)]> (calls w))) w.
Proof.
  intros Hi Hj. pose proof (lookup_lt_Some _ _ _ Hi) as Hl. unfold go, set_node, set_call, set_calls. cbn [calls flag last value]. case_decide as Hji.
  - subst j. by rewrite list_lookup_insert_eq.
  - by rewrite list_lookup_insert_ne, Hi by done.
Qed.

Lemma nx_twice (cs : list Call) i c p j cj n n' a : cs !! i = Some c -> cs !! j = Some cj -> node cj = Some n -> next n' = next n ->
  nx (<[i := mkCall p (if decide (j = i) then Some n' else node c)]> (<[j := mkCall (pc cj) (Some n')]> cs)) a = nx cs a.
Proof.
  intros Hi Hj Hn Hnx. pose proof (lookup_lt_Some _ _ _ Hi). pose proof (lookup_lt_Some _ _ _ Hj). rewrite nx_insert by by rewrite length_insert. rewrite nx_insert by done.
  unfold nx, next_of. cbn [node]. repeat case_decide; subst; try done; rewrite ?Hi, ?Hj, ?Hn; try done. by simplify_eq; rewrite Hn.
Qed.

(** A call that moves and changes one node and its custody. *)
Lemma touch_ok w own q cust log i c p cur cc n n' k w1 log' : inv_at w own q cust log -> calls w !! i = Some c -> calls w !! cur = Some cc -> node cc = Some n ->
  calls w1 = calls w -> last w1 = last w -> flag w1 = flag w -> value w1 = apply_log log' -> next n' = next n -> node_ok log' cur k (Some n') ->
  (cur <> i -> pc_ok log' cur k (pc cc) (Some (status n'))) -> (forall o, pc_ok log' i (<[cur := k]> cust i) p o) -> in_queue k = in_queue (cust cur) -> cur ∉ tail q -> claim i p = claim i (pc c) ->
  owner_ok own q (<[cur := k]> cust) (value w1) (calls (go i p (set_node cur cc n' w1))) -> (forall y, held p = Some y <-> <[cur := k]> cust y = CHeld i) ->
  (forall j, j <> i -> k <> CHeld j) -> (forall j, j <> i -> cust cur <> CHeld j) -> log' = log \/ cur ∉ log /\ log' = log ++ [cur] -> p <> KAsleep -> (forall k t, pc c <> KNotify k t) ->
  (status n' = status n \/ status n <> SLEEPING \/ exists t, p = KNotify cur t) -> inv_at (go i p (set_node cur cc n' w1)) own q (<[cur := k]> cust) log'.
Proof.
  intros Hinv Hi Hc Hn Hcs Hla Hfl Hval Hnx Hnok Hcok Hpok Hq Htail Hcl Hoo Hhe Hk Hck Hlog Hna Hno Hsl. pose proof (lookup_lt_Some _ _ _ Hi) as Hl. pose proof (lookup_lt_Some _ _ _ Hc) as Hlc.
  rewrite (go_node i c p cur cc n' w1) in * by by rewrite Hcs. set (c' := mkCall p (if decide (cur = i) then Some n' else node c)) in *. set (cc' := mkCall (pc cc) (Some n')) in *.
  apply (shift_ok i c c' cur cc cc' [i; cur] w own q cust log); [done|]. cbn [set_calls calls] in *. rewrite Hcs in *. split; cbn [set_calls calls flag last value]; rewrite ?Hla, ?Hfl; try done; try apply Hinv.
  - split_and!; [by left|right; by left|]. intros y [->|Hy]%elem_of_cons; [done|]. by apply list_elem_of_singleton in Hy as ->.
  - apply upd_frame. right. by left.
  - intros y x Hy Hx. apply lookup_twice in Hx as [[-> ->]|[(Hyi & -> & ->)|(Hyi & Hyc & _)]]; [|rewrite fn_lookup_insert; by split; [|apply Hcok]|by apply elem_of_cons in Hy as [?|?%list_elem_of_singleton]|done|done].
    split; [|apply Hpok]. unfold c'. cbn [node]. case_decide as Hci; [subst cur; by rewrite fn_lookup_insert|]. rewrite fn_lookup_insert_ne by done.
    pose proof (v_calls _ _ _ _ _ Hinv _ _ Hi) as Hold. destruct Hlog as [->|[_ ->]]; [apply Hold|]. apply (call_ok_log _ cur) in Hold; [apply Hold|done].
  - by apply upd_members; [apply Hinv|].
  - eapply chain_frame; [| |apply Hinv]; [intros a _; by eapply nx_twice|]. intros b Hb. apply fn_lookup_insert_ne. by intros ->.
  - by left.
  - intros o. cbn [c' pc]. rewrite Hcl. by apply (v_claim _ _ _ _ _ Hinv).
  - by apply upd_heldk.
  - destruct Hlog as [->|[? ->]]; [by left|right; exists cur; split_and!; [right; by left|done|done]].
  - split_and!; [done|done|]. cbn [cc' node c' pc]. rewrite Hn. cbn. intros Hs1 [= Hs2]. destruct Hsl as [Hs|[Hs|?]]; [congruence|done|done].
Qed.

Lemma stage_at w own q cust log i c cur : inv_at w own q cust log -> calls w !! i = Some c -> claim i (pc c) = Some (Comb i) -> carried (pc c) = Some cur ->
  own = Comb i /\ exists rest, q = cur :: rest /\ cur ∉ rest /\ stage_ok cust (value w) (pc c) cur rest /\ (cur = i \/ cust i = CDone).
Proof.
  intros Hinv Hi Hc Hcar. destruct (owner_stage _ _ _ _ _ _ _ Hinv Hi Hc) as (-> & x & rest & -> & Hs). split; [done|]. destruct (v_calls _ _ _ _ _ Hinv _ _ Hi) as [_ Hp].
  pose proof (v_nodup _ _ _ _ _ Hinv) as [Hx _]%NoDup_cons. assert (x = cur) as -> by (destruct (pc c); cbn in *; naive_solver). exists rest. split_and!; [done|done|done|].
  destruct (pc c) as [| | | | | | | | | | | | | | | | | | | | | | | |? []|? []| | |]; cbn in *; naive_solver.
Qed.

(** The node of the combiner's current caller, and that caller's state, after a change of custody. *)
Lemma current_waits w own q cust log i cur cc n k' log' st' : inv_at w own q cust log -> own <> Comb cur -> calls w !! cur = Some cc -> node cc = Some n ->
  match cust cur with CQueued | CReady | CTaken | CRan => True | CHeld j => j <> cur | _ => False end -> pc_ok log cur (cust cur) (pc cc) (Some (status n)) -> waits k' = true ->
  st' = status n \/ st' = DONE \/ st' = HEAD /\ k' = CGranted -> i <> cur -> pc_ok log' cur k' (pc cc) (Some st').
Proof.
  intros Hinv Hown Hc Hn Hk Hp Hk' Hst Hi. assert (Hw : wait_pc (pc cc) = true) by by apply (passive _ _ _ _ _ cur cc Hinv).
  assert (Hh : Some (status n) <> Some HEAD) by (eapply wait_not_head; [done| |exact Hp]; by destruct (cust cur)).
  assert (Hp' : pc_ok log cur k' (pc cc) (Some st')) by (eapply wait_pc_ok; [done|done|exact Hp| |]; destruct Hst as [->|[->|[-> ->]]]; auto; congruence). by destruct (pc cc).
Qed.

Lemma pc_at_go i c p j cj n w P : calls w !! i = Some c -> calls w !! j = Some cj -> P p -> pc_at (calls (go i p (set_node j cj n w))) i P.
Proof.
  intros Hi Hj HP. rewrite (go_node i c p j cj n w) by done. cbn. apply pc_at_new; [|done]. rewrite length_insert. by eapply lookup_lt_Some.
Qed.

(** An action starts. *)
Lemma invoke_ok w own q cust log i c cur : inv_at w own q cust log -> calls w !! i = Some c -> pc c = KInvoke cur ->
  exists w' cust', invoke i cur w = Ok w' /\ inv_at w' own q cust' log.
Proof.
  intros Hinv Hi Hpc. destruct (stage_at _ _ _ _ _ i c cur Hinv Hi) as (-> & rest & -> & Hnot & Hs & Hmine); [by rewrite Hpc..|]. rewrite Hpc in Hs. destruct Hs as [_ Hs].
  destruct (inv_node _ _ _ _ _ cur Hinv) as (cc & n & Hc & Hn & Hnok & Hpok); [congruence|]. pose proof Hnok as Hnok'. rewrite Hs in Hnok'. destruct Hnok' as (Hst & [Ha Hr] & Hlog).
  unfold invoke. rewrite (with_node_eq cur w cc n) by done. rewrite Ha. eexists _, (<[cur := CTaken]> cust). split; [done|].
  apply (touch_ok w (Comb i) (cur :: rest) cust log i c (KRun cur (value w)) cur cc n); try done; rewrite ?Hpc; try done.
  - apply Hinv.
  - intros Hne. eapply current_waits; try done; [naive_solver|by rewrite Hs|by left].
  - intros o. cbn. destruct Hmine as [->|Hd]; [by left|right]. rewrite fn_lookup_insert_ne; [done|congruence].
  - by rewrite Hs.
  - exists cur, rest. split; [done|]. apply (pc_at_go i c); [done|done|]. cbn. by rewrite fn_lookup_insert.
  - assert (Hnone : held (pc c) = None) by by rewrite Hpc. cbn. rewrite <- Hnone. eapply upd_held; [done|done|done|by rewrite Hs].
  - intros j _. by rewrite Hs.
  - by left.
  - by left.
Qed.

(** An action ends. *)
Lemma combining_run_ok w own q cust log i c cur v v' r : inv_at w own q cust log -> calls w !! i = Some c -> pc c = KRun cur v -> act cur v = Some (v', r) ->
  exists w' cust', with_node cur w (fun c n => Ok (go i (KNext cur) (set_node cur c (write_result r n) (set_value v' w)))) = Ok w' /\ inv_at w' own q cust' (log ++ [cur]).
Proof.
  intros Hinv Hi Hpc Hact. destruct (stage_at _ _ _ _ _ i c cur Hinv Hi) as (-> & rest & -> & Hnot & Hs & Hmine); [by rewrite Hpc..|]. rewrite Hpc in Hs. destruct Hs as (_ & Hs & ->).
  destruct (inv_node _ _ _ _ _ cur Hinv) as (cc & n & Hc & Hn & Hnok & Hpok); [congruence|]. pose proof Hnok as Hnok'. rewrite Hs in Hnok'. destruct Hnok' as (Hst & Ha & Hr & Hlog).
  rewrite (v_value _ _ _ _ _ Hinv) in Hact. rewrite (with_node_eq cur w cc n) by done. eexists _, (<[cur := CRan]> cust). split; [done|].
  apply (touch_ok w (Comb i) (cur :: rest) cust log i c (KNext cur) cur cc n); try done; rewrite ?Hpc; try done.
  - cbn. symmetry. by eapply apply_log_snoc.
  - split; [done|]. exists r. split; [done|by eapply logged_last].
  - intros Hne. eapply current_waits; try done; [naive_solver|by rewrite Hs|by left].
  - intros o. cbn. destruct Hmine as [->|Hd]; [by left|right]. rewrite fn_lookup_insert_ne; [done|congruence].
  - by rewrite Hs.
  - exists cur, rest. split; [done|]. apply (pc_at_go i c); [done|done|]. cbn. by rewrite fn_lookup_insert.
  - assert (Hnone : held (pc c) = None) by by rewrite Hpc. cbn. rewrite <- Hnone. eapply upd_held; [done|done|done|by rewrite Hs].
  - intros j _. by rewrite Hs.
  - by right.
  - by left.
Qed.

Lemma pc_at_others i c p j cj n w k P : calls w !! i = Some c -> calls w !! j = Some cj -> k <> i -> pc_at (calls w) k P -> pc_at (calls (go i p (set_node j cj n w))) k P.
Proof.
  intros Hi Hj Hk (x & Hx & Hp). rewrite (go_node i c p j cj n w) by done. cbn. destruct (decide (k = j)) as [->|Hkj].
  - exists (mkCall (pc cj) (Some n)). simplify_eq. rewrite list_lookup_insert_ne, list_lookup_insert_eq; [done|by eapply lookup_lt_Some|done].
  - exists x. by rewrite !list_lookup_insert_ne.
Qed.

(** A caller learns that its action has run. *)
Lemma complete_ok w own q cust log i c cur t : inv_at w own q cust log -> calls w !! i = Some c -> pc c = KComplete cur t ->
  exists w' cust', wake i cur DONE t w = Ok w' /\ inv_at w' own q cust' log.
Proof.
  intros Hinv Hi Hpc. pose proof (v_held _ _ _ _ _ Hinv _ _ cur Hi) as Hh. rewrite Hpc in Hh. specialize (Hh eq_refl).
  destruct (inv_node _ _ _ _ _ cur Hinv) as (cc & n & Hc & Hn & Hnok & Hpok); [congruence|]. pose proof Hnok as Hnok'. rewrite Hh in Hnok'. destruct Hnok' as (Hst & r & Hr & Hlog).
  assert (Hcq : cur ∉ q) by (rewrite (v_members _ _ _ _ _ Hinv), Hh; done). destruct (v_calls _ _ _ _ _ Hinv _ _ Hi) as [_ Hp]. rewrite Hpc in Hp.
  assert (Ht : (cur = i \/ cust i = CDone) /\ forall x, t <> TDone x) by (destruct t; cbn in Hp; naive_solver). destruct Ht as [Hmine Ht].
  assert (Hdone : <[cur := CDone]> cust i = CDone) by (destruct (decide (cur = i)) as [->|Hne]; [by rewrite fn_lookup_insert|rewrite fn_lookup_insert_ne by done; naive_solver]).
  unfold wake. rewrite (with_node_eq cur w cc n) by done. eexists _, (<[cur := CDone]> cust). split; [done|]. set (p := if decide (status n = SLEEPING) then KNotify cur t else after t).
  assert (Hp1 : claim i p = claim i (KComplete cur t) /\ held p = None /\ next_pc p = next_pc (KComplete cur t)) by (unfold p; case_decide; destruct t; naive_solver).
  destruct Hp1 as (Hp1 & Hp2 & Hp3). apply (touch_ok w own q cust log i c p cur cc n); try done; rewrite ?Hpc; try done.
  - apply Hinv.
  - by split; [|exists r].
  - intros Hne. apply (current_waits w own q cust log i cur cc n); try done; [|by rewrite Hh|by right; left]. intros ->. pose proof (v_owner _ _ _ _ _ Hinv) as (x & rest & Hq & c1 & Hc1 & Hs1). simplify_eq.
    assert (Hx : x = cur \/ cust cur = CDone); [|destruct Hx as [->|Hx]; [apply Hcq; by left|congruence]].
    destruct (pc cc) as [| | | | | | | | | | | | | | | | | | | | | | | |? []|? []| | |]; cbn in Hs1; try done; destruct Hs1 as [-> _]; cbn in Hpok; (destruct Hpok as [[= ->]|?]; auto).
  - intros o. rewrite Hdone. unfold p. case_decide; destruct t; cbn; try done; naive_solver.
  - by rewrite Hh.
  - intros Hx. apply Hcq. destruct q; [done|by right].
  - assert (Hcu : forall x, x ∈ q -> <[cur := CDone]> cust x = cust x) by (intros x Hx; apply fn_lookup_insert_ne; by intros ->).
    pose proof (v_owner _ _ _ _ _ Hinv) as Ho. pose proof (v_claim _ _ _ _ _ Hinv _ _ own Hi) as Hcl0. destruct (claim i (pc c)) as [o|] eqn:Hclm.
    + pose proof (v_claim _ _ _ _ _ Hinv _ _ o Hi Hclm) as <-. rewrite Hpc in Hclm. destruct t as [s| | |]; cbn in Hclm; simplify_eq; cbn [owner_ok] in *.
      * destruct Ho as (s' & Hh1 & Hs1 & c1 & Hc1 & Hn1). exists s'. split_and!; [done|rewrite Hcu; [done|destruct q; [done|]; injection Hh1 as ->; by left]|]. apply (pc_at_go i c); [done|done|]. simplify_eq. by rewrite Hp3, <- Hpc.
      * destruct Ho as [Hsp _]. split; [|by apply (pc_at_go i c)]. intros h Hh1. rewrite Hcu; [by apply Hsp|]. destruct q; [done|]. injection Hh1 as ->. by left.
    + rewrite <- (app_nil_r q). eapply (owner_frame i c w); [done|done|done| |auto|done]. intros k P Hk _. by apply (pc_at_others i c).
  - intros y. rewrite Hp2. destruct (decide (y = cur)) as [->|Hy]; [by rewrite fn_lookup_insert|]. rewrite fn_lookup_insert_ne by done. rewrite <- (held_iff _ _ _ _ _ _ _ _ Hinv Hi), Hpc. cbn. naive_solver.
  - intros j Hj. rewrite Hh. naive_solver.
  - by left.
  - unfold p. case_decide; [done|]. by destruct t.
  - right. unfold p. case_decide; [right; eauto|by left].
Qed.

(** The lock is handed to the successor. *)
Lemma grant_ok w own q cust log i c cur s : inv_at w own q cust log -> calls w !! i = Some c -> pc c = KGrant cur s ->
  exists w' own' q' cust', wake i s HEAD (TDone cur) w = Ok w' /\ inv_at w' own' q' cust' log.
Proof.
  intros Hinv Hi Hpc. destruct (stage_at _ _ _ _ _ i c cur Hinv Hi) as (-> & rest & -> & Hnot & Hs & Hmine); [by rewrite Hpc..|]. rewrite Hpc in Hs. destruct Hs as (_ & Hcur & Hhd & Hsq).
  destruct rest as [|x rest]; [done|]. injection Hhd as ->. assert (Hsc : s <> cur) by (intros ->; apply Hnot; by left). assert (Hsi : s <> i) by (intros ->; destruct Hmine; congruence).
  destruct (inv_node _ _ _ _ _ s Hinv) as (cs & n & Hc & Hn & Hnok & Hpok); [congruence|]. pose proof Hnok as Hnok'. rewrite Hsq in Hnok'. destruct Hnok' as (Hst & Hidle & Hlog).
  destruct (inv_node _ _ _ _ _ cur Hinv) as (cc & nc & Hcc & Hnc & Hnokc & Hpokc); [congruence|]. pose proof (v_nodup _ _ _ _ _ Hinv) as Hnd.
  unfold wake. rewrite (with_node_eq s w cs n) by done. set (p := if decide (status n = SLEEPING) then KNotify s (TDone cur) else after (TDone cur)).
  assert (Hp : claim i p = None /\ held p = Some cur /\ carried p = Some cur) by (unfold p; by case_decide). destruct Hp as (Hp1 & Hp2 & Hp3).
  set (cust' := <[cur := CHeld i]> (<[s := CGranted]> cust)). eexists _, Granted, (s :: rest), cust'. split; [done|].
  assert (Hne : forall y, y <> cur -> y <> s -> cust' y = cust y) by (intros y Hy1 Hy2; unfold cust'; by rewrite !fn_lookup_insert_ne).
  assert (Hcs : cust' s = CGranted) by (unfold cust'; by rewrite fn_lookup_insert_ne, fn_lookup_insert by done). assert (Hccur : cust' cur = CHeld i) by (unfold cust'; by rewrite fn_lookup_insert).
  pose proof (lookup_lt_Some _ _ _ Hi) as Hl. pose proof (lookup_lt_Some _ _ _ Hc) as Hls. pose proof (lookup_lt_Some _ _ _ Hcc) as Hlc.
  rewrite (go_node i c p s cs) by done. rewrite decide_False by done.
  apply (shift_ok i c (mkCall p (node c)) s cs (mkCall (pc cs) (Some (set_status HEAD n))) [i; s; cur] w (Comb i) (cur :: s :: rest) cust log); [done|].
  split; cbn [set_calls calls flag last value pc node]; try done.
  - split_and!; [by left|right; by left|]. intros y Hy. rewrite !elem_of_cons, elem_of_nil in Hy. naive_solver.
  - intros y Hy. rewrite !elem_of_cons in Hy. apply Hne; naive_solver.
  - intros y x Hy Hx. apply lookup_twice in Hx as [[-> ->]|[(Hyi & -> & ->)|(Hyi & Hys & Hx)]]; try done.
    + assert (Hpi : pc_ok log i (cust' i) p (status <$> node c)). { assert (Hm : carried p = Some i \/ cust' i = CDone) by (destruct (decide (cur = i)) as [->|Hci]; [by left|right; rewrite Hne by done; naive_solver]). unfold p in *. case_decide; done. }
      split; [|done]. destruct (decide (cur = i)) as [->|Hci]; [|rewrite Hne by done; apply (v_calls _ _ _ _ _ Hinv _ _ Hi)]. cbn. assert (cc = c) as -> by congruence. rewrite Hnc, Hccur. by rewrite Hcur in Hnokc.
    + rewrite Hcs. split; [done|]. cbn. apply (current_waits w (Comb i) (cur :: s :: rest) cust log i s cs n); try done; [congruence|by rewrite Hsq|auto].
    + assert (y = cur) as -> by (rewrite !elem_of_cons, elem_of_nil in Hy; naive_solver). rewrite Hccur. assert (x = cc) as -> by congruence. split; rewrite Hnc; [by rewrite Hcur in Hnokc|].
      apply (current_waits w (Comb i) (cur :: s :: rest) cust log i cur cc nc); try done; [congruence|by rewrite Hcur|by left].
  - apply Hinv.
  - rewrite (v_last _ _ _ _ _ Hinv). done.
  - by apply NoDup_cons in Hnd as [_ ?].
  - unfold cust'. apply NoDup_cons in Hnd as [? _]. apply pop_members; [|done|done]. apply upd_members; [apply Hinv|by rewrite Hsq].
  - destruct (v_chain _ _ _ _ _ Hinv) as [_ Hch]. eapply chain_frame; [| |exact Hch].
    + intros a _. pose proof (nx_twice (calls w) i c p s cs n (set_status HEAD n) a Hi Hc Hn eq_refl) as Hnx. by rewrite decide_False in Hnx by done.
    + cbn. intros b Hb. apply NoDup_cons in Hnd as [Hn1 [Hn2 _]%NoDup_cons]. apply Hne; intros ->; [apply Hn1; by right|done].
  - right. unfold mine. auto 6.
  - intros o Ho. congruence.
  - by exists s.
  - intros y. rewrite Hp2. split; [by intros [= <-]|]. intros Hy. destruct (decide (y = cur)) as [->|Hyc]; [done|]. destruct (decide (y = s)) as [->|Hys]; [congruence|]. rewrite Hne in Hy by done.
    apply (held_iff _ _ _ _ _ _ _ _ Hinv Hi) in Hy. rewrite Hpc in Hy. done.
  - intros y j Hj _. destruct (decide (y = cur)) as [->|Hyc]; [rewrite Hccur, Hcur; naive_solver|]. destruct (decide (y = s)) as [->|Hys]; [rewrite Hcs, Hsq; naive_solver|]. by rewrite Hne.
  - by left.
  - apply Hinv.
  - rewrite Hn. split_and!; [unfold p; by case_decide|intros j t; by rewrite Hpc|]. intros _ [= Hsl]. exists (TDone cur). unfold p. by rewrite decide_True.
Qed.

(** A caller links itself behind its predecessor. *)
Lemma link_ok w own q cust log i c p : inv_at w own q cust log -> calls w !! i = Some c -> pc c = KLink p ->
  exists w' cust', link i p w = Ok w' /\ inv_at w' own q cust' log.
Proof.
  intros Hinv Hi Hpc. destruct (v_calls _ _ _ _ _ Hinv _ _ Hi) as [Hni Hp]. rewrite Hpc in Hp. cbn in Hp. pose proof (linking_in_tail _ _ _ _ _ _ _ Hinv Hp) as Htl.
  destruct (chain_linking _ _ _ _ _ (v_chain _ _ _ _ _ Hinv) (v_nodup _ _ _ _ _ Hinv) Htl Hp) as [Hpq Hpi]. apply (v_members _ _ _ _ _ Hinv) in Hpq.
  destruct (inv_node _ _ _ _ _ p Hinv) as (cp & n & Hc & Hn & Hnok & Hpok); [by intros Hx; rewrite Hx in Hpq|]. pose proof (lookup_lt_Some _ _ _ Hi) as Hl. pose proof (lookup_lt_Some _ _ _ Hc) as Hlp.
  unfold link. rewrite (with_node_eq p w cp n) by done. set (n' := set_next (Some i) n). eexists _, (<[i := CQueued]> cust). split; [done|].
  assert (Hne : forall y, y <> i -> <[i := CQueued]> cust y = cust y) by (intros y Hy; by apply fn_lookup_insert_ne).
  assert (Hat : forall k P, k <> i -> (P KAsleep -> P KFutex) -> pc_at (calls w) k P -> pc_at (calls (go i (KWait 100) (set_node p cp n' w))) k P) by (intros k P Hk _; by apply (pc_at_others i c)).
  rewrite (go_node i c (KWait 100) p cp n' w) in * by done. rewrite decide_False in * by done. cbn [set_calls calls] in Hat.
  apply (shift_ok i c (mkCall (KWait 100) (node c)) p cp (mkCall (pc cp) (Some n')) [i; p] w own q cust log); [done|]. split; cbn [set_calls calls flag last value pc node]; try done; try apply Hinv.
  - split_and!; [by left|right; by left|]. intros y Hy. rewrite !elem_of_cons, elem_of_nil in Hy. naive_solver.
  - apply upd_frame. by left.
  - intros y x Hy Hx. apply lookup_twice in Hx as [[-> ->]|[(Hyi & -> & ->)|(Hyi & Hyp & _)]]; try done; [| |rewrite !elem_of_cons, elem_of_nil in Hy; naive_solver].
    + rewrite fn_lookup_insert. rewrite Hp in Hni. destruct (node c) as [ni|] eqn:Hnode; [|done]. destruct Hni as (Hs & Hidle & Hlog). split; cbn; rewrite ?Hnode, ?Hs; [by split_and!; [left|apply Hidle..|]|done].
    + rewrite Hne by done. split; [|done]. cbn. unfold node_ok in *. destruct (cust p); done.
  - apply upd_members; [apply Hinv|by rewrite Hp].
  - eapply (chain_link cust (calls w)); [apply Hinv|apply Hinv|done|done| |].
    + by rewrite nx_insert, decide_False, nx_insert, decide_True by (rewrite ?length_insert; done).
    + intros a Ha. rewrite nx_insert by by rewrite length_insert. case_decide as Hai; [subst; unfold nx; rewrite Hi; done|]. by rewrite nx_insert, decide_False.
  - by left.
  - rewrite <- (app_nil_r q). eapply (owner_frame i c w); [done|done|by rewrite Hpc|done| |by intros -> ?].
    intros x _ Hx. apply Hne. intros ->. by apply Hx in Hp.
  - assert (Hnone : held (pc c) = None) by by rewrite Hpc. cbn. rewrite <- Hnone. eapply upd_held; [done|done|done|by rewrite Hp].
  - apply upd_heldk; [done|]. intros j _. by rewrite Hp.
  - by left.
  - rewrite Hn. split_and!; [done|intros j t; by rewrite Hpc|]. cbn. done.
Qed.

(** A sleeper wakes, with or without reason. *)
Lemma wake_one_ok w own q cust log j : inv_at w own q cust log -> inv_at (wake_one j w) own q cust log.
Proof.
  intros Hinv. unfold wake_one. destruct (calls w !! j) as [c|] eqn:Hj; [|done]. unfold wake_call. destruct (decide (wait_pc (pc c) = true)) as [Hw|Hw].
  - destruct (v_calls _ _ _ _ _ Hinv _ _ Hj) as [Hn Hp]. assert (Hid : set_call j c w = w) by (unfold set_call, set_calls; rewrite list_insert_id by done; by destruct w).
    destruct (pc c) eqn:Hpc; try done; try (by rewrite Hid). apply combining_move_ok with c; [done|done|split; rewrite ?Hpc; try done|by rewrite Hpc|by rewrite Hpc].
  - assert (Hid : set_call j c w = w) by (unfold set_call, set_calls; rewrite list_insert_id by done; by destruct w). destruct (pc c); try (by rewrite Hid). done.
Qed.

Lemma wake_one_calls j w i c : calls w !! i = Some c -> pc c <> KAsleep -> calls (wake_one j w) !! i = Some c.
Proof.
  intros Hi Hp. unfold wake_one. destruct (calls w !! j) as [cj|] eqn:Hj; [|done]. cbn. destruct (decide (i = j)) as [->|Hne]; [|by rewrite list_lookup_insert_ne].
  simplify_eq. rewrite list_lookup_insert_eq by by eapply lookup_lt_Some. unfold wake_call. by destruct (pc c).
Qed.

Lemma notify_ok w own q cust log i c j t : inv_at w own q cust log -> calls w !! i = Some c -> pc c = KNotify j t -> inv_at (go i (after t) (wake_one j w)) own q cust log.
Proof.
  intros Hinv Hi Hpc. apply (wake_one_ok _ _ _ _ _ j) in Hinv. apply (wake_one_calls j) in Hi as Hi'; [|by rewrite Hpc]. rewrite (go_calls _ _ _ c) by done.
  pose proof (lookup_lt_Some _ _ _ Hi') as Hl. destruct (v_calls _ _ _ _ _ Hinv _ _ Hi') as [Hn Hp]. rewrite Hpc in Hp. apply (move_gen_ok _ _ _ _ _ i c); [done|done| | |].
  - split; cbn; rewrite ?Hpc; [done| |by destruct t|by destruct t|by destruct t]. split; [done|]. by destruct t.
  - intros j' t' cj Heq Hcj. rewrite Hpc in Heq. injection Heq as <- <-. unfold wake_one in Hcj. destruct (calls w !! j) as [cj0|] eqn:Hj0; [|congruence].
    cbn in Hcj. rewrite list_lookup_insert_eq in Hcj by by eapply lookup_lt_Some. injection Hcj as <-. unfold wake_call. by destruct (pc cj0) eqn:Hp0; rewrite ?Hp0.
  - intros Hcl. pose proof (v_owner _ _ _ _ _ Hinv) as Ho. destruct (claim i (pc c)) as [o|] eqn:Ho'; [|done]. pose proof (inv_own _ _ _ _ _ _ _ _ Hinv Hi' Ho') as ->. rewrite Hpc in Ho'.
    destruct t; cbn in Ho'; try done; injection Ho' as <-; cbn [owner_ok] in *.
    + destruct Ho as (s' & Hh & Hs & c1 & Hc1 & Hn1). exists s'. split_and!; [done|done|]. apply pc_at_new; [done|]. simplify_eq. by rewrite Hpc in Hn1.
    + destruct Ho as [Hsp _]. split; [done|]. by apply pc_at_new.
Qed.

Lemma pc_at_app (cs : list Call) c k P : pc_at cs k P -> pc_at (cs ++ [c]) k P.
Proof. intros (x & Hx & Hp). exists x. split; [by apply lookup_app_l_Some|done]. Qed.

Lemma nx_app (cs : list Call) c a : nx cs a <> None \/ (a < length cs)%nat -> nx (cs ++ [c]) a = nx cs a.
Proof.
  intros Ha. unfold nx in *. destruct (cs !! a) as [x|] eqn:Hx; [by rewrite (lookup_app_l_Some _ _ _ _ Hx)|]. destruct Ha as [?|Ha]; [done|]. apply lookup_ge_None in Hx. lia.
Qed.

(** A new call. *)
Lemma call_ok_new w own q cust log : inv_at w own q cust log -> inv_at (set_calls (calls w ++ [mkCall KStart None]) w) own q cust log.
Proof.
  intros Hinv. pose proof Hinv as [I1 I2 I3 I4 I5 I6 I7 I8 I9 I10 I11 I12 I13 I14]. set (cn := mkCall KStart None).
  assert (Hlook : forall i c, (calls w ++ [cn]) !! i = Some c -> calls w !! i = Some c \/ (calls w !! i = None /\ c = cn)).
  { intros i c Hc. apply lookup_app_Some in Hc as [?|[Hge Hc]]; [by left|right]. apply list_lookup_singleton_Some in Hc as [_ <-]. split; [by apply lookup_ge_None|done]. }
  split; cbn [set_calls calls flag last value]; try done.
  - eapply chain_frame; [|done|exact I5]. intros a Ha. apply nx_app. right. apply I4 in Ha. destruct (calls w !! a) eqn:Hc; [by eapply lookup_lt_Some|]. destruct (I9 _ Hc) as [Hk _]. by rewrite Hk in Ha.
  - intros i c o Hc. destruct (Hlook _ _ Hc) as [Hc'|[_ ->]]; [by apply I6|done].
  - destruct own; cbn [owner_ok] in *; try done.
    + destruct I7 as [? ?]. split; [done|by apply pc_at_app].
    + destruct I7 as (cur & rest & ? & ?). exists cur, rest. split; [done|by apply pc_at_app].
    + destruct I7 as (s & ? & ? & ?). exists s. split_and!; [done|done|by apply pc_at_app].
    + destruct I7 as [? ?]. split; [done|by apply pc_at_app].
  - intros i c Hc. destruct (Hlook _ _ Hc) as [Hc'|[Hn ->]]; [by apply I8|]. destruct (I9 _ Hn) as [-> ?]. by split.
  - intros i Hi. apply I9. apply lookup_ge_None in Hi. rewrite length_app in Hi. apply lookup_ge_None. lia.
  - intros i c j Hc. destruct (Hlook _ _ Hc) as [Hc'|[_ ->]]; [by apply I10|done].
  - intros i j Hj. by apply pc_at_app, I11.
  - intros i c Hc Ha Hs. destruct (Hlook _ _ Hc) as [Hc'|[_ ->]]; [|done]. destruct (I14 _ _ Hc' Ha Hs) as (k & t & Hk). exists k, t. by apply pc_at_app.
Qed.

(** *** Every step *)
Definition fine (log : list nat) (r : step_result) : Prop :=
  match r with Ok w => exists log', inv w log' /\ log `prefix_of` log' | Err Aborted => exists i v, act i v = None | Err Blocked => True | Panic => False end.

Lemma fine_same w own q cust log : inv_at w own q cust log -> fine log (Ok w).
Proof. intros Hinv. exists log. split; [by exists own, q, cust|done]. Qed.

Lemma fine_app w own q cust log x : inv_at w own q cust (log ++ [x]) -> fine log (Ok w).
Proof. intros Hinv. exists (log ++ [x]). split; [by exists own, q, cust|by apply prefix_app_r]. Qed.

Lemma set_flag_same w : flag w = true -> set_flag true w = w.
Proof. by destruct w; cbn; intros ->. Qed.

(** Steps of a caller whose node is its own to read. *)
Lemma own_node w own q cust log i c : inv_at w own q cust log -> calls w !! i = Some c -> wait_pc (pc c) || match pc c with KCheck => true | _ => false end = true -> exists n, node c = Some n.
Proof.
  intros Hinv Hi Hp. assert (Hk : cust i <> CNone) by (destruct (v_calls _ _ _ _ _ Hinv _ _ Hi) as [_ Hpo]; intros Hk; rewrite Hk in Hpo; destruct (pc c); cbn in *; try done; naive_solver).
  destruct (inv_node _ _ _ _ _ i Hinv Hk) as (c1 & n & Hc1 & Hn & _). simplify_eq. eauto.
Qed.

Lemma wait_step_ok w own q cust log i c : inv_at w own q cust log -> calls w !! i = Some c -> wait_pc (pc c) = true -> fine log (call_step i c w).
Proof.
  intros Hinv Hi Hw. destruct (own_node _ _ _ _ _ _ _ Hinv Hi) as [n Hn]; [by rewrite Hw|]. unfold call_step. destruct (pc c) as [| | | | | | | | |k| | | | | | | | | | | | | | | | | | |] eqn:Hpc; try done.
  - destruct k as [|k]; cbn [wait_spin]; [|rewrite (with_node_eq i w c n) by done]; eapply fine_same, quiet_ok; try done; rewrite Hpc, ?Hn; [done|]. case_decide; cbn; congruence.
  - unfold wait_sleep. rewrite (with_node_eq i w c n) by done. case_decide; eapply fine_same; [by eapply sleep_ok|]. eapply quiet_ok; [done|done|]. rewrite Hpc, Hn. cbn. congruence.
  - unfold futex_load. rewrite (with_node_eq i w c n) by done. eapply fine_same, quiet_ok; [done|done|]. rewrite Hpc, Hn. case_decide; cbn; congruence.
  - unfold futex_wait. rewrite (with_node_eq i w c n) by done. eapply fine_same, quiet_ok; [done|done|]. rewrite Hpc, Hn. case_decide; cbn; [congruence|done].
Qed.

Lemma check_step_ok w own q cust log i c : inv_at w own q cust log -> calls w !! i = Some c -> pc c = KCheck -> fine log (attach_check i w).
Proof.
  intros Hinv Hi Hpc. destruct (own_node _ _ _ _ _ _ _ Hinv Hi) as [n Hn]; [by rewrite Hpc|]. unfold attach_check. rewrite (with_node_eq i w c n) by done.
  case_decide as Hs; [eapply fine_same, quiet_ok; [done|done|]; rewrite Hpc, Hn; cbn; congruence|]. destruct (v_calls _ _ _ _ _ Hinv _ _ Hi) as [Hno Hp]. rewrite Hpc in Hp. rewrite Hn in Hno.
  assert (Hg : cust i = CGranted) by (destruct Hp as [?|Hd]; [done|]; by apply (status_done _ _ _ _ Hno) in Hd). destruct (at_head _ _ _ _ _ i Hinv) as [rest ->]; [by rewrite Hg..|].
  pose proof (head_owner _ _ _ _ _ _ Hinv) as Ho. rewrite Hg in Ho. subst own. rewrite (go_calls _ _ _ c) by done. eapply fine_same, become_ok; try done; [by right|by right|]. apply Hinv.
Qed.

(** Steps of the combiner. *)
Lemma stage_busy cust v p cur rest : stage_ok cust v p cur rest -> cust cur <> CNone.
Proof. intros Hs Hk. destruct p; cbn in Hs; try done; destruct Hs as [_ Hs]; rewrite Hk in Hs; try done; by destruct Hs. Qed.

Lemma comb_step_ok w own q cust log i c : inv_at w own q cust log -> calls w !! i = Some c -> claim i (pc c) = Some (Comb i) -> fine log (call_step i c w).
Proof.
  intros Hinv Hi Hcl. destruct (owner_stage _ _ _ _ _ _ _ Hinv Hi Hcl) as (-> & cur & rest & -> & Hst). unfold call_step.
  destruct (inv_node _ _ _ _ _ cur Hinv (stage_busy _ _ _ _ _ Hst)) as (cc & n & Hc & Hn & _ & _).
  assert (Hnx : nx (calls w) cur = next n) by (unfold nx; by rewrite Hc, Hn). destruct (v_chain _ _ _ _ _ Hinv) as [Hlink _]. rewrite Hnx in Hlink.
  destruct (pc c) as [| | | | | | | | | | | | | | | |x|x|x v|x|x|x|x|x s|? []|? []| | |] eqn:Hpc; try done; pose proof Hst as Hst'; destruct Hst' as [-> Hst'].
  - unfold prefetch. rewrite (with_node_eq cur w cc n) by done. eapply fine_same, comb_move; rewrite ?Hpc; try done.
  - destruct (invoke_ok _ _ _ _ _ i c cur Hinv Hi Hpc) as (w' & cust' & -> & Hinv'). by eapply fine_same.
  - unfold invoke_end. destruct (act cur v) as [[v' r]|] eqn:Ha; [|by exists cur, v]. destruct (combining_run_ok _ _ _ _ _ i c cur v v' r Hinv Hi Hpc Ha) as (w' & cust' & -> & Hinv'). by eapply fine_app.
  - unfold load_next. rewrite (with_node_eq cur w cc n) by done. destruct (next n) as [s|] eqn:Hnext; eapply fine_same; [|eapply comb_move; rewrite ?Hpc; done].
    destruct rest as [|b rest]; [done|]. destruct Hlink as [[_ ?]|[Hb [= <-]]]; [done|]. assert (Hw : w = set_last (list.last (s :: rest)) w).
    { rewrite <- (last_cons_cons cur s rest), <- (v_last _ _ _ _ _ Hinv). by destruct w. }
    rewrite Hw. eapply pop_ok; try done; [by left|left; by exists s, rest].
  - unfold close_queue. rewrite (v_last _ _ _ _ _ Hinv). case_decide as Hl.
    + assert (rest = []) as ->. { destruct rest as [|b rest]; [done|]. pose proof (v_nodup _ _ _ _ _ Hinv) as [Hnot _]%NoDup_cons. exfalso. apply Hnot. apply last_Some_elem_of. by rewrite last_cons_cons in Hl. }
      eapply fine_same, pop_ok; try done; [by right|by right].
    + eapply fine_same, comb_move; rewrite ?Hpc; try done. intros cur' rest' [= <- <-] [_ Hr]. split_and!; [done|done|]. intros ->. by apply Hl.
  - unfold stalled. rewrite (with_node_eq cur w cc n) by done. eapply fine_same, comb_move; rewrite ?Hpc; try done; [by destruct (next n)|by destruct (next n)|]. intros cur' rest' [= <- <-] Hs. destruct (next n) as [s|]; [|done].
    destruct Hst' as [Hr Hne]. destruct rest as [|b rest]; [done|]. destruct Hlink as [[_ ?]|[Hb [= <-]]]; [done|]. split_and!; [done|done|]. by exists s.
  - unfold successor. rewrite (with_node_eq cur w cc n) by done. destruct Hst' as (Hr & s & Hh & Hs). destruct rest as [|b rest]; [done|]. injection Hh as ->. destruct Hlink as [[Hs' _]|[_ Hnext]]; [congruence|]. rewrite Hnext.
    eapply fine_same, comb_move; rewrite ?Hpc; try done. intros cur' rest' [= <- <-] _. by split_and!.
  - destruct (grant_ok _ _ _ _ _ i c cur s Hinv Hi Hpc) as (w' & own' & q' & cust' & -> & Hinv'). by eapply fine_same.
Qed.

Lemma call_step_ok w own q cust log i c : inv_at w own q cust log -> calls w !! i = Some c -> fine log (call_step i c w).
Proof.
  intros Hinv Hi. destruct (wait_pc (pc c)) eqn:Hw; [by eapply wait_step_ok|]. destruct (decide (claim i (pc c) = Some (Comb i))) as [Hcl|Hcl]; [by eapply comb_step_ok|].
  unfold call_step. destruct (pc c) as [| | |v|r| | | |p| | | | | | |s| | | | | | | | |cur t|j t| | |] eqn:Hpc; try done.
  - eapply fine_same, quiet_ok; [done|done|]. rewrite Hpc. by destruct (last w).
  - unfold with_try. destruct (flag w) eqn:Hf; eapply fine_same; [|by eapply try_ok]. rewrite set_flag_same by done. eapply quiet_ok; [done|done|]. by rewrite Hpc.
  - by eapply fine_same, fast_start_ok.
  - unfold fast_run. destruct (act i v) as [[v' r]|] eqn:Ha; [|by exists i, v]. by eapply fine_app, fast_run_ok.
  - by eapply fine_same, fast_end_ok.
  - destruct (attach_ok _ _ _ _ _ i c Hinv Hi Hpc) as (w' & cust' & -> & Hinv'). by eapply fine_same.
  - destruct (v_calls _ _ _ _ _ Hinv _ _ Hi) as [_ Hp]. rewrite Hpc in Hp. unfold spin. destruct (flag w) eqn:Hf; eapply fine_same.
    + rewrite set_flag_same by done. eapply quiet_ok; [done|done|]. by rewrite Hpc.
    + rewrite (go_calls _ _ _ c) by done. eapply become_ok; try done; [left; split; [done|by eapply flag_free]|by left].
  - eapply fine_same, quiet_ok; [done|done|]. rewrite Hpc. by destruct (flag w).
  - destruct (link_ok _ _ _ _ _ i c p Hinv Hi Hpc) as (w' & cust' & -> & Hinv'). by eapply fine_same.
  - by eapply check_step_ok.
  - by eapply fine_same, loop_ok.
  - destruct (complete_ok _ _ _ _ _ i c cur t Hinv Hi Hpc) as (w' & cust' & -> & Hinv'). by eapply fine_same.
  - by eapply fine_same, notify_ok.
  - by eapply fine_same, combining_release_ok.
  - destruct (combining_finish_ok _ _ _ _ _ i c Hinv Hi Hpc) as (w' & cust' & -> & Hinv'). by eapply fine_same.
Qed.

Lemma combining_step_ok e w log : inv w log -> fine log (world_step e w).
Proof.
  intros (own & q & cust & Hinv). destruct e as [|i|i]; cbn [world_step].
  - by eapply fine_same, call_ok_new.
  - destruct (calls w !! i) as [c|] eqn:Hi; [by eapply call_step_ok|done].
  - by eapply fine_same, wake_one_ok.
Qed.

Lemma combining_world_run_ok es : forall w log, inv w log -> fine log (world_run es w).
Proof.
  induction es as [|e es IH]; intros w log Hinv; cbn [world_run]; [by exists log|]. pose proof (combining_step_ok e w log Hinv) as Hs.
  destruct (world_step e w) as [w'| |]; cbn in Hs |- *; [|done|done]. destruct Hs as (log1 & Hinv1 & Hp1). specialize (IH w' log1 Hinv1).
  destruct (world_run es w') as [w2| |]; [|done|done]. destruct IH as (log2 & Hinv2 & Hp2). exists log2. split; [done|by etrans].
Qed.

Lemma combining_inv_new : inv (combining_new v0) [].
Proof.
  exists Free, [], (fun _ => CNone). split; cbn; try done; [constructor|by intros i; split; [intros ?%not_elem_of_nil|]|by intros i; split; [|apply not_elem_of_nil]|constructor].
Qed.

(** *** Progress *)
Definition sleeps (o : option Node) : bool := match o with Some n => bool_decide (status n = SLEEPING) | None => false end.

(** What a call has left to do; an action that has not been completed counts for the call that will. *)
Definition left_pc (sl : bool) (p : Pc) : nat :=
  match p with
  | KStart => 199 | KTry => 198 | KAttach => 197 | KLink _ => 156 | KWait k => 55 + k | KSleep => 54
  | KFutex => if sl then 53 else 51 | KFutexWait => 52 | KAsleep => 51 | KCheck => 45
  | KSpinLoad => 42 | KSpin => 41 | KLoop _ => 41 | KPrefetch _ => 40 | KInvoke _ => 39 | KRun _ _ => 38 | KNext _ => 37
  | KTail _ => 36 | KStalled _ => 35 | KSuccessor _ => 34 | KGrant _ _ => 33
  | KComplete _ (TNext _) => 20 | KComplete _ TRelease => 13 | KComplete _ _ => 12
  | KNotify _ (TNext _) => 51 | KNotify _ TRelease => 12 | KNotify _ (TDone _) => 22 | KNotify _ TEnd => 11
  | KRelease => 2 | KFinish => 1 | KFast => 3 | KFastRun _ => 2 | KFastEnd _ => 1 | KReturned _ => 0
  end.
Definition left_node (o : option Node) : nat := match o with Some n => if decide (status n = DONE) then 0 else 40 | None => 0 end.
Definition left_of (c : Call) : nat := left_pc (sleeps (node c)) (pc c) + left_node (node c).
Definition work (w : World) : nat := sum_list_with left_of (calls w).

Lemma work_call i c c' w : calls w !! i = Some c -> work (set_call i c' w) + left_of c = work w + left_of c'.
Proof. intros Hi. by apply sum_with_insert. Qed.

Lemma work_go i c p w w1 : calls w !! i = Some c -> calls w1 = calls w -> left_pc (sleeps (node c)) p < left_pc (sleeps (node c)) (pc c) -> work (go i p w1) < work w.
Proof.
  intros Hi Hcs Hlt. rewrite (go_calls _ _ _ c) by by rewrite Hcs. pose proof (sum_with_insert left_of (calls w) i c (mkCall p (node c)) Hi) as Hs.
  unfold work. cbn. rewrite Hcs. unfold left_of in *. cbn in *. lia.
Qed.

Lemma left_pc_awake p b : left_pc false p <= left_pc b p.
Proof. destruct p, b; cbn; lia. Qed.

(** A step that changes a node, of the same call or of another one. *)
Lemma work_node i c p j cj n n' w w1 (d : nat) : calls w !! i = Some c -> calls w !! j = Some cj -> node cj = Some n -> calls w1 = calls w ->
  (status n' = status n \/ status n' <> SLEEPING) -> left_node (Some n') + d <= left_node (Some n) -> (forall sl, left_pc sl p < left_pc sl (pc c) + d) -> work (go i p (set_node j cj n' w1)) < work w.
Proof.
  intros Hi Hj Hn Hcs Hsl Hd Hp. rewrite (go_node i c p j cj n') by by rewrite Hcs. unfold work. cbn. rewrite Hcs.
  pose proof (sum_with_insert left_of (calls w) j cj (mkCall (pc cj) (Some n')) Hj) as H1. assert (Hb : forall q, left_pc (sleeps (Some n')) q <= left_pc (sleeps (Some n)) q).
  { intros q. destruct Hsl as [Hsl|Hsl]; [cbn; by rewrite Hsl|]. cbn. rewrite bool_decide_false by done. apply left_pc_awake. }
  assert (Hi' : <[j := mkCall (pc cj) (Some n')]> (calls w) !! i = Some (if decide (j = i) then mkCall (pc cj) (Some n') else c)).
  { case_decide as Hji; [subst; by apply list_lookup_insert_eq; eapply lookup_lt_Some|by rewrite list_lookup_insert_ne]. }
  pose proof (sum_with_insert left_of _ i _ (mkCall p (if decide (j = i) then Some n' else node c)) Hi') as H2. case_decide as Hji.
  - subst j. assert (cj = c) as -> by congruence. unfold left_of in *. cbn [pc node] in *. rewrite Hn in *. specialize (Hp (sleeps (Some n'))). specialize (Hb (pc c)). lia.
  - unfold left_of in *. cbn [pc node] in *. rewrite Hn in *. specialize (Hp (sleeps (node c))). specialize (Hb (pc cj)). lia.
Qed.

(** A step that is not a wait. *)
Definition effective (w : World) (c : Call) : Prop :=
  match pc c with
  | KAsleep | KReturned _ => False
  | KSpin | KSpinLoad => flag w = false
  | KStalled cur => nx (calls w) cur <> None
  | _ => True
  end.

Context (act_total : forall i v, act i v <> None).

Lemma go_less i c p w w1 : calls w !! i = Some c -> calls w1 = calls w -> (forall sl, left_pc sl p < left_pc sl (pc c)) -> work (go i p w1) < work w.
Proof. intros Hi Hcs Hp. by eapply work_go. Qed.

Lemma notify_less i c j t w : calls w !! i = Some c -> pc c = KNotify j t -> work (go i (after t) (wake_one j w)) < work w.
Proof.
  intros Hi Hpc. assert (Hw : work (wake_one j w) <= work w + 2).
  { unfold wake_one. destruct (calls w !! j) as [cj|] eqn:Hj; [|lia]. pose proof (work_call j cj (wake_call cj) w Hj) as Hw. unfold wake_call in *.
    destruct (pc cj) eqn:Hp; try lia. unfold left_of in Hw. cbn [pc node] in Hw. rewrite Hp in Hw. cbn [left_pc] in Hw. destruct (sleeps (node cj)); lia. }
  apply (wake_one_calls j) in Hi as Hi'; [|by rewrite Hpc]. rewrite (go_calls _ _ _ c) by done. pose proof (work_call i c (mkCall (after t) (node c)) _ Hi') as Hs. unfold left_of in Hs. cbn [pc node] in Hs. rewrite Hpc in Hs.
  destruct t; cbn [left_pc after] in *; lia.
Qed.

Lemma wake_less i c j cj n st t w (d : nat) : calls w !! i = Some c -> calls w !! j = Some cj -> node cj = Some n -> st <> SLEEPING -> left_node (Some (set_status st n)) + d <= left_node (Some n) ->
  (forall sl, left_pc sl (KNotify j t) < left_pc sl (pc c) + d) -> (forall sl, left_pc sl (after t) < left_pc sl (pc c) + d) -> exists w', wake i j st t w = Ok w' /\ work w' < work w.
Proof.
  intros Hi Hj Hn Hst Hd Hp1 Hp2. unfold wake. rewrite (with_node_eq j w cj n) by done. eexists. split; [done|]. eapply (work_node i c _ j cj n _ w w d); [done|done|done|done|by right|done|]. by case_decide.
Qed.

(** The steps of [wait] and of a call outside the lock. *)
Lemma outside_less w own q cust log i c : inv_at w own q cust log -> calls w !! i = Some c -> effective w c -> claim i (pc c) = None \/ claim i (pc c) = Some (Fast i) -> exists w', call_step i c w = Ok w' /\ work w' < work w.
Proof.
  intros Hinv Hi He Hcl. pose proof (call_step_ok _ _ _ _ _ _ _ Hinv Hi) as Hf. unfold call_step in *. unfold effective in He.
  destruct (pc c) as [| | |v|r| | | |p|k| | | | | | | | | | | | | | |cur [| | |]|j [| | |]| | |] eqn:Hpc; try done; try (by destruct Hcl).
  - eexists. split; [done|]. eapply go_less; [done|done|]. rewrite Hpc. by destruct (last w); cbn; lia.
  - eexists. split; [done|]. eapply go_less; [done|done|]. rewrite Hpc. by destruct (flag w); cbn; lia.
  - eexists. split; [done|]. eapply go_less; [done|done|]. rewrite Hpc. cbn; lia.
  - unfold fast_run in *. destruct (act i v) as [[v' r]|] eqn:Ha; [|by apply act_total in Ha]. eexists. split; [done|]. eapply go_less; [done|done|]. rewrite Hpc. cbn; lia.
  - eexists. split; [done|]. eapply go_less; [done|done|]. rewrite Hpc. cbn; lia.
  - eexists. split; [done|]. set (p := match last w with None => KSpin | Some p => KLink p end). pose proof (work_call i c (mkCall p (Some fresh_node)) w Hi) as Hs.
    change (work (set_call i (mkCall p (Some fresh_node)) w) < work w). unfold left_of in Hs. cbn [pc node] in Hs. rewrite Hpc in Hs.
    assert (Hp : forall sl, left_pc sl p <= 156) by (intros sl; unfold p; destruct (last w); cbn; lia). specialize (Hp (sleeps (Some fresh_node))).
    change (left_node (Some fresh_node)) with 40 in Hs. cbn [left_pc] in Hs. lia.
  - unfold spin. rewrite He. eexists. split; [done|]. eapply go_less; [done|done|]. rewrite Hpc. cbn; lia.
  - unfold spin_load. rewrite He. eexists. split; [done|]. eapply go_less; [done|done|]. rewrite Hpc. cbn; lia.
  - unfold link, with_node in *. destruct (calls w !! p) as [cp|] eqn:Hp; [|done]. destruct (node cp) as [n|] eqn:Hn; [|done]. eexists. split; [done|].
    eapply (work_node i c _ p cp n _ w w 0); try done; [by left|cbn; lia|]. intros sl. rewrite Hpc. cbn. lia.
  - destruct (own_node _ _ _ _ _ _ _ Hinv Hi) as [n Hn]; [by rewrite Hpc|]. destruct k as [|k]; cbn [wait_spin]; [|rewrite (with_node_eq i w c n) by done]; (eexists; split; [done|]; eapply go_less; [done|done|]; rewrite Hpc); [cbn; lia|]. case_decide; cbn; lia.
  - destruct (own_node _ _ _ _ _ _ _ Hinv Hi) as [n Hn]; [by rewrite Hpc|]. unfold wait_sleep. rewrite (with_node_eq i w c n) by done. case_decide as Hs; (eexists; split; [done|]); [|eapply go_less; [done|done|]; rewrite Hpc; cbn; lia].
    rewrite (go_node i c) by done. rewrite decide_True by done. unfold work. cbn. rewrite list_insert_insert_eq. pose proof (sum_with_insert left_of (calls w) i c (mkCall KFutex (Some (set_status SLEEPING n))) Hi) as H1.
    assert (Hl : left_node (Some n) = 40) by (unfold left_node; rewrite decide_False; congruence). unfold left_of at 2 4 in H1. cbn [pc node] in H1. rewrite Hpc, Hn, Hl in H1.
    change (left_node (Some (set_status SLEEPING n))) with 40 in H1. change (sleeps (Some (set_status SLEEPING n))) with true in H1. cbn [left_pc] in H1. lia.
  - destruct (own_node _ _ _ _ _ _ _ Hinv Hi) as [n Hn]; [by rewrite Hpc|]. unfold futex_load. rewrite (with_node_eq i w c n) by done. eexists. split; [done|]. eapply work_go; [done|done|]. rewrite Hpc, Hn. cbn. case_decide as Hs; [rewrite bool_decide_true by done|rewrite bool_decide_false by done]; cbn; lia.
  - destruct (own_node _ _ _ _ _ _ _ Hinv Hi) as [n Hn]; [by rewrite Hpc|]. unfold futex_wait. rewrite (with_node_eq i w c n) by done. eexists. split; [done|]. eapply work_go; [done|done|]. rewrite Hpc, Hn. cbn. case_decide as Hs; [rewrite bool_decide_true by done|rewrite bool_decide_false by done]; cbn; lia.
  - destruct (own_node _ _ _ _ _ _ _ Hinv Hi) as [n Hn]; [by rewrite Hpc|]. unfold attach_check. rewrite (with_node_eq i w c n) by done. eexists. split; [done|]. eapply go_less; [done|done|]. rewrite Hpc. case_decide; cbn; lia.
  - destruct (v_calls _ _ _ _ _ Hinv _ _ Hi) as [_ Hp]. rewrite Hpc in Hp. done.
  - pose proof (v_held _ _ _ _ _ Hinv _ _ cur Hi) as Hh. rewrite Hpc in Hh. specialize (Hh eq_refl). destruct (inv_node _ _ _ _ _ cur Hinv) as (cc & n & Hc & Hn & Hnok & _); [congruence|]. rewrite Hh in Hnok. destruct Hnok as [Hst _].
    eapply (wake_less i c cur cc n DONE TEnd w 40); try done; [cbn; rewrite decide_True, decide_False by done; lia|intros sl; rewrite Hpc; cbn; lia..].
  - eexists. split; [done|]. by eapply notify_less.
  - eexists. split; [done|]. by eapply notify_less.
  - unfold finish, with_node in *. rewrite Hi in *. destruct (node c) as [n|] eqn:Hn; [|done]. destruct (result n) as [r|]; [|done]. eexists. split; [done|].
    pose proof (work_call i c (mkCall (KReturned r) None) w Hi) as Hs. unfold left_of in Hs. cbn [pc node] in Hs. rewrite Hpc in Hs. cbn [left_pc left_node] in Hs. lia.
Qed.

(** The steps of the combiner. *)
Lemma holder_less w own q cust log i c : inv_at w own q cust log -> calls w !! i = Some c -> effective w c -> (exists o, claim i (pc c) = Some o) -> claim i (pc c) <> Some (Fast i) -> exists w', call_step i c w = Ok w' /\ work w' < work w.
Proof.
  intros Hinv Hi He [o Hcl] Hnf. pose proof (call_step_ok _ _ _ _ _ _ _ Hinv Hi) as Hf. unfold effective in He. unfold call_step in *.
  destruct (pc c) as [| | | | | | | | | | | | | | |s|x|x|x v|x|x|x|x|x s|cur [s| | |]|j [s| | |]| | |] eqn:Hpc; try done.
  - eexists. split; [done|]. eapply go_less; [done|done|]. rewrite Hpc. cbn; lia.
  - unfold prefetch, with_node in *. destruct (calls w !! x) as [cx|]; [|done]. destruct (node cx); [|done]. eexists. split; [done|]. eapply go_less; [done|done|]. rewrite Hpc. cbn; lia.
  - destruct (invoke_ok _ _ _ _ _ i c x Hinv Hi Hpc) as (w' & _ & Hl & _). rewrite Hl. exists w'. split; [done|]. unfold invoke, with_node in *. destruct (calls w !! x) as [cx|] eqn:Hx; [|done]. destruct (node cx) as [n|] eqn:Hn; [|done].
    destruct (action n); [|done]. injection Hl as <-. eapply (work_node i c _ x cx n _ w w 0); try done; [by left|cbn; lia|]. intros sl. rewrite Hpc. cbn. lia.
  - unfold invoke_end in *. destruct (act x v) as [[v' r]|] eqn:Ha; [|by apply act_total in Ha]. unfold with_node in *. destruct (calls w !! x) as [cx|] eqn:Hx; [|done]. destruct (node cx) as [n|] eqn:Hn; [|done]. eexists. split; [done|].
    eapply (work_node i c _ x cx n _ w (set_value v' w) 0); try done; [by left|cbn; lia|]. intros sl. rewrite Hpc. cbn. lia.
  - unfold load_next, with_node in *. destruct (calls w !! x) as [cx|]; [|done]. destruct (node cx) as [n|]; [|done]. eexists. split; [done|]. eapply go_less; [done|done|]. rewrite Hpc. destruct (next n); cbn; lia.
  - unfold close_queue in *. case_decide; (eexists; split; [done|]; eapply go_less; [done|done|]; rewrite Hpc; cbn; lia).
  - unfold nx in He. unfold stalled, with_node in *. destruct (calls w !! x) as [cx|]; [|done]. destruct (node cx) as [n|]; [|done]. destruct (next n); [|done]. eexists. split; [done|]. eapply go_less; [done|done|]. rewrite Hpc. cbn; lia.
  - unfold successor, with_node in *. destruct (calls w !! x) as [cx|]; [|done]. destruct (node cx) as [n|]; [|done]. destruct (next n); [|done]. eexists. split; [done|]. eapply go_less; [done|done|]. rewrite Hpc. cbn; lia.
  - destruct (stage_at _ _ _ _ _ i c x Hinv Hi) as (_ & rest & _ & _ & Hs & _); [by rewrite Hpc..|]. rewrite Hpc in Hs. destruct Hs as (_ & _ & _ & Hsq). destruct (inv_node _ _ _ _ _ s Hinv) as (cs & n & Hc & Hn & Hnok & _); [congruence|].
    rewrite Hsq in Hnok. destruct Hnok as [Hst _]. eapply (wake_less i c s cs n HEAD (TDone x) w 0); try done; [|intros sl; rewrite Hpc; cbn; lia..]. unfold left_node. rewrite !decide_False; [lia| |done]. destruct Hst; congruence.
  - pose proof (v_held _ _ _ _ _ Hinv _ _ cur Hi) as Hh. rewrite Hpc in Hh. specialize (Hh eq_refl). destruct (inv_node _ _ _ _ _ cur Hinv) as (cc & n & Hc & Hn & Hnok & _); [congruence|]. rewrite Hh in Hnok. destruct Hnok as [Hst _].
    eapply (wake_less i c cur cc n DONE (TNext s) w 40); try done; [cbn; rewrite decide_True, decide_False by done; lia|intros sl; rewrite Hpc; cbn; lia..].
  - pose proof (v_held _ _ _ _ _ Hinv _ _ cur Hi) as Hh. rewrite Hpc in Hh. specialize (Hh eq_refl). destruct (inv_node _ _ _ _ _ cur Hinv) as (cc & n & Hc & Hn & Hnok & _); [congruence|]. rewrite Hh in Hnok. destruct Hnok as [Hst _].
    eapply (wake_less i c cur cc n DONE TRelease w 40); try done; [cbn; rewrite decide_True, decide_False by done; lia|intros sl; rewrite Hpc; cbn; lia..].
  - eexists. split; [done|]. by eapply notify_less.
  - eexists. split; [done|]. by eapply notify_less.
  - eexists. split; [done|]. eapply go_less; [done|done|]. rewrite Hpc. cbn; lia.
Qed.

Lemma effective_less w own q cust log i c : inv_at w own q cust log -> calls w !! i = Some c -> effective w c -> exists w', world_step (EStep i) w = Ok w' /\ work w' < work w.
Proof.
  intros Hinv Hi He. cbn [world_step]. rewrite Hi. destruct (decide (claim i (pc c) = Some (Fast i))) as [Hf|Hf]; [eapply outside_less; eauto|].
  destruct (claim i (pc c)) as [o|] eqn:Hc; [eapply holder_less; [done..|by exists o|by rewrite Hc]|eapply outside_less; eauto].
Qed.

Definition some_effective (w : World) : Prop := exists i c, calls w !! i = Some c /\ effective w c.

Lemma sleeper_woken w own q cust log i c : inv_at w own q cust log -> calls w !! i = Some c -> pc c = KAsleep -> status <$> node c <> Some SLEEPING -> some_effective w.
Proof. intros Hinv Hi Hp Hs. destruct (v_asleep _ _ _ _ _ Hinv _ _ Hi Hp Hs) as (k & t & ck & Hck & Hpk). exists k, ck. split; [done|]. unfold effective. by rewrite Hpk. Qed.

(** What the call of a node in a given place does. *)
Lemma granted_effective w own q cust log h : inv_at w own q cust log -> cust h = CGranted -> some_effective w.
Proof.
  intros Hinv Hg. destruct (inv_node _ _ _ _ _ h Hinv) as (c & n & Hc & Hn & Hnok & Hpok); [congruence|]. rewrite Hg in *. destruct Hnok as [Hst _].
  assert (Hw : pc c = KAsleep \/ effective w c).
  { unfold effective. destruct (pc c) as [| | | | | | | | | | | | | | | | | | | | | | | |? []|? []| | |] eqn:Hp; cbn in Hpok; auto; try naive_solver.
    destruct Hpok as [[= ->]|]; [|done]. pose proof (v_claim _ _ _ _ _ Hinv _ _ (Comb h) Hc) as Hcl. rewrite Hp in Hcl. specialize (Hcl eq_refl). subst own. destruct (v_owner _ _ _ _ _ Hinv) as (cur & rest & -> & c1 & Hc1 & Hs).
    assert (c1 = c) as -> by congruence. rewrite Hp in Hs. destruct Hs as (-> & Hr & _). congruence. }
  destruct Hw as [Hw|Hw]; [|by exists h, c]. apply (sleeper_woken _ _ _ _ _ h c Hinv); [done|done|]. rewrite Hn. cbn. congruence.
Qed.

Lemma linking_effective w own q cust log b p : inv_at w own q cust log -> cust b = CLinking p -> b ∈ tail q -> some_effective w.
Proof.
  intros Hinv Hb Hin. destruct (inv_node _ _ _ _ _ b Hinv) as (c & n & Hc & Hn & Hnok & Hpok); [congruence|]. exists b, c. split; [done|]. rewrite Hb in Hpok. unfold effective.
  destruct (pc c) as [| | | | | | | | | | | | | | | | | | | | | | | |? []|? []| | |] eqn:Hp; cbn in Hpok; try done; try naive_solver. exfalso.
  destruct Hpok as [[= ->]|]; [|done]. pose proof (v_claim _ _ _ _ _ Hinv _ _ (Comb b) Hc) as Hcl. rewrite Hp in Hcl. specialize (Hcl eq_refl). subst own. destruct (v_owner _ _ _ _ _ Hinv) as (cur & rest & -> & c1 & Hc1 & Hs).
  assert (c1 = c) as -> by congruence. rewrite Hp in Hs. destruct Hs as (-> & Hr & _). congruence.
Qed.

Lemma progress w own q cust log i c : inv_at w own q cust log -> calls w !! i = Some c -> (forall r, pc c <> KReturned r) -> some_effective w.
Proof.
  intros Hinv Hi Hr. pose proof (v_owner _ _ _ _ _ Hinv) as Ho. destruct own as [|k|k|k|k|]; cbn [owner_ok] in Ho.
  - assert (Hf : flag w = false) by apply (v_flag _ _ _ _ _ Hinv). assert (Hhead : forall h, head q = Some h -> some_effective w).
    { intros h Hh. apply Ho in Hh. destruct (inv_node _ _ _ _ _ h Hinv) as (ch & n & Hc & Hn & _ & Hpok); [congruence|]. exists h, ch. split; [done|]. rewrite Hh in Hpok. unfold effective.
      destruct (pc ch) as [| | | | | | | | | | | | | | | | | | | | | | | |? []|? []| | |] eqn:Hp; cbn in Hpok; try done; try naive_solver. pose proof (v_claim _ _ _ _ _ Hinv _ _ (Comb h) Hc) as Hcl. rewrite Hp in Hcl. by specialize (Hcl eq_refl). }
    destruct (decide (wait_pc (pc c) = true)) as [Hw|Hw].
    + destruct (own_node _ _ _ _ _ _ _ Hinv Hi) as [n Hn]; [by rewrite Hw|]. destruct (pc c) eqn:Hp; try done; try (exists i, c; split; [done|]; unfold effective; by rewrite Hp).
      destruct (decide (status n = SLEEPING)) as [Hs|Hs]; [|apply (sleeper_woken _ _ _ _ _ i c Hinv); [done|done|rewrite Hn; cbn; congruence]].
      destruct (v_calls _ _ _ _ _ Hinv _ _ Hi) as [Hnok _]. rewrite Hn in Hnok. destruct (in_queue (cust i)) eqn:Hq.
      * apply (v_members _ _ _ _ _ Hinv) in Hq. destruct q as [|h q]; [by apply not_elem_of_nil in Hq|]. by apply (Hhead h).
      * destruct (cust i) as [| | | | | | | |k|] eqn:Hk; try done; [|destruct Hnok as [? _]; congruence]. destruct (v_holder _ _ _ _ _ Hinv _ _ Hk) as (ck & Hck & Hhk). exists k, ck. split; [done|]. unfold effective. destruct (pc ck); done.
    + exists i, c. split; [done|]. unfold effective. destruct (pc c) eqn:Hp; try done; [|by eapply Hr]. pose proof (v_claim _ _ _ _ _ Hinv _ _ (Comb i) Hi) as Hcl. rewrite Hp in Hcl. by specialize (Hcl eq_refl).
  - destruct Ho as [_ (ck & Hck & Hp)]. exists k, ck. split; [done|]. unfold effective. by destruct (pc ck).
  - destruct Ho as (cur & rest & -> & ck & Hck & Hs). destruct (pc ck) eqn:Hp; cbn in Hs; try done; try (exists k, ck; split; [done|]; unfold effective; by rewrite Hp).
    destruct Hs as (-> & _ & Hne). destruct rest as [|b rest]; [done|]. destruct (v_chain _ _ _ _ _ Hinv) as [Hl _]. destruct Hl as [[Hb _]|[_ Hnx]].
    + apply (linking_effective _ _ _ _ _ b cur Hinv Hb). by left.
    + exists k, ck. split; [done|]. unfold effective. by rewrite Hp, Hnx.
  - destruct Ho as (s & _ & _ & ck & Hck & Hp). exists k, ck. split; [done|]. unfold effective. by destruct (pc ck).
  - destruct Ho as [_ (ck & Hck & Hp)]. exists k, ck. split; [done|]. unfold effective. by destruct (pc ck).
  - destruct Ho as (h & _ & Hg). by eapply granted_effective.
Qed.

(** *** Theorems *)
Definition returned (w : World) (i : nat) (r : R) : Prop := exists c, calls w !! i = Some c /\ pc c = KReturned r.

Definition runs (w : World) (i : nat) : Prop := exists c, calls w !! i = Some c /\ match pc c with KFastRun _ | KRun _ _ => True | _ => False end.

(** The calls took effect one after the other, in the order of [log]. *)
Record linear (w : World) (log : list nat) : Prop := {
  li_once : NoDup log;
  li_value : value w = apply_log log;
  li_results i r : returned w i r -> logged log i r;
  li_calls i : i ∈ log -> (i < length (calls w))%nat }.

Lemma inv_linear w log : inv w log -> linear w log.
Proof.
  intros (own & q & cust & Hinv). split; [apply Hinv|apply Hinv| |].
  - intros i r (c & Hi & Hp). destruct (v_calls _ _ _ _ _ Hinv _ _ Hi) as [_ Hok]. rewrite Hp in Hok. apply Hok.
  - intros i Hin. destruct (calls w !! i) as [c|] eqn:Hi; [by eapply lookup_lt_Some|]. by destruct (v_fresh _ _ _ _ _ Hinv _ Hi).
Qed.

Lemma runs_alone w log i j : inv w log -> runs w i -> runs w j -> i = j.
Proof.
  intros (own & q & cust & Hinv) (ci & Hi & Hpi) (cj & Hj & Hpj). pose proof (v_claim _ _ _ _ _ Hinv _ _ own Hi) as Hci. pose proof (v_claim _ _ _ _ _ Hinv _ _ own Hj) as Hcj.
  assert (Ho : forall k p, match p with KFastRun _ | KRun _ _ => True | _ => False end -> claim k p = Some (Fast k) \/ claim k p = Some (Comb k)) by (intros k []; cbn; auto; done).
  destruct (Ho i _ Hpi) as [H1|H1], (Ho j _ Hpj) as [H2|H2]; pose proof (v_claim _ _ _ _ _ Hinv _ _ _ Hi H1); pose proof (v_claim _ _ _ _ _ Hinv _ _ _ Hj H2); congruence.
Qed.

(** C14. The combining lock makes concurrent calls atomic: whatever the interleaving, there is one order of
    the calls in which every action ran exactly once, on the value its predecessors left; every call
    that has returned has the result of its action in that order; and the order only grows, so that a
    call that returned before another one began comes first. *)
Theorem combining_linearizable es1 es2 w1 w2 : world_run es1 (combining_new v0) = Ok w1 -> world_run es2 w1 = Ok w2 ->
  exists log1 log2, log1 `prefix_of` log2 /\ linear w1 log1 /\ linear w2 log2.
Proof.
  intros H1 H2. pose proof (combining_world_run_ok es1 _ _ combining_inv_new) as Hf. rewrite H1 in Hf. destruct Hf as (log1 & Hinv1 & _).
  pose proof (combining_world_run_ok es2 _ _ Hinv1) as Hf. rewrite H2 in Hf. destruct Hf as (log2 & Hinv2 & Hp). exists log1, log2. split_and!; [done|by apply inv_linear|by apply inv_linear].
Qed.

(** C15. In every interleaving, the lock never touches the stack node of a call that has returned, never reads a
    result that was not written or a link that is not there, and never takes an action twice; at most one
    action runs at any time; and the process is aborted only when an action itself panics. *)
Theorem combining_is_safe es : match world_run es (combining_new v0) with
  | Ok w => forall i j, runs w i -> runs w j -> i = j
  | Err Aborted => exists i v, act i v = None
  | Err Blocked => True
  | Panic => False
  end.
Proof.
  pose proof (combining_world_run_ok es _ _ combining_inv_new) as Hf. destruct (world_run es _) as [w|[]|]; [|done..]. destruct Hf as (log & Hinv & _). intros i j. by eapply runs_alone.
Qed.

Lemma reach_end n : forall w log, work w <= n -> inv w log -> exists es w', world_run (EStep <$> es) w = Ok w' /\ forall i c, calls w' !! i = Some c -> exists r, pc c = KReturned r.
Proof.
  induction n as [n IH] using lt_wf_ind. intros w log Hn (own & q & cust & Hinv).
  destruct (decide (Forall (fun c => match pc c with KReturned _ => true | _ => false end = true) (calls w))) as [Hall|Hsome].
  - exists [], w. split; [done|]. intros i c Hi. apply (Forall_lookup_1 _ _ _ _ Hall) in Hi. destruct (pc c); try done. eauto.
  - apply not_Forall_Exists in Hsome; [|apply _]. apply Exists_exists in Hsome as (c & Hin & Hc). apply list_elem_of_lookup in Hin as [i Hi].
    destruct (progress _ _ _ _ _ i c Hinv Hi) as (k & ck & Hk & He); [intros r Hr; apply Hc; by rewrite Hr|]. destruct (effective_less _ _ _ _ _ k ck Hinv Hk He) as (w1 & Hs & Hlt).
    pose proof (combining_step_ok (EStep k) w log (ex_intro _ own (ex_intro _ q (ex_intro _ cust Hinv)))) as Hf. rewrite Hs in Hf. destruct Hf as (log1 & Hinv1 & _).
    destruct (IH (work w1) ltac:(lia) w1 log1 ltac:(lia) Hinv1) as (es & w' & Hrun & Hend). exists (k :: es), w'. split; [|done]. cbn [fmap list_fmap world_run]. by rewrite Hs.
Qed.

Lemma go_length i p w : length (calls (go i p w)) = length (calls w).
Proof. unfold go. destruct (calls w !! i); [apply length_insert|done]. Qed.

Lemma with_node_length j w f w' : with_node j w f = Ok w' -> (forall c n, f c n = Ok w' -> length (calls w') = length (calls w)) -> length (calls w') = length (calls w).
Proof. unfold with_node. destruct (calls w !! j) as [c|]; [|done]. destruct (node c) as [n|]; [|done]. eauto. Qed.

Lemma step_length i w w' : world_step (EStep i) w = Ok w' -> length (calls w') = length (calls w).
Proof.
  cbn [world_step]. destruct (calls w !! i) as [c|]; [|done].
  assert (Hgo : forall p w1, length (calls w1) = length (calls w) -> Ok (go i p w1) = Ok (E:=Stop) w' -> length (calls w') = length (calls w)) by (intros p w1 Hl [= <-]; by rewrite go_length).
  assert (Hn : forall j cj n w1, length (calls w1) = length (calls w) -> length (calls (set_node j cj n w1)) = length (calls w)) by (intros j cj n w1 Hl; cbn; by rewrite length_insert).
  unfold call_step, with_start, with_try, fast_run, spin, spin_load, link, wait_sleep, futex_load, futex_wait, attach_check, prefetch, invoke, invoke_end, load_next, close_queue, stalled, successor, wake, finish.
  destruct (pc c) as [| | |v| | | | | |k| | | | | | | | |cur v|cur|cur| | | | |j t| | |]; try done; try (by eapply Hgo); try (intros Hw; eapply with_node_length; [exact Hw|]; clear Hw; intros cx n; cbn beta; try (by eapply Hgo, Hn); try (by eapply Hgo)).
  - destruct (act i v) as [[]|]; [by eapply Hgo|done].
  - unfold attach. intros [= <-]. cbn. apply length_insert.
  - destruct k; cbn [wait_spin]; [by eapply Hgo|]. intros Hw. eapply with_node_length; [exact Hw|]. clear Hw. intros cx n. cbn beta. by eapply Hgo.
  - case_decide; [by eapply Hgo, Hn|by eapply Hgo].
  - destruct (action n); [by eapply Hgo, Hn|done].
  - destruct (act cur v) as [[]|]; [|done]. intros Hw. eapply with_node_length; [exact Hw|]. clear Hw. intros cx n. cbn beta. by eapply Hgo, Hn.
  - case_decide; by eapply Hgo.
  - destruct (next n); [by eapply Hgo|done].
  - intros [= <-]. rewrite go_length. unfold wake_one. destruct (calls w !! j); [apply length_insert|done].
  - destruct (result n); [|done]. intros [= <-]. apply length_insert.
Qed.

Lemma run_length sched : forall w w', world_run (EStep <$> sched) w = Ok w' -> length (calls w') = length (calls w).
Proof.
  induction sched as [|i sched IH]; intros w w'; cbn [fmap list_fmap world_run]; [by intros [= <-]|]. destruct (world_step (EStep i) w) as [w1| |] eqn:Hs; [|done..].
  intros Hr. by rewrite (IH _ _ Hr), (step_length _ _ _ Hs).
Qed.

(** C16. No deadlock and no lost wake-up: when actions do not panic, from every state that can be reached the
    calls that are under way can all return, by steps of their own (sleepers are woken by the
    callers that owe it to them, never for no reason). *)
Theorem combining_calls_return es w : world_run es (combining_new v0) = Ok w ->
  exists sched w', world_run (EStep <$> sched) w = Ok w' /\ length (calls w') = length (calls w) /\ forall i, (i < length (calls w))%nat -> exists r, returned w' i r.
Proof.
  intros Hr. pose proof (combining_world_run_ok es _ _ combining_inv_new) as Hf. rewrite Hr in Hf. destruct Hf as (log & Hinv & _).
  destruct (reach_end (work w) w log ltac:(lia) Hinv) as (sched & w' & Hrun & Hend). exists sched, w'. split; [done|]. pose proof (run_length sched w w' Hrun) as Hlen. split; [done|].
  intros i Hi. rewrite <- Hlen in Hi. apply lookup_lt_is_Some in Hi as [c Hc]. destruct (Hend _ _ Hc) as [r Hp]. exists r, c. done.
Qed.

End machine.

(** ** Concrete runs *)

(** The action of the crate's own test: it returns the counter and counts. *)
Definition count (i : nat) (v : Z) : option (Z * Z) := Some ((v + 1)%Z, v).

(** Call 0 has the lock on the fast path while call 1 spins and call 2 waits behind it; then call 1 also
    runs the action of call 2. *)
Definition contended : list Event := [ECall; ECall; ECall] ++ (EStep <$> [0; 0; 1; 1; 1; 2; 2; 2; 2; 0; 0]).
Definition combined : list Event := EStep <$> [0] ++ replicate 15 1 ++ [2; 2; 2].

Definition state_of (o : outcome Stop (World (T:=Z) (R:=Z))) : World := match o with Ok w => w | _ => combining_new 0%Z end.
Definition contended_state : World := state_of (world_run count contended (combining_new 0%Z)).
Definition combined_state : World := state_of (world_run count combined contended_state).

Example combined_results : value combined_state = 3%Z /\ pc <$> calls combined_state = [KReturned 0%Z; KReturned 1%Z; KReturned 2%Z].
Proof. vm_compute. done. Qed.

Lemma combining_linearizable_witness : exists log1 log2, log1 `prefix_of` log2 /\ linear count 0%Z contended_state log1 /\ linear count 0%Z combined_state log2.
Proof. apply (combining_linearizable count 0%Z contended combined); vm_compute; reflexivity. Defined.

Lemma combining_calls_return_witness : exists sched w', world_run count (EStep <$> sched) contended_state = Ok w' /\ length (calls w') = length (calls contended_state)
  /\ forall i, (i < length (calls contended_state))%nat -> exists r, returned w' i r.
Proof. apply (combining_calls_return count 0%Z) with contended; [done|vm_compute; reflexivity]. Defined.
