(* ===== verification/Backend.v ===== *)
(** * [rallocator]: the backend

    [src/crates/rallocator/src/backend.rs]: a global range of reserved memory, of which the blocks in the
    cache are not committed, and per owner a local range of committed blocks and a range of small
    blocks for metadata.  Memory comes from the operating system in growing reservations ([hal]), goes
    from the global to the local ranges and from these to the metadata, and comes back as blocks
    that have merged.

    The ranges are the buddies of [Buddy]; the page map and the committed memory are the two node storages of
    [Pagemap].  The combining lock around the global range runs its actions one after the other
    ([Combining]), so an operation of an owner is a sequence of such actions; operations of different
    owners are modelled in any order, one after the other. *)
From S2P Require Import Prelude ByteSpan StdTime Llrb Pagemap Buddy Classes.
Open Scope Z_scope.

Definition LOCAL_BITS : nat := 21.
Definition GLOBAL_REFILL : Z := Z.shiftl 1 24.
Definition RESERVE_MIN : Z := 65536.

(** What the operating system answers during one operation: the address of a new reservation of a size or 0,
    whether the page map could be committed, whether memory could be, and whether memory was taken back. *)
Record Os : Type := mkOs { os_reserve : Z -> Z; os_register : bool; os_commit : bool; os_decommit : Z -> bool }.

Record Global : Type := mkGlobal { g_map : bool; g_ranges : Buddy; g_requested : Z }.

(** The shared memory: the page map, the words of committed memory, the global range, and the
    operating system's list of reservations. *)
Record Mem : Type := mkMem { m_map : Map; m_words : Inline; m_global : Global; m_reserved : list (Z * Z) }.

Record Local : Type := mkLocal { l_ranges : Buddy; l_metadata : Buddy; l_requested : Z }.

Definition global_new : Global := mkGlobal false (buddy_new 14 63) 0.
Definition mem_new : Mem := mkMem (mkMap ∅) (mkInline ∅) global_new [].
Definition local_new : Local := mkLocal (buddy_new 14 LOCAL_BITS) (buddy_new 4 14) 0.

(** *** Integers *)
Fixpoint pos_trailing_zeros (p : positive) : nat := match p with xO p => S (pos_trailing_zeros p) | _ => O end.
Definition trailing_zeros (x : Z) : nat := match x with Zpos p => pos_trailing_zeros p | _ => 64%nat end.
Definition is_power_of_two (x : Z) : bool := (0 <? x) && (x =? 2 ^ Z.log2 x).

(** [a + b] of [usize]. *)
Definition usize_add (a b : Z) : result Z := expect (checked_add a b).

(** *** The operating system *)

(** [hal::reserve]: the request is checked, then passed on. *)
Definition hal_reserve (os : Os) (size alignment : Z) : Z :=
  if (size =? 0) || negb (size mod RESERVE_MIN =? 0) || negb (is_power_of_two alignment) then 0 else os_reserve os size.

(** What was committed before keeps its contents. New memory reads as zero here; macOS does not promise that after a
    decommit, and no theorem depends on it, since nodes are written before they are read. *)
Definition commit_words (address size : Z) (m : Inline) : Inline :=
  mkInline (words m ∪ list_to_map ((fun i => (address + 8 * i, 0)) <$> seqZ 0 (size / 8))).

(** Decommitted words count as gone, also where the platform would still let them be accessed. *)
Definition decommit_words (address size : Z) (m : Inline) : Inline :=
  mkInline (filter (fun kv => ~ (address <= kv.1 < address + size)) (words m)).

Section backend.
Context (page : Z) (debug : bool).

Definition set_map (map : Map) (m : Mem) : Mem := mkMem map (m_words m) (m_global m) (m_reserved m).
Definition set_words (w : Inline) (m : Mem) : Mem := mkMem (m_map m) w (m_global m) (m_reserved m).
Definition set_global (g : Global) (m : Mem) : Mem := mkMem (m_map m) (m_words m) g (m_reserved m).
Definition set_reserved (l : list (Z * Z)) (m : Mem) : Mem := mkMem (m_map m) (m_words m) (m_global m) l.
Definition set_ranges (b : Buddy) (g : Global) : Global := mkGlobal (g_map g) b (g_requested g).

(** [map()]: the page map is reserved once. *)
Definition backend_map (reserved : bool) (m : Mem) : Mem * bool :=
  let g := m_global m in
  if g_map g then (m, true)
  else if reserved then (set_global (mkGlobal true (g_ranges g) (g_requested g)) m, true)
  else (m, false).

(** The loops over an unused range: naturally aligned powers of two from the cursor on. *)
Fixpoint split_range {S} (give : S -> Z -> nat -> result S) (fuel : nat) (s : S) (cursor end_ : Z) : result S :=
  if cursor <? end_ then
    match fuel with
    | O => Panic
    | Datatypes.S fuel =>
        let bits := Nat.min (trailing_zeros cursor) (Z.to_nat (Z.log2 (end_ - cursor))) in
        let? s := give s cursor bits in
        let? cursor := usize_add cursor (size_of bits) in
        split_range give fuel s cursor end_
    end
  else Ok s.

(** A block goes to the global range. *)
Definition global_give (m : Mem) (address : Z) (bits : nat) : result Mem :=
  let g := m_global m in
  let? (map, b, overflow) := add 63 (m_map m) (g_ranges g) address bits in
  let? _ := debug_assert debug (overflow =? 0) in
  Ok (set_global (set_ranges b g) (set_map map m)).

(** The new reservation of [global_alloc_reserved]. *)
Definition global_refill (os : Os) (m : Mem) (size : Z) : result (Mem * Z) :=
  let g := m_global m in
  let refill := next_power_of_two (Z.max (Z.max RESERVE_MIN (Z.min (g_requested g) GLOBAL_REFILL)) size) in
  let address := hal_reserve os refill refill in
  if address =? 0 then Ok (m, 0)
  else
    let m := set_reserved ((address, refill) :: m_reserved m) m in
    let? (map, registered) := register page (os_register os) (m_map m) address refill in
    let m := set_map map m in
    if negb registered then Ok (set_reserved (tail (m_reserved m)) m, 0)
    else
      let m := set_global (mkGlobal (g_map g) (g_ranges g) (saturating_add usize_max (g_requested g) refill)) m in
      let? cursor := usize_add address size in
      let? end_ := usize_add address refill in
      let? m := split_range global_give 130 m cursor end_ in
      Ok (m, address).

Definition global_alloc_reserved (os : Os) (m : Mem) (size : Z) : result (Mem * Z) :=
  let g := m_global m in
  if negb (g_map g) then Ok (m, 0)
  else
    let? (map, b, address) := take_block 63 debug (m_map m) (g_ranges g) (trailing_zeros size) in
    let m := set_global (set_ranges b g) (set_map map m) in
    if address =? 0 then global_refill os m size else Ok (m, address).

Definition global_free (os : Os) (m : Mem) (address size : Z) : result Mem :=
  let m := if os_decommit os address then set_words (decommit_words address size (m_words m)) m else m in
  if g_map (m_global m) then global_give m address (trailing_zeros size) else Panic.

Definition global_alloc (os : Os) (m : Mem) (size : Z) : result (Mem * Z) :=
  let? (m, address) := global_alloc_reserved os m size in
  if address =? 0 then Ok (m, 0)
  else if negb (os_commit os) then
    let? m := global_free os m address size in Ok (m, 0)
  else Ok (set_words (commit_words address size (m_words m)) m, address).

(** [Local::free]. *)
Definition local_free (os : Os) (s : Mem * Local) (address size : Z) : result (Mem * Local) :=
  let '(m, l) := s in
  if Z.shiftl 1 (Z.of_nat LOCAL_BITS) <=? size then
    let? m := global_free os m address size in Ok (m, l)
  else
    let? (map, b, overflow) := add LOCAL_BITS (m_map m) (l_ranges l) address (trailing_zeros size) in
    let m := set_map map m in
    let l := mkLocal b (l_metadata l) (l_requested l) in
    if negb (overflow =? 0) then
      let? m := global_free os m overflow (Z.shiftl 1 (Z.of_nat LOCAL_BITS)) in Ok (m, l)
    else Ok (m, l).

(** [Local::alloc]. *)
Definition local_refill (os : Os) (m : Mem) (l : Local) (size : Z) : result (Mem * Local * Z) :=
  let refill := next_power_of_two (Z.max (Z.min (l_requested l) (Z.shiftl 1 (Z.of_nat LOCAL_BITS))) size) in
  let? (m, address) := global_alloc os m refill in
  if address =? 0 then Ok (m, l, 0)
  else
    let l := mkLocal (l_ranges l) (l_metadata l) (saturating_add usize_max (l_requested l) refill) in
    let? cursor := usize_add address size in
    let? end_ := usize_add address refill in
    let? s := split_range (fun s cursor bits => local_free os s cursor (size_of bits)) 130 (m, l) cursor end_ in
    Ok (s, address).

Definition local_alloc (os : Os) (m : Mem) (l : Local) (size : Z) : result (Mem * Local * Z) :=
  if negb (is_power_of_two size) || negb ((CHUNK <=? size) && (size <=? Z.shiftl 1 46)) then Ok (m, l, 0)
  else if Z.shiftl 1 (Z.of_nat LOCAL_BITS) <=? size then
    let? (m, address) := global_alloc os m size in Ok (m, l, address)
  else
    let? (map, b, cached) := take_block LOCAL_BITS debug (m_map m) (l_ranges l) (trailing_zeros size) in
    let m := set_map map m in
    let l := mkLocal b (l_metadata l) (l_requested l) in
    if negb (cached =? 0) then Ok (m, l, cached) else local_refill os m l size.

(** [Local::free_meta]. *)
Definition free_meta (os : Os) (s : Mem * Local) (address size : Z) : result (Mem * Local) :=
  let '(m, l) := s in
  if CHUNK <=? size then local_free os s address size
  else
    let? (w, b, overflow) := add 14 (m_words m) (l_metadata l) address (trailing_zeros size) in
    let s := (set_words w m, mkLocal (l_ranges l) b (l_requested l)) in
    if negb (overflow =? 0) then local_free os s overflow CHUNK else Ok s.

(** [Local::seed_metadata]; its two counters run as cursor and end. *)
Definition seed_metadata (os : Os) (s : Mem * Local) (address size : Z) : result (Mem * Local) :=
  let? end_ := usize_add address size in
  split_range (fun s address bits => free_meta os s address (size_of bits)) 130 s address end_.

(** The loop of [alloc_meta] over the rest of a chunk. *)
Fixpoint split_chunk (os : Os) (fuel : nat) (s : Mem * Local) (address offset : Z) : result (Mem * Local) :=
  if offset <? CHUNK then
    match fuel with
    | O => Panic
    | S fuel =>
        let? start := usize_add address offset in
        let? s := free_meta os s start offset in
        split_chunk os fuel s address (offset * 2)
    end
  else Ok s.

(** [Local::alloc_meta]. *)
Definition alloc_meta (os : Os) (m : Mem) (l : Local) (size : Z) : result (Mem * Local * Z) :=
  if negb (is_power_of_two size) || (size <? 16) then Ok (m, l, 0)
  else if CHUNK <=? size then local_alloc os m l size
  else
    let? (w, b, address) := take_block 14 debug (m_words m) (l_metadata l) (trailing_zeros size) in
    let m := set_words w m in
    let l := mkLocal (l_ranges l) b (l_requested l) in
    if negb (address =? 0) then Ok (m, l, address)
    else
      let? (m, l, address) := local_alloc os m l CHUNK in
      if address =? 0 then Ok (m, l, 0)
      else
        let? s := split_chunk os 64 (m, l) address size in
        Ok (s, address).
End backend.

(** ** Integers *)
Lemma pos_trailing_zeros_spec p : exists q, Z.pos p = 2 ^ Z.of_nat (pos_trailing_zeros p) * (2 * q + 1).
Proof.
  induction p as [p IH|p [q IH]|]; cbn [pos_trailing_zeros].
  - exists (Z.pos p). change (2 ^ Z.of_nat 0) with 1. lia.
  - exists q. rewrite pow_succ, (Pos2Z.inj_xO p), IH. lia.
  - by exists 0.
Qed.

Lemma trailing_zeros_spec x : 0 < x -> x mod 2 ^ Z.of_nat (trailing_zeros x) = 0 /\ x mod 2 ^ Z.of_nat (S (trailing_zeros x)) <> 0.
Proof.
  destruct x as [|p|p]; [lia| |lia]. intros _. unfold trailing_zeros. destruct (pos_trailing_zeros_spec p) as [q Hq]. pose proof (pow_pos (pos_trailing_zeros p)) as Hp. split.
  - apply Z.mod_divide; [lia|]. exists (2 * q + 1). lia.
  - rewrite pow_succ. intros Hm. apply Z.mod_divide in Hm as [r Hr]; [|lia]. rewrite Hq in Hr.
    assert (2 ^ Z.of_nat (pos_trailing_zeros p) * (2 * q + 1) = 2 ^ Z.of_nat (pos_trailing_zeros p) * (2 * r)) as Heq%Z.mul_reg_l by lia; lia.
Qed.

Lemma aligned_le x i j : (i <= j)%nat -> x mod 2 ^ Z.of_nat j = 0 -> x mod 2 ^ Z.of_nat i = 0.
Proof.
  intros Hij Hm. apply Z.mod_divide in Hm as [q Hq]; [|pose proof (pow_pos j); lia]. apply Z.mod_divide; [pose proof (pow_pos i); lia|].
  exists (q * 2 ^ (Z.of_nat j - Z.of_nat i)). rewrite <- Z.mul_assoc, <- Z.pow_add_r by lia. rewrite Hq. f_equal. f_equal. lia.
Qed.

Lemma trailing_zeros_iff x i : 0 < x -> x mod 2 ^ Z.of_nat i = 0 <-> (i <= trailing_zeros x)%nat.
Proof.
  intros Hx. destruct (trailing_zeros_spec x Hx) as [H1 H2]. split; [|intros Hi; by eapply aligned_le].
  intros Hm. destruct (decide (i <= trailing_zeros x)%nat) as [|Hgt]; [done|]. exfalso. apply H2. eapply (aligned_le x _ i); [lia|done].
Qed.

Lemma trailing_zeros_pow i : trailing_zeros (2 ^ Z.of_nat i) = i.
Proof.
  pose proof (pow_pos i) as Hp. apply Nat.le_antisymm.
  - assert (Hm : 2 ^ Z.of_nat i mod 2 ^ Z.of_nat (trailing_zeros (2 ^ Z.of_nat i)) = 0) by (by apply trailing_zeros_iff).
    apply Z.mod_divide in Hm; [|pose proof (pow_pos (trailing_zeros (2 ^ Z.of_nat i))); lia]. apply Z.divide_pos_le in Hm; [|done]. apply Z.pow_le_mono_r_iff in Hm; lia.
  - apply trailing_zeros_iff; [done|]. apply Z.mod_same. lia.
Qed.

Lemma trailing_zeros_lt x n : 0 < x < 2 ^ Z.of_nat n -> (trailing_zeros x < n)%nat.
Proof.
  intros Hx. destruct (decide (trailing_zeros x < n)%nat) as [|Hge]; [done|]. exfalso. assert (Hm : x mod 2 ^ Z.of_nat n = 0) by (apply trailing_zeros_iff; lia).
  apply Z.mod_divide in Hm as [q Hq]; [|lia]. pose proof (pow_pos n). destruct (Z.le_gt_cases q 0); nia.
Qed.

Lemma usize_add_ok a b : a + b <= usize_max -> usize_add a b = Ok (a + b).
Proof. intros Ha. unfold usize_add. by rewrite checked_add_Some. Qed.

Lemma is_power_of_two_true x : is_power_of_two x = true -> exists i, x = 2 ^ Z.of_nat i.
Proof.
  unfold is_power_of_two. intros [Hx Hp]%andb_true_iff. apply Z.ltb_lt in Hx. apply Z.eqb_eq in Hp. exists (Z.to_nat (Z.log2 x)). rewrite Z2Nat.id by apply Z.log2_nonneg. done.
Qed.

Lemma is_power_of_two_pow i : is_power_of_two (2 ^ Z.of_nat i) = true.
Proof. unfold is_power_of_two. rewrite Z.log2_pow2 by lia. rewrite Z.eqb_refl. pose proof (pow_pos i). rewrite (proj2 (Z.ltb_lt _ _)); done. Qed.

Lemma next_power_pow x : 0 < x -> exists i, next_power_of_two x = 2 ^ Z.of_nat i /\ x <= 2 ^ Z.of_nat i.
Proof.
  intros Hx. unfold next_power_of_two. exists (Z.to_nat (Z.log2_up x)). rewrite Z2Nat.id by apply Z.log2_up_nonneg. split; [done|].
  destruct (Z.eq_dec x 1) as [->|]; [done|]. apply Z.log2_up_spec. lia.
Qed.

Lemma next_power_le x i : 0 < x -> x <= 2 ^ Z.of_nat i -> next_power_of_two x <= 2 ^ Z.of_nat i.
Proof. intros Hx Hle. unfold next_power_of_two. apply Z.pow_le_mono_r; [lia|]. rewrite <- (Z.log2_up_pow2 (Z.of_nat i)) by lia. by apply Z.log2_up_le_mono. Qed.

(** *** Splitting a range *)

(** The loop ends: first the alignment of the cursor grows, then the length of the rest shrinks. *)
Definition rounds (cursor end_ : Z) : nat :=
  let tz := trailing_zeros cursor in let lg := Z.to_nat (Z.log2 (end_ - cursor)) in if (tz <=? lg)%nat then (129 - tz)%nat else S lg.

Lemma split_next cursor end_ : 0 < cursor -> cursor < end_ -> end_ < 2 ^ 64 -> let bits := Nat.min (trailing_zeros cursor) (Z.to_nat (Z.log2 (end_ - cursor))) in
  cursor mod 2 ^ Z.of_nat bits = 0 /\ cursor + 2 ^ Z.of_nat bits <= end_ /\ (cursor + 2 ^ Z.of_nat bits < end_ -> (rounds (cursor + 2 ^ Z.of_nat bits) end_ < rounds cursor end_)%nat).
Proof.
  intros Hc Hlt Hmax. cbn zeta. set (tz := trailing_zeros cursor). set (lg := Z.to_nat (Z.log2 (end_ - cursor))). set (bits := Nat.min tz lg).
  assert (Hlg : 2 ^ Z.of_nat lg <= end_ - cursor < 2 ^ Z.of_nat (S lg)).
  { unfold lg. rewrite pow_succ, Z2Nat.id by apply Z.log2_nonneg. pose proof (Z.log2_spec (end_ - cursor) ltac:(lia)) as Hl. rewrite Z.pow_succ_r in Hl by apply Z.log2_nonneg. lia. }
  assert (Hlg64 : (lg < 64)%nat). { destruct (decide (lg < 64)%nat) as [|Hge]; [done|]. assert (2 ^ 64 <= 2 ^ Z.of_nat lg) by (apply Z.pow_le_mono_r; lia). lia. }
  assert (Htz : (tz < 64)%nat) by (apply trailing_zeros_lt; lia). assert (Hle : 2 ^ Z.of_nat bits <= 2 ^ Z.of_nat lg) by (apply Z.pow_le_mono_r; lia).
  assert (Hal : cursor mod 2 ^ Z.of_nat bits = 0) by (apply trailing_zeros_iff; unfold bits, tz; lia). pose proof (pow_pos bits) as Hp. split_and!; [done|lia|]. intros Hmore.
  set (c' := cursor + 2 ^ Z.of_nat bits) in *. assert (Hlg' : (Z.to_nat (Z.log2 (end_ - c')) <= lg)%nat) by (unfold lg; apply Z2Nat.inj_le; [apply Z.log2_nonneg..|]; apply Z.log2_le_mono; lia).
  unfold rounds. fold tz lg. destruct (Nat.leb_spec tz lg) as [Hph|Hph].
  - assert (Hb : bits = tz) by lia. assert (Htz' : (S tz <= trailing_zeros c')%nat).
    { apply trailing_zeros_iff; [lia|]. destruct (trailing_zeros_spec cursor Hc) as [H1 H2]. fold tz in H1, H2. unfold c'. rewrite Hb. rewrite pow_succ in *. pose proof (pow_pos tz).
      apply Z.mod_divide in H1 as [q Hq]; [|lia]. destruct (Z.Even_or_Odd q) as [[r Hr]|[r Hr]]; [exfalso; apply H2; apply Z.mod_divide; [lia|]; exists r; nia|]. apply Z.mod_divide; [lia|]. exists (r + 1). nia. }
    destruct (Nat.leb_spec (trailing_zeros c') (Z.to_nat (Z.log2 (end_ - c')))); lia.
  - assert (Hb : bits = lg) by lia. assert (Htz' : (lg <= trailing_zeros c')%nat).
    { apply trailing_zeros_iff; [lia|]. unfold c'. rewrite Hb. rewrite <- Zplus_mod_idemp_r, Z.mod_same, Z.add_0_r by (pose proof (pow_pos lg); lia). by rewrite <- Hb. }
    assert (Hrest : end_ - c' < 2 ^ Z.of_nat lg) by (unfold c'; rewrite pow_succ in Hlg; rewrite Hb; lia).
    assert (Hlt' : (Z.to_nat (Z.log2 (end_ - c')) < lg)%nat).
    { apply Nat2Z.inj_lt. rewrite Z2Nat.id by apply Z.log2_nonneg. apply Z.log2_lt_pow2; lia. }
    destruct (Nat.leb_spec (trailing_zeros c') (Z.to_nat (Z.log2 (end_ - c')))); lia.
Qed.

Lemma rounds_bound cursor end_ : 0 < cursor < 2 ^ 64 -> (rounds cursor end_ <= 130)%nat.
Proof. intros Hc. unfold rounds. pose proof (trailing_zeros_lt cursor 64 Hc). destruct (Nat.leb_spec (trailing_zeros cursor) (Z.to_nat (Z.log2 (end_ - cursor)))); lia. Qed.

Lemma split_range_ok {S} (give : S -> Z -> nat -> result S) (I : S -> Z -> Prop) (MIN : nat) end_ :
  (forall s cursor bits, I s cursor -> 0 < cursor -> (MIN <= bits)%nat -> cursor mod 2 ^ Z.of_nat bits = 0 -> cursor + 2 ^ Z.of_nat bits <= end_ -> exists s', give s cursor bits = Ok s' /\ I s' (cursor + 2 ^ Z.of_nat bits)) ->
  end_ < 2 ^ 64 -> end_ mod 2 ^ Z.of_nat MIN = 0 -> forall fuel s cursor, I s cursor -> 0 < cursor <= end_ -> cursor mod 2 ^ Z.of_nat MIN = 0 -> (cursor < end_ -> (rounds cursor end_ <= fuel)%nat) ->
  exists s', split_range give fuel s cursor end_ = Ok s' /\ I s' end_.
Proof.
  intros Hgive Hmax Hend. induction fuel as [|fuel IH]; intros s cursor HI Hc Hal Hf; cbn [split_range]; (destruct (Z.ltb_spec cursor end_) as [Hlt|Hge]; [|assert (cursor = end_) as -> by lia; by exists s]).
  { exfalso. specialize (Hf Hlt). unfold rounds in Hf. pose proof (trailing_zeros_lt cursor 64 ltac:(lia)). destruct (_ <=? _)%nat eqn:E; lia. }
  destruct (split_next cursor end_) as (Hb1 & Hb2 & Hb3); [lia|done|done|]. set (bits := Nat.min _ _) in *. assert (Hmin : (MIN <= bits)%nat).
  { unfold bits. apply Nat.min_glb; [apply trailing_zeros_iff; [lia|done]|]. apply Nat2Z.inj_le. rewrite Z2Nat.id by apply Z.log2_nonneg. apply Z.log2_le_pow2; [lia|].
    assert (Hm : (end_ - cursor) mod 2 ^ Z.of_nat MIN = 0) by (rewrite Zminus_mod, Hend, Hal; done). apply Z.mod_divide in Hm as [q Hq]; [|pose proof (pow_pos MIN); lia]. pose proof (pow_pos MIN). destruct (Z.le_gt_cases q 0); nia. }
  destruct (Hgive s cursor bits HI) as (s' & -> & HI'); [lia|done|done|done|]. rewrite size_of_pow, usize_add_ok by (unfold usize_max; lia). pose proof (pow_pos bits). apply IH; [done|lia| |intros Hm; specialize (Hb3 Hm); lia].
  rewrite Z.add_mod, Hal, (aligned_le (2 ^ Z.of_nat bits) MIN bits) by (done || (pose proof (pow_pos MIN); lia) || (apply Z.mod_same; lia)). apply Z.mod_0_l. pose proof (pow_pos MIN). lia.
Qed.

(** ** The invariant *)

(** A range of which the free blocks cover exactly [P]. *)
Definition range_ok `{Nodes M} (MIN MAX : nat) (s : M) (b : Buddy) (P : Z -> Prop) : Prop := exists ts, buddy_ok MIN MAX s b ts /\ forall x, covered b ts x <-> P x.

Section ranges.
Context `{NodesLaws M} (MIN MAX : nat).

Lemma range_ext s b P P' : (forall x, P x <-> P' x) -> range_ok MIN MAX s b P -> range_ok MIN MAX s b P'.
Proof. intros HP (ts & Hb & Hc). exists ts. split; [done|]. intros x. by rewrite Hc. Qed.

Lemma range_frame s s' b P : agrees P s s' -> range_ok MIN MAX s b P -> range_ok MIN MAX s' b P.
Proof. intros Ha (ts & Hb & Hc). exists ts. split; [|done]. apply (buddy_frame _ _ s); [|done]. intros x Hx%Hc Hbx. destruct (Ha x Hx Hbx) as (? & ? & Hm). split_and!; [done|done|]. intros size Hs%Hc. by apply Hm. Qed.

Lemma range_new s P : (forall x, ~ P x) -> range_ok MIN MAX s (buddy_new MIN MAX) P.
Proof.
  intros HP. exists (replicate MAX E). split; [apply buddy_new_ok|]. intros x. split; [|by intros ?%HP]. intros (i & a & Ha & _). rewrite free_new in Ha. by apply not_elem_of_nil in Ha.
Qed.

Lemma range_add s b P a i : range_ok MIN MAX s b P -> block_ok MIN s i a -> (i <= MAX)%nat -> (forall x, block a i x -> ~ P x) -> null_apart MAX s (fun x => P x \/ block a i x) i ->
  exists s' b' r, add MAX s b a i = Ok (s', b', r) /\ range_ok MIN MAX s' b' (fun x => (P x \/ block a i x) /\ ~ (r <> 0 /\ block r MAX x))
    /\ (r <> 0 -> block_ok MIN s' MAX r /\ forall x, block r MAX x -> P x \/ block a i x) /\ touches (fun x => P x \/ block a i x) s s'.
Proof.
  intros (ts & Hb & Hc) Hok Hmax Hap Hnull. destruct (add_loop_ok MIN MAX (MAX - i) s b ts a i) as (s' & b' & ts' & r & Hadd & [A1 A2 A3 A4]); try done.
  - intros j a' Ha'. apply apart_disjoint. intros x Hx Hx'. apply (Hap x Hx), Hc. by eapply free_covered.
  - intros j Hj. destruct (Hnull j Hj) as [(x & Hx & Hno)|?]; [left|by right]. exists x. split; [done|]. by rewrite Hc.
  - exists s', b', r. split; [done|]. assert (Hdis : forall x, covered b' ts' x -> ~ (r <> 0 /\ block r MAX x)).
    { intros x (j & y & Hy & Hxy) [Hr Hx]. destruct (A3 Hr) as [_ Hr']. by apply (proj1 (apart_disjoint _ _ _ _) (Hr' j y Hy) x). }
    split_and!; [exists ts'; split; [done|]| |eapply touches_mono; [|done]; intros x; cbn; by rewrite Hc].
    + intros x. specialize (A2 x). rewrite Hc in A2. specialize (Hdis x). destruct (decide (r = 0)) as [->|Hr]; [tauto|]. split; [tauto|]. intros [Hx Hn]. apply A2 in Hx as [?|?]; tauto.
    + intros Hr. destruct (A3 Hr) as [Hrok _]. split; [done|]. intros x Hx. rewrite <- Hc. apply A2. by right.
Qed.

Lemma range_take debug s b P i : range_ok MIN MAX s b P -> (MIN <= i)%nat -> exists s' b' r, take_block MAX debug s b i = Ok (s', b', r) /\ touches P s s' /\ (r = 0 -> range_ok MIN MAX s' b' P)
  /\ (r <> 0 -> block_ok MIN s' i r /\ (forall x, block r i x -> P x) /\ range_ok MIN MAX s' b' (fun x => P x /\ ~ block r i x)).
Proof.
  intros (ts & Hb & Hc) Hmin. destruct (take_loop_ok MIN MAX debug (MAX - i) s b ts i Hb Hmin) as (s' & b' & ts' & r & Ht & [T1 T2 T3 T4 T5]); [done|].
  exists s', b', r. split; [done|]. split_and!; [eapply touches_mono; [|done]; intros x; cbn; by rewrite Hc| |].
  - intros ->. exists ts'. split; [done|]. intros x. rewrite <- Hc. apply covered_same. by apply T2.
  - intros Hr. destruct (T3 Hr) as (Hok & Hcov & Hap). split_and!; [done|intros x Hx; rewrite <- Hc; apply Hcov; by right|]. exists ts'. split; [done|]. intros x. rewrite <- Hc, Hcov.
    assert (Hd : covered b' ts' x -> ~ block r i x) by (intros (j & y & Hy & Hxy) Hx; by apply (proj1 (apart_disjoint _ _ _ _) (Hap j y Hy) x)). tauto.
Qed.
End ranges.

(** Whose each byte of the reserved memory is: [OFresh] and [OTransit] are on their way, not yet or already committed. *)
Inductive Owner : Type := OGlobal | OLocal (k : nat) | OMeta (k : nat) | OHeld (id : nat) | OFresh | OTransit.
#[export] Instance owner_eq_dec : EqDecision Owner.
Proof. solve_decision. Defined.

Definition committed (o : option Owner) : bool := match o with Some (OLocal _ | OMeta _ | OHeld _ | OTransit) => true | _ => false end.

(** What clients hold: address, size, and whether it is a whole block, which may be given back. *)
Abbreviation Held := (gmap nat (Z * Z * bool)) (only parsing).

(** The 16 bytes around [x], the smallest block. *)
Definition granule (x : Z) : Z := x - x mod 16.

Definition inside (r : Z * Z) (x : Z) : Prop := r.1 <= x < r.1 + r.2.

Record backend_ok (m : Mem) (ls : list Local) (held : gmap nat (Z * Z * bool)) (own : Z -> option Owner) : Prop := {
  bo_map : ls <> [] -> g_map (m_global m) = true;
  bo_global : range_ok 14 63 (m_map m) (g_ranges (m_global m)) (fun x => own x = Some OGlobal);
  bo_local k l : ls !! k = Some l -> range_ok 14 LOCAL_BITS (m_map m) (l_ranges l) (fun x => own x = Some (OLocal k));
  bo_meta k l : ls !! k = Some l -> range_ok 4 14 (m_words m) (l_metadata l) (fun x => own x = Some (OMeta k));
  bo_owner k x : own x = Some (OLocal k) \/ own x = Some (OMeta k) -> (k < length ls)%nat;
  bo_held id x : own x = Some (OHeld id) <-> exists r whole, held !! id = Some (r, whole) /\ inside r x;
  bo_whole id a size : held !! id = Some (a, size, true) -> exists i, size = 2 ^ Z.of_nat i /\ (4 <= i)%nat /\ a mod 2 ^ Z.of_nat i = 0;
  bo_aligned id a size whole : held !! id = Some (a, size, whole) -> a mod 16 = 0 /\ size mod 16 = 0 /\ 0 < size;
  bo_reserved x : own x <> None <-> Exists (fun r => inside r x) (m_reserved m);
  bo_mapped x : own x <> None -> 2 ^ 14 <= x < 2 ^ 48 /\ is_Some (entries (m_map m) !! entry_index x);
  bo_committed x : committed (own x) = true -> backed (m_words m) (granule x);
  bo_power (j : nat) : (14 <= j)%nat -> own (2 ^ Z.of_nat j) <> None -> may_merge (m_map m) (2 ^ Z.of_nat j) (size_of j) = Ok false;
  bo_requested : 0 <= g_requested (m_global m) /\ Forall (fun l => 0 <= l_requested l) ls }.

(** [own] with the bytes from [a] on handed to [o]. *)
Definition hand (own : Z -> option Owner) (a size : Z) (o : Owner) : Z -> option Owner := fun x => if decide (a <= x < a + size) then Some o else own x.

Lemma hand_in own a size o x : a <= x < a + size -> hand own a size o x = Some o.
Proof. intros Hx. unfold hand. by rewrite decide_True. Qed.

Lemma hand_out own a size o x : ~ (a <= x < a + size) -> hand own a size o x = own x.
Proof. intros Hx. unfold hand. by rewrite decide_False. Qed.

Lemma mapped_touched Q map map' x : touches Q map map' -> 2 ^ 14 <= x -> is_Some (entries map !! entry_index x) -> is_Some (entries map' !! entry_index x).
Proof.
  intros Ht Hx He. set (a := entry_index x * 2 ^ 14). assert (Hi : entry_index a = entry_index x) by (unfold a, entry_index, CHUNK_BITS; rewrite !Z.shiftr_div_pow2 by lia; by rewrite Z.div_mul).
  assert (Hpos : 0 < a). { unfold a, entry_index, CHUNK_BITS. rewrite Z.shiftr_div_pow2 by lia. assert (1 <= x / 2 ^ 14) by (apply Z.div_le_lower_bound; lia). lia. }
  assert (Hb : backed map a) by (split_and!; [done|unfold a; apply Z.mod_mul; lia|by rewrite Hi]). apply (touches_backed _ _ _ _ Ht) in Hb as (_ & _ & Hb). by rewrite Hi in Hb.
Qed.

(** *** Changes of one range *)
Definition among (os : list Owner) (o : option Owner) : Prop := exists x, o = Some x /\ x ∈ os.

(** [own] and [own'] differ only where both have an owner of [os]. *)
Definition only_moves (os : list Owner) (own own' : Z -> option Owner) : Prop := forall x, own' x = own x \/ (among os (own x) /\ among os (own' x)).

Lemma only_moves_other os own own' o x : only_moves os own own' -> o ∉ os -> own' x = Some o <-> own x = Some o.
Proof. intros Hm Ho. destruct (Hm x) as [-> |[(y & -> & Hy) (z & -> & Hz)]]; [done|]. split; intros [= ->]; done. Qed.

Lemma only_moves_none os own own' x : only_moves os own own' -> own' x = None <-> own x = None.
Proof. intros Hm. destruct (Hm x) as [-> |[(y & -> & _) (z & -> & _)]]; done. Qed.

Lemma only_moves_committed os own own' x b : only_moves os own own' -> Forall (fun o => committed (Some o) = b) os -> committed (own' x) = committed (own x).
Proof. intros Hm Hf. rewrite Forall_forall in Hf. destruct (Hm x) as [-> |[(y & -> & Hy) (z & -> & Hz)]]; [done|]. by rewrite (Hf y Hy), (Hf z Hz). Qed.

Ltac other_owner Hm := rewrite (only_moves_other _ _ _ _ _ Hm); [done|set_solver].

(** What does not depend on the range that changed. *)
Lemma frame_rest m ls held own m' (ls' : list Local) (own' : Z -> option Owner) (os : list Owner) Q : backend_ok m ls held own -> only_moves os own own' -> (forall id, OHeld id ∉ os) -> length ls' = length ls ->
  m_reserved m' = m_reserved m -> (forall k, OLocal k ∈ os \/ OMeta k ∈ os -> (k < length ls)%nat) ->
  touches Q (m_map m) (m_map m') ->
  (forall k x, own' x = Some (OLocal k) \/ own' x = Some (OMeta k) -> (k < length ls')%nat)
  /\ (forall id x, own' x = Some (OHeld id) <-> exists r whole, held !! id = Some (r, whole) /\ inside r x)
  /\ (forall x, own' x <> None <-> Exists (fun r => inside r x) (m_reserved m'))
  /\ (forall x, own' x <> None -> 2 ^ 14 <= x < 2 ^ 48 /\ is_Some (entries (m_map m') !! entry_index x))
  /\ (forall j : nat, (14 <= j)%nat -> own' (2 ^ Z.of_nat j) <> None -> may_merge (m_map m') (2 ^ Z.of_nat j) (size_of j) = Ok false).
Proof.
  intros Hok Hm Hh Hlen Hres Hk Ht. split_and!.
  - intros k x Hx. rewrite Hlen. destruct (Hm x) as [Heq|[_ (z & Hz & Hin)]]; [rewrite Heq in Hx; by eapply bo_owner|]. destruct Hx as [Hx|Hx]; rewrite Hx in Hz; injection Hz as <-; auto.
  - intros id x. rewrite (only_moves_other _ _ _ _ _ Hm (Hh id)). apply Hok.
  - intros x. rewrite Hres, <- (bo_reserved _ _ _ _ Hok). by rewrite (only_moves_none _ _ _ _ Hm).
  - intros x Hx. rewrite (only_moves_none _ _ _ _ Hm) in Hx. destruct (bo_mapped _ _ _ _ Hok x Hx) as [Hb He]. split; [done|]. eapply (mapped_touched Q); [done|lia|done].
  - intros j Hj Hx. rewrite (only_moves_none _ _ _ _ Hm) in Hx. destruct Ht as (ks & He & _). rewrite (ev_merge _ _ _ He). by apply Hok.
Qed.

Lemma set_global_ok m ls held own own' map' b' Q : backend_ok m ls held own -> only_moves [OGlobal; OFresh] own own' -> range_ok 14 63 map' b' (fun x => own' x = Some OGlobal) ->
  touches Q (m_map m) map' -> (forall x, Q x -> among [OGlobal; OFresh] (own x)) -> backend_ok (set_global (set_ranges b' (m_global m)) (set_map map' m)) ls held own'.
Proof.
  intros Hok Hm Hr Ht HQ.
  destruct (frame_rest m ls held own (set_global (set_ranges b' (m_global m)) (set_map map' m)) ls own' _ Q Hok Hm) as (F1 & F2 & F3 & F4 & F5); try done; [set_solver|set_solver|].
  split; try done; try apply Hok.
  - intros k l Hl. eapply range_ext; [|eapply range_frame; [apply (touches_agrees _ Q); [done|]|by apply (bo_local _ _ _ _ Hok)]]; [intros x; symmetry; other_owner Hm|].
    intros x Hx Hbad. destruct (HQ x Hx) as (o & Ho & Hin). rewrite Hbad in Ho. injection Ho as <-. set_solver.
  - intros k l Hl. eapply range_ext; [|by apply (bo_meta _ _ _ _ Hok)]. intros x. symmetry. other_owner Hm.
  - intros x. rewrite (only_moves_committed _ _ _ _ false Hm) by (by repeat constructor). apply Hok.
Qed.

Lemma set_local_ok m ls held own own' k l map' b' Q : backend_ok m ls held own -> ls !! k = Some l -> only_moves [OLocal k; OTransit] own own' -> range_ok 14 LOCAL_BITS map' b' (fun x => own' x = Some (OLocal k)) ->
  touches Q (m_map m) map' -> (forall x, Q x -> among [OLocal k; OTransit] (own x)) -> backend_ok (set_map map' m) (<[k := mkLocal b' (l_metadata l) (l_requested l)]> ls) held own'.
Proof.
  intros Hok Hl Hm Hr Ht HQ. pose proof (lookup_lt_Some _ _ _ Hl) as Hk.
  destruct (frame_rest m ls held own (set_map map' m) (<[k := mkLocal b' (l_metadata l) (l_requested l)]> ls) own' _ Q Hok Hm) as (F1 & F2 & F3 & F4 & F5); try done; [set_solver|by rewrite length_insert|set_solver|].
  split; try done; try apply Hok.
  - intros _. apply (bo_map _ _ _ _ Hok). by destruct ls.
  - eapply range_ext; [|eapply range_frame; [apply (touches_agrees _ Q); [done|]|by apply (bo_global _ _ _ _ Hok)]]; [intros x; symmetry; other_owner Hm|].
    intros x Hx Hbad. destruct (HQ x Hx) as (o & Ho & Hin). rewrite Hbad in Ho. injection Ho as <-. set_solver.
  - intros k' l' Hl'. apply list_lookup_insert_Some in Hl' as [(-> & <- & _)|[Hne Hl']]; [done|]. eapply range_ext; [|eapply range_frame; [apply (touches_agrees _ Q); [done|]|by apply (bo_local _ _ _ _ Hok)]].
    + intros x; symmetry. rewrite (only_moves_other _ _ _ _ _ Hm); [done|]. set_solver.
    + intros x Hx Hbad. destruct (HQ x Hx) as (o & Ho & Hin). rewrite Hbad in Ho. injection Ho as <-. set_solver.
  - intros k' l' Hl'. assert (Hold : exists l0, ls !! k' = Some l0 /\ l_metadata l' = l_metadata l0) by (apply list_lookup_insert_Some in Hl' as [(-> & <- & _)|[Hne Hl']]; eauto).
    destruct Hold as (l0 & Hl0 & ->). eapply range_ext; [|by apply (bo_meta _ _ _ _ Hok)]. intros x. symmetry. other_owner Hm.
  - intros x. rewrite (only_moves_committed _ _ _ _ true Hm) by (by repeat constructor). apply Hok.
  - split; [apply Hok|]. destruct (bo_requested _ _ _ _ Hok) as [_ Hf]. apply Forall_insert; [done|]. exact (Forall_lookup_1 _ _ _ _ Hf Hl).
Qed.

Lemma set_meta_ok m ls held own own' k l w' b' Q : backend_ok m ls held own -> ls !! k = Some l -> only_moves [OMeta k; OTransit] own own' -> range_ok 4 14 w' b' (fun x => own' x = Some (OMeta k)) ->
  touches Q (m_words m) w' -> (forall x, Q x -> among [OMeta k; OTransit] (own x)) -> backend_ok (set_words w' m) (<[k := mkLocal (l_ranges l) b' (l_requested l)]> ls) held own'.
Proof.
  intros Hok Hl Hm Hr Ht HQ. pose proof (lookup_lt_Some _ _ _ Hl) as Hk.
  destruct (frame_rest m ls held own (set_words w' m) (<[k := mkLocal (l_ranges l) b' (l_requested l)]> ls) own' _ Q Hok Hm) as (F1 & F2 & F3 & F4 & F5); try done; [set_solver|by rewrite length_insert|set_solver|apply touches_refl|].
  split; try done; try apply Hok.
  - intros _. apply (bo_map _ _ _ _ Hok). by destruct ls.
  - eapply range_ext; [|apply Hok]. intros x. symmetry. other_owner Hm.
  - intros k' l' Hl'. assert (Hold : exists l0, ls !! k' = Some l0 /\ l_ranges l' = l_ranges l0) by (apply list_lookup_insert_Some in Hl' as [(-> & <- & _)|[Hne Hl']]; eauto).
    destruct Hold as (l0 & Hl0 & ->). eapply range_ext; [|by apply (bo_local _ _ _ _ Hok)]. intros x. symmetry. other_owner Hm.
  - intros k' l' Hl'. apply list_lookup_insert_Some in Hl' as [(-> & <- & _)|[Hne Hl']]; [done|]. eapply range_ext; [|eapply range_frame; [apply (touches_agrees _ Q); [done|]|by apply (bo_meta _ _ _ _ Hok)]].
    + intros x; symmetry. rewrite (only_moves_other _ _ _ _ _ Hm); [done|]. set_solver.
    + intros x Hx Hbad. destruct (HQ x Hx) as (o & Ho & Hin). rewrite Hbad in Ho. injection Ho as <-. set_solver.
  - intros x. rewrite (only_moves_committed _ _ _ _ true Hm) by (by repeat constructor). intros Hc. apply (touches_backed _ _ _ _ Ht). by apply Hok.
  - split; [apply Hok|]. destruct (bo_requested _ _ _ _ Hok) as [_ Hf]. apply Forall_insert; [done|]. exact (Forall_lookup_1 _ _ _ _ Hf Hl).
Qed.

(** *** Owned blocks *)
Lemma hand_Some own a size o o' x : hand own a size o x = Some o' <-> (a <= x < a + size /\ o = o') \/ (~ (a <= x < a + size) /\ own x = Some o').
Proof. unfold hand. case_decide; [split; [intros [= ->]; auto|intros [[_ ->]|[? _]]; done]|split; [auto|intros [[? _]|[_ ?]]; done]]. Qed.

Lemma hand_moves own a size o o' : (forall x, a <= x < a + size -> own x = Some o) -> only_moves [o'; o] own (hand own a size o').
Proof.
  intros Ho x. unfold hand. case_decide as Hx; [right|by left]. rewrite (Ho x Hx). split; [exists o|exists o']; (split; [done|]); rewrite !elem_of_cons; auto.
Qed.

Lemma moves_swap o o' own own' : only_moves [o; o'] own own' -> only_moves [o'; o] own own'.
Proof. intros Hm x. destruct (Hm x) as [?|[(y & ? & ?) (z & ? & ?)]]; [by left|right]. split; [exists y|exists z]; (split; [done|set_solver]). Qed.

Lemma block_first a i : block a i a.
Proof. unfold block. pose proof (pow_pos i). lia. Qed.

Lemma block_last a i : block a i (a + 2 ^ Z.of_nat i - 1).
Proof. unfold block. pose proof (pow_pos i). lia. Qed.

Section owned.
Context (m : Mem) (ls : list Local) (held : gmap nat (Z * Z * bool)) (own : Z -> option Owner) (Hok : backend_ok m ls held own).

Lemma owned_bounds a i : (forall x, block a i x -> own x <> None) -> 2 ^ 14 <= a /\ a + 2 ^ Z.of_nat i <= 2 ^ 48 /\ (i <= 48)%nat.
Proof using Hok.
  intros Ho. pose proof (bo_mapped _ _ _ _ Hok a (Ho a (block_first a i))) as [H1 _]. pose proof (bo_mapped _ _ _ _ Hok _ (Ho _ (block_last a i))) as [H2 _].
  split_and!; [lia|lia|]. destruct (decide (i <= 48)%nat) as [|Hgt]; [done|]. exfalso. assert (2 ^ 49 <= 2 ^ Z.of_nat i) by (apply Z.pow_le_mono_r; lia). lia.
Qed.

Lemma map_block a i : (14 <= i)%nat -> a mod 2 ^ Z.of_nat i = 0 -> (forall x, block a i x -> own x <> None) -> block_ok 14 (m_map m) i a.
Proof using Hok.
  intros Hi Ha Ho. destruct (owned_bounds a i Ho) as (H1 & H2 & _). split; [done|lia|done|lia|]. intros x Hx Hm.
  destruct (bo_mapped _ _ _ _ Hok x (Ho x Hx)) as [Hb He]. split_and!; [lia|exact Hm|done].
Qed.

Lemma words_block a i : (4 <= i)%nat -> a mod 2 ^ Z.of_nat i = 0 -> (forall x, block a i x -> committed (own x) = true) -> block_ok 4 (m_words m) i a.
Proof using Hok.
  intros Hi Ha Hc. assert (Ho : forall x, block a i x -> own x <> None) by (intros x Hx Hn; specialize (Hc x Hx); by rewrite Hn in Hc).
  destruct (owned_bounds a i Ho) as (H1 & H2 & _). split; [done|lia|done|lia|]. intros x Hx Hm. pose proof (bo_committed _ _ _ _ Hok x (Hc x Hx)) as Hb.
  unfold granule in Hb. change (2 ^ Z.of_nat 4) with 16 in Hm. by rewrite Hm, Z.sub_0_r in Hb.
Qed.

Lemma map_null MAX (P : Z -> Prop) i : (forall x, P x -> own x <> None) -> (14 <= i)%nat -> null_apart MAX (m_map m) P i.
Proof using Hok.
  intros HP Hi j Hj. destruct (own (2 ^ Z.of_nat j)) as [o|] eqn:Ho; [right; apply (bo_power _ _ _ _ Hok); [lia|by rewrite Ho]|].
  left. exists (2 ^ Z.of_nat j). split; [apply block_first|]. by intros ?%HP.
Qed.

Lemma words_null (P : Z -> Prop) i : (forall x, P x -> own x <> None) -> null_apart 14 (m_words m) P i.
Proof using Hok.
  intros HP j Hj. left. exists (2 ^ Z.of_nat j). split; [apply block_first|]. intros Hx%HP. apply (bo_mapped _ _ _ _ Hok) in Hx as [Hx _].
  assert (2 ^ Z.of_nat j < 2 ^ 14) by (apply Z.pow_lt_mono_r; lia). lia.
Qed.
End owned.

(** *** Blocks go to a range and come from it *)

(** A block of [t] goes to the range of [o]; the block [r] that has outgrown the range comes back. *)
Definition after_give (o t : Owner) (own : Z -> option Owner) (a : Z) (i MAX : nat) (r : Z) : Z -> option Owner :=
  if decide (r = 0) then hand own a (2 ^ Z.of_nat i) o else hand (hand own a (2 ^ Z.of_nat i) o) r (2 ^ Z.of_nat MAX) t.

Definition after_take (t : Owner) (own : Z -> option Owner) (i : nat) (r : Z) : Z -> option Owner := if decide (r = 0) then own else hand own r (2 ^ Z.of_nat i) t.

Section exchange.
Context `{NodesLaws M} (MIN MAX : nat) (debug : bool) (o t : Owner) (Hne : o <> t).

Lemma give_range s b own a i : range_ok MIN MAX s b (fun x => own x = Some o) -> block_ok MIN s i a -> (i <= MAX)%nat -> (forall x, block a i x -> own x = Some t) ->
  null_apart MAX s (fun x => own x = Some o \/ block a i x) i ->
  exists s' b' r, add MAX s b a i = Ok (s', b', r) /\ touches (fun x => among [o; t] (own x)) s s' /\ only_moves [o; t] own (after_give o t own a i MAX r)
    /\ range_ok MIN MAX s' b' (fun x => after_give o t own a i MAX r x = Some o) /\ (r <> 0 -> r mod 2 ^ Z.of_nat MAX = 0 /\ forall x, block r MAX x -> own x = Some o \/ block a i x).
Proof using H0 Hne.
  intros Hr Hb Hi Ho Hnull. destruct (range_add MIN MAX s b _ a i Hr Hb Hi) as (s' & b' & r & Hadd & Hr' & Hover & Ht); [|done|].
  { intros x Hx. rewrite (Ho x Hx). congruence. }
  assert (Ham : forall x, own x = Some o \/ block a i x -> among [o; t] (own x)) by (intros x [Hx|Hx]; [exists o|exists t]; (split; [auto|set_solver])).
  exists s', b', r. split_and!; [done|eapply touches_mono; [exact Ham|exact Ht]| | |].
  - unfold after_give. case_decide as Hz; [by apply hand_moves|]. intros x. destruct (decide (block r MAX x)) as [Hx|Hx].
    + right. split; [apply Ham, (Hover Hz), Hx|]. exists t. rewrite hand_in by done. split; [done|set_solver].
    + rewrite hand_out by done. by apply (hand_moves own a (2 ^ Z.of_nat i) t o).
  - eapply range_ext; [|done]. intros x. cbn. unfold after_give. case_decide as Hz; rewrite ?hand_Some; unfold block in *; [subst r; destruct (decide (a <= x < a + 2 ^ Z.of_nat i)); tauto|].
    destruct (decide (a <= x < a + 2 ^ Z.of_nat i)), (decide (r <= x < r + 2 ^ Z.of_nat MAX)); intuition congruence.
  - intros Hz. destruct (Hover Hz) as [Hrb Hin]. split; [apply Hrb|done].
Qed.

Lemma take_range s b own i : range_ok MIN MAX s b (fun x => own x = Some o) -> (MIN <= i)%nat ->
  exists s' b' r, take_block MAX debug s b i = Ok (s', b', r) /\ touches (fun x => among [o; t] (own x)) s s' /\ only_moves [o; t] own (after_take t own i r)
    /\ range_ok MIN MAX s' b' (fun x => after_take t own i r x = Some o) /\ (r <> 0 -> r mod 2 ^ Z.of_nat i = 0 /\ forall x, block r i x -> own x = Some o).
Proof using H0 Hne.
  intros Hr Hi. destruct (range_take MIN MAX debug s b _ i Hr Hi) as (s' & b' & r & Htake & Ht & Hnone & Hsome). exists s', b', r. split; [done|].
  split; [eapply touches_mono; [|done]; intros x Hx; exists o; split; [done|set_solver]|]. unfold after_take. case_decide as Hz; [split_and!; [by left|by apply Hnone|done]|].
  destruct (Hsome Hz) as (Hb & Hin & Hrange). split_and!; [by apply moves_swap, hand_moves| |intros _; split; [apply Hb|done]].
  eapply range_ext; [|done]. intros x. cbn. rewrite hand_Some. unfold block. split; [intros [? ?]; auto|intros [[_ ?]|?]; [congruence|tauto]].
Qed.
End exchange.

Section ranges_of.
Context (debug : bool) (m : Mem) (ls : list Local) (held : gmap nat (Z * Z * bool)) (own : Z -> option Owner) (Hok : backend_ok m ls held own).

Lemma global_give_ok a i : (14 <= i)%nat -> a mod 2 ^ Z.of_nat i = 0 -> (forall x, block a i x -> own x = Some OFresh) ->
  exists m', global_give debug m a i = Ok m' /\ backend_ok m' ls held (hand own a (2 ^ Z.of_nat i) OGlobal).
Proof using Hok.
  intros Hi Ha Ho. assert (Hown : forall x, own x = Some OGlobal \/ block a i x -> own x <> None) by (intros x [->|Hx]; [done|by rewrite (Ho x Hx)]).
  destruct (owned_bounds _ _ _ _ Hok a i) as (_ & _ & H48); [auto|].
  destruct (give_range (M := Map) 14 63 OGlobal OFresh ltac:(done) (m_map m) (g_ranges (m_global m)) own a i (bo_global _ _ _ _ Hok)) as (s' & b' & r & Hadd & Ht & Hm & Hr & Hover); [by eapply map_block; eauto|lia|done|by eapply map_null|].
  assert (r = 0) as ->.
  { destruct (decide (r = 0)) as [|Hz]; [done|]. destruct (Hover Hz) as [_ Hall]. destruct (owned_bounds _ _ _ _ Hok r 63) as (_ & _ & ?); [auto|lia]. }
  unfold global_give. rewrite Hadd. replace (debug_assert debug (0 =? 0)) with (Ok tt : result unit) by by destruct debug. eexists. split; [done|]. by eapply set_global_ok.
Qed.

Lemma global_take_ok i : (14 <= i)%nat -> exists map' b' r, take_block 63 debug (m_map m) (g_ranges (m_global m)) i = Ok (map', b', r)
  /\ backend_ok (set_global (set_ranges b' (m_global m)) (set_map map' m)) ls held (after_take OFresh own i r) /\ (r <> 0 -> r mod 2 ^ Z.of_nat i = 0 /\ forall x, block r i x -> own x = Some OGlobal).
Proof using Hok.
  intros Hi. destruct (take_range (M := Map) 14 63 debug OGlobal OFresh ltac:(done) (m_map m) (g_ranges (m_global m)) own i (bo_global _ _ _ _ Hok) Hi) as (s' & b' & r & Htake & Ht & Hm & Hr & Hin).
  exists s', b', r. split_and!; [done|by eapply set_global_ok|done].
Qed.

Context (k : nat) (l : Local) (Hl : ls !! k = Some l).

Lemma local_give_ok a i : (14 <= i <= LOCAL_BITS)%nat -> a mod 2 ^ Z.of_nat i = 0 -> (forall x, block a i x -> own x = Some OTransit) ->
  exists map' b' r, add LOCAL_BITS (m_map m) (l_ranges l) a i = Ok (map', b', r)
    /\ backend_ok (set_map map' m) (<[k := mkLocal b' (l_metadata l) (l_requested l)]> ls) held (after_give (OLocal k) OTransit own a i LOCAL_BITS r)
    /\ (r <> 0 -> r mod 2 ^ Z.of_nat LOCAL_BITS = 0 /\ forall x, block r LOCAL_BITS x -> own x = Some (OLocal k) \/ block a i x).
Proof using Hok Hl.
  intros Hi Ha Ho. assert (Hown : forall x, own x = Some (OLocal k) \/ block a i x -> own x <> None) by (intros x [->|Hx]; [done|by rewrite (Ho x Hx)]).
  destruct (give_range (M := Map) 14 LOCAL_BITS (OLocal k) OTransit ltac:(done) (m_map m) (l_ranges l) own a i (bo_local _ _ _ _ Hok k l Hl)) as (s' & b' & r & Hadd & Ht & Hm & Hr & Hover);
    [eapply map_block; eauto; lia|lia|done|eapply map_null; [done|done|lia]|].
  exists s', b', r. split_and!; [done|by eapply set_local_ok|done].
Qed.

Lemma local_take_ok i : (14 <= i)%nat -> exists map' b' r, take_block LOCAL_BITS debug (m_map m) (l_ranges l) i = Ok (map', b', r)
  /\ backend_ok (set_map map' m) (<[k := mkLocal b' (l_metadata l) (l_requested l)]> ls) held (after_take OTransit own i r) /\ (r <> 0 -> r mod 2 ^ Z.of_nat i = 0 /\ forall x, block r i x -> own x = Some (OLocal k)).
Proof using Hok Hl.
  intros Hi. destruct (take_range (M := Map) 14 LOCAL_BITS debug (OLocal k) OTransit ltac:(done) (m_map m) (l_ranges l) own i (bo_local _ _ _ _ Hok k l Hl) Hi) as (s' & b' & r & Htake & Ht & Hm & Hr & Hin).
  exists s', b', r. split_and!; [done|by eapply set_local_ok|done].
Qed.

Lemma meta_give_ok a i : (4 <= i <= 14)%nat -> a mod 2 ^ Z.of_nat i = 0 -> (forall x, block a i x -> own x = Some OTransit) ->
  exists w' b' r, add 14 (m_words m) (l_metadata l) a i = Ok (w', b', r)
    /\ backend_ok (set_words w' m) (<[k := mkLocal (l_ranges l) b' (l_requested l)]> ls) held (after_give (OMeta k) OTransit own a i 14 r)
    /\ (r <> 0 -> r mod 2 ^ Z.of_nat 14 = 0 /\ forall x, block r 14 x -> own x = Some (OMeta k) \/ block a i x).
Proof using Hok Hl.
  intros Hi Ha Ho. assert (Hown : forall x, own x = Some (OMeta k) \/ block a i x -> own x <> None) by (intros x [->|Hx]; [done|by rewrite (Ho x Hx)]).
  destruct (give_range (M := Inline) 4 14 (OMeta k) OTransit ltac:(done) (m_words m) (l_metadata l) own a i (bo_meta _ _ _ _ Hok k l Hl)) as (s' & b' & r & Hadd & Ht & Hm & Hr & Hover);
    [eapply words_block; [done|lia|done|by intros x Hx; rewrite (Ho x Hx)]|lia|done|by eapply words_null|].
  exists s', b', r. split_and!; [done|by eapply set_meta_ok|done].
Qed.

Lemma meta_take_ok i : (4 <= i)%nat -> exists w' b' r, take_block 14 debug (m_words m) (l_metadata l) i = Ok (w', b', r)
  /\ backend_ok (set_words w' m) (<[k := mkLocal (l_ranges l) b' (l_requested l)]> ls) held (after_take OTransit own i r) /\ (r <> 0 -> r mod 2 ^ Z.of_nat i = 0 /\ forall x, block r i x -> own x = Some (OMeta k)).
Proof using Hok Hl.
  intros Hi. destruct (take_range (M := Inline) 4 14 debug (OMeta k) OTransit ltac:(done) (m_words m) (l_metadata l) own i (bo_meta _ _ _ _ Hok k l Hl) Hi) as (s' & b' & r & Htake & Ht & Hm & Hr & Hin).
  exists s', b', r. split_and!; [done|by eapply set_meta_ok|done].
Qed.
End ranges_of.

(** *** Memory that is in no range *)
Definition cached (o : Owner) : bool := match o with OGlobal | OLocal _ | OMeta _ => true | _ => false end.

Definition keeps_caches (own own' : Z -> option Owner) : Prop := forall o x, cached o = true -> own' x = Some o <-> own x = Some o.

Lemma hand_keeps own a size o : cached o = false -> (forall x, a <= x < a + size -> forall o', own x = Some o' -> cached o' = false) -> keeps_caches own (hand own a size o).
Proof.
  intros Ho Hx o' x Hc. rewrite hand_Some. split; [intros [[_ <-]|[_ ?]]; [congruence|done]|]. intros Hown. right. split; [|done]. intros Hin. specialize (Hx x Hin o' Hown). congruence.
Qed.

Lemma agrees_mono `{Nodes M} (P P' : Z -> Prop) s s' : (forall x, P' x -> P x) -> agrees P s s' -> agrees P' s s'.
Proof. intros HP Ha x Hx Hb. destruct (Ha x) as (? & ? & Hm); [auto|done|]. split_and!; auto. Qed.

Lemma update_ok m ls held own m' held' own' : backend_ok m ls held own -> m_global m' = m_global m -> keeps_caches own own' ->
  agrees (fun x => own x = Some OGlobal \/ exists k, own x = Some (OLocal k)) (m_map m) (m_map m') -> agrees (fun x => exists k, own x = Some (OMeta k)) (m_words m) (m_words m') ->
  (forall id x, own' x = Some (OHeld id) <-> exists r whole, held' !! id = Some (r, whole) /\ inside r x) ->
  (forall id a size, held' !! id = Some (a, size, true) -> exists i, size = 2 ^ Z.of_nat i /\ (4 <= i)%nat /\ a mod 2 ^ Z.of_nat i = 0) ->
  (forall id a size whole, held' !! id = Some (a, size, whole) -> a mod 16 = 0 /\ size mod 16 = 0 /\ 0 < size) ->
  (forall x, own' x <> None <-> Exists (fun r => inside r x) (m_reserved m')) ->
  (forall x, own' x <> None -> 2 ^ 14 <= x < 2 ^ 48 /\ is_Some (entries (m_map m') !! entry_index x)) ->
  (forall x, committed (own' x) = true -> backed (m_words m') (granule x)) ->
  (forall j, (14 <= j)%nat -> own' (2 ^ Z.of_nat j) <> None -> may_merge (m_map m') (2 ^ Z.of_nat j) (size_of j) = Ok false) -> backend_ok m' ls held' own'.
Proof.
  intros Hok Hg Hk Hmap Hwords H1 H2 H3 H4 H5 H6 H7. split; rewrite ?Hg; try done; try apply Hok.
  - eapply range_ext; [|eapply range_frame; [|apply Hok]]; [intros x; symmetry; by apply Hk|]. eapply agrees_mono; [|done]. intros x Hx. by (left; exact Hx) || (right; exists k; exact Hx) || (exists k; exact Hx).
  - intros k l Hl. eapply range_ext; [|eapply range_frame; [|by apply (bo_local _ _ _ _ Hok)]]; [intros x; symmetry; by apply Hk|]. eapply agrees_mono; [|done]. intros x Hx. by (left; exact Hx) || (right; exists k; exact Hx) || (exists k; exact Hx).
  - intros k l Hl. eapply range_ext; [|eapply range_frame; [|by apply (bo_meta _ _ _ _ Hok)]]; [intros x; symmetry; by apply Hk|]. eapply agrees_mono; [|done]. intros x Hx. by (left; exact Hx) || (right; exists k; exact Hx) || (exists k; exact Hx).
  - intros k x [Hx|Hx]; apply Hk in Hx; try done; by eapply (bo_owner _ _ _ _ Hok); eauto.
Qed.

Lemma hand_none own a size o x : (forall y, a <= y < a + size -> own y <> None) -> hand own a size o x <> None <-> own x <> None.
Proof. intros Hin. unfold hand. case_decide as Hx; [|done]. split; [|done]. intros _. auto. Qed.

Lemma hand_same own a size o o' x : (forall y, a <= y < a + size -> own y = Some o') -> o' <> o -> hand own a size o x = own x -> ~ (a <= x < a + size).
Proof. intros Ho Hne Hs Hx. rewrite hand_in, (Ho x Hx) in Hs by done. congruence. Qed.

(** A change of hands without a change of the map or of what is reserved. *)
Lemma words_ok m ls held own w held' a size o : backend_ok m ls held own -> (forall x, a <= x < a + size -> exists o', own x = Some o' /\ cached o' = false) -> cached o = false ->
  let own' := hand own a size o in
  agrees (fun x => committed (own x) = true /\ own' x = own x) (m_words m) w ->
  (forall id x, own' x = Some (OHeld id) <-> exists r whole, held' !! id = Some (r, whole) /\ inside r x) ->
  (forall id a size, held' !! id = Some (a, size, true) -> exists i, size = 2 ^ Z.of_nat i /\ (4 <= i)%nat /\ a mod 2 ^ Z.of_nat i = 0) ->
  (forall id a size whole, held' !! id = Some (a, size, whole) -> a mod 16 = 0 /\ size mod 16 = 0 /\ 0 < size) ->
  (forall x, committed (own' x) = true -> backed w (granule x)) -> backend_ok (set_words w m) ls held' own'.
Proof.
  intros Hok Hx Ho own' Hw H1 H2 H3 H4. assert (Hn : forall x, own' x <> None <-> own x <> None) by (intros x; apply hand_none; intros y Hy; by destruct (Hx y Hy) as (o' & -> & _)).
  assert (Hkeep : keeps_caches own own') by (apply hand_keeps; [done|]; intros x Hin o' Heq; destruct (Hx x Hin) as (o'' & Ho'' & Hc); congruence).
  apply (update_ok m ls held own); try done.
  - eapply agrees_mono; [|exact Hw]. intros x [k Hk']. cbn. rewrite Hk'. split; [done|]. by apply Hkeep.
  - intros x. rewrite Hn. apply Hok.
  - intros x. rewrite Hn. apply Hok.
  - intros j Hj. rewrite Hn. by apply Hok.
Qed.

Lemma granule_aligned x : granule x mod 16 = 0 /\ granule x <= x < granule x + 16.
Proof. unfold granule. Z.div_mod_to_equations. lia. Qed.

(** Decommitting takes only the words in the block. *)
Lemma decommit_backed a size w x : a mod 16 = 0 -> size mod 16 = 0 -> ~ (a <= x < a + size) -> backed w x -> backed (decommit_words a size w) x /\ node_read (decommit_words a size w) x = node_read w x.
Proof.
  intros Ha Hs Hx (Hpos & Hm & [v0 H0] & [v1 H1]). assert (Hx8 : ~ (a <= x + 8 < a + size)) by (Z.div_mod_to_equations; lia).
  assert (L0 : words (decommit_words a size w) !! x = Some v0) by (apply map_lookup_filter_Some; done). assert (L1 : words (decommit_words a size w) !! (x + 8) = Some v1) by (apply map_lookup_filter_Some; done).
  split; [split_and!; [done|done|by exists v0|by exists v1]|]. cbn [node_read inline_nodes]. unfold inline_read. by rewrite L0, L1, H0, H1.
Qed.

(** Committing keeps the words there are. *)
Lemma commit_backed a size w x : backed w x -> backed (commit_words a size w) x /\ node_read (commit_words a size w) x = node_read w x.
Proof.
  intros (Hpos & Hm & [v0 H0] & [v1 H1]). assert (L0 : words (commit_words a size w) !! x = Some v0) by (by apply lookup_union_Some_l). assert (L1 : words (commit_words a size w) !! (x + 8) = Some v1) by (by apply lookup_union_Some_l).
  split; [split_and!; [done|done|by exists v0|by exists v1]|]. cbn [node_read inline_nodes]. unfold inline_read. by rewrite L0, L1, H0, H1.
Qed.

Lemma commit_word a size w x : a mod 8 = 0 -> x mod 8 = 0 -> a <= x < a + size -> size mod 8 = 0 -> is_Some (words (commit_words a size w) !! x).
Proof.
  intros Ha Hx Hin Hs. apply lookup_union_is_Some. right. apply not_eq_None_Some. rewrite <- not_elem_of_list_to_map. intros Hno. apply Hno. rewrite <- list_fmap_compose. apply list_elem_of_fmap.
  exists ((x - a) / 8). rewrite elem_of_seqZ. split; cbn; Z.div_mod_to_equations; lia.
Qed.

Lemma commit_new a size w x : a mod 16 = 0 -> size mod 16 = 0 -> 0 < a -> a <= x < a + size -> backed (commit_words a size w) (granule x).
Proof.
  intros Ha Hs Hpos Hx. destruct (granule_aligned x) as [Hg Hgx]. split_and!; [|done|apply commit_word|apply commit_word]; Z.div_mod_to_equations; lia.
Qed.

Lemma pow_mod16 i : (4 <= i)%nat -> 2 ^ Z.of_nat i mod 16 = 0.
Proof. intros Hi. change 16 with (2 ^ Z.of_nat 4). apply (aligned_le _ 4 i Hi), Z.mod_same. pose proof (pow_pos i). lia. Qed.

Lemma mod16 a i : (4 <= i)%nat -> a mod 2 ^ Z.of_nat i = 0 -> a mod 16 = 0.
Proof. intros Hi. exact (aligned_le a 4 i Hi). Qed.

Section hands.
Context (m : Mem) (ls : list Local) (held : gmap nat (Z * Z * bool)) (own : Z -> option Owner) (Hok : backend_ok m ls held own).

(** Bytes in nobody's hands change hands. *)
Lemma loose_held a size o id x : (forall x, a <= x < a + size -> own x = Some OFresh \/ own x = Some OTransit) -> (forall id, o <> OHeld id) ->
  hand own a size o x = Some (OHeld id) <-> exists r whole, held !! id = Some (r, whole) /\ inside r x.
Proof using Hok.
  intros Hl Ho. rewrite <- (bo_held _ _ _ _ Hok), hand_Some. split; [intros [[_ ?]|[_ ?]]; [by destruct (Ho id)|done]|]. intros Hx. right. split; [|done]. intros Hin. destruct (Hl x Hin); congruence.
Qed.

Lemma commit_ok a i : (4 <= i)%nat -> a mod 2 ^ Z.of_nat i = 0 -> (forall x, block a i x -> own x = Some OFresh) ->
  backend_ok (set_words (commit_words a (2 ^ Z.of_nat i) (m_words m)) m) ls held (hand own a (2 ^ Z.of_nat i) OTransit).
Proof using Hok.
  intros Hi Ha Ho. destruct (owned_bounds _ _ _ _ Hok a i) as (Hb & _ & _); [intros x Hx; by rewrite (Ho x Hx)|].
  apply (words_ok m ls held own); try done; try apply Hok; [intros x Hx; rewrite (Ho x Hx); by eexists| | |].
  - intros x _ Hx. destruct (commit_backed a (2 ^ Z.of_nat i) (m_words m) x Hx). done.
  - intros id x. apply loose_held; [intros y Hy; left; by apply Ho|done].
  - intros x. unfold hand. case_decide as Hx; intros Hc; [apply commit_new; [by apply (mod16 a i)|by apply pow_mod16|lia|done]|]. by apply commit_backed, Hok.
Qed.

(** [w] is the memory with the block decommitted, or as it was. *)
Lemma decommit_ok a i w : (4 <= i)%nat -> a mod 2 ^ Z.of_nat i = 0 -> (forall x, block a i x -> own x = Some OTransit \/ own x = Some OFresh) -> w = m_words m \/ w = decommit_words a (2 ^ Z.of_nat i) (m_words m) ->
  backend_ok (set_words w m) ls held (hand own a (2 ^ Z.of_nat i) OFresh).
Proof using Hok.
  intros Hi Ha Ho Hw. assert (Hb : forall x, ~ block a i x -> backed (m_words m) x -> backed w x /\ node_read w x = node_read (m_words m) x).
  { intros x Hx Hbx. destruct Hw as [->| ->]; [done|]. apply decommit_backed; [by apply (mod16 a i)|by apply pow_mod16|done|done]. }
  apply (words_ok m ls held own); try done; try apply Hok; [intros x Hx; destruct (Ho x Hx) as [->| ->]; by eexists| | |].
  - intros x [Hc Hx] Hbx. assert (Hn : ~ block a i x) by (intros Hin; rewrite hand_in in Hx by done; by rewrite <- Hx in Hc). by destruct (Hb x Hn Hbx).
  - intros id x. apply loose_held; [intros y Hy; destruct (Ho y Hy); auto|done].
  - intros x Hc. unfold hand in Hc. case_decide as Hx; [done|]. apply Hb; [|by apply Hok]. destruct (granule_aligned x) as [Hg Hgx]. pose proof (mod16 a i Hi Ha). pose proof (pow_mod16 i Hi). unfold block in *. Z.div_mod_to_equations. lia.
Qed.

(** A block comes into a client's hands. *)
Lemma hold_ok id a size whole : (forall x, a <= x < a + size -> own x = Some OTransit) -> held !! id = None -> a mod 16 = 0 -> size mod 16 = 0 -> 0 < size ->
  (whole = true -> exists i, size = 2 ^ Z.of_nat i /\ (4 <= i)%nat /\ a mod 2 ^ Z.of_nat i = 0) -> backend_ok m ls (<[id := (a, size, whole)]> held) (hand own a size (OHeld id)).
Proof using Hok.
  intros Ho Hid Ha Hs Hpos Hw. replace m with (set_words (m_words m) m) by by destruct m. apply (words_ok m ls held own); try done; [intros x Hx; rewrite (Ho x Hx); by eexists| | | |].
  - intros id' x. rewrite hand_Some, (bo_held _ _ _ _ Hok). destruct (decide (id' = id)) as [->|Hne].
    + rewrite lookup_insert_eq, Hid. split; [intros [[? _]|[_ (? & ? & ? & _)]]; [by exists (a, size), whole|done]|]. intros (r & w & [= <- <-] & Hin). by left.
    + rewrite lookup_insert_ne by done. split; [intros [[_ ?]|[_ ?]]; [congruence|done]|]. intros Hin. right. split; [|done]. intros Hx. apply (bo_held _ _ _ _ Hok) in Hin. rewrite (Ho x Hx) in Hin. done.
  - intros id' a' size' [[-> [= -> -> ->]]|[_ Hold]]%lookup_insert_Some; [by apply Hw|]. by eapply (bo_whole _ _ _ _ Hok).
  - intros id' a' size' w' [[-> [= -> -> ->]]|[_ Hold]]%lookup_insert_Some; [done|]. by eapply (bo_aligned _ _ _ _ Hok).
  - intros x Hc. apply (bo_committed _ _ _ _ Hok). unfold hand in Hc. case_decide as Hx; [by rewrite (Ho x Hx)|done].
Qed.

(** A client gives up what it holds. *)
Lemma unhold_ok id a size whole : held !! id = Some (a, size, whole) -> backend_ok m ls (delete id held) (hand own a size OTransit).
Proof using Hok.
  intros Hid. assert (Ho : forall x, a <= x < a + size -> own x = Some (OHeld id)) by (intros x Hx; apply (bo_held _ _ _ _ Hok); by exists (a, size), whole).
  replace m with (set_words (m_words m) m) by by destruct m. apply (words_ok m ls held own); try done; [intros x Hx; rewrite (Ho x Hx); by eexists| | | |].
  - intros id' x. rewrite hand_Some, (bo_held _ _ _ _ Hok). destruct (decide (id' = id)) as [->|Hne].
    + rewrite lookup_delete_eq, Hid. split; [intros [[_ ?]|[Hn (r & w & [= <- <-] & Hin)]]; done|]. by intros (? & ? & ? & _).
    + rewrite lookup_delete_ne by done. split; [by intros [[_ ?]|[_ ?]]|]. intros Hin. right. split; [|done]. intros Hx. apply (bo_held _ _ _ _ Hok) in Hin. rewrite (Ho x Hx) in Hin. congruence.
  - intros id' a' size' [_ Hold]%lookup_delete_Some. by eapply (bo_whole _ _ _ _ Hok).
  - intros id' a' size' w' [_ Hold]%lookup_delete_Some. by eapply (bo_aligned _ _ _ _ Hok).
  - intros x Hc. apply (bo_committed _ _ _ _ Hok). unfold hand in Hc. case_decide as Hx; [by rewrite (Ho x Hx)|done].
Qed.
End hands.

(** *** Reservations *)

(** What [hal::reserve] promises: nothing, or an aligned range of addresses that is not reserved. *)
Definition reserve_ok (m : Mem) (os : Os) : bool :=
  forallb (fun i => let size := 2 ^ Z.of_nat i in let a := os_reserve os size in
    (a =? 0) || ((0 <? a) && (a mod size =? 0) && (a + size <=? 2 ^ 64) && forallb (fun r => (r.1 + r.2 <=? a) || (a + size <=? r.1)) (m_reserved m))) (seq 16 31).

(** The sizes that are served. *)
Definition alloc_size (i : nat) : Prop := (14 <= i <= 46)%nat.

Lemma reserve_ok_at m os i : reserve_ok m os = true -> (16 <= i <= 46)%nat -> let a := os_reserve os (2 ^ Z.of_nat i) in
  a = 0 \/ (0 < a /\ a mod 2 ^ Z.of_nat i = 0 /\ a + 2 ^ Z.of_nat i <= 2 ^ 64 /\ Forall (fun r => r.1 + r.2 <= a \/ a + 2 ^ Z.of_nat i <= r.1) (m_reserved m)).
Proof.
  unfold reserve_ok. rewrite forallb_forall. intros Hos Hi. specialize (Hos i). rewrite in_seq in Hos. specialize (Hos ltac:(lia)). cbn zeta in *. set (a := os_reserve os (2 ^ Z.of_nat i)) in *.
  apply orb_true_iff in Hos as [Hz%Z.eqb_eq|Hos]; [by left|right]. rewrite !andb_true_iff, Z.ltb_lt, Z.eqb_eq, Z.leb_le, forallb_forall in Hos. destruct Hos as [[[H1 H2] H3] H4].
  split_and!; [done..|]. apply Forall_forall. intros r Hr%list_elem_of_In. specialize (H4 r Hr). rewrite orb_true_iff, !Z.leb_le in H4. done.
Qed.

Lemma aligned_ge a i : 0 < a -> a mod 2 ^ Z.of_nat i = 0 -> 2 ^ Z.of_nat i <= a.
Proof. intros Hp Ha. pose proof (pow_pos i). apply Z.mod_divide in Ha; [|lia]. by apply Z.divide_pos_le. Qed.

Lemma power_first a i j : 0 < a -> a mod 2 ^ Z.of_nat i = 0 -> block a i (2 ^ Z.of_nat j) -> 2 ^ Z.of_nat j = a.
Proof.
  intros Hp Ha [Hlo Hhi]. pose proof (aligned_ge a i Hp Ha) as Hge. pose proof (pow_pos i) as Hi. assert (Hij : (i <= j)%nat).
  { destruct (decide (i <= j)%nat) as [|Hn]; [done|]. exfalso. assert (2 ^ Z.of_nat j < 2 ^ Z.of_nat i) by (apply Z.pow_lt_mono_r; lia). lia. }
  assert (Hj : 2 ^ Z.of_nat j mod 2 ^ Z.of_nat i = 0) by (apply (aligned_le _ i j Hij), Z.mod_same; pose proof (pow_pos j); lia).
  apply Z.mod_divide in Ha as [q Hq], Hj as [p Hpq]; [|lia..]. assert (p = q) by nia. lia.
Qed.

Lemma merge_power map j : may_merge map (2 ^ Z.of_nat j) (size_of j) = let? (meta, _) := entry map (2 ^ Z.of_nat j) in Ok (Z.land meta BOUNDARY =? 0).
Proof. cbn [may_merge map_nodes]. unfold can_merge. rewrite size_of_pow, Z.lxor_nilpotent, Z.max_l by (pose proof (pow_pos j); lia). done. Qed.

Lemma register_none page c map a size : c = false \/ 2 ^ 48 < a + size -> register page c map a size = Ok (map, false).
Proof.
  intros Hc. unfold register. destruct (checked_add a size) as [e|] eqn:He; [|done]. change (Z.shiftl 1 ADDRESS_BITS) with (2 ^ 48). destruct (Z.ltb_spec (2 ^ 48) e) as [|Hle]; [done|].
  destruct Hc as [->|Hgt]; [done|]. unfold checked_add in He. case_match; simplify_eq. lia.
Qed.

(** Entries in use stay as they are. *)
Lemma entries_agree (P : Z -> Prop) map map' : (forall x, P x -> x mod 2 ^ 14 = 0 -> forall e, entries map !! entry_index x = Some e -> entries map' !! entry_index x = Some e) -> agrees P map map'.
Proof.
  intros Hs x Hx (Hpos & Hm & [e He]). pose proof (Hs x Hx Hm e He) as He'. split_and!; [split_and!; [done|done|by exists e]|cbn [node_read map_nodes]; unfold children, entry; by rewrite He, He'|].
  intros size Hy (Hpos2 & Hm2 & [e2 He2]). pose proof (Hs _ Hy Hm2 e2 He2) as He2'. cbn [may_merge map_nodes]. unfold can_merge, entry.
  destruct (Z.max_spec x (Z.lxor x size)) as [[_ ->]|[_ ->]]; [by rewrite He2, He2'|by rewrite He, He'].
Qed.

Section reservation.
Context (page : Z) (m : Mem) (ls : list Local) (held : gmap nat (Z * Z * bool)) (own : Z -> option Owner) (Hpage : 0 < page /\ page mod 16 = 0) (Hok : backend_ok m ls held own).

Lemma register_new_ok a i : 0 < a -> (16 <= i)%nat -> a mod 2 ^ Z.of_nat i = 0 -> a + 2 ^ Z.of_nat i <= 2 ^ 48 -> Forall (fun r => r.1 + r.2 <= a \/ a + 2 ^ Z.of_nat i <= r.1) (m_reserved m) ->
  exists map', register page true (m_map m) a (2 ^ Z.of_nat i) = Ok (map', true) /\ (forall x, block a i x -> own x = None)
    /\ backend_ok (set_map map' (set_reserved ((a, 2 ^ Z.of_nat i) :: m_reserved m) m)) ls held (hand own a (2 ^ Z.of_nat i) OFresh).
Proof using Hpage Hok.
  intros Hpos Hi Ha Hend Hdis. pose proof (pow_pos i) as Hp. assert (Hnone : forall x, block a i x -> own x = None).
  { intros x Hx. destruct (own x) eqn:Ho; [|done]. assert (Hr : own x <> None) by by rewrite Ho. apply (bo_reserved _ _ _ _ Hok), Exists_exists in Hr as (r & Hr & Hin).
    rewrite Forall_forall in Hdis. specialize (Hdis r Hr). unfold inside, block in *. lia. }
  destruct (register_ok page (m_map m) a (2 ^ Z.of_nat i)) as (map' & -> & Hnew & Hfirst & Hold); [by apply Hpage|by apply Hpage|lia|lia|done|]. exists map'. split_and!; [done|done|].
  assert (Ha14 : a mod 2 ^ 14 = 0) by (apply (aligned_le a 14 i); [lia|done]). assert (Hge : 2 ^ 14 <= a) by (apply (aligned_ge a 14); done).
  assert (Hkeep : forall x e, own x <> None -> x mod 2 ^ 14 = 0 -> entries (m_map m) !! entry_index x = Some e -> entries map' !! entry_index x = Some e).
  { intros x e Hx Hm. apply Hold. intros Heq. apply (entry_index_inj x a) in Heq; [|done..]. subst x. apply Hx, Hnone, block_first. }
  assert (Hsome : forall x, hand own a (2 ^ Z.of_nat i) OFresh x <> None <-> block a i x \/ own x <> None) by (intros x; unfold hand; case_decide as Hx; split; [by left|done|by right|intros [?|?]; done]).
  apply (update_ok m ls held own); try done; try apply Hok.
  - apply hand_keeps; [done|]. intros x Hx o'. by rewrite (Hnone x Hx).
  - apply entries_agree. intros x Hx Hm e. apply Hkeep; [|done]. destruct Hx as [->|[k ->]]; done.
  - intros id x. rewrite hand_Some, <- (bo_held _ _ _ _ Hok). split; [by intros [[_ ?]|[_ ?]]|]. intros Hx. right. split; [|done]. intros Hin. by rewrite (Hnone x Hin) in Hx.
  - intros x. rewrite Hsome. cbn [m_reserved set_map set_reserved]. rewrite Exists_cons, <- (bo_reserved _ _ _ _ Hok). done.
  - intros x [Hx|Hx]%Hsome; [split; [unfold block in Hx; lia|by apply Hnew]|]. destruct (bo_mapped _ _ _ _ Hok x Hx) as [Hb [e He]]. split; [done|].
    destruct (decide (entry_index x = entry_index a)) as [Heq|Hne]; [cbn [m_map set_map]; rewrite Heq; by eexists|]. cbn [m_map set_map]. rewrite (Hold _ e); [by eexists|done|done].
  - intros x Hc. unfold hand in Hc. case_decide; [done|]. by apply (bo_committed _ _ _ _ Hok).
  - intros j Hj Hx. rewrite merge_power. cbn [m_map set_map]. unfold entry. apply Hsome in Hx as [Hx|Hx]; [rewrite (power_first a i j Hpos Ha Hx), Hfirst; done|].
    pose proof (bo_power _ _ _ _ Hok j Hj Hx) as Hb. rewrite merge_power in Hb. unfold entry in Hb. destruct (bo_mapped _ _ _ _ Hok _ Hx) as [_ [e He]]. rewrite He in Hb.
    rewrite (Hkeep _ e); [done|done| |done]. apply (aligned_le _ 14 j); [lia|apply Z.mod_same; pose proof (pow_pos j); lia].
Qed.

Lemma global_requested_ok r : 0 <= r -> backend_ok (set_global (mkGlobal (g_map (m_global m)) (g_ranges (m_global m)) r) m) ls held own.
Proof using Hok. intros Hr. destruct Hok. split; try done. split; [done|]. by destruct bo_requested0. Qed.

Lemma local_requested_ok k l r : ls !! k = Some l -> 0 <= r -> backend_ok m (<[k := mkLocal (l_ranges l) (l_metadata l) r]> ls) held own.
Proof using Hok.
  intros Hl Hr. assert (Hold : forall k' l', <[k := mkLocal (l_ranges l) (l_metadata l) r]> ls !! k' = Some l' -> exists l0, ls !! k' = Some l0 /\ l_ranges l' = l_ranges l0 /\ l_metadata l' = l_metadata l0).
  { intros k' l' [(-> & <- & _)|[_ Hl']]%list_lookup_insert_Some; eauto. }
  destruct Hok. split; try done; rewrite ?length_insert; try done.
  - intros _. apply bo_map0. by destruct ls.
  - intros k' l' (l0 & Hl0 & -> & _)%Hold. eauto.
  - intros k' l' (l0 & Hl0 & _ & ->)%Hold. eauto.
  - split; [by destruct bo_requested0|]. apply Forall_insert; [by destruct bo_requested0|done].
Qed.
End reservation.

(** ** Operations *)

(** What an operation may change of [own]: what is reserved stays so, what clients hold they hold; afterwards [F] is on its way and
    not committed, [T] on its way and committed. *)
Record settled (own own' : Z -> option Owner) (F T : Z -> Prop) : Prop := {
  st_some x : own x <> None -> own' x <> None;
  st_held id x : own' x = Some (OHeld id) <-> own x = Some (OHeld id);
  st_fresh x : own' x = Some OFresh <-> F x;
  st_transit x : own' x = Some OTransit <-> T x }.

Lemma settled_ext own own' F T (F' T' : Z -> Prop) : settled own own' F T -> (forall x, F x <-> F' x) -> (forall x, T x <-> T' x) -> settled own own' F' T'.
Proof. intros [S1 S2 S3 S4] HF HT. split; try done; intros x; [by rewrite S3|by rewrite S4]. Qed.

Lemma settled_refl own : settled own own (fun x => own x = Some OFresh) (fun x => own x = Some OTransit).
Proof. done. Qed.

Lemma settled_trans own own1 own2 F T F' T' : settled own own1 F T -> settled own1 own2 F' T' -> settled own own2 F' T'.
Proof. intros [S1 S2 _ _] [S1' S2' S3' S4']. split; try done; [auto|]. intros id x. by rewrite S2', S2. Qed.

Lemma settled_hand own a size o : (forall x, a <= x < a + size -> forall id, own x <> Some (OHeld id)) -> (forall id, o <> OHeld id) ->
  settled own (hand own a size o) (fun x => (a <= x < a + size /\ o = OFresh) \/ (~ (a <= x < a + size) /\ own x = Some OFresh))
    (fun x => (a <= x < a + size /\ o = OTransit) \/ (~ (a <= x < a + size) /\ own x = Some OTransit)).
Proof.
  intros Hn Ho. split; intros x; rewrite ?hand_Some; try done.
  - unfold hand. by case_decide.
  - intros x0. rewrite hand_Some. split; [intros [[_ ?]|[_ ?]]; [by destruct (Ho x)|done]|]. intros Hx. right. split; [|done]. intros Hin. by apply (Hn x0 Hin x).
Qed.

(** Who owns a byte after some changes of hands. *)
Ltac owners := intros x; cbn beta; rewrite ?hand_Some; unfold block in *; intuition (congruence || lia).

Section operations.
Context (debug : bool).

(** The operating system refuses: no addresses, addresses beyond the page map, or no memory. *)
Definition refuses (os : Os) : Prop :=
  os_register os = false \/ os_commit os = false \/ exists i, (16 <= i <= 46)%nat /\ (os_reserve os (2 ^ Z.of_nat i) = 0 \/ 2 ^ 48 < os_reserve os (2 ^ Z.of_nat i) + 2 ^ Z.of_nat i).

Definition no_fresh (own : Z -> option Owner) : Prop := forall x, own x <> Some OFresh.
Definition no_transit (own : Z -> option Owner) : Prop := forall x, own x <> Some OTransit.

Lemma global_free_ok os m ls held own a i : backend_ok m ls held own -> ls <> [] -> (14 <= i)%nat -> a mod 2 ^ Z.of_nat i = 0 -> (forall x, block a i x -> own x = Some OTransit \/ own x = Some OFresh) ->
  exists m' own', global_free debug os m a (2 ^ Z.of_nat i) = Ok m' /\ backend_ok m' ls held own' /\ settled own own' (fun x => own x = Some OFresh /\ ~ block a i x) (fun x => own x = Some OTransit /\ ~ block a i x).
Proof using.
  intros Hok Hmap%(bo_map _ _ _ _ Hok) Hi Ha Ho. unfold global_free. rewrite trailing_zeros_pow. set (m1 := if os_decommit os a then _ else _).
  assert (H1 : backend_ok m1 ls held (hand own a (2 ^ Z.of_nat i) OFresh)).
  { replace m1 with (set_words (m_words m1) m) by (subst m1; by destruct (os_decommit os a), m). apply decommit_ok; [done|lia|done|done|]. subst m1. destruct (os_decommit os a); auto. }
  replace (g_map (m_global m1)) with true by (subst m1; by destruct (os_decommit os a)).
  destruct (global_give_ok debug m1 ls held _ H1 a i Hi Ha) as (m' & Hgive & Hok'); [intros x Hx; by apply hand_in|]. exists m', (hand (hand own a (2 ^ Z.of_nat i) OFresh) a (2 ^ Z.of_nat i) OGlobal). split_and!; [done|done|].
  eapply settled_ext; [eapply settled_trans; [apply settled_hand|apply settled_hand]| |]; try done.
  - intros x Hx id. by destruct (Ho x Hx) as [->| ->].
  - intros x Hx id. by rewrite hand_in.
  - by owners.
  - by owners.
Qed.

(** The rest of a reservation goes to the global range. *)
Lemma global_split_ok m ls held own a i j : backend_ok m ls held own -> 0 < a -> (14 <= i <= j)%nat -> a mod 2 ^ Z.of_nat j = 0 -> a + 2 ^ Z.of_nat j <= 2 ^ 48 -> (forall x, own x = Some OFresh <-> block a j x) ->
  exists m' own', split_range (global_give debug) 130 m (a + 2 ^ Z.of_nat i) (a + 2 ^ Z.of_nat j) = Ok m' /\ backend_ok m' ls held own' /\ settled own own' (block a i) (fun x => own x = Some OTransit).
Proof using.
  intros Hok Hpos Hij Ha Hend Ho. set (end_ := a + 2 ^ Z.of_nat j). assert (Hle : 2 ^ Z.of_nat i <= 2 ^ Z.of_nat j) by (apply Z.pow_le_mono_r; lia). pose proof (pow_pos i) as Hp.
  set (I := fun m' cursor => a + 2 ^ Z.of_nat i <= cursor /\ exists own', backend_ok m' ls held own' /\ settled own own' (fun x => block a i x \/ cursor <= x < end_) (fun x => own x = Some OTransit)).
  assert (Hmod : forall n, (14 <= n)%nat -> 2 ^ Z.of_nat n mod 2 ^ Z.of_nat 14 = 0) by (intros n Hn; apply (aligned_le _ 14 n Hn), Z.mod_same; pose proof (pow_pos n); lia).
  assert (Ha14 : a mod 2 ^ Z.of_nat 14 = 0) by (apply (aligned_le a 14 j); [lia|done]).
  destruct (split_range_ok (global_give debug) I 14 end_) with (fuel := 130%nat) (s := m) (cursor := a + 2 ^ Z.of_nat i) as (m' & Hs & _ & own' & Hok' & Hset).
  - intros s cursor bits [Hlo (own' & Hok' & Hset)] _ Hb Hal Hcend. destruct (global_give_ok debug s ls held own' Hok' cursor bits Hb Hal) as (s' & Hgive & Hok2).
    { intros x Hx. apply (st_fresh _ _ _ _ Hset). right. unfold block in Hx. lia. }
    exists s'. split; [done|]. pose proof (pow_pos bits). split; [lia|]. eexists. split; [done|]. eapply settled_ext; [eapply settled_trans; [done|apply settled_hand]| |]; try done.
    + intros x Hx id Hbad. assert (Hf : own' x = Some OFresh) by (apply (st_fresh _ _ _ _ Hset); right; lia). congruence.
    + intros x. cbn beta. rewrite (st_fresh _ _ _ _ Hset). unfold block in *. intuition (congruence || lia).
    + intros x. cbn beta. rewrite (st_transit _ _ _ _ Hset). split; [intros [[_ ?]|[_ ?]]; done|]. intros Ht. right. split; [|done]. intros Hx. assert (Hf : own' x = Some OFresh) by (apply (st_fresh _ _ _ _ Hset); right; lia).
      apply (st_transit _ _ _ _ Hset) in Ht. congruence.
  - subst end_. lia.
  - subst end_. rewrite Z.add_mod, Ha14, Hmod by lia. done.
  - split; [lia|]. exists own. split; [done|]. eapply settled_ext; [apply settled_refl| |done]. intros x. rewrite Ho. unfold block, end_. lia.
  - subst end_. lia.
  - rewrite Z.add_mod, Ha14, Hmod by lia. done.
  - intros _. apply rounds_bound. lia.
  - exists m', own'. split_and!; [done|done|]. eapply settled_ext; [done| |done]. by owners.
Qed.

(** A run of the operations of owner [k] takes the bytes in transit between [lo] and [hi] in. *)
Definition absorbs (k : nat) (ls : list Local) (held : gmap nat (Z * Z * bool)) (own : Z -> option Owner) (run : result (Mem * Local)) (lo hi : Z) : Prop :=
  exists m' l' own', run = Ok (m', l') /\ backend_ok m' (<[k := l']> ls) held own' /\ settled own own' (fun x => own x = Some OFresh) (fun x => own x = Some OTransit /\ ~ (lo <= x < hi)).

Definition in_transit (own : Z -> option Owner) (lo hi : Z) : Prop := forall x, lo <= x < hi -> own x = Some OTransit.

Lemma absorbs_seq k ls held own run (next : Mem * Local -> result (Mem * Local)) lo mid hi : absorbs k ls held own run lo mid -> lo <= mid <= hi -> (k < length ls)%nat -> in_transit own lo hi ->
  (forall m' l' own', backend_ok m' (<[k := l']> ls) held own' -> in_transit own' mid hi -> absorbs k (<[k := l']> ls) held own' (next (m', l')) mid hi) ->
  absorbs k ls held own (let? s := run in next s) lo hi.
Proof using.
  intros (m1 & l1 & own1 & -> & Hok1 & S1) Hle Hk Ht Hnext. destruct (Hnext m1 l1 own1 Hok1) as (m2 & l2 & own2 & -> & Hok2 & S2).
  { intros x Hx. apply (st_transit _ _ _ _ S1). split; [apply Ht|]; lia. }
  rewrite list_insert_insert_eq in Hok2. exists m2, l2, own2. split_and!; [done|done|]. eapply settled_ext; [by eapply settled_trans| |]; intros x; cbn beta.
  - by rewrite (st_fresh _ _ _ _ S1).
  - rewrite (st_transit _ _ _ _ S1). intuition lia.
Qed.

Lemma after_give_settled (o : Owner) own a i MAX r : cached o = true -> (forall x, block a i x -> own x = Some OTransit) -> (r <> 0 -> forall x, block r MAX x -> own x = Some o \/ block a i x) ->
  settled own (after_give o OTransit own a i MAX r) (fun x => own x = Some OFresh) (fun x => (r <> 0 /\ block r MAX x) \/ (own x = Some OTransit /\ ~ block a i x)).
Proof using.
  intros Ho Ht Hr. unfold after_give. case_decide as Hz.
  - eapply settled_ext; [apply settled_hand| |]; [intros x Hx id; by rewrite (Ht x Hx)|by destruct o|..]; intros x; cbn beta; specialize (Ht x); unfold block in *; destruct o; try discriminate Ho; intuition congruence.
  - specialize (Hr Hz). assert (Hh : forall x, block r MAX x -> hand own a (2 ^ Z.of_nat i) o x = Some o) by (intros x Hx; rewrite hand_Some; destruct (Hr x Hx); unfold block in *; destruct (decide (a <= x < a + 2 ^ Z.of_nat i)); auto; done).
    eapply settled_ext; [eapply settled_trans; [apply settled_hand|apply settled_hand]| |]; try done.
    + intros x Hx id. by rewrite (Ht x Hx).
    + by destruct o.
    + intros x Hx id. rewrite (Hh x Hx). by destruct o.
    + intros x. cbn beta. rewrite hand_Some. specialize (Hr x). specialize (Ht x). unfold block in *. destruct o; try discriminate Ho; intuition congruence.
    + intros x. cbn beta. rewrite hand_Some. specialize (Hr x). specialize (Ht x). unfold block in *. destruct o; try discriminate Ho; destruct (decide (a <= x < a + 2 ^ Z.of_nat i)); intuition congruence.
Qed.

Section local.
Context (os : Os) (k : nat) (held : gmap nat (Z * Z * bool)).

Lemma local_free_ok m ls own l a i : backend_ok m ls held own -> ls !! k = Some l -> (14 <= i)%nat -> a mod 2 ^ Z.of_nat i = 0 -> in_transit own a (a + 2 ^ Z.of_nat i) ->
  absorbs k ls held own (local_free debug os (m, l) a (2 ^ Z.of_nat i)) a (a + 2 ^ Z.of_nat i).
Proof using.
  intros Hok Hl Hi Ha Ht. unfold local_free. rewrite Z.shiftl_1_l, trailing_zeros_pow. assert (Hls : ls <> []) by by destruct ls. destruct (Z.leb_spec (2 ^ Z.of_nat LOCAL_BITS) (2 ^ Z.of_nat i)) as [Hge|Hlt].
  - destruct (global_free_ok os m ls held own a i Hok Hls Hi Ha) as (m' & own' & -> & Hok' & Hset); [by intros x Hx; left; apply Ht|]. exists m', l, own'. rewrite list_insert_id by done. split_and!; [done|done|].
    eapply settled_ext; [done| |done]. intros x. cbn beta. specialize (Ht x). unfold block. intuition congruence.
  - apply Z.pow_lt_mono_r_iff in Hlt; [|lia..]. destruct (local_give_ok m ls held own Hok k l Hl a i) as (map' & b' & r & -> & Hok1 & Hr); [lia|done|done|].
    assert (S1 := after_give_settled (OLocal k) own a i LOCAL_BITS r eq_refl Ht (fun Hz => proj2 (Hr Hz))). set (l1 := mkLocal b' (l_metadata l) (l_requested l)) in *. destruct (Z.eqb_spec r 0) as [->|Hz]; cbn [negb].
    + eexists _, l1, _. split_and!; [done|exact Hok1|]. eapply settled_ext; [done|done|]. intros x. cbn beta. unfold block. tauto.
    + destruct (Hr Hz) as [Hal Hin]. destruct (global_free_ok os (set_map map' m) (<[k := l1]> ls) held _ r LOCAL_BITS Hok1) as (m' & own' & -> & Hok' & S2).
      { intros Hn. apply (f_equal length) in Hn. rewrite length_insert in Hn. by destruct ls. }
      { unfold LOCAL_BITS. lia. }
      { done. }
      { intros x Hx. left. apply (st_transit _ _ _ _ S1). auto. }
      exists m', l1, own'. split_and!; [done|done|]. eapply settled_ext; [by eapply settled_trans| |]; intros x; cbn beta; rewrite ?(st_fresh _ _ _ _ S1), ?(st_transit _ _ _ _ S1); specialize (Hin x); specialize (Ht x); unfold block in *; intuition congruence.
Qed.

Lemma free_meta_ok m ls own l a i : backend_ok m ls held own -> ls !! k = Some l -> (4 <= i)%nat -> a mod 2 ^ Z.of_nat i = 0 -> in_transit own a (a + 2 ^ Z.of_nat i) ->
  absorbs k ls held own (free_meta debug os (m, l) a (2 ^ Z.of_nat i)) a (a + 2 ^ Z.of_nat i).
Proof using.
  intros Hok Hl Hi Ha Ht. unfold free_meta. rewrite trailing_zeros_pow. change CHUNK with (2 ^ Z.of_nat 14). destruct (Z.leb_spec (2 ^ Z.of_nat 14) (2 ^ Z.of_nat i)) as [Hge|Hlt].
  { apply Z.pow_le_mono_r_iff in Hge; [|lia..]. apply local_free_ok; [done|done|lia|done|done]. }
  apply Z.pow_lt_mono_r_iff in Hlt; [|lia..]. destruct (meta_give_ok m ls held own Hok k l Hl a i) as (w' & b' & r & -> & Hok1 & Hr); [lia|done|done|].
  assert (S1 := after_give_settled (OMeta k) own a i 14 r eq_refl Ht (fun Hz => proj2 (Hr Hz))). set (l1 := mkLocal (l_ranges l) b' (l_requested l)) in *. destruct (Z.eqb_spec r 0) as [->|Hz]; cbn [negb].
  - eexists _, l1, _. split_and!; [done|exact Hok1|]. eapply settled_ext; [done|done|]. intros x. cbn beta. unfold block. tauto.
  - destruct (Hr Hz) as [Hal Hin]. destruct (local_free_ok (set_words w' m) (<[k := l1]> ls) _ l1 r 14 Hok1) as (m' & l' & own' & -> & Hok' & S2).
    { apply list_lookup_insert_eq. by eapply lookup_lt_Some. }
    { lia. }
    { done. }
    { intros x Hx. apply (st_transit _ _ _ _ S1). auto. }
    rewrite list_insert_insert_eq in Hok'. exists m', l', own'. split_and!; [done|done|]. eapply settled_ext; [by eapply settled_trans| |]; intros x; cbn beta; rewrite ?(st_fresh _ _ _ _ S1), ?(st_transit _ _ _ _ S1); specialize (Hin x); specialize (Ht x); unfold block in *; intuition congruence.
Qed.
(** The loops that hand a whole range over block by block. *)
Lemma absorb_range (give : Mem * Local -> Z -> nat -> result (Mem * Local)) MIN m ls own l lo hi : (4 <= MIN)%nat ->
  (forall m ls own l a i, backend_ok m ls held own -> ls !! k = Some l -> (MIN <= i)%nat -> a mod 2 ^ Z.of_nat i = 0 -> in_transit own a (a + 2 ^ Z.of_nat i) -> absorbs k ls held own (give (m, l) a i) a (a + 2 ^ Z.of_nat i)) ->
  backend_ok m ls held own -> ls !! k = Some l -> 0 < lo <= hi -> hi <= 2 ^ 48 -> lo mod 2 ^ Z.of_nat MIN = 0 -> hi mod 2 ^ Z.of_nat MIN = 0 -> in_transit own lo hi ->
  absorbs k ls held own (split_range give 130 (m, l) lo hi) lo hi.
Proof using.
  intros Hmin Hgive Hok Hl Hlo Hhi Hal Hah Ht. pose proof (lookup_lt_Some _ _ _ Hl) as Hk.
  set (I := fun (s : Mem * Local) cursor => lo <= cursor /\ absorbs k ls held own (Ok s) lo cursor).
  destruct (split_range_ok give I MIN hi) with (fuel := 130%nat) (s := (m, l)) (cursor := lo) as (s' & -> & _ & Habs); try done.
  - intros s cursor bits [Hc (m1 & l1 & own1 & [= ->] & Hok1 & S1)] _ Hb Hcal Hcend. pose proof (pow_pos bits) as Hp.
    assert (Hnext : absorbs k ls held own (let? s := Ok (m1, l1) in give s cursor bits) lo (cursor + 2 ^ Z.of_nat bits)).
    { apply (absorbs_seq k ls held own (Ok (m1, l1)) (fun s => give s cursor bits) lo cursor); [by exists m1, l1, own1|lia|done|intros x Hx; apply Ht; lia|].
      intros m2 l2 own2 Hok2 Ht2. apply Hgive; try done. by apply list_lookup_insert_eq. }
    destruct Hnext as (m2 & l2 & own2 & Heq & H2). exists (m2, l2). split; [done|]. split; [lia|]. by exists m2, l2, own2.
  - lia.
  - split; [lia|]. exists m, l, own. rewrite list_insert_id by done. split_and!; [done|done|]. eapply settled_ext; [apply settled_refl|done|]. intros x. cbn beta. intuition lia.
  - intros _. apply rounds_bound. lia.
Qed.

Lemma seed_metadata_ok m ls own l a size : backend_ok m ls held own -> ls !! k = Some l -> 0 < a -> 0 <= size -> a + size <= 2 ^ 48 -> a mod 16 = 0 -> size mod 16 = 0 -> in_transit own a (a + size) ->
  absorbs k ls held own (seed_metadata debug os (m, l) a size) a (a + size).
Proof using.
  intros Hok Hl Ha Hs Hend Hal Hsal Ht. unfold seed_metadata. rewrite usize_add_ok by (unfold usize_max; lia). apply (absorb_range _ 4); try done.
  - intros m' ls' own' l' a' i Hok' Hl' Hi Hal' Ht'. rewrite size_of_pow. by apply free_meta_ok.
  - lia.
  - change (2 ^ Z.of_nat 4) with 16. rewrite Z.add_mod, Hal, Hsal by lia. done.
Qed.

(** The rest of a chunk for metadata: blocks of doubling size. *)
Lemma split_chunk_ok fuel : forall m ls own l a i, backend_ok m ls held own -> ls !! k = Some l -> (4 <= i <= 14)%nat -> (14 - i <= fuel)%nat -> 0 < a -> a + 2 ^ 14 <= 2 ^ 48 -> a mod 2 ^ 14 = 0 ->
  in_transit own (a + 2 ^ Z.of_nat i) (a + 2 ^ 14) -> absorbs k ls held own (split_chunk debug os fuel (m, l) a (2 ^ Z.of_nat i)) (a + 2 ^ Z.of_nat i) (a + 2 ^ 14).
Proof using.
  induction fuel as [|fuel IH]; intros m ls own l a i Hok Hl Hi Hf Hpos Hend Hal Ht; cbn [split_chunk]; change CHUNK with (2 ^ 14); destruct (Z.ltb_spec (2 ^ Z.of_nat i) (2 ^ 14)) as [Hlt|Hge].
  1: { apply Z.pow_lt_mono_r_iff in Hlt; lia. }
  1,3: exists m, l, own; rewrite list_insert_id by done; split_and!; [done|done|]; eapply settled_ext; [apply settled_refl|done|]; intros x; cbn beta; intuition lia.
  assert (Hi' : (i < 14)%nat) by (apply Z.pow_lt_mono_r_iff in Hlt; lia). pose proof (pow_pos i) as Hp. rewrite usize_add_ok by (unfold usize_max; lia).
  assert (Hle : 2 ^ Z.of_nat (S i) <= 2 ^ 14) by (change (2 ^ 14) with (2 ^ Z.of_nat 14); apply Z.pow_le_mono_r; lia). rewrite pow_succ in Hle.
  apply (absorbs_seq k ls held own _ (fun s => split_chunk debug os fuel s a (2 ^ Z.of_nat i * 2)) _ (a + 2 ^ Z.of_nat (S i))); [|rewrite pow_succ; lia|by eapply lookup_lt_Some|done|].
  - rewrite pow_succ. replace (a + 2 * 2 ^ Z.of_nat i) with (a + 2 ^ Z.of_nat i + 2 ^ Z.of_nat i) by lia. apply free_meta_ok; [done|done|lia| |intros x Hx; apply Ht; lia].
    rewrite Z.add_mod, (aligned_le a i 14), Z.mod_same by (done || lia). done.
  - intros m' l' own' Hok' Ht'. replace (2 ^ Z.of_nat i * 2) with (2 ^ Z.of_nat (S i)) by (rewrite pow_succ; lia). apply IH; try done; [|lia|lia]. apply list_lookup_insert_eq. by eapply lookup_lt_Some.
Qed.
End local.

Context (page : Z) (Hpage : 0 < page /\ page mod 16 = 0).

Lemma global_refill_ok os m ls held own i : backend_ok m ls held own -> reserve_ok m os = true -> no_fresh own -> alloc_size i ->
  exists m' r own', global_refill page debug os m (2 ^ Z.of_nat i) = Ok (m', r) /\ backend_ok m' ls held own' /\ settled own own' (fun x => r <> 0 /\ block r i x) (fun x => own x = Some OTransit)
    /\ (r <> 0 -> r mod 2 ^ Z.of_nat i = 0 /\ forall x, block r i x -> own x = None) /\ (r = 0 -> refuses os).
Proof using Hpage.
  intros Hok Hos Hnf [Hi Hi46]. unfold global_refill. pose proof (pow_pos i) as Hp. destruct (bo_requested _ _ _ _ Hok) as [Hreq _].
  destruct (next_power_pow (Z.max (Z.max RESERVE_MIN (Z.min (g_requested (m_global m)) GLOBAL_REFILL)) (2 ^ Z.of_nat i))) as (j & Heqj & Hj); [lia|].
  assert (Hj46 : (j <= 46)%nat).
  { apply Nat2Z.inj_le, (Z.pow_le_mono_r_iff 2); [lia..|]. rewrite <- Heqj. assert (2 ^ Z.of_nat i <= 2 ^ Z.of_nat 46) by (apply Z.pow_le_mono_r; lia). apply next_power_le; change (2 ^ Z.of_nat 46) with 70368744177664 in *; change GLOBAL_REFILL with 16777216; unfold RESERVE_MIN; lia. }
  rewrite Heqj. assert (Hij : (i <= j)%nat) by (apply Nat2Z.inj_le, (Z.pow_le_mono_r_iff 2); lia). assert (Hj16 : (16 <= j)%nat) by (apply Nat2Z.inj_le, (Z.pow_le_mono_r_iff 2); [lia..|]; change (2 ^ Z.of_nat 16) with RESERVE_MIN; lia).
  assert (Hhal : hal_reserve os (2 ^ Z.of_nat j) (2 ^ Z.of_nat j) = os_reserve os (2 ^ Z.of_nat j)).
  { unfold hal_reserve. pose proof (pow_pos j). rewrite is_power_of_two_pow, (proj2 (Z.eqb_neq _ _)) by lia. change RESERVE_MIN with (2 ^ Z.of_nat 16).
    rewrite (aligned_le _ 16 j Hj16) by (apply Z.mod_same; lia). done. }
  rewrite Hhal. pose proof (reserve_ok_at m os j Hos (conj Hj16 Hj46)) as Ha. cbn zeta in Ha. set (a := os_reserve os (2 ^ Z.of_nat j)) in *.
  assert (Hsame : settled own own (fun x => 0 <> 0 /\ block 0 i x) (fun x => own x = Some OTransit)) by (eapply settled_ext; [apply settled_refl|intros x; cbn beta; split; [by intros ?%Hnf|by intros [? _]]|done]).
  destruct Ha as [Hz|(Hpos & Hal & H64 & Hdis)]; [rewrite Hz; exists m, 0, own; split_and!; try done; intros _; right; right; exists j; split; [done|by left]|].
  rewrite (proj2 (Z.eqb_neq a 0)) by lia. destruct (decide (os_register os = true /\ a + 2 ^ Z.of_nat j <= 2 ^ 48)) as [[Hreg H48]|Hno].
  2: { rewrite register_none by (destruct (os_register os); [right; apply Z.nle_gt; tauto|by left]). exists m, 0, own. split_and!; [by destruct m|done|done|done|].
       intros _. destruct (os_register os) eqn:Hr; [|by left]. right; right. exists j. split; [done|]. right. fold a. apply Z.nle_gt. tauto. }
  rewrite Hreg. destruct (register_new_ok page m ls held own Hpage Hok a j Hpos Hj16 Hal H48 Hdis) as (map' & Hregister & Hnone & Hok1). cbn [m_map m_global set_map set_reserved]. rewrite Hregister. cbn [negb].
  assert (Hle : 2 ^ Z.of_nat i <= 2 ^ Z.of_nat j) by (apply Z.pow_le_mono_r; lia). rewrite !usize_add_ok by (unfold usize_max; lia).
  pose proof (global_requested_ok _ _ _ _ Hok1 (saturating_add usize_max (g_requested (m_global m)) (2 ^ Z.of_nat j)) ltac:(unfold saturating_add, usize_max; lia)) as Hok2.
  destruct (global_split_ok _ ls held _ a i j Hok2 Hpos ltac:(lia) Hal H48) as (m' & own' & Hsplit & Hok' & Hset).
  { intros x. rewrite hand_Some. specialize (Hnf x). unfold block. tauto. }
  cbn [m_global m_map m_words m_reserved set_map set_reserved set_global] in Hsplit |- *. rewrite Hsplit. exists m', a, own'. split_and!; [done|done| | |lia].
  - eapply settled_ext; [eapply settled_trans; [apply (settled_hand own a (2 ^ Z.of_nat j) OFresh)|exact Hset]| |]; [intros x Hx id; by rewrite (Hnone x Hx)|done|intros x; cbn beta; assert (a <> 0) by lia; tauto|].
    intros x. cbn beta. rewrite hand_Some. specialize (Hnone x). unfold block in Hnone. intuition congruence.
  - intros _. split; [by apply (aligned_le a i j)|]. intros x Hx. apply Hnone. unfold block in *. lia.
Qed.

Lemma global_alloc_reserved_ok os m ls held own i : backend_ok m ls held own -> ls <> [] -> reserve_ok m os = true -> no_fresh own -> alloc_size i ->
  exists m' r own', global_alloc_reserved page debug os m (2 ^ Z.of_nat i) = Ok (m', r) /\ backend_ok m' ls held own' /\ settled own own' (fun x => r <> 0 /\ block r i x) (fun x => own x = Some OTransit)
    /\ (r <> 0 -> r mod 2 ^ Z.of_nat i = 0) /\ (r = 0 -> refuses os).
Proof using Hpage.
  intros Hok Hls Hos Hnf Hi. unfold global_alloc_reserved. rewrite (bo_map _ _ _ _ Hok Hls), trailing_zeros_pow. cbn [negb].
  destruct (global_take_ok debug m ls held own Hok i (proj1 Hi)) as (map' & b' & r & Htake & Hok1 & Hsome). rewrite Htake. unfold after_take in Hok1. case_decide as Hr.
  - subst r. cbn [Z.eqb]. destruct (global_refill_ok os _ ls held own i Hok1 Hos Hnf Hi) as (m' & r & own' & Hrefill & Hok' & Hset & Hal & Href). exists m', r, own'. split_and!; try done. intros ?. by apply Hal.
  - rewrite (proj2 (Z.eqb_neq r 0)) by done. destruct (Hsome Hr) as [Hal Hin]. eexists _, r, _. split_and!; [done|exact Hok1| |done|done].
    eapply settled_ext; [apply settled_hand| |]; [intros x Hx id; by rewrite (Hin x Hx)|done|..]; intros x; cbn beta; specialize (Hnf x); specialize (Hin x); unfold block in *; intuition congruence.
Qed.

Lemma global_alloc_ok os m ls held own i : backend_ok m ls held own -> ls <> [] -> reserve_ok m os = true -> no_fresh own -> alloc_size i ->
  exists m' r own', global_alloc page debug os m (2 ^ Z.of_nat i) = Ok (m', r) /\ backend_ok m' ls held own' /\ settled own own' (fun _ => False) (fun x => own x = Some OTransit \/ (r <> 0 /\ block r i x))
    /\ (r <> 0 -> r mod 2 ^ Z.of_nat i = 0) /\ (r = 0 -> refuses os).
Proof using Hpage.
  intros Hok Hls Hos Hnf Hi. unfold global_alloc. destruct (global_alloc_reserved_ok os m ls held own i Hok Hls Hos Hnf Hi) as (m1 & r & own1 & -> & Hok1 & Hset1 & Hal & Href).
  destruct (Z.eqb_spec r 0) as [->|Hr]; [exists m1, 0, own1; split_and!; try done; eapply settled_ext; [done|..]; intros x; cbn beta; tauto|].
  assert (Hfresh : forall x, block r i x -> own1 x = Some OFresh) by (intros x Hx; by apply (st_fresh _ _ _ _ Hset1)). destruct (os_commit os) eqn:Hc; cbn [negb].
  - eexists _, r, _. split_and!; [done|apply commit_ok; [exact Hok1|destruct Hi; lia|by apply Hal|done]| |done|done].
    eapply settled_ext; [eapply settled_trans; [done|apply settled_hand]| |]; [intros x Hx id; by rewrite (Hfresh x Hx)|done|..]; intros x; cbn beta; rewrite ?(st_fresh _ _ _ _ Hset1), ?(st_transit _ _ _ _ Hset1); unfold block;
      destruct (decide (r <= x < r + 2 ^ Z.of_nat i)); intuition congruence.
  - destruct (global_free_ok os m1 ls held own1 r i Hok1 Hls (proj1 Hi) (Hal Hr)) as (m' & own' & -> & Hok' & Hset'); [by intros x Hx; right; apply Hfresh|]. exists m', 0, own'. split_and!; try done; [|by intros _; right; left].
    eapply settled_ext; [by eapply settled_trans| |]; intros x; cbn beta; rewrite ?(st_fresh _ _ _ _ Hset1); [tauto|]. rewrite <- (st_transit _ _ _ _ Hset1). specialize (Hfresh x). intuition congruence.
Qed.


(** A run of owner [k] gives a block of [2 ^ i] bytes out, or nothing when the operating system refuses. *)
Definition serves (k : nat) (ls : list Local) (held : gmap nat (Z * Z * bool)) (own : Z -> option Owner) (os : Os) (run : result (Mem * Local * Z)) (i : nat) : Prop :=
  exists m' l' r own', run = Ok (m', l', r) /\ backend_ok m' (<[k := l']> ls) held own' /\ settled own own' (fun _ => False) (fun x => r <> 0 /\ block r i x)
    /\ (r <> 0 -> r mod 2 ^ Z.of_nat i = 0) /\ (r = 0 -> refuses os).

Section local_alloc.
Context (os : Os) (k : nat) (held : gmap nat (Z * Z * bool)).

Lemma global_serves m ls own l i : backend_ok m ls held own -> ls !! k = Some l -> reserve_ok m os = true -> no_fresh own -> no_transit own -> alloc_size i ->
  serves k ls held own os (let? (m, address) := global_alloc page debug os m (2 ^ Z.of_nat i) in Ok (m, l, address)) i.
Proof using Hpage.
  intros Hok Hl Hos Hnf Hnt Hi. destruct (global_alloc_ok os m ls held own i Hok) as (m' & r & own' & -> & Hok' & Hset & Hal & Href); [by destruct ls|done..|].
  exists m', l, r, own'. rewrite list_insert_id by done. split_and!; try done. eapply settled_ext; [done|done|]. intros x. cbn beta. specialize (Hnt x). tauto.
Qed.

Lemma local_refill_ok m ls own l i : backend_ok m ls held own -> ls !! k = Some l -> reserve_ok m os = true -> no_fresh own -> no_transit own -> alloc_size i ->
  serves k ls held own os (local_refill page debug os m l (2 ^ Z.of_nat i)) i.
Proof using Hpage.
  intros Hok Hl Hos Hnf Hnt [Hi Hi46]. unfold local_refill. pose proof (pow_pos i) as Hp. destruct (next_power_pow (Z.max (Z.min (l_requested l) (Z.shiftl 1 (Z.of_nat LOCAL_BITS))) (2 ^ Z.of_nat i))) as (j & Heqj & Hj); [lia|].
  assert (Hj46 : (j <= 46)%nat).
  { apply Nat2Z.inj_le, (Z.pow_le_mono_r_iff 2); [lia..|]. rewrite <- Heqj. assert (2 ^ Z.of_nat i <= 2 ^ Z.of_nat 46) by (apply Z.pow_le_mono_r; lia). apply next_power_le; change (2 ^ Z.of_nat 46) with 70368744177664 in *; change (Z.shiftl 1 (Z.of_nat LOCAL_BITS)) with 2097152; lia. }
  rewrite Heqj.   assert (Hij : (i <= j)%nat) by (apply Nat2Z.inj_le, (Z.pow_le_mono_r_iff 2); lia). destruct (global_serves m ls own l j Hok Hl Hos Hnf Hnt) as (m1 & l1 & a & own1 & Heq & Hok1 & S1 & Hal & Href); [split; lia|].
  destruct (global_alloc page debug os m (2 ^ Z.of_nat j)) as [[m1' a']| |]; [|done|done]. injection Heq as -> <- ->. rewrite list_insert_id in Hok1 by done. destruct (Z.eqb_spec a 0) as [->|Ha].
  { exists m1, l, 0, own1. rewrite list_insert_id by done. split_and!; try done. eapply settled_ext; [done|done|]. intros x. cbn beta. intuition. }
  specialize (Hal Ha). assert (Ht : forall x, own1 x = Some OTransit <-> block a j x) by (intros x; rewrite (st_transit _ _ _ _ S1); tauto).
  destruct (owned_bounds _ _ _ _ Hok1 a j) as (Hlo & Hhi & _); [intros x Hx%Ht; by rewrite Hx|]. assert (Hle : 2 ^ Z.of_nat i <= 2 ^ Z.of_nat j) by (apply Z.pow_le_mono_r; lia).
  rewrite !usize_add_ok by (unfold usize_max; lia). set (req := saturating_add usize_max (l_requested l) (2 ^ Z.of_nat j)).
  assert (Hreq : 0 <= req). { destruct (bo_requested _ _ _ _ Hok) as [_ Hf]. pose proof (Forall_lookup_1 _ _ _ _ Hf Hl) as Hl0. cbn beta in Hl0. subst req. unfold saturating_add, usize_max. lia. }
  pose proof (local_requested_ok _ _ _ _ Hok1 k l req Hl Hreq) as Hok2. set (l2 := mkLocal (l_ranges l) (l_metadata l) req) in *. pose proof (lookup_lt_Some _ _ _ Hl) as Hk.
  assert (Hm14 : forall n, (14 <= n)%nat -> (n <= j)%nat -> (a + 2 ^ Z.of_nat n) mod 2 ^ Z.of_nat 14 = 0).
  { intros n Hn Hnj. rewrite Z.add_mod, (aligned_le a 14 j), (aligned_le (2 ^ Z.of_nat n) 14 n) by (done || lia || (apply Z.mod_same; pose proof (pow_pos n); lia)). done. }
  destruct (absorb_range k held (fun s cursor bits => local_free debug os s cursor (size_of bits)) 14 m1 (<[k := l2]> ls) own1 l2 (a + 2 ^ Z.of_nat i) (a + 2 ^ Z.of_nat j)) as (m3 & l3 & own3 & -> & Hok3 & S3); try done.
  - lia.
  - intros m' ls' own' l' a' i' Hok' Hl' Hi' Hal' Ht'. rewrite size_of_pow. by apply local_free_ok.
  - by apply list_lookup_insert_eq.
  - lia.
  - apply Hm14; lia.
  - apply Hm14; lia.
  - intros x Hx. apply Ht. unfold block. lia.
  - rewrite list_insert_insert_eq in Hok3. exists m3, l3, a, own3. split_and!; [done|done| |intros _; by apply (aligned_le a i j)|done]. eapply settled_ext; [by eapply settled_trans| |]; intros x; cbn beta.
    + rewrite (st_fresh _ _ _ _ S1). done.
    + rewrite Ht. unfold block. intuition lia.
Qed.

Lemma local_alloc_ok m ls own l i : backend_ok m ls held own -> ls !! k = Some l -> reserve_ok m os = true -> no_fresh own -> no_transit own -> alloc_size i ->
  serves k ls held own os (local_alloc page debug os m l (2 ^ Z.of_nat i)) i.
Proof using Hpage.
  intros Hok Hl Hos Hnf Hnt [Hi Hi']. unfold local_alloc. rewrite is_power_of_two_pow, trailing_zeros_pow, !Z.shiftl_1_l. change CHUNK with (2 ^ Z.of_nat 14).
  rewrite !(proj2 (Z.leb_le _ _)) by (apply Z.pow_le_mono_r; lia). cbn [negb andb orb]. destruct (Z.leb_spec (2 ^ Z.of_nat LOCAL_BITS) (2 ^ Z.of_nat i)) as [Hge|Hlt]; [by apply global_serves|].
  destruct (local_take_ok debug m ls held own Hok k l Hl i Hi) as (map' & b' & r & -> & Hok1 & Hr). set (l1 := mkLocal b' (l_metadata l) (l_requested l)) in *. unfold after_take in Hok1. case_decide as Hz.
  - subst r. cbn [Z.eqb negb]. pose proof (lookup_lt_Some _ _ _ Hl) as Hk. destruct (local_refill_ok (set_map map' m) (<[k := l1]> ls) own l1 i Hok1) as (m' & l' & r & own' & -> & Hok' & H'); try done; [by apply list_lookup_insert_eq|].
    rewrite list_insert_insert_eq in Hok'. by exists m', l', r, own'.
  - rewrite (proj2 (Z.eqb_neq r 0)) by done. destruct (Hr Hz) as [Hal Hin]. eexists _, l1, r, _. split_and!; [done|exact Hok1| |done|done].
    eapply settled_ext; [apply settled_hand| |]; [intros x Hx id; by rewrite (Hin x Hx)|done|..]; intros x; cbn beta; specialize (Hnf x); specialize (Hnt x); unfold block; intuition congruence.
Qed.

Lemma alloc_meta_ok m ls own l i : backend_ok m ls held own -> ls !! k = Some l -> reserve_ok m os = true -> no_fresh own -> no_transit own -> (4 <= i <= 46)%nat ->
  serves k ls held own os (alloc_meta page debug os m l (2 ^ Z.of_nat i)) i.
Proof using Hpage.
  intros Hok Hl Hos Hnf Hnt [Hi Hi']. unfold alloc_meta. rewrite is_power_of_two_pow, trailing_zeros_pow. rewrite (proj2 (Z.ltb_ge _ 16)) by (change 16 with (2 ^ Z.of_nat 4); apply Z.pow_le_mono_r; lia).
  change CHUNK with (2 ^ Z.of_nat 14). cbn [negb orb]. destruct (Z.leb_spec (2 ^ Z.of_nat 14) (2 ^ Z.of_nat i)) as [Hge|Hlt]; [apply Z.pow_le_mono_r_iff in Hge; [|lia..]; apply local_alloc_ok; try done; by split; [lia|]|].
  apply Z.pow_lt_mono_r_iff in Hlt; [|lia..]. destruct (meta_take_ok debug m ls held own Hok k l Hl i Hi) as (w' & b' & r & -> & Hok1 & Hr). set (l1 := mkLocal (l_ranges l) b' (l_requested l)) in *. unfold after_take in Hok1.
  pose proof (lookup_lt_Some _ _ _ Hl) as Hk. case_decide as Hz.
  2: { rewrite (proj2 (Z.eqb_neq r 0)) by done. destruct (Hr Hz) as [Hal Hin]. eexists _, l1, r, _. split_and!; [done|exact Hok1| |done|done].
       eapply settled_ext; [apply settled_hand| |]; [intros x Hx id; by rewrite (Hin x Hx)|done|..]; intros x; cbn beta; specialize (Hnf x); specialize (Hnt x); unfold block; intuition congruence. }
  subst r. cbn [Z.eqb negb]. destruct (local_alloc_ok (set_words w' m) (<[k := l1]> ls) own l1 14 Hok1) as (m2 & l2 & a & own2 & -> & Hok2 & S2 & Hal & Href); try done; [by apply list_lookup_insert_eq|split; lia|].
  rewrite list_insert_insert_eq in Hok2. destruct (Z.eqb_spec a 0) as [->|Ha]; [exists m2, l2, 0, own2; split_and!; try done; eapply settled_ext; [done|done|]; intros x; cbn beta; intuition|].
  specialize (Hal Ha). assert (Ht : forall x, own2 x = Some OTransit <-> block a 14 x) by (intros x; rewrite (st_transit _ _ _ _ S2); tauto). destruct (owned_bounds _ _ _ _ Hok2 a 14) as (Hlo & Hhi & _); [intros x Hx%Ht; by rewrite Hx|].
  assert (Hle : 2 ^ Z.of_nat i < 2 ^ Z.of_nat 14) by (apply Z.pow_lt_mono_r; lia). pose proof (pow_pos i).
  destruct (split_chunk_ok os k held 64 m2 (<[k := l2]> ls) own2 l2 a i Hok2) as (m3 & l3 & own3 & -> & Hok3 & S3); try done; [by apply list_lookup_insert_eq|lia|lia|lia|intros x Hx; apply Ht; unfold block in *; change (2 ^ Z.of_nat 14) with (2 ^ 14); lia|].
  rewrite list_insert_insert_eq in Hok3. exists m3, l3, a, own3. split_and!; [done|done| |intros _; by apply (aligned_le a i 14); [lia|]|done]. eapply settled_ext; [by eapply settled_trans| |]; intros x; cbn beta.
  - by rewrite (st_fresh _ _ _ _ S2).
  - rewrite Ht. unfold block. change (2 ^ Z.of_nat 14) with (2 ^ 14) in *. intuition lia.
Qed.
End local_alloc.
End operations.

(** Clients use what they hold: memory and, for whole chunks, entries of the page map. *)
Section use.
Context (m : Mem) (ls : list Local) (held : gmap nat (Z * Z * bool)) (own : Z -> option Owner) (Hok : backend_ok m ls held own).

Lemma backend_write_ok id a size whole x v : held !! id = Some (a, size, whole) -> a <= x < a + size -> x mod 8 = 0 ->
  is_Some (words (m_words m) !! x) /\ backend_ok (set_words (mkInline (<[x := v]> (words (m_words m)))) m) ls held own.
Proof using Hok.
  intros Hid Hx Hm. assert (Ho : forall y, a <= y < a + size -> own y = Some (OHeld id)) by (intros y Hy; apply (bo_held _ _ _ _ Hok); by exists (a, size), whole).
  destruct (bo_aligned _ _ _ _ Hok id a size whole Hid) as (Ha & Hs & _). destruct (granule_aligned x) as [Hg Hgx].
  assert (Hw : is_Some (words (m_words m) !! x)).
  { destruct (bo_committed _ _ _ _ Hok x) as (_ & _ & H0 & H8); [by rewrite (Ho x Hx)|]. assert (x = granule x \/ x = granule x + 8) as [->| ->] by (Z.div_mod_to_equations; lia); done. }
  assert (Hback : forall y, backed (m_words m) y -> backed (mkInline (<[x := v]> (words (m_words m)))) y).
  { intros y (Hpos & Hym & H0 & H8). split_and!; [done|done|by apply insert_present|by apply insert_present]. }
  split; [done|]. apply (update_ok m ls held own); try done; try apply Hok.
  - intros y [k' Hy] Hb. destruct Hb as (Hpos & Hym & H0 & H8). assert (Hn : ~ (a <= y < a + size)) by (intros Hin; rewrite (Ho y Hin) in Hy; done).
    assert (y <> x /\ y + 8 <> x) as [] by (split; intros <-; Z.div_mod_to_equations; lia). split_and!; [by apply Hback| |done].
    cbn [node_read inline_nodes]. unfold inline_read. cbn [words set_words m_words]. by rewrite !lookup_insert_ne by done.
  - intros y Hc. by apply Hback, Hok.
Qed.

Lemma use_map_ok id a size whole meta owner : held !! id = Some (a, size, whole) -> a mod 2 ^ 14 = 0 -> size mod 2 ^ 14 = 0 -> Z.testbit meta 0 = false ->
  exists map', assign (m_map m) a size meta owner = Ok map' /\ backend_ok (set_map map' m) ls held own.
Proof using Hok.
  intros Hid Ha Hs Hmeta. assert (Ho : forall y, a <= y < a + size -> own y = Some (OHeld id)) by (intros y Hy; apply (bo_held _ _ _ _ Hok); by exists (a, size), whole).
  destruct (bo_aligned _ _ _ _ Hok id a size whole Hid) as (_ & _ & Hpos). assert (Hmapped : forall x, a <= x < a + size -> is_Some (entries (m_map m) !! entry_index x)) by (intros x Hx; apply (bo_mapped _ _ _ _ Hok); by rewrite (Ho x Hx)).
  assert (Hpa : 2 ^ 14 <= a) by (apply (bo_mapped _ _ _ _ Hok); by rewrite Ho by lia). destruct (assign_ok (m_map m) a size meta owner ltac:(lia) Ha Hpos Hmapped) as (map' & Hassign & Hin & Hout).
  set (last := entry_index a + (size + 2 ^ 14 - 1) / 2 ^ 14) in *. assert (Hidx : forall x, entry_index x = x / 2 ^ 14) by (intros x; unfold entry_index, CHUNK_BITS; by rewrite Z.shiftr_div_pow2 by lia).
  exists map'. split; [done|]. assert (Hsame : forall i, is_Some (entries map' !! i) <-> is_Some (entries (m_map m) !! i)).
  { intros i. destruct (decide (entry_index a <= i < last)) as [Hi|Hi]; [rewrite Hin by done; by rewrite fmap_is_Some|rewrite Hout by lia; done]. }
  apply (update_ok m ls held own); try done; try apply Hok.
  - apply entries_agree. intros x Hx Hm e He. cbn [set_map m_map]. rewrite Hout; [done|]. assert (Hn : ~ (a <= x < a + size)) by (intros Hbad; rewrite (Ho x Hbad) in Hx; destruct Hx as [?|[? ?]]; done).
    rewrite !Hidx in *. subst last. rewrite Hidx. Z.div_mod_to_equations; lia.
  - intros x Hx. cbn [set_map m_map]. rewrite Hsame. by apply Hok.
  - intros j Hj Hx. rewrite <- (bo_power _ _ _ _ Hok j Hj Hx). apply merge_marks. intros i. cbn [set_map m_map]. destruct (decide (entry_index a <= i < last)) as [Hi|Hi]; [|by rewrite Hout by lia].
    rewrite Hin by done. destruct (entries (m_map m) !! i) as [[old own0]|]; [|done]. cbn. by rewrite land_boundary.
Qed.
End use.

(** ** The backend and its clients *)

(** The shared memory, the owners, and what clients hold: an address, a size, and whether it is a whole
    block, which may be given back. *)
Record World : Type := mkWorld { w_mem : Mem; w_locals : list Local; w_held : gmap nat (Z * Z * bool) }.

Definition world_new : World := mkWorld mem_new [] ∅.

Inductive Event : Type :=
  | BMap (reserved : bool)
  | BNew
  | BAlloc (k id : nat) (os : Os) (size : Z)
  | BAllocMeta (k id : nat) (os : Os) (size : Z)
  | BFree (k id : nat) (os : Os)
  | BFreeMeta (k id : nat) (os : Os)
  | BSeed (k id : nat) (os : Os) (offset : Z)
  | BWrite (id : nat) (address value : Z)
  | BAssign (id : nat) (meta owner : Z).

Section machine.
Context (page : Z) (debug : bool).

Definition step (w : World) (e : Event) : result World :=
  let '(mkWorld m ls held) := w in
  match e with
  | BMap reserved => Ok (mkWorld (backend_map reserved m).1 ls held)
  | BNew => Ok (mkWorld m (ls ++ [local_new]) held)
  | BAlloc k id os size =>
      let? l := expect (ls !! k) in
      let? (m, l, a) := local_alloc page debug os m l size in
      Ok (mkWorld m (<[k := l]> ls) (if a =? 0 then held else <[id := (a, size, true)]> held))
  | BAllocMeta k id os size =>
      let? l := expect (ls !! k) in
      let? (m, l, a) := alloc_meta page debug os m l size in
      Ok (mkWorld m (<[k := l]> ls) (if a =? 0 then held else <[id := (a, size, true)]> held))
  | BFree k id os =>
      let? l := expect (ls !! k) in
      let? (a, size, _) := expect (held !! id) in
      let? (m, l) := local_free debug os (m, l) a size in
      Ok (mkWorld m (<[k := l]> ls) (delete id held))
  | BFreeMeta k id os =>
      let? l := expect (ls !! k) in
      let? (a, size, _) := expect (held !! id) in
      let? (m, l) := free_meta debug os (m, l) a size in
      Ok (mkWorld m (<[k := l]> ls) (delete id held))
  | BSeed k id os offset =>
      let? l := expect (ls !! k) in
      let? (a, size, _) := expect (held !! id) in
      let? (m, l) := seed_metadata debug os (m, l) (a + offset) (size - offset) in
      Ok (mkWorld m (<[k := l]> ls) (<[id := (a, offset, false)]> held))
  | BWrite id address value =>
      let? _ := expect (words (m_words m) !! address) in
      Ok (mkWorld (set_words (mkInline (<[address := value]> (words (m_words m)))) m) ls held)
  | BAssign id meta owner =>
      let? (a, size, _) := expect (held !! id) in
      let? map := assign (m_map m) a size meta owner in
      Ok (mkWorld (set_map map m) ls held)
  end.

(** What the callers promise, as the comments on safety ask for, and what the operating system promises. *)
Definition allowed (w : World) (e : Event) : bool :=
  let '(mkWorld m ls held) := w in
  match e with
  | BMap _ => true
  | BNew => g_map (m_global m)
  | BAlloc k id os _ | BAllocMeta k id os _ => (k <? length ls)%nat && negb (bool_decide (is_Some (held !! id))) && reserve_ok m os
  | BFree k id _ => (k <? length ls)%nat && match held !! id with Some (_, size, true) => CHUNK <=? size | _ => false end
  | BFreeMeta k id _ => (k <? length ls)%nat && match held !! id with Some (_, _, whole) => whole | _ => false end
  | BSeed k id _ offset => (k <? length ls)%nat && match held !! id with Some (_, size, _) => (0 <? offset) && (offset <? size) && (offset mod 16 =? 0) | _ => false end
  | BWrite id address _ => match held !! id with Some (a, size, _) => (a <=? address) && (address <? a + size) && (address mod 8 =? 0) | _ => false end
  | BAssign id meta _ => match held !! id with Some (a, size, _) => (a mod CHUNK =? 0) && (size mod CHUNK =? 0) && negb (Z.testbit meta 0) | _ => false end
  end.

Fixpoint run (es : list Event) (w : World) : result World :=
  match es with
  | [] => Ok w
  | e :: es => let? w := step w e in run es w
  end.

Fixpoint run_allowed (es : list Event) (w : World) : bool :=
  match es with
  | [] => true
  | e :: es => allowed w e && match step w e with Ok w => run_allowed es w | _ => true end
  end.
End machine.

(** Between the operations nothing is on its way. *)
Definition world_ok (w : World) (own : Z -> option Owner) : Prop := backend_ok (w_mem w) (w_locals w) (w_held w) own /\ no_fresh own /\ no_transit own.

Lemma world_new_ok : world_ok world_new (fun _ => None).
Proof.
  split; [|done]. split; try done.
  - by apply range_new.
  - by intros k x [?|?].
  - intros id x. split; [done|]. intros (r & whole & Hr & _). cbn [w_held world_new] in Hr. by rewrite lookup_empty in Hr.
  - intros x. split; [done|]. by intros ?%Exists_nil.
Qed.

Lemma step_map_ok w own reserved : world_ok w own -> world_ok (mkWorld (backend_map reserved (w_mem w)).1 (w_locals w) (w_held w)) own.
Proof.
  intros [Hok H]. split; [|done]. cbn [w_mem w_locals w_held]. unfold backend_map. destruct (g_map (m_global (w_mem w))) eqn:Hg; [done|]. destruct reserved; [|done]. destruct Hok. by split.
Qed.

Lemma step_new_ok w own : world_ok w own -> g_map (m_global (w_mem w)) = true -> world_ok (mkWorld (w_mem w) (w_locals w ++ [local_new]) (w_held w)) own.
Proof.
  intros [Hok H] Hg. split; [|done]. cbn [w_mem w_locals w_held]. set (ls := w_locals w) in *. assert (Hnone : forall x, own x <> Some (OLocal (length ls)) /\ own x <> Some (OMeta (length ls))).
  { intros x. split; intros Hx; assert (length ls < length ls)%nat by (eapply (bo_owner _ _ _ _ Hok); eauto); lia. }
  pose proof Hok as [B1 B2 B3 B4 B5 B6 B7 B8 B9 B10 B11 B12 B13]. split; try done.
  - intros k l [Hl|[Hk Hl]]%lookup_app_Some; [by apply B3|]. apply list_lookup_singleton_Some in Hl as [Hz <-]. replace k with (length ls) by lia. apply range_new. intros x. apply Hnone.
  - intros k l [Hl|[Hk Hl]]%lookup_app_Some; [by apply B4|]. apply list_lookup_singleton_Some in Hl as [Hz <-]. replace k with (length ls) by lia. apply range_new. intros x. apply Hnone.
  - intros k x Hx. rewrite length_app. specialize (B5 k x Hx). lia.
  - split; [by apply B13|]. apply Forall_app. split; [by apply B13|by repeat constructor].
Qed.

Section steps.
Context (page : Z) (debug : bool) (Hpage : 0 < page /\ page mod 16 = 0).

(** A block that was given out is held, and nothing else is on its way. *)
Lemma serves_ok k ls held own os ans i id : serves k ls held own os ans i -> (4 <= i)%nat -> held !! id = None ->
  exists m l r own', ans = Ok (m, l, r) /\ world_ok (mkWorld m (<[k := l]> ls) (if r =? 0 then held else <[id := (r, 2 ^ Z.of_nat i, true)]> held)) own'.
Proof using.
  intros (m & l & r & own' & -> & Hok & S & Hal & _) Hi Hid. destruct (Z.eqb_spec r 0) as [->|Hr].
  - exists m, l, 0, own'. split; [done|]. split_and!; [done|intros x Hx; by apply (st_fresh _ _ _ _ S) in Hx|intros x Hx; by apply (st_transit _ _ _ _ S) in Hx as [? _]].
  - exists m, l, r, (hand own' r (2 ^ Z.of_nat i) (OHeld id)). rewrite (proj2 (Z.eqb_neq r 0)) by done. split; [done|]. specialize (Hal Hr). split_and!.
    + apply hold_ok; [done| |done|by apply (mod16 r i)|by apply pow_mod16|apply pow_pos|by intros _; exists i]. intros x Hx. by apply (st_transit _ _ _ _ S).
    + intros x [[_ ?]|[_ Hx]]%hand_Some; [done|]. by apply (st_fresh _ _ _ _ S) in Hx.
    + intros x [[_ ?]|[Hn Hx]]%hand_Some; [done|]. apply (st_transit _ _ _ _ S) in Hx as [_ Hx]. by apply Hn.
Qed.

(** What was given up is in a range again, and nothing is on its way. *)
Lemma absorbs_ok k ls held own ans lo hi : absorbs k ls held own ans lo hi -> no_fresh own -> (forall x, own x = Some OTransit -> lo <= x < hi) ->
  exists m l own', ans = Ok (m, l) /\ world_ok (mkWorld m (<[k := l]> ls) held) own'.
Proof using.
  intros (m & l & own' & -> & Hok & S) Hnf Ht. exists m, l, own'. split; [done|]. split_and!; [done|intros x Hx; by apply (st_fresh _ _ _ _ S), Hnf in Hx|]. intros x Hx. apply (st_transit _ _ _ _ S) in Hx as [Hx Hn]. by apply Hn, Ht.
Qed.

Lemma unheld w own id a size whole : world_ok w own -> w_held w !! id = Some (a, size, whole) ->
  let own1 := hand own a size OTransit in backend_ok (w_mem w) (w_locals w) (delete id (w_held w)) own1 /\ no_fresh own1 /\ in_transit own1 a (a + size) /\ forall x, own1 x = Some OTransit -> a <= x < a + size.
Proof using.
  intros (Hok & Hnf & Hnt) Hid. split_and!; [by eapply unhold_ok| |intros x Hx; by apply hand_in|].
  - intros x [[_ ?]|[_ Hx]]%hand_Some; [done|]. by apply Hnf in Hx.
  - intros x [[? _]|[_ Hx]]%hand_Some; [done|]. by apply Hnt in Hx.
Qed.
(** The sizes of [alloc] and [alloc_meta]; for any other size the answer is 0 and nothing changes. *)
Definition alloc_valid (smallest size : Z) : bool := is_power_of_two size && (smallest <=? size) && (size <=? 2 ^ 46).

Lemma alloc_valid_pow n size : alloc_valid (2 ^ Z.of_nat n) size = true -> exists i, size = 2 ^ Z.of_nat i /\ (n <= i <= 46)%nat.
Proof using.
  unfold alloc_valid. rewrite !andb_true_iff, !Z.leb_le. intros [[[i ->]%is_power_of_two_true Hlo] Hhi]. exists i. split; [done|]. change (2 ^ 46) with (2 ^ Z.of_nat 46) in Hhi.
  apply Z.pow_le_mono_r_iff in Hlo, Hhi; lia.
Qed.

Lemma local_alloc_invalid os m l size : alloc_valid CHUNK size = false -> local_alloc page debug os m l size = Ok (m, l, 0).
Proof using.
  unfold alloc_valid, local_alloc. change (Z.shiftl 1 46) with (2 ^ 46). intros Hv. destruct (is_power_of_two size), (CHUNK <=? size), (size <=? 2 ^ 46); done.
Qed.

Lemma alloc_meta_invalid os m l size : alloc_valid 16 size = false -> alloc_meta page debug os m l size = Ok (m, l, 0).
Proof using.
  intros Hv. unfold alloc_meta. destruct (is_power_of_two size) eqn:Hp; [|done]. destruct (Z.ltb_spec size 16) as [|Hge]; [done|]. cbn [negb orb].
  assert (Hbig : 2 ^ 46 < size). { unfold alloc_valid in Hv. rewrite Hp, (proj2 (Z.leb_le _ _)) in Hv by lia. cbn in Hv. by apply Z.leb_gt in Hv. }
  change CHUNK with (2 ^ 14). rewrite (proj2 (Z.leb_le (2 ^ 14) size)) by lia. apply local_alloc_invalid. unfold alloc_valid. rewrite (proj2 (Z.leb_gt size (2 ^ 46))) by done. apply andb_false_r.
Qed.

Lemma step_alloc_ok w own k id os size (smallest : nat) (ask : Mem -> Local -> result (Mem * Local * Z)) : world_ok w own -> (k < length (w_locals w))%nat -> w_held w !! id = None -> (4 <= smallest)%nat ->
  (alloc_valid (2 ^ Z.of_nat smallest) size = false -> forall m l, ask m l = Ok (m, l, 0)) ->
  (forall i l, size = 2 ^ Z.of_nat i -> (smallest <= i <= 46)%nat -> w_locals w !! k = Some l -> serves k (w_locals w) (w_held w) own os (ask (w_mem w) l) i) ->
  exists l m l' a own', w_locals w !! k = Some l /\ ask (w_mem w) l = Ok (m, l', a) /\ world_ok (mkWorld m (<[k := l']> (w_locals w)) (if a =? 0 then w_held w else <[id := (a, size, true)]> (w_held w))) own'.
Proof using.
  intros Hw Hk Hid Hs Hbad Hgood. apply lookup_lt_is_Some_2 in Hk as [l Hl]. exists l. destruct (alloc_valid (2 ^ Z.of_nat smallest) size) eqn:Hv.
  - apply alloc_valid_pow in Hv as (i & -> & Hi). destruct (serves_ok k _ _ own os _ i id (Hgood i l eq_refl Hi Hl)) as (m & l' & r & own' & Hans & Hok); [lia|done|]. by exists m, l', r, own'.
  - exists (w_mem w), l, 0, own. rewrite list_insert_id by done. split_and!; [done|by apply Hbad|]. by destruct w.
Qed.

Lemma step_give_ok w own k id a size (smallest : nat) (give : Mem * Local -> Z -> Z -> result (Mem * Local)) : world_ok w own -> (k < length (w_locals w))%nat -> w_held w !! id = Some (a, size, true) -> 2 ^ Z.of_nat smallest <= size ->
  (forall m ls held own l a i, backend_ok m ls held own -> ls !! k = Some l -> (smallest <= i)%nat -> a mod 2 ^ Z.of_nat i = 0 -> in_transit own a (a + 2 ^ Z.of_nat i) -> absorbs k ls held own (give (m, l) a (2 ^ Z.of_nat i)) a (a + 2 ^ Z.of_nat i)) ->
  exists l m l' own', w_locals w !! k = Some l /\ give (w_mem w, l) a size = Ok (m, l') /\ world_ok (mkWorld m (<[k := l']> (w_locals w)) (delete id (w_held w))) own'.
Proof using.
  intros Hw Hk Hid Hs Hgive. apply lookup_lt_is_Some_2 in Hk as [l Hl]. exists l. destruct (bo_whole _ _ _ _ (proj1 Hw) id a size Hid) as (i & -> & _ & Hal). apply Z.pow_le_mono_r_iff in Hs; [|lia..].
  destruct (unheld w own id a _ true Hw Hid) as (Hok1 & Hnf1 & Hin & Ht). destruct (absorbs_ok k _ _ _ _ _ _ (Hgive _ _ _ _ l a i Hok1 Hl ltac:(lia) Hal Hin) Hnf1 Ht) as (m' & l' & own' & Hans & Hw'). by exists m', l', own'.
Qed.

Lemma step_seed_ok w own k id os a size whole offset : world_ok w own -> (k < length (w_locals w))%nat -> w_held w !! id = Some (a, size, whole) -> 0 < offset < size -> offset mod 16 = 0 ->
  exists l m l' own', w_locals w !! k = Some l /\ seed_metadata debug os (w_mem w, l) (a + offset) (size - offset) = Ok (m, l') /\ world_ok (mkWorld m (<[k := l']> (w_locals w)) (<[id := (a, offset, false)]> (w_held w))) own'.
Proof using.
  clear Hpage. intros Hw Hk Hid Ho Ho16. apply lookup_lt_is_Some_2 in Hk as [l Hl]. exists l. destruct (bo_aligned _ _ _ _ (proj1 Hw) id a size whole Hid) as (Ha & Hs & Hpos).
  destruct (unheld w own id a _ whole Hw Hid) as (Hok1 & Hnf1 & Hin & Ht). set (own1 := hand own a size OTransit) in *.
  assert (Hok2 : backend_ok (w_mem w) (w_locals w) (<[id := (a, offset, false)]> (w_held w)) (hand own1 a offset (OHeld id))).
  { rewrite <- insert_delete_eq. apply hold_ok; try done; [intros x Hx; apply Hin; lia|by rewrite lookup_delete_eq|lia]. }
  assert (Hin2 : in_transit (hand own1 a offset (OHeld id)) (a + offset) (a + offset + (size - offset))) by (intros x Hx; rewrite hand_out by lia; apply Hin; lia).
  assert (Hb : a + size <= 2 ^ 48 /\ 2 ^ 14 <= a). { split; [assert (a + size - 1 < 2 ^ 48); [|lia]|]; apply (bo_mapped _ _ _ _ Hok1); by rewrite Hin by lia. }
  destruct (absorbs_ok k _ _ _ _ _ _ (seed_metadata_ok debug os k _ _ _ _ l (a + offset) (size - offset) Hok2 Hl ltac:(lia) ltac:(lia) ltac:(lia) ltac:(Z.div_mod_to_equations; lia) ltac:(Z.div_mod_to_equations; lia) Hin2)) as (m' & l' & own' & Hans & Hw').
  - intros x [[_ ?]|[_ Hx]]%hand_Some; [done|]. by apply Hnf1 in Hx.
  - intros x [[_ ?]|[Hn Hx]]%hand_Some; [done|]. apply Ht in Hx. lia.
  - by exists m', l', own'.
Qed.

(** The owner is there, the operation has answered. *)
Ltac answered Hl Hans own' := cbn [w_mem w_locals w_held] in *; rewrite Hl; cbn [expect]; rewrite Hans; by eexists _, own'.

Lemma backend_step_ok w own e : world_ok w own -> allowed w e = true -> exists w' own', step page debug w e = Ok w' /\ world_ok w' own'.
Proof using Hpage.
  destruct w as [m ls held]. intros Hw. pose proof Hw as (Hok & Hnf & Hnt). destruct e as [reserved| |k id os size|k id os size|k id os|k id os|k id os offset|id x v|id meta owner]; cbn [allowed step]; intros Ha.
  - eexists _, own. split; [done|]. by apply (step_map_ok (mkWorld m ls held)).
  - eexists _, own. split; [done|]. by apply (step_new_ok (mkWorld m ls held)).
  - rewrite !andb_true_iff, negb_true_iff, bool_decide_eq_false, <- eq_None_not_Some, Nat.ltb_lt in Ha. destruct Ha as [[Hk Hid] Hos].
    destruct (step_alloc_ok _ own k id os size 14 (fun m l => local_alloc page debug os m l size) Hw Hk Hid) as (l & m' & l' & a & own' & Hl & Hans & Hw'); [lia|intros; by apply local_alloc_invalid|intros i l -> Hi Hl; by apply local_alloc_ok|].
    answered Hl Hans own'.
  - rewrite !andb_true_iff, negb_true_iff, bool_decide_eq_false, <- eq_None_not_Some, Nat.ltb_lt in Ha. destruct Ha as [[Hk Hid] Hos].
    destruct (step_alloc_ok _ own k id os size 4 (fun m l => alloc_meta page debug os m l size) Hw Hk Hid) as (l & m' & l' & a & own' & Hl & Hans & Hw'); [lia|intros; by apply alloc_meta_invalid|intros i l -> Hi Hl; by apply alloc_meta_ok|].
    answered Hl Hans own'.
  - apply andb_true_iff in Ha as [Hk%Nat.ltb_lt Ha]. destruct (held !! id) as [[[a size] []]|] eqn:Hid; try done. apply Z.leb_le in Ha.
    destruct (step_give_ok _ own k id a size 14 (local_free debug os) Hw Hk Hid Ha) as (l & m' & l' & own' & Hl & Hans & Hw'); [intros; by apply local_free_ok|]. answered Hl Hans own'.
  - apply andb_true_iff in Ha as [Hk%Nat.ltb_lt Ha]. destruct (held !! id) as [[[a size] []]|] eqn:Hid; try done. assert (Hs : 2 ^ Z.of_nat 4 <= size).
    { destruct (bo_whole _ _ _ _ Hok id a size Hid) as (i & -> & Hi & _). apply Z.pow_le_mono_r; lia. }
    destruct (step_give_ok _ own k id a size 4 (free_meta debug os) Hw Hk Hid Hs) as (l & m' & l' & own' & Hl & Hans & Hw'); [intros; by apply free_meta_ok|]. answered Hl Hans own'.
  - apply andb_true_iff in Ha as [Hk%Nat.ltb_lt Ha]. destruct (held !! id) as [[[a size] whole]|] eqn:Hid; try done. rewrite !andb_true_iff, !Z.ltb_lt, Z.eqb_eq in Ha. destruct Ha as [Ho Ho16].
    destruct (step_seed_ok _ own k id os a size whole offset Hw Hk Hid Ho Ho16) as (l & m' & l' & own' & Hl & Hans & Hw'). answered Hl Hans own'.
  - destruct (held !! id) as [[[a size] whole]|] eqn:Hid; try done. rewrite !andb_true_iff, Z.leb_le, Z.ltb_lt, Z.eqb_eq in Ha. destruct Ha as [[H1 H2] H3]. destruct (backend_write_ok m ls held own Hok id a size whole x v Hid) as [[v0 ->] Hok']; [lia|done|]. by eexists _, own.
  - destruct (held !! id) as [[[a size] whole]|] eqn:Hid; try done. rewrite !andb_true_iff, !Z.eqb_eq, negb_true_iff in Ha. destruct Ha as [[H1 H2] H3]. cbn [expect].
    destruct (use_map_ok m ls held own Hok id a size whole meta owner Hid H1 H2 H3) as (map' & -> & Hok'). by eexists _, own.
Qed.

Lemma backend_run_ok es : forall w own, world_ok w own -> run_allowed page debug es w = true -> exists w' own', run page debug es w = Ok w' /\ world_ok w' own'.
Proof using Hpage.
  induction es as [|e es IH]; intros w own Hw; cbn [run_allowed run]; [by eexists _, own|]. intros [He Hes]%andb_true_iff. destruct (backend_step_ok w own e Hw He) as (w1 & own1 & Hs & Hw1). rewrite Hs in *. by eapply IH.
Qed.
End steps.

(** ** Theorems *)

(** C17. After any sequence of operations of any number of owners and clients that keep to the contracts of the backend, with an
    operating system that may refuse every request, no operation has panicked, and every byte of the reserved memory
    is in exactly one place: free in the global range, free in the range or in the metadata range of one owner,
    or in the hands of one client. Nothing leaks, nothing is handed out twice, and nothing is free that was not reserved. *)
Theorem backend_partition page debug es : 0 < page -> page mod 16 = 0 -> run_allowed page debug es world_new = true ->
  exists w own, run page debug es world_new = Ok w
    /\ (forall x, own x <> None <-> Exists (fun r => inside r x) (m_reserved (w_mem w)))
    /\ range_ok 14 63 (m_map (w_mem w)) (g_ranges (m_global (w_mem w))) (fun x => own x = Some OGlobal)
    /\ (forall k l, w_locals w !! k = Some l -> range_ok 14 21 (m_map (w_mem w)) (l_ranges l) (fun x => own x = Some (OLocal k)) /\ range_ok 4 14 (m_words (w_mem w)) (l_metadata l) (fun x => own x = Some (OMeta k)))
    /\ (forall id x, own x = Some (OHeld id) <-> exists r whole, w_held w !! id = Some (r, whole) /\ inside r x)
    /\ forall x, match own x with Some (OLocal k) | Some (OMeta k) => (k < length (w_locals w))%nat | Some OFresh | Some OTransit => False | _ => True end.
Proof.
  intros Hp Hp16 Hes. destruct (backend_run_ok page debug (conj Hp Hp16) es _ _ world_new_ok Hes) as (w & own & Hrun & Hok & Hnf & Hnt). exists w, own.
  split_and!; [done|apply Hok|apply Hok|intros k l Hl; split; by apply Hok|apply Hok|]. intros x. specialize (Hnf x). specialize (Hnt x). destruct (own x) as [[]|] eqn:Ho; try done; eapply (bo_owner _ _ _ _ Hok); eauto.
Qed.

(** C18. Memory that clients hold is theirs: no two of them hold the same byte, every byte is in a reservation and its chunk in the
    page map, every word can be read and written, and a whole block is aligned to its size. *)
Theorem held_memory_is_usable page debug es w : 0 < page -> page mod 16 = 0 -> run_allowed page debug es world_new = true -> run page debug es world_new = Ok w ->
  forall id a size whole, w_held w !! id = Some (a, size, whole) ->
    (forall id' r whole' x, w_held w !! id' = Some (r, whole') -> inside r x -> a <= x < a + size -> id' = id)
    /\ (forall x, a <= x < a + size -> Exists (fun r => inside r x) (m_reserved (w_mem w)) /\ is_Some (entries (m_map (w_mem w)) !! entry_index x) /\ (x mod 8 = 0 -> is_Some (words (m_words (w_mem w)) !! x)))
    /\ (whole = true -> a mod size = 0).
Proof.
  intros Hp Hp16 Hes Hrun id a size whole Hid. destruct (backend_run_ok page debug (conj Hp Hp16) es _ _ world_new_ok Hes) as (w' & own & Hrun' & Hok & Hnf & Hnt). rewrite Hrun in Hrun'. injection Hrun' as <-.
  assert (Ho : forall x, a <= x < a + size -> own x = Some (OHeld id)) by (intros x Hx; apply (bo_held _ _ _ _ Hok); by exists (a, size), whole). split_and!.
  - intros id' r whole' x Hid' Hin Hx. assert (own x = Some (OHeld id')) by (apply (bo_held _ _ _ _ Hok); by exists r, whole'). specialize (Ho x Hx). congruence.
  - intros x Hx. pose proof (Ho x Hx) as Hox. assert (Hn : own x <> None) by by rewrite Hox. split_and!; [by apply Hok|by apply Hok|]. intros Hm. by apply (backend_write_ok _ _ _ _ Hok id a size whole x 0).
  - intros ->. destruct (bo_whole _ _ _ _ Hok id a size Hid) as (i & -> & _ & ?). done.
Qed.

(** [alloc] or [alloc_meta]. *)
Definition request (page : Z) (debug meta : bool) (os : Os) (m : Mem) (l : Local) (size : Z) : result (Mem * Local * Z) :=
  if meta then alloc_meta page debug os m l size else local_alloc page debug os m l size.

(** C19. In every reachable state a request of an owner has an answer. It is 0 only for a size that is no power of two between the smallest
    block and 64 TiB, and then nothing has changed, or when the operating system refuses a
    reservation, the page map or memory; otherwise it is the address of a block aligned to its size
    and with committed memory, of which no client holds a byte. *)
Theorem backend_requests_answered page debug es w os k meta size : 0 < page -> page mod 16 = 0 -> run_allowed page debug es world_new = true -> run page debug es world_new = Ok w ->
  (k < length (w_locals w))%nat -> reserve_ok (w_mem w) os = true ->
  exists l m' l' a, w_locals w !! k = Some l /\ request page debug meta os (w_mem w) l size = Ok (m', l', a)
    /\ (a = 0 -> (alloc_valid (if meta then 16 else CHUNK) size = false /\ m' = w_mem w /\ l' = l) \/ refuses os)
    /\ (a <> 0 -> alloc_valid (if meta then 16 else CHUNK) size = true /\ a mod size = 0
         /\ forall x, a <= x < a + size -> backed (m_words m') (granule x) /\ forall id r whole, w_held w !! id = Some (r, whole) -> ~ inside r x).
Proof.
  intros Hp Hp16 Hes Hrun Hk Hos. destruct (backend_run_ok page debug (conj Hp Hp16) es _ _ world_new_ok Hes) as (w' & own & Hrun' & Hok & Hnf & Hnt). rewrite Hrun in Hrun'. injection Hrun' as <-. apply lookup_lt_is_Some_2 in Hk as [l Hl]. exists l.
  destruct (alloc_valid _ size) eqn:Hv; [|exists (w_mem w), l, 0; unfold request; destruct meta; split_and!; try done; first [by apply alloc_meta_invalid|by apply local_alloc_invalid|by left]].
  assert (Hserve : exists i, size = 2 ^ Z.of_nat i /\ serves k (w_locals w) (w_held w) own os (request page debug meta os (w_mem w) l size) i).
  { unfold request. destruct meta; [change 16 with (2 ^ Z.of_nat 4) in Hv|change CHUNK with (2 ^ Z.of_nat 14) in Hv]; apply alloc_valid_pow in Hv as (i & -> & Hi); exists i; (split; [done|]); [by apply alloc_meta_ok|by apply local_alloc_ok]. }
  destruct Hserve as (i & -> & m' & l' & a & own' & -> & Hok' & S & Hal & Href). exists m', l', a. split_and!; [done|done|by right; apply Href|]. intros Ha. split_and!; [done|by apply Hal|].
  intros x Hx. assert (Ht : own' x = Some OTransit) by (by apply (st_transit _ _ _ _ S)). split; [apply (bo_committed _ _ _ _ Hok'); by rewrite Ht|]. intros id r whole Hid Hin.
  assert (Hh : own x = Some (OHeld id)) by (apply (bo_held _ _ _ _ Hok); by exists r, whole). apply (st_held _ _ _ _ S) in Hh. congruence.
Qed.

(** ** Concrete runs *)

(** An operating system that gives 64 KiB at 1 MiB and then nothing more, and one that refuses everything. *)
Definition sample_os : Os := mkOs (fun size => if size =? 65536 then 1048576 else 0) true true (fun _ => true).
Definition later_os : Os := mkOs (fun _ => 0) true true (fun _ => true).
Definition no_os : Os := mkOs (fun _ => 0) false false (fun _ => false).

Definition sample_events : list Event :=
  [BMap true; BNew; BAlloc 0 1 sample_os 16384; BAllocMeta 0 2 later_os 64; BWrite 2 1064968 7; BAssign 1 4096 77; BAlloc 0 3 later_os 32768; BAlloc 0 4 no_os 16384;
   BFree 0 1 later_os; BFreeMeta 0 2 later_os; BSeed 0 3 later_os 4096; BNew; BAlloc 1 5 later_os 16384].

Lemma backend_partition_witness : exists w own, run 4096 true sample_events world_new = Ok w
    /\ (forall x, own x <> None <-> Exists (fun r => inside r x) (m_reserved (w_mem w)))
    /\ range_ok 14 63 (m_map (w_mem w)) (g_ranges (m_global (w_mem w))) (fun x => own x = Some OGlobal)
    /\ (forall k l, w_locals w !! k = Some l -> range_ok 14 21 (m_map (w_mem w)) (l_ranges l) (fun x => own x = Some (OLocal k)) /\ range_ok 4 14 (m_words (w_mem w)) (l_metadata l) (fun x => own x = Some (OMeta k)))
    /\ (forall id x, own x = Some (OHeld id) <-> exists r whole, w_held w !! id = Some (r, whole) /\ inside r x)
    /\ forall x, match own x with Some (OLocal k) | Some (OMeta k) => (k < length (w_locals w))%nat | Some OFresh | Some OTransit => False | _ => True end.
Proof. apply (backend_partition 4096 true sample_events); [lia|done|vm_compute; reflexivity]. Defined.

(** After the first four events: a chunk and 64 bytes of metadata are held. *)
Definition sample_prefix : list Event := take 4 sample_events.
Definition outcome (r : result World) : World := match r with Ok w => w | _ => world_new end.
Definition sample_world : World := outcome (run 4096 true sample_prefix world_new).

Lemma outcome_ok (r : result World) : match r with Ok _ => true | _ => false end = true -> r = Ok (outcome r).
Proof. by destruct r. Qed.

Lemma sample_world_run : run 4096 true sample_prefix world_new = Ok sample_world.
Proof. apply outcome_ok. vm_compute. reflexivity. Qed.

Example sample_held : (fun id => w_held sample_world !! id) <$> [1%nat; 2%nat; 3%nat] = [Some (1048576, 16384, true); Some (1064960, 64, true); None].
Proof. vm_compute. reflexivity. Qed.

Lemma held_memory_is_usable_witness :
    (forall id' r whole' x, w_held sample_world !! id' = Some (r, whole') -> inside r x -> 1064960 <= x < 1064960 + 64 -> id' = 2%nat)
    /\ (forall x, 1064960 <= x < 1064960 + 64 -> Exists (fun r => inside r x) (m_reserved (w_mem sample_world)) /\ is_Some (entries (m_map (w_mem sample_world)) !! entry_index x) /\ (x mod 8 = 0 -> is_Some (words (m_words (w_mem sample_world)) !! x)))
    /\ (true = true -> 1064960 mod 64 = 0).
Proof. apply (held_memory_is_usable 4096 true sample_prefix sample_world ltac:(lia) eq_refl ltac:(vm_compute; reflexivity) sample_world_run 2). vm_compute. reflexivity. Defined.

(** The chunk that serves metadata has room for another 64 bytes; no request of 24 bytes is served. *)
Lemma backend_requests_answered_witness :
  exists l m' l' a, w_locals sample_world !! 0%nat = Some l /\ request 4096 true true no_os (w_mem sample_world) l 64 = Ok (m', l', a)
    /\ (a = 0 -> (alloc_valid 16 64 = false /\ m' = w_mem sample_world /\ l' = l) \/ refuses no_os)
    /\ (a <> 0 -> alloc_valid 16 64 = true /\ a mod 64 = 0
         /\ forall x, a <= x < a + 64 -> backed (m_words m') (granule x) /\ forall id r whole, w_held sample_world !! id = Some (r, whole) -> ~ inside r x).
Proof. apply (backend_requests_answered 4096 true sample_prefix sample_world no_os 0 true 64 ltac:(lia) eq_refl ltac:(vm_compute; reflexivity) sample_world_run); vm_compute; [lia|reflexivity]. Defined.

Example sample_answers : (fun size => match w_locals sample_world !! 0%nat with
    | Some l => match request 4096 true true no_os (w_mem sample_world) l size with Ok (_, _, a) => Some a | _ => None end
    | None => None end) <$> [64; 24; 8; 16384] = [Some 1065024; Some 0; Some 0; Some 0].
Proof. vm_compute. reflexivity. Qed.
