(* ===== verification/RemoteQueue.v ===== *)
(** * [rallocator]: the queue of remote frees

    [Queue] of [src/crates/rallocator/src/remote.rs]: any number of threads publish segments of linked
    messages, one thread drains them.  A message lies in memory that was freed; once the consumer has it,
    the memory belongs to somebody else and may come back as a new message.  The last message stays in
    the queue: its publisher's successor may be about to write its link.

    Any number of publishers and the consumer run as one machine; a step is one atomic operation, or
    the callback that consumes a message.  The orderings of the atomics are not modelled. *)
From S2P Require Import Prelude ByteSpan.
Open Scope Z_scope.

(** A call of [enqueue] for the segment of messages [seg], of which [first] and [last] are the ends. *)
Inductive Publisher : Type :=
  | PStart (seg : list Z) (first last : Z)
  | PSwap (seg : list Z) (first last : Z)
  | PLink (previous first : Z)
  | PFront (first : Z)
  | PDone.

Inductive Consumer : Type :=
  | CIdle
  | CFront
  | CBound (current : Z)
  | CLoop (current bound : Z)
  | CConsume (current successor bound : Z)
  | CEnd (current : Z).

(** The link words of the messages, the two ends, the calls under way; [sent] and [given] record what
    was published, in the order of the exchanges, and what was consumed. *)
Record Queue : Type := mkQueue {
  link : gmap Z Z; back : Z; front : Z; publishers : list Publisher; consumer : Consumer; sent : list Z; given : list Z }.

Definition queue_new : Queue := mkQueue ∅ 0 0 [] CIdle [] [].

Definition set_link (l : gmap Z Z) (q : Queue) : Queue := mkQueue l (back q) (front q) (publishers q) (consumer q) (sent q) (given q).
Definition set_front (a : Z) (q : Queue) : Queue := mkQueue (link q) (back q) a (publishers q) (consumer q) (sent q) (given q).
Definition set_publisher (i : nat) (p : Publisher) (q : Queue) : Queue := mkQueue (link q) (back q) (front q) (<[i := p]> (publishers q)) (consumer q) (sent q) (given q).
Definition set_consumer (c : Consumer) (q : Queue) : Queue := mkQueue (link q) (back q) (front q) (publishers q) c (sent q) (given q).

(** [next(message)]: reading or writing the link of a message that is not there is undefined behaviour. *)
Definition load_next (message : Z) (q : Queue) : result Z := expect (link q !! message).
Definition store_next (message value : Z) (q : Queue) : result Queue := let? _ := load_next message q in Ok (set_link (<[message := value]> (link q)) q).

Definition can_dequeue (q : Queue) : bool := negb (front q =? back q).

(** One operation of a call of [enqueue]. *)
Definition enqueue_step (i : nat) (q : Queue) : result Queue :=
  let? p := expect (publishers q !! i) in
  match p with
  | PStart seg first last => let? q := store_next last 0 q in Ok (set_publisher i (PSwap seg first last) q)
  | PSwap seg first last =>
      let previous := back q in
      let q := mkQueue (link q) last (front q) (publishers q) (consumer q) (sent q ++ seg) (given q) in
      Ok (set_publisher i (if negb (previous =? 0) then PLink previous first else PFront first) q)
  | PLink previous first => let? q := store_next previous first q in Ok (set_publisher i PDone q)
  | PFront first => Ok (set_publisher i PDone (set_front first q))
  | PDone => Ok q
  end.

(** One operation of [drain]; [keep_going] is the answer of the callback, which takes the message over. *)
Definition drain_step (keep_going : bool) (q : Queue) : result Queue :=
  match consumer q with
  | CIdle => Ok q
  | CFront => Ok (set_consumer (if front q =? 0 then CIdle else CBound (front q)) q)
  | CBound current => Ok (set_consumer (CLoop current (back q)) q)
  | CLoop current bound =>
      if negb (current =? bound) then
        let? successor := load_next current q in
        Ok (set_consumer (if successor =? 0 then CEnd current else CConsume current successor bound) q)
      else Ok (set_consumer (CEnd current) q)
  | CConsume current successor bound =>
      let? _ := load_next current q in
      let q := mkQueue (delete current (link q)) (back q) (front q) (publishers q) (consumer q) (sent q) (given q ++ [current]) in
      Ok (set_consumer (if keep_going then CLoop successor bound else CEnd successor) q)
  | CEnd current => Ok (set_consumer CIdle (set_front current q))
  end.

(** The links of a segment, before it is published: each message to the next one. *)
Fixpoint seg_links (seg : list Z) : list (Z * Z) :=
  match seg with
  | a :: (b :: _) as rest => (a, b) :: seg_links rest
  | [a] => [(a, 0)]
  | [] => []
  end.

Inductive Event : Type := QPublish (seg : list Z) | QEnqueue (i : nat) | QDrain | QConsume (keep_going : bool).

Definition step (q : Queue) (e : Event) : result Queue :=
  match e with
  | QPublish seg =>
      let? first := expect (head seg) in
      let? last := expect (last seg) in
      Ok (mkQueue (list_to_map (seg_links seg) ∪ link q) (back q) (front q) (publishers q ++ [PStart seg first last]) (consumer q) (sent q) (given q))
  | QEnqueue i => enqueue_step i q
  | QDrain => Ok (match consumer q with CIdle => set_consumer CFront q | _ => q end)
  | QConsume keep_going => drain_step keep_going q
  end.

(** A segment consists of different messages that are exclusively the publisher's. *)
Definition allowed (q : Queue) (e : Event) : bool :=
  match e with
  | QPublish seg => negb (bool_decide (seg = [])) && bool_decide (NoDup seg) && forallb (fun a => (0 <? a) && bool_decide (link q !! a = None)) seg
  | QEnqueue i => (i <? length (publishers q))%nat
  | _ => true
  end.

Fixpoint run (es : list Event) (q : Queue) : result Queue :=
  match es with
  | [] => Ok q
  | e :: es => let? q := step q e in run es q
  end.

Fixpoint run_allowed (es : list Event) (q : Queue) : bool :=
  match es with
  | [] => true
  | e :: es => allowed q e && match step q e with Ok q => run_allowed es q | _ => true end
  end.

(** ** The invariant *)

(** The messages a call still has to itself. *)
Definition private (p : Publisher) : list Z := match p with PStart seg _ _ | PSwap seg _ _ => seg | _ => [] end.

(** A link between two neighbours of the queue that its publisher has yet to write. *)
Definition pending (q : Queue) (x y : Z) : Prop := exists i, publishers q !! i = Some (PLink x y).

Definition linked (l : gmap Z Z) (pend : Z -> Z -> Prop) (w : list Z) : Prop :=
  (forall i x y, w !! i = Some x -> w !! S i = Some y -> l !! x = Some y \/ (l !! x = Some 0 /\ pend x y)) /\ (forall x, last w = Some x -> l !! x = Some 0).

(** A segment before its exchange: its links are written, the last one after the first step. *)
Definition publisher_ok (l : gmap Z Z) (p : Publisher) : Prop :=
  match p with
  | PStart seg first last_ | PSwap seg first last_ =>
      head seg = Some first /\ last seg = Some last_ /\ (forall i x y, seg !! i = Some x -> seg !! S i = Some y -> l !! x = Some y)
      /\ match p with PSwap _ _ _ => l !! last_ = Some 0 | _ => True end
  | _ => True
  end.

Definition consumer_ok (q : Queue) (w : list Z) : Prop :=
  match consumer q with
  | CIdle | CFront => head w = Some (front q) \/ (front q = 0 /\ (w = [] \/ exists i f, publishers q !! i = Some (PFront f)))
  | CBound c | CEnd c => head w = Some c
  | CLoop c b => head w = Some c /\ b ∈ w
  | CConsume c s b => exists r, w = c :: s :: r /\ link q !! c = Some s /\ b ∈ s :: r
  end.

(** [w] are the messages in the queue, in order. *)
Record queue_ok (q : Queue) (w : list Z) : Prop := {
  qi_sent : sent q = given q ++ w;
  qi_nodup : NoDup (w ++ (publishers q ≫= private));
  qi_live x : x ∈ w ++ (publishers q ≫= private) -> 0 < x /\ is_Some (link q !! x);
  qi_back : back q = default 0 (last w);
  qi_linked : linked (link q) (pending q) w;
  qi_publishers i p : publishers q !! i = Some p -> publisher_ok (link q) p;
  qi_pending i x y : publishers q !! i = Some (PLink x y) -> link q !! x = Some 0 /\ exists j, w !! j = Some x /\ w !! S j = Some y;
  qi_unique i j x y y' : publishers q !! i = Some (PLink x y) -> publishers q !! j = Some (PLink x y') -> i = j;
  qi_front i f : publishers q !! i = Some (PFront f) -> front q = 0 /\ head w = Some f /\ (consumer q = CIdle \/ consumer q = CFront) /\ forall j f', publishers q !! j = Some (PFront f') -> j = i;
  qi_consumer : consumer_ok q w;
  qi_kept : sent q <> [] -> w <> [] }.

Lemma queue_new_ok : queue_ok queue_new [].
Proof.
  split; try done; cbn.
  - constructor.
  - by intros x ?%not_elem_of_nil.
  - by right; auto.
Qed.

Lemma bind_insert {A B} (f : A -> list B) (l : list A) i x : (i < length l)%nat -> (<[i := x]> l) ≫= f = (take i l ≫= f) ++ f x ++ (drop (S i) l ≫= f).
Proof. intros Hi. rewrite insert_take_drop by done. rewrite bind_app. cbn. done. Qed.

Lemma bind_lookup {A B} (f : A -> list B) (l : list A) i x : l !! i = Some x -> l ≫= f = (take i l ≫= f) ++ f x ++ (drop (S i) l ≫= f).
Proof. intros Hi. rewrite <- (take_drop_middle l i x Hi) at 1. rewrite bind_app. cbn. done. Qed.

(** The messages the other calls have to themselves. *)
Definition others (i : nat) (q : Queue) : list Z := (take i (publishers q) ++ drop (S i) (publishers q)) ≫= private.

Lemma private_set q i p p' : publishers q !! i = Some p -> (publishers (set_publisher i p' q) ≫= private) ≡ₚ private p' ++ others i q /\ (publishers q ≫= private) ≡ₚ private p ++ others i q.
Proof.
  intros Hi. pose proof (lookup_lt_Some _ _ _ Hi). unfold others. cbn [publishers set_publisher]. rewrite bind_insert, (bind_lookup _ _ _ _ Hi), bind_app by done. split; apply Permutation_app_swap_app.
Qed.

(** A link may change if no neighbours rely on it. *)
Lemma linked_mono l l' pend pend' w : (forall x, x ∈ w -> l' !! x = l !! x) -> (forall x y, x ∈ w -> pend x y -> pend' x y) -> linked l pend w -> linked l' pend' w.
Proof.
  intros Hl Hp [H1 H2]. split.
  - intros i x y Hx Hy. assert (Hin : x ∈ w) by by eapply list_elem_of_lookup_2. rewrite Hl by done. destruct (H1 i x y Hx Hy) as [?|[? ?]]; auto.
  - intros x Hx. rewrite Hl; [by apply H2|]. by apply last_Some_elem_of.
Qed.

Lemma linked_tail l pend x w : linked l pend (x :: w) -> linked l pend w.
Proof. intros [H1 H2]. split; [intros i; apply (H1 (S i))|]. intros y Hy. apply H2. destruct w; [done|]. by rewrite last_cons_cons. Qed.

Lemma linked_app l pend w seg x y : linked l pend w -> linked l pend seg -> last w = Some x -> head seg = Some y -> l !! x = Some 0 -> pend x y -> linked l pend (w ++ seg).
Proof.
  intros [H1 H2] [H3 H4] Hx Hy Hl Hp. split.
  - intros i a b Ha Hb. apply last_Some in Hx as [w' ->]. destruct seg as [|y' seg]; [done|]. injection Hy as ->. rewrite <- app_assoc in Ha, Hb. cbn in Ha, Hb. destruct (decide (i < length w')%nat) as [Hi|Hi]; [|destruct (decide (i = length w')) as [->|Hne]].
    + rewrite lookup_app_l in Ha by lia. assert (Hb' : (w' ++ [x]) !! S i = Some b).
      { destruct (decide (S i < length w')%nat); [by rewrite lookup_app_l in Hb |- * by lia|]. assert (S i = length w') as E by lia. rewrite E in Hb |- *. rewrite list_lookup_middle in Hb |- * by done. done. }
      apply (H1 i a b); [by rewrite lookup_app_l by lia|done].
    + rewrite list_lookup_middle in Ha by done. injection Ha as <-. rewrite lookup_app_r in Hb by lia. replace (S (length w') - length w')%nat with 1%nat in Hb by lia. injection Hb as <-. auto.
    + rewrite lookup_app_r in Ha, Hb by lia. destruct (i - length w')%nat as [|n] eqn:E; [lia|]. replace (S i - length w')%nat with (S (S n)) in Hb by lia. cbn in Ha, Hb. by apply (H3 n).
  - intros a Ha. apply H4. rewrite last_app in Ha. destruct (last seg) as [z|] eqn:E; [done|]. by apply last_None in E as ->.
Qed.

Lemma seg_links_fst seg : (seg_links seg).*1 = seg.
Proof. induction seg as [|a [|b seg] IH]; [done|done|]. change (seg_links (a :: b :: seg)) with ((a, b) :: seg_links (b :: seg)). rewrite fmap_cons, IH. done. Qed.

Lemma seg_links_next seg : forall i x y, seg !! i = Some x -> seg !! S i = Some y -> (x, y) ∈ seg_links seg.
Proof.
  induction seg as [|a [|b seg] IH]; intros [|i] x y Hx Hy; try done; change (seg_links (a :: b :: seg)) with ((a, b) :: seg_links (b :: seg)); apply elem_of_cons.
  - cbn in Hx, Hy. simplify_eq. by left.
  - right. by apply (IH i).
Qed.

Lemma seg_links_lookup seg i x y : NoDup seg -> seg !! i = Some x -> seg !! S i = Some y -> (list_to_map (seg_links seg) : gmap Z Z) !! x = Some y.
Proof. intros Hnd Hx Hy. apply elem_of_list_to_map_1; [by rewrite seg_links_fst|]. by eapply seg_links_next. Qed.

Lemma seg_links_some seg x : is_Some ((list_to_map (seg_links seg) : gmap Z Z) !! x) <-> x ∈ seg.
Proof. assert (Hx : x ∈ seg <-> x ∈ (seg_links seg).*1) by by rewrite seg_links_fst. rewrite Hx, <- not_eq_None_Some, <- not_elem_of_list_to_map. split; [|tauto]. intros Hn. destruct (decide (x ∈ (seg_links seg).*1)); tauto. Qed.

Lemma publishers_snoc q p i p' : (publishers q ++ [p]) !! i = Some p' -> publishers q !! i = Some p' \/ (i = length (publishers q) /\ p' = p).
Proof. intros [?|[Hi Hp]]%lookup_app_Some; [by left|right]. apply list_lookup_singleton_Some in Hp as [Hz <-]. split; [lia|done]. Qed.

Lemma publish_ok q w seg : queue_ok q w -> allowed q (QPublish seg) = true -> exists q', step q (QPublish seg) = Ok q' /\ queue_ok q' w.
Proof.
  cbn [allowed step]. intros Hq. rewrite !andb_true_iff, negb_true_iff, bool_decide_eq_false, bool_decide_eq_true, forallb_forall. intros [[Hne Hnd] Hfree].
  assert (Hseg : forall a, a ∈ seg -> 0 < a /\ link q !! a = None) by (intros a Ha%list_elem_of_In; specialize (Hfree a Ha); rewrite andb_true_iff, Z.ltb_lt, bool_decide_eq_true in Hfree; done).
  destruct (head seg) as [first|] eqn:Hf; [|by destruct seg]. destruct (last seg) as [last_|] eqn:Hl; [|by apply last_None in Hl]. cbn [expect]. eexists. split; [done|]. set (l' := list_to_map (seg_links seg) ∪ link q).
  assert (Hold : forall x, is_Some (link q !! x) -> l' !! x = link q !! x).
  { intros x Hx. apply lookup_union_r. destruct ((list_to_map (seg_links seg) : gmap Z Z) !! x) eqn:E; [|done]. assert (Hin : x ∈ seg) by (apply seg_links_some; by rewrite E). destruct (Hseg x Hin) as [_ Hn]. rewrite Hn in Hx. by destruct Hx. }
  assert (Hnew : forall i x y, seg !! i = Some x -> seg !! S i = Some y -> l' !! x = Some y) by (intros i x y Hx Hy; apply lookup_union_Some_l; by eapply seg_links_lookup).
  destruct Hq as [Q1 Q2 Q3 Q4 Q5 Q6 Q7 Q8 Q9 Q10 Q11]. assert (Hlive : forall x, x ∈ w -> is_Some (link q !! x)) by (intros x Hx; apply Q3, elem_of_app; by left).
  assert (Hpriv : forall p x i, publishers q !! i = Some p -> x ∈ private p -> is_Some (link q !! x)).
  { intros p x i Hp Hx. apply Q3, elem_of_app. right. apply list_elem_of_bind. exists p. split; [done|by eapply list_elem_of_lookup_2]. }
  split; cbn [link back front publishers consumer sent given]; try done.
  - rewrite bind_app. cbn. rewrite app_nil_r, app_assoc. apply NoDup_app. split_and!; [done| |done]. intros x Hx Hs. destruct (Q3 x Hx) as [_ Hsome]. destruct (Hseg x Hs) as [_ Hn]. rewrite Hn in Hsome. by destruct Hsome.
  - intros x. rewrite bind_app. cbn. rewrite app_nil_r, app_assoc, elem_of_app. intros [Hx|Hx]; [destruct (Q3 x Hx); by rewrite Hold|]. split; [by apply Hseg|]. apply lookup_union_is_Some. left. by apply seg_links_some.
  - eapply linked_mono; [| |exact Q5]; [intros x Hx; by apply Hold, Hlive|]. intros x y _ [i Hi]. exists i. by apply lookup_app_l_Some.
  - intros i p [Hp|[_ ->]]%publishers_snoc; [|by split_and!]. pose proof (Q6 i p Hp) as Hok. unfold publisher_ok in *. destruct p as [s f l|s f l| | |]; try done; destruct Hok as (H1 & H2 & H3 & H4); split_and!; try done.
    + intros j x y Hx Hy. rewrite Hold; [by eapply H3|]. eapply (Hpriv _ x i Hp). by eapply list_elem_of_lookup_2.
    + intros j x y Hx Hy. rewrite Hold; [by eapply H3|]. eapply (Hpriv _ x i Hp). by eapply list_elem_of_lookup_2.
    + rewrite Hold; [done|]. by rewrite H4.
  - intros i x y [Hp|[_ ?]]%publishers_snoc; [|done]. destruct (Q7 i x y Hp) as [H0 H']. rewrite Hold; [done|by rewrite H0].
  - intros i j x y y' [Hp|[_ ?]]%publishers_snoc [Hp'|[_ ?]]%publishers_snoc; try done. by eapply Q8.
  - intros i f [Hp|[_ ?]]%publishers_snoc; [|done]. destruct (Q9 i f Hp) as (H1 & H2 & H3 & H4). split_and!; try done. intros j f' [Hp'|[_ ?]]%publishers_snoc; [by eapply H4|done].
  - unfold consumer_ok in *. cbn [consumer front publishers link]. destruct (consumer q); try done.
    + destruct Q10 as [?|[? [?|(i & f & Hi)]]]; auto. right. split; [done|]. right. exists i, f. by apply lookup_app_l_Some.
    + destruct Q10 as [?|[? [?|(i & f & Hi)]]]; auto. right. split; [done|]. right. exists i, f. by apply lookup_app_l_Some.
    + destruct Q10 as (r & -> & Hc & Hb). exists r. split_and!; try done. rewrite Hold; [done|]. by rewrite Hc.
Qed.

Lemma publishers_set (l : list Publisher) i p j r : <[i := p]> l !! j = Some r -> (j = i /\ r = p) \/ (j <> i /\ l !! j = Some r).
Proof. intros [(-> & <- & _)|[? ?]]%list_lookup_insert_Some; auto. Qed.

Section enqueue.
Context (q : Queue) (w : list Z) (Hq : queue_ok q w).

Lemma live_w x : x ∈ w -> 0 < x /\ is_Some (link q !! x).
Proof using Hq. intros Hx. apply (qi_live _ _ Hq), elem_of_app. by left. Qed.

Lemma live_private i p x : publishers q !! i = Some p -> x ∈ private p -> 0 < x /\ is_Some (link q !! x) /\ x ∉ w.
Proof using Hq.
  intros Hp Hx. assert (Hin : x ∈ publishers q ≫= private) by (apply list_elem_of_bind; exists p; split; [done|by eapply list_elem_of_lookup_2]).
  destruct (qi_live _ _ Hq x) as [? ?]; [apply elem_of_app; by right|]. split_and!; [done|done|]. intros Hw. pose proof (qi_nodup _ _ Hq) as Hnd. apply NoDup_app in Hnd as (_ & Hd & _). by apply (Hd x).
Qed.

(** No two calls have a message in common. *)
Lemma private_apart i j p p' x : publishers q !! i = Some p -> publishers q !! j = Some p' -> x ∈ private p -> x ∈ private p' -> i = j.
Proof using Hq.
  intros Hi Hj Hx Hx'. destruct (decide (i = j)) as [|Hne]; [done|]. exfalso. destruct (private_set q i p PDone Hi) as [_ Hperm]. pose proof (qi_nodup _ _ Hq) as Hnd. rewrite Hperm in Hnd. apply NoDup_app in Hnd as (_ & _ & Hnd). apply NoDup_app in Hnd as (_ & Hd & _).
  apply (Hd x Hx). unfold others. apply list_elem_of_bind. exists p'. split; [done|]. apply elem_of_app. destruct (decide (j < i)%nat).
  - left. apply list_elem_of_lookup_2 with j. by rewrite lookup_take_lt.
  - right. apply list_elem_of_lookup_2 with (j - S i)%nat. rewrite lookup_drop. rewrite <- Hj. f_equal. lia.
Qed.

(** The other calls do not see a link change outside of their segments. *)
Lemma publishers_frame l' i p' : (forall j p x, j <> i -> publishers q !! j = Some p -> x ∈ private p -> l' !! x = link q !! x) -> publisher_ok l' p' ->
  forall j p, <[i := p']> (publishers q) !! j = Some p -> publisher_ok l' p.
Proof using Hq.
  intros Hl Hp' j p [[-> ->]|[Hne Hp]]%publishers_set; [done|]. pose proof (qi_publishers _ _ Hq j p Hp) as Hok. specialize (Hl j p). unfold publisher_ok in *. destruct p as [s f l|s f l| | |]; try done; destruct Hok as (H1 & H2 & H3 & H4); split_and!; try done.
  - intros n x y Hx Hy. rewrite Hl; [by eapply H3|done|done|by eapply list_elem_of_lookup_2].
  - intros n x y Hx Hy. rewrite Hl; [by eapply H3|done|done|by eapply list_elem_of_lookup_2].
  - rewrite Hl; [done|done|done|]. by apply last_Some_elem_of.
Qed.

(** A call that is not at its last operation changes nothing for the links and the front that are to be written. *)
Lemma publisher_keeps i p p' r : publishers q !! i = Some p -> private p <> [] -> (exists j, publishers q !! j = Some r) -> private r = [] -> exists j, <[i := p']> (publishers q) !! j = Some r.
Proof using. intros Hi Hp [j Hj] Hr. exists j. rewrite list_lookup_insert_ne; [done|]. intros ->. congruence. Qed.

Lemma seg_nodup i p : publishers q !! i = Some p -> NoDup (private p).
Proof using Hq. intros Hi. destruct (private_set q i p PDone Hi) as [_ Hperm]. pose proof (qi_nodup _ _ Hq) as Hnd. rewrite Hperm in Hnd. apply NoDup_app in Hnd as (_ & _ & Hnd). by apply NoDup_app in Hnd as (? & _ & _). Qed.

Lemma start_ok i seg first last_ : publishers q !! i = Some (PStart seg first last_) -> exists q', enqueue_step i q = Ok q' /\ queue_ok q' w.
Proof using Hq.
  intros Hi. unfold enqueue_step. rewrite Hi. cbn [expect]. pose proof (qi_publishers _ _ Hq i _ Hi) as (Hf & Hl & Hseg & _). assert (Hin : last_ ∈ seg) by by apply last_Some_elem_of. assert (Hne : seg <> []) by by destruct seg.
  destruct (live_private i _ last_ Hi Hin) as (Hpos & [v Hv] & Hnw). unfold store_next, load_next. rewrite Hv. cbn [expect]. eexists. split; [done|].
  assert (Hsame : forall x, x <> last_ -> <[last_ := 0]> (link q) !! x = link q !! x) by (intros x Hx; by rewrite lookup_insert_ne).
  assert (Hprivate : (<[i := PSwap seg first last_]> (publishers q) ≫= private) = (publishers q ≫= private)) by (rewrite bind_insert by (by eapply lookup_lt_Some); by rewrite (bind_lookup _ _ _ _ Hi)).
  assert (Hw : forall x, x ∈ w -> <[last_ := 0]> (link q) !! x = link q !! x) by (intros x Hx; apply Hsame; by intros ->).
  pose proof Hq as [Q1 Q2 Q3 Q4 Q5 Q6 Q7 Q8 Q9 Q10 Q11]. split; cbn [link back front publishers consumer sent given set_publisher set_link]; try done.
  - by rewrite Hprivate.
  - intros x. rewrite Hprivate. intros Hx. destruct (Q3 x Hx) as [? ?]. split; [done|]. apply lookup_insert_is_Some'. by right.
  - eapply linked_mono; [exact Hw| |exact Q5]. intros x y _ Hp. by eapply publisher_keeps.
  - apply publishers_frame; [intros j p x Hj Hp Hx; apply Hsame; intros ->; by apply Hj, (private_apart j i p _ last_ Hp Hi)|]. split_and!; [done|done| |by rewrite lookup_insert_eq].
    intros n x y Hx Hy. rewrite Hsame; [by eapply Hseg|]. intros ->. rewrite last_lookup in Hl. pose proof (lookup_lt_Some _ _ _ Hy). assert (n = pred (length seg)) by (eapply NoDup_lookup; [exact (seg_nodup i _ Hi)|done|done]). lia.
  - intros j x y [[-> ?]|[_ Hp]]%publishers_set; [done|]. destruct (Q7 j x y Hp) as [H0 (n & Hx & Hy)]. rewrite Hw by by eapply list_elem_of_lookup_2. eauto.
  - intros j j' x y y' [[-> ?]|[_ Hp]]%publishers_set [[-> ?]|[_ Hp']]%publishers_set; try done. by eapply Q8.
  - intros j f [[-> ?]|[_ Hp]]%publishers_set; [done|]. destruct (Q9 j f Hp) as (H1 & H2 & H3 & H4). split_and!; try done. intros j' f' [[-> ?]|[_ Hp']]%publishers_set; [done|]. by eapply H4.
  - unfold consumer_ok in *. cbn [consumer front publishers link set_publisher set_link]. destruct (consumer q); try done.
    1,2: destruct Q10 as [?|[? [?|(j & f & Hj)]]]; auto; right; split; [done|]; right; destruct (publisher_keeps i _ (PSwap seg first last_) (PFront f) Hi Hne) as [j' Hj']; eauto.
    destruct Q10 as (r & -> & Hc & Hb). exists r. split_and!; try done. by rewrite Hw by (apply elem_of_cons; by left).
Qed.

(** Nobody is about to link the last message. *)
Lemma last_unlinked j x y : last w = Some x -> publishers q !! j = Some (PLink x y) -> False.
Proof using Hq.
  intros Hl Hp. destruct (qi_pending _ _ Hq j x y Hp) as [_ (n & Hx & Hy)]. rewrite last_lookup in Hl. apply lookup_lt_Some in Hy.
  assert (n = pred (length w)); [|lia]. pose proof (qi_nodup _ _ Hq) as [Hnd _]%NoDup_app. by eapply NoDup_lookup.
Qed.

(** The exchange: the segment is in the queue, its link to the rest is not yet written. *)
Lemma swap_ok i seg first last_ : publishers q !! i = Some (PSwap seg first last_) -> exists q', enqueue_step i q = Ok q' /\ queue_ok q' (w ++ seg).
Proof using Hq.
  intros Hi. unfold enqueue_step. rewrite Hi. cbn [expect]. pose proof (qi_publishers _ _ Hq i _ Hi) as (Hf & Hl & Hseg & H0). assert (Hne : seg <> []) by by destruct seg. pose proof Hq as [Q1 Q2 Q3 Q4 Q5 Q6 Q7 Q8 Q9 Q10 Q11].
  set (p' := if negb (back q =? 0) then PLink (back q) first else PFront first). eexists. split; [done|]. assert (Hpriv : private p' = []) by (subst p'; by destruct (negb _)).
  destruct (private_set q i _ p' Hi) as [Hperm' Hperm]. rewrite Hpriv in Hperm'. cbn [private app set_publisher publishers] in Hperm, Hperm'. pose proof (lookup_lt_Some _ _ _ Hi) as Hlt.
  assert (Hback : (back q = 0 /\ w = []) \/ (last w = Some (back q) /\ 0 < back q)).
  { rewrite Q4. destruct (last w) as [b|] eqn:Hb; [right|left; split; [done|by apply last_None]]. split; [done|]. apply live_w. by apply last_Some_elem_of. }
  assert (Hhead : head (w ++ seg) = match head w with Some h => Some h | None => head seg end) by by destruct w.
  assert (Hlast : last (w ++ seg) = Some last_) by (rewrite last_app, Hl; done).
  split; cbn [link back front publishers consumer sent given set_publisher].
  - by rewrite Q1, app_assoc.
  - by rewrite <- app_assoc, Hperm', <- Hperm.
  - intros x. rewrite <- app_assoc, Hperm', <- Hperm. apply Q3.
  - by rewrite Hlast.
  - assert (Hsl : forall pend, linked (link q) pend seg) by (intros pend; split; [intros n x y Hx Hy; left; by eapply Hseg|intros x Hx; congruence]).
    destruct Hback as [[_ ->]|[Hb Hpos]]; [apply Hsl|]. apply (linked_app _ _ _ _ (back q) first); try done; [|by apply Q5|].
    + eapply linked_mono; [done| |exact Q5]. intros x y _ Hp. by eapply publisher_keeps.
    + exists i. cbn [publishers set_publisher]. rewrite list_lookup_insert_eq by done. subst p'. rewrite (proj2 (Z.eqb_neq _ _)) by lia. done.
  - apply publishers_frame; [done|]. subst p'. by destruct (negb _).
  - intros j x y [[-> Heq]|[_ Hp]]%publishers_set.
    + subst p'. destruct Hback as [[Hb _]|[Hb Hpos]]; [by rewrite Hb in Heq|]. rewrite (proj2 (Z.eqb_neq _ _)) in Heq by lia. injection Heq as -> ->. split; [by apply Q5|].
      apply last_Some in Hb as [w' ->]. exists (length w'). rewrite <- app_assoc. cbn [app]. split; [by rewrite list_lookup_middle|]. rewrite lookup_app_r by lia. replace (S (length w') - length w')%nat with 1%nat by lia. by destruct seg.
    + destruct (Q7 j x y Hp) as [? (n & Hx & Hy)]. split; [done|]. exists n. split; by apply lookup_app_l_Some.
  - intros j j' x y y' [[-> Heq]|[Hj Hp]]%publishers_set [[-> Heq']|[Hj' Hp']]%publishers_set; [done| | |by eapply Q8].
    all: exfalso; subst p'; destruct (Z.eqb_spec (back q) 0) as [|Hnz]; [done|]; cbn in *; simplify_eq; destruct Hback as [[? _]|[Hb _]]; [lia|]; by eapply last_unlinked.
  - assert (Hfirst : p' = PFront first -> w = [] /\ front q = 0 /\ (consumer q = CIdle \/ consumer q = CFront)).
    { intros Heq. destruct Hback as [[Hb ->]|[Hb Hpos]]; [|subst p'; rewrite (proj2 (Z.eqb_neq _ _)) in Heq by lia; done]. unfold consumer_ok in Q10. split; [done|].
      destruct (consumer q); try (destruct Q10 as [?|[? _]]; [done|auto]); try done; [by destruct Q10|by destruct Q10 as (? & ? & _)]. }
    intros j f [[-> Heq]|[Hj Hp]]%publishers_set.
    + assert (f = first) as -> by (subst p'; destruct (negb _); [done|by injection Heq as ->]). destruct (Hfirst (eq_sym Heq)) as (-> & H1 & H2). split_and!; [done|done|done|].
      intros j' f' [[-> _]|[_ Hp']]%publishers_set; [done|]. by destruct (Q9 j' f' Hp') as (_ & ? & _).
    + destruct (Q9 j f Hp) as (H1 & H2 & H3 & H4). rewrite Hhead, H2. split_and!; try done. intros j' f' [[-> Heq]|[_ Hp']]%publishers_set; [|by eapply H4].
      assert (f' = first) as -> by (subst p'; destruct (negb _); [done|by injection Heq as ->]). destruct (Hfirst (eq_sym Heq)) as (-> & _). done.
  - unfold consumer_ok in *. cbn [consumer front publishers link set_publisher]. destruct (consumer q) as [| |c|c b|c s' b|c]; rewrite ?Hhead.
    1,2: destruct Q10 as [->|[Hfr [->|(j & f & Hj)]]]; [by left|right; split; [done|]; right; exists i, first; rewrite list_lookup_insert_eq by done; subst p'; by rewrite Q4|].
    1,2: right; split; [done|]; right; destruct (publisher_keeps i _ p' (PFront f) Hi Hne) as [j' Hj']; eauto.
    + by rewrite Q10.
    + destruct Q10 as [-> Hb]. split; [done|]. apply elem_of_app. by left.
    + destruct Q10 as (r & -> & Hc & Hb). exists (r ++ seg). split_and!; [done|done|]. apply (elem_of_app (s' :: r) seg). by left.
    + by rewrite Q10.
  - intros _ Hn. by apply app_nil in Hn as [_ ?].
Qed.

Lemma private_nil i p p' : publishers q !! i = Some p -> private p' = private p -> (<[i := p']> (publishers q) ≫= private) = (publishers q ≫= private).
Proof using. intros Hi Hp. rewrite bind_insert by (by eapply lookup_lt_Some). by rewrite Hp, (bind_lookup _ _ _ _ Hi). Qed.

Lemma queue_link_ok i x y : publishers q !! i = Some (PLink x y) -> exists q', enqueue_step i q = Ok q' /\ queue_ok q' w.
Proof using Hq.
  intros Hi. unfold enqueue_step. rewrite Hi. cbn [expect]. destruct (qi_pending _ _ Hq i x y Hi) as [H0 (j & Hx & Hy)]. unfold store_next, load_next. rewrite H0. cbn [expect]. eexists. split; [done|].
  assert (Hsame : forall z, z <> x -> <[x := y]> (link q) !! z = link q !! z) by (intros z Hz; by rewrite lookup_insert_ne). pose proof (list_elem_of_lookup_2 _ _ _ Hx) as Hxw.
  pose proof Hq as [Q1 Q2 Q3 Q4 Q5 Q6 Q7 Q8 Q9 Q10 Q11]. split; cbn [link back front publishers consumer sent given set_publisher set_link]; try done; rewrite ?(private_nil i _ PDone Hi eq_refl); try done.
  - intros z Hz. destruct (Q3 z Hz) as [? ?]. split; [done|]. apply lookup_insert_is_Some'. by right.
  - destruct Q5 as [L1 L2]. split.
    + intros n a b Ha Hb. destruct (decide (a = x)) as [->|Hne].
      * assert (n = j) as -> by (apply NoDup_app in Q2 as [Hnd _]; by eapply NoDup_lookup). left. rewrite lookup_insert_eq. congruence.
      * rewrite Hsame by done. destruct (L1 n a b Ha Hb) as [?|[? [k Hk]]]; [by left|right]. split; [done|]. exists k. cbn [publishers set_publisher set_link]. rewrite list_lookup_insert_ne; [done|]. intros ->. congruence.
    + intros z Hz. rewrite Hsame; [by apply L2|]. intros ->. by eapply last_unlinked.
  - apply publishers_frame; [|done]. intros k p z _ Hp Hz. apply Hsame. intros ->. by destruct (live_private k p x Hp Hz) as (_ & _ & ?).
  - intros k a b [[-> ?]|[Hk Hp]]%publishers_set; [done|]. destruct (Q7 k a b Hp) as [? ?]. rewrite Hsame; [done|]. intros ->. by apply Hk, (Q8 k i x b y).
  - intros k k' a b b' [[-> ?]|[_ Hp]]%publishers_set [[-> ?]|[_ Hp']]%publishers_set; try done. by eapply Q8.
  - intros k f [[-> ?]|[_ Hp]]%publishers_set; [done|]. destruct (Q9 k f Hp) as (H1 & H2 & H3 & H4). split_and!; try done. intros k' f' [[-> ?]|[_ Hp']]%publishers_set; [done|]. by eapply H4.
  - unfold consumer_ok in *. cbn [consumer front publishers link set_publisher set_link]. destruct (consumer q) as [| |c|c b|c s' b|c]; try done.
    1,2: destruct Q10 as [?|[? [?|(k & f & Hk)]]]; auto; right; split; [done|]; right; exists k, f; rewrite list_lookup_insert_ne; [done|]; intros ->; congruence.
    destruct Q10 as (r & Hw & Hc & Hb). exists r. split_and!; try done. rewrite Hsame; [done|]. intros ->. assert (0 < s') by (apply live_w; rewrite Hw, !elem_of_cons; auto). rewrite Hc in H0. injection H0 as ->. lia.
Qed.

Lemma queue_front_ok i f : publishers q !! i = Some (PFront f) -> exists q', enqueue_step i q = Ok q' /\ queue_ok q' w.
Proof using Hq.
  intros Hi. unfold enqueue_step. rewrite Hi. cbn [expect]. eexists. split; [done|]. destruct (qi_front _ _ Hq i f Hi) as (H1 & H2 & H3 & H4).
  pose proof Hq as [Q1 Q2 Q3 Q4 Q5 Q6 Q7 Q8 Q9 Q10 Q11]. split; cbn [link back front publishers consumer sent given set_publisher set_front]; try done; rewrite ?(private_nil i _ PDone Hi eq_refl); try done.
  - eapply linked_mono; [done| |exact Q5]. intros x y _ [k Hk]. exists k. cbn [publishers set_publisher set_front]. rewrite list_lookup_insert_ne; [done|]. intros ->. congruence.
  - by apply publishers_frame.
  - intros k a b [[-> ?]|[_ Hp]]%publishers_set; [done|]. by eapply Q7.
  - intros k k' a b b' [[-> ?]|[_ Hp]]%publishers_set [[-> ?]|[_ Hp']]%publishers_set; try done. by eapply Q8.
  - intros k f' [[-> ?]|[Hk Hp]]%publishers_set; [done|]. by destruct Hk; eapply H4.
  - unfold consumer_ok. cbn [consumer front set_publisher set_front]. destruct H3 as [-> | ->]; by left.
Qed.

Lemma queue_enqueue_ok i : (i < length (publishers q))%nat -> exists q' w', enqueue_step i q = Ok q' /\ queue_ok q' w'.
Proof using Hq.
  intros [p Hi]%lookup_lt_is_Some_2. destruct p as [seg a b|seg a b|x y|f|].
  - destruct (start_ok i seg a b Hi) as (q' & ? & ?). eauto.
  - destruct (swap_ok i seg a b Hi) as (q' & ? & ?). eauto.
  - destruct (queue_link_ok i x y Hi) as (q' & ? & ?). eauto.
  - destruct (queue_front_ok i f Hi) as (q' & ? & ?). eauto.
  - exists q, w. unfold enqueue_step. by rewrite Hi.
Qed.

(** A step of the consumer that only moves it on. *)
Lemma consumer_ok_set c : consumer_ok (set_consumer c q) w -> (c = CIdle \/ c = CFront \/ forall i f, publishers q !! i <> Some (PFront f)) -> queue_ok (set_consumer c q) w.
Proof using Hq.
  intros Hc Hf. pose proof Hq as [Q1 Q2 Q3 Q4 Q5 Q6 Q7 Q8 Q9 Q10 Q11]. split; try done. intros i f Hi. destruct (Q9 i f Hi) as (H1 & H2 & H3 & H4). split_and!; try done. cbn [consumer set_consumer]. destruct Hf as [?|[?|Hn]]; auto. by destruct (Hn i f).
Qed.

Lemma no_front : consumer q <> CIdle -> consumer q <> CFront -> forall i f, publishers q !! i <> Some (PFront f).
Proof using Hq. intros H1 H2 i f Hi. destruct (qi_front _ _ Hq i f Hi) as (_ & _ & [?|?] & _); done. Qed.

Lemma queue_consume_ok c s b keep_going : consumer q = CConsume c s b -> exists r q', w = c :: s :: r /\ link q !! c = Some s /\ drain_step keep_going q = Ok q' /\ queue_ok q' (s :: r).
Proof using Hq.
  intros Hc. pose proof (no_front ltac:(by rewrite Hc) ltac:(by rewrite Hc)) as Hnf. pose proof (qi_consumer _ _ Hq) as Hco. unfold consumer_ok in Hco. rewrite Hc in Hco. destruct Hco as (r & Hw & Hl & Hb).
  unfold drain_step, load_next. rewrite Hc, Hl. cbn [expect]. eexists r, _. split_and!; [done|done|done|]. pose proof Hq as [Q1 Q2 Q3 Q4 Q5 Q6 Q7 Q8 Q9 Q10 Q11]. rewrite Hw in Q1, Q2, Q4, Q5.
  assert (Hs : 0 < s) by (apply live_w; rewrite Hw, !elem_of_cons; auto). assert (Hfresh : forall x, x ∈ (s :: r) ++ (publishers q ≫= private) -> x <> c).
  { cbn in Q2. apply NoDup_cons in Q2 as [Hn _]. intros x Hx ->. by apply Hn. }
  assert (Hsame : forall x, x <> c -> delete c (link q) !! x = link q !! x) by (intros x Hx; by rewrite lookup_delete_ne).
  assert (Hpriv : forall k p x, publishers q !! k = Some p -> x ∈ private p -> x <> c).
  { intros k p x Hp Hx. apply Hfresh, elem_of_app. right. apply list_elem_of_bind. exists p. split; [done|by eapply list_elem_of_lookup_2]. }
  split; cbn [link back front publishers consumer sent given set_consumer]; try done.
  - by rewrite Q1, <- app_assoc.
  - cbn in Q2. by apply NoDup_cons in Q2 as [_ ?].
  - intros x Hx. rewrite Hsame by by apply Hfresh. apply Q3. rewrite Hw. cbn. apply elem_of_cons. by right.
  - eapply linked_mono; [| |by eapply linked_tail]; [|done]. intros x Hx. apply Hsame, Hfresh, elem_of_app. by left.
  - intros i p Hp. apply (publishers_frame (delete c (link q)) (length (publishers q)) PDone) with (j := i); [|done|by rewrite list_insert_ge by lia]. intros j p0 x _ Hp0 Hx. by eapply Hsame, Hpriv.
  - intros i x y Hp. destruct (Q7 i x y Hp) as [H0 (j & Hx & Hy)]. assert (Hxc : x <> c) by (intros ->; rewrite Hl in H0; injection H0 as ->; lia). rewrite Hsame by done. split; [done|]. rewrite Hw in Hx, Hy. destruct j as [|j]; [cbn in Hx; congruence|]. by exists j.
  - intros i f Hi. by destruct (Hnf i f).
  - unfold consumer_ok. cbn [consumer set_consumer]. by destruct keep_going.
Qed.

Lemma drain_ok keep_going : exists q' w', drain_step keep_going q = Ok q' /\ queue_ok q' w'.
Proof using Hq.
  pose proof (qi_consumer _ _ Hq) as Hco. destruct (consumer q) as [| |c|c b|c s b|c] eqn:Hc; [| | | |by destruct (queue_consume_ok c s b keep_going Hc) as (r & q' & _ & _ & ? & ?); eauto|]; unfold drain_step; rewrite Hc; unfold consumer_ok in Hco; rewrite Hc in Hco.
  - by exists q, w.
  - eexists _, w. split; [done|]. destruct (Z.eqb_spec (front q) 0) as [Hf|Hf]; apply consumer_ok_set; auto.
    + cbn. by destruct Hco as [?|[? _]].
    + right. right. intros i f Hi. by destruct (qi_front _ _ Hq i f Hi).
  - eexists _, w. split; [done|]. apply consumer_ok_set; [|right; right; apply no_front; by rewrite Hc]. cbn. split; [done|]. rewrite (qi_back _ _ Hq). destruct (last w) eqn:Hl; [by apply last_Some_elem_of|apply last_None in Hl; by rewrite Hl in Hco].
  - destruct Hco as [Hh Hb]. assert (Hnf : forall i f, publishers q !! i <> Some (PFront f)) by (apply no_front; by rewrite Hc). destruct (Z.eqb_spec c b) as [->|Hne]; cbn [negb]; [eexists _, w; split; [done|]; apply consumer_ok_set; auto|].
    assert (exists s r, w = c :: s :: r) as (s & r & Hw).
    { clear Hq. destruct w as [|a [|s r]]; [done|injection Hh as ->; apply list_elem_of_singleton in Hb; congruence|]. injection Hh as ->. eauto. }
    destruct (qi_linked _ _ Hq) as [L _]. unfold load_next.
    destruct (L 0%nat c s) as [Hl|[Hl _]]; [by rewrite Hw..| |]; rewrite Hl; cbn [expect]; (eexists _, w; split; [done|]); apply consumer_ok_set; auto.
    assert (0 < s) by (apply live_w; rewrite Hw, !elem_of_cons; auto). rewrite (proj2 (Z.eqb_neq s 0)) by lia. exists r. split_and!; [done|done|]. rewrite Hw, elem_of_cons in Hb. by destruct Hb.
  - eexists _, w. split; [done|]. pose proof (no_front ltac:(by rewrite Hc) ltac:(by rewrite Hc)) as Hnf. pose proof Hq as [Q1 Q2 Q3 Q4 Q5 Q6 Q7 Q8 Q9 Q10 Q11]. split; try done.
    + intros i f Hi. by destruct (Hnf i f).
    + cbn. by left.
Qed.
End enqueue.

Lemma queue_step_ok q w e : queue_ok q w -> allowed q e = true -> exists q' w', step q e = Ok q' /\ queue_ok q' w'.
Proof.
  intros Hq Ha. destruct e as [seg|i| |keep_going].
  - destruct (publish_ok q w seg Hq Ha) as (q' & ? & ?). eauto.
  - by apply (queue_enqueue_ok q w Hq), Nat.ltb_lt.
  - cbn [step]. eexists _, w. split; [done|]. destruct (consumer q) eqn:Hc; try done. apply consumer_ok_set; auto. pose proof (qi_consumer _ _ Hq) as Hco. unfold consumer_ok in *. by rewrite Hc in Hco.
  - by eapply drain_ok.
Qed.

Lemma queue_run_ok es : forall q w, queue_ok q w -> run_allowed es q = true -> exists q' w', run es q = Ok q' /\ queue_ok q' w'.
Proof.
  induction es as [|e es IH]; intros q w Hq; cbn [run_allowed run]; [by eexists _, w|]. intros [He Hes]%andb_true_iff. destruct (queue_step_ok q w e Hq He) as (q1 & w1 & Hs & Hq1). rewrite Hs in *. by eapply IH.
Qed.

(** ** Draining *)

(** Every exchange is linked up. *)
Definition settled (q : Queue) : Prop := forall i p, publishers q !! i = Some p -> match p with PLink _ _ | PFront _ => False | _ => True end.

Lemma run_app es es' q q' : run es q = Ok q' -> run (es ++ es') q = run es' q'.
Proof. revert q. induction es as [|e es IH]; intros q; cbn [run app]; [by intros [= ->]|]. destruct (step q e); try done. apply IH. Qed.

Lemma drain_loop r : forall q c b, queue_ok q (c :: r) -> settled q -> consumer q = CLoop c b -> last (c :: r) = Some b ->
  exists q', run (replicate (2 * length r + 2) (QConsume true)) q = Ok q' /\ consumer q' = CIdle /\ front q' = b /\ back q' = back q /\ sent q' = sent q /\ queue_ok q' [b].
Proof.
  induction r as [|s r IH]; intros q c b Hq Hs Hc Hl.
  - injection Hl as ->. cbn. unfold drain_step at 1. rewrite Hc, Z.eqb_refl. cbn. eexists. split_and!; try done. destruct (drain_ok _ _ (consumer_ok_set q [b] Hq (CEnd b) eq_refl ltac:(right; right; eapply no_front; [exact Hq|by rewrite Hc|by rewrite Hc]))  true) as (q' & w' & Hd & Hq').
    injection Hd as <-. assert (w' = [b]) as ->; [|done]. pose proof (qi_sent _ _ Hq) as H1. pose proof (qi_sent _ _ Hq') as H2. cbn in H1, H2. rewrite H1 in H2. by apply app_inv_head in H2.
  - rewrite last_cons_cons in Hl. assert (Hne : c <> b).
    { intros ->. pose proof (qi_nodup _ _ Hq) as [Hnd _]%NoDup_app. apply NoDup_cons in Hnd as [Hn _]. by apply Hn, last_Some_elem_of. }
    assert (Hlink : link q !! c = Some s). { destruct (qi_linked _ _ Hq) as [L _]. destruct (L 0%nat c s eq_refl eq_refl) as [?|[_ [i Hi]]]; [done|]. by destruct (Hs i _ Hi). }
    assert (Hpos : 0 < s) by (apply (live_w _ _ Hq); rewrite !elem_of_cons; auto). replace (2 * length (s :: r) + 2)%nat with (S (S (2 * length r + 2))) by (cbn; lia). cbn [replicate run step].
    unfold drain_step at 1. rewrite Hc, (proj2 (Z.eqb_neq c b)) by done. cbn [negb]. unfold load_next. rewrite Hlink. cbn [expect]. rewrite (proj2 (Z.eqb_neq s 0)) by lia.
    set (q1 := set_consumer (CConsume c s b) q). assert (Hq1 : queue_ok q1 (c :: s :: r)).
    { apply consumer_ok_set; [done| |right; right; eapply no_front; [exact Hq|by rewrite Hc|by rewrite Hc]]. exists r. split_and!; try done. by apply last_Some_elem_of. }
    destruct (queue_consume_ok q1 _ Hq1 c s b true eq_refl) as (r' & q2 & [= <-] & _ & Hd & Hq2). rewrite Hd. unfold drain_step, load_next in Hd. cbn in Hd. rewrite Hlink in Hd. injection Hd as <-.
    edestruct (IH _ s b Hq2) as (q' & Hrun & H1 & H2 & H3 & H4 & H5); [done|done|done|]. exists q'. by split_and!.
Qed.

(** ** Theorems *)

(** C20. Whatever the order of the operations of any number of publishers and the consumer: no operation reads or writes a
    message that the consumer has taken over (its memory may be in use again, even as a new message), and the messages
    are consumed exactly once, in the order in which they were published: what was published
    is what was consumed followed by what waits, and the last published message always waits. *)
Theorem queue_delivers_in_order es : run_allowed es queue_new = true ->
  exists q waiting, run es queue_new = Ok q /\ sent q = given q ++ waiting /\ (sent q <> [] -> last waiting = Some (back q)) /\ NoDup waiting /\ forall x, x ∈ waiting -> is_Some (link q !! x).
Proof.
  intros Hes. destruct (queue_run_ok es _ _ queue_new_ok Hes) as (q & w & Hrun & Hq). exists q, w. split_and!; [done|apply Hq| |by pose proof (qi_nodup _ _ Hq) as [? _]%NoDup_app|intros x Hx; by apply (live_w _ _ Hq)].
  intros Hs. rewrite (qi_back _ _ Hq). destruct (last w) eqn:Hl; [done|]. apply last_None in Hl. by destruct (qi_kept _ _ Hq Hs).
Qed.

(** C21. Nothing is left behind: when every exchange has been linked up (other publishers may be about to start), one call of [drain] whose
    callback does not stop it consumes, in two operations per message, everything but the last
    message, and there is nothing to dequeue any more. *)
Theorem queue_drains es q : run_allowed es queue_new = true -> run es queue_new = Ok q -> consumer q = CIdle -> settled q ->
  exists q', run (QDrain :: replicate (2 * (length (sent q) - length (given q)) + 2) (QConsume true)) q = Ok q'
    /\ consumer q' = CIdle /\ can_dequeue q' = false /\ sent q' = sent q /\ given q' = removelast (sent q).
Proof.
  intros Hes Hrun Hc Hs. destruct (queue_run_ok es _ _ queue_new_ok Hes) as (q0 & w & Hrun0 & Hq). rewrite Hrun in Hrun0. injection Hrun0 as <-. pose proof (qi_consumer _ _ Hq) as Hco. unfold consumer_ok in Hco. rewrite Hc in Hco.
  replace (length (sent q) - length (given q))%nat with (length w) by (rewrite (qi_sent _ _ Hq), length_app; lia). cbn [run step]. rewrite Hc. destruct w as [|c r].
  - destruct Hco as [?|[Hf _]]; [done|]. assert (Hsent : sent q = []) by (destruct (sent q) eqn:E; [done|]; destruct (qi_kept _ _ Hq); [by rewrite E|done]).
    pose proof (qi_sent _ _ Hq) as H1. rewrite Hsent, app_nil_r in H1. pose proof (qi_back _ _ Hq) as Hb. cbn in Hb. cbn [length Nat.mul Nat.add replicate run step]. unfold drain_step at 1. cbn [consumer set_consumer front]. rewrite Hf. cbn. eexists. split; [reflexivity|]. unfold can_dequeue. cbn. by rewrite Hf, Hb, Hsent, <- H1.
  - assert (Hf : front q = c). { destruct Hco as [[= ->]|[_ [?|(i & f & Hi)]]]; [done|done|]. by destruct (Hs i _ Hi). } assert (Hpos : 0 < c) by (apply (live_w _ _ Hq); apply elem_of_cons; by left).
    replace (2 * length (c :: r) + 2)%nat with (S (S (2 * length r + 2))) by (cbn; lia). cbn [replicate run step]. unfold drain_step at 1. cbn [consumer set_consumer front]. rewrite Hf, (proj2 (Z.eqb_neq c 0)) by lia. unfold drain_step at 1. cbn [consumer set_consumer back].
    destruct (last (c :: r)) as [b|] eqn:Hl; [|by apply last_None in Hl]. assert (Hb : back q = b) by (rewrite (qi_back _ _ Hq), Hl; done). subst b.
    destruct (drain_loop r (set_consumer (CLoop c (back q)) q) c (back q)) as (q' & Hrun' & H1 & H2 & H3 & H4 & H5); [|done|done|done|].
    { apply consumer_ok_set; [done|split; [done|by apply last_Some_elem_of]|]. right. right. intros i f Hi. by destruct (Hs i _ Hi). }
    cbn in H3, H4. unfold set_consumer in *. cbn [link back front publishers sent given] in *. rewrite Hrun'. exists q'. split_and!; [done|done| |done|].
    + unfold can_dequeue. by rewrite H2, H3, Z.eqb_refl.
    + pose proof (qi_sent _ _ H5) as H6. rewrite H4 in H6. by rewrite H6, removelast_last.
Qed.

(** ** Concrete runs *)

(** Two publishers overlap; the consumer stops at the link that is missing, and goes on once it is there. *)
Definition sample_events : list Event :=
  [QPublish [16; 32]; QPublish [48]; QEnqueue 0; QEnqueue 0; QEnqueue 0; QEnqueue 1; QEnqueue 1; QDrain] ++ replicate 6 (QConsume true) ++ [QEnqueue 1].

Example sample_run : match run sample_events queue_new with Ok q => (given q, front q, back q) = ([16], 32, 48) | _ => False end.
Proof. vm_compute. reflexivity. Qed.

Lemma queue_delivers_in_order_witness : exists q waiting, run sample_events queue_new = Ok q /\ sent q = given q ++ waiting /\ (sent q <> [] -> last waiting = Some (back q)) /\ NoDup waiting /\ forall x, x ∈ waiting -> is_Some (link q !! x).
Proof. apply queue_delivers_in_order. vm_compute. reflexivity. Defined.

Definition sample_queue : Queue := match run sample_events queue_new with Ok q => q | _ => queue_new end.

Lemma queue_drains_witness : exists q', run (QDrain :: replicate (2 * (length (sent sample_queue) - length (given sample_queue)) + 2) (QConsume true)) sample_queue = Ok q'
    /\ consumer q' = CIdle /\ can_dequeue q' = false /\ sent q' = sent sample_queue /\ given q' = removelast (sent sample_queue).
Proof. apply (queue_drains sample_events); [vm_compute; reflexivity|vm_compute; reflexivity|vm_compute; reflexivity|]. assert (Hp : publishers sample_queue = [PDone; PDone]) by (vm_compute; reflexivity). intros i p. rewrite Hp. by destruct i as [|[|i]]; intros [= <-]. Defined.
